(* ===== verification/_CoqProject ===== *)
-Q . S2P
Prelude.v
Clock.v
Locator.v
Patch.v
SumTree.v
SumTreeInvariant.v
SumTreeFind.v
SumCursor.v
SumCursorSeek.v
SumCursorSearch.v
SumIter.v
KeyedTree.v
KeyedTreeSpec.v
TreeMap.v
TreeMapSpec.v
SumTreeProps.v
TreeMapProps.v
Text.v
TextSpec.v
Bits.v
NthSetBit.v
Utf8.v
Chunk.v
ChunkSpec.v
ChunkPositions.v
Rope.v
RopePositions.v
RopeSpec.v
RopeCursorSpec.v
RopePositionsSpec.v
RopeClipSpec.v
RopeProps.v
RopeIter.v
RopeIterSpec.v
RopeReadSpec.v
RopeBytesSpec.v
RopeLinesSpec.v
RopeReadProps.v
UndoMap.v
UndoMapSpec.v
KeyContext.v
KeyParser.v
KeyParserSpec.v
KeyParserProps.v
Keymap.v
KeymapSpec.v
History.v
HistorySpec.v
Buffer.v
BufferSpec.v
DeliverySpec.v
Fragments.v
FragmentsSpec.v
LocalEdit.v
EditBooks.v
EditWalk.v
EditSpec.v
EditProps.v
Anchors.v
AnchorSpec.v
AnchorPlaces.v
AnchorProps.v
FragmentUndo.v
UndoIds.v
UndoWalk.v
UndoSpec.v
UndoProps.v
F32.v
PaneGroup.v
SplitGuard.v
DropZone.v
Persistence.v
TerminalGroup.v
GroupInvariant.v
LayoutRestore.v
GroupProps.v
GroupWorkers.v
GroupTree.v
GroupDrops.v
