(* ===== verification/Prelude.v ===== *)
(** * Verification of the Rdg editor core

    Rdg is a code editor and terminal workspace written in Rust (under
    [src/crates]).  This library models the parts that carry its own logic and
    proves what makes them correct.  All paths below are under [src/crates].

    ** Parts and files

    - [Prelude]: machine widths, panics ([res]), [Vec] operations with their
      panics, lexicographic order, and the tactics and list lemmas the other
      files share.
    - [F32]: the [f32] operations the code uses, on the standard library's
      executable binary32 ([SpecFloat]), [total_cmp] included.
    - [Clock]: [clock/src/clock.rs].  [Lamport] and [Global] are a [Module]
      each, one definition per method.
    - [Locator]: [text/src/locator.rs], the fragment locators of the CRDT.
    - [Patch]: [text/src/patch.rs], the edits between two versions of a text and
      their composition.
    - [SumTree]: [sum_tree/src/sum_tree.rs], the B+ tree every text structure of the
      editor is kept in: nodes, building, appending, updating the ends, finding.
      What it is built over ([Summary], [Item], [Dimension], [SeekTarget]) are type
      classes with classes of laws, as they are traits in the source.
    - [SumCursor]: [sum_tree/src/cursor.rs], cursors as the stack machines they are,
      with the aggregates of a seek ([SeekAggregate] is a class), [Iter] and
      [FilterCursor].
    - [KeyedTree], [TreeMap]: trees of keyed items (the [KeyedItem] part of
      [sum_tree.rs]) and [sum_tree/src/tree_map.rs].
    - [SumTreeInvariant], [SumTreeFind], [SumCursorSeek], [SumCursorSearch],
      [SumIter], [KeyedTreeSpec], [TreeMapSpec]: their invariants and
      specifications; [SumTreeProps], [TreeMapProps]: what they promise, and
      samples.
    - [Text]: points, UTF-16 points and [TextSummary] ([rope/src/rope.rs], [point.rs],
      [point_utf16.rs]); [TextSpec]: summaries of texts are a monoid.
    - [Bits], [NthSetBit]: words of 128 bits and what their bits are; the branch-free
      selection of a bit.  [Utf8]: encoded texts, their boundaries and marks.
    - [Chunk]: [rope/src/chunk.rs], a text of at most 128 bytes with four bitmaps;
      [ChunkSpec], [ChunkPositions]: its operations, conversions and clipping.
    - [Rope], [RopePositions], [RopeIter]: [rope/src/rope.rs], the tree of chunks with its
      measures and cursors, the positions of a text, and the iterators over chunks,
      bytes and lines; [RopeSpec], [RopeCursorSpec], [RopePositionsSpec],
      [RopeClipSpec], [RopeIterSpec], [RopeReadSpec], [RopeBytesSpec],
      [RopeLinesSpec]: their specifications; [RopeProps], [RopeReadProps]: what a
      rope promises.
    - [UndoMap], [UndoMapSpec]: [text/src/undo_map.rs], how often each edit was undone,
      and the visibility of fragments that [text/src/text.rs] reads off it.
    - [History], [HistorySpec]: the [History] of [text/src/text.rs], transactions on an
      undo and a redo stack.
    - [Buffer]: the [Buffer] of [text/src/text.rs], as far as its history, clocks and
      undo map go, and [text/src/operation_queue.rs]; [BufferSpec]: undo and redo;
      [DeliverySpec]: how remote operations are delivered and deferred, without what
      they do to fragments and text.
    - [Fragments]: what a [BufferSnapshot] of [text/src/text.rs] keeps: fragments and
      their summaries, two ropes, the index of insertions, and the builders of new
      fragments and text; [FragmentsSpec]: their laws.
    - [LocalEdit]: [apply_edit_internal], the walk over the fragments that a local edit
      is; [EditBooks]: what the walk has built, [EditWalk]: its steps, [EditSpec]: the
      whole of it; [EditProps]: what an edit promises, and a sample.
    - [Anchors]: [text/src/anchor.rs] and the functions of [text/src/text.rs] that make and
      resolve anchors; [AnchorSpec]: where an anchor resolves, [AnchorPlaces]: how places
      move and compare; [AnchorProps]: what anchors promise.
    - [FragmentUndo]: [fragment_ids_for_edits] and [apply_undo] of [text/src/text.rs];
      [UndoIds]: which fragments an undo finds, [UndoWalk]: how they are refreshed,
      [UndoSpec]: the whole of it against the log of undo operations; [UndoProps]: what
      undo and redo promise of the text.
    - [KeyContext]: [gpui/src/keymap/context.rs], contexts and the predicates of key
      bindings; [KeyParser]: their parsers and printers; [KeyParserSpec],
      [KeyParserProps]: the parser without its fuel, and round trips.
    - [Keymap], [KeymapSpec]: [gpui/src/keymap.rs], [keymap/binding.rs] and the matching
      of [platform/keystroke.rs]: which bindings an input triggers.
    - [PaneGroup]: [workspace/src/pane_group.rs] and what it calls of
      [gpui/src/geometry.rs].  [Member] is the tree, [PaneAxis] an axis with its
      parallel vectors of flexes and cached boxes; [axis_split], [axis_remove] and
      so on are the methods of [PaneAxis], [split], [remove] and so on those of
      [PaneGroup].  [paint] is what the prepaint of the axes' elements does to the
      cached boxes, given the bounds the layout engine hands each axis.  Entities are
      numbers; the [is_center] flag a pane keeps is a map from panes.
    - [SplitGuard], [DropZone], [Persistence]: [terminal_group/src/split_guard.rs],
      [drag.rs] and [persistence.rs], which are pure in the source.
    - [TerminalGroup]: [terminal_group/src/terminal_group.rs], the entity the
      terminal workspace is.  [TG] is its state, [M] the computations of its
      handlers, [Env] what they read of terminals, settings and project.
    - [GroupInvariant], [LayoutRestore]: the invariant [Inv] of the group, the
      rule that each handler keeps it, and what restoring a layout creates.
    - [GroupProps], [GroupWorkers], [GroupTree], [GroupDrops]: the properties of
      the group.

    ** How the parts interact

    The group owns a [PaneGroup] and calls it for every change of the grid
    ([center_split], [center_remove], [swap], [move_to_border],
    [reset_pane_sizes]); it asks [SplitGuard.resolve_split] before a split, after
    measuring the tile from its terminal, its painted box or the size predicted
    for it; it turns a pointer position into a zone with [DropZone.zone_at]; and it
    stores its tree as a [SerializedTileTree] and rebuilds it from one that
    [Persistence.load_layout] accepted.  Work a handler leaves for later (a shell
    starting, an overflow terminal, a restart, an adopted tab) is a [task] in the
    state, so [GroupInvariant.exec] can run it in any order with respect to the
    other operations, paintings included.  [GroupProps.group_reachable] is every
    interleaving in which each operation meets [op_ok]: what is pointed at, dragged
    and dropped on are tiles of the group.

    A sum tree is abstracted to the list of its items ([to_list]) under the
    well-formedness [wf]; a cursor to the place it stands at ([at_place]: not
    sought, before the first item, at an item with what is before and after it, or
    after the last one).  Cursors use appending through [AggregateLaws], keyed
    trees use cursors through their places, and tree maps use keyed trees through
    [KeyedLaws]; their contents are a finite map.  The undo map is another client of
    keyed trees, whose summaries are maxima; it is abstracted to the undo operations
    it was given.

    A rope is a sum tree of chunks.  [rope_of r ts] says that its tree is well formed and
    its chunks are the pieces [ts], each a text within the bound with the right bitmaps,
    and [holds r s] that the pieces make up the text [s]; every operation is specified
    on the text alone.  What a chunk measures ([TextDimension]) is a class, and
    [TextMeasure] its laws: a measure of texts that adds up.  Chunks are abstracted to
    the lists of their marks, of which the bitmaps are the numbers; an iterator to the
    range it is over and the offset it has read up to ([forward_at], [reversed_at]).

    A buffer puts an operation it makes or receives into its history, carries it out if
    its version has seen what the operation depends on, and else puts it into a queue,
    which is a keyed tree as well.  There an operation carried out is a value the definitions
    return, in order; [sound] abstracts a buffer to the operations it carried out,
    latest first.  What a local edit does to the text is [LocalEdit], on the snapshot.

    A snapshot is abstracted to parts, the fragments with the bytes they stand for
    ([spells]): its fragments are a sum tree of them, its ropes hold the bytes of the
    visible and of the deleted ones, and its index of insertions finds each.  A byte has a
    name, the edit that inserted it and its place there ([all_chars], [shown]), which no
    later edit changes.  An anchor is such a name and a side of it, so that its place is how
    many visible bytes are in front of that byte ([anchor_place]).  An undo operation goes
    to the undo map and then to the fragments its edits inserted or deleted, found by the
    slices the edits recorded; [undoable] says that the slices cover all of these and that
    what fragments show is what the log of undo operations gives ([seen_in]).

    The keymap asks a binding's predicate for its depth in the stack of contexts and
    compares predicates with the superset test; actions are a class, as they are a
    trait in the source.  What the parsers need of Unicode is a class with laws
    ([CharLaws]).

    ** What the theorems show

    - Safety: [GroupProps.terminal_group_safe] and
      [PaneGroup.reachable_group_safe] (an invariant every operation keeps, and no
      panic), [GroupDrops.apply_drop_keeps_tiles],
      [KeyContext.superset_sound]; the lemmas
      [PaneGroup.hit_test_sound] and [PaneGroup.resize_reset_keep_panes].
    - Sum trees: [build_spec] (every operation keeps [wf] and acts on the contents as
      on a list), [find_spec] and [seek_spec] (searching and seeking are scans of
      the list, for targets the positions meet in order), [search_spec],
      [iterate_spec], and [tree_map_refines] (a map is a finite map).
    - Ropes: [rope_edits_spec] and [rope_slices_spec] (building, pushing, appending,
      replacing and slicing act on the text, and keep the tree's invariants),
      [rope_positions_spec] (offsets, UTF-16 offsets, points and UTF-16 points of a
      place in the text convert to each other), [rope_clips_spec] and
      [rope_boundaries_spec] (any position becomes one of the text), [rope_reading_spec]
      and [rope_lines_spec] (iterators), [text_summaries_spec]; of chunks
      [chunk_ops_spec], [chunk_positions_spec] and [nth_set_bit_correct].
    - Editing: [local_edit_text] (a local edit is the replacement of ranges of the visible
      text, byte by byte, with the patch and the operation that describe it) and
      [local_edit_fragments] (it keeps [spells], cuts and marks fragments without
      losing any, and what a fragment shows stays what the undo map says).
    - Anchors: [anchors_survive_edit] (an anchor keeps to its byte through an edit),
      [anchor_roundtrip] and [anchor_order] (comparing anchors agrees with the text).
    - Undo of the text: [undo_text] (whatever the operation and the edits since, every
      fragment gets the visibility of the log, those with a part in it observe the
      operation in [max_undos], and nothing else changes) and
      [edit_undo_redo] (undo takes back a local edit byte by byte, redo brings it back).
    - Undo: [undo_map_refines] (the counts are those of the set of operations received,
      in whatever order, and an undo flips exactly its edits), [undo_redo_spec],
      [undo_to_spec], [history_safe] (no edit in two transactions, none lost, no
      failure beyond the assertions), [grouping_spec].
    - Replication, of operations and undo counts: [delivery_spec] (each operation once,
      after what it depends on, none lost, none left waiting without need) and
      [replicas_converge] (the same operations carried out, the same counts).
    - Key bindings: [eval_spec] (the greedy evaluation is the relation a predicate
      describes), [bindings_for_input_spec] (ranking, suppression and waiting),
      [keymap_index_spec] (the indices stay those of the bindings).
    - Functional behaviour, refusals and errors included: [split_pane_spec],
      [control_tree_spec], [split_reading_order],
      [remove_spec], [move_to_border_spec], [zone_at_spec], and the specifications of
      the clock; the lemmas [remove_tile_forgets_worker], [control_report_listing],
      [swap_spec] and [resolve_split_spec].
    - Termination: [GroupWorkers.close_subtree_exact], [GroupTree.control_tree_spec]
      and [Locator.between_strictly_between] give a result, cycles of parent
      records included; [predicate_roundtrip] says so of the predicate parser, and
      [context_parse_spec] on which texts the context parser ends.
    - Round trips: [layout_roundtrip], [split_remove_roundtrip],
      [demote_promote_roundtrip], [shell_quote_roundtrip], [predicate_roundtrip],
      [context_parse_spec], [Patch.invert_roundtrip].
    - Flaws found: [merge_into_absent_forgets] and [push_transaction_keeps_redo]
      ([HistorySpec]), [extend_duplicates] and [remove_range_reversed]
      ([TreeMapProps]), [display_loses_parentheses] and [context_parse_diverges]
      ([KeyParserProps]), [superset_unsound_with_not] ([KeyContext]),
      [unbind_stops_waiting] ([KeymapSpec]), the lemmas [foreign_swap_loses_target],
      [stale_swap_loses_dragged], [adopt_exceeds_cap] ([GroupDrops]),
      [add_newline_miscounts] ([TextSpec]), [slice_rounding_full] ([ChunkSpec]), those of
      the module [Flaws] of [RopeReadProps] (reversed iterators, bytes read twice) and
      [restored_child_is_lost] ([GroupTree]), and the branches that
      [remove_tile_forgets_worker] and [control_report_listing] state.

    ** Fuel and bounds

    [subtree_loop] runs on one unit of fuel more than there are workers with
    metadata and [tree_loop] on as many as there are listed entries; a worker is
    pushed for its one recorded parent only, so each loop pops no more than that,
    and the theorems show that the fuel suffices.  [between_loop] has one unit more
    than the longer operand has digits, past which the padding digits differ.
    A cursor's loops have twice as many units as its tree has nodes and slots, and a
    few more; seeking and searching are shown to give a result.  Its stack holds 16
    entries, so those theorems ask for a tree of fewer than 16 levels; a tree with
    half-full nodes has that many only past a billion items.
    Theorems that read or cut a rope ask for such a tree ([shallow]), and those that
    build a new rope from parts for the parts in between as well.  Pushing a text has
    as much fuel as the text has bytes, each round taking at least one; the
    iterators as much as a cursor's loops, more than there are chunks; searching for
    the end of a grapheme as much as the chunk has bytes left.  Lengths, rows and
    columns are naturals: a text is taken to be shorter than 4 gigabytes, past which
    the [u32] of a row or column would wrap.
    A local edit visits each fragment once or twice for each edit and has the fuel of a
    cursor's loops for it; inserting a text, as much as the text has bytes.  Its theorems
    ask that slices of the two ropes be shallow ([cuttable]), as those of ropes of one
    chunk are shown to be, and that the trees have fewer than 16 levels.  So do those of
    undos ([can_undo]), which have the fuel of the index of insertions for each slice.
    The predicate parser has two units for each character and two more, and more change
    nothing; the context parser takes its fuel as an argument because it does not
    always end.
    Entity ids stay below [OVERFLOW_ID_BASE] where a theorem says so; overflow ids
    start there.  Counters of [u32] and digits of [u64] wrap or saturate as in a
    release build.  Where a chunk, a rope or an anchor checks a position with
    [debug_panic!] or a debug assertion, the build is a parameter ([DebugAssertions])
    and the theorems say what each does; the assertions about the sum of the flexes of
    an axis are left out.

    ** Not modelled

    The layout engine (the bounds of an axis are given to [paint]) and drawing, the
    processes behind terminals,
    JSON and SQLite (the parameter [from_str]), the parsing of keystrokes and the Windows
    variant of their matching, [cx.notify] and logging.  Sum
    tree nodes are values: sharing and copying on write are not observable.  The
    segmentation of graphemes is a class with laws ([Graphemes]) and the parallel
    collecting of chunks a parameter that gives what collecting them in order gives.
    Line endings are normalised by
    a regular expression, here a parameter ([LineSeparators]), and the longest insertion
    of one fragment another, of at least four bytes.  The casts of lengths to [u32] are
    identities here, true of insertions below 4 gigabytes.
    Of the text buffer, carrying out remote edits on fragments, the text at an
    older version and the edits since one are not modelled; of the rest of the editor
    (language support, project, Vim mode, the UI framework) nothing is.  They are clients of
    what is modelled here, most of them with I/O. *)

From Stdlib Require Export ZArith Lia Bool.
From stdpp Require Export base tactics option list numbers gmap sorting.

#[export] Set Default Goal Selector "!".
#[global] Open Scope Z_scope.

(** ** Machine widths *)

Definition U16_MAX : Z := 2 ^ 16 - 1.
Definition U32_MAX : Z := 2 ^ 32 - 1.
Definition U64_MAX : Z := 2 ^ 64 - 1.

Definition is_u16 (x : Z) : Prop := 0 <= x <= U16_MAX.
Definition is_u32 (x : Z) : Prop := 0 <= x <= U32_MAX.
Definition is_u64 (x : Z) : Prop := 0 <= x <= U64_MAX.

(** Wrapping arithmetic of a release build. *)
Definition wrap_u32 (x : Z) : Z := x mod 2 ^ 32.
Definition wrap_u64 (x : Z) : Z := x mod 2 ^ 64.

(** [a.saturating_sub(b)] on an unsigned integer. *)
Definition saturating_sub (a b : Z) : Z := Z.max 0 (a - b).

Ltac unfold_widths :=
  unfold is_u16, is_u32, is_u64, U16_MAX, U32_MAX, U64_MAX in *.

(** Linear arithmetic after exposing the widths. *)
Ltac uint_lia := unfold_widths; lia.

Lemma wrap_u32_id x : is_u32 x -> wrap_u32 x = x.
Proof. intros ?. unfold wrap_u32. apply Z.mod_small. uint_lia. Qed.

Lemma wrap_u64_id x : is_u64 x -> wrap_u64 x = x.
Proof. intros ?. unfold wrap_u64. apply Z.mod_small. uint_lia. Qed.

(** ** Panics

    A computation that may panic: [Ret a] is a normal return, [Panic] an
    index out of range, an [unwrap] of [None] or a failed assertion. *)

Inductive res (A : Type) : Type :=
| Ret (a : A)
| Panic.
Arguments Ret {A} a.
Arguments Panic {A}.

Global Instance res_ret : MRet res := fun _ a => Ret a.
Global Instance res_bind : MBind res := fun _ _ f m =>
  match m with Ret a => f a | Panic => Panic end.
Global Instance res_fmap : FMap res := fun _ _ f m =>
  match m with Ret a => Ret (f a) | Panic => Panic end.

(** [v[i]]: a read that panics out of range. *)
Definition index {A} (l : list A) (i : nat) : res A :=
  match l !! i with Some a => Ret a | None => Panic end.

(** [Vec::insert]: panics when [i > len]. *)
Definition vec_insert {A} (i : nat) (x : A) (l : list A) : res (list A) :=
  if (i <=? length l)%nat then Ret (take i l ++ x :: drop i l) else Panic.

(** [Vec::remove]: panics when [i >= len]; the removed element is dropped. *)
Definition vec_remove {A} (i : nat) (l : list A) : res (list A) :=
  if (i <? length l)%nat then Ret (take i l ++ drop (S i) l) else Panic.

(** [Vec::pop]. *)
Definition vec_pop {A} (l : list A) : option A * list A :=
  match last l with
  | Some x => (Some x, take (length l - 1) l)
  | None => (None, [])
  end.

Lemma index_Ret {A} (l : list A) i a : index l i = Ret a <-> l !! i = Some a.
Proof. unfold index. destruct (l !! i); split; congruence. Qed.

Lemma vec_insert_Ret {A} i (x : A) l :
  (i <= length l)%nat -> vec_insert i x l = Ret (take i l ++ x :: drop i l).
Proof. intros ?. unfold vec_insert. by rewrite (proj2 (Nat.leb_le _ _)). Qed.

Lemma vec_remove_Ret {A} i (l : list A) :
  (i < length l)%nat -> vec_remove i l = Ret (take i l ++ drop (S i) l).
Proof. intros ?. unfold vec_remove. by rewrite (proj2 (Nat.ltb_lt _ _)). Qed.

Lemma vec_pop_snoc {A} (l : list A) x : vec_pop (l ++ [x]) = (Some x, l).
Proof.
  unfold vec_pop. rewrite last_snoc, length_app. simpl. do 2 f_equal.
  rewrite take_app_le by lia. apply take_ge. lia.
Qed.

(** ** Lists shared by the components *)

Lemma snoc_cases {A} (l : list A) : l = [] \/ exists l' x, l = l' ++ [x].
Proof. destruct l as [|x l' _] using rev_ind; [by left|right; by eexists _, _]. Qed.

Lemma elem_of_rev {A} (x : A) l : x ∈ rev l <-> x ∈ l.
Proof. by rewrite !list_elem_of_In, <-in_rev. Qed.

(** The loop [for (l, r) in left.iter_mut().zip(right)] that assigns [f l r] to
    [l]: the tail of [left] past the end of [right] is left alone. *)
Fixpoint zip_update {A} (f : A -> A -> A) (l r : list A) : list A :=
  match l, r with
  | x :: l', y :: r' => f x y :: zip_update f l' r'
  | _, _ => l
  end.

Lemma length_zip_update {A} (f : A -> A -> A) l r :
  length (zip_update f l r) = length l.
Proof. revert r; induction l as [|x l IH]; intros [|y r]; simpl; auto. Qed.

Lemma lookup_zip_update {A} (f : A -> A -> A) l r i :
  zip_update f l r !! i =
  match l !! i, r !! i with
  | Some x, Some y => Some (f x y)
  | o, _ => o
  end.
Proof.
  revert r i; induction l as [|x l IH]; intros [|y r] [|i]; simpl; auto.
  by destruct (l !! i).
Qed.

Lemma insert_middle {A} (pre post : list A) x y :
  <[length pre := y]> (pre ++ x :: post) = pre ++ y :: post.
Proof. by rewrite insert_app_r_alt, Nat.sub_diag by lia. Qed.

Lemma take_middle {A} (pre post : list A) x k :
  take (length pre + k) (pre ++ x :: post) = pre ++ take k (x :: post).
Proof. apply take_app_add. Qed.

Lemma drop_middle {A} (pre post : list A) x k :
  drop (length pre + k) (pre ++ x :: post) = drop k (x :: post).
Proof. apply drop_app_add. Qed.

(** Lexicographic order on integer sequences, the derived [Ord] of a Rust
    sequence: a proper prefix is smaller. *)
Fixpoint lex_compare (l r : list Z) : comparison :=
  match l, r with
  | [], [] => Eq
  | [], _ :: _ => Lt
  | _ :: _, [] => Gt
  | x :: l', y :: r' =>
      match Z.compare x y with Eq => lex_compare l' r' | c => c end
  end.

Definition lex_lt (l r : list Z) : Prop := lex_compare l r = Lt.

Lemma lex_compare_refl l : lex_compare l l = Eq.
Proof. induction l; simpl; [done|]. by rewrite Z.compare_refl. Qed.

Lemma lex_compare_eq l r : lex_compare l r = Eq -> l = r.
Proof.
  revert r; induction l as [|x l IH]; intros [|y r]; simpl; try done.
  destruct (Z.compare_spec x y); try done. intros; f_equal; auto.
Qed.

Lemma lex_lt_cons x y l r :
  lex_lt (x :: l) (y :: r) <-> x < y \/ (x = y /\ lex_lt l r).
Proof.
  unfold lex_lt; simpl. destruct (Z.compare_spec x y); split; intros;
    try lia; intuition (lia || done).
Qed.

Lemma lex_lt_nil_l l : lex_lt [] l <-> l <> [].
Proof. by destruct l. Qed.

Lemma lex_lt_nil_r l : lex_lt l [] <-> False.
Proof. by destruct l. Qed.

Global Instance lex_lt_trans : Transitive lex_lt.
Proof.
  intros a b c. revert b c; induction a as [|x a IH]; intros [|y b] [|z c];
    rewrite ?lex_lt_nil_l, ?lex_lt_nil_r, ?lex_lt_cons; try done.
  intros [?|[-> ?]] [?|[-> ?]]; [left; lia..|right]; eauto.
Qed.

Global Instance lex_lt_irreflexive : Irreflexive lex_lt.
Proof. intros l. unfold complement, lex_lt. by rewrite lex_compare_refl. Qed.

Create HintDb rdg discriminated.
Create Rewrite HintDb rdg.
#[export] Hint Resolve wrap_u32_id wrap_u64_id lex_compare_refl : rdg.
#[export] Hint Rewrite @length_zip_update @lookup_zip_update lex_lt_cons
  lex_lt_nil_l lex_lt_nil_r : rdg.
