(* ===== verification/Clock.v ===== *)
(** * Logical clocks ([crates/clock/src/clock.rs])

    [Lamport] timestamps and [Global] version vectors.  A [Seq] is a [u32]
    and a [ReplicaId] a [u16], both kept as [Z] with the range written out;
    [Global::values] is the list of the vector's entries.  The release
    build's wrapping addition is used where the source adds. *)

From S2P Require Import Prelude.

Module Lamport.
Record t := Lamport { value : Z; replica_id : Z }.

Global Instance t_eq_dec : EqDecision t.
Proof. solve_decision. Defined.

Definition MIN : t := Lamport 0 0.
Definition MAX : t := Lamport U32_MAX U16_MAX.

Definition wf (ts : t) : Prop := is_u32 (value ts) /\ is_u16 (replica_id ts).

Definition new (replica_id : Z) : t := Lamport 1 replica_id.

(** [as_u64]: the value in the high half, the replica in the low half. *)
Definition as_u64 (ts : t) : Z :=
  Z.lor (Z.shiftl (value ts) 32) (replica_id ts).

(** [tick]: returns the current timestamp and advances the clock. *)
Definition tick (self : t) : t * t :=
  (self, Lamport (wrap_u32 (value self + 1)) (replica_id self)).

Definition observe (self timestamp : t) : t :=
  Lamport (wrap_u32 (Z.max (value self) (value timestamp) + 1))
          (replica_id self).

(** [Ord]: by value, the replica id breaking ties. *)
Definition cmp (a b : t) : comparison :=
  match Z.compare (value a) (value b) with
  | Eq => Z.compare (replica_id a) (replica_id b)
  | c => c
  end.

Definition lt (a b : t) : Prop := cmp a b = Lt.
Definition ltb (a b : t) : bool := match cmp a b with Lt => true | _ => false end.
Definition eqb (a b : t) : bool := match cmp a b with Eq => true | _ => false end.

Lemma cmp_refl a : cmp a a = Eq.
Proof. unfold cmp. by rewrite !Z.compare_refl. Qed.

Lemma cmp_eq a b : cmp a b = Eq <-> a = b.
Proof.
  split; [|intros ->; apply cmp_refl]. destruct a as [v r], b as [v' r'].
  unfold cmp; simpl. destruct (Z.compare_spec v v'); try done.
  by intros ->%Z.compare_eq; subst.
Qed.

Lemma cmp_antisym a b : cmp b a = CompOpp (cmp a b).
Proof.
  unfold cmp. rewrite (Z.compare_antisym (value a)).
  destruct (value a ?= value b); simpl; try done. apply Z.compare_antisym.
Qed.

Lemma lt_iff a b :
  lt a b <-> value a < value b
             \/ (value a = value b /\ replica_id a < replica_id b).
Proof.
  unfold lt, cmp. destruct (Z.compare_spec (value a) (value b)).
  - rewrite Z.compare_lt_iff. lia.
  - split; [lia|done].
  - split; [done|lia].
Qed.

Global Instance lt_trans : Transitive lt.
Proof. intros a b c. rewrite !lt_iff. lia. Qed.

Global Instance lt_irrefl : Irreflexive lt.
Proof. intros a. unfold complement. rewrite lt_iff. lia. Qed.

Lemma lt_trichotomy a b : lt a b \/ a = b \/ lt b a.
Proof.
  unfold lt. rewrite <- cmp_eq, (cmp_antisym a b).
  destruct (cmp a b); simpl; auto.
Qed.

Lemma ltb_lt a b : ltb a b = true <-> lt a b.
Proof. unfold ltb, lt. by destruct (cmp a b). Qed.

(** The packed form is the arithmetic sum: the halves do not overlap. *)
Lemma as_u64_sum a : wf a -> as_u64 a = value a * 2 ^ 32 + replica_id a.
Proof.
  intros [? ?]. unfold as_u64.
  rewrite <- Z.add_lor_land, Z.shiftl_mul_pow2 by lia.
  enough (Z.land (value a * 2 ^ 32) (replica_id a) = 0) by lia.
  apply Z.bits_inj'. intros n ?.
  rewrite Z.land_spec, Z.bits_0. destruct (Z.lt_ge_cases n 32).
  - by rewrite Z.mul_pow2_bits_low.
  - replace (replica_id a) with (replica_id a mod 2 ^ 32)
      by (apply Z.mod_small; uint_lia).
    rewrite Z.mod_pow2_bits_high by lia. by rewrite andb_false_r.
Qed.
End Lamport.

Module Global.
Record t := Global { values : list Z }.

Definition new : t := Global [].

Definition get (self : t) (replica_id : Z) : Z :=
  default 0 (values self !! Z.to_nat replica_id).

(** [if n > values.len() { values.resize(n, 0) }]. *)
Definition grow_to (n : nat) (vs : list Z) : list Z :=
  if (length vs <? n)%nat then resize n 0 vs else vs.

(** [observe]: a zero value is ignored, otherwise the vector is grown to
    hold the replica's entry and the entry raised to the timestamp. *)
Definition observe (self : t) (ts : Lamport.t) : t :=
  if 0 <? Lamport.value ts then
    let r := Z.to_nat (Lamport.replica_id ts) in
    let vs := grow_to (r + 1) (values self) in
    Global (alter (fun entry => Z.max entry (Lamport.value ts)) r vs)
  else self.

Definition join (self other : t) : t :=
  let vs := grow_to (length (values other)) (values self) in
  Global (zip_update Z.max vs (values other)).

(** The loop of [meet] over the zipped entries: the updated entries and
    [new_len], one past the last non-zero entry seen. *)
Fixpoint meet_loop (ix new_len : nat) (l r : list Z) : list Z * nat :=
  match l, r with
  | lhs :: l', rhs :: r' =>
      let lhs' := if lhs =? 0 then rhs
                  else if rhs =? 0 then lhs
                  else Z.min lhs rhs in
      let new_len' := if lhs' =? 0 then new_len else (ix + 1)%nat in
      let '(rest, n) := meet_loop (S ix) new_len' l' r' in
      (lhs' :: rest, n)
  | _, _ => (l, new_len)
  end.

Definition meet (self other : t) : t :=
  let vs := grow_to (length (values other)) (values self) in
  let '(vs', new_len) := meet_loop 0 0 vs (values other) in
  if (length (values other) =? length vs')%nat
  then Global (take new_len vs') else Global vs'.

Definition observed (self : t) (ts : Lamport.t) : bool :=
  Lamport.value ts <=? get self (Lamport.replica_id ts).

(** [iter]: the entries with their replica ids. *)
Definition iter (self : t) : list Lamport.t :=
  imap (fun r v => Lamport.Lamport v (Z.of_nat r)) (values self).

Definition observed_any (self other : t) : bool :=
  existsb (fun '(lhs, rhs) =>
             (0 <? Lamport.value rhs) && (Lamport.value rhs <=? Lamport.value lhs))
    (zip (iter self) (iter other)).

Definition observed_all (self other : t) : bool :=
  if (length (values self) <? length (values other))%nat then false
  else forallb (fun '(lhs, rhs) => Lamport.value rhs <=? Lamport.value lhs)
         (zip (iter self) (iter other)).

Definition changed_since (self other : t) : bool :=
  (length (values other) <? length (values self))%nat
  || existsb (fun '(lhs, rhs) => rhs <? lhs)
       (zip (values self) (values other)).

(** [most_recent]: [max_by_key] keeps the last of the maximal entries. *)
Definition most_recent (self : t) : option Lamport.t :=
  fold_left (fun acc ts =>
               match acc with
               | Some best => if Lamport.value best <=? Lamport.value ts
                              then Some ts else Some best
               | None => Some ts
               end) (iter self) None.

Definition from_iter (locals : list Lamport.t) : t := fold_left observe locals new.

(** Canonical vectors carry no trailing zero entry; they are what the
    operations build from [new]. *)
Definition canonical (g : t) : Prop := last (values g) <> Some 0.
Definition wf (g : t) : Prop := Forall (fun v => 0 <= v) (values g) /\ canonical g.

(** *** Entries as a total function *)

Definition entry (vs : list Z) (i : nat) : Z := default 0 (vs !! i).

Lemma get_entry g r : get g r = entry (values g) (Z.to_nat r).
Proof. done. Qed.

Lemma length_grow_to n vs : length (grow_to n vs) = Nat.max n (length vs).
Proof.
  unfold grow_to. destruct (Nat.ltb_spec (length vs) n);
    rewrite ?length_resize; lia.
Qed.

Lemma entry_grow_to n vs i : entry (grow_to n vs) i = entry vs i.
Proof.
  unfold grow_to, entry. destruct (Nat.ltb_spec (length vs) n); [|done].
  destruct (decide (i < length vs)%nat).
  - by rewrite lookup_resize by lia.
  - rewrite (lookup_ge_None_2 vs) by lia.
    destruct (decide (i < n)%nat).
    + by rewrite lookup_resize_new by lia.
    + by rewrite lookup_resize_old by lia.
Qed.

Lemma entry_nonneg vs i : Forall (fun v => 0 <= v) vs -> 0 <= entry vs i.
Proof.
  intros Hf. unfold entry. destruct (vs !! i) eqn:E; simpl; [|lia].
  by eapply Forall_lookup_1 in Hf.
Qed.

Lemma Forall_grow_to n vs :
  Forall (fun v => 0 <= v) vs -> Forall (fun v => 0 <= v) (grow_to n vs).
Proof.
  intros. unfold grow_to. destruct (_ <? _)%nat; [|done].
  apply Forall_resize; [lia|done].
Qed.

(** The last entry of a canonical vector is positive. *)
Lemma canonical_last vs :
  last vs <> Some 0 -> vs <> [] -> entry vs (length vs - 1) <> 0.
Proof.
  intros Hl Hne. unfold entry. rewrite last_lookup in Hl.
  replace (Nat.pred (length vs)) with (length vs - 1)%nat in Hl by lia.
  destruct (vs !! (length vs - 1)%nat) eqn:E; simpl; [congruence|].
  apply lookup_ge_None in E. destruct vs; simpl in *; [done|lia].
Qed.

Lemma entry_ge vs i : (length vs <= i)%nat -> entry vs i = 0.
Proof. intros. unfold entry. by rewrite lookup_ge_None_2. Qed.

Lemma canonical_intro vs :
  (vs <> [] -> entry vs (length vs - 1) <> 0) -> last vs <> Some 0.
Proof.
  intros Hl. rewrite last_lookup.
  replace (Nat.pred (length vs)) with (length vs - 1)%nat by lia.
  destruct vs as [|v vs]; [done|]. specialize (Hl ltac:(done)).
  unfold entry in Hl. intros E. by rewrite E in Hl.
Qed.

(** A vector that dominates a canonical one is at least as long. *)
Lemma canonical_length va vb :
  last vb <> Some 0 -> Forall (fun v => 0 <= v) vb ->
  (forall i, entry vb i <= entry va i) -> (length vb <= length va)%nat.
Proof.
  intros Hb Hpos H. destruct (decide (vb = [])) as [->|Hne]; [simpl; lia|].
  pose proof (canonical_last _ Hb Hne) as Hlast.
  pose proof (entry_nonneg vb (length vb - 1) Hpos) as Hnn.
  pose proof (H (length vb - 1)%nat) as Hle.
  destruct (decide (length va <= length vb - 1)%nat).
  - rewrite (entry_ge va) in Hle by done. lia.
  - destruct vb; simpl in *; [done|lia].
Qed.

(** Canonical vectors are determined by their entries. *)
Lemma ext a b :
  wf a -> wf b -> (forall r, 0 <= r -> get a r = get b r) -> a = b.
Proof.
  intros [Hpa Ha] [Hpb Hb] H. destruct a as [va], b as [vb].
  unfold canonical in *; simpl in *. f_equal.
  assert (He : forall i, entry va i = entry vb i).
  { intros i. specialize (H (Z.of_nat i) ltac:(lia)).
    rewrite !get_entry, Nat2Z.id in H. done. }
  assert (length va = length vb).
  { apply Nat.le_antisymm; apply canonical_length; auto; intros i; rewrite He; lia. }
  apply list_eq_same_length with (n := length va); [done..|].
  intros i x y ? Hx Hy. specialize (He i). unfold entry in He.
  by rewrite Hx, Hy in He.
Qed.

(** *** Tests as entry-wise statements *)

Lemma zip_iter_forallb (p : Z -> Z -> bool) la lb
    (f g : nat -> Z -> Lamport.t) :
  (forall i v, Lamport.value (f i v) = v) ->
  (forall i v, Lamport.value (g i v) = v) ->
  forallb (fun '(x, y) => p (Lamport.value x) (Lamport.value y))
    (zip (imap f la) (imap g lb))
  = forallb (fun '(x, y) => p x y) (zip la lb).
Proof.
  revert lb f g; induction la as [|x la IH]; intros [|y lb] f g Hf Hg;
    simpl; try done.
  rewrite Hf, Hg, IH; [done|intros; apply Hf|intros; apply Hg].
Qed.

Lemma forallb_zip_entry la lb :
  (length lb <= length la)%nat ->
  forallb (fun '(x, y) => y <=? x) (zip la lb) = true
  <-> forall i, (i < length lb)%nat -> entry lb i <= entry la i.
Proof.
  revert lb; induction la as [|x la IH]; intros [|y lb] Hl; simpl in *.
  1, 3: split; [intros _ i ?; lia|done].
  { lia. }
  rewrite andb_true_iff, Z.leb_le, IH by lia. split.
  - intros [Hx H] [|i] Hi; unfold entry; simpl; [done|]. apply H. lia.
  - intros H. split; [apply (H 0%nat); lia|].
    intros i Hi. apply (H (S i)). lia.
Qed.

Lemma observed_all_entry a b :
  wf a -> wf b ->
  observed_all a b = true
  <-> forall i, entry (values b) i <= entry (values a) i.
Proof.
  intros [Ha _] [Hpos Hb]. unfold observed_all, iter.
  rewrite (zip_iter_forallb (fun x y => y <=? x)) by done.
  destruct (Nat.ltb_spec (length (values a)) (length (values b))) as [Hl|Hl].
  - split; [done|]. intros H.
    pose proof (canonical_length (values a) (values b) Hb Hpos H). lia.
  - rewrite forallb_zip_entry by done. split; intros H i; [|auto].
    destruct (decide (i < length (values b))%nat); [auto|].
    rewrite (entry_ge (values b)) by lia. by apply entry_nonneg.
Qed.

Lemma changed_since_observed_all a b :
  changed_since a b = negb (observed_all b a).
Proof.
  unfold changed_since, observed_all, iter.
  rewrite (zip_iter_forallb (fun x y => y <=? x)) by done.
  destruct (_ <? _)%nat; simpl; [done|].
  generalize (values a) as la, (values b) as lb.
  induction la as [|x la IH]; intros [|y lb]; simpl; try done.
  rewrite IH, negb_andb. f_equal. rewrite Z.leb_antisym. by rewrite negb_involutive.
Qed.

(** *** The operations, entry by entry *)

Lemma entry_alter f vs i j :
  entry (alter f i vs) j
  = if decide (i = j /\ (i < length vs)%nat) then f (entry vs j) else entry vs j.
Proof.
  unfold entry. destruct (decide (i = j)) as [->|Hne].
  - rewrite list_lookup_alter_eq. destruct (vs !! j) eqn:E; simpl.
    + apply lookup_lt_Some in E. by rewrite decide_True.
    + apply lookup_ge_None in E. by rewrite decide_False by lia.
  - rewrite list_lookup_alter_ne by done. by rewrite decide_False by tauto.
Qed.

Lemma entry_zip_max l r i :
  (length r <= length l)%nat -> Forall (fun v => 0 <= v) l ->
  entry (zip_update Z.max l r) i = Z.max (entry l i) (entry r i).
Proof.
  intros Hlen Hl. pose proof (entry_nonneg l i Hl) as Hn. unfold entry in *.
  rewrite lookup_zip_update. destruct (l !! i) eqn:E, (r !! i) eqn:E'; simpl in *;
    try lia.
  apply lookup_ge_None in E. apply lookup_lt_Some in E'. lia.
Qed.

Lemma Forall_entry vs : (forall i, 0 <= entry vs i) -> Forall (fun v => 0 <= v) vs.
Proof.
  intros He. apply Forall_lookup_2. intros i v Hv. specialize (He i).
  unfold entry in He. by rewrite Hv in He.
Qed.

Definition meet_value (x y : Z) : Z :=
  if x =? 0 then y else if y =? 0 then x else Z.min x y.

Lemma meet_loop_entries ix n l r i :
  (length r <= length l)%nat ->
  entry (meet_loop ix n l r).1 i = meet_value (entry l i) (entry r i).
Proof.
  revert ix n r i; induction l as [|x l IH]; intros ix n [|y r] i Hl;
    simpl in *; try lia; unfold entry, meet_value in *.
  - done.
  - simpl. by destruct (default 0 _ =? 0) eqn:E; [apply Z.eqb_eq in E|].
  - destruct (meet_loop _ _ l r) as [rest k] eqn:E. simpl.
    destruct i as [|i]; simpl; [done|].
    specialize (IH (S ix) (if (if x =? 0 then y else if y =? 0 then x
       else Z.min x y) =? 0 then n else (ix + 1)%nat) r i ltac:(lia)).
    by rewrite E in IH.
Qed.

Lemma length_meet_loop ix n l r : length (meet_loop ix n l r).1 = length l.
Proof.
  revert ix n r; induction l as [|x l IH]; intros ix n [|y r]; simpl; try done.
  specialize (IH (S ix) (if (if x =? 0 then y else if y =? 0 then x
       else Z.min x y) =? 0 then n else (ix + 1)%nat) r).
  destruct (meet_loop _ _ l r). simpl in *. lia.
Qed.

(** [new_len] is one past the last non-zero entry of the zipped range. *)
Lemma meet_loop_new_len ix n l r :
  (n <= ix)%nat ->
  let '(l', k) := meet_loop ix n l r in
  (forall i, (i < Nat.min (length l) (length r))%nat -> (k <= ix + i)%nat ->
             entry l' i = 0)
  /\ (k = n \/ (ix < k <= ix + Nat.min (length l) (length r))%nat
               /\ entry l' (k - 1 - ix) <> 0).
Proof.
  revert ix n r; induction l as [|x l IH]; intros ix n [|y r] Hn; simpl;
    try (split; [intros; lia|by left]).
  set (v := if x =? 0 then y else if y =? 0 then x else Z.min x y).
  specialize (IH (S ix) (if v =? 0 then n else (ix + 1)%nat) r
                ltac:(destruct (v =? 0); lia)).
  destruct (meet_loop _ _ l r) as [rest k] eqn:E. destruct IH as [Hz Hk].
  split.
  - intros [|i] Hi Hki; [|apply (Hz i); lia].
    unfold entry; simpl. destruct (Z.eqb_spec v 0); [done|].
    destruct Hk as [->|[? _]]; lia.
  - destruct Hk as [->|[Hk Hnz]].
    + destruct (Z.eqb_spec v 0); [by left|right]. split; [lia|].
      replace (ix + 1 - 1 - ix)%nat with 0%nat by lia. done.
    + right. split; [lia|].
      replace (k - 1 - ix)%nat with (S (k - 1 - S ix)) by lia. done.
Qed.

Lemma get_observe g ts r :
  wf g -> Lamport.wf ts -> 0 <= r ->
  get (observe g ts) r
  = if decide (r = Lamport.replica_id ts) then Z.max (get g r) (Lamport.value ts)
    else get g r.
Proof.
  intros [Hg _] [Hv Hr] Hpos. pose proof (entry_nonneg (values g) (Z.to_nat r) Hg).
  rewrite !get_entry. unfold observe.
  destruct (Z.ltb_spec 0 (Lamport.value ts)); simpl.
  - rewrite entry_alter, length_grow_to, entry_grow_to.
    destruct (decide (r = Lamport.replica_id ts)) as [->|Hne].
    + by rewrite decide_True by lia.
    + by rewrite decide_False by uint_lia.
  - case_decide; uint_lia.
Qed.

Lemma observe_wf g ts : wf g -> Lamport.wf ts -> wf (observe g ts).
Proof.
  intros [Hg Hc] [Hv Hr]. unfold observe.
  destruct (Z.ltb_spec 0 (Lamport.value ts)); [|done].
  set (i := Z.to_nat _). split; simpl.
  - apply Forall_entry. intros j. rewrite entry_alter, entry_grow_to.
    pose proof (entry_nonneg (values g) j Hg). case_decide; lia.
  - apply canonical_intro. intros _. simpl. rewrite length_alter, length_grow_to.
    rewrite entry_alter, length_grow_to, entry_grow_to.
    pose proof (entry_nonneg (values g) (Nat.max (i + 1) (length (values g)) - 1) Hg).
    case_decide as Hd; [lia|].
    assert (i + 1 < length (values g))%nat by lia.
    rewrite Nat.max_r by lia. apply canonical_last; [done|].
    intros E. rewrite E in *. simpl in *. lia.
Qed.

Lemma values_join_entry a b i :
  wf a -> wf b ->
  entry (values (join a b)) i = Z.max (entry (values a) i) (entry (values b) i).
Proof.
  intros [Ha _] _. unfold join; simpl. rewrite entry_zip_max, entry_grow_to; try done.
  - rewrite length_grow_to. lia.
  - by apply Forall_grow_to.
Qed.

Lemma join_wf a b : wf a -> wf b -> wf (join a b).
Proof.
  intros Ha Hb. pose proof (fun i => values_join_entry a b i Ha Hb) as He.
  destruct Ha as [Ha Hca], Hb as [Hb Hcb]. split.
  - apply Forall_entry. intros i. rewrite He.
    pose proof (entry_nonneg (values a) i Ha). lia.
  - apply canonical_intro. intros Hne. rewrite He.
    assert (Hlen : length (values (join a b))
                   = Nat.max (length (values b)) (length (values a)))
      by (unfold join; simpl; by rewrite length_zip_update, length_grow_to).
    assert (length (values (join a b)) <> 0%nat) by (by destruct (values (join a b))).
    rewrite Hlen in *. set (k := (_ - 1)%nat).
    pose proof (entry_nonneg (values a) k Ha). pose proof (entry_nonneg (values b) k Hb).
    destruct (decide (length (values b) < length (values a))%nat).
    + enough (entry (values a) k <> 0) by lia.
      replace k with (length (values a) - 1)%nat by lia.
      apply canonical_last; [done|]. intros E'. rewrite E' in *. simpl in *. lia.
    + enough (entry (values b) k <> 0) by lia.
      replace k with (length (values b) - 1)%nat by lia.
      apply canonical_last; [done|]. intros E'. rewrite E' in *. simpl in *. lia.
Qed.

Lemma meet_entry a b i :
  wf a -> wf b ->
  entry (values (meet a b)) i = meet_value (entry (values a) i) (entry (values b) i).
Proof.
  intros [Ha _] [Hb _]. unfold meet.
  set (vs := grow_to _ _).
  assert (Hlen : (length (values b) <= length vs)%nat)
    by (subst vs; rewrite length_grow_to; lia).
  pose proof (fun j => meet_loop_entries 0 0 vs (values b) j Hlen) as He.
  pose proof (length_meet_loop 0 0 vs (values b)) as Hl.
  pose proof (meet_loop_new_len 0 0 vs (values b) ltac:(lia)) as Hk.
  destruct (meet_loop 0 0 vs (values b)) as [l' k]; simpl in *.
  assert (Hvs : entry vs i = entry (values a) i) by (subst vs; apply entry_grow_to).
  rewrite <- Hvs, <- He. destruct (Nat.eqb_spec (length (values b)) (length l'));
    simpl; [|done].
  destruct (decide (i < k)%nat); unfold entry.
  - by rewrite lookup_take_lt.
  - rewrite lookup_take_ge by lia. simpl. destruct (decide (i < length l')%nat).
    + symmetry. apply (proj1 Hk); lia.
    + by rewrite lookup_ge_None_2 by lia.
Qed.

Lemma meet_value_nonneg x y : 0 <= x -> 0 <= y -> 0 <= meet_value x y.
Proof. unfold meet_value. destruct (x =? 0), (y =? 0); lia. Qed.

Lemma meet_wf a b : wf a -> wf b -> wf (meet a b).
Proof.
  intros Ha Hb. pose proof (fun i => meet_entry a b i Ha Hb) as He.
  destruct Ha as [Ha Hca], Hb as [Hb Hcb]. split.
  { apply Forall_entry. intros i. rewrite He.
    apply meet_value_nonneg; by apply entry_nonneg. }
  apply canonical_intro. intros Hne. rewrite He. clear He.
  unfold meet in *. set (vs := grow_to _ _) in *.
  assert (Hvs : length vs = Nat.max (length (values b)) (length (values a)))
    by (subst vs; apply length_grow_to).
  pose proof (fun j => meet_loop_entries 0 0 vs (values b) j ltac:(lia)) as He.
  pose proof (length_meet_loop 0 0 vs (values b)) as Hl.
  pose proof (meet_loop_new_len 0 0 vs (values b) ltac:(lia)) as Hk.
  destruct (meet_loop 0 0 vs (values b)) as [l' k]; simpl in *.
  destruct (Nat.eqb_spec (length (values b)) (length l')) as [Heq|Hneq]; simpl in *.
  - destruct Hk as [_ [->|[Hk Hnz]]]; [done|].
    rewrite length_take, Nat.min_l by lia.
    assert (Hva : entry vs (k - 1) = entry (values a) (k - 1))
      by (subst vs; apply entry_grow_to).
    rewrite <- Hva, <- He. by replace (k - 1 - 0)%nat with (k - 1)%nat in Hnz by lia.
  - assert (length (values b) < length (values a))%nat by lia.
    rewrite (entry_ge (values b)) by lia. unfold meet_value.
    rewrite Hl, Hvs, Nat.max_r by lia.
    pose proof (canonical_last (values a) Hca) as Hlast.
    destruct (Z.eqb_spec (entry (values a) (length (values a) - 1)) 0); simpl; [|done].
    intros _. apply Hlast; [|done]. intros E. rewrite E in *. simpl in *. lia.
Qed.

Lemma from_iter_wf l : Forall Lamport.wf l -> wf (from_iter l).
Proof.
  intros Hl. unfold from_iter.
  enough (forall g, wf g -> wf (fold_left observe l g)) as H
    by (apply H; split; [constructor|done]).
  induction Hl as [|ts l Hts Hl IH]; simpl; auto using observe_wf.
Qed.

Lemma fold_observe_get l g r :
  Forall Lamport.wf l -> wf g -> 0 <= r ->
  forall v, v <= get (fold_left observe l g) r
    <-> v <= get g r \/ exists ts, ts ∈ l /\ Lamport.replica_id ts = r
                               /\ v <= Lamport.value ts.
Proof.
  intros Hl. revert g. induction Hl as [|ts l Hts Hl IH]; intros g Hg Hr v; simpl.
  - split; [auto|]. intros [?|(ts & Hin & _)]; [done|]. by apply elem_of_nil in Hin.
  - rewrite IH by auto using observe_wf. rewrite get_observe by done.
    split.
    + intros [Hv|(ts' & ? & ?)].
      * case_decide as Hd; [|auto]. destruct (Z.max_spec (get g r) (Lamport.value ts))
          as [[? E]|[? E]]; rewrite E in Hv; [|auto].
        right. exists ts. split; [left|auto].
      * right. exists ts'. split; [by right|done].
    + intros [Hv|(ts' & Hin & Hr' & Hv)].
      * left. case_decide; lia.
      * apply elem_of_cons in Hin as [->|Hin]; [|eauto].
        left. rewrite decide_True by done. lia.
Qed.
End Global.

(** ** Properties *)

Import Lamport Global.

(** The order of timestamps is the order of their packed [u64] form, so it
    is a total order and [as_u64] loses nothing. *)
Theorem lamport_cmp_as_u64 (a b : Lamport.t) :
  Lamport.wf a -> Lamport.wf b ->
  Lamport.cmp a b = Z.compare (Lamport.as_u64 a) (Lamport.as_u64 b)
  /\ (Lamport.as_u64 a = Lamport.as_u64 b -> a = b)
  /\ is_u64 (Lamport.as_u64 a).
Proof.
  intros Ha Hb. rewrite !as_u64_sum by done.
  assert (Hc : Lamport.cmp a b
    = Z.compare (value a * 2 ^ 32 + replica_id a) (value b * 2 ^ 32 + replica_id b)).
  { destruct Ha, Hb. unfold Lamport.cmp.
    destruct (Z.compare_spec (value a) (value b)) as [E|E|E].
    - rewrite E. destruct (Z.compare_spec (replica_id a) (replica_id b)); symmetry;
        [apply Z.compare_eq_iff|apply Z.compare_lt_iff|apply Z.compare_gt_iff]; lia.
    - symmetry. apply Z.compare_lt_iff. uint_lia.
    - symmetry. apply Z.compare_gt_iff. uint_lia. }
  split; [done|]. split; [|destruct Ha; uint_lia].
  intros E. apply Lamport.cmp_eq. rewrite Hc, E. apply Z.compare_refl.
Qed.

Lemma lamport_cmp_as_u64_witness :
  Lamport.cmp (Lamport 7 2) (Lamport 7 3) = Lt /\
  (Lamport.cmp (Lamport 7 2) (Lamport 7 3)
   = Z.compare (Lamport.as_u64 (Lamport 7 2)) (Lamport.as_u64 (Lamport 7 3))).
Proof.
  split; [reflexivity|].
  apply (lamport_cmp_as_u64 (Lamport 7 2) (Lamport 7 3)); split; simpl; uint_lia.
Defined.

(** Happens-before: a timestamp ticked after the clock observed [ts] is
    later than [ts] and than everything the clock had ticked before, as long
    as the 32-bit counter has not run out. *)
Theorem lamport_observe_tick (clock ts : Lamport.t) :
  Lamport.wf clock -> Lamport.wf ts ->
  value clock + 3 <= U32_MAX -> value ts + 2 <= U32_MAX ->
  let '(before, clock1) := Lamport.tick clock in
  let clock2 := Lamport.observe clock1 ts in
  let '(after, clock3) := Lamport.tick clock2 in
  Lamport.lt ts after /\ Lamport.lt before after /\ Lamport.lt after clock3
  /\ Lamport.wf clock3 /\ replica_id clock3 = replica_id clock.
Proof.
  intros [Hv Hr] [Hv' Hr'] Hc Ht. unfold Lamport.tick, Lamport.observe; simpl.
  rewrite (wrap_u32_id (value clock + 1)) by uint_lia.
  rewrite (wrap_u32_id (Z.max _ _ + 1)) by uint_lia.
  rewrite wrap_u32_id by uint_lia. rewrite !Lamport.lt_iff. simpl.
  repeat split; simpl; uint_lia.
Qed.

Lemma lamport_observe_tick_witness :
  Lamport.lt (Lamport 9 4) (Lamport.tick (Lamport.observe
    (Lamport.tick (Lamport 3 1)).2 (Lamport 9 4))).1.
Proof.
  apply (lamport_observe_tick (Lamport 3 1) (Lamport 9 4));
    [split; simpl; uint_lia..| |]; simpl; uint_lia.
Defined.

(** Version vectors form a join semilattice: [join] is the least upper
    bound for [observed_all], and vectors with the same entries are equal. *)
Theorem global_join_lub (a b : Global.t) :
  Global.wf a -> Global.wf b ->
  Global.wf (join a b)
  /\ observed_all (join a b) a = true /\ observed_all (join a b) b = true
  /\ (forall c, Global.wf c -> observed_all c a = true -> observed_all c b = true ->
        observed_all c (join a b) = true)
  /\ join a b = join b a
  /\ (observed_all a b = true -> observed_all b a = true -> a = b).
Proof.
  intros Ha Hb. pose proof (join_wf a b Ha Hb) as Hj. pose proof (join_wf b a Hb Ha).
  split; [done|]. rewrite !observed_all_entry by done.
  split; [intros i; rewrite values_join_entry by done; lia|].
  split; [intros i; rewrite values_join_entry by done; lia|].
  split.
  { intros c Hc. rewrite !observed_all_entry by done. intros Hca Hcb i.
    rewrite values_join_entry by done. specialize (Hca i). specialize (Hcb i). lia. }
  split.
  - apply ext; [done..|]. intros r _. rewrite !get_entry, !values_join_entry by done. lia.
  - intros Hab Hba. apply ext; [done..|]. intros r _. rewrite !get_entry.
    specialize (Hab (Z.to_nat r)). specialize (Hba (Z.to_nat r)). lia.
Qed.

Lemma wf_example1 : Global.wf (Global [1; 0; 4]).
Proof. split; [repeat constructor; lia|done]. Qed.

Lemma wf_example2 : Global.wf (Global [0; 3]).
Proof. split; [repeat constructor; lia|done]. Qed.

Lemma global_join_lub_witness :
  join (Global [1; 0; 4]) (Global [0; 3]) = Global [1; 3; 4]
  /\ join (Global [1; 0; 4]) (Global [0; 3]) = join (Global [0; 3]) (Global [1; 0; 4]).
Proof.
  split; [reflexivity|].
  apply (global_join_lub _ _ wf_example1 wf_example2).
Defined.

(** [meet] keeps the invariant and takes the smaller of two observed
    sequence numbers, an unobserved replica's number coming from the other
    vector. *)
Theorem global_meet_get (a b : Global.t) :
  Global.wf a -> Global.wf b ->
  Global.wf (meet a b)
  /\ forall r, get (meet a b) r
       = if get a r =? 0 then get b r
         else if get b r =? 0 then get a r
         else Z.min (get a r) (get b r).
Proof.
  intros Ha Hb. split; [by apply meet_wf|].
  intros r. rewrite !get_entry, meet_entry by done. done.
Qed.

Lemma global_meet_get_witness :
  meet (Global [1; 0; 4]) (Global [0; 3]) = Global [1; 3; 4]
  /\ Global.wf (meet (Global [1; 0; 4]) (Global [0; 3])).
Proof. split; [reflexivity|]. apply (global_meet_get _ _ wf_example1 wf_example2). Defined.

(** [observed_all] is domination entry by entry, and [changed_since] is
    exactly its failure in the other direction. *)
Theorem global_observed_all_spec (a b : Global.t) :
  Global.wf a -> Global.wf b ->
  (observed_all a b = true <-> forall r, 0 <= r -> get b r <= get a r)
  /\ changed_since b a = negb (observed_all a b).
Proof.
  intros Ha Hb. split; [|apply changed_since_observed_all].
  rewrite observed_all_entry by done. split; intros H i.
  - intros _. apply H.
  - specialize (H (Z.of_nat i) ltac:(lia)). by rewrite !get_entry, Nat2Z.id in H.
Qed.

Lemma global_observed_all_spec_witness :
  changed_since (Global [0; 3]) (Global [1; 0; 4]) = true
  /\ changed_since (Global [0; 3]) (Global [1; 0; 4])
     = negb (observed_all (Global [1; 0; 4]) (Global [0; 3])).
Proof.
  split; [reflexivity|].
  apply (global_observed_all_spec _ _ wf_example1 wf_example2).
Defined.

(** A vector collected from timestamps observes exactly the timestamps
    that some collected timestamp of the same replica reaches. *)
Theorem global_from_iter_observed (l : list Lamport.t) (ts : Lamport.t) :
  Forall Lamport.wf l -> Lamport.wf ts ->
  Global.wf (from_iter l)
  /\ (observed (from_iter l) ts = true
      <-> value ts = 0 \/ exists ts', ts' ∈ l /\ replica_id ts' = replica_id ts
                                      /\ value ts <= value ts').
Proof.
  intros Hl [Hv Hr]. split; [by apply from_iter_wf|].
  unfold observed. rewrite Z.leb_le. unfold from_iter.
  rewrite fold_observe_get; [|done|split; [constructor|done]|apply Hr].
  enough (get new (replica_id ts) = 0) as -> by
    (split; (intros [?|?]; [left; uint_lia|by right])).
  unfold get; simpl. done.
Qed.

Lemma global_from_iter_observed_witness :
  observed (from_iter [Lamport 3 0; Lamport 5 2; Lamport 4 2]) (Lamport 5 2) = true
  /\ (observed (from_iter [Lamport 3 0; Lamport 5 2; Lamport 4 2]) (Lamport 6 2) = true ->
      value (Lamport 6 2) = 0 \/ exists ts', ts' ∈ [Lamport 3 0; Lamport 5 2; Lamport 4 2]
        /\ replica_id ts' = replica_id (Lamport 6 2)
        /\ value (Lamport 6 2) <= value ts').
Proof.
  split; [reflexivity|].
  apply (global_from_iter_observed [Lamport 3 0; Lamport 5 2; Lamport 4 2] (Lamport 6 2));
    repeat constructor; simpl; uint_lia.
Defined.

(** Timestamps: a timestamp ticked after the clock observed [ts] is later than
    [ts] and than everything the clock had ticked before, as long as the 32-bit
    counter has not run out (happens-before); and their order is that of their
    packed [u64] form, which loses nothing, so it is total. *)
Theorem lamport_spec (clock ts : Lamport.t) :
  Lamport.wf clock -> Lamport.wf ts ->
  (value clock + 3 <= U32_MAX -> value ts + 2 <= U32_MAX ->
   let '(before, clock1) := Lamport.tick clock in
   let clock2 := Lamport.observe clock1 ts in
   let '(after, clock3) := Lamport.tick clock2 in
   Lamport.lt ts after /\ Lamport.lt before after /\ Lamport.lt after clock3
   /\ Lamport.wf clock3 /\ replica_id clock3 = replica_id clock)
  /\ Lamport.cmp clock ts = Z.compare (Lamport.as_u64 clock) (Lamport.as_u64 ts)
  /\ (Lamport.as_u64 clock = Lamport.as_u64 ts -> clock = ts)
  /\ is_u64 (Lamport.as_u64 clock).
Proof.
  intros Hc Ht. split; [by apply lamport_observe_tick|]. by apply lamport_cmp_as_u64.
Qed.

Lemma lamport_spec_witness :
  Lamport.lt (Lamport 9 4) (Lamport.tick (Lamport.observe (Lamport.tick (Lamport 3 1)).2 (Lamport 9 4))).1
  /\ Lamport.cmp (Lamport 3 1) (Lamport 9 4) = Lt.
Proof.
  destruct (lamport_spec (Lamport 3 1) (Lamport 9 4)) as (H & E & _);
    [by split; unfold is_u32, is_u16; simpl; uint_lia..|].
  split; [apply H; simpl; uint_lia|rewrite E; vm_compute; reflexivity].
Defined.

(** Version vectors form a join semilattice: [join] is the least upper bound for
    [observed_all], which is domination entry by entry and whose failure is
    [changed_since]; vectors with the same entries are equal; [meet] keeps the
    invariant and takes the smaller of two observed sequence numbers, an unobserved
    replica's number coming from the other vector; and a vector collected from
    timestamps observes exactly those that some collected one of the same replica
    reaches. *)
Theorem global_spec (a b : Global.t) :
  Global.wf a -> Global.wf b ->
  (Global.wf (join a b) /\ observed_all (join a b) a = true /\ observed_all (join a b) b = true
   /\ (forall c, Global.wf c -> observed_all c a = true -> observed_all c b = true ->
         observed_all c (join a b) = true)
   /\ join a b = join b a /\ (observed_all a b = true -> observed_all b a = true -> a = b))
  /\ ((observed_all a b = true <-> forall r, 0 <= r -> get b r <= get a r)
      /\ changed_since b a = negb (observed_all a b))
  /\ (Global.wf (meet a b)
      /\ forall r, get (meet a b) r
           = if get a r =? 0 then get b r
             else if get b r =? 0 then get a r else Z.min (get a r) (get b r))
  /\ (forall l ts, Forall Lamport.wf l -> Lamport.wf ts ->
      Global.wf (from_iter l)
      /\ (observed (from_iter l) ts = true
          <-> value ts = 0 \/ exists ts', ts' ∈ l /\ replica_id ts' = replica_id ts
                                          /\ value ts <= value ts')).
Proof.
  intros Ha Hb. split; [by apply global_join_lub|]. split; [by apply global_observed_all_spec|].
  split; [by apply global_meet_get|].
  intros l ts. by apply global_from_iter_observed.
Qed.

Lemma global_spec_witness :
  meet (Global [1; 0; 4]) (Global [0; 3]) = Global [1; 3; 4]
  /\ Global.wf (meet (Global [1; 0; 4]) (Global [0; 3]))
  /\ observed_all (join (Global [1; 0; 4]) (Global [0; 3])) (Global [0; 3]) = true.
Proof.
  destruct (global_spec _ _ wf_example1 wf_example2) as ((_ & _ & H1 & _) & _ & (H2 & _) & _).
  split; [reflexivity|]. split; [exact H2|exact H1].
Defined.
