(* ===== verification/Locator.v ===== *)
(** * Fragment locators ([crates/text/src/locator.rs])

    A [Locator] is a non-empty sequence of [u64] digits under the derived
    lexicographic order.  [between] walks both sequences in step, padding the
    left one with [u64::MIN] and the right one with [u64::MAX], until it has
    pushed a digit larger than the left one. *)

From S2P Require Import Prelude.

Abbreviation locator := (list Z) (only parsing).

Definition min : locator := [0].
Definition max : locator := [U64_MAX].

Definition digits_ok (l : locator) : Prop := Forall is_u64 l.

(** What every locator the editor builds satisfies: digits in range and a
    non-zero last digit ([between] stops on a digit larger than another). *)
Definition wf (l : locator) : Prop :=
  digits_ok l /\ exists init d, l = init ++ [d] /\ 0 < d.

(** The head of a chained iterator and its tail. *)
Definition next_or (pad : Z) (l : list Z) : Z := match l with x :: _ => x | [] => pad end.

(** [mid = lhs + (rhs.saturating_sub(lhs) >> 48)]. *)
Definition mid_digit (lhs rhs : Z) : Z :=
  lhs + Z.shiftr (saturating_sub rhs lhs) 48.

(** The loop of [between]; [None] when the fuel runs out first. *)
Fixpoint between_loop (fuel : nat) (lhs rhs : list Z) : option (list Z) :=
  match fuel with
  | O => None
  | S fuel =>
      let x := next_or 0 lhs in
      let y := next_or U64_MAX rhs in
      let mid := mid_digit x y in
      if x <? mid then Some [mid]
      else option_map (cons mid) (between_loop fuel (tail lhs) (tail rhs))
  end.

Definition between (lhs rhs : locator) : option locator :=
  between_loop (S (Nat.max (length lhs) (length rhs))) lhs rhs.

(** [assign]: overwrite in place after resizing. *)
Definition assign (self other : locator) : locator :=
  let resized := resize (length other) 0 self in
  zip_update (fun _ y => y) resized other.

(** ** The digit arithmetic *)

Lemma mid_digit_bounds x y :
  is_u64 x -> is_u64 y -> x <= mid_digit x y <= Z.max x y /\ is_u64 (mid_digit x y).
Proof.
  intros. unfold mid_digit, saturating_sub. rewrite Z.shiftr_div_pow2 by lia.
  assert (0 <= Z.max 0 (y - x) / 2 ^ 48 <= Z.max 0 (y - x)).
  { split; [apply Z.div_pos; lia|]. apply Z.div_le_upper_bound; lia. }
  uint_lia.
Qed.

Lemma mid_digit_lt x y : x < y -> mid_digit x y < y.
Proof.
  intros. unfold mid_digit, saturating_sub. rewrite Z.shiftr_div_pow2 by lia.
  enough (Z.max 0 (y - x) / 2 ^ 48 < y - x) by lia.
  rewrite Z.max_r by lia. apply Z.div_lt; lia.
Qed.

Lemma mid_digit_stuck x y : mid_digit x y <= x -> is_u64 x -> is_u64 y -> mid_digit x y = x.
Proof. intros ? Hx Hy. pose proof (mid_digit_bounds x y Hx Hy). lia. Qed.

Lemma next_or_u64 pad l : is_u64 pad -> digits_ok l -> is_u64 (next_or pad l).
Proof. intros ? Hl. by destruct Hl. Qed.

Lemma digits_ok_tail l : digits_ok l -> digits_ok (tail l).
Proof. intros Hl. destruct Hl; [constructor|done]. Qed.

Lemma is_u64_0 : is_u64 0. Proof. uint_lia. Qed.
Lemma is_u64_MAX : is_u64 U64_MAX. Proof. uint_lia. Qed.

#[local] Hint Resolve next_or_u64 digits_ok_tail is_u64_0 is_u64_MAX : core.

(** ** Termination *)

Lemma between_loop_total fuel lhs rhs :
  (Nat.max (length lhs) (length rhs) < fuel)%nat ->
  exists m, between_loop fuel lhs rhs = Some m.
Proof.
  revert lhs rhs; induction fuel as [|fuel IH]; intros lhs rhs Hf; [lia|]; simpl.
  destruct (Z.ltb_spec (next_or 0 lhs) (mid_digit (next_or 0 lhs) (next_or U64_MAX rhs)))
    as [_|Hge]; [eauto|].
  destruct (IH (tail lhs) (tail rhs)) as [m ->]; [|simpl; eauto].
  destruct lhs as [|x lhs], rhs as [|y rhs]; simpl in *; try lia.
  exfalso. vm_compute in Hge. by apply Hge.
Qed.

(** ** Shape of the result: digits in range, a positive last digit. *)

Lemma between_loop_wf fuel lhs rhs m :
  digits_ok lhs -> digits_ok rhs -> between_loop fuel lhs rhs = Some m ->
  wf m /\ (length m <= S (Nat.max (length lhs) (length rhs)))%nat.
Proof.
  revert lhs rhs m; induction fuel as [|fuel IH]; intros lhs rhs m Hl Hr Hm; [done|].
  simpl in Hm. set (x := next_or 0 lhs) in *. set (y := next_or U64_MAX rhs) in *.
  assert (Hx : is_u64 x) by (subst x; auto). assert (Hy : is_u64 y) by (subst y; auto).
  pose proof (mid_digit_bounds x y Hx Hy) as [Hb Hu].
  destruct (Z.ltb_spec x (mid_digit x y)) as [Hlt|Hge].
  - injection Hm as <-. split; [|simpl; lia]. split; [by apply Forall_singleton|].
    exists [], (mid_digit x y). split; [done|uint_lia].
  - destruct (between_loop fuel (tail lhs) (tail rhs)) as [m'|] eqn:E; [|done].
    injection Hm as <-. apply IH in E as [[Hd (init & d & -> & Hpos)] Hlen]; auto.
    split; [split; [by constructor|by exists (mid_digit x y :: init), d]|].
    destruct lhs as [|x' lhs], rhs as [|y' rhs]; simpl in *; try lia.
    exfalso. subst x y. vm_compute in Hge. by apply Hge.
Qed.

(** ** Ordering *)

(** Past the point where the left digits are exhausted or already below the
    right ones, only the lower bound is left to show. *)
Lemma between_loop_above fuel lhs rhs m :
  digits_ok lhs -> digits_ok rhs -> between_loop fuel lhs rhs = Some m -> lex_lt lhs m.
Proof.
  revert lhs rhs m; induction fuel as [|fuel IH]; intros lhs rhs m Hl Hr Hm; [done|].
  simpl in Hm. set (x := next_or 0 lhs) in *. set (y := next_or U64_MAX rhs) in *.
  assert (Hx : is_u64 x) by (subst x; auto). assert (Hy : is_u64 y) by (subst y; auto).
  destruct (Z.ltb_spec x (mid_digit x y)) as [Hlt|Hge].
  - injection Hm as <-. destruct lhs as [|x' lhs]; [by rewrite lex_lt_nil_l|].
    rewrite lex_lt_cons. left. done.
  - destruct (between_loop fuel (tail lhs) (tail rhs)) as [m'|] eqn:E; [|done].
    injection Hm as <-. apply IH in E; auto.
    destruct lhs as [|x' lhs]; [by rewrite lex_lt_nil_l|].
    rewrite lex_lt_cons. right. split; [|done].
    rewrite mid_digit_stuck by auto. done.
Qed.

(** Below the right bound: either a digit separates the two sequences, or the
    left one is a prefix and the right one still has its positive last digit. *)
Lemma between_loop_below fuel lhs rhs m :
  digits_ok lhs -> wf rhs -> between_loop fuel lhs rhs = Some m ->
  lex_lt lhs rhs -> lex_lt m rhs.
Proof.
  revert lhs rhs m; induction fuel as [|fuel IH]; intros lhs rhs m Hl Hr Hm Hlt; [done|].
  destruct Hr as [Hr (init & d & -> & Hd)].
  simpl in Hm. set (x := next_or 0 lhs) in *.
  destruct init as [|y init]; simpl in *; apply Forall_cons in Hr as [Hy Hr'].
  - assert (Hxd : x < d).
    { clear Hm. destruct lhs as [|x' lhs]; [assumption|]. rewrite lex_lt_cons in Hlt.
      destruct Hlt as [?|[_ ?%lex_lt_nil_r]]; done. }
    pose proof (mid_digit_lt x d Hxd).
    destruct (x <? mid_digit x d).
    + injection Hm as <-. rewrite lex_lt_cons. left. assumption.
    + destruct (between_loop _ _ _); [|done]. injection Hm as <-.
      rewrite lex_lt_cons. left. assumption.
  - assert (Hx : is_u64 x) by (subst x; auto).
    assert (Hcase : x < y \/ (x = y /\ lex_lt (tail lhs) (init ++ [d]))).
    { clear Hm IH. subst x. destruct lhs as [|x' lhs]; cbn [next_or tail].
      - destruct (decide (0 < y)); [left; assumption|right]. split; [uint_lia|].
        rewrite lex_lt_nil_l. by destruct init.
      - by apply lex_lt_cons. }
    destruct Hcase as [Hxy|[Hxy Htl]].
    + pose proof (mid_digit_lt x y Hxy).
      destruct (x <? mid_digit x y).
      * injection Hm as <-. rewrite lex_lt_cons. left. assumption.
      * destruct (between_loop _ _ _); [|done]. injection Hm as <-.
        rewrite lex_lt_cons. left. assumption.
    + assert (Hmid : mid_digit x y = x).
      { pose proof (mid_digit_bounds x y Hx Hy). lia. }
      rewrite Hmid, Z.ltb_irrefl in Hm.
      destruct (between_loop fuel (tail lhs) (init ++ [d])) as [m'|] eqn:E; [|done].
      injection Hm as <-. rewrite lex_lt_cons. right. split; [done|].
      eapply IH; [..|exact Htl]; [by apply digits_ok_tail| |exact E].
      split; [done|by exists init, d].
Qed.

(** ** Properties *)

(** [between] always terminates, and between a locator and a larger
    well-formed one it returns a well-formed locator strictly in the middle
    that is at most one digit longer than the longer bound. *)
Theorem between_strictly_between (lhs rhs : locator) :
  digits_ok lhs -> wf rhs -> lex_lt lhs rhs ->
  exists m, between lhs rhs = Some m /\ lex_lt lhs m /\ lex_lt m rhs /\ wf m
            /\ (length m <= S (Nat.max (length lhs) (length rhs)))%nat.
Proof.
  intros Hl Hr Hlt. unfold between.
  destruct (between_loop_total (S (Nat.max (length lhs) (length rhs))) lhs rhs)
    as [m Hm]; [lia|].
  exists m. split; [done|]. destruct Hr as [Hrd Hrl].
  destruct (between_loop_wf _ _ _ _ Hl Hrd Hm).
  split; [by eapply between_loop_above|].
  split; [eapply between_loop_below; [..|exact Hlt]; [done|done|exact Hm]|done].
Qed.

Lemma between_strictly_between_witness :
  between [65535] [65535; 1] = Some [65535; 0; 65535]
  /\ exists m, between [65535] [65535; 1] = Some m /\ lex_lt [65535] m
     /\ lex_lt m [65535; 1] /\ wf m /\ (length m <= 3)%nat.
Proof.
  split; [vm_compute; reflexivity|].
  apply (between_strictly_between [65535] [65535; 1]).
  - repeat constructor; uint_lia.
  - split; [repeat constructor; uint_lia|]. by exists [65535], 1.
  - reflexivity.
Defined.

(** Sequential typing stays shallow: inserting after a one-digit locator
    and before [max] gives a one-digit locator again while at least [2^48]
    digits of room are left, and the step taken uses at most a [2^-48] share
    of that room. *)
Theorem between_append_depth (x : Z) :
  is_u64 x -> x + 2 ^ 48 <= U64_MAX ->
  exists y, between [x] max = Some [y] /\ x < y /\ y <= U64_MAX
            /\ (y - x) * 2 ^ 48 <= U64_MAX - x.
Proof.
  intros Hx Hroom. unfold between. cbn [length Nat.max between_loop next_or max].
  unfold mid_digit, saturating_sub. rewrite Z.shiftr_div_pow2, Z.max_r by lia.
  assert (1 <= (U64_MAX - x) / 2 ^ 48) by (apply Z.div_le_lower_bound; lia).
  pose proof (Z.mul_div_le (U64_MAX - x) (2 ^ 48) ltac:(lia)).
  rewrite (proj2 (Z.ltb_lt _ _)) by lia.
  eexists. split; [reflexivity|]. uint_lia.
Qed.

Lemma between_append_depth_witness :
  between [65535] max = Some [131070]
  /\ exists y, between [65535] max = Some [y] /\ 65535 < y /\ y <= U64_MAX
     /\ (y - 65535) * 2 ^ 48 <= U64_MAX - 65535.
Proof.
  split; [vm_compute; reflexivity|]. apply (between_append_depth 65535); uint_lia.
Defined.

(** [assign] copies the other locator whatever the receiver held. *)
Lemma assign_eq self other : assign self other = other.
Proof.
  unfold assign. apply list_eq. intros i. rewrite lookup_zip_update.
  destruct (resize _ _ _ !! i) eqn:E', (other !! i) eqn:E;
    rewrite ?E; try done.
  - apply lookup_ge_None in E. apply lookup_lt_Some in E'.
    rewrite length_resize in E'. lia.
  - apply lookup_lt_Some in E. apply lookup_ge_None in E'.
    rewrite length_resize in E'. lia.
Qed.

(** The bound must be well formed: a trailing zero digit leaves no room below
    it, and [between] then returns a locator above its right bound. *)
Example between_needs_wf :
  lex_lt [0] [0; 0] /\ between [0] [0; 0] = Some [0; 0; 65535]
  /\ lex_lt [0; 0] [0; 0; 65535].
Proof. repeat split; vm_compute; reflexivity. Qed.
