(* ===== verification/Patch.v ===== *)
(** * Patches ([crates/text/src/patch.rs])

    A [Patch] lists the edits between two versions of a text: each [Edit] says
    which range of the old text became which range of the new one.  Positions
    are [usize] offsets, as the buffer uses patches; a subtraction below zero is
    a panic. *)

From S2P Require Import Prelude.

Abbreviation zlen l := (Z.of_nat (length l)).

Record Range := mkRange { start : Z; end_ : Z }.
(** [text.rs]: [Edit]. *)
Record Edit := mkEdit { old : Range; new : Range }.
Abbreviation Patch := (list Edit) (only parsing).

Definition usub (a b : Z) : res Z := if a <? b then Panic else Ret (a - b).

Definition is_empty (e : Edit) : bool :=
  (start (old e) =? end_ (old e)) && (start (new e) =? end_ (new e)).
Definition old_len (e : Edit) : res Z := usub (end_ (old e)) (start (old e)).
Definition new_len (e : Edit) : res Z := usub (end_ (new e)) (start (new e)).

Definition invert (p : Patch) : Patch := map (fun e => mkEdit (new e) (old e)) p.

Definition push_maybe_empty (p : Patch) (edit : Edit) : Patch :=
  match last p with
  | Some last =>
      if start (old edit) <=? end_ (old last) then
        take (length p - 1) p
          ++ [mkEdit (mkRange (start (old last)) (end_ (old edit)))
                     (mkRange (start (new last)) (end_ (new edit)))]
      else p ++ [edit]
  | None => p ++ [edit]
  end.

Definition push (p : Patch) (edit : Edit) : Patch :=
  if is_empty edit then p else push_maybe_empty p edit.

(** ** [compose]

    The locals of the loop: what is composed so far, the positions reached in the
    first and the last text, and the edits the two iterators still hold, their
    heads as the loop has cut them. *)
Record composing := mkComposing {
  composed : Patch;
  old_start : Z;
  new_start : Z;
  old_edits : Patch;
  new_edits : Patch;
}.

Definition advance (old_len new_len : Z) (s : composing) : composing :=
  let old_end := old_start s + old_len in
  let new_end := new_start s + new_len in
  mkComposing
    (push (composed s) (mkEdit (mkRange (old_start s) old_end) (mkRange (new_start s) new_end)))
    old_end new_end (old_edits s) (new_edits s).

Definition catch_up (catchup : Z) (s : composing) : composing :=
  mkComposing (composed s) (old_start s + catchup) (new_start s + catchup)
    (old_edits s) (new_edits s).

Definition set_edits (p q : Patch) (s : composing) : composing :=
  mkComposing (composed s) (old_start s) (new_start s) p q.

(** The old edit ends before the new one starts. *)
Definition push_old (e : Edit) (p' : Patch) (s : composing) : res composing :=
  catchup ← usub (start (old e)) (old_start s);
  ol ← old_len e;
  nl ← new_len e;
  mret (set_edits p' (new_edits s) (advance ol nl (catch_up catchup s))).

(** The new edit ends before the old one starts. *)
Definition push_new (f : Edit) (q' : Patch) (s : composing) : res composing :=
  catchup ← usub (start (new f)) (new_start s);
  ol ← old_len f;
  nl ← new_len f;
  mret (set_edits (old_edits s) q' (advance ol nl (catch_up catchup s))).

(** Edits that touch: first the part of the earlier one up to the later one's
    start, which cuts the earlier one's head. *)
Definition align (e f : Edit) (s : composing) : res (Edit * Edit * composing) :=
  if start (new e) <? start (old f) then
    catchup ← usub (start (old e)) (old_start s);
    let s := catch_up catchup s in
    overshoot ← usub (start (old f)) (start (new e));
    let old_end := Z.min (old_start s + overshoot) (end_ (old e)) in
    let s := advance (old_end - old_start s) overshoot s in
    let e := mkEdit (mkRange old_end (end_ (old e)))
                    (mkRange (start (new e) + overshoot) (end_ (new e))) in
    mret (e, f, s)
  else
    catchup ← usub (start (new f)) (new_start s);
    let s := catch_up catchup s in
    overshoot ← usub (start (new e)) (start (old f));
    let new_end := Z.min (new_start s + overshoot) (end_ (new f)) in
    let s := advance overshoot (new_end - new_start s) s in
    let f := mkEdit (mkRange (start (old f) + overshoot) (end_ (old f)))
                    (mkRange new_end (end_ (new f))) in
    mret (e, f, s).

(** Then the edit that ends first in the middle text is used up, and cuts the
    other one's head. *)
Definition merge (e f : Edit) (p' q' : Patch) (s : composing) : res composing :=
  if end_ (old f) <? end_ (new e) then
    ol ← old_len e;
    ml ← old_len f;
    nl ← new_len f;
    let s := advance (Z.min ol ml) nl s in
    let e := mkEdit (mkRange (old_start s) (end_ (old e)))
                    (mkRange (end_ (old f)) (end_ (new e))) in
    mret (set_edits (e :: p') q' s)
  else
    ol ← old_len e;
    ml ← new_len e;
    nl ← new_len f;
    let s := advance ol (Z.min ml nl) s in
    let f := mkEdit (mkRange (end_ (new e)) (end_ (old f)))
                    (mkRange (new_start s) (end_ (new f))) in
    mret (set_edits p' (f :: q') s).

(** One iteration; [None] is the [break]. *)
Definition compose_step (s : composing) : res (option composing) :=
  match old_edits s, new_edits s with
  | e :: p', [] => Some <$> push_old e p' s
  | e :: p', f :: q' =>
      if end_ (new e) <? start (old f) then Some <$> push_old e p' s
      else if end_ (old f) <? start (new e) then Some <$> push_new f q' s
      else
        r ← align e f s;
        Some <$> merge r.1.1 r.1.2 p' q' r.2
  | [], f :: q' => Some <$> push_new f q' s
  | [], [] => mret None
  end.

Fixpoint compose_loop (fuel : nat) (s : composing) : res (option Patch) :=
  match fuel with
  | O => mret None
  | S fuel' =>
      r ← compose_step s;
      match r with
      | Some s' => compose_loop fuel' s'
      | None => mret (Some (composed s))
      end
  end.

(** Every iteration but the last uses up an edit of one of the patches. *)
Definition compose (self new_edits : Patch) : res (option Patch) :=
  compose_loop (S (length self + length new_edits))
    (mkComposing [] 0 0 self new_edits).

(** ** Looking a position up

    [binary_search_by] on the starts of the old ranges: [inl ix] is [Ok(ix)] and
    [inr ix] is [Err(ix)], the number of edits that start before. *)
Fixpoint binary_search (p : Patch) (at_ : Z) : nat + nat :=
  match p with
  | [] => inr 0%nat
  | e :: p' =>
      if start (old e) =? at_ then inl 0%nat
      else if at_ <? start (old e) then inr 0%nat
      else match binary_search p' at_ with inl ix => inl (S ix) | inr ix => inr (S ix) end
  end.

Definition old_to_new (self : Patch) (at_ : Z) : Z :=
  let from ix :=
    match self !! ix with
    | Some edit =>
        if end_ (old edit) <=? at_ then end_ (new edit) + (at_ - end_ (old edit))
        else start (new edit)
    | None => at_
    end in
  match binary_search self at_ with
  | inl ix => from ix
  | inr O => at_
  | inr (S ix) => from ix
  end.

Definition edit_for_old_position (self : Patch) (at_ : Z) : Edit :=
  let here := mkEdit (mkRange at_ at_) (mkRange at_ at_) in
  let from ix :=
    match self !! ix with
    | Some edit =>
        if end_ (old edit) <? at_ then
          let translated := end_ (new edit) + (at_ - end_ (old edit)) in
          mkEdit (mkRange at_ at_) (mkRange translated translated)
        else edit
    | None => here
    end in
  match binary_search self at_ with
  | inl ix => from ix
  | inr O => here
  | inr (S ix) => from ix
  end.

(** ** What a patch means

    [transforms o n p A B]: the patch [p] describes how the text [A], which
    starts at offset [o] of the old text, became [B], which starts at offset [n]
    of the new one.  Between edits the texts agree; an edit replaces a part [X]
    of the old text by a part [Y] of the new one. *)
Section Texts.
Context {C : Type}.
Implicit Types A B T X Y g : list C.

Definition edit_of (o n : Z) X Y : Edit :=
  mkEdit (mkRange o (o + zlen X)) (mkRange n (n + zlen Y)).

Inductive transforms : Z -> Z -> Patch -> list C -> list C -> Prop :=
| transforms_nil o n T : transforms o n [] T T
| transforms_cons o n g X Y p A B :
    transforms (o + zlen g + zlen X) (n + zlen g + zlen Y) p A B ->
    transforms o n (edit_of (o + zlen g) (n + zlen g) X Y :: p) (g ++ X ++ A) (g ++ Y ++ B).

Lemma transforms_gap o n g p A B :
  transforms (o + zlen g) (n + zlen g) p A B -> transforms o n p (g ++ A) (g ++ B).
Proof.
  intros H. inversion H as [|? ? g' X Y p' A' B' Hp]; subst; [constructor|].
  rewrite !(app_assoc g g'), <-!Z.add_assoc, <-Nat2Z.inj_add, <-length_app.
  constructor. rewrite length_app, Nat2Z.inj_add, !Z.add_assoc. done.
Qed.

Lemma transforms_app o n p q A A' B B' :
  transforms o n p A B -> transforms (o + zlen A) (n + zlen B) q A' B' ->
  transforms o n (p ++ q) (A ++ A') (B ++ B').
Proof.
  intros H. revert q A' B'. induction H as [|o n g X Y p A B _ IH]; intros q A' B' Hq.
  - by apply transforms_gap.
  - rewrite <-!app_assoc. simpl. constructor. apply IH.
    rewrite !length_app, !Nat2Z.inj_add, !Z.add_assoc in Hq. done.
Qed.

Lemma transforms_one o n X Y : transforms o n [edit_of o n X Y] X Y.
Proof.
  pose proof (transforms_cons o n [] X Y [] [] []) as H. simpl in H.
  rewrite !Z.add_0_r, !app_nil_r in H. apply H. constructor.
Qed.

(** The last edit of a patch, and the text after it. *)
Lemma transforms_snoc o n p e A B :
  transforms o n (p ++ [e]) A B ->
  exists A1 B1 X Y g, transforms o n p A1 B1
    /\ A = A1 ++ X ++ g /\ B = B1 ++ Y ++ g
    /\ e = edit_of (o + zlen A1) (n + zlen B1) X Y.
Proof.
  revert o n A B. induction p as [|e' p IH]; intros o n A B; simpl; intros H;
    inversion H as [|? ? g X Y ? A' B' Hp]; subst.
  - inversion Hp; subst. exists g, g, X, Y, B'. split_and!; try done. constructor.
  - destruct (IH _ _ _ _ Hp) as (A1 & B1 & X' & Y' & g' & Hp' & -> & -> & ->).
    exists (g ++ X ++ A1), (g ++ Y ++ B1), X', Y', g'. split_and!.
    + by constructor.
    + by rewrite <-!app_assoc.
    + by rewrite <-!app_assoc.
    + rewrite !length_app, !Nat2Z.inj_add, !Z.add_assoc. done.
Qed.

(** The patch a buffer reports: no empty edit, and unchanged text between any
    two edits ([Patch::new] asserts the latter). *)
Fixpoint normal (p : Patch) : Prop :=
  match p with
  | [] => True
  | e :: p' => is_empty e = false
               /\ match p' with f :: _ => end_ (old e) < start (old f) | [] => True end
               /\ normal p'
  end.

Lemma normal_snoc p e :
  normal p -> is_empty e = false ->
  match last p with Some l => end_ (old l) < start (old e) | None => True end ->
  normal (p ++ [e]).
Proof.
  induction p as [|f p IH]; intros Hp He Hl; [done|]. simpl in *. destruct Hp as (Hf & Hn & Hp).
  destruct p as [|f' p]; simpl in *; [done|].
  split; [done|]. split; [done|]. by apply IH.
Qed.

Lemma normal_init p e : normal (p ++ [e]) -> normal p.
Proof.
  induction p as [|f p IH]; [done|]. intros (Hf & Hn & Hp). simpl. split; [done|]. split; [by destruct p|auto].
Qed.

Lemma normal_last p e :
  normal (p ++ [e]) ->
  match last p with Some l => end_ (old l) < start (old e) | None => True end.
Proof.
  induction p as [|f p IH]; [done|]. intros (Hf & Hn & Hp).
  destruct p as [|f' p]; [done|]. by apply IH.
Qed.

Lemma is_empty_edit_of o n X Y : is_empty (edit_of o n X Y) = true <-> X = [] /\ Y = [].
Proof.
  unfold is_empty, edit_of. simpl. rewrite andb_true_iff, !Z.eqb_eq.
  destruct X, Y; simpl; intuition (done || lia).
Qed.

(** Pushing the edit that comes next. *)
Lemma push_transforms p A B g X Y :
  transforms 0 0 p A B -> normal p ->
  let e := edit_of (zlen A + zlen g) (zlen B + zlen g) X Y in
  transforms 0 0 (push p e) (A ++ g ++ X) (B ++ g ++ Y) /\ normal (push p e).
Proof.
  intros Hp Hn e. unfold push. destruct (is_empty e) eqn:He.
  { apply is_empty_edit_of in He as [-> ->]. rewrite !app_nil_r. split; [|done].
    rewrite <-(app_nil_r p). eapply transforms_app; [done|constructor]. }
  assert (Happ : transforms 0 0 (p ++ [e]) (A ++ g ++ X) (B ++ g ++ Y)).
  { eapply transforms_app; [done|]. apply transforms_gap. rewrite !Z.add_0_l.
    apply transforms_one. }
  unfold push_maybe_empty. destruct (last p) as [l|] eqn:El.
  2:{ split; [done|]. apply normal_snoc; [done..|]. by rewrite El. }
  destruct (Z.leb_spec (start (old e)) (end_ (old l))) as [Hle|Hlt].
  2:{ split; [done|]. apply normal_snoc; [done..|]. by rewrite El. }
  apply last_Some in El as [p' ->].
  apply transforms_snoc in Hp as (A1 & B1 & X' & Y' & g' & Hp & -> & -> & ->).
  rewrite !Z.add_0_l in *. simpl in Hle. rewrite !length_app, !Nat2Z.inj_add in Hle.
  assert (g' = []) as -> by (apply nil_length_inv; lia).
  assert (g = []) as -> by (apply nil_length_inv; lia).
  assert (Hm : mkEdit (mkRange (start (old (edit_of (zlen A1) (zlen B1) X' Y'))) (end_ (old e)))
                 (mkRange (start (new (edit_of (zlen A1) (zlen B1) X' Y'))) (end_ (new e)))
               = edit_of (zlen A1) (zlen B1) (X' ++ X) (Y' ++ Y)).
  { unfold e, edit_of. simpl. f_equal; f_equal; rewrite !length_app; simpl; lia. }
  rewrite Hm, length_app, Nat.add_sub, take_app_length.
  rewrite (app_nil_r X'), (app_nil_r Y'), !app_nil_l, <-!(app_assoc _ _ X), <-!(app_assoc _ _ Y).
  split; [eapply transforms_app; [done|apply transforms_one]|].
  apply normal_snoc; [by eapply normal_init| |].
  - apply not_true_is_false. intros [[-> ->]%app_nil [-> ->]%app_nil]%is_empty_edit_of.
    apply (eq_true_false_abs _ (proj2 (is_empty_edit_of _ _ _ _) (conj eq_refl eq_refl)) He).
  - apply (normal_last _ _ Hn).
Qed.

(** ** The loop of [compose] *)

Definition pending (s : composing) : nat := length (old_edits s) + length (new_edits s).

Lemma usub_Ret a b d : a = b + d -> 0 <= d -> usub a b = Ret d.
Proof.
  intros -> ?. unfold usub. rewrite (proj2 (Z.ltb_ge _ _)) by lia. f_equal. lia.
Qed.

Lemma old_len_edit_of o n X Y : old_len (edit_of o n X Y) = Ret (zlen X).
Proof. by apply usub_Ret; simpl; [|lia]. Qed.
Lemma new_len_edit_of o n X Y : new_len (edit_of o n X Y) = Ret (zlen Y).
Proof. by apply usub_Ret; simpl; [|lia]. Qed.

Lemma cut_longer g G A B :
  g ++ A = G ++ B -> (length G <= length g)%nat -> exists w, g = G ++ w /\ B = w ++ A.
Proof.
  intros [(k & -> & ->)|(k & -> & ->)]%app_eq_inv Hle; [by exists k|].
  rewrite length_app in Hle. assert (k = []) as -> by (apply nil_length_inv; lia).
  exists []. by rewrite !app_nil_r.
Qed.

Lemma edit_of_eq o n o' n' X Y : o = o' -> n = n' -> edit_of o n X Y = edit_of o' n' X Y.
Proof. by intros -> ->. Qed.

Lemma mkEdit_eq a b c d a' b' c' d' :
  a = a' -> b = b' -> c = c' -> d = d' ->
  mkEdit (mkRange a b) (mkRange c d) = mkEdit (mkRange a' b') (mkRange c' d').
Proof. by intros -> -> -> ->. Qed.

Lemma transforms_eq o n o' n' p A B :
  transforms o n p A B -> o = o' -> n = n' -> transforms o' n' p A B.
Proof. by intros ? <- <-. Qed.

Lemma transforms_invert o n p A B : transforms o n p A B -> transforms n o (invert p) B A.
Proof. induction 1; simpl; by constructor. Qed.

Lemma invert_involutive p : invert (invert p) = p.
Proof. induction p as [|[[] []] p IH]; simpl; by f_equal. Qed.

(** Skipping unchanged text of a patch. *)
Lemma transforms_skip o n p G A B :
  transforms o n p (G ++ A) B ->
  (forall e, head p = Some e -> o + zlen G <= start (old e)) ->
  exists B', B = G ++ B' /\ transforms (o + zlen G) (n + zlen G) p A B'.
Proof.
  intros H Hh. remember (G ++ A) as GA eqn:E.
  inversion H as [|? ? g X Y p' A' B' Hp]; subst.
  - exists A. split; [done|constructor].
  - specialize (Hh _ eq_refl). simpl in Hh.
    assert (E : g ++ X ++ A' = G ++ A) by congruence.
    destruct (cut_longer _ _ _ _ E) as (w & -> & ->); [lia|].
    exists (w ++ Y ++ B'). split; [by rewrite <-app_assoc|].
    rewrite !length_app, !Nat2Z.inj_add, !Z.add_assoc in *. by constructor.
Qed.

Lemma transforms_skip_new o n p G A B :
  transforms o n p A (G ++ B) ->
  (forall e, head p = Some e -> n + zlen G <= start (new e)) ->
  exists A', A = G ++ A' /\ transforms (o + zlen G) (n + zlen G) p A' B.
Proof.
  intros H%transforms_invert Hh. destruct (transforms_skip _ _ _ _ _ _ H) as (A' & -> & H').
  - intros e. destruct p as [|e' p]; [done|]. intros [= <-]. by apply Hh.
  - exists A'. split; [done|]. apply transforms_invert in H'. by rewrite invert_involutive in H'.
Qed.

(** What is composed so far describes the texts before the loop's positions. *)
Record prefix_ok (s : composing) A C1 : Prop := mkPrefixOk {
  px_transforms : transforms 0 0 (composed s) A C1;
  px_normal : normal (composed s);
  px_old : old_start s = zlen A;
  px_new : new_start s = zlen C1;
}.

Lemma catch_up_ok s A B g : prefix_ok s A B -> prefix_ok (catch_up (zlen g) s) (A ++ g) (B ++ g).
Proof.
  intros [Hp Hn Ho Hc]. split; simpl; [|done|rewrite length_app; lia..].
  rewrite <-(app_nil_r (composed s)). eapply transforms_app; [done|constructor].
Qed.

Lemma advance_ok s A B X Y :
  prefix_ok s A B -> prefix_ok (advance (zlen X) (zlen Y) s) (A ++ X) (B ++ Y).
Proof.
  intros [Hp Hn Ho Hc]. destruct (push_transforms _ _ _ [] X Y Hp Hn) as [Hp' Hn'].
  simpl in Hp', Hn'. rewrite !Z.add_0_r in Hp', Hn'.
  split; simpl; rewrite ?Ho, ?Hc, ?length_app; [done|done|lia..].
Qed.

Lemma set_edits_ok s A B p q : prefix_ok s A B -> prefix_ok (set_edits p q s) A B.
Proof. by intros []. Qed.

(** Both iterators stand at the same offset [m] of the middle text, and what
    they hold describes the texts after it. *)
Definition reached A T (s : composing) (p q : Patch) : Prop :=
  exists A1 A2 B2 C1 C2 m,
    A = A1 ++ A2 /\ T = C1 ++ C2 /\ prefix_ok s A1 C1
    /\ transforms (zlen A1) m p A2 B2 /\ transforms m (zlen C1) q B2 C2.

Lemma reached_set_edits A T s p q : reached A T s p q -> reached A T (set_edits p q s) p q.
Proof.
  intros (A1 & A2 & B2 & C1 & C2 & m & ? & ? & ? & ? & ?).
  exists A1, A2, B2, C1, C2, m. split_and!; try done. by apply set_edits_ok.
Qed.

Lemma zlen_app A B : zlen (A ++ B) = zlen A + zlen B.
Proof. by rewrite length_app, Nat2Z.inj_add. Qed.

Lemma push_old_ok A T s e p' :
  reached A T s (e :: p') (new_edits s) ->
  (forall f, head (new_edits s) = Some f -> end_ (new e) <= start (old f)) ->
  exists s', push_old e p' s = Ret s' /\ reached A T s' (old_edits s') (new_edits s')
             /\ old_edits s' = p' /\ new_edits s' = new_edits s.
Proof.
  intros (A1 & A2 & B2 & C1 & C2 & m & -> & -> & Hx & Hp & Hq) Hh.
  inversion Hp as [|? ? g X Y ? A3 B3 Hp']; subst. rewrite app_assoc in Hq.
  destruct (transforms_skip _ _ _ _ _ _ Hq) as (C3 & -> & Hq').
  { intros f Hf. specialize (Hh f Hf). simpl in Hh. rewrite zlen_app. lia. }
  unfold push_old. rewrite (px_old _ _ _ Hx), (usub_Ret _ _ (zlen g)) by (simpl; lia).
  rewrite old_len_edit_of, new_len_edit_of. simpl.
  eexists. split; [reflexivity|]. split; [|done].
  apply reached_set_edits. exists (A1 ++ g ++ X), A3, B3, (C1 ++ g ++ Y), C3, (m + zlen (g ++ Y)).
  split_and!; [by rewrite <-!app_assoc..| | |].
  - rewrite !(app_assoc _ g). by apply advance_ok, catch_up_ok.
  - eapply transforms_eq; [done|..]; rewrite !zlen_app; lia.
  - eapply transforms_eq; [done|..]; rewrite !zlen_app; lia.
Qed.

Lemma push_new_ok A T s f q' :
  reached A T s (old_edits s) (f :: q') ->
  (forall e, head (old_edits s) = Some e -> end_ (old f) <= start (new e)) ->
  exists s', push_new f q' s = Ret s' /\ reached A T s' (old_edits s') (new_edits s')
             /\ old_edits s' = old_edits s /\ new_edits s' = q'.
Proof.
  intros (A1 & A2 & B2 & C1 & C2 & m & -> & -> & Hx & Hp & Hq) Hh.
  inversion Hq as [|? ? g X Y ? B3 C3 Hq']; subst. rewrite app_assoc in Hp.
  destruct (transforms_skip_new _ _ _ _ _ _ Hp) as (A3 & -> & Hp').
  { intros e He. specialize (Hh e He). simpl in Hh. rewrite zlen_app. lia. }
  unfold push_new. rewrite (px_new _ _ _ Hx), (usub_Ret _ _ (zlen g)) by (simpl; lia).
  rewrite old_len_edit_of, new_len_edit_of. simpl.
  eexists. split; [reflexivity|]. split; [|done].
  apply reached_set_edits. exists (A1 ++ g ++ X), A3, B3, (C1 ++ g ++ Y), C3, (m + zlen (g ++ X)).
  split_and!; [by rewrite <-!app_assoc..| | |].
  - rewrite !(app_assoc _ g). by apply advance_ok, catch_up_ok.
  - eapply transforms_eq; [done|..]; rewrite !zlen_app; lia.
  - eapply transforms_eq; [done|..]; rewrite !zlen_app; lia.
Qed.

(** Both heads start where the iterators stand. *)
Definition meeting A T (s : composing) (e f : Edit) (p' q' : Patch) : Prop :=
  exists A1 X A3 Y B3 X' B4 C1 Y' C3 m,
    A = A1 ++ X ++ A3 /\ T = C1 ++ Y' ++ C3 /\ Y ++ B3 = X' ++ B4 /\ prefix_ok s A1 C1
    /\ e = edit_of (zlen A1) m X Y /\ f = edit_of m (zlen C1) X' Y'
    /\ transforms (zlen A1 + zlen X) (m + zlen Y) p' A3 B3
    /\ transforms (m + zlen X') (zlen C1 + zlen Y') q' B4 C3.

Lemma take_drop_len (n : Z) X :
  0 <= n -> exists X1 X2, X = X1 ++ X2 /\ zlen X1 = Z.min n (zlen X).
Proof.
  intros. exists (take (Z.to_nat n) X), (drop (Z.to_nat n) X).
  rewrite take_drop, length_take. split; [done|lia].
Qed.

Lemma align_ok A T s e f p' q' :
  reached A T s (e :: p') (f :: q') ->
  start (old f) <= end_ (new e) -> start (new e) <= end_ (old f) ->
  exists e' f' s', align e f s = Ret (e', f', s') /\ meeting A T s' e' f' p' q'.
Proof.
  intros (A1 & A2 & B2 & C1 & C2 & m & -> & -> & Hx & Hp & Hq) H1 H2.
  inversion Hp as [|? ? g X Y ? A3 B3 Hp']; subst. remember (g ++ Y ++ B3) as B2 eqn:EB.
  inversion Hq as [|? ? g' X' Y' ? B4 C3 Hq']; subst.
  assert (EB : g' ++ X' ++ B4 = g ++ Y ++ B3) by congruence.
  unfold align. simpl in *. destruct (Z.ltb_spec (m + zlen g) (m + zlen g')).
  - destruct (cut_longer g' g (X' ++ B4) (Y ++ B3)) as (Y1 & -> & EY); [done|lia|].
    rewrite zlen_app in *.
    destruct (cut_longer Y Y1 B3 (X' ++ B4)) as (Y2 & -> & EX); [done|lia|].
    destruct (take_drop_len (zlen Y1) X) as (X1 & X2 & -> & HX1); [lia|].
    rewrite (px_old _ _ _ Hx), (usub_Ret _ (zlen A1) (zlen g)) by lia.
    rewrite (usub_Ret _ (m + zlen g) (zlen Y1)) by lia. simpl.
    rewrite !zlen_app in *.
    replace (Z.min _ _ - (zlen A1 + zlen g)) with (zlen X1) by lia.
    eexists _, _, _. split; [reflexivity|].
    exists (A1 ++ g ++ X1), X2, A3, Y2, B3, X', B4, (C1 ++ g ++ Y1), Y', C3, (m + zlen (g ++ Y1)).
    rewrite !zlen_app. split_and!; rewrite <-?app_assoc; try done.
    1: by rewrite !(app_assoc _ g); apply advance_ok, catch_up_ok.
    all: first [apply mkEdit_eq; lia | eapply transforms_eq; [done|..]; lia].
  - destruct (cut_longer g g' (Y ++ B3) (X' ++ B4)) as (X1 & -> & EX); [done|lia|].
    rewrite zlen_app in *.
    destruct (cut_longer X' X1 B4 (Y ++ B3)) as (X2 & -> & EY); [done|lia|].
    destruct (take_drop_len (zlen X1) Y') as (Y1 & Y2 & -> & HY1); [lia|].
    rewrite (px_new _ _ _ Hx), (usub_Ret _ (zlen C1) (zlen g')) by lia.
    rewrite (usub_Ret _ (m + zlen g') (zlen X1)) by lia. simpl.
    rewrite !zlen_app in *.
    replace (Z.min _ _ - (zlen C1 + zlen g')) with (zlen Y1) by lia.
    eexists _, _, _. split; [reflexivity|].
    exists (A1 ++ g' ++ X1), X, A3, Y, B3, X2, B4, (C1 ++ g' ++ Y1), Y2, C3, (m + zlen (g' ++ X1)).
    rewrite !zlen_app. split_and!; rewrite <-?app_assoc; try done.
    1: by rewrite !(app_assoc _ g'); apply advance_ok, catch_up_ok.
    all: first [apply mkEdit_eq; lia | eapply transforms_eq; [done|..]; lia].
Qed.

Lemma transforms_head o n X Y p A B :
  transforms (o + zlen X) (n + zlen Y) p A B ->
  transforms o n (edit_of o n X Y :: p) (X ++ A) (Y ++ B).
Proof.
  intros H. pose proof (transforms_cons o n [] X Y p A B) as Hc. simpl in Hc.
  rewrite !Z.add_0_r in Hc. by apply Hc.
Qed.

Lemma merge_ok A T s e f p' q' :
  meeting A T s e f p' q' ->
  exists s', merge e f p' q' s = Ret s' /\ reached A T s' (old_edits s') (new_edits s')
    /\ S (pending s') = (length (e :: p') + length (f :: q'))%nat.
Proof.
  intros (A1 & X & A3 & Y & B3 & X' & B4 & C1 & Y' & C3 & m & -> & -> & E & Hx & -> & -> & Hp & Hq).
  unfold merge. rewrite !old_len_edit_of, !new_len_edit_of. simpl.
  destruct (Z.ltb_spec (m + zlen X') (m + zlen Y)).
  - destruct (cut_longer Y X' B3 B4 E) as (Y2 & -> & ->); [lia|].
    destruct (take_drop_len (zlen X') X) as (X1 & X2 & -> & HX1); [lia|].
    eexists. split; [reflexivity|]. split; [|unfold pending; simpl; lia].
    apply reached_set_edits. rewrite !zlen_app in *.
    exists (A1 ++ X1), (X2 ++ A3), (Y2 ++ B3), (C1 ++ Y'), C3, (m + zlen X').
    rewrite <-!app_assoc. split_and!; try done.
    + replace (Z.min _ _) with (zlen X1) by lia. by apply advance_ok.
    + rewrite (px_old _ _ _ Hx), zlen_app.
      replace (mkEdit _ _) with (edit_of (zlen A1 + zlen X1) (m + zlen X') X2 Y2)
        by (apply mkEdit_eq; lia).
      apply transforms_head. eapply transforms_eq; [done|..]; lia.
    + eapply transforms_eq; [done|..]; rewrite ?zlen_app; lia.
  - destruct (cut_longer X' Y B4 B3 (eq_sym E)) as (X2 & -> & ->); [lia|].
    destruct (take_drop_len (zlen Y) Y') as (Y1 & Y2 & -> & HY1); [lia|].
    eexists. split; [reflexivity|]. split; [|unfold pending; simpl; lia].
    apply reached_set_edits. rewrite !zlen_app in *.
    exists (A1 ++ X), A3, (X2 ++ B4), (C1 ++ Y1), (Y2 ++ C3), (m + zlen Y).
    rewrite <-!app_assoc. split_and!; try done.
    + replace (Z.min _ _) with (zlen Y1) by lia. by apply advance_ok.
    + eapply transforms_eq; [done|..]; rewrite ?zlen_app; lia.
    + rewrite (px_new _ _ _ Hx), zlen_app.
      replace (mkEdit _ _) with (edit_of (m + zlen Y) (zlen C1 + zlen Y1) X2 Y2)
        by (apply mkEdit_eq; lia).
      apply transforms_head. eapply transforms_eq; [done|..]; lia.
Qed.

(** One iteration keeps the invariant and uses up an edit, or the loop is done
    and the composed patch describes the whole texts. *)
Lemma compose_step_ok A T s :
  reached A T s (old_edits s) (new_edits s) ->
  exists r, compose_step s = Ret r /\
    match r with
    | Some s' => reached A T s' (old_edits s') (new_edits s') /\ S (pending s') = pending s
    | None => transforms 0 0 (composed s) A T /\ normal (composed s)
    end.
Proof.
  intros H. unfold compose_step, pending.
  destruct (old_edits s) as [|e p'] eqn:Ep, (new_edits s) as [|f q'] eqn:Eq.
  - exists None. split; [done|].
    destruct H as (A1 & A2 & B2 & C1 & C2 & m & -> & -> & [Ht Hn _ _] & Hp & Hq).
    inversion Hp; inversion Hq; subst. split; [|done].
    rewrite <-(app_nil_r (composed s)). eapply transforms_app; [done|constructor].
  - destruct (push_new_ok A T s f q') as (s' & -> & Hr & Ho & Hn); [by rewrite Ep|by rewrite Ep|].
    eexists. split; [reflexivity|]. split; [done|]. rewrite Ho, Hn, Ep. done.
  - destruct (push_old_ok A T s e p') as (s' & -> & Hr & Ho & Hn); [by rewrite Eq|by rewrite Eq|].
    eexists. split; [reflexivity|]. split; [done|]. rewrite Ho, Hn, Eq. simpl. lia.
  - destruct (Z.ltb_spec (end_ (new e)) (start (old f))).
    { destruct (push_old_ok A T s e p') as (s' & -> & Hr & Ho & Hn); [by rewrite Eq| |].
      - rewrite Eq. intros ? [= <-]. lia.
      - eexists. split; [reflexivity|]. split; [done|]. rewrite Ho, Hn, Eq. simpl. lia. }
    destruct (Z.ltb_spec (end_ (old f)) (start (new e))).
    { destruct (push_new_ok A T s f q') as (s' & -> & Hr & Ho & Hn); [by rewrite Ep| |].
      - rewrite Ep. intros ? [= <-]. lia.
      - eexists. split; [reflexivity|]. split; [done|]. rewrite Ho, Hn, Ep. simpl. lia. }
    destruct (align_ok A T s e f p' q' H) as (e' & f' & s1 & -> & Hm); [lia..|].
    destruct (merge_ok A T s1 e' f' p' q' Hm) as (s' & Es & Hr & Hc). simpl. rewrite Es.
    eexists. split; [reflexivity|]. by split.
Qed.

Lemma compose_loop_ok A T fuel s :
  reached A T s (old_edits s) (new_edits s) -> (pending s < fuel)%nat ->
  exists r, compose_loop fuel s = Ret (Some r) /\ transforms 0 0 r A T /\ normal r.
Proof.
  revert s. induction fuel as [|fuel IH]; intros s Hs Hf; [lia|]. simpl.
  destruct (compose_step_ok A T s Hs) as ([s'|] & -> & Hr); simpl.
  - destruct Hr as [Hr Hc]. apply IH; [done|lia].
  - by exists (composed s).
Qed.

Lemma compose_ok A B T p q :
  transforms 0 0 p A B -> transforms 0 0 q B T ->
  exists r, compose p q = Ret (Some r) /\ transforms 0 0 r A T /\ normal r.
Proof.
  intros Hp Hq. apply compose_loop_ok; [|unfold pending; simpl; lia].
  exists [], A, B, [], T, 0. split_and!; try done. split; simpl; try done. constructor.
Qed.

(** ** Applying a patch

    Each edit, from the last to the first, replaces its old range by its new
    range of the new text. *)
Definition slice (l : list C) (r : Range) : list C :=
  take (Z.to_nat (end_ r - start r)) (drop (Z.to_nat (start r)) l).
Definition splice (l : list C) (r : Range) (by_ : list C) : list C :=
  take (Z.to_nat (start r)) l ++ by_ ++ drop (Z.to_nat (end_ r)) l.

Fixpoint apply_patch (text : list C) (p : Patch) (new_text : list C) : list C :=
  match p with
  | [] => text
  | e :: p' => splice (apply_patch text p' new_text) (old e) (slice new_text (new e))
  end.

Lemma apply_transforms o n p A B A0 B0 :
  transforms o n p A B -> zlen A0 = o -> zlen B0 = n ->
  apply_patch (A0 ++ A) p (B0 ++ B) = A0 ++ B.
Proof.
  intros H. revert A0 B0. induction H as [o n T|o n g X Y p A B _ IH]; intros A0 B0 Ho Hn; [done|].
  simpl. rewrite (app_assoc g X), (app_assoc g Y), !(app_assoc _ (g ++ _)).
  rewrite (IH (A0 ++ g ++ X) (B0 ++ g ++ Y)) by (rewrite !zlen_app; lia).
  unfold splice, slice. simpl.
  replace (Z.to_nat (o + zlen g)) with (length (A0 ++ g)) by (rewrite length_app; lia).
  replace (Z.to_nat (n + zlen g)) with (length (B0 ++ g)) by (rewrite length_app; lia).
  replace (Z.to_nat (o + zlen g + zlen X)) with (length (A0 ++ g ++ X))
    by (rewrite !length_app; lia).
  replace (Z.to_nat _) with (length Y) by lia.
  rewrite (drop_app_length (A0 ++ g ++ X)), !(app_assoc _ g), <-!(app_assoc (_ ++ g)).
  by rewrite drop_app_length, !take_app_length.
Qed.

(** ** Looking positions up

    The reference for [old_to_new]: walking the edits from the start of the texts. *)
Fixpoint map_position (o n : Z) (p : Patch) (x : Z) : Z :=
  match p with
  | [] => n + (x - o)
  | e :: p' =>
      if x <? start (old e) then n + (x - o)
      else if x <? end_ (old e) then start (new e)
      else map_position (end_ (old e)) (end_ (new e)) p' x
  end.

Definition before (x : Z) (p : Patch) : Prop :=
  match p with f :: _ => x < start (old f) | [] => True end.

(** The last edit that starts at a position or before it. *)
Fixpoint find_edit (p : Patch) (x : Z) : option Edit :=
  match p with
  | [] => None
  | e :: p' => if x <? start (old e) then None
               else match find_edit p' x with Some f => Some f | None => Some e end
  end.

Lemma find_edit_before p x : before x p -> find_edit p x = None.
Proof. destruct p; simpl; [done|]. intros. by rewrite (proj2 (Z.ltb_lt _ _)). Qed.

Lemma find_edit_None p x : find_edit p x = None -> before x p.
Proof.
  destruct p as [|e p]; simpl; [done|].
  destruct (Z.ltb_spec x (start (old e))); [done|]. by destruct (find_edit p x).
Qed.

Lemma find_edit_Some p x e : find_edit p x = Some e -> e ∈ p /\ start (old e) <= x.
Proof.
  induction p as [|f p IH]; simpl; [done|].
  destruct (Z.ltb_spec x (start (old f))); [done|].
  destruct (find_edit p x); intros [= ->]; [|by split; [left|]].
  destruct (IH eq_refl). split; [by right|done].
Qed.

Lemma normal_before e p x : normal (e :: p) -> x <= end_ (old e) -> before x p.
Proof. intros (_ & Hb & _) ?. destruct p; simpl in *; [done|lia]. Qed.

Lemma normal_after e p f :
  normal (e :: p) -> Forall (fun f => start (old f) <= end_ (old f)) p -> f ∈ p ->
  end_ (old e) < start (old f).
Proof.
  revert e. induction p as [|g p IH]; intros e Hn Hw Hf; [by apply elem_of_nil in Hf|].
  destruct Hn as (_ & Hb & Hn). inversion_clear Hw.
  apply elem_of_cons in Hf as [->|Hf]; [done|]. specialize (IH g). naive_solver lia.
Qed.

Lemma ordered_edits o n p A B :
  transforms o n p A B -> Forall (fun e => o <= start (old e) <= end_ (old e)) p.
Proof.
  induction 1 as [|o n g X Y p A B _ IH]; constructor; simpl; [lia|].
  eapply Forall_impl; [exact IH|]. simpl. lia.
Qed.

Lemma find_edit_touching p x e :
  normal p -> Forall (fun f => start (old f) <= end_ (old f)) p -> e ∈ p ->
  start (old e) <= x <= end_ (old e) -> find_edit p x = Some e.
Proof.
  intros Hn Hw He Hx. induction p as [|f p IH]; [by apply elem_of_nil in He|].
  inversion_clear Hw as [|? ? Hf Hw']. pose proof Hn as (_ & _ & Hn'). simpl.
  apply elem_of_cons in He as [->|He].
  - rewrite (proj2 (Z.ltb_ge _ _)) by lia.
    by rewrite find_edit_before by (eapply normal_before; [done|lia]).
  - rewrite (IH Hn' Hw' He).
    assert (end_ (old f) < start (old e)) by by eapply normal_after.
    by rewrite (proj2 (Z.ltb_ge _ _)) by lia.
Qed.

Lemma binary_search_bound p x :
  match binary_search p x with
  | inl ix => (ix < length p)%nat
  | inr ix => (ix <= length p)%nat
  end.
Proof.
  induction p as [|e p IH]; simpl; [lia|]. destruct (_ =? _); [lia|]. destruct (_ <? _); [lia|].
  destruct (binary_search p x); lia.
Qed.

Lemma binary_search_find p x :
  normal p -> Forall (fun e => start (old e) <= end_ (old e)) p ->
  find_edit p x = match binary_search p x with
                  | inl ix => p !! ix
                  | inr O => None
                  | inr (S ix) => p !! ix
                  end.
Proof.
  induction p as [|e p IH]; intros Hn Hw; [done|].
  inversion_clear Hw as [|? ? He Hw']. cbn [find_edit binary_search].
  destruct (Z.eqb_spec (start (old e)) x) as [<-|Hne].
  - rewrite (proj2 (Z.ltb_ge _ _)) by lia.
    by rewrite find_edit_before by (eapply normal_before; [done|lia]).
  - destruct (Z.ltb_spec x (start (old e))); [done|].
    rewrite IH by (done || by destruct Hn as (_ & _ & Hn)).
    pose proof (binary_search_bound p x) as Hx.
    destruct (binary_search p x) as [ix|[|ix]]; [|done|].
    + simpl. destruct (p !! ix) eqn:E; [done|]. apply lookup_ge_None in E. lia.
    + simpl. destruct (p !! ix) eqn:E; [done|]. apply lookup_ge_None in E. lia.
Qed.

(** [old_to_new] on the edit found. *)
Lemma old_to_new_find p x :
  normal p -> Forall (fun e => start (old e) <= end_ (old e)) p ->
  old_to_new p x = match find_edit p x with
                   | Some e => if end_ (old e) <=? x then end_ (new e) + (x - end_ (old e))
                               else start (new e)
                   | None => x
                   end.
Proof.
  intros Hn Hw. rewrite (binary_search_find p x Hn Hw). unfold old_to_new.
  by destruct (binary_search p x) as [ix|[|ix]].
Qed.

Lemma edit_for_find p x :
  normal p -> Forall (fun e => start (old e) <= end_ (old e)) p ->
  edit_for_old_position p x
  = match find_edit p x with
    | Some e => if end_ (old e) <? x
                then mkEdit (mkRange x x)
                       (mkRange (end_ (new e) + (x - end_ (old e)))
                                (end_ (new e) + (x - end_ (old e))))
                else e
    | None => mkEdit (mkRange x x) (mkRange x x)
    end.
Proof.
  intros Hn Hw. rewrite (binary_search_find p x Hn Hw). unfold edit_for_old_position.
  by destruct (binary_search p x) as [ix|[|ix]].
Qed.

Lemma map_position_before o n p x : before x p -> map_position o n p x = n + (x - o).
Proof. destruct p as [|e p]; [done|]. simpl. intros H. by rewrite (proj2 (Z.ltb_lt _ _)). Qed.

Lemma map_position_find o n p x :
  normal p ->
  map_position o n p x
  = match find_edit p x with
    | Some e => if end_ (old e) <=? x then end_ (new e) + (x - end_ (old e)) else start (new e)
    | None => n + (x - o)
    end.
Proof.
  revert o n. induction p as [|e p IH]; intros o n Hn; [done|].
  cbn [map_position find_edit]. destruct (Z.ltb_spec x (start (old e))); [done|].
  pose proof Hn as (_ & _ & Hn'). destruct (Z.ltb_spec x (end_ (old e))).
  - rewrite find_edit_before by (eapply normal_before; [done|lia]).
    by rewrite (proj2 (Z.leb_gt _ _)).
  - rewrite (IH _ _ Hn'). destruct (find_edit p x); [done|]. by rewrite (proj2 (Z.leb_le _ _)).
Qed.

Lemma ordered_edits_old o n p A B :
  transforms o n p A B -> Forall (fun e => start (old e) <= end_ (old e)) p.
Proof. intros H%ordered_edits. eapply Forall_impl; [exact H|]. simpl. lia. Qed.

Lemma old_to_new_map p x A B :
  transforms 0 0 p A B -> normal p -> old_to_new p x = map_position 0 0 p x.
Proof.
  intros H%ordered_edits_old Hn. rewrite old_to_new_find, map_position_find by done.
  destruct (find_edit p x); [done|lia].
Qed.

Lemma map_position_bounds o n p A B x :
  transforms o n p A B -> o <= x <= o + zlen A -> n <= map_position o n p x <= n + zlen B.
Proof.
  intros H. revert x. induction H as [|o n g X Y p A B _ IH]; intros x Hx; simpl; [lia|].
  rewrite !zlen_app in *. destruct (Z.ltb_spec x (o + zlen g)); [lia|].
  destruct (Z.ltb_spec x (o + zlen g + zlen X)); [lia|].
  specialize (IH x). lia.
Qed.

Lemma map_position_ge o n p A B x :
  transforms o n p A B -> o <= x -> n <= map_position o n p x.
Proof.
  intros H. revert x. induction H as [|o n g X Y p A B _ IH]; intros x Hx; simpl; [lia|].
  destruct (Z.ltb_spec x (o + zlen g)); [lia|].
  destruct (Z.ltb_spec x (o + zlen g + zlen X)); [lia|]. specialize (IH x). lia.
Qed.

Lemma map_position_mono o n p A B x y :
  transforms o n p A B -> o <= x -> x <= y <= o + zlen A ->
  map_position o n p x <= map_position o n p y.
Proof.
  intros H. revert x y. induction H as [|o n g X Y p A B Hp IH]; intros x y Ho Hxy; simpl; [lia|].
  rewrite !zlen_app in *.
  assert (Hb : forall z, o + zlen g + zlen X <= z <= o + zlen g + zlen X + zlen A ->
    n + zlen g + zlen Y <= map_position (o + zlen g + zlen X) (n + zlen g + zlen Y) p z)
    by (intros z Hz; apply (map_position_bounds _ _ _ _ _ z Hp); lia).
  destruct (Z.ltb_spec x (o + zlen g)), (Z.ltb_spec y (o + zlen g)); try lia;
    destruct (Z.ltb_spec x (o + zlen g + zlen X)), (Z.ltb_spec y (o + zlen g + zlen X)); try lia.
  - specialize (Hb y). lia.
  - specialize (Hb y). lia.
  - apply IH; lia.
Qed.

Lemma map_position_inside o n p A B x e :
  transforms o n p A B -> normal p -> e ∈ p -> start (old e) <= x < end_ (old e) ->
  map_position o n p x = start (new e).
Proof.
  intros H Hn He Hx. rewrite map_position_find by done.
  rewrite (find_edit_touching p x e); [|done|by eapply ordered_edits_old|done|lia].
  by rewrite (proj2 (Z.leb_gt _ _)) by lia.
Qed.

(** A position no edit contains keeps its character. *)
Lemma map_position_kept o n p A B x :
  transforms o n p A B -> o <= x ->
  (forall e, e ∈ p -> ~ (start (old e) <= x < end_ (old e))) ->
  B !! Z.to_nat (map_position o n p x - n) = A !! Z.to_nat (x - o).
Proof.
  intros H. induction H as [|o n g X Y p A B Hp IH]; intros Hx Hk; simpl.
  - f_equal. lia.
  - pose proof (Hk _ (list_elem_of_here _ _)) as He. simpl in He.
    destruct (Z.ltb_spec x (o + zlen g)).
    + replace (Z.to_nat (n + (x - o) - n)) with (Z.to_nat (x - o)) by lia.
      rewrite !lookup_app_l by lia. done.
    + rewrite (proj2 (Z.ltb_ge _ _)) by lia.
      pose proof (map_position_ge _ _ _ _ _ x Hp) as Hm.
      rewrite !(app_assoc g), (lookup_app_r (g ++ Y)), (lookup_app_r (g ++ X))
        by (rewrite length_app; lia).
      rewrite !length_app.
      etrans; [|etrans; [apply IH; [lia|intros e ?; apply Hk; by right]|]]; f_equal; lia.
Qed.

Lemma normal_invert o n p A B : transforms o n p A B -> normal p -> normal (invert p).
Proof.
  intros H. induction H as [|o n g X Y p A B Hp IH]; [done|]. intros (He & Hb & Hn). simpl.
  split; [unfold is_empty in *; simpl in *; by rewrite andb_comm|]. split; [|by apply IH].
  inversion Hp; subst; simpl in *; [done|lia].
Qed.

Lemma map_position_back o n p A B x :
  transforms o n p A B -> o <= x ->
  (forall e, e ∈ p -> ~ (start (old e) <= x < end_ (old e))) ->
  map_position n o (invert p) (map_position o n p x) = x.
Proof.
  intros H. induction H as [|o n g X Y p A B Hp IH]; intros Hx Hk; simpl; [lia|].
  pose proof (Hk _ (list_elem_of_here _ _)) as He. simpl in He.
  destruct (Z.ltb_spec x (o + zlen g)); [rewrite (proj2 (Z.ltb_lt _ _)) by lia; lia|].
  rewrite (proj2 (Z.ltb_ge x _)) by lia.
  pose proof (map_position_ge _ _ _ _ _ x Hp) as Hm.
  rewrite !(proj2 (Z.ltb_ge _ _)) by lia.
  apply IH; [lia|]. intros e ?. apply Hk. by right.
Qed.
End Texts.

(** ** Properties *)

(** C12. Composing two patches: when the first describes how one text became a
    second and the other how that became a third, [compose] ends without a panic
    and its result describes how the first text became the third, so applying it
    has the effect of applying the two in turn; the result has no empty edit and
    keeps unchanged text between any two edits. *)
Theorem compose_spec {C} (A B T : list C) p q :
  transforms 0 0 p A B -> transforms 0 0 q B T ->
  exists r, compose p q = Ret (Some r) /\ transforms 0 0 r A T /\ normal r
    /\ apply_patch A r T = apply_patch (apply_patch A p B) q T
    /\ apply_patch A r T = T.
Proof.
  intros Hp Hq. destruct (compose_ok A B T p q Hp Hq) as (r & E & Hr & Hn).
  exists r. pose proof (apply_transforms _ _ _ _ _ [] [] Hp) as Ep.
  pose proof (apply_transforms _ _ _ _ _ [] [] Hq) as Eq.
  pose proof (apply_transforms _ _ _ _ _ [] [] Hr) as Er. simpl in Ep, Eq, Er.
  rewrite Ep, Eq, Er by done. by split_and!.
Qed.

(** Two edits that overlap: of the text 1..8 the part 2, 3 is replaced by three
    elements, of which the last two, with 4 and 5, are then replaced again. *)
Definition sample_old : Patch := [mkEdit (mkRange 1 3) (mkRange 1 4)].
Definition sample_new : Patch := [mkEdit (mkRange 2 6) (mkRange 2 4)].

Lemma sample_old_transforms :
  transforms 0 0 sample_old [1; 2; 3; 4; 5; 6; 7; 8] [1; 101; 102; 103; 4; 5; 6; 7; 8].
Proof.
  apply (transforms_cons 0 0 [1] [2; 3] [101; 102; 103] [] [4; 5; 6; 7; 8] [4; 5; 6; 7; 8]).
  constructor.
Qed.

Lemma sample_new_transforms :
  transforms 0 0 sample_new [1; 101; 102; 103; 4; 5; 6; 7; 8] [1; 101; 201; 202; 6; 7; 8].
Proof.
  apply (transforms_cons 0 0 [1; 101] [102; 103; 4; 5] [201; 202] [] [6; 7; 8] [6; 7; 8]).
  constructor.
Qed.

Lemma compose_spec_witness :
  exists r, compose sample_old sample_new = Ret (Some r)
    /\ transforms 0 0 r [1; 2; 3; 4; 5; 6; 7; 8] [1; 101; 201; 202; 6; 7; 8].
Proof.
  destruct (compose_spec _ _ _ _ _ sample_old_transforms sample_new_transforms)
    as (r & E & H & _).
  by exists r.
Defined.

(** [test_one_disjoint_edit], an adjacent edit, and the sample. *)
Example compose_tests :
  compose [mkEdit (mkRange 1 3) (mkRange 1 4)] [mkEdit (mkRange 0 0) (mkRange 0 4)]
  = Ret (Some [mkEdit (mkRange 0 0) (mkRange 0 4); mkEdit (mkRange 1 3) (mkRange 5 8)])
  /\ compose [mkEdit (mkRange 1 3) (mkRange 1 4)] [mkEdit (mkRange 3 5) (mkRange 3 6)]
     = Ret (Some [mkEdit (mkRange 1 4) (mkRange 1 6)])
  /\ compose sample_old sample_new = Ret (Some [mkEdit (mkRange 1 5) (mkRange 1 4)]).
Proof. vm_compute. auto. Qed.

(** Translating an offset through a patch: the result stays within the new
    text; offsets in one order never come out in the other; an offset inside an
    edit's old range goes to the start of its new range; and one inside no edit
    goes to where its character now is (the end of the text to its end). *)
Theorem old_to_new_spec {C} (A B : list C) p x :
  transforms 0 0 p A B -> normal p -> 0 <= x <= zlen A ->
  0 <= old_to_new p x <= zlen B
  /\ (forall y, x <= y <= zlen A -> old_to_new p x <= old_to_new p y)
  /\ (forall e, e ∈ p -> start (old e) <= x < end_ (old e) -> old_to_new p x = start (new e))
  /\ ((forall e, e ∈ p -> ~ (start (old e) <= x < end_ (old e))) ->
        B !! Z.to_nat (old_to_new p x) = A !! Z.to_nat x).
Proof.
  intros H Hn Hx. rewrite (old_to_new_map p x A B H Hn). split_and!.
  - apply (map_position_bounds _ _ _ _ _ x H). lia.
  - apply (map_position_bounds _ _ _ _ _ x H). lia.
  - intros y Hy. rewrite (old_to_new_map p y A B H Hn).
    apply (map_position_mono _ _ _ _ _ x y H); lia.
  - intros e He Hin. by apply (map_position_inside _ _ _ _ _ x e H).
  - intros Hk. pose proof (map_position_kept _ _ _ _ _ x H ltac:(lia) Hk) as E.
    by rewrite !Z.sub_0_r in E.
Qed.

Lemma old_to_new_spec_witness :
  old_to_new sample_old 2 = 1 /\ old_to_new sample_old 5 = 6
  /\ 0 <= old_to_new sample_old 5 <= 9.
Proof.
  destruct (old_to_new_spec _ _ _ 5 sample_old_transforms) as (Hb & _); [by split_and!|simpl; lia|].
  split; [reflexivity|]. split; [reflexivity|]. exact Hb.
Defined.

(** [edit_for_old_position] finds the one edit whose old range touches the
    offset, its end included; when none does, it returns the empty edit at the
    offset whose new position is where the offset translates to. *)
Theorem edit_for_old_position_spec {C} (A B : list C) p x :
  transforms 0 0 p A B -> normal p -> 0 <= x <= zlen A ->
  (forall e, e ∈ p -> start (old e) <= x <= end_ (old e) -> edit_for_old_position p x = e)
  /\ ((forall e, e ∈ p -> ~ (start (old e) <= x <= end_ (old e))) ->
        edit_for_old_position p x
        = mkEdit (mkRange x x) (mkRange (old_to_new p x) (old_to_new p x))).
Proof.
  intros H Hn Hx. pose proof (ordered_edits_old _ _ _ _ _ H) as Hw.
  rewrite edit_for_find, old_to_new_find by done. split.
  - intros e He Hin. rewrite (find_edit_touching p x e) by done.
    by rewrite (proj2 (Z.ltb_ge _ _)) by lia.
  - intros Hk. destruct (find_edit p x) as [e|] eqn:E; [|done].
    apply find_edit_Some in E as [He ?]. specialize (Hk e He).
    rewrite (proj2 (Z.ltb_lt _ _)), (proj2 (Z.leb_le _ _)) by lia. done.
Qed.

Lemma edit_for_old_position_spec_witness :
  edit_for_old_position sample_old 3 = mkEdit (mkRange 1 3) (mkRange 1 4).
Proof.
  apply (edit_for_old_position_spec _ _ _ 3 sample_old_transforms);
    [by split_and!|simpl; lia|left|simpl; lia].
Defined.

(** Translating an offset through a patch: the result stays within the new
    text; offsets in one order never come out in the other; an offset inside an
    edit's old range goes to the start of its new range; and one inside no edit
    goes to where its character now is (the end of the text to its end).
    [edit_for_old_position] finds the one edit whose old range touches the offset,
    its end included; when none does, it returns the empty edit at the offset whose
    new position is where the offset translates to. *)
Theorem translate_spec {C} (A B : list C) p x :
  transforms 0 0 p A B -> normal p -> 0 <= x <= zlen A ->
  (0 <= old_to_new p x <= zlen B
   /\ (forall y, x <= y <= zlen A -> old_to_new p x <= old_to_new p y)
   /\ (forall e, e ∈ p -> start (old e) <= x < end_ (old e) -> old_to_new p x = start (new e))
   /\ ((forall e, e ∈ p -> ~ (start (old e) <= x < end_ (old e))) ->
         B !! Z.to_nat (old_to_new p x) = A !! Z.to_nat x))
  /\ (forall e, e ∈ p -> start (old e) <= x <= end_ (old e) -> edit_for_old_position p x = e)
  /\ ((forall e, e ∈ p -> ~ (start (old e) <= x <= end_ (old e))) ->
        edit_for_old_position p x
        = mkEdit (mkRange x x) (mkRange (old_to_new p x) (old_to_new p x))).
Proof.
  intros H Hn Hx. split; [by apply (old_to_new_spec A B)|by apply (edit_for_old_position_spec A B)].
Qed.

Lemma translate_spec_witness :
  old_to_new sample_old 5 = 6 /\ 0 <= old_to_new sample_old 5 <= 9
  /\ edit_for_old_position sample_old 3 = mkEdit (mkRange 1 3) (mkRange 1 4).
Proof.
  destruct (translate_spec _ _ _ 5 sample_old_transforms) as ((Hb & _) & _); [by split_and!|simpl; lia|].
  destruct (translate_spec _ _ _ 3 sample_old_transforms) as (_ & He & _); [by split_and!|simpl; lia|].
  split; [reflexivity|]. split; [exact Hb|]. apply He; [left|simpl; lia].
Defined.

(** Inverting a patch gives the patch of the way back: it describes how the
    new text became the old one, inverting twice changes nothing, and an offset
    inside no edit is translated forth and back to itself. *)
Theorem invert_roundtrip {C} (A B : list C) p :
  transforms 0 0 p A B -> normal p ->
  transforms 0 0 (invert p) B A /\ normal (invert p) /\ invert (invert p) = p
  /\ apply_patch B (invert p) A = A
  /\ forall x, 0 <= x <= zlen A ->
       (forall e, e ∈ p -> ~ (start (old e) <= x < end_ (old e))) ->
       old_to_new (invert p) (old_to_new p x) = x.
Proof.
  intros H Hn. pose proof (transforms_invert _ _ _ _ _ H) as Hi.
  pose proof (normal_invert _ _ _ _ _ H Hn) as Hni. split_and!; try done.
  - apply invert_involutive.
  - by apply (apply_transforms _ _ _ _ _ [] [] Hi).
  - intros x Hx Hk. rewrite (old_to_new_map _ _ _ _ Hi Hni), (old_to_new_map _ _ _ _ H Hn).
    by apply (map_position_back _ _ _ _ _ x H); [lia|].
Qed.

Lemma invert_roundtrip_witness :
  transforms 0 0 (invert sample_old) [1; 101; 102; 103; 4; 5; 6; 7; 8] [1; 2; 3; 4; 5; 6; 7; 8]
  /\ old_to_new (invert sample_old) (old_to_new sample_old 5) = 5.
Proof.
  destruct (invert_roundtrip _ _ _ sample_old_transforms) as (H & _ & _ & _ & Hx); [by split_and!|].
  split; [exact H|]. apply Hx; [simpl; lia|].
  intros e He%list_elem_of_singleton. subst e. simpl. lia.
Defined.
