(* ===== verification/SumTree.v ===== *)
(** * Sum trees ([crates/sum_tree/src/sum_tree.rs])

    A [SumTree] is a B+ tree whose leaves hold items and whose nodes cache the
    sum of the summaries below them.  Nodes are reference counted and copied on
    write in the source, so here they are values.  The context argument [cx] is
    the same throughout an operation and is part of the instances.  A vector of
    capacity [2 * TREE_BASE] is a list, and filling it past that is a panic. *)

From S2P Require Import Prelude.
Local Open Scope nat_scope.

Definition TREE_BASE : nat := 6.

(** ** What a tree is built over *)

(** [Summary]: how summaries add up. *)
Class Summary (S : Type) := { zero : S; add_summary : S -> S -> S }.

(** What the trait's implementations satisfy: adding is associative and starts
    from [zero].  ([MapKey] replaces what it is added to, so [zero] need not be
    neutral on the right.) *)
Class SummaryLaws (S : Type) `{Summary S} := {
  add_zero_l (s : S) : add_summary zero s = s;
  add_assoc (a b c : S) : add_summary (add_summary a b) c = add_summary a (add_summary b c);
}.

(** [Item::summary]. *)
Class Item (T S : Type) := summary : T -> S.

(** [Dimension]: a measure of summaries. *)
Class Dimension (D S : Type) := { dim_zero : D; dim_add : D -> S -> D }.

(** Measuring a sum is measuring its parts in order; and mostly from zero. *)
Class DimensionSum (D S : Type) `{Dimension D S, Summary S} :=
  dim_add_sum (d : D) (a b : S) : dim_add d (add_summary a b) = dim_add (dim_add d a) b.
Class DimensionLaws (D S : Type) `{Dimension D S, Summary S} := {
  dimension_sum :: DimensionSum D S;
  dim_add_zero : dim_add dim_zero zero = dim_zero;
}.

(** [SeekTarget::cmp]. *)
Class SeekTarget (Target D : Type) := target_cmp : Target -> D -> comparison.

(** A summary measures itself, [()] measures nothing, and measures pair up. *)
#[export] Instance summary_dimension (S : Type) `{!Summary S} : Dimension S S := {
  dim_zero := zero; dim_add := add_summary;
}.
#[export] Instance summary_dimension_laws (S : Type) `{!Summary S} `{!SummaryLaws S} :
  DimensionLaws S S.
Proof. split; [intros d a b; simpl; by rewrite add_assoc|apply add_zero_l]. Qed.

#[export] Instance unit_dimension (S : Type) : Dimension unit S := {
  dim_zero := tt; dim_add d _ := d;
}.
#[export] Instance unit_dimension_laws (S : Type) `{!Summary S} : DimensionLaws unit S.
Proof. done. Qed.

Record Dimensions (D1 D2 D3 : Type) := Dims { dim1 : D1; dim2 : D2; dim3 : D3 }.
Arguments Dims {D1 D2 D3}.
Arguments dim1 {D1 D2 D3}.
Arguments dim2 {D1 D2 D3}.
Arguments dim3 {D1 D2 D3}.
#[export] Instance dimensions_dimension (D1 D2 D3 S : Type) `{!Dimension D1 S} `{!Dimension D2 S}
  `{!Dimension D3 S} : Dimension (Dimensions D1 D2 D3) S := {
  dim_zero := Dims dim_zero dim_zero dim_zero;
  dim_add d s := Dims (dim_add (dim1 d) s) (dim_add (dim2 d) s) (dim_add (dim3 d) s);
}.
#[export] Instance dimensions_sum (D1 D2 D3 S : Type) `{HS : !Summary S} `{!Dimension D1 S}
  `{!Dimension D2 S} `{!Dimension D3 S} `{!DimensionSum D1 S} `{!DimensionSum D2 S}
  `{!DimensionSum D3 S} : DimensionSum (Dimensions D1 D2 D3) S.
Proof. intros d a b. simpl. by rewrite !dim_add_sum. Qed.
#[export] Instance dimensions_laws (D1 D2 D3 S : Type) `{HS : !Summary S} `{!Dimension D1 S}
  `{!Dimension D2 S} `{!Dimension D3 S} `{!DimensionLaws D1 S} `{!DimensionLaws D2 S}
  `{!DimensionLaws D3 S} : DimensionLaws (Dimensions D1 D2 D3) S.
Proof. split; [intros d a b|]; simpl; by rewrite ?dim_add_sum, ?dim_add_zero. Qed.

(** A target for the first of the measures. *)
#[export] Instance dimensions_target (Target D1 D2 D3 : Type) `{!SeekTarget Target D1} :
  SeekTarget Target (Dimensions D1 D2 D3) := fun target d => target_cmp target (dim1 d).

Inductive Bias := Left | Right.
Definition bias_invert (b : Bias) : Bias := match b with Left => Right | Right => Left end.

Section Tree.
Context {T S : Type} `{!Summary S} `{!Item T S}.

(** ** Nodes *)
Inductive node :=
| Internal (height : nat) (sm : S) (child_summaries : list S) (child_trees : list node)
| Leaf (sm : S) (items : list T) (item_summaries : list S).

Definition is_leaf (n : node) : bool := match n with Leaf _ _ _ => true | _ => false end.
Definition height (n : node) : nat := match n with Internal h _ _ _ => h | Leaf _ _ _ => 0 end.
Definition node_summary (n : node) : S :=
  match n with Internal _ s _ _ => s | Leaf s _ _ => s end.
Definition child_summaries (n : node) : list S :=
  match n with Internal _ _ cs _ => cs | Leaf _ _ ss => ss end.
Definition child_trees (n : node) : res (list node) :=
  match n with Internal _ _ _ ct => Ret ct | Leaf _ _ _ => Panic end.
Definition items (n : node) : res (list T) :=
  match n with Leaf _ its _ => Ret its | Internal _ _ _ _ => Panic end.
Definition is_underflowing (n : node) : bool :=
  match n with
  | Internal _ _ _ ct => length ct <? TREE_BASE
  | Leaf _ its _ => length its <? TREE_BASE
  end.
Definition is_empty (n : node) : bool :=
  match n with Internal _ _ _ _ => false | Leaf _ its _ => length its =? 0 end.

Definition sum (l : list S) : S := fold_left add_summary l zero.

(** A vector of capacity [2 * TREE_BASE]. *)
Definition array {A} (l : list A) : res (list A) :=
  if length l <=? 2 * TREE_BASE then Ret l else Panic.

(** ** Building *)

Definition new : node := Leaf zero [] [].

(** [iter.by_ref().take(2 * TREE_BASE).collect()] until the iterator is empty;
    each round takes an item, so [fuel] is the number of items. *)
Fixpoint leaves (fuel : nat) (l : list T) : list node :=
  match fuel, l with
  | O, _ | _, [] => []
  | Datatypes.S fuel', x :: l' =>
      let its := take (2 * TREE_BASE) l in
      let ss := map summary its in
      let sm := fold_left add_summary (drop 1 ss) (summary x) in
      Leaf sm its ss :: leaves fuel' (drop (2 * TREE_BASE) l)
  end.

(** One level of parents; [current] is [current_parent_node]. *)
Fixpoint parents (h : nat) (nodes : list node) (current : option node) : res (list node) :=
  match nodes with
  | [] => Ret (option_list current)
  | child :: rest =>
      match default (Internal h zero [] []) current with
      | Leaf _ _ _ => Panic
      | Internal h' sm cs ct =>
          let sm := add_summary sm (node_summary child) in
          cs ← array (cs ++ [node_summary child]);
          ct ← array (ct ++ [child]);
          let parent := Internal h' sm cs ct in
          if length ct =? 2 * TREE_BASE then cons parent <$> parents h rest None
          else parents h rest (Some parent)
      end
  end.

(** The levels above the leaves; every level is shorter than the one below. *)
Fixpoint levels (fuel h : nat) (nodes : list node) : res node :=
  match nodes with
  | [] => Ret new
  | [root] => Ret root
  | _ =>
      match fuel with
      | O => Panic
      | Datatypes.S fuel' =>
          nodes ← parents (Datatypes.S h) nodes None;
          levels fuel' (Datatypes.S h) nodes
      end
  end.

Definition from_iter (l : list T) : res node :=
  let nodes := leaves (length l) l in levels (length nodes) 0 nodes.

(** ** Building in parallel

    [iter.into_par_iter().chunks(n).map(f).collect()] of the parallel iterator
    library is a parameter: it calls [f] on chunks of [n] elements. *)
Section Parallel.
Context (par_chunks_map : forall A B : Type, nat -> (list A -> res B) -> list A -> res (list B)).

Definition par_leaf (its : list T) : res node :=
  its ← array its;
  let ss := map summary its in
  match ss with
  | [] => Panic
  | s :: ss' => Ret (Leaf (fold_left add_summary ss' s) its ss)
  end.

Definition par_parent (height : nat) (child_nodes : list node) : res node :=
  child_trees ← array child_nodes;
  let cs := map node_summary child_trees in
  match cs with
  | [] => Panic
  | s :: cs' => Ret (Internal height (fold_left add_summary cs' s) cs child_trees)
  end.

Fixpoint par_levels (fuel height : nat) (nodes : list node) : res node :=
  match nodes with
  | [] => Ret new
  | [root] => Ret root
  | _ =>
      match fuel with
      | O => Panic
      | Datatypes.S fuel' =>
          let height := Datatypes.S height in
          nodes ← par_chunks_map _ _ (2 * TREE_BASE) (par_parent height) nodes;
          par_levels fuel' height nodes
      end
  end.

Definition from_par_iter (l : list T) : res node :=
  nodes ← par_chunks_map _ _ (2 * TREE_BASE) par_leaf l;
  par_levels (length nodes) 0 nodes.
End Parallel.

(** ** Appending *)

Definition from_child_trees (left right : node) : node :=
  let cs := [node_summary left; node_summary right] in
  Internal (height left + 1) (sum cs) cs [left; right].

(** The two halves of an overfull sequence. *)
Definition midpoint (child_count : nat) : nat := (child_count + child_count mod 2) / 2.

(** [child_trees.last_mut().unwrap()] updated by [f]. *)
Definition on_last (f : node -> res (node * option node)) :=
  fix go (l : list node) : res (list node * option node) :=
    match l with
    | [] => Panic
    | [t] => r ← f t; mret ([r.1], r.2)
    | t :: l' => r ← go l'; mret (t :: r.1, r.2)
    end.

(** The end of the internal case: the children with those to append, split when
    they do not fit. *)
Definition push_children (h : nat) (sm : S) (cs : list S) (ct : list node)
    (summaries_to_append : list S) (trees_to_append : list node)
    : res (node * option node) :=
  let child_count := length ct + length trees_to_append in
  if 2 * TREE_BASE <? child_count then
    let mid := midpoint child_count in
    let all_summaries := cs ++ summaries_to_append in
    let all_trees := ct ++ trees_to_append in
    left_summaries ← array (take mid all_summaries);
    right_summaries ← array (drop mid all_summaries);
    left_trees ← array (take mid all_trees);
    right_trees ← array (drop mid all_trees);
    mret (Internal h (sum left_summaries) left_summaries left_trees,
          Some (Internal h (sum right_summaries) right_summaries right_trees))
  else
    cs ← array (cs ++ summaries_to_append);
    ct ← array (ct ++ trees_to_append);
    mret (Internal h sm cs ct, None).

(** [*l.last_mut().unwrap() = x]. *)
Definition set_last {A} (l : list A) (x : A) : res (list A) :=
  match l with [] => Panic | _ => Ret (take (length l - 1) l ++ [x]) end.

Fixpoint push_tree_recursive (self other : node) {struct self} : res (node * option node) :=
  match self with
  | Internal h sm cs ct =>
      let sm := add_summary sm (node_summary other) in
      if h <? height other then Panic
      else
        let height_delta := h - height other in
        if height_delta =? 0 then
          to_append ← child_trees other;
          push_children h sm cs ct (child_summaries other) to_append
        else if (height_delta =? 1) && negb (is_underflowing other) then
          push_children h sm cs ct [node_summary other] [other]
        else
          r ← on_last (fun t => push_tree_recursive t other) ct;
          let '(ct, tree_to_append) := r in
          match last ct with
          | None => Panic
          | Some t =>
              cs ← set_last cs (node_summary t);
              match tree_to_append with
              | Some split_tree =>
                  push_children h sm cs ct [node_summary split_tree] [split_tree]
              | None => push_children h sm cs ct [] []
              end
          end
  | Leaf sm its ss =>
      other_items ← items other;
      let child_count := length its + length other_items in
      if 2 * TREE_BASE <? child_count then
        let mid := midpoint child_count in
        let all_items := its ++ other_items in
        let all_summaries := ss ++ child_summaries other in
        left_items ← array (take mid all_items);
        right_items ← array (drop mid all_items);
        left_summaries ← array (take mid all_summaries);
        right_summaries ← array (drop mid all_summaries);
        mret (Leaf (sum left_summaries) left_items left_summaries,
              Some (Leaf (sum right_summaries) right_items right_summaries))
      else
        its ← array (its ++ other_items);
        ss ← array (ss ++ child_summaries other);
        mret (Leaf (add_summary sm (node_summary other)) its ss, None)
  end.

Definition merge_into_right (small large : node) : res (node * option node) :=
  match small, large with
  | Internal _ small_sm small_cs small_ct, Internal h sm cs ct =>
      let total_child_count := length ct + length small_ct in
      if total_child_count <=? 2 * TREE_BASE then
        ct ← array (small_ct ++ ct);
        cs ← array (small_cs ++ cs);
        mret (Internal h (add_summary small_sm sm) cs ct, None)
      else
        let mid := (total_child_count + 1) / 2 in
        let all_trees := small_ct ++ ct in
        let all_summaries := small_cs ++ cs in
        left_trees ← array (take mid all_trees);
        ct ← array (drop mid all_trees);
        left_summaries ← array (take mid all_summaries);
        cs ← array (drop mid all_summaries);
        mret (Internal h (sum cs) cs ct,
              Some (Internal h (sum left_summaries) left_summaries left_trees))
  | Leaf small_sm small_is small_ss, Leaf sm its ss =>
      let total_child_count := length small_is + length its in
      if total_child_count <=? 2 * TREE_BASE then
        its ← array (small_is ++ its);
        ss ← array (small_ss ++ ss);
        mret (Leaf (add_summary small_sm sm) its ss, None)
      else
        let mid := (total_child_count + 1) / 2 in
        let all_items := small_is ++ its in
        let all_summaries := small_ss ++ ss in
        left_items ← array (take mid all_items);
        its ← array (drop mid all_items);
        left_summaries ← array (take mid all_summaries);
        ss ← array (drop mid all_summaries);
        mret (Leaf (sum ss) its ss, Some (Leaf (sum left_summaries) left_items left_summaries))
  | _, _ => Panic
  end.

(** [append_large]: the new [large], and the tree to put before it. *)
Fixpoint append_large (small large : node) {struct large} : res (node * option node) :=
  if height small =? height large then
    if negb (is_underflowing small) then Ret (large, Some small)
    else merge_into_right small large
  else
    match large with
    | Leaf _ _ _ => Panic
    | Internal h sm cs ct =>
        let sm := add_summary (node_summary small) sm in
        match ct, cs with
        | first :: ct', _ :: cs' =>
            r ← append_large small first;
            let '(first, result) := r in
            let ct := first :: ct' in
            let cs := node_summary first :: cs' in
            match result with
            | Some tree =>
                if length ct <? 2 * TREE_BASE then
                  cs ← array (node_summary tree :: cs);
                  ct ← array (tree :: ct);
                  mret (Internal h sm cs ct, None)
                else
                  new_child_summaries ← array (node_summary tree :: take TREE_BASE cs);
                  new_child_trees ← array (tree :: take TREE_BASE ct);
                  let cs := drop TREE_BASE cs in
                  mret (Internal h (sum cs) cs (drop TREE_BASE ct),
                        Some (Internal h (sum new_child_summaries) new_child_summaries
                                new_child_trees))
            | None => mret (Internal h sm cs ct, None)
            end
        | _, _ => Panic
        end
    end.

Definition append (self other : node) : res node :=
  if is_empty self then Ret other
  else
    if is_leaf other && is_empty other then Ret self
    else if height self <? height other then
      r ← append_large self other;
      let '(other, tree) := r in
      match tree with
      | Some tree => mret (from_child_trees tree other)
      | None => mret other
      end
    else
      r ← push_tree_recursive self other;
      let '(self, split_tree) := r in
      match split_tree with
      | Some split_tree => mret (from_child_trees self split_tree)
      | None => mret self
      end.

Definition push (self : node) (item : T) : res node :=
  append self (Leaf (summary item) [item] [summary item]).

Definition extend (self : node) (iter : list T) : res node :=
  other ← from_iter iter; append self other.

Definition par_extend
    (par_chunks_map : forall A B : Type, nat -> (list A -> res B) -> list A -> res (list B))
    (self : node) (iter : list T) : res node :=
  other ← from_par_iter par_chunks_map iter; append self other.

Definition extent {D} `{!Dimension D S} (self : node) : D := dim_add dim_zero (node_summary self).

Definition from_summary (summary : S) : node := Leaf summary [] [].

Definition from_item (item : T) : res node := push new item.

(** ** Ends *)

Fixpoint leftmost_leaf (n : node) : res node :=
  match n with
  | Leaf _ _ _ => Ret n
  | Internal _ _ _ ct => match ct with t :: _ => leftmost_leaf t | [] => Panic end
  end.

Definition of_last {A} (f : node -> res A) :=
  fix go (l : list node) : res A :=
    match l with [] => Panic | [t] => f t | _ :: l' => go l' end.

Fixpoint rightmost_leaf (n : node) : res node :=
  match n with
  | Leaf _ _ _ => Ret n
  | Internal _ _ _ ct => of_last rightmost_leaf ct
  end.

Definition first (n : node) : res (option T) := leaf ← leftmost_leaf n; head <$> items leaf.
Definition last_item (n : node) : res (option T) := leaf ← rightmost_leaf n; last <$> items leaf.
Definition last_summary (n : node) : res (option S) :=
  leaf ← rightmost_leaf n; mret (last (child_summaries leaf)).

(** [update_last_recursive]; the summary it returns is the node's own. *)
Fixpoint update_last_recursive (f : T -> T) (n : node) : res (node * option S) :=
  match n with
  | Internal h _ cs ct =>
      r ← (fix go (l : list node) : res (list node * option S) :=
             match l with
             | [] => Panic
             | [t] => r ← update_last_recursive f t; mret ([r.1], r.2)
             | t :: l' => r ← go l'; mret (t :: r.1, r.2)
             end) ct;
      match r.2 with
      | None => Panic
      | Some s =>
          cs ← set_last cs s;
          mret (Internal h (sum cs) cs r.1, Some (sum cs))
      end
  | Leaf sm its ss =>
      match last its, last ss with
      | Some item, Some _ =>
          let item := f item in
          ss ← set_last ss (summary item);
          its ← set_last its item;
          mret (Leaf (sum ss) its ss, Some (sum ss))
      | _, _ => mret (n, None)
      end
  end.

Definition update_last (f : T -> T) (n : node) : res node := fst <$> update_last_recursive f n.

Fixpoint update_first_recursive (f : T -> T) (n : node) : res (node * option S) :=
  match n with
  | Internal h _ cs ct =>
      match ct, cs with
      | t :: ct', _ :: cs' =>
          r ← update_first_recursive f t;
          match r.2 with
          | None => Panic
          | Some s =>
              let cs := s :: cs' in
              mret (Internal h (sum cs) cs (r.1 :: ct'), Some (sum cs))
          end
      | _, _ => Panic
      end
  | Leaf sm its ss =>
      match its, ss with
      | item :: is', _ :: ss' =>
          let item := f item in
          let ss := summary item :: ss' in
          mret (Leaf (sum ss) (item :: is') ss, Some (sum ss))
      | _, _ => mret (n, None)
      end
  end.

Definition update_first (f : T -> T) (n : node) : res node := fst <$> update_first_recursive f n.

(** ** Finding *)
Section Find.
Context {D Target : Type} `{!Dimension D S} `{!SeekTarget Target D}.
Context (target : Target) (bias : Bias).

(** Whether the target lies in what ends at a position. *)
Definition target_in (child_end : D) : bool :=
  match target_cmp target child_end, bias with
  | Lt, _ | Eq, Left => true
  | _, _ => false
  end.

Definition is_equal (child_end : D) : bool :=
  match target_cmp target child_end with Eq => true | _ => false end.

(** [find_iterate] of one tree: the position reached and what was found. *)
Definition find_child (find : D -> node -> D * option (T * D)) :=
  fix go (position : D) (ct : list node) (cs : list S) : D * option (T * D) :=
    match ct, cs with
    | child_tree :: ct', child_summary :: cs' =>
        let child_end := dim_add position child_summary in
        if target_in child_end then find position child_tree else go child_end ct' cs'
    | _, _ => (position, None)
    end.

Definition find_item (exact : bool) :=
  fix go (position : D) (its : list T) (ss : list S) : D * option (T * D) :=
    match its, ss with
    | item :: its', item_summary :: ss' =>
        let child_end := dim_add position item_summary in
        let entry_found := if exact then is_equal child_end else target_in child_end in
        if entry_found then (position, Some (item, child_end)) else go child_end its' ss'
    | _, _ => (position, None)
    end.

Fixpoint find_iterate (exact : bool) (position : D) (this : node) : D * option (T * D) :=
  match this with
  | Internal _ _ cs ct => find_child (find_iterate exact) position ct cs
  | Leaf _ its ss => find_item exact position its ss
  end.

Definition find_with (exact : bool) (self : node) : D * D * option T :=
  let tree_end := dim_add dim_zero (node_summary self) in
  if negb (target_in tree_end) then (tree_end, tree_end, None)
  else
    match find_iterate exact dim_zero self with
    | (pos, Some (item, end_)) => (pos, end_, Some item)
    | (pos, None) => (pos, pos, None)
    end.

Definition find : node -> D * D * option T := find_with false.
Definition find_exact : node -> D * D * option T := find_with true.

(** [find_with_prev_iterate]; the element before what is found is kept along. *)
Definition find_prev_child (find : option T -> D -> node -> res (D * option (option T * T * D))) :=
  fix go (prev : option T) (position : D) (ct : list node) (cs : list S)
      {struct ct} : res (D * option (option T * T * D)) :=
    match ct, cs with
    | child_tree :: ct', child_summary :: cs' =>
        let child_end := dim_add position child_summary in
        if target_in child_end then find prev position child_tree
        else
          prev ← last_item child_tree;
          go prev child_end ct' cs'
    | _, _ => Ret (position, None)
    end.

Definition find_prev_item :=
  fix go (prev : option T) (position : D) (its : list T) (ss : list S)
      {struct its} : D * option (option T * T * D) :=
    match its, ss with
    | item :: its', item_summary :: ss' =>
        let child_end := dim_add position item_summary in
        if target_in child_end then (position, Some (prev, item, child_end))
        else go (Some item) child_end its' ss'
    | _, _ => (position, None)
    end.

Fixpoint find_with_prev_iterate (prev : option T) (position : D) (this : node)
    : res (D * option (option T * T * D)) :=
  match this with
  | Internal _ _ cs ct => find_prev_child find_with_prev_iterate prev position ct cs
  | Leaf _ its ss => Ret (find_prev_item prev position its ss)
  end.

Definition find_with_prev (self : node) : res (D * D * option (option T * T)) :=
  let tree_end := dim_add dim_zero (node_summary self) in
  if negb (target_in tree_end) then Ret (tree_end, tree_end, None)
  else
    r ← find_with_prev_iterate None dim_zero self;
    match r with
    | (pos, Some (prev, item, end_)) => mret (pos, end_, Some (prev, item))
    | (pos, None) => mret (pos, pos, None)
    end.
End Find.
End Tree.

Arguments node : clear implicits.
