(* ===== verification/SumTreeInvariant.v ===== *)
(** * Well-formed sum trees

    What every tree the operations build satisfies, and that building and
    appending keep it and concatenate the contents. *)

From S2P Require Import Prelude SumTree.
Local Open Scope nat_scope.

Section Invariant.
Context {T S : Type} `{HS : !Summary S} `{!SummaryLaws S} `{HI : !Item T S}.
Notation node := (node T S).
Implicit Types t small large other : node.

(** The items of a tree, in order. *)
Fixpoint to_list (n : node) : list T :=
  match n with Leaf _ its _ => its | Internal _ _ _ ct => flat_map to_list ct end.

Definition total (l : list T) : S := sum (map summary l).

(** Leaves are at one depth, no node is overfull, and every cached summary is the
    sum of what is below it; only a tree that is a single leaf may be empty. *)
Inductive wf : nat -> node -> Prop :=
| wf_leaf its :
    length its <= 2 * TREE_BASE -> wf 0 (Leaf (total its) its (map summary its))
| wf_internal h ct :
    ct <> [] -> length ct <= 2 * TREE_BASE ->
    Forall (fun t => wf h t /\ to_list t <> []) ct ->
    wf (Datatypes.S h)
      (Internal (Datatypes.S h) (sum (map node_summary ct)) (map node_summary ct) ct).

Definition good (h : nat) t : Prop := wf h t /\ to_list t <> [].

(** ** Sums *)

Lemma fold_add (a : S) l : fold_left add_summary l a = match l with
                                                       | [] => a
                                                       | _ => add_summary a (sum l)
                                                       end.
Proof.
  destruct l as [|x l]; [done|]. unfold sum. simpl. rewrite add_zero_l.
  revert a x. induction l as [|y l IH]; intros a x; simpl; [done|].
  by rewrite add_assoc, IH.
Qed.

Lemma sum_app l1 l2 : l2 <> [] -> sum (l1 ++ l2) = add_summary (sum l1) (sum l2).
Proof. intros. unfold sum at 1. rewrite fold_left_app, fold_add. by destruct l2. Qed.

Lemma sum_one (s : S) : sum [s] = s.
Proof. unfold sum. simpl. apply add_zero_l. Qed.

Lemma total_app l1 l2 : l2 <> [] -> total (l1 ++ l2) = add_summary (total l1) (total l2).
Proof.
  intros. unfold total. rewrite map_app. apply sum_app. by destruct l2.
Qed.

Lemma sum_children h ct :
  Forall (good h) ct -> (forall t, good h t -> node_summary t = total (to_list t)) ->
  sum (map node_summary ct) = total (flat_map to_list ct).
Proof.
  intros Hct Ht. induction ct as [|t ct IH] using rev_ind; [done|].
  apply Forall_app in Hct as [Hct [Hg _]%Forall_cons].
  rewrite map_app, sum_app, flat_map_app by done. simpl. rewrite app_nil_r, sum_one.
  rewrite total_app by apply Hg. by rewrite IH, Ht.
Qed.

Lemma node_summary_total h t : wf h t -> node_summary t = total (to_list t).
Proof.
  revert t. induction h as [|h IH]; intros t H; inversion H as [|? ct _ _ Hct]; subst; [done|].
  simpl. eapply sum_children; [exact Hct|]. intros t [Ht _]. by apply IH.
Qed.

Lemma good_children h ct :
  Forall (good h) ct -> sum (map node_summary ct) = total (flat_map to_list ct).
Proof.
  intros. eapply sum_children; [done|]. intros t [Ht _]. by eapply node_summary_total.
Qed.

(** ** Shapes *)

Lemma wf_height h t : wf h t -> height t = h.
Proof. by inversion 1. Qed.

Lemma good_internal h ct :
  ct <> [] -> length ct <= 2 * TREE_BASE -> Forall (good h) ct ->
  good (Datatypes.S h)
    (Internal (Datatypes.S h) (sum (map node_summary ct)) (map node_summary ct) ct).
Proof.
  intros Hne Hl Hct. split; [by constructor|]. destruct ct as [|t ct]; [done|]. simpl.
  apply Forall_cons in Hct as [[_ Ht] _]. by intros [? _]%app_nil.
Qed.

Lemma good_leaf its : its <> [] -> length its <= 2 * TREE_BASE ->
  good 0 (Leaf (total its) its (map summary its)).
Proof. intros. split; [by constructor|done]. Qed.

Lemma is_empty_spec h t : wf h t -> is_empty t = true <-> to_list t = [].
Proof.
  intros H. inversion H as [its|? ct Hne _ Hct]; subst; simpl.
  - rewrite Nat.eqb_eq. split; [apply nil_length_inv|by intros ->].
  - split; [done|]. destruct ct as [|t ct]; [done|]. apply Forall_cons in Hct as [[_ Ht] _].
    simpl. by intros [? _]%app_nil.
Qed.

Lemma array_Ret {A} (l : list A) : length l <= 2 * TREE_BASE -> array l = Ret l.
Proof. intros. unfold array. by rewrite (proj2 (Nat.leb_le _ _)). Qed.

Lemma midpoint_bounds n :
  2 * TREE_BASE < n <= 4 * TREE_BASE ->
  0 < midpoint n < n /\ midpoint n <= 2 * TREE_BASE /\ n - midpoint n <= 2 * TREE_BASE.
Proof.
  unfold midpoint, TREE_BASE. intros.
  pose proof (Nat.mod_upper_bound n 2 ltac:(lia)).
  pose proof (Nat.div_mod_eq n 2). pose proof (Nat.div_mod_eq (n + n mod 2) 2).
  pose proof (Nat.mod_upper_bound (n + n mod 2) 2 ltac:(lia)). lia.
Qed.

Lemma half_bounds n :
  2 * TREE_BASE < n <= 4 * TREE_BASE ->
  0 < (n + 1) / 2 < n /\ (n + 1) / 2 <= 2 * TREE_BASE /\ n - (n + 1) / 2 <= 2 * TREE_BASE.
Proof.
  unfold TREE_BASE. intros. pose proof (Nat.div_mod_eq (n + 1) 2).
  pose proof (Nat.mod_upper_bound (n + 1) 2 ltac:(lia)). lia.
Qed.

(** What [push_tree_recursive], [append_large] and [merge_into_right] give back:
    one tree or two of the same height, with the given contents. *)
Definition result_left (h : nat) (l : list T) (r : node * option node) : Prop :=
  match r with
  | (t, None) => good h t /\ to_list t = l
  | (t, Some t') => good h t /\ good h t' /\ to_list t ++ to_list t' = l
  end.
Definition result_right (h : nat) (l : list T) (r : node * option node) : Prop :=
  match r with
  | (t, None) => good h t /\ to_list t = l
  | (t, Some t') => good h t /\ good h t' /\ to_list t' ++ to_list t = l
  end.

Lemma take_ne {A} n (l : list A) : 0 < n -> l <> [] -> take n l <> [].
Proof. destruct n, l; simpl; intros; try done; lia. Qed.
Lemma drop_ne {A} n (l : list A) : n < length l -> drop n l <> [].
Proof. intros H E. apply (f_equal length) in E. rewrite length_drop in E. simpl in E. lia. Qed.

(** Two halves of children, and of items. *)
Lemma split_children h ct n :
  Forall (good h) ct -> 0 < n < length ct -> n <= 2 * TREE_BASE ->
  length ct - n <= 2 * TREE_BASE ->
  let left := take n ct in
  let right := drop n ct in
  array left = Ret left /\ array right = Ret right
  /\ array (take n (map node_summary ct)) = Ret (map node_summary left)
  /\ array (drop n (map node_summary ct)) = Ret (map node_summary right)
  /\ good (Datatypes.S h)
       (Internal (Datatypes.S h) (sum (map node_summary left)) (map node_summary left) left)
  /\ good (Datatypes.S h)
       (Internal (Datatypes.S h) (sum (map node_summary right)) (map node_summary right) right)
  /\ flat_map to_list left ++ flat_map to_list right = flat_map to_list ct.
Proof.
  intros Hct Hn H1 H2 left right.
  assert (Hne : ct <> []) by (intros ->; simpl in Hn; lia).
  assert (Hl : length left <= 2 * TREE_BASE) by (unfold left; rewrite length_take; lia).
  assert (Hr : length right <= 2 * TREE_BASE) by (unfold right; rewrite length_drop; lia).
  rewrite !firstn_map, !skipn_map. fold left right.
  split_and!; try (apply array_Ret; by rewrite ?length_map).
  - apply good_internal; [apply take_ne; [lia|done]|done|by apply Forall_take].
  - apply good_internal; [apply drop_ne; lia|done|by apply Forall_drop].
  - unfold left, right. by rewrite <-flat_map_app, take_drop.
Qed.

Lemma split_items its n :
  0 < n < length its -> n <= 2 * TREE_BASE -> length its - n <= 2 * TREE_BASE ->
  let left := take n its in
  let right := drop n its in
  array left = Ret left /\ array right = Ret right
  /\ array (take n (map summary its)) = Ret (map summary left)
  /\ array (drop n (map summary its)) = Ret (map summary right)
  /\ good 0 (Leaf (total left) left (map summary left))
  /\ good 0 (Leaf (total right) right (map summary right))
  /\ left ++ right = its.
Proof.
  intros Hn H1 H2 left right.
  assert (Hne : its <> []) by (intros ->; simpl in Hn; lia).
  assert (Hl : length left <= 2 * TREE_BASE) by (unfold left; rewrite length_take; lia).
  assert (Hr : length right <= 2 * TREE_BASE) by (unfold right; rewrite length_drop; lia).
  rewrite !firstn_map, !skipn_map. fold left right.
  split_and!; try (apply array_Ret; by rewrite ?length_map).
  - apply good_leaf; [apply take_ne; [lia|done]|done].
  - apply good_leaf; [apply drop_ne; lia|done].
  - apply take_drop.
Qed.

(** ** Appending *)

Lemma push_children_ok h sm ct app :
  ct ++ app <> [] -> Forall (good h) (ct ++ app) ->
  length ct <= 2 * TREE_BASE -> length app <= 2 * TREE_BASE ->
  sm = total (flat_map to_list (ct ++ app)) ->
  exists r, push_children (Datatypes.S h) sm (map node_summary ct) ct (map node_summary app) app
            = Ret r
    /\ result_left (Datatypes.S h) (flat_map to_list (ct ++ app)) r.
Proof.
  intros Hne Hg H1 H2 ->. unfold push_children. rewrite <-map_app.
  destruct (Nat.ltb_spec (2 * TREE_BASE) (length ct + length app)) as [Hlt|Hle].
  - destruct (midpoint_bounds (length ct + length app)) as (Hm & Hm1 & Hm2); [lia|].
    rewrite <-length_app in Hm, Hm2.
    destruct (split_children h (ct ++ app) (midpoint (length ct + length app)))
      as (E1 & E2 & E3 & E4 & G1 & G2 & El); [by rewrite ?length_app in *..|].
    rewrite E3, E4, E1, E2. eexists. split; [reflexivity|]. simpl. by split_and!.
  - rewrite !array_Ret by (rewrite ?length_map, length_app; lia).
    eexists. split; [reflexivity|]. simpl.
    rewrite <-(good_children h) by done. split; [|done].
    apply good_internal; [done|rewrite length_app; lia|done].
Qed.

Lemma wf_S_inv h t :
  wf (Datatypes.S h) t ->
  exists ct, t = Internal (Datatypes.S h) (sum (map node_summary ct)) (map node_summary ct) ct
    /\ ct <> [] /\ length ct <= 2 * TREE_BASE /\ Forall (good h) ct.
Proof. inversion 1; subst. by exists ct. Qed.

Lemma wf_0_inv t :
  wf 0 t -> exists its, t = Leaf (total its) its (map summary its) /\ length its <= 2 * TREE_BASE.
Proof. inversion 1; subst. by exists its. Qed.

Lemma last_child_split (ct : list node) :
  ct <> [] -> exists pre t, ct = pre ++ [t].
Proof. intros Hne. destruct ct using rev_ind; [done|]. by exists ct, x. Qed.

Lemma on_last_snoc f pre t r :
  f t = Ret r -> on_last f (pre ++ [t]) = Ret (pre ++ [r.1], r.2).
Proof.
  intros Hf. induction pre as [|x pre IH]; simpl; [by rewrite Hf|].
  destruct (pre ++ [t]) eqn:E; [by destruct pre|]. by rewrite IH.
Qed.

Lemma set_last_snoc {A} (l : list A) x y : set_last (l ++ [x]) y = Ret (l ++ [y]).
Proof.
  unfold set_last. destruct (l ++ [x]) eqn:E; [by destruct l|]. rewrite <-E.
  by rewrite length_app, Nat.add_sub, take_app_length.
Qed.

Lemma push_leaf_ok t other :
  good 0 t -> good 0 other ->
  exists r, push_tree_recursive t other = Ret r
    /\ result_left 0 (to_list t ++ to_list other) r.
Proof.
  intros [(its & -> & Hl)%wf_0_inv Hne] [(its' & -> & Hl')%wf_0_inv Hne'].
  cbn [to_list push_tree_recursive items child_summaries node_summary mbind res_bind] in *.
  destruct (Nat.ltb_spec (2 * TREE_BASE) (length its + length its')) as [Hlt|Hle].
  - destruct (midpoint_bounds (length its + length its')) as (Hm & Hm1 & Hm2); [lia|].
    rewrite <-length_app in Hm, Hm2.
    destruct (split_items (its ++ its') (midpoint (length its + length its')))
      as (E1 & E2 & E3 & E4 & G1 & G2 & El); [by rewrite ?length_app in *..|].
    rewrite map_app in E3, E4. rewrite E1, E2, E3, E4. eexists. split; [reflexivity|]. by split_and!.
  - rewrite <-map_app, !array_Ret by (rewrite ?length_map, length_app; lia).
    eexists. split; [reflexivity|]. simpl. rewrite <-total_app by done.
    split; [|done]. apply good_leaf; [by destruct its|rewrite length_app; lia].
Qed.

Lemma push_tree_ok h h' t other :
  good h t -> good h' other -> h' <= h ->
  exists r, push_tree_recursive t other = Ret r
    /\ result_left h (to_list t ++ to_list other) r.
Proof.
  revert t. induction h as [|h IH]; intros t Ht Ho Hle.
  { assert (h' = 0) as -> by lia. by apply push_leaf_ok. }
  destruct Ht as [(ct & -> & Hne & Hl & Hct)%wf_S_inv Hnt]. cbn [push_tree_recursive].
  pose proof (wf_height _ _ (proj1 Ho)) as Hh. rewrite Hh.
  rewrite (proj2 (Nat.ltb_ge _ _)) by lia.
  assert (Hsm : add_summary (sum (map node_summary ct)) (node_summary other)
                = total (flat_map to_list ct ++ to_list other)).
  { rewrite total_app by apply Ho.
    by rewrite (good_children h ct Hct), (node_summary_total h' other) by apply Ho. }
  rewrite Hsm. clear Hsm.
  destruct (Nat.eqb_spec (Datatypes.S h - h') 0).
  { assert (h' = Datatypes.S h) as -> by lia.
    destruct Ho as [(ct' & -> & Hne' & Hl' & Hct')%wf_S_inv Hno]. cbn [child_trees child_summaries].
    simpl to_list. rewrite <-flat_map_app. apply push_children_ok; try done.
    - by destruct ct.
    - by apply Forall_app. }
  destruct ((Datatypes.S h - h' =? 1) && negb (is_underflowing other)) eqn:E.
  { apply andb_true_iff in E as [E1%Nat.eqb_eq _]. assert (h' = h) as -> by lia.
    change [node_summary other] with (map node_summary [other]). simpl to_list.
    replace (flat_map to_list ct ++ to_list other) with (flat_map to_list (ct ++ [other]))
      by (rewrite flat_map_app; simpl; by rewrite app_nil_r).
    apply push_children_ok; try done; [by destruct ct| |simpl; unfold TREE_BASE; lia].
    apply Forall_app. split; [done|]. by constructor. }
  destruct (last_child_split ct Hne) as (pre & t & ->).
  apply Forall_app in Hct as [Hpre [Ht _]%Forall_cons].
  destruct (IH t Ht Ho) as (r & Er & Hr); [lia|].
  rewrite (on_last_snoc _ pre t r) by done. cbn [mbind res_bind].
  rewrite last_snoc, map_app. simpl map. rewrite set_last_snoc. cbn [mbind res_bind].
  change [node_summary r.1] with (map node_summary [r.1]). rewrite <-map_app.
  rewrite length_app in Hl. simpl in Hl. simpl to_list.
  rewrite flat_map_app. simpl. rewrite app_nil_r, <-app_assoc.
  assert (Hcl : forall app, flat_map to_list ((pre ++ [r.1]) ++ app)
                = flat_map to_list pre ++ to_list r.1 ++ flat_map to_list app).
  { intros app. rewrite !flat_map_app. simpl. by rewrite app_nil_r, <-app_assoc. }
  destruct r as [t' [t''|]]; simpl in Hr; cbn [fst snd] in *.
  - destruct Hr as (G1 & G2 & El). change [node_summary t''] with (map node_summary [t'']).
    replace (to_list t ++ to_list other) with (to_list t' ++ flat_map to_list [t''])
      by (simpl; by rewrite app_nil_r).
    rewrite <-Hcl. apply push_children_ok; try done.
    + by destruct pre.
    + rewrite !Forall_app. split_and!; [done|by constructor|by constructor].
    + rewrite length_app. simpl. lia.
    + simpl. unfold TREE_BASE. lia.
  - destruct Hr as (G1 & El).
    replace (to_list t ++ to_list other) with (to_list t' ++ flat_map to_list [])
      by (simpl; by rewrite app_nil_r).
    rewrite <-Hcl. apply (push_children_ok h _ (pre ++ [t']) []); try done.
    + by destruct pre.
    + rewrite !Forall_app. split_and!; [done|by constructor|done].
    + rewrite length_app. simpl. lia.
    + simpl. lia.
Qed.

Lemma merge_into_right_ok h small large :
  good h small -> good h large ->
  exists r, merge_into_right small large = Ret r
    /\ result_right h (to_list small ++ to_list large) r.
Proof.
  destruct h as [|h]; intros [Hs Hns] [Hl Hnl].
  - apply wf_0_inv in Hs as (its & -> & Hs), Hl as (its' & -> & Hl).
    cbn [to_list merge_into_right] in *.
    destruct (Nat.leb_spec (length its + length its') (2 * TREE_BASE)) as [Hle|Hlt].
    + rewrite <-map_app, !array_Ret by (rewrite ?length_map, length_app; lia).
      eexists. split; [reflexivity|]. simpl. rewrite <-total_app by done.
      split; [|done]. apply good_leaf; [by destruct its|rewrite length_app; lia].
    + destruct (half_bounds (length its + length its')) as (Hm & Hm1 & Hm2); [lia|].
      rewrite <-length_app in Hm, Hm2.
      destruct (split_items (its ++ its') ((length its + length its' + 1) / 2))
        as (E1 & E2 & E3 & E4 & G1 & G2 & El); [by rewrite ?length_app in *..|].
      rewrite map_app in E3, E4. rewrite E1, E2, E3, E4. eexists. split; [reflexivity|].
      by split_and!.
  - apply wf_S_inv in Hs as (ct & -> & Hne & Hs & Hct), Hl as (ct' & -> & Hne' & Hl & Hct').
    assert (Hg : Forall (good h) (ct ++ ct')) by by apply Forall_app.
    assert (Hnn : ct ++ ct' <> []) by by destruct ct.
    cbn [to_list merge_into_right] in *. rewrite <-flat_map_app, (Nat.add_comm (length ct')).
    destruct (Nat.leb_spec (length ct + length ct') (2 * TREE_BASE)) as [Hle|Hlt].
    + rewrite <-map_app, !array_Ret by (rewrite ?length_map, length_app; lia).
      eexists. split; [reflexivity|]. simpl. rewrite <-sum_app, <-map_app by by destruct ct'.
      split; [|done]. apply good_internal; [done|rewrite length_app; lia|done].
    + destruct (half_bounds (length ct + length ct')) as (Hm & Hm1 & Hm2); [lia|].
      rewrite <-length_app in Hm, Hm2.
      destruct (split_children h (ct ++ ct') ((length ct + length ct' + 1) / 2))
        as (E1 & E2 & E3 & E4 & G1 & G2 & El); [by rewrite ?length_app in *..|].
      rewrite map_app in E3, E4. rewrite E1, E2, E3, E4. eexists. split; [reflexivity|].
      by split_and!.
Qed.

(** Children with one more in front, split when they do not fit. *)
Lemma large_children_ok h sm first ct tree :
  good h tree -> Forall (good h) (first :: ct) -> length (first :: ct) <= 2 * TREE_BASE ->
  sm = total (to_list tree ++ flat_map to_list (first :: ct)) ->
  exists r,
    (if length (first :: ct) <? 2 * TREE_BASE then
       cs' ← array (node_summary tree :: map node_summary (first :: ct));
       ct' ← array (tree :: first :: ct);
       mret (Internal (Datatypes.S h) sm cs' ct', None)
     else
       new_cs ← array (node_summary tree :: take TREE_BASE (map node_summary (first :: ct)));
       new_ct ← array (tree :: take TREE_BASE (first :: ct));
       let cs' := drop TREE_BASE (map node_summary (first :: ct)) in
       mret (Internal (Datatypes.S h) (sum cs') cs' (drop TREE_BASE (first :: ct)),
             Some (Internal (Datatypes.S h) (sum new_cs) new_cs new_ct))) = Ret r
    /\ result_right (Datatypes.S h) (to_list tree ++ flat_map to_list (first :: ct)) r.
Proof.
  intros Ht Hct Hl ->. set (all := first :: ct) in *.
  assert (Hall : all <> []) by done.
  destruct (Nat.ltb_spec (length all) (2 * TREE_BASE)) as [Hlt|Hge].
  - change (node_summary tree :: map node_summary all) with (map node_summary (tree :: all)).
    rewrite !array_Ret by (rewrite ?length_map; change (length (tree :: all))
                             with (Datatypes.S (length all)); lia).
    eexists. split; [reflexivity|]. unfold result_right.
    change (to_list tree ++ flat_map to_list all) with (flat_map to_list (tree :: all)).
    rewrite <-(good_children h) by by constructor. split; [|done].
    apply good_internal; [done| |by constructor].
    change (length (tree :: all)) with (Datatypes.S (length all)). lia.
  - assert (Hlen : length all = 2 * TREE_BASE) by lia.
    rewrite firstn_map, skipn_map.
    change (node_summary tree :: map node_summary (take TREE_BASE all))
      with (map node_summary (tree :: take TREE_BASE all)).
    assert (Hl1 : length (tree :: take TREE_BASE all) <= 2 * TREE_BASE)
      by (cbn [length]; rewrite length_take; unfold TREE_BASE in *; lia).
    rewrite !array_Ret by (by rewrite ?length_map).
    eexists. split; [reflexivity|]. split_and!.
    + apply good_internal; [apply drop_ne; unfold TREE_BASE in *; lia|
        rewrite length_drop; lia|by apply Forall_drop].
    + apply good_internal; [done|done|]. constructor; [done|by apply Forall_take].
    + cbn [to_list flat_map]. by rewrite <-app_assoc, <-flat_map_app, take_drop.
Qed.

Lemma append_large_ok h h' small large :
  good h small -> good h' large -> h <= h' ->
  exists r, append_large small large = Ret r
    /\ result_right h' (to_list small ++ to_list large) r.
Proof.
  intros Hs. revert large. induction h' as [|h' IH]; intros large Hl Hle.
  - assert (h = 0) as -> by lia. destruct Hs as [Hs Hns], Hl as [Hl Hnl].
    unfold append_large. destruct large; [by inversion Hl|].
    rewrite (wf_height _ _ Hs). cbn [height]. rewrite Nat.eqb_refl.
    destruct (is_underflowing small); simpl negb; cbv iota.
    + by apply merge_into_right_ok.
    + eexists. split; [reflexivity|]. by split_and!.
  - pose proof Hl as [(ct & -> & Hne & Hlen & Hct)%wf_S_inv Hnl].
    cbn [append_large]. rewrite (wf_height h small) by apply Hs. cbn [height].
    destruct (Nat.eqb_spec h (Datatypes.S h')) as [->|Hneq].
    { destruct (is_underflowing small); simpl negb; cbv iota.
      - by apply merge_into_right_ok.
      - eexists. split; [reflexivity|]. by split_and!. }
    assert (Hsm : add_summary (node_summary small) (sum (map node_summary ct))
                  = total (to_list small ++ flat_map to_list ct)).
    { rewrite total_app by exact Hnl.
      by rewrite (good_children h' ct Hct), (node_summary_total h small) by apply Hs. }
    rewrite Hsm. clear Hsm. destruct ct as [|first ct]; [done|].
    apply Forall_cons in Hct as [Hf Hct]. cbn [map].
    destruct (IH first Hf) as (r & -> & Hr); [lia|]. cbn [mbind res_bind].
    destruct r as [first' [tree|]]; unfold result_right in Hr.
    + destruct Hr as (G1 & G2 & El). cbn [to_list].
      replace (to_list small ++ flat_map to_list (first :: ct))
        with (to_list tree ++ flat_map to_list (first' :: ct))
        by (cbn [flat_map]; by rewrite !app_assoc, El).
      apply large_children_ok; [done|by constructor|done|done].
    + destruct Hr as [G El]. eexists. split; [reflexivity|]. unfold result_right.
      cbn [to_list flat_map]. rewrite app_assoc, <-El.
      change (to_list first' ++ flat_map to_list ct) with (flat_map to_list (first' :: ct)).
      rewrite <-(good_children h') by by constructor. split; [|done].
      apply (good_internal h' (first' :: ct)); [done|done|by constructor].
Qed.

Lemma from_child_trees_ok h left right :
  good h left -> good h right ->
  good (Datatypes.S h) (from_child_trees left right)
  /\ to_list (from_child_trees left right) = to_list left ++ to_list right.
Proof.
  intros Hl Hr. unfold from_child_trees. rewrite (wf_height h left) by apply Hl.
  rewrite Nat.add_1_r. split; [|simpl; by rewrite app_nil_r].
  apply (good_internal h [left; right]); [done|unfold TREE_BASE; simpl; lia|].
  rewrite !Forall_cons. by split_and!.
Qed.

Lemma append_ok h h' t other :
  wf h t -> wf h' other ->
  exists r hr, append t other = Ret r /\ wf hr r /\ to_list r = to_list t ++ to_list other
    /\ hr <= Datatypes.S (Nat.max h h').
Proof.
  intros Ht Ho. unfold append. destruct (is_empty t) eqn:Et.
  { apply (is_empty_spec h t Ht) in Et. rewrite Et. exists other, h'. split_and!; [done..|lia]. }
  destruct (is_leaf other && is_empty other) eqn:Eo.
  { apply andb_true_iff in Eo as [_ Eo%(is_empty_spec h' other Ho)].
    rewrite Eo, app_nil_r. exists t, h. split_and!; [done..|lia]. }
  assert (Gt : good h t) by (split; [done|intros E%(is_empty_spec h t Ht); congruence]).
  assert (Go : good h' other).
  { split; [done|]. intros E%(is_empty_spec h' other Ho). rewrite E, andb_true_r in Eo.
    by destruct other. }
  rewrite (wf_height h t), (wf_height h' other) by done.
  destruct (Nat.ltb_spec h h') as [Hlt|Hge].
  - destruct (append_large_ok h h' t other Gt Go) as (r & -> & Hr); [lia|]. cbn [mbind res_bind].
    destruct r as [o [tree|]]; unfold result_right in Hr.
    + destruct Hr as (G1 & G2 & El). destruct (from_child_trees_ok h' tree o G2 G1) as [[Hw _] E].
      eexists _, _. split; [reflexivity|]. rewrite E, El. split_and!; [exact Hw|done|lia].
    + destruct Hr as [[Hw _] El]. exists o, h'. split_and!; [done..|lia].
  - destruct (push_tree_ok h h' t other Gt Go Hge) as (r & -> & Hr). cbn [mbind res_bind].
    destruct r as [s [tree|]]; unfold result_left in Hr.
    + destruct Hr as (G1 & G2 & El). destruct (from_child_trees_ok h s tree G1 G2) as [[Hw _] E].
      eexists _, _. split; [reflexivity|]. rewrite E, El. split_and!; [exact Hw|done|lia].
    + destruct Hr as [[Hw _] El]. exists s, h. split_and!; [done..|lia].
Qed.

(** ** Building from items *)

Lemma leaves_ok fuel l :
  length l <= fuel ->
  Forall (good 0) (leaves fuel l) /\ flat_map to_list (leaves fuel l) = l.
Proof.
  revert l. induction fuel as [|fuel IH]; intros l Hl; [by destruct l; simpl in *; [|lia]|].
  destruct l as [|x l]; [done|]. cbn [leaves flat_map].
  destruct (IH (drop (2 * TREE_BASE) (x :: l))) as [Hg El].
  { rewrite length_drop. unfold TREE_BASE. simpl in *. lia. }
  rewrite El. split; [|cbn [to_list]; apply take_drop]. constructor; [|done].
  set (its := take (2 * TREE_BASE) (x :: l)).
  assert (Hs : fold_left add_summary (drop 1 (map summary its)) (summary x) = total its)
    by (unfold total, sum; simpl; by rewrite add_zero_l).
  rewrite Hs. apply good_leaf; [done|]. unfold its. rewrite length_take. lia.
Qed.

(** The parent being filled, with [ct] its children. *)
Definition filling (h : nat) (ct : list node) : option node :=
  match ct with
  | [] => None
  | _ => Some (Internal h (sum (map node_summary ct)) (map node_summary ct) ct)
  end.

Lemma parents_ok h nodes ct :
  Forall (good h) (ct ++ nodes) -> length ct < 2 * TREE_BASE ->
  exists ps, parents (Datatypes.S h) nodes (filling (Datatypes.S h) ct) = Ret ps
    /\ Forall (good (Datatypes.S h)) ps /\ flat_map to_list ps = flat_map to_list (ct ++ nodes)
    /\ 2 * TREE_BASE * length ps < length (ct ++ nodes) + 2 * TREE_BASE.
Proof.
  revert ct. induction nodes as [|child rest IH]; intros ct Hg Hl.
  - rewrite app_nil_r in *. destruct ct as [|t ct].
    + exists []. split_and!; [done..|unfold TREE_BASE; simpl; lia].
    + eexists. split; [reflexivity|]. split_and!.
      * constructor; [|done]. apply good_internal; [done|lia|done].
      * simpl. by rewrite app_nil_r.
      * simpl length. lia.
  - cbn [parents].
    assert (Hd : default (Internal (Datatypes.S h) zero [] []) (filling (Datatypes.S h) ct)
                 = Internal (Datatypes.S h) (sum (map node_summary ct)) (map node_summary ct) ct)
      by by destruct ct.
    rewrite Hd. clear Hd.
    assert (Hs : add_summary (sum (map node_summary ct)) (node_summary child)
                 = sum (map node_summary (ct ++ [child])))
      by (unfold sum; by rewrite map_app, fold_left_app).
    change [node_summary child] with (map node_summary [child]).
    rewrite Hs, <-map_app. clear Hs.
    assert (Hl' : length (ct ++ [child]) <= 2 * TREE_BASE) by (rewrite length_app; simpl length; lia).
    rewrite !array_Ret by (by rewrite ?length_map). cbn [mbind res_bind].
    rewrite (cons_middle child ct rest) in *. rewrite app_assoc in *.
    assert (Hf : Some (Internal (Datatypes.S h) (sum (map node_summary (ct ++ [child])))
                        (map node_summary (ct ++ [child])) (ct ++ [child]))
                 = filling (Datatypes.S h) (ct ++ [child])) by by destruct ct.
    destruct (Nat.eqb_spec (length (ct ++ [child])) (2 * TREE_BASE)) as [He|Hne].
    + destruct (IH []) as (ps & Ep & Gp & Lp & Np);
        [by apply Forall_app in Hg as [_ ?]|unfold TREE_BASE; simpl; lia|].
      simpl in Ep. rewrite Ep. eexists. split; [reflexivity|]. split_and!.
      * constructor; [|done]. apply Forall_app in Hg as [? _].
        apply good_internal; [by destruct ct|done|done].
      * cbn [flat_map to_list]. by rewrite Lp, (flat_map_app _ (ct ++ [child])).
      * rewrite length_app, He. cbn [length]. simpl length in Np. lia.
    + rewrite Hf. apply IH; [done|lia].
Qed.

Lemma new_ok : wf 0 new.
Proof. apply (wf_leaf []). simpl. apply Nat.le_0_l. Qed.

Lemma levels_ok fuel h nodes :
  Forall (good h) nodes -> length nodes <= Datatypes.S fuel ->
  exists t h', levels fuel h nodes = Ret t /\ wf h' t /\ to_list t = flat_map to_list nodes.
Proof.
  revert h nodes. induction fuel as [|fuel IH]; intros h nodes Hg Hl.
  - destruct nodes as [|t [|t' nodes]]; [|apply Forall_cons in Hg as [[Hw _] _]|simpl in Hl; lia].
    + exists new, 0. split_and!; [done|exact new_ok|done].
    + exists t, h. split_and!; [done..|]. simpl. by rewrite app_nil_r.
  - destruct nodes as [|t [|t' nodes]].
    + exists new, 0. split_and!; [done|exact new_ok|done].
    + apply Forall_cons in Hg as [[Hw _] _]. exists t, h. split_and!; [done..|].
      simpl. by rewrite app_nil_r.
    + cbn [levels].
      destruct (parents_ok h (t :: t' :: nodes) []) as (ps & Ep & Gp & Lp & Np);
        [done|unfold TREE_BASE; simpl; lia|].
      simpl in Ep. simpl. rewrite Ep. cbn [mbind res_bind].
      destruct (IH (Datatypes.S h) ps Gp) as (r & h' & Er & Hr & Elr).
      { unfold TREE_BASE in Np. simpl in *. lia. }
      exists r, h'. split_and!; [done..|]. by rewrite Elr, Lp.
Qed.

Lemma from_iter_ok l : exists t h, from_iter l = Ret t /\ wf h t /\ to_list t = l.
Proof.
  destruct (leaves_ok (length l) l) as [Hg El]; [lia|]. unfold from_iter.
  destruct (levels_ok (length (leaves (length l) l)) 0 _ Hg) as (t & h & E & Hw & Ht); [lia|].
  exists t, h. split_and!; [done..|]. by rewrite Ht, El.
Qed.

Lemma push_ok h t x :
  wf h t -> exists r h', push t x = Ret r /\ wf h' r /\ to_list r = to_list t ++ [x].
Proof.
  intros Ht. unfold push.
  assert (Hx : wf 0 (Leaf (summary x) [x] [summary x])).
  { pose proof (wf_leaf [x]) as Hw. unfold total in Hw. simpl map in Hw. rewrite sum_one in Hw.
    apply Hw. unfold TREE_BASE. simpl. lia. }
  destruct (append_ok h 0 t _ Ht Hx) as (r & h' & E & Hr & El & _). by exists r, h'.
Qed.

Lemma extend_ok h t l :
  wf h t -> exists r h', extend t l = Ret r /\ wf h' r /\ to_list r = to_list t ++ l.
Proof.
  intros Ht. unfold extend. destruct (from_iter_ok l) as (t' & h' & -> & Hw & El).
  destruct (append_ok h h' t t' Ht Hw) as (r & h'' & E & Hr & Er & _). exists r, h''.
  split_and!; [done..|]. by rewrite Er, El.
Qed.

(** ** The ends *)

Lemma of_last_snoc {A} (f : node -> res A) pre t : of_last f (pre ++ [t]) = f t.
Proof.
  induction pre as [|x pre IH]; [done|]. simpl. destruct (pre ++ [t]) eqn:E; [by destruct pre|].
  by rewrite <-IH.
Qed.

Lemma leftmost_ok h t :
  wf h t -> exists its, leftmost_leaf t = Ret (Leaf (total its) its (map summary its))
                        /\ head its = head (to_list t).
Proof.
  revert t. induction h as [|h IH]; intros t Ht.
  - apply wf_0_inv in Ht as (its & -> & _). by exists its.
  - apply wf_S_inv in Ht as (ct & -> & Hne & _ & Hct). destruct ct as [|t ct]; [done|].
    apply Forall_cons in Hct as [[Ht Hn] _]. destruct (IH t Ht) as (its & E & Hh).
    exists its. cbn [leftmost_leaf to_list flat_map]. split; [done|].
    rewrite Hh. by destruct (to_list t).
Qed.

Lemma rightmost_ok h t :
  wf h t -> exists its, rightmost_leaf t = Ret (Leaf (total its) its (map summary its))
                        /\ last its = last (to_list t).
Proof.
  revert t. induction h as [|h IH]; intros t Ht.
  - apply wf_0_inv in Ht as (its & -> & _). by exists its.
  - apply wf_S_inv in Ht as (ct & -> & Hne & _ & Hct).
    destruct (last_child_split ct Hne) as (pre & t & ->).
    apply Forall_app in Hct as [_ [[Ht Hn] _]%Forall_cons].
    destruct (IH t Ht) as (its & E & Hh). exists its. cbn [rightmost_leaf to_list].
    rewrite of_last_snoc, flat_map_app. split; [done|]. simpl. rewrite app_nil_r, Hh.
    destruct (to_list t) as [|x l _] using rev_ind; [done|]. by rewrite app_assoc, !last_snoc.
Qed.

Lemma first_ok h t : wf h t -> first t = Ret (head (to_list t)).
Proof. intros (its & E & Hh)%leftmost_ok. unfold first. rewrite E. simpl. by rewrite Hh. Qed.

Lemma last_item_ok h t : wf h t -> last_item t = Ret (last (to_list t)).
Proof. intros (its & E & Hh)%rightmost_ok. unfold last_item. rewrite E. simpl. by rewrite Hh. Qed.

(** The last item updated in place; the summaries on the path follow. *)
Lemma update_last_rec_ok h t f l x :
  wf h t -> to_list t = l ++ [x] ->
  exists t', update_last_recursive f t = Ret (t', Some (node_summary t'))
    /\ good h t' /\ to_list t' = l ++ [f x].
Proof.
  revert t l. induction h as [|h IH]; intros t l Ht El.
  - apply wf_0_inv in Ht as (its & -> & Hl). simpl in El. subst its. cbn [update_last_recursive].
    rewrite map_app. simpl map. rewrite !last_snoc, !set_last_snoc. cbn [mbind res_bind].
    change [summary (f x)] with (map summary [f x]). rewrite <-map_app.
    exists (Leaf (total (l ++ [f x])) (l ++ [f x]) (map summary (l ++ [f x]))).
    split; [reflexivity|]. split; [|done].
    apply good_leaf; [by destruct l|]. by rewrite length_app in *.
  - apply wf_S_inv in Ht as (ct & -> & Hne & Hl & Hct).
    destruct (last_child_split ct Hne) as (pre & t & ->).
    apply Forall_app in Hct as [Hpre [[Ht Hn] _]%Forall_cons].
    cbn [to_list] in El. rewrite flat_map_app in El. simpl in El. rewrite app_nil_r in El.
    destruct (to_list t) as [|y l' _] eqn:Et using rev_ind; [done|].
    rewrite app_assoc in El. apply app_inj_tail in El as [<- ->].
    destruct (IH t l' Ht Et) as (t' & E & Gt & El'). cbn [update_last_recursive].
    match goal with |- context [?go (pre ++ [t])] =>
      assert (Hgo : go (pre ++ [t]) = Ret (pre ++ [t'], Some (node_summary t'))) end.
    { clear Hne Hl Hpre. induction pre as [|z pre IHp]; simpl; [by rewrite E|].
      destruct (pre ++ [t]) eqn:Ep; [by destruct pre|]. by rewrite IHp. }
    rewrite Hgo. cbn [mbind res_bind snd fst]. rewrite map_app. simpl map.
    rewrite set_last_snoc. cbn [mbind res_bind].
    change [node_summary t'] with (map node_summary [t']). rewrite <-map_app.
    exists (Internal (Datatypes.S h) (sum (map node_summary (pre ++ [t'])))
              (map node_summary (pre ++ [t'])) (pre ++ [t'])).
    split; [reflexivity|]. split.
    + apply good_internal; [by destruct pre|by rewrite length_app in *|].
      apply Forall_app. split; [done|by constructor].
    + cbn [to_list]. rewrite flat_map_app. simpl. by rewrite app_nil_r, El', app_assoc.
Qed.

Lemma update_first_rec_ok h t f l x :
  wf h t -> to_list t = x :: l ->
  exists t', update_first_recursive f t = Ret (t', Some (node_summary t'))
    /\ good h t' /\ to_list t' = f x :: l.
Proof.
  revert t l. induction h as [|h IH]; intros t l Ht El.
  - apply wf_0_inv in Ht as (its & -> & Hl). simpl in El. subst its.
    exists (Leaf (total (f x :: l)) (f x :: l) (map summary (f x :: l))).
    split; [reflexivity|]. split; [|done]. by apply (good_leaf (f x :: l)).
  - apply wf_S_inv in Ht as (ct & -> & Hne & Hl & Hct). destruct ct as [|t ct]; [done|].
    apply Forall_cons in Hct as [[Ht Hn] Hct]. cbn [to_list flat_map] in El.
    destruct (to_list t) as [|y l'] eqn:Et; [done|]. simpl in El. injection El as -> <-.
    destruct (IH t l' Ht Et) as (t' & E & Gt & El'). cbn [update_first_recursive map].
    rewrite E. cbn [mbind res_bind snd fst].
    exists (Internal (Datatypes.S h) (sum (map node_summary (t' :: ct)))
              (map node_summary (t' :: ct)) (t' :: ct)).
    split; [reflexivity|]. split.
    + apply (good_internal h (t' :: ct)); [done|done|by constructor].
    + cbn [to_list flat_map]. by rewrite El'.
Qed.

Lemma update_first_ok h t f :
  wf h t -> exists t', update_first f t = Ret t' /\ wf h t' /\ to_list t' = alter f 0 (to_list t).
Proof.
  intros Ht. unfold update_first. destruct (to_list t) as [|x l] eqn:El.
  - destruct t as [|sm its ss]; [by apply (is_empty_spec h _ Ht) in El|].
    simpl in El. subst its. eexists. split; [reflexivity|]. by split.
  - destruct (update_first_rec_ok h t f l x Ht El) as (t' & -> & [Hw _] & E).
    by exists t'.
Qed.

Lemma update_last_ok h t f :
  wf h t ->
  exists t', update_last f t = Ret t' /\ wf h t'
    /\ to_list t' = alter f (length (to_list t) - 1) (to_list t).
Proof.
  intros Ht. unfold update_last. destruct (to_list t) as [|x l _] eqn:El using rev_ind.
  - destruct t as [|sm its ss]; [by apply (is_empty_spec h _ Ht) in El|].
    simpl in El. subst its. eexists. split; [reflexivity|]. by split.
  - destruct (update_last_rec_ok h t f l x Ht El) as (t' & -> & [Hw _] & E).
    exists t'. split_and!; [done..|]. rewrite E, length_app, Nat.add_sub.
    rewrite alter_app_r_alt by done. by rewrite Nat.sub_diag.
Qed.
End Invariant.
