(* ===== verification/SumTreeFind.v ===== *)
(** * Searching a sum tree

    Searching by a target is a scan of the items from the left, stopping at the
    first whose end the target does not lie past; the tree only skips subtrees
    the scan would walk through. *)

From S2P Require Import Prelude SumTree SumTreeInvariant.
Local Open Scope nat_scope.

Section Scan.
Context {T S : Type} `{HS : !Summary S} `{!SummaryLaws S} `{HI : !Item T S}.
Context {D : Type} `{HD : !Dimension D S} `{!DimensionSum D S}.
Notation node := (node T S).
Implicit Types t : node.

(** The position after some items. *)
Definition advance (d : D) (l : list T) : D := fold_left (fun d x => dim_add d (summary x)) l d.

Lemma advance_app d l1 l2 : advance d (l1 ++ l2) = advance (advance d l1) l2.
Proof. apply fold_left_app. Qed.

Lemma advance_snoc d l x : advance d (l ++ [x]) = dim_add (advance d l) (summary x).
Proof. apply advance_app. Qed.

Lemma dim_add_total d l : l <> [] -> dim_add d (total l) = advance d l.
Proof.
  induction l as [|x l IH] using rev_ind; [done|]. intros _.
  rewrite advance_snoc. destruct l as [|y l]; [unfold total; simpl; by rewrite sum_one|].
  rewrite total_app, dim_add_sum, IH by done. unfold total. simpl. by rewrite sum_one.
Qed.

Lemma dim_zero_total `{!DimensionLaws D S} l : dim_add dim_zero (total l) = advance dim_zero l.
Proof. destruct l; [apply dim_add_zero|by apply dim_add_total]. Qed.

Lemma dim_add_good h t d : good h t -> dim_add d (node_summary t) = advance d (to_list t).
Proof. intros [Hw Hn]. by rewrite (node_summary_total h t Hw), dim_add_total. Qed.

Section Target.
Context {Target : Type} `{!SeekTarget Target D}.
Context (target : Target) (bias : Bias).
Notation stop := (target_in target bias).

(** The items the scan passes, and whether it stops. *)
Fixpoint before (d : D) (l : list T) : list T :=
  match l with
  | [] => []
  | x :: l' => let e := dim_add d (summary x) in if stop e then [] else x :: before e l'
  end.

Fixpoint stops (d : D) (l : list T) : bool :=
  match l with [] => false | x :: l' => let e := dim_add d (summary x) in stop e || stops e l' end.

Definition rank (c : comparison) : nat := match c with Lt => 0 | Eq => 1 | Gt => 2 end.

(** Later positions never compare later with the target. *)
Definition ordered (d : D) (l : list T) : Prop :=
  forall p q r, l = p ++ q ++ r -> p <> [] ->
    rank (target_cmp target (advance d (p ++ q))) <= rank (target_cmp target (advance d p)).

Lemma ordered_nil d : ordered d [].
Proof. by intros [|x p] q r E Hp. Qed.

Lemma ordered_l d l1 l2 : ordered d (l1 ++ l2) -> ordered d l1.
Proof. intros H p q r -> Hp. apply (H p q (r ++ l2)); [by rewrite <-!app_assoc|done]. Qed.

Lemma ordered_r d l1 l2 : ordered d (l1 ++ l2) -> ordered (advance d l1) l2.
Proof.
  intros H p q r -> Hp. rewrite <-!advance_app, app_assoc.
  apply (H (l1 ++ p) q r); [by rewrite <-!app_assoc|by intros [_ ?]%app_nil].
Qed.

Lemma stop_rank e e' :
  rank (target_cmp target e') <= rank (target_cmp target e) -> stop e = true -> stop e' = true.
Proof.
  unfold target_in.
  destruct (target_cmp target e), (target_cmp target e'), bias; simpl; done || lia.
Qed.

Lemma ordered_stop d p q :
  ordered d (p ++ q) -> p <> [] -> stop (advance d p) = true -> stop (advance d (p ++ q)) = true.
Proof. intros H Hp. apply stop_rank, (H p q []); [by rewrite app_nil_r|done]. Qed.

(** Whether the scan stops shows at the end. *)
Lemma stops_end d l : ordered d l -> l <> [] -> stops d l = stop (advance d l).
Proof.
  revert d. induction l as [|x l IH]; intros d H Hl; [done|]. simpl.
  destruct l as [|y l]; [by rewrite orb_false_r|].
  change (advance (dim_add d (summary x)) (y :: l)) with (advance d ([x] ++ y :: l)).
  rewrite IH; [|by apply (ordered_r d [x])|done].
  change (advance (dim_add d (summary x)) (y :: l)) with (advance d ([x] ++ y :: l)).
  destruct (stop (dim_add d (summary x))) eqn:E; [|done].
  symmetry. by apply (ordered_stop d [x]).
Qed.

Lemma before_app d l1 l2 :
  before d (l1 ++ l2)
  = if stops d l1 then before d l1 else l1 ++ before (advance d l1) l2.
Proof.
  revert d. induction l1 as [|x l1 IH]; intros d; [done|]. simpl.
  destruct (stop _); [done|]. rewrite IH. simpl. by destruct (stops _ l1).
Qed.

Lemma before_all d l : stops d l = false -> before d l = l.
Proof. intros H. pose proof (before_app d l []) as E. by rewrite H, !app_nil_r in E. Qed.

Lemma stops_app d l1 l2 : stops d (l1 ++ l2) = stops d l1 || stops (advance d l1) l2.
Proof.
  revert d. induction l1 as [|x l1 IH]; intros d; [done|]. simpl. by rewrite IH, orb_assoc.
Qed.

Lemma stops_split d l :
  stops d l = true ->
  exists x r, l = before d l ++ x :: r /\ stop (advance d (before d l ++ [x])) = true.
Proof.
  revert d. induction l as [|x l IH]; intros d H; [done|]. simpl in *.
  destruct (stop _) eqn:E; [by exists x, l|]. destruct (IH _ H) as (y & r & El & Es).
  exists y, r. split; [simpl; by rewrite <-El|done].
Qed.

Lemma before_prefix d l : l = before d l ++ drop (length (before d l)) l.
Proof.
  revert d. induction l as [|x l IH]; intros d; simpl; [done|].
  destruct (stop _); [done|]. simpl. f_equal. apply IH.
Qed.

Lemma drop_before d l : stops d l = false -> drop (length (before d l)) l = [].
Proof. intros H. rewrite before_all by done. by rewrite drop_all. Qed.

(** What the position and the item found are, on the list. *)
Definition landing (d : D) (l : list T) : D * option (T * D) :=
  let b := before d l in
  match drop (length b) l with
  | x :: _ => (advance d b, Some (x, advance d (b ++ [x])))
  | [] => (advance d b, None)
  end.

Lemma landing_cons d x l :
  landing d (x :: l) = let e := dim_add d (summary x) in
                       if stop e then (d, Some (x, e)) else landing e l.
Proof. unfold landing. simpl. by destruct (stop _). Qed.

Lemma landing_app d l1 l2 :
  landing d (l1 ++ l2) = if stops d l1 then landing d l1 else landing (advance d l1) l2.
Proof.
  revert d. induction l1 as [|x l1 IH]; intros d; [done|]. simpl app.
  rewrite !landing_cons. simpl. destruct (stop _); [done|]. apply IH.
Qed.

Lemma find_item_landing d l : find_item target bias false d l (map summary l) = landing d l.
Proof.
  revert d. induction l as [|x l IH]; intros d; [done|]. rewrite landing_cons. simpl.
  destruct (stop _); [done|]. apply IH.
Qed.

Lemma find_iterate_ok h t d :
  good h t -> ordered d (to_list t) -> stops d (to_list t) = true ->
  find_iterate target bias false d t = landing d (to_list t).
Proof.
  revert t d. induction h as [|h IH]; intros t d Hg Ho Hs.
  - destruct Hg as [(its & -> & _)%wf_0_inv _]. apply find_item_landing.
  - destruct Hg as [(ct & -> & _ & _ & Hct)%wf_S_inv _]. cbn [find_iterate to_list] in *.
    revert d Ho Hs. induction ct as [|t ct IHct]; intros d Ho Hs; [done|].
    apply Forall_cons in Hct as [Ht Hct]. cbn [find_child map flat_map] in *.
    rewrite (dim_add_good h) by done. rewrite landing_app.
    rewrite stops_app in Hs. pose proof (ordered_l _ _ _ Ho) as Ho1.
    rewrite (stops_end _ _ Ho1 (proj2 Ht)) in *. destruct (stop _) eqn:E.
    + apply IH; [done..|]. by rewrite (stops_end _ _ Ho1 (proj2 Ht)).
    + apply IHct; [done| |done]. by apply ordered_r.
Qed.

(** The outcome of [find]. *)
Definition found (l : list T) : D * D * option T :=
  match landing dim_zero l with
  | (pos, Some (x, end_)) => (pos, end_, Some x)
  | (pos, None) => (pos, pos, None)
  end.

Lemma landing_none d l : stops d l = false -> landing d l = (advance d l, None).
Proof. intros H. unfold landing. by rewrite drop_before, before_all. Qed.

Lemma find_ok_measured h t :
  dim_add dim_zero (total (to_list t)) = advance dim_zero (to_list t) -> wf h t -> ordered dim_zero (to_list t) -> find target bias t = found (to_list t).
Proof.
  intros Em Hw Ho. unfold find, find_with, found.
  rewrite (node_summary_total h t Hw), Em.
  destruct (decide (to_list t = [])) as [El|Hn].
  - rewrite El. destruct h as [|h].
    + apply wf_0_inv in Hw as (its & -> & _). simpl in El. subst its. by destruct (stop _).
    + by apply (is_empty_spec _ _ Hw) in El; inversion Hw; subst.
  - pose proof (stops_end _ _ Ho Hn) as Hs. destruct (stop _) eqn:E; simpl.
    + by rewrite (find_iterate_ok h t dim_zero (conj Hw Hn) Ho Hs).
    + by rewrite landing_none.
Qed.
Lemma find_ok `{!DimensionLaws D S} h t :
  wf h t -> ordered dim_zero (to_list t) -> find target bias t = found (to_list t).
Proof. apply find_ok_measured, dim_zero_total. Qed.

(** The same search, with the item before. *)
Lemma find_prev_item_ok prev d l :
  find_prev_item target bias prev d l (map summary l)
  = match landing d l with
    | (pos, Some (x, e)) => (pos, Some (last (option_list prev ++ before d l), x, e))
    | (pos, None) => (pos, None)
    end.
Proof.
  revert prev d. induction l as [|x l IH]; intros prev d; [done|]. rewrite landing_cons. simpl.
  destruct (stop _).
  - rewrite app_nil_r. by destruct prev.
  - rewrite IH. destruct (landing _ l) as [pos [[y e]|]]; [|done].
    by destruct prev as [p|]; simpl; destruct (before _ l).
Qed.

Lemma find_with_prev_iterate_ok h t prev d :
  good h t -> ordered d (to_list t) -> stops d (to_list t) = true ->
  find_with_prev_iterate target bias prev d t
  = Ret match landing d (to_list t) with
        | (pos, Some (x, e)) =>
            (pos, Some (last (option_list prev ++ before d (to_list t)), x, e))
        | (pos, None) => (pos, None)
        end.
Proof.
  revert t prev d. induction h as [|h IH]; intros t prev d Hg Ho Hs.
  - destruct Hg as [(its & -> & _)%wf_0_inv _]. cbn [find_with_prev_iterate to_list].
    by rewrite find_prev_item_ok.
  - destruct Hg as [(ct & -> & _ & _ & Hct)%wf_S_inv _].
    cbn [find_with_prev_iterate to_list] in *.
    revert prev d Ho Hs. induction ct as [|t ct IHct]; intros prev d Ho Hs; [done|].
    apply Forall_cons in Hct as [Ht Hct]. cbn [find_prev_child map flat_map] in *.
    rewrite (dim_add_good h) by done. rewrite landing_app, before_app.
    rewrite stops_app in Hs. pose proof (ordered_l _ _ _ Ho) as Ho1.
    rewrite (stops_end _ _ Ho1 (proj2 Ht)) in *. destruct (stop _) eqn:E.
    + apply IH; [done..|]. by rewrite (stops_end _ _ Ho1 (proj2 Ht)).
    + rewrite (last_item_ok h) by apply Ht. cbn [mbind res_bind].
      rewrite IHct; [|done|by apply ordered_r|done].
      destruct (landing _ _) as [pos [[x e]|]]; [|done]. do 4 f_equal.
      destruct Ht as [_ Hn]. destruct (to_list t) as [|y l _] using rev_ind; [done|].
      rewrite last_snoc. simpl. rewrite (app_assoc _ (l ++ [y])), (app_assoc _ l), <-app_assoc.
      simpl. destruct (before _ (flat_map to_list ct)) as [|z b _] using rev_ind.
      * by rewrite last_snoc.
      * by rewrite !(app_comm_cons), !app_assoc, !last_snoc.
Qed.

Lemma find_with_prev_ok_measured h t :
  dim_add dim_zero (total (to_list t)) = advance dim_zero (to_list t) -> wf h t -> ordered dim_zero (to_list t) ->
  find_with_prev target bias t
  = Ret match landing dim_zero (to_list t) with
        | (pos, Some (x, e)) => (pos, e, Some (last (before dim_zero (to_list t)), x))
        | (pos, None) => (pos, pos, None)
        end.
Proof.
  intros Em Hw Ho. unfold find_with_prev.
  rewrite (node_summary_total h t Hw), Em.
  destruct (decide (to_list t = [])) as [El|Hn].
  - rewrite El. destruct h as [|h].
    + apply wf_0_inv in Hw as (its & -> & _). simpl in El. subst its. by destruct (stop _).
    + by apply (is_empty_spec _ _ Hw) in El; inversion Hw; subst.
  - pose proof (stops_end _ _ Ho Hn) as Hs. destruct (stop _) eqn:E; simpl.
    + rewrite (find_with_prev_iterate_ok h t None dim_zero (conj Hw Hn) Ho Hs).
      cbn [mbind res_bind option_list app]. by destruct (landing _ _) as [pos [[x e]|]].
    + by rewrite landing_none.
Qed.
Lemma find_with_prev_ok `{!DimensionLaws D S} h t :
  wf h t -> ordered dim_zero (to_list t) ->
  find_with_prev target bias t
  = Ret match landing dim_zero (to_list t) with
        | (pos, Some (x, e)) => (pos, e, Some (last (before dim_zero (to_list t)), x))
        | (pos, None) => (pos, pos, None)
        end.
Proof. apply find_with_prev_ok_measured, dim_zero_total. Qed.
End Target.

(** ** Searching for an exact position, with the left bias *)
Section Exact.
Context {Target : Type} `{!SeekTarget Target D}.
Context (target : Target).

(** The item found is kept when it ends at the target. *)
Definition exactly (o : option (T * D)) : option (T * D) :=
  match o with Some (x, e) => if is_equal target e then Some (x, e) else None | None => None end.

Lemma past_not_equal d l :
  (forall p q, l = p ++ q -> p <> [] -> target_cmp target (advance d p) = Lt) ->
  snd (find_item target Left true d l (map summary l)) = None.
Proof.
  revert d. induction l as [|x l IH]; intros d H; [done|]. simpl.
  assert (Hx : target_cmp target (dim_add d (summary x)) = Lt) by by apply (H [x] l).
  unfold is_equal. rewrite Hx. apply IH. intros p q -> Hp. by apply (H (x :: p) q).
Qed.

Lemma find_item_exact d l :
  ordered target d l ->
  snd (find_item target Left true d l (map summary l)) = exactly (landing target Left d l).2.
Proof.
  revert d. induction l as [|x l IH]; intros d H; [done|]. rewrite landing_cons. simpl.
  unfold target_in at 1, is_equal at 1.
  destruct (target_cmp target (dim_add d (summary x))) eqn:E; simpl.
  - unfold is_equal. by rewrite E.
  - unfold is_equal. rewrite E. apply past_not_equal. intros p q -> Hp.
    pose proof (H [x] p q eq_refl ltac:(done)) as Hr.
    change (advance (dim_add d (summary x)) p) with (advance d ([x] ++ p)).
    change (advance d [x]) with (dim_add d (summary x)) in Hr. rewrite E in Hr.
    by destruct (target_cmp target (advance d ([x] ++ p))); simpl in Hr; [lia| |lia].
  - apply IH. by apply (ordered_r target d [x]).
Qed.

Lemma find_iterate_exact h t d :
  good h t -> ordered target d (to_list t) -> stops target Left d (to_list t) = true ->
  snd (find_iterate target Left true d t) = exactly (landing target Left d (to_list t)).2.
Proof.
  revert t d. induction h as [|h IH]; intros t d Hg Ho Hs.
  - destruct Hg as [(its & -> & _)%wf_0_inv _]. by apply find_item_exact.
  - destruct Hg as [(ct & -> & _ & _ & Hct)%wf_S_inv _]. cbn [find_iterate to_list] in *.
    revert d Ho Hs. induction ct as [|t ct IHct]; intros d Ho Hs; [done|].
    apply Forall_cons in Hct as [Ht Hct]. cbn [find_child map flat_map] in *.
    rewrite (dim_add_good h) by done. rewrite landing_app.
    rewrite stops_app in Hs. pose proof (ordered_l _ _ _ _ Ho) as Ho1.
    rewrite (stops_end _ Left _ _ Ho1 (proj2 Ht)) in *.
    destruct (target_in _ _ _) eqn:E.
    + apply IH; [done..|]. by rewrite (stops_end _ Left _ _ Ho1 (proj2 Ht)).
    + apply IHct; [done| |done]. by apply ordered_r.
Qed.

Lemma find_exact_ok_measured h t :
  dim_add dim_zero (total (to_list t)) = advance dim_zero (to_list t) -> wf h t -> ordered target dim_zero (to_list t) ->
  snd (find_exact target Left t) = fst <$> exactly (landing target Left dim_zero (to_list t)).2.
Proof.
  intros Em Hw Ho. unfold find_exact, find_with.
  rewrite (node_summary_total h t Hw), Em.
  destruct (decide (to_list t = [])) as [El|Hn].
  - rewrite El. destruct h as [|h].
    + apply wf_0_inv in Hw as (its & -> & _). simpl in El. subst its. by destruct (target_in _ _ _).
    + by apply (is_empty_spec _ _ Hw) in El; inversion Hw; subst.
  - pose proof (stops_end _ Left _ _ Ho Hn) as Hs. destruct (target_in _ _ _) eqn:E; simpl.
    + rewrite <-(find_iterate_exact h t dim_zero (conj Hw Hn) Ho Hs).
      by destruct (find_iterate _ _ _ _ t) as [pos [[x e]|]].
    + by rewrite landing_none.
Qed.
Lemma find_exact_ok `{!DimensionLaws D S} h t :
  wf h t -> ordered target dim_zero (to_list t) ->
  snd (find_exact target Left t) = fst <$> exactly (landing target Left dim_zero (to_list t)).2.
Proof. apply find_exact_ok_measured, dim_zero_total. Qed.
End Exact.
End Scan.
