(* ===== verification/SumCursor.v ===== *)
(** * Cursors over sum trees ([crates/sum_tree/src/cursor.rs])

    A cursor holds the path from the root to a leaf as a stack, here with the top
    first, and the position in front of the current item.  The stack has
    capacity 16, and pushing past that is a panic.  Loops carry fuel, twice the
    number of nodes and slots of the tree and a little more: an iteration pushes or
    pops a node or moves to another slot of one, and none twice.  The closures that filter nodes are pure
    functions here. *)

From S2P Require Import Prelude SumTree.
Local Open Scope nat_scope.

Definition STACK_CAPACITY : nat := 16.

Section Cursor.
Context {T S : Type} `{!Summary S} `{!Item T S}.
Context {D : Type} `{!Dimension D S}.
Notation node := (node T S).

Record entry := Entry { e_tree : node; e_index : nat; e_position : D }.

Record cursor := Cursor {
  c_tree : node;
  c_stack : list entry;
  c_position : D;
  c_did_seek : bool;
  c_at_end : bool;
}.

Definition cursor_new (tree : node) : cursor := Cursor tree [] dim_zero false (is_empty tree).

Definition reset (c : cursor) : cursor :=
  Cursor (c_tree c) [] dim_zero false (is_empty (c_tree c)).

Definition start (c : cursor) : D := c_position c.

Definition push_entry (e : entry) (stack : list entry) : res (list entry) :=
  if length stack <? STACK_CAPACITY then Ret (e :: stack) else Panic.

(** The nodes and their slots, and the fuel of a loop over the tree. *)
Fixpoint slots (n : node) : nat :=
  match n with
  | Leaf _ its _ => 1 + length its
  | Internal _ _ _ ct => 1 + length ct + list_sum (map slots ct)
  end.
Definition fuel_for (n : node) : nat := 2 * slots n + STACK_CAPACITY + 2.

(** [len() - 1] of what indexes right after: without elements either the
    subtraction or the indexing panics. *)
Definition last_index {A} (l : list A) : res nat :=
  match l with [] => Panic | _ => Ret (length l - 1) end.

(** ** The current item and its neighbours *)

Definition item (c : cursor) : res (option T) :=
  if negb (c_did_seek c) then Panic
  else
    match c_stack c with
    | e :: _ =>
        match e_tree e with
        | Leaf _ its _ =>
            if e_index e =? length its then Ret None else Some <$> index its (e_index e)
        | Internal _ _ _ _ => Panic
        end
    | [] => Ret None
    end.

Definition item_summary (c : cursor) : res (option S) :=
  if negb (c_did_seek c) then Panic
  else
    match c_stack c with
    | e :: _ =>
        match e_tree e with
        | Leaf _ _ ss =>
            if e_index e =? length ss then Ret None else Some <$> index ss (e_index e)
        | Internal _ _ _ _ => Panic
        end
    | [] => Ret None
    end.

Definition cursor_end (c : cursor) : res D :=
  s ← item_summary c;
  mret (match s with Some s => dim_add (start c) s | None => start c end).

Fixpoint next_leaf (parents : list entry) : res (option node) :=
  match parents with
  | [] => Ret None
  | e :: rest =>
      ct ← child_trees (e_tree e);
      n ← last_index ct;
      if e_index e <? n then
        t ← index ct (e_index e + 1);
        Some <$> leftmost_leaf t
      else next_leaf rest
  end.

Definition next_item (c : cursor) : res (option T) :=
  if negb (c_did_seek c) then Panic
  else
    match c_stack c with
    | e :: parents =>
        its ← items (e_tree e);
        n ← last_index its;
        if e_index e =? n then
          l ← next_leaf parents;
          match l with
          | Some leaf =>
              its ← items leaf;
              match head its with Some x => Ret (Some x) | None => Panic end
          | None => Ret None
          end
        else Some <$> index its (e_index e + 1)
    | [] => if c_at_end c then Ret None else first (c_tree c)
    end.

Fixpoint prev_leaf (parents : list entry) : res (option node) :=
  match parents with
  | [] => Ret None
  | e :: rest =>
      if negb (e_index e =? 0) then
        ct ← child_trees (e_tree e);
        t ← index ct (e_index e - 1);
        Some <$> rightmost_leaf t
      else prev_leaf rest
  end.

Definition prev_item (c : cursor) : res (option T) :=
  if negb (c_did_seek c) then Panic
  else
    match c_stack c with
    | e :: parents =>
        if e_index e =? 0 then
          l ← prev_leaf parents;
          match l with
          | Some leaf =>
              its ← items leaf;
              match last its with Some x => Ret (Some x) | None => Panic end
          | None => Ret None
          end
        else its ← items (e_tree e); Some <$> index its (e_index e - 1)
    | [] => if c_at_end c then last_item (c_tree c) else Ret None
    end.

(** ** Searching with a filter on summaries *)
Section Search.
Context (filter_node : S -> bool).

(** The inner loops: the entry's index and position and the cursor's position
    move over the summaries that are filtered out. *)
Fixpoint skip (ss : list S) (idx : nat) (epos pos : D) : nat * D * D :=
  match ss with
  | [] => (idx, epos, pos)
  | s :: ss' =>
      if filter_node s then (idx, epos, pos)
      else skip ss' (Datatypes.S idx) (dim_add epos s) (dim_add pos s)
  end.

Fixpoint forward_loop (fuel : nat) (descend : bool) (c : cursor) : res cursor :=
  let '(Cursor tree stack pos did_seek at_end) := c in
  match stack with
  | [] => Ret (Cursor tree [] pos did_seek true)
  | e :: rest =>
      match fuel with
      | O => Panic
      | Datatypes.S fuel =>
          match e_tree e with
          | Internal _ _ cs ct =>
              let '(idx, epos) :=
                if descend then (e_index e, e_position e) else (e_index e + 1, pos) in
              let '(idx, epos, pos) := skip (drop idx cs) idx epos pos in
              match ct !! idx with
              | Some subtree =>
                  stack ← push_entry (Entry subtree 0 pos) (Entry (e_tree e) idx epos :: rest);
                  forward_loop fuel true (Cursor tree stack pos did_seek at_end)
              | None => forward_loop fuel false (Cursor tree rest pos did_seek at_end)
              end
          | Leaf _ _ ss =>
              st ← (if descend then Ret (e_index e, e_position e, pos)
                    else
                      s ← index ss (e_index e);
                      mret (e_index e + 1, dim_add (e_position e) s, dim_add pos s));
              let '(idx, epos, pos) := st in
              let '(idx, epos, pos) := skip (drop idx ss) idx epos pos in
              if idx <? length ss then
                mret (Cursor tree (Entry (e_tree e) idx epos :: rest) pos did_seek at_end)
              else forward_loop fuel false (Cursor tree rest pos did_seek at_end)
          end
      end
  end.

Definition search_forward (c : cursor) : res cursor :=
  let '(Cursor tree stack pos did_seek at_end) := c in
  match stack with
  | [] =>
      stack ← (if at_end then Ret [] else push_entry (Entry tree 0 dim_zero) []);
      forward_loop (fuel_for tree) (negb at_end) (Cursor tree stack pos true at_end)
  | _ => forward_loop (fuel_for tree) false c
  end.

(** [..index]: the slice of a prefix. *)
Definition prefix {A} (l : list A) (n : nat) : res (list A) :=
  if n <=? length l then Ret (take n l) else Panic.

Fixpoint backward_loop (fuel : nat) (descending : bool) (c : cursor) : res cursor :=
  let '(Cursor tree stack pos did_seek at_end) := c in
  match stack with
  | [] => Ret c
  | e :: rest =>
      match fuel with
      | O => Panic
      | Datatypes.S fuel =>
          let pos := match rest with e' :: _ => e_position e' | [] => dim_zero end in
          if negb descending && (e_index e =? 0) then
            backward_loop fuel descending (Cursor tree rest pos did_seek at_end)
          else
            let idx := if descending then e_index e else e_index e - 1 in
            before ← prefix (child_summaries (e_tree e)) idx;
            let pos := fold_left dim_add before pos in
            let stack := Entry (e_tree e) idx pos :: rest in
            s ← index (child_summaries (e_tree e)) idx;
            let descending := filter_node s in
            match e_tree e with
            | Internal _ _ _ ct =>
                if descending then
                  t ← index ct idx;
                  last ← last_index (child_summaries t);
                  stack ← push_entry (Entry t last dim_zero) stack;
                  backward_loop fuel descending (Cursor tree stack pos did_seek at_end)
                else backward_loop fuel descending (Cursor tree stack pos did_seek at_end)
            | Leaf _ _ _ =>
                if descending then Ret (Cursor tree stack pos did_seek at_end)
                else backward_loop fuel descending (Cursor tree stack pos did_seek at_end)
            end
      end
  end.

Definition search_backward (c : cursor) : res cursor :=
  let '(Cursor tree stack pos did_seek at_end) := c in
  let at_end := at_end || negb did_seek in
  if at_end then
    let at_end := is_empty tree in
    stack ← (if at_end then Ret stack
             else
               let e := Entry tree (length (child_summaries tree))
                          (dim_add dim_zero (node_summary tree)) in
               push_entry e stack);
    backward_loop (fuel_for tree) false (Cursor tree stack dim_zero true at_end)
  else backward_loop (fuel_for tree) false (Cursor tree stack pos true at_end).
End Search.

Definition next : cursor -> res cursor := search_forward (fun _ => true).
Definition prev : cursor -> res cursor := search_backward (fun _ => true).

(** [Iterator::next] of a cursor: the item, and the cursor after it. *)
Definition cursor_next (c : cursor) : res (option T * cursor) :=
  c ← (if negb (c_did_seek c) then next c else Ret c);
  i ← item c;
  match i with
  | Some x => c ← next c; mret (Some x, c)
  | None => mret (None, c)
  end.

(** ** Seeking *)

(** [SeekAggregate]: what is done with what a seek passes. *)
Class SeekAggregate (A : Type) := {
  begin_leaf : A -> A;
  end_leaf : A -> res A;
  push_item : A -> T -> S -> res A;
  push_tree : A -> node -> S -> res A;
}.

Section Seek.
Context {A : Type} `{!SeekAggregate A}.
Context {Target : Type} `{!SeekTarget Target D}.
Context (target : Target) (bias : Bias).

(** [comparison == Greater || (comparison == Equal && bias == Right)]. *)
Definition passes (child_end : D) : bool :=
  match target_cmp target child_end, bias with
  | Gt, _ | Eq, Right => true
  | _, _ => false
  end.

(** The loop over the children of an internal node: the entry's index and
    position, the cursor's position, and the child to descend into. *)
Fixpoint seek_children (ct : list node) (cs : list S) (idx : nat) (epos pos : D) (agg : A)
    : res (nat * D * D * A * option node) :=
  match ct, cs with
  | child_tree :: ct', child_summary :: cs' =>
      let child_end := dim_add pos child_summary in
      if passes child_end then
        agg ← push_tree agg child_tree child_summary;
        seek_children ct' cs' (Datatypes.S idx) child_end child_end agg
      else Ret (idx, epos, pos, agg, Some child_tree)
  | _, _ => Ret (idx, epos, pos, agg, None)
  end.

(** The loop over the items of a leaf; [true] when it stops at an item. *)
Fixpoint seek_items (its : list T) (ss : list S) (idx : nat) (pos : D) (agg : A)
    : res (nat * D * A * bool) :=
  match its, ss with
  | item :: its', item_summary :: ss' =>
      let child_end := dim_add pos item_summary in
      if passes child_end then
        agg ← push_item agg item item_summary;
        seek_items its' ss' (Datatypes.S idx) child_end agg
      else Ret (idx, pos, agg, true)
  | _, _ => Ret (idx, pos, agg, false)
  end.

(** [index..]: the slice of a suffix. *)
Definition suffix_from {B} (l : list B) (n : nat) : res (list B) :=
  if n <=? length l then Ret (drop n l) else Panic.

Fixpoint seek_loop (fuel : nat) (ascending : bool) (c : cursor) (agg : A) : res (cursor * A) :=
  let '(Cursor tree stack pos did_seek at_end) := c in
  match stack with
  | [] => Ret (c, agg)
  | e :: rest =>
      match fuel with
      | O => Panic
      | Datatypes.S fuel =>
          match e_tree e with
          | Internal _ _ cs ct =>
              let '(idx, epos) :=
                if ascending then (e_index e + 1, pos) else (e_index e, e_position e) in
              ct ← suffix_from ct idx;
              cs ← suffix_from cs idx;
              r ← seek_children ct cs idx epos pos agg;
              let '(idx, epos, pos, agg, child) := r in
              match child with
              | Some child_tree =>
                  stack ← push_entry (Entry child_tree 0 pos) (Entry (e_tree e) idx epos :: rest);
                  seek_loop fuel false (Cursor tree stack pos did_seek at_end) agg
              | None => seek_loop fuel true (Cursor tree rest pos did_seek at_end) agg
              end
          | Leaf _ its ss =>
              let agg := begin_leaf agg in
              its ← suffix_from its (e_index e);
              ss ← suffix_from ss (e_index e);
              r ← seek_items its ss (e_index e) pos agg;
              let '(idx, pos, agg, stopped) := r in
              agg ← end_leaf agg;
              if (stopped : bool) then
                let stack := Entry (e_tree e) idx (e_position e) :: rest in
                mret (Cursor tree stack pos did_seek at_end, agg)
              else seek_loop fuel true (Cursor tree rest pos did_seek at_end) agg
          end
      end
  end.

Definition seek_internal (c : cursor) (agg : A) : res (bool * cursor * A) :=
  match target_cmp target (c_position c) with
  | Lt => Panic
  | _ =>
      let '(Cursor tree stack pos did_seek at_end) := c in
      stack ← (if did_seek then Ret stack else push_entry (Entry tree 0 dim_zero) stack);
      r ← seek_loop (fuel_for tree) false (Cursor tree stack pos true at_end) agg;
      let '(Cursor tree stack pos did_seek _, agg) := r in
      let c := Cursor tree stack pos did_seek (match stack with [] => true | _ => false end) in
      end_ ← (match bias with
              | Left =>
                  s ← item_summary c;
                  mret (match s with Some s => dim_add pos s | None => pos end)
              | Right => mret pos
              end);
      mret (is_equal target end_, c, agg)
  end.
End Seek.

(** The aggregates: none, a slice as a tree, and a measure of what is passed. *)
#[export] Instance no_aggregate : SeekAggregate unit := {
  begin_leaf a := a;
  end_leaf a := Ret a;
  push_item a _ _ := Ret a;
  push_tree a _ _ := Ret a;
}.

Record SliceSeekAggregate := Slice {
  slice_tree : node;
  leaf_items : list T;
  leaf_item_summaries : list S;
  leaf_summary : S;
}.

#[export] Instance slice_aggregate : SeekAggregate SliceSeekAggregate := {
  begin_leaf a := a;
  end_leaf a :=
    tree ← append (slice_tree a) (Leaf (leaf_summary a) (leaf_items a) (leaf_item_summaries a));
    mret (Slice tree [] [] zero);
  push_item a item summary :=
    items ← array (leaf_items a ++ [item]);
    summaries ← array (leaf_item_summaries a ++ [summary]);
    mret (Slice (slice_tree a) items summaries (add_summary (leaf_summary a) summary));
  push_tree a tree _ :=
    tree ← append (slice_tree a) tree;
    mret (Slice tree (leaf_items a) (leaf_item_summaries a) (leaf_summary a));
}.

Record SummarySeekAggregate (Output : Type) := Measure { measured : Output }.
Arguments Measure {Output} _.
Arguments measured {Output} _.

#[export] Instance summary_aggregate {Output} `{!Dimension Output S} :
  SeekAggregate (SummarySeekAggregate Output) := {
  begin_leaf a := a;
  end_leaf a := Ret a;
  push_item a _ summary := Ret (Measure (dim_add (measured a) summary));
  push_tree a _ summary := Ret (Measure (dim_add (measured a) summary));
}.

(** [End]: a target after everything. *)
Inductive End := end_new.
#[export] Instance end_target : SeekTarget End D := fun _ _ => Gt.

Section Entry_points.
Context {Target : Type} `{!SeekTarget Target D}.

Definition seek_forward (c : cursor) (pos : Target) (bias : Bias) : res (bool * cursor) :=
  r ← seek_internal pos bias c tt; mret r.1.

Definition seek (c : cursor) (pos : Target) (bias : Bias) : res (bool * cursor) :=
  seek_forward (reset c) pos bias.

Definition slice (c : cursor) (end_ : Target) (bias : Bias) : res (node * cursor) :=
  r ← seek_internal end_ bias c (Slice new [] [] zero);
  mret (slice_tree r.2, r.1.2).

Definition summary_to {Output} `{!Dimension Output S} (c : cursor) (end_ : Target) (bias : Bias)
    : res (Output * cursor) :=
  r ← seek_internal end_ bias c (Measure dim_zero);
  mret (measured r.2, r.1.2).
End Entry_points.

Definition suffix (c : cursor) : res (node * cursor) := slice c end_new Right.
End Cursor.

Arguments cursor : clear implicits.
Arguments entry : clear implicits.


(** ** Iterating ([Iter])

    The stack of an iterator has no positions. *)
Section Iter.
Context {T S : Type} `{!Summary S} `{!Item T S}.
Notation node := (node T S).
Notation entry := (entry T S unit).

Fixpoint iter_loop (fuel : nat) (descend : bool) (stack : list entry) : res (option T * list entry) :=
  match stack with
  | [] => Ret (None, [])
  | e :: rest =>
      match fuel with
      | O => Panic
      | Datatypes.S fuel =>
          let idx := if descend then e_index e else e_index e + 1 in
          let e := Entry (e_tree e) idx tt in
          match e_tree e with
          | Internal _ _ _ ct =>
              match ct !! idx with
              | Some subtree =>
                  stack ← push_entry (Entry subtree 0 tt) (e :: rest);
                  iter_loop fuel true stack
              | None => iter_loop fuel false rest
              end
          | Leaf _ its _ =>
              match its !! idx with
              | Some next_item => mret (Some next_item, e :: rest)
              | None => iter_loop fuel false rest
              end
          end
      end
  end.

Definition iter_next (tree : node) (stack : list entry) : res (option T * list entry) :=
  match stack with
  | [] =>
      stack ← push_entry (Entry tree 0 tt) [];
      iter_loop (fuel_for tree) true stack
  | _ => iter_loop (fuel_for tree) false stack
  end.

(** The items an iterator yields until its first [None]. *)
Fixpoint iter_collect (fuel : nat) (tree : node) (stack : list entry) : res (list T) :=
  match fuel with
  | O => Panic
  | Datatypes.S fuel =>
      r ← iter_next tree stack;
      match r with
      | (Some x, stack) => cons x <$> iter_collect fuel tree stack
      | (None, _) => mret []
      end
  end.

Definition iter (tree : node) : res (list T) := iter_collect (fuel_for tree) tree [].
End Iter.

(** [Iter::last] and the lower bound of [Iter::size_hint]; the index is at most the
    number of slots of the node. *)
Definition iter_last {T S} (tree : node T S) : res (option T) :=
  leaf ← rightmost_leaf tree; last <$> items leaf.

Definition size_hint {T S} (tree : node T S) (stack : list (entry T S unit)) : nat :=
  match stack with
  | top :: _ => length (child_summaries (e_tree top)) - e_index top
  | [] => length (child_summaries tree)
  end.

(** [PartialEq::eq] of trees. *)
Definition tree_eq {T S} `{!Summary S} `{!EqDecision T} (self other : node T S) : res bool :=
  l ← iter self;
  l' ← iter other;
  mret (bool_decide (l = l')).

(** The loop of [SumTree::items]. *)
Fixpoint items_loop {T S} `{!Summary S} (fuel : nat) (its : list T) (c : cursor T S unit)
    : res (list T) :=
  match fuel with
  | O => Panic
  | Datatypes.S fuel =>
      i ← item c;
      match i with
      | Some x => c ← next c; items_loop fuel (its ++ [x]) c
      | None => Ret its
      end
  end.

Definition tree_items {T S} `{!Summary S} (self : node T S) : res (list T) :=
  c ← next (cursor_new (D:=unit) self); items_loop (fuel_for self) [] c.

(** ** Filtered cursors ([FilterCursor]) *)
Section Filter.
Context {T S D : Type} `{!Summary S} `{!Dimension D S}.

Record FilterCursor := Filtered { fc_cursor : cursor T S D; fc_filter_node : S -> bool }.

Definition filter_new (tree : node T S) (filter_node : S -> bool) : FilterCursor :=
  Filtered (cursor_new tree) filter_node.
Definition filter_start (self : FilterCursor) : D := start (fc_cursor self).
Definition filter_end (self : FilterCursor) : res D := cursor_end (fc_cursor self).
Definition filter_item (self : FilterCursor) : res (option T) := item (fc_cursor self).
Definition filter_item_summary (self : FilterCursor) : res (option S) :=
  item_summary (fc_cursor self).
Definition filter_next (self : FilterCursor) : res FilterCursor :=
  c ← search_forward (fc_filter_node self) (fc_cursor self);
  mret (Filtered c (fc_filter_node self)).
Definition filter_prev (self : FilterCursor) : res FilterCursor :=
  c ← search_backward (fc_filter_node self) (fc_cursor self);
  mret (Filtered c (fc_filter_node self)).

(** [Iterator::next], and what it yields until its first [None]. *)
Definition filter_iter_next (self : FilterCursor) : res (option T * FilterCursor) :=
  self ← (if negb (c_did_seek (fc_cursor self)) then filter_next self else Ret self);
  i ← filter_item self;
  match i with
  | Some x => self ← filter_next self; mret (Some x, self)
  | None => mret (None, self)
  end.

Fixpoint filter_collect (fuel : nat) (self : FilterCursor) : res (list T) :=
  match fuel with
  | O => Panic
  | Datatypes.S fuel =>
      r ← filter_iter_next self;
      match r with
      | (Some x, self) => cons x <$> filter_collect fuel self
      | (None, _) => mret []
      end
  end.
End Filter.

(** The items a cursor yields as an iterator. *)
Fixpoint cursor_collect {T S} `{!Summary S} {D} `{!Dimension D S} (fuel : nat)
    (c : cursor T S D) : res (list T) :=
  match fuel with
  | O => Panic
  | Datatypes.S fuel =>
      r ← cursor_next c;
      match r with
      | (Some x, c) => cons x <$> cursor_collect fuel c
      | (None, _) => mret []
      end
  end.
