(* ===== verification/SumCursorSeek.v ===== *)
(** * Where a cursor stands, and seeking

    A cursor in a well-formed tree stands before its first item, at an item, or
    after its last one; seeking forward moves it past the items a scan of the list
    passes, and hands them to the aggregate. *)

From S2P Require Import Prelude SumTree SumTreeInvariant SumTreeFind SumCursor.
Local Open Scope nat_scope.

Section Places.
Context {T S : Type} `{HS : !Summary S} `{!SummaryLaws S} `{HI : !Item T S}.
Context {D : Type} `{HD : !Dimension D S} `{!DimensionSum D S}.
Notation node := (node T S).
Notation entry := (entry T S D).
Notation cursor := (cursor T S D).
Implicit Types (t : node) (e : entry) (ctx : list entry) (c : cursor).

Definition leaf_of (its : list T) : node := Leaf (total its) its (map summary its).
Definition children_of (t : node) : list node :=
  match t with Internal _ _ _ ct => ct | Leaf _ _ _ => [] end.

(** The items before and after what the entries above a node lead to. *)
Fixpoint ctx_before (ctx : list entry) : list T :=
  match ctx with
  | [] => []
  | e :: ctx' => ctx_before ctx' ++ flat_map to_list (take (e_index e) (children_of (e_tree e)))
  end.
Fixpoint ctx_after (ctx : list entry) : list T :=
  match ctx with
  | [] => []
  | e :: ctx' =>
      flat_map to_list (drop (e_index e + 1) (children_of (e_tree e))) ++ ctx_after ctx'
  end.

(** What an aggregate has been given: whole, and with the items of the leaf it is
    in. *)
Class AggregateLaws (A : Type) `{!SeekAggregate (T:=T) (S:=S) A} := {
  holds : A -> list T -> Prop;
  holds_in : A -> list T -> list T -> Prop;
  begin_leaf_ok a l : holds a l -> holds_in (begin_leaf a) l [];
  push_item_ok a l its x :
    holds_in a l its -> length its < 2 * TREE_BASE ->
    exists a', push_item a x (summary x) = Ret a' /\ holds_in a' l (its ++ [x]);
  end_leaf_ok a l its :
    holds_in a l its -> length its <= 2 * TREE_BASE ->
    exists a', end_leaf a = Ret a' /\ holds a' (l ++ its);
  push_tree_ok a l h t :
    holds a l -> good h t ->
    exists a', push_tree a t (node_summary t) = Ret a' /\ holds a' (l ++ to_list t);
}.

#[export] Program Instance no_aggregate_laws : AggregateLaws unit := {
  holds _ _ := True;
  holds_in _ _ _ := True;
}.
Solve All Obligations with by eexists.

#[export] Program Instance slice_aggregate_laws : AggregateLaws (SliceSeekAggregate (T:=T) (S:=S)) := {
  holds a l :=
    (exists h, wf h (slice_tree a)) /\ to_list (slice_tree a) = l
    /\ leaf_items a = [] /\ leaf_item_summaries a = [] /\ leaf_summary a = zero;
  holds_in a l its :=
    (exists h, wf h (slice_tree a)) /\ to_list (slice_tree a) = l
    /\ leaf_items a = its /\ leaf_item_summaries a = map summary its
    /\ leaf_summary a = total its;
}.
Next Obligation. done. Qed.
Next Obligation.
  intros [t its' ss sm] l its x (Hw & El & Ei & Es & Em) Hl. simpl in *. subst.
  change [summary x] with (map summary [x]). rewrite <-map_app.
  rewrite !array_Ret by (rewrite ?length_map, length_app; unfold TREE_BASE in *; simpl; lia).
  eexists. split; [reflexivity|]. simpl. split_and!; [done..|].
  unfold total. rewrite map_app. simpl map. by rewrite sum_app, sum_one.
Qed.
Next Obligation.
  intros [t its' ss sm] l its ([h Hw] & El & Ei & Es & Em) Hl. simpl in *. subst.
  destruct (append_ok h 0 t _ Hw (wf_leaf its Hl)) as (r & hr & -> & Hr & Er & _).
  eexists. split; [reflexivity|]. simpl. split_and!; [by exists hr|done..].
Qed.
Next Obligation.
  intros [t its' ss sm] l h t' ([h' Hw] & El & Ei & Es & Em) [Ht _]. simpl in *. subst.
  destruct (append_ok h' h t t' Hw Ht) as (r & hr & -> & Hr & Er & _).
  eexists. split; [reflexivity|]. simpl. split_and!; [by exists hr|done..].
Qed.

#[export] Program Instance summary_aggregate_laws {Output} `{!Dimension Output S}
  `{!DimensionLaws Output S} : AggregateLaws (SummarySeekAggregate Output) := {
  holds a l := measured Output a = advance dim_zero l;
  holds_in a l its := measured Output a = advance dim_zero (l ++ its);
}.
Next Obligation. intros. simpl. by rewrite app_nil_r. Qed.
Next Obligation.
  intros Output HO HOL [m] l its x E _. simpl in *. eexists. split; [reflexivity|]. simpl.
  by rewrite app_assoc, advance_snoc, E.
Qed.
Next Obligation. intros Output HO HOL [m] l its E _. by eexists. Qed.
Next Obligation.
  intros Output HO HOL [m] l h t E Hg. simpl in *. eexists. split; [reflexivity|]. simpl.
  by rewrite E, advance_app, (dim_add_good h).
Qed.

Section Root.
Context (root : node) (height : nat).

(** The entries [ctx] lead from the root to the node, of height [h]. *)
Inductive under : node -> nat -> list entry -> Prop :=
| under_root : wf height root -> under root height []
| under_child h t e ctx :
    under (e_tree e) (Datatypes.S h) ctx ->
    children_of (e_tree e) !! e_index e = Some t ->
    e_position e = advance dim_zero (ctx_before (e :: ctx)) ->
    under t h (e :: ctx).

Inductive place := Unsought | Front | At (pre : list T) (x : T) (post : list T) | Back.

Inductive at_place : cursor -> place -> Prop :=
| at_unsought : at_place (Cursor root [] dim_zero false (is_empty root)) Unsought
| at_front : to_list root <> [] -> at_place (Cursor root [] dim_zero true false) Front
| at_item ctx its idx x epos pre post :
    under (leaf_of its) 0 ctx -> its !! idx = Some x ->
    pre = ctx_before ctx ++ take idx its -> post = drop (idx + 1) its ++ ctx_after ctx ->
    at_place (Cursor root (Entry (leaf_of its) idx epos :: ctx) (advance dim_zero pre) true false)
      (At pre x post)
| at_back : at_place (Cursor root [] (advance dim_zero (to_list root)) true true) Back.

(** The place in front of [post]. *)
Definition place_of (pre post : list T) : place :=
  match post with [] => Back | x :: post' => At pre x post' end.

(** What a seek has behind it and ahead of it. *)
Definition ahead (p : place) (pre post : list T) : Prop :=
  match p with
  | Unsought => pre = [] /\ post = to_list root
  | Front => False
  | At l x r => pre = l /\ post = x :: r
  | Back => pre = to_list root /\ post = []
  end.

(** ** The path of a node *)

Lemma good_of_wf h t : wf h t -> to_list t <> [] -> good h t.
Proof. by split. Qed.

Lemma under_wf t h ctx :
  under t h ctx ->
  wf h t /\ (ctx <> [] -> to_list t <> [])
  /\ to_list root = ctx_before ctx ++ to_list t ++ ctx_after ctx
  /\ length ctx + h = height.
Proof.
  induction 1 as [Hw|h t e ctx Hu (Hw & Hn & El & Eh) Ht Hp].
  - split_and!; [done..|by rewrite app_nil_r|done].
  - apply wf_S_inv in Hw as (ct & Ee & Hne & Hl & Hct). rewrite Ee in *. cbn [children_of] in *.
    assert (Hg : good h t) by by apply (Forall_lookup_1 _ _ _ _ Hct Ht).
    split_and!; [by apply Hg|intros; apply Hg| |simpl; lia].
    rewrite El. cbn [to_list ctx_before ctx_after]. rewrite Ee. cbn [children_of].
    rewrite <-(take_drop_middle ct (e_index e) t Ht) at 1.
    rewrite flat_map_app, Nat.add_1_r. cbn [flat_map]. by rewrite <-!app_assoc.
Qed.

Lemma under_good t h ctx : under t h ctx -> to_list t <> [] -> good h t.
Proof. intros (Hw & _)%under_wf ?. by split. Qed.

Lemma under_height t h ctx : under t h ctx -> length ctx + h = height.
Proof. by intros (_ & _ & _ & E)%under_wf. Qed.

Lemma under_split t h ctx :
  under t h ctx -> to_list root = ctx_before ctx ++ to_list t ++ ctx_after ctx.
Proof. by intros (_ & _ & E & _)%under_wf. Qed.

Lemma under_leaf t ctx : under t 0 ctx -> exists its, t = leaf_of its /\ length its <= 2 * TREE_BASE.
Proof. intros [Hw _]%under_wf. by apply wf_0_inv. Qed.

Lemma under_internal t h ctx :
  under t (Datatypes.S h) ctx ->
  exists ct, t = Internal (Datatypes.S h) (sum (map node_summary ct)) (map node_summary ct) ct
    /\ ct <> [] /\ length ct <= 2 * TREE_BASE /\ Forall (good h) ct.
Proof. intros [Hw _]%under_wf. by apply wf_S_inv. Qed.

(** Going down to a child. *)
Lemma under_down h ct ctx i t epos :
  let n := Internal (Datatypes.S h) (sum (map node_summary ct)) (map node_summary ct) ct in
  under n (Datatypes.S h) ctx -> ct !! i = Some t ->
  epos = advance dim_zero (ctx_before ctx ++ flat_map to_list (take i ct)) ->
  under t h (Entry n i epos :: ctx).
Proof. intros n Hu Ht ->. by apply under_child. Qed.

Lemma push_entry_Ret e stack :
  length stack < STACK_CAPACITY -> push_entry e stack = Ret (e :: stack).
Proof. intros. unfold push_entry. by rewrite (proj2 (Nat.ltb_lt _ _)). Qed.

Lemma at_place_split c p :
  at_place c p ->
  match p with At pre x post => to_list root = pre ++ x :: post | _ => True end.
Proof.
  destruct 1 as [| |ctx its idx x epos pre post Hu Hx -> ->|]; [done..| |done].
  rewrite (under_split _ _ _ Hu). cbn [to_list leaf_of].
  rewrite <-(take_drop_middle its idx x Hx) at 1. rewrite Nat.add_1_r, <-!app_assoc. done.
Qed.

Lemma ahead_split c p pre post : at_place c p -> ahead p pre post -> pre ++ post = to_list root.
Proof.
  intros Hc Hp. pose proof (at_place_split _ _ Hc) as Hs.
  destruct p; simpl in *; [|done| |]; destruct Hp as [-> ->]; by rewrite ?app_nil_r.
Qed.

(** ** What a cursor tells of its place *)

Lemma item_ok c p :
  at_place c p ->
  item c = match p with
           | Unsought => Panic
           | At _ x _ => Ret (Some x)
           | Front | Back => Ret None
           end.
Proof.
  destruct 1 as [| |ctx its idx x epos pre post Hu Hx -> ->|]; [done..| |done].
  unfold item. cbn. pose proof (lookup_lt_Some _ _ _ Hx).
  rewrite (proj2 (Nat.eqb_neq _ _)) by lia. unfold index. by rewrite Hx.
Qed.

Lemma item_summary_ok c p :
  at_place c p ->
  item_summary c = match p with
                   | Unsought => Panic
                   | At _ x _ => Ret (Some (summary x))
                   | Front | Back => Ret None
                   end.
Proof.
  destruct 1 as [| |ctx its idx x epos pre post Hu Hx -> ->|]; [done..| |done].
  unfold item_summary. cbn. pose proof (lookup_lt_Some _ _ _ Hx). rewrite length_map.
  rewrite (proj2 (Nat.eqb_neq _ _)) by lia. unfold index.
  change (map summary its) with (summary <$> its). by rewrite list_lookup_fmap, Hx.
Qed.

Lemma start_ok c p :
  at_place c p ->
  start c = advance dim_zero match p with
                             | Unsought | Front => []
                             | At pre _ _ => pre
                             | Back => to_list root
                             end.
Proof. by destruct 1. Qed.

Lemma cursor_end_ok c p :
  at_place c p -> p <> Unsought ->
  cursor_end c = Ret (advance dim_zero match p with
                                       | Unsought | Front => []
                                       | At pre x _ => pre ++ [x]
                                       | Back => to_list root
                                       end).
Proof.
  intros Hc Hp. unfold cursor_end. rewrite (item_summary_ok c p Hc), (start_ok c p Hc).
  destruct p as [| |pre x post|]; [done..| |done]. cbn [mbind res_bind].
  by rewrite advance_snoc.
Qed.

Lemma slots_height h t : wf h t -> h < slots t.
Proof.
  revert t. induction h as [|h IH]; intros t Hw.
  - apply wf_0_inv in Hw as (its & -> & _). simpl. lia.
  - apply wf_S_inv in Hw as (ct & -> & Hne & _ & Hct). destruct ct as [|t ct]; [done|].
    apply Forall_cons in Hct as [[Ht _] _]. specialize (IH t Ht). simpl. lia.
Qed.

(** ** Seeking *)
Section Seek.
Context {A : Type} `{HA : !SeekAggregate (T:=T) (S:=S) A} `{HAL : !AggregateLaws A}.
Context {Target : Type} `{!SeekTarget Target D}.
Context (target : Target) (bias : Bias).
Notation stop := (target_in target bias).
Notation before := (before target bias).
Notation stops := (stops target bias).
Notation ordered := (ordered target).
Implicit Types a : A.

Lemma passes_stop (e : D) : passes target bias e = negb (stop e).
Proof. unfold passes, target_in. by destruct (target_cmp target e), bias. Qed.

Lemma seek_items_ok its i pos a l u :
  holds_in a l u -> length u + length its <= 2 * TREE_BASE ->
  exists a', seek_items target bias its (map summary its) i pos a
             = Ret (i + length (before pos its), advance pos (before pos its), a', stops pos its)
             /\ holds_in a' l (u ++ before pos its).
Proof.
  revert i pos a u. induction its as [|x its IH]; intros i pos a u Ha Hl.
  - exists a. cbn [seek_items map SumTreeFind.before SumTreeFind.stops length].
    by rewrite Nat.add_0_r, app_nil_r.
  - cbn [seek_items map SumTreeFind.before SumTreeFind.stops]. rewrite passes_stop.
    destruct (stop _) eqn:E; cbn [negb orb].
    + exists a. by rewrite Nat.add_0_r, app_nil_r.
    + cbn [length] in Hl. destruct (push_item_ok a l u x Ha) as (a' & -> & Ha'); [lia|].
      cbn [mbind res_bind].
      destruct (IH (Datatypes.S i) (dim_add pos (summary x)) a' (u ++ [x]) Ha') as (a'' & -> & H).
      { rewrite length_app. cbn [length]. lia. }
      exists a''. cbn [length]. rewrite Nat.add_succ_r. split; [done|].
      by rewrite <-app_assoc in H.
Qed.

Lemma seek_children_ok h ct i pos a l :
  Forall (good h) ct -> ordered pos (flat_map to_list ct) -> holds a l ->
  exists j a',
    let passed := flat_map to_list (take j ct) in
    seek_children target bias ct (map node_summary ct) i pos pos a
    = Ret (i + j, advance pos passed, advance pos passed, a', ct !! j)
    /\ holds a' (l ++ passed)
    /\ before pos (flat_map to_list ct)
       = passed ++ before (advance pos passed) (flat_map to_list (drop j ct))
    /\ ordered (advance pos passed) (flat_map to_list (drop j ct))
    /\ match ct !! j with
       | Some t => stops (advance pos passed) (to_list t) = true
                   /\ stops pos (flat_map to_list ct) = true
       | None => passed = flat_map to_list ct /\ stops pos (flat_map to_list ct) = false
       end.
Proof.
  revert i pos a l. induction ct as [|t ct IH]; intros i pos a l Hct Ho Ha.
  - exists 0, a. cbn. by rewrite Nat.add_0_r, app_nil_r.
  - apply Forall_cons in Hct as [Ht Hct]. cbn [seek_children map].
    rewrite passes_stop, (dim_add_good h) by done. cbn [flat_map] in Ho.
    pose proof (stops_end target bias _ _ (ordered_l _ _ _ _ Ho) (proj2 Ht)) as Hs.
    destruct (stop _) eqn:E; cbn [negb].
    + exists 0, a. cbn. by rewrite Nat.add_0_r, app_nil_r, stops_app, Hs.
    + destruct (push_tree_ok a l h t Ha Ht) as (a' & -> & Ha'). cbn [mbind res_bind].
      destruct (IH (Datatypes.S i) _ a' _ Hct (ordered_r _ _ _ _ Ho) Ha')
        as (j & a'' & -> & Hb & Hbf & Hor & Hj).
      exists (Datatypes.S j), a''. cbn [take drop flat_map lookup list_lookup].
      rewrite <-Nat.add_succ_comm, advance_app. split_and!; [done|by rewrite app_assoc| |done|].
      * rewrite before_app, Hs, Hbf. by rewrite app_assoc.
      * change ((t :: ct) !! Datatypes.S j) with (ct !! j).
        rewrite stops_app, Hs. destruct (ct !! j); [done|]. by destruct Hj as [-> ->].
Qed.

(** The cursor after a seek, with its flag set. *)
Definition settle c : cursor :=
  Cursor (c_tree c) (c_stack c) (c_position c) (c_did_seek c)
    (match c_stack c with [] => true | _ => false end).

(** A seek from [pos], with [pre] behind and [post] ahead, comes out where the
    scan of [post] does. *)
Definition sought (pre post : list T) (pos : D) (l : list T) (r : res (cursor * A)) : Prop :=
  exists c' a', r = Ret (c', a') /\ holds a' (l ++ before pos post)
    /\ at_place (settle c')
         (place_of (pre ++ before pos post) (drop (length (before pos post)) post)).

Lemma sought_skip pre q post pos l r :
  before pos (q ++ post) = q ++ before (advance pos q) post ->
  sought (pre ++ q) post (advance pos q) (l ++ q) r -> sought pre (q ++ post) pos l r.
Proof.
  intros E (c' & a' & Er & Ha & Hp). exists c', a'. rewrite E. split_and!; [done| |].
  - by rewrite app_assoc.
  - by rewrite length_app, drop_app_add, app_assoc.
Qed.

Definition enters (k fuel : nat) : Prop := forall t ctx a l pos at_end,
  under t k ctx -> to_list t <> [] -> pos = advance dim_zero (ctx_before ctx) ->
  ordered pos (to_list t) -> stops pos (to_list t) = true -> holds a l ->
  sought (ctx_before ctx) (to_list t ++ ctx_after ctx) pos l
    (seek_loop target bias fuel false (Cursor root (Entry t 0 pos :: ctx) pos true at_end) a).

(** What the loop does at an internal node once [i] children are behind. *)
Definition step_children fuel (n : node) (cs : list S) (ct : list node) ctx i pos at_end a :=
  r ← seek_children target bias (drop i ct) (drop i cs) i pos pos a;
  let '(idx, epos, pos, agg, child) := r in
  match child with
  | Some child_tree =>
      stack ← push_entry (Entry child_tree 0 pos) (Entry n idx epos :: ctx);
      seek_loop target bias fuel false (Cursor root stack pos true at_end) agg
  | None => seek_loop target bias fuel true (Cursor root ctx pos true at_end) agg
  end.

Lemma step_children_ok fuel k ct ctx i pos at_end a l :
  let n := Internal (Datatypes.S k) (sum (map node_summary ct)) (map node_summary ct) ct in
  let rest := flat_map to_list (drop i ct) in
  enters k fuel -> height < STACK_CAPACITY -> under n (Datatypes.S k) ctx ->
  pos = advance dim_zero (ctx_before ctx ++ flat_map to_list (take i ct)) ->
  ordered pos rest -> holds a l ->
  let r := step_children fuel n (map node_summary ct) ct ctx i pos at_end a in
  if stops pos rest
  then sought (ctx_before ctx ++ flat_map to_list (take i ct)) (rest ++ ctx_after ctx) pos l r
  else exists a', r = seek_loop target bias fuel true
                        (Cursor root ctx (advance pos rest) true at_end) a'
                  /\ holds a' (l ++ rest).
Proof.
  intros n rest Hin Hh Hu Hpos Ho Ha r. subst r.
  destruct (under_internal _ _ _ Hu) as (ct' & En & _ & _ & Hct). injection En as _ _ <-.
  unfold step_children. rewrite skipn_map.
  destruct (seek_children_ok k (drop i ct) i pos a l) as (j & a' & -> & Ha' & Hb & Ho' & Hj);
    [by apply Forall_drop|done|done|].
  cbn [mbind res_bind]. fold rest in Hb, Hj.
  set (q := flat_map to_list (take j (drop i ct))) in *.
  destruct (drop i ct !! j) as [t|] eqn:Et; cbn [mbind res_bind].
  - destruct Hj as [Hst ->]. rewrite push_entry_Ret.
    2: { pose proof (under_height _ _ _ Hu). simpl. lia. }
    cbn [mbind res_bind].
    assert (Hr : rest = q ++ to_list t ++ flat_map to_list (drop (i + j + 1) ct)).
    { unfold rest, q. rewrite <-(take_drop_middle _ j t Et) at 1.
      rewrite flat_map_app, drop_drop. simpl. by rewrite Nat.add_succ_r, Nat.add_1_r. }
    assert (Hq : flat_map to_list (take (i + j) ct) = flat_map to_list (take i ct) ++ q).
    { unfold q. rewrite <-flat_map_app. f_equal.
      rewrite <-(take_drop i (take (i + j) ct)), take_take, Nat.min_l by lia.
      rewrite skipn_firstn_comm. do 2 f_equal. lia. }
    rewrite (drop_S _ t j Et) in Ho'. cbn [flat_map] in Ho'.
    rewrite Hr, <-!app_assoc. apply sought_skip.
    { rewrite Hr in Hb. rewrite (drop_S _ t j Et) in Hb. cbn [flat_map] in Hb.
      rewrite drop_drop, Nat.add_succ_r, <-Nat.add_1_r in Hb.
      rewrite before_app in Hb |- *. destruct (stops pos q) eqn:Eq.
      - exfalso. apply (f_equal length) in Hb. rewrite length_app in Hb.
        destruct (stops_split _ _ _ _ Eq) as (x & y & E & _).
        apply (f_equal length) in E. rewrite length_app in E. simpl in E. lia.
      - done. }
    rewrite <-app_assoc, <-Hq.
    assert (Hu' : under t k (Entry n (i + j) (advance pos q) :: ctx)).
    { apply (under_down k ct); [done|by rewrite <-lookup_drop|].
      by rewrite Hpos, <-advance_app, Hq, app_assoc. }
    apply (Hin t (Entry n (i + j) (advance pos q) :: ctx)); [done| | |by apply ordered_l in Ho'|done|done].
    + by apply (under_wf _ _ _ Hu').
    + cbn [ctx_before e_tree e_index children_of n].
      by rewrite Hpos, <-advance_app, Hq, app_assoc.
  - destruct Hj as [Hq ->]. exists a'. rewrite Hq in *. by split.
Qed.

Lemma suffix_from_Ret {B} (l : list B) n : n <= length l -> suffix_from l n = Ret (drop n l).
Proof. intros. unfold suffix_from. by rewrite (proj2 (Nat.leb_le _ _)). Qed.

Lemma split_at (l p y : list T) x :
  l = p ++ x :: y ->
  l !! length p = Some x /\ take (length p) l = p /\ drop (length p) l = x :: y.
Proof.
  intros ->. split_and!; [by apply list_lookup_middle|apply take_app_length|apply drop_app_length].
Qed.

(** What the loop does at a leaf. *)
Lemma seek_leaf_ok fuel ascending its ctx idx epos pos at_end a l :
  idx <= length its -> length its <= 2 * TREE_BASE -> under (leaf_of its) 0 ctx ->
  pos = advance dim_zero (ctx_before ctx ++ take idx its) -> holds a l ->
  let rest := drop idx its in
  let r := seek_loop target bias (Datatypes.S fuel) ascending
             (Cursor root (Entry (leaf_of its) idx epos :: ctx) pos true at_end) a in
  if stops pos rest
  then sought (ctx_before ctx ++ take idx its) (rest ++ ctx_after ctx) pos l r
  else exists a', r = seek_loop target bias fuel true
                        (Cursor root ctx (advance pos rest) true at_end) a'
                  /\ holds a' (l ++ rest).
Proof.
  intros Hi Hl Hu Hpos Ha rest r. subst r. cbn [seek_loop e_tree leaf_of e_index e_position].
  rewrite !suffix_from_Ret by by rewrite ?length_map. cbn [mbind res_bind]. rewrite skipn_map.
  fold rest. destruct (seek_items_ok rest idx pos (begin_leaf a) l []) as (a' & -> & Ha').
  { by apply begin_leaf_ok. }
  { unfold rest. simpl length at 1. rewrite length_drop. lia. }
  cbn [mbind res_bind app] in *. destruct (end_leaf_ok a' l _ Ha') as (a'' & -> & Ha'').
  { destruct (stops pos rest) eqn:E.
    - destruct (stops_split _ _ _ _ E) as (x & y & Er & _). apply (f_equal length) in Er.
      rewrite length_app in Er. unfold rest at 1 in Er. rewrite length_drop in Er. simpl in Er. lia.
    - rewrite before_all by done. unfold rest. rewrite length_drop. lia. }
  cbn [mbind res_bind]. destruct (stops pos rest) eqn:E.
  - destruct (stops_split _ _ _ _ E) as (x & y & Er & _).
    eexists _, a''. split; [reflexivity|]. rewrite before_app, E. split; [done|].
    destruct (split_at _ _ _ _ Er) as (Hx & Htk & Hdr).
    assert (Hd : drop (length (before pos rest)) (rest ++ ctx_after ctx) = x :: y ++ ctx_after ctx).
    { rewrite drop_app_le; [by rewrite Hdr|].
      apply lookup_lt_Some in Hx. lia. }
    assert (Hy : y = drop (idx + length (before pos rest) + 1) its).
    { rewrite <-!drop_drop. fold rest. by rewrite Hdr. }
    assert (Ht : take (idx + length (before pos rest)) its = take idx its ++ before pos rest).
    { rewrite <-(take_drop idx its) at 1. rewrite take_app_add'.
      - fold rest. by rewrite Htk.
      - rewrite length_take. lia. }
    rewrite Hd. cbn [place_of settle c_tree c_stack c_position c_did_seek].
    rewrite Hpos, <-advance_app, <-Hpos, <-app_assoc, <-Ht. apply at_item.
    + done.
    + by rewrite <-lookup_drop.
    + done.
    + by rewrite Hy.
  - rewrite before_all in Ha'' |- * by done. by exists a''.
Qed.

Lemma seek_enters k fuel : height < STACK_CAPACITY -> k < fuel -> enters k fuel.
Proof.
  intros Hh. revert fuel. induction k as [|k IH]; intros [|fuel] Hf; [lia| |lia|];
    intros t ctx a l pos at_end Hu Hn Hpos Ho Hs Ha.
  - destruct (under_leaf _ _ Hu) as (its & -> & Hl).
    pose proof (seek_leaf_ok fuel false its ctx 0 pos pos at_end a l) as H.
    rewrite app_nil_r in H. change (drop 0 its) with (to_list (leaf_of its)) in H.
    cbv zeta in H. rewrite Hs in H. apply H; [lia|done..].
  - destruct (under_internal _ _ _ Hu) as (ct & -> & _ & _ & _).
    pose proof (step_children_ok fuel k ct ctx 0 pos at_end a l) as H.
    cbv zeta in H. change (drop 0 ct) with ct in H. rewrite app_nil_r in H.
    cbn [to_list] in Hs, Ho. rewrite Hs in H.
    cbn [seek_loop e_tree e_index e_position]. rewrite !suffix_from_Ret by apply Nat.le_0_l.
    apply H; [apply IH; lia|done..].
Qed.

(** Entering a node the scan passes. *)
Lemma seek_passes k fuel t ctx a l pos at_end :
  height < STACK_CAPACITY -> under t k ctx -> pos = advance dim_zero (ctx_before ctx) ->
  ordered pos (to_list t) -> stops pos (to_list t) = false -> holds a l -> k <= fuel ->
  exists a', seek_loop target bias (Datatypes.S fuel) false
               (Cursor root (Entry t 0 pos :: ctx) pos true at_end) a
             = seek_loop target bias fuel true
                 (Cursor root ctx (advance pos (to_list t)) true at_end) a'
             /\ holds a' (l ++ to_list t).
Proof.
  intros Hh Hu Hpos Ho Hs Ha Hf. destruct k as [|k].
  - destruct (under_leaf _ _ Hu) as (its & -> & Hl).
    pose proof (seek_leaf_ok fuel false its ctx 0 pos pos at_end a l) as H.
    rewrite app_nil_r in H. change (drop 0 its) with (to_list (leaf_of its)) in H.
    cbv zeta in H. rewrite Hs in H. apply H; [lia|done..].
  - destruct (under_internal _ _ _ Hu) as (ct & -> & _ & _ & _).
    pose proof (step_children_ok fuel k ct ctx 0 pos at_end a l) as H.
    cbv zeta in H. change (drop 0 ct) with ct in H. rewrite app_nil_r in H.
    cbn [to_list] in Hs, Ho. rewrite Hs in H.
    cbn [seek_loop e_tree e_index e_position]. rewrite !suffix_from_Ret by apply Nat.le_0_l.
    apply H; [apply seek_enters; [done|lia]|done..].
Qed.

(** Going on above a node that has been passed. *)
Lemma seek_resumes ctx k fuel t a l pos at_end :
  height < STACK_CAPACITY -> under t k ctx ->
  pos = advance dim_zero (ctx_before ctx ++ to_list t) ->
  ordered pos (ctx_after ctx) -> holds a l -> length ctx + height < fuel ->
  sought (ctx_before ctx ++ to_list t) (ctx_after ctx) pos l
    (seek_loop target bias fuel true (Cursor root ctx pos true at_end) a).
Proof.
  intros Hh. revert k fuel t a l pos.
  induction ctx as [|e ctx IH]; intros k [|fuel] t a l pos Hu Hpos Ho Ha Hf; try lia.
  - eexists _, a. split; [reflexivity|]. cbn. rewrite !app_nil_r. split; [done|].
    rewrite Hpos. pose proof (under_split _ _ _ Hu) as E. simpl in E. rewrite app_nil_r in E.
    simpl. rewrite <-E. apply at_back.
  - inversion Hu as [|k' t' e' ctx' Hu' Ht Hp]; subst k' t' e' ctx'.
    destruct (under_internal _ _ _ Hu') as (ct & En & _ & _ & _).
    destruct e as [n i ep]. cbn [e_tree e_index e_position] in *. subst n.
    cbn [children_of] in Ht. pose proof (lookup_lt_Some _ _ _ Ht) as Hi.
    cbn [seek_loop e_tree e_index e_position ctx_after ctx_before children_of] in *.
    rewrite !suffix_from_Ret by (rewrite ?length_map; lia). cbn [mbind res_bind].
    assert (Hpre : (ctx_before ctx ++ flat_map to_list (take i ct)) ++ to_list t
                   = ctx_before ctx ++ flat_map to_list (take (i + 1) ct)).
    { rewrite Nat.add_1_r, (take_S_r _ _ t) by done. rewrite flat_map_app. simpl.
      by rewrite app_nil_r, app_assoc. }
    rewrite Hpre in *.
    pose proof (step_children_ok fuel k ct ctx (i + 1) pos at_end a l
      (seek_enters k fuel Hh ltac:(pose proof (under_height _ _ _ Hu'); lia)) Hh Hu' Hpos
      (ordered_l _ _ _ _ Ho) Ha) as H.
    cbv zeta in H. destruct (stops pos _) eqn:E; [exact H|].
    destruct H as (a' & Hr & Ha'). unfold step_children in Hr. rewrite Hr.
    apply sought_skip; [by rewrite before_app, E|].
    assert (Hall : (ctx_before ctx ++ flat_map to_list (take (i + 1) ct))
                   ++ flat_map to_list (drop (i + 1) ct)
                   = ctx_before ctx ++ to_list (Internal (Datatypes.S k)
                       (sum (map node_summary ct)) (map node_summary ct) ct)).
    { by rewrite <-app_assoc, <-flat_map_app, take_drop. }
    rewrite Hall. apply (IH (Datatypes.S k)); [done| | |done|simpl in Hf; lia].
    + by rewrite Hpos, <-advance_app, Hall.
    + by apply ordered_r in Ho.
Qed.

Lemma seek_loop_ok c p pre post a l :
  height < STACK_CAPACITY -> wf height root -> at_place c p -> ahead p pre post ->
  ordered (advance dim_zero pre) post -> holds a l ->
  let stack := if c_did_seek c then c_stack c else [Entry root 0 dim_zero] in
  sought pre post (advance dim_zero pre) l
    (seek_loop target bias (fuel_for root) false
       (Cursor root stack (c_position c) true (c_at_end c)) a).
Proof.
  intros Hh Hw Hc Hp Ho Ha. pose proof (slots_height _ _ Hw) as Hsl.
  assert (Hf : exists f, fuel_for root = Datatypes.S f /\ 2 * height + 2 < f).
  { exists (2 * slots root + STACK_CAPACITY + 1). unfold fuel_for, STACK_CAPACITY. lia. }
  destruct Hf as (f & -> & Hf).
  destruct Hc as [| |ctx its idx x epos pre' post' Hu Hx -> ->|];
    cbn [c_did_seek c_stack c_position c_at_end]; [| done| |].
  - destruct Hp as [-> ->]. cbn [advance fold_left] in *.
    destruct (stops dim_zero (to_list root)) eqn:E.
    + rewrite <-(app_nil_r (to_list root)).
      apply (seek_enters height (Datatypes.S f) Hh ltac:(lia) root []); try done; [by apply under_root|].
      intros En. by rewrite En in E.
    + destruct (seek_passes height f root [] a l dim_zero (is_empty root)) as (a'' & -> & Ha'');
        [done|by apply under_root|done|done|done|done|lia|].
      rewrite <-(app_nil_r (to_list root)) at 1. apply sought_skip; [by rewrite before_app, E|].
      apply (seek_resumes [] height); try done; [by apply under_root|apply ordered_nil|simpl; lia].
  - destruct Hp as [-> ->]. destruct (under_leaf _ _ Hu) as (its' & Eits & Hl).
    injection Eits as _ <- _. rewrite app_comm_cons in Ho |- *.
    rewrite Nat.add_1_r, <-(drop_S _ x idx) in Ho |- * by done.
    assert (Hi : idx <= length its) by (apply lookup_lt_Some in Hx; lia).
    pose proof (seek_leaf_ok f false its ctx idx epos _ false a l
      Hi Hl Hu eq_refl Ha) as H.
    cbv zeta in H. destruct (stops _ (drop idx its)) eqn:E; [exact H|].
    destruct H as (a' & -> & Ha'). apply sought_skip; [by rewrite before_app, E|].
    assert (Hall : (ctx_before ctx ++ take idx its) ++ drop idx its
                   = ctx_before ctx ++ to_list (leaf_of its))
      by by rewrite <-app_assoc, take_drop.
    rewrite Hall. apply (seek_resumes ctx 0); try done.
    + by rewrite <-advance_app, Hall.
    + by apply ordered_r in Ho.
    + pose proof (under_height _ _ _ Hu). lia.
  - destruct Hp as [-> ->]. eexists _, a. split; [reflexivity|]. cbn. rewrite !app_nil_r.
    split; [done|]. apply at_back.
Qed.

(** Whether a seek found its target. *)
Definition hit (pre post : list T) : bool :=
  is_equal target (advance dim_zero
    match bias, post with Left, x :: _ => pre ++ [x] | _, _ => pre end).

Lemma seek_internal_ok c p pre post a :
  height < STACK_CAPACITY -> wf height root -> at_place c p -> ahead p pre post ->
  target_cmp target (advance dim_zero pre) <> Lt -> ordered (advance dim_zero pre) post ->
  holds a [] ->
  let b := before (advance dim_zero pre) post in
  let rest := drop (length b) post in
  exists c' a',
    seek_internal target bias c a = Ret (hit (pre ++ b) rest, c', a')
    /\ holds a' b /\ at_place c' (place_of (pre ++ b) rest).
Proof.
  intros Hh Hw Hc Hp Hlt Ho Ha b rest.
  assert (Hpos : c_position c = advance dim_zero pre).
  { destruct Hc as [| |? its ? ? ? ? ? ? ? -> ->|]; [|done| |]; by destruct Hp as [-> _]. }
  destruct (seek_loop_ok c p pre post a [] Hh Hw Hc Hp Ho Ha) as (c' & a' & Er & Ha' & Hc').
  exists (settle c'), a'. split; [|by split].
  unfold seek_internal. rewrite Hpos.
  pose proof (ahead_split c p pre post Hc Hp) as Hsplit.
  assert (Htree : c_tree c = root) by by destruct Hc.
  assert (Hst : (if c_did_seek c then Ret (c_stack c)
                 else push_entry (Entry (c_tree c) 0 dim_zero) (c_stack c))
                = Ret (if c_did_seek c then c_stack c else [Entry root 0 dim_zero]))
    by by destruct Hc.
  destruct c as [tree stack pos did_seek at_end]. cbn [c_tree c_stack c_position c_did_seek c_at_end] in *.
  subst tree. rewrite Hst. cbn [mbind res_bind]. rewrite Er.
  assert (Hpos' : c_position c' = advance dim_zero (pre ++ b)).
  { change (c_position c') with (start (settle c')). rewrite (start_ok _ _ Hc'). fold b rest.
    pose proof (before_prefix target bias (advance dim_zero pre) post) as Epost. fold b rest in Epost.
    destruct rest as [|y rest'] eqn:Erest; cbn [place_of]; [|done].
    rewrite app_nil_r in Epost. by rewrite <-Epost, Hsplit. }
  pose proof (item_summary_ok _ _ Hc') as Hi. fold b rest in Hi.
  destruct c' as [tree' stack' pos' did_seek' at_end']. cbn [c_position] in Hpos'. subst pos'.
  unfold settle in Hi |- *. cbn [c_tree c_stack c_position c_did_seek] in *. unfold hit.
  destruct (target_cmp target (advance dim_zero pre)); [|done|];
    (cbn [mbind res_bind]; destruct bias; rewrite ?Hi; [|done];
     destruct rest as [|y rest']; cbn [place_of mbind res_bind mret res_ret];
     [done|by rewrite advance_snoc]).
Qed.
End Seek.

(** ** The entry points *)

Lemma cursor_reset_ok c p : at_place c p -> at_place (reset c) Unsought.
Proof. intros Hc. assert (Ht : c_tree c = root) by by destruct Hc. unfold reset. rewrite Ht. apply at_unsought. Qed.

Lemma new_at_place : at_place (cursor_new root) Unsought.
Proof. apply at_unsought. Qed.

Section Target.
Context {Target : Type} `{!SeekTarget Target D}.
Context (target : Target) (bias : Bias) (c : cursor) (p : place) (pre post : list T).
Context (Hh : height < STACK_CAPACITY) (Hw : wf height root) (Hc : at_place c p).

(** The condition under which seeking on from [pre] is defined and is a scan. *)
Definition seekable (pre post : list T) : Prop :=
  target_cmp target (advance dim_zero pre) <> Lt /\ ordered target (advance dim_zero pre) post.

(** The items passed and those left. *)
Definition passed : list T := before target bias (advance dim_zero pre) post.
Definition left_over : list T := drop (length passed) post.

Lemma seek_forward_ok :
  ahead p pre post -> seekable pre post ->
  exists c', seek_forward c target bias = Ret (hit target bias (pre ++ passed) left_over, c')
             /\ at_place c' (place_of (pre ++ passed) left_over).
Proof.
  intros Hp [H1 H2].
  destruct (seek_internal_ok target bias c p pre post tt Hh Hw Hc Hp H1 H2)
    as (c' & [] & E & _ & Hc'); [exact I|]. exists c'. unfold seek_forward. rewrite E. by split.
Qed.

Lemma slice_ok :
  ahead p pre post -> seekable pre post ->
  exists t h c', slice c target bias = Ret (t, c') /\ wf h t /\ to_list t = passed
                 /\ at_place c' (place_of (pre ++ passed) left_over).
Proof.
  intros Hp [H1 H2].
  destruct (seek_internal_ok target bias c p pre post (Slice new [] [] zero) Hh Hw Hc Hp H1 H2)
    as (c' & [t its ss sm] & E & Ha & Hc').
  { simpl. split_and!; [exists 0; exact new_ok|done..]. }
  destruct Ha as ([h Hw'] & El & _). exists t, h, c'. unfold slice. rewrite E. by split_and!.
Qed.

Lemma summary_to_ok {Output} `{!Dimension Output S} `{!DimensionLaws Output S} :
  ahead p pre post -> seekable pre post ->
  exists c', summary_to (Output:=Output) c target bias = Ret (advance dim_zero passed, c')
             /\ at_place c' (place_of (pre ++ passed) left_over).
Proof.
  intros Hp [H1 H2].
  destruct (seek_internal_ok target bias c p pre post (Measure Output dim_zero)
              Hh Hw Hc Hp H1 H2) as (c' & [m] & E & Ha & Hc'); [reflexivity|].
  exists c'. unfold summary_to. rewrite E. cbn [mbind res_bind measured fst snd mret res_ret].
  split; [|done]. simpl in Ha. by rewrite Ha.
Qed.
End Target.

Lemma seek_ok {Target} `{!SeekTarget Target D} (target : Target) bias c p :
  height < STACK_CAPACITY -> wf height root -> at_place c p ->
  seekable target [] (to_list root) ->
  let b := before target bias dim_zero (to_list root) in
  let rest := drop (length b) (to_list root) in
  exists c', seek c target bias = Ret (hit target bias b rest, c') /\ at_place c' (place_of b rest).
Proof.
  intros Hh Hw Hc Hs b rest.
  exact (seek_forward_ok target bias (reset c) Unsought [] (to_list root) Hh Hw
           (cursor_reset_ok c p Hc) (conj eq_refl eq_refl) Hs).
Qed.

Lemma before_end d l : before end_new Right d l = l.
Proof. revert d. induction l as [|x l IH]; intros d; [done|]. simpl. by rewrite IH. Qed.

Lemma suffix_ok c p pre post :
  height < STACK_CAPACITY -> wf height root -> at_place c p -> ahead p pre post ->
  exists t h c', suffix c = Ret (t, c') /\ wf h t /\ to_list t = post /\ at_place c' Back.
Proof.
  intros Hh Hw Hc Hp. unfold suffix.
  destruct (slice_ok end_new Right c p pre post Hh Hw Hc Hp) as (t & h & c' & E & Ht & El & Hc').
  { split; [done|]. by intros ? ? ?. }
  unfold left_over, passed in *. rewrite before_end, drop_all in *.
  by exists t, h, c'.
Qed.
End Root.
End Places.
