(* ===== verification/SumCursorSearch.v ===== *)
(** * Moving a cursor by a filter

    Searching forward stops at the first later item the filter keeps, searching
    backward at the last earlier one, whatever subtrees the filter prunes; [next]
    and [prev] are the searches that keep everything. *)

From S2P Require Import Prelude SumTree SumTreeInvariant SumTreeFind SumCursor SumCursorSeek.
Local Open Scope nat_scope.

(** ** The first and the last item kept *)
Section Matches.
Context {T : Type} (f : T -> bool).

Fixpoint first_match (l : list T) : option (list T * T * list T) :=
  match l with
  | [] => None
  | x :: l' =>
      if f x then Some ([], x, l')
      else match first_match l' with Some (p, y, q) => Some (x :: p, y, q) | None => None end
  end.

Fixpoint last_match (l : list T) : option (list T * T * list T) :=
  match l with
  | [] => None
  | x :: l' =>
      match last_match l' with
      | Some (p, y, q) => Some (x :: p, y, q)
      | None => if f x then Some ([], x, l') else None
      end
  end.

Lemma first_match_app l1 l2 :
  first_match (l1 ++ l2)
  = match first_match l1 with
    | Some (p, x, q) => Some (p, x, q ++ l2)
    | None => match first_match l2 with Some (p, x, q) => Some (l1 ++ p, x, q) | None => None end
    end.
Proof.
  induction l1 as [|x l1 IH]; simpl; [by destruct (first_match l2) as [[[p x] q]|]|].
  destruct (f x); [done|]. rewrite IH. destruct (first_match l1) as [[[p y] q]|]; [done|].
  by destruct (first_match l2) as [[[p y] q]|].
Qed.

Lemma last_match_app l1 l2 :
  last_match (l1 ++ l2)
  = match last_match l2 with
    | Some (p, x, q) => Some (l1 ++ p, x, q)
    | None => match last_match l1 with Some (p, x, q) => Some (p, x, q ++ l2) | None => None end
    end.
Proof.
  induction l1 as [|x l1 IH]; simpl; [by destruct (last_match l2) as [[[p x] q]|]|].
  rewrite IH. destruct (last_match l2) as [[[p y] q]|]; [done|].
  destruct (last_match l1) as [[[p y] q]|]; [done|]. by destruct (f x).
Qed.

Lemma first_match_split l p x q : first_match l = Some (p, x, q) -> l = p ++ x :: q /\ f x = true.
Proof.
  revert p x q. induction l as [|y l IH]; intros p x q; simpl; [done|].
  destruct (f y) eqn:E; [intros [= <- <- <-]; done|].
  destruct (first_match l) as [[[p' x'] q']|]; [|done]. intros [= <- <- <-].
  by destruct (IH _ _ _ eq_refl) as [-> ?].
Qed.

Lemma last_match_split l p x q : last_match l = Some (p, x, q) -> l = p ++ x :: q /\ f x = true.
Proof.
  revert p x q. induction l as [|y l IH]; intros p x q; simpl; [done|].
  destruct (last_match l) as [[[p' x'] q']|].
  - intros [= <- <- <-]. by destruct (IH _ _ _ eq_refl) as [-> ?].
  - destruct (f y) eqn:E; [|done]. by intros [= <- <- <-].
Qed.

Lemma no_first_match l : (forall x, In x l -> f x = false) -> first_match l = None.
Proof.
  induction l as [|x l IH]; intros H; [done|]. simpl. rewrite (H x) by by left.
  rewrite IH; [done|]. intros y Hy. apply H. by right.
Qed.

Lemma no_last_match l : (forall x, In x l -> f x = false) -> last_match l = None.
Proof.
  induction l as [|x l IH]; intros H; [done|]. simpl.
  rewrite IH by (intros y Hy; apply H; by right). by rewrite (H x) by by left.
Qed.
End Matches.

Section Search.
Context {T S : Type} `{HS : !Summary S} `{!SummaryLaws S} `{HI : !Item T S}.
Context {D : Type} `{HD : !Dimension D S} `{!DimensionSum D S}.
Context (root : node T S) (height : nat).
Context (filter_node : S -> bool).
Notation node := (node T S).
Notation entry := (entry T S D).
Notation cursor := (cursor T S D).
Notation under := (under (D:=D) root height).
Notation at_place := (at_place (D:=D) root height).
Implicit Types (t : node) (e : entry) (ctx : list entry) (c : cursor).

(** The filter keeps a summary when it keeps an item below. *)
Definition keeps (x : T) : bool := filter_node (summary x).
Definition covers : Prop := forall l x, In x l -> keeps x = true -> filter_node (total l) = true.

Context (Hcov : covers) (Hh : height < STACK_CAPACITY) (Hw : wf height root).
Notation first_kept := (first_match keeps).
Notation last_kept := (last_match keeps).

Lemma pruned h t :
  good h t -> filter_node (node_summary t) = false -> forall x, In x (to_list t) -> keeps x = false.
Proof.
  intros [Ht _] Hf x Hx. destruct (keeps x) eqn:E; [|done].
  rewrite (node_summary_total h t Ht), (Hcov _ _ Hx E) in Hf. done.
Qed.

Definition total_slots (l : list node) : nat := list_sum (map slots l).

(** ** Forward *)

Lemma forward_loop_nil fuel b t pos did_seek at_end :
  forward_loop filter_node fuel b (Cursor t [] pos did_seek at_end)
  = Ret (Cursor t [] pos did_seek true).
Proof. by destruct fuel. Qed.

(** What a loop that enters the items [l] gives: the first one kept, or the same
    loop above. *)
Definition searched (pre l post : list T) (f : nat) ctx (r : res cursor) : Prop :=
  match first_kept l with
  | Some (p, x, q) => exists c', r = Ret c' /\ at_place c' (At (pre ++ p) x (q ++ post))
  | None => exists f', f <= f'
      /\ r = forward_loop filter_node f' false
               (Cursor root ctx (advance dim_zero (pre ++ l)) true false)
  end.

Definition scan_children fuel (n : node) (cs : list S) (ct : list node) ctx i pos :=
  let '(idx, epos, pos) := skip filter_node (drop i cs) i pos pos in
  match ct !! idx with
  | Some subtree =>
      stack ← push_entry (Entry subtree 0 pos) (Entry n idx epos :: ctx);
      forward_loop filter_node fuel true (Cursor root stack pos true false)
  | None => forward_loop filter_node fuel false (Cursor root ctx pos true false)
  end.

Definition enters_forward (k : nat) : Prop := forall t ctx fuel f pos,
  under t k ctx -> pos = advance dim_zero (ctx_before ctx) -> 2 * slots t + f <= fuel + 1 ->
  searched (ctx_before ctx) (to_list t) (ctx_after ctx) f ctx
    (forward_loop filter_node fuel true (Cursor root (Entry t 0 pos :: ctx) pos true false)).

Lemma scan_children_ok k ct ctx i rest fuel f pos :
  let n := Internal (Datatypes.S k) (sum (map node_summary ct)) (map node_summary ct) ct in
  enters_forward k -> under n (Datatypes.S k) ctx -> drop i ct = rest -> i <= length ct ->
  pos = advance dim_zero (ctx_before ctx ++ flat_map to_list (take i ct)) ->
  2 * total_slots rest + f <= fuel ->
  searched (ctx_before ctx ++ flat_map to_list (take i ct)) (flat_map to_list rest)
    (ctx_after ctx) f ctx
    (scan_children fuel n (map node_summary ct) ct ctx i pos).
Proof.
  intros n Hin Hu. revert i fuel pos.
  destruct (under_internal _ _ _ _ _ Hu) as (ct' & En & _ & _ & Hct). injection En as _ _ <-.
  induction rest as [|t rest IH]; intros i fuel pos Hd Hi Hpos Hf.
  - unfold scan_children, searched. rewrite skipn_map, Hd. cbn [map skip flat_map first_match].
    assert (i = length ct) as ->.
    { apply (f_equal length) in Hd. rewrite length_drop in Hd. simpl in Hd. lia. }
    rewrite lookup_ge_None_2 by done. exists fuel. split; [simpl in Hf; lia|].
    by rewrite app_nil_r, Hpos.
  - assert (Ht : ct !! i = Some t).
    { rewrite <-(Nat.add_0_r i), <-lookup_drop, Hd. done. }
    assert (Hg : good k t) by exact (Forall_lookup_1 _ _ _ _ Hct Ht).
    assert (Hd' : drop (Datatypes.S i) ct = rest).
    { rewrite <-Nat.add_1_r, <-drop_drop, Hd. done. }
    assert (Htk : flat_map to_list (take (Datatypes.S i) ct)
                  = flat_map to_list (take i ct) ++ to_list t).
    { rewrite (take_S_r _ _ t Ht), flat_map_app. simpl. by rewrite app_nil_r. }
    assert (Hi' : Datatypes.S i <= length ct) by by apply lookup_lt_Some in Ht.
    cbn [total_slots map list_sum fold_right] in Hf. unfold total_slots, list_sum in IH, Hf.
    cbn [map fold_right] in Hf.
    assert (Hnext : forall fuel', 2 * fold_right Nat.add 0 (map slots rest) + f <= fuel' ->
      first_kept (to_list t) = None ->
      searched (ctx_before ctx ++ flat_map to_list (take i ct))
        (flat_map to_list (t :: rest)) (ctx_after ctx) f ctx
        (scan_children fuel' n (map node_summary ct) ct ctx (Datatypes.S i)
           (advance pos (to_list t)))).
    { intros fuel' Hf' Hno.
      pose proof (IH (Datatypes.S i) fuel' (advance pos (to_list t)) Hd' Hi') as H.
      rewrite Htk, app_assoc in H. unfold searched in *. cbn [flat_map].
      rewrite first_match_app, Hno.
      rewrite Hpos, <-advance_app in H |- *. specialize (H eq_refl Hf').
      destruct (first_kept (flat_map to_list rest)) as [[[p x] q]|].
      - by rewrite !app_assoc.
      - by rewrite !app_assoc. }
    destruct (filter_node (node_summary t)) eqn:E.
    + assert (Hs : scan_children fuel n (map node_summary ct) ct ctx i pos
                   = forward_loop filter_node fuel true
                       (Cursor root (Entry t 0 pos :: Entry n i pos :: ctx) pos true false)).
      { unfold scan_children. rewrite skipn_map, Hd. cbn [map skip]. rewrite E, Ht.
        pose proof (under_height _ _ _ _ _ Hu).
        by rewrite push_entry_Ret by (cbn [length]; lia). }
      rewrite Hs.
      assert (Hu' : under t k (Entry n i pos :: ctx)) by by apply (under_down root height k ct).
      assert (Hpos' : pos = advance dim_zero (ctx_before (Entry n i pos :: ctx))) by done.
      pose proof (Hin t (Entry n i pos :: ctx) fuel
        (1 + (2 * fold_right Nat.add 0 (map slots rest) + f)) pos Hu' Hpos' ltac:(lia)) as H.
      cbn [ctx_before ctx_after e_tree e_index children_of n] in H. unfold searched in H.
      destruct (first_kept (to_list t)) as [[[p x] q]|] eqn:Ek.
      * unfold searched. cbn [flat_map]. rewrite first_match_app, Ek.
        by rewrite <-(app_assoc q), <-Hd', <-Nat.add_1_r.
      * destruct H as ([|f'] & Hf' & ->); [lia|].
        cbn [forward_loop e_tree e_index n]. rewrite Nat.add_1_r, advance_app, <-Hpos.
        apply Hnext; [lia|done].
    + assert (Hs : scan_children fuel n (map node_summary ct) ct ctx i pos
                   = scan_children fuel n (map node_summary ct) ct ctx (Datatypes.S i)
                       (advance pos (to_list t))).
      { unfold scan_children. rewrite !skipn_map, Hd, Hd'. cbn [map skip]. rewrite E.
        by rewrite (dim_add_good k). }
      rewrite Hs. apply Hnext; [lia|]. apply no_first_match. by apply (pruned k).
Qed.

(** The loop over the summaries of a leaf. *)
Lemma skip_items l i epos pos :
  skip filter_node (map summary l) i epos pos
  = match first_kept l with
    | Some (p, _, _) => (i + length p, advance epos p, advance pos p)
    | None => (i + length l, advance epos l, advance pos l)
    end.
Proof.
  revert i epos pos. induction l as [|x l IH]; intros i epos pos; simpl; [by rewrite Nat.add_0_r|].
  unfold keeps. destruct (filter_node (summary x)); simpl; [by rewrite Nat.add_0_r|].
  rewrite IH. fold keeps. destruct (first_kept l) as [[[p y] q]|]; simpl; by rewrite Nat.add_succ_r.
Qed.

Definition scan_leaf fuel (n : node) (ss : list S) ctx i epos pos :=
  let '(idx, epos, pos) := skip filter_node (drop i ss) i epos pos in
  if idx <? length ss then mret (Cursor root (Entry n idx epos :: ctx) pos true false)
  else forward_loop filter_node fuel false (Cursor root ctx pos true false).

Lemma scan_leaf_ok its ctx i fuel epos pos :
  under (leaf_of its) 0 ctx -> i <= length its ->
  pos = advance dim_zero (ctx_before ctx ++ take i its) ->
  searched (ctx_before ctx ++ take i its) (drop i its) (ctx_after ctx) fuel ctx
    (scan_leaf fuel (leaf_of its) (map summary its) ctx i epos pos).
Proof.
  intros Hu Hi Hpos. unfold scan_leaf, searched. rewrite skipn_map, skip_items, length_map.
  destruct (first_kept (drop i its)) as [[[p x] q]|] eqn:E.
  - apply first_match_split in E as [E _].
    destruct (split_at _ _ _ _ E) as (Hx & Htk & Hdr). rewrite lookup_drop in Hx.
    rewrite (proj2 (Nat.ltb_lt _ _)) by by eapply lookup_lt_Some.
    eexists. split; [reflexivity|]. rewrite Hpos, <-advance_app. apply at_item; [done|done| |].
    + rewrite <-app_assoc. f_equal. rewrite <-(take_drop i its) at 2.
      rewrite take_app_add' by (rewrite length_take; lia). by rewrite Htk.
    + rewrite <-!drop_drop, Hdr. done.
  - rewrite length_drop, (proj2 (Nat.ltb_ge _ _)) by lia. exists fuel. split; [done|].
    by rewrite Hpos, <-advance_app.
Qed.

Lemma forward_enters k : enters_forward k.
Proof.
  induction k as [|k IH]; intros t ctx [|fuel] f pos Hu Hpos Hf;
    try (destruct t; simpl in Hf; lia).
  - destruct (under_leaf _ _ _ _ Hu) as (its & -> & _).
    pose proof (scan_leaf_ok its ctx 0 fuel pos pos Hu ltac:(lia)) as H.
    rewrite app_nil_r in H. specialize (H Hpos).
    unfold searched in *. change (drop 0 its) with (to_list (leaf_of its)) in H.
    change (forward_loop filter_node (Datatypes.S fuel) true
      (Cursor root (Entry (leaf_of its) 0 pos :: ctx) pos true false))
      with (scan_leaf fuel (leaf_of its) (map summary its) ctx 0 pos pos).
    destruct (first_kept (to_list (leaf_of its))) as [[[p x] q]|]; [done|].
    destruct H as (f' & Hf' & E). exists f'. split; [|done]. simpl in Hf. lia.
  - destruct (under_internal _ _ _ _ _ Hu) as (ct & -> & _ & _ & _).
    pose proof (scan_children_ok k ct ctx 0 ct fuel f pos IH Hu eq_refl ltac:(lia)) as H.
    rewrite app_nil_r in H. apply H; [done|].
    cbn [slots] in Hf. unfold total_slots. lia.
Qed.

(** Going on above. *)
Fixpoint slots_above ctx : nat :=
  match ctx with
  | [] => 0
  | e :: ctx' =>
      1 + 2 * total_slots (drop (e_index e + 1) (children_of (e_tree e))) + slots_above ctx'
  end.

Lemma slots_above_le t k ctx : under t k ctx -> slots_above ctx + 2 * slots t <= 2 * slots root.
Proof.
  induction 1 as [Hr|k t e ctx Hu IH Ht Hp]; [simpl; lia|].
  destruct (under_internal _ _ _ _ _ Hu) as (ct & En & _ & _ & _).
  cbn [slots_above]. rewrite En in *. cbn [children_of slots] in *.
  assert (Hsum : total_slots (drop (e_index e + 1) ct) + slots t <= list_sum (map slots ct)).
  { rewrite <-(take_drop_middle ct (e_index e) t Ht) at 2.
    rewrite map_app, list_sum_app, Nat.add_1_r. unfold total_slots. simpl. lia. }
  lia.
Qed.

Definition moved_forward (pre post : list T) (r : res cursor) : Prop :=
  exists c', r = Ret c' /\ at_place c' match first_kept post with
                                       | Some (p, x, q) => At (pre ++ p) x q
                                       | None => Back
                                       end.

(** From inside a node to above it. *)
Lemma moved_of_searched pre l post f ctx r :
  searched pre l post f ctx r ->
  (forall f', f <= f' -> moved_forward (pre ++ l) post
     (forward_loop filter_node f' false
        (Cursor root ctx (advance dim_zero (pre ++ l)) true false))) ->
  moved_forward pre (l ++ post) r.
Proof.
  unfold searched, moved_forward. rewrite first_match_app.
  destruct (first_kept l) as [[[p x] q]|]; [done|]. intros (f' & Hf & ->) H.
  destruct (H f' Hf) as (c' & E & Hc). exists c'. split; [done|].
  destruct (first_kept post) as [[[p x] q]|]; [by rewrite app_assoc|done].
Qed.

Lemma forward_resumes ctx t k fuel :
  under t k ctx -> slots_above ctx <= fuel ->
  moved_forward (ctx_before ctx ++ to_list t) (ctx_after ctx)
    (forward_loop filter_node fuel false
       (Cursor root ctx (advance dim_zero (ctx_before ctx ++ to_list t)) true false)).
Proof.
  revert t k fuel. induction ctx as [|e ctx IH]; intros t k [|fuel] Hu Hf; try (simpl in Hf; lia).
  1,2: eexists; split; [reflexivity|]; cbn;
       pose proof (under_split _ _ _ _ _ Hu) as E; simpl in E; rewrite app_nil_r in E;
       rewrite <-E; apply at_back.
  inversion Hu as [|k' t' e' ctx' Hu' Ht Hp]; subst k' t' e' ctx'.
  destruct (under_internal _ _ _ _ _ Hu') as (ct & En & _ & _ & _).
  destruct e as [n i ep]. cbn [e_tree e_index e_position] in *. subst n.
  cbn [children_of] in Ht. pose proof (lookup_lt_Some _ _ _ Ht) as Hi.
  cbn [slots_above e_tree e_index children_of] in Hf.
  cbn [forward_loop e_tree e_index e_position ctx_after ctx_before children_of] in *.
  assert (Hpre : (ctx_before ctx ++ flat_map to_list (take i ct)) ++ to_list t
                 = ctx_before ctx ++ flat_map to_list (take (i + 1) ct)).
  { rewrite Nat.add_1_r, (take_S_r _ _ t) by done. rewrite flat_map_app. simpl.
    by rewrite app_nil_r, app_assoc. }
  rewrite Hpre in *.
  pose proof (scan_children_ok k ct ctx (i + 1) _ fuel (slots_above ctx) _
    (forward_enters k) Hu' eq_refl ltac:(lia) eq_refl ltac:(lia)) as H.
  apply (moved_of_searched _ _ _ _ _ _ H). intros f' Hf'.
  assert (Hall : (ctx_before ctx ++ flat_map to_list (take (i + 1) ct))
                 ++ flat_map to_list (drop (i + 1) ct)
                 = ctx_before ctx ++ to_list (Internal (Datatypes.S k)
                     (sum (map node_summary ct)) (map node_summary ct) ct)).
  { by rewrite <-app_assoc, <-flat_map_app, take_drop. }
  rewrite Hall. by apply (IH _ (Datatypes.S k)).
Qed.

(** The items a forward search looks at. *)
Definition later (p : place (T:=T)) : list T * list T :=
  match p with
  | Unsought | Front => ([], to_list root)
  | At pre x post => (pre ++ [x], post)
  | Back => (to_list root, [])
  end.

Lemma search_forward_ok c p :
  at_place c p ->
  moved_forward (later p).1 (later p).2 (search_forward filter_node c).
Proof.
  intros Hc.
  assert (Hroot : moved_forward [] (to_list root)
    (forward_loop filter_node (fuel_for root) true
       (Cursor root [Entry root 0 dim_zero] dim_zero true false))).
  { rewrite <-(app_nil_r (to_list root)).
    pose proof (forward_enters height root [] (fuel_for root) 0 dim_zero
      (under_root _ _ Hw) eq_refl ltac:(unfold fuel_for, STACK_CAPACITY; lia)) as H.
    apply (moved_of_searched _ _ _ _ _ _ H). intros f' _.
    apply (forward_resumes [] root height); [by apply under_root|apply Nat.le_0_l]. }
  destruct Hc as [|Hne|ctx its idx x epos pre post Hu Hx -> ->|]; cbn [later fst snd].
  - unfold search_forward. destruct (is_empty root) eqn:E; cbn [negb].
    + apply (is_empty_spec _ _ Hw) in E. rewrite E.
      cbn [mbind res_bind]. rewrite forward_loop_nil. eexists. split; [reflexivity|]. cbn.
      pose proof (at_back (D:=D) root height) as H. rewrite E in H. exact H.
    + exact Hroot.
  - exact Hroot.
  - pose proof (lookup_lt_Some _ _ _ Hx) as Hi. unfold search_forward.
    assert (exists f, fuel_for root = Datatypes.S f /\ 2 * slots root <= f) as (f & -> & Hf).
    { exists (2 * slots root + STACK_CAPACITY + 1). unfold fuel_for. lia. }
    cbn [forward_loop e_tree leaf_of e_index].
    assert (Hix : index (map summary its) idx = Ret (summary x)).
    { unfold index. change (map summary its) with (summary <$> its).
      by rewrite list_lookup_fmap, Hx. }
    rewrite Hix. cbn [mbind res_bind mret res_ret].
    assert (Hpre : (ctx_before ctx ++ take idx its) ++ [x] = ctx_before ctx ++ take (idx + 1) its).
    { by rewrite Nat.add_1_r, (take_S_r _ _ x), app_assoc. }
    rewrite Hpre.
    pose proof (scan_leaf_ok its ctx (idx + 1) f (dim_add epos (summary x))
      (dim_add (advance dim_zero (ctx_before ctx ++ take idx its)) (summary x))
      Hu ltac:(lia)) as H.
    rewrite <-advance_snoc, Hpre in H |- *. specialize (H eq_refl).
    apply (moved_of_searched _ _ _ _ _ _ H). intros f' Hf'.
    assert (Hall : (ctx_before ctx ++ take (idx + 1) its) ++ drop (idx + 1) its
                   = ctx_before ctx ++ to_list (leaf_of its))
      by by rewrite <-app_assoc, take_drop.
    rewrite Hall. apply (forward_resumes ctx _ 0); [done|].
    pose proof (slots_above_le _ _ _ Hu). lia.
  - unfold search_forward. cbn [mbind res_bind]. rewrite forward_loop_nil.
    eexists. split; [reflexivity|]. cbn. apply at_back.
Qed.

(** ** Backward *)

Definition found_back (pre l post : list T) (f : nat) ctx (r : res cursor) : Prop :=
  match last_kept l with
  | Some (p, x, q) => exists c', r = Ret c' /\ at_place c' (At (pre ++ p) x (q ++ post))
  | None => exists f', f <= f'
      /\ r = backward_loop filter_node f' false
               (Cursor root ctx (advance dim_zero pre) true false)
  end.

(** Entering at a slot is coming back to the slot after it. *)
Lemma backward_enter fuel n i ep ep' ctx pos pos' :
  backward_loop filter_node (Datatypes.S fuel) true
    (Cursor root (Entry n i ep :: ctx) pos true false)
  = backward_loop filter_node (Datatypes.S fuel) false
      (Cursor root (Entry n (Datatypes.S i) ep' :: ctx) pos' true false).
Proof. cbn [backward_loop negb andb e_index Nat.eqb Nat.sub]. by rewrite Nat.sub_0_r. Qed.

Lemma parent_position t k ctx :
  under t k ctx ->
  match ctx with e' :: _ => e_position e' | [] => dim_zero end = advance dim_zero (ctx_before ctx).
Proof. by destruct 1. Qed.

Lemma prefix_Ret {A} (l : list A) n : n <= length l -> prefix l n = Ret (take n l).
Proof. intros. unfold prefix. by rewrite (proj2 (Nat.leb_le _ _)). Qed.

Lemma fold_children k d ct :
  Forall (good k) ct -> fold_left dim_add (map node_summary ct) d = advance d (flat_map to_list ct).
Proof.
  revert d. induction ct as [|t ct IH]; intros d H; [done|]. apply Forall_cons in H as [Ht H].
  simpl. by rewrite (dim_add_good k), IH, advance_app.
Qed.

Lemma fold_items d l : fold_left dim_add (map summary l) d = advance d l.
Proof. revert d. induction l as [|x l IH]; intros d; [done|]. apply IH. Qed.

Lemma back_pop fuel n ep ctx t k pos :
  under t k ctx ->
  backward_loop filter_node (Datatypes.S fuel) false
    (Cursor root (Entry n 0 ep :: ctx) pos true false)
  = backward_loop filter_node fuel false
      (Cursor root ctx (advance dim_zero (ctx_before ctx)) true false).
Proof. intros Hu. cbn [backward_loop negb andb e_index Nat.eqb]. by rewrite (parent_position t k). Qed.

Lemma slots_pos t : 0 < slots t.
Proof. destruct t; simpl; lia. Qed.

Lemma child_summaries_ne h t : good h t -> child_summaries t <> [].
Proof.
  intros [Hw' Hn]. destruct h as [|h].
  - apply wf_0_inv in Hw' as ([|x its] & -> & _); [|done]. simpl in Hn. congruence.
  - apply wf_S_inv in Hw' as ([|c ct] & -> & Hne & _); done.
Qed.

Lemma back_items its ctx i fuel f ep pos :
  under (leaf_of its) 0 ctx -> i <= length its -> i + 1 + f <= fuel ->
  found_back (ctx_before ctx) (take i its) (drop i its ++ ctx_after ctx) f ctx
    (backward_loop filter_node fuel false
       (Cursor root (Entry (leaf_of its) i ep :: ctx) pos true false)).
Proof.
  intros Hu. revert fuel ep pos. induction i as [|i IH]; intros [|fuel] ep pos Hi Hf; try lia.
  - rewrite (back_pop _ _ _ _ _ _ _ Hu). exists fuel. split; [lia|done].
  - destruct (lookup_lt_is_Some_2 its i) as [x Hx]; [lia|].
    cbn [backward_loop negb andb e_index Nat.eqb e_tree leaf_of child_summaries Nat.sub].
    rewrite Nat.sub_0_r, prefix_Ret by (rewrite length_map; lia).
    rewrite (parent_position _ _ _ Hu). cbn [mbind res_bind].
    assert (Hix : index (map summary its) i = Ret (summary x)).
    { unfold index. change (map summary its) with (summary <$> its).
      by rewrite list_lookup_fmap, Hx. }
    rewrite Hix. cbn [mbind res_bind]. rewrite firstn_map, fold_items, <-advance_app.
    unfold found_back. rewrite (take_S_r _ _ x Hx), last_match_app. cbn [last_match].
    unfold keeps at 1. destruct (filter_node (summary x)).
    + eexists. split; [reflexivity|]. rewrite app_nil_r.
      apply at_item; [done|done|done|]. by rewrite Nat.add_1_r.
    + specialize (IH fuel (advance dim_zero (ctx_before ctx ++ take i its))
        (advance dim_zero (ctx_before ctx ++ take i its)) ltac:(lia) ltac:(lia)).
      unfold found_back in IH. destruct (last_kept (take i its)) as [[[p y] q]|]; [|done].
      rewrite (drop_S _ _ _ Hx) in IH. by rewrite <-(app_assoc q).
Qed.

Definition enters_back (k : nat) : Prop := forall t ctx fuel f ep pos,
  under t k ctx -> to_list t <> [] -> 2 * slots t + f <= fuel + 1 ->
  found_back (ctx_before ctx) (to_list t) (ctx_after ctx) f ctx
    (backward_loop filter_node fuel false
       (Cursor root (Entry t (length (child_summaries t)) ep :: ctx) pos true false)).

Lemma back_children k ct ctx i fuel f ep pos :
  let n := Internal (Datatypes.S k) (sum (map node_summary ct)) (map node_summary ct) ct in
  enters_back k -> under n (Datatypes.S k) ctx -> i <= length ct ->
  2 * total_slots (take i ct) + 1 + f <= fuel ->
  found_back (ctx_before ctx) (flat_map to_list (take i ct))
    (flat_map to_list (drop i ct) ++ ctx_after ctx) f ctx
    (backward_loop filter_node fuel false (Cursor root (Entry n i ep :: ctx) pos true false)).
Proof.
  intros n Hin Hu. destruct (under_internal _ _ _ _ _ Hu) as (ct' & En & _ & _ & Hct).
  injection En as _ _ <-.
  revert fuel ep pos. induction i as [|i IH]; intros [|fuel] ep pos Hi Hf; try lia.
  - rewrite (back_pop _ _ _ _ _ _ _ Hu). exists fuel. split; [simpl in Hf; lia|done].
  - destruct (lookup_lt_is_Some_2 ct i) as [t Ht]; [lia|].
    assert (Hg : good k t) by exact (Forall_lookup_1 _ _ _ _ Hct Ht).
    rewrite (take_S_r _ _ t Ht) in Hf |- *. unfold total_slots in Hf.
    rewrite map_app, list_sum_app in Hf. cbn [map list_sum fold_right] in Hf.
    fold (total_slots (take i ct)) in Hf.
    cbn [backward_loop negb andb e_index Nat.eqb e_tree n child_summaries Nat.sub].
    rewrite Nat.sub_0_r, prefix_Ret by (rewrite length_map; lia).
    rewrite (parent_position _ _ _ Hu). cbn [mbind res_bind].
    assert (Hix : index (map node_summary ct) i = Ret (node_summary t)).
    { unfold index. change (map node_summary ct) with (node_summary <$> ct).
      by rewrite list_lookup_fmap, Ht. }
    rewrite Hix. cbn [mbind res_bind]. rewrite firstn_map.
    rewrite (fold_children k), <-advance_app by by apply Forall_take.
    set (d := advance dim_zero (ctx_before ctx ++ flat_map to_list (take i ct))).
    assert (Hdrop : flat_map to_list (drop i ct)
                    = to_list t ++ flat_map to_list (drop (Datatypes.S i) ct))
      by by rewrite (drop_S _ _ _ Ht).
    assert (Hnext : forall fuel', 2 * total_slots (take i ct) + 1 + f <= fuel' ->
      last_kept (to_list t) = None ->
      found_back (ctx_before ctx) (flat_map to_list (take i ct ++ [t]))
        (flat_map to_list (drop (Datatypes.S i) ct) ++ ctx_after ctx) f ctx
        (backward_loop filter_node fuel' false (Cursor root (Entry n i d :: ctx) d true false))).
    { intros fuel' Hf' Hno. specialize (IH fuel' d d ltac:(lia) Hf').
      unfold found_back in *. rewrite flat_map_app, last_match_app. cbn [flat_map].
      rewrite app_nil_r, Hno. rewrite Hdrop in IH.
      destruct (last_kept (flat_map to_list (take i ct))) as [[[p x] q]|]; [|done].
      by rewrite <-!app_assoc in *. }
    destruct (filter_node (node_summary t)) eqn:E.
    + assert (Hit : index ct i = Ret t) by (unfold index; by rewrite Ht).
      rewrite Hit. cbn [mbind res_bind].
      assert (Hne : child_summaries t <> []) by by apply (child_summaries_ne k).
      destruct (child_summaries t) as [|s ss] eqn:Ecs; [done|]. cbn [last_index mbind res_bind].
      pose proof (under_height _ _ _ _ _ Hu).
      rewrite push_entry_Ret by (cbn [length]; lia). cbn [mbind res_bind].
      assert (Hu' : under t k (Entry n i d :: ctx)) by by apply (under_down root height k ct).
      destruct fuel as [|fuel]; [destruct t; simpl in Hf; lia|].
      rewrite (backward_enter _ _ _ _ dim_zero _ _ d).
      assert (Hlen : Datatypes.S (length (s :: ss) - 1) = length (child_summaries t))
        by (rewrite Ecs; simpl; lia).
      rewrite Hlen.
      pose proof (Hin t (Entry n i d :: ctx) (Datatypes.S fuel)
        (2 * total_slots (take i ct) + 1 + f) dim_zero d Hu' (proj2 Hg) ltac:(lia)) as H'.
      cbn [ctx_before ctx_after e_tree e_index children_of n] in H'. unfold found_back in H'.
      destruct (last_kept (to_list t)) as [[[p x] q]|] eqn:Ek.
      * unfold found_back. rewrite flat_map_app, last_match_app. cbn [flat_map].
        rewrite app_nil_r, Ek. by rewrite Nat.add_1_r, <-(app_assoc (ctx_before ctx)) in H'.
      * destruct H' as (f' & Hf' & ->). by apply Hnext.
    + pose proof (slots_pos t). apply Hnext; [lia|]. apply no_last_match. by apply (pruned k).
Qed.

Lemma backward_enters k : enters_back k.
Proof.
  induction k as [|k IH]; intros t ctx fuel f ep pos Hu Hn Hf.
  - destruct (under_leaf _ _ _ _ Hu) as (its & -> & _).
    pose proof (back_items its ctx (length its) fuel f ep pos Hu ltac:(lia)) as H.
    rewrite firstn_all, drop_all in H. cbn [leaf_of child_summaries]. rewrite length_map.
    apply H. simpl in Hf. lia.
  - destruct (under_internal _ _ _ _ _ Hu) as (ct & -> & _ & _ & _).
    pose proof (back_children k ct ctx (length ct) fuel f ep pos IH Hu ltac:(lia)) as H.
    rewrite firstn_all, drop_all in H. cbn [child_summaries]. rewrite length_map.
    apply H. cbn [slots] in Hf. unfold total_slots. lia.
Qed.

Definition moved_back (pre post : list T) (r : res cursor) : Prop :=
  exists c', r = Ret c' /\ at_place c' match last_kept pre with
                                       | Some (p, x, q) => At p x (q ++ post)
                                       | None => Front
                                       end.

Lemma moved_of_found_back pre l post f ctx r :
  found_back pre l post f ctx r ->
  (forall f', f <= f' -> moved_back pre (l ++ post)
     (backward_loop filter_node f' false
        (Cursor root ctx (advance dim_zero pre) true false))) ->
  moved_back (pre ++ l) post r.
Proof.
  unfold found_back, moved_back. rewrite last_match_app.
  destruct (last_kept l) as [[[p x] q]|]; [done|]. intros (f' & Hf & ->) H.
  destruct (H f' Hf) as (c' & E & Hc). exists c'. split; [done|].
  destruct (last_kept pre) as [[[p x] q]|]; [by rewrite <-app_assoc|done].
Qed.

Fixpoint slots_before ctx : nat :=
  match ctx with
  | [] => 0
  | e :: ctx' =>
      1 + 2 * total_slots (take (e_index e) (children_of (e_tree e))) + slots_before ctx'
  end.

Lemma slots_before_le t k ctx : under t k ctx -> slots_before ctx + 2 * slots t <= 2 * slots root.
Proof.
  induction 1 as [Hr|k t e ctx Hu IH Ht Hp]; [simpl; lia|].
  destruct (under_internal _ _ _ _ _ Hu) as (ct & En & _ & _ & _).
  cbn [slots_before]. rewrite En in *. cbn [children_of slots] in *.
  assert (Hsum : total_slots (take (e_index e) ct) + slots t <= list_sum (map slots ct)).
  { rewrite <-(take_drop_middle ct (e_index e) t Ht) at 2.
    rewrite map_app, list_sum_app. unfold total_slots. simpl. lia. }
  lia.
Qed.

Lemma backward_resumes ctx t k fuel :
  to_list root <> [] -> under t k ctx -> slots_before ctx <= fuel ->
  moved_back (ctx_before ctx) (to_list t ++ ctx_after ctx)
    (backward_loop filter_node fuel false
       (Cursor root ctx (advance dim_zero (ctx_before ctx)) true false)).
Proof.
  intros Hne. revert t k fuel. induction ctx as [|e ctx IH]; intros t k fuel Hu Hf.
  - exists (Cursor root [] dim_zero true false). split; [by destruct fuel|]. by apply at_front.
  - inversion Hu as [|k' t' e' ctx' Hu' Ht Hp]; subst k' t' e' ctx'.
    destruct (under_internal _ _ _ _ _ Hu') as (ct & En & _ & _ & _).
    destruct e as [n i ep]. cbn [e_tree e_index e_position] in *. subst n.
    cbn [children_of] in Ht. pose proof (lookup_lt_Some _ _ _ Ht) as Hi.
    cbn [slots_before e_tree e_index children_of] in Hf.
    pose proof (back_children k ct ctx i fuel (slots_before ctx) ep
      (advance dim_zero (ctx_before (Entry (Internal (Datatypes.S k) (sum (map node_summary ct))
         (map node_summary ct) ct) i ep :: ctx)))
      (backward_enters k) Hu' ltac:(lia) ltac:(lia)) as H.
    cbn [ctx_before ctx_after e_tree e_index children_of] in *.
    assert (Hd : to_list t ++ flat_map to_list (drop (i + 1) ct) ++ ctx_after ctx
                 = flat_map to_list (drop i ct) ++ ctx_after ctx).
    { by rewrite (drop_S _ _ _ Ht), Nat.add_1_r, app_assoc. }
    rewrite Hd. apply (moved_of_found_back _ _ _ _ _ _ H). intros f' Hf'.
    assert (Hall : flat_map to_list (take i ct) ++ flat_map to_list (drop i ct) ++ ctx_after ctx
                   = to_list (Internal (Datatypes.S k) (sum (map node_summary ct))
                       (map node_summary ct) ct) ++ ctx_after ctx)
      by by rewrite app_assoc, <-flat_map_app, take_drop.
    rewrite Hall. by apply (IH _ (Datatypes.S k)).
Qed.

(** The items a backward search looks at, and those behind. *)
Definition earlier (p : place (T:=T)) : list T * list T :=
  match p with
  | Unsought | Back => (to_list root, [])
  | Front => ([], to_list root)
  | At pre x post => (pre, x :: post)
  end.

Lemma search_backward_ok c p :
  at_place c p -> to_list root <> [] ->
  moved_back (earlier p).1 (earlier p).2 (search_backward filter_node c).
Proof.
  intros Hc Hne.
  assert (He : is_empty root = false).
  { destruct (is_empty root) eqn:E; [|done]. by apply (is_empty_spec _ _ Hw) in E. }
  assert (Hroot : moved_back (to_list root) []
    (backward_loop filter_node (fuel_for root) false
       (Cursor root [Entry root (length (child_summaries root))
          (dim_add dim_zero (node_summary root))] dim_zero true false))).
  { change (to_list root) with ([] ++ to_list root).
    pose proof (backward_enters height root [] (fuel_for root) 0
      (dim_add dim_zero (node_summary root)) dim_zero (under_root _ _ Hw) Hne
      ltac:(unfold fuel_for, STACK_CAPACITY; lia)) as H.
    apply (moved_of_found_back _ _ _ _ _ _ H). intros f' _.
    apply (backward_resumes [] root height); [done|by apply under_root|apply Nat.le_0_l]. }
  destruct Hc as [|Hne'|ctx its idx x epos pre post Hu Hx -> ->|]; cbn [earlier fst snd].
  - unfold search_backward. rewrite orb_true_r, He. exact Hroot.
  - eexists. split; [by unfold search_backward; cbn [orb negb]; destruct (fuel_for root)|].
    by apply at_front.
  - pose proof (lookup_lt_Some _ _ _ Hx) as Hi. unfold search_backward. cbn [orb negb].
    pose proof (slots_before_le _ _ _ Hu) as Hs. cbn [slots leaf_of] in Hs.
    pose proof (back_items its ctx idx (fuel_for root) (slots_before ctx) epos
      (advance dim_zero (ctx_before ctx ++ take idx its)) Hu ltac:(lia)
      ltac:(unfold fuel_for; lia)) as H.
    assert (Hd : x :: drop (idx + 1) its ++ ctx_after ctx = drop idx its ++ ctx_after ctx).
    { by rewrite (drop_S _ _ _ Hx), Nat.add_1_r. }
    rewrite Hd. apply (moved_of_found_back _ _ _ _ _ _ H). intros f' Hf'.
    assert (Hall : take idx its ++ drop idx its ++ ctx_after ctx
                   = to_list (leaf_of its) ++ ctx_after ctx)
      by by rewrite app_assoc, take_drop.
    rewrite Hall. by apply (backward_resumes ctx _ 0).
  - unfold search_backward. cbn [orb]. rewrite He. exact Hroot.
Qed.

(** In an empty tree there is nowhere to go. *)
Lemma search_backward_empty c p :
  at_place c p -> to_list root = [] ->
  exists c', search_backward filter_node c = Ret c' /\ at_place c' Back.
Proof.
  intros Hc He. assert (Hem : is_empty root = true) by by apply (is_empty_spec _ _ Hw).
  exists (Cursor root [] dim_zero true true). split.
  - destruct Hc as [| |ctx its idx x epos pre post Hu Hx -> ->|]; [| done| |].
    1,3: unfold search_backward; rewrite ?orb_true_r; cbn [orb]; rewrite Hem; by destruct (fuel_for root).
    pose proof (under_split _ _ _ _ _ Hu) as E. rewrite He in E.
    symmetry in E. apply app_nil in E as [_ [E _]%app_nil]. simpl in E. by subst its.
  - pose proof (at_back (D:=D) root height) as H. by rewrite He in H.
Qed.
End Search.

(** ** Neighbours, and single steps *)
Section Steps.
Context {T S : Type} `{HS : !Summary S} `{!SummaryLaws S} `{HI : !Item T S}.
Context {D : Type} `{HD : !Dimension D S} `{!DimensionSum D S}.
Context (root : node T S) (height : nat) (Hw : wf height root).
Notation node := (node T S).
Notation entry := (entry T S D).
Notation cursor := (cursor T S D).
Notation under := (under (D:=D) root height).
Notation at_place := (at_place (D:=D) root height).
Implicit Types (t : node) (e : entry) (ctx : list entry) (c : cursor).

Lemma head_app_ne {A} (l1 l2 : list A) : l1 <> [] -> head (l1 ++ l2) = head l1.
Proof. by destruct l1. Qed.

Lemma last_app_ne {A} (l1 l2 : list A) : l2 <> [] -> last (l1 ++ l2) = last l2.
Proof.
  intros H. destruct l2 as [|x l2 _] using rev_ind; [done|]. by rewrite app_assoc, !last_snoc.
Qed.

Lemma head_ne {A} (l : list A) x : head l = Some x -> l <> [].
Proof. by destruct l. Qed.

Lemma last_ne {A} (l : list A) x : last l = Some x -> l <> [].
Proof. by destruct l. Qed.

Lemma next_leaf_ok ctx t k :
  under t k ctx ->
  exists o, next_leaf ctx = Ret o
    /\ match o with
       | Some leaf => exists its x, leaf = leaf_of its /\ head its = Some x
                                    /\ head (ctx_after ctx) = Some x
       | None => ctx_after ctx = []
       end.
Proof.
  revert t k. induction ctx as [|e ctx IH]; intros t k Hu; [by exists None|].
  inversion Hu as [|k' t' e' ctx' Hu' Ht Hp]; subst k' t' e' ctx'.
  destruct (under_internal _ _ _ _ _ Hu') as (ct & En & Hne & _ & Hct).
  destruct e as [n i ep]. cbn [e_tree e_index e_position children_of] in *. subst n.
  cbn [children_of] in Ht. pose proof (lookup_lt_Some _ _ _ Ht) as Hi.
  cbn [next_leaf e_tree child_trees mbind res_bind e_index ctx_after children_of].
  destruct ct as [|c0 ct0] eqn:Ect; [done|]. rewrite <-Ect in *. clear c0 ct0 Ect Hne.
  assert (Hl : last_index ct = Ret (length ct - 1)) by (destruct ct; [simpl in Hi; lia|done]).
  rewrite Hl. cbn [mbind res_bind].
  destruct (Nat.ltb_spec i (length ct - 1)) as [Hlt|Hge].
  - destruct (lookup_lt_is_Some_2 ct (i + 1)) as [t' Ht']; [lia|].
    assert (Hix : index ct (i + 1) = Ret t') by (unfold index; by rewrite Ht').
    rewrite Hix. cbn [mbind res_bind].
    destruct (Forall_lookup_1 _ _ _ _ Hct Ht') as [Hg Hn].
    destruct (leftmost_ok k t' Hg) as (its & -> & Hh).
    exists (Some (leaf_of its)). split; [done|].
    destruct (to_list t') as [|x l] eqn:El; [done|]. exists its, x. split_and!; [done|done|].
    rewrite (drop_S _ _ _ Ht'). cbn [flat_map]. by rewrite El.
  - destruct (IH _ _ Hu') as (o & -> & Ho). exists o. split; [done|].
    by rewrite (drop_ge ct (i + 1)) by lia.
Qed.

Lemma prev_leaf_ok ctx t k :
  under t k ctx ->
  exists o, prev_leaf ctx = Ret o
    /\ match o with
       | Some leaf => exists its x, leaf = leaf_of its /\ last its = Some x
                                    /\ last (ctx_before ctx) = Some x
       | None => ctx_before ctx = []
       end.
Proof.
  revert t k. induction ctx as [|e ctx IH]; intros t k Hu; [by exists None|].
  inversion Hu as [|k' t' e' ctx' Hu' Ht Hp]; subst k' t' e' ctx'.
  destruct (under_internal _ _ _ _ _ Hu') as (ct & En & Hne & _ & Hct).
  destruct e as [n i ep]. cbn [e_tree e_index e_position children_of] in *. subst n.
  cbn [children_of] in Ht. pose proof (lookup_lt_Some _ _ _ Ht) as Hi.
  cbn [prev_leaf e_tree child_trees mbind res_bind e_index ctx_before children_of].
  destruct i as [|i]; cbn [Nat.eqb negb].
  - destruct (IH _ _ Hu') as (o & -> & Ho). exists o. split; [done|]. by rewrite app_nil_r.
  - destruct (lookup_lt_is_Some_2 ct i) as [t' Ht']; [lia|].
    assert (Hix : index ct (Datatypes.S i - 1) = Ret t').
    { unfold index. cbn [Nat.sub]. by rewrite Nat.sub_0_r, Ht'. }
    rewrite Hix. cbn [mbind res_bind].
    destruct (Forall_lookup_1 _ _ _ _ Hct Ht') as [Hg Hn].
    destruct (rightmost_ok k t' Hg) as (its & -> & Hh).
    exists (Some (leaf_of its)). split; [done|].
    assert (Hls : last (ctx_before ctx ++ flat_map to_list (take (Datatypes.S i) ct))
                  = last (to_list t')).
    { rewrite (take_S_r _ _ t' Ht'), flat_map_app. cbn [flat_map]. rewrite app_nil_r, app_assoc.
      by apply last_app_ne. }
    destruct (to_list t') as [|x l _] eqn:El using rev_ind; [done|].
    rewrite last_snoc in Hh, Hls. by exists its, x.
Qed.

Lemma next_item_ok c p :
  at_place c p -> p <> Unsought -> next_item c = Ret (head (later root p).2).
Proof.
  intros Hc Hp. destruct Hc as [|Hne|ctx its idx x epos pre post Hu Hx -> ->|]; [done| | |done].
  - by apply (first_ok height).
  - pose proof (lookup_lt_Some _ _ _ Hx) as Hi. unfold next_item.
    cbn [c_did_seek negb c_stack e_tree leaf_of items mbind res_bind e_index later snd].
    assert (Hl : last_index its = Ret (length its - 1)) by (destruct its; [simpl in Hi; lia|done]).
    rewrite Hl. cbn [mbind res_bind]. destruct (Nat.eqb_spec idx (length its - 1)) as [->|Hneq].
    + destruct (next_leaf_ok _ _ _ Hu) as (o & -> & Ho). cbn [mbind res_bind].
      rewrite (drop_ge its) by lia. cbn [app]. destruct o as [leaf|].
      * destruct Ho as (its' & y & -> & Hh & ->). cbn [items leaf_of mbind res_bind].
        by rewrite Hh.
      * by rewrite Ho.
    + destruct (lookup_lt_is_Some_2 its (idx + 1)) as [y Hy]; [lia|].
      unfold index. rewrite Hy, (drop_S _ _ _ Hy). done.
Qed.

Lemma prev_item_ok c p :
  at_place c p -> p <> Unsought -> prev_item c = Ret (last (earlier root p).1).
Proof.
  intros Hc Hp. destruct Hc as [|Hne|ctx its idx x epos pre post Hu Hx -> ->|]; [done|done| |].
  - pose proof (lookup_lt_Some _ _ _ Hx) as Hi. unfold prev_item.
    cbn [c_did_seek negb c_stack e_tree leaf_of items mbind res_bind e_index earlier fst].
    destruct idx as [|idx]; cbn [Nat.eqb].
    + destruct (prev_leaf_ok _ _ _ Hu) as (o & -> & Ho). cbn [mbind res_bind take].
      rewrite app_nil_r. destruct o as [leaf|].
      * destruct Ho as (its' & y & -> & Hh & ->). cbn [items leaf_of mbind res_bind].
        by rewrite Hh.
      * by rewrite Ho.
    + destruct (lookup_lt_is_Some_2 its idx) as [y Hy]; [lia|].
      unfold index. cbn [Nat.sub]. rewrite Nat.sub_0_r, Hy, (take_S_r _ _ _ Hy).
      by rewrite app_assoc, last_snoc.
  - by apply (last_item_ok height).
Qed.

Lemma covers_all : covers (T:=T) (fun _ : S => true).
Proof. done. Qed.

Lemma first_match_true (l : list T) :
  first_match (keeps (fun _ : S => true)) l
  = match l with [] => None | x :: l' => Some ([], x, l') end.
Proof. by destruct l. Qed.

Lemma last_match_true (l : list T) x :
  last_match (keeps (fun _ : S => true)) (l ++ [x]) = Some (l, x, []).
Proof. rewrite last_match_app. cbn. by rewrite app_nil_r. Qed.

(** [next] steps over one item. *)
Lemma next_ok c p :
  height < STACK_CAPACITY -> at_place c p ->
  exists c', next c = Ret c' /\ at_place c' (place_of (later root p).1 (later root p).2).
Proof.
  intros Hh Hc.
  destruct (search_forward_ok root height _ covers_all Hh Hw c p Hc) as (c' & E & Hc').
  exists c'. split; [done|]. rewrite first_match_true in Hc'.
  destruct (later root p).2; [done|]. by rewrite app_nil_r in Hc'.
Qed.

(** [prev] steps back over one item. *)
Lemma prev_ok c p pre x :
  height < STACK_CAPACITY -> at_place c p -> (earlier root p).1 = pre ++ [x] ->
  exists c', prev c = Ret c' /\ at_place c' (At pre x (earlier root p).2).
Proof.
  intros Hh Hc E.
  assert (Hne : to_list root <> []).
  { intros En. pose proof (at_place_split _ _ _ _ Hc) as Hs.
    destruct p; simpl in *; try (rewrite En in *; by destruct pre); try (by destruct pre).
    rewrite En in Hs. by destruct pre0. }
  destruct (search_backward_ok root height _ covers_all Hh Hw c p Hc Hne) as (c' & Er & Hc').
  exists c'. split; [done|]. rewrite E, last_match_true in Hc'. done.
Qed.

Lemma prev_front c p :
  height < STACK_CAPACITY -> at_place c p -> (earlier root p).1 = [] -> to_list root <> [] ->
  exists c', prev c = Ret c' /\ at_place c' Front.
Proof.
  intros Hh Hc E Hne.
  destruct (search_backward_ok root height _ covers_all Hh Hw c p Hc Hne) as (c' & Er & Hc').
  exists c'. split; [done|]. by rewrite E in Hc'.
Qed.
End Steps.
