(* ===== verification/SumIter.v ===== *)
(** * Iterators over sum trees

    The iterator of a tree is the cursor without positions, and a cursor is an
    iterator too: both yield the items ahead of them, in order. *)

From S2P Require Import Prelude SumTree SumTreeInvariant SumTreeFind.
From S2P Require Import SumCursor SumCursorSeek SumCursorSearch.
Local Open Scope nat_scope.

Section Iter.
Context {T S : Type} `{HS : !Summary S} `{!SummaryLaws S} `{HI : !Item T S}.
Notation node := (node T S).
Notation entry := (entry T S unit).
Notation cursor := (cursor T S unit).
Implicit Types (t : node) (e : entry) (c : cursor).

Definition well_formed_entry (e : entry) : Prop := exists h, wf h (e_tree e).

(** The item a stack stands at. *)
Definition top_item (stack : list entry) : option T :=
  match stack with
  | e :: _ => match e_tree e with Leaf _ its _ => its !! e_index e | Internal _ _ _ _ => None end
  | [] => None
  end.

Lemma entry_unit e : Entry (e_tree e) (e_index e) tt = e.
Proof. by destruct e as [? ? []]. Qed.

Lemma skip_none ss i (ep pos : unit) : skip (fun _ : S => true) ss i ep pos = (i, ep, pos).
Proof. by destruct ss. Qed.

(** What a cursor without positions finds going forward, the iterator finds. *)
Lemma iter_loop_forward root fuel b stack c :
  Forall well_formed_entry stack ->
  forward_loop (fun _ => true) fuel b (Cursor root stack tt true false) = Ret c ->
  iter_loop fuel b stack = Ret (top_item (c_stack c), c_stack c)
  /\ Forall well_formed_entry (c_stack c).
Proof.
  revert b stack. induction fuel as [|fuel IH]; intros b [|e rest] Hst Hf;
    cbn [forward_loop] in Hf; try done.
  1,2: by injection Hf as <-.
  pose proof Hst as [[h He] Hrest]%Forall_cons. cbn [iter_loop].
  destruct e as [n i []]. cbn [e_tree e_index e_position] in *.
  set (j := if b then i else i + 1).
  assert (Hj : (if b then (i, tt) else (i + 1, tt)) = (j, tt)) by by destruct b.
  destruct h as [|h].
  - apply wf_0_inv in He as (its & -> & Hl). cbn [e_tree] in *.
    assert (Hcase : (if j <? length (map summary its)
                     then mret (Cursor root (Entry (leaf_of its) j tt :: rest) tt true false)
                     else forward_loop (fun _ => true) fuel false (Cursor root rest tt true false))
                    = Ret c).
    { cbn [e_tree e_index e_position] in Hf. destruct b.
      - cbn [mbind res_bind] in Hf. by rewrite skip_none in Hf.
      - destruct (index (map summary its) i); [|done]. cbn [mbind res_bind mret res_ret] in Hf.
        by rewrite skip_none in Hf. }
    rewrite length_map in Hcase. destruct (Nat.ltb_spec j (length its)) as [Hlt|Hge].
    + injection Hcase as <-. destruct (lookup_lt_is_Some_2 its j Hlt) as [x Hx].
      rewrite Hx. cbn [c_stack top_item e_tree e_index leaf_of]. rewrite Hx.
      split; [done|]. constructor; [|done]. exists 0. by apply wf_leaf.
    + rewrite lookup_ge_None_2 by done. by apply IH.
  - pose proof He as (ct & -> & Hne & Hl & Hct)%wf_S_inv. cbn [e_tree] in *.
    rewrite Hj, skip_none in Hf. destruct (ct !! j) as [t|] eqn:Et; [|by apply IH].
    destruct (push_entry _ _) as [stack|] eqn:Ep; [|done]. cbn [mbind res_bind] in *.
    apply IH; [|done]. unfold push_entry in Ep. destruct (_ <? _); [|done].
    injection Ep as <-. constructor; [|by constructor; [by exists (Datatypes.S h)|]].
    exists h. by apply (Forall_lookup_1 _ _ _ _ Hct Et).
Qed.

Context (root : node) (height : nat) (Hw : wf height root) (Hh : height < STACK_CAPACITY).
Notation at_place := (at_place (D:=unit) root height).

(** The stack of an iterator that has yielded all but [rest], [None] before it
    starts. *)
Definition iterating (stack : list entry) (rest : list T) : Prop :=
  Forall well_formed_entry stack
  /\ (stack = [] /\ rest = to_list root
     \/ exists c pre x, at_place c (At pre x rest) /\ stack = c_stack c).

Lemma at_place_top c p :
  at_place c p -> top_item (c_stack c) = match p with At _ x _ => Some x | _ => None end.
Proof. by destruct 1. Qed.

Lemma iter_next_ok stack rest :
  iterating stack rest ->
  exists stack', iter_next root stack = Ret (head rest, stack')
    /\ match rest with x :: rest' => iterating stack' rest' | [] => True end.
Proof.
  intros [Hst Hi].
  assert (Hgo : forall c p, at_place c p -> c_at_end c = false -> c_did_seek c = true \/ c_stack c = [] ->
    c_stack c = stack -> rest = (later root p).2 ->
    exists stack', iter_next root stack = Ret (head rest, stack')
      /\ match rest with x :: rest' => iterating stack' rest' | [] => True end).
  { intros c p Hc Hend Hseek Ec ->.
    destruct (search_forward_ok root height _ covers_all Hh Hw c p Hc) as (c' & E & Hc').
    rewrite first_match_true in Hc'.
    assert (Htree : c_tree c = root) by by destruct Hc.
    assert (Hrw : wf height root) by done.
    assert (Hn : iter_next root stack = Ret (top_item (c_stack c'), c_stack c')
                 /\ Forall well_formed_entry (c_stack c')).
    { destruct c as [tree st [] ds ae]. cbn [c_tree c_stack c_at_end c_did_seek] in *. subst tree st ae.
      unfold search_forward in E. unfold iter_next. destruct stack as [|e rest'].
      - rewrite push_entry_Ret in E |- * by (simpl; unfold STACK_CAPACITY; lia).
        cbn [mbind res_bind negb] in *. apply (iter_loop_forward root); [|done].
        constructor; [by exists height|done].
      - destruct Hseek as [->|?]; [|done]. by apply (iter_loop_forward root). }
    destruct Hn as [-> Hwf]. rewrite (at_place_top _ _ Hc').
    exists (c_stack c'). destruct (later root p).2 as [|x rest']; [done|].
    split; [done|]. split; [done|]. right. by eexists _, _, _. }
  destruct Hi as [[-> ->]|(c & pre & x & Hc & ->)].
  - destruct (decide (to_list root = [])) as [En|Hne].
    + rewrite En. destruct (is_empty root) eqn:Em.
      2: { apply (is_empty_spec _ _ Hw) in En. congruence. }
      unfold iter_next. rewrite push_entry_Ret by (simpl; unfold STACK_CAPACITY; lia).
      cbn [mbind res_bind]. exists []. split; [|done].
      destruct root as [|sm its ss]; [done|]. simpl in En. subst its. done.
    + apply (Hgo (Cursor root [] tt true false) Front); [exact (at_front (D:=unit) root height Hne)|done|by left|done|done].
  - apply (Hgo c (At pre x rest)); [done| | |done|done].
    + by inversion Hc.
    + left. by inversion Hc.
Qed.

(** Iterating yields the items of the tree, once each and in order. *)
Lemma iter_collect_ok fuel stack rest :
  iterating stack rest -> length rest < fuel -> iter_collect fuel root stack = Ret rest.
Proof.
  revert stack rest. induction fuel as [|fuel IH]; intros stack rest Hi Hf; [lia|].
  destruct (iter_next_ok stack rest Hi) as (stack' & E & H). cbn [iter_collect]. rewrite E.
  destruct rest as [|x rest]; [done|]. cbn [mbind res_bind head] in *.
  rewrite (IH stack' rest H) by (simpl in Hf; lia). done.
Qed.
End Iter.

Lemma length_slots {T S} `{HS : !Summary S} `{!SummaryLaws S} `{HI : !Item T S} h (t : node T S) :
  wf h t -> length (to_list t) <= slots t.
Proof.
  revert t. induction h as [|h IH]; intros t Hw.
  - apply wf_0_inv in Hw as (its & -> & _). simpl. lia.
  - apply wf_S_inv in Hw as (ct & -> & _ & _ & Hct). cbn [to_list slots].
    enough (length (flat_map to_list ct) <= list_sum (map slots ct)) by lia.
    induction ct as [|t ct IHct]; [done|]. apply Forall_cons in Hct as [[Ht _] Hct].
    specialize (IHct Hct). specialize (IH t Ht). simpl. rewrite length_app. lia.
Qed.

Lemma iter_ok {T S} `{HS : !Summary S} `{!SummaryLaws S} `{HI : !Item T S} h (t : node T S) :
  wf h t -> h < STACK_CAPACITY -> iter t = Ret (to_list t).
Proof.
  intros Hw Hh. apply (iter_collect_ok t h Hw Hh).
  - split; [done|by left].
  - pose proof (length_slots h t Hw). unfold fuel_for. lia.
Qed.

(** A cursor as an iterator. *)
Section Collect.
Context {T S : Type} `{HS : !Summary S} `{!SummaryLaws S} `{HI : !Item T S}.
Context {D : Type} `{HD : !Dimension D S} `{!DimensionSum D S}.
Context (root : node T S) (height : nat) (Hw : wf height root) (Hh : height < STACK_CAPACITY).

Lemma cursor_next_ok (c : cursor T S D) p pre post :
  at_place root height c p -> ahead root p pre post ->
  exists c', cursor_next c = Ret (head post, c')
    /\ match post with
       | x :: post => at_place root height c' (place_of (pre ++ [x]) post)
                      /\ ahead root (place_of (pre ++ [x]) post) (pre ++ [x]) post
       | [] => True
       end.
Proof.
  intros Hc Hp.
  assert (Hstep : exists c', (if negb (c_did_seek c) then next c else Ret c) = Ret c'
            /\ at_place root height c' (place_of pre post)).
  { destruct p as [| |l x r|]; simpl in Hp; [|done| |].
    - destruct Hp as [-> ->].
      destruct (next_ok root height Hw c Unsought Hh Hc) as (c' & E & Hc').
      exists c'. split; [|done]. by inversion Hc; subst.
    - destruct Hp as [-> ->]. exists c. split; [by inversion Hc|done].
    - destruct Hp as [-> ->]. exists c. split; [by inversion Hc|done]. }
  destruct Hstep as (c' & E & Hc'). unfold cursor_next. rewrite E. cbn [mbind res_bind].
  rewrite (item_ok _ _ _ _ Hc'). destruct post as [|x post]; cbn [place_of mbind res_bind] in *.
  - by exists c'.
  - destruct (next_ok root height Hw c' _ Hh Hc') as (c'' & -> & Hc''). exists c''.
    cbn [mbind res_bind mret res_ret later fst snd] in *. split_and!; [done|done|].
    pose proof (at_place_split _ _ _ _ Hc') as Hs. simpl in Hs.
    destruct post as [|y post]; simpl; [|done]. by rewrite Hs.
Qed.

Lemma cursor_collect_ok fuel (c : cursor T S D) p pre post :
  at_place root height c p -> ahead root p pre post -> length post < fuel ->
  cursor_collect fuel c = Ret post.
Proof.
  revert c p pre post. induction fuel as [|fuel IH]; intros c p pre post Hc Hp Hf; [lia|].
  destruct (cursor_next_ok c p pre post Hc Hp) as (c' & E & H).
  cbn [cursor_collect]. rewrite E. destruct post as [|x post]; [done|]. destruct H as [Hc' Hp'].
  cbn [head mbind res_bind]. rewrite (IH c' _ _ post Hc' Hp'); [done|simpl in Hf; lia].
Qed.
End Collect.

(** The items of a tree, and equality of trees. *)
Section Items.
Context {T S : Type} `{HS : !Summary S} `{!SummaryLaws S} `{HI : !Item T S}.

Lemma items_loop_ok h (t : node T S) fuel its c p pre post :
  wf h t -> h < STACK_CAPACITY -> at_place (D:=unit) t h c p -> p = place_of pre post ->
  pre ++ post = to_list t -> length post < fuel -> items_loop fuel its c = Ret (its ++ post).
Proof.
  intros Hw Hh. revert its c p pre post. induction fuel as [|fuel IH]; intros its c p pre post Hc -> El Hf;
    [lia|].
  cbn [items_loop]. rewrite (item_ok _ _ _ _ Hc).
  destruct post as [|x post]; cbn [place_of mbind res_bind] in *; [by rewrite app_nil_r|].
  destruct (next_ok t h Hw c _ Hh Hc) as (c' & -> & Hc'). cbn [mbind res_bind later fst snd] in *.
  rewrite (IH _ _ _ _ _ Hc' eq_refl); [by rewrite <-app_assoc|by rewrite <-app_assoc|simpl in Hf; lia].
Qed.

Lemma tree_items_ok h (t : node T S) : wf h t -> h < STACK_CAPACITY -> tree_items t = Ret (to_list t).
Proof.
  intros Hw Hh. unfold tree_items.
  destruct (next_ok t h Hw (cursor_new (D:=unit) t) _ Hh (new_at_place t h)) as (c & -> & Hc).
  cbn [mbind res_bind]. apply (items_loop_ok h t _ [] c _ [] (to_list t) Hw Hh Hc); [done|done|].
  pose proof (length_slots h t Hw). unfold fuel_for. lia.
Qed.

Lemma tree_eq_ok `{!EqDecision T} h h' (t t' : node T S) :
  wf h t -> wf h' t' -> h < STACK_CAPACITY -> h' < STACK_CAPACITY ->
  tree_eq t t' = Ret (bool_decide (to_list t = to_list t')).
Proof.
  intros Hw Hw' Hh Hh'. unfold tree_eq. by rewrite (iter_ok h t Hw Hh), (iter_ok h' t' Hw' Hh').
Qed.
End Items.

(** A filtered cursor as an iterator yields the items kept. *)
Section Filtered.
Context {T S : Type} `{HS : !Summary S} `{!SummaryLaws S} `{HI : !Item T S}.
Context {D : Type} `{HD : !Dimension D S} `{!DimensionSum D S}.
Context (root : node T S) (height : nat) (Hw : wf height root) (Hh : height < STACK_CAPACITY).
Context (f : S -> bool) (Hcov : covers (T:=T) f).

Lemma filter_first (l : list T) :
  List.filter (keeps f) l
  = match first_match (keeps f) l with
    | Some (_, x, q) => x :: List.filter (keeps f) q
    | None => []
    end.
Proof.
  induction l as [|x l IH]; [done|]. simpl. destruct (keeps f x); [done|].
  rewrite IH. by destruct (first_match (keeps f) l) as [[[p y] q]|].
Qed.

Lemma filter_collect_from fuel (c : cursor T S D) p :
  at_place root height c p -> p <> Unsought ->
  length match p with At _ x r => x :: r | _ => [] end < fuel ->
  filter_collect fuel (Filtered c f)
  = Ret match p with At _ x r => x :: List.filter (keeps f) r | _ => [] end.
Proof.
  revert c p. induction fuel as [|fuel IH]; intros c p Hc Hp Hf; [lia|].
  cbn [filter_collect]. unfold filter_iter_next, filter_item. cbn [fc_cursor].
  assert (Hseek : c_did_seek c = true) by by destruct Hc.
  rewrite Hseek. cbn [negb mbind res_bind fc_cursor]. rewrite (item_ok _ _ _ _ Hc).
  destruct p as [| |pre x r|]; [done|done| |done]. cbn [mbind res_bind].
  unfold filter_next. cbn [fc_cursor fc_filter_node].
  destruct (search_forward_ok root height f Hcov Hh Hw c _ Hc) as (c' & -> & Hc').
  cbn [mbind res_bind mret res_ret later fst snd] in *.
  rewrite filter_first. destruct (first_match (keeps f) r) as [[[q y] r']|] eqn:E.
  - rewrite (IH c' _ Hc'); [done|done|]. apply first_match_split in E as [-> _].
    simpl in Hf. rewrite length_app in Hf. simpl in *. lia.
  - rewrite (IH c' _ Hc'); [done|done|]. simpl in *. lia.
Qed.

Lemma filter_collect_ok fuel :
  length (to_list root) + 1 < fuel ->
  filter_collect fuel (filter_new (D:=D) root f) = Ret (List.filter (keeps f) (to_list root)).
Proof.
  intros Hf. destruct fuel as [|fuel]; [lia|].
  pose proof (search_forward_ok root height f Hcov Hh Hw (cursor_new (D:=D) root) _
    (new_at_place root height)) as (c & E & Hc). cbn [later fst snd] in Hc.
  assert (Hstart : filter_collect (Datatypes.S fuel) (filter_new (D:=D) root f)
                   = filter_collect (Datatypes.S fuel) (Filtered c f)).
  { cbn [filter_collect]. unfold filter_iter_next. cbn [filter_new fc_cursor cursor_new c_did_seek negb].
    assert (Hsk : c_did_seek c = true).
    { destruct (first_match _ _) as [[[p y] q]|]; by inversion Hc. }
    rewrite Hsk. unfold filter_next. cbn [fc_cursor fc_filter_node filter_new].
    change (Cursor root [] dim_zero false (is_empty root)) with (cursor_new (D:=D) root).
    rewrite E. done. }
  rewrite Hstart, filter_first.
  destruct (first_match (keeps f) (to_list root)) as [[[p y] q]|] eqn:Ef.
  - rewrite (filter_collect_from _ c _ Hc); [done|done|].
    apply first_match_split in Ef as [El _]. rewrite El, length_app in Hf. simpl in *. lia.
  - rewrite (filter_collect_from _ c _ Hc); [done|done|]. simpl. lia.
Qed.
End Filtered.

(** ** The parallel build *)
Section Parallel.
Context {T S : Type} `{HS : !Summary S} `{!SummaryLaws S} `{HI : !Item T S}.
Notation node := (node T S).

(** Consecutive chunks of [n], the last possibly shorter. *)
Fixpoint chunks {A} (fuel n : nat) (l : list A) : list (list A) :=
  match fuel, l with
  | O, _ | _, [] => []
  | Datatypes.S fuel', _ => take n l :: chunks fuel' n (drop n l)
  end.

Fixpoint collect {A B} (f : A -> res B) (l : list A) : res (list B) :=
  match l with
  | [] => Ret []
  | x :: l' => y ← f x; cons y <$> collect f l'
  end.

Definition chunks_map (A B : Type) (n : nat) (f : list A -> res B) (l : list A) : res (list B) :=
  collect f (chunks (length l) n l).

(** What a parallel iterator's [chunks], [map] and [collect] give, in order. *)
Definition collects_chunks
    (par : forall A B : Type, nat -> (list A -> res B) -> list A -> res (list B)) : Prop :=
  forall A B n f l, 0 < n -> par A B n f l = chunks_map A B n f l.

Lemma par_leaf_ok (its : list T) :
  its <> [] -> length its <= 2 * TREE_BASE -> par_leaf its = Ret (Leaf (total its) its (map summary its)).
Proof.
  intros Hn Hl. unfold par_leaf. rewrite array_Ret by done. cbn [mbind res_bind].
  destruct its as [|x its]; [done|]. cbn [map]. unfold total, sum. simpl. by rewrite add_zero_l.
Qed.

Lemma par_parent_ok h (ct : list node) :
  ct <> [] -> length ct <= 2 * TREE_BASE ->
  par_parent h ct = Ret (Internal h (sum (map node_summary ct)) (map node_summary ct) ct).
Proof.
  intros Hn Hl. unfold par_parent. rewrite array_Ret by done. cbn [mbind res_bind].
  destruct ct as [|t ct]; [done|]. cbn [map]. unfold sum. simpl. by rewrite add_zero_l.
Qed.

Lemma par_leaves fuel (l : list T) :
  length l <= fuel -> collect par_leaf (chunks fuel (2 * TREE_BASE) l) = Ret (leaves fuel l).
Proof.
  revert l. induction fuel as [|fuel IH]; intros l Hl; [by destruct l|].
  destruct l as [|x l]; [done|]. cbn [chunks leaves collect].
  rewrite par_leaf_ok; [|done|rewrite length_take; lia]. cbn [mbind res_bind].
  rewrite IH by (rewrite length_drop; unfold TREE_BASE; simpl in *; lia).
  cbn [fmap res_fmap]. do 2 f_equal.
  set (its := take (2 * TREE_BASE) (x :: l)).
  assert (Hs : fold_left add_summary (drop 1 (map summary its)) (summary x) = total its)
    by (unfold total, sum; simpl; by rewrite add_zero_l).
  by rewrite Hs.
Qed.

Lemma par_parents h (nodes ct : list node) fuel :
  length ct < 2 * TREE_BASE -> length (ct ++ nodes) <= fuel ->
  collect (par_parent (Datatypes.S h)) (chunks fuel (2 * TREE_BASE) (ct ++ nodes))
  = parents (Datatypes.S h) nodes (filling (Datatypes.S h) ct).
Proof.
  revert ct fuel. induction nodes as [|child rest IH]; intros ct fuel Hl Hf.
  - rewrite app_nil_r in *. destruct ct as [|t ct'] eqn:Ect; [by destruct fuel|]. rewrite <-Ect in *.
    destruct fuel as [|fuel]; [subst ct; simpl in Hf; lia|].
    assert (Hc : chunks (Datatypes.S fuel) (2 * TREE_BASE) ct = [ct]).
    { rewrite Ect at 1. cbn [chunks]. rewrite <-Ect, firstn_all2, skipn_all2 by lia.
      by destruct fuel. }
    rewrite Hc. cbn [collect]. rewrite par_parent_ok by (subst ct; done || lia).
    cbn [parents]. by rewrite Ect.
  - cbn [parents].
    assert (Hd : default (Internal (Datatypes.S h) zero [] []) (filling (Datatypes.S h) ct)
                 = Internal (Datatypes.S h) (sum (map node_summary ct)) (map node_summary ct) ct)
      by by destruct ct.
    rewrite Hd. clear Hd.
    assert (Hs : add_summary (sum (map node_summary ct)) (node_summary child)
                 = sum (map node_summary (ct ++ [child])))
      by (unfold sum; by rewrite map_app, fold_left_app).
    change [node_summary child] with (map node_summary [child]).
    rewrite Hs, <-map_app. clear Hs.
    assert (Hl' : length (ct ++ [child]) <= 2 * TREE_BASE) by (rewrite length_app; simpl length; lia).
    rewrite !array_Ret by (by rewrite ?length_map). cbn [mbind res_bind].
    rewrite (cons_middle child ct rest), app_assoc in *.
    assert (Hfill : Some (Internal (Datatypes.S h) (sum (map node_summary (ct ++ [child])))
                        (map node_summary (ct ++ [child])) (ct ++ [child]))
                 = filling (Datatypes.S h) (ct ++ [child])) by by destruct ct.
    destruct (Nat.eqb_spec (length (ct ++ [child])) (2 * TREE_BASE)) as [He|Hne].
    + destruct fuel as [|fuel]; [rewrite !length_app in Hf; simpl in Hf; lia|].
      assert (Hc : chunks (Datatypes.S fuel) (2 * TREE_BASE) ((ct ++ [child]) ++ rest)
                   = (ct ++ [child]) :: chunks fuel (2 * TREE_BASE) rest).
      { destruct ((ct ++ [child]) ++ rest) eqn:E; [by destruct ct|]. rewrite <-E.
        assert (Hu : chunks (Datatypes.S fuel) (2 * TREE_BASE) ((ct ++ [child]) ++ rest)
                     = take (2 * TREE_BASE) ((ct ++ [child]) ++ rest)
                       :: chunks fuel (2 * TREE_BASE) (drop (2 * TREE_BASE) ((ct ++ [child]) ++ rest)))
          by by rewrite E.
        rewrite Hu, <-He, take_app_length, drop_app_length. done. }
      rewrite Hc. cbn [collect]. rewrite par_parent_ok; [|by destruct ct|done].
      cbn [mbind res_bind]. pose proof (IH [] fuel) as H. cbn [app filling] in H. rewrite H; [done|..].
      * unfold TREE_BASE. simpl. lia.
      * rewrite length_app in Hf. unfold TREE_BASE in He. lia.
    + rewrite Hfill. apply IH; [lia|done].
Qed.

Lemma from_par_iter_ok par (l : list T) : collects_chunks par -> from_par_iter par l = from_iter l.
Proof.
  intros Hpar. unfold from_par_iter, from_iter.
  rewrite Hpar by (unfold TREE_BASE; lia). unfold chunks_map. rewrite par_leaves by done.
  cbn [mbind res_bind]. generalize (leaves (length l) l). intros nodes.
  generalize 0. generalize (length nodes). intros fuel. revert nodes.
  induction fuel as [|fuel IH]; intros nodes h; [by destruct nodes as [|t [|t' nodes]]|].
  destruct nodes as [|t [|t' nodes]]; [done..|]. cbn [par_levels levels].
  rewrite Hpar by (unfold TREE_BASE; lia). unfold chunks_map.
  pose proof (par_parents h (t :: t' :: nodes) [] (length (t :: t' :: nodes))) as H.
  cbn [app filling] in H. rewrite H by (done || (unfold TREE_BASE; simpl; lia)).
  destruct (parents _ _ _); [|done]. cbn [mbind res_bind]. apply IH.
Qed.
End Parallel.
