(* ===== verification/KeyedTree.v ===== *)
(** * Trees of keyed items ([KeyedItem] in [crates/sum_tree/src/sum_tree.rs])

    An item whose summary carries a key, kept in the order of the keys: inserting,
    removing, editing and looking up. *)

From S2P Require Import Prelude SumTree SumTreeInvariant SumTreeFind.
From S2P Require Import SumCursor SumCursorSeek SumCursorSearch.
Local Open Scope nat_scope.

(** ** Ordered keys ([Ord]) *)
Class Ord (K : Type) := ord_cmp : K -> K -> comparison.
Class OrdLaws (K : Type) `{Ord K} := {
  ord_eq (a b : K) : ord_cmp a b = Eq <-> a = b;
  ord_opp (a b : K) : ord_cmp b a = CompOpp (ord_cmp a b);
  ord_trans (a b c : K) : ord_cmp a b = Lt -> ord_cmp b c = Lt -> ord_cmp a c = Lt;
}.

(** A measure with an order is a target among its positions. *)
#[export] Instance ord_target (D : Type) `{!Ord D} : SeekTarget D D := ord_cmp.

Definition is_lt (c : comparison) : bool := match c with Lt => true | _ => false end.
Definition is_eq (c : comparison) : bool := match c with Eq => true | _ => false end.
Definition is_gt (c : comparison) : bool := match c with Gt => true | _ => false end.

(** [KeyedItem::key]. *)
Class KeyedItem (T Key : Type) := key : T -> Key.

Inductive Edit (T Key : Type) := Insert (item : T) | Remove (k : Key).
Arguments Insert {T Key}.
Arguments Remove {T Key}.

Section Keyed.
Context {T S Key : Type} `{HS : !Summary S} `{HI : !Item T S}.
Context `{HO : !Ord Key} `{HD : !Dimension Key S} `{HK : !KeyedItem T Key}.
Notation node := (node T S).

Definition edit_key (e : Edit T Key) : Key :=
  match e with Insert item => key item | Remove k => k end.

Definition key_is (k : Key) (x : T) : bool := is_eq (ord_cmp (key x) k).

Definition insert_or_replace (self : node) (x : T) : res (node * option T) :=
  r ← slice (cursor_new (D:=Key) self) (key x) Left;
  let '(new_tree, cursor) := r in
  cursor_item ← item cursor;
  r ← match cursor_item with
      | Some y => if key_is (key x) y then c ← next cursor; mret (c, Some y) else mret (cursor, None)
      | None => mret (cursor, None)
      end;
  let '(cursor, replaced) := r in
  new_tree ← push new_tree x;
  r ← suffix cursor;
  new_tree ← append new_tree (fst r);
  mret (new_tree, replaced).

Definition remove (self : node) (k : Key) : res (node * option T) :=
  r ← slice (cursor_new (D:=Key) self) k Left;
  let '(new_tree, cursor) := r in
  cursor_item ← item cursor;
  r ← match cursor_item with
      | Some y => if key_is k y then c ← next cursor; mret (c, Some y) else mret (cursor, None)
      | None => mret (cursor, None)
      end;
  let '(cursor, removed) := r in
  r ← suffix cursor;
  new_tree ← append new_tree (fst r);
  mret (new_tree, removed).

(** [edits.sort_unstable_by_key(key)]: some sorted order; here equal keys keep
    theirs. *)
Fixpoint insert_edit (e : Edit T Key) (l : list (Edit T Key)) : list (Edit T Key) :=
  match l with
  | [] => [e]
  | e' :: l' =>
      match ord_cmp (edit_key e) (edit_key e') with Gt => e' :: insert_edit e l' | _ => e :: l end
  end.
Definition sort_edits (l : list (Edit T Key)) : list (Edit T Key) := foldr insert_edit [] l.

(** The loop of [edit] over the sorted edits. *)
Record edit_state := EditState {
  e_cursor : cursor T S Key;
  new_tree : node;
  buffered_items : list T;
  removed : list T;
}.

Definition edit_step (st : edit_state) (e : Edit T Key) : res edit_state :=
  let '(EditState cursor new_tree buffered removed) := st in
  let new_key := edit_key e in
  old_item ← item cursor;
  let behind := match old_item with
                | Some old => is_lt (ord_cmp (key old) new_key)
                | None => false
                end in
  st ← (if behind then
          new_tree ← extend new_tree buffered;
          r ← slice cursor new_key Left;
          new_tree ← append new_tree (fst r);
          old_item ← item (snd r);
          mret (snd r, new_tree, [], old_item)
        else mret (cursor, new_tree, buffered, old_item));
  let '(cursor, new_tree, buffered, old_item) := st in
  st ← match old_item with
       | Some old =>
           if key_is new_key old then c ← next cursor; mret (c, removed ++ [old])
           else mret (cursor, removed)
       | None => mret (cursor, removed)
       end;
  let '(cursor, removed) := st in
  let buffered := match e with Insert item => buffered ++ [item] | Remove _ => buffered end in
  mret (EditState cursor new_tree buffered removed).

Fixpoint edit_loop (edits : list (Edit T Key)) (st : edit_state) : res edit_state :=
  match edits with [] => Ret st | e :: edits' => st ← edit_step st e; edit_loop edits' st end.

Definition edit (self : node) (edits : list (Edit T Key)) : res (node * list T) :=
  match edits with
  | [] => mret (self, [])
  | _ =>
      r ← seek (cursor_new (D:=Key) self) (dim_zero : Key) Left;
      st ← edit_loop (sort_edits edits) (EditState (snd r) new [] []);
      let '(EditState cursor new_tree buffered removed) := st in
      new_tree ← extend new_tree buffered;
      r ← suffix cursor;
      new_tree ← append new_tree (fst r);
      mret (new_tree, removed)
  end.

Definition get (self : node) (k : Key) : option T := snd (find_exact (D:=Key) k Left self).
End Keyed.
