(* ===== verification/KeyedTreeSpec.v ===== *)
(** * What the operations on keyed trees do

    On a tree whose items are in strictly increasing order of their keys, every
    operation is the one on sorted lists. *)

From S2P Require Import Prelude SumTree SumTreeInvariant SumTreeFind.
From S2P Require Import SumCursor SumCursorSeek SumCursorSearch KeyedTree.
Local Open Scope nat_scope.

(** The item found at a key has it as its position; [dim_zero] is the least key. *)
Class KeyedLaws (T S Key : Type) `{Summary S, Item T S, Ord Key, Dimension Key S, KeyedItem T Key} := {
  key_position (d : Key) (x : T) : ord_cmp d (key x) <> Gt -> dim_add d (summary x) = key x;
  zero_least (k : Key) : ord_cmp dim_zero k <> Gt;
}.

Section Ord.
Context {K : Type} `{HO : !Ord K} `{!OrdLaws K}.
Implicit Types a b c : K.

Lemma ord_refl a : ord_cmp a a = Eq.
Proof. by apply ord_eq. Qed.

Lemma ord_gt a b : ord_cmp a b = Gt <-> ord_cmp b a = Lt.
Proof. rewrite (ord_opp b a). by destruct (ord_cmp b a). Qed.

Lemma ord_le_lt a b c : ord_cmp a b <> Gt -> ord_cmp b c = Lt -> ord_cmp a c = Lt.
Proof.
  intros H1 H2. destruct (ord_cmp a b) eqn:E; [|by apply (ord_trans a b c)|done].
  apply ord_eq in E. by subst.
Qed.

Lemma ord_lt_le a b c : ord_cmp a b = Lt -> ord_cmp b c <> Gt -> ord_cmp a c = Lt.
Proof.
  intros H1 H2. destruct (ord_cmp b c) eqn:E; [|by apply (ord_trans a b c)|done].
  apply ord_eq in E. by subst.
Qed.
End Ord.

(** A function without repetitions on a list is injective on it. *)
Lemma NoDup_map_inv' {A B} (f : A -> B) l x y :
  NoDup (map f l) -> In x l -> In y l -> f x = f y -> x = y.
Proof.
  induction l as [|a l IH]; [done|]. cbn [map In]. intros [Ha Hn]%NoDup_cons [->|Hx] [->|Hy] E; [done| | |auto].
  - destruct Ha. rewrite E. apply list_elem_of_In. by apply in_map.
  - destruct Ha. rewrite <-E. apply list_elem_of_In. by apply in_map.
Qed.

Lemma filter_all {A} (f : A -> bool) l :
  Forall (fun x => f x = true) l ->
  List.filter (fun x => negb (f x)) l = [] /\ List.filter f l = l.
Proof.
  induction 1 as [|x l Hx Hl [IH1 IH2]]; [done|]. simpl. by rewrite Hx, IH1, IH2.
Qed.

Section Sorted.
Context {T S Key : Type} `{HS : !Summary S} `{!SummaryLaws S} `{HI : !Item T S}.
Context `{HO : !Ord Key} `{!OrdLaws Key} `{HD : !Dimension Key S} `{!DimensionLaws Key S}.
Context `{HK : !KeyedItem T Key} `{!KeyedLaws T S Key}.
Notation node := (node T S).
Implicit Types (x y : T) (l : list T) (k d : Key) (e : Edit T Key).

Definition key_lt x y : Prop := ord_cmp (key x) (key y) = Lt.
Definition sorted l : Prop := StronglySorted key_lt l.
Definition all_above d l : Prop := Forall (fun x => ord_cmp d (key x) <> Gt) l.

(** The items with smaller keys, with greater ones, and the one with the key. *)
Definition below k l : list T := List.filter (fun x => is_lt (ord_cmp (key x) k)) l.
Definition above k l : list T := List.filter (fun x => is_gt (ord_cmp (key x) k)) l.
Definition lookup_key k l : option T := List.find (key_is k) l.

Lemma sorted_cons x l : sorted (x :: l) <-> Forall (key_lt x) l /\ sorted l.
Proof. split; [by intros [??]%StronglySorted_inv|]. intros [??]. by constructor. Qed.

Lemma sorted_app l1 l2 :
  sorted (l1 ++ l2)
  <-> sorted l1 /\ sorted l2 /\ (forall x y, In x l1 -> In y l2 -> key_lt x y).
Proof.
  induction l1 as [|x l1 IH]; simpl.
  - split; [intros; split_and!; [constructor|done|done]|tauto].
  - rewrite !sorted_cons, IH, Forall_app. rewrite !Forall_forall. split.
    + intros [[H1 H2] (H3 & H4 & H5)]. split_and!; [done..|].
      intros y z [<-|Hy] Hz; [apply H2; by apply list_elem_of_In|by apply H5].
    + intros ((H1 & H2) & H3 & H4). split_and!; [done| |done|done|].
      * intros y Hy%list_elem_of_In. apply H4; [by left|done].
      * intros y z Hy Hz. apply H4; [by right|done].
Qed.

Lemma above_of_lt d x l : ord_cmp d (key x) <> Gt -> Forall (key_lt x) l -> all_above d l.
Proof.
  intros H Hl. eapply Forall_impl; [exact Hl|]. intros y Hy. cbn.
  by rewrite (ord_le_lt _ _ _ H Hy).
Qed.

Lemma above_next x l : Forall (key_lt x) l -> all_above (key x) l.
Proof. apply above_of_lt. by rewrite ord_refl. Qed.

Lemma above_zero l : all_above dim_zero l.
Proof. apply Forall_forall. intros x _. apply zero_least. Qed.

(** Positions are keys. *)
Lemma advance_key d l x : all_above d (l ++ [x]) -> sorted (l ++ [x]) -> advance d (l ++ [x]) = key x.
Proof.
  revert d. induction l as [|y l IH]; intros d Ha Hs.
  - apply Forall_cons in Ha as [Ha _]. by apply key_position.
  - cbn [app] in *. apply Forall_cons in Ha as [Ha _]. apply sorted_cons in Hs as [Hy Hs].
    cbn [advance fold_left]. rewrite key_position by done. apply IH; [by apply above_next|done].
Qed.

Section Target.
Context {Target : Type} `{!SeekTarget Target Key}.
Context (target : Target) (bias : Bias).

(** Greater keys never compare later with the target. *)
Definition monotone : Prop := forall a b, ord_cmp a b = Lt ->
  rank (target_cmp target b) <= rank (target_cmp target a).

Lemma sorted_ordered d l : monotone -> all_above d l -> sorted l -> ordered target d l.
Proof.
  intros Hm Ha Hs p q r -> Hp. destruct p as [|x p _] using rev_ind; [done|].
  destruct q as [|y q _] using rev_ind; [by rewrite app_nil_r|].
  apply Forall_app in Ha as [Ha1 Ha2]. apply Forall_app in Ha2 as [Ha2 _].
  apply sorted_app in Hs as (Hs1 & Hs2 & Hs3). apply sorted_app in Hs2 as (Hs2 & _ & _).
  rewrite advance_key by done. rewrite app_assoc, advance_key.
  - apply Hm, Hs3; apply in_or_app; [right; by left|left].
    apply in_or_app. right. by left.
  - rewrite <-app_assoc. by apply Forall_app.
  - rewrite <-app_assoc. apply sorted_app. split_and!; [done|done|].
    intros u v Hu Hv. apply Hs3; [done|]. apply in_or_app. by left.
Qed.

Lemma stop_later a b :
  monotone -> ord_cmp a b = Lt -> target_in target bias a = true -> target_in target bias b = true.
Proof. intros Hm Hab. apply stop_rank. by apply Hm. Qed.

Definition stop_at x : bool := target_in target bias (key x).

(** The scan passes the items that do not stop it. *)
Lemma scan_sorted d l :
  monotone -> all_above d l -> sorted l ->
  before target bias d l = List.filter (fun x => negb (stop_at x)) l
  /\ drop (length (before target bias d l)) l = List.filter stop_at l.
Proof.
  intros Hm. revert d. induction l as [|x l IH]; intros d Ha Hs; [done|].
  apply Forall_cons in Ha as [Ha Ha']. apply sorted_cons in Hs as [Hx Hs]. simpl.
  rewrite key_position by done. change (target_in target bias (key x)) with (stop_at x).
  destruct (stop_at x) eqn:E; simpl.
  - assert (Hall : Forall (fun y => stop_at y = true) l).
    { eapply Forall_impl; [exact Hx|]. intros y Hy. by apply (stop_later (key x)). }
    destruct (filter_all _ _ Hall) as [-> ->]. done.
  - destruct (IH (key x)) as [E1 E2]; [by apply above_next|done|]. by rewrite <-E1, E2.
Qed.
End Target.

Lemma key_monotone k : monotone k.
Proof.
  intros a b Hab. unfold target_cmp, ord_target.
  destruct (ord_cmp k b) eqn:E; simpl; [|lia|].
  - apply ord_eq in E. subst b. apply ord_gt in Hab. rewrite Hab. simpl. lia.
  - apply ord_gt in E. assert (H : ord_cmp a k = Lt) by by apply (ord_trans a b k).
    apply ord_gt in H. rewrite H. simpl. lia.
Qed.

Lemma key_seekable k l : sorted l -> seekable (T:=T) (S:=S) k [] l.
Proof.
  intros Hs. split; [|by apply sorted_ordered; [apply key_monotone|apply above_zero|]].
  cbn. intros H. apply ord_gt in H. by apply (zero_least k).
Qed.

(** For a key and the left bias: the smaller items, the one with the key, and the
    greater ones. *)
Lemma below_filter k l : List.filter (fun x => negb (stop_at k Left x)) l = below k l.
Proof.
  apply List.filter_ext. intros x. unfold stop_at, target_in, target_cmp, ord_target.
  rewrite (ord_opp k (key x)). by destruct (ord_cmp k (key x)).
Qed.

Lemma all_lt_above x l : Forall (key_lt x) l -> above (key x) l = l.
Proof.
  intros H. induction H as [|y l Hy H IH]; [done|]. unfold above in *. simpl.
  apply ord_gt in Hy. by rewrite Hy, IH.
Qed.

Lemma no_key x l k : ord_cmp (key x) k <> Lt -> Forall (key_lt x) l -> lookup_key k l = None.
Proof.
  intros Hk H. induction H as [|y l Hy H IH]; [done|]. unfold lookup_key in *. simpl.
  unfold key_is. destruct (ord_cmp (key y) k) eqn:E; [|done..].
  apply ord_eq in E. subst k. exfalso. by apply Hk.
Qed.

Definition from k l : list T := List.filter (fun x => negb (is_lt (ord_cmp (key x) k))) l.

Lemma from_split k l : sorted l -> from k l = option_list (lookup_key k l) ++ above k l.
Proof.
  induction l as [|x l IH]; intros Hs; [done|]. apply sorted_cons in Hs as [Hx Hs].
  specialize (IH Hs). pose proof (all_lt_above x l Hx) as Ha. pose proof (no_key x l k) as Hno.
  unfold from, lookup_key, above in *. simpl. unfold key_is at 1.
  destruct (ord_cmp (key x) k) eqn:E; simpl; [|done|].
  - rewrite IH, Hno by done. apply ord_eq in E. subst k. simpl. by rewrite Ha.
  - rewrite IH. by rewrite Hno by done.
Qed.

Lemma rest_filter k l :
  sorted l -> List.filter (stop_at k Left) l = option_list (lookup_key k l) ++ above k l.
Proof.
  intros Hs. rewrite <-from_split by done. apply List.filter_ext. intros x.
  unfold stop_at, target_in, target_cmp, ord_target.
  rewrite (ord_opp k (key x)). by destruct (ord_cmp k (key x)).
Qed.

Lemma split_key k l : sorted l -> l = below k l ++ option_list (lookup_key k l) ++ above k l.
Proof.
  intros Hs. destruct (scan_sorted k Left dim_zero l (key_monotone k) (above_zero l) Hs) as [E1 E2].
  rewrite below_filter in E1. rewrite <-rest_filter by done. rewrite <-E2, <-E1.
  apply before_prefix.
Qed.

Lemma lookup_key_Some k l x : lookup_key k l = Some x -> key x = k.
Proof.
  intros [_ H]%find_some. unfold key_is in H. destruct (ord_cmp (key x) k) eqn:E; [|done..].
  by apply ord_eq.
Qed.

(** Whether the item at a place has the key. *)
Lemma key_at_rest k l x r :
  sorted l -> option_list (lookup_key k l) ++ above k l = x :: r ->
  if key_is k x then lookup_key k l = Some x /\ r = above k l else lookup_key k l = None.
Proof.
  intros Hs E. destruct (lookup_key k l) as [y|] eqn:El; simpl in E.
  - injection E as <- <-. apply lookup_key_Some in El. unfold key_is. by rewrite El, ord_refl.
  - assert (Hx : In x (above k l)) by (rewrite E; by left).
    apply filter_In in Hx as [_ Hx]. unfold key_is. by destruct (ord_cmp (key x) k).
Qed.
End Sorted.

Section Operations.
Context {T S Key : Type} `{HS : !Summary S} `{!SummaryLaws S} `{HI : !Item T S}.
Context `{HO : !Ord Key} `{!OrdLaws Key} `{HD : !Dimension Key S} `{!DimensionLaws Key S}.
Context `{HK : !KeyedItem T Key} `{!KeyedLaws T S Key}.
Notation node := (node T S).
Notation cursor := (cursor T S Key).
Implicit Types (x y : T) (l : list T) (k d : Key) (e : Edit T Key) (t : node) (c : cursor).
Notation sorted := (sorted (T:=T) (Key:=Key)).
Notation below := (below (T:=T) (Key:=Key)).
Notation above := (above (T:=T) (Key:=Key)).
Notation lookup_key := (lookup_key (T:=T) (Key:=Key)).
Notation at_place := (at_place (D:=Key)).

Lemma sorted_below k l : sorted l -> sorted (below k l).
Proof.
  intros Hs. rewrite (split_key (S:=S) k l) in Hs by done. by apply sorted_app in Hs as [? _].
Qed.

Lemma sorted_above k l : sorted l -> sorted (above k l).
Proof.
  intros Hs. rewrite (split_key (S:=S) k l) in Hs by done.
  apply sorted_app in Hs as (_ & Hs & _). by apply sorted_app in Hs as (_ & Hs & _).
Qed.

Lemma below_lt k l x : In x (below k l) -> ord_cmp (key x) k = Lt.
Proof. intros [_ H]%filter_In. by destruct (ord_cmp (key x) k). Qed.

Lemma above_gt k l x : In x (above k l) -> ord_cmp k (key x) = Lt.
Proof. intros [_ H]%filter_In. apply ord_gt. by destruct (ord_cmp (key x) k). Qed.

Lemma sorted_middle k l x :
  sorted l -> key x = k -> sorted (below k l ++ x :: above k l).
Proof.
  intros Hs Hx. apply sorted_app. split_and!; [by apply sorted_below| |].
  - apply sorted_cons. split; [|by apply sorted_above]. apply Forall_forall.
    intros y Hy%list_elem_of_In%above_gt. unfold key_lt. by rewrite Hx.
  - intros y z Hy%below_lt [<-|Hz%above_gt]; unfold key_lt; [by rewrite Hx|].
    by apply (ord_trans _ k).
Qed.

Lemma sorted_without k l : sorted l -> sorted (below k l ++ above k l).
Proof.
  intros Hs. apply sorted_app. split_and!; [by apply sorted_below|by apply sorted_above|].
  intros y z Hy%below_lt Hz%above_gt. by apply (ord_trans _ k).
Qed.

(** ** Looking up *)

Lemma get_ok h t k : wf h t -> sorted (to_list t) -> get t k = lookup_key k (to_list t).
Proof.
  intros Hw Hs. unfold get. rewrite (find_exact_ok k h t Hw).
  2: { apply sorted_ordered; [apply key_monotone|apply above_zero|done]. }
  unfold landing.
  destruct (scan_sorted k Left dim_zero _ (key_monotone k) (above_zero (to_list t)) Hs) as [E1 E2].
  rewrite E2, E1. rewrite rest_filter by done.
  destruct (option_list (lookup_key k (to_list t)) ++ above k (to_list t)) as [|x r] eqn:E.
  - by destruct (lookup_key k (to_list t)).
  - assert (Hpos : advance dim_zero (List.filter (fun y => negb (stop_at k Left y)) (to_list t) ++ [x])
                   = key x).
    { apply advance_key; [apply above_zero|]. rewrite below_filter.
      pose proof (split_key (S:=S) k (to_list t) Hs) as El. rewrite E in El.
      rewrite El in Hs at 1. rewrite cons_middle, app_assoc in Hs.
      by apply sorted_app in Hs as [Hs _]. }
    rewrite Hpos. cbn [snd exactly].
    pose proof (key_at_rest k (to_list t) x r Hs E) as Hk.
    unfold key_is, is_equal, target_cmp, ord_target in *. rewrite (ord_opp (key x) k).
    destruct (ord_cmp (key x) k); simpl in *; [by destruct Hk as [-> _]|by rewrite Hk..].
Qed.

(** ** Editing a list *)

Definition inserted e : list T := match e with Insert x => [x] | Remove _ => [] end.

(** The edits applied in turn to what is left of the list. *)
Fixpoint edited l (edits : list (Edit T Key)) : list T :=
  match edits with
  | [] => l
  | e :: edits' => below (edit_key e) l ++ inserted e ++ edited (above (edit_key e) l) edits'
  end.

Fixpoint removed_by l (edits : list (Edit T Key)) : list T :=
  match edits with
  | [] => []
  | e :: edits' =>
      option_list (lookup_key (edit_key e) l) ++ removed_by (above (edit_key e) l) edits'
  end.

Lemma lookup_key_app k l1 l2 :
  lookup_key k (l1 ++ l2)
  = match lookup_key k l1 with Some x => Some x | None => lookup_key k l2 end.
Proof.
  unfold KeyedTreeSpec.lookup_key. induction l1 as [|x l1 IH]; [done|]. simpl.
  by destruct (key_is k x).
Qed.

Lemma lookup_key_none k l : (forall x, In x l -> ord_cmp (key x) k <> Eq) -> lookup_key k l = None.
Proof.
  intros H. unfold KeyedTreeSpec.lookup_key. destruct (List.find _ _) as [x|] eqn:E; [|done].
  apply find_some in E as [Hx Hk]. specialize (H x Hx). unfold key_is in Hk.
  by destruct (ord_cmp (key x) k).
Qed.

Lemma lookup_below k l : lookup_key k (below k l) = None.
Proof. apply lookup_key_none. intros x Hx%below_lt. by rewrite Hx. Qed.

Lemma lookup_above k l : lookup_key k (above k l) = None.
Proof. apply lookup_key_none. intros x Hx%above_gt%ord_gt. by rewrite Hx. Qed.

Lemma lookup_below_lt k k' l :
  sorted l -> ord_cmp k' k = Lt -> lookup_key k' (below k l) = lookup_key k' l.
Proof.
  intros Hs Hk. rewrite (split_key (S:=S) k l Hs) at 2. rewrite lookup_key_app.
  destruct (lookup_key k' (below k l)); [done|]. symmetry. apply lookup_key_none.
  intros x [Hx|Hx]%in_app_or.
  - destruct (lookup_key k l) as [y|] eqn:E; [|done]. apply lookup_key_Some in E.
    destruct Hx as [<-|[]]. rewrite E. apply ord_gt in Hk. by rewrite Hk.
  - apply above_gt in Hx. pose proof (ord_trans _ _ _ Hk Hx) as Hlt. apply ord_gt in Hlt.
    by rewrite Hlt.
Qed.

Lemma lookup_above_gt k k' l :
  sorted l -> ord_cmp k k' = Lt -> lookup_key k' (above k l) = lookup_key k' l.
Proof.
  intros Hs Hk. rewrite (split_key (S:=S) k l Hs) at 2. rewrite !lookup_key_app.
  rewrite (lookup_key_none k' (below k l)).
  2: { intros x Hx%below_lt. by rewrite (ord_trans _ _ _ Hx Hk). }
  rewrite (lookup_key_none k' (option_list _)); [done|].
  destruct (lookup_key k l) as [y|] eqn:E; [|done]. apply lookup_key_Some in E.
  intros x [<-|[]]. by rewrite E, Hk.
Qed.

(** Edits with distinct keys, in order. *)
Definition edit_lt e1 e2 : Prop := ord_cmp (edit_key e1) (edit_key e2) = Lt.
Definition find_edit k (es : list (Edit T Key)) : option (Edit T Key) :=
  List.find (fun e => is_eq (ord_cmp (edit_key e) k)) es.

Lemma inserted_key e x : In x (inserted e) -> key x = edit_key e.
Proof. destruct e; simpl; [by intros [->|[]]|done]. Qed.

Lemma edited_from l es x :
  In x (edited l es) -> In x l \/ exists e, In e es /\ In x (inserted e).
Proof.
  revert l. induction es as [|e es IH]; intros l; simpl; [by left|].
  intros [Hx|[Hx|Hx]%in_app_or]%in_app_or.
  - apply filter_In in Hx as [Hx _]. by left.
  - right. exists e. split; [by left|done].
  - apply IH in Hx as [Hx|(e' & He' & Hx)].
    + apply filter_In in Hx as [Hx _]. by left.
    + right. exists e'. split; [by right|done].
Qed.

Lemma edited_after k l es x :
  Forall (fun e => ord_cmp k (edit_key e) = Lt) es -> In x (edited (above k l) es) ->
  ord_cmp k (key x) = Lt.
Proof.
  intros He Hx. apply edited_from in Hx as [Hx%above_gt|(e & Hin & Hx)]; [done|].
  apply inserted_key in Hx. rewrite Hx. rewrite Forall_forall in He. apply He.
  by apply list_elem_of_In.
Qed.

Lemma edited_sorted l es : sorted l -> StronglySorted edit_lt es -> sorted (edited l es).
Proof.
  revert l. induction es as [|e es IH]; intros l Hs He; [done|].
  apply StronglySorted_inv in He as [He Hall]. cbn [edited]. set (k := edit_key e) in *.
  assert (Hafter : forall x, In x (edited (above k l) es) -> ord_cmp k (key x) = Lt)
    by by intros x; apply edited_after.
  rewrite app_assoc. apply sorted_app. split_and!.
  - destruct e as [x|k']; simpl; [|rewrite app_nil_r; by apply sorted_below].
    apply sorted_app. split_and!; [by apply sorted_below|by repeat constructor|].
    intros y z Hy%below_lt [<-|[]]. exact Hy.
  - apply IH; [by apply sorted_above|done].
  - intros x y [Hx%below_lt|Hx%inserted_key]%in_app_or Hy%Hafter; unfold key_lt.
    + by apply (ord_trans _ k).
    + by rewrite Hx.
Qed.

Lemma find_edit_none k es :
  Forall (fun e => ord_cmp k (edit_key e) = Lt) es -> find_edit k es = None.
Proof.
  intros H. induction H as [|e es He H IH]; [done|]. unfold find_edit in *. simpl.
  apply ord_gt in He. by rewrite He.
Qed.

Lemma edited_lookup k l es :
  sorted l -> StronglySorted edit_lt es ->
  lookup_key k (edited l es)
  = match find_edit k es with Some e => head (inserted e) | None => lookup_key k l end.
Proof.
  revert l. induction es as [|e es IH]; intros l Hs He; [done|].
  apply StronglySorted_inv in He as [He Hall]. cbn [edited]. set (ke := edit_key e) in *.
  assert (Hafter : forall x, In x (edited (above ke l) es) -> ord_cmp ke (key x) = Lt)
    by by intros x; apply edited_after.
  unfold find_edit. cbn [List.find]. fold (find_edit k es). fold ke.
  rewrite !lookup_key_app. destruct (ord_cmp ke k) eqn:E; cbn [is_eq].
  - apply ord_eq in E. rewrite <-E, lookup_below. destruct e as [x|k']; simpl.
    + unfold KeyedTreeSpec.lookup_key. simpl. unfold key_is.
      change (ord_cmp (key x) ke) with (ord_cmp ke ke). by rewrite ord_refl.
    + apply lookup_key_none. intros x Hx%Hafter%ord_gt. by rewrite Hx.
  - rewrite (lookup_key_none k (below ke l)).
    2: { intros x Hx%below_lt. by rewrite (ord_trans _ _ _ Hx E). }
    rewrite (lookup_key_none k (inserted e)).
    2: { intros x Hx%inserted_key. rewrite Hx. fold ke. by rewrite E. }
    rewrite IH by (done || by apply sorted_above). by rewrite lookup_above_gt.
  - apply ord_gt in E. rewrite lookup_below_lt by done. rewrite find_edit_none.
    2: { eapply Forall_impl; [exact Hall|]. intros e' He'. by apply (ord_trans _ ke). }
    destruct (lookup_key k l); [done|].
    rewrite (lookup_key_none k (inserted e)).
    2: { intros x Hx%inserted_key. rewrite Hx. fold ke. apply ord_gt in E. by rewrite E. }
    apply lookup_key_none. intros x Hx%Hafter.
    pose proof (ord_trans _ _ _ E Hx) as Hlt. apply ord_gt in Hlt. by rewrite Hlt.
Qed.

Lemma insert_edit_perm e es : Permutation (insert_edit e es) (e :: es).
Proof.
  induction es as [|e' es IH]; [done|]. simpl. destruct (ord_cmp _ _); [done..|].
  rewrite IH. constructor.
Qed.

Lemma sort_edits_perm es : Permutation (sort_edits es) es.
Proof. induction es as [|e es IH]; [done|]. cbn. by rewrite insert_edit_perm, IH. Qed.

Lemma insert_edit_sorted e es :
  StronglySorted edit_lt es -> Forall (fun e' => edit_key e' <> edit_key e) es ->
  StronglySorted edit_lt (insert_edit e es).
Proof.
  induction 1 as [|e' es Hs IH He']; intros Hn; [by repeat constructor|].
  apply Forall_cons in Hn as [Hn Hns]. simpl. destruct (ord_cmp (edit_key e) (edit_key e')) eqn:E.
  - apply ord_eq in E. by symmetry in E.
  - constructor; [by constructor|]. constructor; [done|]. eapply Forall_impl; [exact He'|].
    intros e2 H2. by apply (ord_trans _ (edit_key e')).
  - constructor; [by apply IH|]. rewrite insert_edit_perm. constructor; [by apply ord_gt|done].
Qed.

Lemma sort_edits_sorted es : NoDup (map edit_key es) -> StronglySorted edit_lt (sort_edits es).
Proof.
  induction es as [|e es IH]; intros Hn; [constructor|]. cbn in Hn.
  apply NoDup_cons in Hn as [Hni Hn]. apply insert_edit_sorted; [by apply IH|].
  apply Forall_forall. intros e' He' E. apply Hni. rewrite <-E.
  apply (list_elem_of_fmap_2 edit_key). by rewrite <-(sort_edits_perm es).
Qed.

(** ** Inserting and removing *)
(** Members of a sorted list are what looking up their key finds. *)
Lemma lookup_key_In l x : sorted l -> In x l <-> lookup_key (key x) l = Some x.
Proof.
  intros Hs. split; [|by intros [H _]%find_some]. intros Hin.
  apply in_split in Hin as (l1 & l2 & ->). apply sorted_app in Hs as (_ & _ & H).
  rewrite lookup_key_app, lookup_key_none.
  - unfold KeyedTreeSpec.lookup_key. cbn [List.find]. unfold key_is. by rewrite ord_refl.
  - intros y Hy E. specialize (H y x Hy ltac:(by left)). unfold key_lt in H. congruence.
Qed.

(** After edits with distinct keys, the items are those inserted and those whose key
    no edit has. *)
Lemma edited_In l edits x :
  sorted l -> NoDup (map edit_key edits) ->
  In x (edited l (sort_edits edits))
  <-> In (Insert x) edits \/ (In x l /\ forall e, In e edits -> edit_key e <> key x).
Proof.
  intros Hs Hn. pose proof (sort_edits_sorted _ Hn) as He.
  assert (Hin : forall e, In e (sort_edits edits) <-> In e edits)
    by (intros e; rewrite <-!list_elem_of_In; by rewrite sort_edits_perm).
  rewrite lookup_key_In by (by apply edited_sorted). rewrite edited_lookup by done.
  destruct (find_edit (key x) (sort_edits edits)) as [e|] eqn:E.
  - apply find_some in E as [He1 He2]. apply Hin in He1.
    assert (Ek : edit_key e = key x) by (apply ord_eq; by destruct (ord_cmp _ _)).
    split.
    + intros Ex. destruct e as [y|k]; [|done]. left. by injection Ex as ->.
    + intros [Hx|[_ Hx]]; [|by destruct (Hx e He1)].
      assert (Ee : e = Insert x) by (by apply (NoDup_map_inv' edit_key edits)). by subst.
  - rewrite <-lookup_key_In by done. split; [intros Hx; right; split; [done|]|intros [Hx|[Hx _]]; [|done]].
    + intros e He1 Ek. pose proof (find_none _ _ E e (proj2 (Hin e) He1)) as Hf. cbn in Hf.
      by rewrite Ek, ord_refl in Hf.
    + pose proof (find_none _ _ E _ (proj2 (Hin _) Hx)) as Hf. cbn in Hf. by rewrite ord_refl in Hf.
Qed.

Section Tree.
Context (t : node) (h : nat) (Hw : wf h t) (Hh : h < STACK_CAPACITY).
Context (Hs : sorted (to_list t)).
Notation l := (to_list t).

Lemma ahead_place_of pre post : pre ++ post = l -> ahead t (place_of pre post) pre post.
Proof. destruct post as [|x post]; simpl; [|done]. by rewrite app_nil_r. Qed.

Lemma suffix_at c pre post :
  at_place t h c (place_of pre post) -> pre ++ post = l ->
  exists t' h' c', suffix c = Ret (t', c') /\ wf h' t' /\ to_list t' = post.
Proof.
  intros Hc El. destruct (suffix_ok t h c _ _ _ Hh Hw Hc (ahead_place_of _ _ El))
    as (t' & h' & c' & E & Hw' & El' & _). by exists t', h', c'.
Qed.

Lemma slice_key c p pre post k :
  at_place t h c p -> ahead t p pre post -> (pre = [] \/ exists x, In x post /\ ord_cmp (key x) k = Lt) ->
  exists t' h' c', slice c k Left = Ret (t', c') /\ wf h' t' /\ to_list t' = below k post
    /\ at_place t h c'
         (place_of (pre ++ below k post) (option_list (lookup_key k post) ++ above k post)).
Proof.
  intros Hc Hp Hpre. pose proof (ahead_split _ _ _ _ _ _ Hc Hp) as Hl.
  pose proof Hs as Hs'. rewrite <-Hl in Hs'. apply sorted_app in Hs' as (Hs1 & Hs2 & Hs3).
  assert (Hpos : all_above (advance dim_zero pre) post
                 /\ (ord_cmp k (advance dim_zero pre) <> Lt)).
  { destruct pre as [|y pre _] using rev_ind.
    - split; [apply above_zero|]. cbn. intros E%ord_gt. by apply (zero_least (T:=T) (S:=S) k).
    - rewrite advance_key; [|apply above_zero|done].
      assert (Hy : Forall (key_lt y) post).
      { apply Forall_forall. intros z Hz%list_elem_of_In. apply Hs3; [|done].
        apply in_or_app. right. by left. }
      split; [by apply above_next|]. destruct Hpre as [E|(x & Hx & Hk)]; [by destruct pre|].
      rewrite Forall_forall in Hy. apply list_elem_of_In in Hx. specialize (Hy x Hx).
      assert (Hyk : ord_cmp (key y) k = Lt) by by apply (ord_trans _ (key x)).
      apply ord_gt in Hyk. by rewrite Hyk. }
  destruct Hpos as [Hab Hle].
  destruct (slice_ok t h k Left c p pre post Hh Hw Hc Hp) as (t' & h' & c' & E & Hw' & El & Hc').
  { split; [done|]. apply sorted_ordered; [apply key_monotone|done|done]. }
  destruct (scan_sorted k Left _ post (key_monotone k) Hab Hs2) as [E1 E2].
  unfold left_over, passed in *. rewrite E2, E1, below_filter, rest_filter in Hc' by done.
  rewrite E1, below_filter in El. by exists t', h', c'.
Qed.

(** Stepping over the item with the key, if the cursor is at it. *)
Lemma take_key c pre post k :
  at_place t h c (place_of pre (option_list (lookup_key k post) ++ above k post)) ->
  sorted post ->
  exists i c',
    item c = Ret i
    /\ match i with
       | Some y => if key_is k y then c ← next c; mret (c, Some y) else mret (c, None)
       | None => mret (c, None)
       end = Ret (c', lookup_key k post)
    /\ at_place t h c' (place_of (pre ++ option_list (lookup_key k post)) (above k post)).
Proof.
  intros Hc Hsp. pose proof (item_ok _ _ _ _ Hc) as Hi.
  destruct (option_list (lookup_key k post) ++ above k post) as [|y r] eqn:E; cbn [place_of] in *.
  - exists None, c. apply app_nil in E as [E1 E2]. rewrite E1, E2, app_nil_r.
    split_and!; [done| |done]. by destruct (lookup_key k post).
  - exists (Some y). pose proof (key_at_rest k post y r Hsp E) as Hk.
    destruct (key_is k y).
    + destruct Hk as [Hk ->]. destruct (next_ok t h Hw c _ Hh Hc) as (c' & -> & Hc').
      exists c'. rewrite Hk. by split_and!.
    + exists c. rewrite Hk in *. simpl in E. rewrite E. cbn [option_list]. rewrite app_nil_r.
      by split_and!.
Qed.

Lemma insert_or_replace_ok x :
  let k := key x in
  exists t' h', insert_or_replace t x = Ret (t', lookup_key k l) /\ wf h' t'
    /\ to_list t' = below k l ++ x :: above k l.
Proof.
  intros k. unfold insert_or_replace. fold k.
  destruct (slice_key (cursor_new t) Unsought [] l k (new_at_place t h) (conj eq_refl eq_refl)
              (or_introl eq_refl)) as (t1 & h1 & c1 & -> & Hw1 & El1 & Hc1).
  cbn [mbind res_bind]. destruct (take_key c1 _ l k Hc1 Hs) as (i & c2 & Hi & Hm & Hc2).
  rewrite Hi. cbn [mbind res_bind]. rewrite Hm. cbn [mbind res_bind].
  destruct (push_ok h1 t1 x Hw1) as (t2 & h2 & -> & Hw2 & El2). cbn [mbind res_bind].
  destruct (suffix_at c2 _ _ Hc2) as (t3 & h3 & c3 & -> & Hw3 & El3).
  { rewrite <-app_assoc. symmetry. by apply (split_key (S:=S)). }
  cbn [mbind res_bind fst].
  destruct (append_ok h2 h3 t2 t3 Hw2 Hw3) as (t4 & h4 & -> & Hw4 & El4 & _).
  exists t4, h4. split_and!; [done|done|]. rewrite El4, El2, El1, El3. simpl. by rewrite <-app_assoc.
Qed.

Lemma remove_ok k :
  exists t' h', remove t k = Ret (t', lookup_key k l) /\ wf h' t'
    /\ to_list t' = below k l ++ above k l.
Proof.
  unfold remove.
  destruct (slice_key (cursor_new t) Unsought [] l k (new_at_place t h) (conj eq_refl eq_refl)
              (or_introl eq_refl)) as (t1 & h1 & c1 & -> & Hw1 & El1 & Hc1).
  cbn [mbind res_bind]. destruct (take_key c1 _ l k Hc1 Hs) as (i & c2 & Hi & Hm & Hc2).
  rewrite Hi. cbn [mbind res_bind]. rewrite Hm. cbn [mbind res_bind].
  destruct (suffix_at c2 _ _ Hc2) as (t3 & h3 & c3 & -> & Hw3 & El3).
  { rewrite <-app_assoc. symmetry. by apply (split_key (S:=S)). }
  cbn [mbind res_bind fst].
  destruct (append_ok h1 h3 t1 t3 Hw1 Hw3) as (t4 & h4 & -> & Hw4 & El4 & _).
  exists t4, h4. split_and!; [done|done|]. by rewrite El4, El1, El3.
Qed.

(** ** Editing *)

(** The state of the loop: [post] is left of the tree, [out] is built so far. *)
Definition editing (st : edit_state) (post out rem : list T) : Prop :=
  (exists pre, pre ++ post = l /\ at_place t h (e_cursor st) (place_of pre post))
  /\ (exists h', wf h' (new_tree st)) /\ to_list (new_tree st) ++ buffered_items st = out
  /\ removed st = rem.

Lemma head_below k x post :
  sorted (x :: post) -> is_lt (ord_cmp (key x) k) = false -> below k (x :: post) = [].
Proof.
  intros [Hx Hsp]%sorted_cons Hk. unfold below. simpl. rewrite Hk.
  induction Hx as [|y post Hy Hx IH]; [done|]. simpl.
  assert (Hyk : is_lt (ord_cmp (key y) k) = false).
  { destruct (ord_cmp (key y) k) eqn:E; [done| |done].
    pose proof (ord_trans _ _ _ Hy E) as E'. by rewrite E' in Hk. }
  rewrite Hyk. apply IH. by apply sorted_cons in Hsp as [_ ?].
Qed.

(** Catching up with a key: the smaller items move to the new tree. *)
Lemma catch_up c pre post nt buf k h1 :
  at_place t h c (place_of pre post) -> pre ++ post = l -> wf h1 nt ->
  exists c' nt' buf' i,
    (old_item ← item c;
     let behind := match old_item with
                   | Some old => is_lt (ord_cmp (key old) k)
                   | None => false
                   end in
     (if behind then
        new_tree ← extend nt buf;
        r ← slice c k Left;
        new_tree ← append new_tree (fst r);
        old_item ← item (snd r);
        mret (snd r, new_tree, [], old_item)
      else mret (c, nt, buf, old_item))) = Ret (c', nt', buf', i)
    /\ item c' = Ret i
    /\ at_place t h c'
         (place_of (pre ++ below k post) (option_list (lookup_key k post) ++ above k post))
    /\ (exists h', wf h' nt')
    /\ to_list nt' ++ buf' = (to_list nt ++ buf) ++ below k post.
Proof.
  intros Hc Hl Hn. pose proof Hs as Hs'. rewrite <-Hl in Hs'.
  apply sorted_app in Hs' as (Hs1 & Hs2 & Hs3).
  rewrite (item_ok _ _ _ _ Hc). destruct post as [|x post].
  - exists c, nt, buf, None. cbn [place_of mbind res_bind]. rewrite (item_ok _ _ _ _ Hc).
    unfold below, above, lookup_key. cbn [List.filter List.find option_list app place_of].
    rewrite !app_nil_r. split_and!; [done|done|done|by exists h1|done].
  - cbn [place_of mbind res_bind]. destruct (is_lt (ord_cmp (key x) k)) eqn:E.
    + destruct (extend_ok h1 nt buf Hn) as (nt1 & h2 & -> & Hw1 & El1). cbn [mbind res_bind].
      destruct (slice_key c _ pre (x :: post) k Hc (ahead_place_of _ _ Hl))
        as (t2 & h3 & c2 & -> & Hw2 & El2 & Hc2).
      { right. exists x. split; [by left|]. by destruct (ord_cmp (key x) k). }
      cbn [mbind res_bind fst snd].
      destruct (append_ok h2 h3 nt1 t2 Hw1 Hw2) as (nt2 & h4 & -> & Hw3 & El3 & _).
      assert (Hi2 : exists i, item c2 = Ret i).
      { rewrite (item_ok _ _ _ _ Hc2).
        destruct (option_list _ ++ _); by eexists. }
      destruct Hi2 as [i Hi2]. cbn [mbind res_bind]. rewrite Hi2.
      exists c2, nt2, [], i. split_and!; [done|done|done|by exists h4|].
      by rewrite app_nil_r, El3, El2, El1.
    + assert (Hb : below k (x :: post) = []) by by apply head_below.
      exists c, nt, buf, (Some x). rewrite Hb, !app_nil_r.
      pose proof (split_key (S:=S) k (x :: post) Hs2) as Hsp. rewrite Hb in Hsp. cbn [app] in Hsp.
      rewrite <-Hsp. split_and!; [done|by rewrite (item_ok _ _ _ _ Hc)|done|by exists h1|done].
Qed.

Lemma edit_step_ok st post out rem e :
  editing st post out rem ->
  let k := edit_key e in
  exists st', edit_step st e = Ret st'
    /\ editing st' (above k post) ((out ++ below k post) ++ inserted e)
         (rem ++ option_list (lookup_key k post)).
Proof.
  intros ((pre & Hl & Hc) & [h1 Hn] & Ho & Hr) k.
  destruct st as [c nt buf rem']. cbn [e_cursor new_tree buffered_items removed] in *.
  destruct (catch_up c pre post nt buf k h1 Hc Hl Hn) as (c1 & nt1 & buf1 & i & E & Hi & Hc1 & Hn1 & Ho1).
  pose proof Hs as Hs'. rewrite <-Hl in Hs'. apply sorted_app in Hs' as (_ & Hs2 & _).
  destruct (take_key c1 _ post k Hc1 Hs2) as (i' & c2 & Hi' & Hm & Hc2).
  rewrite Hi in Hi'. injection Hi' as <-. unfold edit_step. fold k.
  destruct (item c) as [i0|] eqn:Ei; [|done]. cbn [mbind res_bind] in *. rewrite E.
  cbn [mbind res_bind].
  assert (Hm' : match i with
                | Some old => if key_is k old then c ← next c1; mret (c, rem' ++ [old])
                              else mret (c1, rem')
                | None => mret (c1, rem')
                end = Ret (c2, rem' ++ option_list (lookup_key k post))).
  { destruct i as [y|]; [destruct (key_is k y)|].
    - destruct (next c1); [|done]. cbn [mbind res_bind mret res_ret] in *. injection Hm as -> <-. done.
    - injection Hm as -> <-. by rewrite app_nil_r.
    - injection Hm as -> <-. by rewrite app_nil_r. }
  rewrite Hm'. cbn [mbind res_bind]. eexists. split; [reflexivity|].
  split_and!; cbn [e_cursor new_tree buffered_items removed].
  - eexists. split; [|exact Hc2]. rewrite <-Hl, <-!app_assoc. f_equal. symmetry. by apply (split_key (S:=S)).
  - done.
  - rewrite <-Ho, <-Ho1. destruct e; simpl; by rewrite ?app_assoc, ?app_nil_r.
  - by rewrite Hr.
Qed.

Lemma edit_loop_ok edits st post out rem :
  editing st post out rem ->
  exists st' post' out', edit_loop edits st = Ret st'
    /\ editing st' post' out' (rem ++ removed_by post edits)
    /\ out' ++ post' = out ++ edited post edits.
Proof.
  revert st post out rem. induction edits as [|e edits IH]; intros st post out rem He.
  - exists st, post, out. cbn [edit_loop removed_by edited]. by rewrite app_nil_r.
  - destruct (edit_step_ok st post out rem e He) as (st1 & E & He1).
    cbn [edit_loop]. rewrite E. cbn [mbind res_bind].
    destruct (IH _ _ _ _ He1) as (st2 & post2 & out2 & E2 & He2 & Hl2).
    exists st2, post2, out2. cbn [removed_by edited]. rewrite <-app_assoc in He2.
    split_and!; [done|done|]. by rewrite Hl2, <-!app_assoc.
Qed.

Lemma edit_ok edits :
  exists t' h', edit t edits = Ret (t', removed_by l (sort_edits edits)) /\ wf h' t'
    /\ to_list t' = edited l (sort_edits edits).
Proof.
  destruct edits as [|e0 edits0]; [by exists t, h|]. unfold edit.
  set (es := sort_edits (e0 :: edits0)).
  destruct (seek_ok t h (dim_zero : Key) Left (cursor_new t) Unsought Hh Hw (new_at_place t h)
              (key_seekable _ _ Hs)) as (c & -> & Hc).
  cbn [mbind res_bind snd].
  destruct (scan_sorted (dim_zero : Key) Left dim_zero l (key_monotone _) (above_zero l) Hs) as [E1 E2].
  rewrite E2, E1, below_filter, rest_filter in Hc by done.
  assert (Hb : below dim_zero l = []).
  { destruct (below dim_zero l) as [|y bl] eqn:Eb; [done|].
    assert (Hy : In y (below dim_zero l)) by (rewrite Eb; by left).
    apply below_lt in Hy. apply ord_gt in Hy. by apply (zero_least (T:=T) (S:=S) (key y)) in Hy. }
  pose proof (split_key (S:=S) dim_zero l Hs) as Hsp. rewrite Hb in Hsp, Hc. cbn [app] in Hsp, Hc.
  rewrite <-Hsp in Hc.
  destruct (edit_loop_ok es (EditState c new [] []) l [] [])
    as (st & post & out & -> & He & Hl).
  { split_and!; [|by exists 0; exact new_ok|done|done]. by exists []. }
  destruct st as [c' nt buf rem]. destruct He as ((pre & Hpre & Hc') & [h1 Hn] & Ho & Hr).
  cbn [e_cursor new_tree buffered_items removed mbind res_bind app] in *.
  destruct (extend_ok h1 nt buf Hn) as (nt1 & h2 & -> & Hw1 & El1). cbn [mbind res_bind].
  destruct (suffix_at c' _ _ Hc' Hpre) as (t3 & h3 & c3 & -> & Hw3 & El3). cbn [mbind res_bind fst].
  destruct (append_ok h2 h3 nt1 t3 Hw1 Hw3) as (t4 & h4 & -> & Hw4 & El4 & _).
  exists t4, h4. rewrite Hr. split_and!; [done|done|]. by rewrite El4, El1, El3, Ho, Hl.
Qed.
End Tree.
End Operations.
