(* ===== verification/TreeMap.v ===== *)
(** * Ordered maps and sets over sum trees ([crates/sum_tree/src/tree_map.rs]) *)

From S2P Require Import Prelude SumTree SumCursor KeyedTree.
Local Open Scope nat_scope.

(** [Option<K>]'s order: [None] comes first. *)
#[export] Instance option_ord (K : Type) `{!Ord K} : Ord (option K) := fun a b =>
  match a, b with
  | None, None => Eq
  | None, Some _ => Lt
  | Some _, None => Gt
  | Some a, Some b => ord_cmp a b
  end.

Record MapEntry (K V : Type) := Entry_ { entry_key : K; entry_value : V }.
Arguments Entry_ {K V}.
Arguments entry_key {K V}.
Arguments entry_value {K V}.

Record MapKey (K : Type) := MapKey_ { map_key : option K }.
Arguments MapKey_ {K}.
Arguments map_key {K}.

Record MapKeyRef (K : Type) := MapKeyRef_ { ref_key : option K }.
Arguments MapKeyRef_ {K}.
Arguments ref_key {K}.

(** [MapSeekTarget] and the adaptor that seeks by one. *)
Class MapSeekTarget (T K : Type) := cmp_cursor : T -> K -> comparison.
#[export] Instance key_seek_target (K : Type) `{!Ord K} : MapSeekTarget K K := ord_cmp.
Record MapSeekTargetAdaptor (T : Type) := Adapt { adapted : T }.
Arguments Adapt {T}.
Arguments adapted {T}.

Section Map.
Context {K V : Type} `{HO : !Ord K}.

#[export] Instance map_key_summary : Summary (MapKey K) := {
  zero := MapKey_ None;
  add_summary _ summary := summary;
}.
#[export] Instance map_key_ord : Ord (MapKey K) := fun a b => ord_cmp (map_key a) (map_key b).
#[export] Instance entry_item : Item (MapEntry K V) (MapKey K) := fun e => MapKey_ (Some (entry_key e)).
#[export] Instance entry_keyed : KeyedItem (MapEntry K V) (MapKey K) :=
  fun e => MapKey_ (Some (entry_key e)).

#[export] Instance map_key_ref_dimension : Dimension (MapKeyRef K) (MapKey K) := {
  dim_zero := MapKeyRef_ None;
  dim_add _ summary := MapKeyRef_ (map_key summary);
}.
(** The comparison of [SeekTarget for MapKeyRef]. *)
#[export] Instance map_key_ref_ord : Ord (MapKeyRef K) := fun a b => ord_cmp (ref_key a) (ref_key b).

#[export] Instance adaptor_target (T : Type) `{!MapSeekTarget T K} :
  SeekTarget (MapSeekTargetAdaptor T) (MapKeyRef K) := fun target location =>
  match ref_key location with Some key => cmp_cursor (adapted target) key | None => Gt end.

(** A map is its tree. *)
Notation TreeMap := (node (MapEntry K V) (MapKey K)).
Implicit Types self : TreeMap.

Definition map_cursor self : cursor (MapEntry K V) (MapKey K) (MapKeyRef K) := cursor_new self.
Definition to_pair (e : MapEntry K V) : K * V := (entry_key e, entry_value e).
Definition of_pair (p : K * V) : MapEntry K V := Entry_ (fst p) (snd p).
Definition key_ref (k : K) : MapKeyRef K := MapKeyRef_ (Some k).

Definition from_ordered_entries (entries : list (K * V)) : res TreeMap :=
  from_iter (map of_pair entries).

Definition map_is_empty self : bool := is_empty self.

Definition map_get self (k : K) : option V :=
  match snd (find (key_ref k) Left self) with
  | Some e => if is_eq (ord_cmp k (entry_key e)) then Some (entry_value e) else None
  | None => None
  end.

Definition contains_key self (k : K) : bool :=
  match map_get self k with Some _ => true | None => false end.

Definition map_insert_or_replace self (k : K) (v : V) : res (TreeMap * option V) :=
  r ← insert_or_replace (Key:=MapKey K) self (Entry_ k v);
  mret (fst r, option_map entry_value (snd r)).

Definition map_insert self (k : K) (v : V) : res TreeMap :=
  r ← insert_or_replace (Key:=MapKey K) self (Entry_ k v); mret (fst r).

Definition map_extend self (entries : list (K * V)) : res TreeMap :=
  r ← edit (Key:=MapKey K) self (map (fun p => Insert (of_pair p)) entries); mret (fst r).

Definition map_clear self : TreeMap := new.

Definition map_remove self (k : K) : res (TreeMap * option V) :=
  r ← slice (map_cursor self) (key_ref k) Left;
  let '(new_tree, cursor) := r in
  end_ ← cursor_end cursor;
  r ← (if is_eq (ord_cmp (key_ref k) end_) then
         i ← item cursor;
         match i with
         | Some e => c ← next cursor; mret (Some (entry_value e), c)
         | None => Panic
         end
       else mret (None, cursor));
  let '(removed, cursor) := r in
  r ← suffix cursor;
  new_tree ← append new_tree (fst r);
  mret (new_tree, removed).

Definition remove_range {T1 T2} `{!MapSeekTarget T1 K} `{!MapSeekTarget T2 K} self
    (start : T1) (end_ : T2) : res TreeMap :=
  r ← slice (map_cursor self) (Adapt start) Left;
  let '(new_tree, cursor) := r in
  r ← seek cursor (Adapt end_) Left;
  r ← suffix (snd r);
  append new_tree (fst r).

Definition closest self (k : K) : res (option (K * V)) :=
  r ← seek (map_cursor self) (key_ref k) Right;
  c ← prev (snd r);
  i ← item c;
  mret (option_map to_pair i).

Definition iter_from self (from : K) : res (list (K * V)) :=
  r ← seek (map_cursor self) (key_ref from) Left;
  es ← cursor_collect (fuel_for self) (snd r);
  mret (map to_pair es).

Definition map_update {R} self (k : K) (f : V -> V * R) : res (TreeMap * option R) :=
  r ← slice (map_cursor self) (key_ref k) Left;
  let '(new_tree, cursor) := r in
  end_ ← cursor_end cursor;
  r ← (if is_eq (ord_cmp (key_ref k) end_) then
         i ← item cursor;
         match i with
         | Some e =>
             let '(v, result) := f (entry_value e) in
             new_tree ← push new_tree (Entry_ (entry_key e) v);
             c ← next cursor;
             mret (new_tree, Some result, c)
         | None => Panic
         end
       else mret (new_tree, None, cursor));
  let '(new_tree, result, cursor) := r in
  r ← suffix cursor;
  new_tree ← append new_tree (fst r);
  mret (new_tree, result).

(** The loop of [retain]: one item a round. *)
Fixpoint retain_loop (fuel : nat) (predicate : K -> V -> bool) (new_map : TreeMap)
    (c : cursor (MapEntry K V) (MapKey K) (MapKeyRef K)) : res TreeMap :=
  match fuel with
  | O => Panic
  | S fuel =>
      i ← item c;
      match i with
      | Some e =>
          new_map ← (if predicate (entry_key e) (entry_value e) then push new_map e
                     else Ret new_map);
          c ← next c;
          retain_loop fuel predicate new_map c
      | None => Ret new_map
      end
  end.

Definition retain self (predicate : K -> V -> bool) : res TreeMap :=
  c ← next (map_cursor self);
  retain_loop (fuel_for self) predicate new c.

Definition map_iter self : res (list (K * V)) := es ← iter self; mret (map to_pair es).
Definition values self : res (list V) := es ← iter self; mret (map entry_value es).
Definition map_first self : res (option (K * V)) := i ← first self; mret (option_map to_pair i).
Definition map_last self : res (option (K * V)) := i ← last_item self; mret (option_map to_pair i).

Definition insert_tree self (other : TreeMap) : res TreeMap :=
  entries ← map_iter other;
  map_extend self entries.
End Map.

Notation TreeMap K V := (node (MapEntry K V) (MapKey K)).

(** ** Sets: maps to nothing *)
Section Set_.
Context {K : Type} `{HO : !Ord K}.
Implicit Types self : TreeMap K unit.

Definition set_from_ordered_entries (entries : list K) : res (TreeMap K unit) :=
  from_ordered_entries (map (fun k => (k, tt)) entries).
Definition set_is_empty self : bool := map_is_empty self.
Definition set_insert self (k : K) : res (TreeMap K unit) := map_insert self k tt.
Definition set_remove self (k : K) : res (TreeMap K unit * bool) :=
  r ← map_remove self k;
  mret (fst r, match snd r with Some _ => true | None => false end).
Definition set_extend self (ks : list K) : res (TreeMap K unit) :=
  map_extend self (map (fun k => (k, tt)) ks).
Definition set_contains self (k : K) : bool :=
  match map_get self k with Some _ => true | None => false end.
Definition set_iter self : res (list K) := r ← map_iter self; mret (map fst r).
Definition set_iter_from self (k : K) : res (list K) := r ← iter_from self k; mret (map fst r).
End Set_.
