(* ===== verification/TreeMapSpec.v ===== *)
(** * Tree maps as finite maps

    The operations of [TreeMap] against the finite map of its entries. *)

From S2P Require Import Prelude SumTree SumTreeInvariant SumTreeFind.
From S2P Require Import SumCursor SumCursorSeek SumCursorSearch SumIter.
From S2P Require Import KeyedTree KeyedTreeSpec TreeMap.
Local Open Scope nat_scope.

(** ** The orders and measures are lawful *)
Section Laws.
Context {K V : Type} `{HO : !Ord K} `{HOL : !OrdLaws K}.

#[export] Instance option_ord_laws : OrdLaws (option K).
Proof.
  split.
  - intros [a|] [b|]; simpl; try (split; done).
    split; [intros H; f_equal; by apply (ord_eq (K:=K))|intros [= ->]; exact (ord_refl b)].
  - intros [a|] [b|]; simpl; try done. exact (ord_opp a b).
  - intros [a|] [b|] [c|]; simpl; try done. exact (ord_trans a b c).
Qed.

#[export] Instance map_key_ord_laws : OrdLaws (MapKey K).
Proof.
  split; unfold ord_cmp, map_key_ord.
  - intros [a] [b]. cbn [map_key].
    split; [intros H; f_equal; by apply ord_eq|intros [= ->]; apply ord_refl].
  - intros [a] [b]. apply ord_opp.
  - intros [a] [b] [c]. apply ord_trans.
Qed.

#[export] Instance map_key_ref_ord_laws : OrdLaws (MapKeyRef K).
Proof.
  split; unfold ord_cmp, map_key_ref_ord.
  - intros [a] [b]. cbn [ref_key].
    split; [intros H; f_equal; by apply ord_eq|intros [= ->]; apply ord_refl].
  - intros [a] [b]. apply ord_opp.
  - intros [a] [b] [c]. apply ord_trans.
Qed.

#[export] Instance map_key_summary_laws : SummaryLaws (MapKey K).
Proof. done. Qed.

#[export] Instance map_key_ref_laws : DimensionLaws (MapKeyRef K) (MapKey K).
Proof. done. Qed.

#[export] Instance entry_keyed_laws : KeyedLaws (MapEntry K V) (MapKey K) (MapKey K).
Proof. split; [done|]. by intros [[k|]]. Qed.

(** Positions of a cursor over a map are keys too. *)
#[export] Instance entry_keyed_ref : KeyedItem (MapEntry K V) (MapKeyRef K) :=
  fun e => key_ref (entry_key e).
#[export] Instance entry_keyed_ref_laws : KeyedLaws (MapEntry K V) (MapKey K) (MapKeyRef K).
Proof. split; [done|]. by intros [[k|]]. Qed.
End Laws.

Section Contents.
Context {K V : Type} `{HO : !Ord K} `{HOL : !OrdLaws K} `{!EqDecision K} `{!Countable K}.
Notation tree := (TreeMap K V).
Implicit Types (m : tree) (k : K) (v : V) (e : MapEntry K V) (l : list (MapEntry K V)).

(** The finite map of some entries, and of a tree. *)
Definition entries_map l : gmap K V := list_to_map (map to_pair l).
Definition contents m : gmap K V := entries_map (to_list m).

Definition sorted_entries l : Prop := sorted (Key:=MapKeyRef K) l.
Definition map_ok (h : nat) m : Prop := wf h m /\ sorted_entries (to_list m).
Notation look k l := (lookup_key (key_ref k) l).
Notation below k l := (below (key_ref k) l).
Notation above k l := (above (key_ref k) l).

Lemma key_is_entry k e : key_is (key_ref k) e = bool_decide (entry_key e = k).
Proof.
  unfold key_is. change (ord_cmp (key e) (key_ref k)) with (ord_cmp (entry_key e) k).
  destruct (ord_cmp (entry_key e) k) eqn:E; simpl; symmetry.
  - apply ord_eq in E. by apply bool_decide_eq_true.
  - apply bool_decide_eq_false. intros Ek. rewrite Ek, ord_refl in E. done.
  - apply bool_decide_eq_false. intros Ek. rewrite Ek, ord_refl in E. done.
Qed.

Lemma entries_lookup l k : entries_map l !! k = entry_value <$> look k l.
Proof.
  induction l as [|e l IH]; [apply lookup_empty|].
  unfold entries_map, lookup_key in *. cbn [map list_to_map List.find foldr]. rewrite key_is_entry.
  case_bool_decide as E.
  - rewrite <-E. apply lookup_insert_eq.
  - rewrite <-IH. by apply lookup_insert_ne.
Qed.

(** Changing what is at a key. *)
Lemma look_middle k k' l (mid : list (MapEntry K V)) :
  sorted_entries l -> Forall (fun e => entry_key e = k) mid ->
  look k' (below k l ++ mid ++ above k l) = if decide (k' = k) then head mid else look k' l.
Proof.
  intros Hs Hm. rewrite !(lookup_key_app (Key:=MapKeyRef K)). destruct (decide (k' = k)) as [->|Hne].
  - rewrite lookup_below, lookup_above. destruct mid as [|e mid]; [done|].
    apply Forall_cons in Hm as [He _]. unfold lookup_key. simpl. rewrite key_is_entry.
    by rewrite bool_decide_eq_true_2.
  - assert (Hno : forall mid', Forall (fun e => entry_key e = k) mid' -> look k' mid' = None).
    { intros mid' H. induction H as [|e mid' He H IH]; [done|]. unfold lookup_key in *. simpl.
      rewrite key_is_entry, bool_decide_eq_false_2 by congruence. done. }
    rewrite (Hno mid Hm). pose proof (split_key (S:=MapKey K) (key_ref k) l Hs) as El.
    assert (Hl : look k' l = look k' (below k l ++ option_list (look k l) ++ above k l))
      by by rewrite <-El.
    rewrite Hl, !(lookup_key_app (Key:=MapKeyRef K)). rewrite (Hno (option_list (look k l))); [done|].
    destruct (look k l) as [e|] eqn:E; simpl; [|done]. constructor; [|done].
    apply lookup_key_Some in E. by injection E.
Qed.

Lemma contents_middle k l mid o :
  sorted_entries l -> Forall (fun e => entry_key e = k) mid -> entry_value <$> head mid = o ->
  entries_map (below k l ++ mid ++ above k l) = partial_alter (fun _ => o) k (entries_map l).
Proof.
  intros Hs Hm Ho. apply map_eq. intros k'. rewrite entries_lookup, look_middle by done.
  destruct (decide (k' = k)) as [->|Hne].
  - by rewrite lookup_partial_alter_eq.
  - by rewrite lookup_partial_alter_ne, entries_lookup by done.
Qed.

(** ** Reading *)

Lemma found_key h m k :
  map_ok h m ->
  snd (find (key_ref k) Left m) = head (option_list (look k (to_list m)) ++ above k (to_list m)).
Proof.
  intros [Hw Hs].
  rewrite (find_ok (key_ref k) Left h m Hw).
  2: { apply (sorted_ordered (Key:=MapKeyRef K)); [apply key_monotone|apply above_zero|done]. }
  unfold found, landing.
  destruct (scan_sorted (Key:=MapKeyRef K) (key_ref k) Left dim_zero (to_list m)
              (key_monotone _) (above_zero _) Hs) as [E1 E2].
  rewrite E2, rest_filter by done. by destruct (option_list _ ++ _).
Qed.

Lemma map_get_ok h m k : map_ok h m -> map_get m k = contents m !! k.
Proof.
  intros Hm. unfold map_get, contents. rewrite (found_key h m k Hm), entries_lookup.
  destruct Hm as [Hw Hs].
  destruct (option_list (look k (to_list m)) ++ above k (to_list m)) as [|e r] eqn:E.
  - by destruct (look k (to_list m)).
  - pose proof (key_at_rest (key_ref k) _ e r Hs E) as Hk. rewrite key_is_entry in Hk. cbn [head].
    case_bool_decide as Ek.
    + destruct Hk as [-> _]. by rewrite Ek, ord_refl.
    + rewrite Hk. destruct (ord_cmp k (entry_key e)) eqn:Ec; [|done..].
      apply ord_eq in Ec. by subst.
Qed.

(** ** Inserting and removing *)

Lemma map_insert_ok h m k v :
  map_ok h m -> h < STACK_CAPACITY ->
  exists m' h', map_insert_or_replace m k v = Ret (m', contents m !! k)
    /\ map_insert m k v = Ret m' /\ map_ok h' m' /\ contents m' = <[k := v]> (contents m).
Proof.
  intros [Hw Hs] Hh. unfold map_insert_or_replace, map_insert, contents.
  destruct (insert_or_replace_ok (Key:=MapKey K) m h Hw Hh Hs (Entry_ k v))
    as (m' & h' & E & Hw' & El).
  exists m', h'. rewrite E. cbn [mbind res_bind mret res_ret fst snd].
  split_and!; [|done| |].
  - by rewrite entries_lookup.
  - split; [done|]. rewrite El.
    exact (sorted_middle (Key:=MapKey K) _ _ (Entry_ k v) Hs eq_refl).
  - rewrite El. change (Entry_ k v :: KeyedTreeSpec.above (key (Entry_ k v)) (to_list m))
      with ([Entry_ k v] ++ above k (to_list m)).
    change (KeyedTreeSpec.below (key (Entry_ k v)) (to_list m)) with (below k (to_list m)).
    by apply (contents_middle k _ _ (Some v)); [|constructor|].
Qed.

Section Cursor.
Context (m : tree) (h : nat) (Hw : wf h m) (Hs : sorted_entries (to_list m)).
Context (Hh : h < STACK_CAPACITY).
Notation l := (to_list m).
Notation at_place := (at_place (D:=MapKeyRef K) m h).

(** The slice up to a key, and where it leaves the cursor. *)
Lemma map_slice k :
  exists t' h' c', slice (map_cursor m) (key_ref k) Left = Ret (t', c') /\ wf h' t'
    /\ to_list t' = below k l
    /\ at_place c' (place_of (below k l) (option_list (look k l) ++ above k l)).
Proof.
  exact (slice_key (Key:=MapKeyRef K) m h Hw Hh Hs (map_cursor m) Unsought [] l (key_ref k)
           (new_at_place m h) (conj eq_refl eq_refl) (or_introl eq_refl)).
Qed.

Lemma advance_entries pre e post : l = pre ++ e :: post -> advance dim_zero (pre ++ [e]) = key_ref (entry_key e).
Proof.
  intros El. refine (advance_key (Key:=MapKeyRef K) dim_zero pre e (above_zero _) _).
  pose proof Hs as Hs'. unfold sorted_entries in Hs'.
  rewrite El, cons_middle, app_assoc in Hs'. by apply sorted_app in Hs' as [? _].
Qed.

(** [key.cmp(&cursor.end()) == Equal] tells whether the key is there. *)
Lemma end_at_key k c :
  at_place c (place_of (below k l) (option_list (look k l) ++ above k l)) ->
  exists end_, cursor_end c = Ret end_
    /\ is_eq (ord_cmp (key_ref k) end_) = match look k l with Some _ => true | None => false end
    /\ forall e, look k l = Some e ->
         item c = Ret (Some e)
         /\ exists c', next c = Ret c' /\ at_place c' (place_of (below k l ++ [e]) (above k l)).
Proof.
  intros Hc. pose proof (split_key (S:=MapKey K) (key_ref k) l Hs) as El.
  destruct (option_list (look k l) ++ above k l) as [|e r] eqn:E; cbn [place_of] in Hc.
  - exists (advance dim_zero l). rewrite (cursor_end_ok _ _ _ _ Hc) by done.
    apply app_nil in E as [E1 E2]. destruct (look k l) as [|] eqn:Ek; [done|].
    split_and!; [done| |done]. rewrite app_nil_r in El.
    destruct (snoc_cases l) as [En|(l' & e & En)]; [by rewrite En|].
    assert (Hlt : In e (below k l)).
    { rewrite <-El, En. apply in_or_app. right. by left. }
    apply below_lt in Hlt. apply ord_gt in Hlt.
    rewrite En, (advance_entries l' e []) by done.
    change (is_eq (ord_cmp (key_ref k) (key e)) = false). by rewrite Hlt.
  - exists (advance dim_zero (below k l ++ [e])). rewrite (cursor_end_ok _ _ _ _ Hc) by done.
    split; [done|]. rewrite (advance_entries (below k l) e r) by exact El.
    pose proof (key_at_rest (key_ref k) _ e r Hs E) as Hk. rewrite key_is_entry in Hk.
    split.
    + case_bool_decide as Ek.
      * destruct Hk as [-> _]. rewrite Ek. change (is_eq (ord_cmp k k) = true). by rewrite ord_refl.
      * rewrite Hk. change (is_eq (ord_cmp k (entry_key e)) = false).
        destruct (ord_cmp k (entry_key e)) eqn:Ec; [|done..].
        apply ord_eq in Ec. by subst.
    + intros e' He'. case_bool_decide as Ek.
      * destruct Hk as [He ->]. rewrite He in He'. injection He' as <-.
        rewrite (item_ok _ _ _ _ Hc). split; [done|]. by apply (next_ok m h Hw c _ Hh) in Hc.
      * by rewrite Hk in He'.
Qed.

Lemma map_suffix c pre post :
  at_place c (place_of pre post) -> pre ++ post = l ->
  exists t' h' c', suffix c = Ret (t', c') /\ wf h' t' /\ to_list t' = post.
Proof. apply (suffix_at (Key:=MapKeyRef K) m h Hw Hh). Qed.

Lemma map_remove_ok k :
  exists m' h', map_remove m k = Ret (m', contents m !! k) /\ map_ok h' m'
    /\ contents m' = delete k (contents m).
Proof.
  unfold map_remove. destruct (map_slice k) as (t1 & h1 & c1 & -> & Hw1 & El1 & Hc1).
  cbn [mbind res_bind]. destruct (end_at_key k c1 Hc1) as (end_ & -> & Hend & Hat).
  cbn [mbind res_bind]. rewrite Hend. unfold contents. rewrite entries_lookup.
  pose proof (split_key (S:=MapKey K) (key_ref k) l Hs) as El.
  assert (Hdone : forall t3 h3, wf h3 t3 -> to_list t3 = above k l ->
    exists m' h', append t1 t3 = Ret m' /\ map_ok h' m'
      /\ entries_map (to_list m') = delete k (entries_map l)).
  { intros t3 h3 Hw3 El3. destruct (append_ok h1 h3 t1 t3 Hw1 Hw3) as (t4 & h4 & E & Hw4 & El4 & _).
    rewrite El1, El3 in El4. exists t4, h4. split_and!; [done| |].
    - split; [done|]. rewrite El4. by apply (sorted_without (Key:=MapKeyRef K)).
    - rewrite El4. by apply (contents_middle k l [] None); [|constructor|]. }
  destruct (look k l) as [e|] eqn:Ek.
  - destruct (Hat e eq_refl) as (-> & c2 & -> & Hc2). cbn [mbind res_bind mret res_ret].
    destruct (map_suffix c2 _ _ Hc2) as (t3 & h3 & c3 & -> & Hw3 & El3).
    { rewrite <-app_assoc. symmetry. exact El. }
    cbn [mbind res_bind fst]. destruct (Hdone t3 h3 Hw3 El3) as (m' & h' & -> & ? & ?).
    by exists m', h'.
  - cbn [mbind res_bind mret res_ret option_list app] in *.
    destruct (map_suffix c1 _ _ Hc1) as (t3 & h3 & c3 & -> & Hw3 & El3); [by symmetry|].
    cbn [mbind res_bind fst]. destruct (Hdone t3 h3 Hw3 El3) as (m' & h' & -> & ? & ?).
    by exists m', h'.
Qed.

Lemma map_update_ok {R} k (f : V -> V * R) :
  exists m' h', map_update m k f = Ret (m', snd <$> (f <$> contents m !! k)) /\ map_ok h' m'
    /\ contents m' = alter (fun v => fst (f v)) k (contents m).
Proof.
  unfold map_update. destruct (map_slice k) as (t1 & h1 & c1 & -> & Hw1 & El1 & Hc1).
  cbn [mbind res_bind]. destruct (end_at_key k c1 Hc1) as (end_ & -> & Hend & Hat).
  cbn [mbind res_bind]. rewrite Hend. unfold contents. rewrite entries_lookup.
  pose proof (split_key (S:=MapKey K) (key_ref k) l Hs) as El.
  destruct (look k l) as [e|] eqn:Ek.
  - destruct (Hat e eq_refl) as (-> & c2 & Hn & Hc2). cbn [mbind res_bind mret res_ret].
    assert (Hke : entry_key e = k) by (apply lookup_key_Some in Ek; by injection Ek).
    destruct (f (entry_value e)) as [v res] eqn:Ef.
    destruct (push_ok h1 t1 (Entry_ (entry_key e) v) Hw1) as (t2 & h2 & -> & Hw2 & El2).
    cbn [mbind res_bind]. rewrite Hn. cbn [mbind res_bind mret res_ret].
    destruct (map_suffix c2 _ _ Hc2) as (t3 & h3 & c3 & -> & Hw3 & El3).
    { rewrite <-app_assoc. symmetry. exact El. }
    cbn [mbind res_bind fst].
    destruct (append_ok h2 h3 t2 t3 Hw2 Hw3) as (t4 & h4 & -> & Hw4 & El4 & _).
    rewrite El2, El1, El3, <-app_assoc in El4. exists t4, h4. rewrite El4. split_and!.
    + cbn. by rewrite Ef.
    + split; [done|]. rewrite El4. apply (sorted_middle (Key:=MapKeyRef K)); [done|].
      by rewrite <-Hke.
    + rewrite (contents_middle k l [Entry_ (entry_key e) v] (Some v)); [|done|by constructor|done].
      apply map_eq. intros k'. destruct (decide (k' = k)) as [->|Hne].
      * rewrite lookup_partial_alter_eq, lookup_alter_eq, entries_lookup, Ek. cbn. by rewrite Ef.
      * by rewrite lookup_partial_alter_ne, lookup_alter_ne by done.
  - cbn [mbind res_bind mret res_ret option_list app] in *.
    destruct (map_suffix c1 _ _ Hc1) as (t3 & h3 & c3 & -> & Hw3 & El3); [by symmetry|].
    cbn [mbind res_bind fst].
    destruct (append_ok h1 h3 t1 t3 Hw1 Hw3) as (t4 & h4 & -> & Hw4 & El4 & _).
    rewrite El1, El3, <-El in El4. exists t4, h4. rewrite El4. split_and!; [done| |].
    + split; [done|]. by rewrite El4.
    + rewrite alter_id'; [done|]. rewrite entries_lookup, Ek. done.
Qed.

(** ** Seeking and walking *)

(** [closest]: the greatest key not after the given one. *)
Lemma closest_list k :
  closest m k = Ret (option_map to_pair (last (List.filter (fun e => negb (is_gt (ord_cmp (entry_key e) k))) l))).
Proof.
  unfold closest.
  assert (Hsk : seekable (T:=MapEntry K V) (S:=MapKey K) (key_ref k) [] l)
    by exact (key_seekable (Key:=MapKeyRef K) (key_ref k) l Hs).
  destruct (seek_ok m h (key_ref k) Right (map_cursor m) Unsought Hh Hw (new_at_place m h) Hsk)
    as (c & -> & Hc).
  destruct (scan_sorted (Key:=MapKeyRef K) (key_ref k) Right dim_zero l (key_monotone _)
              (above_zero _) Hs) as [E1 E2].
  rewrite E2, E1 in Hc. pose proof (before_prefix (key_ref k) Right dim_zero l) as El.
  rewrite E2, E1 in El.
  assert (Hf : List.filter (fun x => negb (stop_at (key_ref k) Right x)) l
               = List.filter (fun e => negb (is_gt (ord_cmp (entry_key e) k))) l).
  { apply List.filter_ext. intros e. unfold stop_at, target_in, target_cmp, ord_target.
    change (ord_cmp (key_ref k) (key e)) with (ord_cmp k (entry_key e)).
    rewrite (ord_opp k (entry_key e)). by destruct (ord_cmp k (entry_key e)). }
  rewrite Hf in *.
  set (pre := List.filter (fun e => negb (is_gt (ord_cmp (entry_key e) k))) l) in *.
  set (post := List.filter (stop_at (key_ref k) Right) l) in *.
  clear E1 E2 Hf. clearbody pre post.
  cbn [mbind res_bind snd].
  assert (He : (earlier m (place_of pre post)).1 = pre).
  { destruct post as [|e post']; cbn; [|done]. by rewrite app_nil_r in El. }
  destruct (snoc_cases pre) as [Ep|(pre' & e & Ep)].
  - assert (Hp : exists c', prev c = Ret c' /\ (at_place c' Front \/ at_place c' Back)).
    { destruct (decide (l = [])) as [En|Hne].
      - destruct (search_backward_empty m h (fun _ => true) Hw c _ Hc En) as (c' & E & Hc').
        exists c'. split; [exact E|by right].
      - destruct (prev_front m h Hw c _ Hh Hc) as (c' & E & Hc'); [by rewrite He|done|].
        exists c'. split; [exact E|by left]. }
    destruct Hp as (c' & -> & Hc'). cbn [mbind res_bind]. rewrite Ep.
    by destruct Hc' as [Hc'|Hc']; rewrite (item_ok _ _ _ _ Hc').
  - destruct (prev_ok m h Hw c _ pre' e Hh Hc) as (c' & -> & Hc'); [by rewrite He|].
    cbn [mbind res_bind]. rewrite (item_ok _ _ _ _ Hc'), Ep, last_snoc. done.
Qed.

Lemma iter_from_ok k :
  iter_from m k = Ret (map to_pair (List.filter (fun e => negb (is_lt (ord_cmp (entry_key e) k))) l)).
Proof.
  unfold iter_from.
  assert (Hsk : seekable (T:=MapEntry K V) (S:=MapKey K) (key_ref k) [] l)
    by exact (key_seekable (Key:=MapKeyRef K) (key_ref k) l Hs).
  destruct (seek_ok m h (key_ref k) Left (map_cursor m) Unsought Hh Hw (new_at_place m h) Hsk)
    as (c & -> & Hc).
  destruct (scan_sorted (Key:=MapKeyRef K) (key_ref k) Left dim_zero l (key_monotone _)
              (above_zero _) Hs) as [E1 E2].
  rewrite E2, E1, below_filter, rest_filter in Hc by done.
  pose proof (split_key (S:=MapKey K) (key_ref k) l Hs) as El.
  cbn [mbind res_bind snd].
  rewrite (cursor_collect_ok m h Hw Hh _ c _ (below k l) (option_list (look k l) ++ above k l) Hc).
  - rewrite <-from_split by done. done.
  - apply ahead_place_of. by symmetry.
  - pose proof (length_slots h m Hw) as Hl. rewrite El, length_app in Hl. unfold fuel_for. lia.
Qed.

Lemma retain_loop_ok fuel pred nm h' c p pre post :
  at_place c p -> p = place_of pre post -> pre ++ post = l -> wf h' nm -> length post < fuel ->
  exists m' h'', retain_loop fuel pred nm c = Ret m' /\ wf h'' m'
    /\ to_list m' = to_list nm ++ List.filter (fun e => pred (entry_key e) (entry_value e)) post.
Proof.
  revert nm h' c p pre post. induction fuel as [|fuel IH]; intros nm h' c p pre post Hc -> El Hn Hf; [lia|].
  cbn [retain_loop]. rewrite (item_ok _ _ _ _ Hc). destruct post as [|e post]; cbn [place_of mbind res_bind].
  - exists nm, h'. by rewrite app_nil_r.
  - cbn [place_of] in Hc. destruct (next_ok m h Hw c _ Hh Hc) as (c' & Hnx & Hc').
    cbn [later fst snd] in Hc'. simpl in Hf.
    assert (El' : (pre ++ [e]) ++ post = l) by by rewrite <-app_assoc.
    destruct (pred (entry_key e) (entry_value e)) eqn:Epr.
    + destruct (push_ok h' nm e Hn) as (nm' & h2 & -> & Hn' & Eln). cbn [mbind res_bind].
      rewrite Hnx. cbn [mbind res_bind].
      destruct (IH nm' h2 c' _ _ _ Hc' eq_refl El' Hn' ltac:(lia)) as (m' & h'' & E & Hw' & Elm).
      exists m', h''. split_and!; [done..|]. simpl. rewrite Epr, Elm, Eln. by rewrite <-app_assoc.
    + cbn [mbind res_bind]. rewrite Hnx. cbn [mbind res_bind].
      destruct (IH nm h' c' _ _ _ Hc' eq_refl El' Hn ltac:(lia)) as (m' & h'' & E & Hw' & Elm).
      exists m', h''. split_and!; [done..|]. simpl. by rewrite Epr, Elm.
Qed.

Lemma sorted_filter (f : MapEntry K V -> bool) es : sorted_entries es -> sorted_entries (List.filter f es).
Proof.
  unfold sorted_entries. induction es as [|e es IH]; intros H; [done|].
  apply sorted_cons in H as [He H]. simpl. destruct (f e); [|by apply IH].
  apply sorted_cons. split; [|by apply IH]. rewrite Forall_forall in He |- *.
  intros x Hx%list_elem_of_In. apply filter_In in Hx as [Hx _]. apply He. by apply list_elem_of_In.
Qed.

Lemma entries_filter (f : MapEntry K V -> bool) es :
  sorted_entries es ->
  entries_map (List.filter f es)
  = filter (fun p => f (Entry_ (fst p) (snd p)) = true) (entries_map es).
Proof.
  intros Hse. induction es as [|e es IH]; [done|].
  apply sorted_cons in Hse as [He Hse]. specialize (IH Hse).
  assert (Hno : entries_map es !! entry_key e = None).
  { rewrite entries_lookup. rewrite lookup_key_none; [done|].
    intros x Hx. rewrite Forall_forall in He. apply list_elem_of_In in Hx. specialize (He x Hx).
    unfold key_lt in He. apply ord_gt in He.
    change (ord_cmp (key x) (key_ref (entry_key e))) with (ord_cmp (key x) (key e : MapKeyRef K)).
    by rewrite He. }
  assert (Hf : f e = f (Entry_ (entry_key e) (entry_value e))) by by destruct e.
  change (entries_map (e :: es)) with (<[entry_key e := entry_value e]> (entries_map es)).
  rewrite map_filter_insert. cbn [fst snd]. simpl. destruct (f e) eqn:E; rewrite <-Hf.
  - change (entries_map (e :: List.filter f es))
      with (<[entry_key e := entry_value e]> (entries_map (List.filter f es))).
    by rewrite IH.
  - rewrite decide_False by done. rewrite IH. symmetry. rewrite map_filter_delete.
    apply delete_id. apply map_lookup_filter_None. by left.
Qed.

Lemma retain_ok pred :
  exists m' h', retain m pred = Ret m' /\ map_ok h' m'
    /\ contents m' = filter (fun p => pred (fst p) (snd p) = true) (contents m).
Proof.
  unfold retain. destruct (next_ok m h Hw (map_cursor m) _ Hh (new_at_place m h)) as (c & -> & Hc).
  cbn [mbind res_bind later fst snd] in *.
  destruct (retain_loop_ok (fuel_for m) pred new 0 c _ [] l Hc eq_refl eq_refl new_ok)
    as (m' & h' & E & Hw' & El).
  { pose proof (length_slots h m Hw). unfold fuel_for. lia. }
  exists m', h'. simpl in El. split_and!; [done| |].
  - split; [done|]. rewrite El. by apply sorted_filter.
  - unfold contents. rewrite El. by apply entries_filter.
Qed.

Lemma map_iter_ok : map_iter m = Ret (map to_pair l).
Proof. unfold map_iter. by rewrite (iter_ok h m Hw Hh). Qed.

Lemma map_values_ok : values m = Ret (map entry_value l).
Proof. unfold values. by rewrite (iter_ok h m Hw Hh). Qed.

Lemma map_first_ok : map_first m = Ret (option_map to_pair (head l)).
Proof. unfold map_first. by rewrite (first_ok h m Hw). Qed.

Lemma map_last_ok : map_last m = Ret (option_map to_pair (last l)).
Proof. unfold map_last. by rewrite (last_item_ok h m Hw). Qed.

(** ** Adding several entries *)

Lemma find_edit_entries (entries : list (K * V)) k :
  NoDup (map fst entries) ->
  match find_edit (Key:=MapKey K) (MapKey_ (Some k))
          (sort_edits (map (fun p => Insert (of_pair p)) entries)) with
  | Some e => exists v, e = Insert (of_pair (k, v)) /\ list_to_map (M:=gmap K V) entries !! k = Some v
  | None => list_to_map (M:=gmap K V) entries !! k = None
  end.
Proof.
  intros Hn. destruct (find_edit _ _) as [e|] eqn:E.
  - apply find_some in E as [Hin Hk]. apply list_elem_of_In in Hin.
    rewrite sort_edits_perm in Hin. apply list_elem_of_fmap in Hin as ([k' v] & -> & Hin).
    assert (Ek : k' = k).
    { destruct (ord_cmp k' k) eqn:Ec; [by apply ord_eq|..];
        change (is_eq (ord_cmp k' k) = true) in Hk; by rewrite Ec in Hk. }
    subst k'. exists v. split; [done|]. by apply elem_of_list_to_map_1.
  - apply not_elem_of_list_to_map_1. intros Hin.
    apply list_elem_of_fmap in Hin as ([k' v] & Ek & Hin). simpl in Ek. subst k'.
    pose proof (find_none _ _ E (Insert (of_pair (k, v)))) as Hf. cbn beta in Hf.
    change (is_eq (ord_cmp (edit_key (Insert (of_pair (k, v)))) (MapKey_ (Some k))))
      with (is_eq (ord_cmp k k)) in Hf.
    rewrite ord_refl in Hf. discriminate Hf. apply list_elem_of_In. rewrite sort_edits_perm.
    by apply (list_elem_of_fmap_2 (fun p => Insert (of_pair p))).
Qed.

Lemma map_extend_ok (entries : list (K * V)) :
  NoDup (map fst entries) ->
  exists m' h', map_extend m entries = Ret m' /\ map_ok h' m'
    /\ contents m' = list_to_map entries ∪ contents m.
Proof.
  intros Hn. unfold map_extend.
  destruct (edit_ok (Key:=MapKey K) m h Hw Hh Hs (map (fun p => Insert (of_pair p)) entries))
    as (m' & h' & -> & Hw' & El). cbn [mbind res_bind fst].
  set (es := sort_edits _) in *.
  assert (Hes : StronglySorted edit_lt es).
  { apply sort_edits_sorted. rewrite map_map. cbn [edit_key].
    apply (NoDup_fmap_2_strong (fun p : K * V => key (of_pair p))).
    - intros p q Hp Hq E. injection E as E. destruct p as [k v], q as [k' v']. simpl in E. subst k'.
      apply (elem_of_list_to_map_1 (M:=gmap K)) in Hp, Hq; [|done..]. congruence.
    - by apply (NoDup_fmap_1 fst). }
  exists m', h'. split_and!; [done| |].
  - split; [done|]. rewrite El.
    exact (edited_sorted (S:=MapKey K) (Key:=MapKey K) l es Hs Hes).
  - apply map_eq. intros k. unfold contents at 1. rewrite entries_lookup, El.
    pose proof (edited_lookup (S:=MapKey K) (Key:=MapKey K) (MapKey_ (Some k)) l es Hs Hes) as Hk.
    change (lookup_key (MapKey_ (Some k)) (edited l es)) with (look k (edited l es)) in Hk.
    rewrite Hk. pose proof (find_edit_entries entries k Hn) as Hf. fold es in Hf.
    destruct (find_edit (MapKey_ (Some k)) es) as [e|].
    + destruct Hf as (v & -> & Hv). cbn. symmetry. by apply lookup_union_Some_l.
    + rewrite lookup_union_r by done. unfold contents. by rewrite entries_lookup.
Qed.

(** ** Ranges *)

Lemma adaptor_monotone {A} `{!MapSeekTarget A K} (a : A) :
  (forall k k', ord_cmp k k' = Lt -> rank (cmp_cursor a k') <= rank (cmp_cursor a k)) ->
  monotone (Key:=MapKeyRef K) (Adapt a).
Proof.
  intros H [[k|]] [[k'|]] Hk; try done; [by apply H|].
  unfold target_cmp, adaptor_target. simpl. destruct (cmp_cursor a k'); simpl; lia.
Qed.

(** [remove_range]: what is kept lies before the start, or not before the end. *)
Lemma remove_range_ok {A B} `{!MapSeekTarget A K} `{!MapSeekTarget B K} (a : A) (b : B) :
  (forall k k', ord_cmp k k' = Lt -> rank (cmp_cursor a k') <= rank (cmp_cursor a k)) ->
  (forall k k', ord_cmp k k' = Lt -> rank (cmp_cursor b k') <= rank (cmp_cursor b k)) ->
  exists m' h', remove_range m a b = Ret m' /\ wf h' m'
    /\ to_list m' = List.filter (fun e => is_gt (cmp_cursor a (entry_key e))) l
                    ++ List.filter (fun e => negb (is_gt (cmp_cursor b (entry_key e)))) l.
Proof.
  intros Ha Hb. unfold remove_range.
  assert (Hska : seekable (T:=MapEntry K V) (S:=MapKey K) (Adapt a) [] l).
  { split; [done|]. apply (sorted_ordered (Key:=MapKeyRef K)); [by apply adaptor_monotone| |done].
    apply above_zero. }
  assert (Hskb : seekable (T:=MapEntry K V) (S:=MapKey K) (Adapt b) [] l).
  { split; [done|]. apply (sorted_ordered (Key:=MapKeyRef K)); [by apply adaptor_monotone| |done].
    apply above_zero. }
  destruct (slice_ok m h (Adapt a) Left (map_cursor m) Unsought [] l Hh Hw (new_at_place m h)
              (conj eq_refl eq_refl) Hska) as (t1 & h1 & c1 & -> & Hw1 & El1 & Hc1).
  cbn [mbind res_bind].
  destruct (seek_ok m h (Adapt b) Left c1 _ Hh Hw Hc1 Hskb) as (c2 & -> & Hc2).
  cbn [mbind res_bind snd].
  destruct (map_suffix c2 _ _ Hc2) as (t3 & h3 & c3 & -> & Hw3 & El3).
  { symmetry. apply before_prefix. }
  cbn [mbind res_bind fst].
  destruct (append_ok h1 h3 t1 t3 Hw1 Hw3) as (t4 & h4 & -> & Hw4 & El4 & _).
  exists t4, h4. split_and!; [done..|]. rewrite El4, El1, El3. unfold passed. f_equal.
  - destruct (scan_sorted (Key:=MapKeyRef K) (Adapt a) Left dim_zero l
                (adaptor_monotone a Ha) (above_zero _) Hs) as [E1 _].
    cbn [advance fold_left] in *. rewrite E1. apply List.filter_ext. intros e.
    unfold stop_at, target_in, target_cmp, adaptor_target. simpl. by destruct (cmp_cursor a _).
  - destruct (scan_sorted (Key:=MapKeyRef K) (Adapt b) Left dim_zero l
                (adaptor_monotone b Hb) (above_zero _) Hs) as [_ E2].
    rewrite E2. apply List.filter_ext. intros e.
    unfold stop_at, target_in, target_cmp, adaptor_target. simpl. by destruct (cmp_cursor b _).
Qed.

Lemma look_in e : In e l -> look (entry_key e) l = Some e.
Proof.
  intros Hin. apply in_split in Hin as (l1 & l2 & El).
  pose proof Hs as Hs'. unfold sorted_entries in Hs'. rewrite El in Hs'.
  apply sorted_app in Hs' as (_ & _ & H). rewrite El, (lookup_key_app (Key:=MapKeyRef K)).
  rewrite lookup_key_none.
  - unfold lookup_key. cbn [List.find]. by rewrite key_is_entry, bool_decide_eq_true_2.
  - intros x Hx Ex. specialize (H x e Hx ltac:(by left)). unfold key_lt in H.
    change (ord_cmp (key x) (key e : MapKeyRef K) = Eq) in Ex. congruence.
Qed.

Lemma contents_Some k v : contents m !! k = Some v <-> In (Entry_ k v) l.
Proof.
  unfold contents. rewrite entries_lookup. split.
  - destruct (look k l) as [e|] eqn:E; [|done]. intros [= <-].
    pose proof (lookup_key_Some _ _ _ E) as Ek. injection Ek as <-.
    apply find_some in E as [E _]. by destruct e.
  - intros Hin. pose proof (look_in _ Hin) as E. cbn [entry_key] in E. by rewrite E.
Qed.

(** [closest] on the finite map: the greatest key not after the given one. *)
Lemma closest_ok k :
  exists r, closest m k = Ret r
    /\ match r with
       | Some (k', v) => contents m !! k' = Some v /\ ord_cmp k' k <> Gt
           /\ forall k'' v'', contents m !! k'' = Some v'' -> ord_cmp k'' k <> Gt -> ord_cmp k'' k' <> Gt
       | None => forall k'' v'', contents m !! k'' = Some v'' -> ord_cmp k'' k = Gt
       end.
Proof.
  rewrite closest_list. eexists. split; [reflexivity|].
  set (f := fun e => negb (is_gt (ord_cmp (entry_key e) k))).
  assert (Hin : forall k'' v'', contents m !! k'' = Some v'' -> ord_cmp k'' k <> Gt ->
    In (Entry_ k'' v'') (List.filter f l)).
  { intros k'' v'' Hc%contents_Some Hle. apply filter_In. split; [done|]. unfold f. simpl.
    by destruct (ord_cmp k'' k). }
  pose proof (sorted_filter f l Hs) as Hsf.
  destruct (snoc_cases (List.filter f l)) as [En|(l' & e & En)]; rewrite En in *.
  - simpl. intros k'' v'' Hc. destruct (ord_cmp k'' k) eqn:E; [..|done]; exfalso;
      by apply (Hin k'' v'' Hc); rewrite ?E.
  - rewrite last_snoc. simpl.
    assert (He : In e (List.filter f l)) by (rewrite En; apply in_or_app; right; by left).
    apply filter_In in He as [He Hfe]. split_and!.
    + apply contents_Some. by destruct e.
    + intros E. unfold f in Hfe. by rewrite E in Hfe.
    + intros k'' v'' Hc Hle. specialize (Hin k'' v'' Hc Hle).
      apply in_app_or in Hin as [Hin|[->|[]]]; [|cbn; by rewrite ord_refl].
      unfold sorted_entries in Hsf. apply sorted_app in Hsf as (_ & _ & H).
      specialize (H _ e Hin ltac:(by left)). unfold key_lt in H.
      change (ord_cmp k'' (entry_key e) = Lt) in H. by rewrite H.
Qed.
End Cursor.

Lemma sorted_pairs es :
  sorted_entries es -> StronglySorted (fun p q => ord_cmp (fst p) (fst q) = Lt) (map to_pair es).
Proof.
  unfold sorted_entries. induction es as [|e es IH]; intros H; [constructor|].
  apply sorted_cons in H as [He H]. simpl. constructor; [by apply IH|].
  induction He as [|x es Hx He IHe]; [constructor|]. simpl. constructor; [exact Hx|].
  apply IHe; [|by apply sorted_cons in H as [_ ?]].
  intros Hs'. specialize (IH H). by apply StronglySorted_inv in IH as [? _].
Qed.
End Contents.
