(* ===== verification/SumTreeProps.v ===== *)
(** * What sum trees and their cursors promise

    The statements a user of [crates/sum_tree] relies on, and samples they apply
    to. *)

From S2P Require Import Prelude SumTree SumTreeInvariant SumTreeFind.
From S2P Require Import SumCursor SumCursorSeek SumCursorSearch SumIter KeyedTree.
Local Open Scope nat_scope.

(** ** A sample: numbers measured by their sum *)
Module Sample.
#[export] Instance nat_summary : Summary nat := { zero := 0; add_summary := Nat.add }.
#[export] Instance nat_summary_laws : SummaryLaws nat.
Proof. split; simpl; intros; lia. Qed.
#[export] Instance nat_item : Item nat nat := fun n => n.
#[export] Instance nat_ord : Ord nat := Nat.compare.

Definition tree (l : list nat) : node nat nat :=
  match from_iter l with Ret t => t | Panic => new end.

Definition ones : node nat nat := tree (repeat 1 30).
Definition few : node nat nat := tree [2; 3].

Lemma wf_sample (l : list nat) (t : node nat nat) : from_iter l = Ret t -> wf (height t) t.
Proof.
  intros E. destruct (from_iter_ok l) as (t' & h & E' & Hw & _). rewrite E in E'.
  injection E' as <-. by rewrite (wf_height h t Hw).
Qed.

Lemma ones_wf : wf 1 ones.
Proof. exact (wf_sample (repeat 1 30) ones eq_refl). Qed.

Lemma few_wf : wf 0 few.
Proof. exact (wf_sample [2; 3] few eq_refl). Qed.

(** Sums of numbers only grow. *)
Lemma nat_ordered (target : nat) d l : ordered target d l.
Proof.
  intros p q r _ _. rewrite advance_app.
  assert (Hle : forall l d, d <= advance (D:=nat) (S:=nat) (T:=nat) d l).
  { clear. intros l. induction l as [|x l IH]; intros d; [done|].
    specialize (IH (d + x)).
    change (d <= advance (D:=nat) (S:=nat) (T:=nat) (d + x) l). lia. }
  specialize (Hle q (advance d p)). unfold target_cmp, ord_target, ord_cmp, nat_ord.
  destruct (Nat.compare_spec target (advance (advance d p) q)),
    (Nat.compare_spec target (advance d p)); cbn [rank]; lia.
Qed.

Lemma nat_seekable (target : nat) l : seekable (T:=nat) (S:=nat) target [] l.
Proof. split; [cbn; by destruct target|apply nat_ordered]. Qed.
End Sample.
Import Sample.

(** C13. Building and changing sum trees never panics on well-formed trees (leaves
    at one depth, no node overfull, cached summaries exact, nothing empty below
    the root), gives well-formed trees and acts on the contents as on lists:
    collecting, appending, pushing, extending, and updating the item at either
    end; appending adds at most one level.  Collecting in parallel builds the very
    tree that collecting in order does, when the parallel iterator hands out
    chunks in order. *)
Theorem build_spec {T S} `{HS : !Summary S} `{!SummaryLaws S} `{HI : !Item T S} :
  (forall l : list T, exists t h, from_iter l = Ret t /\ wf h t /\ to_list t = l)
  /\ (forall par (l : list T), collects_chunks par -> from_par_iter par l = from_iter l)
  /\ (forall h h' (t other : node T S), wf h t -> wf h' other ->
      exists r hr, append t other = Ret r /\ wf hr r /\ to_list r = to_list t ++ to_list other
        /\ hr <= Datatypes.S (Nat.max h h'))
  /\ (forall h (t : node T S), wf h t ->
      node_summary t = total (to_list t) /\ (is_empty t = true <-> to_list t = [])
      /\ (forall x, exists r h', push t x = Ret r /\ wf h' r /\ to_list r = to_list t ++ [x])
      /\ (forall l, exists r h', extend t l = Ret r /\ wf h' r /\ to_list r = to_list t ++ l)
      /\ (forall f, exists r, update_first f t = Ret r /\ wf h r
           /\ to_list r = alter f 0 (to_list t))
      /\ (forall f, exists r, update_last f t = Ret r /\ wf h r
           /\ to_list r = alter f (length (to_list t) - 1) (to_list t))
      /\ first t = Ret (head (to_list t)) /\ last_item t = Ret (last (to_list t))).
Proof.
  split_and!; [apply from_iter_ok|apply from_par_iter_ok|apply append_ok|]. intros h t Hw.
  split_and!; [by apply (node_summary_total h)|by apply (is_empty_spec h)
    |by intros; apply (push_ok h)|by intros; apply (extend_ok h)|by intros; apply update_first_ok
    |by intros; apply update_last_ok|by apply (first_ok h)|by apply (last_item_ok h)].
Qed.

Lemma build_spec_witness :
  from_par_iter chunks_map (repeat 1 30) = Ret ones
  /\ exists r hr, append few ones = Ret r /\ wf hr r /\ to_list r = [2; 3] ++ repeat 1 30 /\ hr <= 2.
Proof.
  destruct (build_spec (T:=nat) (S:=nat)) as (_ & Hpar & H & _). split.
  - rewrite (Hpar chunks_map (repeat 1 30)); [vm_compute; reflexivity|].
    intros A B n f l _. reflexivity.
  - exact (H 0 1 few ones few_wf ones_wf).
Defined.

(** Finding is scanning: on a tree whose positions a target meets in order,
    [find] gives the first item whose end the target does not lie past (with
    the left bias, or not at or past, with the right one) with the positions
    around it, [find_with_prev] also the item before it, and with the left bias
    [find_exact] gives that item when it ends at the target and none otherwise. *)
Theorem find_spec {T S D Target} `{HS : !Summary S} `{!SummaryLaws S} `{HI : !Item T S}
    `{HD : !Dimension D S} `{!DimensionLaws D S} `{!SeekTarget Target D}
    (target : Target) (bias : Bias) h (t : node T S) :
  wf h t -> ordered target dim_zero (to_list t) ->
  let l := to_list t in
  let b := before target bias dim_zero l in
  find target bias t
  = match drop (length b) l with
    | x :: _ => (advance dim_zero b, advance dim_zero (b ++ [x]), Some x)
    | [] => (advance dim_zero b, advance dim_zero b, None)
    end
  /\ find_with_prev target bias t
     = Ret match drop (length b) l with
           | x :: _ => (advance dim_zero b, advance dim_zero (b ++ [x]), Some (last b, x))
           | [] => (advance dim_zero b, advance dim_zero b, None)
           end
  /\ (bias = Left ->
      snd (find_exact target bias t)
      = match drop (length b) l with
        | x :: _ => if is_equal target (advance dim_zero (b ++ [x])) then Some x else None
        | [] => None
        end).
Proof.
  intros Hw Ho l b. split_and!.
  - rewrite (find_ok target bias h t Hw Ho). unfold found, landing. fold l b.
    by destruct (drop (length b) l).
  - rewrite (find_with_prev_ok target bias h t Hw Ho). unfold landing. fold l b.
    by destruct (drop (length b) l).
  - intros ->. rewrite (find_exact_ok target h t Hw Ho). unfold landing. fold l b.
    destruct (drop (length b) l); [done|]. simpl. by destruct (is_equal _ _).
Qed.

Lemma find_spec_witness :
  find (D:=nat) 17 Right ones = (17, 18, Some 1) /\ snd (find_exact (D:=nat) 17 Left ones) = Some 1.
Proof.
  destruct (find_spec (D:=nat) 17 Right 1 ones ones_wf (nat_ordered 17 0 (to_list ones)))
    as (H1 & _ & _).
  destruct (find_spec (D:=nat) 17 Left 1 ones ones_wf (nat_ordered 17 0 (to_list ones)))
    as (_ & _ & H3).
  split; [rewrite H1; vm_compute; reflexivity|rewrite (H3 eq_refl); vm_compute; reflexivity].
Defined.

(** C14. Seeking refines scanning the list in front of the cursor: from any place
    a cursor reaches but the one before the first item, a cursor that has not sought
    yet included (it starts at the front, where the comment of [seek_forward] has it
    panic), seeking on to a target that is not behind ends in front of the first item that stops the scan, with
    the stack, position and flags of that place, and tells whether the target
    ends there; [slice] gives the items passed as a well-formed tree, [summary]
    their measure, and [suffix] all that is left.  No loop runs out of fuel and
    no stack overflows in a tree of fewer than 16 levels. *)
Theorem seek_spec {T S D Target} `{HS : !Summary S} `{!SummaryLaws S} `{HI : !Item T S}
    `{HD : !Dimension D S} `{!DimensionLaws D S} `{!SeekTarget Target D}
    (target : Target) (bias : Bias) h (t : node T S) (c : cursor T S D) p pre post :
  wf h t -> h < STACK_CAPACITY -> at_place t h c p -> ahead t p pre post ->
  seekable target pre post ->
  let b := before target bias (advance dim_zero pre) post in
  let place := place_of (pre ++ b) (drop (length b) post) in
  (exists c', seek_forward c target bias
              = Ret (hit target bias (pre ++ b) (drop (length b) post), c') /\ at_place t h c' place)
  /\ (exists s hs c', slice c target bias = Ret (s, c') /\ wf hs s /\ to_list s = b
                      /\ at_place t h c' place)
  /\ (exists c', summary_to (Output:=D) c target bias = Ret (advance dim_zero b, c')
                 /\ at_place t h c' place)
  /\ (exists s hs c', suffix c = Ret (s, c') /\ wf hs s /\ to_list s = post
                      /\ at_place t h c' Back).
Proof.
  intros Hw Hh Hc Hp Hs b place. split_and!.
  - exact (seek_forward_ok t h target bias c p pre post Hh Hw Hc Hp Hs).
  - exact (slice_ok t h target bias c p pre post Hh Hw Hc Hp Hs).
  - exact (summary_to_ok t h target bias c p pre post Hh Hw Hc Hp Hs).
  - exact (suffix_ok t h c p pre post Hh Hw Hc Hp).
Qed.

Lemma seek_spec_witness :
  exists s hs c', slice (cursor_new (D:=nat) ones) 20 Left = Ret (s, c')
    /\ wf hs s /\ to_list s = repeat 1 19
    /\ at_place ones 1 c' (At (repeat 1 19) 1 (repeat 1 10)).
Proof.
  destruct (seek_spec (D:=nat) 20 Left 1 ones (cursor_new ones) Unsought [] (to_list ones)
    ones_wf ltac:(unfold STACK_CAPACITY; lia) (new_at_place ones 1) (conj eq_refl eq_refl)
    (nat_seekable 20 (to_list ones))) as (_ & H & _).
  exact H.
Defined.

(** Searching with a filter that keeps a summary whenever it keeps an item
    below (the filters prune whole subtrees): forward, the cursor stops at the
    first later item kept, or after the last item; backward, at the last
    earlier item kept, or before the first; [next] and [prev] step over one item,
    and the item, its neighbours and the positions read off are those of the
    list. *)
Theorem search_spec {T S D} `{HS : !Summary S} `{!SummaryLaws S} `{HI : !Item T S}
    `{HD : !Dimension D S} `{!DimensionLaws D S}
    (filter_node : S -> bool) h (t : node T S) (c : cursor T S D) p :
  covers (T:=T) filter_node -> wf h t -> h < STACK_CAPACITY -> at_place t h c p ->
  (exists c', search_forward filter_node c = Ret c'
     /\ at_place t h c' match first_match (keeps filter_node) (later t p).2 with
                       | Some (q, x, r) => At ((later t p).1 ++ q) x r
                       | None => Back
                       end)
  /\ (to_list t <> [] -> exists c', search_backward filter_node c = Ret c'
     /\ at_place t h c' match last_match (keeps filter_node) (earlier t p).1 with
                       | Some (q, x, r) => At q x (r ++ (earlier t p).2)
                       | None => Front
                       end)
  /\ (exists c', next c = Ret c' /\ at_place t h c' (place_of (later t p).1 (later t p).2))
  /\ (p <> Unsought ->
      item c = Ret match p with At _ x _ => Some x | _ => None end
      /\ next_item c = Ret (head (later t p).2) /\ prev_item c = Ret (last (earlier t p).1)
      /\ cursor_end c = Ret (advance dim_zero match p with
                                             | At pre x _ => pre ++ [x]
                                             | Back => to_list t
                                             | _ => []
                                             end)).
Proof.
  intros Hcov Hw Hh Hc. split_and!.
  - exact (search_forward_ok t h filter_node Hcov Hh Hw c p Hc).
  - intros Hne. exact (search_backward_ok t h filter_node Hcov Hh Hw c p Hc Hne).
  - by apply (next_ok t h Hw).
  - intros Hp. split_and!.
    + rewrite (item_ok t h c p Hc). by destruct p.
    + by apply (next_item_ok t h Hw).
    + by apply (prev_item_ok t h Hw).
    + rewrite (cursor_end_ok t h c p Hc Hp). by destruct p.
Qed.

(** Searching for an item of at least [3], in sums. *)
Definition mixed : node nat nat := tree (repeat 1 20 ++ [3] ++ repeat 1 9).

Lemma mixed_wf : wf 1 mixed.
Proof. exact (wf_sample (repeat 1 20 ++ [3] ++ repeat 1 9) mixed eq_refl). Qed.

Lemma at_least_covers : covers (T:=nat) (fun s : nat => 3 <=? s).
Proof.
  intros l x Hx Hk. unfold keeps in Hk. apply Nat.leb_le in Hk. apply Nat.leb_le.
  enough (x <= total l) by (unfold summary, nat_item in Hk; lia).
  clear Hk. induction l as [|y l IH] using rev_ind; [done|]. rewrite total_app by done.
  change (total [y]) with (0 + y). cbn.
  apply in_app_or in Hx as [Hx|[<-|[]]]; [specialize (IH Hx); lia|lia].
Qed.

Lemma search_spec_witness :
  exists c', search_forward (fun s => 3 <=? s) (cursor_new (D:=nat) mixed) = Ret c'
    /\ at_place mixed 1 c' (At (repeat 1 20) 3 (repeat 1 9)).
Proof.
  destruct (search_spec (D:=nat) (fun s => 3 <=? s) 1 mixed (cursor_new mixed) Unsought
    at_least_covers mixed_wf ltac:(unfold STACK_CAPACITY; lia) (new_at_place mixed 1)) as (H & _).
  exact H.
Defined.

(** Iteration is complete and terminates: the iterator of a tree yields each
    item once, in order, and then ends, so trees are equal exactly when their
    items are; a cursor used as an iterator yields the items in front of it, and a
    filtered one exactly those of the tree that the filter keeps. *)
Theorem iterate_spec {T S D} `{HS : !Summary S} `{!SummaryLaws S} `{HI : !Item T S}
    `{HD : !Dimension D S} `{!DimensionLaws D S} h (t : node T S) :
  wf h t -> h < STACK_CAPACITY ->
  iter t = Ret (to_list t) /\ tree_items t = Ret (to_list t)
  /\ (forall `{!EqDecision T} h' t', wf h' t' -> h' < STACK_CAPACITY ->
      tree_eq t t' = Ret (bool_decide (to_list t = to_list t')))
  /\ (forall filter_node, covers (T:=T) filter_node -> forall fuel, length (to_list t) + 1 < fuel ->
      filter_collect fuel (filter_new (D:=D) t filter_node)
      = Ret (List.filter (keeps filter_node) (to_list t)))
  /\ (forall fuel (c : cursor T S D) p pre post,
      at_place t h c p -> ahead t p pre post -> length post < fuel ->
      cursor_collect fuel c = Ret post).
Proof.
  intros Hw Hh. split_and!; [by apply (iter_ok h)|by apply (tree_items_ok h)| | |].
  - intros Heq h' t' Hw' Hh'. by apply (tree_eq_ok h h').
  - intros f Hf. by apply (filter_collect_ok t h Hw Hh f Hf).
  - apply (cursor_collect_ok t h Hw Hh).
Qed.

Lemma iterate_spec_witness :
  iter mixed = Ret (repeat 1 20 ++ [3] ++ repeat 1 9)
  /\ filter_collect 40 (filter_new (D:=nat) mixed (fun s => 3 <=? s)) = Ret [3].
Proof.
  destruct (iterate_spec (D:=nat) 1 mixed mixed_wf ltac:(unfold STACK_CAPACITY; lia))
    as (H & _ & _ & Hf & _).
  split; [rewrite H; vm_compute; reflexivity|].
  rewrite (Hf _ at_least_covers 40); [vm_compute; reflexivity|].
  vm_compute. repeat constructor.
Defined.
