(* ===== verification/TreeMapProps.v ===== *)
(** * What tree maps promise

    A [TreeMap] implements a finite map with ordered keys; samples show where
    the code departs from one. *)

From S2P Require Import Prelude SumTree SumTreeInvariant SumTreeFind SumCursor.
From S2P Require Import KeyedTree KeyedTreeSpec TreeMap TreeMapSpec.
Local Open Scope nat_scope.

(** ** Samples *)
Module NatKeys.
#[export] Instance nat_ord : Ord nat := Nat.compare.
#[export] Instance nat_ord_laws : OrdLaws nat.
Proof.
  split; unfold ord_cmp, nat_ord.
  - apply Nat.compare_eq_iff.
  - intros a b. apply Nat.compare_antisym.
  - intros a b c. rewrite !Nat.compare_lt_iff. lia.
Qed.

Definition of_list (l : list (nat * nat)) : TreeMap nat nat :=
  match from_ordered_entries l with Ret m => m | Panic => new end.

Definition squares : TreeMap nat nat := of_list (map (fun k => (2 * k, k * k)) (seq 0 20)).

Lemma squares_ok : map_ok 1 squares.
Proof.
  split.
  - destruct (from_iter_ok (map of_pair (map (fun k => (2 * k, k * k)) (seq 0 20))))
      as (t & h & E & Hw & _).
    assert (Et : from_ordered_entries (map (fun k => (2 * k, k * k)) (seq 0 20)) = Ret squares)
      by (vm_compute; reflexivity).
    unfold from_ordered_entries in Et. rewrite E in Et. injection Et as ->.
    pose proof (wf_height h squares Hw) as Hh. vm_compute in Hh. by subst h.
  - unfold sorted_entries, sorted. vm_compute. repeat constructor.
Qed.
End NatKeys.
Import NatKeys.

(** C21. A map refines the finite map of its entries: in a well-formed tree with
    strictly increasing keys, [get] is lookup; inserting, removing, updating,
    extending by entries with distinct keys and retaining give such trees again
    and act on the finite map as insertion, deletion, alteration, union and
    filtering, returning what was at the key; iterating lists the entries in key
    order; [closest] gives the entry with the greatest key not after the one
    asked for. *)
Theorem tree_map_refines {K V} `{HO : !Ord K} `{HOL : !OrdLaws K} `{!EqDecision K} `{!Countable K}
    h (m : TreeMap K V) :
  map_ok h m -> h < STACK_CAPACITY ->
  (forall k, map_get m k = contents m !! k)
  /\ (forall k v, exists m' h', map_insert_or_replace m k v = Ret (m', contents m !! k)
        /\ map_insert m k v = Ret m' /\ map_ok h' m' /\ contents m' = <[k := v]> (contents m))
  /\ (forall k, exists m' h', map_remove m k = Ret (m', contents m !! k) /\ map_ok h' m'
        /\ contents m' = delete k (contents m))
  /\ (forall R k (f : V -> V * R), exists m' h',
        map_update m k f = Ret (m', snd <$> (f <$> contents m !! k)) /\ map_ok h' m'
        /\ contents m' = alter (fun v => fst (f v)) k (contents m))
  /\ (forall entries, NoDup (map fst entries) -> exists m' h',
        map_extend m entries = Ret m' /\ map_ok h' m'
        /\ contents m' = list_to_map entries ∪ contents m)
  /\ (forall pred, exists m' h', retain m pred = Ret m' /\ map_ok h' m'
        /\ contents m' = filter (fun p => pred (fst p) (snd p) = true) (contents m))
  /\ (exists l, map_iter m = Ret l /\ contents m = list_to_map l
        /\ StronglySorted (fun p q => ord_cmp (fst p) (fst q) = Lt) l)
  /\ (forall k, exists r, closest m k = Ret r
        /\ match r with
           | Some (k', v) => contents m !! k' = Some v /\ ord_cmp k' k <> Gt
               /\ forall k'' v'', contents m !! k'' = Some v'' -> ord_cmp k'' k <> Gt ->
                    ord_cmp k'' k' <> Gt
           | None => forall k'' v'', contents m !! k'' = Some v'' -> ord_cmp k'' k = Gt
           end).
Proof.
  intros Hm Hh. pose proof Hm as [Hw Hs]. split_and!.
  - intros k. by apply (map_get_ok h).
  - intros k v. by apply (map_insert_ok h).
  - by apply (map_remove_ok m h).
  - intros R k f. by apply (map_update_ok m h).
  - by apply (map_extend_ok m h).
  - by apply (retain_ok m h).
  - exists (map to_pair (to_list m)). split_and!; [by apply (map_iter_ok m h)|done|].
    by apply sorted_pairs.
  - by apply (closest_ok m h).
Qed.

Lemma tree_map_refines_witness :
  map_get squares 14 = Some 49
  /\ exists m' h', map_remove squares 14 = Ret (m', Some 49) /\ map_ok h' m'
                   /\ contents m' = delete 14 (contents squares).
Proof.
  destruct (tree_map_refines 1 squares squares_ok ltac:(unfold STACK_CAPACITY; lia))
    as (Hget & _ & Hrem & _).
  assert (E : contents squares !! 14 = Some 49) by (vm_compute; reflexivity).
  split; [rewrite Hget; exact E|]. rewrite <-E. exact (Hrem 14).
Defined.

(** ** Where the code is no finite map *)

(** Entries with the same key given to [extend] are all stored: removing the key
    once leaves it there. *)
Lemma extend_duplicates :
  exists m m', map_extend (K:=nat) (V:=nat) new [(1, 10); (1, 20)] = Ret m
    /\ map to_pair (to_list m) = [(1, 10); (1, 20)]
    /\ map_get m 1 = Some 10
    /\ map_remove m 1 = Ret (m', Some 10) /\ map_get m' 1 = Some 20.
Proof. eexists _, _. split_and!; vm_compute; reflexivity. Qed.

(** [remove_range] with its end before its start keeps what lies between twice. *)
Lemma remove_range_reversed :
  exists m, remove_range (of_list [(1, 10); (2, 20); (3, 30)]) 3 2 = Ret m
    /\ map to_pair (to_list m) = [(1, 10); (2, 20); (2, 20); (3, 30)].
Proof. eexists. split; vm_compute; reflexivity. Qed.
