(* ===== verification/Text.v ===== *)
(** * Text: UTF-8 strings, points and summaries ([crates/rope/src])

    A [str] is the list of its bytes; what the standard library does with one
    (boundaries, splitting, iterating over characters) is written out.  Then
    [point.rs], [point_utf16.rs] and the [TextSummary] of [rope.rs].  Lengths, rows
    and columns are natural numbers: a text is taken to have fewer than 2^32 bytes, so that
    a [u32] holds them. *)

From S2P Require Import Prelude KeyedTree.
Local Open Scope nat_scope.

(** ** Strings *)
Notation str := (list Z).

(** [util::is_utf8_char_boundary]: [(b as i8) >= -0x40]. *)
Definition is_utf8_char_boundary (b : Z) : bool :=
  ((if b <? 128 then b else b - 256) >=? -64)%Z.

(** The length a character's first byte announces. *)
Definition char_len (b : Z) : nat :=
  if (b <? 128)%Z then 1 else if (b <? 224)%Z then 2 else if (b <? 240)%Z then 3 else 4.

Definition continuation (b : Z) : Prop := (128 <= b < 192)%Z.
(** One character: a first byte and as many continuation bytes as it announces. *)
Record utf8_char (c : str) (b : Z) (rest : str) : Prop := {
  char_bytes : c = b :: rest;
  char_first : (0 <= b < 128 \/ 192 <= b < 256)%Z;
  char_rest : Forall continuation rest;
  char_length : length c = char_len b;
}.
Inductive utf8 : str -> Prop :=
| utf8_nil : utf8 []
| utf8_cons c b rest t : utf8_char c b rest -> utf8 t -> utf8 (c ++ t).

(** [str::is_char_boundary]. *)
Definition is_char_boundary (s : str) (index : nat) : bool :=
  if index =? 0 then true
  else match s !! index with
       | Some b => is_utf8_char_boundary b
       | None => index =? length s
       end.

Definition str_split_at (s : str) (mid : nat) : res (str * str) :=
  if is_char_boundary s mid then Ret (take mid s, drop mid s) else Panic.

(** [&s[range]]. *)
Definition str_slice (s : str) (start end_ : nat) : res str :=
  if (start <=? end_) && is_char_boundary s start && is_char_boundary s end_
  then Ret (take (end_ - start) (drop start s)) else Panic.

(** [str::floor_char_boundary] and [str::ceil_char_boundary]: the nearest boundary
    going down, and going up. *)
Fixpoint boundary_down (s : str) (index : nat) : nat :=
  if is_char_boundary s index then index
  else match index with O => O | S index => boundary_down s index end.
Definition str_floor_char_boundary (s : str) (index : nat) : nat :=
  if length s <=? index then length s else boundary_down s index.
Fixpoint boundary_up (fuel : nat) (s : str) (index : nat) : nat :=
  match fuel with
  | O => index
  | S fuel => if is_char_boundary s index then index else boundary_up fuel s (S index)
  end.
Definition str_ceil_char_boundary (s : str) (index : nat) : nat :=
  if length s <=? index then length s else boundary_up (length s) s index.

(** [str::chars]: a character is its bytes. *)
Fixpoint chars_loop (fuel : nat) (s : str) : list str :=
  match fuel, s with
  | S fuel, b :: _ => take (char_len b) s :: chars_loop fuel (drop (char_len b) s)
  | _, _ => []
  end.
Definition str_chars (s : str) : list str := chars_loop (length s) s.

Definition first_byte (c : str) : Z := default 0%Z (head c).
Definition len_utf8 (c : str) : nat := length c.
Definition char_len_utf16 (c : str) : nat := if (240 <=? first_byte c)%Z then 2 else 1.
Definition NEWLINE : Z := 10.
Definition TAB : Z := 9.
Definition is_newline (c : str) : bool := (first_byte c =? NEWLINE)%Z.

(** ** Points *)
Record Point := mkPoint { row : nat; column : nat }.
Record PointUtf16 := mkPointUtf16 { row16 : nat; column16 : nat }.

#[export] Instance point_eq_dec : EqDecision Point.
Proof. solve_decision. Defined.
#[export] Instance point_utf16_eq_dec : EqDecision PointUtf16.
Proof. solve_decision. Defined.

Definition point_zero : Point := mkPoint 0 0.
Definition point_add (self other : Point) : Point :=
  if row other =? 0 then mkPoint (row self) (column self + column other)
  else mkPoint (row self + row other) (column other).
(** [debug_assert!(other <= self)]. *)
Definition point_sub (self other : Point) : Point :=
  if row self =? row other then mkPoint 0 (column self - column other)
  else mkPoint (row self - row other) (column self).

Definition point_utf16_zero : PointUtf16 := mkPointUtf16 0 0.
Definition point_utf16_add (self other : PointUtf16) : PointUtf16 :=
  if row16 other =? 0 then mkPointUtf16 (row16 self) (column16 self + column16 other)
  else mkPointUtf16 (row16 self + row16 other) (column16 other).
Definition point_utf16_sub (self other : PointUtf16) : PointUtf16 :=
  if row16 self =? row16 other then mkPointUtf16 0 (column16 self - column16 other)
  else mkPointUtf16 (row16 self - row16 other) (column16 self).

(** The row in the high half of a word and the column in the low half: row first. *)
#[export] Instance point_ord : Ord Point := fun a b =>
  match row a ?= row b with Eq => column a ?= column b | c => c end.
#[export] Instance point_utf16_ord : Ord PointUtf16 := fun a b =>
  match row16 a ?= row16 b with Eq => column16 a ?= column16 b | c => c end.

(** ** Summaries *)
Record TextSummary := mkTextSummary {
  len : nat;
  chars : nat;
  len_utf16 : nat;
  lines : Point;
  first_line_chars : nat;
  last_line_chars : nat;
  last_line_len_utf16 : nat;
  longest_row : nat;
  longest_row_chars : nat;
}.

Definition lines_utf16 (self : TextSummary) : PointUtf16 :=
  mkPointUtf16 (row (lines self)) (last_line_len_utf16 self).

Definition summary_zero : TextSummary := mkTextSummary 0 0 0 point_zero 0 0 0 0 0.
Definition summary_newline : TextSummary := mkTextSummary 1 1 1 (mkPoint 1 0) 0 0 0 0 0.

(** One turn of the loop of [From<&str>]. *)
Definition summary_step (s : TextSummary) (c : str) : TextSummary :=
  let '(lines, last_line_chars, last_line_len_utf16) :=
    if is_newline c then (point_add (lines s) (mkPoint 1 0), 0, 0)
    else (mkPoint (row (lines s)) (column (lines s) + len_utf8 c), last_line_chars s + 1,
          last_line_len_utf16 s + char_len_utf16 c) in
  mkTextSummary (len s) (chars s + 1) (len_utf16 s + char_len_utf16 c) lines
    (if row lines =? 0 then last_line_chars else first_line_chars s)
    last_line_chars last_line_len_utf16
    (if longest_row_chars s <? last_line_chars then row lines else longest_row s)
    (if longest_row_chars s <? last_line_chars then last_line_chars else longest_row_chars s).

Definition with_len (s : TextSummary) (n : nat) : TextSummary :=
  mkTextSummary n (chars s) (len_utf16 s) (lines s) (first_line_chars s) (last_line_chars s)
    (last_line_len_utf16 s) (longest_row s) (longest_row_chars s).
Definition summary_of (text : str) : TextSummary :=
  with_len (fold_left summary_step (str_chars text) summary_zero) (length text).

(** [AddAssign]. *)
Definition summary_add (self other : TextSummary) : TextSummary :=
  let joined_chars := last_line_chars self + first_line_chars other in
  let '(longest, longest_chars) :=
    if longest_row_chars self <? joined_chars then (row (lines self), joined_chars)
    else (longest_row self, longest_row_chars self) in
  let '(longest, longest_chars) :=
    if longest_chars <? longest_row_chars other
    then (row (lines self) + longest_row other, longest_row_chars other)
    else (longest, longest_chars) in
  let first_line :=
    if row (lines self) =? 0 then first_line_chars self + first_line_chars other
    else first_line_chars self in
  let '(last_chars, last_utf16) :=
    if row (lines other) =? 0
    then (last_line_chars self + first_line_chars other,
          last_line_len_utf16 self + last_line_len_utf16 other)
    else (last_line_chars other, last_line_len_utf16 other) in
  mkTextSummary (len self + len other) (chars self + chars other) (len_utf16 self + len_utf16 other)
    (point_add (lines self) (lines other)) first_line last_chars last_utf16 longest longest_chars.

(** [add_newline]. *)
Definition add_newline (self : TextSummary) : TextSummary :=
  mkTextSummary (len self + 1) (chars self) (len_utf16 self + (len_utf16 self + 1))
    (point_add (lines self) (mkPoint 1 0)) (first_line_chars self) 0 0
    (longest_row self) (longest_row_chars self).
