(* ===== verification/TextSpec.v ===== *)
(** * What summaries of text promise

    A summary is that of the text's lines; summaries add up as texts are put
    together, and adding them is associative on the summaries there are. *)

From S2P Require Import Prelude KeyedTree Text.
Local Open Scope nat_scope.

Implicit Types (s t : TextSummary) (c : str) (cs : list str).

(** ** Longest rows: the first of the longest *)
Notation candidate := (nat * nat)%type.
Implicit Types x y z : candidate.

Definition pick x y : candidate := if snd x <? snd y then y else x.
Definition shift (n : nat) x : candidate := (n + fst x, snd x).
Definition longest s : candidate := (longest_row s, longest_row_chars s).

Lemma pick_assoc x y z : pick (pick x y) z = pick x (pick y z).
Proof.
  destruct x as [rx mx], y as [ry my], z as [rz mz]. unfold pick. cbn [fst snd].
  repeat (case_match; cbn [fst snd] in *); rewrite ?Nat.ltb_lt, ?Nat.ltb_ge in *; (done || lia || f_equal; lia).
Qed.

Lemma pick_shift n x y : shift n (pick x y) = pick (shift n x) (shift n y).
Proof. unfold pick, shift. cbn [snd]. by case_match. Qed.

Lemma pick_l x y : snd y <= snd x -> pick x y = x.
Proof. unfold pick. intros ?%Nat.ltb_ge. by case_match. Qed.
Lemma pick_r x y : snd x < snd y -> pick x y = y.
Proof. unfold pick. intros ?%Nat.ltb_lt. by case_match. Qed.

(** Adding in two halves: the longest row apart. *)
Lemma longest_add s t :
  longest (summary_add s t)
  = pick (pick (longest s) (row (lines s), last_line_chars s + first_line_chars t))
         (shift (row (lines s)) (longest t)).
Proof.
  unfold summary_add, longest, pick, shift. cbn [fst snd].
  repeat (case_match; cbn [fst snd] in *; simplify_eq); done.
Qed.

Lemma summary_eq s t :
  len s = len t -> chars s = chars t -> len_utf16 s = len_utf16 t -> lines s = lines t ->
  first_line_chars s = first_line_chars t -> last_line_chars s = last_line_chars t ->
  last_line_len_utf16 s = last_line_len_utf16 t -> longest s = longest t -> s = t.
Proof. destruct s, t. unfold longest. cbn. intros. simplify_eq. done. Qed.

Lemma add_len s t : len (summary_add s t) = len s + len t.
Proof. unfold summary_add. by repeat (case_match; simplify_eq). Qed.
Lemma add_chars s t : chars (summary_add s t) = chars s + chars t.
Proof. unfold summary_add. by repeat (case_match; simplify_eq). Qed.
Lemma add_len_utf16 s t : len_utf16 (summary_add s t) = len_utf16 s + len_utf16 t.
Proof. unfold summary_add. by repeat (case_match; simplify_eq). Qed.
Lemma add_lines s t : lines (summary_add s t) = point_add (lines s) (lines t).
Proof. unfold summary_add. by repeat (case_match; simplify_eq). Qed.
Lemma add_first s t :
  first_line_chars (summary_add s t)
  = if row (lines s) =? 0 then first_line_chars s + first_line_chars t else first_line_chars s.
Proof. unfold summary_add. by repeat (case_match; simplify_eq). Qed.
Lemma add_last s t :
  last_line_chars (summary_add s t)
  = if row (lines t) =? 0 then last_line_chars s + first_line_chars t else last_line_chars t.
Proof. unfold summary_add. by repeat (case_match; simplify_eq). Qed.
Lemma add_last_utf16 s t :
  last_line_len_utf16 (summary_add s t)
  = if row (lines t) =? 0 then last_line_len_utf16 s + last_line_len_utf16 t else last_line_len_utf16 t.
Proof. unfold summary_add. by repeat (case_match; simplify_eq). Qed.

Create HintDb summary.
Hint Rewrite add_len add_chars add_len_utf16 add_lines add_first add_last add_last_utf16 longest_add : summary.

(** ** The summaries there are *)

(** On one row the first line is the last; the longest row is a row, is the first one
    or longer than it, and is the last one or no shorter. *)
Definition valid s : bool :=
  (if row (lines s) =? 0 then first_line_chars s =? last_line_chars s else true)
  && (longest_row s <=? row (lines s))
  && (if longest_row s =? 0 then longest_row_chars s =? first_line_chars s
      else first_line_chars s <? longest_row_chars s)
  && (if longest_row s =? row (lines s) then longest_row_chars s =? last_line_chars s
      else last_line_chars s <=? longest_row_chars s).

Lemma valid_spec s :
  valid s = true <->
  (row (lines s) = 0 -> first_line_chars s = last_line_chars s)
  /\ longest_row s <= row (lines s)
  /\ (longest_row s = 0 -> longest_row_chars s = first_line_chars s)
  /\ (longest_row s <> 0 -> first_line_chars s < longest_row_chars s)
  /\ (longest_row s = row (lines s) -> longest_row_chars s = last_line_chars s)
  /\ (longest_row s <> row (lines s) -> last_line_chars s <= longest_row_chars s).
Proof.
  unfold valid. rewrite !andb_true_iff, Nat.leb_le.
  destruct (Nat.eqb_spec (row (lines s)) 0), (Nat.eqb_spec (longest_row s) 0),
    (Nat.eqb_spec (longest_row s) (row (lines s)));
    rewrite ?Nat.eqb_eq, ?Nat.ltb_lt, ?Nat.leb_le; intuition lia.
Qed.

Lemma zero_valid : valid summary_zero = true.
Proof. done. Qed.

Lemma add_row a b : row (point_add a b) = row a + row b.
Proof. unfold point_add. destruct (Nat.eqb_spec (row b) 0); simpl; lia. Qed.

Lemma point_add_assoc (p q r : Point) : point_add (point_add p q) r = point_add p (point_add q r).
Proof.
  destruct p as [p1 p2], q as [q1 q2], r as [r1 r2]. unfold point_add. cbn [row column].
  repeat (case_match; cbn [row column] in *); rewrite ?Nat.eqb_eq, ?Nat.eqb_neq in *; f_equal; lia.
Qed.
Lemma point_add_zero_l p : point_add point_zero p = p.
Proof. destruct p. unfold point_add. simpl. by case_match; rewrite ?Nat.eqb_eq in *; subst. Qed.
Lemma point_add_zero_r p : point_add p point_zero = p.
Proof. destruct p. unfold point_add. simpl. by rewrite Nat.add_0_r. Qed.

Lemma valid_cases s : valid s = true ->
  (row (lines s) = 0 /\ first_line_chars s = last_line_chars s \/ 0 < row (lines s))
  /\ longest_row s <= row (lines s)
  /\ (longest_row s = 0 /\ longest_row_chars s = first_line_chars s
      \/ 0 < longest_row s /\ first_line_chars s < longest_row_chars s)
  /\ (longest_row s = row (lines s) /\ longest_row_chars s = last_line_chars s
      \/ longest_row s < row (lines s) /\ last_line_chars s <= longest_row_chars s).
Proof. rewrite valid_spec. lia. Qed.

Lemma add_valid s t : valid s = true -> valid t = true -> valid (summary_add s t) = true.
Proof.
  intros (Hs1 & Hs2 & Hs3 & Hs4)%valid_cases (Ht1 & Ht2 & Ht3 & Ht4)%valid_cases.
  rewrite valid_spec. autorewrite with summary. rewrite add_row.
  pose proof (longest_add s t) as E. unfold longest, pick, shift in E. cbn [fst snd] in E.
  destruct (Nat.eqb_spec (row (lines s)) 0), (Nat.eqb_spec (row (lines t)) 0);
    (repeat (case_match; cbn [fst snd] in * )); injection E as -> ->;
    rewrite ?Nat.ltb_lt, ?Nat.ltb_ge in *; lia.
Qed.

Lemma add_zero_left s : valid s = true -> summary_add summary_zero s = s.
Proof.
  rewrite valid_spec. intros Hs. apply summary_eq; autorewrite with summary; try done.
  - apply point_add_zero_l.
  - destruct (Nat.eqb_spec (row (lines s)) 0); simpl; lia.
  - by case_match.
  - unfold pick, shift, longest, summary_zero. cbn [fst snd row lines longest_row longest_row_chars
      last_line_chars point_zero Nat.add].
    repeat (case_match; cbn [fst snd] in *); rewrite ?Nat.ltb_lt, ?Nat.ltb_ge in *; f_equal; lia.
Qed.

Lemma add_zero_right s : valid s = true -> summary_add s summary_zero = s.
Proof.
  rewrite valid_spec. intros Hs. apply summary_eq; autorewrite with summary; simpl; try lia.
  - apply point_add_zero_r.
  - case_match; lia.
  - unfold pick, shift, longest, summary_zero. cbn [fst snd longest_row longest_row_chars].
    repeat (case_match; cbn [fst snd] in *); rewrite ?Nat.ltb_lt, ?Nat.ltb_ge in *; f_equal; lia.
Qed.

Lemma pick_same_row n a b : pick (n, a) (n, b) = (n, a `max` b).
Proof. unfold pick. cbn [snd]. case_match; rewrite ?Nat.ltb_lt, ?Nat.ltb_ge in *; f_equal; lia. Qed.
Lemma shift_shift n m x : shift n (shift m x) = shift (n + m) x.
Proof. unfold shift. cbn [fst snd]. f_equal. lia. Qed.

Lemma longest_assoc s t u :
  valid t = true ->
  longest (summary_add (summary_add s t) u) = longest (summary_add s (summary_add t u)).
Proof.
  rewrite valid_spec. intros Ht. autorewrite with summary. rewrite add_row, !pick_shift, shift_shift.
  destruct (Nat.eqb_spec (row (lines t)) 0) as [E|E].
  - assert (longest t = (0, first_line_chars t)) as -> by (unfold longest; f_equal; lia).
    rewrite E. unfold shift. cbn [fst snd]. rewrite !Nat.add_0_r.
    rewrite !pick_assoc. f_equal. rewrite <-!pick_assoc, !pick_same_row. do 2 f_equal. lia.
  - unfold shift. cbn [fst snd]. by rewrite !pick_assoc.
Qed.

Lemma summary_add_assoc s t u :
  valid t = true -> summary_add (summary_add s t) u = summary_add s (summary_add t u).
Proof.
  intros Ht. apply summary_eq; [..|by apply longest_assoc]; autorewrite with summary;
    rewrite ?add_row, ?point_add_assoc; try lia; try done.
  all: apply valid_spec in Ht as (Hrow & _).
  all: destruct (row (lines s)) as [|i], (row (lines t)) as [|j], (row (lines u)) as [|k]; cbn [Nat.eqb Nat.add];
    try specialize (Hrow eq_refl); lia.
Qed.

(** ** Characters *)
Lemma char_len_pos b : 0 < char_len b.
Proof. unfold char_len. repeat case_match; lia. Qed.

Lemma chars_loop_more (s : str) f1 f2 : length s <= f1 -> length s <= f2 -> chars_loop f1 s = chars_loop f2 s.
Proof.
  revert s f2. induction f1 as [|f1 IH]; intros [|b s] [|f2] H1 H2; simpl in *; try done; try lia.
  f_equal. pose proof (char_len_pos b). destruct (char_len b) as [|k]; [lia|]. cbn [drop].
  pose proof (length_drop s k). apply IH; lia.
Qed.

Lemma utf8_char_inv c b rest : utf8_char c b rest -> 0 < length c /\ first_byte c = b.
Proof. intros [-> _ _ _]. simpl. split; [lia|done]. Qed.

Lemma str_chars_cons c b rest (t : str) : utf8_char c b rest -> str_chars (c ++ t) = c :: str_chars t.
Proof.
  intros [-> _ _ Hl]. unfold str_chars. cbn [app length chars_loop]. rewrite <-Hl.
  change (b :: rest ++ t) with ((b :: rest) ++ t). rewrite take_app_length, drop_app_length. f_equal.
  apply chars_loop_more; rewrite ?length_app; lia.
Qed.

Lemma str_chars_app (s1 s2 : str) : utf8 s1 -> str_chars (s1 ++ s2) = str_chars s1 ++ str_chars s2.
Proof.
  induction 1 as [|c b rest t Hc Ht IH]; [done|].
  by rewrite <-app_assoc, !(str_chars_cons _ _ _ _ Hc), IH.
Qed.

Lemma concat_str_chars (s : str) : utf8 s -> concat (str_chars s) = s.
Proof.
  induction 1 as [|c b rest t Hc Ht IH]; [done|]. rewrite (str_chars_cons _ _ _ _ Hc). simpl. by rewrite IH.
Qed.

Lemma utf8_app (s1 s2 : str) : utf8 s1 -> utf8 s2 -> utf8 (s1 ++ s2).
Proof. induction 1 as [|c b rest t Hc Ht IH]; intros; [done|]. rewrite <-app_assoc. econstructor; eauto. Qed.

(** ** Summaries of texts *)

(** A character's summary; its bytes are counted by the column only. *)
Definition char_summary c : TextSummary :=
  if is_newline c then mkTextSummary 0 1 (char_len_utf16 c) (mkPoint 1 0) 0 0 0 0 0
  else mkTextSummary 0 1 (char_len_utf16 c) (mkPoint 0 (len_utf8 c)) 1 1 (char_len_utf16 c) 0 1.

Lemma char_summary_valid c : valid (char_summary c) = true.
Proof. unfold char_summary. by case_match. Qed.

Lemma step_add s c : valid s = true -> summary_step s c = summary_add s (char_summary c).
Proof.
  rewrite valid_spec. intros Hs.
  apply summary_eq; autorewrite with summary; unfold summary_step, char_summary, longest, point_add, pick, shift;
    destruct (is_newline c); cbn [row column lines len chars len_utf16 first_line_chars last_line_chars
      last_line_len_utf16 longest_row longest_row_chars fst snd Nat.eqb]; rewrite ?Nat.add_1_r; try done; try lia.
  all: cbn [Nat.eqb]; repeat (case_match; cbn [fst snd] in *);
    rewrite ?Nat.ltb_lt, ?Nat.ltb_ge, ?Nat.eqb_eq, ?Nat.eqb_neq in *; try (f_equal; lia); lia.
Qed.

Definition summaries cs : TextSummary := fold_left summary_step cs summary_zero.

Lemma summaries_snoc cs c :
  valid (summaries cs) = true /\ summaries (cs ++ [c]) = summary_add (summaries cs) (char_summary c).
Proof.
  enough (valid (summaries cs) = true) as H.
  { split; [done|]. unfold summaries. rewrite fold_left_app. cbn [fold_left]. by apply step_add. }
  induction cs as [|c' cs IH] using rev_ind; [done|]. unfold summaries in *.
  rewrite fold_left_app. cbn [fold_left]. rewrite step_add by done.
  apply add_valid; [done|apply char_summary_valid].
Qed.

Lemma summaries_app cs1 cs2 : summaries (cs1 ++ cs2) = summary_add (summaries cs1) (summaries cs2).
Proof.
  induction cs2 as [|c cs2 IH] using rev_ind.
  - rewrite app_nil_r. symmetry. apply add_zero_right, (proj1 (summaries_snoc cs1 [])).
  - rewrite app_assoc, !(proj2 (summaries_snoc _ c)), IH. apply summary_add_assoc, (proj1 (summaries_snoc cs2 [])).
Qed.

Lemma with_len_add s t n m :
  summary_add (with_len s n) (with_len t m) = with_len (summary_add s t) (n + m).
Proof. unfold summary_add, with_len. cbn. by repeat (case_match; simplify_eq). Qed.

Lemma summary_of_valid (text : str) : valid (summary_of text) = true.
Proof. apply (proj1 (summaries_snoc (str_chars text) [])). Qed.

(** The summary of a text put together is the sum of the summaries. *)
Lemma summary_of_app (s1 s2 : str) :
  utf8 s1 -> summary_of (s1 ++ s2) = summary_add (summary_of s1) (summary_of s2).
Proof.
  intros. unfold summary_of. fold (summaries (str_chars (s1 ++ s2))) (summaries (str_chars s1)) (summaries (str_chars s2)).
  by rewrite str_chars_app, summaries_app, length_app, with_len_add.
Qed.

(** ** Rows *)

(** The characters of each row: those of the rows ended, and of the last one. *)
Definition rows_step (rows : list nat * nat) c : list nat * nat :=
  if is_newline c then (fst rows ++ [snd rows], 0) else (fst rows, S (snd rows)).
Definition rows_of cs : list nat * nat := fold_left rows_step cs ([], 0).
Definition row_chars (text : str) : list nat := let rows := rows_of (str_chars text) in fst rows ++ [snd rows].

(** What a summary says of the rows: their number, the first, the last, and the first of
    the longest ones. *)
Record rows_summarised s (rows : list nat) : Prop := {
  rows_count : length rows = S (row (lines s));
  rows_first : head rows = Some (first_line_chars s);
  rows_last : last rows = Some (last_line_chars s);
  rows_longest : rows !! longest_row s = Some (longest_row_chars s);
  rows_bound : forall i n, rows !! i = Some n -> n <= longest_row_chars s /\ (i < longest_row s -> n < longest_row_chars s);
}.

Lemma summary_step_rows s init n c :
  rows_summarised s (init ++ [n]) ->
  let rows := rows_step (init, n) c in rows_summarised (summary_step s c) (fst rows ++ [snd rows]).
Proof.
  intros [Hc Hf Hl Hlo Hb]. rewrite last_snoc in Hl. injection Hl as Hl. rewrite length_app in Hc. cbn in Hc.
  unfold rows_step, summary_step, point_add. destruct (is_newline c); cbn.
  - split; cbn; rewrite ?Nat.ltb_irrefl.
    + rewrite !length_app. cbn. lia.
    + rewrite Nat.add_1_r. cbn. rewrite <-Hf. by destruct init.
    + by rewrite last_snoc.
    + by apply lookup_app_l_Some.
    + intros i x [Hx|[Hi Hx]]%lookup_app_Some; [by apply Hb|]. apply list_lookup_singleton_Some in Hx as [Hx <-].
      split; [lia|]. apply lookup_lt_Some in Hlo. lia.
  - pose proof (Hb (length init) n (list_lookup_middle _ _ _ _ eq_refl)) as [Hn _].
    assert (forall i (x : nat), (init ++ [S n]) !! i = Some x -> i <> length init /\ (init ++ [n]) !! i = Some x \/ i = length init /\ x = S n) as Hcase.
    { intros i x [Hx|[Hi Hx]]%lookup_app_Some.
      - left. split; [|by apply lookup_app_l_Some]. apply lookup_lt_Some in Hx. lia.
      - apply list_lookup_singleton_Some in Hx as [Hx <-]. right. lia. }
    split; cbn; rewrite <-?Hl, ?Nat.add_1_r.
    + rewrite length_app. cbn. lia.
    + destruct init as [|x init]; cbn in *; [by replace (row (lines s)) with 0 by lia|].
      destruct (Nat.eqb_spec (row (lines s)) 0); [lia|done].
    + by rewrite last_snoc.
    + destruct (Nat.leb_spec (longest_row_chars s) n).
      * apply list_lookup_middle. lia.
      * destruct (decide (longest_row s = length init)) as [E|E].
        -- rewrite E, list_lookup_middle in Hlo by done. injection Hlo. lia.
        -- pose proof (lookup_lt_Some _ _ _ Hlo) as Hlt. rewrite length_app in Hlt. cbn in Hlt.
           rewrite lookup_app_l in * by lia. done.
    + intros i x [[Hi Hx]|[-> ->]]%Hcase.
      * destruct (Hb i x Hx) as [H1 H2]. destruct (Nat.leb_spec (longest_row_chars s) n); lia.
      * destruct (Nat.leb_spec (longest_row_chars s) n); [lia|].
        split; [lia|]. intros Hlt. apply lookup_lt_Some in Hlo. rewrite length_app in Hlo. cbn in Hlo. lia.
Qed.

Lemma summary_of_rows (text : str) : rows_summarised (summary_of text) (row_chars text).
Proof.
  enough (forall cs, rows_summarised (summaries cs) (fst (rows_of cs) ++ [snd (rows_of cs)])) as H.
  { destruct (H (str_chars text)). by split. }
  intros cs. induction cs as [|c cs IH] using rev_ind.
  - split; cbn; try done. intros [|[|i]] n Hn; try discriminate Hn. injection Hn as <-. lia.
  - unfold summaries, rows_of in *. rewrite !fold_left_app. cbn [fold_left].
    pose proof (summary_step_rows _ _ _ c IH) as H. cbv zeta in H. by rewrite <-surjective_pairing in H.
Qed.

(** [add_newline] is not what a newline adds. *)
Lemma add_newline_miscounts : add_newline (summary_of [97%Z]) <> summary_of [97; 10]%Z
  /\ len_utf16 (add_newline (summary_of [97%Z])) = 3 /\ len_utf16 (summary_of [97; 10]%Z) = 2.
Proof. by vm_compute. Qed.

Lemma counted_summaries cs :
  chars (summaries cs) = length cs /\ len_utf16 (summaries cs) = sum_list_with char_len_utf16 cs.
Proof.
  induction cs as [|c cs IH] using rev_ind; [done|]. unfold summaries in *. rewrite fold_left_app. cbn [fold_left].
  destruct IH as [IH1 IH2]. rewrite length_app, sum_list_with_app. cbn [length sum_list_with].
  unfold summary_step at 1 3. destruct (is_newline c); cbn [chars len_utf16]; lia.
Qed.
