(* ===== verification/Bits.v ===== *)
(** * Bitmaps: the integers of 64 and 128 bits that index a text ([crates/rope])

    The bit operations of the machine integers [chunk.rs] uses, on [Z], as a release build
    does them; and bitmaps as lists of booleans, lowest bit first ([bits]), on which each
    operation is one of lists. *)

From S2P Require Import Prelude.
Local Open Scope nat_scope.

(** ** Operations *)
Definition BITS : nat := 128.
Definition BITMAP_MAX : Z := (2 ^ 128 - 1)%Z.

(** [a << n] and [a >> n]: the shift amount is taken modulo the width. *)
Definition shl (a : Z) (n : nat) : Z := (Z.shiftl a (Z.of_nat (n mod BITS)) mod 2 ^ 128)%Z.
Definition shr (a : Z) (n : nat) : Z := Z.shiftr a (Z.of_nat (n mod BITS)).
(** [a.unbounded_shl(n)], [a.unbounded_shr(n)], [a.wrapping_sub(b)], [!a]. *)
Definition unbounded_shl (a : Z) (n : nat) : Z := if n <? BITS then shl a n else 0%Z.
Definition unbounded_shr (a : Z) (n : nat) : Z := if n <? BITS then shr a n else 0%Z.
Definition wrapping_sub (a b : Z) : Z := ((a - b) mod 2 ^ 128)%Z.
Definition bit_not (a : Z) : Z := (BITMAP_MAX - a)%Z.

Fixpoint pos_ones (p : positive) : nat :=
  match p with xH => 1 | xO p => pos_ones p | xI p => S (pos_ones p) end.
Definition count_ones (a : Z) : nat := match a with Zpos p => pos_ones p | _ => 0 end.

Fixpoint pos_trailing (p : positive) : nat :=
  match p with xO p => S (pos_trailing p) | _ => 0 end.
Definition trailing_zeros (a : Z) : nat := match a with Zpos p => pos_trailing p | _ => BITS end.
Definition leading_zeros (a : Z) : nat :=
  if (a =? 0)%Z then BITS else BITS - S (Z.to_nat (Z.log2 a)).

(** ** Bitmaps as lists *)
Fixpoint bits (l : list bool) : Z :=
  match l with [] => 0%Z | b :: l => (Z.b2z b + 2 * bits l)%Z end.
Fixpoint ones (l : list bool) : nat :=
  match l with [] => 0 | b :: l => (if b then 1 else 0) + ones l end.
(** How many bits are clear before the first that is set. *)
Fixpoint first_one (l : list bool) : option nat :=
  match l with [] => None | true :: _ => Some 0 | false :: l => S <$> first_one l end.
(** The place after the last bit that is set. *)
Definition after_last (l : list bool) : nat :=
  match first_one (rev l) with Some i => length l - i | None => 0 end.

Implicit Types l : list bool.

Lemma bits_range l : (0 <= bits l < 2 ^ Z.of_nat (length l))%Z.
Proof.
  induction l as [|b l IH]; simpl length; cbn [bits]; [cbn; lia|].
  rewrite Nat2Z.inj_succ, Z.pow_succ_r by lia. destruct b; cbn [Z.b2z]; lia.
Qed.

Lemma bits_app l k : bits (l ++ k) = (bits l + 2 ^ Z.of_nat (length l) * bits k)%Z.
Proof.
  induction l as [|b l IH]; cbn [app bits length]; [rewrite Z.pow_0_r; lia|].
  rewrite IH, Nat2Z.inj_succ, Z.pow_succ_r by lia. lia.
Qed.

Lemma bits_false n : bits (replicate n false) = 0%Z.
Proof. induction n as [|n IH]; cbn [replicate bits]; [done|]. rewrite IH. done. Qed.

Lemma bits_take_drop l n : bits l = (bits (take n l) + 2 ^ Z.of_nat (length (take n l)) * bits (drop n l))%Z.
Proof. rewrite <-(take_drop n l) at 1. apply bits_app. Qed.

Lemma bits_drop l n : Z.shiftr (bits l) (Z.of_nat n) = bits (drop n l).
Proof.
  rewrite Z.shiftr_div_pow2 by lia. destruct (decide (length l <= n)).
  - rewrite drop_ge by done. apply Z.div_small. pose proof (bits_range l).
    pose proof (Z.pow_le_mono_r 2 (Z.of_nat (length l)) (Z.of_nat n)). lia.
  - rewrite (bits_take_drop l n) at 1. pose proof (bits_range (take n l)) as H.
    rewrite length_take_le in * by lia.
    rewrite Z.mul_comm, Z.div_add, Z.div_small by lia. lia.
Qed.

Lemma bits_mod l n : (bits l mod 2 ^ Z.of_nat n)%Z = bits (take n l).
Proof.
  destruct (decide (length l <= n)).
  - rewrite take_ge by done. apply Z.mod_small. pose proof (bits_range l).
    pose proof (Z.pow_le_mono_r 2 (Z.of_nat (length l)) (Z.of_nat n)). lia.
  - rewrite (bits_take_drop l n) at 1. pose proof (bits_range (take n l)) as H.
    rewrite length_take_le in * by lia.
    rewrite Z.mul_comm, Z.mod_add, Z.mod_small by lia. lia.
Qed.

Lemma bits_take l n : Z.land (bits l) (Z.ones (Z.of_nat n)) = bits (take n l).
Proof. rewrite Z.land_ones by lia. apply bits_mod. Qed.

(** A word is the list of its bits. *)
Definition to_bits (n : nat) (v : Z) : list bool := map (fun i => Z.testbit v (Z.of_nat i)) (seq 0 n).

Lemma to_bits_S n v : to_bits (S n) v = Z.odd v :: to_bits n (Z.div2 v).
Proof.
  unfold to_bits. cbn [seq map]. rewrite Z.bit0_odd. f_equal. rewrite <-seq_shift, map_map.
  apply map_ext. intros i. rewrite Z.div2_spec, Z.shiftr_spec by lia. f_equal. lia.
Qed.

Lemma length_to_bits n v : length (to_bits n v) = n.
Proof. unfold to_bits. by rewrite length_map, length_seq. Qed.

Lemma bits_to_bits n v : (0 <= v < 2 ^ Z.of_nat n)%Z -> bits (to_bits n v) = v.
Proof.
  revert v. induction n as [|n IH]; intros v H; [simpl in *; lia|].
  rewrite to_bits_S. cbn [bits]. rewrite Nat2Z.inj_succ, Z.pow_succ_r in H by lia.
  pose proof (Z.div2_odd v) as E. rewrite IH; [lia|]. destruct (Z.odd v); cbn [Z.b2z] in E; lia.
Qed.

Lemma to_bits_bits l n : length l <= n -> to_bits n (bits l) = l ++ replicate (n - length l) false.
Proof.
  revert n. induction l as [|b l IH]; intros n Hn; cbn [length] in *.
  - rewrite Nat.sub_0_r. clear Hn. induction n as [|n IH]; [done|]. rewrite to_bits_S. cbn. f_equal. apply IH.
  - destruct n as [|n]; [lia|]. rewrite to_bits_S. cbn [bits app Nat.sub].
    assert (Z.odd (Z.b2z b + 2 * bits l) = b) as -> by (rewrite Z.odd_add_mul_2; by destruct b).
    assert (Z.div2 (Z.b2z b + 2 * bits l) = bits l) as -> by (rewrite Z.div2_div; symmetry; apply (Z.div_unique _ 2 _ (Z.b2z b)); destruct b; cbn [Z.b2z]; lia).
    f_equal. apply IH. lia.
Qed.

(** *** Counting *)
Lemma ones_app l k : ones (l ++ k) = ones l + ones k.
Proof. induction l as [|b l IH]; cbn [app ones]; [done|]. lia. Qed.
Lemma ones_le l : ones l <= length l.
Proof. induction l as [|[] l IH]; cbn [ones length]; lia. Qed.

Lemma bits_nonneg l : (0 <= bits l)%Z.
Proof. apply bits_range. Qed.

Lemma count_ones_double (b : bool) v : (0 <= v)%Z -> count_ones (Z.b2z b + 2 * v) = (if b then 1 else 0) + count_ones v.
Proof. by destruct v, b. Qed.

Lemma count_ones_bits l : count_ones (bits l) = ones l.
Proof.
  induction l as [|b l IH]; [done|]. cbn [bits ones]. rewrite count_ones_double, IH; [done|apply bits_nonneg].
Qed.

Lemma trailing_zeros_double (b : bool) v :
  (0 <= v)%Z -> (b = true \/ v <> 0%Z) ->
  trailing_zeros (Z.b2z b + 2 * v) = if b then 0 else S (trailing_zeros v).
Proof. intros ? [->|?]; destruct v; try done; try lia; by destruct b. Qed.

Lemma first_one_None l : first_one l = None <-> bits l = 0%Z.
Proof.
  induction l as [|b l IH]; [done|]. cbn [bits first_one]. pose proof (bits_nonneg l).
  destruct b; cbn [Z.b2z]; [split; [done|lia]|]. rewrite fmap_None, IH. lia.
Qed.

Lemma trailing_zeros_bits l : trailing_zeros (bits l) = default BITS (first_one l).
Proof.
  induction l as [|b l IH]; [done|]. cbn [bits first_one]. pose proof (bits_nonneg l).
  destruct b; [apply trailing_zeros_double; auto|].
  destruct (first_one l) as [i|] eqn:E.
  - rewrite trailing_zeros_double; [by rewrite IH|done|].
    right. intros HE%first_one_None. by rewrite E in HE.
  - apply first_one_None in E. by rewrite E.
Qed.

Lemma first_one_Some l i :
  first_one l = Some i <-> l !! i = Some true /\ ones (take i l) = 0.
Proof.
  revert i. induction l as [|[] l IH]; intros i; cbn [first_one].
  - rewrite lookup_nil. naive_solver.
  - destruct i; cbn; naive_solver lia.
  - rewrite fmap_Some. split.
    + intros (j & H & ->). apply IH in H. done.
    + destruct i as [|i]; [naive_solver|]. cbn. intros H. exists i. split; [by apply IH|done].
Qed.

Lemma after_last_snoc l b : after_last (l ++ [b]) = if b then S (length l) else after_last l.
Proof.
  unfold after_last. rewrite rev_unit, length_app. cbn [first_one length]. destruct b; [lia|].
  destruct (first_one (rev l)) as [i|] eqn:E; cbn; lia.
Qed.

Lemma after_last_le l : after_last l <= length l.
Proof. unfold after_last. case_match; lia. Qed.

Lemma leading_zeros_bits l : length l <= BITS -> BITS - leading_zeros (bits l) = after_last l.
Proof.
  induction l as [|b l IH] using rev_ind; [done|]. rewrite length_app. cbn [length]. intros Hl.
  rewrite after_last_snoc. destruct b.
  - rewrite bits_app. cbn [bits Z.b2z]. pose proof (bits_range l). unfold leading_zeros.
    pose proof (Z.pow_pos_nonneg 2 (Z.of_nat (length l))).
    case_match eqn:E; [lia|]. rewrite (Z.log2_unique _ (Z.of_nat (length l))); [lia|lia|].
    rewrite Z.pow_succ_r by lia. lia.
  - rewrite bits_app. cbn [bits Z.b2z]. rewrite Z.mul_0_r, Z.add_0_r. apply IH. lia.
Qed.

Lemma leading_zeros_le v : leading_zeros v <= BITS.
Proof. unfold leading_zeros. case_match; lia. Qed.
Lemma leading_zeros_bits' l : length l <= BITS -> leading_zeros (bits l) = BITS - after_last l.
Proof. intros H%leading_zeros_bits. pose proof (leading_zeros_le (bits l)). lia. Qed.

(** *** Masking, shifting, joining *)
Lemma testbit_bits l i : Z.testbit (bits l) (Z.of_nat i) = default false (l !! i).
Proof.
  revert i. induction l as [|b l IH]; intros i; [by rewrite Z.bits_0|]. cbn [bits].
  destruct i as [|i].
  - change (Z.of_nat 0) with 0%Z. rewrite Z.bit0_odd, Z.odd_add_mul_2. by destruct b.
  - rewrite Nat2Z.inj_succ, Z.add_comm, Z.testbit_succ_r by lia. apply IH.
Qed.

Lemma testbit_ext (a b : Z) :
  (0 <= a)%Z -> (forall i : nat, Z.testbit a (Z.of_nat i) = Z.testbit b (Z.of_nat i)) -> a = b.
Proof.
  intros _ H. apply Z.bits_inj'. intros n Hn. specialize (H (Z.to_nat n)). by rewrite Z2Nat.id in H.
Qed.

Lemma bits_lor l k : length l = length k -> Z.lor (bits l) (bits k) = bits (zip_with orb l k).
Proof.
  intros Hl. apply testbit_ext; [apply Z.lor_nonneg; split; apply bits_nonneg|]. intros i.
  rewrite Z.lor_spec, !testbit_bits, lookup_zip_with.
  destruct (l !! i) eqn:E; cbn.
  - apply lookup_lt_Some in E. rewrite Hl in E. apply lookup_lt_is_Some in E as [y ->]. done.
  - apply lookup_ge_None in E. rewrite lookup_ge_None_2 by lia. done.
Qed.

Lemma bits_land l k : length l = length k -> Z.land (bits l) (bits k) = bits (zip_with andb l k).
Proof.
  intros Hl. apply testbit_ext; [apply Z.land_nonneg; left; apply bits_nonneg|]. intros i.
  rewrite Z.land_spec, !testbit_bits, lookup_zip_with.
  destruct (l !! i) eqn:E; cbn.
  - apply lookup_lt_Some in E. rewrite Hl in E. apply lookup_lt_is_Some in E as [y ->]. done.
  - done.
Qed.

Lemma bits_true n : bits (replicate n true) = Z.ones (Z.of_nat n).
Proof.
  induction n as [|n IH]; [done|]. cbn [replicate bits]. rewrite IH, !Z.ones_equiv, Nat2Z.inj_succ, Z.pow_succ_r by lia.
  cbn [Z.b2z]. lia.
Qed.

(** Clear bits at the top change nothing. *)
Lemma bits_pad l n : bits (l ++ replicate n false) = bits l.
Proof. rewrite bits_app, bits_false. lia. Qed.

Lemma shr_bits l n : n < BITS -> shr (bits l) n = bits (drop n l).
Proof. intros. unfold shr. rewrite Nat.mod_small by done. apply bits_drop. Qed.

Lemma shl_bits l n : n < BITS -> n + length l <= BITS -> shl (bits l) n = bits (replicate n false ++ l).
Proof.
  intros Hn Hl. unfold shl. rewrite Nat.mod_small by done. rewrite Z.shiftl_mul_pow2, bits_app, bits_false, length_replicate by lia.
  rewrite Z.mod_small; [lia|]. pose proof (bits_range l).
  assert (2 ^ Z.of_nat n * 2 ^ Z.of_nat (length l) <= 2 ^ 128)%Z.
  { rewrite <-Z.pow_add_r by lia. apply Z.pow_le_mono_r; unfold BITS in *; lia. }
  nia.
Qed.

(** Appending: the second bitmap is shifted past the first and ored into it. *)
Lemma lor_app l k : Z.lor (bits l) (bits (replicate (length l) false ++ k)) = bits (l ++ k).
Proof.
  apply testbit_ext; [apply Z.lor_nonneg; split; apply bits_nonneg|]. intros i.
  rewrite Z.lor_spec, !testbit_bits. destruct (decide (i < length l)).
  - rewrite !lookup_app_l by (rewrite ?length_replicate; lia). rewrite lookup_replicate_2 by done. by rewrite orb_false_r.
  - rewrite !lookup_app_r by (rewrite ?length_replicate; lia). rewrite length_replicate.
    by rewrite (lookup_ge_None_2 l) by lia.
Qed.

Lemma append_bits l k :
  0 < length k -> length l + length k <= BITS -> Z.lor (bits l) (shl (bits k) (length l)) = bits (l ++ k).
Proof. intros. rewrite shl_bits by lia. apply lor_app. Qed.

Lemma shl_one n : n < BITS -> shl 1 n = (2 ^ Z.of_nat n)%Z.
Proof.
  intros. unfold shl. rewrite Nat.mod_small by done. rewrite Z.shiftl_1_l, Z.mod_small; [done|].
  split; [lia|]. apply Z.pow_lt_mono_r; unfold BITS in *; lia.
Qed.

(** [(1 << n) - 1] and its unbounded version. *)
Lemma mask_bits l n : n < BITS -> Z.land (bits l) (shl 1 n - 1) = bits (take n l).
Proof. intros. rewrite shl_one, <-bits_take by done. f_equal. rewrite Z.ones_equiv. lia. Qed.

Lemma unbounded_mask_bits l n :
  length l <= BITS -> Z.land (bits l) (wrapping_sub (unbounded_shl 1 n) 1) = bits (take n l).
Proof.
  intros Hl. unfold unbounded_shl. destruct (Nat.ltb_spec n BITS).
  - rewrite <-mask_bits by done. f_equal. unfold wrapping_sub. rewrite shl_one by done.
    apply Z.mod_small. assert (0 < 2 ^ Z.of_nat n)%Z by lia.
    assert (2 ^ Z.of_nat n < 2 ^ 128)%Z by (apply Z.pow_lt_mono_r; unfold BITS in *; lia). lia.
  - rewrite take_ge by lia. change (wrapping_sub 0 1) with (Z.ones (Z.of_nat BITS)).
    rewrite bits_take, take_ge by lia. done.
Qed.

(** [!MAX.unbounded_shr(n)]: the [n] highest bits. *)
Lemma high_mask n : n <= BITS -> bit_not (unbounded_shr BITMAP_MAX n) = bits (replicate (BITS - n) false ++ replicate n true).
Proof.
  intros Hn. rewrite bits_app, bits_false, bits_true, length_replicate. unfold bit_not, unbounded_shr.
  destruct (Nat.ltb_spec n BITS).
  - unfold shr. rewrite Nat.mod_small by done. change BITMAP_MAX with (Z.ones (Z.of_nat BITS)).
    rewrite Z.shiftr_div_pow2 by lia. rewrite Z.ones_div_pow2 by lia. rewrite !Z.ones_equiv.
    rewrite <-Nat2Z.inj_sub by lia.
    assert (2 ^ Z.of_nat BITS = 2 ^ Z.of_nat (BITS - n) * 2 ^ Z.of_nat n)%Z as ->.
    { rewrite <-Z.pow_add_r by lia. f_equal. lia. }
    lia.
  - assert (n = BITS) as -> by lia. done.
Qed.

Lemma zip_with_andb_false l : zip_with andb l (replicate (length l) false) = replicate (length l) false.
Proof. induction l as [|b l IH]; cbn; [done|]. by rewrite IH, andb_false_r. Qed.
Lemma zip_with_andb_true l : zip_with andb l (replicate (length l) true) = l.
Proof. induction l as [|b l IH]; cbn; [done|]. by rewrite IH, andb_true_r. Qed.

Lemma high_mask_bits l n :
  length l <= BITS -> n <= BITS ->
  Z.land (bits l) (bit_not (unbounded_shr BITMAP_MAX n))
  = bits (replicate (BITS - n) false ++ drop (BITS - n) (l ++ replicate (BITS - length l) false)).
Proof.
  intros Hl Hn. rewrite high_mask by done. rewrite <-(bits_pad l (BITS - length l)) at 1.
  rewrite bits_land by (rewrite !length_app, !length_replicate; lia). f_equal.
  set (k := l ++ replicate (BITS - length l) false).
  assert (length k = BITS) as Hk by (unfold k; rewrite length_app, length_replicate; lia).
  rewrite <-(take_drop (BITS - n) k) at 1. rewrite zip_with_app by (rewrite length_take, length_replicate; lia).
  f_equal.
  - pose proof (zip_with_andb_false (take (BITS - n) k)) as E. rewrite length_take_le in E by lia. done.
  - pose proof (zip_with_andb_true (drop (BITS - n) k)) as E. rewrite length_drop, Hk in E.
    by replace (BITS - (BITS - n)) with n in E by lia.
Qed.

Lemma ones_false n : ones (replicate n false) = 0.
Proof. induction n as [|n IH]; [done|]. apply IH. Qed.

Lemma count_high_mask l n :
  length l <= BITS -> n <= length l ->
  count_ones (Z.land (bits l) (bit_not (unbounded_shr BITMAP_MAX (BITS - n)))) = ones (drop n l).
Proof.
  intros. rewrite high_mask_bits by lia. replace (BITS - (BITS - n)) with n by lia.
  rewrite count_ones_bits, ones_app, ones_false, drop_app_le, ones_app, ones_false by lia. lia.
Qed.

(** Whether a bit is set. *)
Lemma bit_test l n :
  negb (Z.land (unbounded_shl 1 n) (bits l) =? 0)%Z = if n <? BITS then default false (l !! n) else false.
Proof.
  unfold unbounded_shl. destruct (Nat.ltb_spec n BITS); [|by rewrite Z.land_0_l].
  rewrite shl_one by done. rewrite Z.land_comm, <-testbit_bits.
  destruct (Z.testbit (bits l) (Z.of_nat n)) eqn:E; cbn.
  - apply negb_true_iff, Z.eqb_neq. intros H0. pose proof (f_equal (fun z => Z.testbit z (Z.of_nat n)) H0) as HE.
    cbv beta in HE. rewrite Z.land_spec, E, Z.pow2_bits_true, Z.bits_0 in HE by lia. done.
  - apply negb_false_iff, Z.eqb_eq, Z.bits_inj'. intros m Hm. rewrite Z.land_spec, Z.bits_0.
    destruct (decide (m = Z.of_nat n)) as [->|]; [by rewrite E|].
    rewrite Z.pow2_bits_false by lia. apply andb_false_r.
Qed.

(** *** Where bits are *)
Lemma ones_zero l : ones l = 0 <-> forall i, l !! i <> Some true.
Proof.
  induction l as [|b l IH]; cbn [ones]; [split; [intros _ i H; by rewrite lookup_nil in H|done]|].
  split.
  - destruct b; [lia|]. intros H [|i]; [done|]. by apply IH.
  - intros H. pose proof (H 0) as H0. destruct b; [done|]. apply IH. intros i. apply (H (S i)).
Qed.

(** After the last bit that is set there is none. *)
Lemma after_last_spec l :
  ones (drop (after_last l) l) = 0
  /\ (after_last l <> 0 -> l !! (after_last l - 1) = Some true).
Proof.
  induction l as [|b l [IH1 IH2]] using rev_ind; [done|]. rewrite after_last_snoc.
  pose proof (after_last_le l). destruct b.
  - split; [by rewrite drop_ge by (rewrite length_app; cbn; lia)|]. intros _.
    rewrite lookup_app_r by lia. by replace (S (length l) - 1 - length l) with 0 by lia.
  - split; [rewrite drop_app_le by lia; rewrite ones_app, IH1; done|]. intros H0.
    rewrite lookup_app_l by lia. by apply IH2.
Qed.
