(* ===== verification/NthSetBit.v ===== *)
(** * [nth_set_bit] ([crates/rope/src/chunk.rs]): selecting a bit without branches

    The function counts bits in fields of 2, 4, 8 and 16 bits at once and then walks
    down them.  A word of equal fields is [pack w n f]; every line of the counting is an
    operation on packed words. *)

From S2P Require Import Prelude.
From S2P Require Import Bits.
Local Open Scope nat_scope.

(** ** The code *)

(** [u64] arithmetic of a release build. *)
Definition add64 (a b : Z) : Z := wrap_u64 (a + b).
Definition sub64 (a b : Z) : Z := wrap_u64 (a - b).
Definition shr64 (a n : Z) : Z := Z.shiftr a (n mod 64).
Definition reverse_bits (v : Z) : Z := bits (rev (to_bits 64 v)).
Definition field_mask (d : Z) : Z := (U64_MAX / d)%Z.

(** One turn of the branchless select: [t] set bits are in the window below [s]. *)
Definition select_step (t : Z) (shift : Z) (sn : Z * Z) : Z * Z :=
  let '(s, n) := sn in
  let s := sub64 s (shr64 (Z.land (sub64 t n) 256) shift) in
  let n := sub64 n (Z.land t (shr64 (sub64 t n) 8)) in
  (s, n).

Definition nth_set_bit_u64 (v n : Z) : Z :=
  let v := reverse_bits v in
  let s := 64%Z in
  let a := sub64 v (Z.land (shr64 v 1) (field_mask 3)) in
  let b := add64 (Z.land a (field_mask 5)) (Z.land (shr64 a 2) (field_mask 5)) in
  let c := Z.land (add64 b (shr64 b 4)) (field_mask 0x11) in
  let d := Z.land (add64 c (shr64 c 8)) (field_mask 0x101) in
  let t := add64 (shr64 d 32) (shr64 d 48) in
  let '(s, n) := select_step t 3 (s, n) in
  let t := Z.land (shr64 d (sub64 s 16)) 0xff in
  let '(s, n) := select_step t 4 (s, n) in
  let t := Z.land (shr64 c (sub64 s 8)) 0xf in
  let '(s, n) := select_step t 5 (s, n) in
  let t := Z.land (shr64 b (sub64 s 4)) 0x7 in
  let '(s, n) := select_step t 6 (s, n) in
  let t := Z.land (shr64 a (sub64 s 2)) 0x3 in
  let '(s, n) := select_step t 7 (s, n) in
  let t := Z.land (shr64 v (sub64 s 1)) 0x1 in
  let '(s, _) := select_step t 8 (s, n) in
  sub64 (sub64 65 s) 1.

Definition nth_set_bit (v : Z) (n : nat) : nat :=
  let low := wrap_u64 v in
  let high := wrap_u64 (shr v 64) in
  let low_count := count_ones low in
  if low_count <? n then 64 + Z.to_nat (nth_set_bit_u64 high (Z.of_nat (n - low_count)))
  else Z.to_nat (nth_set_bit_u64 low (Z.of_nat n)).

(** ** Packed words *)
Fixpoint pack (w : Z) (n : nat) (f : nat -> Z) : Z :=
  match n with O => 0%Z | S n => (f 0%nat + 2 ^ w * pack w n (fun i => f (S i)))%Z end.

Definition fits (w : Z) (f : nat -> Z) : Prop := forall i, (0 <= f i < 2 ^ w)%Z.

Implicit Types (w : Z) (f g : nat -> Z).

Lemma pack_range w n f : (0 < w)%Z -> fits w f -> (0 <= pack w n f < 2 ^ (w * Z.of_nat n))%Z.
Proof.
  intros Hw. revert f. induction n as [|n IH]; intros f Hf; cbn [pack].
  - rewrite Z.mul_0_r. simpl. lia.
  - specialize (IH (fun i => f (S i)) (fun i => Hf (S i))). pose proof (Hf 0).
    replace (w * Z.of_nat (S n))%Z with (w + w * Z.of_nat n)%Z by lia. rewrite Z.pow_add_r by lia. nia.
Qed.

Lemma pack_ext w n f g : (forall i, i < n -> f i = g i) -> pack w n f = pack w n g.
Proof.
  revert f g. induction n as [|n IH]; intros f g H; cbn [pack]; [done|].
  rewrite H by lia. do 2 f_equal. apply IH. intros i Hi. apply H. lia.
Qed.

Lemma pack_add w n f g : (pack w n f + pack w n g)%Z = pack w n (fun i => (f i + g i)%Z).
Proof. revert f g. induction n as [|n IH]; intros f g; cbn [pack]; [done|]. rewrite <-IH. lia. Qed.

Lemma pack_sub w n f g : (pack w n f - pack w n g)%Z = pack w n (fun i => (f i - g i)%Z).
Proof. revert f g. induction n as [|n IH]; intros f g; cbn [pack]; [done|]. rewrite <-IH. lia. Qed.

Lemma pack_more w n f : f n = 0%Z -> pack w (S n) f = pack w n f.
Proof.
  revert f. induction n as [|n IH]; intros f H; [cbn; lia|].
  change (pack w (S (S n)) f) with (f 0%nat + 2 ^ w * pack w (S n) (fun i => f (S i)))%Z. by rewrite IH.
Qed.

(** Dropping fields. *)
Lemma pack_shift1 w n f : (0 < w)%Z -> fits w f -> Z.shiftr (pack w (S n) f) w = pack w n (fun i => f (S i)).
Proof.
  intros Hw Hf. rewrite Z.shiftr_div_pow2 by lia. cbn [pack]. pose proof (Hf 0).
  rewrite Z.mul_comm, Z.div_add, Z.div_small by lia. lia.
Qed.

Lemma pack_shift w n f (k : nat) :
  (0 < w)%Z -> fits w f -> k <= n -> Z.shiftr (pack w n f) (w * Z.of_nat k) = pack w (n - k) (fun i => f (k + i)).
Proof.
  intros Hw. revert n f. induction k as [|k IH]; intros n f Hf Hk.
  - rewrite Z.mul_0_r, Nat.sub_0_r. by rewrite Z.shiftr_0_r.
  - destruct n as [|n]; [lia|]. replace (w * Z.of_nat (S k))%Z with (w + w * Z.of_nat k)%Z by lia.
    rewrite <-Z.shiftr_shiftr, pack_shift1 by (done || lia). rewrite IH by (lia || by intros ?). done.
Qed.

(** The lowest field, through a mask as wide as what it holds. *)
Lemma pack_low w n f (m : Z) :
  (0 <= m <= w)%Z -> (0 <= f 0%nat < 2 ^ m)%Z -> Z.land (pack w (S n) f) (Z.ones m) = f 0%nat.
Proof.
  intros Hm Hf. rewrite Z.land_ones by lia. cbn [pack].
  replace w with (m + (w - m))%Z at 1 by lia. rewrite Z.pow_add_r by lia.
  rewrite <-Z.mul_assoc, Z.mul_comm, Z.mod_add, Z.mod_small by lia. done.
Qed.

Lemma pack_field w n f (k : nat) (m : Z) :
  (0 < w)%Z -> fits w f -> k < n -> (0 <= m <= w)%Z -> (f k < 2 ^ m)%Z ->
  Z.land (Z.shiftr (pack w n f) (w * Z.of_nat k)) (Z.ones m) = f k.
Proof.
  intros Hw Hf Hk Hm Hb. rewrite pack_shift by (done || lia).
  destruct (n - k) as [|j] eqn:E; [lia|]. pose proof (Hf k).
  pose proof (pack_low w j (fun i => f (k + i)) m Hm) as H0. cbv beta in H0. rewrite Nat.add_0_r in H0. apply H0. lia.
Qed.

(** Two neighbouring fields are one of twice the width. *)
Lemma pack_pair w n f :
  (0 < w)%Z -> pack w (2 * n) f = pack (2 * w) n (fun i => (f (2 * i)%nat + 2 ^ w * f (S (2 * i))%nat)%Z).
Proof.
  intros Hw. revert f. induction n as [|n IH]; intros f; [done|].
  replace (2 * S n) with (S (S (2 * n))) by lia. cbn [pack]. rewrite IH.
  replace (2 * w)%Z with (w + w)%Z at 2 by lia. rewrite Z.pow_add_r by lia.
  rewrite (pack_ext _ n _ (fun i => (f (2 * S i)%nat + 2 ^ w * f (S (2 * S i))%nat)%Z)).
  { change (2 * 0) with 0. lia. }
  intros i _. by replace (2 * S i) with (S (S (2 * i))) by lia.
Qed.

Lemma testbit_field w (a x n : Z) :
  (0 <= w)%Z -> (0 <= a < 2 ^ w)%Z -> (0 <= n)%Z ->
  Z.testbit (a + 2 ^ w * x) n = if (n <? w)%Z then Z.testbit a n else Z.testbit x (n - w).
Proof.
  intros Hw Ha Hn. destruct (Z.ltb_spec n w).
  - rewrite <-(Z.mod_pow2_bits_low _ w) by lia.
    by rewrite Z.mul_comm, Z.mod_add, Z.mod_small by lia.
  - replace n with (n - w + w)%Z at 1 by lia. rewrite <-Z.div_pow2_bits by lia.
    rewrite Z.mul_comm, Z.div_add, Z.div_small by lia. done.
Qed.

Lemma land_fields w (a b x y : Z) :
  (0 <= w)%Z -> (0 <= a < 2 ^ w)%Z -> (0 <= b < 2 ^ w)%Z ->
  Z.land (a + 2 ^ w * x) (b + 2 ^ w * y) = (Z.land a b + 2 ^ w * Z.land x y)%Z.
Proof.
  intros Hw Ha Hb.
  assert (0 <= Z.land a b < 2 ^ w)%Z.
  { rewrite <-(Z.mod_small b (2 ^ w)), <-Z.land_ones, Z.land_assoc, Z.land_ones by done.
    apply Z.mod_pos_bound. lia. }
  apply Z.bits_inj'. intros n Hn. rewrite Z.land_spec, !testbit_field by done.
  case_match; by rewrite Z.land_spec.
Qed.

(** A mask of every other field keeps the even ones. *)
Lemma pack_even w n f (mask : Z) :
  (0 < w)%Z -> fits w f -> (mask = pack (2 * w) n (fun _ => Z.ones w)) ->
  Z.land (pack w (2 * n) f) mask = pack (2 * w) n (fun i => f (2 * i)%nat).
Proof.
  intros Hw Hf ->. rewrite pack_pair by done. revert f Hf. induction n as [|n IH]; intros f Hf; [done|].
  cbn [pack]. pose proof (Hf 0). pose proof (Hf 1).
  assert (0 <= Z.ones w < 2 ^ w)%Z by (rewrite Z.ones_equiv; lia).
  assert (2 ^ (2 * w) = 2 ^ w * 2 ^ w)%Z as E by (rewrite <-Z.pow_add_r by lia; f_equal; lia).
  change (2 * 0)%nat with 0%nat.
  rewrite land_fields by (rewrite ?E; nia || lia).
  specialize (IH (fun i => f (S (S i))) (fun i => Hf (S (S i)))). f_equal.
  - rewrite Z.land_ones by lia. rewrite Z.mul_comm, Z.mod_add, Z.mod_small by lia. done.
  - f_equal. etrans; [|etrans; [apply IH|]].
    + f_equal. apply pack_ext. intros i _. by replace (2 * S i)%nat with (S (S (2 * i))) by lia.
    + apply pack_ext. intros i _. by replace (2 * S i)%nat with (S (S (2 * i))) by lia.
Qed.

Lemma pack_odd w n f (mask : Z) :
  (0 < w)%Z -> fits w f -> 0 < n -> f (2 * n)%nat = 0%Z -> (mask = pack (2 * w) n (fun _ => Z.ones w)) ->
  Z.land (Z.shiftr (pack w (2 * n) f) w) mask = pack (2 * w) n (fun i => f (S (2 * i))%nat).
Proof.
  intros Hw Hf Hn H0 ->. rewrite <-(pack_more w (2 * n) f) by done. rewrite pack_shift1 by done.
  by rewrite (pack_even w n (fun i => f (S i))) by (done || (intros ?; apply Hf)).
Qed.

(** *** Counts of the set bits of each field *)
Definition count (l : list bool) (w i : nat) : Z := Z.of_nat (ones (take w (drop (w * i) l))).

Definition bit (l : list bool) (i : nat) : Z := Z.b2z (default false (l !! i)).

Lemma bits_pack l n : length l <= n -> bits l = pack 1 n (bit l).
Proof.
  revert n. induction l as [|b l IH]; intros n Hn.
  - clear Hn. cbn [bits]. induction n as [|n IHn]; [done|]. cbn [pack].
    rewrite (pack_ext 1 n _ (bit [])) by (intros; by unfold bit; rewrite !lookup_nil). by rewrite <-IHn.
  - destruct n as [|n]; cbn [length] in Hn; [lia|]. cbn [pack bits]. by rewrite (IH n) by lia.
Qed.

Lemma ones_take_add (l : list bool) i j : ones (take (i + j) l) = ones (take i l) + ones (take j (drop i l)).
Proof. rewrite <-ones_app, take_take_drop. done. Qed.

Lemma count_one (l : list bool) i : count l 1 i = bit l i.
Proof.
  unfold count, bit. rewrite Nat.mul_1_l. destruct (l !! i) as [b|] eqn:E.
  - rewrite (drop_S _ _ _ E). by destruct b.
  - apply lookup_ge_None in E. by rewrite drop_ge by done.
Qed.

Lemma count_double (l : list bool) (w i : nat) : count l (2 * w) i = (count l w (2 * i)%nat + count l w (S (2 * i))%nat)%Z.
Proof.
  unfold count. replace (2 * w) with (w + w) at 1 by lia. rewrite ones_take_add, drop_drop, Nat2Z.inj_add.
  do 5 f_equal; lia.
Qed.

Lemma count_bound (l : list bool) (w i : nat) : (0 <= count l w i <= Z.of_nat w)%Z.
Proof. unfold count. pose proof (ones_le (take w (drop (w * i) l))). rewrite length_take in *. lia. Qed.

Lemma count_out (l : list bool) (w i : nat) : length l <= w * i -> count l w i = 0%Z.
Proof. intros. unfold count. by rewrite drop_ge, take_nil. Qed.

(** ** Counting in parallel *)
Lemma fits_bit (l : list bool) : fits 1 (bit l).
Proof. intros i. unfold bit. by destruct (default false (l !! i)). Qed.

Lemma fits_count (l : list bool) (w : nat) (z : Z) : (Z.of_nat w < 2 ^ z)%Z -> fits z (count l w).
Proof. intros Hw i. pose proof (count_bound l w i). lia. Qed.

Lemma wrap_pack w n f : (0 < w)%Z -> (w * Z.of_nat n = 64)%Z -> fits w f -> wrap_u64 (pack w n f) = pack w n f.
Proof.
  intros Hw Hn Hf. apply Z.mod_small. pose proof (pack_range w n f Hw Hf) as H. rewrite Hn in H. done.
Qed.

Section counting.
  Context (l : list bool) (Hl : length l = 64).

Lemma counts_2 : sub64 (bits l) (Z.land (shr64 (bits l) 1) (field_mask 3)) = pack 2 32 (count l 2).
  Proof.
    rewrite (bits_pack l 64) by lia. unfold sub64, shr64. change (1 mod 64)%Z with 1%Z.
    change 64 with (2 * 32). rewrite pack_odd; [|lia|apply fits_bit|lia| |vm_compute; reflexivity].
    - rewrite pack_pair, pack_sub by lia.
      rewrite (pack_ext _ _ _ (count l 2)); [apply wrap_pack; [lia..|apply fits_count; lia]|].
      intros i _. change (count l 2 i) with (count l (2 * 1) i). rewrite count_double, !count_one. lia.
    - unfold bit. by rewrite lookup_ge_None_2 by lia.
  Qed.

Lemma counts_4 :
    let a := pack 2 32 (count l 2) in
    add64 (Z.land a (field_mask 5)) (Z.land (shr64 a 2) (field_mask 5)) = pack 4 16 (count l 4).
  Proof.
    cbv zeta. unfold add64, shr64. change (2 mod 64)%Z with 2%Z. change 32 with (2 * 16).
    assert (fits 2 (count l 2)) by (apply fits_count; lia).
    rewrite pack_odd; [|lia|done|lia|apply count_out; lia|vm_compute; reflexivity].
    rewrite pack_even; [|lia|done|vm_compute; reflexivity]. rewrite pack_add.
    rewrite (pack_ext _ _ _ (count l 4)); [apply wrap_pack; [lia..|apply fits_count; lia]|].
    intros i _. change (count l 4 i) with (count l (2 * 2) i). by rewrite count_double.
  Qed.

  (** The sums of neighbours fit their fields, so one mask is enough. *)
Lemma neighbours (w n : nat) (z mask : Z) :
    (0 < z)%Z -> (Z.of_nat w + Z.of_nat w < 2 ^ z)%Z -> 0 < n -> length l <= w * (2 * n) ->
    (z * Z.of_nat (2 * n) = 64)%Z -> (z < 64)%Z -> mask = pack (2 * z) n (fun _ => Z.ones z) ->
    Z.land (add64 (pack z (2 * n) (count l w)) (shr64 (pack z (2 * n) (count l w)) z)) mask
    = pack (2 * z) n (count l (2 * w)).
  Proof.
    intros Hz Hw Hn Hlen H64 Hlt Hmask. unfold add64, shr64. rewrite Z.mod_small by lia.
    assert (fits z (count l w)) by (apply fits_count; lia).
    rewrite <-(pack_more z (2 * n) (count l w)) at 2 by (apply count_out; lia).
    rewrite pack_shift1, pack_add by done.
    assert (fits z (fun i => (count l w i + count l w (S i))%Z)).
    { intros i. pose proof (count_bound l w i). pose proof (count_bound l w (S i)). lia. }
    rewrite wrap_pack by done. rewrite pack_even by done. apply pack_ext. intros i _. by rewrite count_double.
  Qed.

Lemma counts_8 :
    let b := pack 4 16 (count l 4) in
    Z.land (add64 b (shr64 b 4)) (field_mask 0x11) = pack 8 8 (count l 8).
  Proof. apply (neighbours 4 8 4); try lia. vm_compute. reflexivity. Qed.

Lemma counts_16 :
    let c := pack 8 8 (count l 8) in
    Z.land (add64 c (shr64 c 8)) (field_mask 0x101) = pack 16 4 (count l 16).
  Proof. apply (neighbours 8 4 8); try lia. vm_compute. reflexivity. Qed.
End counting.

(** ** Walking down *)

(** A window holds at most 32 set bits; the first one is read with other fields above
    it.  The step is checked on every input it can be given. *)
Definition step_checks (t k n : nat) : bool :=
  let word := (Z.of_nat t + 65536 * Z.of_nat k)%Z in
  let less := sub64 word (Z.of_nat n) in
  (Z.land less 256 =? (if (t <? n)%nat then 256 else 0))%Z
  && (Z.land word (shr64 less 8) =? (if (t <? n)%nat then Z.of_nat t else 0))%Z.

Lemma step_checked :
  forallb (fun t => forallb (fun k => forallb (step_checks t k) (seq 0 65)) (seq 0 17)) (seq 0 33) = true.
Proof. vm_compute. reflexivity. Qed.

Lemma select_step_spec (t k n : nat) (shift s : Z) :
  t <= 32 -> k <= 16 -> n <= 64 ->
  select_step (Z.of_nat t + 65536 * Z.of_nat k) shift (s, Z.of_nat n)
  = if t <? n then (sub64 s (shr64 256 shift), Z.of_nat (n - t)) else (sub64 s 0, Z.of_nat n).
Proof.
  intros Ht Hk Hn. pose proof step_checked as H. rewrite forallb_forall in H.
  specialize (H t ltac:(apply in_seq; lia)). rewrite forallb_forall in H.
  specialize (H k ltac:(apply in_seq; lia)). rewrite forallb_forall in H.
  specialize (H n ltac:(apply in_seq; lia)). unfold step_checks in H.
  apply andb_prop in H as [H1%Z.eqb_eq H2%Z.eqb_eq]. unfold select_step. rewrite H1, H2.
  destruct (Nat.ltb_spec t n); f_equal; unfold sub64; try (rewrite wrap_u64_id by uint_lia; lia).
  unfold shr64. by rewrite Z.shiftr_0_l.
Qed.

(** The bit sought is the [n]-th from the top in the window of [w] bits below [s]. *)
Definition in_window (l : list bool) (total w : nat) (sn : Z * Z) : Prop :=
  exists k n : nat,
    sn = (Z.of_nat (w * S k), Z.of_nat n) /\ w * S k <= 64 /\ 1 <= n
    /\ (Z.of_nat n <= count l w k)%Z /\ ones (drop (w * S k) l) + n = total.

Lemma ones_drop_window (l : list bool) (w k : nat) :
  Z.of_nat (ones (drop (w * k) l)) = (count l w k + Z.of_nat (ones (drop (w * S k) l)))%Z.
Proof.
  unfold count. rewrite <-Nat2Z.inj_add, <-ones_app. f_equal.
  replace (w * S k) with (w * k + w) by lia. by rewrite <-drop_drop, take_drop.
Qed.

Lemma window_step (l : list bool) (total w k' : nat) (shift t : Z) s n :
  in_window l total (2 * w) (s, n) -> 0 < w <= 32 -> k' <= 16 -> shr64 256 shift = Z.of_nat w ->
  t = (count l w (Z.to_nat s / w - 1) + 65536 * Z.of_nat k')%Z ->
  in_window l total w (select_step t shift (s, n)).
Proof.
  intros (k & m & E & Hk & Hm & Hc & Hd) Hw Hk' Hs ->. apply pair_equal_spec in E as [-> ->].
  assert (Z.to_nat (Z.of_nat (2 * w * S k)) / w - 1 = S (2 * k)) as ->.
  { rewrite Nat2Z.id. replace (2 * w * S k) with ((2 * S k) * w) by lia. rewrite Nat.div_mul by lia. lia. }
  pose proof (count_bound l w (S (2 * k))) as Hb. pose proof (count_bound l w (2 * k)) as Hb'.
  rewrite count_double in Hc. pose proof (ones_drop_window l w (S (2 * k))) as Hdrop.
  replace (w * S (S (2 * k))) with (2 * w * S k) in Hdrop by lia.
  rewrite <-(Z2Nat.id (count l w (S (2 * k)))) by lia.
  rewrite select_step_spec by lia. rewrite Hs. unfold sub64.
  destruct (Nat.ltb_spec (Z.to_nat (count l w (S (2 * k)))) m).
  - exists (2 * k), (m - Z.to_nat (count l w (S (2 * k)))). rewrite wrap_u64_id by uint_lia.
    split_and!; try lia. f_equal. lia.
  - exists (S (2 * k)), m. rewrite wrap_u64_id by uint_lia. split_and!; try lia.
    + f_equal. lia.
    + replace (w * S (S (2 * k))) with (2 * w * S k) by lia. done.
Qed.

Lemma window_start (l : list bool) (n : nat) :
  length l = 64 -> 1 <= n <= ones l -> in_window l n 64 (64%Z, Z.of_nat n).
Proof.
  intros Hl Hn. exists 0, n. unfold count. rewrite Nat.mul_0_r, drop_0, take_ge, drop_ge by lia.
  split_and!; (done || lia).
Qed.

Lemma field_read (l : list bool) (total w n : nat) (m s k : Z) :
  in_window l total (2 * w) (s, k) -> 0 < w < 64 -> w * n = 64 ->
  (Z.of_nat w < 2 ^ m)%Z -> (0 <= m <= Z.of_nat w)%Z ->
  Z.land (shr64 (pack (Z.of_nat w) n (count l w)) (sub64 s (Z.of_nat w))) (Z.ones m)
  = (count l w (Z.to_nat s / w - 1) + 65536 * Z.of_nat 0)%Z.
Proof.
  intros (j & i & E & Hj & _) Hw Hn Hm Hmw. apply pair_equal_spec in E as [-> _].
  assert (Z.to_nat (Z.of_nat (2 * w * S j)) / w - 1 = S (2 * j)) as ->.
  { rewrite Nat2Z.id. replace (2 * w * S j) with ((2 * S j) * w) by lia. rewrite Nat.div_mul by lia. lia. }
  assert (sub64 (Z.of_nat (2 * w * S j)) (Z.of_nat w) = (Z.of_nat w * Z.of_nat (S (2 * j)))%Z) as ->.
  { unfold sub64. rewrite wrap_u64_id by uint_lia. lia. }
  unfold shr64. rewrite Z.mod_small by lia. pose proof (count_bound l w (S (2 * j))).
  rewrite pack_field; [lia|lia| |nia|lia|lia].
  apply fits_count. pose proof (Z.pow_le_mono_r 2 m (Z.of_nat w)). lia.
Qed.

Lemma first_read (l : list bool) :
  let d := pack 16 4 (count l 16) in
  length l = 64 ->
  add64 (shr64 d 32) (shr64 d 48) = (count l 32 1 + 65536 * Z.of_nat (Z.to_nat (count l 16 3)))%Z.
Proof.
  intros d Hl. subst d. unfold add64, shr64. change (32 mod 64)%Z with (16 * Z.of_nat 2)%Z.
  change (48 mod 64)%Z with (16 * Z.of_nat 3)%Z. rewrite !pack_shift by (lia || apply fits_count; lia).
  cbn [pack Nat.sub Nat.add]. pose proof (count_bound l 16 2). pose proof (count_bound l 16 3).
  change (count l 32 1) with (count l (2 * 16) 1). rewrite count_double.
  change (2 * 1) with 2. rewrite wrap_u64_id by uint_lia. lia.
Qed.

Lemma ones_rev (l : list bool) : ones (rev l) = ones l.
Proof. induction l as [|b l IH]; [done|]. cbn [rev ones]. rewrite ones_app, IH. cbn. lia. Qed.

(** The bit found is set, and [n - 1] of those below it are. *)
Definition nth_one (l : list bool) (n i : nat) : Prop := l !! i = Some true /\ ones (take i l) = n - 1.

Lemma lookup_rev_some (l : list bool) i b : rev l !! i = Some b -> l !! (length l - S i) = Some b.
Proof.
  rewrite rev_alt. change (rev_append l []) with (reverse l). by intros [? _]%reverse_lookup_Some.
Qed.

(** The window at the end is one bit. *)
Lemma window_end (l : list bool) (n : nat) s k :
  length l = 64 -> in_window (rev l) n 1 (s, k) ->
  exists i, sub64 (sub64 65 s) 1 = Z.of_nat i /\ nth_one l n i.
Proof.
  intros Hl (j & m & E & Hj & Hm & Hc & Hd). apply pair_equal_spec in E as [-> ->].
  rewrite Nat.mul_1_l in *. rewrite count_one in Hc. unfold bit in Hc.
  assert (rev l !! j = Some true /\ m = 1) as [Hj1 ->].
  { destruct (rev l !! j) as [[]|]; cbn in Hc; split; (done || lia). }
  exists (63 - j). split.
  - unfold sub64. rewrite !wrap_u64_id by (rewrite ?wrap_u64_id; uint_lia). lia.
  - apply lookup_rev_some in Hj1. rewrite Hl in Hj1. replace (64 - S j) with (63 - j) in Hj1 by lia.
    split; [done|]. rewrite <-Hd, <-(rev_involutive l) at 1.
    rewrite <-(ones_rev (drop (S j) (rev l))). rewrite Nat.add_sub. f_equal.
    rewrite <-(take_drop (S j) (rev l)), rev_app_distr at 1.
    rewrite take_app_le by (rewrite length_rev, length_drop, length_rev; lia).
    rewrite take_ge; [done|]. rewrite length_rev, length_drop, length_rev. lia.
Qed.

(** Takes the next turn. *)
Ltac turn L n W W1 :=
  lazymatch goal with |- context [select_step ?t ?shift ?sn] =>
    lazymatch type of W1 with in_window _ _ ?w _ => change (in_window L n w (select_step t shift sn)) in W1 end;
    destruct (select_step t shift sn); clear W; rename W1 into W
  end.
(** Reads the next window and takes the next turn. *)
Ltac narrow L n W w shift m :=
  match type of W with in_window _ _ _ (?s, ?k) =>
    let W1 := fresh "W1" in
    epose proof (window_step L n w 0 shift _ s k W ltac:(lia) ltac:(lia) eq_refl
      (field_read L n w (64 / w) m s k W ltac:(lia) eq_refl ltac:(lia) ltac:(lia))) as W1;
    turn L n W W1
  end.

Lemma nth_set_bit_u64_spec (l : list bool) (n : nat) :
  length l = 64 -> 1 <= n <= ones l ->
  exists i, nth_set_bit_u64 (bits l) (Z.of_nat n) = Z.of_nat i /\ nth_one l n i.
Proof.
  intros Hl Hn. unfold nth_set_bit_u64, reverse_bits. cbv zeta.
  rewrite to_bits_bits, Hl, Nat.sub_diag, app_nil_r by lia.
  set (L := rev l). assert (length L = 64) as HL by (unfold L; by rewrite length_rev).
  rewrite (counts_2 L HL), (counts_4 L HL), (counts_8 L HL), (counts_16 L HL), (first_read L HL).
  rewrite <-(ones_rev l) in Hn. pose proof (window_start L n HL Hn) as W. pose proof (count_bound L 16 3).
  epose proof (window_step L n 32 (Z.to_nat (count L 16 3)) 3 _ _ _ W ltac:(lia) ltac:(lia) eq_refl eq_refl) as W1.
  turn L n W W1.
  narrow L n W 16 4%Z 8%Z.
  narrow L n W 8 5%Z 4%Z.
  narrow L n W 4 6%Z 3%Z.
  narrow L n W 2 7%Z 2%Z.
  rewrite (bits_pack L 64) by lia.
  rewrite (pack_ext 1 64 (bit L) (count L 1)) by (intros; by rewrite count_one).
  narrow L n W 1 8%Z 1%Z.
  by eapply window_end.
Qed.

Lemma wrap_bits (l : list bool) : wrap_u64 (bits l) = bits (take 64 l).
Proof. apply (bits_mod l 64). Qed.

Lemma ones_firstn_le (l : list bool) i : ones (take i l) <= ones l.
Proof. rewrite <-(take_drop i l) at 2. rewrite ones_app. lia. Qed.

Lemma pad_one (l : list bool) m n i : nth_one (l ++ replicate m false) n i -> nth_one l n i.
Proof.
  intros [H1 H2]. destruct (decide (i < length l)).
  - rewrite lookup_app_l in H1 by done. rewrite take_app_le in H2 by lia. done.
  - rewrite lookup_app_r in H1 by lia. apply lookup_replicate in H1 as [? _]. done.
Qed.

Lemma padded (l : list bool) : length l <= 64 ->
  bits l = bits (l ++ replicate (64 - length l) false)
  /\ length (l ++ replicate (64 - length l) false) = 64
  /\ ones (l ++ replicate (64 - length l) false) = ones l.
Proof.
  intros. rewrite bits_pad, length_app, length_replicate, ones_app, ones_false. split_and!; (done || lia).
Qed.

Lemma nth_set_bit_half (l : list bool) (n : nat) :
  length l <= 64 -> 1 <= n <= ones l ->
  exists i, nth_set_bit_u64 (bits l) (Z.of_nat n) = Z.of_nat i /\ nth_one l n i.
Proof.
  intros Hl Hn. destruct (padded l Hl) as (-> & Hlen & Hones).
  destruct (nth_set_bit_u64_spec _ n Hlen) as (i & -> & H%pad_one); [lia|]. eauto.
Qed.

(** The [n]-th set bit of a word, counting from one. *)
Lemma nth_set_bit_spec (l : list bool) (n : nat) :
  length l <= BITS -> 1 <= n <= ones l -> nth_one l n (nth_set_bit (bits l) n).
Proof.
  intros Hl Hn. unfold nth_set_bit. rewrite shr_bits by (unfold BITS; lia).
  rewrite !wrap_bits, count_ones_bits, (take_ge (drop 64 l)) by (rewrite length_drop; unfold BITS in *; lia).
  pose proof (take_drop 64 l) as E. assert (ones l = ones (take 64 l) + ones (drop 64 l)) as Ho
    by (by rewrite <-ones_app, E).
  destruct (Nat.ltb_spec (ones (take 64 l)) n).
  - destruct (nth_set_bit_half (drop 64 l) (n - ones (take 64 l))) as (i & -> & H1 & H2);
      [rewrite length_drop; unfold BITS in *; lia|lia|].
    rewrite Nat2Z.id. rewrite lookup_drop in H1. split; [done|]. rewrite ones_take_add. lia.
  - destruct (nth_set_bit_half (take 64 l) n) as (i & -> & H1 & H2);
      [rewrite length_take; lia|lia|].
    rewrite Nat2Z.id. apply lookup_take_Some in H1 as [H1 Hi]. split; [done|].
    rewrite take_take, Nat.min_l in H2 by lia. done.
Qed.

Lemma nth_one_unique (l : list bool) n i j : 1 <= n -> nth_one l n i -> nth_one l n j -> i = j.
Proof.
  assert (forall i j, nth_one l n i -> nth_one l n j -> i < j -> 1 <= n -> False) as H.
  { intros a b [Ha1 Ha2] [Hb1 Hb2] Hab Hn. pose proof (ones_take_add l (S a) (b - S a)) as E.
    replace (S a + (b - S a)) with b in E by lia. rewrite (take_S_r _ _ _ Ha1), ones_app in E. cbn in E. lia. }
  intros Hn Hi Hj. destruct (lt_eq_lt_dec i j) as [[?| ->]|?]; [|done|]; exfalso; eauto.
Qed.
