(* ===== verification/Utf8.v ===== *)
(** * Boundaries of characters, and bitmaps of texts

    Where a text may be cut, what the bytes of a text mark (characters, UTF-16 units,
    newlines, tabs), and the summary of a text read off its marks. *)

From S2P Require Import Prelude.
From S2P Require Import Text.
From S2P Require Import TextSpec.
From S2P Require Import Bits.
Local Open Scope nat_scope.

Implicit Types (s t c rest : str) (b : Z) (i j n : nat).

(** ** Boundaries *)
Lemma first_is_boundary c b rest : utf8_char c b rest -> is_utf8_char_boundary b = true.
Proof. intros [_ Hb _ _]. unfold is_utf8_char_boundary. case_match; apply Z.geb_le; lia. Qed.

Lemma continuation_no_boundary b : continuation b -> is_utf8_char_boundary b = false.
Proof. unfold continuation, is_utf8_char_boundary. intros. rewrite Z.geb_leb. apply Z.leb_gt. case_match; lia. Qed.

Lemma char_middle c b rest i : utf8_char c b rest -> 0 < i < length c -> exists x, c !! i = Some x /\ continuation x.
Proof.
  intros [-> _ Hr _] Hi. destruct i as [|i]; [lia|]. cbn in *.
  destruct (lookup_lt_is_Some_2 rest i) as [x Hx]; [lia|]. exists x. split; [done|].
  by eapply Forall_lookup_1.
Qed.

Lemma boundary_zero s : is_char_boundary s 0 = true.
Proof. done. Qed.

Lemma boundary_app c b rest t i :
  utf8_char c b rest -> utf8 t -> is_char_boundary (c ++ t) i = true ->
  i = 0 \/ length c <= i /\ is_char_boundary t (i - length c) = true.
Proof.
  intros Hc Ht. unfold is_char_boundary. destruct (Nat.eqb_spec i 0); [by left|].
  destruct (decide (i < length c)).
  - rewrite lookup_app_l by done. destruct (char_middle _ _ _ i Hc) as (x & -> & Hx); [lia|].
    by rewrite continuation_no_boundary.
  - rewrite lookup_app_r by lia. intros H. right. split; [lia|].
    destruct (Nat.eqb_spec (i - length c) 0); [done|]. case_match; [done|].
    apply Nat.eqb_eq in H. rewrite length_app in H. apply Nat.eqb_eq. lia.
Qed.

(** A text is cut at a boundary into texts. *)
Lemma boundary_split s i :
  utf8 s -> is_char_boundary s i = true -> i <= length s /\ utf8 (take i s) /\ utf8 (drop i s).
Proof.
  intros H. revert i. induction H as [|c b rest t Hc Ht IH]; intros i Hi.
  - rewrite take_nil, drop_nil. unfold is_char_boundary in Hi. destruct (Nat.eqb_spec i 0); [subst|by apply Nat.eqb_eq in Hi].
    split_and!; [done|constructor..].
  - destruct (boundary_app _ _ _ _ _ Hc Ht Hi) as [->|(Hle & Hi')].
    + rewrite take_0, drop_0. split_and!; [lia|constructor|by econstructor].
    + destruct (IH _ Hi') as (H1 & H2 & H3). replace i with (length c + (i - length c)) by lia.
      rewrite take_app_add, drop_app_add, length_app. split_and!; [lia|by econstructor|done].
Qed.

Lemma boundary_between s t : utf8 t -> is_char_boundary (s ++ t) (length s) = true.
Proof.
  intros Ht. unfold is_char_boundary. destruct (Nat.eqb_spec (length s) 0); [done|].
  rewrite lookup_app_r, Nat.sub_diag by lia. destruct Ht as [|c b rest t Hc Ht].
  - cbn. rewrite app_nil_r. by apply Nat.eqb_eq.
  - pose proof (first_is_boundary _ _ _ Hc) as Hb. destruct Hc as [-> _ _ _]. done.
Qed.

Lemma boundary_length s : is_char_boundary s (length s) = true.
Proof.
  rewrite <-(app_nil_r s) at 1. apply boundary_between. constructor.
Qed.

Lemma boundary_iff s i : utf8 s -> i <= length s -> is_char_boundary s i = true <-> utf8 (drop i s).
Proof.
  intros Hs Hi. split; [intros H; by apply boundary_split in H as (_ & _ & ?)|].
  intros H. pose proof (boundary_between (take i s) _ H) as E. by rewrite take_drop, length_take_le in E.
Qed.

Lemma utf8_app_inv s t : utf8 (s ++ t) -> utf8 t -> utf8 s.
Proof.
  intros H Ht. pose proof (boundary_split _ (length s) H (boundary_between s t Ht)) as (_ & H1 & _).
  by rewrite take_app_length in H1.
Qed.

Lemma utf8_app_inv_l s t : utf8 (s ++ t) -> utf8 s -> utf8 t.
Proof.
  intros H Hs. revert H. induction Hs as [|c b rest s Hc Hs IH]; [done|]. rewrite <-app_assoc. intros H.
  apply IH. inversion H as [E|c' b' rest' t' Hc' Ht' E]; [destruct Hc; simplify_eq|].
  assert (c' = c) as ->.
  { destruct Hc as [-> _ _ Hl], Hc' as [-> _ _ Hl']. cbn in E. injection E as E1 E2. subst b'.
    rewrite <-Hl in Hl'. cbn in Hl'. f_equal. apply (f_equal (take (length rest))) in E2.
    replace (length rest) with (length rest') in E2 at 1 by lia. by rewrite !take_app_length in E2. }
  apply app_inv_head in E. by subst.
Qed.

(** A boundary of a part is one of the whole. *)
Lemma boundary_take s i j : utf8 s -> i <= j -> j <= length s -> is_char_boundary s j = true ->
  is_char_boundary (take j s) i = is_char_boundary s i.
Proof.
  intros Hs Hij Hj Hb. unfold is_char_boundary. destruct (Nat.eqb_spec i 0); [done|].
  destruct (decide (i = j)) as [->|].
  - rewrite lookup_ge_None_2, length_take_le, Nat.eqb_refl by (rewrite ?length_take_le; lia).
    unfold is_char_boundary in Hb. destruct (Nat.eqb_spec j 0); [lia|]. done.
  - rewrite lookup_take_lt by lia. destruct (lookup_lt_is_Some_2 s i) as [x ->]; [lia|done].
Qed.

Lemma boundary_drop s i j : is_char_boundary s i = true -> j <= length s - i ->
  is_char_boundary (drop i s) j = is_char_boundary s (i + j).
Proof.
  intros Hi Hj. unfold is_char_boundary at 1. destruct (Nat.eqb_spec j 0) as [->|]; [by rewrite Nat.add_0_r|].
  unfold is_char_boundary. destruct (Nat.eqb_spec (i + j) 0); [lia|]. rewrite lookup_drop, length_drop.
  case_match; [done|]. destruct (Nat.eqb_spec j (length s - i)), (Nat.eqb_spec (i + j) (length s)); done || lia.
Qed.

(** ** Marks *)
Definition boundaries s : list bool := map is_utf8_char_boundary s.
Definition newlines s : list bool := map (fun b => b =? NEWLINE)%Z s.
Definition tabs s : list bool := map (fun b => b =? TAB)%Z s.
Definition wide s : list bool := map (fun b => 240 <=? b)%Z s.
(** A character's first byte, and the second of one of two units. *)
Fixpoint utf16_marks (prev : bool) s : list bool :=
  match s with
  | [] => []
  | b :: s => (prev || is_utf8_char_boundary b) :: utf16_marks (240 <=? b)%Z s
  end.
Notation utf16s := (utf16_marks false).

Lemma length_marks p s : length (utf16_marks p s) = length s.
Proof. revert p. induction s as [|b s IH]; intros p; [done|]. cbn. by rewrite IH. Qed.
Lemma length_boundaries s : length (boundaries s) = length s.
Proof. apply length_map. Qed.
Lemma length_newlines s : length (newlines s) = length s.
Proof. apply length_map. Qed.

Lemma last_not_wide s : utf8 s -> default false (last (wide s)) = false.
Proof.
  induction 1 as [|c b rest t Hc Ht IH]; [done|]. unfold wide. rewrite map_app. rewrite last_app.
  fold (wide t). destruct (last (wide t)) eqn:E; [done|].
  apply last_None in E. assert (t = []) as -> by (by destruct t). clear IH E.
  destruct Hc as [-> Hb Hr Hl]. cbn in Hl. destruct (snoc_cases rest) as [->|(r & x & ->)].
  - cbn in *. unfold char_len in Hl. repeat case_match; lia.
  - change (b :: r ++ [x]) with ((b :: r) ++ [x]). rewrite map_app. cbn [map]. rewrite last_snoc. cbn [default].
    apply Forall_app in Hr as [_ [Hx _]%Forall_cons_1]. unfold continuation in Hx.
    apply Z.leb_gt. lia.
Qed.

Lemma marks_app p s t : utf16_marks p (s ++ t) = utf16_marks p s ++ utf16_marks (default p (last (wide s))) t.
Proof.
  revert p. induction s as [|b s IH]; intros p; [done|]. cbn [app utf16_marks]. rewrite IH. cbn [app].
  do 3 f_equal. cbn [wide map]. fold (wide s). rewrite last_cons. by destruct (last (wide s)).
Qed.

Lemma utf16s_app s t : utf8 s -> utf16s (s ++ t) = utf16s s ++ utf16s t.
Proof. intros H. rewrite marks_app. by rewrite last_not_wide. Qed.

Lemma boundaries_app s t : boundaries (s ++ t) = boundaries s ++ boundaries t.
Proof. apply map_app. Qed.
Lemma newlines_app s t : newlines (s ++ t) = newlines s ++ newlines t.
Proof. apply map_app. Qed.
Lemma tabs_app s t : tabs (s ++ t) = tabs s ++ tabs t.
Proof. apply map_app. Qed.

Lemma marks_or p s : utf16_marks p s = zip_with orb (take (length s) (p :: wide s)) (boundaries s).
Proof. revert p. induction s as [|b s IH]; intros p; [done|]. cbn. by rewrite IH. Qed.

(** ** A text's summary, read off its marks *)
Lemma first_one_app (l k : list bool) :
  first_one (l ++ k) = match first_one l with Some i => Some i | None => Nat.add (length l) <$> first_one k end.
Proof.
  induction l as [|[] l IH]; cbn [app first_one length]; [by destruct (first_one k)|done|].
  rewrite IH. by destruct (first_one l), (first_one k).
Qed.

Lemma after_last_false (l : list bool) n : after_last (l ++ replicate n false) = after_last l.
Proof.
  induction n as [|n IH]; [by rewrite app_nil_r|]. by rewrite replicate_S_end, app_assoc, after_last_snoc.
Qed.

Lemma utf8_rev_ind (P : str -> Prop) :
  P [] -> (forall s c b rest, utf8 s -> utf8_char c b rest -> P s -> P (s ++ c)) -> forall s, utf8 s -> P s.
Proof.
  intros H0 HS s Hs.
  assert (exists cs, s = concat cs /\ Forall (fun c => exists b rest, utf8_char c b rest) cs) as (cs & -> & Hcs).
  { induction Hs as [|c b rest t Hc Ht (cs & -> & Hcs)]; [by exists []|]. exists (c :: cs). split; [done|].
    constructor; eauto. }
  clear Hs. assert (utf8 (concat cs) /\ P (concat cs)) as [_ ?]; [|done].
  induction cs as [|c cs IH] using rev_ind; [split; [constructor|done]|].
  apply Forall_app in Hcs as [Hcs [(b & rest & Hc) _]%Forall_cons_1]. destruct (IH Hcs) as [Hu HP].
  rewrite concat_app. cbn [concat]. rewrite app_nil_r. split; [|by eapply HS].
  apply utf8_app; [done|]. rewrite <-(app_nil_r c). econstructor; [done|constructor].
Qed.

Lemma char_utf8 c b rest : utf8_char c b rest -> utf8 c.
Proof. intros H. rewrite <-(app_nil_r c). econstructor; [done|constructor]. Qed.

Lemma summary_of_char c b rest : utf8_char c b rest -> summary_of c = with_len (char_summary c) (length c).
Proof.
  intros H. unfold summary_of. pose proof (str_chars_cons c b rest [] H) as E. rewrite app_nil_r in E.
  rewrite E. f_equal. cbn [fold_left str_chars chars_loop length].
  rewrite step_add by done. apply add_zero_left, char_summary_valid.
Qed.

Lemma char_is_newline c b rest : utf8_char c b rest -> is_newline c = true -> c = [NEWLINE].
Proof.
  intros [-> Hb _ Hl] Hn%Z.eqb_eq. cbn in Hn. subst b. cbn in Hl. by destruct rest.
Qed.

Lemma char_not_newline c b rest :
  utf8_char c b rest -> is_newline c = false -> newlines c = replicate (length c) false.
Proof.
  intros [-> Hb Hr Hl] Hn. unfold is_newline in Hn. cbn in Hn. cbn [newlines map length replicate].
  f_equal; [done|]. clear Hl. induction Hr as [|x r Hx Hr IH]; [done|]. cbn [map length replicate]. f_equal; [|done].
  unfold continuation, NEWLINE in *. apply Z.eqb_neq. lia.
Qed.

Lemma char_boundaries c b rest : utf8_char c b rest -> boundaries c = true :: replicate (length c - 1) false.
Proof.
  intros H. pose proof (first_is_boundary _ _ _ H) as Hb. destruct H as [-> _ Hr _].
  cbn [boundaries map length]. rewrite Hb. f_equal. rewrite Nat.sub_succ, Nat.sub_0_r.
  induction Hr as [|x r Hx Hr IH]; [done|]. cbn. rewrite continuation_no_boundary by done. f_equal. apply IH.
Qed.

Lemma char_utf16s c b rest : utf8_char c b rest -> ones (utf16s c) = char_len_utf16 c.
Proof.
  intros H. pose proof (first_is_boundary _ _ _ H) as Hb. destruct H as [-> Hf Hr Hl].
  unfold char_len_utf16. cbn [first_byte head default utf16_marks orb ones]. rewrite Hb.
  assert (forall r, Forall continuation r -> utf16s r = replicate (length r) false) as Hrep.
  { induction 1 as [|x r Hx Hrs IH]; [done|]. cbn [utf16_marks length replicate orb].
    rewrite continuation_no_boundary by done. f_equal. unfold continuation in Hx.
    replace (240 <=? x)%Z with false; [done|]. symmetry. apply Z.leb_gt. lia. }
  cbv beta delta [id]. destruct (Z.leb_spec 240 b).
  - destruct Hr as [|x r Hx Hr]; [cbn in Hl; unfold char_len in Hl; repeat case_match; lia|].
    cbn [utf16_marks orb ones]. unfold continuation in Hx.
    replace (240 <=? x)%Z with false by (symmetry; apply Z.leb_gt; lia). by rewrite Hrep, ones_false.
  - by rewrite Hrep, ones_false.
Qed.

Create HintDb marks.
Hint Rewrite boundaries_app newlines_app ones_app ones_false after_last_false length_boundaries
  length_newlines length_marks @length_replicate : marks.

(** What the fields of a text's summary say. *)
Record summarises (m : TextSummary) s : Prop := {
  sum_len : len m = length s;
  sum_chars : chars m = ones (boundaries s);
  sum_utf16 : len_utf16 m = ones (utf16s s);
  sum_row : row (lines m) = ones (newlines s);
  sum_column : column (lines m) = length s - after_last (newlines s);
  sum_first : first_line_chars m = ones (take (default (length s) (first_one (newlines s))) (boundaries s));
  sum_last : last_line_chars m = ones (drop (after_last (newlines s)) (boundaries s));
  sum_last_utf16 : last_line_len_utf16 m = ones (drop (after_last (newlines s)) (utf16s s));
}.

Lemma first_one_zero (l : list bool) : ones l = 0 -> first_one l = None.
Proof. intros H. destruct (first_one l) as [i|] eqn:E; [|done]. apply first_one_Some in E as [E _].
  pose proof (proj1 (ones_zero l) H i). done. Qed.
Lemma after_last_zero (l : list bool) : ones l = 0 -> after_last l = 0.
Proof.
  intros H. destruct (decide (after_last l = 0)) as [|Hn]; [done|].
  apply (proj2 (after_last_spec l)) in Hn. by apply (proj1 (ones_zero l) H) in Hn.
Qed.
Lemma first_one_pos (l : list bool) : ones l <> 0 -> exists i, first_one l = Some i /\ i < length l.
Proof.
  intros H. destruct (first_one l) as [i|] eqn:E.
  - exists i. split; [done|]. apply first_one_Some in E as [E _]. by apply lookup_lt_Some in E.
  - apply first_one_None in E. exfalso. apply H. rewrite <-count_ones_bits, E. done.
Qed.

Lemma summary_snoc s c b rest :
  utf8 s -> utf8_char c b rest -> summarises (summary_of s) s -> summarises (summary_of (s ++ c)) (s ++ c).
Proof.
  intros Hs Hc [H1 H2 H3 H4 H5 H6 H7 H8]. rewrite summary_of_app, (summary_of_char _ _ _ Hc) by done.
  pose proof (after_last_le (newlines s)) as Hle. rewrite length_newlines in Hle.
  pose proof (char_boundaries _ _ _ Hc) as Eb. pose proof (char_utf16s _ _ _ Hc) as Eu.
  assert (first_one (newlines s) = None <-> ones (newlines s) = 0) as Hfo.
  { split; [intros E%first_one_None; by rewrite <-count_ones_bits, E|apply first_one_zero]. }
  destruct (utf8_char_inv _ _ _ Hc) as [Hpos _].
  destruct (is_newline c) eqn:En.
  - pose proof (char_is_newline _ _ _ Hc En) as ->. clear Hc Eb Eu Hpos.
    change (with_len (char_summary [NEWLINE]) (length [NEWLINE])) with summary_newline.
    assert (after_last (newlines s ++ [true]) = S (length s)) as EA by (by rewrite after_last_snoc, length_newlines).
    split; autorewrite with summary; rewrite ?utf16s_app, ?newlines_app, ?boundaries_app by done;
      change (newlines [NEWLINE]) with [true]; change (boundaries [NEWLINE]) with [true];
      change (utf16s [NEWLINE]) with [true]; rewrite ?EA, ?ones_app, ?length_app;
      cbn [summary_newline len chars len_utf16 lines first_line_chars last_line_chars last_line_len_utf16 row column
           Nat.eqb ones length]; try lia.
    + rewrite add_row. cbn [row]. lia.
    + unfold point_add. cbn [row column Nat.eqb]. lia.
    + rewrite first_one_app, H4, H6. destruct (Nat.eqb_spec (ones (newlines s)) 0) as [E|E].
      * rewrite (proj2 Hfo E). cbn. rewrite length_newlines, !Nat.add_0_r, take_app_le, !take_ge;
          rewrite ?length_boundaries; lia.
      * destruct (first_one_pos _ E) as (i & Ei & Hi). rewrite Ei. cbn. rewrite length_newlines in Hi.
        by rewrite take_app_le by (rewrite length_boundaries; lia).
    + rewrite drop_ge; [done|]. rewrite length_app, length_boundaries. cbn. lia.
    + rewrite drop_ge; [done|]. rewrite length_app, length_marks. cbn. lia.
  - pose proof (char_not_newline _ _ _ Hc En) as EN.
    assert (with_len (char_summary c) (length c)
      = mkTextSummary (length c) 1 (char_len_utf16 c) (mkPoint 0 (length c)) 1 1 (char_len_utf16 c) 0 1) as ->
      by (unfold char_summary; by rewrite En).
    split; autorewrite with summary; rewrite ?utf16s_app, ?newlines_app, ?boundaries_app, ?EN, ?Eb by done;
      rewrite ?after_last_false, ?ones_app, ?length_app, ?ones_false;
      cbn [len chars len_utf16 lines first_line_chars last_line_chars last_line_len_utf16 row column
           Nat.eqb ones length]; rewrite ?ones_false; try lia.
    + rewrite add_row. cbn [row]. lia.
    + unfold point_add. cbn [row column Nat.eqb]. lia.
    + rewrite first_one_app, H4, H6. destruct (Nat.eqb_spec (ones (newlines s)) 0) as [E|E].
      * rewrite (proj2 Hfo E), first_one_zero by apply ones_false. cbn.
        rewrite !take_ge, ones_app by (rewrite ?length_app; cbn; rewrite ?length_replicate, ?length_boundaries; lia).
        cbn. rewrite ones_false. lia.
      * destruct (first_one_pos _ E) as (i & Ei & Hi). rewrite Ei. cbn. rewrite length_newlines in Hi.
        by rewrite take_app_le by (rewrite length_boundaries; lia).
    + rewrite drop_app_le, ones_app by (rewrite length_boundaries; lia). cbn [ones]. rewrite ones_false. lia.
    + rewrite drop_app_le, ones_app by (rewrite length_marks; lia). lia.
Qed.

Lemma summary_of_marks s : utf8 s -> summarises (summary_of s) s.
Proof.
  intros Hs. induction Hs as [|s c b rest Hs Hc IH] using utf8_rev_ind; [done|]. by eapply summary_snoc.
Qed.

(** ** Lines *)

(** A newline is a character by itself. *)
Lemma newline_split s i :
  utf8 s -> newlines s !! i = Some true ->
  utf8 (take i s) /\ utf8 (drop (S i) s) /\ s = take i s ++ NEWLINE :: drop (S i) s.
Proof.
  intros Hs Hi. assert (s !! i = Some NEWLINE) as E.
  { unfold newlines in Hi. apply list_lookup_fmap_Some in Hi as (b & Hb & H). symmetry in Hb.
    apply Z.eqb_eq in Hb. by subst. }
  assert (is_char_boundary s i = true) as Hb by (unfold is_char_boundary; rewrite E; by case_match).
  destruct (boundary_split _ _ Hs Hb) as (H1 & H2 & H3).
  pose proof (drop_S _ _ _ E) as Ed. split_and!; [done| |by rewrite <-Ed, take_drop].
  rewrite Ed in H3. inversion H3 as [|c' b' rest' t' Hc' Ht' Ec].
  destruct Hc' as [-> _ _ Hl]. cbn in Ec. injection Ec as -> Ec. cbn in Hl. destruct rest' as [|x r]; [|done].
  cbn in Ec. by subst.
Qed.

Lemma newlines_take n s : newlines (take n s) = take n (newlines s).
Proof. symmetry. apply firstn_map. Qed.
Lemma newlines_drop n s : newlines (drop n s) = drop n (newlines s).
Proof. symmetry. apply skipn_map. Qed.
Lemma boundaries_take n s : boundaries (take n s) = take n (boundaries s).
Proof. symmetry. apply firstn_map. Qed.
Lemma boundaries_drop n s : boundaries (drop n s) = drop n (boundaries s).
Proof. symmetry. apply skipn_map. Qed.
Lemma tabs_take n s : tabs (take n s) = take n (tabs s).
Proof. symmetry. apply firstn_map. Qed.
Lemma tabs_drop n s : tabs (drop n s) = drop n (tabs s).
Proof. symmetry. apply skipn_map. Qed.
Lemma utf16s_take n s : is_char_boundary s n = true -> utf8 s -> utf16s (take n s) = take n (utf16s s).
Proof.
  intros Hb Hs. destruct (boundary_split _ _ Hs Hb) as (H1 & H2 & H3).
  rewrite <-(take_drop n s) at 2. rewrite utf16s_app by done.
  assert (length (utf16s (take n s)) = n) by (rewrite length_marks, length_take_le; done).
  by rewrite take_app_le, (take_ge (utf16s _)) by lia.
Qed.
Lemma utf16s_drop n s : is_char_boundary s n = true -> utf8 s -> utf16s (drop n s) = drop n (utf16s s).
Proof.
  intros Hb Hs. destruct (boundary_split _ _ Hs Hb) as (H1 & H2 & H3).
  rewrite <-(take_drop n s) at 2. rewrite utf16s_app by done.
  rewrite drop_app_ge; rewrite ?length_marks, ?length_take_le by done; [by rewrite Nat.sub_diag|done].
Qed.

(** A text without newlines is one row. *)
Lemma one_line s : utf8 s -> ones (newlines s) = 0 -> longest (summary_of s) = (0, ones (boundaries s)) /\
  row (lines (summary_of s)) = 0 /\ first_line_chars (summary_of s) = ones (boundaries s)
  /\ last_line_chars (summary_of s) = ones (boundaries s).
Proof.
  intros Hs Hn. pose proof (summary_of_marks _ Hs) as [H1 H2 H3 H4 H5 H6 H7 H8].
  pose proof (summary_of_valid s) as Hv. apply valid_spec in Hv. rewrite H4, Hn in *.
  rewrite H6, first_one_zero, take_ge in * by (done || (cbn; rewrite length_boundaries; lia)).
  rewrite H7, after_last_zero, drop_0 in * by done. unfold longest. split_and!; [|done..].
  f_equal; lia.
Qed.
