(* ===== verification/Chunk.v ===== *)
(** * Chunks of text ([crates/rope/src/chunk.rs])

    A chunk is at most 128 bytes of text with four bitmaps over its bytes; every
    question about it is answered by bit operations.  A [ChunkSlice] has the fields of
    a [Chunk], and [as_slice] copies them, so one record is both.  Whether the program
    is built with debug assertions is a parameter, a class; what [log::error!] writes
    is left out. *)

From S2P Require Import Prelude.
From S2P Require Import SumTree.
From S2P Require Import Text.
From S2P Require Import Bits.
From S2P Require Import NthSetBit.
Local Open Scope nat_scope.

Definition MAX_BASE : nat := BITS.
Definition MIN_BASE : nat := MAX_BASE / 2.

Record Chunk := mkChunk {
  chunk_chars : Z;
  chunk_chars_utf16 : Z;
  chunk_newlines : Z;
  chunk_tabs : Z;
  chunk_text : str;
}.
Notation ChunkSlice := Chunk.

Definition saturating_shl_mask (offset : nat) : Z := wrapping_sub (unbounded_shl 1 offset) 1.
Definition saturating_shr_mask (offset : nat) : Z := bit_not (unbounded_shr BITMAP_MAX offset).

(** ** Building *)

(** Four bytes of bitmap from (up to) eight bytes of text. *)
Record group := mkGroup { group_chars : Z; group_newlines : Z; group_tabs : Z; group_chars_utf16 : Z }.
Fixpoint group_bits (ix : Z) (bytes : str) (g : group) : group :=
  match bytes with
  | [] => g
  | b :: bytes =>
      group_bits (ix + 1) bytes (mkGroup
        (Z.lor (group_chars g) (Z.shiftl (Z.b2z (is_utf8_char_boundary b)) ix))
        (Z.lor (group_newlines g) (Z.shiftl (Z.b2z (b =? NEWLINE)%Z) ix))
        (Z.lor (group_tabs g) (Z.shiftl (Z.b2z (b =? TAB)%Z) ix))
        (Z.lor (group_chars_utf16 g) (Z.shiftl (Z.b2z (240 <=? b)%Z) ix)))
  end.
Definition CHUNK_SIZE : nat := 8.
Fixpoint groups (fuel : nat) (bytes : str) : list group :=
  match fuel, bytes with
  | S fuel, _ :: _ =>
      group_bits 0 (take CHUNK_SIZE bytes) (mkGroup 0 0 0 0) :: groups fuel (drop CHUNK_SIZE bytes)
  | _, _ => []
  end.
Fixpoint from_le_bytes (bytes : list Z) : Z :=
  match bytes with [] => 0%Z | b :: bytes => (b + 256 * from_le_bytes bytes)%Z end.

(** [ArrayString::push_str] into a string of capacity [MAX_BASE]. *)
Definition array_push_str (s text : str) : res str :=
  if length s + length text <=? MAX_BASE then Ret (s ++ text) else Panic.

Definition new (text : str) : res Chunk :=
  text ← array_push_str [] text;
  let gs := groups (length text) text in
  let chars := from_le_bytes (map group_chars gs) in
  Ret (mkChunk chars (Z.lor (shl (from_le_bytes (map group_chars_utf16 gs)) 1) chars)
    (from_le_bytes (map group_newlines gs)) (from_le_bytes (map group_tabs gs)) text).

Definition empty_chunk : Chunk := mkChunk 0 0 0 0 [].
Definition chunk_is_empty (self : ChunkSlice) : bool := length (chunk_text self) =? 0.
Definition chunk_len (self : ChunkSlice) : nat := length (chunk_text self).

Definition append (self : Chunk) (slice : ChunkSlice) : res Chunk :=
  if chunk_is_empty slice then Ret self
  else
    let base_ix := length (chunk_text self) in
    text ← array_push_str (chunk_text self) (chunk_text slice);
    Ret (mkChunk (Z.lor (chunk_chars self) (shl (chunk_chars slice) base_ix))
      (Z.lor (chunk_chars_utf16 self) (shl (chunk_chars_utf16 slice) base_ix))
      (Z.lor (chunk_newlines self) (shl (chunk_newlines slice) base_ix))
      (Z.lor (chunk_tabs self) (shl (chunk_tabs slice) base_ix)) text).

Definition prepend (self : Chunk) (slice : ChunkSlice) : res Chunk :=
  if chunk_is_empty slice then Ret self
  else if chunk_is_empty self then new (chunk_text slice)
  else
    let shift := length (chunk_text slice) in
    new_text ← array_push_str [] (chunk_text slice);
    new_text ← array_push_str new_text (chunk_text self);
    Ret (mkChunk (Z.lor (chunk_chars slice) (shl (chunk_chars self) shift))
      (Z.lor (chunk_chars_utf16 slice) (shl (chunk_chars_utf16 self) shift))
      (Z.lor (chunk_newlines slice) (shl (chunk_newlines self) shift))
      (Z.lor (chunk_tabs slice) (shl (chunk_tabs self) shift)) new_text).

Definition push_str (self : Chunk) (text : str) : res Chunk := slice ← new text; append self slice.
Definition prepend_str (self : Chunk) (text : str) : res Chunk := slice ← new text; prepend self slice.

(** [Into<Chunk>]: the text must fit. *)
Definition into_chunk (self : ChunkSlice) : res Chunk :=
  if chunk_len self <=? MAX_BASE then Ret self else Panic.

(** ** Boundaries *)
Definition chunk_is_char_boundary (self : ChunkSlice) (offset : nat) : bool :=
  negb (Z.land (unbounded_shl 1 offset) (chunk_chars self) =? 0)%Z || (offset =? length (chunk_text self)).

(** [Chunk::floor_char_boundary]: the loop from [i] down. *)
Fixpoint floor_loop (text : str) (i : nat) : res nat :=
  match i with
  | O => Ret O
  | S i' =>
      b ← index text i;
      if is_utf8_char_boundary b then Ret i else floor_loop text i'
  end.
Definition chunk_floor_char_boundary (self : Chunk) (index : nat) : res nat :=
  if length (chunk_text self) <=? index then Ret (length (chunk_text self))
  else floor_loop (chunk_text self) index.

(** [debug_panic!]: a panic in a build with debug assertions; without them it is logged,
    and the code goes on. *)
Class DebugAssertions := debug_assertions : bool.
Definition debug_panic `{DebugAssertions} {A} (value : A) : res A := if debug_assertions then Panic else Ret value.

(** [ChunkSlice::assert_char_boundary], and that of [Chunk], which debug assertions make
    panic as well. *)
Definition chunk_assert_char_boundary (PANIC : bool) (self : ChunkSlice) (offset : nat) : res bool :=
  if chunk_is_char_boundary self offset then Ret true else if PANIC then Panic else Ret false.
Definition owned_assert_char_boundary `{DebugAssertions} (PANIC : bool) (self : Chunk) (offset : nat) : res bool :=
  if chunk_is_char_boundary self offset then Ret true
  else if PANIC || debug_assertions then Panic else Ret false.

(** ** Slices *)
Definition split_at (self : ChunkSlice) (mid : nat) : res (ChunkSlice * ChunkSlice) :=
  if mid =? MAX_BASE then Ret (self, empty_chunk)
  else
    let mask := (shl 1 mid - 1)%Z in
    texts ← str_split_at (chunk_text self) mid;
    Ret (mkChunk (Z.land (chunk_chars self) mask) (Z.land (chunk_chars_utf16 self) mask)
           (Z.land (chunk_newlines self) mask) (Z.land (chunk_tabs self) mask) (fst texts),
         mkChunk (shr (chunk_chars self) mid) (shr (chunk_chars_utf16 self) mid)
           (shr (chunk_newlines self) mid) (shr (chunk_tabs self) mid) (snd texts)).

Definition slice (self : ChunkSlice) (start end_ : nat) : res ChunkSlice :=
  if start =? MAX_BASE then Ret empty_chunk
  else
    ok ← chunk_assert_char_boundary false self start;
    let start := if (ok : bool) then start else str_ceil_char_boundary (chunk_text self) start in
    ok ← chunk_assert_char_boundary false self end_;
    let end_ := if (ok : bool) then end_ else if end_ <? start then start
                else str_floor_char_boundary (chunk_text self) end_ in
    let mask := wrapping_sub (unbounded_shl 1 end_) 1 in
    text ← str_slice (chunk_text self) start end_;
    Ret (mkChunk (shr (Z.land (chunk_chars self) mask) start)
      (shr (Z.land (chunk_chars_utf16 self) mask) start)
      (shr (Z.land (chunk_newlines self) mask) start)
      (shr (Z.land (chunk_tabs self) mask) start) text).

(** ** Counting *)
Definition chunk_len_utf16 (self : ChunkSlice) : nat := count_ones (chunk_chars_utf16 self).

Definition chunk_lines (self : ChunkSlice) : Point :=
  mkPoint (count_ones (chunk_newlines self))
    (leading_zeros (chunk_newlines self) - (BITS - length (chunk_text self))).

Definition chunk_first_line_chars (self : ChunkSlice) : nat :=
  count_ones (Z.land (chunk_chars self) (saturating_shl_mask (trailing_zeros (chunk_newlines self)))).
Definition chunk_last_line_chars (self : ChunkSlice) : nat :=
  count_ones (Z.land (chunk_chars self) (saturating_shr_mask (leading_zeros (chunk_newlines self)))).
Definition chunk_last_line_len_utf16 (self : ChunkSlice) : nat :=
  count_ones (Z.land (chunk_chars_utf16 self) (saturating_shr_mask (leading_zeros (chunk_newlines self)))).

(** The loop of [longest_row]; each turn removes a newline.  The result is the row, its
    characters and [total_chars]. *)
Fixpoint longest_row_loop (fuel : nat) (chars newlines : Z) (total row longest longest_chars : nat)
    : nat * nat * nat :=
  let last :=
    let row_chars := count_ones chars in
    if longest_chars <? row_chars then (row, row_chars, total + row_chars)
    else (longest, longest_chars, total + row_chars) in
  match fuel with
  | O => last
  | S fuel =>
      if (0 <? newlines)%Z then
        let newline_ix := trailing_zeros newlines in
        let row_chars := count_ones (Z.land chars (shl 1 newline_ix - 1)) in
        let total := total + row_chars in
        let '(longest, longest_chars) :=
          if longest_chars <? row_chars then (row, row_chars) else (longest, longest_chars) in
        longest_row_loop fuel (shr (shr chars newline_ix) 1) (shr (shr newlines newline_ix) 1)
          (total + 1) (row + 1) longest longest_chars
      else last
  end.
Definition chunk_longest_row (self : ChunkSlice) : nat * nat * nat :=
  longest_row_loop BITS (chunk_chars self) (chunk_newlines self) 0 0 0 0.

Definition text_summary (self : ChunkSlice) : TextSummary :=
  let '(row, row_chars, chars) := chunk_longest_row self in
  mkTextSummary (chunk_len self) chars (chunk_len_utf16 self) (chunk_lines self)
    (chunk_first_line_chars self) (chunk_last_line_chars self) (chunk_last_line_len_utf16 self)
    row row_chars.

(** ** Converting *)
Definition offset_to_point (self : ChunkSlice) (offset : nat) : Point :=
  let mask := wrapping_sub (unbounded_shl 1 offset) 1 in
  let row := count_ones (Z.land (chunk_newlines self) mask) in
  let newline_ix := BITS - leading_zeros (Z.land (chunk_newlines self) mask) in
  mkPoint row (offset - newline_ix).

Definition offset_range_for_row (self : ChunkSlice) (row : nat) : nat * nat :=
  let row_start := if 0 <? row then nth_set_bit (chunk_newlines self) row + 1 else 0 in
  let row_len :=
    if row_start =? MAX_BASE then 0
    else trailing_zeros (shr (chunk_newlines self) row_start)
           `min` (length (chunk_text self) - row_start) in
  (row_start, row_start + row_len).

Definition point_to_offset `{DebugAssertions} (self : ChunkSlice) (point : Point) : res nat :=
  if row (chunk_lines self) <? row point then debug_panic (chunk_len self)
  else
    let '(start, end_) := offset_range_for_row self (row point) in
    if end_ - start <? column point then debug_panic end_ else Ret (start + column point).

Definition offset_to_offset_utf16 (self : ChunkSlice) (offset : nat) : nat :=
  let mask := wrapping_sub (unbounded_shl 1 offset) 1 in
  count_ones (Z.land (chunk_chars_utf16 self) mask).

Definition offset_utf16_to_offset (self : ChunkSlice) (target : nat) : nat :=
  if target =? 0 then 0
  else
    let ix := nth_set_bit (chunk_chars_utf16 self) target + 1 in
    if ix =? MAX_BASE then MAX_BASE
    else ix + trailing_zeros (shr (chunk_chars_utf16 self) ix) `min` (length (chunk_text self) - ix).

Definition point_to_offset_utf16 `{DebugAssertions} (self : ChunkSlice) (point : Point) : res nat :=
  if row (chunk_lines self) <? row point then debug_panic (chunk_len_utf16 self)
  else offset ← point_to_offset self point; Ret (offset_to_offset_utf16 self offset).

Definition offset_to_point_utf16 (self : ChunkSlice) (offset : nat) : PointUtf16 :=
  let mask := saturating_shl_mask offset in
  let row := count_ones (Z.land (chunk_newlines self) (saturating_shl_mask offset)) in
  let newline_ix := BITS - leading_zeros (Z.land (chunk_newlines self) mask) in
  let column := if newline_ix =? MAX_BASE then 0
                else count_ones (shr (Z.land (chunk_chars_utf16 self) mask) newline_ix) in
  mkPointUtf16 row column.

Definition point_to_point_utf16 `{DebugAssertions} (self : ChunkSlice) (point : Point) : res PointUtf16 :=
  offset ← point_to_offset self point; Ret (offset_to_point_utf16 self offset).

(** The loops [while !text.is_char_boundary(offset) { offset -= 1; }], here from [offset]
    on, are [boundary_down] ([is_char_boundary(0)] ends them). *)
Definition unless_clipped `{DebugAssertions} {A} (clip : bool) (value : A) : res A :=
  if clip then Ret value else debug_panic value.
Definition point_utf16_to_offset `{DebugAssertions} (self : ChunkSlice) (point : PointUtf16) (clip : bool) : res nat :=
  if row (chunk_lines self) <? row16 point then unless_clipped clip (chunk_len self)
  else
    let '(start, end_) := offset_range_for_row self (row16 point) in
    line ← slice self start end_;
    if chunk_last_line_len_utf16 line <? column16 point then unless_clipped clip end_
    else if 0 <? column16 point then
      let offset := start + offset_utf16_to_offset line (column16 point) in
      if is_char_boundary (chunk_text self) offset then Ret offset
      else unless_clipped clip (boundary_down (chunk_text self) offset)
    else Ret start.

Definition unclipped_point_utf16_to_point (self : ChunkSlice) (point : PointUtf16) : res Point :=
  let max_point := chunk_lines self in
  if row max_point <? row16 point then Ret max_point
  else
    let '(start, end_) := offset_range_for_row self (row16 point) in
    line ← slice self start end_;
    if column16 point =? 0 then Ret (mkPoint (row16 point) 0)
    else if chunk_len_utf16 line <=? column16 point then Ret (mkPoint (row16 point) (chunk_len line))
    else Ret (mkPoint (row16 point) (boundary_down (chunk_text line) (offset_utf16_to_offset line (column16 point)))).

(** ** Clipping *)

(** The loop of [clip_offset_utf16]; to the right it ends at the end of the text. *)
Definition clip_offset_utf16 (self : ChunkSlice) (target : nat) (bias : Bias) : nat :=
  if target =? 0 then 0
  else if chunk_len_utf16 self <=? target then chunk_len_utf16 self
  else
    let offset := offset_utf16_to_offset self target in
    let offset := match bias with
                  | Left => boundary_down (chunk_text self) offset
                  | Right => boundary_up (length (chunk_text self)) (chunk_text self) offset
                  end in
    offset_to_offset_utf16 self offset.

Definition clip_point_utf16 (self : ChunkSlice) (point : PointUtf16) (bias : Bias) : res PointUtf16 :=
  let max_point := chunk_lines self in
  if row max_point <? row16 point then Ret (mkPointUtf16 (row max_point) (chunk_last_line_len_utf16 self))
  else
    let '(start, end_) := offset_range_for_row self (row16 point) in
    line ← slice self start end_;
    Ret (mkPointUtf16 (row16 point) (clip_offset_utf16 line (column16 point) bias)).

(** [GraphemeCursor] of the [unicode_segmentation] crate: what [is_boundary] answers for a
    place in a whole text; [None] is its error value.  A text's ends are boundaries. *)
Class Graphemes := grapheme_is_boundary : str -> nat -> option bool.
Class GraphemeLaws `{Graphemes} := {
  grapheme_start (s : str) : grapheme_is_boundary s 0 = Some true;
  grapheme_end (s : str) : grapheme_is_boundary s (length s) = Some true;
}.

(** The loop of [clip_point]; [None] is running out of fuel. *)
Fixpoint clip_point_loop `{Graphemes} (fuel : nat) (line : ChunkSlice) (bias : Bias) (column : nat)
    : option nat :=
  if chunk_is_char_boundary line column && default false (grapheme_is_boundary (chunk_text line) column)
  then Some column
  else match fuel with
       | O => None
       | S fuel => clip_point_loop fuel line bias (match bias with Left => column - 1 | Right => column + 1 end)
       end.
Definition clip_point `{Graphemes} (self : ChunkSlice) (point : Point) (bias : Bias) : res (option Point) :=
  let max_point := chunk_lines self in
  if row max_point <? row point then Ret (Some max_point)
  else
    let '(start, end_) := offset_range_for_row self (row point) in
    line ← slice self start end_;
    if column point =? 0 then Ret (Some point)
    else if chunk_len line <=? column point then Ret (Some (mkPoint (row point) (chunk_len line)))
    else
      before ← index (chunk_text line) (column point - 1);
      after ← index (chunk_text line) (column point);
      if (before <? 128)%Z && (after <? 128)%Z then Ret (Some (mkPoint (row point) (column point)))
      else Ret (mkPoint (row point) <$> clip_point_loop (chunk_len line) line bias (column point)).

(** ** Tabs *)
Record Tabs := mkTabs { tabs_tabs : Z; tabs_chars : Z }.
Record TabPosition := mkTabPosition { byte_offset : nat; char_offset : nat }.
Definition chunk_tabs_iter (self : ChunkSlice) : Tabs := mkTabs (chunk_tabs self) (chunk_chars self).
Definition tabs_next (self : Tabs) : option TabPosition * Tabs :=
  if (tabs_tabs self =? 0)%Z then (None, self)
  else
    let tab_offset := trailing_zeros (tabs_tabs self) in
    let chars_mask := (shl 1 tab_offset - 1)%Z in
    let char_offset := count_ones (Z.land (tabs_chars self) chars_mask) in
    (Some (mkTabPosition tab_offset char_offset),
     mkTabs (Z.lxor (tabs_tabs self) (shl 1 tab_offset)) (tabs_chars self)).
