(* ===== verification/ChunkSpec.v ===== *)
(** * Chunks: what the bitmaps promise

    [chunk_of s] is the chunk a text has: its bitmaps are the text's marks.  The
    operations on chunks act on the text and keep this; the questions answered with
    bitmaps have the text's answer. *)

From S2P Require Import Prelude.
From S2P Require Import SumTree.
From S2P Require Import Text.
From S2P Require Import TextSpec.
From S2P Require Import Bits.
From S2P Require Import NthSetBit.
From S2P Require Import Utf8.
From S2P Require Import Chunk.
Local Open Scope nat_scope.

Implicit Types (s t : str) (i n : nat).

Definition chunk_of (s : str) : Chunk :=
  mkChunk (bits (boundaries s)) (bits (utf16s s)) (bits (newlines s)) (bits (tabs s)) s.

(** The texts a chunk holds. *)
Record fits (s : str) : Prop := { fits_utf8 : utf8 s; fits_len : length s <= MAX_BASE }.

Lemma fits_bits s : fits s -> length s <= BITS.
Proof. intros [_ H]. exact H. Qed.
Lemma fits_nil : fits [].
Proof. split; [constructor|cbn; lia]. Qed.
Lemma fits_take s i : fits s -> is_char_boundary s i = true -> fits (take i s).
Proof. intros [Hu Hl] Hb. destruct (boundary_split _ _ Hu Hb) as (_ & ? & _). split; [done|]. rewrite length_take. lia. Qed.
Lemma fits_drop s i : fits s -> is_char_boundary s i = true -> fits (drop i s).
Proof. intros [Hu Hl] Hb. destruct (boundary_split _ _ Hu Hb) as (_ & _ & ?). split; [done|]. rewrite length_drop. lia. Qed.
#[export] Hint Resolve fits_bits fits_nil fits_take fits_drop fits_utf8 fits_len boundary_length : rdg.

(** ** Building *)

Lemma lor_snoc (l : list bool) (b : bool) : Z.lor (bits l) (Z.shiftl (Z.b2z b) (Z.of_nat (length l))) = bits (l ++ [b]).
Proof.
  rewrite <-lor_app. f_equal. rewrite bits_app, bits_false, length_replicate, Z.shiftl_mul_pow2 by lia.
  cbn [bits]. lia.
Qed.

Definition group_of (pre s : str) : group :=
  mkGroup (bits (boundaries (pre ++ s))) (bits (newlines (pre ++ s))) (bits (tabs (pre ++ s))) (bits (wide (pre ++ s))).

Lemma group_bits_spec (pre s : str) :
  group_bits (Z.of_nat (length pre)) s (group_of pre []) = group_of pre s.
Proof.
  revert pre. induction s as [|b s IH]; intros pre; [done|]. cbn [group_bits].
  assert (forall p : Z -> bool, Z.lor (bits (map p (pre ++ []))) (Z.shiftl (Z.b2z (p b)) (Z.of_nat (length pre)))
    = bits (map p ((pre ++ [b]) ++ []))) as E.
  { intros p. rewrite !app_nil_r, map_app. cbn [map]. rewrite <-lor_snoc. by rewrite length_map. }
  unfold group_of at 1 2 3 4. cbn [group_chars group_newlines group_tabs group_chars_utf16].
  unfold boundaries, newlines, tabs, wide. rewrite (E is_utf8_char_boundary), (E (fun b => b =? NEWLINE)%Z),
    (E (fun b => b =? TAB)%Z), (E (fun b => 240 <=? b)%Z).
  specialize (IH (pre ++ [b])). rewrite length_app in IH. cbn [length] in IH.
  rewrite Nat2Z.inj_add in IH. change (Z.of_nat 1) with 1%Z in IH.
  unfold group_of, boundaries, newlines, tabs, wide in IH. rewrite IH. by rewrite <-!app_assoc.
Qed.

Lemma groups_spec (f : group -> Z) (p : Z -> bool) :
  (forall s, f (group_of [] s) = bits (map p s)) ->
  forall fuel s, length s <= fuel -> from_le_bytes (map f (groups fuel s)) = bits (map p s).
Proof.
  intros Hf. induction fuel as [|fuel IH]; intros [|b s] Hl; try done; [cbn in Hl; lia|].
  cbn [groups]. set (bytes := b :: s) in *. cbn [map from_le_bytes].
  change (group_bits 0 (take CHUNK_SIZE bytes) (mkGroup 0 0 0 0))
    with (group_bits (Z.of_nat (length (@nil Z))) (take CHUNK_SIZE bytes) (group_of [] [])).
  rewrite group_bits_spec, Hf.
  rewrite IH by (rewrite length_drop; unfold bytes, CHUNK_SIZE in *; cbn in *; lia).
  rewrite <-(take_drop CHUNK_SIZE bytes) at 3. rewrite map_app, bits_app, length_map.
  destruct (decide (length bytes <= CHUNK_SIZE)).
  - rewrite (drop_ge bytes) by done. cbn. lia.
  - rewrite length_take_le by lia. done.
Qed.

Lemma shl_one_bits (l : list bool) :
  length l <= BITS -> default false (last l) = false -> shl (bits l) 1 = bits (take (length l) (false :: l)).
Proof.
  intros Hl Hlast. unfold shl. rewrite Nat.mod_small by (unfold BITS; lia).
  rewrite Z.shiftl_mul_pow2 by lia. change (2 ^ Z.of_nat 1)%Z with 2%Z.
  replace (bits l * 2)%Z with (bits (false :: l)) by (cbn [bits Z.b2z]; lia).
  change (2 ^ 128)%Z with (2 ^ Z.of_nat BITS)%Z. rewrite (bits_mod (false :: l) BITS). destruct (snoc_cases l) as [->|(l' & x & ->)]; [done|].
  rewrite last_snoc in Hlast. cbn in Hlast. subst x. rewrite length_app in *. cbn [length] in *.
  replace (length l' + 1) with (S (length l')) by lia. cbn [take]. rewrite take_app_length.
  change (false :: l' ++ [false]) with ((false :: l') ++ [false]).
  destruct (decide (S (length l') = BITS)).
  - rewrite take_app_le, take_ge by (cbn [length]; unfold BITS in *; lia). done.
  - rewrite take_ge by (rewrite length_app; cbn [length]; unfold BITS in *; lia). apply (bits_pad _ 1).
Qed.

Lemma new_spec s : utf8 s -> new s = if length s <=? MAX_BASE then Ret (chunk_of s) else Panic.
Proof.
  intros Hu. unfold new, array_push_str. cbn [length Nat.add]. destruct (Nat.leb_spec (length s) MAX_BASE); [|done].
  cbn. f_equal. rewrite (groups_spec group_chars is_utf8_char_boundary), (groups_spec group_newlines (fun b => b =? NEWLINE)%Z),
    (groups_spec group_tabs (fun b => b =? TAB)%Z), (groups_spec group_chars_utf16 (fun b => 240 <=? b)%Z) by done.
  unfold chunk_of. f_equal. rewrite shl_one_bits; [|rewrite length_map; done|by apply last_not_wide].
  rewrite bits_lor.
  - rewrite marks_or. by rewrite length_map.
  - rewrite length_take, length_cons, !length_map. lia.
Qed.

Lemma new_fits s : fits s -> new s = Ret (chunk_of s).
Proof. intros [Hu Hl]. rewrite new_spec by done. by destruct (Nat.leb_spec (length s) MAX_BASE); [|lia]. Qed.

Lemma empty_chunk_of : empty_chunk = chunk_of [].
Proof. done. Qed.

(** Joining the bitmaps of two texts. *)
Lemma lor_chunks s t :
  utf8 s -> 0 < length t -> length s + length t <= MAX_BASE ->
  mkChunk (Z.lor (bits (boundaries s)) (shl (bits (boundaries t)) (length s)))
    (Z.lor (bits (utf16s s)) (shl (bits (utf16s t)) (length s)))
    (Z.lor (bits (newlines s)) (shl (bits (newlines t)) (length s)))
    (Z.lor (bits (tabs s)) (shl (bits (tabs t)) (length s))) (s ++ t) = chunk_of (s ++ t).
Proof.
  intros Hs Ht Hl. unfold chunk_of. rewrite utf16s_app, boundaries_app, newlines_app, tabs_app by done.
  assert (forall l k, length l = length s -> length k = length t ->
    Z.lor (bits l) (shl (bits k) (length s)) = bits (l ++ k)) as E.
  { intros l k El Ek. rewrite <-El. apply append_bits; unfold MAX_BASE in *; lia. }
  by rewrite !E by (rewrite ?length_marks; unfold boundaries, newlines, tabs; rewrite ?length_map; done).
Qed.

Lemma append_spec s t :
  utf8 s ->
  append (chunk_of s) (chunk_of t)
  = if (length t =? 0) || (length s + length t <=? MAX_BASE) then Ret (chunk_of (s ++ t)) else Panic.
Proof.
  intros Hs. unfold append, chunk_is_empty. cbn [chunk_text chunk_of]. destruct (Nat.eqb_spec (length t) 0) as [E|E].
  - destruct t; [|done]. by rewrite app_nil_r.
  - unfold array_push_str. destruct (Nat.leb_spec (length s + length t) MAX_BASE); [|done].
    cbn. f_equal. apply lor_chunks; (done || lia).
Qed.

Lemma prepend_spec s t :
  utf8 t -> length t <= MAX_BASE ->
  prepend (chunk_of s) (chunk_of t)
  = if (length t =? 0) || (length t + length s <=? MAX_BASE) then Ret (chunk_of (t ++ s)) else Panic.
Proof.
  intros Ht Hl. unfold prepend, chunk_is_empty. cbn [chunk_text chunk_of]. destruct (Nat.eqb_spec (length t) 0) as [E|E].
  - by destruct t.
  - destruct (Nat.eqb_spec (length s) 0) as [E'|E'].
    + destruct s; [|done]. rewrite app_nil_r, new_spec by done. cbn [length orb]. by rewrite Nat.add_0_r.
    + unfold array_push_str. cbn [length Nat.add app orb]. destruct (Nat.leb_spec (length t) MAX_BASE); [|lia].
      cbn [mbind res_bind]. destruct (Nat.leb_spec (length t + length s) MAX_BASE); [|done].
      cbn. f_equal. apply lor_chunks; (done || lia).
Qed.

(** ** Cutting *)
Lemma is_char_boundary_spec s i : fits s -> chunk_is_char_boundary (chunk_of s) i = is_char_boundary s i.
Proof.
  intros [Hu Hl]. unfold chunk_is_char_boundary. cbn [chunk_of chunk_chars chunk_text]. rewrite bit_test.
  unfold is_char_boundary. destruct (decide (i < length s)).
  - destruct (Nat.ltb_spec i BITS); [|unfold MAX_BASE in *; lia].
    unfold boundaries. destruct (lookup_lt_is_Some_2 s i) as [x Hx]; [done|].
    destruct (Nat.eqb_spec i (length s)); [lia|]. rewrite orb_false_r, Hx, list_lookup_fmap, Hx. cbn.
    destruct (Nat.eqb_spec i 0) as [->|]; [|done].
    destruct Hu as [|c b rest t Hc Ht]; [done|]. pose proof (first_is_boundary _ _ _ Hc) as Hb.
    destruct Hc as [-> _ _ _]. cbn in Hx. by simplify_eq.
  - rewrite (lookup_ge_None_2 s) by lia.
    assert ((if i <? BITS then default false (boundaries s !! i) else false) = false) as ->.
    { case_match; [|done]. rewrite lookup_ge_None_2; [done|]. rewrite length_boundaries. lia. }
    cbn. destruct (Nat.eqb_spec i 0) as [->|]; [|done]. apply Nat.eqb_eq. lia.
Qed.

Lemma bits_nil : bits [] = 0%Z.
Proof. done. Qed.

Lemma chunk_of_take s i :
  fits s -> is_char_boundary s i = true ->
  chunk_of (take i s) = mkChunk (bits (take i (boundaries s))) (bits (take i (utf16s s)))
    (bits (take i (newlines s))) (bits (take i (tabs s))) (take i s).
Proof.
  intros [Hu Hl] Hb. unfold chunk_of. by rewrite boundaries_take, newlines_take, tabs_take, utf16s_take.
Qed.
Lemma chunk_of_drop s i :
  fits s -> is_char_boundary s i = true ->
  chunk_of (drop i s) = mkChunk (bits (drop i (boundaries s))) (bits (drop i (utf16s s)))
    (bits (drop i (newlines s))) (bits (drop i (tabs s))) (drop i s).
Proof.
  intros [Hu Hl] Hb. unfold chunk_of. by rewrite boundaries_drop, newlines_drop, tabs_drop, utf16s_drop.
Qed.

Lemma split_at_spec s mid :
  fits s ->
  split_at (chunk_of s) mid
  = if mid =? MAX_BASE then Ret (chunk_of s, chunk_of [])
    else if is_char_boundary s mid then Ret (chunk_of (take mid s), chunk_of (drop mid s)) else Panic.
Proof.
  intros Hs. unfold split_at. destruct (Nat.eqb_spec mid MAX_BASE); [done|].
  unfold str_split_at. cbn [chunk_of chunk_text]. destruct (is_char_boundary s mid) eqn:Hb; [|done].
  destruct (boundary_split _ _ (fits_utf8 _ Hs) Hb) as (Hm & _ & _). pose proof (fits_len _ Hs).
  cbn [mbind res_bind fst snd]. rewrite chunk_of_take, chunk_of_drop by done.
  cbn [chunk_of chunk_chars chunk_chars_utf16 chunk_newlines chunk_tabs].
  rewrite !mask_bits, !shr_bits by (unfold MAX_BASE in *; lia). done.
Qed.

(** Cut where a chunk can be cut, the parts are those of the text. *)
Lemma split_at_boundary s mid :
  fits s -> is_char_boundary s mid = true ->
  split_at (chunk_of s) mid = Ret (chunk_of (take mid s), chunk_of (drop mid s)).
Proof.
  intros Hs Hb. rewrite split_at_spec, Hb by done. destruct (Nat.eqb_spec mid MAX_BASE) as [->|]; [|done].
  pose proof (fits_len _ Hs). by rewrite take_ge, drop_ge by lia.
Qed.

Lemma mask_shift (l : list bool) start end_ :
  length l <= BITS -> start < BITS -> start <= end_ ->
  shr (Z.land (bits l) (wrapping_sub (unbounded_shl 1 end_) 1)) start = bits (take (end_ - start) (drop start l)).
Proof.
  intros Hl Hs He. rewrite unbounded_mask_bits, shr_bits by done. f_equal.
  by rewrite take_drop_commute, Nat.add_comm, Nat.sub_add by done.
Qed.

Lemma slice_boundaries s start end_ :
  fits s -> start <= end_ -> is_char_boundary s start = true -> is_char_boundary s end_ = true ->
  slice (chunk_of s) start end_ = Ret (chunk_of (take (end_ - start) (drop start s))).
Proof.
  intros Hs Hle Hb He. pose proof (fits_len _ Hs). unfold slice.
  destruct (boundary_split _ _ (fits_utf8 _ Hs) He) as (Hm & _ & _).
  destruct (Nat.eqb_spec start MAX_BASE) as [->|]; [by rewrite drop_ge, take_nil by lia|].
  unfold chunk_assert_char_boundary. rewrite !is_char_boundary_spec, Hb, He by done. cbn [mbind res_bind].
  unfold str_slice. cbn [chunk_text chunk_of]. rewrite Hb, He. destruct (Nat.leb_spec start end_); [|lia].
  cbn [andb mbind res_bind]. rewrite chunk_of_take.
  - rewrite boundaries_drop, newlines_drop, tabs_drop, utf16s_drop by eauto with rdg.
    cbn [chunk_of chunk_chars chunk_chars_utf16 chunk_newlines chunk_tabs]. unfold MAX_BASE in *.
    assert (length (tabs s) = length s) by apply length_map.
    by rewrite !mask_shift by (rewrite ?length_boundaries, ?length_newlines, ?length_marks; lia).
  - eauto with rdg.
  - rewrite boundary_drop by (done || lia). by replace (start + (end_ - start)) with end_ by lia.
Qed.

(** Otherwise a slice is rounded inwards to boundaries (and never panics inside a text). *)
Lemma boundary_down_spec s i :
  is_char_boundary s (boundary_down s i) = true /\ boundary_down s i <= i
  /\ (forall j, boundary_down s i < j -> j <= i -> is_char_boundary s j = false).
Proof.
  induction i as [|i (IH1 & IH2 & IH3)]; cbn [boundary_down].
  - rewrite !boundary_zero. split_and!; [done|lia|intros; lia].
  - destruct (is_char_boundary s (S i)) eqn:E; [split_and!; [done|lia|intros; lia]|].
    split_and!; [done|lia|]. intros j Hj Hi. destruct (decide (j = S i)) as [->|]; [done|]. apply IH3; lia.
Qed.

Lemma boundary_up_spec s fuel i :
  length s <= i + fuel -> i <= length s ->
  is_char_boundary s (boundary_up fuel s i) = true /\ i <= boundary_up fuel s i <= length s
  /\ (forall j, i <= j -> j < boundary_up fuel s i -> is_char_boundary s j = false).
Proof.
  revert i. induction fuel as [|fuel IH]; intros i Hf Hi; cbn [boundary_up].
  - assert (i = length s) as -> by lia. split_and!; [apply boundary_length|lia|lia|intros; lia].
  - destruct (is_char_boundary s i) eqn:E; [split_and!; [done|lia|lia|intros; lia]|].
    destruct (decide (i = length s)) as [->|]; [by rewrite boundary_length in E|].
    destruct (IH (S i)) as (H1 & H2 & H3); [lia|lia|]. split_and!; [done|lia|lia|].
    intros j Hj Hi'. destruct (decide (j = i)) as [->|]; [done|]. apply H3; lia.
Qed.

Lemma ceil_spec s i :
  i <= length s ->
  let j := str_ceil_char_boundary s i in
  is_char_boundary s j = true /\ i <= j <= length s /\ (forall k, i <= k -> k < j -> is_char_boundary s k = false).
Proof.
  intros Hi. cbv zeta. unfold str_ceil_char_boundary. destruct (Nat.leb_spec (length s) i).
  - assert (i = length s) as -> by lia. split_and!; [apply boundary_length|lia|lia|intros; lia].
  - apply boundary_up_spec; lia.
Qed.

Lemma floor_spec s i :
  i <= length s ->
  let j := str_floor_char_boundary s i in
  is_char_boundary s j = true /\ j <= i /\ (forall k, j < k -> k <= i -> is_char_boundary s k = false).
Proof.
  intros Hi. cbv zeta. unfold str_floor_char_boundary. destruct (Nat.leb_spec (length s) i).
  - assert (i = length s) as -> by lia. split_and!; [apply boundary_length|lia|intros; lia].
  - apply boundary_down_spec.
Qed.

Lemma ceil_id s i : is_char_boundary s i = true -> i <= length s -> str_ceil_char_boundary s i = i.
Proof.
  intros Hb Hi. destruct (ceil_spec s i Hi) as (_ & H2 & H3).
  destruct (decide (str_ceil_char_boundary s i = i)) as [|]; [done|]. rewrite H3 in Hb by lia. done.
Qed.
Lemma floor_id s i : is_char_boundary s i = true -> i <= length s -> str_floor_char_boundary s i = i.
Proof.
  intros Hb Hi. destruct (floor_spec s i Hi) as (_ & H2 & H3).
  destruct (decide (str_floor_char_boundary s i = i)) as [|]; [done|]. rewrite (H3 i) in Hb by lia. done.
Qed.

(** A range inside a text is rounded inwards to boundaries; if nothing is left, it is
    empty at its start.  The start must not round up to the end of a full chunk. *)
Lemma slice_rounds s start end_ :
  fits s -> start <= end_ <= length s ->
  start = MAX_BASE \/ str_ceil_char_boundary s start <> MAX_BASE ->
  let start' := str_ceil_char_boundary s start in
  let end' := start' `max` str_floor_char_boundary s end_ in
  slice (chunk_of s) start end_ = Ret (chunk_of (take (end' - start') (drop start' s))).
Proof.
  intros Hs Hle Hfull. cbv zeta. pose proof (fits_len _ Hs) as Hlen.
  destruct (ceil_spec s start ltac:(lia)) as (Hs1 & Hs2 & Hs3).
  destruct (floor_spec s end_ ltac:(lia)) as (He1 & He2 & He3).
  set (start' := str_ceil_char_boundary s start) in *. set (e := str_floor_char_boundary s end_) in *.
  destruct (decide (start = MAX_BASE)) as [->|].
  { unfold slice. rewrite Nat.eqb_refl. by rewrite drop_ge, take_nil by lia. }
  assert (is_char_boundary s (start' `max` e) = true) as Hm
    by (destruct (Nat.max_spec start' e) as [[_ ->]|[_ ->]]; done).
  rewrite <-slice_boundaries by (done || lia). unfold slice.
  destruct (Nat.eqb_spec start MAX_BASE); [done|].
  unfold chunk_assert_char_boundary. rewrite !is_char_boundary_spec, Hs1, Hm by done. cbn [chunk_of chunk_text].
  assert ((if is_char_boundary s start then start else str_ceil_char_boundary s start) = start') as E1.
  { destruct (is_char_boundary s start) eqn:E; [|done]. symmetry. apply ceil_id; (done || lia). }
  assert ((if is_char_boundary s end_ then end_ else if end_ <? start' then start' else str_floor_char_boundary s end_)
    = start' `max` e) as E2.
  { destruct (is_char_boundary s end_) eqn:E.
    - assert (e = end_) as -> by (apply floor_id; (done || lia)).
      destruct (decide (end_ < start')); [|lia]. rewrite Hs3 in E by lia. done.
    - fold e. destruct (Nat.ltb_spec end_ start'); [lia|].
      destruct (decide (e < start')); [|lia]. rewrite (He3 start') in Hs1 by lia. done. }
  destruct (Nat.eqb_spec start' MAX_BASE); [destruct Hfull; done|].
  destruct (is_char_boundary s start), (is_char_boundary s end_); cbn [mbind res_bind]; by rewrite ?E1, ?E2.
Qed.

(** In a full chunk it may: the bitmaps are then shifted by their whole width, which
    leaves them as they are (a debug build stops), next to an empty text. *)
Lemma slice_rounding_full :
  let s := replicate 126 65%Z ++ [195; 169]%Z in
  fits s /\ exists c, slice (chunk_of s) 127 128 = Ret c /\ chunk_text c = [] /\ chunk_len_utf16 c = 127.
Proof.
  cbv zeta. split.
  - split; [|vm_compute; lia]. apply utf8_app.
    + generalize 126. intros n. induction n as [|n IH]; cbn [replicate]; [constructor|].
      change (65%Z :: replicate n 65%Z) with ([65%Z] ++ replicate n 65%Z). econstructor; [|done]. split; [done|lia|constructor|done].
    + rewrite <-(app_nil_r [195; 169]%Z). econstructor; [|constructor].
      split; [done|lia|repeat constructor; unfold continuation; lia|done].
  - eexists. split; [vm_compute; reflexivity|]. split; vm_compute; reflexivity.
Qed.

(** ** Counting *)
Ltac lens := rewrite ?length_boundaries, ?length_newlines, ?length_marks; try unfold MAX_BASE in *; lia.

Lemma len_utf16_spec s : utf8 s -> chunk_len_utf16 (chunk_of s) = len_utf16 (summary_of s).
Proof.
  intros Hs. unfold chunk_len_utf16. cbn [chunk_of chunk_chars_utf16].
  by rewrite count_ones_bits, (sum_utf16 _ _ (summary_of_marks _ Hs)).
Qed.

Lemma lines_spec s : fits s -> chunk_lines (chunk_of s) = lines (summary_of s).
Proof.
  intros Hs. pose proof (fits_bits _ Hs). pose proof (summary_of_marks _ (fits_utf8 _ Hs)) as M.
  unfold chunk_lines. cbn [chunk_of chunk_newlines chunk_text]. rewrite count_ones_bits, leading_zeros_bits' by lens.
  pose proof (sum_row _ _ M) as Hr. pose proof (sum_column _ _ M) as Hc. pose proof (after_last_le (newlines s)).
  rewrite length_newlines in *. destruct (lines (summary_of s)) as [r k]. cbn [row column] in *. subst. f_equal. lia.
Qed.

Lemma first_line_chars_spec s : fits s -> chunk_first_line_chars (chunk_of s) = first_line_chars (summary_of s).
Proof.
  intros Hs. pose proof (fits_bits _ Hs). rewrite (sum_first _ _ (summary_of_marks _ (fits_utf8 _ Hs))).
  unfold chunk_first_line_chars, saturating_shl_mask. cbn [chunk_of chunk_newlines chunk_chars].
  rewrite trailing_zeros_bits, unbounded_mask_bits, count_ones_bits by lens.
  destruct (first_one (newlines s)); [done|]. cbn [default]. by rewrite !take_ge by lens.
Qed.

Lemma last_line_chars_spec s : fits s -> chunk_last_line_chars (chunk_of s) = last_line_chars (summary_of s).
Proof.
  intros Hs. pose proof (fits_bits _ Hs). rewrite (sum_last _ _ (summary_of_marks _ (fits_utf8 _ Hs))).
  unfold chunk_last_line_chars, saturating_shr_mask. cbn [chunk_of chunk_newlines chunk_chars].
  pose proof (after_last_le (newlines s)). rewrite length_newlines in *.
  by rewrite leading_zeros_bits', count_high_mask by lens.
Qed.

Lemma last_line_len_utf16_spec s : fits s -> chunk_last_line_len_utf16 (chunk_of s) = last_line_len_utf16 (summary_of s).
Proof.
  intros Hs. pose proof (fits_bits _ Hs). rewrite (sum_last_utf16 _ _ (summary_of_marks _ (fits_utf8 _ Hs))).
  unfold chunk_last_line_len_utf16, saturating_shr_mask. cbn [chunk_of chunk_newlines chunk_chars_utf16].
  pose proof (after_last_le (newlines s)). rewrite length_newlines in *.
  by rewrite leading_zeros_bits', count_high_mask by lens.
Qed.

(** The loop over rows: what is behind it is a text [p] that ends a line. *)
Lemma longest_row_last p s :
  utf8 p -> utf8 s -> last_line_chars (summary_of p) = 0 -> ones (newlines s) = 0 ->
  let m := summary_of p in
  (if longest_row_chars m <? ones (boundaries s)
   then (row (lines m), ones (boundaries s), chars m + ones (boundaries s))
   else (longest_row m, longest_row_chars m, chars m + ones (boundaries s)))
  = (longest_row (summary_of (p ++ s)), longest_row_chars (summary_of (p ++ s)), chars (summary_of (p ++ s))).
Proof.
  intros Hp Hs Hl Hn. cbv zeta. rewrite summary_of_app by done.
  pose proof (longest_add (summary_of p) (summary_of s)) as E. pose proof (summary_of_valid p) as Hv%valid_spec.
  destruct (one_line s Hs Hn) as (E1 & E2 & E3 & E4). rewrite E1, E3, Hl in E.
  unfold longest at 1, pick, shift, longest in E. cbn [fst snd Nat.add] in E. rewrite Nat.add_0_r in E.
  rewrite add_chars, (sum_chars _ _ (summary_of_marks _ Hs)).
  destruct (Nat.ltb_spec (longest_row_chars (summary_of p)) (ones (boundaries s))); cbn [snd] in E.
  - rewrite Nat.ltb_irrefl in E. by injection E as -> ->.
  - destruct (Nat.ltb_spec (longest_row_chars (summary_of p)) (ones (boundaries s))); [lia|]. by injection E as -> ->.
Qed.

Lemma newline_ends p : utf8 p -> last_line_chars (summary_of (p ++ [NEWLINE])) = 0.
Proof.
  intros Hp. rewrite summary_of_app by done. by autorewrite with summary.
Qed.

Lemma newline_keeps_longest p : utf8 p ->
  longest (summary_of (p ++ [NEWLINE])) = longest (summary_of p)
  /\ row (lines (summary_of (p ++ [NEWLINE]))) = row (lines (summary_of p)) + 1
  /\ chars (summary_of (p ++ [NEWLINE])) = chars (summary_of p) + 1.
Proof.
  intros Hp. rewrite summary_of_app by done. autorewrite with summary. rewrite add_row.
  change (summary_of [NEWLINE]) with summary_newline. cbn [summary_newline row lines chars].
  split_and!; [|done..]. pose proof (summary_of_valid p) as Hv%valid_spec.
  revert Hv. generalize (summary_of p). intros m Hv. unfold longest, shift. cbn.
  rewrite !pick_l; cbn [snd]; [done|lia..].
Qed.

Lemma newline_utf8 : utf8 [NEWLINE].
Proof. rewrite <-(app_nil_r [NEWLINE]). econstructor; [|constructor]. split; [done|unfold NEWLINE; lia|constructor|done]. Qed.

Lemma longest_row_loop_spec fuel p s :
  utf8 p -> utf8 s -> length s <= fuel -> length s <= BITS -> last_line_chars (summary_of p) = 0 ->
  let m := summary_of p in
  let m' := summary_of (p ++ s) in
  longest_row_loop fuel (bits (boundaries s)) (bits (newlines s)) (chars m) (row (lines m)) (longest_row m) (longest_row_chars m)
  = (longest_row m', longest_row_chars m', chars m').
Proof.
  revert p s. induction fuel as [|fuel IH]; intros p s Hp Hs Hf HB Hl; cbv zeta; cbn [longest_row_loop];
    rewrite !count_ones_bits.
  - apply longest_row_last; try done. by destruct s; [|cbn in Hf; lia].
  - destruct (decide (ones (newlines s) = 0)) as [Hn|Hn].
    + assert (bits (newlines s) = 0%Z) as -> by (by apply first_one_None, first_one_zero). by apply longest_row_last.
    + destruct (first_one_pos _ Hn) as (i & Ei & Hi). rewrite length_newlines in Hi.
      assert (0 < bits (newlines s))%Z as Hpos.
      { pose proof (bits_nonneg (newlines s)). destruct (decide (bits (newlines s) = 0)%Z) as [E|]; [|lia].
        apply first_one_None in E. congruence. }
      apply Z.ltb_lt in Hpos as ->. rewrite trailing_zeros_bits, Ei. change (default BITS (Some i)) with i.
      pose proof (proj1 (first_one_Some _ _) Ei) as [Ei1 Ei2].
      destruct (newline_split s i Hs Ei1) as (H1 & H2 & H3).
      rewrite mask_bits, count_ones_bits, !shr_bits, !drop_drop by (unfold BITS in *; lia).
      rewrite Nat.add_1_r, <-boundaries_take, <-boundaries_drop, <-newlines_drop.
      pose proof (longest_row_last p (take i s) Hp H1 Hl) as E. cbv zeta in E.
      rewrite newlines_take in E. specialize (E Ei2).
      specialize (IH ((p ++ take i s) ++ [NEWLINE]) (drop (S i) s)).
      assert (utf8 (p ++ take i s)) as Hpi by (by apply utf8_app).
      destruct (newline_keeps_longest _ Hpi) as (N1 & N2 & N3). apply pair_equal_spec in N1 as [N1 N1'].
      cbv zeta in IH. rewrite N1, N1', N2, N3 in IH. rewrite <-!app_assoc in IH. cbn [app] in IH. rewrite <-H3 in IH.
      assert (row (lines (summary_of (p ++ take i s))) = row (lines (summary_of p))) as Er.
      { rewrite summary_of_app by done. autorewrite with summary. rewrite add_row.
        rewrite (sum_row _ _ (summary_of_marks _ H1)), newlines_take, Ei2. lia. }
      rewrite Er in IH.
      destruct (Nat.ltb_spec (longest_row_chars (summary_of p)) (ones (boundaries (take i s))));
        apply pair_equal_spec in E as [[E1 E2]%pair_equal_spec E3]; rewrite <-E1, <-E2, <-E3 in IH;
        apply IH; try done; try (rewrite length_drop; lia);
        (apply utf8_app; [done|apply utf8_app; [done|apply newline_utf8]]) || (rewrite app_assoc; by apply newline_ends).
Qed.

(** A chunk's summary is that of its text. *)
Lemma text_summary_spec s : fits s -> text_summary (chunk_of s) = summary_of s.
Proof.
  intros Hs. pose proof (fits_utf8 _ Hs) as Hu. unfold text_summary, chunk_longest_row.
  pose proof (longest_row_loop_spec BITS [] s utf8_nil Hu (fits_bits _ Hs) (fits_bits _ Hs) eq_refl) as E.
  cbv zeta in E. change (summary_of []) with summary_zero in E.
  cbn [summary_zero chars row lines point_zero longest_row longest_row_chars app] in E.
  cbn [chunk_of chunk_chars chunk_newlines]. rewrite E.
  fold (chunk_of s). rewrite len_utf16_spec, lines_spec, first_line_chars_spec, last_line_chars_spec,
    last_line_len_utf16_spec by done.
  by apply summary_eq.
Qed.
