(* ===== verification/ChunkPositions.v ===== *)
(** * Chunks: converting positions

    Offsets in bytes, offsets in UTF-16 units, points and UTF-16 points of one chunk.
    The position of a boundary is the summary of the text before it; the conversions
    from positions find that boundary again, and what they give for positions that are
    none is stated. *)

From S2P Require Import Prelude.
From S2P Require Import SumTree.
From S2P Require Import Text.
From S2P Require Import TextSpec.
From S2P Require Import Bits.
From S2P Require Import NthSetBit.
From S2P Require Import Utf8.
From S2P Require Import Chunk.
From S2P Require Import ChunkSpec.
Local Open Scope nat_scope.

Implicit Types (s t : str) (i n o : nat).

Definition boundary s o : Prop := is_char_boundary s o = true.

(** ** From offsets *)
Definition point_at s o : Point := lines (summary_of (take o s)).
Definition utf16_at s o : nat := len_utf16 (summary_of (take o s)).
Definition point_utf16_at s o : PointUtf16 := lines_utf16 (summary_of (take o s)).

Lemma length_tabs s : length (tabs s) = length s.
Proof. apply length_map. Qed.
Ltac lens := rewrite ?length_boundaries, ?length_newlines, ?length_marks, ?length_tabs, ?length_take; try unfold MAX_BASE in *; lia.

Lemma point_at_marks s o :
  utf8 s -> boundary s o -> point_at s o = mkPoint (ones (take o (newlines s))) (o - after_last (take o (newlines s))).
Proof.
  intros Hs Hb. destruct (boundary_split _ _ Hs Hb) as (Ho & Ht & _).
  pose proof (summary_of_marks _ Ht) as M. unfold point_at. pose proof (sum_row _ _ M) as Hr.
  pose proof (sum_column _ _ M) as Hc. rewrite newlines_take, length_take_le in * by done.
  destruct (lines (summary_of (take o s))) as [r k]. cbn [row column] in *. by subst.
Qed.

Lemma utf16_at_marks s o : utf8 s -> boundary s o -> utf16_at s o = ones (take o (utf16s s)).
Proof.
  intros Hs Hb. destruct (boundary_split _ _ Hs Hb) as (Ho & Ht & _). unfold utf16_at.
  rewrite (sum_utf16 _ _ (summary_of_marks _ Ht)). by rewrite utf16s_take.
Qed.

Lemma point_utf16_at_marks s o :
  utf8 s -> boundary s o ->
  point_utf16_at s o = mkPointUtf16 (ones (take o (newlines s)))
    (ones (drop (after_last (take o (newlines s))) (take o (utf16s s)))).
Proof.
  intros Hs Hb. destruct (boundary_split _ _ Hs Hb) as (Ho & Ht & _).
  pose proof (summary_of_marks _ Ht) as M. unfold point_utf16_at, lines_utf16.
  rewrite (sum_row _ _ M), (sum_last_utf16 _ _ M). by rewrite newlines_take, utf16s_take.
Qed.

Lemma offset_to_point_marks s o :
  fits s -> o <= length s ->
  offset_to_point (chunk_of s) o = mkPoint (ones (take o (newlines s))) (o - after_last (take o (newlines s))).
Proof.
  intros Hs Ho. pose proof (fits_bits _ Hs). unfold offset_to_point. cbn [chunk_of chunk_newlines].
  rewrite unbounded_mask_bits, count_ones_bits, leading_zeros_bits by lens. done.
Qed.

Lemma offset_to_point_spec s o : fits s -> boundary s o -> offset_to_point (chunk_of s) o = point_at s o.
Proof.
  intros Hs Hb. destruct (boundary_split _ _ (fits_utf8 _ Hs) Hb) as (Ho & _).
  rewrite offset_to_point_marks, point_at_marks by eauto with rdg. done.
Qed.

Lemma offset_to_offset_utf16_marks s o :
  fits s -> offset_to_offset_utf16 (chunk_of s) o = ones (take o (utf16s s)).
Proof.
  intros Hs. pose proof (fits_bits _ Hs). unfold offset_to_offset_utf16. cbn [chunk_of chunk_chars_utf16].
  by rewrite unbounded_mask_bits, count_ones_bits by lens.
Qed.

Lemma offset_to_offset_utf16_spec s o : fits s -> boundary s o -> offset_to_offset_utf16 (chunk_of s) o = utf16_at s o.
Proof. intros Hs Hb. rewrite offset_to_offset_utf16_marks, utf16_at_marks by eauto with rdg. done. Qed.

Lemma offset_to_point_utf16_spec s o : fits s -> boundary s o -> offset_to_point_utf16 (chunk_of s) o = point_utf16_at s o.
Proof.
  intros Hs Hb. pose proof (fits_bits _ Hs). destruct (boundary_split _ _ (fits_utf8 _ Hs) Hb) as (Ho & _).
  rewrite point_utf16_at_marks by eauto with rdg. unfold offset_to_point_utf16, saturating_shl_mask.
  cbn [chunk_of chunk_newlines chunk_chars_utf16]. rewrite !unbounded_mask_bits, count_ones_bits, leading_zeros_bits by lens.
  pose proof (after_last_le (take o (newlines s))) as Hle. rewrite length_take, length_newlines in Hle.
  destruct (Nat.eqb_spec (after_last (take o (newlines s))) MAX_BASE) as [E|E].
  - rewrite drop_ge by lens. done.
  - by rewrite shr_bits, count_ones_bits by lens.
Qed.

Lemma default_Some {A} (x y : A) : default x (Some y) = y.
Proof. done. Qed.
Lemma default_None {A} (x : A) : default x None = x.
Proof. done. Qed.

(** ** Rows *)

(** The bytes of a row: from [start] to the newline that ends it or to the text's end. *)
Record row_range s (r start end_ : nat) : Prop := {
  range_order : start <= end_ <= length s;
  range_start : start = 0 /\ r = 0 \/ start <> 0 /\ newlines s !! (start - 1) = Some true;
  range_rows : ones (take start (newlines s)) = r;
  range_line : ones (take (end_ - start) (drop start (newlines s))) = 0;
  range_end : end_ = length s \/ newlines s !! end_ = Some true;
}.

Lemma offset_range_for_row_spec s r :
  fits s -> r <= row (lines (summary_of s)) ->
  exists start end_, offset_range_for_row (chunk_of s) r = (start, end_) /\ row_range s r start end_.
Proof.
  intros Hs Hr. pose proof (fits_bits _ Hs) as Hl. rewrite (sum_row _ _ (summary_of_marks _ (fits_utf8 _ Hs))) in Hr.
  unfold offset_range_for_row. cbn [chunk_of chunk_newlines chunk_text].
  set (start := if 0 <? r then nth_set_bit (bits (newlines s)) r + 1 else 0).
  assert (start <= length s /\ (start = 0 /\ r = 0 \/ start <> 0 /\ newlines s !! (start - 1) = Some true)
    /\ ones (take start (newlines s)) = r) as (H1 & H2 & H3).
  { unfold start. destruct (Nat.ltb_spec 0 r); [|split_and!; [lia|left; lia|rewrite take_0; cbn; lia]].
    destruct (nth_set_bit_spec (newlines s) r) as [E1 E2]; [lens|lia|].
    pose proof (lookup_lt_Some _ _ _ E1) as Hlt. rewrite length_newlines in Hlt. rewrite Nat.add_sub.
    split_and!; [lia|right; split; [lia|done]|].
    rewrite Nat.add_1_r, (take_S_r _ _ _ E1), ones_app, E2. cbn. lia. }
  clearbody start.
  assert ((if start =? MAX_BASE then 0 else trailing_zeros (shr (bits (newlines s)) start) `min` (length s - start))
    = default (length s - start) (first_one (drop start (newlines s)))) as ->.
  { destruct (Nat.eqb_spec start MAX_BASE).
    - rewrite drop_ge by lens. change (0 = length s - start). lens.
    - rewrite shr_bits, trailing_zeros_bits by lens. destruct (first_one _) as [i|] eqn:E; rewrite ?default_Some, ?default_None.
      + apply first_one_Some in E as [E _]. apply lookup_lt_Some in E. rewrite length_drop, length_newlines in E. lia.
      + lens. }
  eexists _, _. split; [done|].
  assert (default (length s - start) (first_one (drop start (newlines s))) <= length s - start) as Hd.
  { destruct (first_one _) as [i|] eqn:E; rewrite ?default_Some, ?default_None; [|lia].
    apply first_one_Some in E as [E _]. apply lookup_lt_Some in E. rewrite length_drop, length_newlines in E. lia. }
  split; try done; [lia|..].
  - rewrite Nat.add_comm, Nat.add_sub. destruct (first_one _) as [i|] eqn:E; rewrite ?default_Some, ?default_None.
    + by apply first_one_Some in E as [_ E].
    + rewrite take_ge by (rewrite length_drop, length_newlines; lia).
      apply first_one_None in E. by rewrite <-count_ones_bits, E.
  - destruct (first_one _) as [i|] eqn:E; rewrite ?default_Some, ?default_None; [right|left; lia].
    apply first_one_Some in E as [E _]. by rewrite lookup_drop in E.
Qed.

Lemma ones_take_le (l : list bool) i j : i <= j -> ones (take i l) <= ones (take j l).
Proof. intros H. replace j with (i + (j - i)) by lia. rewrite ones_take_add. lia. Qed.
Lemma ones_take_lookup (l : list bool) i : l !! i = Some true -> ones (take (S i) l) = S (ones (take i l)).
Proof. intros H. rewrite (take_S_r _ _ _ H), ones_app. cbn. lia. Qed.

Lemma row_range_contains s r start end_ o :
  row_range s r start end_ -> o <= length s -> ones (take o (newlines s)) = r <-> start <= o <= end_.
Proof.
  intros [H1 H2 H3 H4 H5] Ho. split.
  - intros Hr. split.
    + destruct (decide (o < start)); [|lia]. destruct H2 as [[]|[Hs H2]]; [lia|].
      apply ones_take_lookup in H2. replace (S (start - 1)) with start in H2 by lia.
      pose proof (ones_take_le (newlines s) o (start - 1)). lia.
    + destruct (decide (end_ < o)); [|lia]. destruct H5 as [|H5]; [lia|].
      apply ones_take_lookup in H5. pose proof (ones_take_le (newlines s) (S end_) o).
      pose proof (ones_take_le (newlines s) start end_). lia.
  - intros Hr. pose proof (ones_take_add (newlines s) start (o - start)) as E.
    replace (start + (o - start)) with o in E by lia. rewrite E, H3.
    assert (ones (take (o - start) (drop start (newlines s))) <= 0); [|lia].
    rewrite <-H4. apply ones_take_le. lia.
Qed.

Lemma row_range_unique s r st en start end_ :
  row_range s r st en -> row_range s r start end_ -> st = start /\ en = end_.
Proof.
  intros R' R. pose proof (range_order _ _ _ _ R). pose proof (range_order _ _ _ _ R').
    pose proof (proj2 (row_range_contains _ _ _ _ start R ltac:(lia)) ltac:(lia)) as E1.
    pose proof (proj2 (row_range_contains _ _ _ _ end_ R ltac:(lia)) ltac:(lia)) as E2.
    pose proof (proj2 (row_range_contains _ _ _ _ st R' ltac:(lia)) ltac:(lia)) as E3.
    pose proof (proj2 (row_range_contains _ _ _ _ en R' ltac:(lia)) ltac:(lia)) as E4.
    apply (row_range_contains _ _ _ _ _ R') in E1; [|lia]. apply (row_range_contains _ _ _ _ _ R') in E2; [|lia].
    apply (row_range_contains _ _ _ _ _ R) in E3; [|lia]. apply (row_range_contains _ _ _ _ _ R) in E4; lia.
Qed.

(** Inside a row, the column is counted from its start. *)
Lemma row_range_column s r start end_ o :
  row_range s r start end_ -> start <= o <= end_ -> after_last (take o (newlines s)) = start.
Proof.
  intros R Ho. pose proof R as [H1 H2 H3 H4 H5]. pose proof (after_last_spec (take o (newlines s))) as [A1 A2].
  pose proof (after_last_le (take o (newlines s))) as A3. set (a := after_last (take o (newlines s))) in *.
  rewrite length_take, length_newlines in A3.
  assert (ones (take a (newlines s)) = r) as Ha.
  { assert (ones (take o (newlines s)) = r) as <- by (apply (row_range_contains _ _ _ _ _ R); lia).
    pose proof (ones_take_add (take o (newlines s)) a (o - a)) as E.
    rewrite (take_ge (drop a _)) in E by (rewrite length_drop, length_take; lia).
    rewrite A1, !take_take in E. rewrite Nat.min_l, Nat.min_l in E by lia. replace (a + (o - a)) with o in E by lia. lia. }
  apply (row_range_contains _ _ _ _ _ R) in Ha; [|lia].
  destruct (decide (a = start)) as [|Hn]; [done|]. exfalso.
  specialize (A2 ltac:(lia)). apply lookup_take_Some in A2 as [A2 _].
  apply ones_take_lookup in A2. replace (S (a - 1)) with a in A2 by lia.
  pose proof (proj2 (row_range_contains _ _ _ _ a R ltac:(lia)) ltac:(lia)).
  pose proof (proj2 (row_range_contains _ _ _ _ (a - 1) R ltac:(lia)) ltac:(lia)). lia.
Qed.

Lemma boundary_newline s i : newlines s !! i = Some true -> boundary s i.
Proof.
  intros Hi. unfold newlines in Hi. apply list_lookup_fmap_Some in Hi as (b & Hb & H). symmetry in Hb.
  apply Z.eqb_eq in Hb. subst b. unfold boundary, is_char_boundary. rewrite H. by case_match.
Qed.

Lemma boundary_after_newline s i : utf8 s -> newlines s !! i = Some true -> boundary s (S i).
Proof.
  intros Hs Hi. pose proof (newline_split _ _ Hs Hi) as (_ & H & _).
  apply boundary_iff; [done| |done]. apply lookup_lt_Some in Hi. rewrite length_newlines in Hi. lia.
Qed.

Lemma row_range_boundaries s r start end_ : utf8 s -> row_range s r start end_ -> boundary s start /\ boundary s end_.
Proof.
  intros Hs [H1 H2 H3 H4 H5]. split.
  - destruct H2 as [[-> _]|[Hn H2]]; [done|]. replace start with (S (start - 1)) by lia. by apply boundary_after_newline.
  - destruct H5 as [->|H5]; [apply boundary_length|by apply boundary_newline].
Qed.

Lemma row_of s o : utf8 s -> boundary s o -> row (point_at s o) <= row (lines (summary_of s)).
Proof.
  intros Hs Hb. rewrite point_at_marks, (sum_row _ _ (summary_of_marks _ Hs)) by done. cbn [row].
  rewrite <-(take_ge (newlines s) (length s)) at 2 by lens. apply ones_take_le.
  by destruct (boundary_split _ _ Hs Hb).
Qed.

Lemma point_in_row s r start end_ o :
  utf8 s -> row_range s r start end_ -> boundary s o -> start <= o <= end_ -> point_at s o = mkPoint r (o - start).
Proof.
  intros Hs R Hb Ho. pose proof (range_order _ _ _ _ R). rewrite point_at_marks by done.
  rewrite (proj2 (row_range_contains _ _ _ _ o R ltac:(lia)) Ho). by rewrite (row_range_column _ _ _ _ _ R).
Qed.

(** ** From points *)

(** A column past the end of its row is at the end of the row, a row past the end of the
    text at the end of the text. *)
Lemma point_to_offset_in_row `{DebugAssertions} s r start end_ k :
  fits s -> row_range s r start end_ -> r <= row (lines (summary_of s)) ->
  point_to_offset (chunk_of s) (mkPoint r k) = if end_ - start <? k then debug_panic end_ else Ret (start + k).
Proof.
  intros Hs R Hr. pose proof (range_order _ _ _ _ R). unfold point_to_offset. rewrite lines_spec by done. cbn [row column].
  destruct (Nat.ltb_spec (row (lines (summary_of s))) r); [lia|].
  destruct (offset_range_for_row_spec s r Hs Hr) as (st & en & -> & R').
  assert (st = start /\ en = end_) as [-> ->] by (by eapply row_range_unique).
  done.
Qed.

Lemma point_to_offset_beyond `{DebugAssertions} s p :
  fits s -> row (lines (summary_of s)) < row p -> point_to_offset (chunk_of s) p = debug_panic (length s).
Proof.
  intros Hs Hr. unfold point_to_offset. rewrite lines_spec by done.
  by destruct (Nat.ltb_spec (row (lines (summary_of s))) (row p)); [|lia].
Qed.

(** Every boundary is in a row. *)
Lemma boundary_row s o : fits s -> boundary s o ->
  exists start end_, row_range s (row (point_at s o)) start end_ /\ start <= o <= end_
    /\ point_at s o = mkPoint (row (point_at s o)) (o - start).
Proof.
  intros Hs Hb. pose proof (fits_utf8 _ Hs) as Hu. destruct (boundary_split _ _ Hu Hb) as (Ho & _).
  destruct (offset_range_for_row_spec s _ Hs (row_of s o Hu Hb)) as (st & en & _ & R).
  assert (st <= o <= en) as Hin.
  { apply (row_range_contains _ _ _ _ _ R Ho). by rewrite point_at_marks. }
  exists st, en. split_and!; [done|lia|lia|]. by apply (point_in_row _ _ _ en).
Qed.

Lemma point_to_offset_spec `{DebugAssertions} s o :
  fits s -> boundary s o -> point_to_offset (chunk_of s) (point_at s o) = Ret o.
Proof.
  intros Hs Hb. destruct (boundary_row s o Hs Hb) as (st & en & R & Hin & E). rewrite E.
  rewrite (point_to_offset_in_row _ _ st en) by (done || by apply row_of; eauto with rdg).
  destruct (Nat.ltb_spec (en - st) (o - st)); [lia|]. f_equal. lia.
Qed.

(** ** From UTF-16 offsets *)

(** Where [target] units have gone by: the end of the text or a place that is marked. *)
Record unit_at s target o : Prop := {
  unit_le : o <= length s;
  unit_count : ones (take o (utf16s s)) = target;
  unit_mark : o = length s \/ utf16s s !! o = Some true;
}.

Lemma unit_at_unique s target o1 o2 : unit_at s target o1 -> unit_at s target o2 -> o1 = o2.
Proof.
  assert (forall a b, unit_at s target a -> unit_at s target b -> a < b -> False) as H.
  { intros a b [A1 A2 A3] [B1 B2 B3] Hlt. destruct A3 as [->|A3]; [lia|].
    apply ones_take_lookup in A3. pose proof (ones_take_le (utf16s s) (S a) b). lia. }
  intros H1 H2. destruct (lt_eq_lt_dec o1 o2) as [[?| ->]|?]; [|done|]; exfalso; eauto.
Qed.

Lemma boundary_marked s o : utf8 s -> boundary s o -> o < length s -> utf16s s !! o = Some true.
Proof.
  intros Hs Hb Ho. destruct (boundary_split _ _ Hs Hb) as (_ & Ht & Hd).
  rewrite <-(take_drop o s), utf16s_app by done.
  rewrite lookup_app_r by (rewrite length_marks, length_take; lia).
  rewrite length_marks, length_take_le, Nat.sub_diag by lia.
  inversion Hd as [E|c b rest t Hc Ht' E].
  - apply (f_equal length) in E. rewrite length_drop in E. cbn in E. lia.
  - pose proof (first_is_boundary _ _ _ Hc) as Hf. destruct Hc as [-> _ _ _]. cbn. by rewrite Hf.
Qed.

Lemma boundary_unit s o : utf8 s -> boundary s o -> unit_at s (utf16_at s o) o.
Proof.
  intros Hs Hb. destruct (boundary_split _ _ Hs Hb) as (Ho & _). split; [done|by rewrite utf16_at_marks|].
  destruct (decide (o = length s)); [by left|right]. apply boundary_marked; (done || lia).
Qed.

Lemma offset_utf16_to_offset_unit s target :
  fits s -> target <= len_utf16 (summary_of s) -> unit_at s target (offset_utf16_to_offset (chunk_of s) target).
Proof.
  intros Hs Ht. pose proof (fits_bits _ Hs) as Hl. pose proof (fits_utf8 _ Hs) as Hu.
  rewrite (sum_utf16 _ _ (summary_of_marks _ Hu)) in Ht.
  unfold offset_utf16_to_offset. destruct (Nat.eqb_spec target 0) as [->|].
  { apply (boundary_unit s 0 Hu eq_refl). }
  cbn [chunk_of chunk_chars_utf16 chunk_text].
  destruct (nth_set_bit_spec (utf16s s) target) as [E1 E2]; [lens|lia|].
  set (i := nth_set_bit (bits (utf16s s)) target) in *. clearbody i. rewrite Nat.add_1_r.
  pose proof (lookup_lt_Some _ _ _ E1) as Hi. rewrite length_marks in Hi. pose proof (ones_take_lookup _ _ E1) as E3.
  destruct (Nat.eqb_spec (S i) MAX_BASE) as [Em|Em].
  - assert (S i = length s) by lens. rewrite <-Em. split; [lia|lia|by left].
  - rewrite shr_bits, trailing_zeros_bits by lens. destruct (first_one _) as [k|] eqn:E; rewrite ?default_Some, ?default_None.
    + apply first_one_Some in E as [F1 F2]. pose proof (lookup_lt_Some _ _ _ F1) as Hk.
      rewrite length_drop, length_marks in Hk. rewrite lookup_drop in F1. rewrite Nat.min_l by lia.
      split; [lia| |by right]. rewrite ones_take_add. lia.
    + apply first_one_None in E. rewrite Nat.min_r by lens.
      split; [lia| |left; lia]. rewrite ones_take_add, (take_ge (drop _ _)) by (rewrite length_drop; lens).
      rewrite <-(count_ones_bits (drop _ _)), E. cbn. lia.
Qed.

Lemma utf16_at_le s o : utf8 s -> boundary s o -> utf16_at s o <= len_utf16 (summary_of s).
Proof.
  intros Hs Hb. rewrite utf16_at_marks, (sum_utf16 _ _ (summary_of_marks _ Hs)) by done.
  rewrite <-(take_ge (utf16s s) (length s)) at 2 by lens. apply ones_take_le.
  by destruct (boundary_split _ _ Hs Hb).
Qed.

Lemma offset_utf16_to_offset_spec s o : fits s -> boundary s o -> offset_utf16_to_offset (chunk_of s) (utf16_at s o) = o.
Proof.
  intros Hs Hb. pose proof (fits_utf8 _ Hs). apply (unit_at_unique s (utf16_at s o)); [|by apply boundary_unit].
  apply offset_utf16_to_offset_unit; [done|]. by apply utf16_at_le.
Qed.

Lemma point_to_offset_utf16_spec `{DebugAssertions} s o :
  fits s -> boundary s o -> point_to_offset_utf16 (chunk_of s) (point_at s o) = Ret (utf16_at s o).
Proof.
  intros Hs Hb. unfold point_to_offset_utf16. rewrite lines_spec by done.
  pose proof (row_of s o (fits_utf8 _ Hs) Hb). destruct (Nat.ltb_spec (row (lines (summary_of s))) (row (point_at s o))); [lia|].
  rewrite point_to_offset_spec by done. cbn [mbind res_bind]. by rewrite offset_to_offset_utf16_spec.
Qed.

Lemma point_to_point_utf16_spec `{DebugAssertions} s o :
  fits s -> boundary s o -> point_to_point_utf16 (chunk_of s) (point_at s o) = Ret (point_utf16_at s o).
Proof.
  intros Hs Hb. unfold point_to_point_utf16. rewrite point_to_offset_spec by done. cbn [mbind res_bind].
  by rewrite offset_to_point_utf16_spec.
Qed.

(** ** From UTF-16 points *)
Lemma fits_range s r start end_ :
  fits s -> row_range s r start end_ -> fits (take (end_ - start) (drop start s)).
Proof.
  intros Hs R. destruct (row_range_boundaries _ _ _ _ (fits_utf8 _ Hs) R) as [H1 H2]. pose proof (range_order _ _ _ _ R).
  apply fits_take; [by apply fits_drop|]. rewrite boundary_drop by (done || lia). by replace (start + (end_ - start)) with end_ by lia.
Qed.

Lemma row_slice s r start end_ :
  fits s -> row_range s r start end_ -> slice (chunk_of s) start end_ = Ret (chunk_of (take (end_ - start) (drop start s))).
Proof.
  intros Hs R. destruct (row_range_boundaries _ _ _ _ (fits_utf8 _ Hs) R) as [H1 H2]. pose proof (range_order _ _ _ _ R).
  apply slice_boundaries; (done || lia).
Qed.

Lemma row_line_lines s r start end_ :
  fits s -> row_range s r start end_ ->
  let line := take (end_ - start) (drop start s) in
  length line = end_ - start /\ ones (newlines line) = 0 /\ last_line_len_utf16 (summary_of line) = len_utf16 (summary_of line).
Proof.
  intros Hs R. cbv zeta. pose proof (fits_utf8 _ (fits_range _ _ _ _ Hs R)) as Hu.
  pose proof (summary_of_marks _ Hu) as M. pose proof (range_order _ _ _ _ R). pose proof (range_line _ _ _ _ R) as Hl.
  assert (ones (newlines (take (end_ - start) (drop start s))) = 0) as Hn by (by rewrite newlines_take, newlines_drop).
  rewrite (sum_last_utf16 _ _ M), (sum_utf16 _ _ M), after_last_zero, drop_0 by done.
  split_and!; [|done..]. rewrite length_take, length_drop. lia.
Qed.

(** The units of a row before a place in it are those of the line. *)
Lemma row_units s r start end_ o :
  fits s -> row_range s r start end_ -> boundary s o -> start <= o <= end_ ->
  let line := take (end_ - start) (drop start s) in
  boundary line (o - start) /\ column16 (point_utf16_at s o) = utf16_at line (o - start) /\ row16 (point_utf16_at s o) = r.
Proof.
  intros Hs R Hb Ho. cbv zeta. pose proof (fits_utf8 _ Hs) as Hu. pose proof (range_order _ _ _ _ R).
  destruct (row_range_boundaries _ _ _ _ Hu R) as [H1 H2].
  destruct (boundary_split _ _ Hu H1) as (_ & _ & Hd).
  assert (boundary (drop start s) (end_ - start)) as He.
  { unfold boundary. rewrite boundary_drop by (done || lia). by replace (start + (end_ - start)) with end_ by lia. }
  assert (boundary (take (end_ - start) (drop start s)) (o - start)) as Hbo.
  { unfold boundary. rewrite boundary_take by (done || rewrite ?length_drop; lia). rewrite boundary_drop by (done || lia).
    by replace (start + (o - start)) with o by lia. }
  split; [done|]. pose proof (fits_utf8 _ (fits_range _ _ _ _ Hs R)) as Hul.
  rewrite point_utf16_at_marks, utf16_at_marks by done. cbn [column16 row16].
  rewrite (row_range_column _ _ _ _ _ R Ho). split; [|by apply (row_range_contains _ _ _ _ _ R); lia].
  rewrite utf16s_take, utf16s_drop, take_take, Nat.min_l by (done || lia).
  by rewrite take_drop_commute, Nat.add_comm, Nat.sub_add by lia.
Qed.

Lemma boundary_down_id s o : boundary s o -> boundary_down s o = o.
Proof. intros Hb. unfold boundary in Hb. destruct o; cbn [boundary_down]; by rewrite Hb. Qed.

Lemma boundary_row16 s o : fits s -> boundary s o ->
  exists start end_, offset_range_for_row (chunk_of s) (row16 (point_utf16_at s o)) = (start, end_)
    /\ row_range s (row16 (point_utf16_at s o)) start end_ /\ start <= o <= end_
    /\ row16 (point_utf16_at s o) <= row (lines (summary_of s)).
Proof.
  intros Hs Hb. pose proof (fits_utf8 _ Hs) as Hu.
  assert (row16 (point_utf16_at s o) = row (point_at s o)) as -> by (by rewrite point_utf16_at_marks, point_at_marks).
  pose proof (row_of s o Hu Hb) as Hr.
  destruct (offset_range_for_row_spec s _ Hs Hr) as (st & en & E & R). exists st, en. split_and!; try done.
  all: destruct (boundary_split _ _ Hu Hb) as (Ho & _); pose proof (proj1 (row_range_contains _ _ _ _ o R Ho)) as H.
  all: rewrite point_at_marks in H by done; cbn [row] in H; lia.
Qed.

Lemma point_utf16_to_offset_spec `{DebugAssertions} s o clip :
  fits s -> boundary s o -> point_utf16_to_offset (chunk_of s) (point_utf16_at s o) clip = Ret o.
Proof.
  intros Hs Hb. destruct (boundary_row16 s o Hs Hb) as (st & en & E & R & Ho & Hr). unfold point_utf16_to_offset.
  rewrite lines_spec, E by done. destruct (Nat.ltb_spec (row (lines (summary_of s))) (row16 (point_utf16_at s o))); [lia|].
  rewrite (row_slice _ _ _ _ Hs R). cbn [mbind res_bind]. pose proof (fits_range _ _ _ _ Hs R) as Hf.
  destruct (row_units _ _ _ _ _ Hs R Hb Ho) as (Hbo & -> & _). destruct (row_line_lines _ _ _ _ Hs R) as (Hlen & _ & Hlu).
  pose proof (fits_utf8 _ Hf) as Huf. set (line := take (en - st) (drop st s)) in *.
  rewrite last_line_len_utf16_spec, Hlu by done. pose proof (utf16_at_le _ _ Huf Hbo).
  destruct (Nat.ltb_spec (len_utf16 (summary_of line)) (utf16_at line (o - st))); [lia|].
  destruct (Nat.ltb_spec 0 (utf16_at line (o - st))) as [Hp|Hp].
  - rewrite offset_utf16_to_offset_spec by done. cbv zeta. replace (st + (o - st)) with o by lia. cbn [chunk_of chunk_text].
    by rewrite Hb.
  - f_equal. assert (o - st = 0); [|lia]. apply (unit_at_unique line 0).
    + replace 0 with (utf16_at line (o - st)) by lia. by apply boundary_unit.
    + by apply (boundary_unit line 0).
Qed.

Lemma unclipped_point_utf16_to_point_spec s o :
  fits s -> boundary s o -> unclipped_point_utf16_to_point (chunk_of s) (point_utf16_at s o) = Ret (point_at s o).
Proof.
  intros Hs Hb. pose proof (fits_utf8 _ Hs) as Hu.
  destruct (boundary_row16 s o Hs Hb) as (st & en & E & R & Ho & Hr). unfold unclipped_point_utf16_to_point.
  rewrite lines_spec, E by done. destruct (Nat.ltb_spec (row (lines (summary_of s))) (row16 (point_utf16_at s o))); [lia|].
  rewrite (row_slice _ _ _ _ Hs R). cbn [mbind res_bind]. pose proof (fits_range _ _ _ _ Hs R) as Hf.
  destruct (row_units _ _ _ _ _ Hs R Hb Ho) as (Hbo & -> & Hrow). destruct (row_line_lines _ _ _ _ Hs R) as (Hlen & _ & Hlu).
  pose proof (fits_utf8 _ Hf) as Huf.
  assert (point_at s o = mkPoint (row16 (point_utf16_at s o)) (o - st)) as -> by by apply (point_in_row _ _ _ en).
  set (line := take (en - st) (drop st s)) in *. rewrite len_utf16_spec by done.
  pose proof (boundary_unit line (o - st) Huf Hbo) as U.
  destruct (Nat.eqb_spec (utf16_at line (o - st)) 0) as [E0|E0].
  - rewrite E0 in U. assert (o - st = 0) as ->; [|done]. apply (unit_at_unique line 0); [done|]. by apply (boundary_unit line 0).
  - destruct (Nat.leb_spec (len_utf16 (summary_of line)) (utf16_at line (o - st))).
    + assert (o - st = length line) as ->; [|done]. apply (unit_at_unique line (utf16_at line (o - st))); [done|].
      split; [lia| |by left]. rewrite take_ge by lens. rewrite <-(sum_utf16 _ _ (summary_of_marks _ Huf)).
      pose proof (utf16_at_le _ _ Huf Hbo). lia.
    + by rewrite offset_utf16_to_offset_spec, boundary_down_id.
Qed.

(** ** Clipping *)

(** The boundary a position is clipped to: the last one not behind it, or the first one
    not before it. *)
Definition clipped s (at_ : nat -> nat) (bias : Bias) (target o : nat) : Prop :=
  boundary s o /\
  match bias with
  | Left => at_ o <= target /\ forall o', boundary s o' -> at_ o' <= target -> o' <= o
  | Right => target <= at_ o /\ forall o', boundary s o' -> target <= at_ o' -> o <= o'
  end.

Lemma boundary_len s : boundary s (length s).
Proof. apply boundary_length. Qed.
Lemma boundary_le s o : utf8 s -> boundary s o -> o <= length s.
Proof. intros Hs Hb. by destruct (boundary_split _ _ Hs Hb). Qed.

Lemma utf16_at_mono s o o' : utf8 s -> boundary s o -> boundary s o' -> o < o' -> utf16_at s o < utf16_at s o'.
Proof.
  intros Hs Hb Hb' Hlt. pose proof (boundary_le s o' Hs Hb'). rewrite !utf16_at_marks by done.
  pose proof (ones_take_lookup _ _ (boundary_marked s o Hs Hb ltac:(lia))).
  pose proof (ones_take_le (utf16s s) (S o) o'). lia.
Qed.

(** The boundary at or below the place of a UTF-16 unit. *)
Lemma unit_down s target :
  fits s -> target <= len_utf16 (summary_of s) ->
  let u := offset_utf16_to_offset (chunk_of s) target in
  u <= length s /\ clipped s (utf16_at s) Left target (boundary_down s u)
  /\ (is_char_boundary s u = true <-> utf16_at s (boundary_down s u) = target).
Proof.
  intros Hs Ht u. pose proof (fits_utf8 _ Hs) as Hu. pose proof (offset_utf16_to_offset_unit s target Hs Ht) as [U1 U2 U3]. fold u in U1, U2, U3.
  destruct (boundary_down_spec s u) as (D1 & D2 & D3). clearbody u. split; [done|]. pose proof (boundary_le s) as Hle.
  assert (boundary_down s u = u -> utf16_at s (boundary_down s u) = target) as Hex.
  { intros E. rewrite E in D1 |- *. by rewrite utf16_at_marks. }
  split; [split; [done|split]|].
  - rewrite utf16_at_marks, <-U2 by done. by apply ones_take_le.
  - intros o' Hb' Ho'. destruct (decide (boundary_down s u < o')); [|lia]. exfalso.
    destruct (decide (o' <= u)); [unfold boundary in Hb'; rewrite D3 in Hb' by lia; done|]. rewrite utf16_at_marks in Ho' by done.
    pose proof (Hle o' Hu Hb'). destruct U3 as [->|Hum]; [lia|].
    apply ones_take_lookup in Hum. pose proof (ones_take_le (utf16s s) (S u) o'). lia.
  - split.
    + intros Hb. apply Hex. by apply boundary_down_id.
    + intros E. destruct (decide (boundary_down s u = u)) as [<-|]; [done|]. exfalso. rewrite utf16_at_marks in E by done.
      pose proof (ones_take_lookup _ _ (boundary_marked s _ Hu D1 ltac:(lia))). pose proof (ones_take_le (utf16s s) (S (boundary_down s u)) u). lia.
Qed.

Lemma point_utf16_to_offset_beyond `{DebugAssertions} s p clip :
  fits s -> row (lines (summary_of s)) < row16 p -> point_utf16_to_offset (chunk_of s) p clip = unless_clipped clip (length s).
Proof.
  intros Hs Hr. unfold point_utf16_to_offset. rewrite lines_spec by done.
  by destruct (Nat.ltb_spec (row (lines (summary_of s))) (row16 p)); [|lia].
Qed.
Lemma boundary_in_row s r start end_ i :
  fits s -> row_range s r start end_ -> i <= end_ - start ->
  is_char_boundary (take (end_ - start) (drop start s)) i = is_char_boundary s (start + i).
Proof.
  intros Hs R Hi. pose proof (fits_utf8 _ Hs) as Hu. pose proof (range_order _ _ _ _ R).
  destruct (row_range_boundaries _ _ _ _ Hu R) as [H1 H2]. destruct (boundary_split _ _ Hu H1) as (_ & _ & Hd).
  rewrite boundary_take; [apply boundary_drop; [done|lia]|done|lia|rewrite length_drop; lia|].
  rewrite boundary_drop by (done || lia). by replace (start + (end_ - start)) with end_ by lia.
Qed.
Lemma boundary_down_in_row s r start end_ i :
  fits s -> row_range s r start end_ -> i <= end_ - start ->
  boundary_down s (start + i) = start + boundary_down (take (end_ - start) (drop start s)) i.
Proof.
  intros Hs R Hi. destruct (row_range_boundaries _ _ _ _ (fits_utf8 _ Hs) R) as [Hb _].
  set (line := take _ _). destruct (boundary_down_spec line i) as (D1 & D2 & D3).
  destruct (boundary_down_spec s (start + i)) as (E1 & E2 & E3).
  unfold line in D1. rewrite (boundary_in_row _ _ _ _ _ Hs R) in D1 by (fold line; lia). fold line in D1.
  destruct (decide (boundary_down s (start + i) < start)) as [Hlt|]; [unfold boundary in Hb; rewrite E3 in Hb by lia; done|].
  destruct (Nat.lt_trichotomy (boundary_down s (start + i)) (start + boundary_down line i)) as [Hl|[E|Hl]]; [|done|].
  - rewrite E3 in D1 by lia. done.
  - specialize (D3 (boundary_down s (start + i) - start) ltac:(lia) ltac:(lia)). unfold line in D3.
    rewrite (boundary_in_row _ _ _ _ _ Hs R) in D3 by lia. by replace (start + (boundary_down s (start + i) - start)) with (boundary_down s (start + i)) in D3 by lia; rewrite E1 in D3.
Qed.

(** A UTF-16 point of a row: past the end of the row its end, inside a character the
    boundary below, which both are reported unless the point is to be clipped. *)
Lemma point_utf16_to_offset_in_row `{DebugAssertions} s r start end_ k clip :
  fits s -> row_range s r start end_ -> r <= row (lines (summary_of s)) ->
  let line := take (end_ - start) (drop start s) in
  exists o, clipped line (utf16_at line) Left (k `min` len_utf16 (summary_of line)) o /\ start + o <= end_
    /\ point_utf16_to_offset (chunk_of s) (mkPointUtf16 r k) clip
       = if utf16_at line o =? k then Ret (start + o) else unless_clipped clip (start + o).
Proof.
  intros Hs R Hr line. pose proof (range_order _ _ _ _ R). pose proof (fits_utf8 _ Hs) as Hu. pose proof (fits_range _ _ _ _ Hs R) as Hf.
  destruct (row_range_boundaries _ _ _ _ Hu R) as [H1 H2]. destruct (row_line_lines _ _ _ _ Hs R) as (Hlen & _ & Hlu).
  destruct (offset_range_for_row_spec s r Hs Hr) as (st & en & E & R').
  assert (st = start /\ en = end_) as [-> ->] by (by eapply row_range_unique). clear R'.
  unfold point_utf16_to_offset. rewrite lines_spec by done. cbn [row16 column16].
  destruct (Nat.ltb_spec (row (lines (summary_of s))) r); [lia|].
  rewrite E, (row_slice _ _ _ _ Hs R). cbn [mbind res_bind]. fold line in Hf, Hlu, Hlen |- *.
  pose proof (fits_utf8 _ Hf) as Hul. rewrite last_line_len_utf16_spec, Hlu by done.
  assert (utf16_at line (length line) = len_utf16 (summary_of line)) as Hend by (unfold utf16_at; by rewrite take_ge).
  destruct (Nat.ltb_spec (len_utf16 (summary_of line)) k).
  { exists (length line). rewrite Hend, Nat.min_r by lia. split_and!; [split; [apply boundary_len|]|lia|].
    - split; [lia|]. intros o' Hb' _. by apply boundary_le.
    - destruct (Nat.eqb_spec (len_utf16 (summary_of line)) k); [lia|]. by replace (start + length line) with end_ by lia. }
  rewrite Nat.min_l by lia. destruct (unit_down line k Hf ltac:(lia)) as (Hle & Hc & Hb).
  set (u := offset_utf16_to_offset (chunk_of line) k) in *.
  destruct (Nat.ltb_spec 0 k) as [Hk|Hk].
  - cbv zeta. cbn [chunk_of chunk_text]. exists (boundary_down line u).
    destruct (boundary_down_spec line u) as (_ & Hd & _). split_and!; [done|lia|].
    rewrite (boundary_down_in_row _ _ _ _ _ Hs R), <-(boundary_in_row _ _ _ _ _ Hs R) by lia. fold line.
    destruct (Nat.eqb_spec (utf16_at line (boundary_down line u)) k) as [Ek|Ek].
    + apply Hb in Ek. rewrite Ek. by rewrite (boundary_down_id line u Ek).
    + destruct (is_char_boundary line u); [destruct Ek; by apply Hb|done].
  - assert (k = 0) as -> by lia. exists 0. rewrite Nat.add_0_r. split_and!; [split; [done|split; [done|]]|lia|done].
    intros o' Hb' Ho'. destruct (decide (0 < o')); [|lia]. pose proof (utf16_at_mono line 0 o' Hul eq_refl Hb' ltac:(done)). lia.
Qed.

Lemma clip_offset_utf16_spec s target bias :
  fits s -> target <= len_utf16 (summary_of s) ->
  exists o, clip_offset_utf16 (chunk_of s) target bias = utf16_at s o /\ clipped s (utf16_at s) bias target o.
Proof.
  intros Hs Ht. pose proof (fits_utf8 _ Hs) as Hu. unfold clip_offset_utf16. rewrite len_utf16_spec by done.
  pose proof (boundary_le s) as Hle.
  assert (utf16_at s (length s) = len_utf16 (summary_of s)) as Hend by (unfold utf16_at; by rewrite take_ge).
  destruct (Nat.eqb_spec target 0) as [->|].
  { assert (utf16_at s 0 = 0) as E0 by done. exists 0. split; [done|]. split; [done|]. destruct bias.
    - split; [lia|]. intros o' Hb' H0. destruct (decide (0 < o')); [|lia].
      pose proof (utf16_at_mono s 0 o' Hu eq_refl Hb' ltac:(done)). lia.
    - split; [lia|]. intros; lia. }
  destruct (Nat.leb_spec (len_utf16 (summary_of s)) target).
  { assert (target = len_utf16 (summary_of s)) as -> by lia. exists (length s). split; [done|].
    split; [apply boundary_len|]. destruct bias; (split; [lia|]); intros o' Hb' Ho'; pose proof (Hle o' Hu Hb'); [lia|].
    destruct (decide (o' < length s)); [|lia]. pose proof (utf16_at_mono s o' (length s) Hu Hb' (boundary_len s) ltac:(done)). lia. }
  pose proof (offset_utf16_to_offset_unit s target Hs Ht) as [U1 U2 U3]. destruct (unit_down s target Hs Ht) as (_ & Hdown & _).
  set (u := offset_utf16_to_offset (chunk_of s) target) in *. clearbody u. cbn [chunk_of chunk_text]. cbv zeta.
  assert (u < length s /\ utf16s s !! u = Some true) as [Hul Hum].
  { destruct U3 as [->|U3]; [|split; [|done]; apply lookup_lt_Some in U3; by rewrite length_marks in U3].
    rewrite (sum_utf16 _ _ (summary_of_marks _ Hu)) in *. rewrite take_ge in U2 by lens. lia. }
  destruct bias.
  - exists (boundary_down s u). split; [|done]. by rewrite offset_to_offset_utf16_spec by (done || apply Hdown).
  - destruct (boundary_up_spec s (length s) u) as (D1 & D2 & D3); [lia|lia|]. exists (boundary_up (length s) s u).
    rewrite offset_to_offset_utf16_spec by done. split; [done|]. split; [done|]. split.
    + rewrite utf16_at_marks, <-U2 by done. apply ones_take_le. lia.
    + intros o' Hb' Ho'. destruct (decide (o' < boundary_up (length s) s u)); [|lia]. exfalso.
      destruct (decide (u <= o')); [unfold boundary in Hb'; rewrite D3 in Hb' by lia; done|]. rewrite utf16_at_marks in Ho' by done.
      pose proof (ones_take_lookup _ _ (boundary_marked s o' Hu Hb' ltac:(lia))).
      pose proof (ones_take_le (utf16s s) (S o') u). lia.
Qed.

Section clip.
Context `{Graphemes} `{!GraphemeLaws}.

(** Where [clip_point] may stop in a line. *)
Definition stops s (k : nat) : Prop := boundary s k /\ grapheme_is_boundary s k = Some true.

Lemma stops_dec s k : fits s ->
  (chunk_is_char_boundary (chunk_of s) k && default false (grapheme_is_boundary (chunk_text (chunk_of s)) k)) = true <-> stops s k.
Proof.
  intros Hs. rewrite andb_true_iff, is_char_boundary_spec by done. unfold stops, boundary. cbn [chunk_of chunk_text].
  destruct (grapheme_is_boundary s k) as [[]|]; cbn; naive_solver.
Qed.

Lemma clip_loop_left fuel s k :
  fits s -> k <= fuel -> exists j, clip_point_loop fuel (chunk_of s) Left k = Some j /\ j <= k /\ stops s j
    /\ (forall i, j < i -> i <= k -> ~ stops s i).
Proof.
  intros Hs. revert k. induction fuel as [|fuel IH]; intros k Hk; cbn [clip_point_loop].
  - assert (k = 0) as -> by lia. rewrite (proj2 (stops_dec s 0 Hs)); [|split; [done|apply grapheme_start]].
    exists 0. split_and!; [done|lia|split; [done|apply grapheme_start]|intros; lia].
  - destruct (_ && _) eqn:E.
    + apply stops_dec in E; [|done]. exists k. split_and!; [done|lia|done|intros; lia].
    + assert (~ stops s k) as Hn by (rewrite <-stops_dec, E by done; done).
      destruct (decide (k = 0)) as [->|]; [destruct Hn; split; [done|apply grapheme_start]|].
      destruct (IH (k - 1)) as (j & Ej & Hj & Sj & Nj); [lia|]. exists j. split_and!; [done|lia|done|].
      intros i Hi Hik. destruct (decide (i = k)) as [->|]; [done|apply Nj; lia].
Qed.

Lemma clip_loop_right fuel s k :
  fits s -> k <= length s -> length s - k <= fuel ->
  exists j, clip_point_loop fuel (chunk_of s) Right k = Some j /\ k <= j <= length s /\ stops s j
    /\ (forall i, k <= i -> i < j -> ~ stops s i).
Proof.
  intros Hs. revert k. induction fuel as [|fuel IH]; intros k Hk Hf; cbn [clip_point_loop].
  - assert (k = length s) as -> by lia. rewrite (proj2 (stops_dec s _ Hs)); [|split; [apply boundary_len|apply grapheme_end]].
    exists (length s). split_and!; [done|lia|lia|split; [apply boundary_len|apply grapheme_end]|intros; lia].
  - destruct (_ && _) eqn:E.
    + apply stops_dec in E; [|done]. exists k. split_and!; [done|lia|lia|done|intros; lia].
    + assert (~ stops s k) as Hn by (rewrite <-stops_dec, E by done; done).
      destruct (decide (k = length s)) as [->|]; [destruct Hn; split; [apply boundary_len|apply grapheme_end]|].
      destruct (IH (k + 1)) as (j & Ej & Hj & Sj & Nj); [lia|lia|]. exists j. split_and!; [done|lia|lia|done|].
      intros i Hi Hik. destruct (decide (i = k)) as [->|]; [done|apply Nj; lia].
Qed.

Lemma ascii_boundary s k b : s !! k = Some b -> (b < 128)%Z -> (0 <= b)%Z -> boundary s k.
Proof.
  intros Hk Hb Hn. unfold boundary, is_char_boundary. rewrite Hk. case_match; [done|].
  unfold is_utf8_char_boundary. case_match; apply Z.geb_le; lia.
Qed.

Lemma utf8_bytes s : utf8 s -> Forall (fun b => 0 <= b)%Z s.
Proof.
  induction 1 as [|c b rest t [-> Hb Hr _] Ht IH]; [constructor|]. cbn. constructor; [lia|].
  apply Forall_app. split; [|done]. eapply Forall_impl; [exact Hr|]. unfold continuation. intros; lia.
Qed.

(** A point is clipped to a boundary of its row: to the end of the row or the text when it
    is past it, to itself between ASCII characters, else to the next place in the direction
    of the bias where a character and a grapheme end. *)
Lemma clip_point_in_row s r start end_ k bias :
  fits s -> row_range s r start end_ -> r <= row (lines (summary_of s)) ->
  let line := take (end_ - start) (drop start s) in
  exists j, clip_point (chunk_of s) (mkPoint r k) bias = Ret (Some (mkPoint r j))
    /\ boundary line j /\ j <= length line
    /\ (length line <= k -> j = length line) /\ (k <= length line -> stops line k -> j = k)
    /\ (j <> k -> stops line j)
    /\ match bias with Left => j <= k | Right => k <= j \/ j = length line end.
Proof.
  intros Hs R Hr. cbv zeta. pose proof (fits_utf8 _ Hs) as Hu. pose proof (range_order _ _ _ _ R).
  unfold clip_point. rewrite lines_spec by done. cbn [row column].
  destruct (Nat.ltb_spec (row (lines (summary_of s))) r); [lia|].
  destruct (offset_range_for_row_spec s r Hs Hr) as (st & en & -> & R').
  assert (st = start /\ en = end_) as [-> ->] by (by eapply row_range_unique).
  rewrite (row_slice _ _ _ _ Hs R). cbn [mbind res_bind]. pose proof (fits_range _ _ _ _ Hs R) as Hf.
  destruct (row_line_lines _ _ _ _ Hs R) as (Hlen & _ & _). set (line := take (end_ - start) (drop start s)) in *.
  pose proof (fits_utf8 _ Hf) as Huf. unfold chunk_len. cbn [chunk_of chunk_text].
  destruct (Nat.eqb_spec k 0) as [->|].
  { exists 0. split_and!; try done; [lia|intros; lia|destruct bias; lia]. }
  destruct (Nat.leb_spec (length line) k).
  { exists (length line). split_and!; try done; [apply boundary_len|intros; lia| |destruct bias; lia].
    intros _. split; [apply boundary_len|apply grapheme_end]. }
  destruct (lookup_lt_is_Some_2 line (k - 1)) as [b1 E1]; [lia|]. destruct (lookup_lt_is_Some_2 line k) as [b2 E2]; [lia|].
  unfold index. rewrite E1, E2. cbn [mbind res_bind].
  destruct (Z.ltb_spec b1 128), (Z.ltb_spec b2 128); cbn [andb].
  1: { exists k. split_and!; try done; [|lia|lia|destruct bias; lia]. apply (ascii_boundary _ _ b2); try done.
       pose proof (utf8_bytes _ Huf) as HF. by eapply Forall_lookup_1 in HF. }
  all: destruct bias.
  all: try (destruct (clip_loop_left (length line) line k Hf ltac:(lia)) as (j & -> & Hj & Sj & Nj);
    exists j; split_and!; try done; [by destruct Sj|lia|lia|];
    intros _ Hst; destruct (decide (j = k)); [done|]; exfalso; apply (Nj k); (done || lia)).
  all: destruct (clip_loop_right (length line) line k Hf ltac:(lia) ltac:(lia)) as (j & -> & Hj & Sj & Nj);
    exists j; split_and!; try done; [by destruct Sj|lia|lia| |by left; lia];
    intros _ Hst; destruct (decide (j = k)); [done|]; exfalso; apply (Nj k); (done || lia).
Qed.
End clip.

(** ** Rounding an offset down *)
Lemma floor_loop_spec s i : i < length s -> floor_loop s i = Ret (boundary_down s i).
Proof.
  induction i as [|i IH]; intros Hi; cbn [floor_loop boundary_down]; [by rewrite boundary_zero|].
  unfold index, is_char_boundary. destruct (lookup_lt_is_Some_2 s (S i) Hi) as [b ->]. cbn.
  case_match; [done|]. apply IH. lia.
Qed.

Lemma chunk_floor_char_boundary_spec s i :
  chunk_floor_char_boundary (chunk_of s) i = Ret (str_floor_char_boundary s i).
Proof.
  unfold chunk_floor_char_boundary, str_floor_char_boundary. cbn [chunk_of chunk_text].
  destruct (Nat.leb_spec (length s) i); [done|]. by apply floor_loop_spec.
Qed.

(** ** Tabs *)

(** Everything the iterator yields. *)
Fixpoint tabs_all (fuel : nat) (it : Tabs) : list TabPosition :=
  match fuel with
  | O => []
  | S fuel => match tabs_next it with (Some p, it) => p :: tabs_all fuel it | (None, _) => [] end
  end.
Fixpoint ones_at (i : nat) (l : list bool) : list nat :=
  match l with [] => [] | b :: l => (if b then [i] else []) ++ ones_at (S i) l end.

Lemma clear_bit (l : list bool) k :
  l !! k = Some true -> k < BITS -> Z.lxor (bits l) (shl 1 k) = bits (<[k:=false]> l).
Proof.
  intros Hk HB. rewrite shl_one by done. apply testbit_ext.
  - apply Z.lxor_nonneg. pose proof (bits_nonneg l). lia.
  - intros i. rewrite Z.lxor_spec, !testbit_bits. destruct (decide (i = k)) as [->|Hn].
    + pose proof (lookup_lt_Some _ _ _ Hk). rewrite list_lookup_insert_eq, Hk, Z.pow2_bits_true by lia. done.
    + rewrite list_lookup_insert_ne, Z.pow2_bits_false, xorb_false_r by lia. done.
Qed.

Lemma first_one_cases (l : list bool) i :
  match first_one l with
  | None => ones_at i l = []
  | Some k => l !! k = Some true /\ ones_at i l = i + k :: ones_at i (<[k:=false]> l)
  end.
Proof.
  revert i. induction l as [|[] l IH]; intros i; cbn [first_one ones_at]; [done| |].
  - split; [done|]. cbn. by rewrite Nat.add_0_r.
  - specialize (IH (S i)). destruct (first_one l) as [k|]; cbn; [|done].
    destruct IH as [H1 H2]. split; [done|]. rewrite H2. f_equal. lia.
Qed.

Lemma ones_at_length i (l : list bool) : length (ones_at i l) = ones l.
Proof. revert i. induction l as [|[] l IH]; intros i; cbn; [done| |apply IH]. by rewrite IH. Qed.

(** The tabs of a text in order, each with the characters before it. *)
Lemma tabs_iter_spec s :
  fits s -> tabs_all (S (length s)) (chunk_tabs_iter (chunk_of s))
  = map (fun i => mkTabPosition i (ones (take i (boundaries s)))) (ones_at 0 (tabs s)).
Proof.
  intros Hs. pose proof (fits_bits _ Hs) as Hl. unfold chunk_tabs_iter. cbn [chunk_of chunk_tabs chunk_chars].
  assert (forall fuel l, length l = length s -> ones l < fuel ->
    tabs_all fuel (mkTabs (bits l) (bits (boundaries s)))
    = map (fun i => mkTabPosition i (ones (take i (boundaries s)))) (ones_at 0 l)) as H.
  { induction fuel as [|fuel IH]; intros l Hlen Hf; [lia|]. cbn [tabs_all]. unfold tabs_next. cbn [tabs_tabs tabs_chars].
    pose proof (first_one_cases l 0) as C. destruct (first_one l) as [k|] eqn:E.
    - destruct C as [Ck Ca]. destruct (Z.eqb_spec (bits l) 0) as [E0|_]; [apply first_one_None in E0; congruence|].
      pose proof (lookup_lt_Some _ _ _ Ck). rewrite trailing_zeros_bits, E, default_Some.
      rewrite mask_bits, count_ones_bits, clear_bit by (done || lia). rewrite Ca, Nat.add_0_l. cbn [map]. f_equal.
      apply IH; [by rewrite length_insert|]. apply (f_equal length) in Ca. cbn [length] in Ca.
      rewrite !ones_at_length in Ca. lia.
    - apply first_one_None in E. rewrite E. cbn. by rewrite C. }
  apply H; [apply length_tabs|]. pose proof (ones_le (tabs s)). rewrite length_tabs in *. lia.
Qed.
