(* ===== verification/Rope.v ===== *)
(** * Ropes ([crates/rope/src/rope.rs])

    A rope is a sum tree of chunks.  The summary of a chunk is that of its text; the
    measures of the tree are lengths in bytes and in UTF-16 units, points, UTF-16 points
    and text summaries.  The closure [push] gives [update_last] also writes the variable
    [text]; here it returns that value too. *)

From S2P Require Import Prelude.
From S2P Require Import SumTree.
From S2P Require Import SumCursor.
From S2P Require Import Text.
From S2P Require Import TextSpec.
From S2P Require Import Chunk.
Local Open Scope nat_scope.

(** ** What the tree is built over *)

(** [ChunkSummary]: a text's summary, whose fields agree with each other ([valid]). *)
Record ChunkSummary := mkChunkSummary { summary_text : TextSummary; summary_valid : valid summary_text = true }.

Definition chunk_summary_add (self other : ChunkSummary) : ChunkSummary :=
  mkChunkSummary (summary_add (summary_text self) (summary_text other))
    (add_valid _ _ (summary_valid self) (summary_valid other)).
#[export] Instance chunk_summary_summary : Summary ChunkSummary := {
  zero := mkChunkSummary summary_zero zero_valid;
  add_summary := chunk_summary_add;
}.

Lemma chunk_summary_eq (a b : ChunkSummary) : summary_text a = summary_text b -> a = b.
Proof. destruct a as [a Ha], b as [b Hb]. cbn. intros ->. f_equal. apply (proof_irrel _ _). Qed.
#[export] Instance chunk_summary_laws : SummaryLaws ChunkSummary.
Proof.
  split; intros; apply chunk_summary_eq; cbn; [apply add_zero_left, summary_valid|].
  apply summary_add_assoc, summary_valid.
Qed.

(** [Item::summary].  The other case does not arise: bitmaps that are the marks of a text
    give the summary of that text. *)
#[export] Instance chunk_item : Item Chunk ChunkSummary := fun self =>
  match Bool.bool_dec (valid (text_summary self)) true with
  | left H => mkChunkSummary (text_summary self) H
  | right _ => zero
  end.

Record OffsetUtf16 := mkOffsetUtf16 { units : nat }.

(** [Dimension] of each measure. *)
#[export] Instance len_dimension : Dimension nat ChunkSummary := {
  dim_zero := 0; dim_add d s := d + len (summary_text s);
}.
#[export] Instance utf16_dimension : Dimension OffsetUtf16 ChunkSummary := {
  dim_zero := mkOffsetUtf16 0; dim_add d s := mkOffsetUtf16 (units d + len_utf16 (summary_text s));
}.
#[export] Instance point_dimension : Dimension Point ChunkSummary := {
  dim_zero := point_zero; dim_add d s := point_add d (lines (summary_text s));
}.
#[export] Instance point_utf16_dimension : Dimension PointUtf16 ChunkSummary := {
  dim_zero := point_utf16_zero; dim_add d s := point_utf16_add d (lines_utf16 (summary_text s));
}.
(** [Dimension] for [TextSummary] itself: [summary_text] of the summaries added up. *)
#[export] Instance text_dimension : Dimension TextSummary ChunkSummary := {
  dim_zero := summary_zero; dim_add d s := summary_add d (summary_text s);
}.

#[export] Instance len_target : SeekTarget nat nat := Nat.compare.
#[export] Instance utf16_target : SeekTarget OffsetUtf16 OffsetUtf16 := fun a b => units a ?= units b.
#[export] Instance point_target : SeekTarget Point Point := point_ord.
#[export] Instance point_utf16_target : SeekTarget PointUtf16 PointUtf16 := point_utf16_ord.

(** [TextDimension]. *)
Class TextDimension (D : Type) := {
  from_text_summary : TextSummary -> D;
  from_chunk : ChunkSlice -> D;
  add_assign : D -> D -> D;
}.
#[export] Instance summary_text_dimension : TextDimension TextSummary := {
  from_text_summary s := s; from_chunk := text_summary; add_assign := summary_add;
}.
#[export] Instance len_text_dimension : TextDimension nat := {
  from_text_summary := len; from_chunk := chunk_len; add_assign := Nat.add;
}.
#[export] Instance utf16_text_dimension : TextDimension OffsetUtf16 := {
  from_text_summary s := mkOffsetUtf16 (len_utf16 s);
  from_chunk c := mkOffsetUtf16 (chunk_len_utf16 c);
  add_assign a b := mkOffsetUtf16 (units a + units b);
}.
#[export] Instance point_text_dimension : TextDimension Point := {
  from_text_summary := lines; from_chunk := chunk_lines; add_assign := point_add;
}.
#[export] Instance point_utf16_text_dimension : TextDimension PointUtf16 := {
  from_text_summary := lines_utf16;
  from_chunk c := mkPointUtf16 (row (chunk_lines c)) (chunk_last_line_len_utf16 c);
  add_assign := point_utf16_add;
}.
#[export] Instance dimensions_text_dimension {D1 D2} `{!TextDimension D1} `{!TextDimension D2} :
    TextDimension (Dimensions D1 D2 unit) := {
  from_text_summary s := Dims (from_text_summary s) (from_text_summary s) tt;
  from_chunk c := Dims (from_chunk c) (from_chunk c) tt;
  add_assign a b := Dims (add_assign (dim1 a) (dim1 b)) (add_assign (dim2 a) (dim2 b)) tt;
}.

(** ** Ropes *)
Notation tree := (node Chunk ChunkSummary).
Record Rope := mkRope { rope_chunks : tree }.

Definition rope_new : Rope := mkRope SumTree.new.
Definition rope_summary (self : Rope) : TextSummary := summary_text (node_summary (rope_chunks self)).
Definition rope_len (self : Rope) : nat := extent (rope_chunks self).
Definition rope_is_empty (self : Rope) : bool := rope_len self =? 0.
Definition max_point (self : Rope) : Point := extent (rope_chunks self).
Definition max_point_utf16 (self : Rope) : PointUtf16 := extent (rope_chunks self).

(** *** Boundaries *)
Definition rope_is_char_boundary (self : Rope) (offset : nat) : bool :=
  if SumTree.is_empty (rope_chunks self) then offset =? 0
  else
    let '(start, _, item) := find (D:=nat) offset Left (rope_chunks self) in
    match item with Some chunk => chunk_is_char_boundary chunk (offset - start) | None => false end.

Definition rope_assert_char_boundary `{DebugAssertions} (PANIC : bool) (self : Rope) (offset : nat) : res bool :=
  if SumTree.is_empty (rope_chunks self) && (offset =? 0) then Ret true
  else
    let '(start, _, item) := find (D:=nat) offset Left (rope_chunks self) in
    match item with
    | Some chunk => owned_assert_char_boundary PANIC chunk (offset - start)
    | None => if PANIC then Panic else Ret false
    end.

Definition rope_floor_char_boundary (self : Rope) (index : nat) : nat :=
  if rope_len self <=? index then rope_len self
  else
    let '(start, _, item) := find (D:=nat) index Left (rope_chunks self) in
    match item with
    | Some chunk => start + str_floor_char_boundary (chunk_text chunk) (index - start)
    | None => rope_len self
    end.
Definition rope_ceil_char_boundary (self : Rope) (index : nat) : nat :=
  if rope_len self <? index then rope_len self
  else
    let '(start, _, item) := find (D:=nat) index Left (rope_chunks self) in
    match item with
    | Some chunk => start + str_ceil_char_boundary (chunk_text chunk) (index - start)
    | None => rope_len self
    end.
Definition clip_offset (self : Rope) (offset : nat) (bias : Bias) : nat :=
  match bias with
  | Left => rope_floor_char_boundary self offset
  | Right => rope_ceil_char_boundary self offset
  end.

(** *** Appending *)

(** [update_last] with a closure that may panic and has a result. *)
Definition update_last_with {R} (f : Chunk -> res (Chunk * R)) (r : R) (t : tree) : res (tree * R) :=
  last ← last_item t;
  match last with
  | None => Ret (t, r)
  | Some last_chunk =>
      p ← f last_chunk;
      t ← update_last (fun _ => fst p) t;
      Ret (t, snd p)
  end.

(** [while !is_char_boundary(ix) { ix += 1; }]; a text has a boundary at its end. *)
Fixpoint boundary_from (fuel : nat) (is_boundary : nat -> bool) (ix : nat) : nat :=
  match fuel with
  | O => ix
  | S fuel => if is_boundary ix then ix else boundary_from fuel is_boundary (ix + 1)
  end.

(** How much of a text (or slice) goes into the last chunk. *)
Definition split_ix (last_len text_len : nat) (is_boundary : nat -> bool) : nat :=
  if last_len + text_len <=? MAX_BASE then text_len
  else boundary_from text_len is_boundary ((MIN_BASE - last_len) `min` text_len).

(** The loops that cut a text into chunks; each turn takes a character at least. *)
Fixpoint split_chunks (fuel : nat) (text : str) : res (list str) :=
  match fuel, text with
  | _, [] => Ret []
  | O, _ => Panic
  | S fuel, _ =>
      let ix := boundary_down text (MAX_BASE `min` length text) in
      parts ← str_split_at text ix;
      cons (fst parts) <$> split_chunks fuel (snd parts)
  end.
Fixpoint new_chunks (texts : list str) : res (list Chunk) :=
  match texts with
  | [] => Ret []
  | text :: texts => c ← Chunk.new text; cons c <$> new_chunks texts
  end.

Definition NUM_CHUNKS : nat := 4.
Definition PARALLEL_THRESHOLD : nat := 84 * (2 * TREE_BASE).

(** Collecting chunks of a parallel iterator, of the [rayon] crate. *)
Definition par_chunks_type : Type := forall A B : Type, nat -> (list A -> res B) -> list A -> res (list B).

Section Push.
Context (par_chunks_map : par_chunks_type).

Definition push_large (chunks : tree) (text : str) : res Rope :=
  texts ← split_chunks (length text) text;
  cs ← new_chunks texts;
  if PARALLEL_THRESHOLD <=? length texts then mkRope <$> par_extend par_chunks_map chunks cs
  else mkRope <$> extend chunks cs.

Definition push (self : Rope) (text : str) : res Rope :=
  r ← update_last_with (fun last_chunk =>
        let ix := split_ix (length (chunk_text last_chunk)) (length text) (is_char_boundary text) in
        parts ← str_split_at text ix;
        last_chunk ← Chunk.push_str last_chunk (fst parts);
        Ret (last_chunk, snd parts)) text (rope_chunks self);
  let '(chunks, text) := r in
  if length text =? 0 then Ret (mkRope chunks)
  else if NUM_CHUNKS * MAX_BASE - NUM_CHUNKS * 4 <? length text then push_large chunks text
  else
    texts ← split_chunks (length text) text;
    texts ← (if length texts <=? NUM_CHUNKS then Ret texts else Panic);
    cs ← new_chunks texts;
    mkRope <$> extend chunks cs.

Definition push_chunk (self : Rope) (chunk : ChunkSlice) : res Rope :=
  r ← update_last_with (fun last_chunk =>
        let ix := split_ix (length (chunk_text last_chunk)) (chunk_len chunk) (chunk_is_char_boundary chunk) in
        parts ← Chunk.split_at chunk ix;
        last_chunk ← Chunk.append last_chunk (fst parts);
        Ret (last_chunk, snd parts)) chunk (rope_chunks self);
  let '(chunks, chunk) := r in
  if chunk_is_empty chunk then Ret (mkRope chunks)
  else
    c ← into_chunk chunk;
    mkRope <$> SumTree.push chunks c.

Definition append (self rope : Rope) : res Rope :=
  first ← SumTree.first (rope_chunks rope);
  last ← last_item (rope_chunks self);
  let append_trees := mkRope <$> SumTree.append (rope_chunks self) (rope_chunks rope) in
  match first with
  | Some chunk =>
      if (match last with Some c => length (chunk_text c) <? MIN_BASE | None => false end)
         || (length (chunk_text chunk) <? MIN_BASE) then
        self ← push_chunk self chunk;
        c ← next (cursor_new (D:=unit) (rope_chunks rope));
        c ← next c;
        rest ← suffix c;
        mkRope <$> SumTree.append (rope_chunks self) (fst rest)
      else append_trees
  | None => append_trees
  end.

(** [Rope::from(&str)] and [FromIterator<&str>]. *)
Definition rope_from (text : str) : res Rope := push rope_new text.
Fixpoint rope_collect (rope : Rope) (texts : list str) : res Rope :=
  match texts with [] => Ret rope | text :: texts => rope ← push rope text; rope_collect rope texts end.

Definition push_front (self : Rope) (text : str) : res Rope :=
  if length text =? 0 then Ret self
  else if rope_is_empty self then push self text
  else
    first ← SumTree.first (rope_chunks self);
    match first with
    | Some c =>
        if length (chunk_text c) + length text <=? MAX_BASE then
          c ← prepend_str c text;
          mkRope <$> update_first (fun _ => c) (rope_chunks self)
        else front ← rope_from text; append front self
    | None => front ← rope_from text; append front self
    end.

(** ** Cursors *)
Record Cursor := mkCursor { cursor_rope : Rope; cursor_chunks : cursor Chunk ChunkSummary nat; cursor_offset : nat }.

Definition rope_cursor (self : Rope) (offset : nat) : res Cursor :=
  c ← seek (cursor_new (rope_chunks self)) offset Right;
  Ret (mkCursor self (snd c) offset).

Definition assert (b : bool) : res unit := if b then Ret tt else Panic.

Definition cursor_seek_forward (self : Cursor) (end_offset : nat) : res Cursor :=
  _ ← assert (cursor_offset self <=? end_offset);
  _ ← assert (end_offset <=? rope_len (cursor_rope self));
  c ← seek_forward (cursor_chunks self) end_offset Right;
  Ret (mkCursor (cursor_rope self) (snd c) end_offset).

Definition cursor_slice (self : Cursor) (end_offset : nat) : res (Rope * Cursor) :=
  _ ← assert (cursor_offset self <=? end_offset);
  _ ← assert (end_offset <=? rope_len (cursor_rope self));
  let chunks := cursor_chunks self in
  start_chunk ← item chunks;
  part ← match start_chunk with
         | Some start_chunk =>
             chunks_end ← cursor_end chunks;
             let start_ix := cursor_offset self - start chunks in
             let end_ix := end_offset `min` chunks_end - start chunks in
             s ← Chunk.slice start_chunk start_ix end_ix;
             push_chunk rope_new s
         | None => Ret rope_new
         end;
  chunks_end ← cursor_end chunks;
  if chunks_end <? end_offset then
    chunks ← next chunks;
    middle ← SumCursor.slice chunks end_offset Right;
    part ← append part (mkRope (fst middle));
    let chunks := snd middle in
    end_chunk ← item chunks;
    part ← match end_chunk with
           | Some end_chunk =>
               let end_ix := end_offset - start chunks in
               s ← Chunk.slice end_chunk 0 end_ix;
               push_chunk part s
           | None => Ret part
           end;
    Ret (part, mkCursor (cursor_rope self) chunks end_offset)
  else Ret (part, mkCursor (cursor_rope self) chunks end_offset).

Definition cursor_suffix (self : Cursor) : res Rope :=
  fst <$> cursor_slice self (extent (rope_chunks (cursor_rope self))).

(** [Cursor::summary]. *)
Definition cursor_summary {D} `{!Dimension D ChunkSummary} `{!TextDimension D} (self : Cursor) (end_offset : nat)
    : res (D * Cursor) :=
  _ ← assert (cursor_offset self <=? end_offset);
  _ ← assert (end_offset <=? rope_len (cursor_rope self));
  let chunks := cursor_chunks self in
  start_chunk ← item chunks;
  sum ← match start_chunk with
        | Some start_chunk =>
            chunks_end ← cursor_end chunks;
            let start_ix := cursor_offset self - start chunks in
            let end_ix := end_offset `min` chunks_end - start chunks in
            s ← Chunk.slice start_chunk start_ix end_ix;
            Ret (add_assign dim_zero (from_chunk s))
        | None => Ret dim_zero
        end;
  chunks_end ← cursor_end chunks;
  if chunks_end <? end_offset then
    chunks ← next chunks;
    middle ← summary_to chunks end_offset Right;
    let sum := add_assign sum (fst middle) in
    let chunks := snd middle in
    end_chunk ← item chunks;
    sum ← match end_chunk with
          | Some end_chunk =>
              let end_ix := end_offset - start chunks in
              s ← Chunk.slice end_chunk 0 end_ix;
              Ret (add_assign sum (from_chunk s))
          | None => Ret sum
          end;
    Ret (sum, mkCursor (cursor_rope self) chunks end_offset)
  else Ret (sum, mkCursor (cursor_rope self) chunks end_offset).

(** ** Slices and replacement *)
Definition rope_slice (self : Rope) (start end_ : nat) : res Rope :=
  c ← rope_cursor self 0;
  c ← cursor_seek_forward c start;
  fst <$> cursor_slice c end_.

Definition replace (self : Rope) (start end_ : nat) (text : str) : res Rope :=
  c ← rope_cursor self 0;
  r ← cursor_slice c start;
  new_rope ← append rope_new (fst r);
  c ← cursor_seek_forward (snd r) end_;
  new_rope ← push new_rope text;
  rest ← cursor_suffix c;
  append new_rope rest.
End Push.
