(* ===== verification/RopePositions.v ===== *)
(** * Ropes: converting positions ([crates/rope/src/rope.rs])

    Each conversion finds the chunk a position is in, measuring the chunks before it in
    both units, and asks the chunk about the rest.  [Unclipped] only marks a point, so it
    is the point. *)

From S2P Require Import Prelude.
From S2P Require Import SumTree.
From S2P Require Import SumCursor.
From S2P Require Import Text.
From S2P Require Import Chunk.
From S2P Require Import Rope.
Local Open Scope nat_scope.

Notation pair D1 D2 := (Dimensions D1 D2 unit).

(** [>=] of points. *)
Definition point_ge (a b : Point) : bool := match point_ord a b with Lt => false | _ => true end.
Definition point_utf16_ge (a b : PointUtf16) : bool := match point_utf16_ord a b with Lt => false | _ => true end.

Definition rope_offset_to_offset_utf16 (self : Rope) (offset : nat) : nat :=
  if len (rope_summary self) <=? offset then len_utf16 (rope_summary self)
  else
    let '(start, _, item) := find (D:=pair nat OffsetUtf16) offset Left (rope_chunks self) in
    let overshoot := offset - dim1 start in
    units (dim2 start)
    + match item with Some chunk => offset_to_offset_utf16 chunk overshoot | None => 0 end.

Definition rope_offset_utf16_to_offset (self : Rope) (offset : OffsetUtf16) : nat :=
  if len_utf16 (rope_summary self) <=? units offset then len (rope_summary self)
  else
    let '(start, _, item) := find (D:=pair OffsetUtf16 nat) offset Left (rope_chunks self) in
    let overshoot := units offset - units (dim1 start) in
    dim2 start + match item with Some chunk => offset_utf16_to_offset chunk overshoot | None => 0 end.

Definition rope_offset_to_point (self : Rope) (offset : nat) : Point :=
  if len (rope_summary self) <=? offset then lines (rope_summary self)
  else
    let '(start, _, item) := find (D:=pair nat Point) offset Left (rope_chunks self) in
    let overshoot := offset - dim1 start in
    point_add (dim2 start)
      match item with Some chunk => offset_to_point chunk overshoot | None => point_zero end.

Definition rope_offset_to_point_utf16 (self : Rope) (offset : nat) : PointUtf16 :=
  if len (rope_summary self) <=? offset then lines_utf16 (rope_summary self)
  else
    let '(start, _, item) := find (D:=pair nat PointUtf16) offset Left (rope_chunks self) in
    let overshoot := offset - dim1 start in
    point_utf16_add (dim2 start)
      match item with Some chunk => offset_to_point_utf16 chunk overshoot | None => point_utf16_zero end.

Definition rope_point_to_point_utf16 `{DebugAssertions} (self : Rope) (point : Point) : res PointUtf16 :=
  if point_ge point (lines (rope_summary self)) then Ret (lines_utf16 (rope_summary self))
  else
    let '(start, _, item) := find (D:=pair Point PointUtf16) point Left (rope_chunks self) in
    let overshoot := point_sub point (dim1 start) in
    p ← match item with Some chunk => point_to_point_utf16 chunk overshoot | None => Ret point_utf16_zero end;
    Ret (point_utf16_add (dim2 start) p).

(** With a cursor where the others call [find]. *)
Definition rope_point_utf16_to_point `{DebugAssertions} (self : Rope) (point : PointUtf16) : res Point :=
  if point_utf16_ge point (lines_utf16 (rope_summary self)) then Ret (lines (rope_summary self))
  else
    c ← seek (cursor_new (D:=pair PointUtf16 Point) (rope_chunks self)) point Left;
    let cursor := snd c in
    let overshoot := point_utf16_sub point (dim1 (start cursor)) in
    it ← item cursor;
    p ← match it with
        | Some chunk =>
            o ← point_utf16_to_offset chunk overshoot false;
            Ret (offset_to_point chunk o)
        | None => Ret point_zero
        end;
    Ret (point_add (dim2 (start cursor)) p).

Definition rope_point_to_offset `{DebugAssertions} (self : Rope) (point : Point) : res nat :=
  if point_ge point (lines (rope_summary self)) then Ret (len (rope_summary self))
  else
    let '(start, _, item) := find (D:=pair Point nat) point Left (rope_chunks self) in
    let overshoot := point_sub point (dim1 start) in
    o ← match item with Some chunk => point_to_offset chunk overshoot | None => Ret 0 end;
    Ret (dim2 start + o).

Definition rope_point_to_offset_utf16 `{DebugAssertions} (self : Rope) (point : Point) : res nat :=
  if point_ge point (lines (rope_summary self)) then Ret (len_utf16 (rope_summary self))
  else
    c ← seek (cursor_new (D:=pair Point OffsetUtf16) (rope_chunks self)) point Left;
    let cursor := snd c in
    let overshoot := point_sub point (dim1 (start cursor)) in
    it ← item cursor;
    o ← match it with Some chunk => point_to_offset_utf16 chunk overshoot | None => Ret 0 end;
    Ret (units (dim2 (start cursor)) + o).

Definition point_utf16_to_offset_impl `{DebugAssertions} (self : Rope) (point : PointUtf16) (clip : bool) : res nat :=
  if point_utf16_ge point (lines_utf16 (rope_summary self)) then Ret (len (rope_summary self))
  else
    let '(start, _, item) := find (D:=pair PointUtf16 nat) point Left (rope_chunks self) in
    let overshoot := point_utf16_sub point (dim1 start) in
    o ← match item with Some chunk => point_utf16_to_offset chunk overshoot clip | None => Ret 0 end;
    Ret (dim2 start + o).

Definition point_utf16_to_offset_utf16_impl `{DebugAssertions} (self : Rope) (point : PointUtf16) (clip : bool) : res nat :=
  if point_utf16_ge point (lines_utf16 (rope_summary self)) then Ret (len_utf16 (rope_summary self))
  else
    c ← seek (cursor_new (D:=pair PointUtf16 OffsetUtf16) (rope_chunks self)) point Left;
    let cursor := snd c in
    let overshoot := point_utf16_sub point (dim1 (start cursor)) in
    it ← item cursor;
    o ← match it with
        | Some chunk =>
            o ← point_utf16_to_offset chunk overshoot clip;
            Ret (offset_to_offset_utf16 chunk o)
        | None => Ret 0
        end;
    Ret (units (dim2 (start cursor)) + o).

Definition rope_point_utf16_to_offset `{DebugAssertions} (self : Rope) (point : PointUtf16) : res nat :=
  point_utf16_to_offset_impl self point false.
Definition rope_point_utf16_to_offset_utf16 `{DebugAssertions} (self : Rope) (point : PointUtf16) : res nat :=
  point_utf16_to_offset_utf16_impl self point false.
Definition rope_unclipped_point_utf16_to_offset `{DebugAssertions} (self : Rope) (point : PointUtf16) : res nat :=
  point_utf16_to_offset_impl self point true.

Definition rope_unclipped_point_utf16_to_point (self : Rope) (point : PointUtf16) : res Point :=
  if point_utf16_ge point (lines_utf16 (rope_summary self)) then Ret (lines (rope_summary self))
  else
    let '(start, _, item) := find (D:=pair PointUtf16 Point) point Left (rope_chunks self) in
    let overshoot := point_utf16_sub point (dim1 start) in
    p ← match item with Some chunk => unclipped_point_utf16_to_point chunk overshoot | None => Ret point_zero end;
    Ret (point_add (dim2 start) p).

(** ** Clipping *)
Definition rope_clip_offset_utf16 (self : Rope) (offset : OffsetUtf16) (bias : Bias) : nat :=
  let '(start, _, item) := find (D:=OffsetUtf16) offset Right (rope_chunks self) in
  match item with
  | Some chunk => units start + clip_offset_utf16 chunk (units offset - units start) bias
  | None => len_utf16 (rope_summary self)
  end.

Definition rope_clip_point `{Graphemes} (self : Rope) (point : Point) (bias : Bias) : res (option Point) :=
  let '(start, _, item) := find (D:=Point) point Right (rope_chunks self) in
  match item with
  | Some chunk =>
      p ← clip_point chunk (point_sub point start) bias;
      Ret (option_map (point_add start) p)
  | None => Ret (Some (lines (rope_summary self)))
  end.

Definition rope_clip_point_utf16 (self : Rope) (point : PointUtf16) (bias : Bias) : res PointUtf16 :=
  let '(start, _, item) := find (D:=PointUtf16) point Right (rope_chunks self) in
  match item with
  | Some chunk =>
      p ← clip_point_utf16 chunk (point_utf16_sub point start) bias;
      Ret (point_utf16_add start p)
  | None => Ret (lines_utf16 (rope_summary self))
  end.

(** [line_len], [slice_rows]. *)
Definition line_len `{Graphemes} (self : Rope) (row : nat) : res (option nat) :=
  p ← rope_clip_point self (mkPoint row (2 ^ 32 - 1)) Left;
  Ret (option_map column p).

Definition slice_rows `{DebugAssertions} (self : Rope) (start end_ : nat) : res Rope :=
  start ← rope_point_to_offset self (mkPoint start 0);
  end_ ← rope_point_to_offset self (mkPoint end_ 0);
  rope_slice self start end_.
