(* ===== verification/RopeSpec.v ===== *)
(** * Ropes: what the operations do to the text

    A rope holds a text: its chunks are those of pieces of the text, none empty and
    none but the last short.  Every operation acts on the text as on a string, keeps
    this, and does not panic.  Cursors need trees of fewer than 16 levels, as their
    stacks do. *)

From S2P Require Import Prelude.
From S2P Require Import SumTree.
From S2P Require Import SumCursor.
From S2P Require Import SumTreeInvariant.
From S2P Require Import SumTreeFind.
From S2P Require Import SumCursorSeek.
From S2P Require Import SumCursorSearch.
From S2P Require Import SumIter.
From S2P Require Import Text.
From S2P Require Import TextSpec.
From S2P Require Import Utf8.
From S2P Require Import Chunk.
From S2P Require Import ChunkSpec.
From S2P Require Import ChunkPositions.
From S2P Require Import Rope.
Local Open Scope nat_scope.

#[local] Arguments summary_of : simpl never.

Implicit Types (s t : str) (ts : list str) (r : Rope).

(** ** Chunks and pieces *)
Record piece (t : str) : Prop := { piece_fits : fits t; piece_nonempty : t <> [] }.

(** [check_invariants]: chunks but the last are not underflowing, give or take the
    bytes of a character. *)
Definition long (t : str) : Prop := MIN_BASE <= length t + 3.
Fixpoint filled (ts : list str) : Prop :=
  match ts with
  | [] | [_] => True
  | t :: ts => long t /\ filled ts
  end.

Record rope_of (r : Rope) (ts : list str) : Prop := {
  rope_wf : wf (height (rope_chunks r)) (rope_chunks r);
  rope_list : to_list (rope_chunks r) = map chunk_of ts;
  rope_pieces : Forall piece ts;
  rope_filled : filled ts;
}.

(** A rope that holds a text. *)
Definition holds (r : Rope) (s : str) : Prop := exists ts, rope_of r ts /\ concat ts = s.
Definition shallow (r : Rope) : Prop := height (rope_chunks r) < STACK_CAPACITY.

Lemma filled_cons t ts : filled (t :: ts) <-> (ts <> [] -> long t) /\ filled ts.
Proof. destruct ts; cbn; naive_solver. Qed.

Lemma filled_app ts1 ts2 : ts2 <> [] -> filled (ts1 ++ ts2) <-> Forall long ts1 /\ filled ts2.
Proof.
  intros H2. induction ts1 as [|t ts1 IH]; [split; [intros; split; [constructor|done]|naive_solver]|].
  change ((t :: ts1) ++ ts2) with (t :: (ts1 ++ ts2)). rewrite filled_cons, IH, Forall_cons.
  assert (ts1 ++ ts2 <> []) by (by destruct ts1). naive_solver.
Qed.

Lemma filled_snoc ts t : filled (ts ++ [t]) <-> Forall long ts.
Proof. rewrite filled_app by done. cbn. naive_solver. Qed.

Lemma filled_r ts1 ts2 : filled (ts1 ++ ts2) -> filled ts2.
Proof. destruct ts2; [done|]. by intros [_ ?]%filled_app. Qed.
Lemma filled_l ts1 ts2 : filled (ts1 ++ ts2) -> filled ts1.
Proof.
  destruct ts2 as [|t ts2]; [by rewrite app_nil_r|]. intros [H _]%filled_app; [|done].
  destruct (snoc_cases ts1) as [->|(l & x & ->)]; [done|]. apply Forall_app in H as [H _]. by apply filled_snoc.
Qed.

Lemma pieces_utf8 ts : Forall piece ts -> utf8 (concat ts).
Proof. induction 1 as [|t ts [Ht _] Hts IH]; cbn; [constructor|]. apply utf8_app; [apply Ht|done]. Qed.

Lemma holds_utf8 r s : holds r s -> utf8 s.
Proof. intros (ts & H & <-). apply pieces_utf8, H. Qed.

Lemma chunk_item_spec s : fits s -> summary_text (summary (T:=Chunk) (chunk_of s)) = summary_of s.
Proof.
  intros Hs. unfold summary, chunk_item. pose proof (text_summary_spec s Hs) as E.
  destruct (Bool.bool_dec _ _) as [|Hn]; cbn; [done|]. destruct Hn. rewrite E. apply summary_of_valid.
Qed.

Lemma concat_nil_pieces ts : Forall piece ts -> concat ts = [] -> ts = [].
Proof. destruct 1 as [|t ts [_ Ht] _]; [done|]. cbn. by intros [? _]%app_nil. Qed.

(** ** Measures *)
Class TextMeasure (D : Type) `{!Dimension D ChunkSummary} := {
  measure : str -> D;
  measure_nil : dim_zero = measure [];
  measure_app (s t : str) : utf8 s -> fits t -> dim_add (measure s) (summary (chunk_of t)) = measure (s ++ t);
  measure_laws : DimensionLaws D ChunkSummary;
}.
#[export] Existing Instance measure_laws.

#[export] Program Instance len_measure : TextMeasure nat := { measure := @length Z }.
Next Obligation. done. Qed.
Next Obligation.
  intros s t Hs Ht. cbn. rewrite chunk_item_spec, length_app by done.
  by rewrite (sum_len _ _ (summary_of_marks _ (fits_utf8 _ Ht))).
Qed.
Next Obligation. split; [intros d a b; cbn|done]. rewrite add_len. lia. Qed.

#[export] Program Instance text_measure : TextMeasure TextSummary := { measure := summary_of }.
Next Obligation. done. Qed.
Next Obligation. intros s t Hs Ht. cbn. by rewrite chunk_item_spec, summary_of_app. Qed.
Next Obligation.
  split; [intros d a b; cbn|done]. symmetry. apply summary_add_assoc, summary_valid.
Qed.

#[export] Program Instance utf16_measure : TextMeasure OffsetUtf16 := {
  measure s := mkOffsetUtf16 (len_utf16 (summary_of s));
}.
Next Obligation. done. Qed.
Next Obligation. intros s t Hs Ht. cbn. rewrite chunk_item_spec, summary_of_app by done. by rewrite add_len_utf16. Qed.
Next Obligation. split; [intros d a b; cbn|done]. rewrite add_len_utf16. f_equal. lia. Qed.

#[export] Program Instance point_measure : TextMeasure Point := { measure s := lines (summary_of s) }.
Next Obligation. done. Qed.
Next Obligation. intros s t Hs Ht. cbn. rewrite chunk_item_spec, summary_of_app by done. by rewrite add_lines. Qed.
Next Obligation. split; [intros d a b; cbn|done]. by rewrite add_lines, point_add_assoc. Qed.

Lemma add_lines_utf16 (a b : TextSummary) : lines_utf16 (summary_add a b) = point_utf16_add (lines_utf16 a) (lines_utf16 b).
Proof.
  unfold lines_utf16, point_utf16_add. rewrite add_lines, add_row, add_last_utf16. cbn.
  destruct (Nat.eqb_spec (row (lines b)) 0) as [->|]; f_equal; lia.
Qed.
Lemma point_utf16_add_assoc (p q r : PointUtf16) :
  point_utf16_add (point_utf16_add p q) r = point_utf16_add p (point_utf16_add q r).
Proof.
  destruct p as [p1 p2], q as [q1 q2], r as [r1 r2]. unfold point_utf16_add. cbn [row16 column16].
  repeat (case_match; cbn [row16 column16] in *); rewrite ?Nat.eqb_eq, ?Nat.eqb_neq in *; f_equal; lia.
Qed.

#[export] Program Instance point_utf16_measure : TextMeasure PointUtf16 := { measure s := lines_utf16 (summary_of s) }.
Next Obligation. done. Qed.
Next Obligation. intros s t Hs Ht. cbn. rewrite chunk_item_spec, summary_of_app by done. by rewrite add_lines_utf16. Qed.
Next Obligation. split; [intros d a b; cbn|done]. by rewrite add_lines_utf16, point_utf16_add_assoc. Qed.

#[export] Program Instance unit_measure : TextMeasure unit := { measure _ := tt }.
Solve All Obligations with done.

#[export] Program Instance pair_measure {D1 D2} `{TextMeasure D1} `{TextMeasure D2} :
    TextMeasure (Dimensions D1 D2 unit) := { measure s := Dims (measure s) (measure s) tt }.
Next Obligation. intros. cbn. by rewrite !measure_nil. Qed.
Next Obligation. intros D1 D2 ???? s t Hs Ht. cbn. by rewrite !measure_app. Qed.

(** The position after some pieces. *)
Lemma advance_measure {D} `{TextMeasure D} s ts :
  utf8 s -> Forall piece ts -> advance (measure s) (map chunk_of ts) = measure (s ++ concat ts).
Proof.
  intros Hs Hts. revert s Hs. induction Hts as [|t ts [Ht _] Hts IH]; intros s Hs; cbn.
  - by rewrite app_nil_r.
  - fold (advance (D:=D) (T:=Chunk)). rewrite measure_app by done. unfold advance in IH.
    rewrite IH by (apply utf8_app; [done|apply Ht]). by rewrite app_assoc.
Qed.

Lemma advance_pieces {D} `{TextMeasure D} ts :
  Forall piece ts -> advance dim_zero (map chunk_of ts) = measure (concat ts).
Proof. intros Hts. rewrite measure_nil, advance_measure; [done|constructor|done]. Qed.

(** ** Cutting texts *)

(** A character has at most four bytes: a boundary is never far. *)
Lemma boundary_near s i :
  utf8 s -> i <= length s -> exists j k, boundary s j /\ boundary s k /\ j <= i <= k /\ k <= length s /\ k <= j + 4 /\ (j = k -> i = j)
    /\ (i < k -> j < k) .
Proof.
  intros Hs. revert i. induction Hs as [|c b rest t Hc Ht IH]; intros i Hi.
  - cbn in Hi. exists 0, 0. split_and!; (done || lia).
  - assert (length c <= 4) as H4.
    { destruct Hc as [_ _ _ ->]. unfold char_len. repeat case_match; lia. }
    rewrite length_app in *.
    assert (forall j, boundary t j -> j <= length t -> boundary (c ++ t) (length c + j)) as Hshift.
    { intros j Hj Hl. assert (boundary (c ++ t) (length c)) as Hbc by by apply boundary_between.
      unfold boundary in *. rewrite <-boundary_drop; [by rewrite drop_app_length|done|rewrite length_app; lia]. }
    destruct (decide (i < length c)).
    + exists 0, (length c). split_and!; try done; try lia. by apply boundary_between.
    + destruct (IH (i - length c)) as (j & k & Hj & Hk & H1 & H2 & H3 & H5 & H6); [lia|].
      exists (length c + j), (length c + k). split_and!; try lia; apply Hshift; (done || lia).
Qed.

Lemma boundary_down_near s i : utf8 s -> i <= length s -> i <= boundary_down s i + 3.
Proof.
  intros Hs Hi. destruct (boundary_near s i Hs Hi) as (j & k & Hj & Hk & H1 & H2 & H3 & H5 & H6).
  destruct (boundary_down_spec s i) as (D1 & D2 & D3).
  destruct (decide (boundary_down s i < j)); [unfold boundary in Hj; rewrite D3 in Hj by lia; done|].
  destruct (decide (i = k)) as [->|]; [|lia].
  destruct (decide (boundary_down s k < k)); [|lia]. unfold boundary in Hk. rewrite D3 in Hk by lia. done.
Qed.

Lemma boundary_from_spec s fuel i :
  utf8 s -> i <= length s -> length s <= i + fuel ->
  boundary s (boundary_from fuel (is_char_boundary s) i) /\ i <= boundary_from fuel (is_char_boundary s) i <= length s
  /\ boundary_from fuel (is_char_boundary s) i <= i + 3.
Proof.
  intros Hs Hi Hf.
  assert (forall f j, boundary_from f (is_char_boundary s) j = boundary_up f s j) as E.
  { induction f as [|f IH]; intros j; cbn; [done|]. by rewrite Nat.add_1_r, IH. }
  rewrite E. destruct (boundary_up_spec s fuel i Hf Hi) as (U1 & U2 & U3). split_and!; try done; try lia.
  destruct (boundary_near s i Hs Hi) as (j & k & Hj & Hk & H1 & H2 & H3 & H5 & H6).
  destruct (decide (k < boundary_up fuel s i)); [unfold boundary in Hk; rewrite U3 in Hk by lia; done|].
  destruct (decide (i = j)) as [->|]; [|lia].
  destruct (decide (j < boundary_up fuel s j)); [|lia]. unfold boundary in Hj. rewrite U3 in Hj by lia. done.
Qed.

(** Where [push] cuts: the last chunk is filled at least half when anything remains, and
    is never overfull. *)
Lemma split_ix_spec (a s : str) :
  length a <= MAX_BASE -> utf8 s ->
  let ix := split_ix (length a) (length s) (is_char_boundary s) in
  boundary s ix /\ ix <= length s /\ length a + ix <= MAX_BASE
  /\ (ix < length s -> MIN_BASE <= length a + ix /\ (long s -> long (drop ix s))).
Proof.
  intros Ha Hs. cbv zeta. unfold split_ix. destruct (Nat.leb_spec (length a + length s) MAX_BASE).
  - split_and!; [apply boundary_len|lia..].
  - unfold long. rewrite length_drop. assert (MIN_BASE = 64 /\ MAX_BASE = 128) as [E1 E2] by done. rewrite E1, E2 in *.
    destruct (boundary_from_spec s (length s) ((64 - length a) `min` length s) Hs) as (B1 & B2 & B3); [lia|lia|].
    destruct (decide (length a < 64)).
    + split_and!; [done|lia..].
    + replace ((64 - length a) `min` length s) with 0 in * by lia.
      assert (boundary_from (length s) (is_char_boundary s) 0 = 0) as -> by (destruct (length s); [done|]; cbn; done).
      split_and!; [done|lia..].
Qed.

Lemma split_chunks_spec fuel s :
  utf8 s -> length s <= fuel ->
  exists ts, split_chunks fuel s = Ret ts /\ concat ts = s /\ Forall piece ts /\ filled ts
    /\ (forall n, length s <= 125 * n + 3 -> length ts <= n \/ n = 0 /\ length ts <= 1).
Proof.
  revert s. induction fuel as [|fuel IH]; intros s Hs Hf.
  - destruct s; [|cbn in Hf; lia]. exists []. split_and!; try done. intros; left; cbn; lia.
  - destruct s as [|b s']; [exists []; split_and!; try done; intros; left; cbn; lia|].
    set (s := b :: s') in *. assert (0 < length s) as Hpos by (cbn; lia).
    change (split_chunks (S fuel) s) with (
      let ix := boundary_down s (MAX_BASE `min` length s) in
      parts ← str_split_at s ix; cons (fst parts) <$> split_chunks fuel (snd parts)). cbv zeta.
    assert (MIN_BASE = 64 /\ MAX_BASE = 128) as [E1 E2] by done.
    destruct (boundary_down_spec s (MAX_BASE `min` length s)) as (D1 & D2 & _).
    pose proof (boundary_down_near s (MAX_BASE `min` length s) Hs ltac:(lia)) as D3.
    assert (length s <= MAX_BASE -> boundary_down s (MAX_BASE `min` length s) = length s) as D4.
    { intros Hle. rewrite Nat.min_r by done. apply boundary_down_id, boundary_len. }
    set (ix := boundary_down s (MAX_BASE `min` length s)) in *. clearbody ix.
    assert (0 < ix) by (destruct (decide (length s <= MAX_BASE)); lia).
    destruct (boundary_split s ix Hs D1) as (Hix & Ht & Hd).
    unfold str_split_at. rewrite D1. cbn [mbind res_bind fst snd].
    destruct (IH (drop ix s) Hd) as (ts & -> & Hc & Hp & Hfill & Hn); [rewrite length_drop; lia|].
    exists (take ix s :: ts). split_and!.
    + done.
    + cbn. rewrite Hc. apply take_drop.
    + constructor; [|done]. split; [split; [done|rewrite length_take; lia]|].
      intros E. apply (f_equal length) in E. rewrite length_take in E. cbn in E. lia.
    + apply filled_cons. split; [|done]. intros Hne. unfold long. rewrite length_take_le by done.
      destruct (decide (length s <= MAX_BASE)) as [Hle|]; [|lia]. rewrite D4, drop_ge in Hc by lia.
      by apply concat_nil_pieces in Hc.
    + intros n Hl. cbn [length]. destruct n as [|n]; [right; split; [done|]|left].
      * assert (ts = []) as ->; [|done]. apply concat_nil_pieces; [done|]. rewrite Hc, drop_ge by lia. done.
      * destruct (decide (length s <= MAX_BASE)).
        -- assert (ts = []) as ->; [|cbn; lia]. apply concat_nil_pieces; [done|]. by rewrite Hc, drop_ge by lia.
        -- destruct (Hn n) as [|[-> ?]]; [rewrite length_drop; lia|lia|].
           assert (length s <= 128) by lia. lia.
Qed.

Lemma new_chunks_spec ts : Forall piece ts -> new_chunks ts = Ret (map chunk_of ts).
Proof.
  induction 1 as [|t ts [Ht _] Hts IH]; [done|]. cbn [new_chunks]. rewrite new_fits by done.
  cbn [mbind res_bind]. by rewrite IH.
Qed.

(** ** Pushing *)
Lemma last_map_chunk ts : last (map chunk_of ts) = chunk_of <$> last ts.
Proof. change (map chunk_of ts) with (chunk_of <$> ts). apply fmap_last. Qed.
Lemma head_map_chunk ts : head (map chunk_of ts) = chunk_of <$> head ts.
Proof. by destruct ts. Qed.

Lemma rope_of_intro h (t : tree) ts :
  wf h t -> to_list t = map chunk_of ts -> Forall piece ts -> filled ts -> rope_of (mkRope t) ts.
Proof. intros Hw Hl Hp Hf. split; cbn; try done. by rewrite (wf_height h). Qed.

Lemma rope_new_of : rope_of rope_new [].
Proof. apply (rope_of_intro 0); [apply new_ok|done|constructor|done]. Qed.

Lemma update_last_with_nil {R} (f : Chunk -> res (Chunk * R)) x h (t : tree) :
  wf h t -> to_list t = [] -> update_last_with f x t = Ret (t, x).
Proof. intros Hw Hl. unfold update_last_with. by rewrite (last_item_ok h) , Hl by done. Qed.

Lemma update_last_with_snoc {R} (f : Chunk -> res (Chunk * R)) x y h (t : tree) l c c' :
  wf h t -> to_list t = l ++ [c] -> f c = Ret (c', y) ->
  exists t' : tree, update_last_with f x t = Ret (t', y) /\ wf h t' /\ to_list t' = l ++ [c'].
Proof.
  intros Hw Hl Hf. unfold update_last_with. rewrite (last_item_ok h), Hl, last_snoc by done.
  cbn [mbind res_bind]. rewrite Hf. cbn [mbind res_bind fst snd].
  destruct (update_last_ok h t (fun _ => c') Hw) as (t' & E & Hw' & Hl'). rewrite E. cbn [mbind res_bind].
  exists t'. split_and!; [done..|]. rewrite Hl', Hl, length_app, Nat.add_sub.
  rewrite alter_app_r_alt by done. by rewrite Nat.sub_diag.
Qed.

(** The end of both kinds of pushing: what remains is put behind. *)
Record pushed r ts s (chunks : tree) (rest : str) : Prop := {
  pushed_wf : exists h ts', wf h chunks /\ to_list chunks = map chunk_of ts' /\ Forall piece ts'
    /\ (rest = [] -> filled ts') /\ (rest <> [] \/ long s -> Forall long ts') /\ concat ts' ++ rest = concat ts ++ s;
  pushed_utf8 : utf8 rest;
  pushed_len : length rest <= length s;
  pushed_long : long s -> rest <> [] -> long rest;
}.

(** The closure: the start of [s] goes into the last chunk. *)
Lemma pushed_into {R} (emb : str -> R) r ts s (f : Chunk -> res (Chunk * R)) :
  rope_of r ts -> utf8 s ->
  (forall a, piece a -> let ix := split_ix (length a) (length s) (is_char_boundary s) in
    f (chunk_of a) = Ret (chunk_of (a ++ take ix s), emb (drop ix s))) ->
  exists chunks rest, update_last_with f (emb s) (rope_chunks r) = Ret (chunks, emb rest) /\ pushed r ts s chunks rest.
Proof.
  intros [Hw Hl Hp Hf] Hs Hclosure. destruct (snoc_cases ts) as [->|(l & a & ->)].
  - exists (rope_chunks r), s. rewrite (update_last_with_nil f (emb s) (height (rope_chunks r))) by done. split; [done|].
    split; try done. exists (height (rope_chunks r)), []. by split_and!.
  - apply Forall_app in Hp as [Hp [Ha _]%Forall_cons_1].
    pose proof (split_ix_spec a s (fits_len _ (piece_fits _ Ha)) Hs) as H. cbv zeta in H.
    specialize (Hclosure a Ha). cbv zeta in Hclosure.
    set (ix := split_ix (length a) (length s) (is_char_boundary s)) in *. clearbody ix.
    destruct H as (B1 & B2 & B3 & B4). destruct (boundary_split s ix Hs B1) as (_ & Ht & Hd).
    rewrite map_app in Hl. cbn [map] in Hl.
    destruct (update_last_with_snoc f (emb s) (emb (drop ix s)) _ _ _ (chunk_of a) _ Hw Hl Hclosure) as (t' & -> & Hw' & Hl').
    exists t', (drop ix s). split; [done|]. apply filled_snoc in Hf.
    assert (length (a ++ take ix s) = length a + ix) as Elen by (rewrite length_app, length_take_le; done).
    split; [|done| |].
    + exists (height (rope_chunks r)), (l ++ [a ++ take ix s]). split_and!; try done.
      * by rewrite map_app.
      * apply Forall_app; split; [done|]. constructor; [|constructor]. split.
        -- split; [apply utf8_app; [apply Ha|done]|lia].
        -- intros [E _]%app_nil. by destruct Ha.
      * intros _. by apply filled_snoc.
      * intros Hne. apply Forall_app; split; [done|]. constructor; [|constructor]. unfold long. rewrite Elen.
        destruct (decide (ix < length s)) as [Hlt|]; [apply B4 in Hlt; lia|]. destruct Hne as [Hne|Hne].
        -- by rewrite drop_ge in Hne by lia.
        -- unfold long in Hne. lia.
      * rewrite !concat_app. cbn [concat]. rewrite !app_nil_r, <-!app_assoc. do 2 f_equal. apply take_drop.
    + rewrite length_drop. lia.
    + intros Hlong Hne. destruct (decide (ix < length s)); [by apply B4|]. by rewrite drop_ge in Hne by lia.
Qed.

Theorem push_chunk_spec r ts s :
  rope_of r ts -> fits s ->
  exists r' ts', push_chunk r (chunk_of s) = Ret r' /\ rope_of r' ts' /\ concat ts' = concat ts ++ s
    /\ (long s -> Forall long ts').
Proof.
  intros Hr Hs. unfold push_chunk.
  match goal with |- context [update_last_with ?f _ _] =>
    destruct (pushed_into chunk_of r ts s f Hr (fits_utf8 _ Hs)) as (chunks & rest & E & P) end.
  { intros a Ha. cbv zeta. unfold chunk_len. cbn [chunk_of chunk_text].
    assert (forall n ix, boundary_from n (chunk_is_char_boundary (chunk_of s)) ix = boundary_from n (is_char_boundary s) ix) as Eb.
    { induction n as [|n IH]; intros ix; cbn [boundary_from]; [done|]. by rewrite is_char_boundary_spec, IH. }
    assert (split_ix (length a) (length s) (chunk_is_char_boundary (chunk_of s)) = split_ix (length a) (length s) (is_char_boundary s)) as E
      by (unfold split_ix; by rewrite Eb).
    fold (chunk_of s). rewrite E.
    pose proof (split_ix_spec a s (fits_len _ (piece_fits _ Ha)) (fits_utf8 _ Hs)) as (B1 & B2 & B3 & _).
    set (ix := split_ix (length a) (length s) (is_char_boundary s)) in *. clearbody ix.
    rewrite split_at_boundary by done. cbn [mbind res_bind fst snd]. fold (chunk_of a).
    rewrite append_spec, length_take_le by (apply Ha || done). destruct (Nat.leb_spec (length a + ix) MAX_BASE); [|lia].
    by rewrite orb_true_r. }
  fold (chunk_of s) in E. rewrite E. cbn [mbind res_bind].
  destruct P as [(h & ts' & Hw & Hl & Hp & Hf1 & Hf2 & Hc) Hu Hlen Hlong].
  unfold chunk_is_empty. cbn [chunk_of chunk_text]. destruct (Nat.eqb_spec (length rest) 0) as [E0|E0].
  { destruct rest; [|done]. exists (mkRope chunks), ts'. split; [done|]. rewrite app_nil_r in Hc. split_and!; [|done|auto].
    by apply (rope_of_intro h); auto. }
  assert (rest <> []) as Hne by by destruct rest. pose proof (fits_len _ Hs).
  assert (piece rest) as Hpr by (split; [split; [done|lia]|done]).
  unfold into_chunk, chunk_len. change (chunk_text (chunk_of rest)) with rest. destruct (Nat.leb_spec (length rest) MAX_BASE); [|lia]. cbn [mbind res_bind].
  destruct (push_ok h chunks (chunk_of rest) Hw) as (t & h' & -> & Hw' & Hl').
  exists (mkRope t), (ts' ++ [rest]). split; [done|]. split_and!.
  - apply (rope_of_intro h'); [done| | |].
    + by rewrite Hl', Hl, map_app.
    + apply Forall_app; split; [done|by constructor].
    + apply filled_snoc. auto.
  - rewrite concat_app. cbn [concat]. by rewrite app_nil_r.
  - intros Hs'. apply Forall_app; split; [auto|]. constructor; [auto|constructor].
Qed.

(** A rope of some of the pieces. *)
Lemma rope_of_snoc_r ts1 ts2 r : rope_of r (ts1 ++ ts2) -> Forall piece ts1 /\ Forall piece ts2 /\ filled ts1 /\ filled ts2.
Proof. intros [_ _ Hp Hf]. apply Forall_app in Hp as [? ?]. split_and!; [done..|by eapply filled_l|by eapply filled_r]. Qed.

Lemma append_trees_of r1 r2 ts1 ts2 :
  rope_of r1 ts1 -> rope_of r2 ts2 -> filled (ts1 ++ ts2) ->
  exists r, mkRope <$> SumTree.append (rope_chunks r1) (rope_chunks r2) = Ret r /\ rope_of r (ts1 ++ ts2).
Proof.
  intros [Hw1 Hl1 Hp1 Hf1] [Hw2 Hl2 Hp2 Hf2] Hf.
  destruct (append_ok _ _ _ _ Hw1 Hw2) as (t & h & -> & Hw & Hl & _). exists (mkRope t). split; [done|].
  apply (rope_of_intro h); [done| |by apply Forall_app|done]. by rewrite Hl, Hl1, Hl2, map_app.
Qed.

(** Appending needs a cursor over what is appended when its first chunk is merged. *)
Theorem append_rope_spec r1 r2 ts1 ts2 :
  rope_of r1 ts1 -> rope_of r2 ts2 -> shallow r2 ->
  exists r ts, append r1 r2 = Ret r /\ rope_of r ts /\ concat ts = concat ts1 ++ concat ts2.
Proof.
  intros H1 H2 Hsh. unfold append. rewrite (first_ok _ _ (rope_wf _ _ H2)), (last_item_ok _ _ (rope_wf _ _ H1)).
  cbn [mbind res_bind]. rewrite (rope_list _ _ H1), (rope_list _ _ H2), last_map_chunk, head_map_chunk.
  assert (forall ts, filled (ts1 ++ ts2) -> ts = ts1 ++ ts2 ->
    exists r ts, mkRope <$> SumTree.append (rope_chunks r1) (rope_chunks r2) = Ret r /\ rope_of r ts /\ concat ts = concat ts1 ++ concat ts2) as Hplain.
  { intros ts Hf ->. destruct (append_trees_of _ _ _ _ H1 H2 Hf) as (r & E & Hr). exists r, (ts1 ++ ts2).
    split_and!; [done..|apply concat_app]. }
  destruct ts2 as [|t ts2]; cbn [head fmap option_fmap option_map].
  { apply (Hplain (ts1 ++ [])); [|done]. rewrite app_nil_r. apply H1. }
  cbn [chunk_of chunk_text]. match goal with |- context [if ?b then _ else _] => destruct b eqn:Eb end.
  - pose proof (Forall_inv (rope_pieces _ _ H2)) as Ht. pose proof (Forall_inv_tail (rope_pieces _ _ H2)) as Hp2.
    fold (chunk_of t). destruct (push_chunk_spec r1 ts1 t H1 (piece_fits _ Ht)) as (r & ts & -> & Hr & Hc & Hlong).
    cbn [mbind res_bind]. pose proof (new_at_place (D:=unit) (rope_chunks r2) (height (rope_chunks r2))) as C0.
    destruct (next_ok _ _ (rope_wf _ _ H2) _ _ Hsh C0) as (c1 & -> & C1). cbn [mbind res_bind].
    cbn [later fst snd] in C1. rewrite (rope_list _ _ H2) in C1. cbn [map place_of] in C1.
    destruct (next_ok _ _ (rope_wf _ _ H2) _ _ Hsh C1) as (c2 & -> & C2). cbn [mbind res_bind later fst snd] in *.
    assert (ahead (rope_chunks r2) (place_of ([] ++ [chunk_of t]) (map chunk_of ts2)) [chunk_of t] (map chunk_of ts2)) as Ha.
    { destruct ts2; cbn; [|done]. by rewrite (rope_list _ _ H2). }
    destruct (suffix_ok _ _ c2 _ _ _ Hsh (rope_wf _ _ H2) C2 Ha) as (rest & h & c3 & -> & Hwr & Hlr & _).
    cbn [mbind res_bind fst].
    assert (rope_of (mkRope rest) ts2) as Hrest.
    { apply (rope_of_intro h); [done..|]. by apply (filled_r [t]), H2. }
    assert (filled (ts ++ ts2)) as Hf.
    { destruct ts2 as [|t2 ts2]; [rewrite app_nil_r; apply Hr|]. pose proof (rope_filled _ _ H2) as [Hlt Hf2].
      apply filled_app; [done|]. split; [auto|done]. }
    destruct (append_trees_of _ _ _ _ Hr Hrest Hf) as (r' & E & Hr'). cbn [rope_chunks] in E. rewrite E.
    exists r', (ts ++ ts2). split_and!; [done..|]. rewrite concat_app, Hc. cbn. by rewrite app_assoc.
  - apply (Hplain (ts1 ++ t :: ts2)); [|done]. apply orb_false_iff in Eb as [Eb1 Eb2]. apply Nat.ltb_ge in Eb2.
    apply filled_app; [done|]. split; [|apply H2]. destruct (snoc_cases ts1) as [->|(l & a & ->)]; [constructor|].
    rewrite last_snoc in Eb1. apply Nat.ltb_ge in Eb1. change (chunk_text (chunk_of a)) with a in Eb1. pose proof (rope_filled _ _ H1) as Hf1%filled_snoc.
    apply Forall_app; split; [done|]. constructor; [|constructor]. unfold long. lia.
Qed.

Section Push.
Context (par : par_chunks_type) (Hpar : collects_chunks par).

Lemma extend_of chunks h ts ts' :
  wf h chunks -> to_list chunks = map chunk_of ts -> Forall piece ts -> Forall piece ts' ->
  filled (ts ++ ts') ->
  exists r, mkRope <$> extend chunks (map chunk_of ts') = Ret r /\ rope_of r (ts ++ ts').
Proof.
  intros Hw Hl Hp Hp' Hf. destruct (extend_ok h chunks (map chunk_of ts') Hw) as (t & h' & -> & Hw' & Hl').
  exists (mkRope t). split; [done|]. apply (rope_of_intro h'); [done| |by apply Forall_app|done].
  by rewrite Hl', Hl, map_app.
Qed.

Theorem push_spec r ts s :
  rope_of r ts -> utf8 s -> exists r' ts', push par r s = Ret r' /\ rope_of r' ts' /\ concat ts' = concat ts ++ s.
Proof.
  intros Hr Hs. unfold push.
  match goal with |- context [update_last_with ?f s _] =>
    destruct (pushed_into id r ts s f Hr Hs) as (chunks & rest & E & P) end.
  { intros a Ha. cbv zeta. cbn [chunk_of chunk_text].
    pose proof (split_ix_spec a s (fits_len _ (piece_fits _ Ha)) Hs) as (B1 & B2 & B3 & _).
    set (ix := split_ix (length a) (length s) (is_char_boundary s)) in *. clearbody ix.
    destruct (boundary_split s ix Hs B1) as (_ & Ht & Hd). unfold str_split_at. rewrite B1. cbn [mbind res_bind fst snd].
    assert (length (take ix s) = ix) as El by (by rewrite length_take_le).
    unfold push_str. rewrite new_fits by (split; [done|lia]). cbn [mbind res_bind].
    rewrite append_spec, El by apply Ha. destruct (Nat.leb_spec (length a + ix) MAX_BASE); [|lia].
    by rewrite orb_true_r. }
  unfold id in E. rewrite E. cbn [mbind res_bind]. destruct P as [(h & ts' & Hw & Hl & Hp & Hf1 & Hf2 & Hc) Hu Hlen _].
  destruct (Nat.eqb_spec (length rest) 0) as [E0|E0].
  { destruct rest; [|done]. exists (mkRope chunks), ts'. split; [done|]. rewrite app_nil_r in Hc. split; [|done].
    by apply (rope_of_intro h); auto. }
  assert (rest <> []) as Hne by by destruct rest.
  destruct (split_chunks_spec (length rest) rest Hu (le_n _)) as (new & En & Ec & Epc & Ef & Ecount).
  assert (filled (ts' ++ new)) as Hfill.
  { apply filled_app; [|by auto]. intros ->. cbn in Ec. by subst. }
  assert (forall r', mkRope <$> extend chunks (map chunk_of new) = Ret r' -> rope_of r' (ts' ++ new) ->
    exists r0 ts0, mkRope <$> extend chunks (map chunk_of new) = Ret r0 /\ rope_of r0 ts0 /\ concat ts0 = concat ts ++ s) as Hend.
  { intros r' Er Hr'. exists r', (ts' ++ new). split_and!; [done..|]. by rewrite concat_app, Ec. }
  destruct (extend_of chunks h ts' new Hw Hl Hp Epc Hfill) as (r' & Er & Hr').
  destruct (Nat.ltb_spec (NUM_CHUNKS * MAX_BASE - NUM_CHUNKS * 4) (length rest)).
  - unfold push_large. rewrite En. cbn [mbind res_bind]. rewrite new_chunks_spec by done. cbn [mbind res_bind].
    unfold par_extend. rewrite from_par_iter_ok by done. fold (extend chunks (map chunk_of new)).
    destruct (_ <=? _); by apply (Hend r').
  - rewrite En. cbn [mbind res_bind].
    destruct (Ecount 4) as [Hc4|[]]; [unfold NUM_CHUNKS, MAX_BASE, Bits.BITS in *; lia| |done].
    destruct (Nat.leb_spec (length new) NUM_CHUNKS); [|unfold NUM_CHUNKS in *; lia].
    cbn [mbind res_bind]. rewrite new_chunks_spec by done. by apply (Hend r').
Qed.
End Push.
