(* ===== verification/RopeCursorSpec.v ===== *)
(** * Ropes: cursors, slices and replacement

    A cursor stands at an offset, in the chunk the offset is in (or at whose end it is).
    Slicing to a further offset gives a rope of the text in between. *)

From S2P Require Import Prelude.
From S2P Require Import SumTree.
From S2P Require Import SumCursor.
From S2P Require Import SumTreeInvariant.
From S2P Require Import SumTreeFind.
From S2P Require Import SumCursorSeek.
From S2P Require Import SumCursorSearch.
From S2P Require Import SumIter.
From S2P Require Import Text.
From S2P Require Import TextSpec.
From S2P Require Import Utf8.
From S2P Require Import Chunk.
From S2P Require Import ChunkSpec.
From S2P Require Import ChunkPositions.
From S2P Require Import Rope.
From S2P Require Import RopeSpec.
Local Open Scope nat_scope.

#[local] Arguments summary_of : simpl never.

Implicit Types (s t : str) (ts pre post : list str) (r : Rope) (o e : nat).

(** ** Where scans stop *)
Section Scan.
Context {T S : Type} `{HS : !Summary S} `{!SummaryLaws S} `{HI : !Item T S}.
Context {D : Type} `{HD : !Dimension D S} {Target : Type} `{!SeekTarget Target D}.
Context (target : Target) (bias : Bias).

Lemma before_stops (d : D) (l : list T) :
  let b := before target bias d l in
  (b <> [] -> target_in target bias (advance d b) = false)
  /\ match drop (length b) l with
     | x :: _ => target_in target bias (advance d (b ++ [x])) = true
     | [] => True
     end.
Proof.
  cbv zeta. revert d. induction l as [|x l IH]; intros d; cbn [before]; [done|].
  destruct (target_in target bias (dim_add d (summary x))) eqn:E; [done|].
  destruct (IH (dim_add d (summary x))) as [H1 H2]. split.
  - intros _. cbn. destruct (before target bias (dim_add d (summary x)) l) as [|y b] eqn:Eb; [done|]. by apply H1.
  - cbn [length drop]. destruct (drop _ l) eqn:Ed; [done|]. exact H2.
Qed.

(** What [find] gives. *)
Lemma found_cases (l : list T) :
  (exists (pre : list T) x (post : list T), l = pre ++ x :: post
     /\ found (D:=D) target bias l = (advance dim_zero pre, advance dim_zero (pre ++ [x]), Some x)
     /\ (pre <> [] -> target_in target bias (advance (D:=D) dim_zero pre) = false)
     /\ target_in target bias (advance (D:=D) dim_zero (pre ++ [x])) = true)
  \/ found (D:=D) target bias l = (advance dim_zero l, advance dim_zero l, None)
     /\ (l <> [] -> target_in target bias (advance (D:=D) dim_zero l) = false).
Proof.
  unfold found, landing. pose proof (before_stops dim_zero l) as [H1 H2].
  pose proof (before_prefix target bias (dim_zero (D:=D)) l) as E. set (b := before target bias dim_zero l) in *.
  destruct (drop (length b) l) as [|x post] eqn:Ed.
  - right. clearbody b. rewrite app_nil_r in E. subst l. done.
  - left. exists b, x, post. split_and!; done.
Qed.
End Scan.

(** A prefix of the chunks is that of some pieces. *)
Lemma map_chunk_split ts (l1 l2 : list Chunk) :
  map chunk_of ts = l1 ++ l2 -> exists pre post, ts = pre ++ post /\ l1 = map chunk_of pre /\ l2 = map chunk_of post.
Proof.
  intros E. exists (take (length l1) ts), (drop (length l1) ts). split; [by rewrite take_drop|].
  rewrite <-firstn_map, <-skipn_map, E. by rewrite take_app_length, drop_app_length.
Qed.

Lemma before_chunks {D} `{!Dimension D ChunkSummary} {Target} `{!SeekTarget Target D} (target : Target) bias (d : D) ts :
  exists pre post, ts = pre ++ post /\ before target bias d (map chunk_of ts) = map chunk_of pre
    /\ drop (length (before target bias d (map chunk_of ts))) (map chunk_of ts) = map chunk_of post.
Proof.
  destruct (map_chunk_split ts _ _ (before_prefix target bias d (map chunk_of ts))) as (pre & post & E1 & E2 & E3).
  by exists pre, post.
Qed.

(** ** Offsets *)
Lemma advance_len ts : Forall piece ts -> advance (D:=nat) dim_zero (map chunk_of ts) = length (concat ts).
Proof. exact (advance_pieces (D:=nat) ts). Qed.
Lemma advance_len_from n ts :
  Forall piece ts -> advance (D:=nat) n (map chunk_of ts) = n + length (concat ts).
Proof.
  intros Hts. revert n. induction Hts as [|t ts [Ht _] Hts IH]; intros n; [cbn; lia|]. cbn [map concat].
  unfold advance in *. cbn [fold_left]. rewrite IH. cbn. rewrite chunk_item_spec by done.
  rewrite (sum_len _ _ (summary_of_marks _ (fits_utf8 _ Ht))), length_app. lia.
Qed.

Lemma len_ordered o n ts : Forall piece ts -> ordered (D:=nat) o n (map chunk_of ts).
Proof.
  intros Hts p q l E _. rewrite app_assoc in E. apply map_chunk_split in E as (a & post & -> & E & _).
  symmetry in E. apply map_chunk_split in E as (a1 & a2 & -> & -> & ->).
  rewrite <-map_app. apply Forall_app in Hts as [Hts _]. pose proof Hts as [H1 _]%Forall_app.
  rewrite !advance_len_from, concat_app, length_app by done. unfold target_cmp, len_target.
  destruct (Nat.compare_spec o (n + (length (concat a1) + length (concat a2)))), (Nat.compare_spec o (n + length (concat a1)));
    cbn; lia.
Qed.

Lemma rope_len_of r ts : rope_of r ts -> rope_len r = length (concat ts).
Proof.
  intros H. unfold rope_len, extent. rewrite (node_summary_total _ _ (rope_wf _ _ H)), dim_zero_total, (rope_list _ _ H).
  apply advance_len, H.
Qed.

(** ** Cursors *)
Record cursor_at r ts (c : Cursor) (o : nat) : Prop := {
  at_rope : cursor_rope c = r;
  at_offset : cursor_offset c = o;
  at_chunk : exists pre post, ts = pre ++ post
    /\ at_place (rope_chunks r) (height (rope_chunks r)) (cursor_chunks c) (place_of (map chunk_of pre) (map chunk_of post))
    /\ match post with
       | t :: _ => length (concat pre) <= o <= length (concat pre) + length t
       | [] => o = length (concat pre)
       end;
}.

(** Where seeking forward from some pieces to an offset ends. *)
Lemma sought_offset pre post o :
  Forall piece pre -> Forall piece post -> length (concat pre) <= o <= length (concat (pre ++ post)) ->
  let n := length (concat pre) in
  let b := before (D:=nat) o Right n (map chunk_of post) in
  exists mid post', post = mid ++ post' /\ b = map chunk_of mid /\ drop (length b) (map chunk_of post) = map chunk_of post'
    /\ match post' with
       | t :: _ => length (concat (pre ++ mid)) <= o < length (concat (pre ++ mid)) + length t
       | [] => o = length (concat (pre ++ mid))
       end.
Proof.
  intros Hpre Hpost Ho. cbv zeta.
  destruct (before_chunks (D:=nat) o Right (length (concat pre)) post) as (mid & post' & -> & Eb & Ed).
  exists mid, post'. split_and!; [done..|]. apply Forall_app in Hpost as [Hm Hp'].
  pose proof (before_stops (D:=nat) o Right (length (concat pre)) (map chunk_of (mid ++ post'))) as [H1 H2].
  rewrite Eb in *. rewrite Ed in H2. rewrite concat_app, length_app.
  assert (length (concat pre) + length (concat mid) <= o) as Hle.
  { destruct mid as [|m mid]; [cbn; lia|]. specialize (H1 ltac:(done)). rewrite advance_len_from in H1 by done.
    unfold target_in, target_cmp, len_target in H1.
    destruct (Nat.compare_spec o (length (concat pre) + length (concat (m :: mid)))); (done || lia). }
  destruct post' as [|t post'].
  - rewrite app_nil_r, concat_app, length_app in Ho. lia.
  - cbn [map] in H2. change [chunk_of t] with (map chunk_of [t]) in H2. rewrite <-map_app in H2.
    rewrite advance_len_from in H2 by (apply Forall_app; split; [done|]; constructor; [by apply (Forall_inv Hp')|constructor]).
    rewrite concat_app, length_app in H2. cbn [concat] in H2. rewrite app_nil_r in H2.
    unfold target_in, target_cmp, len_target in H2.
    destruct (Nat.compare_spec o (length (concat pre) + (length (concat mid) + length t))); (done || lia).
Qed.

(** [TextDimension]: what a chunk measures, and adding up. *)
Class TextDimensionLaws (D : Type) `{TextMeasure D} `{!TextDimension D} := {
  from_chunk_measure s : fits s -> from_chunk (chunk_of s) = measure (D:=D) s;
  add_assign_measure s t : utf8 s -> utf8 t -> add_assign (measure s) (measure t) = measure (D:=D) (s ++ t);
  from_summary_measure s : from_text_summary (summary_of s) = measure (D:=D) s;
}.
#[export] Instance summary_dimension_ok : TextDimensionLaws TextSummary.
Proof. split; cbn; intros; [by apply text_summary_spec|symmetry; by apply summary_of_app|done]. Qed.
#[export] Instance len_dimension_ok : TextDimensionLaws nat.
Proof. split; cbn; intros; [done|by rewrite length_app|done]. Qed.
#[export] Instance utf16_dimension_ok : TextDimensionLaws OffsetUtf16.
Proof.
  split; cbn; intros; [by rewrite len_utf16_spec by by apply fits_utf8| |done].
  by rewrite summary_of_app, add_len_utf16.
Qed.
#[export] Instance point_dimension_ok : TextDimensionLaws Point.
Proof. split; cbn; intros; [by apply lines_spec| |done]. by rewrite summary_of_app, add_lines. Qed.
#[export] Instance point_utf16_dimension_ok : TextDimensionLaws PointUtf16.
Proof.
  split; intros; [|cbn|done].
  - unfold from_chunk, point_utf16_text_dimension. by rewrite lines_spec, last_line_len_utf16_spec.
  - by rewrite summary_of_app, add_lines_utf16.
Qed.
#[export] Instance pair_dimension_ok {D1 D2} `{TextDimensionLaws D1} `{TextDimensionLaws D2} :
  TextDimensionLaws (Dimensions D1 D2 unit).
Proof.
  split; cbn; intros; [by rewrite !from_chunk_measure|by rewrite !add_assign_measure|by rewrite !from_summary_measure].
Qed.

Section Cursors.
Context (r : Rope) (ts : list str) (Hr : rope_of r ts) (Hsh : shallow r).

Lemma ahead_place pre post :
  ts = pre ++ post -> ahead (rope_chunks r) (place_of (map chunk_of pre) (map chunk_of post)) (map chunk_of pre) (map chunk_of post).
Proof. intros E. destruct post; cbn; [|done]. rewrite app_nil_r in E. by rewrite (rope_list _ _ Hr), E. Qed.

Lemma pieces_parts pre post : ts = pre ++ post -> Forall piece pre /\ Forall piece post.
Proof. intros E. apply Forall_app. rewrite <-E. apply Hr. Qed.

Lemma len_seekable o pre post :
  ts = pre ++ post -> length (concat pre) <= o ->
  seekable (D:=nat) o (map chunk_of pre) (map chunk_of post).
Proof.
  intros E Ho. destruct (pieces_parts pre post E) as [H1 H2]. split.
  - rewrite advance_len by done. unfold target_cmp, len_target. destruct (Nat.compare_spec o (length (concat pre))); (done || lia).
  - by apply len_ordered.
Qed.

Theorem rope_cursor_spec o : o <= length (concat ts) -> exists c, rope_cursor r o = Ret c /\ cursor_at r ts c o.
Proof.
  intros Ho. unfold rope_cursor.
  destruct (seek_ok (D:=nat) _ _ o Right _ _ Hsh (rope_wf _ _ Hr) (new_at_place _ _)) as (c & -> & Hc).
  { rewrite (rope_list _ _ Hr). apply (len_seekable o [] ts); [done|cbn; lia]. }
  eexists. split; [reflexivity|]. split; [done..|]. cbn [cursor_chunks snd].
  destruct (sought_offset [] ts o) as (pre & post & E & Eb & Ed & Hin); [constructor|apply Hr|cbn; lia|].
  cbn [concat length app] in *. rewrite (rope_list _ _ Hr) in Hc. change (dim_zero (D:=nat)) with 0 in Hc.
  rewrite Eb in Ed, Hc. rewrite Ed in Hc. exists pre, post. split_and!; [done..|]. destruct post; [done|lia].
Qed.

Theorem cursor_seek_forward_spec c o e :
  cursor_at r ts c o -> o <= e <= length (concat ts) -> exists c', cursor_seek_forward c e = Ret c' /\ cursor_at r ts c' e.
Proof.
  intros [Er Eo (pre & post & E & Hc & Hin)] He. unfold cursor_seek_forward. rewrite Er, Eo, (rope_len_of _ _ Hr).
  destruct (Nat.leb_spec o e); [|lia]. destruct (Nat.leb_spec e (length (concat ts))); [|lia]. cbn [assert mbind res_bind].
  assert (length (concat pre) <= e) as Hpe by (destruct post; lia).
  destruct (seek_forward_ok (D:=nat) _ _ e Right _ _ _ _ Hsh (rope_wf _ _ Hr) Hc (ahead_place pre post E)
    (len_seekable e pre post E Hpe)) as (c' & -> & Hc').
  eexists. split; [reflexivity|]. split; [done..|]. cbn [cursor_chunks snd].
  destruct (pieces_parts pre post E) as [H1 H2].
  destruct (sought_offset pre post e H1 H2) as (mid & post' & E' & Eb & Ed & Hin'); [rewrite <-E; lia|].
  unfold left_over, passed in Hc'. rewrite advance_len in Hc' by done. rewrite Eb in Ed, Hc'. rewrite Ed, <-map_app in Hc'.
  exists (pre ++ mid), post'. split_and!; [by rewrite E, E', app_assoc|done|]. destruct post'; [done|lia].
Qed.

(** Substrings of a text in pieces. *)
Lemma within_piece (a t z : str) (i j : nat) :
  i <= j <= length t -> take ((length a + j) - (length a + i)) (drop (length a + i) (a ++ t ++ z)) = take (j - i) (drop i t).
Proof.
  intros Hij. rewrite drop_app_add, drop_app_le by lia. rewrite take_app_le by (rewrite length_drop; lia).
  f_equal. lia.
Qed.

Lemma across_pieces (a t m t2 z : str) (i j : nat) :
  i <= length t -> j <= length t2 ->
  take ((length a + length t + length m + j) - (length a + i)) (drop (length a + i) (a ++ t ++ m ++ t2 ++ z))
  = drop i t ++ m ++ take j t2.
Proof.
  intros Hi Hj. rewrite drop_app_add, drop_app_le by lia.
  replace (length a + length t + length m + j - (length a + i)) with (length (drop i t) + (length m + j)) by (rewrite length_drop; lia).
  rewrite take_app_add, take_app_add. by rewrite take_app_le.
Qed.

(** Boundaries of the text inside a piece are boundaries of the piece. *)
Lemma piece_boundary (a t z : str) (i : nat) :
  utf8 a -> utf8 t -> utf8 z -> boundary (a ++ t ++ z) (length a + i) -> i <= length t -> boundary t i.
Proof.
  intros Ha Ht Hz Hb Hi. assert (utf8 (t ++ z)) as Htz by by apply utf8_app.
  assert (boundary (a ++ t ++ z) (length a)) as Hba by by apply boundary_between.
  assert (boundary (t ++ z) i) as Hi'.
  { unfold boundary in *. rewrite <-boundary_drop in Hb; [by rewrite drop_app_length in Hb|done|rewrite !length_app; lia]. }
  assert (boundary (t ++ z) (length t)) as Hbt by by apply boundary_between.
  unfold boundary in *. rewrite <-(boundary_take _ i (length t)) in Hi' by (done || rewrite ?length_app; lia).
  by rewrite take_app_length in Hi'.
Qed.

(** Where a cursor stands, with what is needed to read its chunk. *)
Definition stands (c : cursor Chunk ChunkSummary nat) pre post : Prop :=
  ts = pre ++ post
  /\ at_place (rope_chunks r) (height (rope_chunks r)) c (place_of (map chunk_of pre) (map chunk_of post)).

Lemma stands_reads c pre post :
  stands c pre post ->
  item c = Ret (chunk_of <$> head post)
  /\ cursor_end c = Ret (length (concat pre) + length (default [] (head post)))
  /\ match post with _ :: _ => start c = length (concat pre) | [] => True end.
Proof.
  intros [E Hc]. destruct (pieces_parts pre post E) as [Hpre Hpost].
  assert (place_of (map chunk_of pre) (map chunk_of post) <> Unsought) as Hns by by destruct post.
  pose proof (cursor_end_ok _ _ _ _ Hc Hns) as Hend. rewrite (item_ok _ _ _ _ Hc), (start_ok _ _ _ _ Hc), Hend.
  destruct post as [|t post]; cbn [place_of map head fmap option_fmap option_map default].
  - rewrite (rope_list _ _ Hr), advance_len by apply Hr. rewrite E, app_nil_r. cbn [length]. by rewrite Nat.add_0_r.
  - split_and!; [done| |by apply advance_len].
    change [chunk_of t] with (map chunk_of [t]). rewrite <-map_app, advance_len
      by (apply Forall_app; split; [done|constructor; [by apply (Forall_inv Hpost)|constructor]]).
    rewrite concat_app, length_app. cbn [concat]. by rewrite app_nil_r.
Qed.

Lemma stands_text c pre t post :
  stands c pre (t :: post) ->
  concat ts = concat pre ++ t ++ concat post /\ utf8 (concat pre) /\ fits t /\ utf8 (concat post).
Proof.
  intros [E Hc]. destruct (pieces_parts pre (t :: post) E) as [Hpre Hpost].
  split_and!; [by rewrite E, concat_app|by apply pieces_utf8|apply (Forall_inv Hpost)|apply pieces_utf8, (Forall_inv_tail Hpost)].
Qed.

(** Reading part of the chunk a cursor stands at. *)
Lemma read_part c pre t post i j :
  stands c pre (t :: post) -> i <= j <= length t ->
  boundary (concat ts) (length (concat pre) + i) -> boundary (concat ts) (length (concat pre) + j) ->
  Chunk.slice (chunk_of t) i j = Ret (chunk_of (take (j - i) (drop i t))) /\ fits (take (j - i) (drop i t)).
Proof.
  intros H Hij Hi Hj. destruct (stands_text _ _ _ _ H) as (E & Hu1 & Hft & Hu2). rewrite E in *.
  assert (boundary t i) as Hbi by (apply (piece_boundary (concat pre) t (concat post)); (apply Hft || done || lia)).
  assert (boundary t j) as Hbj by (apply (piece_boundary (concat pre) t (concat post)); (apply Hft || done || lia)).
  rewrite slice_boundaries by (done || lia). split; [done|]. apply fits_take; [by apply fits_drop|].
  rewrite boundary_drop by (done || lia). by replace (i + (j - i)) with j by lia.
Qed.

Lemma boundary_at_piece_end c pre t post :
  stands c pre (t :: post) -> boundary (concat ts) (length (concat pre) + length t).
Proof.
  intros H. destruct (stands_text _ _ _ _ H) as (E & Hu1 & Hft & Hu2). rewrite E, app_assoc, <-length_app.
  by apply boundary_between.
Qed.
Lemma boundary_at_piece_start c pre post : stands c pre post -> boundary (concat ts) (length (concat pre) + 0).
Proof.
  intros [E _]. rewrite Nat.add_0_r, E, concat_app. apply boundary_between, pieces_utf8. by apply (pieces_parts pre).
Qed.

(** The chunk a cursor has arrived in, up to an offset. *)
Definition last_part pre post (e : nat) : str :=
  match post with t :: _ => take (e - length (concat pre)) t | [] => [] end.
Definition arrived pre post (e : nat) : Prop :=
  match post with
  | t :: _ => length (concat pre) <= e <= length (concat pre) + length t
  | [] => e = length (concat pre)
  end.

Lemma read_last c pre t post e :
  stands c pre (t :: post) -> arrived pre (t :: post) e -> boundary (concat ts) e ->
  Chunk.slice (chunk_of t) 0 (e - start c) = Ret (chunk_of (last_part pre (t :: post) e)) /\ fits (last_part pre (t :: post) e).
Proof.
  intros H [H1 H2] Hb. destruct (stands_reads _ _ _ H) as (_ & _ & ->).
  destruct (read_part c pre t post 0 (e - length (concat pre)) H) as [E F]; [lia|by eapply boundary_at_piece_start| |].
  - by replace (length (concat pre) + (e - length (concat pre))) with e by lia.
  - rewrite drop_0, Nat.sub_0_r in *. done.
Qed.

(** Going on to an offset behind the chunk: the pieces passed, and where the cursor is
    then. *)
Lemma walk_on c pre t post o e :
  stands c pre (t :: post) -> arrived pre (t :: post) o -> length (concat pre) + length t < e <= length (concat ts) ->
  exists c1 mid post2,
    next c = Ret c1 /\ stands c1 (pre ++ [t]) post /\ post = mid ++ post2
    /\ seekable (D:=nat) e (map chunk_of (pre ++ [t])) (map chunk_of post)
    /\ passed (D:=nat) e Right (map chunk_of (pre ++ [t])) (map chunk_of post) = map chunk_of mid
    /\ left_over (D:=nat) e Right (map chunk_of (pre ++ [t])) (map chunk_of post) = map chunk_of post2
    /\ arrived ((pre ++ [t]) ++ mid) post2 e
    /\ take (e - o) (drop o (concat ts))
       = drop (o - length (concat pre)) t ++ concat mid ++ last_part ((pre ++ [t]) ++ mid) post2 e.
Proof.
  intros H [Ho1 Ho2] He. destruct (stands_text _ _ _ _ H) as (Es & _ & _ & _). destruct H as [E Hc].
  destruct (next_ok _ _ (rope_wf _ _ Hr) _ _ Hsh Hc) as (c1 & En & Hc1).
  cbn [later fst snd place_of map] in Hc1. change [chunk_of t] with (map chunk_of [t]) in Hc1. rewrite <-map_app in Hc1.
  assert (ts = (pre ++ [t]) ++ post) as E1 by (by rewrite <-app_assoc).
  assert (concat (pre ++ [t]) = concat pre ++ t) as Eat by (rewrite concat_app; cbn; by rewrite app_nil_r).
  assert (length (concat (pre ++ [t])) <= e) as Hle by (rewrite Eat, length_app; lia).
  destruct (pieces_parts _ _ E1) as [Hpt Hpost].
  destruct (sought_offset (pre ++ [t]) post e Hpt Hpost) as (mid & post2 & E2 & Eb & Ed & Hin); [rewrite <-E1; lia|].
  exists c1, mid, post2. split_and!; try done.
  - by apply len_seekable.
  - unfold passed. by rewrite advance_len.
  - unfold left_over, passed. by rewrite advance_len.
  - destruct post2; cbn; [done|lia].
  - rewrite concat_app, Eat, !length_app in Hin. rewrite Es, E2, concat_app.
    assert (o = length (concat pre) + (o - length (concat pre))) as Eo by lia.
    set (i := o - length (concat pre)) in *. clearbody i. subst o. unfold last_part.
    rewrite concat_app, Eat, !length_app. destruct post2 as [|t2 post2].
    + pose proof (across_pieces (concat pre) t (concat mid) [] [] i 0) as EA.
      cbn [concat]. rewrite !app_nil_r in *. cbn in EA. rewrite <-EA by lia. f_equal. lia.
    + cbn [concat].
      rewrite <-(across_pieces (concat pre) t (concat mid) t2 (concat post2)) by lia. f_equal. lia.
Qed.

(** A part within the chunk. *)
Lemma walk_within c pre t post o e :
  stands c pre (t :: post) -> arrived pre (t :: post) o -> o <= e <= length (concat pre) + length t ->
  take (e - o) (drop o (concat ts)) = take ((e - length (concat pre)) - (o - length (concat pre))) (drop (o - length (concat pre)) t).
Proof.
  intros H [Ho1 Ho2] He. destruct (stands_text _ _ _ _ H) as (-> & _ & _ & _).
  rewrite <-(within_piece (concat pre) t (concat post)) by lia. do 2 f_equal; lia.
Qed.

Lemma walk_arrived c1 c2 mid post2 pre t post :
  stands c1 (pre ++ [t]) post -> post = mid ++ post2 ->
  at_place (rope_chunks r) (height (rope_chunks r)) c2
    (place_of (map chunk_of (pre ++ [t]) ++ map chunk_of mid) (map chunk_of post2)) ->
  stands c2 ((pre ++ [t]) ++ mid) post2.
Proof. intros [E _] -> Hc. split; [by rewrite E, !app_assoc|by rewrite map_app]. Qed.

Lemma cursor_at_intro c pre post o e :
  stands c pre post -> arrived pre post e -> o = e -> cursor_at r ts (mkCursor r c o) e.
Proof. intros [E Hc] Ha ->. split; [done..|]. exists pre, post. by destruct post. Qed.

Lemma cursor_at_elim c o :
  cursor_at r ts c o -> exists pre post, stands (cursor_chunks c) pre post /\ arrived pre post o.
Proof. intros [_ _ (pre & post & E & Hc & Hin)]. exists pre, post. split; [done|]. by destruct post. Qed.

(** The middle of a slice that crosses chunks is appended, so its tree must be shallow. *)
Definition middle_shallow (c : Cursor) (e : nat) : Prop := forall chunks m c',
  next (cursor_chunks c) = Ret chunks -> SumCursor.slice chunks e Right = Ret (m, c') -> shallow (mkRope m).

(** Slicing across chunks. *)
Lemma cursor_slice_across c pre t post o e x :
  stands c pre (t :: post) -> arrived pre (t :: post) o -> length (concat pre) + length t < e <= length (concat ts) ->
  boundary (concat ts) e -> (forall chunks m c', next c = Ret chunks -> SumCursor.slice chunks e Right = Ret (m, c') -> shallow (mkRope m)) ->
  forall part ts1, rope_of part ts1 -> concat ts1 = drop (o - length (concat pre)) t ->
  x = take (e - o) (drop o (concat ts)) ->
  exists part' ts' c', (
    chunks ← next c;
    middle ← SumCursor.slice chunks e Right;
    part ← append part (mkRope (fst middle));
    let chunks := snd middle in
    end_chunk ← item chunks;
    part ← match end_chunk with
           | Some end_chunk =>
               let end_ix := e - start chunks in
               s ← Chunk.slice end_chunk 0 end_ix;
               push_chunk part s
           | None => Ret part
           end;
    Ret (part, mkCursor r chunks e)) = Ret (part', c') /\ rope_of part' ts' /\ concat ts' = x /\ cursor_at r ts c' e.
Proof.
  intros H Ho He Hbe Hmid part ts1 Hpart Hcon ->.
  destruct (walk_on c pre t post o e H Ho He) as (c1 & mid & post2 & En & H1 & E2 & Hsk & Hps & Hlo & Ha & ->).
  rewrite En. cbn [mbind res_bind].
  destruct (slice_ok (D:=nat) _ _ e Right _ _ _ _ Hsh (rope_wf _ _ Hr) (proj2 H1) (ahead_place _ _ (proj1 H1)) Hsk)
    as (m & hm & c2 & Em & Hwm & Hlm & Hc2). rewrite Em. cbn [mbind res_bind fst snd].
  pose proof (Hmid c1 m c2 En Em) as Hshm. rewrite Hps in *. rewrite Hlo in Hc2.
  pose proof (walk_arrived _ _ _ _ _ _ _ H1 E2 Hc2) as H2.
  assert (rope_of (mkRope m) mid) as Hm.
  { destruct (pieces_parts _ _ (proj1 H1)) as [_ Hp]. rewrite E2 in Hp. apply Forall_app in Hp as [Hp _].
    apply (rope_of_intro hm); [done..|]. pose proof (rope_filled _ _ Hr) as Hf. rewrite (proj1 H1), E2 in Hf.
    by apply filled_r, filled_l in Hf. }
  destruct (append_rope_spec part (mkRope m) ts1 mid Hpart Hm Hshm) as (part2 & ts2 & -> & Hpart2 & Hcon2).
  cbn [mbind res_bind]. destruct (stands_reads _ _ _ H2) as (-> & _ & _). rewrite Hcon in Hcon2.
  destruct post2 as [|t2 post2]; cbn [head fmap option_fmap option_map mbind res_bind].
  - eexists part2, ts2, _. split_and!; [reflexivity|done| |by eapply cursor_at_intro].
    cbn [last_part]. by rewrite app_nil_r.
  - destruct (read_last _ _ _ _ _ H2 Ha Hbe) as [-> Hfit]. cbn [mbind res_bind].
    destruct (push_chunk_spec part2 ts2 _ Hpart2 Hfit) as (part3 & ts3 & -> & Hpart3 & Hcon3 & _). cbn [mbind res_bind].
    eexists part3, ts3, _. split_and!; [reflexivity|done| |by eapply cursor_at_intro].
    by rewrite Hcon3, Hcon2, <-app_assoc.
Qed.

Theorem cursor_slice_spec c o e :
  cursor_at r ts c o -> o <= e <= length (concat ts) -> boundary (concat ts) o -> boundary (concat ts) e ->
  middle_shallow c e ->
  exists part ts' c', cursor_slice c e = Ret (part, c') /\ rope_of part ts'
    /\ concat ts' = take (e - o) (drop o (concat ts)) /\ cursor_at r ts c' e.
Proof.
  intros Hat He Hbo Hbe Hmid. destruct (cursor_at_elim c o Hat) as (pre & post & H & Ha). unfold cursor_slice.
  rewrite (at_rope _ _ _ _ Hat), (at_offset _ _ _ _ Hat), (rope_len_of _ _ Hr).
  destruct (Nat.leb_spec o e); [|lia]. destruct (Nat.leb_spec e (length (concat ts))); [|lia]. cbn [assert mbind res_bind].
  destruct (stands_reads _ _ _ H) as (-> & -> & Hstart).
  destruct post as [|t post]; cbn [head fmap option_fmap option_map mbind res_bind default] in *.
  - assert (length (concat ts) = length (concat pre)) as El by (rewrite (proj1 H); by rewrite app_nil_r).
    cbn [arrived] in Ha.
    match goal with |- context [?n <? e] => destruct (Nat.ltb_spec n e) as [Hlt|_] end; [cbn in Hlt; lia|].
    eexists rope_new, [], _. split_and!; [reflexivity|apply rope_new_of| |].
    + replace (e - o) with 0 by lia. by rewrite take_0.
    + eapply cursor_at_intro; [done| |done]. cbn. lia.
  - rewrite Hstart. unfold id. pose proof Ha as [Ho1 Ho2]. cbv beta.
    assert (length (concat pre) + (o - length (concat pre)) = o) as Eo by lia.
    destruct (decide (e <= length (concat pre) + length t)) as [Hle|Hgt].
    + rewrite Nat.min_l by lia.
      destruct (read_part _ _ _ _ (o - length (concat pre)) (e - length (concat pre)) H) as [-> Hfit];
        [lia|by rewrite Eo|by replace (length (concat pre) + (e - length (concat pre))) with e by lia|].
      cbn [mbind res_bind].
      destruct (push_chunk_spec rope_new [] _ rope_new_of Hfit) as (part & ts' & -> & Hpart & Hcon & _). cbn [mbind res_bind].
      destruct (Nat.ltb_spec (length (concat pre) + length t) e); [lia|].
      eexists part, ts', _. split_and!; [reflexivity|done| |eapply cursor_at_intro; [done|cbn; lia|done]].
      rewrite Hcon. by rewrite (walk_within _ _ _ _ o e H Ha) by lia.
    + rewrite Nat.min_r by lia. replace (length (concat pre) + length t - length (concat pre)) with (length t) by lia.
      destruct (read_part _ _ _ _ (o - length (concat pre)) (length t) H) as [-> Hfit];
        [lia|by rewrite Eo|by eapply boundary_at_piece_end|].
      rewrite take_ge in * by (rewrite length_drop; lia). cbn [mbind res_bind].
      destruct (push_chunk_spec rope_new [] _ rope_new_of Hfit) as (part & ts1 & -> & Hpart & Hcon & _). cbn [mbind res_bind].
      destruct (Nat.ltb_spec (length (concat pre) + length t) e); [|lia].
      by apply (cursor_slice_across _ pre t post o e _ H Ha ltac:(lia) Hbe Hmid part ts1 Hpart Hcon).
Qed.

(** [summary] measures the text in between. *)
Theorem cursor_summary_spec {D} `{!Dimension D ChunkSummary} `{!TextMeasure D} `{!TextDimension D} `{!TextDimensionLaws D} c o e :
  cursor_at r ts c o -> o <= e <= length (concat ts) -> boundary (concat ts) o -> boundary (concat ts) e ->
  exists c', cursor_summary (D:=D) c e = Ret (measure (take (e - o) (drop o (concat ts))), c') /\ cursor_at r ts c' e.
Proof.
  intros Hat He Hbo Hbe. destruct (cursor_at_elim c o Hat) as (pre & post & H & Ha). unfold cursor_summary.
  rewrite (at_rope _ _ _ _ Hat), (at_offset _ _ _ _ Hat), (rope_len_of _ _ Hr).
  destruct (Nat.leb_spec o e); [|lia]. destruct (Nat.leb_spec e (length (concat ts))); [|lia]. cbn [assert mbind res_bind].
  destruct (stands_reads _ _ _ H) as (-> & -> & Hstart).
  destruct post as [|t post]; cbn [head fmap option_fmap option_map mbind res_bind default] in *.
  - assert (length (concat ts) = length (concat pre)) as El by (rewrite (proj1 H); by rewrite app_nil_r).
    cbn [arrived] in Ha.
    match goal with |- context [?n <? e] => destruct (Nat.ltb_spec n e) as [Hlt|_] end; [cbn in Hlt; lia|].
    eexists. split; [replace (e - o) with 0 by lia; rewrite take_0, <-measure_nil; reflexivity|].
    eapply cursor_at_intro; [done| |done]. cbn. lia.
  - rewrite Hstart. unfold id. pose proof Ha as [Ho1 Ho2]. cbv beta.
    assert (length (concat pre) + (o - length (concat pre)) = o) as Eo by lia.
    destruct (decide (e <= length (concat pre) + length t)) as [Hle|Hgt].
    + rewrite Nat.min_l by lia.
      destruct (read_part _ _ _ _ (o - length (concat pre)) (e - length (concat pre)) H) as [-> Hfit];
        [lia|by rewrite Eo|by replace (length (concat pre) + (e - length (concat pre))) with e by lia|].
      cbn [mbind res_bind]. destruct (Nat.ltb_spec (length (concat pre) + length t) e); [lia|].
      eexists. split; [|eapply cursor_at_intro; [done|cbn; lia|done]].
      rewrite (walk_within _ _ _ _ o e H Ha) by lia. by rewrite measure_nil, from_chunk_measure, add_assign_measure by apply Hfit || constructor.
    + rewrite Nat.min_r by lia. replace (length (concat pre) + length t - length (concat pre)) with (length t) by lia.
      destruct (read_part _ _ _ _ (o - length (concat pre)) (length t) H) as [-> Hfit];
        [lia|by rewrite Eo|by eapply boundary_at_piece_end|].
      rewrite take_ge in * by (rewrite length_drop; lia). cbn [mbind res_bind].
      destruct (Nat.ltb_spec (length (concat pre) + length t) e); [|lia].
      destruct (walk_on _ pre t post o e H Ha ltac:(lia)) as (c1 & mid & post2 & -> & H1' & E2 & Hsk & Hps & Hlo & Ha' & ->).
      cbn [mbind res_bind].
      destruct (summary_to_ok (D:=nat) _ _ e Right _ _ _ _ Hsh (rope_wf _ _ Hr) (proj2 H1') (Output:=D) (ahead_place _ _ (proj1 H1')) Hsk)
        as (c2 & -> & Hc2). cbn [mbind res_bind fst snd]. rewrite Hps in *. rewrite Hlo in Hc2.
      pose proof (walk_arrived _ _ _ _ _ _ _ H1' E2 Hc2) as H2'.
      assert (Forall piece mid) as Hmidp.
      { destruct (pieces_parts _ _ (proj1 H1')) as [_ Hp]. rewrite E2 in Hp. by apply Forall_app in Hp as [Hp _]. }
      rewrite advance_pieces, measure_nil, from_chunk_measure, !add_assign_measure by
        (done || apply Hfit || constructor || by apply pieces_utf8 || (apply utf8_app; [constructor|apply Hfit])).
      destruct (stands_reads _ _ _ H2') as (-> & _ & _).
      destruct post2 as [|t2 post2]; cbn [head fmap option_fmap option_map mbind res_bind].
      * exists (mkCursor r c2 e). split; [|by eapply cursor_at_intro]. cbn [last_part app]. by rewrite app_nil_r.
      * destruct (read_last _ _ _ _ _ H2' Ha' Hbe) as [-> Hfit2]. cbn [mbind res_bind].
        eexists. split; [|by eapply cursor_at_intro].
        rewrite from_chunk_measure, add_assign_measure by
          (apply Hfit2 || (apply utf8_app; [apply utf8_app; [constructor|apply Hfit]|by apply pieces_utf8])).
        cbn [app]. by rewrite <-app_assoc.
Qed.
End Cursors.

(** ** The operations on ropes *)
Section Operations.
Context (par : par_chunks_type) (Hpar : collects_chunks par).

(** The parts of a slice are shallow enough to be appended. *)
Definition slice_shallow (r : Rope) (o e : nat) : Prop := forall c1 c2,
  rope_cursor r 0 = Ret c1 -> cursor_seek_forward c1 o = Ret c2 -> middle_shallow c2 e.

Theorem rope_slice_spec r ts o e :
  rope_of r ts -> shallow r -> o <= e <= length (concat ts) -> boundary (concat ts) o -> boundary (concat ts) e ->
  slice_shallow r o e ->
  exists r' ts', rope_slice r o e = Ret r' /\ rope_of r' ts' /\ concat ts' = take (e - o) (drop o (concat ts)).
Proof.
  intros Hr Hsh He Hbo Hbe Hm. unfold rope_slice.
  destruct (rope_cursor_spec r ts Hr Hsh 0) as (c1 & E1 & H1); [lia|]. rewrite E1. cbn [mbind res_bind].
  destruct (cursor_seek_forward_spec r ts Hr Hsh c1 0 o H1) as (c2 & E2 & H2); [lia|]. rewrite E2. cbn [mbind res_bind].
  destruct (cursor_slice_spec r ts Hr Hsh c2 o e H2 He Hbo Hbe (Hm c1 c2 E1 E2)) as (part & ts' & c3 & -> & H3 & E & _).
  by exists part, ts'.
Qed.

(** The same for the two slices [replace] takes. *)
Definition replace_shallow (r : Rope) (o e : nat) : Prop := forall c0 part c1 c2,
  rope_cursor r 0 = Ret c0 -> middle_shallow c0 o
  /\ (cursor_slice c0 o = Ret (part, c1) -> shallow part
      /\ (cursor_seek_forward c1 e = Ret c2 -> middle_shallow c2 (rope_len r)
          /\ forall rest, cursor_suffix c2 = Ret rest -> shallow rest)).

Theorem replace_spec r ts o e s :
  rope_of r ts -> shallow r -> o <= e <= length (concat ts) -> boundary (concat ts) o -> boundary (concat ts) e ->
  utf8 s -> replace_shallow r o e ->
  exists r' ts', replace par r o e s = Ret r' /\ rope_of r' ts'
    /\ concat ts' = take o (concat ts) ++ s ++ drop e (concat ts).
Proof.
  intros Hr Hsh He Hbo Hbe Hs Hm. unfold replace.
  destruct (rope_cursor_spec r ts Hr Hsh 0) as (c0 & E0 & H0); [lia|]. rewrite E0. cbn [mbind res_bind].
  destruct (Hm c0 rope_new c0 c0 E0) as [Hm0 _].
  destruct (cursor_slice_spec r ts Hr Hsh c0 0 o H0) as (part & ts1 & c1 & E1 & Hp1 & C1 & H1); try done; [lia|].
  rewrite E1. cbn [mbind res_bind fst snd]. destruct (Hm c0 part c1 c1 E0) as [_ Hm1]. destruct (Hm1 E1) as [Hsp _].
  destruct (append_rope_spec rope_new part [] ts1 rope_new_of Hp1 Hsp) as (new & ts2 & -> & Hn & C2). cbn [mbind res_bind].
  destruct (cursor_seek_forward_spec r ts Hr Hsh c1 o e H1 He) as (c2 & E2 & H2). rewrite E2. cbn [mbind res_bind].
  destruct (push_spec par Hpar new ts2 s Hn Hs) as (new' & ts3 & -> & Hn' & C3). cbn [mbind res_bind].
  destruct (Hm c0 part c1 c2 E0) as [_ Hm2]. destruct (Hm2 E1) as [_ Hm3]. destruct (Hm3 E2) as [Hm4 Hm5].
  assert (extent (rope_chunks (cursor_rope c2)) = length (concat ts)) as El
    by (rewrite (at_rope _ _ _ _ H2); apply (rope_len_of _ _ Hr)).
  rewrite (rope_len_of _ _ Hr) in Hm4.
  destruct (cursor_slice_spec r ts Hr Hsh c2 e (length (concat ts)) H2) as (rest & ts4 & c3 & E4 & Hp4 & C4 & _);
    try done; try lia; [apply boundary_length|].
  assert (cursor_suffix c2 = Ret rest) as E5 by (unfold cursor_suffix; by rewrite El, E4).
  rewrite E5. cbn [mbind res_bind].
  destruct (append_rope_spec new' rest ts3 ts4 Hn' Hp4 (Hm5 rest E5)) as (r' & ts5 & -> & Hr' & C5).
  exists r', ts5. split_and!; [done..|]. rewrite C5, C3, C2, C1, C4, drop_0, Nat.sub_0_r. cbn [concat app].
  rewrite <-app_assoc. do 2 f_equal. apply take_ge. rewrite length_drop. lia.
Qed.

(** [suffix] after [cursor]. *)
Theorem cursor_suffix_spec r ts c o :
  rope_of r ts -> shallow r -> cursor_at r ts c o -> o <= length (concat ts) -> boundary (concat ts) o ->
  middle_shallow c (rope_len r) ->
  exists r' ts', cursor_suffix c = Ret r' /\ rope_of r' ts' /\ concat ts' = drop o (concat ts).
Proof.
  intros Hr Hsh Hc Ho Hb Hm. unfold cursor_suffix. rewrite (at_rope _ _ _ _ Hc). fold (rope_len r).
  rewrite (rope_len_of _ _ Hr) in *.
  destruct (cursor_slice_spec r ts Hr Hsh c o (length (concat ts)) Hc) as (rest & ts' & c' & -> & Hp & C & _);
    try done; try lia; [apply boundary_length|].
  exists rest, ts'. split_and!; [done..|]. rewrite C. apply take_ge. rewrite length_drop. lia.
Qed.

Theorem rope_from_spec s : utf8 s -> exists r ts, rope_from par s = Ret r /\ rope_of r ts /\ concat ts = s.
Proof. intros Hs. destruct (push_spec par Hpar rope_new [] s rope_new_of Hs) as (r & ts & ? & ? & ?). by exists r, ts. Qed.

Theorem rope_collect_spec r ts (texts : list str) :
  rope_of r ts -> Forall utf8 texts ->
  exists r' ts', rope_collect par r texts = Ret r' /\ rope_of r' ts' /\ concat ts' = concat ts ++ concat texts.
Proof.
  intros Hr Hts. revert r ts Hr. induction Hts as [|s texts Hs Hts IH]; intros r ts Hr; cbn [rope_collect concat].
  - exists r, ts. by rewrite app_nil_r.
  - destruct (push_spec par Hpar r ts s Hr Hs) as (r' & ts' & -> & Hr' & E). cbn [mbind res_bind].
    destruct (IH r' ts' Hr') as (r'' & ts'' & -> & Hr'' & E'). exists r'', ts''. by rewrite E', E, app_assoc.
Qed.

Theorem push_front_spec r ts s :
  rope_of r ts -> utf8 s -> shallow r ->
  exists r' ts', push_front par r s = Ret r' /\ rope_of r' ts' /\ concat ts' = s ++ concat ts.
Proof.
  intros Hr Hs Hsh. unfold push_front. destruct (Nat.eqb_spec (length s) 0) as [E0|E0].
  { destruct s; [|done]. by exists r, ts. }
  unfold rope_is_empty. rewrite (rope_len_of _ _ Hr). destruct (Nat.eqb_spec (length (concat ts)) 0) as [E1|E1].
  { destruct (push_spec par Hpar r ts s Hr Hs) as (r' & ts' & -> & Hr' & E). exists r', ts'. split_and!; [done..|].
    rewrite E. by destruct (concat ts); [rewrite app_nil_r|]. }
  assert (exists r' ts', (front ← rope_from par s; append front r) = Ret r' /\ rope_of r' ts' /\ concat ts' = s ++ concat ts) as Happ.
  { destruct (rope_from_spec s Hs) as (f & tf & -> & Hf & Ef). cbn [mbind res_bind].
    destruct (append_rope_spec f r tf ts Hf Hr Hsh) as (r' & ts' & -> & Hr' & E). exists r', ts'. by rewrite E, Ef. }
  rewrite (first_ok _ _ (rope_wf _ _ Hr)), (rope_list _ _ Hr), head_map_chunk. cbn [mbind res_bind].
  destruct ts as [|t ts]; cbn [head fmap option_fmap option_map]; [done|]. change (chunk_text (chunk_of t)) with t.
  destruct (Nat.leb_spec (length t + length s) MAX_BASE); [|done].
  pose proof (rope_pieces _ _ Hr) as Hp. pose proof (Forall_inv Hp) as Ht. pose proof (Forall_inv_tail Hp) as Hp'.
  unfold prepend_str. rewrite new_fits by (split; [done|lia]). cbn [mbind res_bind].
  rewrite prepend_spec by (done || lia). destruct (Nat.leb_spec (length s + length t) MAX_BASE); [|lia].
  rewrite orb_true_r. cbn [mbind res_bind].
  destruct (update_first_ok _ _ (fun _ => chunk_of (s ++ t)) (rope_wf _ _ Hr)) as (t' & -> & Hw' & Hl').
  exists (mkRope t'), ((s ++ t) :: ts). split; [done|]. split; [|cbn; by rewrite <-app_assoc].
  apply (rope_of_intro (height (rope_chunks r))); [done| | |].
  - rewrite Hl', (rope_list _ _ Hr). done.
  - constructor; [|done]. split; [split; [apply utf8_app; [done|apply Ht]|rewrite length_app; lia]|].
    intros [-> _]%app_nil. done.
  - pose proof (rope_filled _ _ Hr) as Hf. apply filled_cons in Hf as [Hl Hf]. apply filled_cons. split; [|done].
    intros Hne. specialize (Hl Hne). unfold long in *. rewrite length_app. lia.
Qed.
End Operations.
