(* ===== verification/RopePositionsSpec.v ===== *)
(** * Ropes: what positions mean

    Each measure of the text before a boundary is the position of that boundary, and
    measures grow strictly with boundaries; so the chunk found for a position is the one
    the boundary is in, and the conversions go from any position of a boundary to any
    other. *)

From S2P Require Import Prelude.
From S2P Require Import SumTree.
From S2P Require Import SumCursor.
From S2P Require Import SumTreeInvariant.
From S2P Require Import SumTreeFind.
From S2P Require Import SumCursorSeek.
From S2P Require Import SumCursorSearch.
From S2P Require Import Text.
From S2P Require Import TextSpec.
From S2P Require Import Bits.
From S2P Require Import Utf8.
From S2P Require Import Chunk.
From S2P Require Import ChunkSpec.
From S2P Require Import ChunkPositions.
From S2P Require Import Rope.
From S2P Require Import RopePositions.
From S2P Require Import RopeSpec.
From S2P Require Import RopeCursorSpec.
Local Open Scope nat_scope.

#[local] Arguments summary_of : simpl never.

Implicit Types (s t : str) (ts pre post : list str) (r : Rope) (o e : nat).

(** ** Positions *)

(** The position of a boundary, in any measure. *)
Definition at_ {D} `{TextMeasure D} s o : D := measure (take o s).

(** A measure that tells boundaries apart, in order. *)
Class Position (D : Type) `{TextMeasure D} `{!SeekTarget D D} := {
  at_cmp s o o' : utf8 s -> boundary s o -> boundary s o' -> target_cmp (at_ (D:=D) s o) (at_ s o') = (o ?= o');
}.

Lemma boundary_lt_take s o o' : utf8 s -> boundary s o -> boundary s o' -> o < o' ->
  exists x, utf8 x /\ x <> [] /\ take o' s = take o s ++ x /\ utf8 (take o s).
Proof.
  intros Hs Hb Hb' Hlt. exists (take (o' - o) (drop o s)). destruct (boundary_split _ _ Hs Hb) as (Ho & Ht & Hd).
  destruct (boundary_split _ _ Hs Hb') as (Ho' & Ht' & _).
  assert (take o' s = take o s ++ take (o' - o) (drop o s)) as E.
  { rewrite <-(take_drop o s) at 1. replace o' with (length (take o s) + (o' - o)) at 1 by (rewrite length_take_le; lia).
    by rewrite take_app_add. }
  split_and!; [|intros Ex; apply (f_equal length) in Ex; rewrite length_take, length_drop in Ex; cbn in Ex; lia|done|done].
  rewrite E in Ht'. by eapply utf8_app_inv_l.
Qed.

(** From strictly growing to telling apart. *)
Lemma strict_cmp {D} `{TextMeasure D} `{!SeekTarget D D} :
  (forall (d : D), target_cmp d d = Eq) ->
  (forall d d' : D, target_cmp d d' = Lt -> target_cmp d' d = Gt) ->
  (forall s x, utf8 s -> utf8 x -> x <> [] -> target_cmp (measure (D:=D) s) (measure (s ++ x)) = Lt) ->
  Position D.
Proof.
  intros Hrefl Hanti Hlt. split. intros s o o' Hs Hb Hb'. unfold at_.
  destruct (Nat.compare_spec o o') as [->|Ho|Ho]; [apply Hrefl| |].
  - destruct (boundary_lt_take s o o' Hs Hb Hb' Ho) as (x & Hx & Hn & -> & Ht). by apply Hlt.
  - destruct (boundary_lt_take s o' o Hs Hb' Hb Ho) as (x & Hx & Hn & -> & Ht). apply Hanti. by apply Hlt.
Qed.

Lemma units_pos s : utf8 s -> s <> [] -> 0 < ones (utf16s s) /\ 0 < length s.
Proof.
  destruct 1 as [|c b rest t Hc Ht]; [done|]. intros _. rewrite utf16s_app by by eapply char_utf8.
  rewrite ones_app, (char_utf16s _ _ _ Hc), length_app. destruct (utf8_char_inv _ _ _ Hc).
  unfold char_len_utf16. case_match; lia.
Qed.

#[export] Instance len_position : Position nat.
Proof.
  apply strict_cmp; unfold target_cmp, len_target; intros.
  - apply Nat.compare_refl.
  - by apply Nat.compare_gt_iff, Nat.compare_lt_iff.
  - apply Nat.compare_lt_iff. cbn. rewrite length_app. destruct (units_pos x); (done || lia).
Qed.
#[export] Instance utf16_position : Position OffsetUtf16.
Proof.
  apply strict_cmp; unfold target_cmp, utf16_target; intros.
  - apply Nat.compare_refl.
  - by apply Nat.compare_gt_iff, Nat.compare_lt_iff.
  - apply Nat.compare_lt_iff. cbn. rewrite summary_of_app, add_len_utf16 by done.
    rewrite (sum_utf16 (summary_of x) x) by by apply summary_of_marks. destruct (units_pos x); (done || lia).
Qed.

Lemma point_cmp_lt (p q : Point) : point_ord p q = Lt <-> row p < row q \/ row p = row q /\ column p < column q.
Proof. unfold point_ord. destruct (Nat.compare_spec (row p) (row q)); [rewrite Nat.compare_lt_iff| |]; split; intros; try done; lia. Qed.
Lemma point_utf16_cmp_lt (p q : PointUtf16) :
  point_utf16_ord p q = Lt <-> row16 p < row16 q \/ row16 p = row16 q /\ column16 p < column16 q.
Proof. unfold point_utf16_ord. destruct (Nat.compare_spec (row16 p) (row16 q)); [rewrite Nat.compare_lt_iff| |]; split; intros; try done; lia. Qed.
Lemma point_cmp_flip (p q : Point) : point_ord p q = CompOpp (point_ord q p).
Proof.
  unfold point_ord. rewrite (Nat.compare_antisym (row q)), (Nat.compare_antisym (column q)).
  by destruct (row q ?= row p).
Qed.
Lemma point_utf16_cmp_flip (p q : PointUtf16) : point_utf16_ord p q = CompOpp (point_utf16_ord q p).
Proof.
  unfold point_utf16_ord. rewrite (Nat.compare_antisym (row16 q)), (Nat.compare_antisym (column16 q)).
  by destruct (row16 q ?= row16 p).
Qed.

Lemma column_pos x : utf8 x -> x <> [] -> ones (newlines x) = 0 ->
  0 < column (lines (summary_of x)) /\ 0 < last_line_len_utf16 (summary_of x) /\ row (lines (summary_of x)) = 0.
Proof.
  intros Hx Hn H0. pose proof (summary_of_marks _ Hx) as M. rewrite (sum_column _ _ M), (sum_last_utf16 _ _ M), (sum_row _ _ M).
  rewrite after_last_zero, drop_0 by done. destruct (units_pos x Hx Hn). lia.
Qed.

#[export] Instance point_position : Position Point.
Proof.
  apply strict_cmp; unfold target_cmp, point_target; intros.
  - unfold point_ord. by rewrite !Nat.compare_refl.
  - rewrite point_cmp_flip. by destruct (point_ord d d').
  - apply point_cmp_lt. cbn. rewrite summary_of_app, add_lines by done. unfold point_add.
    destruct (Nat.eqb_spec (row (lines (summary_of x))) 0) as [E|]; cbn; [|lia].
    rewrite (sum_row _ _ (summary_of_marks _ ltac:(done))) in E. destruct (column_pos x); (done || lia).
Qed.
#[export] Instance point_utf16_position : Position PointUtf16.
Proof.
  apply strict_cmp; unfold target_cmp, point_utf16_target; intros.
  - unfold point_utf16_ord. by rewrite !Nat.compare_refl.
  - rewrite point_utf16_cmp_flip. by destruct (point_utf16_ord d d').
  - apply point_utf16_cmp_lt. cbn [measure point_utf16_measure]. rewrite summary_of_app, add_lines_utf16 by done. unfold point_utf16_add. cbn.
    destruct (Nat.eqb_spec (row (lines (summary_of x))) 0) as [E|]; cbn; [|lia].
    rewrite (sum_row _ _ (summary_of_marks _ ltac:(done))) in E. destruct (column_pos x); (done || lia).
Qed.

(** ** Finding the chunk of a position *)
Section Find.
Context {E : Type} `{TextMeasure E} {Target : Type} `{!SeekTarget Target E}.
Context (r : Rope) (ts : list str) (Hr : rope_of r ts) (target : Target) (o : nat).
Notation s := (concat ts).
Context (Hcmp : forall o', boundary s o' -> target_cmp target (measure (D:=E) (take o' s)) = (o ?= o')).

Lemma piece_start pre post : ts = pre ++ post ->
  boundary s (length (concat pre)) /\ take (length (concat pre)) s = concat pre.
Proof.
  intros E'. pose proof (rope_pieces _ _ Hr) as Hp. rewrite E' in Hp. apply Forall_app in Hp as [H1 H2].
  rewrite E', concat_app. split; [by apply boundary_between, pieces_utf8|apply take_app_length].
Qed.

Lemma cmp_pieces pre post : ts = pre ++ post ->
  target_cmp target (advance (D:=E) dim_zero (map chunk_of pre)) = (o ?= length (concat pre)).
Proof.
  intros E'. destruct (piece_start pre post E') as [Hb Ht]. rewrite advance_pieces.
  - rewrite <-(Hcmp _ Hb). by rewrite Ht.
  - pose proof (rope_pieces _ _ Hr) as Hp. rewrite E' in Hp. by apply Forall_app in Hp as [? _].
Qed.

Lemma position_ordered : ordered (D:=E) target dim_zero (map chunk_of ts).
Proof.
  intros p q l E' _. rewrite app_assoc in E'. apply map_chunk_split in E' as (a & post & E1 & E2 & _).
  symmetry in E2. apply map_chunk_split in E2 as (a1 & a2 & -> & -> & ->).
  rewrite <-map_app, (cmp_pieces _ post E1), (cmp_pieces a1 (a2 ++ post)) by (by rewrite app_assoc).
  rewrite concat_app, length_app.
  destruct (Nat.compare_spec o (length (concat a1) + length (concat a2))), (Nat.compare_spec o (length (concat a1))); cbn; lia.
Qed.

(** The piece a scan for the position stops at. *)
Definition in_piece (bias : Bias) pre t post : Prop :=
  ts = pre ++ t :: post /\ length (concat pre) <= o <= length (concat pre) + length t
  /\ (bias = Right -> o < length (concat pre) + length t).

Lemma stop_piece bias pre t post :
  ts = pre ++ t :: post ->
  (map chunk_of pre <> [] -> target_in target bias (advance (D:=E) dim_zero (map chunk_of pre)) = false) ->
  target_in target bias (advance (D:=E) dim_zero (map chunk_of (pre ++ [t]))) = true ->
  in_piece bias pre t post.
Proof.
  intros E' H1 H2. unfold target_in in *. rewrite (cmp_pieces (pre ++ [t]) post) in H2 by (by rewrite <-app_assoc).
  rewrite concat_app, length_app in H2. cbn [concat] in H2. rewrite app_nil_r in H2. split; [done|].
  assert (length (concat pre) <= o) as Hle.
  { destruct pre as [|a pre]; [cbn; lia|]. specialize (H1 ltac:(done)). rewrite (cmp_pieces _ _ E') in H1.
    destruct (Nat.compare_spec o (length (concat (a :: pre)))), bias; (done || lia). }
  destruct (Nat.compare_spec o (length (concat pre) + length t)), bias; try done; split; try done; lia.
Qed.

Lemma pieces_nonempty bias : o < length s \/ bias = Left /\ o <= length s /\ ts <> [] -> map chunk_of ts <> [].
Proof. clear. destruct ts; [cbn; naive_solver lia|done]. Qed.

Lemma find_position bias :
  o < length s \/ bias = Left /\ o <= length s /\ ts <> [] ->
  exists pre t post, in_piece bias pre t post
    /\ find (D:=E) target bias (rope_chunks r) = (measure (concat pre), measure (concat pre ++ t), Some (chunk_of t)).
Proof.
  intros Ho. rewrite (find_ok _ _ _ _ (rope_wf _ _ Hr)) by (rewrite (rope_list _ _ Hr); apply position_ordered).
  rewrite (rope_list _ _ Hr).
  destruct (found_cases (D:=E) target bias (map chunk_of ts)) as [(l1 & x & l2 & E1 & -> & H1 & H2)|[_ Hno]].
  - apply map_chunk_split in E1 as (pre & post & E2 & -> & E3). destruct post as [|t post]; [done|].
    cbn [map] in E3. injection E3 as -> ->. change [chunk_of t] with (map chunk_of [t]) in *. rewrite <-map_app in *.
    exists pre, t, post. pose proof (rope_pieces _ _ Hr) as Hp. rewrite E2 in Hp.
    apply Forall_app in Hp as [Hp Hp2]. pose proof (Forall_inv Hp2) as Ht. split; [by apply stop_piece|].
    rewrite !advance_pieces by (done || (apply Forall_app; split; [done|by constructor])).
    rewrite concat_app. cbn [concat]. by rewrite app_nil_r.
  - specialize (Hno (pieces_nonempty bias Ho)).
    unfold target_in in Hno. rewrite (cmp_pieces ts []) in Hno by (by rewrite app_nil_r).
    destruct (Nat.compare_spec o (length s)), bias; destruct Ho as [Ho|(Hl & Ho & _)]; (done || lia).
Qed.

(** The same with a cursor. *)
Lemma seek_position bias :
  shallow r -> o < length s ->
  exists pre t post c b, in_piece bias pre t post
    /\ seek (cursor_new (D:=E) (rope_chunks r)) target bias = Ret (b, c)
    /\ start c = measure (concat pre) /\ item c = Ret (Some (chunk_of t)).
Proof.
  intros Hsh Ho.
  destruct (seek_ok (D:=E) _ _ target bias _ _ Hsh (rope_wf _ _ Hr) (new_at_place _ _)) as (c & Ec & Hc).
  { rewrite (rope_list _ _ Hr). split; [|apply position_ordered].
    intros Hlt. pose proof (cmp_pieces [] ts eq_refl) as E0. cbn [map concat length] in E0. rewrite E0 in Hlt. by destruct o. }
  rewrite (rope_list _ _ Hr) in *.
  pose proof (before_stops (D:=E) target bias dim_zero (map chunk_of ts)) as [H1 H2].
  destruct (before_chunks (D:=E) target bias dim_zero ts) as (pre & post & E2 & Eb & Ed). rewrite Ed in *. rewrite Eb in *.
  pose proof (rope_pieces _ _ Hr) as Hp. pose proof Hp as Hp'. rewrite E2 in Hp'. apply Forall_app in Hp' as [Hp1 Hp2].
  destruct post as [|t post]; cbn [map place_of] in *.
  - exfalso. rewrite app_nil_r in E2. subst pre. 
    specialize (H1 (pieces_nonempty bias (or_introl Ho))). unfold target_in in H1. rewrite (cmp_pieces ts []) in H1 by (by rewrite app_nil_r).
    destruct (Nat.compare_spec o (length s)), bias; (done || lia).
  - exists pre, t, post, c. eexists. change [chunk_of t] with (map chunk_of [t]) in H2. rewrite <-map_app in H2.
    split; [by apply stop_piece|]. split; [exact Ec|]. rewrite (start_ok _ _ _ _ Hc), (item_ok _ _ _ _ Hc).
    split; [by apply advance_pieces|done].
Qed.
End Find.

(** ** The conversions *)
Lemma rope_summary_of r ts : rope_of r ts -> rope_summary r = summary_of (concat ts).
Proof.
  intros Hr. unfold rope_summary. rewrite (node_summary_total _ _ (rope_wf _ _ Hr)), (rope_list _ _ Hr).
  rewrite <-(add_zero_left (summary_text _)) by apply summary_valid.
  change (dim_add (D:=TextSummary) dim_zero (total (map chunk_of ts)) = summary_of (concat ts)).
  rewrite dim_zero_total. exact (advance_pieces (D:=TextSummary) ts (rope_pieces _ _ Hr)).
Qed.

Lemma at_end {D} `{TextMeasure D} s : at_ (D:=D) s (length s) = measure s.
Proof. unfold at_. by rewrite take_ge. Qed.

Section Convert.
Context (r : Rope) (ts : list str) (Hr : rope_of r ts) (o : nat).
Notation s := (concat ts).
Context (Hb : boundary s o).

Lemma text_utf8 : utf8 s.
Proof. apply pieces_utf8, Hr. Qed.
Lemma offset_le : o <= length s.
Proof. by apply boundary_le; [apply text_utf8|]. Qed.

(** The boundary inside the piece found. *)
Lemma inside bias pre t post :
  in_piece ts o bias pre t post ->
  fits t /\ utf8 (concat pre) /\ boundary t (o - length (concat pre))
  /\ utf8 (take (o - length (concat pre)) t)
  /\ take o s = concat pre ++ take (o - length (concat pre)) t.
Proof.
  intros (E & Ho & _). pose proof (rope_pieces _ _ Hr) as Hp. rewrite E in Hp. apply Forall_app in Hp as [Hp Hp2].
  pose proof (Forall_inv Hp2) as Ht. pose proof (Forall_inv_tail Hp2) as Hpost.
  rewrite E, concat_app in Hb |- *. cbn [concat] in *. pose proof (pieces_utf8 _ Hp) as Hu.
  assert (boundary t (o - length (concat pre))) as Hbt.
  { apply (piece_boundary (concat pre) t (concat post)); try done; [apply Ht|by apply pieces_utf8| |lia].
    by replace (length (concat pre) + (o - length (concat pre))) with o by lia. }
  split_and!; [apply Ht|done|done| |].
  - by destruct (boundary_split _ _ (fits_utf8 _ (piece_fits _ Ht)) Hbt) as (_ & ? & _).
  - replace o with (length (concat pre) + (o - length (concat pre))) at 1 by lia.
    rewrite take_app_add, take_app_le by lia. done.
Qed.

Lemma cmp_first {D1 D2} `{Position D1} `{TextMeasure D2} o' :
  boundary s o' -> target_cmp (at_ (D:=D1) s o) (measure (D:=Dimensions D1 D2 unit) (take o' s)) = (o ?= o').
Proof. intros Hb'. cbn. unfold target_cmp at 1, dimensions_target. cbn. by apply at_cmp; [apply text_utf8|..]. Qed.

Lemma cmp_same {D} `{Position D} o' : boundary s o' -> target_cmp (at_ (D:=D) s o) (measure (take o' s)) = (o ?= o').
Proof. intros Hb'. by apply at_cmp; [apply text_utf8|..]. Qed.

(** Early returns: a position not before the end is that of the end. *)
Lemma past_end (b : bool) : (b = true <-> length s <= o) -> b = true -> o = length s.
Proof. intros H1 H2. apply H1 in H2. pose proof offset_le. lia. Qed.

Lemma len_test : (len (rope_summary r) <=? o) = true <-> length s <= o.
Proof. rewrite (rope_summary_of _ _ Hr), (sum_len _ _ (summary_of_marks _ text_utf8)). apply Nat.leb_le. Qed.
Lemma utf16_test : (len_utf16 (rope_summary r) <=? units (at_ s o)) = true <-> length s <= o.
Proof.
  rewrite (rope_summary_of _ _ Hr). pose proof (at_cmp (D:=OffsetUtf16) s o (length s) text_utf8 Hb (boundary_len s)) as E.
  rewrite at_end in E. unfold target_cmp, utf16_target in E. cbn [measure utf16_measure units] in E.
  destruct (Nat.leb_spec (len_utf16 (summary_of s)) (units (at_ s o))), (Nat.compare_spec o (length s)); split; intros; try done; try lia.
  all: try (apply Nat.compare_gt_iff in E; lia); try (apply Nat.compare_lt_iff in E; lia); try (apply Nat.compare_eq_iff in E; lia).
Qed.
Lemma point_test : point_ge (at_ s o) (lines (rope_summary r)) = true <-> length s <= o.
Proof.
  rewrite (rope_summary_of _ _ Hr). pose proof (at_cmp (D:=Point) s o (length s) text_utf8 Hb (boundary_len s)) as E.
  rewrite at_end in E. unfold target_cmp, point_target in E. cbn [measure point_measure] in E. unfold point_ge. rewrite E.
  destruct (Nat.compare_spec o (length s)); split; intros; (done || lia).
Qed.
Lemma point_utf16_test : point_utf16_ge (at_ s o) (lines_utf16 (rope_summary r)) = true <-> length s <= o.
Proof.
  rewrite (rope_summary_of _ _ Hr). pose proof (at_cmp (D:=PointUtf16) s o (length s) text_utf8 Hb (boundary_len s)) as E.
  rewrite at_end in E. unfold target_cmp, point_utf16_target in E. cbn [measure point_utf16_measure] in E. unfold point_utf16_ge. rewrite E.
  destruct (Nat.compare_spec o (length s)); split; intros; (done || lia).
Qed.

(** The rest of a point after the position it is behind. *)
Lemma point_sub_add (a b : Point) : point_sub (point_add a b) a = b.
Proof.
  destruct a as [ar ac], b as [br bc]. unfold point_sub, point_add. cbn. destruct (Nat.eqb_spec br 0) as [->|]; cbn.
  - rewrite Nat.eqb_refl. f_equal. lia.
  - case_match; rewrite ?Nat.eqb_eq, ?Nat.eqb_neq in *; f_equal; lia.
Qed.
Lemma point_utf16_sub_add (a b : PointUtf16) : point_utf16_sub (point_utf16_add a b) a = b.
Proof.
  destruct a as [ar ac], b as [br bc]. unfold point_utf16_sub, point_utf16_add. cbn. destruct (Nat.eqb_spec br 0) as [->|]; cbn.
  - rewrite Nat.eqb_refl. f_equal. lia.
  - case_match; rewrite ?Nat.eqb_eq, ?Nat.eqb_neq in *; f_equal; lia.
Qed.
Lemma row_utf16 (a : TextSummary) : row16 (lines_utf16 a) = row (lines a).
Proof. done. Qed.

(** Opens a conversion: past the end, or in the chunk found. *)
Ltac past_end test :=
  match goal with |- context [if ?b then _ else _] =>
    destruct b eqn:Etest; [apply test in Etest|assert (~ length s <= o) as Hlt by (rewrite <-test, Etest; done)]
  end.

Lemma offset_end : length s <= o -> take o s = s.
Proof. apply take_ge. Qed.

Lemma add_sub_l (a b : nat) : a + b - a = b.
Proof. lia. Qed.

Lemma at_len : at_ (D:=nat) s o = o.
Proof. unfold at_. cbn. apply length_take_le, offset_le. Qed.

Lemma find_pair {D1 D2} `{Position D1} `{TextMeasure D2} bias :
  ~ length s <= o ->
  exists pre t post (pos : pair D1 D2), in_piece ts o bias pre t post
    /\ find (D:=pair D1 D2) (at_ (D:=D1) s o) bias (rope_chunks r)
       = (Dims (measure (concat pre)) (measure (concat pre)) tt, pos, Some (chunk_of t)).
Proof.
  intros Hlt. destruct (find_position (E:=pair D1 D2) r ts Hr (at_ (D:=D1) s o) o) with (bias := bias)
    as (pre & t & post & Hin & E); [by intros; apply cmp_first|lia|].
  exists pre, t, post. eexists. by split.
Qed.

Lemma seek_pair {D1 D2} `{Position D1} `{TextMeasure D2} bias :
  shallow r -> ~ length s <= o ->
  exists pre t post c b, in_piece ts o bias pre t post
    /\ seek (cursor_new (D:=pair D1 D2) (rope_chunks r)) (at_ (D:=D1) s o) bias = Ret (b, c)
    /\ start c = Dims (measure (concat pre)) (measure (concat pre)) tt /\ item c = Ret (Some (chunk_of t)).
Proof.
  intros Hsh Hlt.
  destruct (seek_position (E:=pair D1 D2) r ts Hr (at_ (D:=D1) s o) o) with (bias := bias)
    as (pre & t & post & c & b & Hin & E1 & E2 & E3); [by intros; apply cmp_first|done|lia|].
  by exists pre, t, post, c, b.
Qed.

(** The position of the boundary, from the chunk's start and inside the chunk. *)
Lemma at_split {D} `{TextMeasure D} `{!TextDimension D} `{!TextDimensionLaws D} bias pre t post :
  in_piece ts o bias pre t post ->
  at_ (D:=D) s o = add_assign (measure (concat pre)) (at_ t (o - length (concat pre))).
Proof.
  intros Hin. destruct (inside _ _ _ _ Hin) as (Hft & Hu & Hbt & Hut & Et). unfold at_ at 1. rewrite Et.
  by rewrite <-add_assign_measure.
Qed.

Ltac opened Hin := destruct (inside _ _ _ _ Hin) as (Hft & Hu & Hbt & Hut & Et).

Theorem offset_to_point_ok : rope_offset_to_point r o = at_ s o.
Proof.
  unfold rope_offset_to_point. past_end len_test.
  - rewrite (rope_summary_of _ _ Hr). unfold at_. by rewrite offset_end.
  - destruct (find_pair (D1:=nat) (D2:=Point) Left Hlt) as (pre & t & post & pos & Hin & E). rewrite at_len in E. rewrite E.
    opened Hin. cbn [dim1 dim2]. rewrite (at_split _ _ _ _ Hin). cbn [add_assign point_text_dimension].
    f_equal. by apply offset_to_point_spec.
Qed.

Theorem offset_to_point_utf16_ok : rope_offset_to_point_utf16 r o = at_ s o.
Proof.
  unfold rope_offset_to_point_utf16. past_end len_test.
  - rewrite (rope_summary_of _ _ Hr). unfold at_. by rewrite offset_end.
  - destruct (find_pair (D1:=nat) (D2:=PointUtf16) Left Hlt) as (pre & t & post & pos & Hin & E). rewrite at_len in E. rewrite E.
    opened Hin. cbn [dim1 dim2]. rewrite (at_split _ _ _ _ Hin). cbn [add_assign point_utf16_text_dimension].
    f_equal. by apply offset_to_point_utf16_spec.
Qed.

Theorem offset_to_offset_utf16_ok : mkOffsetUtf16 (rope_offset_to_offset_utf16 r o) = at_ s o.
Proof.
  unfold rope_offset_to_offset_utf16. past_end len_test.
  - rewrite (rope_summary_of _ _ Hr). unfold at_. by rewrite offset_end.
  - destruct (find_pair (D1:=nat) (D2:=OffsetUtf16) Left Hlt) as (pre & t & post & pos & Hin & E). rewrite at_len in E. rewrite E.
    opened Hin. cbn [dim1 dim2]. rewrite (at_split _ _ _ _ Hin). cbn [add_assign utf16_text_dimension].
    do 2 f_equal. by apply offset_to_offset_utf16_spec.
Qed.

Theorem offset_utf16_to_offset_ok : rope_offset_utf16_to_offset r (at_ s o) = o.
Proof.
  unfold rope_offset_utf16_to_offset. past_end utf16_test.
  - pose proof offset_le. rewrite (rope_summary_of _ _ Hr), (sum_len _ _ (summary_of_marks _ text_utf8)). lia.
  - destruct (find_pair (D1:=OffsetUtf16) (D2:=nat) Left Hlt) as (pre & t & post & pos & Hin & ->).
    opened Hin. cbn [dim1 dim2]. rewrite (at_split _ _ _ _ Hin). cbn [add_assign utf16_text_dimension units].
    rewrite add_sub_l. change (units (at_ t ?i)) with (utf16_at t i).
    rewrite offset_utf16_to_offset_spec by done. destruct Hin as (_ & Ho & _). cbn [measure len_measure]. lia.
Qed.

Theorem point_to_offset_ok `{DebugAssertions} : rope_point_to_offset r (at_ s o) = Ret o.
Proof.
  unfold rope_point_to_offset. past_end point_test.
  - pose proof offset_le. rewrite (rope_summary_of _ _ Hr), (sum_len _ _ (summary_of_marks _ text_utf8)). f_equal. lia.
  - destruct (find_pair (D1:=Point) (D2:=nat) Left Hlt) as (pre & t & post & pos & Hin & ->).
    opened Hin. cbn [dim1 dim2]. rewrite (at_split _ _ _ _ Hin). cbn [add_assign point_text_dimension].
    rewrite point_sub_add. change (at_ (D:=Point) t ?i) with (point_at t i). rewrite point_to_offset_spec by done.
    destruct Hin as (_ & Ho & _). cbn [measure len_measure mbind res_bind]. f_equal. lia.
Qed.

Theorem point_to_point_utf16_ok `{DebugAssertions} : rope_point_to_point_utf16 r (at_ s o) = Ret (at_ s o).
Proof.
  unfold rope_point_to_point_utf16. past_end point_test.
  - rewrite (rope_summary_of _ _ Hr). unfold at_. by rewrite offset_end.
  - destruct (find_pair (D1:=Point) (D2:=PointUtf16) Left Hlt) as (pre & t & post & pos & Hin & ->).
    opened Hin. cbn [dim1 dim2]. rewrite !(at_split _ _ _ _ Hin). cbn [add_assign point_text_dimension point_utf16_text_dimension].
    rewrite point_sub_add. change (at_ (D:=Point) t ?i) with (point_at t i). by rewrite point_to_point_utf16_spec.
Qed.

Theorem point_utf16_to_offset_ok `{DebugAssertions} clip : point_utf16_to_offset_impl r (at_ s o) clip = Ret o.
Proof.
  unfold point_utf16_to_offset_impl. past_end point_utf16_test.
  - pose proof offset_le. rewrite (rope_summary_of _ _ Hr), (sum_len _ _ (summary_of_marks _ text_utf8)). f_equal. lia.
  - destruct (find_pair (D1:=PointUtf16) (D2:=nat) Left Hlt) as (pre & t & post & pos & Hin & ->).
    opened Hin. cbn [dim1 dim2]. rewrite (at_split _ _ _ _ Hin). cbn [add_assign point_utf16_text_dimension].
    rewrite point_utf16_sub_add. change (at_ (D:=PointUtf16) t ?i) with (point_utf16_at t i).
    rewrite point_utf16_to_offset_spec by done. destruct Hin as (_ & Ho & _). cbn [measure len_measure mbind res_bind]. f_equal. lia.
Qed.

Theorem unclipped_point_utf16_to_point_ok : rope_unclipped_point_utf16_to_point r (at_ s o) = Ret (at_ s o).
Proof.
  unfold rope_unclipped_point_utf16_to_point. past_end point_utf16_test.
  - rewrite (rope_summary_of _ _ Hr). unfold at_. by rewrite offset_end.
  - destruct (find_pair (D1:=PointUtf16) (D2:=Point) Left Hlt) as (pre & t & post & pos & Hin & ->).
    opened Hin. cbn [dim1 dim2]. rewrite !(at_split _ _ _ _ Hin). cbn [add_assign point_text_dimension point_utf16_text_dimension].
    rewrite point_utf16_sub_add. change (at_ (D:=PointUtf16) t ?i) with (point_utf16_at t i).
    by rewrite unclipped_point_utf16_to_point_spec.
Qed.

(** With cursors. *)
Theorem point_to_offset_utf16_ok `{DebugAssertions} : shallow r -> rope_point_to_offset_utf16 r (at_ s o) = Ret (units (at_ s o)).
Proof.
  intros Hsh. unfold rope_point_to_offset_utf16. past_end point_test.
  - rewrite (rope_summary_of _ _ Hr). unfold at_. by rewrite offset_end.
  - destruct (seek_pair (D1:=Point) (D2:=OffsetUtf16) Left Hsh Hlt) as (pre & t & post & c & b & Hin & -> & Es & Ei).
    opened Hin. cbn [mbind res_bind snd]. rewrite Ei, Es. cbn [mbind res_bind dim1 dim2]. rewrite !(at_split _ _ _ _ Hin).
    cbn [add_assign point_text_dimension utf16_text_dimension units]. rewrite point_sub_add.
    change (at_ (D:=Point) t ?i) with (point_at t i). by rewrite point_to_offset_utf16_spec.
Qed.

Theorem point_utf16_to_point_ok `{DebugAssertions} : shallow r -> rope_point_utf16_to_point r (at_ s o) = Ret (at_ s o).
Proof.
  intros Hsh. unfold rope_point_utf16_to_point. past_end point_utf16_test.
  - rewrite (rope_summary_of _ _ Hr). unfold at_. by rewrite offset_end.
  - destruct (seek_pair (D1:=PointUtf16) (D2:=Point) Left Hsh Hlt) as (pre & t & post & c & b & Hin & -> & Es & Ei).
    opened Hin. cbn [mbind res_bind snd]. rewrite Ei, Es. cbn [mbind res_bind dim1 dim2]. rewrite !(at_split _ _ _ _ Hin).
    cbn [add_assign point_text_dimension point_utf16_text_dimension]. rewrite point_utf16_sub_add.
    change (at_ (D:=PointUtf16) t ?i) with (point_utf16_at t i). rewrite point_utf16_to_offset_spec by done.
    cbn [mbind res_bind]. by rewrite offset_to_point_spec.
Qed.

Theorem point_utf16_to_offset_utf16_ok `{DebugAssertions} clip :
  shallow r -> point_utf16_to_offset_utf16_impl r (at_ s o) clip = Ret (units (at_ s o)).
Proof.
  intros Hsh. unfold point_utf16_to_offset_utf16_impl. past_end point_utf16_test.
  - rewrite (rope_summary_of _ _ Hr). unfold at_. by rewrite offset_end.
  - destruct (seek_pair (D1:=PointUtf16) (D2:=OffsetUtf16) Left Hsh Hlt) as (pre & t & post & c & b & Hin & -> & Es & Ei).
    opened Hin. cbn [mbind res_bind snd]. rewrite Ei, Es. cbn [mbind res_bind dim1 dim2]. rewrite !(at_split _ _ _ _ Hin).
    cbn [add_assign point_utf16_text_dimension utf16_text_dimension units]. rewrite point_utf16_sub_add.
    change (at_ (D:=PointUtf16) t ?i) with (point_utf16_at t i). rewrite point_utf16_to_offset_spec by done.
    cbn [mbind res_bind]. by rewrite offset_to_offset_utf16_spec.
Qed.
End Convert.

(** ** Boundaries of a rope *)
Section Boundaries.
Context (r : Rope) (ts : list str) (Hr : rope_of r ts).
Notation s := (concat ts).

Lemma len_cmp (o o' : nat) : boundary s o' -> target_cmp o (measure (D:=nat) (take o' s)) = (o ?= o').
Proof. intros Hb. cbn. rewrite length_take_le; [done|]. apply boundary_le; [by eapply text_utf8|done]. Qed.

(** The chunk of any offset. *)
Lemma find_offset (o : nat) :
  o <= length s -> ts <> [] ->
  exists pre t post pos, in_piece ts o Left pre t post
    /\ find (D:=nat) o Left (rope_chunks r) = (length (concat pre), pos, Some (chunk_of t)).
Proof.
  intros Ho Hne. destruct (find_position (E:=nat) r ts Hr o o (len_cmp o) Left) as (pre & t & post & Hin & E); [by right|].
  exists pre, t, post. eexists. by split.
Qed.

Lemma find_beyond (o : nat) : length s < o \/ ts = [] ->
  exists a b, find (D:=nat) o Left (rope_chunks r) = (a, b, None).
Proof.
  intros Ho. rewrite (find_ok _ _ _ _ (rope_wf _ _ Hr)) by (rewrite (rope_list _ _ Hr); apply (position_ordered r ts Hr o o), len_cmp).
  rewrite (rope_list _ _ Hr).
  destruct (found_cases (D:=nat) o Left (map chunk_of ts)) as [(l1 & x & l2 & E1 & -> & H1 & H2)|[-> _]]; [|by eexists _, _].
  exfalso. apply map_chunk_split in E1 as (pre & post & E2 & -> & E3). destruct post as [|t post]; [done|].
  cbn [map] in E3. injection E3 as -> ->. change [chunk_of t] with (map chunk_of [t]) in *. rewrite <-map_app in *.
  destruct Ho as [Ho|Ho]; [|rewrite Ho in E2; by destruct pre].
  unfold target_in in H2. rewrite (cmp_pieces (E:=nat) r ts Hr o o (len_cmp o) _ post) in H2 by (by rewrite <-app_assoc).
  rewrite E2, concat_app, length_app in Ho. rewrite concat_app, length_app in H2. cbn [concat] in *.
  rewrite length_app in Ho. rewrite app_nil_r in H2.
  destruct (Nat.compare_spec o (length (concat pre) + length t)); (done || lia).
Qed.

(** Boundaries of a piece and of the text. *)
Lemma piece_boundaries (o : nat) bias pre t post j :
  in_piece ts o bias pre t post -> j <= length t ->
  is_char_boundary t j = is_char_boundary s (length (concat pre) + j).
Proof.
  intros (E & _) Hj. pose proof (rope_pieces _ _ Hr) as Hp. rewrite E in Hp. apply Forall_app in Hp as [Hp Hp2].
  pose proof (piece_fits _ (Forall_inv Hp2)) as Ht. pose proof (pieces_utf8 _ (Forall_inv_tail Hp2)) as Hupost. pose proof (pieces_utf8 _ Hp) as Hupre.
  rewrite E, concat_app. cbn [concat].
  assert (utf8 (t ++ concat post)) as Hu by (apply utf8_app; [apply Ht|done]).
  rewrite <-boundary_drop, drop_app_length by (by apply boundary_between || (rewrite !length_app; lia)).
  rewrite <-(boundary_take (t ++ concat post) j (length t)) by
    (done || (rewrite length_app; lia) || by apply boundary_between). by rewrite take_app_length.
Qed.

Lemma empty_pieces : SumTree.is_empty (rope_chunks r) = true <-> ts = [].
Proof.
  rewrite (is_empty_spec _ _ (rope_wf _ _ Hr)), (rope_list _ _ Hr). split; [|by intros ->].
  intros E. by apply map_eq_nil in E.
Qed.

Theorem rope_is_char_boundary_ok o : rope_is_char_boundary r o = is_char_boundary s o.
Proof.
  unfold rope_is_char_boundary. destruct (SumTree.is_empty (rope_chunks r)) eqn:Ee.
  - apply empty_pieces in Ee. rewrite Ee. unfold is_char_boundary. cbn. by destruct o.
  - assert (ts <> []) as Hne by (rewrite <-empty_pieces, Ee; done).
    destruct (decide (o <= length s)) as [Ho|Ho].
    + destruct (find_offset o Ho Hne) as (pre & t & post & pos & Hin & ->).
      pose proof Hin as (E & Hi & _). rewrite is_char_boundary_spec by
        (pose proof (rope_pieces _ _ Hr) as Hp; rewrite E in Hp; apply Forall_app in Hp as [_ Hp]; apply (Forall_inv Hp)).
      rewrite (piece_boundaries o Left pre t post) by (done || lia). f_equal. lia.
    + destruct (find_beyond o) as (a & b & ->); [left; lia|]. unfold is_char_boundary.
      rewrite lookup_ge_None_2 by lia. destruct (Nat.eqb_spec o 0), (Nat.eqb_spec o (length s)); (done || lia).
Qed.

Lemma floor_unique x i j : i <= length x -> is_char_boundary x j = true -> j <= i ->
  (forall k, j < k -> k <= i -> is_char_boundary x k = false) -> j = str_floor_char_boundary x i.
Proof.
  intros Hi Hb Hj Hn. destruct (floor_spec x i Hi) as (F1 & F2 & F3).
  destruct (lt_eq_lt_dec j (str_floor_char_boundary x i)) as [[Hlt|]|Hlt]; [|done|].
  - rewrite Hn in F1 by lia. done.
  - rewrite F3 in Hb by lia. done.
Qed.
Lemma ceil_unique x i j : i <= length x -> is_char_boundary x j = true -> i <= j ->
  (forall k, i <= k -> k < j -> is_char_boundary x k = false) -> j = str_ceil_char_boundary x i.
Proof.
  intros Hi Hb Hj Hn. destruct (ceil_spec x i Hi) as (F1 & F2 & F3).
  destruct (lt_eq_lt_dec j (str_ceil_char_boundary x i)) as [[Hlt|]|Hlt]; [|done|].
  - rewrite F3 in Hb by lia. done.
  - rewrite Hn in F1 by lia. done.
Qed.

Theorem floor_char_boundary_ok o : rope_floor_char_boundary r o = str_floor_char_boundary s o.
Proof.
  unfold rope_floor_char_boundary. rewrite (rope_len_of _ _ Hr). destruct (Nat.leb_spec (length s) o) as [Ho|Ho].
  { unfold str_floor_char_boundary. by destruct (Nat.leb_spec (length s) o); [|lia]. }
  destruct (find_offset o) as (pre & t & post & pos & Hin & ->); [lia|by intros E; rewrite E in Ho; cbn in Ho; lia|].
  pose proof Hin as (E & Hi & _). change (chunk_text (chunk_of t)) with t.
  destruct (floor_spec t (o - length (concat pre))) as (F1 & F2 & F3); [lia|].
  apply floor_unique; [lia| |lia|].
  - by rewrite <-(piece_boundaries o Left pre t post) by (done || lia).
  - intros k Hk1 Hk2. replace k with (length (concat pre) + (k - length (concat pre))) by lia.
    rewrite <-(piece_boundaries o Left pre t post) by (done || lia). apply F3; lia.
Qed.

Theorem ceil_char_boundary_ok o : rope_ceil_char_boundary r o = str_ceil_char_boundary s o.
Proof.
  unfold rope_ceil_char_boundary. rewrite (rope_len_of _ _ Hr). destruct (Nat.ltb_spec (length s) o) as [Ho|Ho].
  { unfold str_ceil_char_boundary. by destruct (Nat.leb_spec (length s) o); [|lia]. }
  destruct (decide (ts = [])) as [Hnil|Hne].
  { destruct (find_beyond o) as (a & b & ->); [by right|]. unfold str_ceil_char_boundary.
    destruct (Nat.leb_spec (length s) o) as [|Hlt]; [done|]. rewrite Hnil in Hlt. cbn in Hlt. lia. }
  destruct (find_offset o Ho Hne) as (pre & t & post & pos & Hin & ->).
  pose proof Hin as (E & Hi & _). change (chunk_text (chunk_of t)) with t.
  destruct (ceil_spec t (o - length (concat pre))) as (F1 & F2 & F3); [lia|].
  apply ceil_unique; [lia| |lia|].
  - by rewrite <-(piece_boundaries o Left pre t post) by (done || lia).
  - intros k Hk1 Hk2. replace k with (length (concat pre) + (k - length (concat pre))) by lia.
    rewrite <-(piece_boundaries o Left pre t post) by (done || lia). apply F3; lia.
Qed.
Lemma assert_char_boundary_ok (debug : DebugAssertions) PANIC o :
  rope_assert_char_boundary PANIC r o
  = if is_char_boundary s o then Ret true
    else if PANIC || (debug && (o <? length s)) then Panic else Ret false.
Proof.
  pose proof (rope_is_char_boundary_ok o) as E. unfold rope_is_char_boundary in E. unfold rope_assert_char_boundary.
  assert (Hout : ts = [] \/ length s < o -> (o <? length s) = false).
  { intros [Hn|Hlt]; [rewrite Hn|]; apply Nat.ltb_ge; cbn; lia. }
  destruct (SumTree.is_empty (rope_chunks r)) eqn:Ee; cbn [andb] in *.
  - rewrite <-E. apply empty_pieces in Ee. rewrite Hout by by left. rewrite andb_false_r, orb_false_r.
    destruct (Nat.eqb_spec o 0) as [|Ho]; [done|]. destruct (find_beyond o) as (a & b & ->); [by right|]. done.
  - destruct (decide (length s < o)) as [Ho|Ho].
    + rewrite <-E, Hout by by right. rewrite andb_false_r, orb_false_r.
      by destruct (find_beyond o) as (a & b & ->); [by left|].
    + assert (ts <> []) as Hne by (rewrite <-empty_pieces, Ee; done).
      destruct (find_offset o) as (pre & t & post & pos & _ & Ef); [lia|done|]. rewrite Ef in *.
      unfold owned_assert_char_boundary. rewrite E. destruct (is_char_boundary s o) eqn:Eb; [done|].
      assert (o <> length s).
      { intros ->. unfold is_char_boundary in Eb. rewrite lookup_ge_None_2, Nat.eqb_refl in Eb by lia.
        by destruct (length s =? 0). }
      rewrite (proj2 (Nat.ltb_lt _ _)), andb_true_r by lia. done.
Qed.

Lemma clip_offset_ok o bias :
  clip_offset r o bias = match bias with Left => str_floor_char_boundary s o | Right => str_ceil_char_boundary s o end.
Proof. destruct bias; [apply floor_char_boundary_ok|apply ceil_char_boundary_ok]. Qed.
End Boundaries.
