(* ===== verification/RopeClipSpec.v ===== *)
(** * Clipping positions to a rope's text ([crates/rope/src/rope.rs])

    Any position, off the text's boundaries or past its rows and end, is clipped to one at
    a boundary.  Inside a chunk this is the chunk's own clipping; here it is carried to
    the text. *)

From S2P Require Import Prelude SumTree SumTreeInvariant SumTreeFind SumCursor.
From S2P Require Import Text TextSpec Bits Utf8 Chunk ChunkSpec ChunkPositions.
From S2P Require Import Rope RopePositions RopeSpec RopeCursorSpec RopePositionsSpec.
Local Open Scope nat_scope.

(** ** Inside a chunk *)

(** The end of a row or of the text. *)
Definition row_end (s : str) o : Prop := o = length s \/ newlines s !! o = Some true.

(** Clipped to the left a position does not grow; to the right it does not shrink, unless it
    was past the end of its row. *)
Definition clip_side (c : comparison) (s : str) (bias : Bias) o : Prop :=
  match bias with Left => c <> Gt | Right => c <> Lt \/ row_end s o end.

Lemma nat_cmp_not_gt (i j : nat) : (i ?= j) <> Gt <-> i <= j.
Proof. destruct (Nat.compare_spec i j); split; (done || lia). Qed.
Lemma nat_cmp_not_lt (i j : nat) : (i ?= j) <> Lt <-> j <= i.
Proof. destruct (Nat.compare_spec i j); split; (done || lia). Qed.

Section InChunk.
Context (s : str) (Hs : fits s) (r start end_ : nat) (R : row_range s r start end_) (Hr : r <= row (lines (summary_of s))).
Notation line := (take (end_ - start) (drop start s)).

Lemma line_boundary j : boundary line j -> j <= length line -> boundary s (start + j) /\ start <= start + j <= end_.
Proof.
  intros Hb Hj. pose proof (fits_utf8 _ Hs) as Hu. pose proof (range_order _ _ _ _ R).
  destruct (row_range_boundaries _ _ _ _ Hu R) as [H1 H2]. destruct (boundary_split _ _ Hu H1) as (_ & _ & Hd).
  destruct (row_line_lines _ _ _ _ Hs R) as (Hlen & _). cbv zeta in Hlen. rewrite Hlen in Hj. split; [|lia].
  assert (boundary (drop start s) (end_ - start)) as He.
  { unfold boundary. rewrite boundary_drop by (done || lia). by replace (start + (end_ - start)) with end_ by lia. }
  unfold boundary. rewrite <-boundary_drop by (done || lia).
  by rewrite <-(boundary_take _ j (end_ - start)) by (done || (rewrite length_drop; lia)).
Qed.

Lemma line_end j : j = length line -> row_end s (start + j).
Proof.
  destruct (row_line_lines _ _ _ _ Hs R) as (Hlen & _). cbv zeta in Hlen. rewrite Hlen. intros ->.
  pose proof (range_order _ _ _ _ R). replace (start + (end_ - start)) with end_ by lia.
  destruct (range_end _ _ _ _ R); [by left|by right].
Qed.

Lemma chunk_clip_point `{Graphemes} `{!GraphemeLaws} k bias :
  exists o, clip_point (chunk_of s) (mkPoint r k) bias = Ret (Some (point_at s o)) /\ boundary s o
    /\ clip_side (point_ord (point_at s o) (mkPoint r k)) s bias o.
Proof.
  destruct (clip_point_in_row s r start end_ k bias Hs R Hr) as (j & E & Hb & Hj & _ & _ & _ & Hside).
  destruct (line_boundary j Hb Hj) as [Hbs Hin]. exists (start + j).
  rewrite E, (point_in_row s r start end_ _ (fits_utf8 _ Hs) R Hbs Hin). replace (start + j - start) with j by lia.
  split_and!; [done..|]. unfold point_ord. cbn [row column]. rewrite Nat.compare_refl.
  destruct bias; cbn [clip_side]; [by apply nat_cmp_not_gt|].
  destruct Hside as [Hk|Hl]; [left; by apply nat_cmp_not_lt|right; by apply line_end].
Qed.

Lemma chunk_clip_point_utf16 k bias :
  exists o, clip_point_utf16 (chunk_of s) (mkPointUtf16 r k) bias = Ret (point_utf16_at s o) /\ boundary s o
    /\ clip_side (point_utf16_ord (point_utf16_at s o) (mkPointUtf16 r k)) s bias o.
Proof.
  assert (exists j, clip_offset_utf16 (chunk_of line) k bias = utf16_at line j /\ boundary line j
    /\ match bias with Left => utf16_at line j <= k | Right => k <= utf16_at line j \/ j = length line end) as (j & E & Hb & Hside).
  { pose proof (fits_range _ _ _ _ Hs R) as Hf. destruct (decide (k <= len_utf16 (summary_of line))) as [Hle|Hgt].
    - destruct (clip_offset_utf16_spec line k bias Hf Hle) as (j & E & Hb & Hc). exists j. split_and!; [done..|].
      destruct bias; [apply Hc|left; apply Hc].
    - exists (length line). split_and!; [|by apply boundary_len|].
      + unfold clip_offset_utf16. rewrite len_utf16_spec by apply Hf.
        destruct (Nat.eqb_spec k 0); [lia|]. destruct (Nat.leb_spec (len_utf16 (summary_of line)) k); [|lia].
        unfold utf16_at. by rewrite (take_ge line).
      + destruct bias; [|by right]. unfold utf16_at. rewrite (take_ge line) by done. lia. }
  assert (j <= length line) as Hj by (apply boundary_le; [apply (fits_utf8 _ (fits_range _ _ _ _ Hs R))|done]).
  destruct (line_boundary j Hb Hj) as [Hbs Hin]. exists (start + j).
  destruct (row_units _ _ _ _ _ Hs R Hbs Hin) as (_ & Ec & Er). replace (start + j - start) with j in Ec by lia.
  unfold clip_point_utf16. rewrite lines_spec by done. cbn [row16 column16].
  destruct (Nat.ltb_spec (row (lines (summary_of s))) r); [lia|].
  destruct (offset_range_for_row_spec s r Hs Hr) as (st & en & -> & R').
  assert (st = start /\ en = end_) as [-> ->] by (by eapply row_range_unique).
  rewrite (row_slice _ _ _ _ Hs R). cbn [mbind res_bind]. rewrite E.
  assert (point_utf16_at s (start + j) = mkPointUtf16 r (utf16_at line j)) as -> by
    (destruct (point_utf16_at s (start + j)); cbn in *; congruence).
  split_and!; [done..|]. unfold point_utf16_ord. cbn [row16 column16]. rewrite Nat.compare_refl.
  destruct bias; cbn [clip_side]; [by apply nat_cmp_not_gt|].
  destruct Hside as [Hk|Hl]; [left; by apply nat_cmp_not_lt|right; by apply line_end].
Qed.
End InChunk.

(** ** The chunk of any position *)

(** Comparing with a target respects the order, and nothing is before the start. *)
Class OrderedTarget (D : Type) `{TextMeasure D} `{!SeekTarget D D} := {
  cmp_start (p : D) : target_cmp p (measure []) <> Lt;
  cmp_later (p d d' : D) : target_cmp d d' <> Gt -> rank (target_cmp p d') <= rank (target_cmp p d);
}.

#[export] Instance utf16_ordered : OrderedTarget OffsetUtf16.
Proof.
  split; unfold target_cmp, utf16_target; intros.
  - by destruct (units p).
  - destruct (Nat.compare_spec (units d) (units d')), (Nat.compare_spec (units p) (units d')),
      (Nat.compare_spec (units p) (units d)); cbn; (done || lia).
Qed.

(** Rows first, then columns. *)
Definition pair_cmp (a b c d : nat) : comparison := match a ?= c with Eq => b ?= d | x => x end.
Lemma pair_cmp_start a b : pair_cmp a b 0 0 <> Lt.
Proof. unfold pair_cmp. destruct a; [|done]. by destruct b. Qed.
Lemma pair_cmp_later a b c d e f : pair_cmp c d e f <> Gt -> rank (pair_cmp a b e f) <= rank (pair_cmp a b c d).
Proof.
  unfold pair_cmp. destruct (Nat.compare_spec c e), (Nat.compare_spec a e), (Nat.compare_spec a c); try done; try (cbn; lia).
  all: destruct (Nat.compare_spec d f), (Nat.compare_spec b f), (Nat.compare_spec b d); cbn; (done || lia).
Qed.
(** Comparing after what is before is taken away. *)
Lemma pair_cmp_shift a b c d e f :
  pair_cmp e f a b <> Gt ->
  (if c =? 0 then pair_cmp e (f + d) a b else pair_cmp (e + c) d a b)
  = if a =? e then pair_cmp c d 0 (b - f) else pair_cmp c d (a - e) b.
Proof.
  unfold pair_cmp. intros Hle. destruct (Nat.eqb_spec c 0) as [->|], (Nat.eqb_spec a e) as [->|].
  all: repeat match goal with |- context [?x ?= ?y] => destruct (Nat.compare_spec x y) end; try done; try lia.
  all: repeat match type of Hle with context [?x ?= ?y] => destruct (Nat.compare_spec x y) end; try done; lia.
Qed.

#[export] Instance point_ordered : OrderedTarget Point.
Proof. split; intros; [apply (pair_cmp_start (row p) (column p))|by apply (pair_cmp_later (row p) (column p))]. Qed.
#[export] Instance point_utf16_ordered : OrderedTarget PointUtf16.
Proof. split; intros; [apply (pair_cmp_start (row16 p) (column16 p))|by apply (pair_cmp_later (row16 p) (column16 p))]. Qed.

Section Clip.
Context (r : Rope) (ts : list str) (Hr : rope_of r ts).
Notation s := (concat ts).

Section Any.
Context {D : Type} `{Position D} `{!OrderedTarget D} (p : D).

Lemma later_pieces a b post :
  ts = a ++ b ++ post ->
  target_cmp (measure (D:=D) (concat a)) (measure (concat (a ++ b))) <> Gt.
Proof.
  intros E. destruct (piece_start r ts Hr a (b ++ post) E) as [Hb1 Ht1].
  destruct (piece_start r ts Hr (a ++ b) post) as [Hb2 Ht2]; [by rewrite <-app_assoc|].
  pose proof (at_cmp (D:=D) s _ _ (text_utf8 r ts Hr) Hb1 Hb2) as Hc. unfold at_ in Hc. rewrite Ht1, Ht2 in Hc. rewrite Hc.
  apply nat_cmp_not_gt. rewrite concat_app, length_app. lia.
Qed.

Lemma any_ordered : ordered (D:=D) p dim_zero (map chunk_of ts).
Proof.
  intros x y l E _. rewrite app_assoc in E. apply map_chunk_split in E as (a & post & E1 & E2 & _).
  symmetry in E2. apply map_chunk_split in E2 as (a1 & a2 & -> & -> & ->). rewrite <-app_assoc in E1.
  pose proof (rope_pieces _ _ Hr) as Hp. rewrite E1 in Hp. rewrite !Forall_app in Hp. destruct Hp as (Hp1 & Hp2 & _).
  rewrite <-map_app, !advance_pieces by (done || by apply Forall_app). apply cmp_later. by apply (later_pieces a1 a2 post).
Qed.

(** What [find] comes to: the chunk the position is in, or none past the text. *)
Lemma find_any :
  (exists pre t post pos, ts = pre ++ t :: post
     /\ find (D:=D) p Right (rope_chunks r) = (measure (concat pre), pos, Some (chunk_of t))
     /\ target_cmp p (measure (D:=D) (concat pre)) <> Lt /\ target_cmp p (measure (D:=D) (concat pre ++ t)) = Lt)
  \/ (exists a b, find (D:=D) p Right (rope_chunks r) = (a, b, None) /\ target_cmp p (measure (D:=D) s) <> Lt).
Proof.
  rewrite (find_ok _ _ _ _ (rope_wf _ _ Hr)) by (rewrite (rope_list _ _ Hr); apply any_ordered). rewrite (rope_list _ _ Hr).
  assert (forall d, target_in p Right (d : D) = false <-> target_cmp p d <> Lt) as Hin
    by (intros d; unfold target_in; by destruct (target_cmp p d)).
  destruct (found_cases (D:=D) p Right (map chunk_of ts)) as [(l1 & x & l2 & E1 & -> & H1 & H2)|[-> Hno]]; [left|right].
  - apply map_chunk_split in E1 as (pre & post & E2 & -> & E3). destruct post as [|t post]; [done|].
    cbn [map] in E3. injection E3 as -> ->. change [chunk_of t] with (map chunk_of [t]) in *. rewrite <-map_app in *.
    pose proof (rope_pieces _ _ Hr) as Hp. rewrite E2 in Hp. apply Forall_app in Hp as [Hp Hp2]. pose proof (Forall_inv Hp2) as Ht.
    assert (Forall piece (pre ++ [t])) as Hp3 by (apply Forall_app; split; [done|by constructor]).
    exists pre, t, post. eexists. rewrite !advance_pieces in * by done. split_and!; [done..| |].
    + destruct pre as [|a pre]; [apply cmp_start|]. rewrite Hin in H1. by apply H1.
    + rewrite concat_app in H2. cbn [concat] in H2. rewrite app_nil_r in H2. unfold target_in in H2.
      by destruct (target_cmp p (measure (concat pre ++ t))).
  - eexists _, _. split; [reflexivity|]. rewrite advance_pieces in Hno by apply Hr. rewrite Hin in Hno.
    destruct ts as [|t ts']; [apply cmp_start|by apply Hno].
Qed.
End Any.

(** ** From a chunk to the text *)
Section InPiece.
Context (pre : list str) (t : str) (post : list str) (Ets : ts = pre ++ t :: post).

Lemma piece_parts : utf8 (concat pre) /\ fits t /\ utf8 (concat post) /\ s = concat pre ++ t ++ concat post.
Proof.
  pose proof (rope_pieces _ _ Hr) as Hp. rewrite Ets in Hp. apply Forall_app in Hp as [Hp Hp2].
  split_and!; [by apply pieces_utf8|apply (Forall_inv Hp2)|apply pieces_utf8, (Forall_inv_tail Hp2)|].
  by rewrite Ets, concat_app.
Qed.

Lemma boundary_in_piece j : j <= length t -> boundary s (length (concat pre) + j) <-> boundary t j.
Proof.
  intros Hj. unfold boundary.
  by rewrite <-(piece_boundaries r ts Hr (length (concat pre) + j) Left pre t post j) by (done || (split; [done|split; [lia|done]])).
Qed.

Lemma at_in_piece {D} `{TextMeasure D} `{!TextDimension D} `{!TextDimensionLaws D} j :
  boundary t j -> at_ (D:=D) s (length (concat pre) + j) = add_assign (measure (concat pre)) (at_ t j).
Proof.
  intros Hj. destruct piece_parts as (Hu & Hft & _ & _). pose proof (boundary_le _ _ (fits_utf8 _ Hft) Hj).
  assert (boundary s (length (concat pre) + j)) as Hb by by apply boundary_in_piece.
  rewrite (at_split r ts Hr (length (concat pre) + j) Hb Left pre t post) by (split; [done|split; [lia|done]]).
  by rewrite Nat.add_comm, Nat.add_sub.
Qed.

Lemma piece_end {D} `{TextMeasure D} : at_ (D:=D) s (length (concat pre) + length t) = measure (concat pre ++ t).
Proof.
  destruct piece_parts as (_ & _ & _ & E). unfold at_. by rewrite E, app_assoc, <-length_app, take_app_length.
Qed.

Lemma row_end_in_piece j : j < length t -> row_end t j -> row_end s (length (concat pre) + j).
Proof.
  intros Hj [->|Hn]; [lia|]. right. destruct piece_parts as (_ & _ & _ & ->).
  rewrite !newlines_app, lookup_app_r by (rewrite length_newlines; lia). rewrite length_newlines.
  replace (length (concat pre) + j - length (concat pre)) with j by lia.
  rewrite lookup_app_l; [done|]. by rewrite length_newlines.
Qed.
(** A boundary is before the piece, after it, or one of it. *)
Lemma boundary_cases o :
  boundary s o ->
  o < length (concat pre) \/ length (concat pre) + length t < o \/ exists i, o = length (concat pre) + i /\ boundary t i.
Proof.
  intros Ho. destruct (decide (o < length (concat pre))) as [|H1]; [by left|right].
  destruct (decide (length (concat pre) + length t < o)) as [|H2]; [by left|right].
  assert (o = length (concat pre) + (o - length (concat pre))) as Eo by lia.
  exists (o - length (concat pre)). split; [done|]. apply boundary_in_piece; [lia|]. by rewrite <-Eo.
Qed.

Lemma units_in_piece i :
  boundary t i -> utf16_at s (length (concat pre) + i) = len_utf16 (summary_of (concat pre)) + utf16_at t i.
Proof. intros Hi. pose proof (at_in_piece (D:=OffsetUtf16) i Hi) as Ha. by injection Ha. Qed.

Lemma units_ends i :
  boundary s i ->
  (i < length (concat pre) -> utf16_at s i < len_utf16 (summary_of (concat pre)))
  /\ (length (concat pre) + length t < i -> len_utf16 (summary_of (concat pre)) + len_utf16 (summary_of t) < utf16_at s i).
Proof.
  intros Hi. pose proof (text_utf8 r ts Hr) as Hu. pose proof (units_in_piece 0 eq_refl) as E0.
  pose proof (units_in_piece _ (boundary_len t)) as E1. unfold utf16_at in E1 at 2. rewrite (take_ge t) in E1 by done.
  assert (boundary s (length (concat pre) + 0)) as H0 by (apply boundary_in_piece; [lia|done]).
  assert (boundary s (length (concat pre) + length t)) as H1 by (apply boundary_in_piece; [done|apply boundary_len]).
  split; intros Hlt.
  - pose proof (utf16_at_mono s i _ Hu Hi H0 ltac:(lia)) as Hm. rewrite E0 in Hm. change (utf16_at t 0) with 0 in Hm. lia.
  - pose proof (utf16_at_mono s _ i Hu H1 Hi Hlt) as Hm. lia.
Qed.

Lemma clipped_in_piece n bias j :
  len_utf16 (summary_of (concat pre)) <= n <= len_utf16 (summary_of (concat pre)) + len_utf16 (summary_of t) ->
  clipped t (utf16_at t) bias (n - len_utf16 (summary_of (concat pre))) j ->
  clipped s (utf16_at s) bias n (length (concat pre) + j).
Proof.
  intros Hn [Hb Hc]. destruct piece_parts as (_ & Hft & _ & _). pose proof (boundary_le _ _ (fits_utf8 _ Hft) Hb) as Hj.
  split; [by apply boundary_in_piece|]. rewrite units_in_piece by done.
  destruct bias; destruct Hc as [Hc1 Hc2]; (split; [lia|]); intros o' Ho' Hle; destruct (units_ends o' Ho') as [Hl Hg];
    destruct (boundary_cases o' Ho') as [?|[?|(i & -> & Hi)]]; try lia;
    rewrite units_in_piece in Hle by done; specialize (Hc2 i Hi); lia.
Qed.

Lemma units_total : len_utf16 (summary_of (concat pre)) + len_utf16 (summary_of t) <= len_utf16 (summary_of s).
Proof.
  destruct piece_parts as (Hu & Hft & Hu2 & ->). rewrite app_assoc, summary_of_app, add_len_utf16 by (apply utf8_app; [done|apply Hft]).
  rewrite summary_of_app, add_len_utf16 by done. lia.
Qed.
End InPiece.

(** [clip_offset_utf16]: units past the end are the end. *)
Lemma clip_offset_utf16_ok n bias :
  exists o, rope_clip_offset_utf16 r (mkOffsetUtf16 n) bias = utf16_at s o
    /\ clipped s (utf16_at s) bias (n `min` len_utf16 (summary_of s)) o.
Proof.
  unfold rope_clip_offset_utf16.
  destruct (find_any (mkOffsetUtf16 n)) as [(pre & t & post & pos & E & -> & H1 & H2)|(a & b & -> & H1)]; cbn [units measure utf16_measure] in *.
  - destruct (piece_parts pre t post E) as (Hup & Hft & _ & _). pose proof (units_total pre t post E).
    apply nat_cmp_not_lt in H1. cbn [units] in H1.
    change ((n ?= len_utf16 (summary_of (concat pre ++ t))) = Lt) in H2. apply Nat.compare_lt_iff in H2. rewrite summary_of_app, add_len_utf16 in H2 by done.
    destruct (clip_offset_utf16_spec t (n - len_utf16 (summary_of (concat pre))) bias Hft) as (j & -> & Hc); [lia|].
    exists (length (concat pre) + j). rewrite Nat.min_l by lia. rewrite (units_in_piece pre t post E) by apply Hc.
    split; [done|]. apply (clipped_in_piece pre t post E); [lia|done].
  - pose proof (text_utf8 r ts Hr) as Hu. apply nat_cmp_not_lt in H1. cbn [units] in H1. rewrite (rope_summary_of _ _ Hr), Nat.min_r by done.
    assert (utf16_at s (length s) = len_utf16 (summary_of s)) as Hend by (unfold utf16_at; by rewrite take_ge).
    exists (length s). split; [done|]. split; [apply boundary_len|].
    destruct bias; (split; [lia|]); intros o' Ho' Hle; pose proof (boundary_le _ _ Hu Ho'); [lia|].
    destruct (decide (o' < length s)); [|lia]. pose proof (utf16_at_mono s o' (length s) Hu Ho' (boundary_len s) ltac:(done)). lia.
Qed.

(** *** Points *)

(** Clipping what is left of a position inside its chunk. *)
Lemma side_in_piece pre t post (c : comparison) bias j :
  ts = pre ++ t :: post -> boundary t j -> (j = length t -> c <> Lt) ->
  clip_side c t bias j -> clip_side c s bias (length (concat pre) + j).
Proof.
  intros E Hb Hend Hside. destruct bias; [done|]. destruct Hside as [|Hrow]; [by left|].
  destruct (piece_parts pre t post E) as (_ & Hft & _ & _). pose proof (boundary_le _ _ (fits_utf8 _ Hft) Hb).
  destruct (decide (j = length t)) as [->|]; [left; by apply Hend|]. right. apply (row_end_in_piece pre t post E); [lia|done].
Qed.

Lemma point_shift (m p d : Point) : point_ord p m <> Lt -> point_ord (point_add m d) p = point_ord d (point_sub p m).
Proof.
  intros Hle. rewrite point_cmp_flip in Hle. assert (point_ord m p <> Gt) as Hle' by (by destruct (point_ord m p)).
  pose proof (pair_cmp_shift (row p) (column p) (row d) (column d) (row m) (column m) Hle') as E.
  unfold point_add, point_sub. by destruct (row d =? 0), (row p =? row m).
Qed.
Lemma point_utf16_shift (m p d : PointUtf16) :
  point_utf16_ord p m <> Lt -> point_utf16_ord (point_utf16_add m d) p = point_utf16_ord d (point_utf16_sub p m).
Proof.
  intros Hle. rewrite point_utf16_cmp_flip in Hle. assert (point_utf16_ord m p <> Gt) as Hle' by (by destruct (point_utf16_ord m p)).
  pose proof (pair_cmp_shift (row16 p) (column16 p) (row16 d) (column16 d) (row16 m) (column16 m) Hle') as E.
  unfold point_utf16_add, point_utf16_sub. by destruct (row16 d =? 0), (row16 p =? row16 m).
Qed.

Lemma pair_cmp_row a b c d : pair_cmp a b c d = Gt -> c <= a.
Proof. unfold pair_cmp. destruct (Nat.compare_spec a c); (done || lia). Qed.

Lemma clip_point_ok `{Graphemes} `{!GraphemeLaws} p bias :
  exists o, rope_clip_point r p bias = Ret (Some (point_at s o)) /\ boundary s o
    /\ clip_side (point_ord (point_at s o) p) s bias o.
Proof.
  unfold rope_clip_point.
  destruct (find_any p) as [(pre & t & post & pos & E & -> & H1 & H2)|(a & b & -> & H1)].
  - destruct (piece_parts pre t post E) as (Hup & Hft & _ & _). set (m := measure (concat pre)) in *.
    pose proof (point_shift m p) as Hshift. set (q := point_sub p m) in *.
    assert (point_ord (lines (summary_of t)) q = Gt) as Hq.
    { rewrite <-Hshift by done. rewrite point_cmp_flip. unfold m. cbn [measure point_measure] in *.
      rewrite summary_of_app, add_lines in H2 by done. by setoid_rewrite H2. }
    assert (row q <= row (lines (summary_of t))) as Hr' by apply (pair_cmp_row _ _ _ _ Hq).
    destruct (offset_range_for_row_spec t (row q) Hft Hr') as (st & en & _ & R).
    destruct (chunk_clip_point t Hft (row q) st en R Hr' (column q) bias) as (j & Ej & Hb & Hside).
    replace (mkPoint (row q) (column q)) with q in * by (by destruct q). rewrite Ej. cbn [mbind res_bind option_map].
    exists (length (concat pre) + j). pose proof (at_in_piece pre t post E (D:=Point) j Hb) as Hat.
    change (point_at s (length (concat pre) + j) = point_add m (point_at t j)) in Hat.
    rewrite Hat, Hshift by done. split_and!; [done| |].
    + apply (boundary_in_piece pre t post E); [|done]. by apply boundary_le; [apply Hft|].
    + apply (side_in_piece pre t post); [done..| |done]. intros ->. unfold point_at. rewrite take_ge by done. by rewrite Hq.
  - exists (length s). rewrite (rope_summary_of _ _ Hr). unfold point_at. rewrite take_ge by done.
    split_and!; [done|apply boundary_len|]. destruct bias; [|right; by left].
    cbn [clip_side]. rewrite point_cmp_flip. change (point_ord p (lines (summary_of s)) <> Lt) in H1.
    by destruct (point_ord p (lines (summary_of s))).
Qed.

Lemma clip_point_utf16_ok p bias :
  exists o, rope_clip_point_utf16 r p bias = Ret (point_utf16_at s o) /\ boundary s o
    /\ clip_side (point_utf16_ord (point_utf16_at s o) p) s bias o.
Proof.
  unfold rope_clip_point_utf16.
  destruct (find_any p) as [(pre & t & post & pos & E & -> & H1 & H2)|(a & b & -> & H1)].
  - destruct (piece_parts pre t post E) as (Hup & Hft & _ & _). set (m := measure (concat pre)) in *.
    pose proof (point_utf16_shift m p) as Hshift. set (q := point_utf16_sub p m) in *.
    assert (point_utf16_ord (lines_utf16 (summary_of t)) q = Gt) as Hq.
    { rewrite <-Hshift by done. rewrite point_utf16_cmp_flip. unfold m. cbn [measure point_utf16_measure] in *.
      rewrite summary_of_app, add_lines_utf16 in H2 by done. by setoid_rewrite H2. }
    assert (row16 q <= row (lines (summary_of t))) as Hr' by apply (pair_cmp_row _ _ _ _ Hq).
    destruct (offset_range_for_row_spec t (row16 q) Hft Hr') as (st & en & _ & R).
    destruct (chunk_clip_point_utf16 t Hft (row16 q) st en R Hr' (column16 q) bias) as (j & Ej & Hb & Hside).
    replace (mkPointUtf16 (row16 q) (column16 q)) with q in * by (by destruct q). rewrite Ej. cbn [mbind res_bind].
    exists (length (concat pre) + j). pose proof (at_in_piece pre t post E (D:=PointUtf16) j Hb) as Hat.
    change (point_utf16_at s (length (concat pre) + j) = point_utf16_add m (point_utf16_at t j)) in Hat.
    rewrite Hat, Hshift by done. split_and!; [done| |].
    + apply (boundary_in_piece pre t post E); [|done]. by apply boundary_le; [apply Hft|].
    + apply (side_in_piece pre t post); [done..| |done]. intros ->. unfold point_utf16_at. rewrite take_ge by done. by rewrite Hq.
  - exists (length s). rewrite (rope_summary_of _ _ Hr). unfold point_utf16_at. rewrite take_ge by done.
    split_and!; [done|apply boundary_len|]. destruct bias; [|right; by left].
    cbn [clip_side]. rewrite point_utf16_cmp_flip. change (point_utf16_ord p (lines_utf16 (summary_of s)) <> Lt) in H1.
    by destruct (point_utf16_ord p (lines_utf16 (summary_of s))).
Qed.
End Clip.
