(* ===== verification/RopeProps.v ===== *)
(** * What a rope and its chunks promise

    The statements users of [crates/rope] rely on.  A rope [holds] a text when its tree
    is well formed, its chunks are pieces of the text with the right bitmaps, none
    empty, and all but the last about half full at least, as [check_invariants] asks. *)

From S2P Require Import Prelude SumTree SumTreeInvariant SumCursor SumIter SumTreeProps.
From S2P Require Import Text TextSpec Bits NthSetBit Utf8 Chunk ChunkSpec ChunkPositions.
From S2P Require Import Rope RopePositions RopeSpec RopeCursorSpec RopePositionsSpec RopeClipSpec.
Local Open Scope nat_scope.

(** ** A sample: "a", e acute, a newline, a character of four bytes *)
Module Text4.
Definition text : str := [97; 195; 169; 10; 240; 157; 132; 158]%Z.

Lemma sample_utf8 : utf8 text.
Proof.
  change text with ([97%Z] ++ [195; 169]%Z ++ [10%Z] ++ [240; 157; 132; 158]%Z ++ []).
  repeat (econstructor; [split; [reflexivity|lia|repeat constructor; unfold continuation; lia|reflexivity]|]).
  constructor.
Qed.
Lemma sample_fits : ChunkSpec.fits text.
Proof. split; [apply sample_utf8|]. apply Nat.leb_le. reflexivity. Qed.

Definition rope : Rope := match push chunks_map rope_new text with Ret r => r | Panic => rope_new end.
Lemma rope_holds : holds rope text.
Proof.
  destruct (rope_from_spec chunks_map (fun _ _ _ _ _ _ => eq_refl) text sample_utf8) as (r & ts & E & Hr & Hs).
  unfold rope. unfold rope_from in E. rewrite E. by exists ts.
Qed.
Lemma rope_shallow : shallow rope.
Proof. unfold shallow. vm_compute. lia. Qed.
End Text4.

(** Running a computation that a hypothesis names. *)
Ltac run E := vm_compute in E; first [discriminate E|injection E as <-].
Ltac shallow_by_running :=
  let chunks := fresh in let m := fresh in let E1 := fresh in let E2 := fresh in
  intros chunks m ? E1 E2; run E1; vm_compute in E2;
  first [discriminate E2|injection E2 as <- _; unfold shallow; vm_compute; lia].

Lemma holds_intro (P : Rope -> Prop) s :
  (exists r ts, P r /\ rope_of r ts /\ concat ts = s) -> exists r, P r /\ holds r s.
Proof. intros (r & ts & HP & Hr & Hs). exists r. split; [done|]. by exists ts. Qed.

(** C15. A rope is edited as the text it holds, without panicking: building it from a text,
    pushing text at the end (in place, in one array of chunks, or in bulk and in
    parallel), pushing at the front, collecting texts and appending a rope all give a
    rope that holds the text put together, with its invariants; the length and the
    summary stored in the tree are those of the text. *)
Theorem rope_edits_spec par :
  collects_chunks par ->
  holds rope_new []
  /\ (forall s, utf8 s -> exists r, rope_from par s = Ret r /\ holds r s)
  /\ forall r s, holds r s ->
     rope_len r = length s /\ rope_summary r = summary_of s
     /\ (forall t, utf8 t -> exists r', push par r t = Ret r' /\ holds r' (s ++ t))
     /\ (forall t, ChunkSpec.fits t -> exists r', push_chunk r (chunk_of t) = Ret r' /\ holds r' (s ++ t))
     /\ (forall texts, Forall utf8 texts -> exists r', rope_collect par r texts = Ret r' /\ holds r' (s ++ concat texts))
     /\ (forall t, utf8 t -> shallow r -> exists r', push_front par r t = Ret r' /\ holds r' (t ++ s))
     /\ (forall r2 t, holds r2 t -> shallow r2 -> exists r', append r r2 = Ret r' /\ holds r' (s ++ t)).
Proof.
  intros Hpar. split; [exists []; split; [apply rope_new_of|done]|]. split.
  - intros s Hs. by apply holds_intro, rope_from_spec.
  - intros r s (ts & Hr & <-). split_and!; [by apply rope_len_of|by apply rope_summary_of|intros..]; apply holds_intro.
    + by apply push_spec.
    + destruct (push_chunk_spec r ts t Hr) as (r' & ts' & ? & ? & ? & _); [done|]. by exists r', ts'.
    + by apply rope_collect_spec.
    + by apply push_front_spec.
    + destruct H as (ts2 & H2 & <-). by apply append_rope_spec.
Qed.
Lemma rope_edits_spec_witness :
  exists r r', rope_from chunks_map Text4.text = Ret r /\ append r r = Ret r' /\ holds r' (Text4.text ++ Text4.text).
Proof.
  destruct (rope_edits_spec chunks_map (fun _ _ _ _ _ _ => eq_refl)) as (_ & _ & H).
  destruct (H Text4.rope Text4.text Text4.rope_holds) as (_ & _ & _ & _ & _ & _ & Ha).
  destruct (Ha Text4.rope Text4.text Text4.rope_holds Text4.rope_shallow) as (r' & E & Hr').
  exists Text4.rope, r'. split; [vm_compute; reflexivity|by split].
Defined.

(** C16. Slicing and replacing act on the text: between boundaries in order, [slice] gives
    a rope that holds that part, [replace] one that holds the text with that part
    replaced, and neither panics.  A cursor moves forward over the text: from any offset it
    has reached it seeks to any later one; and between boundaries it slices, it measures in
    any unit that is a measure of texts (bytes, UTF-16 units, points, UTF-16 points and
    summaries are such units) exactly the text between, and its suffix is the rest of the
    text.  Trees that are walked or appended, slices included, are taken to fit the cursors'
    stacks of sixteen levels. *)
Theorem rope_slices_spec par r s :
  collects_chunks par -> holds r s -> shallow r ->
  (forall o e, o <= e <= length s -> boundary s o -> boundary s e ->
     (slice_shallow r o e -> exists r', rope_slice r o e = Ret r' /\ holds r' (take (e - o) (drop o s)))
     /\ (forall t, utf8 t -> replace_shallow r o e ->
           exists r', replace par r o e t = Ret r' /\ holds r' (take o s ++ t ++ drop e s)))
  /\ exists ts, concat ts = s
     /\ (forall o, o <= length s -> exists c, rope_cursor r o = Ret c /\ cursor_at r ts c o)
     /\ forall c o, cursor_at r ts c o -> forall e, o <= e <= length s ->
        (exists c', cursor_seek_forward c e = Ret c' /\ cursor_at r ts c' e)
        /\ (boundary s o -> boundary s e ->
            (forall D `{!Dimension D ChunkSummary} `{!TextMeasure D} `{!TextDimension D} `{!TextDimensionLaws D},
               exists c', cursor_summary (D:=D) c e = Ret (measure (take (e - o) (drop o s)), c') /\ cursor_at r ts c' e)
            /\ (middle_shallow c e -> exists part c', cursor_slice c e = Ret (part, c')
                  /\ holds part (take (e - o) (drop o s)) /\ cursor_at r ts c' e)
            /\ (middle_shallow c (length s) -> exists rest, cursor_suffix c = Ret rest /\ holds rest (drop o s))).
Proof.
  intros Hpar (ts & Hr & <-) Hsh. split.
  - intros o e He Hbo Hbe. split; intros; apply holds_intro; [by apply rope_slice_spec|by apply replace_spec].
  - exists ts. split; [done|]. split; [by apply rope_cursor_spec|]. intros c o Hc e He.
    split; [by eapply cursor_seek_forward_spec|]. intros Hbo Hbe. split_and!.
    + intros D HD HM HT HL. exact (cursor_summary_spec r ts Hr Hsh (D:=D) c o e Hc He Hbo Hbe).
    + intros Hm. edestruct cursor_slice_spec as (part & ts' & c' & E & Hp & Ht & Hc'); [done..|].
      exists part, c'. split_and!; [done| |done]. by exists ts'.
    + intros Hm. apply holds_intro. eapply cursor_suffix_spec; [done|done|exact Hc|lia|done|by rewrite (rope_len_of _ _ Hr)].
Qed.
Lemma rope_slices_spec_witness :
  (exists r, rope_slice Text4.rope 1 4 = Ret r /\ holds r [195; 169; 10]%Z)
  /\ exists r, replace chunks_map Text4.rope 1 4 [66%Z] = Ret r /\ holds r [97; 66; 240; 157; 132; 158]%Z.
Proof.
  destruct (rope_slices_spec chunks_map Text4.rope Text4.text (fun _ _ _ _ _ _ => eq_refl) Text4.rope_holds Text4.rope_shallow) as [H _].
  destruct (H 1 4 ltac:(cbn; lia) eq_refl eq_refl) as [Hs Hr].
  split.
  - apply Hs. intros c1 c2 E1 E2. run E1. run E2. shallow_by_running.
  - apply (Hr [66%Z]).
    + change [66%Z] with ([66%Z] ++ []). econstructor; [|constructor]. split; [done|lia|constructor|done].
    + intros c0 part c1 c2 E0. run E0. split; [shallow_by_running|].
      intros E1. vm_compute in E1. injection E1 as <- <-. split; [unfold shallow; vm_compute; lia|].
      intros E2. run E2. split; [shallow_by_running|].
      intros rest E5. run E5. unfold shallow. vm_compute. lia.
Defined.

(** C17. Positions agree.  At any boundary of the text, its offset in bytes, its offset in
    UTF-16 units, its point and its UTF-16 point are the measures of the text before it,
    and every conversion of the rope maps each to the others exactly, whether it finds
    the chunk or walks a cursor to it; the end of the text included. *)
Theorem rope_positions_spec `{DebugAssertions} r s o :
  holds r s -> boundary s o -> shallow r ->
  let units := utf16_at s o in let point := point_at s o in let point16 := point_utf16_at s o in
  (rope_offset_to_offset_utf16 r o = units /\ rope_offset_to_point r o = point /\ rope_offset_to_point_utf16 r o = point16)
  /\ rope_offset_utf16_to_offset r (mkOffsetUtf16 units) = o
  /\ (rope_point_to_offset r point = Ret o /\ rope_point_to_point_utf16 r point = Ret point16
      /\ rope_point_to_offset_utf16 r point = Ret units)
  /\ rope_point_utf16_to_offset r point16 = Ret o /\ rope_point_utf16_to_offset_utf16 r point16 = Ret units
  /\ rope_point_utf16_to_point r point16 = Ret point
  /\ rope_unclipped_point_utf16_to_offset r point16 = Ret o /\ rope_unclipped_point_utf16_to_point r point16 = Ret point.
Proof.
  intros (ts & Hr & <-) Hb Hsh. cbv zeta. split_and!.
  - pose proof (offset_to_offset_utf16_ok r ts Hr o Hb) as E. by injection E.
  - exact (offset_to_point_ok r ts Hr o Hb).
  - exact (offset_to_point_utf16_ok r ts Hr o Hb).
  - exact (offset_utf16_to_offset_ok r ts Hr o Hb).
  - exact (point_to_offset_ok r ts Hr o Hb).
  - exact (point_to_point_utf16_ok r ts Hr o Hb).
  - exact (point_to_offset_utf16_ok r ts Hr o Hb Hsh).
  - exact (point_utf16_to_offset_ok r ts Hr o Hb false).
  - exact (point_utf16_to_offset_utf16_ok r ts Hr o Hb false Hsh).
  - exact (point_utf16_to_point_ok r ts Hr o Hb Hsh).
  - exact (point_utf16_to_offset_ok r ts Hr o Hb true).
  - exact (unclipped_point_utf16_to_point_ok r ts Hr o Hb).
Qed.
Lemma rope_positions_spec_witness :
  let debug : DebugAssertions := true in
  rope_offset_to_point Text4.rope 4 = mkPoint 1 0 /\ rope_point_utf16_to_offset Text4.rope (mkPointUtf16 1 2) = Ret 8.
Proof.
  intros debug.
  split.
  - exact (proj1 (proj2 (proj1 (rope_positions_spec _ _ 4 Text4.rope_holds eq_refl Text4.rope_shallow)))).
  - destruct (rope_positions_spec _ _ 8 Text4.rope_holds eq_refl Text4.rope_shallow) as (_ & _ & _ & H & _). exact H.
Defined.

(** C40. Boundaries of characters: the rope finds exactly those of the text, rounds an
    offset down and up as the text does (to its end past the end, empty ropes too), so
    [clip_offset] gives the nearest boundary on either side; and the assertion holds
    exactly at the boundaries, and off them panics when told to, with debug assertions
    inside the text in any case. *)
Theorem rope_boundaries_spec (debug : DebugAssertions) r s o :
  holds r s ->
  rope_is_char_boundary r o = is_char_boundary s o
  /\ (forall PANIC, rope_assert_char_boundary PANIC r o
        = if is_char_boundary s o then Ret true
          else if PANIC || (debug && (o <? length s)) then Panic else Ret false)
  /\ (length s <= o -> clip_offset r o Left = length s /\ clip_offset r o Right = length s)
  /\ (o <= length s ->
      let i := clip_offset r o Left in let j := clip_offset r o Right in
      boundary s i /\ boundary s j /\ i <= o <= j /\ j <= length s
      /\ (forall k, i < k < j -> k <> o -> is_char_boundary s k = false) /\ (boundary s o -> i = o /\ j = o)).
Proof.
  intros (ts & Hr & <-). rewrite !(clip_offset_ok r ts Hr). split_and!.
  - by apply rope_is_char_boundary_ok.
  - intros PANIC. by apply assert_char_boundary_ok.
  - intros Ho. unfold str_floor_char_boundary, str_ceil_char_boundary.
    by destruct (Nat.leb_spec (length (concat ts)) o); [|lia].
  - intros Ho. destruct (floor_spec _ o Ho) as (F1 & F2 & F3), (ceil_spec _ o Ho) as (C1 & C2 & C3).
    cbv zeta in *. split_and!; try done; try lia.
    + intros k Hk Hne. destruct (decide (k < o)); [apply F3|apply C3]; lia.
    + intros Hb. split; [by apply floor_id|by apply ceil_id].
Qed.
Lemma rope_boundaries_spec_witness :
  clip_offset Text4.rope 2 Left = 1 /\ clip_offset Text4.rope 5 Right = 8
  /\ rope_is_char_boundary Text4.rope 2 = false /\ 9 <= clip_offset Text4.rope 9 Left + 1.
Proof.
  destruct (rope_boundaries_spec true _ _ 9 Text4.rope_holds) as (_ & _ & H & _).
  destruct (H ltac:(cbn; lia)) as [H9 _]. rewrite H9.
  split; [vm_compute; reflexivity|]. split; [vm_compute; reflexivity|]. split; [vm_compute; reflexivity|cbn; lia].
Defined.

(** C26. Building and cutting chunks, over the bits: [new], eight bytes at a time, gives the
    bitmaps that mark the text's characters, UTF-16 units, newlines and tabs, and
    appending, prepending, splitting and slicing bitmaps by shifts and masks give the
    chunks of the text so joined and cut.  Joining panics exactly when the text does not
    fit in 128 bytes.  Splitting panics exactly at an offset that is no boundary of the
    text, except at 128, which is taken for the end whatever the length.  A slice with its
    ends in the text does not panic: it is the text between them, an end inside a character
    rounded inwards and a range with nothing left empty, provided its start does not round
    up to 128.  The summary counted from the bitmaps is the one the loop over characters
    computes, and the tabs come out in order. *)
Theorem chunk_ops_spec s :
  ChunkSpec.fits s ->
  new s = Ret (chunk_of s)
  /\ text_summary (chunk_of s) = summary_of s
  /\ (forall i, chunk_is_char_boundary (chunk_of s) i = is_char_boundary s i
        /\ chunk_floor_char_boundary (chunk_of s) i = Ret (str_floor_char_boundary s i))
  /\ (forall t, utf8 t -> push_str (chunk_of s) t
        = if (length t <=? MAX_BASE) && (length s + length t <=? MAX_BASE) then Ret (chunk_of (s ++ t)) else Panic)
  /\ (forall t, utf8 t -> prepend_str (chunk_of s) t
        = if (length t <=? MAX_BASE) && (length t + length s <=? MAX_BASE) then Ret (chunk_of (t ++ s)) else Panic)
  /\ (forall mid, Chunk.split_at (chunk_of s) mid
        = if is_char_boundary s mid || (mid =? MAX_BASE) then Ret (chunk_of (take mid s), chunk_of (drop mid s)) else Panic)
  /\ (forall i j, i <= j -> boundary s i -> boundary s j -> Chunk.slice (chunk_of s) i j = Ret (chunk_of (take (j - i) (drop i s))))
  /\ (forall i j, i <= j <= length s -> i = MAX_BASE \/ str_ceil_char_boundary s i <> MAX_BASE ->
        let i' := str_ceil_char_boundary s i in let j' := i' `max` str_floor_char_boundary s j in
        Chunk.slice (chunk_of s) i j = Ret (chunk_of (take (j' - i') (drop i' s))))
  /\ tabs_all (S (length s)) (chunk_tabs_iter (chunk_of s))
     = map (fun i => mkTabPosition i (ones (take i (boundaries s)))) (ones_at 0 (tabs s)).
Proof.
  intros Hs. split_and!; [by apply new_fits|by apply text_summary_spec| |intros..|].
  - intros i. split; [by apply is_char_boundary_spec|apply chunk_floor_char_boundary_spec].
  - unfold push_str. rewrite new_spec by done. destruct (Nat.leb_spec (length t) MAX_BASE); [|done].
    cbn [mbind res_bind andb]. rewrite append_spec by apply Hs. destruct (Nat.eqb_spec (length t) 0) as [E|]; [|done].
    cbn [orb]. pose proof (fits_len _ Hs). by destruct (Nat.leb_spec (length s + length t) MAX_BASE); [|lia].
  - unfold prepend_str. rewrite new_spec by done. destruct (Nat.leb_spec (length t) MAX_BASE); [|done].
    cbn [mbind res_bind andb]. rewrite prepend_spec by done. destruct (Nat.eqb_spec (length t) 0) as [E|]; [|done].
    cbn [orb]. pose proof (fits_len _ Hs). by destruct (Nat.leb_spec (length t + length s) MAX_BASE); [|lia].
  - rewrite split_at_spec by done. pose proof (fits_len _ Hs). destruct (Nat.eqb_spec mid MAX_BASE) as [->|].
    + by rewrite orb_true_r, take_ge, drop_ge by lia.
    + by rewrite orb_false_r.
  - by apply slice_boundaries.
  - by apply slice_rounds.
  - by apply tabs_iter_spec.
Qed.
Lemma chunk_ops_spec_witness :
  text_summary (chunk_of Text4.text) = mkTextSummary 8 4 5 (mkPoint 1 4) 2 1 2 0 2
  /\ Chunk.split_at (chunk_of Text4.text) 2 = Panic.
Proof.
  destruct (chunk_ops_spec Text4.text Text4.sample_fits) as (_ & -> & _ & _ & _ & H & _).
  rewrite (H 2). split; vm_compute; reflexivity.
Defined.

(** C27. Positions inside a chunk, by counting and selecting bits: at every boundary each
    conversion between bytes, UTF-16 units, points and UTF-16 points gives the measure
    of the text before it and leads back, in any build.  A point beyond its row or beyond
    the last row is reported: with debug assertions the conversion panics, without them it
    gives the end of the row or of the text.  So is a UTF-16 point there or inside a
    character, where the boundary below is given, unless it is to be clipped: then the same
    offsets are given without a report.  Clipping UTF-16 units gives the nearest boundary on
    the side asked for. *)
Theorem chunk_positions_spec `{DebugAssertions} s :
  ChunkSpec.fits s ->
  (forall o, boundary s o ->
     (offset_to_point (chunk_of s) o = point_at s o /\ point_to_offset (chunk_of s) (point_at s o) = Ret o)
     /\ (offset_to_offset_utf16 (chunk_of s) o = utf16_at s o /\ offset_utf16_to_offset (chunk_of s) (utf16_at s o) = o)
     /\ (offset_to_point_utf16 (chunk_of s) o = point_utf16_at s o
         /\ forall clip, point_utf16_to_offset (chunk_of s) (point_utf16_at s o) clip = Ret o)
     /\ point_to_offset_utf16 (chunk_of s) (point_at s o) = Ret (utf16_at s o)
     /\ point_to_point_utf16 (chunk_of s) (point_at s o) = Ret (point_utf16_at s o)
     /\ unclipped_point_utf16_to_point (chunk_of s) (point_utf16_at s o) = Ret (point_at s o))
  /\ (forall r, r <= row (lines (summary_of s)) -> exists i j, row_range s r i j
       /\ forall k, point_to_offset (chunk_of s) (mkPoint r k) = (if j - i <? k then debug_panic j else Ret (i + k))
          /\ let line := take (j - i) (drop i s) in
             forall clip, exists o, clipped line (utf16_at line) Left (k `min` len_utf16 (summary_of line)) o /\ i + o <= j
               /\ point_utf16_to_offset (chunk_of s) (mkPointUtf16 r k) clip
                  = if utf16_at line o =? k then Ret (i + o) else unless_clipped clip (i + o))
  /\ (forall p, row (lines (summary_of s)) < row p -> point_to_offset (chunk_of s) p = debug_panic (length s))
  /\ (forall p clip, row (lines (summary_of s)) < row16 p ->
       point_utf16_to_offset (chunk_of s) p clip = unless_clipped clip (length s))
  /\ (forall n bias, n <= len_utf16 (summary_of s) -> exists o,
       clip_offset_utf16 (chunk_of s) n bias = utf16_at s o /\ clipped s (utf16_at s) bias n o).
Proof.
  intros Hs. split_and!.
  - intros o Hb. split_and!; by auto using offset_to_point_spec, point_to_offset_spec, offset_to_offset_utf16_spec,
      offset_utf16_to_offset_spec, offset_to_point_utf16_spec, point_utf16_to_offset_spec, point_to_offset_utf16_spec,
      point_to_point_utf16_spec, unclipped_point_utf16_to_point_spec.
  - intros r Hr. destruct (offset_range_for_row_spec s r Hs Hr) as (i & j & _ & Hij). exists i, j. split; [done|].
    intros k. split; [by apply (point_to_offset_in_row s r i j k)|]. intros line clip. by apply point_utf16_to_offset_in_row.
  - intros p. by apply point_to_offset_beyond.
  - intros p clip. by apply point_utf16_to_offset_beyond.
  - intros n bias. by apply clip_offset_utf16_spec.
Qed.
Lemma chunk_positions_spec_witness :
  point_utf16_to_offset (H:=true) (chunk_of Text4.text) (mkPointUtf16 1 2) true = Ret 8
  /\ point_to_offset (H:=true) (chunk_of Text4.text) (mkPoint 7 0) = Panic
  /\ point_to_offset (H:=false) (chunk_of Text4.text) (mkPoint 7 0) = Ret 8.
Proof.
  destruct (chunk_positions_spec (H:=true) Text4.text Text4.sample_fits) as (H & _ & Hb & _).
  destruct (chunk_positions_spec (H:=false) Text4.text Text4.sample_fits) as (_ & _ & Hb' & _).
  split; [|split; [apply Hb; vm_compute; lia|apply Hb'; vm_compute; lia]].
  destruct (H 8 eq_refl) as (_ & _ & [_ H16] & _). exact (H16 true).
Defined.

(** C28. Selecting a bit.  For a word of 128 bits (64 for the half) and [n] from one to the
    number of its bits that are set, the branch-free selection, with its reversed and
    packed counters, gives the position of the [n]-th set bit: that bit is set and
    [n - 1] are below it. *)
Theorem nth_set_bit_correct (v : Z) (n : nat) :
  1 <= n <= count_ones v ->
  ((0 <= v < 2 ^ 128)%Z ->
     let i := nth_set_bit v n in i < 128 /\ Z.testbit v (Z.of_nat i) = true /\ count_ones (Z.land v (Z.ones (Z.of_nat i))) = n - 1)
  /\ ((0 <= v < 2 ^ 64)%Z ->
     let i := nth_set_bit_u64 v (Z.of_nat n) in
     (0 <= i < 64)%Z /\ Z.testbit v i = true /\ count_ones (Z.land v (Z.ones i)) = n - 1).
Proof.
  intros Hn. split; intros Hv.
  - pose proof (bits_to_bits 128 v Hv) as E. set (l := to_bits 128 v) in *. rewrite <-E in *. rewrite count_ones_bits in Hn.
    destruct (nth_set_bit_spec l n) as [H1 H2]; [unfold l; by rewrite length_to_bits|done|].
    cbv zeta. rewrite testbit_bits, H1, bits_take, count_ones_bits. split_and!; [|done..].
    pose proof (lookup_lt_Some _ _ _ H1) as Hlt. unfold l in Hlt at 2. by rewrite length_to_bits in Hlt.
  - pose proof (bits_to_bits 64 v Hv) as E. set (l := to_bits 64 v) in *. rewrite <-E in *. rewrite count_ones_bits in Hn.
    destruct (nth_set_bit_u64_spec l n) as (i & -> & H1 & H2); [unfold l; by rewrite length_to_bits|done|].
    cbv zeta. rewrite testbit_bits, H1, bits_take, count_ones_bits. split_and!; try done; try lia.
    pose proof (lookup_lt_Some _ _ _ H1) as Hlt. unfold l in Hlt. rewrite length_to_bits in Hlt. lia.
Qed.
Lemma nth_set_bit_correct_witness :
  Z.testbit (2 ^ 100 + 9) (Z.of_nat (nth_set_bit (2 ^ 100 + 9) 3)) = true
  /\ nth_set_bit (2 ^ 100 + 9) 3 = 100 /\ nth_set_bit_u64 9 2 = 3%Z.
Proof.
  destruct (nth_set_bit_correct (2 ^ 100 + 9) 3 ltac:(vm_compute; lia)) as [H _].
  destruct (H ltac:(lia)) as (_ & H1 & _). split; [exact H1|]. split; vm_compute; reflexivity.
Defined.

(** C18. Clipping never fails and gives positions of the text.  Any count of UTF-16 units is
    clipped to the nearest boundary on the side asked for, past the end to the end; any
    point and any UTF-16 point to the point of a boundary, which to the left is not after
    the one asked for and to the right not before it, unless that was past the end of
    its row.  The search for the end of a grapheme always ends. *)
Theorem rope_clips_spec `{Graphemes} `{!GraphemeLaws} r s bias :
  holds r s ->
  (forall n, exists o, rope_clip_offset_utf16 r (mkOffsetUtf16 n) bias = utf16_at s o
     /\ clipped s (utf16_at s) bias (n `min` len_utf16 (summary_of s)) o)
  /\ (forall p, exists o, rope_clip_point r p bias = Ret (Some (point_at s o)) /\ boundary s o
        /\ clip_side (point_ord (point_at s o) p) s bias o)
  /\ (forall p, exists o, rope_clip_point_utf16 r p bias = Ret (point_utf16_at s o) /\ boundary s o
        /\ clip_side (point_utf16_ord (point_utf16_at s o) p) s bias o).
Proof.
  intros (ts & Hr & <-). split_and!; intros;
    [by apply clip_offset_utf16_ok|by apply clip_point_ok|by apply clip_point_utf16_ok].
Qed.

(** Every place is the boundary of a grapheme. *)
Definition all_graphemes : Graphemes := fun _ _ => Some true.
Lemma all_graphemes_laws : @GraphemeLaws all_graphemes.
Proof. by split. Qed.
Lemma rope_clips_spec_witness :
  exists o, @rope_clip_point all_graphemes Text4.rope (mkPoint 0 2) Left = Ret (Some (point_at Text4.text o))
    /\ boundary Text4.text o.
Proof.
  destruct (@rope_clips_spec all_graphemes all_graphemes_laws _ _ Left Text4.rope_holds) as (_ & H & _).
  destruct (H (mkPoint 0 2)) as (o & E & Hb & _). by exists o.
Defined.

(** Summaries of texts.  A text's summary counts its bytes, characters, UTF-16 units and
    rows and the characters of its first, last and (first) longest row, rows being what
    newlines end; the summary of a text put together is the sum of the summaries; and
    summaries of texts are a monoid, so a tree may add them up in any grouping. *)
Theorem text_summaries_spec :
  (forall s, utf8 s -> rows_summarised (summary_of s) (row_chars s)
     /\ len (summary_of s) = length s /\ chars (summary_of s) = length (str_chars s)
     /\ len_utf16 (summary_of s) = sum_list_with char_len_utf16 (str_chars s))
  /\ (forall s t, utf8 s -> summary_of (s ++ t) = summary_add (summary_of s) (summary_of t))
  /\ (forall s, valid (summary_of s) = true) /\ valid summary_zero = true
  /\ (forall a b, valid a = true -> valid b = true -> valid (summary_add a b) = true)
  /\ (forall a, valid a = true -> summary_add summary_zero a = a /\ summary_add a summary_zero = a)
  /\ forall a b c, valid b = true -> summary_add (summary_add a b) c = summary_add a (summary_add b c).
Proof.
  split_and!; [|exact summary_of_app|exact summary_of_valid|done|exact add_valid| |exact summary_add_assoc].
  - intros s Hs. pose proof (counted_summaries (str_chars s)) as (Hc & Hu). split_and!; [apply summary_of_rows|done|done|done].
  - intros a Ha. split; [by apply add_zero_left|by apply add_zero_right].
Qed.
Lemma text_summaries_spec_witness :
  summary_of (Text4.text ++ Text4.text) = summary_add (summary_of Text4.text) (summary_of Text4.text)
  /\ row_chars (Text4.text ++ Text4.text) = [2; 3; 1].
Proof.
  destruct text_summaries_spec as (_ & H & _). split; [exact (H _ _ Text4.sample_utf8)|vm_compute; reflexivity].
Defined.
