(* ===== verification/RopeIter.v ===== *)
(** * Reading a rope ([crates/rope/src/rope.rs])

    The iterators over chunks, bytes and lines of a range, and what is read with them:
    [starts_with], [ends_with], [equals_str], [next_line] and [prev_line].  Subtraction of
    [usize] panics below zero.  A loop over an iterator has as much fuel as the tree's
    nodes and slots allow; running out is a panic here. *)

From S2P Require Import Prelude.
From S2P Require Import SumTree.
From S2P Require Import SumCursor.
From S2P Require Import Text.
From S2P Require Import Bits.
From S2P Require Import Chunk.
From S2P Require Import Rope.
Local Open Scope nat_scope.

Definition usub (a b : nat) : res nat := if b <=? a then Ret (a - b) else Panic.

(** ** What [str] does *)
Fixpoint str_find (c : Z) (s : str) : option nat :=
  match s with [] => None | b :: s => if (b =? c)%Z then Some 0 else S <$> str_find c s end.
Definition str_rfind (c : Z) (s : str) : option nat := (fun i => length s - S i) <$> str_find c (rev s).
Definition str_starts_with (s p : str) : bool := bool_decide (take (length p) s = p).
Definition str_ends_with (s p : str) : bool := bool_decide (drop (length s - length p) s = p).
(** [s.get(..n)] and [s.get(n..)]. *)
Definition str_get_to (s : str) (n : nat) : option str := if is_char_boundary s n then Some (take n s) else None.
Definition str_get_from (s : str) (n : nat) : option str := if is_char_boundary s n then Some (drop n s) else None.

(** ** Chunks of a range *)
Record Chunks := mkChunks {
  ch_cursor : cursor Chunk ChunkSummary nat;
  ch_start : nat;
  ch_end : nat;
  ch_offset : nat;
  ch_reversed : bool;
}.
Definition with_cursor (self : Chunks) c := mkChunks c (ch_start self) (ch_end self) (ch_offset self) (ch_reversed self).
Definition with_offset (self : Chunks) o := mkChunks (ch_cursor self) (ch_start self) (ch_end self) o (ch_reversed self).

Definition chunks_new (rope : Rope) (range_start range_end : nat) (reversed : bool) : res Chunks :=
  let offset := if reversed then range_end else range_start in
  c ← seek (cursor_new (rope_chunks rope)) offset (if reversed then Left else Right);
  let chunks := snd c in
  chunk_offset ← usub offset (start chunks);
  it ← item chunks;
  _ ← match it with Some chunk => chunk_assert_char_boundary true chunk chunk_offset | None => Ret true end;
  Ret (mkChunks chunks range_start range_end offset reversed).

Definition offset_is_valid (self : Chunks) : bool :=
  if ch_reversed self then negb ((ch_offset self <=? ch_start self) || (ch_end self <? ch_offset self))
  else negb ((ch_offset self <? ch_start self) || (ch_end self <=? ch_offset self)).

(** [offset.clamp(range.start, range.end)] panics on a range that is not in order. *)
Definition clamp (offset lo hi : nat) : res nat := if lo <=? hi then Ret ((offset `max` lo) `min` hi) else Panic.

Definition chunks_seek (self : Chunks) (offset : nat) : res Chunks :=
  offset ← clamp offset (ch_start self) (ch_end self);
  chunks_end ← cursor_end (ch_cursor self);
  c ← (if ch_reversed self then
         if chunks_end <? offset then snd <$> seek_forward (ch_cursor self) offset Left
         else if offset <=? start (ch_cursor self) then snd <$> seek (ch_cursor self) offset Left
         else Ret (ch_cursor self)
       else
         if chunks_end <=? offset then snd <$> seek_forward (ch_cursor self) offset Right
         else if offset <? start (ch_cursor self) then snd <$> seek (ch_cursor self) offset Right
         else Ret (ch_cursor self));
  Ret (with_offset (with_cursor self c) offset).

Definition set_range (self : Chunks) (range_start range_end : nat) : res Chunks :=
  chunks_seek (mkChunks (ch_cursor self) range_start range_end (ch_offset self) (ch_reversed self)) range_start.

(** What of the chunk the iterator is on belongs to it. *)
Definition peek_range (self : Chunks) : res (nat * nat) :=
  let chunk_start := start (ch_cursor self) in
  if ch_reversed self then
    slice_end ← usub (ch_offset self) chunk_start;
    Ret (chunk_start `max` ch_start self - chunk_start, slice_end)
  else
    slice_start ← usub (ch_offset self) chunk_start;
    chunks_end ← cursor_end (ch_cursor self);
    slice_end ← usub (chunks_end `min` ch_end self) chunk_start;
    Ret (slice_start, slice_end).

Definition peek (self : Chunks) : res (option str) :=
  if negb (offset_is_valid self) then Ret None
  else
    it ← item (ch_cursor self);
    match it with
    | None => Ret None
    | Some chunk =>
        range ← peek_range self;
        Some <$> str_slice (chunk_text chunk) (fst range) (snd range)
    end.

(** Going on after what was read, in [next] of [Chunks] and of [ChunkWithBitmaps]. *)
Definition chunks_advance (self : Chunks) (n : nat) : res Chunks :=
  if ch_reversed self then
    offset ← usub (ch_offset self) n;
    let self := with_offset self offset in
    if offset <=? start (ch_cursor self) then with_cursor self <$> prev (ch_cursor self) else Ret self
  else
    let self := with_offset self (ch_offset self + n) in
    chunks_end ← cursor_end (ch_cursor self);
    if chunks_end <=? ch_offset self then with_cursor self <$> next (ch_cursor self) else Ret self.

Definition chunks_next (self : Chunks) : res (option str * Chunks) :=
  p ← peek self;
  match p with
  | None => Ret (None, self)
  | Some chunk => self ← chunks_advance self (length chunk); Ret (Some chunk, self)
  end.

(** [Chunks] with the bitmaps. *)
Record ChunkBitmaps := mkChunkBitmaps { cb_text : str; cb_chars : Z; cb_tabs : Z; cb_newlines : Z }.
Definition peek_with_bitmaps (self : Chunks) : res (option ChunkBitmaps) :=
  if negb (offset_is_valid self) then Ret None
  else
    it ← item (ch_cursor self);
    match it with
    | None => Ret None
    | Some chunk =>
        range ← peek_range self;
        slice_text ← str_slice (chunk_text chunk) (fst range) (snd range);
        let chunk_start_offset := fst range in
        Ret (Some (mkChunkBitmaps slice_text (shr (chunk_chars chunk) chunk_start_offset)
          (shr (chunk_tabs chunk) chunk_start_offset) (shr (chunk_newlines chunk) chunk_start_offset)))
    end.
Definition bitmaps_next (self : Chunks) : res (option ChunkBitmaps * Chunks) :=
  p ← peek_with_bitmaps self;
  match p with
  | None => Ret (None, self)
  | Some b => self ← chunks_advance self (length (cb_text b)); Ret (Some b, self)
  end.

Definition iter_fuel (rope : Rope) : nat := fuel_for (rope_chunks rope).

(** Everything an iterator yields. *)
Fixpoint chunks_collect (fuel : nat) (self : Chunks) : res (list str) :=
  match fuel with
  | O => Panic
  | S fuel =>
      r ← chunks_next self;
      match r with (Some chunk, self) => cons chunk <$> chunks_collect fuel self | (None, _) => Ret [] end
  end.

(** *** Constructors of [Rope] *)
Definition chunks_in_range (self : Rope) (start end_ : nat) : res Chunks := chunks_new self start end_ false.
Definition reversed_chunks_in_range (self : Rope) (start end_ : nat) : res Chunks := chunks_new self start end_ true.
Definition chunks (self : Rope) : res Chunks := chunks_in_range self 0 (rope_len self).

(** [chars_at] and [reversed_chars_at], collected. *)
Definition chars_at (self : Rope) (start : nat) : res (list str) :=
  ck ← chunks_in_range self start (rope_len self);
  flat_map str_chars <$> chunks_collect (iter_fuel self) ck.
Definition rope_chars (self : Rope) : res (list str) := chars_at self 0.
Definition reversed_chars_at (self : Rope) (start : nat) : res (list str) :=
  ck ← reversed_chunks_in_range self 0 start;
  flat_map (fun chunk => rev (str_chars chunk)) <$> chunks_collect (iter_fuel self) ck.

(** *** Comparing *)
Fixpoint starts_loop (fuel : nat) (ck : Chunks) (remaining : str) : res bool :=
  match fuel with
  | O => Panic
  | S fuel =>
      r ← chunks_next ck;
      match r with
      | (None, _) => Ret (length remaining =? 0)
      | (Some chunk, ck) =>
          match str_get_to chunk (length remaining `min` length chunk) with
          | None => Ret false
          | Some chunk =>
              if str_starts_with remaining chunk then
                remaining ← str_slice remaining (length chunk) (length remaining);
                if length remaining =? 0 then Ret true else starts_loop fuel ck remaining
              else Ret false
          end
      end
  end.
Definition starts_with (self : Rope) (pattern : str) : res bool :=
  if rope_len self <? length pattern then Ret false
  else ck ← chunks_in_range self 0 (rope_len self); starts_loop (iter_fuel self) ck pattern.

Fixpoint ends_loop (fuel : nat) (ck : Chunks) (remaining : str) : res bool :=
  match fuel with
  | O => Panic
  | S fuel =>
      r ← chunks_next ck;
      match r with
      | (None, _) => Ret (length remaining =? 0)
      | (Some chunk, ck) =>
          match str_get_from chunk (length chunk - length remaining `min` length chunk) with
          | None => Ret false
          | Some chunk =>
              if str_ends_with remaining chunk then
                n ← usub (length remaining) (length chunk);
                remaining ← str_slice remaining 0 n;
                if length remaining =? 0 then Ret true else ends_loop fuel ck remaining
              else Ret false
          end
      end
  end.
Definition ends_with (self : Rope) (pattern : str) : res bool :=
  if rope_len self <? length pattern then Ret false
  else ck ← reversed_chunks_in_range self 0 (rope_len self); ends_loop (iter_fuel self) ck pattern.

Fixpoint equals_loop (fuel : nat) (ck : Chunks) (other : str) (offset : nat) : res bool :=
  match fuel with
  | O => Panic
  | S fuel =>
      r ← chunks_next ck;
      match r with
      | (None, _) => Ret (offset =? length other)
      | (Some chunk, ck) =>
          if length other <=? offset then Ret false
          else
            rest ← str_slice other offset (length other);
            if str_starts_with rest chunk then equals_loop fuel ck other (offset + length chunk) else Ret false
      end
  end.
Fixpoint equals_reversed_loop (fuel : nat) (ck : Chunks) (other : str) (offset : nat) : res bool :=
  match fuel with
  | O => Panic
  | S fuel =>
      r ← chunks_next ck;
      match r with
      | (None, _) => Ret (offset =? 0)
      | (Some chunk, ck) =>
          rest ← str_slice other 0 offset;
          if str_ends_with rest chunk then
            offset ← usub offset (length chunk);
            equals_reversed_loop fuel ck other offset
          else Ret false
      end
  end.
Definition equals_str (fuel : nat) (self : Chunks) (other : str) : res bool :=
  if ch_reversed self then equals_reversed_loop fuel self other (length other)
  else equals_loop fuel self other 0.

(** *** Moving by lines *)
Definition more_rows (s : ChunkSummary) : bool := 0 <? row (lines (summary_text s)).

(** The part of [next_line] under [if let Some(chunk) = self.peek()]. *)
Definition next_line_step (self : Chunks) : res (bool * Chunks) :=
  p ← peek self;
  match p with
  | None => Ret (false, self)
  | Some chunk =>
      r ← match str_find NEWLINE chunk with
          | Some newline_ix =>
              let self := with_offset self (ch_offset self + (newline_ix + 1)) in
              Ret (ch_offset self <=? ch_end self, self)
          | None =>
              c ← search_forward more_rows (ch_cursor self);
              let self := with_offset (with_cursor self c) (start c) in
              p ← peek self;
              match match p with Some chunk => str_find NEWLINE chunk | None => None end with
              | Some newline_ix =>
                  let self := with_offset self (ch_offset self + (newline_ix + 1)) in
                  Ret (ch_offset self <=? ch_end self, self)
              | None => chunks_end ← cursor_end (ch_cursor self); Ret (false, with_offset self chunks_end)
              end
          end;
      let '(found, self) := r in
      chunks_end ← cursor_end (ch_cursor self);
      if ch_offset self =? chunks_end then n ← chunks_next self; Ret (found, snd n) else Ret (found, self)
  end.
Definition next_line (self : Chunks) : res (bool * Chunks) :=
  _ ← assert (negb (ch_reversed self));
  r ← next_line_step self;
  let '(found, self) := r in
  if ch_end self <? ch_offset self then
    let offset := ch_offset self `min` ch_end self in
    c ← seek (ch_cursor self) offset Right;
    Ret (found, with_offset (with_cursor self (snd c)) offset)
  else Ret (found, self).

(** The newline before the line in the chunk the cursor is on. *)
Definition prev_newline (self : Chunks) : res (option nat) :=
  it ← item (ch_cursor self);
  match it with
  | None => Ret None
  | Some chunk =>
      end_ix ← usub (ch_offset self) (start (ch_cursor self));
      i ← usub end_ix 1;
      b ← index (chunk_text chunk) i;
      let end_ix := if (b =? NEWLINE)%Z then i else end_ix in
      before ← str_slice (chunk_text chunk) 0 end_ix;
      Ret ((fun newline_ix => start (ch_cursor self) + newline_ix + 1) <$> str_rfind NEWLINE before)
  end.
(** The rest of [prev_line], from [search_backward] on. *)
Definition prev_line_back (self : Chunks) (initial_offset : nat) : res (bool * Chunks) :=
  c ← search_backward more_rows (ch_cursor self);
  let self := with_offset (with_cursor self c) (start c) in
  it ← item c;
  let there := match it with
               | None => None
               | Some chunk => (fun newline_ix => start c + newline_ix + 1) <$> str_rfind NEWLINE (chunk_text chunk)
               end in
  let self := match there with Some o => with_offset self o | None => self end in
  if match there with Some _ => offset_is_valid self | None => false end then
    chunks_end ← cursor_end c;
    if ch_offset self =? chunks_end then c ← next c; Ret (true, with_cursor self c) else Ret (true, self)
  else
    self ← (if negb (offset_is_valid self) || match it with None => true | Some _ => false end then
              c ← seek c (ch_start self) Right;
              Ret (with_offset (with_cursor self (snd c)) (ch_start self))
            else Ret self);
    Ret ((ch_offset self <? initial_offset) && (ch_offset self =? 0), self).
Definition prev_line (self : Chunks) : res (bool * Chunks) :=
  _ ← assert (negb (ch_reversed self));
  let initial_offset := ch_offset self in
  self ← (if ch_offset self =? start (ch_cursor self) then with_cursor self <$> prev (ch_cursor self) else Ret self);
  here ← prev_newline self;
  let self := match here with Some o => with_offset self o | None => self end in
  if match here with Some _ => offset_is_valid self | None => false end then Ret (true, self)
  else prev_line_back self initial_offset.

(** ** Lines *)
Record Lines := mkLines { ln_chunks : Chunks; ln_current : str; ln_done : bool; ln_reversed : bool }.
Definition lines_of (self : Chunks) : Lines := mkLines self [] false (ch_reversed self).

(** The first (from behind, the last) part of [split('\n')], and whether there is another. *)
Definition split_first (chunk : str) : str * bool :=
  match str_find NEWLINE chunk with Some i => (take i chunk, true) | None => (chunk, false) end.
Definition split_last (chunk : str) : str * bool :=
  match str_rfind NEWLINE chunk with Some i => (drop (S i) chunk, true) | None => (chunk, false) end.

Fixpoint lines_loop (fuel : nat) (self : Lines) : res (str * Lines) :=
  match fuel with
  | O => Panic
  | S fuel =>
      let '(mkLines ck current _ reversed) := self in
      p ← peek ck;
      match p with
      | None => Ret (current, mkLines ck current true reversed)
      | Some chunk =>
          if reversed then
            let '(chunk_line, done) := split_last chunk in
            if done : bool then
              o ← usub (ch_offset ck) (length chunk_line);
              o ← usub o 1;
              ck ← chunks_seek ck o;
              if length current =? 0 then Ret (chunk_line, mkLines ck current false reversed)
              else Ret (chunk_line ++ current, mkLines ck (chunk_line ++ current) false reversed)
            else
              n ← chunks_next ck;
              lines_loop fuel (mkLines (snd n) (chunk_line ++ current) false reversed)
          else
            let '(chunk_line, done) := split_first chunk in
            if done : bool then
              ck ← chunks_seek ck (ch_offset ck + length chunk_line + 1);
              if length current =? 0 then Ret (chunk_line, mkLines ck current false reversed)
              else Ret (current ++ chunk_line, mkLines ck (current ++ chunk_line) false reversed)
            else
              n ← chunks_next ck;
              lines_loop fuel (mkLines (snd n) (current ++ chunk_line) false reversed)
      end
  end.
Definition lines_next (fuel : nat) (self : Lines) : res (option str * Lines) :=
  if ln_done self then Ret (None, self)
  else
    r ← lines_loop fuel (mkLines (ln_chunks self) [] (ln_done self) (ln_reversed self));
    Ret (Some (fst r), snd r).
Definition lines_seek (self : Lines) (offset : nat) : res Lines :=
  ck ← chunks_seek (ln_chunks self) offset;
  Ret (mkLines ck [] false (ln_reversed self)).
Definition lines_offset (self : Lines) : nat := ch_offset (ln_chunks self).

(** ** Bytes *)
Record Bytes := mkBytes { by_cursor : cursor Chunk ChunkSummary nat; by_start : nat; by_end : nat; by_reversed : bool }.

Definition bytes_new (rope : Rope) (range_start range_end : nat) (reversed : bool) : res Bytes :=
  c ← (if reversed then seek (cursor_new (rope_chunks rope)) range_end Left
       else seek (cursor_new (rope_chunks rope)) range_start Right);
  Ret (mkBytes (snd c) range_start range_end reversed).
Definition bytes_in_range (self : Rope) (start end_ : nat) : res Bytes := bytes_new self start end_ false.
Definition reversed_bytes_in_range (self : Rope) (start end_ : nat) : res Bytes := bytes_new self start end_ true.

(** [&bytes[start..end]]. *)
Definition bytes_slice (s : str) (start end_ : nat) : res str :=
  if (start <=? end_) && (end_ <=? length s) then Ret (take (end_ - start) (drop start s)) else Panic.

Definition bytes_peek (self : Bytes) : res (option str) :=
  it ← item (by_cursor self);
  match it with
  | None => Ret None
  | Some chunk =>
      chunks_end ← cursor_end (by_cursor self);
      let chunk_start := start (by_cursor self) in
      if by_reversed self && (chunks_end <=? by_start self) then Ret None
      else if by_end self <=? chunk_start then Ret None
      else Some <$> bytes_slice (chunk_text chunk) (by_start self - chunk_start)
                      (length (chunk_text chunk) `min` (by_end self - chunk_start))
  end.

Definition bytes_step (self : Bytes) : res Bytes :=
  c ← (if by_reversed self then prev (by_cursor self) else next (by_cursor self));
  Ret (mkBytes c (by_start self) (by_end self) (by_reversed self)).
Definition bytes_next (self : Bytes) : res (option str * Bytes) :=
  p ← bytes_peek self;
  match p with None => Ret (None, self) | Some _ => self ← bytes_step self; Ret (p, self) end.

(** [io::Read::read] into a buffer of [n] bytes: what is written to it. *)
Definition bytes_read (self : Bytes) (n : nat) : res (str * Bytes) :=
  p ← bytes_peek self;
  match p with
  | None => Ret ([], self)
  | Some chunk =>
      let len := n `min` length chunk in
      r ← (if by_reversed self then
             end_ ← usub (by_end self) len;
             Ret (rev (drop (length chunk - len) chunk), mkBytes (by_cursor self) (by_start self) end_ true)
           else Ret (take len chunk, mkBytes (by_cursor self) (by_start self + len) (by_end self) false));
      let '(out, self) := r in
      if len =? length chunk then self ← bytes_step self; Ret (out, self) else Ret (out, self)
  end.

(** Everything [next] yields, and what reading [n] bytes at a time until nothing comes gives
    ([read_to_end]). *)
Fixpoint bytes_collect (fuel : nat) (self : Bytes) : res (list str) :=
  match fuel with
  | O => Panic
  | S fuel =>
      r ← bytes_next self;
      match r with (Some chunk, self) => cons chunk <$> bytes_collect fuel self | (None, _) => Ret [] end
  end.
Fixpoint bytes_read_all (fuel : nat) (self : Bytes) (n : nat) : res str :=
  match fuel with
  | O => Panic
  | S fuel =>
      r ← bytes_read self n;
      let '(out, self) := r in
      if length out =? 0 then Ret [] else app out <$> bytes_read_all fuel self n
  end.

(** Everything [ChunkWithBitmaps] yields. *)
Fixpoint bitmaps_collect (fuel : nat) (self : Chunks) : res (list ChunkBitmaps) :=
  match fuel with
  | O => Panic
  | S fuel =>
      r ← bitmaps_next self;
      match r with (Some b, self) => cons b <$> bitmaps_collect fuel self | (None, _) => Ret [] end
  end.
