(* ===== verification/RopeIterSpec.v ===== *)
(** * Reading a rope: what the iterators yield

    An iterator over a range has read the text up to an offset (from the end of the range
    on, when it is reversed); what it yields next is what follows. *)

From S2P Require Import Prelude SumTree SumCursor SumTreeInvariant SumTreeFind SumCursorSeek SumCursorSearch SumIter.
From S2P Require Import Text TextSpec Bits Utf8 Chunk ChunkSpec ChunkPositions.
From S2P Require Import Rope RopeSpec RopeCursorSpec RopePositionsSpec RopeIter.
Local Open Scope nat_scope.

#[local] Arguments summary_of : simpl never.

Implicit Types (s t : str) (ts pre post : list str) (o e : nat).

(** The text from one offset to another. *)
Definition between s (i j : nat) : str := take (j - i) (drop i s).

Lemma length_between s i j : j <= length s -> length (between s i j) = j - i.
Proof. intros. unfold between. rewrite length_take, length_drop. lia. Qed.
Lemma between_nil s i j : j <= i -> between s i j = [].
Proof. intros. unfold between. by replace (j - i) with 0 by lia. Qed.
Lemma between_split s i j k : i <= j <= k -> k <= length s -> between s i k = between s i j ++ between s j k.
Proof.
  intros H Hk. unfold between. rewrite <-(take_drop (j - i) (take (k - i) (drop i s))). f_equal.
  - rewrite take_take. f_equal. lia.
  - rewrite skipn_firstn_comm, drop_drop. f_equal; [lia|]. f_equal. lia.
Qed.
Lemma between_utf8 s i j : utf8 s -> boundary s i -> boundary s j -> i <= j -> utf8 (between s i j).
Proof.
  intros Hs Hi Hj Hij. unfold between. destruct (boundary_split _ _ Hs Hi) as (_ & _ & Hd).
  pose proof (boundary_le _ _ Hs Hj). refine (proj1 (proj2 (boundary_split _ _ Hd _))).
  rewrite boundary_drop by (done || lia). by replace (i + (j - i)) with j by lia.
Qed.

(** A part of a piece of the text. *)
Lemma between_piece (a t z : str) (i j : nat) :
  i <= j <= length t -> between (a ++ t ++ z) (length a + i) (length a + j) = between t i j.
Proof. intros H. unfold between. rewrite (within_piece a t z i j H). done. Qed.

Section Reading.
Context (r : Rope) (ts : list str) (Hr : rope_of r ts) (Hsh : shallow r).
Notation s := (concat ts).
Notation stands := (stands r ts).

Lemma read_utf8 : utf8 s.
Proof. apply pieces_utf8, Hr. Qed.

(** ** Seeking *)

(** The piece an offset is in: before its end, and after its start. *)
Definition inside_right pre post o : Prop :=
  match post with t :: _ => length (concat pre) <= o < length (concat pre) + length t | [] => o = length s end.
Definition inside_left pre post o : Prop :=
  match post with
  | t :: _ => length (concat pre) <= o <= length (concat pre) + length t /\ (pre <> [] -> length (concat pre) < o)
  | [] => ts = []
  end.

Lemma sought_left pre post o :
  Forall piece pre -> Forall piece post -> length (concat pre) <= o <= length (concat (pre ++ post)) ->
  let n := length (concat pre) in
  let b := before (D:=nat) o Left n (map chunk_of post) in
  exists mid post', post = mid ++ post' /\ b = map chunk_of mid /\ drop (length b) (map chunk_of post) = map chunk_of post'
    /\ match post' with
       | t :: _ => length (concat (pre ++ mid)) <= o <= length (concat (pre ++ mid)) + length t
           /\ (mid <> [] -> length (concat (pre ++ mid)) < o)
       | [] => post = []
       end.
Proof.
  intros Hpre Hpost Ho. cbv zeta.
  destruct (before_chunks (D:=nat) o Left (length (concat pre)) post) as (mid & post' & -> & Eb & Ed).
  exists mid, post'. split_and!; [done..|]. apply Forall_app in Hpost as [Hm Hp'].
  pose proof (before_stops (D:=nat) o Left (length (concat pre)) (map chunk_of (mid ++ post'))) as [H1 H2].
  rewrite Eb in *. rewrite Ed in H2. rewrite concat_app, length_app.
  assert (mid <> [] -> length (concat pre) + length (concat mid) < o) as Hlt.
  { intros Hne. specialize (H1 ltac:(by destruct mid)). rewrite advance_len_from in H1 by done.
    unfold target_in, target_cmp, len_target in H1.
    destruct (Nat.compare_spec o (length (concat pre) + length (concat mid))); (done || lia). }
  destruct post' as [|t post'].
  - destruct mid as [|m mid]; [done|]. specialize (Hlt ltac:(done)).
    rewrite app_nil_r, concat_app, length_app in Ho. lia.
  - cbn [map] in H2. change [chunk_of t] with (map chunk_of [t]) in H2. rewrite <-map_app in H2.
    rewrite advance_len_from in H2 by (apply Forall_app; split; [done|]; constructor; [by apply (Forall_inv Hp')|constructor]).
    rewrite concat_app, length_app in H2. cbn [concat] in H2. rewrite app_nil_r in H2.
    unfold target_in, target_cmp, len_target in H2. split; [|done].
    assert (length (concat pre) + length (concat mid) <= o) by (destruct mid; [cbn; lia|specialize (Hlt ltac:(done)); lia]).
    destruct (Nat.compare_spec o (length (concat pre) + (length (concat mid) + length t))); (done || lia).
Qed.

Lemma seek_on_right c pre post o :
  stands c pre post -> length (concat pre) <= o <= length s ->
  exists b c' pre' post', seek_forward c o Right = Ret (b, c') /\ stands c' pre' post' /\ inside_right pre' post' o.
Proof.
  intros [E Hc] Ho. destruct (pieces_parts r ts Hr pre post E) as [H1 H2].
  destruct (seek_forward_ok (D:=nat) _ _ o Right _ _ _ _ Hsh (rope_wf _ _ Hr) Hc (ahead_place r ts Hr pre post E)
    (len_seekable r ts Hr o pre post E ltac:(lia))) as (c' & -> & Hc').
  destruct (sought_offset pre post o H1 H2) as (mid & post' & E' & Eb & Ed & Hin'); [rewrite <-E; lia|].
  unfold left_over, passed in Hc'. rewrite advance_len in Hc' by done. rewrite Eb in Ed, Hc'. rewrite Ed, <-map_app in Hc'.
  assert (ts = (pre ++ mid) ++ post') as E2 by (by rewrite E, E', app_assoc).
  eexists _, c', (pre ++ mid), post'. split_and!; [reflexivity|done|].
  destruct post'; [|done]. cbn. by rewrite E2, app_nil_r.
Qed.

Lemma seek_on_left c pre post o :
  stands c pre post -> post <> [] \/ ts = [] -> length (concat pre) <= o <= length s -> (pre <> [] -> length (concat pre) < o) ->
  exists b c' pre' post', seek_forward c o Left = Ret (b, c') /\ stands c' pre' post' /\ inside_left pre' post' o.
Proof.
  intros [E Hc] Hne Ho Hst. destruct (pieces_parts r ts Hr pre post E) as [H1 H2].
  destruct (seek_forward_ok (D:=nat) _ _ o Left _ _ _ _ Hsh (rope_wf _ _ Hr) Hc (ahead_place r ts Hr pre post E)
    (len_seekable r ts Hr o pre post E ltac:(lia))) as (c' & -> & Hc').
  destruct (sought_left pre post o H1 H2) as (mid & post' & E' & Eb & Ed & Hin'); [rewrite <-E; lia|].
  unfold left_over, passed in Hc'. rewrite advance_len in Hc' by done. rewrite Eb in Ed, Hc'. rewrite Ed, <-map_app in Hc'.
  assert (ts = (pre ++ mid) ++ post') as E2 by (by rewrite E, E', app_assoc).
  eexists _, c', (pre ++ mid), post'. split_and!; [reflexivity|done|].
  destruct post' as [|t post']; cbn [inside_left].
  - destruct Hne as [Hne|]; [|done]. by rewrite Hin' in Hne.
  - split; [lia|]. intros Hpm. destruct mid as [|m mid]; [rewrite app_nil_r in *; by apply Hst|by apply Hin'].
Qed.

Lemma seek_at (c : cursor Chunk ChunkSummary nat) p (o : nat) bias :
  at_place (rope_chunks r) (height (rope_chunks r)) c p -> o <= length s ->
  exists b c' pre' post', seek c o bias = Ret (b, c') /\ stands c' pre' post'
    /\ match bias with Right => inside_right pre' post' o | Left => inside_left pre' post' o end.
Proof.
  intros Hc Ho. destruct (seek_ok (D:=nat) _ _ o bias _ _ Hsh (rope_wf _ _ Hr) Hc) as (c' & -> & Hc').
  { rewrite (rope_list _ _ Hr). by apply (len_seekable r ts Hr o [] ts); [|cbn; lia]. }
  rewrite (rope_list _ _ Hr) in Hc'. change (dim_zero (D:=nat)) with 0 in Hc'.
  eexists _, c'. destruct bias.
  - destruct (sought_left [] ts o) as (pre & post & E & Eb & Ed & Hin); [constructor|apply Hr|cbn; lia|].
    cbn [concat length app] in *. rewrite Eb in Ed, Hc'. rewrite Ed in Hc'. exists pre, post.
    split_and!; [reflexivity|done|]. by destruct post.
  - destruct (sought_offset [] ts o) as (pre & post & E & Eb & Ed & Hin); [constructor|apply Hr|cbn; lia|].
    cbn [concat length app] in *. rewrite Eb in Ed, Hc'. rewrite Ed in Hc'. exists pre, post.
    split_and!; [reflexivity|done|]. destruct post; [|done]. cbn. by rewrite E, app_nil_r.
Qed.

(** ** Forward *)

(** A forward iterator over [[a, b)] that has read up to [o]; at the end of the range its
    cursor may still be on the chunk just read. *)
Record forward_at ck (a b o : nat) pre post : Prop := {
  fwd_start : ch_start ck = a;
  fwd_end : ch_end ck = b;
  fwd_offset : ch_offset ck = o;
  fwd_dir : ch_reversed ck = false;
  fwd_stands : stands (ch_cursor ck) pre post;
  fwd_order : a <= o <= b /\ b <= length s;
  fwd_inside : match post with
               | t :: _ => length (concat pre) <= o <= length (concat pre) + length t
                           /\ (o < b -> o < length (concat pre) + length t)
               | [] => o = length s
               end;
}.

Lemma read_piece c pre t post i j :
  stands c pre (t :: post) -> i <= j <= length t ->
  boundary s (length (concat pre) + i) -> boundary s (length (concat pre) + j) ->
  str_slice t i j = Ret (between s (length (concat pre) + i) (length (concat pre) + j)).
Proof.
  intros H Hij Hi Hj. destruct (stands_text r ts Hr _ _ _ _ H) as (E & Hu1 & Hft & Hu2). rewrite E in *.
  assert (boundary t i) as Hbi by (apply (piece_boundary (concat pre) t (concat post)); (apply Hft || done || lia)).
  assert (boundary t j) as Hbj by (apply (piece_boundary (concat pre) t (concat post)); (apply Hft || done || lia)).
  unfold str_slice. rewrite Hbi, Hbj, between_piece by done. destruct (Nat.leb_spec i j); [done|lia].
Qed.

Lemma usub_ok (x y : nat) : y <= x -> usub x y = Ret (x - y).
Proof. intros. unfold usub. destruct (Nat.leb_spec y x); [done|lia]. Qed.

Lemma stands_end c pre t post : stands c pre (t :: post) -> length (concat pre) + length t <= length s.
Proof. intros H. destruct (stands_text r ts Hr _ _ _ _ H) as (-> & _). rewrite !length_app. lia. Qed.

(** What [peek] reads: none of the range is left, or the rest of the chunk. *)
Lemma peek_forward ck a b o pre post :
  forward_at ck a b o pre post -> boundary s o -> boundary s b ->
  (o = b /\ peek ck = Ret None)
  \/ (exists t post' e, post = t :: post' /\ o < e /\ e = (length (concat pre) + length t) `min` b
       /\ boundary s e /\ peek_range ck = Ret (o - length (concat pre), e - length (concat pre))
       /\ str_slice t (o - length (concat pre)) (e - length (concat pre)) = Ret (between s o e)
       /\ item (ch_cursor ck) = Ret (Some (chunk_of t)) /\ offset_is_valid ck = true
       /\ peek ck = Ret (Some (between s o e))).
Proof.
  intros [Ea Eb Eo Ed Hst [Ho Hb] Hin] Hbo Hbb. destruct (stands_reads r ts Hr _ _ _ Hst) as (Hitem & Hend & Hpos).
  assert (offset_is_valid ck = (o <? b)) as Ev.
  { unfold offset_is_valid. rewrite Ea, Eb, Eo, Ed. destruct (Nat.ltb_spec o a), (Nat.leb_spec b o), (Nat.ltb_spec o b); (done || lia). }
  destruct (Nat.ltb_spec o b) as [Hlt|Hge].
  2: { left. split; [lia|]. unfold peek. by rewrite Ev. }
  right. destruct post as [|t post]; [lia|]. destruct Hin as [Hin Hin']. specialize (Hin' Hlt).
  exists t, post, ((length (concat pre) + length t) `min` b). cbn [head fmap option_fmap option_map default] in *.
  assert (boundary s ((length (concat pre) + length t) `min` b)) as Hbe.
  { destruct (Nat.min_spec (length (concat pre) + length t) b) as [[_ ->]|[_ ->]]; [|done].
    apply (boundary_at_piece_end r ts Hr _ _ _ _ Hst). }
  assert (peek_range ck = Ret (o - length (concat pre), (length (concat pre) + length t) `min` b - length (concat pre))) as Hrange.
  { unfold peek_range. rewrite Ed, Hend, Hpos, Eo, Eb. unfold id. rewrite usub_ok by lia. cbn [mbind res_bind]. by rewrite usub_ok by lia. }
  pose proof (read_piece _ _ _ _ (o - length (concat pre)) ((length (concat pre) + length t) `min` b - length (concat pre)) Hst) as Hread.
  replace (length (concat pre) + (o - length (concat pre))) with o in Hread by lia.
  replace (length (concat pre) + ((length (concat pre) + length t) `min` b - length (concat pre)))
    with ((length (concat pre) + length t) `min` b) in Hread by lia.
  specialize (Hread ltac:(lia) Hbo Hbe). split_and!; try done; [lia|].
  unfold peek. rewrite Ev, Hitem. cbn [negb mbind res_bind]. rewrite Hrange. cbn [mbind res_bind fst snd chunk_of chunk_text].
  by rewrite Hread.
Qed.

Lemma advance_forward ck a b o pre t post e :
  forward_at ck a b o pre (t :: post) -> o < e -> e = (length (concat pre) + length t) `min` b ->
  exists ck' pre' post', chunks_advance ck (e - o) = Ret ck' /\ forward_at ck' a b e pre' post'
    /\ (e < b -> post' = post).
Proof.
  intros [Ea Eb Eo Ed Hst [Ho Hb] Hin] Hlt Ee. destruct (stands_reads r ts Hr _ _ _ Hst) as (_ & Hend & _).
  cbn [head default] in *. unfold chunks_advance. rewrite Ed. cbn [ch_cursor with_offset ch_offset ch_start ch_end]. rewrite Hend, Eo.
  cbn [mbind res_bind]. unfold id. replace (o + (e - o)) with e by lia. pose proof (stands_end _ _ _ _ Hst) as Hse.
  destruct (Nat.leb_spec (length (concat pre) + length t) e) as [Hle|Hgt].
  - destruct Hst as [E Hc]. destruct (next_ok _ _ (rope_wf _ _ Hr) _ _ Hsh Hc) as (c' & -> & Hc').
    cbn [map place_of later fst snd] in Hc'. change [chunk_of t] with (map chunk_of [t]) in Hc'. rewrite <-map_app in Hc'.
    assert (ts = (pre ++ [t]) ++ post) as E2 by (by rewrite <-app_assoc).
    exists (with_cursor (with_offset ck e) c'), (pre ++ [t]), post. cbn [fmap res_fmap]. split_and!; [|split; cbn; try done; try lia|done].
    + by rewrite <-?Eo, ?Nat.add_sub.
    + rewrite concat_app, length_app. cbn [concat]. rewrite app_nil_r.
      destruct post as [|t2 post]; [|].
      * rewrite E2, app_nil_r, concat_app, length_app. cbn [concat]. rewrite app_nil_r. lia.
      * destruct (pieces_parts r ts Hr _ _ E) as [_ Hp]. pose proof (Forall_inv (Forall_inv_tail Hp)) as [_ Hne].
        assert (0 < length t2) by (destruct t2; [done|cbn; lia]). lia.
  - exists (with_offset ck e), pre, (t :: post). split_and!; [done|split; cbn; try done; lia|lia].
Qed.

Lemma next_forward ck a b o pre post :
  forward_at ck a b o pre post -> boundary s o -> boundary s b ->
  (o = b /\ chunks_next ck = Ret (None, ck))
  \/ (exists t post' e ck' pre2 post2, post = t :: post' /\ o < e /\ e = (length (concat pre) + length t) `min` b /\ boundary s e
       /\ chunks_next ck = Ret (Some (between s o e), ck') /\ forward_at ck' a b e pre2 post2 /\ (e < b -> post2 = post')).
Proof.
  intros H Hbo Hbb. unfold chunks_next.
  destruct (peek_forward ck a b o pre post H Hbo Hbb) as [[E ->]|(t & post' & e & -> & Hlt & Ee & Hbe & _ & _ & _ & _ & ->)]; [by left|right].
  destruct (advance_forward ck a b o pre t post' e H Hlt Ee) as (ck' & pre2 & post2 & Ea & H' & Hp).
  exists t, post', e, ck', pre2, post2. cbn [mbind res_bind]. rewrite length_between by (pose proof (fwd_order _ _ _ _ _ _ H); lia).
  by rewrite Ea.
Qed.

(** Everything to the end of the range, in parts that are not empty. *)
Lemma collect_forward fuel ck a b o pre post :
  forward_at ck a b o pre post -> boundary s o -> boundary s b -> length post < fuel ->
  exists parts, chunks_collect fuel ck = Ret parts /\ concat parts = between s o b
    /\ Forall (fun x => x <> [] /\ utf8 x) parts.
Proof.
  revert ck o pre post. induction fuel as [|fuel IH]; intros ck o pre post H Hbo Hbb Hf; [lia|]. cbn [chunks_collect].
  destruct (next_forward ck a b o pre post H Hbo Hbb) as [[-> ->]|(t & post' & e & ck' & pre2 & post2 & -> & Hlt & Ee & Hbe & -> & H' & Hp)];
    cbn [mbind res_bind].
  - exists []. by rewrite between_nil.
  - pose proof (fwd_order _ _ _ _ _ _ H) as [Ho Hb]. cbn [length] in Hf.
    assert (exists parts, chunks_collect fuel ck' = Ret parts /\ concat parts = between s e b
      /\ Forall (fun x => x <> [] /\ utf8 x) parts) as (parts & -> & Ec & Hall).
    { destruct (decide (e < b)) as [Heb|Heb].
      - rewrite (Hp Heb) in H'. apply (IH ck' e pre2 post' H' Hbe Hbb). lia.
      - exists []. rewrite between_nil by lia. split_and!; [|done..]. destruct fuel as [|fuel]; [lia|]. cbn [chunks_collect].
        destruct (next_forward ck' a b e pre2 post2 H' Hbe Hbb) as [[_ ->]|(? & ? & e' & ? & ? & ? & _ & ? & ? & _)]; [done|lia]. }
    exists (between s o e :: parts). split; [done|]. cbn [concat]. rewrite Ec, <-between_split by lia. split; [done|].
    constructor; [|done]. split; [|apply between_utf8; (apply read_utf8 || done || lia)].
    intros E0. pose proof (length_between s o e) as Hl. rewrite E0 in Hl. cbn [length] in Hl. lia.
Qed.

Lemma new_forward a b :
  a <= b -> b <= length s -> boundary s a ->
  exists ck pre post, chunks_new r a b false = Ret ck /\ forward_at ck a b a pre post.
Proof.
  intros Hab Hb Hba. unfold chunks_new.
  destruct (seek_at _ _ a Right (new_at_place _ _) ltac:(lia)) as (f & c & pre & post & -> & Hst & Hin). cbn [mbind res_bind snd].
  destruct (stands_reads r ts Hr _ _ _ Hst) as (Hitem & Hend & Hpos). rewrite Hitem.
  destruct post as [|t post]; cbn [head fmap option_fmap option_map].
  - destruct Hst as [E Hc]. rewrite (start_ok _ _ _ _ Hc). cbn [map place_of]. rewrite (rope_list _ _ Hr), advance_len by apply Hr.
    cbn in Hin. subst a. rewrite usub_ok by done. cbn [mbind res_bind]. eexists _, pre, []. split; [reflexivity|].
    split; cbn; try done; lia.
  - rewrite Hpos. cbn in Hin. rewrite usub_ok by lia. cbn [mbind res_bind].
    destruct (stands_text r ts Hr _ _ _ _ Hst) as (E & Hu1 & Hft & Hu2).
    unfold chunk_assert_char_boundary. rewrite is_char_boundary_spec by done.
    assert (boundary t (a - length (concat pre))) as ->.
    { apply (piece_boundary (concat pre) t (concat post)); [done|apply Hft|done| |lia].
      rewrite <-E. by replace (length (concat pre) + (a - length (concat pre))) with a by lia. }
    cbn [mbind res_bind]. eexists _, pre, (t :: post). split; [reflexivity|]. split; cbn; try done; lia.
Qed.

(** [seek], to any offset; past the range it is clamped. *)
Lemma clamp_ok (o a b : nat) : a <= b -> clamp o a b = Ret ((o `max` a) `min` b).
Proof. intros. unfold clamp. destruct (Nat.leb_spec a b); [done|lia]. Qed.

Lemma seek_forward_iter ck a b o pre post n :
  forward_at ck a b o pre post -> a <= n <= b ->
  exists ck' pre' post', chunks_seek ck n = Ret ck' /\ forward_at ck' a b n pre' post'.
Proof.
  intros [Ea Eb Eo Ed Hst [Ho Hb] Hin] Hn. destruct (stands_reads r ts Hr _ _ _ Hst) as (_ & Hend & Hpos).
  unfold chunks_seek. rewrite Ea, Eb, Ed, clamp_ok, Hend by lia. cbn [mbind res_bind]. replace ((n `max` a) `min` b) with n by lia.
  assert (forall c' pre' post', stands c' pre' post' -> inside_right pre' post' n ->
    forward_at (with_offset (with_cursor ck c') n) a b n pre' post') as Hnew.
  { intros c' pre' post' Hst' Hin'. split; cbn; try done. destruct post'; [done|]. cbn in Hin'. lia. }
  assert (length (concat pre) <= length s) as Hpre.
  { destruct Hst as [-> _]. rewrite concat_app, length_app. lia. }
  destruct (Nat.leb_spec (length (concat pre) + length (default [] (head post))) n) as [Hle|Hgt].
  - destruct (seek_on_right _ _ _ n Hst ltac:(lia)) as (f & c' & pre' & post' & -> & Hst' & Hin'). cbn [fmap res_fmap snd mbind res_bind].
    eexists _, pre', post'. split; [reflexivity|by apply Hnew].
  - destruct (Nat.ltb_spec n (start (ch_cursor ck))) as [Hlt|Hge].
    + destruct (seek_at _ _ n Right (proj2 Hst) ltac:(lia)) as (f & c' & pre' & post' & -> & Hst' & Hin'). cbn [fmap res_fmap snd mbind res_bind].
      eexists _, pre', post'. split; [reflexivity|by apply Hnew].
    + cbn [mbind res_bind]. exists (with_offset (with_cursor ck (ch_cursor ck)) n), pre, post. split; [done|].
      apply Hnew; [done|]. destruct post as [|t post]; cbn in *; [|unfold id in *; lia].
      destruct Hst as [E Hc]. rewrite (start_ok _ _ _ _ Hc) in Hge. cbn [map place_of] in Hge.
      rewrite (rope_list _ _ Hr), advance_len in Hge by apply Hr. lia.
Qed.

(** ** Backward *)

(** A reversed iterator over [[a, b)] that has read down to [o]; when the first chunk is
    read its cursor is before it. *)
Record reversed_at ck (a b o : nat) pre post : Prop := {
  rev_start : ch_start ck = a;
  rev_end : ch_end ck = b;
  rev_offset : ch_offset ck = o;
  rev_dir : ch_reversed ck = true;
  rev_order : a <= o <= b /\ b <= length s;
  rev_inside : match post with
               | t :: _ => stands (ch_cursor ck) pre post /\ length (concat pre) <= o <= length (concat pre) + length t
                           /\ (a < o -> length (concat pre) < o)
               | [] => item (ch_cursor ck) = Ret None /\ pre = [] /\ o = a
               end;
}.

Lemma peek_reversed ck a b o pre post :
  reversed_at ck a b o pre post -> boundary s o -> boundary s a ->
  (o = a /\ peek ck = Ret None)
  \/ (exists t post' e, post = t :: post' /\ e < o /\ e = length (concat pre) `max` a
       /\ boundary s e /\ peek ck = Ret (Some (between s e o))).
Proof.
  intros [Ea Eb Eo Ed [Ho Hb] Hin] Hbo Hba.
  assert (offset_is_valid ck = (a <? o)) as Ev.
  { unfold offset_is_valid. rewrite Ea, Eb, Eo, Ed. destruct (Nat.leb_spec o a), (Nat.ltb_spec b o), (Nat.ltb_spec a o); (done || lia). }
  destruct (Nat.ltb_spec a o) as [Hlt|Hge].
  2: { left. split; [lia|]. unfold peek. by rewrite Ev. }
  right. destruct post as [|t post]; [lia|]. destruct Hin as (Hst & Hin & Hin'). specialize (Hin' Hlt).
  destruct (stands_reads r ts Hr _ _ _ Hst) as (Hitem & _ & Hpos).
  exists t, post, (length (concat pre) `max` a). cbn [head fmap option_fmap option_map] in *.
  assert (boundary s (length (concat pre) `max` a)) as Hbe.
  { destruct (Nat.max_spec (length (concat pre)) a) as [[_ ->]|[_ ->]]; [done|].
    rewrite <-(Nat.add_0_r (length (concat pre))). apply (boundary_at_piece_start r ts Hr _ _ _ Hst). }
  pose proof (read_piece _ _ _ _ (length (concat pre) `max` a - length (concat pre)) (o - length (concat pre)) Hst) as Hread.
  replace (length (concat pre) + (o - length (concat pre))) with o in Hread by lia.
  replace (length (concat pre) + (length (concat pre) `max` a - length (concat pre))) with (length (concat pre) `max` a) in Hread by lia.
  specialize (Hread ltac:(lia) Hbe Hbo). split_and!; try done; [lia|].
  unfold peek, peek_range. rewrite Ev, Hitem, Ed, Hpos, Eo, Ea. cbn [negb mbind res_bind]. rewrite usub_ok by lia.
  cbn [mbind res_bind fst snd chunk_of chunk_text]. by rewrite Hread.
Qed.

Lemma advance_reversed ck a b o pre t post e :
  reversed_at ck a b o pre (t :: post) -> e < o -> e = length (concat pre) `max` a ->
  exists ck' pre' post', chunks_advance ck (o - e) = Ret ck' /\ reversed_at ck' a b e pre' post' /\ (a < e -> length pre' < length pre).
Proof.
  intros [Ea Eb Eo Ed [Ho Hb] (Hst & Hin & Hin')] Hlt Ee. destruct (stands_reads r ts Hr _ _ _ Hst) as (_ & _ & Hpos).
  unfold chunks_advance. rewrite Ed, Eo, usub_ok by lia. cbn [mbind res_bind]. cbn [ch_cursor with_offset ch_offset]. rewrite Hpos.
  replace (o - (o - e)) with e by lia. pose proof Hst as [E Hc].
  destruct (Nat.leb_spec e (length (concat pre))) as [Hle|Hgt].
  - destruct (snoc_cases pre) as [->|(pre' & t' & ->)].
    + destruct (prev_front _ _ (rope_wf _ _ Hr) _ _ Hsh Hc) as (c' & -> & Hc'); [done|rewrite (rope_list _ _ Hr), E; done|].
      exists (with_cursor (with_offset ck e) c'), [], []. split_and!; [done| |cbn in *; lia].
      split; cbn; try done; try lia. rewrite (item_ok _ _ _ _ Hc'). split_and!; [done|done|cbn in *; lia].
    + cbn [map place_of] in Hc. rewrite map_app in Hc.
      destruct (prev_ok _ _ (rope_wf _ _ Hr) _ _ (map chunk_of pre') (chunk_of t') Hsh Hc) as (c' & -> & Hc'); [done|].
      cbn [earlier snd] in Hc'. rewrite concat_app, length_app in *. cbn [concat] in *. rewrite app_nil_r in *.
      exists (with_cursor (with_offset ck e) c'), pre', (t' :: t :: post).
      destruct (pieces_parts r ts Hr _ _ E) as [Hp _]. apply Forall_app in Hp as [_ Hp]. pose proof (Forall_inv Hp) as [_ Hne].
      assert (0 < length t') by (destruct t'; [done|cbn; lia]).
      split_and!; [done| |intros _; cbn; lia].
      split; cbn; try done; try lia. split; [split; [by rewrite E, <-app_assoc|done]|lia].
  - exists (with_offset ck e), pre, (t :: post). split_and!; [done| |lia].
    split; cbn; try done; try lia. split; [done|lia].
Qed.

Lemma next_reversed ck a b o pre post :
  reversed_at ck a b o pre post -> boundary s o -> boundary s a ->
  (o = a /\ chunks_next ck = Ret (None, ck))
  \/ (exists e ck' pre2 post2, a <= e < o /\ boundary s e /\ chunks_next ck = Ret (Some (between s e o), ck')
       /\ reversed_at ck' a b e pre2 post2 /\ (a < e -> length pre2 < length pre)).
Proof.
  intros H Hbo Hba. unfold chunks_next.
  destruct (peek_reversed ck a b o pre post H Hbo Hba) as [[E ->]|(t & post' & e & -> & Hlt & Ee & Hbe & ->)]; [by left|right].
  destruct (advance_reversed ck a b o pre t post' e H Hlt Ee) as (ck' & pre2 & post2 & Ea & H' & Hp).
  exists e, ck', pre2, post2. cbn [mbind res_bind]. rewrite length_between by (pose proof (rev_order _ _ _ _ _ _ H); lia).
  rewrite Ea. split_and!; try done; lia.
Qed.

Lemma collect_reversed fuel ck a b o pre post :
  reversed_at ck a b o pre post -> boundary s o -> boundary s a -> length pre + 1 < fuel ->
  exists parts, chunks_collect fuel ck = Ret parts /\ concat (rev parts) = between s a o
    /\ Forall (fun x => x <> [] /\ utf8 x) parts.
Proof.
  revert ck o pre post. induction fuel as [|fuel IH]; intros ck o pre post H Hbo Hba Hf; [lia|]. cbn [chunks_collect].
  destruct (next_reversed ck a b o pre post H Hbo Hba) as [[-> ->]|(e & ck' & pre2 & post2 & Hlt & Hbe & -> & H' & Hp)];
    cbn [mbind res_bind].
  - exists []. by rewrite between_nil.
  - pose proof (rev_order _ _ _ _ _ _ H) as [Ho Hb].
    assert (exists parts, chunks_collect fuel ck' = Ret parts /\ concat (rev parts) = between s a e
      /\ Forall (fun x => x <> [] /\ utf8 x) parts) as (parts & -> & Ec & Hall).
    { destruct (decide (a < e)) as [Hae|Hae].
      - specialize (Hp Hae). apply (IH ck' e pre2 post2 H' Hbe Hba). lia.
      - exists []. rewrite between_nil by lia. split_and!; [|done..]. destruct fuel as [|fuel]; [lia|]. cbn [chunks_collect].
        destruct (next_reversed ck' a b e pre2 post2 H' Hbe Hba) as [[_ ->]|(e' & ? & ? & ? & ? & _)]; [done|lia]. }
    exists (between s e o :: parts). split; [done|]. cbn [rev]. rewrite concat_app, Ec. cbn [concat]. rewrite app_nil_r.
    rewrite <-between_split by lia. split; [done|].
    constructor; [|done]. split; [|apply between_utf8; (apply read_utf8 || done || lia)].
    intros E0. pose proof (length_between s e o) as Hl. rewrite E0 in Hl. cbn [length] in Hl. lia.
Qed.

(** Where seeking to the left leaves a reversed iterator. *)
Lemma reversed_intro ck c a b o pre post :
  ch_start ck = a -> ch_end ck = b -> ch_reversed ck = true -> a <= o <= b -> b <= length s ->
  stands c pre post -> inside_left pre post o ->
  exists pre' post', reversed_at (with_offset (with_cursor ck c) o) a b o pre' post' /\ length pre' <= length pre.
Proof.
  intros Ea Eb Ed Ho Hb Hst Hin. destruct post as [|t post]; cbn in Hin.
  - exists [], []. split; [|cbn; lia]. split; cbn; try done. destruct (stands_reads r ts Hr _ _ _ Hst) as (-> & _ & _).
    rewrite Hin in Hb. cbn in Hb. split_and!; [done|done|lia].
  - exists pre, (t :: post). split; [|done]. split; cbn; try done. split_and!; [done|lia|lia|].
    intros Hao. destruct pre; [cbn; lia|]. by apply Hin.
Qed.

Lemma new_reversed a b :
  a <= b -> b <= length s -> boundary s b ->
  exists ck pre post, chunks_new r a b true = Ret ck /\ reversed_at ck a b b pre post /\ length pre <= length ts.
Proof.
  intros Hab Hb Hbb. unfold chunks_new.
  destruct (seek_at _ _ b Left (new_at_place _ _) Hb) as (f & c & pre & post & -> & Hst & Hin). cbn [mbind res_bind snd].
  assert (length pre <= length ts) as Hlen by (destruct Hst as [-> _]; rewrite length_app; lia).
  destruct (reversed_intro (mkChunks c a b b true) c a b b pre post) as (pre' & post' & H & Hle); [done..|lia|done|done|done|].
  destruct (stands_reads r ts Hr _ _ _ Hst) as (Hitem & Hend & Hpos). rewrite Hitem.
  destruct post as [|t post]; cbn [head fmap option_fmap option_map].
  - destruct Hst as [E Hc]. rewrite (start_ok _ _ _ _ Hc). cbn [map place_of]. rewrite (rope_list _ _ Hr), advance_len by apply Hr.
    assert (length s = 0) as E0 by (cbn in Hin; by rewrite Hin). rewrite E0 in *. rewrite usub_ok by lia. cbn [mbind res_bind].
    eexists _, pre', post'. split_and!; [reflexivity|done|lia].
  - rewrite Hpos. cbn in Hin. rewrite usub_ok by lia. cbn [mbind res_bind].
    destruct (stands_text r ts Hr _ _ _ _ Hst) as (E & Hu1 & Hft & Hu2).
    unfold chunk_assert_char_boundary. rewrite is_char_boundary_spec by done.
    assert (boundary t (b - length (concat pre))) as ->.
    { apply (piece_boundary (concat pre) t (concat post)); [done|apply Hft|done| |lia].
      rewrite <-E. by replace (length (concat pre) + (b - length (concat pre))) with b by lia. }
    cbn [mbind res_bind]. eexists _, pre', post'. split_and!; [reflexivity|done|lia].
Qed.

Lemma seek_reversed_iter ck a b o pre t post n :
  reversed_at ck a b o pre (t :: post) -> a <= n <= b ->
  exists ck' pre' post', chunks_seek ck n = Ret ck' /\ reversed_at ck' a b n pre' post' /\ length pre' <= length ts.
Proof.
  intros [Ea Eb Eo Ed [Ho Hb] (Hst & Hin & Hin')] Hn. destruct (stands_reads r ts Hr _ _ _ Hst) as (_ & Hend & Hpos).
  unfold chunks_seek. rewrite Ea, Eb, Ed, clamp_ok, Hend by lia. cbn [mbind res_bind head default]. unfold id.
  replace ((n `max` a) `min` b) with n by lia. rewrite Hpos.
  assert (forall c' pre' post', stands c' pre' post' -> inside_left pre' post' n -> exists pre2 post2,
    reversed_at (with_offset (with_cursor ck c') n) a b n pre2 post2 /\ length pre2 <= length ts) as Hnew.
  { intros c' pre' post' Hst' Hin2. assert (length pre' <= length ts) by (destruct Hst' as [-> _]; rewrite length_app; lia).
    destruct (reversed_intro ck c' a b n pre' post') as (p2 & q2 & ? & ?); try done. exists p2, q2. split; [done|lia]. }
  destruct (Nat.ltb_spec (length (concat pre) + length t) n) as [Hgt|Hle].
  - destruct (seek_on_left _ _ _ n Hst) as (f & c' & pre' & post' & -> & Hst' & Hin2); [by left|lia|lia|].
    cbn [fmap res_fmap snd mbind res_bind]. destruct (Hnew _ _ _ Hst' Hin2) as (? & ? & ? & ?). by eexists _, _, _.
  - destruct (Nat.leb_spec n (length (concat pre))) as [Hlt|Hge].
    + destruct (seek_at _ _ n Left (proj2 Hst) ltac:(lia)) as (f & c' & pre' & post' & -> & Hst' & Hin2).
      cbn [fmap res_fmap snd mbind res_bind]. destruct (Hnew _ _ _ Hst' Hin2) as (? & ? & ? & ?). by eexists _, _, _.
    + cbn [mbind res_bind]. destruct (Hnew _ pre (t :: post) Hst) as (? & ? & ? & ?); [cbn; lia|]. by eexists _, _, _.
Qed.
End Reading.
