(* ===== verification/RopeReadSpec.v ===== *)
(** * Reading a rope: comparing with a text, lines and bytes *)

From S2P Require Import Prelude SumTree SumCursor SumTreeInvariant SumTreeFind SumCursorSeek SumCursorSearch SumIter.
From S2P Require Import Text TextSpec Bits Utf8 Chunk ChunkSpec ChunkPositions.
From S2P Require Import Rope RopeSpec RopeCursorSpec RopePositionsSpec RopeIter RopeIterSpec.
Local Open Scope nat_scope.

#[local] Arguments summary_of : simpl never.

Implicit Types (s t x y : str) (parts : list str).

(** ** Comparing *)

(** What iterators yield: parts of texts, none empty. *)
Notation part := (fun x => x <> [] /\ utf8 x).

Lemma collect_inv fuel ck parts :
  chunks_collect fuel ck = Ret parts ->
  exists n, fuel = S n /\ match parts with
  | [] => exists ck', chunks_next ck = Ret (None, ck')
  | x :: parts => exists ck', chunks_next ck = Ret (Some x, ck') /\ chunks_collect n ck' = Ret parts
  end.
Proof.
  destruct fuel as [|fuel]; [done|]. cbn [chunks_collect]. intros E. exists fuel. split; [done|].
  destruct (chunks_next ck) as [[[x|] ck']|]; cbn [mbind res_bind] in E; [|injection E as <-; by exists ck'|done].
  destruct (chunks_collect fuel ck') as [ps|] eqn:Ec; [|done]. injection E as <-. by exists ck'.
Qed.

Lemma prefix_iff (p x : str) : take (length p) x = p <-> exists y, x = p ++ y.
Proof.
  split; [intros E; exists (drop (length p) x); rewrite <-E at 1; by rewrite take_drop|].
  intros (y & ->). by rewrite take_app_length.
Qed.
Lemma suffix_iff (p x : str) : drop (length x - length p) x = p <-> exists y, x = y ++ p.
Proof.
  split; [intros E; exists (take (length x - length p) x); rewrite <-E at 2; by rewrite take_drop|].
  intros (y & ->). rewrite length_app. replace (length y + length p - length p) with (length y) by lia. by rewrite drop_app_length.
Qed.

(** A text that begins with a text goes on at a boundary. *)
Lemma slice_rest p y : utf8 p -> utf8 (p ++ y) -> str_slice (p ++ y) (length p) (length (p ++ y)) = Ret y.
Proof.
  intros Hp Hpy. pose proof (utf8_app_inv_l _ _ Hpy Hp) as Hy. unfold str_slice.
  rewrite boundary_between, boundary_length by done. destruct (Nat.leb_spec (length p) (length (p ++ y))) as [|H]; [|rewrite length_app in H; lia].
  cbn [andb]. rewrite drop_app_length, length_app. by rewrite take_ge by lia.
Qed.
Lemma slice_front p y : utf8 y -> utf8 (p ++ y) -> str_slice (p ++ y) 0 (length p) = Ret p.
Proof.
  intros Hy Hpy. unfold str_slice. rewrite boundary_between, boundary_zero by done. cbn [Nat.leb andb].
  rewrite drop_0, Nat.sub_0_r. by rewrite take_app_length.
Qed.

Lemma get_to_prefix (x rem : str) z : utf8 x -> utf8 rem -> x = rem ++ z -> is_char_boundary x (length rem) = true.
Proof. intros Hx Hrem ->. apply boundary_between. by apply (utf8_app_inv_l rem). Qed.

Lemma starts_loop_spec fuel ck parts rem :
  chunks_collect fuel ck = Ret parts -> Forall part parts -> utf8 rem ->
  starts_loop fuel ck rem = Ret (bool_decide (take (length rem) (concat parts) = rem)).
Proof.
  revert ck parts rem. induction fuel as [|fuel IH]; intros ck parts rem Hc Hall Hrem; [done|].
  destruct (collect_inv _ _ _ Hc) as (n & [= <-] & Hn). cbn [starts_loop].
  destruct parts as [|x parts]; [destruct Hn as (ck' & ->)|destruct Hn as (ck' & -> & Hc')]; cbn [mbind res_bind].
  { cbn [concat]. rewrite take_nil. f_equal. destruct rem; [by rewrite bool_decide_true|by rewrite bool_decide_false]. }
  apply Forall_cons in Hall as [[Hne Hx] Hall]. cbn [concat]. unfold str_get_to.
  destruct (is_char_boundary x (length rem `min` length x)) eqn:Hb.
  2: { f_equal. symmetry. apply bool_decide_false. intros (y & E)%prefix_iff.
       destruct (Nat.min_spec (length rem) (length x)) as [[Hlt Em]|[_ Em]]; rewrite Em in Hb; [|by rewrite boundary_length in Hb].
       assert (x = rem ++ drop (length rem) x) as Ex.
       { rewrite <-(take_drop (length rem) x) at 1. f_equal. rewrite <-(take_app_le x (concat parts)) by lia. rewrite E. by rewrite take_app_length. }
       by rewrite (get_to_prefix _ _ _ Hx Hrem Ex) in Hb. }
  unfold str_starts_with. rewrite length_take. replace (length rem `min` length x `min` length x) with (length rem `min` length x) by lia.
  destruct (Nat.min_spec (length rem) (length x)) as [[Hlt ->]|[Hge ->]].
  - rewrite (take_ge rem) by done. destruct (decide (rem = take (length rem) x)) as [E|E].
    + rewrite (bool_decide_true (rem = take (length rem) x)) by done.
      pose proof (slice_rest rem [] Hrem) as Hs. rewrite app_nil_r in Hs. rewrite Hs by done. cbn [mbind res_bind length Nat.eqb].
      f_equal. symmetry. apply bool_decide_true. rewrite take_app_le by lia. done.
    + rewrite bool_decide_false by done. f_equal. symmetry. apply bool_decide_false. rewrite take_app_le by lia. congruence.
  - rewrite (take_ge x) by done. destruct (decide (take (length x) rem = x)) as [(rem' & ->)%prefix_iff|E].
    + rewrite bool_decide_true by apply take_app_length. rewrite slice_rest by done. cbn [mbind res_bind].
      assert (take (length (x ++ rem')) (x ++ concat parts) = x ++ take (length rem') (concat parts)) as ->
        by (rewrite length_app; apply take_app_add).
      pose proof (utf8_app_inv_l _ _ Hrem Hx) as Hrem'.
      destruct (Nat.eqb_spec (length rem') 0) as [E0|_].
      * destruct rem'; [|done]. f_equal. symmetry. by apply bool_decide_true.
      * rewrite (IH ck' parts rem' Hc' Hall Hrem'). f_equal. apply bool_decide_ext. split; [by intros ->|apply app_inv_head].
    + rewrite bool_decide_false by done. f_equal. symmetry. apply bool_decide_false. intros (y & Ey)%prefix_iff. apply E.
      pose proof (f_equal (take (length x)) Ey) as E2. rewrite take_app_length, take_app_le in E2 by done. done.
Qed.

Lemma concat_rev_cons x parts : concat (rev (x :: parts)) = concat (rev parts) ++ x.
Proof. cbn [rev]. rewrite concat_app. cbn [concat]. by rewrite app_nil_r. Qed.

Lemma ends_loop_spec fuel ck parts rem :
  chunks_collect fuel ck = Ret parts -> Forall part parts -> utf8 rem ->
  let text := concat (rev parts) in
  ends_loop fuel ck rem = Ret (bool_decide (drop (length text - length rem) text = rem)).
Proof.
  revert ck parts rem. induction fuel as [|fuel IH]; intros ck parts rem Hc Hall Hrem; [done|].
  destruct (collect_inv _ _ _ Hc) as (n & [= <-] & Hn). cbn [ends_loop]. cbv zeta.
  destruct parts as [|x parts]; [destruct Hn as (ck' & ->)|destruct Hn as (ck' & -> & Hc')]; cbn [mbind res_bind].
  { cbn [rev concat length Nat.sub]. f_equal. destruct rem; [by rewrite bool_decide_true|by rewrite bool_decide_false]. }
  apply Forall_cons in Hall as [[Hne Hx] Hall]. rewrite concat_rev_cons. unfold str_get_from.
  set (before := concat (rev parts)) in *.
  destruct (Nat.min_spec (length rem) (length x)) as [[Hlt ->]|[Hge ->]].
  - assert (drop (length (before ++ x) - length rem) (before ++ x) = drop (length x - length rem) x) as ->.
    { rewrite length_app. replace (length before + length x - length rem) with (length before + (length x - length rem)) by lia.
      by rewrite drop_app_add. }
    destruct (is_char_boundary x (length x - length rem)) eqn:Hb.
    2: { f_equal. symmetry. apply bool_decide_false. intros (y & E)%suffix_iff. subst x.
         rewrite length_app, Nat.add_sub in Hb. by rewrite boundary_between in Hb. }
    unfold str_ends_with. rewrite length_drop. replace (length rem - (length x - (length x - length rem))) with 0 by lia.
    rewrite drop_0. destruct (decide (rem = drop (length x - length rem) x)) as [E|E].
    + rewrite bool_decide_true by done. rewrite usub_ok by lia.
      replace (length rem - (length x - (length x - length rem))) with 0 by lia. cbn [mbind res_bind].
      pose proof (slice_front [] rem Hrem Hrem) as Hs. cbn [app length] in Hs. rewrite Hs. cbn [mbind res_bind length Nat.eqb].
      f_equal. symmetry. by apply bool_decide_true.
    + rewrite bool_decide_false by done. f_equal. symmetry. apply bool_decide_false. congruence.
  - rewrite Nat.sub_diag, boundary_zero, drop_0. unfold str_ends_with.
    destruct (decide (drop (length rem - length x) rem = x)) as [(rem' & ->)%suffix_iff|E].
    + rewrite bool_decide_true by (rewrite length_app, Nat.add_sub; apply drop_app_length).
      rewrite usub_ok, length_app, Nat.add_sub by (rewrite length_app; lia). cbn [mbind res_bind].
      rewrite slice_front by done. cbn [mbind res_bind]. pose proof (utf8_app_inv _ _ Hrem Hx) as Hrem'.
      assert (drop (length (before ++ x) - (length rem' + length x)) (before ++ x) = rem' ++ x
        <-> drop (length before - length rem') before = rem') as Hiff.
      { rewrite <-length_app, !suffix_iff. split; intros (y & Ey); exists y.
        - rewrite app_assoc in Ey. by apply app_inv_tail in Ey.
        - by rewrite Ey, app_assoc. }
      destruct (Nat.eqb_spec (length rem') 0) as [E0|_].
      * destruct rem'; [|done]. f_equal. symmetry. apply bool_decide_true, Hiff. cbn [length]. rewrite Nat.sub_0_r. apply drop_all.
      * rewrite (IH ck' parts rem' Hc' Hall Hrem'). f_equal. apply bool_decide_ext. symmetry. exact Hiff.
    + rewrite bool_decide_false by done. f_equal. symmetry. apply bool_decide_false. rewrite suffix_iff. intros (y & Ey).
      apply E. apply suffix_iff. exists (drop (length y) before).
      assert (length y <= length before) as Hy.
      { pose proof (f_equal length Ey) as El. rewrite !length_app in El. lia. }
      apply (f_equal (drop (length y))) in Ey. rewrite drop_app_le in Ey by done. by rewrite drop_app_length in Ey.
Qed.

(** [equals_str]. *)
Lemma equals_loop_spec fuel ck parts other (offset : nat) :
  chunks_collect fuel ck = Ret parts -> Forall part parts -> utf8 other -> boundary other offset ->
  equals_loop fuel ck other offset = Ret (bool_decide (drop offset other = concat parts)).
Proof.
  revert ck parts offset. induction fuel as [|fuel IH]; intros ck parts offset Hc Hall Hu Hb; [done|].
  destruct (collect_inv _ _ _ Hc) as (n & [= <-] & Hn). cbn [equals_loop]. pose proof (boundary_le _ _ Hu Hb) as Hle.
  destruct parts as [|x parts]; [destruct Hn as (ck' & ->)|destruct Hn as (ck' & -> & Hc')]; cbn [mbind res_bind].
  { cbn [concat]. f_equal. destruct (Nat.eqb_spec offset (length other)) as [->|Hne].
    - symmetry. apply bool_decide_true. apply drop_all.
    - symmetry. apply bool_decide_false. intros E. pose proof (length_drop other offset) as El. rewrite E in El. cbn in El. lia. }
  apply Forall_cons in Hall as [[Hne Hx] Hall]. cbn [concat]. assert (0 < length x) by (destruct x; [done|cbn; lia]).
  destruct (Nat.leb_spec (length other) offset) as [Hge|Hlt].
  { f_equal. symmetry. apply bool_decide_false. rewrite drop_ge by done. intros E. by destruct x. }
  assert (str_slice other offset (length other) = Ret (drop offset other)) as ->.
  { unfold str_slice. unfold boundary in Hb. rewrite Hb, boundary_length. destruct (Nat.leb_spec offset (length other)); [|lia].
    cbn [andb]. by rewrite take_ge by (rewrite length_drop; lia). }
  cbn [mbind res_bind]. unfold str_starts_with. destruct (boundary_split _ _ Hu Hb) as (_ & _ & Hd).
  destruct (decide (take (length x) (drop offset other) = x)) as [(y & Ey)%prefix_iff|E].
  - rewrite bool_decide_true by (rewrite Ey; apply take_app_length). rewrite (IH ck' parts (offset + length x) Hc' Hall Hu).
    + f_equal. apply bool_decide_ext. rewrite <-drop_drop, Ey, drop_app_length. split; [by intros ->|apply app_inv_head].
    + unfold boundary. rewrite <-boundary_drop; [|done|rewrite <-length_drop, Ey, length_app; lia].
      rewrite Ey in Hd |- *. apply boundary_between. by apply (utf8_app_inv_l x).
  - rewrite bool_decide_false by done. f_equal. symmetry. apply bool_decide_false. intros Ed. apply E. rewrite Ed. apply take_app_length.
Qed.

Lemma equals_reversed_loop_spec fuel ck parts other (offset : nat) :
  chunks_collect fuel ck = Ret parts -> Forall part parts -> utf8 other -> boundary other offset ->
  equals_reversed_loop fuel ck other offset = Ret (bool_decide (take offset other = concat (rev parts))).
Proof.
  revert ck parts offset. induction fuel as [|fuel IH]; intros ck parts offset Hc Hall Hu Hb; [done|].
  destruct (collect_inv _ _ _ Hc) as (n & [= <-] & Hn). cbn [equals_reversed_loop]. pose proof (boundary_le _ _ Hu Hb) as Hle.
  destruct parts as [|x parts]; [destruct Hn as (ck' & ->)|destruct Hn as (ck' & -> & Hc')]; cbn [mbind res_bind].
  { cbn [rev concat]. f_equal. destruct (Nat.eqb_spec offset 0) as [->|Hne].
    - symmetry. by apply bool_decide_true.
    - symmetry. apply bool_decide_false. intros E. pose proof (length_take_le other offset Hle) as El. rewrite E in El. cbn in El. lia. }
  apply Forall_cons in Hall as [[Hne Hx] Hall]. rewrite concat_rev_cons.
  assert (str_slice other 0 offset = Ret (take offset other)) as ->.
  { unfold str_slice. unfold boundary in Hb. rewrite Hb, boundary_zero. cbn [Nat.leb andb]. by rewrite drop_0, Nat.sub_0_r. }
  cbn [mbind res_bind]. unfold str_ends_with. destruct (boundary_split _ _ Hu Hb) as (_ & Ht & _).
  destruct (decide (drop (length (take offset other) - length x) (take offset other) = x)) as [(y & Ey)%suffix_iff|E].
  - rewrite bool_decide_true by (rewrite Ey, length_app, Nat.add_sub; apply drop_app_length).
    assert (offset = length y + length x) as Eo by (rewrite <-length_app, <-Ey, length_take_le by done; done).
    rewrite usub_ok by lia. cbn [mbind res_bind]. replace (offset - length x) with (length y) by lia.
    assert (take (length y) other = y) as Ety.
    { pose proof (take_take other (length y) offset) as Et. rewrite Ey, take_app_length, Nat.min_l in Et by lia. done. }
    rewrite (IH ck' parts (length y) Hc' Hall Hu).
    + f_equal. apply bool_decide_ext. rewrite Ety, Ey. split; [by intros ->|apply app_inv_tail].
    + unfold boundary. rewrite <-(boundary_take other (length y) offset) by (done || lia). rewrite Ey. by apply boundary_between.
  - rewrite bool_decide_false by done. f_equal. symmetry. apply bool_decide_false. intros Ed. apply E. rewrite Ed.
    rewrite length_app, Nat.add_sub. apply drop_app_length.
Qed.

Section Reads.
Context (r : Rope) (ts : list str) (Hr : rope_of r ts) (Hsh : shallow r).
Notation s := (concat ts).

Lemma between_all (x : str) : between x 0 (length x) = x.
Proof. unfold between. rewrite drop_0, Nat.sub_0_r. by apply take_ge. Qed.

Lemma iter_fuel_enough : length ts + 1 < iter_fuel r.
Proof.
  pose proof (length_slots _ _ (rope_wf _ _ Hr)) as H. rewrite (rope_list _ _ Hr), length_map in H.
  unfold iter_fuel, fuel_for. lia.
Qed.

(** The chunks of a range, in order and backwards. *)
Lemma chunks_in_range_ok a b :
  a <= b -> b <= length s -> boundary s a -> boundary s b ->
  exists ck parts, chunks_in_range r a b = Ret ck /\ chunks_collect (iter_fuel r) ck = Ret parts
    /\ concat parts = between s a b /\ Forall part parts /\ ch_reversed ck = false.
Proof.
  intros Hab Hb Hba Hbb. destruct (new_forward r ts Hr Hsh a b Hab Hb Hba) as (ck & pre & post & E & H).
  pose proof iter_fuel_enough as Hf. pose proof (proj1 (fwd_stands _ _ _ _ _ _ _ _ H)) as Ets.
  assert (length post <= length ts) by (rewrite Ets, length_app; lia).
  destruct (collect_forward r ts Hr Hsh (iter_fuel r) ck a b a pre post H Hba Hbb) as (parts & Ec & Et & Hall); [lia|].
  exists ck, parts. split_and!; try done. apply H.
Qed.
Lemma reversed_chunks_in_range_ok a b :
  a <= b -> b <= length s -> boundary s a -> boundary s b ->
  exists ck parts, reversed_chunks_in_range r a b = Ret ck /\ chunks_collect (iter_fuel r) ck = Ret parts
    /\ concat (rev parts) = between s a b /\ Forall part parts /\ ch_reversed ck = true.
Proof.
  intros Hab Hb Hba Hbb. destruct (new_reversed r ts Hr Hsh a b Hab Hb Hbb) as (ck & pre & post & E & H & Hl).
  pose proof iter_fuel_enough as Hf.
  destruct (collect_reversed r ts Hr Hsh (iter_fuel r) ck a b b pre post H Hbb Hba) as (parts & Ec & Et & Hall); [lia|].
  exists ck, parts. split_and!; try done. apply H.
Qed.

Lemma starts_with_ok p : utf8 p -> starts_with r p = Ret (bool_decide (p `prefix_of` s)).
Proof.
  intros Hp. unfold starts_with. rewrite (rope_len_of _ _ Hr). destruct (Nat.ltb_spec (length s) (length p)) as [Hlt|_].
  { f_equal. symmetry. apply bool_decide_false. intros (y & E). rewrite E, length_app in Hlt. lia. }
  destruct (chunks_in_range_ok 0 (length s)) as (ck & parts & -> & Ec & Et & Hall & _); [lia|done|done|apply boundary_len|].
  cbn [mbind res_bind]. rewrite (starts_loop_spec _ _ _ _ Ec Hall Hp), Et, between_all. f_equal. apply bool_decide_ext, prefix_iff.
Qed.
Lemma ends_with_ok p : utf8 p -> ends_with r p = Ret (bool_decide (p `suffix_of` s)).
Proof.
  intros Hp. unfold ends_with. rewrite (rope_len_of _ _ Hr). destruct (Nat.ltb_spec (length s) (length p)) as [Hlt|_].
  { f_equal. symmetry. apply bool_decide_false. intros (y & E). rewrite E, length_app in Hlt. lia. }
  destruct (reversed_chunks_in_range_ok 0 (length s)) as (ck & parts & -> & Ec & Et & Hall & _); [lia|done|done|apply boundary_len|].
  cbn [mbind res_bind]. rewrite (ends_loop_spec _ _ _ _ Ec Hall Hp), Et, between_all. f_equal. apply bool_decide_ext, suffix_iff.
Qed.

Lemma equals_str_ok a b reversed other :
  a <= b -> b <= length s -> boundary s a -> boundary s b -> utf8 other ->
  exists ck, chunks_new r a b reversed = Ret ck
    /\ equals_str (iter_fuel r) ck other = Ret (bool_decide (other = between s a b)).
Proof.
  intros Hab Hb Hba Hbb Ho. unfold equals_str. destruct reversed.
  - destruct (reversed_chunks_in_range_ok a b) as (ck & parts & E & Ec & Et & Hall & Ed); [done..|]. exists ck. split; [done|].
    rewrite Ed, (equals_reversed_loop_spec _ _ _ _ _ Ec Hall Ho) by apply boundary_len. by rewrite Et, take_ge.
  - destruct (chunks_in_range_ok a b) as (ck & parts & E & Ec & Et & Hall & Ed); [done..|]. exists ck. split; [done|].
    rewrite Ed, (equals_loop_spec _ _ _ _ _ Ec Hall Ho) by done. by rewrite Et, drop_0.
Qed.

(** Characters, read chunk by chunk. *)
Lemma chars_parts parts : Forall part parts -> flat_map str_chars parts = str_chars (concat parts).
Proof.
  induction 1 as [|x parts [_ Hx] Hall IH]; [done|]. cbn [flat_map concat]. by rewrite IH, str_chars_app.
Qed.
Lemma rev_chars_parts parts :
  Forall part parts -> flat_map (fun x => rev (str_chars x)) parts = rev (str_chars (concat (rev parts))).
Proof.
  induction 1 as [|x parts [_ Hx] Hall IH]; [done|]. rewrite concat_rev_cons. cbn [flat_map].
  rewrite IH, str_chars_app, rev_app_distr; [done|].
  clear IH. induction Hall as [|y parts [_ Hy] Hall IH]; [constructor|]. rewrite concat_rev_cons. by apply utf8_app.
Qed.

Lemma chars_at_ok a : a <= length s -> boundary s a -> chars_at r a = Ret (str_chars (drop a s)).
Proof.
  intros Ha Hb. unfold chars_at. rewrite (rope_len_of _ _ Hr).
  destruct (chunks_in_range_ok a (length s)) as (ck & parts & -> & Ec & Et & Hall & _); [done|done|done|apply boundary_len|].
  cbn [mbind res_bind]. rewrite Ec. cbn [fmap res_fmap]. rewrite chars_parts, Et by done. unfold between.
  by rewrite take_ge by (rewrite length_drop; lia).
Qed.
Lemma reversed_chars_at_ok a : a <= length s -> boundary s a -> reversed_chars_at r a = Ret (rev (str_chars (take a s))).
Proof.
  intros Ha Hb. unfold reversed_chars_at.
  destruct (reversed_chunks_in_range_ok 0 a) as (ck & parts & -> & Ec & Et & Hall & _); [lia|done|done|done|].
  cbn [mbind res_bind]. rewrite Ec. cbn [fmap res_fmap]. rewrite rev_chars_parts, Et by done. unfold between.
  by rewrite drop_0, Nat.sub_0_r.
Qed.
End Reads.

(** ** Lines *)

(** [split('\n')]. *)
Fixpoint split_lines (x : str) : list str :=
  match x with
  | [] => [[]]
  | b :: x =>
      if (b =? NEWLINE)%Z then [] :: split_lines x
      else match split_lines x with l :: ls => (b :: l) :: ls | [] => [[b]] end
  end.

Lemma split_lines_nonempty x : split_lines x <> [].
Proof. destruct x as [|b x]; [done|]. cbn [split_lines]. destruct (b =? NEWLINE)%Z; [done|]. by destruct (split_lines x). Qed.

Lemma split_lines_app x y : split_lines (x ++ NEWLINE :: y) = split_lines x ++ split_lines y.
Proof.
  induction x as [|b x IH]; [done|]. cbn [app split_lines]. rewrite IH. destruct (b =? NEWLINE)%Z; [done|].
  pose proof (split_lines_nonempty x). by destruct (split_lines x).
Qed.
Lemma split_lines_one x : str_find NEWLINE x = None -> split_lines x = [x].
Proof.
  induction x as [|b x IH]; [done|]. cbn [str_find split_lines]. destruct (b =? NEWLINE)%Z; [done|].
  destruct (str_find NEWLINE x); [done|]. intros _. by rewrite IH.
Qed.

Lemma str_find_app c x y :
  str_find c (x ++ y) = match str_find c x with Some i => Some i | None => Nat.add (length x) <$> str_find c y end.
Proof.
  induction x as [|b x IH]; cbn [app str_find length]; [by destruct (str_find c y)|]. destruct (b =? c)%Z; [done|]. rewrite IH.
  destruct (str_find c x); [done|]. by destruct (str_find c y).
Qed.
Lemma str_find_Some c x i : str_find c x = Some i -> x = take i x ++ c :: drop (S i) x /\ str_find c (take i x) = None /\ i < length x.
Proof.
  revert i. induction x as [|b x IH]; intros i; cbn [str_find]; [done|]. destruct (Z.eqb_spec b c) as [->|Hne].
  - intros [= <-]. split_and!; [done|done|cbn; lia].
  - destruct (str_find c x) as [j|] eqn:E; [|done]. intros [= <-]. destruct (IH j eq_refl) as (E1 & E2 & E3). cbn [take drop str_find].
    rewrite E2. destruct (Z.eqb_spec b c); [done|]. split_and!; [cbn [app]; by f_equal|done|cbn; lia].
Qed.
Lemma str_find_rev c x : str_find c (rev x) = None <-> str_find c x = None.
Proof.
  assert (forall y, str_find c y = None <-> Forall (fun b => b <> c) y) as H.
  { induction y as [|b y IH]; cbn [str_find]; [split; [constructor|done]|]. rewrite Forall_cons.
    destruct (Z.eqb_spec b c); [naive_solver|]. rewrite <-IH. destruct (str_find c y); naive_solver. }
  rewrite !H. split; intros Hf; [rewrite <-(rev_involutive x)|]; by apply List.Forall_rev.
Qed.
Lemma str_rfind_Some c x i :
  str_rfind c x = Some i -> x = take i x ++ c :: drop (S i) x /\ str_find c (drop (S i) x) = None /\ i < length x.
Proof.
  unfold str_rfind. destruct (str_find c (rev x)) as [j|] eqn:E; [|done]. intros [= <-].
  apply str_find_Some in E as (E1 & E2 & E3). rewrite length_rev in E3.
  apply (f_equal (@rev Z)) in E1. rewrite rev_involutive, rev_app_distr in E1. cbn [rev] in E1. rewrite <-app_assoc in E1. cbn [app] in E1.
  assert (length (rev (drop (S j) (rev x))) = length x - S j) as El by (rewrite length_rev, length_drop, length_rev; done).
  assert (take (length x - S j) x = rev (drop (S j) (rev x))) as Et by (rewrite E1 at 2; rewrite <-El; apply take_app_length).
  assert (drop (S (length x - S j)) x = rev (take j (rev x))) as Ed.
  { rewrite E1 at 2. rewrite <-El. rewrite <-Nat.add_1_r. rewrite <-drop_drop, drop_app_length. done. }
  rewrite Et, Ed. split_and!; [done| |lia]. by apply str_find_rev.
Qed.
Lemma str_rfind_None c x : str_rfind c x = None <-> str_find c x = None.
Proof. unfold str_rfind. rewrite <-str_find_rev. destruct (str_find c (rev x)); naive_solver. Qed.

(** The first and the last line of a text, and the rest. *)
Lemma split_first_lines x :
  split_lines x = fst (split_first x) ::
    (if snd (split_first x) then split_lines (drop (S (length (fst (split_first x)))) x) else []).
Proof.
  unfold split_first. destruct (str_find NEWLINE x) as [i|] eqn:E; cbn [fst snd]; [|by apply split_lines_one].
  apply str_find_Some in E as (E1 & E2 & E3). rewrite E1 at 1. rewrite split_lines_app, (split_lines_one _ E2).
  by rewrite length_take_le by lia.
Qed.
Lemma split_last_lines x :
  rev (split_lines x) = fst (split_last x) ::
    (if snd (split_last x) then rev (split_lines (take (length x - S (length (fst (split_last x)))) x)) else []).
Proof.
  unfold split_last. destruct (str_rfind NEWLINE x) as [i|] eqn:E; cbn [fst snd].
  - apply str_rfind_Some in E as (E1 & E2 & E3). rewrite E1 at 1. rewrite split_lines_app, (split_lines_one _ E2), rev_app_distr.
    cbn [rev app]. rewrite length_drop. do 4 f_equal. lia.
  - apply str_rfind_None in E. by rewrite (split_lines_one _ E).
Qed.

Lemma split_first_app x y :
  split_first (x ++ y) = if snd (split_first x) then (fst (split_first x), true) else (x ++ fst (split_first y), snd (split_first y)).
Proof.
  unfold split_first. rewrite str_find_app. destruct (str_find NEWLINE x) as [i|] eqn:E; cbn [fst snd].
  - apply str_find_Some in E as (_ & _ & E). by rewrite take_app_le by lia.
  - destruct (str_find NEWLINE y) as [j|]; cbn [fmap option_fmap option_map fst snd]; [|done]. by rewrite take_app_add.
Qed.
Lemma split_last_app x y :
  split_last (y ++ x) = if snd (split_last x) then (fst (split_last x), true) else (fst (split_last y) ++ x, snd (split_last y)).
Proof.
  unfold split_last, str_rfind. rewrite rev_app_distr, str_find_app, !length_app.
  destruct (str_find NEWLINE (rev x)) as [i|] eqn:E; cbn [fmap option_fmap option_map fst snd].
  - apply str_find_Some in E as (_ & _ & E). rewrite length_rev in E.
    replace (S (length y + length x - S i)) with (length y + S (length x - S i)) by lia. by rewrite drop_app_add.
  - destruct (str_find NEWLINE (rev y)) as [j|] eqn:E2; cbn [fmap option_fmap option_map fst snd]; [|done]. rewrite length_rev.
    apply str_find_Some in E2 as (_ & _ & E2). rewrite length_rev in E2.
    replace (length y + length x - S (length x + j)) with (length y - S j) by lia. by rewrite drop_app_le by lia.
Qed.

Section ReadLines.
Context (r : Rope) (ts : list str) (Hr : rope_of r ts) (Hsh : shallow r).
Notation s := (concat ts).

(** A newline of a part of the text. *)
Lemma newline_boundary (o e : nat) z :
  o <= e <= length s -> between s o e = z -> forall i, i < length z -> z !! i = Some NEWLINE ->
  boundary s (o + i + 1).
Proof.
  intros Ho Ez i Hi Hn. rewrite Nat.add_1_r. apply boundary_after_newline; [apply (read_utf8 r ts Hr)|].
  unfold newlines. rewrite list_lookup_fmap. rewrite <-Ez in Hn. unfold between in Hn.
  apply lookup_take_Some in Hn as [Hn _]. rewrite lookup_drop in Hn. by rewrite Hn.
Qed.
Lemma find_newline_at z i : str_find NEWLINE z = Some i -> z !! i = Some NEWLINE.
Proof.
  intros (E & _ & Hi)%str_find_Some. rewrite E. apply list_lookup_middle. by rewrite length_take_le by lia.
Qed.
Lemma rfind_newline_at z i : str_rfind NEWLINE z = Some i -> z !! i = Some NEWLINE.
Proof.
  intros (E & _ & Hi)%str_rfind_Some. rewrite E. apply list_lookup_middle. by rewrite length_take_le by lia.
Qed.

(** Where the lines left begin. *)
Definition lines_forward_at (self : Lines) (a b o : nat) : Prop :=
  ln_done self = false /\ ln_reversed self = false /\ boundary s o /\ boundary s b
  /\ exists pre post, forward_at r ts (ln_chunks self) a b o pre post.

Lemma lines_loop_forward fuel ck current d a b o pre post :
  forward_at r ts ck a b o pre post -> boundary s o -> boundary s b -> length post < fuel ->
  let line := split_first (between s o b) in
  exists self, lines_loop fuel (mkLines ck current d false) = Ret (current ++ fst line, self)
    /\ if snd line then lines_forward_at self a b (o + length (fst line) + 1) else ln_done self = true.
Proof.
  revert ck current d o pre post. induction fuel as [|fuel IH]; intros ck current d o pre post H Hbo Hbb Hf; [lia|].
  pose proof (fwd_order _ _ _ _ _ _ _ _ H) as [Ho Hb]. cbn [lines_loop]. cbv zeta.
  destruct (peek_forward r ts Hr ck a b o pre post H Hbo Hbb)
    as [[-> ->]|(t & post' & e & -> & Hlt & Ee & Hbe & _ & _ & _ & _ & Hpeek)]; [|rewrite Hpeek]; cbn [mbind res_bind].
  { rewrite between_nil by done. cbn. eexists. by rewrite app_nil_r. }
  rewrite (between_split s o e b), split_first_app by lia.
  destruct (split_first (between s o e)) as [line []] eqn:El; cbn [fst snd].
  - unfold split_first in El. destruct (str_find NEWLINE (between s o e)) as [i|] eqn:Ei; [|done]. injection El as El.
    pose proof (str_find_Some _ _ _ Ei) as (_ & _ & Hi). pose proof (length_between s o e ltac:(lia)) as Hlen.
    assert (length line = i) as Hll by (rewrite <-El; apply length_take_le; lia).
    rewrite (fwd_offset _ _ _ _ _ _ _ _ H).
    destruct (seek_forward_iter r ts Hr Hsh ck a b o pre (t :: post') (o + length line + 1) H) as (ck' & pre' & post2 & -> & H'); [lia|].
    cbn [mbind res_bind].
    assert (boundary s (o + length line + 1)) as Hbn.
    { rewrite Hll. apply (newline_boundary o e (between s o e)); [lia|done|done|by apply find_newline_at]. }
    destruct (Nat.eqb_spec (length current) 0) as [E0|_]; [destruct current; [|done]|]; (eexists; split; [reflexivity|]);
      (split_and!; [done..|]); by exists pre', post2.
  - unfold split_first in El. destruct (str_find NEWLINE (between s o e)) as [i|] eqn:Ei; [done|]. injection El as <-.
    destruct (next_forward r ts Hr Hsh ck a b o pre (t :: post') H Hbo Hbb)
      as [[-> _]|(t2 & post2 & e2 & ck' & pre2 & post3 & [= <- <-] & _ & Ee2 & _ & -> & H' & Hp)]; [lia|].
    cbn [mbind res_bind snd]. rewrite <-Ee in Ee2. subst e2. cbn [length] in Hf.
    rewrite app_assoc. destruct (decide (e < b)) as [Heb|Heb].
    + rewrite (Hp Heb) in H'. destruct (IH ck' (current ++ between s o e) false e pre2 post' H' Hbe Hbb ltac:(lia)) as (self & -> & Hs).
      exists self. split; [done|]. destruct (snd (split_first (between s e b))); [|done].
      rewrite length_app, length_between by lia. by replace (o + (e - o + length (fst (split_first (between s e b)))) + 1)
        with (e + length (fst (split_first (between s e b))) + 1) by lia.
    + rewrite (between_nil s e b) by lia. cbn [split_first str_find fst snd]. rewrite app_nil_r.
      destruct fuel as [|fuel]; [lia|]. cbn [lines_loop].
      destruct (peek_forward r ts Hr ck' a b e pre2 post3 H' Hbe Hbb) as [[_ ->]|(? & ? & ? & ? & ? & ? & _)]; [|lia].
      cbn [mbind res_bind]. by eexists.
Qed.

Definition lines_reversed_at (self : Lines) (a b o : nat) : Prop :=
  ln_done self = false /\ ln_reversed self = true /\ boundary s o /\ boundary s a
  /\ exists pre post, reversed_at r ts (ln_chunks self) a b o pre post /\ length pre <= length ts.

Lemma lines_loop_reversed fuel ck current d a b o pre post :
  reversed_at r ts ck a b o pre post -> boundary s o -> boundary s a -> length pre + 1 < fuel ->
  let line := split_last (between s a o) in
  exists self, lines_loop fuel (mkLines ck current d true) = Ret (fst line ++ current, self)
    /\ if snd line then lines_reversed_at self a b (o - S (length (fst line))) else ln_done self = true.
Proof.
  revert ck current d o pre post. induction fuel as [|fuel IH]; intros ck current d o pre post H Hbo Hba Hf; [lia|].
  pose proof (rev_order _ _ _ _ _ _ _ _ H) as [Ho Hb]. cbn [lines_loop]. cbv zeta.
  destruct (peek_reversed r ts Hr ck a b o pre post H Hbo Hba) as [[-> ->]|(t & post' & e & -> & Hlt & Ee & Hbe & Hpeek)];
    [|rewrite Hpeek]; cbn [mbind res_bind].
  { rewrite between_nil by done. cbn. by eexists. }
  rewrite (between_split s a e o), split_last_app by lia.
  destruct (split_last (between s e o)) as [line []] eqn:El; cbn [fst snd].
  - unfold split_last in El. destruct (str_rfind NEWLINE (between s e o)) as [i|] eqn:Ei; [|done]. injection El as El.
    pose proof (str_rfind_Some _ _ _ Ei) as (_ & _ & Hi). pose proof (length_between s e o ltac:(lia)) as Hlen.
    assert (length line = o - e - S i) as Hll by (rewrite <-El, length_drop; lia).
    rewrite (rev_offset _ _ _ _ _ _ _ _ H), !usub_ok by lia. cbn [mbind res_bind]. rewrite usub_ok by lia. cbn [mbind res_bind].
    destruct (seek_reversed_iter r ts Hr Hsh ck a b o pre t post' (o - length line - 1) H) as (ck' & pre' & post2 & -> & H' & Hl'); [lia|].
    cbn [mbind res_bind]. replace (o - S (length line)) with (o - length line - 1) by lia.
    assert (boundary s (o - length line - 1)) as Hbn.
    { replace (o - length line - 1) with (e + i) by lia. apply boundary_newline. unfold newlines. rewrite list_lookup_fmap.
      pose proof (rfind_newline_at _ _ Ei) as Hn. unfold between in Hn. apply lookup_take_Some in Hn as [Hn _].
      rewrite lookup_drop in Hn. by rewrite Hn. }
    destruct (Nat.eqb_spec (length current) 0) as [E0|_]; [destruct current; [rewrite app_nil_r|done]|]; (eexists; split; [reflexivity|]);
      (split_and!; [done..|]); by exists pre', post2.
  - unfold split_last in El. destruct (str_rfind NEWLINE (between s e o)) as [i|] eqn:Ei; [done|]. injection El as <-.
    destruct (next_reversed r ts Hr Hsh ck a b o pre (t :: post') H Hbo Hba)
      as [[-> _]|(e2 & ck' & pre2 & post3 & He2 & _ & En & H' & Hp)]; [lia|].
    assert (e2 = e) as ->.
    { unfold chunks_next in En. rewrite Hpeek in En. cbn [mbind res_bind] in En.
      destruct (chunks_advance ck _) as [c'|]; [|done]. cbn [mbind res_bind] in En. injection En as En _.
      apply (f_equal length) in En. rewrite !length_between in En by lia. lia. }
    rewrite En. cbn [mbind res_bind snd]. rewrite <-app_assoc.
    destruct (decide (a < e)) as [Hae|Hae].
    + specialize (Hp Hae).
      destruct (IH ck' (between s e o ++ current) false e pre2 post3 H' Hbe Hba ltac:(lia)) as (self & -> & Hs).
      exists self. split; [done|]. destruct (snd (split_last (between s a e))); [|done].
      rewrite length_app, length_between by lia. by replace (o - S (length (fst (split_last (between s a e))) + (o - e)))
        with (e - S (length (fst (split_last (between s a e))))) by lia.
    + rewrite (between_nil s a e) by lia. cbn [split_last str_rfind str_find rev fmap option_fmap option_map fst snd app].
      destruct fuel as [|fuel]; [lia|]. cbn [lines_loop].
      destruct (peek_reversed r ts Hr ck' a b e pre2 post3 H' Hbe Hba) as [[_ ->]|(? & ? & ? & ? & ? & ? & _)]; [|lia].
      cbn [mbind res_bind]. by eexists.
Qed.

(** All lines: [next] until it gives none. *)
Fixpoint lines_all (n fuel : nat) (self : Lines) : res (list str) :=
  match n with
  | O => Panic
  | S n =>
      l ← lines_next fuel self;
      match l with (Some line, self) => cons line <$> lines_all n fuel self | (None, _) => Ret [] end
  end.

Lemma lines_all_done n fuel self : ln_done self = true -> 0 < n -> lines_all n fuel self = Ret [].
Proof. intros Hd Hn. destruct n as [|n]; [lia|]. cbn [lines_all]. unfold lines_next. by rewrite Hd. Qed.

Lemma between_drop o i b : between s (o + i) b = drop i (between s o b).
Proof.
  unfold between. rewrite skipn_firstn_comm, drop_drop. f_equal. lia.
Qed.
Lemma between_take a o i : between s a (o - i) = take (o - a - i) (between s a o).
Proof. unfold between. rewrite take_take. f_equal. lia. Qed.

Lemma lines_forward_ok n fuel self a b o :
  lines_forward_at self a b o -> length ts < fuel -> length (split_lines (between s o b)) < n ->
  lines_all n fuel self = Ret (split_lines (between s o b)).
Proof.
  revert self o. induction n as [|n IH]; intros self o (Hd & Hrev & Hbo & Hbb & pre & post & H) Hf Hn; [lia|].
  cbn [lines_all]. unfold lines_next. rewrite Hd, Hrev.
  assert (length post <= length ts) by (pose proof (fwd_stands _ _ _ _ _ _ _ _ H) as [E _]; rewrite E, length_app; lia).
  destruct (lines_loop_forward fuel (ln_chunks self) [] false a b o pre post H Hbo Hbb ltac:(lia)) as (self' & -> & Hs).
  cbn [mbind res_bind fst snd app]. rewrite split_first_lines in Hn |- *. cbn [length] in Hn.
  destruct (snd (split_first (between s o b))); cbn [length] in Hn.
  - rewrite <-between_drop in *. replace (o + S (length (fst (split_first (between s o b)))))
      with (o + length (fst (split_first (between s o b))) + 1) in * by lia.
    by rewrite (IH _ _ Hs Hf) by lia.
  - rewrite lines_all_done by (done || lia). done.
Qed.

Lemma lines_reversed_ok n fuel self a b o :
  lines_reversed_at self a b o -> length ts + 1 < fuel -> length (split_lines (between s a o)) < n ->
  lines_all n fuel self = Ret (rev (split_lines (between s a o))).
Proof.
  revert self o. induction n as [|n IH]; intros self o (Hd & Hrev & Hbo & Hba & pre & post & H & Hl) Hf Hn; [lia|].
  cbn [lines_all]. unfold lines_next. rewrite Hd, Hrev. pose proof (rev_order _ _ _ _ _ _ _ _ H) as [Ho Hb].
  destruct (lines_loop_reversed fuel (ln_chunks self) [] false a b o pre post H Hbo Hba ltac:(lia)) as (self' & -> & Hs).
  cbn [mbind res_bind fst snd]. rewrite app_nil_r. rewrite <-length_rev in Hn. rewrite split_last_lines in Hn |- *. cbn [length] in Hn.
  destruct (snd (split_last (between s a o))); cbn [length] in Hn.
  - rewrite length_between, <-between_take in * by lia. rewrite length_rev in Hn. rewrite (IH _ _ Hs Hf) by lia. done.
  - rewrite lines_all_done by (done || lia). done.
Qed.

Lemma lines_ok a b reversed :
  a <= b -> b <= length s -> boundary s a -> boundary s b ->
  exists ck, chunks_new r a b reversed = Ret ck
    /\ let n := S (length (split_lines (between s a b))) in
       lines_all n (iter_fuel r) (lines_of ck)
       = Ret (if reversed then rev (split_lines (between s a b)) else split_lines (between s a b)).
Proof.
  intros Hab Hb Hba Hbb. pose proof (iter_fuel_enough r ts Hr) as Hf. destruct reversed.
  - destruct (new_reversed r ts Hr Hsh a b Hab Hb Hbb) as (ck & pre & post & E & H & Hl). exists ck. split; [done|].
    apply (lines_reversed_ok _ _ _ a b b); [|lia|lia]. unfold lines_of. rewrite (rev_dir _ _ _ _ _ _ _ _ H).
    split_and!; try done. by exists pre, post.
  - destruct (new_forward r ts Hr Hsh a b Hab Hb Hba) as (ck & pre & post & E & H). exists ck. split; [done|].
    apply (lines_forward_ok _ _ _ a b a); [|lia|lia]. unfold lines_of. rewrite (fwd_dir _ _ _ _ _ _ _ _ H).
    split_and!; try done. by exists pre, post.
Qed.
End ReadLines.
