(* ===== verification/RopeBytesSpec.v ===== *)
(** * Reading a rope: bytes and bitmaps *)

From S2P Require Import Prelude SumTree SumCursor SumTreeInvariant SumTreeFind SumCursorSeek SumCursorSearch SumIter.
From S2P Require Import Text TextSpec Bits Utf8 Chunk ChunkSpec ChunkPositions.
From S2P Require Import Rope RopeSpec RopeCursorSpec RopePositionsSpec RopeIter RopeIterSpec RopeReadSpec.
Local Open Scope nat_scope.

#[local] Arguments summary_of : simpl never.

Implicit Types (s t x y : str) (parts : list str).

Section ReadBytes.
Context (r : Rope) (ts : list str) (Hr : rope_of r ts) (Hsh : shallow r).
Notation s := (concat ts).
Notation stands := (stands r ts).

(** ** Bytes *)

(** A forward reader of the bytes up to [b] in front of some chunks: it goes on at [a], or
    at the chunk if that is later. *)
Record bytes_forward_at by_ (a b : nat) pre post : Prop := {
  bf_start : by_start by_ = a;
  bf_end : by_end by_ = b;
  bf_dir : by_reversed by_ = false;
  bf_stands : stands (by_cursor by_) pre post;
  bf_order : a <= b <= length s;
  bf_inside : match post with t :: _ => a <= b `min` (length (concat pre) + length t) /\ (a < b -> a < length (concat pre) + length t) | [] => True end;
}.

Lemma stands_next c pre t post :
  stands c pre (t :: post) -> exists c', next c = Ret c' /\ stands c' (pre ++ [t]) post /\ length (concat (pre ++ [t])) = length (concat pre) + length t.
Proof.
  intros [E Hc]. destruct (next_ok _ _ (rope_wf _ _ Hr) _ _ Hsh Hc) as (c' & -> & Hc').
  cbn [map place_of later fst snd] in Hc'. change [chunk_of t] with (map chunk_of [t]) in Hc'. rewrite <-map_app in Hc'.
  exists c'. split_and!; [done|split; [by rewrite <-app_assoc|done]|]. rewrite concat_app, length_app. cbn [concat]. by rewrite app_nil_r.
Qed.

Lemma next_piece_long c pre t t2 post : stands c pre (t :: t2 :: post) -> 0 < length t2.
Proof.
  intros [E _]. destruct (pieces_parts r ts Hr _ _ E) as [_ Hp].
  pose proof (Forall_inv (Forall_inv_tail Hp)) as [_ Hne]. destruct t2; [done|cbn; lia].
Qed.

(** Going back: the piece before, or none. *)
Lemma stands_prev c pre t post :
  stands c pre (t :: post) ->
  match last pre with
  | Some t' => exists c' pre', prev c = Ret c' /\ pre = pre' ++ [t'] /\ stands c' pre' (t' :: t :: post)
                 /\ length (concat pre) = length (concat pre') + length t'
  | None => pre = [] /\ exists c', prev c = Ret c' /\ item c' = Ret None
  end.
Proof.
  intros [E Hc]. destruct (snoc_cases pre) as [->|(pre' & t' & ->)].
  - destruct (prev_front _ _ (rope_wf _ _ Hr) _ _ Hsh Hc) as (c' & -> & Hc'); [done|rewrite (rope_list _ _ Hr), E; done|].
    split; [done|]. exists c'. by rewrite (item_ok _ _ _ _ Hc').
  - rewrite last_snoc. cbn [map place_of] in Hc. rewrite map_app in Hc.
    destruct (prev_ok _ _ (rope_wf _ _ Hr) _ _ (map chunk_of pre') (chunk_of t') Hsh Hc) as (c' & -> & Hc'); [done|].
    exists c', pre'. split_and!; [done|done|split; [by rewrite E, <-app_assoc|done]|].
    rewrite concat_app, length_app. cbn [concat]. by rewrite app_nil_r.
Qed.

Lemma bytes_of_piece c pre t post i j :
  stands c pre (t :: post) -> i <= j <= length t ->
  bytes_slice t i j = Ret (between s (length (concat pre) + i) (length (concat pre) + j)).
Proof.
  intros H Hij. destruct (stands_text r ts Hr _ _ _ _ H) as (E & _). rewrite E, between_piece by done. unfold bytes_slice.
  destruct (Nat.leb_spec i j), (Nat.leb_spec j (length t)); (done || lia).
Qed.

Lemma bytes_peek_forward by_ a b pre post :
  bytes_forward_at by_ a b pre post ->
  let p := a `max` length (concat pre) in
  (b <= p /\ (post = [] \/ b <= length (concat pre)) /\ bytes_peek by_ = Ret None)
  \/ (exists t post' e, post = t :: post' /\ e = (length (concat pre) + length t) `min` b /\ p <= e
       /\ bytes_peek by_ = Ret (Some (between s p e))).
Proof.
  intros [Ea Eb Ed Hst Ho Hin]. cbv zeta. destruct (stands_reads r ts Hr _ _ _ Hst) as (Hitem & Hend & Hpos).
  unfold bytes_peek. rewrite Hitem, Hend, Ea, Eb, Ed. destruct post as [|t post]; cbn [head fmap option_fmap option_map mbind res_bind].
  { left. split; [|split; [by left|done]]. destruct Hst as [E _]. rewrite app_nil_r in E. rewrite <-E in *. lia. }
  rewrite Hpos. cbn [andb chunk_of chunk_text]. destruct (Nat.leb_spec b (length (concat pre))) as [Hle|Hgt].
  { left. split; [lia|]. split; [by right|done]. }
  right. exists t, post, ((length (concat pre) + length t) `min` b). split_and!; [done|done|lia|].
  rewrite (bytes_of_piece _ _ _ _ _ _ Hst) by lia. cbn [fmap res_fmap]. do 3 f_equal; lia.
Qed.

(** [next]: a part of the rest, and where it goes on. *)
Lemma bytes_next_forward by_ a b pre post :
  bytes_forward_at by_ a b pre post ->
  let p := a `max` length (concat pre) in
  (b <= p /\ bytes_next by_ = Ret (None, by_))
  \/ (exists t post' e by', post = t :: post' /\ p <= e <= b /\ bytes_next by_ = Ret (Some (between s p e), by')
       /\ bytes_forward_at by' a b (pre ++ [t]) post' /\ between s (a `max` length (concat (pre ++ [t]))) b = between s e b).
Proof.
  intros H. cbv zeta. unfold bytes_next.
  destruct (bytes_peek_forward by_ a b pre post H) as [(Hle & _ & ->)|(t & post' & e & -> & Ee & Hp & ->)]; [by left|right].
  destruct H as [Ea Eb Ed Hst Ho Hin]. destruct (stands_next _ _ _ _ Hst) as (c' & En & Hst' & El).
  cbn [mbind res_bind]. unfold bytes_step. rewrite Ed, En. cbn [mbind res_bind].
  eexists t, post', e, _. split_and!; [done|lia|lia|reflexivity| |].
  - split; cbn; try done. destruct post' as [|t2 post']; [done|]. pose proof (next_piece_long _ _ _ _ _ Hst). rewrite El. lia.
  - rewrite El, Nat.max_r by lia. destruct (Nat.min_spec (length (concat pre) + length t) b) as [[_ E]|[? E]]; rewrite Ee, E; [done|].
    rewrite !between_nil by lia. done.
Qed.

(** [read]. *)
Lemma bytes_read_forward by_ a b pre post n :
  bytes_forward_at by_ a b pre post -> length (concat pre) <= a \/ a = b ->
  exists out by' a' pre' post', bytes_read by_ n = Ret (out, by')
    /\ bytes_forward_at by' a' b pre' post' /\ (length (concat pre') <= a' \/ a' = b)
    /\ between s a b = out ++ between s a' b /\ length out <= n /\ (out = [] -> n = 0 \/ between s a b = []).
Proof.
  intros H Hat. unfold bytes_read.
  destruct (bytes_peek_forward by_ a b pre post H) as [(Hle & _ & ->)|(t & post' & e & -> & Ee & Hp & ->)]; cbn [mbind res_bind].
  { exists [], by_, a, pre, post. assert (between s a b = []) as E0.
    { destruct Hat as [Hat| ->]; apply between_nil; lia. }
    rewrite E0. split_and!; try done; [cbn; lia|by right]. }
  destruct H as [Ea Eb Ed Hst [Ho Hb] Hin].
  assert (a `max` length (concat pre) = a) as Em by (clear -Hat Ee Hp; lia).
  rewrite Em in *. rewrite Ed, Ea, Eb, length_between by lia. cbn [mbind res_bind].
  assert (take (n `min` (e - a)) (between s a e) = between s a (a + n `min` (e - a))) as Eo.
  { unfold between. rewrite take_take. f_equal. lia. }
  assert (between s a b = between s a (a + n `min` (e - a)) ++ between s (a + n `min` (e - a)) b) as Esplit
    by (apply between_split; lia).
  assert (length (between s a (a + n `min` (e - a))) = n `min` (e - a)) as Elen by (rewrite length_between; lia).
  rewrite Eo. destruct (Nat.eqb_spec (n `min` (e - a)) (e - a)) as [Efull|Epart].
  - destruct (stands_next _ _ _ _ Hst) as (c' & En & Hst' & El). unfold bytes_step. cbn [by_reversed by_cursor]. rewrite En.
    cbn [mbind res_bind]. eexists _, _, (a + n `min` (e - a)), (pre ++ [t]), post'. split_and!; [reflexivity| | |done|lia|].
    + split; cbn; try done; [lia|]. destruct post' as [|t2 post']; [done|]. pose proof (next_piece_long _ _ _ _ _ Hst). rewrite El. lia.
    + rewrite El. lia.
    + intros E0. rewrite E0 in Elen. cbn in Elen. right. apply between_nil. lia.
  - eexists _, _, (a + n `min` (e - a)), pre, (t :: post'). split_and!; [reflexivity| |left; lia|done|lia|].
    + split; cbn; try done; lia.
    + intros E0. rewrite E0 in Elen. cbn in Elen. left. lia.
Qed.

Lemma bytes_new_forward a b :
  a <= b -> b <= length s -> exists by_ pre post, bytes_in_range r a b = Ret by_
    /\ bytes_forward_at by_ a b pre post /\ length (concat pre) <= a.
Proof.
  intros Hab Hb. unfold bytes_in_range, bytes_new.
  destruct (seek_at r ts Hr Hsh _ _ a Right (new_at_place _ _) ltac:(lia)) as (f & c & pre & post & -> & Hst & Hin).
  cbn [mbind res_bind snd]. eexists _, pre, post. split_and!; [reflexivity| |].
  - split; cbn; try done. destruct post; [done|]. cbn in Hin. lia.
  - destruct post; cbn in Hin; [|lia]. destruct Hst as [E _]. rewrite app_nil_r in E. rewrite <-E. lia.
Qed.

(** A reader backwards, of the bytes from [a] on: up to [b], or the end of its chunk if that
    is earlier. *)
Record bytes_reversed_at by_ (a b : nat) pre post : Prop := {
  br_start : by_start by_ = a;
  br_end : by_end by_ = b;
  br_dir : by_reversed by_ = true;
  br_order : a <= b <= length s;
  br_inside : match post with
              | t :: _ => stands (by_cursor by_) pre post /\ (a < b -> length (concat pre) < b)
              | [] => item (by_cursor by_) = Ret None
              end;
}.
Definition read_end (a b : nat) (pre post : list str) : nat :=
  match post with t :: _ => b `min` (length (concat pre) + length t) | [] => a end.

Lemma piece_long c pre t post : stands c pre (t :: post) -> 0 < length t.
Proof.
  intros [E _]. destruct (pieces_parts r ts Hr _ _ E) as [_ Hp]. pose proof (Forall_inv Hp) as [_ Hne]. destruct t; [done|cbn; lia].
Qed.

Lemma bytes_peek_reversed by_ a b pre post :
  bytes_reversed_at by_ a b pre post ->
  let q := read_end a b pre post in
  (q <= a /\ bytes_peek by_ = Ret None)
  \/ (exists t post' e, post = t :: post' /\ e = a `max` length (concat pre) /\ e <= q <= b /\ (a < b -> e < q)
       /\ bytes_peek by_ = Ret (Some (between s e q))).
Proof.
  intros [Ea Eb Ed Ho Hin]. cbv zeta. unfold bytes_peek. destruct post as [|t post]; cbn [read_end].
  { rewrite Hin. by left. }
  destruct Hin as [Hst Hin]. destruct (stands_reads r ts Hr _ _ _ Hst) as (Hitem & Hend & Hpos). pose proof (piece_long _ _ _ _ Hst).
  rewrite Hitem, Hend, Ea, Eb, Ed, Hpos. cbn [head fmap option_fmap option_map mbind res_bind default andb chunk_of chunk_text]. unfold id.
  destruct (Nat.leb_spec (length (concat pre) + length t) a) as [Hle|Hgt]; [left; split; [lia|done]|].
  destruct (Nat.leb_spec b (length (concat pre))) as [Hle2|Hgt2].
  { left. split; [|done]. destruct (decide (a < b)) as [Hab|]; [specialize (Hin Hab)|]; lia. }
  right. exists t, post, (a `max` length (concat pre)). split_and!; [done|done|lia|lia|lia|].
  rewrite (bytes_of_piece _ _ _ _ _ _ Hst) by lia. cbn [fmap res_fmap]. do 3 f_equal; lia.
Qed.

(** Stepping back over the chunk read. *)
Lemma bytes_step_reversed by_ a b b' pre t post :
  bytes_reversed_at by_ a b pre (t :: post) -> a <= b' <= b -> (a < b' -> length (concat pre) <= b') ->
  exists by' pre' post', bytes_step (mkBytes (by_cursor by_) a b' true) = Ret by' /\ bytes_reversed_at by' a b' pre' post'
    /\ between s a (read_end a b' pre' post') = between s a (b' `min` length (concat pre))
    /\ (post' = [] \/ length pre' < length pre).
Proof.
  intros [Ea Eb Ed Ho [Hst Hin]] Hb' Hl. unfold bytes_step. cbn [by_reversed by_cursor by_start by_end].
  pose proof (stands_prev _ _ _ _ Hst) as Hp. destruct (last pre) as [t'|].
  - destruct Hp as (c' & pre' & -> & -> & Hst' & El). cbn [mbind res_bind]. pose proof (piece_long _ _ _ _ Hst').
    eexists _, pre', (t' :: t :: post). split_and!; [reflexivity| | |].
    + split; cbn; try done; [lia|]. split; [done|]. intros Hab. specialize (Hl Hab). lia.
    + cbn [read_end]. by rewrite El.
    + right. rewrite length_app. cbn. lia.
  - destruct Hp as (-> & c' & -> & Hi). cbn [mbind res_bind]. eexists _, [], []. split_and!; [reflexivity| | |by left].
    + split; cbn; try done; lia.
    + cbn [read_end concat length]. rewrite !between_nil by lia. done.
Qed.

Lemma bytes_next_reversed by_ a b pre post :
  bytes_reversed_at by_ a b pre post ->
  let q := read_end a b pre post in
  (q <= a /\ bytes_next by_ = Ret (None, by_))
  \/ (exists e by' pre' post', a <= e <= q /\ q <= b /\ (a < b -> e < q) /\ bytes_next by_ = Ret (Some (between s e q), by')
       /\ bytes_reversed_at by' a b pre' post' /\ between s a (read_end a b pre' post') = between s a e
       /\ (post' = [] \/ length pre' < length pre) /\ post <> []).
Proof.
  intros H. cbv zeta. unfold bytes_next.
  destruct (bytes_peek_reversed by_ a b pre post H) as [[Hle ->]|(t & post' & e & -> & Ee & Hq & Hlt & ->)]; [by left|right].
  pose proof H as [Ea Eb Ed Ho [Hst Hin]]. cbn [mbind res_bind].
  destruct (bytes_step_reversed by_ a b b pre t post' H) as (by' & pre' & post2 & Es & H' & Ebt & Hl).
  { lia. }
  { intros Hab. specialize (Hin Hab). lia. }
  assert (bytes_step by_ = Ret by') as -> by (rewrite <-Es; apply (f_equal bytes_step); clear -Ea Eb Ed; destruct by_; cbn in *; congruence).
  cbn [mbind res_bind]. exists e, by', pre', post2. split; [lia|]. split; [lia|]. split; [done|]. split; [done|]. split; [done|]. split; [|by split].
  rewrite Ebt. destruct (decide (a < b)) as [Hab|]; [specialize (Hin Hab)|rewrite !between_nil by lia; done].
  subst e. destruct (Nat.max_spec a (length (concat pre))) as [[? ->]|[? ->]]; [f_equal; lia|]. rewrite !between_nil by lia. done.
Qed.

Lemma read_end_le by_ a b pre post : bytes_reversed_at by_ a b pre post -> read_end a b pre post <= b.
Proof. intros [_ _ _ Ho _]. destruct post; cbn [read_end]; lia. Qed.

(** [read]: bytes from the end of the rest, the last first. *)
Lemma bytes_read_reversed by_ a b pre post n :
  bytes_reversed_at by_ a b pre post -> a = b \/ read_end a b pre post = b ->
  exists out by' b' pre' post', bytes_read by_ n = Ret (out, by')
    /\ bytes_reversed_at by' a b' pre' post' /\ (a = b' \/ read_end a b' pre' post' = b')
    /\ between s a b = between s a b' ++ rev out /\ length out <= n /\ (out = [] -> n = 0 \/ between s a b = []).
Proof.
  intros H Hat. unfold bytes_read. pose proof (read_end_le _ _ _ _ _ H) as Hqb.
  destruct (bytes_peek_reversed by_ a b pre post H) as [[Hle ->]|(t & post' & e & -> & Ee & Hq & Hlt & ->)]; cbn [mbind res_bind].
  { exists [], by_, b, pre, post. assert (between s a b = []) as E0 by (apply between_nil; lia).
    rewrite E0. split_and!; try done; [cbn; lia|by right]. }
  pose proof H as [Ea Eb Ed [Hab Hb] [Hst Hin]].
  set (q := read_end a b pre (t :: post')) in *.
  assert (q = b) as Eq. { destruct Hat as [->|]; [|done]. lia. }
  rewrite Eq in *. rewrite Ed, Eb, Ea, length_between by lia. set (k := n `min` (b - e)).
  rewrite usub_ok by lia. cbn [mbind res_bind].
  assert (drop (b - e - k) (between s e b) = between s (b - k) b) as Eo.
  { rewrite (between_split s e (b - k) b), drop_app_ge by (rewrite ?length_between; lia).
    rewrite length_between by lia. by replace (b - e - k - (b - k - e)) with 0 by lia. }
  rewrite Eo. assert (between s a b = between s a (b - k) ++ rev (rev (between s (b - k) b))) as Esplit.
  { rewrite rev_involutive. apply between_split; lia. }
  assert (length (rev (between s (b - k) b)) = k) as Elen by (rewrite length_rev, length_between; lia).
  assert (rev (between s (b - k) b) = [] -> n = 0 \/ between s a b = []) as Hnil.
  { intros E0. rewrite E0 in Elen. cbn in Elen. destruct n; [by left|]. right. apply between_nil. lia. }
  destruct (Nat.eqb_spec k (b - e)) as [Efull|Epart].
  - destruct (bytes_step_reversed by_ a b (b - k) pre t post' H) as (by' & pre' & post2 & -> & H' & Ebt & _); [lia|lia|].
    cbn [mbind res_bind]. eexists _, by', (b - k), pre', post2. split_and!; [reflexivity|done| |done|lia|done].
    pose proof (read_end_le _ _ _ _ _ H') as Hle'.
    destruct (decide (a < b - k)) as [Ha|]; [right|left; lia].
    apply (f_equal length) in Ebt. rewrite !length_between in Ebt by lia. lia.
  - eexists _, _, (b - k), pre, (t :: post'). split_and!; [reflexivity| | |done|lia|done].
    + split; cbn; try done; [lia|]. split; [done|lia].
    + right. unfold q in Eq. cbn [read_end] in *. lia.
Qed.

Lemma bytes_new_reversed a b :
  a <= b -> b <= length s -> exists by_ pre post, reversed_bytes_in_range r a b = Ret by_
    /\ bytes_reversed_at by_ a b pre post /\ (a = b \/ read_end a b pre post = b).
Proof.
  intros Hab Hb. unfold reversed_bytes_in_range, bytes_new.
  destruct (seek_at r ts Hr Hsh _ _ b Left (new_at_place _ _) ltac:(lia)) as (f & c & pre & post & -> & Hst & Hin).
  cbn [mbind res_bind snd]. eexists _, pre, post. destruct post as [|t post]; cbn [inside_left read_end] in *.
  - assert (length s = 0) as El by (rewrite Hin; done). split_and!; [reflexivity| |left; lia].
    split; cbn; try done. destruct (stands_reads r ts Hr _ _ _ Hst) as (Hitem & _). done.
  - split_and!; [reflexivity| |right; lia]. split; cbn; try done. split; [done|]. intros Hlt. destruct pre; [cbn; lia|]. by apply Hin.
Qed.

(** *** All of a range *)
Lemma bytes_collect_forward fuel by_ a b pre post :
  bytes_forward_at by_ a b pre post -> length post < fuel ->
  exists parts, bytes_collect fuel by_ = Ret parts /\ concat parts = between s (a `max` length (concat pre)) b.
Proof.
  revert by_ pre post. induction fuel as [|fuel IH]; intros by_ pre post H Hf; [lia|]. cbn [bytes_collect].
  destruct (bytes_next_forward by_ a b pre post H) as [[Hle ->]|(t & post' & e & by' & -> & He & -> & H' & Eb)]; cbn [mbind res_bind].
  - exists []. by rewrite between_nil.
  - cbn [length] in Hf. destruct (IH by' (pre ++ [t]) post' H') as (parts & -> & Ec); [lia|].
    eexists. split; [reflexivity|]. cbn [concat]. rewrite Ec, Eb. symmetry. apply between_split; [done|]. apply H.
Qed.

Lemma bytes_collect_reversed fuel by_ a b pre post :
  bytes_reversed_at by_ a b pre post -> match post with [] => 0 | _ => S (length pre) end < fuel ->
  exists parts, bytes_collect fuel by_ = Ret parts /\ concat (rev parts) = between s a (read_end a b pre post).
Proof.
  revert by_ pre post. induction fuel as [|fuel IH]; intros by_ pre post H Hf; [lia|]. cbn [bytes_collect].
  destruct (bytes_next_reversed by_ a b pre post H) as [[Hle ->]|(e & by' & pre' & post' & He & Hq & _ & -> & H' & Eb & Hm & Hne)];
    cbn [mbind res_bind].
  - exists []. by rewrite between_nil.
  - destruct (IH by' pre' post' H') as (parts & -> & Ec).
    { destruct post as [|t post]; [done|]. destruct post'; [lia|]. destruct Hm; [done|lia]. }
    eexists. split; [reflexivity|]. rewrite concat_rev_cons, Ec, Eb. symmetry. apply between_split; [done|]. destruct H as [_ _ _ Ho _]. lia.
Qed.

Lemma bytes_read_all_forward fuel by_ a b pre post n :
  bytes_forward_at by_ a b pre post -> length (concat pre) <= a \/ a = b -> 0 < n -> b - a < fuel ->
  bytes_read_all fuel by_ n = Ret (between s a b).
Proof.
  revert by_ a pre post. induction fuel as [|fuel IH]; intros by_ a pre post H Hat Hn Hf; [lia|]. cbn [bytes_read_all].
  destruct (bytes_read_forward by_ a b pre post n H Hat) as (out & by' & a' & pre' & post' & -> & H' & Hat' & E & Hlen & Hnil).
  cbn [mbind res_bind]. destruct out as [|x out]; cbn [length Nat.eqb].
  - destruct Hnil as [->| ->]; [done|lia|done].
  - pose proof (f_equal length E) as El. destruct H as [_ _ _ _ Ho _], H' as [? ? ? ? Ho' ?].
    rewrite length_app, !length_between in El by lia. cbn [length] in El.
    rewrite (IH by' a' pre' post'); [cbn [fmap res_fmap]; by rewrite E|by split|done|done|lia].
Qed.
Lemma bytes_read_all_reversed fuel by_ a b pre post n :
  bytes_reversed_at by_ a b pre post -> a = b \/ read_end a b pre post = b -> 0 < n -> b - a < fuel ->
  bytes_read_all fuel by_ n = Ret (rev (between s a b)).
Proof.
  revert by_ b pre post. induction fuel as [|fuel IH]; intros by_ b pre post H Hat Hn Hf; [lia|]. cbn [bytes_read_all].
  destruct (bytes_read_reversed by_ a b pre post n H Hat) as (out & by' & b' & pre' & post' & -> & H' & Hat' & E & Hlen & Hnil).
  cbn [mbind res_bind]. destruct out as [|x out]; cbn [length Nat.eqb].
  - destruct Hnil as [->| ->]; [done|lia|done].
  - pose proof (f_equal length E) as El. destruct H as [_ _ _ Ho _], H' as [? ? ? Ho' ?].
    rewrite length_app, length_rev, !length_between in El by lia. cbn [length] in El.
    rewrite (IH by' b' pre' post'); [|by split|done|done|lia]. cbn [fmap res_fmap]. by rewrite E, rev_app_distr, rev_involutive.
Qed.

(** What the readers of a range give: its bytes in order, and from its end. *)
Lemma bytes_of_range_ok a b n :
  a <= b -> b <= length s -> 0 < n ->
  (exists by_ parts, bytes_in_range r a b = Ret by_ /\ bytes_collect (iter_fuel r) by_ = Ret parts /\ concat parts = between s a b
     /\ bytes_read_all (S (b - a)) by_ n = Ret (between s a b))
  /\ (exists by_ parts, reversed_bytes_in_range r a b = Ret by_ /\ bytes_collect (iter_fuel r) by_ = Ret parts
     /\ concat (rev parts) = between s a b /\ bytes_read_all (S (b - a)) by_ n = Ret (rev (between s a b))).
Proof.
  intros Hab Hb Hn. pose proof (iter_fuel_enough r ts Hr) as Hf. split.
  - destruct (bytes_new_forward a b Hab Hb) as (by_ & pre & post & E & H & Hle).
    pose proof (proj1 (bf_stands _ _ _ _ _ H)) as Ets. apply (f_equal length) in Ets. rewrite length_app in Ets.
    destruct (bytes_collect_forward (iter_fuel r) by_ a b pre post H) as (parts & Ec & Et); [lia|].
    rewrite Nat.max_l in Et by done. exists by_, parts. split_and!; [done..|].
    apply (bytes_read_all_forward _ _ _ _ pre post); [done|by left|done|lia].
  - destruct (bytes_new_reversed a b Hab Hb) as (by_ & pre & post & E & H & Hat).
    destruct (bytes_collect_reversed (iter_fuel r) by_ a b pre post H) as (parts & Ec & Et).
    { destruct post as [|t post]; [lia|]. destruct H as [_ _ _ _ [[Ets _] _]]. apply (f_equal length) in Ets. rewrite length_app in Ets.
      cbn [length] in Ets. lia. }
    exists by_, parts. split_and!; [done|done| |by apply (bytes_read_all_reversed _ _ _ _ pre post); [|done|done|lia]].
    rewrite Et. destruct Hat as [->| ->]; [|done]. rewrite !between_nil; [done|lia|]. by apply (read_end_le by_ b b pre post).
Qed.
End ReadBytes.

(** ** Bitmaps *)

(** Bitmaps whose low bits mark the characters, newlines and tabs of their text. *)
Definition marked (x : str) (b : ChunkBitmaps) : Prop :=
  cb_text b = x /\ forall i, i < length x ->
    Z.testbit (cb_chars b) (Z.of_nat i) = default false (boundaries x !! i)
    /\ Z.testbit (cb_newlines b) (Z.of_nat i) = default false (newlines x !! i)
    /\ Z.testbit (cb_tabs b) (Z.of_nat i) = default false (tabs x !! i).

Lemma testbit_shifted (l : list bool) (n i : nat) : n < BITS -> Z.testbit (shr (bits l) n) (Z.of_nat i) = default false (l !! (n + i)).
Proof.
  intros Hn. unfold shr. rewrite Nat.mod_small by done. rewrite Z.shiftr_spec by lia.
  rewrite <-Nat2Z.inj_add, testbit_bits. do 2 f_equal. lia.
Qed.

Lemma slice_marked t i j x :
  fits t -> str_slice t i j = Ret x ->
  marked x (mkChunkBitmaps x (shr (bits (boundaries t)) i) (shr (bits (tabs t)) i) (shr (bits (newlines t)) i)).
Proof.
  intros Ht Hx. split; [done|]. cbn [cb_chars cb_newlines cb_tabs]. intros k Hk.
  unfold str_slice in Hx. destruct (_ && _); [|done]. injection Hx as <-.
  assert (i + k < length t /\ k < j - i) as [Hik Hkj] by (rewrite length_take, length_drop in Hk; lia).
  pose proof (fits_bits _ Ht). rewrite !testbit_shifted by lia.
  rewrite boundaries_take, boundaries_drop, tabs_take, tabs_drop, newlines_take, newlines_drop.
  by rewrite !lookup_take_lt, !lookup_drop by done.
Qed.

Section Bitmaps.
Context (r : Rope) (ts : list str) (Hr : rope_of r ts) (Hsh : shallow r).
Definition placed (ck : Chunks) : Prop := exists p, at_place (rope_chunks r) (height (rope_chunks r)) (ch_cursor ck) p.

Lemma placed_item ck c : placed ck -> item (ch_cursor ck) = Ret (Some c) -> exists t, c = chunk_of t /\ fits t.
Proof.
  intros (p & Hp). rewrite (item_ok _ _ _ _ Hp). pose proof (at_place_split _ _ _ _ Hp) as Hs. destruct p as [| |pre x post|]; try done.
  rewrite (rope_list _ _ Hr) in Hs. intros [= <-]. apply map_chunk_split in Hs as (a & b & E & _ & Eb).
  destruct b as [|t b]; [done|]. injection Eb as -> _. exists t. split; [done|].
  destruct (pieces_parts r ts Hr _ _ E) as [_ Hb]. apply (Forall_inv Hb).
Qed.

Lemma prev_placed (c : cursor Chunk ChunkSummary nat) p :
  at_place (rope_chunks r) (height (rope_chunks r)) c p ->
  exists c' p', prev c = Ret c' /\ at_place (rope_chunks r) (height (rope_chunks r)) c' p'.
Proof.
  intros Hc. destruct (decide (to_list (rope_chunks r) = [])) as [Hn|Hn].
  - destruct (search_backward_empty _ _ (fun _ => true) (rope_wf _ _ Hr) _ _ Hc Hn) as (c' & E & Hc'). eauto.
  - destruct (search_backward_ok _ _ _ covers_all Hsh (rope_wf _ _ Hr) _ _ Hc Hn) as (c' & E & Hc'). eauto.
Qed.
Lemma advance_placed ck n ck' : placed ck -> chunks_advance ck n = Ret ck' -> placed ck'.
Proof.
  intros (p & Hp). unfold chunks_advance. destruct (ch_reversed ck).
  - destruct (usub _ _) as [o|]; [|done]. cbn [mbind res_bind ch_cursor with_offset].
    destruct (prev_placed _ _ Hp) as (c' & p' & -> & Hp').
    destruct (o <=? start (ch_cursor ck)); intros [= <-]; [by exists p'|by exists p].
  - cbn [ch_cursor with_offset]. destruct (cursor_end (ch_cursor ck)) as [e|]; [|done]. cbn [mbind res_bind].
    destruct (next_ok _ _ (rope_wf _ _ Hr) _ _ Hsh Hp) as (c' & -> & Hp').
    destruct (e <=? _); intros [= <-]; [by eexists|by exists p].
Qed.

Lemma peek_marked ck :
  placed ck ->
  match peek ck with
  | Ret (Some x) => exists b, peek_with_bitmaps ck = Ret (Some b) /\ marked x b
  | Ret None => peek_with_bitmaps ck = Ret None
  | Panic => peek_with_bitmaps ck = Panic
  end.
Proof.
  intros Hp. unfold peek, peek_with_bitmaps. destruct (offset_is_valid ck); [|done]. cbn [negb].
  pose proof (placed_item ck) as Hi. destruct (item (ch_cursor ck)) as [[c|]|]; [|done..]. cbn [mbind res_bind].
  destruct (Hi c Hp eq_refl) as (t & -> & Ht). destruct (peek_range ck) as [[i j]|]; [|done].
  cbn [mbind res_bind fst snd chunk_of chunk_text chunk_chars chunk_tabs chunk_newlines].
  destruct (str_slice t i j) as [x|] eqn:Ex; [|done]. cbn [fmap res_fmap mbind res_bind]. eexists. split; [reflexivity|]. by apply (slice_marked t i j).
Qed.

(** The chunks with bitmaps are the chunks. *)
Lemma bitmaps_collect_ok fuel ck parts :
  placed ck -> chunks_collect fuel ck = Ret parts ->
  exists bs, bitmaps_collect fuel ck = Ret bs /\ Forall2 marked parts bs.
Proof.
  revert ck parts. induction fuel as [|fuel IH]; intros ck parts Hp; [done|]. cbn [chunks_collect bitmaps_collect].
  unfold chunks_next, bitmaps_next. pose proof (peek_marked ck Hp) as Hm.
  destruct (peek ck) as [[x|]|]; cbn [mbind res_bind]; [| |done].
  - destruct Hm as (b & -> & Hb). cbn [mbind res_bind]. rewrite (proj1 Hb). pose proof (advance_placed ck (length x)) as Ha.
    destruct (chunks_advance ck (length x)) as [ck'|]; [|done]. cbn [mbind res_bind].
    specialize (Ha ck' Hp eq_refl). specialize (IH ck').
    destruct (chunks_collect fuel ck') as [parts'|]; [|done]. intros [= <-].
    destruct (IH _ Ha eq_refl) as (bs & -> & Hall). eexists. split; [reflexivity|]. by constructor.
  - rewrite Hm. intros [= <-]. exists []. by split.
Qed.

Lemma new_placed a b reversed : a <= b -> b <= length (concat ts) -> forall ck, chunks_new r a b reversed = Ret ck -> placed ck.
Proof.
  intros Hab Hb ck. unfold chunks_new.
  destruct (seek_at r ts Hr Hsh _ _ (if reversed then b else a) (if reversed then Left else Right) (new_at_place _ _)
    ltac:(destruct reversed; lia)) as (f & c & pre & post & -> & [_ Hc] & _).
  cbn [mbind res_bind snd]. destruct (usub _ _) as [o|]; [|done]. cbn [mbind res_bind]. destruct (item c) as [[ch|]|]; [| |done]; cbn [mbind res_bind].
  - destruct (chunk_assert_char_boundary true ch o); [|done]. intros [= <-]. by eexists.
  - intros [= <-]. by eexists.
Qed.
End Bitmaps.
