(* ===== verification/RopeLinesSpec.v ===== *)
(** * Reading a rope: moving by lines *)

From S2P Require Import Prelude SumTree SumCursor SumTreeInvariant SumTreeFind SumCursorSeek SumCursorSearch SumIter.
From S2P Require Import Text TextSpec Bits Utf8 Chunk ChunkSpec ChunkPositions.
From S2P Require Import Rope RopeSpec RopeCursorSpec RopePositionsSpec RopeIter RopeIterSpec RopeReadSpec RopeBytesSpec.
Local Open Scope nat_scope.

#[local] Arguments summary_of : simpl never.

Implicit Types (s t : str) (parts pre post : list str) (o e : nat).

(** ** Chunks with a newline *)
Definition has_newline t : bool := match str_find NEWLINE t with Some _ => true | None => false end.

Lemma newlines_none t : has_newline t = (0 <? ones (newlines t)).
Proof.
  unfold has_newline. induction t as [|b t IH]; [done|]. cbn [str_find]. change (newlines (b :: t)) with ((b =? NEWLINE)%Z :: newlines t).
  destruct (b =? NEWLINE)%Z; [done|]. change (ones (false :: newlines t)) with (0 + ones (newlines t)). rewrite Nat.add_0_l, <-IH.
  by destruct (str_find NEWLINE t).
Qed.
Lemma kept_newline t : fits t -> keeps (T:=Chunk) more_rows (chunk_of t) = has_newline t.
Proof.
  intros Ht. unfold keeps, more_rows. rewrite chunk_item_spec, newlines_none by done.
  by rewrite (sum_row _ _ (summary_of_marks _ (fits_utf8 _ Ht))).
Qed.
Definition rows (a : ChunkSummary) : nat := row (lines (summary_text a)).
Lemma rows_add (a b : ChunkSummary) : rows (add_summary a b) = rows a + rows b.
Proof. unfold rows. destruct a as [a Ha], b as [b Hb]. cbn [add_summary chunk_summary_summary chunk_summary_add summary_text]. by rewrite add_lines, add_row. Qed.
Lemma rows_sum_from (l : list ChunkSummary) b : rows b + list_sum (map rows l) <= rows (fold_left add_summary l b).
Proof.
  revert b. induction l as [|c l IH]; intros b; cbn [fold_left map list_sum foldr]; [lia|].
  specialize (IH (add_summary b c)). rewrite rows_add in IH. unfold list_sum in *. cbn [fold_right] in *. lia.
Qed.
Lemma rows_in (l : list ChunkSummary) a : In a l -> rows a <= list_sum (map rows l).
Proof. induction l as [|c l IH]; [done|]. cbn. intros [->|H]; [lia|]. specialize (IH H). unfold list_sum in *. lia. Qed.
Lemma more_rows_eq (a : ChunkSummary) : more_rows a = (0 <? rows a).
Proof. reflexivity. Qed.
Lemma rows_total (l : list Chunk) (x : Chunk) : In x l -> rows (summary x) <= rows (total l).
Proof.
  intros Hx. pose proof (rows_in (map summary l) (summary x) (in_map _ _ _ Hx)) as H1.
  pose proof (rows_sum_from (map summary l) zero) as H2. unfold total, sum. lia.
Qed.
Lemma more_rows_covers : covers (T:=Chunk) more_rows.
Proof.
  intros l x Hx. unfold keeps. rewrite !more_rows_eq, !Nat.ltb_lt. pose proof (rows_total l x Hx). lia.
Qed.

Lemma has_newline_none t : has_newline t = false <-> str_find NEWLINE t = None.
Proof. unfold has_newline. by destruct (str_find NEWLINE t). Qed.
Lemma find_none_app (x y : str) : str_find NEWLINE (x ++ y) = None <-> str_find NEWLINE x = None /\ str_find NEWLINE y = None.
Proof. rewrite str_find_app. destruct (str_find NEWLINE x); [naive_solver|]. destruct (str_find NEWLINE y); naive_solver. Qed.

(** The first and the last chunk with a newline. *)
Lemma first_newline parts :
  Forall piece parts ->
  (str_find NEWLINE (concat parts) = None /\ first_match (keeps (T:=Chunk) more_rows) (map chunk_of parts) = None)
  \/ exists skip t rest, parts = skip ++ t :: rest /\ str_find NEWLINE (concat skip) = None /\ has_newline t = true
     /\ first_match (keeps (T:=Chunk) more_rows) (map chunk_of parts) = Some (map chunk_of skip, chunk_of t, map chunk_of rest).
Proof.
  induction 1 as [|t parts [Ht _] Hp IH]; [by left|]. cbn [map first_match concat]. rewrite kept_newline by done.
  destruct (has_newline t) eqn:E; [right; by exists [], t, parts|]. pose proof (proj1 (has_newline_none t) E) as E'.
  destruct IH as [[E1 ->]|(skip & t2 & rest & -> & E1 & E2 & ->)].
  - left. by rewrite find_none_app.
  - right. exists (t :: skip), t2, rest. cbn [concat]. by rewrite find_none_app.
Qed.
Lemma last_newline parts :
  Forall piece parts ->
  (str_find NEWLINE (concat parts) = None /\ last_match (keeps (T:=Chunk) more_rows) (map chunk_of parts) = None)
  \/ exists before t rest, parts = before ++ t :: rest /\ str_find NEWLINE (concat rest) = None /\ has_newline t = true
     /\ last_match (keeps (T:=Chunk) more_rows) (map chunk_of parts) = Some (map chunk_of before, chunk_of t, map chunk_of rest).
Proof.
  induction 1 as [|t parts [Ht _] Hp IH]; [by left|]. cbn [map last_match concat]. rewrite kept_newline by done.
  destruct IH as [[E1 ->]|(before & t2 & rest & -> & E1 & E2 & ->)].
  - destruct (has_newline t) eqn:E; [right; by exists [], t, parts|]. left. by rewrite find_none_app, <-has_newline_none.
  - right. by exists (t :: before), t2, rest.
Qed.

(** A text without the newline at its end. *)
Definition before_newline (x : str) : str :=
  match last x with Some b => if (b =? NEWLINE)%Z then take (length x - 1) x else x | None => x end.

Lemma str_rfind_app c (x y : str) :
  str_rfind c (x ++ y) = match str_rfind c y with Some i => Some (length x + i) | None => str_rfind c x end.
Proof.
  unfold str_rfind. rewrite rev_app_distr, str_find_app, length_app, length_rev. pose proof (str_find_Some c (rev y)) as H.
  destruct (str_find c (rev y)) as [i|]; cbn [fmap option_fmap option_map].
  - destruct (H i eq_refl) as (_ & _ & Hi). rewrite length_rev in Hi. f_equal. lia.
  - destruct (str_find c (rev x)) as [j|]; cbn [fmap option_fmap option_map]; [|done]. f_equal. lia.
Qed.

(** What [prev_line] cuts off a chunk. *)
Definition cut_ix (b : Z) (end_ix : nat) : nat := if (b =? NEWLINE)%Z then end_ix - 1 else end_ix.
Lemma before_newline_chunk (y : str) t (k : nat) b :
  t !! (k - 1) = Some b -> 0 < k -> before_newline (y ++ take k t) = y ++ take (cut_ix b k) t.
Proof.
  intros Hb Hk. pose proof (lookup_lt_Some _ _ _ Hb) as Hlt. unfold before_newline, cut_ix.
  assert (take k t = take (k - 1) t ++ [b]) as E.
  { rewrite <-(take_S_r _ _ _ Hb). f_equal. lia. }
  rewrite E, app_assoc, last_snoc, <-app_assoc, <-E. destruct (b =? NEWLINE)%Z; [|done].
  rewrite length_app, length_take_le by lia. rewrite take_app_ge by lia. f_equal. rewrite take_take. f_equal. lia.
Qed.

Section MoveLines.
Context (r : Rope) (ts : list str) (Hr : rope_of r ts) (Hsh : shallow r).
Notation s := (concat ts).
Notation stands := (stands r ts).

(** Searching on from a chunk. *)
Lemma search_newline c pre t post :
  stands c pre (t :: post) ->
  exists c' skip post', search_forward more_rows c = Ret c' /\ stands c' (pre ++ t :: skip) post' /\ post = skip ++ post'
    /\ str_find NEWLINE (concat skip) = None /\ match post' with t' :: _ => has_newline t' = true | [] => True end.
Proof.
  intros [E Hc]. destruct (pieces_parts r ts Hr _ _ E) as [_ Hp%Forall_inv_tail].
  destruct (search_forward_ok _ _ _ more_rows_covers Hsh (rope_wf _ _ Hr) _ _ Hc) as (c' & -> & Hc').
  cbn [map place_of later fst snd] in Hc'. change [chunk_of t] with (map chunk_of [t]) in Hc'. rewrite <-map_app in Hc'.
  destruct (first_newline post Hp) as [[E1 E2]|(skip & t2 & rest & -> & E1 & E2 & E3)].
  - rewrite E2 in Hc'. exists c', post, []. rewrite app_nil_r. split_and!; [done| |done..]. split; [by rewrite app_nil_r|done].
  - rewrite E3 in Hc'. rewrite <-map_app, <-app_assoc in Hc'. exists c', skip, (t2 :: rest). split_and!; try done.
    split; [by rewrite <-app_assoc|done].
Qed.

(** Searching back. *)
Lemma search_newline_back c p parts post :
  at_place (rope_chunks r) (height (rope_chunks r)) c p -> earlier (rope_chunks r) p = (map chunk_of parts, map chunk_of post) ->
  ts = parts ++ post -> ts <> [] ->
  (str_find NEWLINE (concat parts) = None
     /\ exists c', search_backward more_rows c = Ret c' /\ at_place (rope_chunks r) (height (rope_chunks r)) c' Front)
  \/ exists c' before t rest, search_backward more_rows c = Ret c' /\ stands c' before (t :: rest ++ post)
     /\ parts = before ++ t :: rest /\ str_find NEWLINE (concat rest) = None /\ has_newline t = true.
Proof.
  intros Hc Ep E Hne. destruct (pieces_parts r ts Hr _ _ E) as [Hp _].
  destruct (search_backward_ok _ _ _ more_rows_covers Hsh (rope_wf _ _ Hr) _ _ Hc) as (c' & -> & Hc').
  { rewrite (rope_list _ _ Hr). by destruct ts. }
  rewrite Ep in Hc'. cbn [fst snd] in Hc'.
  destruct (last_newline parts Hp) as [[E1 E2]|(before & t & rest & -> & E1 & E2 & E3)].
  - left. rewrite E2 in Hc'. split; [done|]. by exists c'.
  - right. rewrite E3, <-map_app in Hc'. exists c', before, t, rest. split_and!; try done.
    split; [by rewrite E, <-app_assoc|done].
Qed.

(** *** The next line *)

(** On the chunk an offset is in or at the end of. *)
Lemma at_chunk_end ck a b o pre t post (found : bool) :
  ch_start ck = a -> ch_end ck = b -> ch_offset ck = o -> ch_reversed ck = false -> stands (ch_cursor ck) pre (t :: post) ->
  a <= o <= b -> b <= length s -> length (concat pre) <= o <= length (concat pre) + length t ->
  exists ck' pre' post', (chunks_end ← cursor_end (ch_cursor ck);
      if ch_offset ck =? chunks_end then n ← chunks_next ck; Ret (found, snd n) else Ret (found, ck)) = Ret (found, ck')
    /\ forward_at r ts ck' a b o pre' post'.
Proof.
  intros Ea Eb Eo Ed Hst Ho Hb Hin. destruct (stands_reads r ts Hr _ _ _ Hst) as (Hitem & Hend & Hpos).
  cbn [head default] in Hend. rewrite Hend, Eo. unfold id. cbn [mbind res_bind].
  destruct (Nat.eqb_spec o (length (concat pre) + length t)) as [E|Hne].
  2: { exists ck, pre, (t :: post). split; [done|]. split; try done; lia. }
  assert (offset_is_valid ck = (o <? b)) as Ev.
  { unfold offset_is_valid. rewrite Ea, Eb, Eo, Ed. destruct (Nat.ltb_spec o a), (Nat.leb_spec b o), (Nat.ltb_spec o b); (done || lia). }
  unfold chunks_next, peek. rewrite Ev, Hitem. destruct (Nat.ltb_spec o b) as [Hlt|Hge]; cbn [negb mbind res_bind snd].
  2: { exists ck, pre, (t :: post). split; [done|]. split; try done; lia. }
  cbn [head fmap option_fmap option_map]. unfold peek_range. rewrite Ed, Hend, Hpos, Eo, Eb. unfold id.
  rewrite usub_ok by lia. cbn [mbind res_bind]. rewrite usub_ok by lia. cbn [mbind res_bind fst snd chunk_of chunk_text].
  replace (o - length (concat pre)) with (length t) by lia.
  replace ((length (concat pre) + length t) `min` b - length (concat pre)) with (length t) by lia.
  unfold str_slice. rewrite boundary_length, Nat.leb_refl, Nat.sub_diag. cbn [andb take fmap res_fmap mbind res_bind length].
  destruct (stands_next r ts Hr Hsh _ _ _ _ Hst) as (c' & En & Hst' & El).
  unfold chunks_advance. rewrite Ed. cbn [ch_cursor with_offset]. rewrite Hend. unfold id. cbn [mbind res_bind ch_offset]. rewrite Eo, Nat.add_0_r, E, Nat.leb_refl.
  rewrite En. cbn [fmap res_fmap mbind res_bind snd]. eexists _, (pre ++ [t]), post. split; [reflexivity|].
  split; cbn; try done; try lia. destruct post as [|t2 post].
  - destruct Hst' as [E' _]. rewrite app_nil_r in E'. rewrite E' at 1. lia.
  - pose proof (next_piece_long r ts Hr _ _ _ _ _ Hst). lia.
Qed.

(** Coming back into the range. *)
Lemma clip_iter ck a b o p (found : bool) :
  ch_start ck = a -> ch_end ck = b -> ch_offset ck = o -> ch_reversed ck = false -> a <= b <= length s ->
  at_place (rope_chunks r) (height (rope_chunks r)) (ch_cursor ck) p ->
  (o <= b -> exists pre post, forward_at r ts ck a b o pre post) ->
  exists ck' pre' post', (if ch_end ck <? ch_offset ck then
      let offset := ch_offset ck `min` ch_end ck in
      c ← seek (ch_cursor ck) offset Right;
      Ret (found, with_offset (with_cursor ck (snd c)) offset)
    else Ret (found, ck)) = Ret (found, ck') /\ forward_at r ts ck' a b (o `min` b) pre' post'.
Proof.
  intros Ea Eb Eo Ed Hab Hc Hin. rewrite Eb, Eo. destruct (Nat.ltb_spec b o) as [Hlt|Hge].
  - cbv zeta. rewrite Nat.min_r by lia. destruct (seek_at r ts Hr Hsh _ _ b Right Hc) as (f & c' & pre & post & -> & Hst & Hi); [lia|].
    cbn [mbind res_bind snd]. eexists _, pre, post. split; [reflexivity|]. split; cbn; try done; try lia.
    destruct post; cbn [inside_right] in Hi; [done|lia].
  - rewrite Nat.min_l by lia. destruct (Hin Hge) as (pre & post & H). by exists ck, pre, post.
Qed.

(** The step goes past the first newline of the range, or to its end or beyond. *)
Definition stepped (a b o : nat) (found : bool) (ck : Chunks) : Prop :=
  ch_start ck = a /\ ch_end ck = b /\ ch_reversed ck = false
  /\ (exists p, at_place (rope_chunks r) (height (rope_chunks r)) (ch_cursor ck) p)
  /\ (ch_offset ck <= b -> exists pre post, forward_at r ts ck a b (ch_offset ck) pre post)
  /\ match str_find NEWLINE (between s o b) with
     | Some i => found = true /\ ch_offset ck = o + i + 1
     | None => found = false /\ b <= ch_offset ck
     end.

Lemma stepped_at ck a b o (o' : nat) pre post (found : bool) :
  forward_at r ts ck a b o' pre post ->
  match str_find NEWLINE (between s o b) with Some i => found = true /\ o' = o + i + 1 | None => found = false /\ o' = b end ->
  stepped a b o found ck.
Proof.
  intros H Hs. pose proof H as [Ea Eb Eo Ed Hst Ho Hin]. split_and!; try done.
  - destruct Hst as [_ Hc]. eauto.
  - intros _. rewrite Eo. eauto.
  - rewrite Eo. destruct (str_find NEWLINE (between s o b)); [done|]. destruct Hs as [-> ->]. done.
Qed.

(** A newline in what is read of a chunk. *)
Lemma newline_read ck a b o (o1 e : nat) pre t post i :
  forward_at r ts ck a b o1 pre (t :: post) -> o <= o1 < e -> e = (length (concat pre) + length t) `min` b ->
  str_find NEWLINE (between s o o1) = None -> str_find NEWLINE (between s o1 e) = Some i ->
  exists ck',
    (let '(found, self) := ((let self := with_offset ck (ch_offset ck + (i + 1)) in
       (ch_offset self <=? ch_end self, self)) : bool * Chunks) in
     chunks_end ← cursor_end (ch_cursor self);
     if ch_offset self =? chunks_end then n ← chunks_next self; Ret (found, snd n) else Ret (found, self)) = Ret (true, ck')
    /\ stepped a b o true ck'.
Proof.
  intros H Ho Ee Hnone Hi. destruct H as [Ea Eb Eo Ed Hst [Hab Hb] [Hin _]].
  pose proof (str_find_Some _ _ _ Hi) as (_ & _ & Hlt). rewrite length_between in Hlt by lia.
  cbv zeta. rewrite Eo. set (ck1 := with_offset ck (o1 + (i + 1))).
  assert (ch_offset ck1 <=? ch_end ck1 = true) as -> by (apply Nat.leb_le; cbn; lia).
  destruct (at_chunk_end ck1 a b (o1 + (i + 1)) pre t post true) as (ck' & pre' & post' & -> & H');
    try done; try lia.
  exists ck'. split; [done|]. apply (stepped_at _ _ _ _ _ _ _ _ H').
  rewrite (between_split s o o1 b), str_find_app, Hnone by lia. rewrite (between_split s o1 e b), str_find_app, Hi by lia.
  cbn. rewrite length_between by lia. split; [done|lia].
Qed.

Lemma next_line_step_ok ck a b o pre post :
  forward_at r ts ck a b o pre post -> boundary s o -> boundary s b ->
  exists found ck', next_line_step ck = Ret (found, ck') /\ stepped a b o found ck'.
Proof.
  intros H Hbo Hbb. unfold next_line_step. pose proof (fwd_order _ _ _ _ _ _ _ _ H) as [Hab Hb].
  destruct (peek_forward r ts Hr ck a b o pre post H Hbo Hbb)
    as [[-> ->]|(t & post' & e & -> & Hlt & Ee & Hbe & _ & _ & _ & _ & Hpeek)]; [|rewrite Hpeek]; cbn [mbind res_bind].
  { eexists _, ck. split; [reflexivity|]. apply (stepped_at _ _ _ _ _ _ _ _ H). by rewrite between_nil. }
  destruct (str_find NEWLINE (between s o e)) as [i|] eqn:Ei.
  { destruct (newline_read ck a b o o e pre t post' i H) as (ck' & E & Hs); [lia|done|by rewrite between_nil|done|].
    exists true, ck'. by rewrite <-E. }
  pose proof H as [Ea Eb Eo Ed Hst _ _].
  destruct (search_newline _ _ _ _ Hst) as (c' & skip & rest & -> & Hst' & -> & Hskip & Hrest). cbn [mbind res_bind].
  set (n := length (concat (pre ++ t :: skip))).
  assert (n = length (concat pre) + length t + length (concat skip)) as En.
  { unfold n. rewrite concat_app, length_app. cbn [concat]. rewrite length_app. lia. }
  destruct (stands_reads r ts Hr _ _ _ Hst') as (Hitem & Hend & Hpos). pose proof (stands_end r ts Hr _ _ _ _ Hst) as Hse.
  assert (n <= length s) as Hn by (destruct Hst' as [E _]; rewrite E, concat_app, length_app; unfold n; lia).
  assert (forall m, o <= m -> m <= n -> m <= b -> str_find NEWLINE (between s o m) = None) as Hnone.
  { intros m Hom Hm Hmb. destruct (decide (m <= e)) as [Hme|Hme].
    - rewrite (between_split s o m e) in Ei by lia. by apply find_none_app in Ei as [? _].
    - assert (e = length (concat pre) + length t) as Ee' by lia.
      rewrite (between_split s o e m) by lia. apply find_none_app. split; [done|].
      assert (between s e n = concat skip) as Esk.
      { destruct Hst' as [E _]. unfold between. rewrite E, concat_app, Ee', En. cbn [concat].
        rewrite concat_app. cbn [concat]. rewrite <-!app_assoc.
        rewrite <-length_app, app_assoc, drop_app_length.
        rewrite length_app. replace (length (concat pre) + length t + length (concat skip) - (length (concat pre) + length t))
          with (length (concat skip)) by lia. by rewrite take_app_length. }
      rewrite <-Esk, (between_split s e m n) in Hskip by lia. by apply find_none_app in Hskip as [? _]. }
  set (ck1 := with_offset (with_cursor ck c') (start c')).
  assert (at_place (rope_chunks r) (height (rope_chunks r)) c' (place_of (map chunk_of (pre ++ t :: skip)) (map chunk_of rest))) as Hc'
    by apply Hst'.
  (* no newline in the range *)
  assert (forall o', b <= o' -> (o' <= b -> exists pre post, forward_at r ts (with_offset ck1 o') a b o' pre post) ->
    str_find NEWLINE (between s o b) = None -> cursor_end c' = Ret o' ->
    exists found ck', (chunks_end ← cursor_end (ch_cursor (with_offset ck1 o'));
      if ch_offset (with_offset ck1 o') =? chunks_end then m ← chunks_next (with_offset ck1 o'); Ret (false, snd m)
      else Ret (false, with_offset ck1 o')) = Ret (found, ck') /\ stepped a b o found ck') as Hpast.
  { intros o' Ho' Hf Hno Hce. cbn [ch_cursor with_offset with_cursor ck1]. rewrite Hce. cbn [mbind res_bind ch_offset with_offset].
    rewrite Nat.eqb_refl. unfold chunks_next, peek.
    assert (offset_is_valid (with_offset ck1 o') = false) as ->.
    { unfold offset_is_valid. cbn. rewrite Ed, Eb. destruct (Nat.leb_spec b o'); [by rewrite orb_true_r|lia]. }
    cbn [negb mbind res_bind snd]. eexists _, _. split; [reflexivity|]. do 3 (split; [done|]). split; [by eexists|]. split; [exact Hf|]. by rewrite Hno. }
  destruct rest as [|t' rest].
  - assert (n = length s) as Ens by (destruct Hst' as [E _]; rewrite app_nil_r in E; unfold n; by rewrite E).
    assert (peek ck1 = Ret None) as ->.
    { unfold peek. destruct (offset_is_valid ck1); [|done]. cbn [negb ck1 with_offset with_cursor ch_cursor]. by rewrite Hitem. }
    cbn [mbind res_bind]. change (ch_cursor ck1) with c'. rewrite Hend. cbn [head default mbind res_bind]. fold n. cbn [length]. rewrite Nat.add_0_r.
    apply Hpast; [lia| |apply Hnone; lia|by rewrite Hend; cbn [head default length]; fold n; rewrite Nat.add_0_r].
    intros Hle. exists (pre ++ t :: skip), []. split; cbn; try done; lia.
  - cbn beta iota in Hpos. fold n in Hpos. cbn [head default] in Hend. unfold id in Hend. fold n in Hend.
    pose proof (stands_text r ts Hr _ _ _ _ Hst') as (Es & _). pose proof (stands_end r ts Hr _ _ _ _ Hst') as Hse'. fold n in Hse'.
    assert (0 < length t') as Hlen by (destruct t'; [done|cbn; lia]).
    destruct (decide (n < b)) as [Hnb|Hnb].
    + assert (forward_at r ts ck1 a b n (pre ++ t :: skip) (t' :: rest)) as H'.
      { split; cbn; try done; fold n; lia. }
      destruct (peek_forward r ts Hr ck1 a b n _ _ H') as [[-> _]|(t2 & post2 & e' & [= <- <-] & Hlt' & Ee' & Hbe' & _ & _ & _ & _ & ->)];
        [|done|lia|].
      { replace n with (n + 0) by lia. apply (boundary_at_piece_start r ts Hr _ _ _ Hst'). }
      fold n in Ee'. cbn [mbind res_bind].
      destruct (str_find NEWLINE (between s n e')) as [i|] eqn:Ei'.
      * destruct (newline_read ck1 a b o n e' _ t' rest i H') as (ck' & E & Hs); [lia|done|apply Hnone; lia|done|].
        exists true, ck'. by rewrite <-E.
      * assert (e' <> n + length t') as Hne.
        { intros E. unfold has_newline in Hrest. rewrite E, Es in Ei'. unfold n in Ei'.
          replace (length (concat (pre ++ t :: skip))) with (length (concat (pre ++ t :: skip)) + 0) in Ei' at 1 by lia.
          rewrite between_piece, between_all in Ei' by lia. by rewrite Ei' in Hrest. }
        change (ch_cursor ck1) with c'. rewrite Hend. cbn [mbind res_bind]. apply Hpast; [lia|lia| |done].
        rewrite (between_split s o n b) by lia. apply find_none_app. split; [apply Hnone; lia|].
        replace b with e' by lia. done.
    + assert (peek ck1 = Ret None) as ->.
      { unfold peek. assert (offset_is_valid ck1 = false) as ->; [|done]. unfold offset_is_valid. cbn. rewrite Ed, Eb, Hpos.
        destruct (Nat.leb_spec b n); [by rewrite orb_true_r|lia]. }
      cbn [mbind res_bind]. change (ch_cursor ck1) with c'. rewrite Hend. cbn [mbind res_bind].
      apply Hpast; [lia|lia|apply Hnone; lia|done].
Qed.

(** [next_line] goes to the start of the next line of the range, or to the end of the range. *)
Lemma next_line_ok ck a b o pre post :
  forward_at r ts ck a b o pre post -> boundary s o -> boundary s b ->
  exists found ck' o' pre' post', next_line ck = Ret (found, ck') /\ forward_at r ts ck' a b o' pre' post'
    /\ match str_find NEWLINE (between s o b) with
       | Some i => found = true /\ o' = o + i + 1
       | None => found = false /\ o' = b
       end.
Proof.
  intros H Hbo Hbb. pose proof H as [_ _ _ Ed _ [Hab Hb] _]. unfold next_line. rewrite Ed. cbn [negb assert mbind res_bind].
  destruct (next_line_step_ok ck a b o pre post H Hbo Hbb) as (found & ck1 & -> & E1 & E2 & E3 & (p & Hp) & Hf & Hs). cbn [mbind res_bind].
  destruct (clip_iter ck1 a b (ch_offset ck1) p found) as (ck' & pre' & post' & E & H'); try done; [lia|].
  exists found, ck', (ch_offset ck1 `min` b), pre', post'. split; [exact E|]. split; [exact H'|].
  destruct (str_find NEWLINE (between s o b)) as [i|] eqn:Ei; destruct Hs as [-> Hs].
  - split; [done|]. apply str_find_Some in Ei as (_ & _ & Hi). rewrite length_between in Hi by lia. lia.
  - split; [done|]. lia.
Qed.

(** *** The line before *)

Lemma stands_prev_end c pre t : stands c (pre ++ [t]) [] -> exists c', prev c = Ret c' /\ stands c' pre [t].
Proof.
  intros [E Hc]. cbn [map place_of] in Hc.
  destruct (prev_ok _ _ (rope_wf _ _ Hr) _ _ (map chunk_of pre) (chunk_of t) Hsh Hc) as (c' & -> & Hc').
  { cbn [earlier fst]. rewrite (rope_list _ _ Hr), E, app_nil_r, map_app. done. }
  exists c'. split; [done|]. split; [by rewrite E, app_nil_r|done].
Qed.

(** Where [prev_line] looks first: the chunk that ends at the offset or that the offset is in,
    or before all chunks. *)
Lemma prev_line_starts ck a b o pre post :
  forward_at r ts ck a b o pre post -> ts <> [] ->
  exists c, (if ch_offset ck =? start (ch_cursor ck) then with_cursor ck <$> prev (ch_cursor ck) else Ret ck) = Ret (with_cursor ck c)
    /\ ((o = 0 /\ at_place (rope_chunks r) (height (rope_chunks r)) c Front)
       \/ exists pre' t post', stands c pre' (t :: post') /\ length (concat pre') < o <= length (concat pre') + length t).
Proof.
  intros H Hne. pose proof H as [Ea Eb Eo Ed Hst Ho Hin]. rewrite Eo.
  assert (forall t pre' post', stands (ch_cursor ck) pre' post' -> t ∈ pre' -> 0 < length t) as Hlen.
  { intros t pre' post' [E _] Ht. destruct (pieces_parts r ts Hr _ _ E) as [Hp _]. rewrite Forall_forall in Hp.
    destruct (Hp t Ht) as [_ Hn]. destruct t; [done|cbn; lia]. }
  destruct post as [|t post].
  - destruct (snoc_cases pre) as [->|(pre' & t & ->)]; [by destruct Hst as [E _]; rewrite app_nil_r in E|].
    pose proof Hst as [E Hc]. rewrite app_nil_r in E.
    assert (start (ch_cursor ck) = length s) as Es.
    { rewrite (start_ok _ _ _ _ Hc). cbn [map place_of]. by rewrite (rope_list _ _ Hr), advance_len by apply Hr. }
    rewrite Es, Hin, Nat.eqb_refl. destruct (stands_prev_end _ _ _ Hst) as (c' & -> & Hst').
    exists c'. split; [done|]. right. exists pre', t, []. split; [done|].
    pose proof (Hlen t _ _ Hst ltac:(apply elem_of_app; right; constructor)).
    rewrite E, concat_app, length_app. cbn [concat]. rewrite app_nil_r. lia.
  - destruct (stands_reads r ts Hr _ _ _ Hst) as (_ & _ & Hpos). rewrite Hpos. destruct Hin as [Hin _].
    destruct (Nat.eqb_spec o (length (concat pre))) as [->|Hno].
    + pose proof (stands_prev r ts Hr Hsh _ _ _ _ Hst) as Hp. destruct (last pre) as [t'|] eqn:El.
      * destruct Hp as (c' & pre' & -> & -> & Hst' & El'). exists c'. split; [done|]. right. exists pre', t', (t :: post). split; [done|].
        pose proof (Hlen t' _ _ Hst ltac:(apply elem_of_app; right; constructor)). lia.
      * destruct Hp as (-> & _). destruct Hst as [E Hc].
        destruct (prev_front _ _ (rope_wf _ _ Hr) _ _ Hsh Hc) as (c' & -> & Hc'); [done|rewrite (rope_list _ _ Hr), E; done|].
        exists c'. split; [done|]. by left.
    + exists (ch_cursor ck). split; [by destruct ck|]. right. exists pre, t, post. split; [done|lia].
Qed.

(** Where a line begins that has [n] as the place of the newline before it, if it has one; a
    line that begins before the range is cut off. *)
Definition line_start (a init : nat) (n : option nat) (found : bool) (o : nat) : Prop :=
  match n with
  | Some i => if a <=? i + 1 then found = true /\ o = i + 1 else found = (a <? init) && (a =? 0) /\ o = a
  | None => found = (a <? init) && (a =? 0) /\ o = a
  end.

Lemma prev_newline_ok ck o pre t post :
  ch_offset ck = o -> stands (ch_cursor ck) pre (t :: post) ->
  length (concat pre) < o <= length (concat pre) + length t -> boundary s o ->
  exists x, prev_newline ck = Ret ((fun i => length (concat pre) + i + 1) <$> str_rfind NEWLINE x)
    /\ before_newline (take o s) = concat pre ++ x
    /\ forall i, str_rfind NEWLINE x = Some i -> length (concat pre) + i + 1 < o.
Proof.
  intros Eo Hst Ho Hbo. destruct (stands_reads r ts Hr _ _ _ Hst) as (Hitem & _ & Hpos).
  destruct (stands_text r ts Hr _ _ _ _ Hst) as (Es & Hu1 & Hft & Hu2).
  set (k := o - length (concat pre)). assert (o = length (concat pre) + k) as Ek by lia.
  destruct (lookup_lt_is_Some_2 t (k - 1)) as [b Hb]; [lia|].
  assert (boundary t k) as Hbk.
  { apply (piece_boundary (concat pre) t (concat post)); [done|apply Hft|done| |lia]. by rewrite <-Es, <-Ek. }
  exists (take (cut_ix b k) t). unfold prev_newline. rewrite Hitem, Eo, Hpos. cbn [head fmap option_fmap option_map mbind res_bind chunk_of chunk_text].
  rewrite usub_ok by lia. cbn [mbind res_bind]. fold k. rewrite usub_ok by lia. cbn [mbind res_bind]. unfold index. rewrite Hb. cbn [mbind res_bind].
  change (if (b =? NEWLINE)%Z then k - 1 else k) with (cut_ix b k).
  assert (boundary t (cut_ix b k)) as Hbc.
  { unfold cut_ix. destruct (Z.eqb_spec b NEWLINE) as [->|]; [|done]. apply boundary_newline. unfold newlines.
    rewrite list_lookup_fmap, Hb. done. }
  assert (cut_ix b k <= length t) as Hck by (unfold cut_ix; case_match; lia).
  unfold str_slice. rewrite Hbc, boundary_zero. cbn [Nat.leb andb mbind res_bind]. rewrite drop_0, Nat.sub_0_r.
  split_and!; [done| |].
  - rewrite Es, Ek, take_app_add, take_app_le by lia. apply before_newline_chunk; [done|lia].
  - intros i (Ei & _ & Hi)%str_rfind_Some. rewrite length_take_le in Hi by done. unfold cut_ix in *.
    destruct (Z.eqb_spec b NEWLINE) as [->|Hbn]; [lia|]. destruct (decide (i = k - 1)) as [->|]; [|lia].
    assert (take k t !! (k - 1) = Some NEWLINE) as H.
    { rewrite Ei. apply list_lookup_middle. rewrite length_take_le; [done|]. rewrite length_take_le by lia. lia. }
    rewrite lookup_take_lt, Hb in H by lia. congruence.
Qed.

(** Going to the start of the range. *)
Lemma to_range_start ck a b p :
  ch_start ck = a -> ch_end ck = b -> ch_reversed ck = false -> a <= b <= length s ->
  at_place (rope_chunks r) (height (rope_chunks r)) (ch_cursor ck) p ->
  exists f c pre post, seek (ch_cursor ck) a Right = Ret (f, c) /\ forward_at r ts (with_offset (with_cursor ck c) a) a b a pre post.
Proof.
  intros Ea Eb Ed Hab Hc. destruct (seek_at r ts Hr Hsh _ _ a Right Hc) as (f & c & pre & post & E & Hst & Hin); [lia|].
  exists f, c, pre, post. split; [done|]. split; cbn; try done; [lia|]. destruct post; cbn [inside_right] in Hin; [done|lia].
Qed.

Lemma prev_line_back_ok ck a b (init : nat) p parts post :
  ch_start ck = a -> ch_end ck = b -> ch_reversed ck = false -> a <= b <= length s ->
  at_place (rope_chunks r) (height (rope_chunks r)) (ch_cursor ck) p ->
  earlier (rope_chunks r) p = (map chunk_of parts, map chunk_of post) -> ts = parts ++ post -> ts <> [] ->
  parts = [] \/ length (concat parts) < b ->
  exists found ck' o' pre' post', prev_line_back ck init = Ret (found, ck') /\ forward_at r ts ck' a b o' pre' post'
    /\ line_start a init (str_rfind NEWLINE (concat parts)) found o'.
Proof.
  intros Ea Eb Ed Hab Hc Ep E Hne Hlt. unfold prev_line_back.
  destruct (search_newline_back _ _ _ _ Hc Ep E Hne) as [(Hno & c' & -> & Hc')|(c' & before & t & rest & -> & Hst & -> & Hno & Hnl)].
  - cbn [mbind res_bind]. rewrite (item_ok _ _ _ _ Hc'). cbn [fst snd mbind res_bind]. rewrite orb_true_r.
    destruct (to_range_start (with_cursor ck c') a b Front) as (f & c2 & pre' & post' & Es & H'); try done.
    cbn [ch_start with_offset with_cursor ch_cursor] in *. rewrite Ea, Es. cbn [mbind res_bind snd].
    eexists _, _, a, pre', post'. split; [reflexivity|]. split; [exact H'|].
    apply str_rfind_None in Hno. rewrite Hno. done.
  - cbn [mbind res_bind]. destruct (stands_reads r ts Hr _ _ _ Hst) as (Hitem & Hend & Hpos). rewrite Hitem.
    cbn [head default fmap option_fmap option_map mbind res_bind chunk_of chunk_text] in *. rewrite Hpos. unfold id in Hend.
    unfold has_newline in Hnl. destruct (str_rfind NEWLINE t) as [i|] eqn:Ei.
    2: { apply str_rfind_None in Ei. by rewrite Ei in Hnl. }
    cbn [fmap option_fmap option_map]. set (n := length (concat before)) in *.
    assert (str_rfind NEWLINE (concat (before ++ t :: rest)) = Some (n + i)) as Er.
    { rewrite concat_app. cbn [concat]. rewrite !str_rfind_app. apply str_rfind_None in Hno. by rewrite Hno, Ei. }
    rewrite Er. pose proof (str_rfind_Some _ _ _ Ei) as (_ & _ & Hi).
    assert (n + i + 1 < b) as Hib.
    { destruct Hlt as [Hlt|Hlt]; [by destruct before|]. rewrite concat_app, length_app in Hlt. cbn [concat] in Hlt. rewrite length_app in Hlt. unfold n. lia. }
    assert (offset_is_valid (with_offset (with_offset (with_cursor ck c') n) (n + i + 1)) = (a <=? n + i + 1)) as Ev.
    { unfold offset_is_valid. cbn [ch_reversed ch_offset ch_start ch_end with_offset with_cursor]. rewrite Ea, Eb, Ed. destruct (Nat.ltb_spec (n + i + 1) a), (Nat.leb_spec b (n + i + 1)), (Nat.leb_spec a (n + i + 1)); (done || lia). }
    rewrite Ev. unfold line_start. destruct (Nat.leb_spec a (n + i + 1)) as [Hv|Hv].
    + rewrite Hend. cbn [mbind res_bind ch_offset with_offset]. destruct (Nat.eqb_spec (n + i + 1) (n + length t)) as [En|En].
      * destruct (stands_next r ts Hr Hsh _ _ _ _ Hst) as (c2 & -> & Hst2 & El). cbn [mbind res_bind].
        eexists _, _, (n + i + 1), (before ++ [t]), (rest ++ post). split; [reflexivity|]. split; [|done].
        fold n in El. split; cbn; try done; [lia|]. destruct (rest ++ post) as [|t2 post2] eqn:E2.
        -- destruct Hst2 as [E3 _]. rewrite app_nil_r in E3. rewrite E3 at 1. lia.
        -- pose proof (next_piece_long r ts Hr _ _ _ _ _ Hst). lia.
      * eexists _, _, (n + i + 1), before, (t :: rest ++ post). split; [reflexivity|]. split; [|done].
        split; cbn; try done; fold n; lia.
    + cbn [negb orb]. destruct (to_range_start (with_cursor ck c') a b (place_of (map chunk_of before) (map chunk_of (t :: rest ++ post)))) as (f & c2 & pre' & post' & Es & H');
        try done; [apply Hst|]. cbn [ch_start with_offset with_cursor ch_cursor] in *. rewrite Ea, Es. cbn [mbind res_bind snd].
      eexists _, _, a, pre', post'. split; [reflexivity|]. split; [exact H'|done].
Qed.

(** An empty rope. *)
Lemma prev_line_empty ck a b o pre post :
  forward_at r ts ck a b o pre post -> ts = [] ->
  exists ck' pre' post', prev_line ck = Ret (false, ck') /\ forward_at r ts ck' a b 0 pre' post'.
Proof.
  intros [Ea Eb Eo Ed Hst [Ho Hb] Hin] Hnil. rewrite Hnil in Hb. cbn [concat length] in Hb.
  assert (pre = [] /\ post = []) as [-> ->] by (destruct Hst as [E _]; rewrite Hnil in E; by apply eq_sym, app_eq_nil in E).
  destruct Hst as [_ Hc]. cbn [map place_of] in Hc.
  assert (to_list (rope_chunks r) = []) as Hl by (rewrite (rope_list _ _ Hr), Hnil; done).
  assert (forall c p, at_place (rope_chunks r) (height (rope_chunks r)) c p -> p = Back -> start c = 0 /\ item c = Ret None) as Hback.
  { intros c p Hp ->. rewrite (item_ok _ _ _ _ Hp), (start_ok _ _ _ _ Hp). by rewrite Hl. }
  destruct (Hback _ _ Hc eq_refl) as [Es Ei]. unfold prev_line. rewrite Ed, Es, Eo. assert (o = 0) as -> by lia.
  cbn [negb assert mbind res_bind Nat.eqb].
  destruct (search_backward_empty _ _ (fun _ => true) (rope_wf _ _ Hr) _ _ Hc Hl) as (c1 & E1 & Hc1).
  unfold prev. rewrite E1. cbn [fmap res_fmap mbind res_bind]. destruct (Hback _ _ Hc1 eq_refl) as [Es1 Ei1].
  unfold prev_newline. cbn [ch_cursor with_cursor]. rewrite Ei1. cbn [mbind res_bind]. unfold prev_line_back. cbn [ch_cursor with_cursor].
  destruct (search_backward_empty _ _ more_rows (rope_wf _ _ Hr) _ _ Hc1 Hl) as (c2 & -> & Hc2).
  destruct (Hback _ _ Hc2 eq_refl) as [Es2 Ei2]. cbn [mbind res_bind]. rewrite Ei2. cbn [mbind res_bind]. rewrite orb_true_r.
  destruct (to_range_start (with_cursor ck c2) a b Back) as (f & c3 & pre' & post' & E3 & H'); try done; [rewrite Hnil; cbn; lia|].
  cbn [ch_start with_offset with_cursor ch_cursor] in *. rewrite Ea, E3. assert (a = 0) as -> by lia. cbn [mbind res_bind snd].
  eexists _, pre', post'. split; [reflexivity|]. exact H'.
Qed.

(** [prev_line] goes to the start of the line that the text before the offset ends with, a
    newline at its very end apart, or to the start of the range; it says whether it found
    a newline, or came to the start of the text. *)
Lemma prev_line_ok ck a b o pre post :
  forward_at r ts ck a b o pre post -> boundary s o ->
  exists found ck' o' pre' post', prev_line ck = Ret (found, ck') /\ forward_at r ts ck' a b o' pre' post'
    /\ line_start a o (str_rfind NEWLINE (before_newline (take o s))) found o'.
Proof.
  intros H Hbo. pose proof H as [Ea Eb Eo Ed _ [Ho Hb] _].
  assert (ts = [] \/ ts <> []) as [Hnil|Hne] by (destruct ts; [by left|by right]).
  { destruct (prev_line_empty _ _ _ _ _ _ H Hnil) as (ck' & pre' & post' & E & H').
    exists false, ck', 0, pre', post'. split_and!; [done..|]. rewrite Hnil in *. cbn [concat length] in Hb. assert (o = 0) as -> by lia.
    assert (a = 0) as -> by lia. done. }
  destruct (prev_line_starts _ _ _ _ _ _ H Hne) as (c & Ec & Hc). unfold prev_line. rewrite Ed. cbn [negb assert mbind res_bind].
  rewrite Ec. cbn [mbind res_bind]. rewrite Eo.
  assert (forall p parts post2, at_place (rope_chunks r) (height (rope_chunks r)) c p ->
    earlier (rope_chunks r) p = (map chunk_of parts, map chunk_of post2) -> ts = parts ++ post2 ->
    parts = [] \/ length (concat parts) < b -> forall o1,
    exists found ck' o' pre' post', prev_line_back (with_offset (with_cursor ck c) o1) o = Ret (found, ck') /\ forward_at r ts ck' a b o' pre' post'
      /\ line_start a o (str_rfind NEWLINE (concat parts)) found o') as Hback.
  { intros p parts post2 Hp Ep E Hl o1. apply (prev_line_back_ok (with_offset (with_cursor ck c) o1) a b o p parts post2); (done || lia). }
  destruct Hc as [[-> Hc]|(pre' & t & post' & Hst & Hin)].
  - unfold prev_newline. cbn [ch_cursor with_cursor]. rewrite (item_ok _ _ _ _ Hc). cbn [mbind res_bind].
    assert (earlier (rope_chunks r) Front = (map chunk_of [], map chunk_of ts)) as Ep by (cbn; by rewrite (rope_list _ _ Hr)).
    destruct (Hback Front [] ts Hc Ep eq_refl (or_introl eq_refl) 0) as (found & ck' & o' & pre' & post' & E & H').
    exists found, ck', o', pre', post'. split; [|exact H']. rewrite <-E. unfold prev_line_back. done.
  - destruct (prev_newline_ok (with_cursor ck c) o pre' t post' Eo Hst Hin Hbo) as (x & -> & Ex & Hx). rewrite Ex. cbn [mbind res_bind].
    rewrite str_rfind_app. destruct Hst as [E Hc]. cbn [map place_of] in Hc.
    assert (forall o1, exists found ck' o' pre2 post2, prev_line_back (with_offset (with_cursor ck c) o1) o = Ret (found, ck')
      /\ forward_at r ts ck' a b o' pre2 post2 /\ line_start a o (str_rfind NEWLINE (concat pre')) found o') as Hb'.
    { intros o1. apply (Hback _ pre' (t :: post') Hc); [done|done|right; lia]. }
    destruct (str_rfind NEWLINE x) as [i|] eqn:Ei; cbn [fmap option_fmap option_map].
    + specialize (Hx i eq_refl).
      assert (offset_is_valid (with_offset (with_cursor ck c) (length (concat pre') + i + 1)) = (a <=? length (concat pre') + i + 1)) as ->.
      { unfold offset_is_valid. cbn [ch_reversed ch_offset ch_start ch_end with_offset with_cursor]. rewrite Ea, Eb, Ed.
        destruct (Nat.ltb_spec (length (concat pre') + i + 1) a), (Nat.leb_spec b (length (concat pre') + i + 1)),
          (Nat.leb_spec a (length (concat pre') + i + 1)); (done || lia). }
      unfold line_start at 1. destruct (Nat.leb_spec a (length (concat pre') + i + 1)) as [Hv|Hv].
      * eexists _, _, _, pre', (t :: post'). split; [reflexivity|]. split; [|done]. split; cbn; try done; lia.
      * destruct (Hb' (length (concat pre') + i + 1)) as (found & ck' & o' & pre2 & post2 & E' & H' & Hl).
        exists found, ck', o', pre2, post2. split; [exact E'|]. split; [done|].
        destruct (str_rfind NEWLINE (concat pre')) as [j|] eqn:Ej; [|done].
        pose proof (str_rfind_Some _ _ _ Ej) as (_ & _ & Hj). cbn [line_start] in Hl. destruct (Nat.leb_spec a (j + 1)); [lia|done].
    + destruct (Hb' o) as (found & ck' & o' & pre2 & post2 & E' & H' & Hl).
      exists found, ck', o', pre2, post2. split; [|by split]. rewrite <-E', <-Eo. done.
Qed.
End MoveLines.
