(* ===== verification/RopeReadProps.v ===== *)
(** * What reading a rope promises

    The iterators over a rope give the text it holds: chunks, characters, bytes, lines and
    bitmaps of any range, from either end. *)

From S2P Require Import Prelude SumTree SumTreeInvariant SumCursor SumIter.
From S2P Require Import Text TextSpec Bits Utf8 Chunk ChunkSpec ChunkPositions.
From S2P Require Import Rope RopeSpec RopeCursorSpec RopePositionsSpec.
From S2P Require Import RopeIter RopeIterSpec RopeReadSpec RopeBytesSpec RopeLinesSpec RopeProps.
Local Open Scope nat_scope.

#[local] Arguments summary_of : simpl never.

(** C19. Reading a range of a rope.  From its start and from its end, the chunks are parts of
    the text that are never empty nor split a character and make up the range; the
    bitmaps that go with them mark its characters, newlines and tabs; characters and
    bytes come in order and in reverse, whole chunks at a time or any number of bytes at
    a time; and comparing with a text says whether the rope starts or ends with it or the
    range equals it.  Every loop ends. *)
Theorem rope_reading_spec r s a b :
  holds r s -> shallow r -> a <= b -> boundary s a -> boundary s b ->
  (exists ck parts bs, chunks_in_range r a b = Ret ck /\ chunks_collect (iter_fuel r) ck = Ret parts
     /\ concat parts = between s a b /\ Forall part parts
     /\ bitmaps_collect (iter_fuel r) ck = Ret bs /\ Forall2 marked parts bs)
  /\ (exists ck parts bs, reversed_chunks_in_range r a b = Ret ck /\ chunks_collect (iter_fuel r) ck = Ret parts
     /\ concat (rev parts) = between s a b /\ Forall part parts
     /\ bitmaps_collect (iter_fuel r) ck = Ret bs /\ Forall2 marked parts bs)
  /\ chars_at r a = Ret (str_chars (drop a s)) /\ reversed_chars_at r b = Ret (rev (str_chars (take b s)))
  /\ (forall p, utf8 p -> starts_with r p = Ret (bool_decide (p `prefix_of` s))
       /\ ends_with r p = Ret (bool_decide (p `suffix_of` s))
       /\ forall reversed, exists ck, chunks_new r a b reversed = Ret ck
            /\ equals_str (iter_fuel r) ck p = Ret (bool_decide (p = between s a b)))
  /\ forall n, 0 < n ->
     (exists by_ parts, bytes_in_range r a b = Ret by_ /\ bytes_collect (iter_fuel r) by_ = Ret parts
        /\ concat parts = between s a b /\ bytes_read_all (S (b - a)) by_ n = Ret (between s a b))
     /\ (exists by_ parts, reversed_bytes_in_range r a b = Ret by_ /\ bytes_collect (iter_fuel r) by_ = Ret parts
        /\ concat (rev parts) = between s a b /\ bytes_read_all (S (b - a)) by_ n = Ret (rev (between s a b))).
Proof.
  intros (ts & Hr & <-) Hsh Hab Hba Hbb. pose proof (boundary_le _ _ (read_utf8 r ts Hr) Hbb) as Hb.
  split_and!; [| |by apply chars_at_ok; (done || lia)|by apply reversed_chars_at_ok| |by intros n Hn; apply bytes_of_range_ok].
  - destruct (chunks_in_range_ok r ts Hr Hsh a b Hab Hb Hba Hbb) as (ck & parts & E & Ec & Et & Hp & _).
    destruct (bitmaps_collect_ok r ts Hr Hsh _ ck parts (new_placed r ts Hr Hsh a b false Hab Hb ck E) Ec) as (bs & Eb & Hm).
    by exists ck, parts, bs.
  - destruct (reversed_chunks_in_range_ok r ts Hr Hsh a b Hab Hb Hba Hbb) as (ck & parts & E & Ec & Et & Hp & _).
    destruct (bitmaps_collect_ok r ts Hr Hsh _ ck parts (new_placed r ts Hr Hsh a b true Hab Hb ck E) Ec) as (bs & Eb & Hm).
    by exists ck, parts, bs.
  - intros p Hp. split_and!; [by apply starts_with_ok|by apply ends_with_ok|]. intros reversed. by apply equals_str_ok.
Qed.
Lemma rope_reading_spec_witness :
  exists ck parts, reversed_chunks_in_range Text4.rope 1 4 = Ret ck /\ chunks_collect (iter_fuel Text4.rope) ck = Ret parts
    /\ concat (rev parts) = [195; 169; 10]%Z.
Proof.
  destruct (rope_reading_spec _ _ 1 4 Text4.rope_holds Text4.rope_shallow ltac:(lia) eq_refl eq_refl) as (_ & (ck & parts & _ & E1 & E2 & E3 & _) & _).
  exists ck, parts. split; [exact E1|]. split; [exact E2|exact E3].
Defined.

(** ** Lines *)

(** What is left of a range: it is read from an offset on. *)
Definition reads r (ck : Chunks) (o : nat) (rest : str) : Prop :=
  ch_offset ck = o /\ exists parts, chunks_collect (iter_fuel r) ck = Ret parts /\ concat parts = rest.

Lemma forward_reads r ts ck a b o pre post :
  rope_of r ts -> shallow r -> forward_at r ts ck a b o pre post -> boundary (concat ts) o -> boundary (concat ts) b ->
  reads r ck o (between (concat ts) o b).
Proof.
  intros Hr Hsh H Hbo Hbb. split; [apply H|]. pose proof (iter_fuel_enough r ts Hr) as Hf.
  pose proof (proj1 (fwd_stands _ _ _ _ _ _ _ _ H)) as Ets. apply (f_equal length) in Ets. rewrite length_app in Ets.
  destruct (collect_forward r ts Hr Hsh (iter_fuel r) ck a b o pre post H Hbo Hbb) as (parts & Ec & Et & _); [lia|]. by exists parts.
Qed.
Lemma before_newline_prefix (x : str) : exists n, before_newline x = take n x.
Proof.
  unfold before_newline. destruct (last x) as [c|]; [destruct (c =? NEWLINE)%Z; [by eexists|]|];
    exists (length x); by rewrite take_ge.
Qed.

(** A forward iterator over a range of the text, at an offset. *)
Definition forward_iter r s (ck : Chunks) (a b o : nat) : Prop :=
  exists ts pre post, rope_of r ts /\ concat ts = s /\ forward_at r ts ck a b o pre post.

(** C20. Lines of a range.  Iterating gives the lines that [split] gives, from either end.  A
    forward iterator, once made and whatever of this it has done since, can be moved to any
    offset of the range.  From a boundary it reads the rest of the range; [next_line] goes to
    the start of the next line and says so, or, on the last line as at its end, to the end of
    the range and says no; and [prev_line] goes to the start of the line before, a newline
    just before the offset apart, or to the start of the range, which counts as found only at
    the start of the text.  Each leaves it at a boundary.  (Reversed iterators refuse both by
    an assertion.) *)
Theorem rope_lines_spec r s a b :
  holds r s -> shallow r -> a <= b -> boundary s a -> boundary s b ->
  (forall reversed, exists ck, chunks_new r a b reversed = Ret ck
     /\ lines_all (S (length (split_lines (between s a b)))) (iter_fuel r) (lines_of ck)
        = Ret (if reversed then rev (split_lines (between s a b)) else split_lines (between s a b)))
  /\ (exists ck, chunks_new r a b false = Ret ck /\ forward_iter r s ck a b a)
  /\ forall ck o, forward_iter r s ck a b o ->
     (forall o', a <= o' <= b -> exists ck1, chunks_seek ck o' = Ret ck1 /\ forward_iter r s ck1 a b o')
     /\ (boundary s o ->
          reads r ck o (between s o b)
          /\ (exists found ck2 o2, next_line ck = Ret (found, ck2) /\ forward_iter r s ck2 a b o2 /\ boundary s o2
               /\ match str_find NEWLINE (between s o b) with
                  | Some i => found = true /\ o2 = o + i + 1
                  | None => found = false /\ o2 = b
                  end)
          /\ (exists found ck2 o2, prev_line ck = Ret (found, ck2) /\ forward_iter r s ck2 a b o2 /\ boundary s o2
               /\ line_start a o (str_rfind NEWLINE (before_newline (take o s))) found o2)).
Proof.
  intros (ts & Hr & <-) Hsh Hab Hba Hbb. pose proof (boundary_le _ _ (read_utf8 r ts Hr) Hbb) as Hb.
  split; [intros reversed; by apply lines_ok|]. split.
  { destruct (new_forward r ts Hr Hsh a b Hab Hb Hba) as (ck & pre & post & E & H). exists ck. split; [done|]. by exists ts, pre, post. }
  intros ck o (ts' & pre1 & post1 & Hr' & Es & H1). rewrite <-Es in *. clear ts Hr Es. rename ts' into ts, Hr' into Hr. split.
  { intros o' Ho. destruct (seek_forward_iter r ts Hr Hsh ck a b o pre1 post1 o' H1 Ho) as (ck1 & pre2 & post2 & E1 & H2).
    exists ck1. split; [done|]. by exists ts, pre2, post2. }
  intros Hbo. split_and!; [by apply (forward_reads r ts ck a b o pre1 post1)| |].
  - destruct (next_line_ok r ts Hr Hsh ck a b o pre1 post1 H1 Hbo Hbb) as (found & ck2 & o2 & pre2 & post2 & E2 & H2 & Hf).
    exists found, ck2, o2. split_and!; [done|by exists ts, pre2, post2| |done].
    destruct (str_find NEWLINE _) as [i|] eqn:Ei; destruct Hf as [_ ->]; [|done].
    apply (newline_boundary r ts Hr o b (between (concat ts) o b)); [|done|by apply str_find_Some in Ei as (_ & _ & ?)|by apply find_newline_at].
    pose proof (fwd_order _ _ _ _ _ _ _ _ H1). lia.
  - destruct (prev_line_ok r ts Hr Hsh ck a b o pre1 post1 H1 Hbo) as (found & ck2 & o2 & pre2 & post2 & E2 & H2 & Hf).
    exists found, ck2, o2. split_and!; [done|by exists ts, pre2, post2| |done].
    unfold line_start in Hf. destruct (str_rfind NEWLINE _) as [i|] eqn:Ei; [|by destruct Hf as [_ ->]].
    destruct (a <=? i + 1); destruct Hf as [_ ->]; [|done].
    pose proof (fwd_order _ _ _ _ _ _ _ _ H1). destruct (before_newline_prefix (take o (concat ts))) as (n & En). rewrite En, take_take in Ei.
    apply (newline_boundary r ts Hr 0 (n `min` o) (take (n `min` o) (concat ts)));
      [lia|unfold between; by rewrite drop_0, Nat.sub_0_r|by apply str_rfind_Some in Ei as (_ & _ & ?)|by apply rfind_newline_at].
Qed.
Lemma rope_lines_spec_witness :
  exists ck, chunks_new Text4.rope 0 8 true = Ret ck
    /\ lines_all 3 (iter_fuel Text4.rope) (lines_of ck) = Ret [[240; 157; 132; 158]; [97; 195; 169]]%Z.
Proof.
  destruct (rope_lines_spec _ _ 0 8 Text4.rope_holds Text4.rope_shallow ltac:(lia) eq_refl eq_refl) as (H & _).
  destruct (H true) as (ck & E1 & E2). exists ck. split; [exact E1|exact E2].
Defined.

(** ** What does not hold *)
Module Flaws.
(** A reversed iterator that has reached the start cannot be moved forward again: it is at
    an offset of its range, but reads nothing. *)
Lemma reversed_seek_lost :
  exists ck x ck1 ck2, reversed_chunks_in_range Text4.rope 0 8 = Ret ck /\ chunks_next ck = Ret (Some x, ck1)
    /\ chunks_seek ck1 8 = Ret ck2 /\ ch_offset ck2 = 8 /\ offset_is_valid ck2 = true /\ peek ck2 = Ret None.
Proof. eexists _, _, _, _. repeat split; vm_compute; reflexivity. Qed.

(** Setting the range of a reversed iterator moves it to the start of the range, where it has
    nothing to read. *)
Lemma reversed_set_range_empty :
  exists ck ck1, reversed_chunks_in_range Text4.rope 0 8 = Ret ck
    /\ set_range ck 1 4 = Ret ck1 /\ peek ck1 = Ret None.
Proof. eexists _, _. repeat split; vm_compute; reflexivity. Qed.

(** A reader of bytes that has skipped a chunk with [next] reads the same bytes twice. *)
Definition long_text : str := repeat 97%Z 100 ++ repeat 98%Z 28 ++ map (fun i => 65 + Z.of_nat i)%Z (seq 0 20).
Definition long_rope : Rope := match push chunks_map rope_new long_text with Ret r => r | Panic => rope_new end.
Lemma bytes_read_twice :
  exists by1 x by2 by3 by4, bytes_in_range long_rope 0 148 = Ret by1 /\ bytes_next by1 = Ret (Some x, by2) /\ length x = 128
    /\ bytes_read by2 4 = Ret ([65; 66; 67; 68]%Z, by3) /\ bytes_read by3 4 = Ret ([65; 66; 67; 68]%Z, by4).
Proof. eexists _, _, _, _, _. repeat split; vm_compute; reflexivity. Qed.

(** Going to the start of a range that is not the start of the text is not reported. *)
Lemma prev_line_unreported :
  exists ck ck1 ck2, chunks_new Text4.rope 1 8 false = Ret ck /\ chunks_seek ck 3 = Ret ck1
    /\ prev_line ck1 = Ret (false, ck2) /\ ch_offset ck2 = 1.
Proof. eexists _, _, _. repeat split; vm_compute; reflexivity. Qed.
End Flaws.
