(* ===== verification/UndoMap.v ===== *)
(** * Undo counts ([crates/text/src/undo_map.rs]) and what is visible through them

    How often each edit was undone, according to each undo operation, in a sum
    tree ordered by edit and then by undo; and the visibility of fragments
    ([Fragment] in [crates/text/src/text.rs]). *)

From S2P Require Import Prelude Clock SumTree SumTreeInvariant SumTreeFind.
From S2P Require Import SumCursor SumCursorSeek SumCursorSearch SumIter.
From S2P Require Import KeyedTree KeyedTreeSpec.
Local Open Scope nat_scope.

(** ** Timestamps at their width

    The order's least element is [Lamport::MIN] because the fields are unsigned, so
    a timestamp comes with its range. *)
Definition fits (ts : Lamport.t) : bool :=
  ((0 <=? Lamport.value ts) && (Lamport.value ts <=? U32_MAX)
   && (0 <=? Lamport.replica_id ts) && (Lamport.replica_id ts <=? U16_MAX))%Z.
Record Stamp := mkStamp { lamport : Lamport.t; lamport_fits : fits lamport = true }.

Lemma stamp_eq (a b : Stamp) : lamport a = lamport b -> a = b.
Proof.
  destruct a as [a Ha], b as [b Hb]. simpl. intros ->. f_equal. apply (proof_irrel (A:=_ = true)).
Qed.

Definition to_stamp (ts : Lamport.t) : option Stamp :=
  match fits ts as b return fits ts = b -> option Stamp with
  | true => fun H => Some (mkStamp ts H)
  | false => fun _ => None
  end eq_refl.

#[export] Instance stamp_eq_dec : EqDecision Stamp.
Proof.
  intros a b. destruct (decide (lamport a = lamport b)) as [E|E].
  - left. by apply stamp_eq.
  - right. by intros ->.
Defined.

#[export] Instance lamport_countable : Countable Lamport.t.
Proof.
  refine (inj_countable' (fun ts => (Lamport.value ts, Lamport.replica_id ts))
            (fun p => Lamport.Lamport (fst p) (snd p)) _).
  by intros [].
Defined.

Lemma to_stamp_lamport (s : Stamp) : to_stamp (lamport s) = Some s.
Proof.
  destruct s as [ts H]. unfold to_stamp. simpl.
  generalize (eq_refl (fits ts)). generalize (fits ts) at 2 3.
  intros [|] E; [f_equal; by apply stamp_eq|congruence].
Qed.

#[export] Instance stamp_countable : Countable Stamp.
Proof. exact (inj_countable lamport to_stamp to_stamp_lamport). Defined.

#[export] Instance stamp_ord : Ord Stamp := fun a b => Lamport.cmp (lamport a) (lamport b).
Definition STAMP_MIN : Stamp := mkStamp Lamport.MIN eq_refl.

(** ** The map *)
Record UndoMapKey := mkKey { edit_id : Stamp; undo_id : Stamp }.
Record UndoMapEntry := mkEntry { entry_key : UndoMapKey; entry_count : Z }.

(** The derived [Ord]: by the fields in turn. *)
#[export] Instance undo_key_ord : Ord UndoMapKey := fun a b =>
  match ord_cmp (edit_id a) (edit_id b) with
  | Eq => ord_cmp (undo_id a) (undo_id b)
  | c => c
  end.

(** [cmp::max], which gives its second argument when they are equal. *)
Definition ord_max {K} `{!Ord K} (a b : K) : K := match ord_cmp a b with Gt => a | _ => b end.

#[export] Instance undo_key_summary : Summary UndoMapKey := {
  zero := mkKey STAMP_MIN STAMP_MIN;
  add_summary := ord_max;
}.
#[export] Instance undo_entry_item : Item UndoMapEntry UndoMapKey := entry_key.
#[export] Instance undo_entry_keyed : KeyedItem UndoMapEntry UndoMapKey := entry_key.

(** [UndoOperation]; a count is a [u32]. *)
Record UndoOperation := mkUndo {
  timestamp : Stamp;
  version : Global.t;
  counts : gmap Stamp Z;
}.

Notation UndoMap := (node UndoMapEntry UndoMapKey).
Implicit Types self : UndoMap.

Definition insert self (undo : UndoOperation) : res UndoMap :=
  let edits := map (fun p => Insert (mkEntry (mkKey (fst p) (timestamp undo)) (snd p)))
                 (map_to_list (counts undo)) in
  r ← edit (Key:=UndoMapKey) self edits; mret (fst r).

(** The loops over the entries of an edit, which [was_undone] restricts to some
    undo operations. *)
Fixpoint count_loop (fuel : nat) (seen : Stamp -> bool) (edit : Stamp)
    (c : cursor UndoMapEntry UndoMapKey UndoMapKey) (undo_count : Z) : res Z :=
  match fuel with
  | O => Panic
  | S fuel =>
      r ← cursor_next c;
      match r with
      | (Some entry, c) =>
          if negb (bool_decide (edit_id (entry_key entry) = edit)) then Ret undo_count
          else count_loop fuel seen edit c
                 (if seen (undo_id (entry_key entry)) then Z.max undo_count (entry_count entry)
                  else undo_count)
      | (None, _) => Ret undo_count
      end
  end.

Definition count_seen self (seen : Stamp -> bool) (edit : Stamp) : res Z :=
  r ← seek (cursor_new (D:=UndoMapKey) self) (mkKey edit STAMP_MIN) Left;
  count_loop (fuel_for self) seen edit (snd r) 0.

Definition undo_count self (edit : Stamp) : res Z := count_seen self (fun _ => true) edit.

Definition is_undone self (edit : Stamp) : res bool :=
  n ← undo_count self edit; mret (n `mod` 2 =? 1)%Z.

Definition was_undone self (edit : Stamp) (version : Global.t) : res bool :=
  n ← count_seen self (fun u => Global.observed version (lamport u)) edit;
  mret (n `mod` 2 =? 1)%Z.

(** ** What the buffer does with it *)

(** The counts of [undo_or_redo]: one more than what each edit has. *)
Fixpoint undo_counts self (edit_ids : list Stamp) (counts : gmap Stamp Z) : res (gmap Stamp Z) :=
  match edit_ids with
  | [] => Ret counts
  | edit :: edit_ids =>
      n ← undo_count self edit;
      undo_counts self edit_ids (<[edit := Z.min (n + 1) U32_MAX]> counts)
  end.

(** The fields of [Fragment] that decide its visibility. *)
Record Fragment := mkFragment { inserted_at : Stamp; deletions : list Stamp }.

(** [Iterator::all], which stops at the first failure. *)
Fixpoint all_res {A} (f : A -> res bool) (l : list A) : res bool :=
  match l with
  | [] => Ret true
  | x :: l => b ← f x; if b : bool then all_res f l else Ret false
  end.

Definition is_visible (f : Fragment) (undos : UndoMap) : res bool :=
  b ← is_undone undos (inserted_at f);
  if b : bool then Ret false else all_res (is_undone undos) (deletions f).

Definition was_visible (f : Fragment) (version : Global.t) (undos : UndoMap) : res bool :=
  let observed d := Global.observed version (lamport d) in
  if observed (inserted_at f) then
    b ← was_undone undos (inserted_at f) version;
    if b : bool then Ret false
    else all_res (fun d => if observed d then was_undone undos d version else Ret true) (deletions f)
  else Ret false.
