(* ===== verification/UndoMapSpec.v ===== *)
(** * What the undo map promises

    The map against the set of undo operations it was given: the order they
    arrived in does not matter, and undoing flips what is undone. *)

From S2P Require Import Prelude Clock SumTree SumTreeInvariant SumTreeFind.
From S2P Require Import SumCursor SumCursorSeek SumCursorSearch SumIter.
From S2P Require Import KeyedTree KeyedTreeSpec UndoMap.
Local Open Scope nat_scope.

(** ** The orders and measures are lawful *)

#[export] Instance stamp_ord_laws : OrdLaws Stamp.
Proof.
  split; unfold ord_cmp, stamp_ord.
  - intros a b. rewrite Lamport.cmp_eq. split; [apply stamp_eq|by intros ->].
  - intros a b. apply Lamport.cmp_antisym.
  - intros a b c. apply Lamport.lt_trans.
Qed.

Lemma stamp_min_least (s : Stamp) : ord_cmp STAMP_MIN s <> Gt.
Proof.
  destruct s as [[v r] H]. unfold ord_cmp, stamp_ord, Lamport.cmp, STAMP_MIN, Lamport.MIN.
  cbn [lamport Lamport.value Lamport.replica_id]. unfold fits in H.
  cbn [Lamport.value Lamport.replica_id] in H. rewrite !andb_true_iff, !Z.leb_le in H.
  destruct (Z.compare_spec 0 v); try done; [|exfalso; lia].
  destruct (Z.compare_spec 0 r); [done..|exfalso; lia].
Qed.

Lemma undo_key_lt (k k' : UndoMapKey) :
  ord_cmp k k' = Lt
  <-> ord_cmp (edit_id k) (edit_id k') = Lt
      \/ (edit_id k = edit_id k' /\ ord_cmp (undo_id k) (undo_id k') = Lt).
Proof.
  unfold ord_cmp at 1, undo_key_ord. rewrite <-(ord_eq (edit_id k)).
  destruct (ord_cmp (edit_id k) (edit_id k')); naive_solver.
Qed.

#[export] Instance undo_key_ord_laws : OrdLaws UndoMapKey.
Proof.
  split.
  - intros [e u] [e' u']. unfold ord_cmp, undo_key_ord. cbn [edit_id undo_id]. split.
    + destruct (ord_cmp e e') eqn:E; [|done..]. intros Eu. apply ord_eq in E, Eu. by subst.
    + intros [= -> ->]. by rewrite !ord_refl.
  - intros [e u] [e' u']. unfold ord_cmp, undo_key_ord. cbn [edit_id undo_id].
    rewrite (ord_opp e e'). destruct (ord_cmp e e'); [apply ord_opp|done..].
  - intros [e1 u1] [e2 u2] [e3 u3]. rewrite !undo_key_lt. cbn [edit_id undo_id].
    intros [H1|[-> H1]] [H2|[-> H2]]; [left; by apply (ord_trans _ e2)|by left..|].
    right. split; [done|]. by apply (ord_trans _ u2).
Qed.

Section Max.
Context {K : Type} `{HO : !Ord K} `{HL : !OrdLaws K}.

Lemma ord_max_r (a b : K) : ord_cmp a b <> Gt -> ord_max a b = b.
Proof. unfold ord_max. by destruct (ord_cmp a b). Qed.

Lemma ord_le_trans (a b c : K) : ord_cmp a b <> Gt -> ord_cmp b c <> Gt -> ord_cmp a c <> Gt.
Proof.
  intros H1 H2. destruct (ord_cmp b c) eqn:E; [apply ord_eq in E; by subst| |done].
  by rewrite (ord_le_lt _ _ _ H1 E).
Qed.

Lemma ord_max_l (a b : K) : ord_cmp a b = Gt -> ord_max a b = a.
Proof. unfold ord_max. by intros ->. Qed.

Lemma ord_max_assoc (a b c : K) : ord_max (ord_max a b) c = ord_max a (ord_max b c).
Proof.
  destruct (decide (ord_cmp a b = Gt)) as [E1|E1], (decide (ord_cmp b c = Gt)) as [E2|E2].
  - rewrite (ord_max_l b c), !(ord_max_l a b) by done. apply ord_max_l.
    apply ord_gt in E1, E2. apply ord_gt. by apply (ord_trans _ b).
  - by rewrite (ord_max_l a b), (ord_max_r b c).
  - by rewrite (ord_max_l b c), (ord_max_r a b), ord_max_l.
  - rewrite (ord_max_r a b), (ord_max_r b c) by done. symmetry. apply ord_max_r.
    by apply (ord_le_trans _ b).
Qed.
End Max.

Lemma undo_key_least (k : UndoMapKey) : ord_cmp (mkKey STAMP_MIN STAMP_MIN) k <> Gt.
Proof.
  destruct k as [e u]. unfold ord_cmp, undo_key_ord. cbn [edit_id undo_id].
  pose proof (stamp_min_least e). pose proof (stamp_min_least u).
  by destruct (ord_cmp STAMP_MIN e).
Qed.

#[export] Instance undo_key_summary_laws : SummaryLaws UndoMapKey.
Proof.
  split; intros; simpl; [|apply ord_max_assoc]. apply ord_max_r, undo_key_least.
Qed.

#[export] Instance undo_keyed_laws : KeyedLaws UndoMapEntry UndoMapKey UndoMapKey.
Proof. split; [intros d x; apply ord_max_r|apply undo_key_least]. Qed.

(** ** The greatest of some counts *)
Definition max_of (l : list Z) : Z := foldr Z.max 0%Z l.

Lemma max_of_nonneg l : (0 <= max_of l)%Z.
Proof. induction l as [|x l IH]; simpl; lia. Qed.

Lemma max_of_elem x l : In x l -> (x <= max_of l)%Z.
Proof. induction l as [|y l IH]; simpl; [done|]. intros [->|H%IH]; lia. Qed.

Lemma max_of_le l l' : (forall x, In x l -> (x <= max_of l')%Z) -> (max_of l <= max_of l')%Z.
Proof.
  induction l as [|x l IH]; intros H; [apply max_of_nonneg|]. simpl.
  pose proof (H x ltac:(by left)). specialize (IH (fun y Hy => H y (or_intror Hy))). lia.
Qed.

Lemma max_of_same l l' :
  (forall x, In x l -> (x <= max_of l')%Z) -> (forall x, In x l' -> (x <= max_of l)%Z) ->
  max_of l = max_of l'.
Proof. intros H1%max_of_le H2%max_of_le. lia. Qed.

(** ** Reading the map *)
Notation sorted := (sorted (T:=UndoMapEntry) (Key:=UndoMapKey)).
Notation edit_of x := (edit_id (entry_key x)).
Notation undo_of x := (undo_id (entry_key x)).
Implicit Types (l : list UndoMapEntry) (x y : UndoMapEntry).
Implicit Types (e u : Stamp) (seen : Stamp -> bool) (m : UndoMap).

Definition of_edit e l : list UndoMapEntry := List.filter (fun x => bool_decide (edit_of x = e)) l.
Definition seen_counts seen l : list Z :=
  map entry_count (List.filter (fun x => seen (undo_of x)) l).

(** The entries the loop goes through. *)
Fixpoint take_edit e l : list UndoMapEntry :=
  match l with
  | [] => []
  | x :: l => if bool_decide (edit_of x = e) then x :: take_edit e l else []
  end.

Lemma of_edit_none e l : (forall x, In x l -> edit_of x <> e) -> of_edit e l = [].
Proof.
  induction l as [|x l IH]; intros H; [done|]. unfold of_edit in *. simpl.
  rewrite bool_decide_eq_false_2 by (apply H; by left). apply IH. intros y Hy. apply H. by right.
Qed.

(** The entries of an edit stand together, from the edit's least key on. *)
Lemma take_edit_from e l : sorted l -> take_edit e (from (mkKey e STAMP_MIN) l) = of_edit e l.
Proof.
  induction l as [|x l IH]; intros Hs; [done|]. apply sorted_cons in Hs as [Hx Hs].
  specialize (IH Hs). unfold from in *. cbn [List.filter].
  change (ord_cmp (key x) (mkKey e STAMP_MIN)) with (ord_cmp (entry_key x) (mkKey e STAMP_MIN)).
  assert (Hof : of_edit e (x :: l) = if bool_decide (edit_of x = e) then x :: of_edit e l else of_edit e l)
    by done.
  rewrite Hof. destruct (ord_cmp (entry_key x) _) eqn:E; cbn [is_lt negb].
  - apply ord_eq in E. cbn [take_edit]. rewrite E. simpl. rewrite bool_decide_eq_true_2 by done.
    by f_equal.
  - apply undo_key_lt in E. cbn [edit_id undo_id] in E. destruct E as [E|[_ E%ord_gt]].
    + rewrite bool_decide_eq_false_2; [done|]. intros Ee. by rewrite Ee, ord_refl in E.
    + by pose proof (stamp_min_least (undo_of x)).
  - cbn [take_edit]. case_bool_decide as Ee; [by f_equal|]. symmetry. apply of_edit_none.
    apply ord_gt, undo_key_lt in E. cbn [edit_id undo_id] in E.
    destruct E as [E|[E _]]; [|by symmetry in E]. intros y Hy <-.
    rewrite Forall_forall in Hx. apply list_elem_of_In in Hy. specialize (Hx y Hy).
    apply undo_key_lt in Hx as [Hx|[Hx _]].
    + pose proof (ord_trans _ _ _ E Hx) as Hc. by rewrite ord_refl in Hc.
    + change (edit_of x = edit_of y) in Hx. by rewrite Hx, ord_refl in E.
Qed.

Section Reading.
Context (m : UndoMap) (h : nat) (Hw : wf h m) (Hh : h < STACK_CAPACITY).

Lemma count_loop_ok fuel seen e c p pre post n :
  at_place m h c p -> ahead m p pre post -> length post < fuel -> (0 <= n)%Z ->
  count_loop fuel seen e c n = Ret (Z.max n (max_of (seen_counts seen (take_edit e post)))).
Proof.
  revert c p pre post n. induction fuel as [|fuel IH]; intros c p pre post n Hc Hp Hf Hn; [lia|].
  destruct (cursor_next_ok m h Hw Hh c p pre post Hc Hp) as (c' & E & H).
  cbn [count_loop]. rewrite E. cbn [mbind res_bind].
  destruct post as [|x post]; cbn [head take_edit].
  - simpl. f_equal. lia.
  - destruct H as [Hc' Hp']. case_bool_decide; cbn [negb].
    + rewrite (IH c' _ _ post _ Hc' Hp'); [|simpl in Hf; lia|case_match; lia]. f_equal.
      unfold seen_counts. cbn [List.filter]. destruct (seen (undo_of x)); [|done]. simpl. lia.
    + simpl. f_equal. lia.
Qed.

Lemma count_seen_ok seen e :
  sorted (to_list m) -> count_seen m seen e = Ret (max_of (seen_counts seen (of_edit e (to_list m)))).
Proof.
  intros Hs. unfold count_seen.
  destruct (seek_ok m h (mkKey e STAMP_MIN) Left (cursor_new m) Unsought Hh Hw (new_at_place m h)
              (key_seekable _ _ Hs)) as (c & -> & Hc).
  cbn [mbind res_bind snd].
  destruct (scan_sorted (mkKey e STAMP_MIN) Left dim_zero (to_list m) (key_monotone _)
              (above_zero _) Hs) as [E1 E2].
  rewrite E2, E1, below_filter, rest_filter, <-from_split in Hc by done.
  assert (El : below (mkKey e STAMP_MIN) (to_list m) ++ from (mkKey e STAMP_MIN) (to_list m) = to_list m).
  { rewrite from_split by done. symmetry. by apply (split_key (S:=UndoMapKey)). }
  rewrite (count_loop_ok _ seen e c _ _ _ 0 Hc (ahead_place_of m _ _ El)).
  - rewrite take_edit_from by done. f_equal. pose proof (max_of_nonneg (seen_counts seen (of_edit e (to_list m)))). lia.
  - pose proof (length_slots h m Hw). rewrite <-El, length_app in H. unfold fuel_for. lia.
  - done.
Qed.
End Reading.

(** ** The operations behind a map *)
Implicit Types (op : UndoOperation) (log : list UndoOperation).

Record undo_ok (h : nat) m log : Prop := {
  undo_wf : wf h m;
  undo_sorted : sorted (to_list m);
  undo_entries x : In x (to_list m) <-> exists op, In op log /\ undo_of x = timestamp op
                                        /\ counts op !! edit_of x = Some (entry_count x);
}.

(** An operation is known by its timestamp. *)
Definition unique_stamps log : Prop :=
  forall op op', In op log -> In op' log -> timestamp op = timestamp op' -> op = op'.

(** The greatest count the operations seen give an edit. *)
Definition max_count seen log e : Z :=
  max_of (map (fun op => default 0%Z (counts op !! e)) (List.filter (fun op => seen (timestamp op)) log)).
Definition is_odd (n : Z) : bool := (n `mod` 2 =? 1)%Z.
Definition all_seen : Stamp -> bool := fun _ => true.
Definition seen_by (v : Global.t) : Stamp -> bool := fun u => Global.observed v (lamport u).

Lemma new_undo_ok : undo_ok 0 new [].
Proof. split; [apply new_ok|constructor|]. intros x. split; [done|]. by intros (op & [] & _). Qed.

Lemma seen_counts_log seen e h m log :
  undo_ok h m log -> max_of (seen_counts seen (of_edit e (to_list m))) = max_count seen log e.
Proof.
  intros [_ _ He]. apply max_of_same.
  - intros n Hn. apply in_map_iff in Hn as (x & <- & Hx).
    apply filter_In in Hx as [[Hx Hxe]%filter_In Hseen]. apply bool_decide_eq_true in Hxe.
    apply He in Hx as (op & Hop & Hu & Hc). rewrite Hxe in Hc. apply max_of_elem, in_map_iff.
    exists op. rewrite Hc. split; [done|]. apply filter_In. by rewrite <-Hu.
  - intros n Hn. apply in_map_iff in Hn as (op & <- & [Hop Hseen]%filter_In).
    destruct (counts op !! e) as [n|] eqn:Ec; simpl; [|apply max_of_nonneg].
    apply max_of_elem, in_map_iff. exists (mkEntry (mkKey e (timestamp op)) n). split; [done|].
    apply filter_In. split; [|done]. apply filter_In. split; [|by apply bool_decide_eq_true].
    apply He. by exists op.
Qed.

Lemma queries_ok h m log e :
  undo_ok h m log -> h < STACK_CAPACITY ->
  undo_count m e = Ret (max_count all_seen log e)
  /\ is_undone m e = Ret (is_odd (max_count all_seen log e))
  /\ (forall v, was_undone m e v = Ret (is_odd (max_count (seen_by v) log e))).
Proof.
  intros Hm Hh. pose proof (undo_wf _ _ _ Hm) as Hw. pose proof (undo_sorted _ _ _ Hm) as Hs.
  unfold is_undone, was_undone, undo_count.
  rewrite (count_seen_ok m h Hw Hh), (seen_counts_log _ _ h m log Hm) by done.
  split_and!; [done..|]. intros v.
  by rewrite (count_seen_ok m h Hw Hh), (seen_counts_log _ _ h m log Hm) by done.
Qed.

(** ** Inserting an operation *)

Definition edits_of op : list (Edit UndoMapEntry UndoMapKey) :=
  map (fun p => Insert (mkEntry (mkKey (fst p) (timestamp op)) (snd p))) (map_to_list (counts op)).

Lemma edits_distinct op : NoDup (map edit_key (edits_of op)).
Proof.
  unfold edits_of. rewrite map_map. apply (NoDup_fmap_2_strong _ _).
  - intros [e n] [e' n'] H1%elem_of_map_to_list H2%elem_of_map_to_list E. simpl in *.
    injection E as ->. congruence.
  - apply NoDup_map_to_list.
Qed.

Lemma edits_of_In op x :
  In (Insert x) (edits_of op) <-> undo_of x = timestamp op /\ counts op !! edit_of x = Some (entry_count x).
Proof.
  unfold edits_of. rewrite in_map_iff. split.
  - intros ([e n] & [= <-] & Hin). apply list_elem_of_In, elem_of_map_to_list in Hin. done.
  - destruct x as [[e u] n]. cbn. intros [-> Hc]. exists (e, n). split; [done|].
    by apply list_elem_of_In, elem_of_map_to_list.
Qed.

Lemma edits_of_key op d : In d (edits_of op) -> exists x, d = Insert x.
Proof. intros ([e' n] & <- & _)%in_map_iff. by eexists. Qed.

Lemma insert_ok h m log op :
  undo_ok h m log -> h < STACK_CAPACITY -> unique_stamps (op :: log) ->
  exists m' h', insert m op = Ret m' /\ undo_ok h' m' (op :: log).
Proof.
  intros [Hw Hs He] Hh Hu. unfold insert. fold (edits_of op).
  destruct (edit_ok (Key:=UndoMapKey) m h Hw Hh Hs (edits_of op)) as (m' & h' & -> & Hw' & El).
  exists m', h'. split; [done|]. pose proof (edits_distinct op) as Hd. split; [done| |].
  { rewrite El. apply (edited_sorted (S:=UndoMapKey)); [done|by apply sort_edits_sorted]. }
  intros x. rewrite El, (edited_In (S:=UndoMapKey)), edits_of_In, He by done. split.
  - intros [[Eu Hc]|[(op' & Hin & Eu & Hc) _]]; [exists op; by split; [left|]|exists op'; by split; [right|]].
  - intros (op' & [<-|Hin] & Eu & Hc); [by left|].
    destruct (decide (timestamp op' = timestamp op)) as [Et|Et].
    + left. assert (op = op') as -> by (apply Hu; [by left|by right|done]). done.
    + right. split; [by exists op'|]. intros d Hin' Ek. pose proof Hin' as [y ->]%edits_of_key.
      apply edits_of_In in Hin' as [Ey _]. apply Et. rewrite <-Eu, <-Ey.
      change (entry_key y = entry_key x) in Ek. by rewrite Ek.
Qed.

(** ** Replicas, and undoing *)

Lemma max_count_same seen log log' e :
  (forall op, In op log <-> In op log') -> max_count seen log e = max_count seen log' e.
Proof.
  intros H. unfold max_count. apply max_of_same; intros n [op [<- [Hop Hs]%filter_In]]%in_map_iff;
    apply max_of_elem, in_map_iff; exists op; (split; [done|]); apply filter_In; (split; [|done]);
    by apply H.
Qed.

Lemma all_res_ext {A} (f g : A -> res bool) ds : (forall d, f d = g d) -> all_res f ds = all_res g ds.
Proof.
  intros H. induction ds as [|d ds IH]; [done|]. simpl. rewrite H. by rewrite IH.
Qed.

Lemma visible_same m m' :
  (forall e, is_undone m e = is_undone m' e) ->
  (forall e v, was_undone m e v = was_undone m' e v) ->
  forall f, is_visible f m = is_visible f m' /\ (forall v, was_visible f v m = was_visible f v m').
Proof.
  intros H1 H2 f. unfold is_visible, was_visible. rewrite H1. split.
  - by rewrite (all_res_ext _ _ _ H1).
  - intros v. rewrite H2. destruct (Global.observed _ _); [|done].
    rewrite (all_res_ext _ (fun d => if Global.observed v (lamport d) then was_undone m' d v else Ret true));
      [done|]. intros d. by rewrite H2.
Qed.

Lemma undo_counts_ok h m log es cs :
  undo_ok h m log -> h < STACK_CAPACITY ->
  exists cs', undo_counts m es cs = Ret cs'
    /\ forall e, cs' !! e = if bool_decide (e ∈ es)
                            then Some (Z.min (max_count all_seen log e + 1) U32_MAX) else cs !! e.
Proof.
  intros Hm Hh. revert cs. induction es as [|e es IH]; intros cs; [by exists cs|].
  cbn [undo_counts]. destruct (queries_ok h m log e Hm Hh) as (-> & _). cbn [mbind res_bind].
  destruct (IH (<[e := Z.min (max_count all_seen log e + 1) U32_MAX]> cs)) as (cs' & -> & Hcs).
  exists cs'. split; [done|]. intros e'. rewrite Hcs.
  case_bool_decide as H1; case_bool_decide as H2; rewrite elem_of_cons in H2; [done|tauto|..].
  - destruct H2 as [->|?]; [apply lookup_insert_eq|done].
  - apply lookup_insert_ne. intros ->. tauto.
Qed.

Lemma odd_flip n : is_odd (n + 1) = negb (is_odd n).
Proof.
  unfold is_odd. pose proof (Z.div_mod n 2 ltac:(lia)). pose proof (Z.mod_pos_bound n 2 ltac:(lia)).
  pose proof (Z.div_mod (n + 1) 2 ltac:(lia)). pose proof (Z.mod_pos_bound (n + 1) 2 ltac:(lia)).
  destruct (Z.eqb_spec ((n + 1) `mod` 2) 1), (Z.eqb_spec (n `mod` 2) 1); simpl; try done; lia.
Qed.

(** What undoing the edits [es] does to the greatest counts. *)
Lemma undo_max_count h m log es op e :
  undo_ok h m log -> h < STACK_CAPACITY -> undo_counts m es ∅ = Ret (counts op) ->
  (e ∈ es -> max_count all_seen log e < U32_MAX)%Z ->
  max_count all_seen (op :: log) e
  = (max_count all_seen log e + if bool_decide (e ∈ es) then 1 else 0)%Z.
Proof.
  intros Hm Hh Hcs Hlt. destruct (undo_counts_ok h m log es ∅ Hm Hh) as (cs & E & H).
  rewrite E in Hcs. injection Hcs as ->. unfold max_count at 1. cbn [List.filter all_seen map].
  change (max_of (?x :: ?l)) with (Z.max x (max_of l)).
  fold (max_count all_seen log e). rewrite H, lookup_empty.
  pose proof (max_of_nonneg (map (fun op => default 0%Z (counts op !! e))
    (List.filter (fun op => all_seen (timestamp op)) log))) as Hn.
  fold (max_count all_seen log e) in Hn. case_bool_decide; simpl; [specialize (Hlt ltac:(done))|]; lia.
Qed.

Lemma undo_flips h m log h' m' es op e :
  undo_ok h m log -> h < STACK_CAPACITY -> undo_counts m es ∅ = Ret (counts op) ->
  undo_ok h' m' (op :: log) -> h' < STACK_CAPACITY -> (e ∈ es -> max_count all_seen log e < U32_MAX)%Z ->
  exists b, is_undone m e = Ret b
    /\ is_undone m' e = Ret (if bool_decide (e ∈ es) then negb b else b).
Proof.
  intros Hm Hh Hcs Hm' Hh' Hlt. destruct (queries_ok h m log e Hm Hh) as (_ & -> & _).
  destruct (queries_ok h' m' _ e Hm' Hh') as (_ & -> & _). eexists. split; [reflexivity|].
  rewrite (undo_max_count h m log es op e) by done.
  case_bool_decide; [by rewrite odd_flip|by rewrite Z.add_0_r].
Qed.

(** C22. Undo converges.  A map holds a set of undo operations with distinct
    timestamps: inserting one never fails, and the count of an edit is the
    greatest that any operation (or, for [was_undone], any operation the version
    has observed) gives it.  So replicas that received the same operations, in
    whatever order and however often, agree on every count and on what is and was
    visible.  And an operation with the counts that [undo_or_redo] computes flips
    whether each of its edits is undone and leaves the others, below [u32::MAX]
    undos. *)
Theorem undo_map_refines h m log :
  undo_ok h m log -> h < STACK_CAPACITY ->
  (forall op, unique_stamps (op :: log) ->
     exists m' h', insert m op = Ret m' /\ undo_ok h' m' (op :: log))
  /\ (forall e, undo_count m e = Ret (max_count all_seen log e)
        /\ is_undone m e = Ret (is_odd (max_count all_seen log e))
        /\ (forall v, was_undone m e v = Ret (is_odd (max_count (seen_by v) log e))))
  /\ (forall h' m' log', undo_ok h' m' log' -> h' < STACK_CAPACITY ->
        (forall op, In op log <-> In op log') ->
        (forall e, undo_count m e = undo_count m' e)
        /\ (forall f, is_visible f m = is_visible f m'
              /\ (forall v, was_visible f v m = was_visible f v m')))
  /\ (forall es h' m' op, undo_counts m es ∅ = Ret (counts op) ->
        undo_ok h' m' (op :: log) -> h' < STACK_CAPACITY ->
        forall e, (max_count all_seen log e < U32_MAX)%Z ->
        exists b, is_undone m e = Ret b
          /\ is_undone m' e = Ret (if bool_decide (e ∈ es) then negb b else b)).
Proof.
  intros Hm Hh. split_and!.
  - intros op. by apply (insert_ok h).
  - intros e. by apply (queries_ok h).
  - intros h' m' log' Hm' Hh' Hin.
    assert (Hq : forall seen e, max_count seen log e = max_count seen log' e)
      by by intros; apply max_count_same.
    split; [|apply visible_same].
    + intros e. destruct (queries_ok h m log e Hm Hh) as (-> & _).
      destruct (queries_ok h' m' log' e Hm' Hh') as (-> & _). by rewrite Hq.
    + intros e. destruct (queries_ok h m log e Hm Hh) as (_ & -> & _).
      destruct (queries_ok h' m' log' e Hm' Hh') as (_ & -> & _). by rewrite Hq.
    + intros e v. destruct (queries_ok h m log e Hm Hh) as (_ & _ & ->).
      destruct (queries_ok h' m' log' e Hm' Hh') as (_ & _ & ->). by rewrite Hq.
  - intros es h' m' op ? ? ? e Hlt. by apply (undo_flips h m log h' m' es op).
Qed.

(** Two replicas undo edit [7] and both receive both operations. *)
Module Replicas.
Definition edit7 : Stamp := mkStamp (Lamport.Lamport 7 1) eq_refl.
Definition op1 : UndoOperation := mkUndo (mkStamp (Lamport.Lamport 9 1) eq_refl) Global.new {[edit7 := 1%Z]}.
Definition op2 : UndoOperation := mkUndo (mkStamp (Lamport.Lamport 9 2) eq_refl) Global.new {[edit7 := 1%Z]}.

Lemma distinct : unique_stamps [op2; op1].
Proof. by intros a b [<-|[<-|[]]] [<-|[<-|[]]]. Qed.

Lemma alone : unique_stamps [op1].
Proof. by intros a b [<-|[]] [<-|[]]. Qed.
End Replicas.
Import Replicas.

Lemma undo_map_refines_witness :
  exists m1 h1, insert new op1 = Ret m1 /\ undo_ok h1 m1 [op1]
    /\ is_undone m1 edit7 = Ret true
    /\ exists m2 h2, insert m1 op2 = Ret m2 /\ undo_ok h2 m2 [op2; op1].
Proof.
  destruct (undo_map_refines 0 new [] new_undo_ok ltac:(unfold STACK_CAPACITY; lia)) as (Hins & _).
  destruct (Hins op1 alone) as (m1 & h1 & E & Hm1). exists m1, h1.
  assert (Hh1 : h1 < STACK_CAPACITY).
  { rewrite <-(wf_height h1 m1 (undo_wf _ _ _ Hm1)).
    assert (Em : insert new op1 = Ret m1) by exact E. vm_compute in Em. injection Em as <-.
    unfold STACK_CAPACITY. simpl. lia. }
  destruct (undo_map_refines h1 m1 [op1] Hm1 Hh1) as (Hins1 & Hq & _).
  destruct (Hq edit7) as (_ & Hu & _). split_and!; [exact E|exact Hm1| |exact (Hins1 op2 distinct)].
  rewrite Hu. vm_compute. reflexivity.
Defined.
