(* ===== verification/KeyContext.v ===== *)
(** * Key contexts and the predicates on them ([crates/gpui/src/keymap/context.rs])

    What an element says about itself ([KeyContext]) and what a key binding asks of
    the elements above it ([KeyBindingContextPredicate]): evaluation, depth and the
    superset test.  Their text forms are in [KeyParser]. *)

From S2P Require Import Prelude.
From stdpp Require Import strings.
Local Open Scope nat_scope.

(** ** Text: a [char] is a code point, a string the list of its [char]s *)
Notation char := Z.
Notation str := (list Z).

(** A literal. *)
Definition lit (s : String.string) : str :=
  map (fun c => Z.of_nat (Ascii.nat_of_ascii c)) (String.list_ascii_of_string s).

(** ** Contexts *)
Record ContextEntry := mkEntry { key : str; value : option str }.
Notation KeyContext := (list ContextEntry).

#[export] Instance context_entry_eq_dec : EqDecision ContextEntry.
Proof. solve_decision. Defined.

Implicit Types (self other : KeyContext) (entry : ContextEntry).

Definition primary self : option ContextEntry :=
  List.find (fun p => match value p with None => true | Some _ => false end) self.
Definition secondary self : list ContextEntry :=
  List.filter (fun p => negb (bool_decide (Some p = primary self))) self.
Definition context_is_empty self : bool := match self with [] => true | _ => false end.
Definition context_clear self : KeyContext := [].
Definition contains self (k : str) : bool := existsb (fun entry => bool_decide (key entry = k)) self.
Definition get self (k : str) : option str :=
  match List.find (fun entry => bool_decide (key entry = k)) self with
  | Some entry => value entry
  | None => None
  end.
Definition extend self other : KeyContext :=
  fold_left (fun self entry => if contains self (key entry) then self else self ++ [entry]) other self.
Definition add self (k : str) : KeyContext :=
  if contains self k then self else self ++ [mkEntry k None].
Definition set self (k v : str) : KeyContext :=
  if contains self k then self else self ++ [mkEntry k (Some v)].

(** The platform a build is for. *)
Inductive TargetOs := macos | linux | freebsd | windows | other_os.
Definition new_with_defaults (os : TargetOs) : KeyContext :=
  set [] (lit "os"%string) (lit match os with
                         | macos => "macos"
                         | linux | freebsd => "linux"
                         | windows => "windows"
                         | other_os => "unknown"
                         end%string).

(** ** Predicates *)
Inductive Predicate :=
| Identifier (name : str)
| Equal (lhs rhs : str)
| NotEqual (lhs rhs : str)
| Descendant (parent child : Predicate)
| Not (pred : Predicate)
| And (lhs rhs : Predicate)
| Or (lhs rhs : Predicate).

#[export] Instance predicate_eq_dec : EqDecision Predicate.
Proof. solve_decision. Defined.

(** [eval_inner]: on some of the contexts, and all of them. *)
Fixpoint eval_inner (p : Predicate) (contexts all_contexts : list KeyContext) : bool :=
  match last contexts with
  | None => false
  | Some context =>
      match p with
      | Identifier name => contains context name
      | Equal lhs rhs =>
          match get context lhs with Some v => bool_decide (v = rhs) | None => false end
      | NotEqual lhs rhs =>
          match get context lhs with Some v => negb (bool_decide (v = rhs)) | None => true end
      | Not pred =>
          negb (existsb (fun i => eval_inner pred (take (i + 1) all_contexts) all_contexts)
                  (seq 0 (length all_contexts)))
      | Descendant parent child =>
          match List.find (fun i => eval_inner parent (take (i + 1) contexts) all_contexts)
                  (seq 0 (length contexts - 1)) with
          | Some i => eval_inner child (drop (i + 1) contexts) (drop (i + 1) contexts)
          | None => false
          end
      | And lhs rhs => eval_inner lhs contexts all_contexts && eval_inner rhs contexts all_contexts
      | Or lhs rhs => eval_inner lhs contexts all_contexts || eval_inner rhs contexts all_contexts
      end
  end.

Definition eval (p : Predicate) (contexts : list KeyContext) : bool := eval_inner p contexts contexts.

(** [depth_of] tries the depths from the deepest down. *)
Definition depth_of (p : Predicate) (contexts : list KeyContext) : option nat :=
  List.find (fun depth => eval_inner p (take depth contexts) contexts)
    (rev (seq 0 (length contexts + 1))).

(** [is_superset] takes a disjunction of its own apart first, then the other
    predicate. *)
Fixpoint is_superset (p : Predicate) : Predicate -> bool :=
  fix superset_of (other : Predicate) : bool :=
    bool_decide (p = other)
    || match p with
       | Or lhs rhs => is_superset lhs other || is_superset rhs other
       | _ =>
           match other with
           | Descendant _ child => superset_of child
           | And lhs rhs => superset_of lhs || superset_of rhs
           | _ => false
           end
       end.

(** ** What a predicate asks for

    [matches] reads a predicate as a relation between some contexts and all of
    them: a descendant splits the path in two, somewhere. *)
Fixpoint matches (p : Predicate) (contexts all_contexts : list KeyContext) : Prop :=
  match p with
  | Identifier name => exists pre context, contexts = pre ++ [context] /\ contains context name = true
  | Equal lhs rhs => exists pre context, contexts = pre ++ [context] /\ get context lhs = Some rhs
  | NotEqual lhs rhs => exists pre context, contexts = pre ++ [context] /\ get context lhs <> Some rhs
  | Not pred =>
      contexts <> []
      /\ forall pre post, all_contexts = pre ++ post -> pre <> [] -> ~ matches pred pre all_contexts
  | Descendant parent child =>
      exists pre post, contexts = pre ++ post
        /\ matches parent pre all_contexts /\ matches child post post
  | And lhs rhs => matches lhs contexts all_contexts /\ matches rhs contexts all_contexts
  | Or lhs rhs => matches lhs contexts all_contexts \/ matches rhs contexts all_contexts
  end.

(** No negation; and none below the right-hand side of a [>]. *)
Fixpoint not_free (p : Predicate) : bool :=
  match p with
  | Identifier _ | Equal _ _ | NotEqual _ _ => true
  | Not _ => false
  | Descendant lhs rhs | And lhs rhs | Or lhs rhs => not_free lhs && not_free rhs
  end.
Fixpoint searchable (p : Predicate) : bool :=
  match p with
  | Identifier _ | Equal _ _ | NotEqual _ _ => true
  | Not pred => searchable pred
  | Descendant parent child => searchable parent && not_free child
  | And lhs rhs | Or lhs rhs => searchable lhs && searchable rhs
  end.

Lemma find_ext {A} (f g : A -> bool) l : (forall x, f x = g x) -> List.find f l = List.find g l.
Proof. intros H. induction l as [|x l IH]; [done|]. simpl. by rewrite H, IH. Qed.

Lemma find_seq f n :
  match List.find f (seq 0 n) with
  | Some i => i < n /\ f i = true /\ (forall j, j < i -> f j = false)
  | None => forall j, j < n -> f j = false
  end.
Proof.
  enough (H : forall s, match List.find f (seq s n) with
    | Some i => i < s + n /\ f i = true /\ (forall j, s <= j < i -> f j = false)
    | None => forall j, s <= j < s + n -> f j = false
    end).
  { specialize (H 0). destruct (List.find f (seq 0 n)).
    - destruct H as (? & ? & Hj). split_and!; [done|done|]. intros j Hlt. apply Hj. lia.
    - intros j Hlt. apply H. lia. }
  induction n as [|n IH]; intros s; cbn [seq List.find]; [intros; lia|].
  destruct (f s) eqn:E.
  - split_and!; [lia|done|]. intros; lia.
  - specialize (IH (Datatypes.S s)). destruct (List.find f (seq (Datatypes.S s) n)) as [i|].
    + destruct IH as (H1 & H2 & H3). split_and!; [lia|done|]. intros j Hj.
      destruct (decide (j = s)) as [->|]; [done|]. apply H3. lia.
    + intros j Hj. destruct (decide (j = s)) as [->|]; [done|]. apply IH. lia.
Qed.

Lemma eval_nonempty p contexts all : eval_inner p contexts all = true -> contexts <> [].
Proof. intros H ->. by destruct p. Qed.

(** A predicate without negation does not mind more contexts above, and does not
    look at all of them. *)
Lemma eval_extend p pre contexts all all' :
  not_free p = true -> eval_inner p contexts all = true -> eval_inner p (pre ++ contexts) all' = true.
Proof.
  revert pre contexts all all'.
  induction p as [name|l r|l r|parent IHp child IHc|p _|l IHl r IHr|l IHl r IHr];
    intros pre contexts all all' Hn H; pose proof (eval_nonempty _ _ _ H) as Hne;
    destruct (last contexts) as [context|] eqn:El; try (by rewrite last_None in El);
    (assert (El' : last (pre ++ contexts) = Some context) by by rewrite last_app, El);
    cbn [eval_inner] in *; rewrite El in H; rewrite El'; try done;
    cbn [not_free] in Hn; apply andb_true_iff in Hn as [Hn1 Hn2].
  - pose proof (find_seq (fun i => eval_inner parent (take (i + 1) contexts) all)
                  (length contexts - 1)) as Hf.
    destruct (List.find _ _) as [i|] in H, Hf; [|done]. destruct Hf as (Hi & Hp & _).
    pose proof (find_seq (fun i => eval_inner parent (take (i + 1) (pre ++ contexts)) all')
                  (length (pre ++ contexts) - 1)) as Hf.
    rewrite length_app in *.
    assert (Hj : eval_inner parent (take (length pre + i + 1) (pre ++ contexts)) all' = true).
    { rewrite <-Nat.add_assoc, take_app_add. by apply (IHp _ _ all). }
    destruct (List.find _ _) as [j|].
    + destruct Hf as (Hlt & _ & Hmin).
      assert (Hle : j <= length pre + i).
      { destruct (decide (j <= length pre + i)); [done|].
        rewrite Hmin in Hj; [done|lia]. }
      assert (Ed : drop (j + 1) (pre ++ contexts)
                   = take (length pre + i - j) (drop (j + 1) (pre ++ contexts)) ++ drop (i + 1) contexts).
      { etransitivity; [symmetry; apply (take_drop (length pre + i - j))|]. f_equal.
        rewrite drop_drop, <-(drop_app_add pre contexts). f_equal. lia. }
      rewrite Ed. by apply (IHc _ _ (drop (i + 1) contexts)).
    + rewrite Hf in Hj by lia. done.
  - apply andb_true_iff in H as [H1 H2]. by rewrite (IHl _ _ all), (IHr _ _ all).
  - apply orb_true_iff in H as [H|H]; apply orb_true_iff; [left|right];
      [by apply (IHl _ _ all)|by apply (IHr _ _ all)].
Qed.

Lemma last_cases {A} (l : list A) :
  match last l with Some x => exists pre, l = pre ++ [x] | None => l = [] end.
Proof.
  destruct l as [|x l _] using rev_ind; [done|]. rewrite last_snoc. by exists l.
Qed.

Lemma last_context (f : KeyContext -> Prop) (contexts : list KeyContext) (P : bool) context :
  last contexts = Some context -> (P = true <-> f context) ->
  (P = true <-> exists pre context, contexts = pre ++ [context] /\ f context).
Proof.
  intros El ->. pose proof (last_cases contexts) as H. rewrite El in H. destruct H as [pre ->].
  split; [by exists pre, context|]. intros (pre' & c & E & Hc). by apply app_inj_tail in E as [_ <-].
Qed.

Lemma matches_nonempty p contexts all : matches p contexts all -> contexts <> [].
Proof.
  revert contexts all. induction p as [|?|?|? IHp ? _|?|? IHl|? IHl ? IHr]; intros contexts all; simpl.
  1-3: by intros (pre & c & -> & _) [_ [=]]%app_nil.
  - intros (pre & post & -> & H%IHp & _) [? _]%app_nil. done.
  - by intros [? _].
  - by intros [?%IHl _].
  - intros [?%IHl|?%IHr]; done.
Qed.

(** Prefixes as the loops go through them. *)
Lemma prefix_take {A} (pre post : list A) :
  pre <> [] -> exists i, i < length pre /\ take (i + 1) (pre ++ post) = pre /\ drop (i + 1) (pre ++ post) = post.
Proof.
  intros Hne. exists (length pre - 1). assert (0 < length pre) by (destruct pre; [done|simpl; lia]).
  replace (length pre - 1 + 1) with (length pre) by lia.
  rewrite take_app_length, drop_app_length. split_and!; [lia|done..].
Qed.

(** The search for the parent is greedy, and misses nothing. *)
Lemma descendant_matches parent child contexts all :
  (forall contexts, eval_inner parent contexts all = true <-> matches parent contexts all) ->
  (forall contexts, eval_inner child contexts contexts = true <-> matches child contexts contexts) ->
  not_free child = true -> contexts <> [] ->
  eval_inner (Descendant parent child) contexts all = true
  <-> matches (Descendant parent child) contexts all.
Proof.
  intros IHp IHc Hc Hne. destruct (last contexts) as [context|] eqn:El;
    [|by apply last_None in El]. cbn [eval_inner matches]. rewrite El.
  pose proof (find_seq (fun i => eval_inner parent (take (i + 1) contexts) all)
                (length contexts - 1)) as Hf.
  destruct (List.find _ _) as [i|].
  - destruct Hf as (Hi & Hpi & Hmin). rewrite IHp in Hpi. split.
    + intros H. exists (take (i + 1) contexts), (drop (i + 1) contexts).
      rewrite take_drop. split_and!; [done|done|]. by apply IHc.
    + intros (pre & post & -> & Hm & Hm'). apply IHc in Hm'.
      destruct (prefix_take pre post (matches_nonempty _ _ _ Hm)) as (j & Hj & Et & Ed).
      apply IHp in Hm. rewrite <-Et in Hm.
      assert (Hle : i <= j) by (destruct (decide (i <= j)); [done|]; rewrite Hmin in Hm; [done|lia]).
      rewrite <-Ed in Hm'.
      replace (drop (i + 1) (pre ++ post))
        with (take (j - i) (drop (i + 1) (pre ++ post)) ++ drop (j + 1) (pre ++ post)).
      2: { etransitivity; [|apply (take_drop (j - i))]. f_equal. rewrite drop_drop. f_equal. lia. }
      by apply (eval_extend _ _ _ (drop (j + 1) (pre ++ post))).
  - split; [done|]. intros (pre & post & -> & Hm & Hm'). exfalso.
    destruct (prefix_take pre post (matches_nonempty _ _ _ Hm)) as (j & Hj & Et & Ed).
    apply IHp in Hm. rewrite <-Et, Hf in Hm; [done|]. rewrite length_app.
    apply matches_nonempty in Hm'. destruct post; simpl; [done|lia].
Qed.

Lemma not_matches p contexts all :
  (forall contexts, eval_inner p contexts all = true <-> matches p contexts all) -> contexts <> [] ->
  eval_inner (Not p) contexts all = true <-> matches (Not p) contexts all.
Proof.
  intros IH Hne. destruct (last contexts) as [context|] eqn:El; [|by apply last_None in El].
  cbn [eval_inner matches]. rewrite El, negb_true_iff. split.
  - intros H. split; [done|]. intros pre post -> Hpre Hm. apply IH in Hm.
    destruct (prefix_take pre post Hpre) as (i & Hi & Et & _).
    assert (Hex : existsb (fun i => eval_inner p (take (i + 1) (pre ++ post)) (pre ++ post))
                    (seq 0 (length (pre ++ post))) = true).
    { apply existsb_exists. exists i. split; [apply in_seq; rewrite length_app; lia|by rewrite Et]. }
    congruence.
  - intros [_ H]. apply not_true_iff_false. intros (i & Hi%in_seq & Hev)%existsb_exists.
    apply IH in Hev. apply (H (take (i + 1) all) (drop (i + 1) all)); [by rewrite take_drop| |done].
    destruct all; simpl in *; [lia|]. by rewrite Nat.add_1_r.
Qed.

Lemma not_free_searchable p : not_free p = true -> searchable p = true.
Proof.
  induction p; simpl; try done; intros [? ?]%andb_true_iff; apply andb_true_iff; auto.
Qed.

Lemma eval_matches p contexts all :
  searchable p = true -> eval_inner p contexts all = true <-> matches p contexts all.
Proof.
  revert contexts all. induction p as [name|l r|l r|parent IHp child IHc|p IH|l IHl r IHr|l IHl r IHr];
    intros contexts all Hs;
    (destruct (last contexts) as [context|] eqn:El;
      [|apply last_None in El; subst; split;
        [by intros ?%eval_nonempty|by intros ?%matches_nonempty]]);
    cbn [searchable] in Hs; rewrite ?andb_true_iff in Hs.
  - cbn [eval_inner matches]. rewrite El. by apply (last_context _ _ _ _ El).
  - cbn [eval_inner matches]. rewrite El. apply (last_context _ _ _ _ El).
    destruct (get context l) as [v|]; [|done]. rewrite bool_decide_eq_true. naive_solver.
  - cbn [eval_inner matches]. rewrite El. apply (last_context _ _ _ _ El).
    destruct (get context l) as [v|]; [|done].
    rewrite negb_true_iff, bool_decide_eq_false. naive_solver.
  - destruct Hs as [Hp Hc]. apply descendant_matches; [by intros; apply IHp| |done|].
    + intros. apply IHc. by apply not_free_searchable.
    + by intros ->.
  - apply not_matches; [by intros; apply IH|by intros ->].
  - cbn [eval_inner matches]. rewrite El, andb_true_iff, IHl, IHr by tauto. done.
  - cbn [eval_inner matches]. rewrite El, orb_true_iff, IHl, IHr by tauto. done.
Qed.

(** ** The superset test, and depths *)

Definition is_or (p : Predicate) : bool := match p with Or _ _ => true | _ => false end.

Lemma superset_or l r (other : Predicate) :
  is_superset (Or l r) other
  = bool_decide (Or l r = other) || (is_superset l other || is_superset r other).
Proof. by destruct other. Qed.

Lemma superset_other p (other : Predicate) :
  is_or p = false ->
  is_superset p other
  = bool_decide (p = other)
    || match other with
       | Descendant _ child => is_superset p child
       | And lhs rhs => is_superset p lhs || is_superset p rhs
       | _ => false
       end.
Proof. by destruct p, other. Qed.

Lemma eval_descendant parent child contexts all :
  eval_inner (Descendant parent child) contexts all = true ->
  exists pre post, contexts = pre ++ post /\ eval_inner child post post = true.
Proof.
  cbn [eval_inner]. destruct (last contexts); [|done].
  destruct (List.find _ _) as [i|]; [|done]. intros H.
  exists (take (i + 1) contexts), (drop (i + 1) contexts). by rewrite take_drop.
Qed.

Lemma superset_holds_other p (other : Predicate) contexts all all' :
  not_free p = true -> is_or p = false -> is_superset p other = true ->
  eval_inner other contexts all = true -> eval_inner p contexts all' = true.
Proof.
  intros Hn Hor. revert contexts all all'. induction other as [| | |? _ child IH| |l IHl r IHr|];
    intros contexts all all' Hs Hev; rewrite superset_other in Hs by done;
    (apply orb_true_iff in Hs as [->%bool_decide_eq_true|Hs]; [by apply (eval_extend _ [] _ all)|]);
    try done.
  - apply eval_descendant in Hev as (pre & post & -> & Hev). apply (eval_extend _ _ _ post); [done|].
    by apply (IH post post).
  - cbn [eval_inner] in Hev. destruct (last contexts); [|done].
    apply andb_true_iff in Hev as [? ?]. apply orb_true_iff in Hs as [Hs|Hs];
      [by apply (IHl _ all)|by apply (IHr _ all)].
Qed.

Lemma superset_holds p (other : Predicate) contexts all all' :
  not_free p = true -> is_superset p other = true -> eval_inner other contexts all = true ->
  eval_inner p contexts all' = true.
Proof.
  induction p as [| | | | | |l IHl r IHr]; intros Hn Hs Hev;
    try (by apply (superset_holds_other _ other _ all)).
  rewrite superset_or in Hs. apply orb_true_iff in Hs as [<-%bool_decide_eq_true|Hs];
    [by apply (eval_extend _ [] _ all)|].
  cbn [eval_inner not_free] in *. apply andb_true_iff in Hn as [? ?].
  pose proof (eval_nonempty _ _ _ Hev). destruct (last contexts) eqn:El; [|by apply last_None in El].
  apply orb_true_iff in Hs as [Hs|Hs]; apply orb_true_iff; auto.
Qed.

Lemma find_rev_seq f n :
  match List.find f (rev (seq 0 n)) with
  | Some i => i < n /\ f i = true /\ (forall j, i < j < n -> f j = false)
  | None => forall j, j < n -> f j = false
  end.
Proof.
  induction n as [|n IH]; [simpl; intros; lia|]. rewrite seq_S, rev_unit. cbn [List.find plus].
  destruct (f n) eqn:E.
  - split_and!; [lia|done|intros; lia].
  - destruct (List.find f (rev (seq 0 n))) as [i|].
    + destruct IH as (H1 & H2 & H3). split_and!; [lia|done|]. intros j Hj.
      destruct (decide (j = n)) as [->|]; [done|]. apply H3. lia.
    + intros j Hj. destruct (decide (j = n)) as [->|]; [done|]. apply IH. lia.
Qed.

Lemma depth_of_ok p contexts :
  match depth_of p contexts with
  | Some d => 0 < d <= length contexts /\ eval_inner p (take d contexts) contexts = true
              /\ (forall d', d < d' <= length contexts -> eval_inner p (take d' contexts) contexts = false)
  | None => forall d, d <= length contexts -> eval_inner p (take d contexts) contexts = false
  end.
Proof.
  unfold depth_of.
  pose proof (find_rev_seq (fun d => eval_inner p (take d contexts) contexts) (length contexts + 1)) as H.
  destruct (List.find _ _) as [d|].
  - destruct H as (H1 & H2 & H3). split_and!; [|lia|done|].
    + destruct d; [by rewrite take_0 in H2; destruct p|lia].
    + intros d' Hd'. apply H3. lia.
  - intros d Hd. apply H. lia.
Qed.

(** ** Contexts hold each key once *)
Definition distinct self : Prop := NoDup (map key self).

Lemma contains_spec self k : contains self k = true <-> k ∈ map key self.
Proof.
  unfold contains. rewrite existsb_exists. split.
  - intros (e & Hin & <-%bool_decide_eq_true). apply list_elem_of_In in Hin.
    by apply (list_elem_of_fmap_2 key).
  - intros (e & -> & Hin)%list_elem_of_fmap. exists e. split; [by apply list_elem_of_In|].
    by apply bool_decide_eq_true.
Qed.

Lemma push_distinct self entry :
  distinct self -> contains self (key entry) = false -> distinct (self ++ [entry]).
Proof.
  unfold distinct. intros Hd Hc. rewrite map_app. apply NoDup_app. split_and!; [done| |by apply NoDup_singleton].
  intros k Hk Hin. apply list_elem_of_singleton in Hin. simpl in Hin. subst k.
  apply contains_spec in Hk. congruence.
Qed.

Lemma push_unless_distinct self entry :
  distinct self -> distinct (if contains self (key entry) then self else self ++ [entry]).
Proof. intros Hd. destruct (contains _ _) eqn:E; [done|by apply push_distinct]. Qed.

Lemma add_distinct self k : distinct self -> distinct (add self k).
Proof. apply (push_unless_distinct self (mkEntry k None)). Qed.

Lemma set_distinct self k v : distinct self -> distinct (set self k v).
Proof. apply (push_unless_distinct self (mkEntry k (Some v))). Qed.

Lemma extend_distinct self other : distinct self -> distinct (extend self other).
Proof.
  revert self. induction other as [|entry other IH]; intros self Hd; [done|].
  by apply IH, push_unless_distinct.
Qed.

Lemma find_app {A} (f : A -> bool) l l' :
  List.find f (l ++ l') = match List.find f l with Some x => Some x | None => List.find f l' end.
Proof. induction l as [|x l IH]; [done|]. simpl. by destruct (f x). Qed.

Definition entry_of self k : option ContextEntry :=
  List.find (fun entry => bool_decide (key entry = k)) self.

Lemma entry_of_contains self k :
  contains self k = match entry_of self k with Some _ => true | None => false end.
Proof.
  unfold contains, entry_of. induction self as [|e self IH]; [done|]. simpl. by case_bool_decide.
Qed.

(** The first entry for a key wins. *)
Lemma push_unless_entry self entry k :
  entry_of (if contains self (key entry) then self else self ++ [entry]) k
  = match entry_of self k with
    | Some e => Some e
    | None => if bool_decide (key entry = k) then Some entry else None
    end.
Proof.
  destruct (contains _ _) eqn:E.
  - rewrite entry_of_contains in E. destruct (entry_of self k) as [e|] eqn:Ek; [done|].
    case_bool_decide as Ee; [|done]. rewrite Ee in E. by rewrite Ek in E.
  - unfold entry_of. rewrite find_app. destruct (List.find _ self); [done|]. simpl.
    by case_bool_decide.
Qed.

Lemma extend_entry self other k :
  entry_of (extend self other) k
  = match entry_of self k with Some e => Some e | None => entry_of other k end.
Proof.
  revert self. induction other as [|entry other IH]; intros self.
  - change (entry_of self k = match entry_of self k with Some e => Some e | None => None end).
    by destruct (entry_of self k).
  - unfold extend in *. cbn [fold_left]. rewrite IH, push_unless_entry.
    destruct (entry_of self k); [done|].
    change (entry_of (entry :: other) k)
      with (if bool_decide (key entry = k) then Some entry else entry_of other k).
    by case_bool_decide.
Qed.

(** ** Properties *)

(** C37. Evaluation is the relation a predicate describes: on predicates with no
    negation to the right of a [>], the greedy search for the topmost match of the
    parent finds a split of the path exactly when there is one, negation ranges
    over every prefix of the whole path, and the rest is read off the innermost
    context; the depth of a binding is the deepest depth at which its predicate
    holds. *)
Theorem eval_spec p contexts :
  searchable p = true ->
  (eval p contexts = true <-> matches p contexts contexts)
  /\ match depth_of p contexts with
     | Some d => 0 < d <= length contexts /\ matches p (take d contexts) contexts
                 /\ (forall d', d < d' <= length contexts -> ~ matches p (take d' contexts) contexts)
     | None => forall d, ~ matches p (take d contexts) contexts
     end.
Proof.
  intros Hs. split; [by apply eval_matches|]. pose proof (depth_of_ok p contexts) as H.
  destruct (depth_of p contexts) as [d|].
  - destruct H as (Hd & He & Hmax). split_and!; [lia..|by apply eval_matches|].
    intros d' Hd' Hm%eval_matches; [|done]. by rewrite Hmax in Hm.
  - intros d Hm%eval_matches; [|done]. destruct (decide (d <= length contexts)).
    + by rewrite H in Hm.
    + rewrite take_ge in Hm by lia. rewrite <-(take_ge contexts (length contexts)) in Hm at 1 by done.
      by rewrite H in Hm.
Qed.

Module Samples.
Definition ctx (k : String.string) : KeyContext := [mkEntry (lit k) None].
Definition id (k : String.string) : Predicate := Identifier (lit k).
Definition path : list KeyContext := [ctx "workspace"; ctx "pane"; ctx "editor"].
End Samples.
Import Samples.

Lemma eval_spec_witness :
  depth_of (Descendant (id "workspace") (Or (id "pane") (id "editor"))) path = Some 3
  /\ matches (Descendant (id "workspace") (Or (id "pane") (id "editor"))) (take 3 path) path.
Proof.
  destruct (eval_spec (Descendant (id "workspace") (Or (id "pane") (id "editor"))) path eq_refl) as [_ H].
  assert (E : depth_of (Descendant (id "workspace") (Or (id "pane") (id "editor"))) path = Some 3)
    by (vm_compute; reflexivity).
  rewrite E in H. split; [exact E|apply H].
Defined.

(** The superset test is sound for predicates without negation: when it accepts,
    every path on which the other predicate holds, at any depth, satisfies the
    first, so a binding disabled by it is disabled nowhere it should apply. *)
Theorem superset_sound p (other : Predicate) :
  not_free p = true -> is_superset p other = true ->
  (forall contexts, eval other contexts = true -> eval p contexts = true)
  /\ (forall contexts d, depth_of other contexts = Some d ->
        exists d', depth_of p contexts = Some d' /\ d <= d').
Proof.
  intros Hn Hs. split; [intros contexts; by apply superset_holds|].
  intros contexts d Hd. pose proof (depth_of_ok other contexts) as Ho. rewrite Hd in Ho.
  destruct Ho as (Hlt & He & _). apply (superset_holds p _ _ _ contexts) in He; [|done..].
  pose proof (depth_of_ok p contexts) as Hp. destruct (depth_of p contexts) as [d'|].
  - exists d'. split; [done|]. destruct (decide (d <= d')); [done|].
    destruct Hp as (_ & _ & Hmax). rewrite Hmax in He; [done|lia].
  - by rewrite Hp in He by lia.
Qed.

Lemma superset_sound_witness :
  is_superset (id "editor") (Descendant (id "pane") (And (id "editor") (Not (id "menu")))) = true
  /\ eval (id "editor") path = true.
Proof.
  assert (E : is_superset (id "editor") (Descendant (id "pane") (And (id "editor") (Not (id "menu")))) = true)
    by (vm_compute; reflexivity).
  split; [exact E|]. destruct (superset_sound (id "editor") _ eq_refl E) as [H _].
  apply H. vm_compute. reflexivity.
Defined.

(** With negation it is not: below a [>] a negation ranges over the contexts below
    the parent only. *)
Lemma superset_unsound_with_not :
  is_superset (Not (id "editor")) (Descendant (id "editor") (Not (id "editor"))) = true
  /\ eval (Descendant (id "editor") (Not (id "editor"))) [ctx "editor"; ctx "menu"] = true
  /\ eval (Not (id "editor")) [ctx "editor"; ctx "menu"] = false.
Proof. split_and!; vm_compute; reflexivity. Qed.
