(* ===== verification/KeyParser.v ===== *)
(** * The text of key contexts and predicates ([crates/gpui/src/keymap/context.rs])

    Reading and writing [KeyContext]s and predicates. *)

From S2P Require Import Prelude KeyContext.
From stdpp Require Import strings.
Local Open Scope nat_scope.

(** ** Characters *)

(** [char::is_alphanumeric] is a table of Unicode; [char::is_whitespace] is the
    [White_Space] property. *)
Class CharClass := is_alphanumeric : char -> bool.

Definition is_whitespace (c : char) : bool :=
  ((9 <=? c) && (c <=? 13) || (c =? 32) || (c =? 133) || (c =? 160) || (c =? 5760)
   || (8192 <=? c) && (c <=? 8202) || (c =? 8232) || (c =? 8233) || (c =? 8239)
   || (c =? 8287) || (c =? 12288))%Z.

Definition ascii_alphanumeric (c : char) : bool :=
  ((48 <=? c) && (c <=? 57) || (65 <=? c) && (c <=? 90) || (97 <=? c) && (c <=? 122))%Z.

Class CharLaws `{CharClass} := {
  alphanumeric_ascii c : (0 <= c < 128)%Z -> is_alphanumeric c = ascii_alphanumeric c;
  alphanumeric_not_white c : is_alphanumeric c = true -> is_whitespace c = false;
}.

Fixpoint take_while {A} (f : A -> bool) (l : list A) : list A :=
  match l with x :: l => if f x then x :: take_while f l else [] | [] => [] end.
Fixpoint drop_while {A} (f : A -> bool) (l : list A) : list A :=
  match l with x :: l' => if f x then drop_while f l' else l | [] => [] end.

(** [str::strip_prefix] and [str::starts_with]. *)
Fixpoint strip_str (pre s : str) : option str :=
  match pre, s with
  | [], _ => Some s
  | c :: pre, d :: s => if (c =? d)%Z then strip_str pre s else None
  | _ :: _, [] => None
  end.
Definition starts_with (pre s : str) : bool :=
  match strip_str pre s with Some _ => true | None => false end.

Section Parser.
Context `{CC : !CharClass}.

Definition is_identifier_char (c : char) : bool :=
  is_alphanumeric c || (c =? 95)%Z || (c =? 45)%Z.
(** One of [>], [<], [~], a double quote and [?]. *)
Definition is_vim_operator_char (c : char) : bool :=
  ((c =? 62) || (c =? 60) || (c =? 126) || (c =? 34) || (c =? 63))%Z.
Definition skip_whitespace (source : str) : str := drop_while is_whitespace source.

(** ** Contexts *)

(** [KeyContext::parse_expr], which calls itself for each entry; [None] when the
    calls do not end within the fuel. *)
Fixpoint context_parse_expr (fuel : nat) (source : str) (context : KeyContext) : option KeyContext :=
  match fuel with
  | O => None
  | S fuel =>
      match source with
      | [] => Some context
      | _ =>
          let key := take_while is_identifier_char source in
          let source := skip_whitespace (drop (length key) source) in
          match strip_str (lit "=") source with
          | Some suffix =>
              let source := skip_whitespace suffix in
              let value := take_while is_identifier_char source in
              let source := skip_whitespace (drop (length value) source) in
              context_parse_expr fuel source (set context key value)
          | None => context_parse_expr fuel source (add context key)
          end
      end
  end.

Definition context_parse (fuel : nat) (source : str) : option KeyContext :=
  context_parse_expr fuel (skip_whitespace source) [].

(** [Debug for KeyContext]. *)
Definition show_entry (entry : ContextEntry) : str :=
  match value entry with Some v => key entry ++ lit "=" ++ v | None => key entry end.
Fixpoint show_context (self : KeyContext) : str :=
  match self with
  | [] => []
  | [entry] => show_entry entry
  | entry :: self => show_entry entry ++ lit " " ++ show_context self
  end.

(** ** Predicates *)
Inductive parsed (A : Type) := Done (a : A) | Error | OutOfFuel.
Arguments Done {A}.
Arguments Error {A}.
Arguments OutOfFuel {A}.
Global Instance parsed_ret : MRet parsed := fun _ a => Done a.
Global Instance parsed_bind : MBind parsed := fun _ _ f m =>
  match m with Done a => f a | Error => Error | OutOfFuel => OutOfFuel end.

Definition new_or (self other : Predicate) : parsed Predicate := Done (Or self other).
Definition new_and (self other : Predicate) : parsed Predicate := Done (And self other).
Definition new_child (self other : Predicate) : parsed Predicate := Done (Descendant self other).
Definition new_eq (self other : Predicate) : parsed Predicate :=
  match self, other with Identifier l, Identifier r => Done (Equal l r) | _, _ => Error end.
Definition new_neq (self other : Predicate) : parsed Predicate :=
  match self, other with Identifier l, Identifier r => Done (NotEqual l r) | _, _ => Error end.

Definition PRECEDENCE_CHILD : nat := 1.
Definition PRECEDENCE_OR : nat := 2.
Definition PRECEDENCE_AND : nat := 3.
Definition PRECEDENCE_EQ : nat := 4.
Definition PRECEDENCE_NOT : nat := 5.

Definition operators : list (str * nat * (Predicate -> Predicate -> parsed Predicate)) :=
  [(lit ">", PRECEDENCE_CHILD, new_child); (lit "&&", PRECEDENCE_AND, new_and);
   (lit "||", PRECEDENCE_OR, new_or); (lit "==", PRECEDENCE_EQ, new_eq);
   (lit "!=", PRECEDENCE_EQ, new_neq)].

(** The operator the loop of [parse_expr] goes on with. *)
Definition next_operator (source : str) (min_precedence : nat) :=
  List.find (fun '(operator, precedence, _) =>
               starts_with operator source && (min_precedence <=? precedence)) operators.

(** [parse_expr] with its loop, and [parse_primary]. *)
Fixpoint parse_expr (fuel : nat) (source : str) (min_precedence : nat) : parsed (Predicate * str) :=
  match fuel with
  | O => OutOfFuel
  | S fuel =>
      r ← parse_primary fuel source;
      parse_operators fuel (fst r) (snd r) min_precedence
  end
with parse_operators (fuel : nat) (predicate : Predicate) (source : str) (min_precedence : nat)
    : parsed (Predicate * str) :=
  match fuel with
  | O => OutOfFuel
  | S fuel =>
      match next_operator source min_precedence with
      | Some (operator, precedence, constructor) =>
          let source := skip_whitespace (drop (length operator) source) in
          r ← parse_expr fuel source (precedence + 1);
          predicate ← constructor predicate (fst r);
          parse_operators fuel predicate (snd r) min_precedence
      | None => Done (predicate, source)
      end
  end
with parse_primary (fuel : nat) (source : str) : parsed (Predicate * str) :=
  match fuel with
  | O => OutOfFuel
  | S fuel =>
      match source with
      | [] => Error
      | next :: rest =>
          if (next =? 40)%Z then
            r ← parse_expr fuel (skip_whitespace rest) 0;
            match strip_str (lit ")") (snd r) with
            | Some stripped => Done (fst r, skip_whitespace stripped)
            | None => Error
            end
          else if (next =? 33)%Z then
            r ← parse_expr fuel (skip_whitespace rest) PRECEDENCE_NOT;
            Done (Not (fst r), snd r)
          else if is_identifier_char next then
            let identifier := take_while (fun c => is_identifier_char c || is_vim_operator_char c) source in
            Done (Identifier identifier, skip_whitespace (drop (length identifier) source))
          else if is_vim_operator_char next then
            Done (Identifier [next], skip_whitespace rest)
          else Error
      end
  end.

(** [parse], with fuel to spare. *)
Definition fuel_of (source : str) : nat := 2 * length source + 2.
Definition parse (source : str) : parsed Predicate :=
  let source := skip_whitespace source in
  r ← parse_expr (fuel_of source) source 0;
  match snd r with [] => Done (fst r) | _ => Error end.
End Parser.

Arguments Done {A}.
Arguments Error {A}.
Arguments OutOfFuel {A}.

(** ** Writing predicates *)
Inductive LogicalOperator := LogicalAnd | LogicalOr.

(** [Display], with [fmt_joined_inner] as the inner recursion: the text so far, and
    whether nothing was written yet. *)
Fixpoint display (p : Predicate) : str :=
  let joined := fix joined (operator : LogicalOperator) (separator : str) (needs_parens : Predicate -> bool)
      (q : Predicate) (first : bool) {struct q} : str * bool :=
    let leaf q :=
      ((if first then [] else separator)
       ++ (if needs_parens q then lit "(" ++ display q ++ lit ")" else display q), false) in
    match operator, q with
    | LogicalAnd, And lhs rhs | LogicalOr, Or lhs rhs =>
        let '(s, first) := joined operator separator needs_parens lhs first in
        let '(s', first) := joined operator separator needs_parens rhs first in
        (s ++ s', first)
    | _, _ => leaf q
    end in
  match p with
  | Identifier name => name
  | Equal lhs rhs => lhs ++ lit " == " ++ rhs
  | NotEqual lhs rhs => lhs ++ lit " != " ++ rhs
  | Descendant parent child => display parent ++ lit " > " ++ display child
  | Not pred =>
      match pred with
      | Identifier name => lit "!" ++ name
      | _ => lit "!(" ++ display pred ++ lit ")"
      end
  | And lhs rhs =>
      let paren := fun node => match node with Or _ _ => true | _ => false end in
      let '(s, first) := joined LogicalAnd (lit " && ") paren lhs true in
      let '(s', _) := joined LogicalAnd (lit " && ") paren rhs first in
      s ++ s'
  | Or lhs rhs =>
      let paren := fun node => match node with And _ _ => true | _ => false end in
      let '(s, first) := joined LogicalOr (lit " || ") paren lhs true in
      let '(s', _) := joined LogicalOr (lit " || ") paren rhs first in
      s ++ s'
  end.
