(* ===== verification/KeyParserSpec.v ===== *)
(** * What reading and writing predicates and contexts promises

    The parser always ends, and reading what was written gives it back. *)

From S2P Require Import Prelude KeyContext KeyParser.
From stdpp Require Import strings.
Local Open Scope nat_scope.

(** ** Scanning *)
Section Scan.
Context {A : Type} (f : A -> bool).
Implicit Types l : list A.

Lemma length_drop_while l : length (drop_while f l) <= length l.
Proof. induction l as [|x l IH]; [done|]. simpl. destruct (f x); simpl; lia. Qed.

Lemma drop_while_idem l : drop_while f (drop_while f l) = drop_while f l.
Proof. induction l as [|x l IH]; [done|]. simpl. destruct (f x) eqn:E; [done|]. simpl. by rewrite E. Qed.

Lemma take_while_app l l' :
  Forall (fun x => f x = true) l -> match l' with x :: _ => f x = false | [] => True end ->
  take_while f (l ++ l') = l.
Proof.
  intros Hl Hl'. induction Hl as [|x l Hx Hl IH]; simpl; [|by rewrite Hx, IH].
  destruct l' as [|x l']; [done|]. simpl. by rewrite Hl'.
Qed.

Lemma take_while_all l : Forall (fun x => f x = true) (take_while f l).
Proof. induction l as [|x l IH]; simpl; [done|]. destruct (f x) eqn:E; by constructor. Qed.

Lemma take_drop_while l : take_while f l ++ drop_while f l = l.
Proof. induction l as [|x l IH]; [done|]. simpl. destruct (f x); [|done]. simpl. by rewrite IH. Qed.

Lemma drop_take_while l : drop (length (take_while f l)) l = drop_while f l.
Proof. induction l as [|x l IH]; [done|]. simpl. by destruct (f x). Qed.
End Scan.

Lemma strip_str_app pre s : strip_str pre (pre ++ s) = Some s.
Proof. induction pre as [|c pre IH]; [done|]. simpl. by rewrite Z.eqb_refl. Qed.

Lemma strip_str_length pre s s' : strip_str pre s = Some s' -> length s = length pre + length s'.
Proof.
  revert s. induction pre as [|c pre IH]; intros s; simpl; [by intros [= ->]|].
  destruct s as [|d s]; [done|]. destruct (c =? d)%Z; [|done]. intros H%IH. simpl. lia.
Qed.

Section Spec.
Context `{CC : !CharClass} {CL : CharLaws}.

Lemma length_skip s : length (skip_whitespace s) <= length s.
Proof. apply length_drop_while. Qed.

Lemma skip_idem s : skip_whitespace (skip_whitespace s) = skip_whitespace s.
Proof. apply drop_while_idem. Qed.

(** ** The parser ends *)

Lemma next_operator_in source m op prec ctor :
  next_operator source m = Some (op, prec, ctor) ->
  In (op, prec, ctor) operators /\ starts_with op source = true /\ m <= prec.
Proof.
  intros [Hin H]%find_some. apply andb_true_iff in H as [H1 H2%Nat.leb_le]. done.
Qed.

Lemma next_operator_shrinks source m op prec ctor :
  next_operator source m = Some (op, prec, ctor) ->
  length (skip_whitespace (drop (length op) source)) < length source.
Proof.
  intros (Hin & Hs & _)%next_operator_in. unfold starts_with in Hs.
  destruct (strip_str op source) as [s'|] eqn:E; [|done]. apply strip_str_length in E.
  pose proof (length_skip (drop (length op) source)). rewrite length_drop in *.
  assert (0 < length op).
  { repeat destruct Hin as [[= <- _ _]|Hin]; [simpl; lia..|done]. }
  lia.
Qed.

(** A result that leaves less than [n]. *)
Definition leaves (n : nat) (r : parsed (Predicate * str)) : Prop :=
  match r with Done (_, rest) => length rest < n | Error => True | OutOfFuel => False end.

Lemma constructor_fuel op prec ctor p q :
  In (op, prec, ctor) operators -> ctor p q <> OutOfFuel.
Proof.
  intros Hin. repeat destruct Hin as [[= _ _ <-]|Hin]; try done; unfold new_eq, new_neq;
    destruct p, q; done.
Qed.

Lemma leaves_mono n n' r : leaves n r -> n <= n' -> leaves n' r.
Proof. destruct r as [[p rest]| |]; simpl; [lia|done..]. Qed.

(** From [f] on, more fuel changes nothing. *)
Definition settled (n f : nat) (F : nat -> parsed (Predicate * str)) : Prop :=
  leaves n (F f) /\ forall f', f <= f' -> F f' = F f.

Lemma settled_bind n n' f F (G : Predicate -> str -> nat -> parsed (Predicate * str)) :
  settled n f F -> (forall p rest, length rest < n -> settled n' f (G p rest)) ->
  settled n' f (fun f => r ← F f; G (fst r) (snd r) f).
Proof.
  intros [HF EF] HG. split.
  - destruct (F f) as [[p rest]| |] eqn:E; [|done..]. by apply HG.
  - intros f' Hf. rewrite EF by done. destruct (F f) as [[p rest]| |] eqn:E; [|done..].
    by apply HG.
Qed.

Lemma settled_pure n f r : leaves n r -> settled n f (fun _ => r).
Proof. done. Qed.

Lemma settled_mono n n' f F : settled n f F -> n <= n' -> settled n' f F.
Proof. intros [H E] Hn. split; [by apply (leaves_mono n)|done]. Qed.

(** A function of the fuel that takes one unit off. *)
Lemma settled_S n f F G : settled n f G -> (forall f, F (S f) = G f) -> settled n (S f) F.
Proof.
  intros [H E] HF. split; [by rewrite HF|]. intros [|f'] Hf; [lia|]. rewrite !HF. apply E. lia.
Qed.

Definition primary_step (source : str) (fuel : nat) : parsed (Predicate * str) :=
  parse_primary (S fuel) source.

Lemma settled_primary f source :
  (forall s m, 2 * length s + 2 <= f -> settled (length s) f (fun f => parse_expr f s m)) ->
  2 * length source <= f -> settled (length source) f (primary_step source).
Proof.
  intros IH Hf. unfold primary_step. destruct source as [|c rest]; [done|]. cbn [parse_primary].
  pose proof (length_skip rest) as Hsk. cbn [length] in *.
  destruct (c =? 40)%Z; [|destruct (c =? 33)%Z; [|destruct (is_identifier_char c) eqn:Ec]].
  - apply (settled_bind (length (skip_whitespace rest)) _ _ (fun f => parse_expr f (skip_whitespace rest) 0)
      (fun p r f => match strip_str (lit ")") r with
                    | Some stripped => Done (p, skip_whitespace stripped)
                    | None => Error
                    end)); [apply IH; lia|].
    intros p r Hr. apply settled_pure. destruct (strip_str (lit ")") r) as [r'|] eqn:E; [|done].
    apply strip_str_length in E. pose proof (length_skip r'). simpl in *. lia.
  - apply (settled_bind (length (skip_whitespace rest)) _ _
      (fun f => parse_expr f (skip_whitespace rest) PRECEDENCE_NOT) (fun p r f => Done (Not p, r)));
      [apply IH; lia|].
    intros p r Hr. apply settled_pure. simpl. lia.
  - apply settled_pure. cbv zeta. rewrite drop_take_while. cbn [drop_while]. rewrite Ec. cbn [orb].
    pose proof (length_skip (drop_while (fun c => is_identifier_char c || is_vim_operator_char c) rest)).
    pose proof (length_drop_while (fun c => is_identifier_char c || is_vim_operator_char c) rest).
    simpl. lia.
  - apply settled_pure. destruct (is_vim_operator_char c); simpl; [lia|done].
Qed.

Lemma parse_settled f :
  (forall s m, 2 * length s + 2 <= f -> settled (length s) f (fun f => parse_expr f s m))
  /\ (forall p s m, 2 * length s + 1 <= f ->
        settled (S (length s)) f (fun f => parse_operators f p s m))
  /\ (forall s, 2 * length s + 1 <= f -> settled (length s) f (fun f => parse_primary f s)).
Proof.
  induction f as [|f (IHe & IHo & IHp)]; [split_and!; intros; lia|]. split_and!.
  - intros s m Hf. apply (settled_S _ _ _ (fun f => r ← parse_primary f s; parse_operators f (fst r) (snd r) m));
      [|done].
    apply (settled_bind (length s) _ _ (fun f => parse_primary f s)
             (fun p r f => parse_operators f p r m)); [apply IHp; lia|].
    intros p r Hr. apply (settled_mono (S (length r))); [apply IHo; lia|lia].
  - intros p s m Hf. destruct (next_operator s m) as [[[op prec] ctor]|] eqn:E.
    2: { apply (settled_S _ _ _ (fun _ => Done (p, s))); [apply settled_pure; simpl; lia|].
         intros f'. cbn [parse_operators]. by rewrite E. }
    pose proof (next_operator_shrinks _ _ _ _ _ E) as Hsh. set (s' := skip_whitespace _) in *.
    apply (settled_S _ _ _ (fun f => r ← parse_expr f s' (prec + 1);
                                     p' ← ctor p (fst r); parse_operators f p' (snd r) m)).
    2: { intros f'. cbn [parse_operators]. by rewrite E. }
    apply (settled_bind (length s') _ _ (fun f => parse_expr f s' (prec + 1))
             (fun q r f => p' ← ctor p q; parse_operators f p' r m)); [apply IHe; lia|].
    intros q r Hr. apply next_operator_in in E as (Hin & _ & _).
    pose proof (constructor_fuel op prec ctor p q Hin). destruct (ctor p q) as [p'| |]; [|done..].
    apply (settled_mono (S (length r))); [apply IHo; lia|lia].
  - intros s Hf. apply (settled_S _ _ _ (primary_step s)); [|done]. apply settled_primary; [done|lia].
Qed.

(** ** The parser without its fuel *)
Definition expr (s : str) (m : nat) : parsed (Predicate * str) := parse_expr (fuel_of s) s m.
Definition ops (p : Predicate) (s : str) (m : nat) : parsed (Predicate * str) :=
  parse_operators (2 * length s + 1) p s m.
Definition primary (s : str) : parsed (Predicate * str) := parse_primary (2 * length s + 1) s.

Lemma expr_fuel f s m : fuel_of s <= f -> parse_expr f s m = expr s m.
Proof. apply (proj1 (parse_settled (fuel_of s))). unfold fuel_of. lia. Qed.
Lemma ops_fuel f p s m : 2 * length s + 1 <= f -> parse_operators f p s m = ops p s m.
Proof. apply (proj1 (proj2 (parse_settled (2 * length s + 1)))). lia. Qed.
Lemma primary_leaves s : leaves (length s) (primary s).
Proof. apply (proj2 (proj2 (parse_settled (2 * length s + 1)))). lia. Qed.
Lemma expr_leaves s m : leaves (length s) (expr s m).
Proof. apply (proj1 (parse_settled (fuel_of s))). unfold fuel_of. lia. Qed.

Lemma expr_eq s m : expr s m = (r ← primary s; ops (fst r) (snd r) m).
Proof.
  unfold expr, fuel_of. replace (2 * length s + 2) with (S (2 * length s + 1)) by lia.
  cbn [parse_expr]. fold (primary s). pose proof (primary_leaves s) as H.
  destruct (primary s) as [[p r]| |]; [|done..]. simpl in H. cbn. apply ops_fuel. lia.
Qed.

Lemma ops_eq p s m :
  ops p s m
  = match next_operator s m with
    | Some (op, prec, ctor) =>
        r ← expr (skip_whitespace (drop (length op) s)) (prec + 1);
        p ← ctor p (fst r);
        ops p (snd r) m
    | None => Done (p, s)
    end.
Proof.
  unfold ops at 1. rewrite Nat.add_1_r. cbn [parse_operators].
  destruct (next_operator s m) as [[[op prec] ctor]|] eqn:E; [|done].
  apply next_operator_shrinks in E. set (s' := skip_whitespace _) in *.
  rewrite expr_fuel by (unfold fuel_of; lia). pose proof (expr_leaves s' (prec + 1)) as H.
  destruct (expr s' (prec + 1)) as [[q r]| |]; [|done..]. simpl in H. cbn [mbind parsed_bind fst snd].
  destruct (ctor p q); [|done..]. cbn [mbind parsed_bind]. apply ops_fuel. lia.
Qed.

Lemma primary_eq s :
  primary s
  = match s with
    | [] => Error
    | c :: rest =>
        if (c =? 40)%Z then
          r ← expr (skip_whitespace rest) 0;
          match strip_str (lit ")") (snd r) with
          | Some stripped => Done (fst r, skip_whitespace stripped)
          | None => Error
          end
        else if (c =? 33)%Z then
          r ← expr (skip_whitespace rest) PRECEDENCE_NOT; Done (Not (fst r), snd r)
        else if is_identifier_char c then
          let identifier := take_while (fun c => is_identifier_char c || is_vim_operator_char c) s in
          Done (Identifier identifier, skip_whitespace (drop (length identifier) s))
        else if is_vim_operator_char c then Done (Identifier [c], skip_whitespace rest)
        else Error
    end.
Proof.
  unfold primary. rewrite Nat.add_1_r. cbn [parse_primary]. destruct s as [|c rest]; [done|].
  pose proof (length_skip rest). cbn [length] in *.
  rewrite !(expr_fuel _ (skip_whitespace rest)) by (unfold fuel_of; lia). done.
Qed.

Lemma parse_eq s :
  parse s = (r ← expr (skip_whitespace s) 0; match snd r with [] => Done (fst r) | _ => Error end).
Proof. done. Qed.

Lemma parse_total s : parse s <> OutOfFuel.
Proof.
  rewrite parse_eq. pose proof (expr_leaves (skip_whitespace s) 0) as H.
  destruct (expr _ 0) as [[p r]| |]; [|done..]. by destruct r.
Qed.

(** ** Writing *)

Definition same_operator (o : LogicalOperator) (p : Predicate) : bool :=
  match o, p with LogicalAnd, And _ _ | LogicalOr, Or _ _ => true | _, _ => false end.
Definition needs_parens (o : LogicalOperator) (p : Predicate) : bool :=
  match o, p with LogicalAnd, Or _ _ | LogicalOr, And _ _ => true | _, _ => false end.
Definition sign (o : LogicalOperator) : str := match o with LogicalAnd => lit "&&" | LogicalOr => lit "||" end.
Definition joins (o : LogicalOperator) : Predicate -> Predicate -> Predicate :=
  match o with LogicalAnd => And | LogicalOr => Or end.
Definition spaced (op : str) : str := lit " " ++ op ++ lit " ".

(** The text of an operand. *)
Definition operand (o : LogicalOperator) (p : Predicate) : str :=
  if needs_parens o p then lit "(" ++ display p ++ lit ")" else display p.

(** The inner recursion of [display]. *)
Definition joined :=
  fix joined (operator : LogicalOperator) (separator : str) (needs_parens : Predicate -> bool)
      (q : Predicate) (first : bool) {struct q} : str * bool :=
    let leaf q :=
      ((if first then [] else separator)
       ++ (if needs_parens q then lit "(" ++ display q ++ lit ")" else display q), false) in
    match operator, q with
    | LogicalAnd, And lhs rhs | LogicalOr, Or lhs rhs =>
        let '(s, first) := joined operator separator needs_parens lhs first in
        let '(s', first) := joined operator separator needs_parens rhs first in
        (s ++ s', first)
    | _, _ => leaf q
    end.

Lemma display_joined o l r :
  display (joins o l r)
  = let '(s, first) := joined o (spaced (sign o)) (needs_parens o) l true in
    let '(s', _) := joined o (spaced (sign o)) (needs_parens o) r first in
    s ++ s'.
Proof. by destruct o. Qed.

Definition chain (o : LogicalOperator) (p : Predicate) : str :=
  if same_operator o p then display p else operand o p.

Lemma same_operator_joins o p : same_operator o p = true -> exists l r, p = joins o l r.
Proof. destruct o, p; try done; intros _; by eexists _, _. Qed.

Lemma joined_chain o q first :
  joined o (spaced (sign o)) (needs_parens o) q first
  = ((if first then [] else spaced (sign o)) ++ chain o q, false).
Proof.
  revert first. enough (H : forall q, same_operator o q = false -> forall first,
    joined o (spaced (sign o)) (needs_parens o) q first
    = ((if first then [] else spaced (sign o)) ++ chain o q, false)).
  { induction q as [| | | | |l IHl r IHr|l IHl r IHr]; intros first;
      destruct o; try (by apply H); unfold chain; cbn [same_operator].
    - change (And l r) with (joins LogicalAnd l r) at 2. rewrite display_joined.
      cbn [joined]. rewrite !IHl, !IHr. cbn [app]. by rewrite <-!app_assoc.
    - change (Or l r) with (joins LogicalOr l r) at 2. rewrite display_joined.
      cbn [joined]. rewrite !IHl, !IHr. cbn [app]. by rewrite <-!app_assoc. }
  intros q0 Hq f. unfold chain. rewrite Hq. unfold operand. by destruct o, q0.
Qed.

(** A conjunction or disjunction is the texts of its sides. *)
Lemma display_joins o l r : display (joins o l r) = chain o l ++ spaced (sign o) ++ chain o r.
Proof. by rewrite display_joined, !joined_chain. Qed.

(** ** Names and what may follow them *)
Definition name_char (c : char) : bool := is_identifier_char c || is_vim_operator_char c.
Definition valid_name (name : str) : bool :=
  match name with
  | [] => false
  | c :: rest => if is_identifier_char c then forallb name_char rest
                 else is_vim_operator_char c && bool_decide (rest = [])
  end.
Definition stops (rest : str) : Prop := match rest with c :: _ => name_char c = false | [] => True end.
Definition solid (s : str) : Prop := match s with c :: _ => is_whitespace c = false | [] => False end.

Lemma skip_solid s s' : solid s -> skip_whitespace (s ++ s') = s ++ s'.
Proof. destruct s as [|c s]; [done|]. unfold skip_whitespace. simpl. by intros ->. Qed.

Lemma identifier_char_cases c :
  is_identifier_char c = true -> is_whitespace c = false /\ c <> 40%Z /\ c <> 33%Z.
Proof.
  unfold is_identifier_char. intros H. split_and!.
  - apply orb_true_iff in H as [[H| ->%Z.eqb_eq]%orb_true_iff| ->%Z.eqb_eq]; [|done..].
    by apply alphanumeric_not_white.
  - intros ->. by rewrite alphanumeric_ascii in H.
  - intros ->. by rewrite alphanumeric_ascii in H.
Qed.

Lemma vim_char_cases c :
  is_vim_operator_char c = true -> is_whitespace c = false /\ c <> 40%Z /\ c <> 33%Z.
Proof.
  unfold is_vim_operator_char. rewrite !orb_true_iff, !Z.eqb_eq.
  intros [[[[->| ->]| ->]| ->]| ->]; done.
Qed.

Lemma valid_name_solid name : valid_name name = true -> solid name.
Proof.
  destruct name as [|c rest]; [done|]. simpl. destruct (is_identifier_char c) eqn:E.
  - intros _. by apply identifier_char_cases.
  - intros [H _]%andb_true_iff. by apply vim_char_cases.
Qed.

Lemma primary_name name rest :
  valid_name name = true -> stops rest ->
  primary (name ++ rest) = Done (Identifier name, skip_whitespace rest).
Proof.
  intros Hn Hr. rewrite primary_eq. destruct name as [|c name]; [done|]. cbn [app valid_name] in *.
  destruct (is_identifier_char c) eqn:E.
  - destruct (identifier_char_cases c E) as (_ & H1 & H2).
    rewrite (proj2 (Z.eqb_neq _ _) H1), (proj2 (Z.eqb_neq _ _) H2). cbv zeta.
    rewrite drop_take_while. change (c :: name ++ rest) with ((c :: name) ++ rest).
    assert (Hall : Forall (fun c => name_char c = true) (c :: name)).
    { constructor; [unfold name_char; by rewrite E|]. apply Forall_forall.
      intros d Hd%list_elem_of_In. by apply (proj1 (forallb_forall _ _) Hn). }
    change (fun c => is_identifier_char c || is_vim_operator_char c) with name_char.
    rewrite take_while_app; [|done|by destruct rest].
    assert (Hd : drop_while name_char ((c :: name) ++ rest) = rest).
    { pose proof (take_drop_while name_char ((c :: name) ++ rest)) as H.
      rewrite take_while_app in H; [|done|by destruct rest]. by apply app_inv_head in H. }
    by rewrite Hd.
  - apply andb_true_iff in Hn as [Hv ->%bool_decide_eq_true].
    destruct (vim_char_cases c Hv) as (_ & H1 & H2).
    rewrite (proj2 (Z.eqb_neq _ _) H1), (proj2 (Z.eqb_neq _ _) H2), Hv. done.
Qed.

(** ** Predicates whose text is read back *)
Definition is_descendant (p : Predicate) : bool := match p with Descendant _ _ => true | _ => false end.

(** Names are names, and a [>] stands only where its text needs no parentheses. *)
Fixpoint printable (p : Predicate) : bool :=
  match p with
  | Identifier name => valid_name name
  | Equal lhs rhs | NotEqual lhs rhs => valid_name lhs && valid_name rhs
  | Not pred => printable pred
  | Descendant parent child => printable parent && printable child && negb (is_descendant child)
  | And lhs rhs | Or lhs rhs =>
      printable lhs && printable rhs && negb (is_descendant lhs) && negb (is_descendant rhs)
  end.

(** Chains of [&&] and of [||] group to the left. *)
Fixpoint left_nested (p : Predicate) : bool :=
  match p with
  | Identifier _ | Equal _ _ | NotEqual _ _ => true
  | Not pred => left_nested pred
  | Descendant parent child => left_nested parent && left_nested child
  | And lhs rhs => left_nested lhs && left_nested rhs && negb (same_operator LogicalAnd rhs)
  | Or lhs rhs => left_nested lhs && left_nested rhs && negb (same_operator LogicalOr rhs)
  end.

Lemma solid_app s s' : solid s -> solid (s ++ s').
Proof. by destruct s. Qed.

Lemma chain_solid o p : solid (display p) -> solid (chain o p).
Proof. intros Hp. unfold chain, operand. by destruct (same_operator o p), (needs_parens o p). Qed.

Lemma display_solid p : printable p = true -> solid (display p).
Proof.
  induction p as [name|l r|l r|p IHp q IHq|p IH|l IHl r IHr|l IHl r IHr];
    cbn [printable]; rewrite ?andb_true_iff; intros Hp.
  - by apply valid_name_solid.
  - apply solid_app, valid_name_solid. tauto.
  - apply solid_app, valid_name_solid. tauto.
  - apply solid_app, IHp. tauto.
  - by destruct p.
  - change (And l r) with (joins LogicalAnd l r). rewrite display_joins.
    apply solid_app, chain_solid, IHl. tauto.
  - change (Or l r) with (joins LogicalOr l r). rewrite display_joins.
    apply solid_app, chain_solid, IHl. tauto.
Qed.

(** ** Reading it back *)
Definition level (p : Predicate) : nat :=
  match p with
  | Identifier _ | Not _ => 5
  | Equal _ _ | NotEqual _ _ => PRECEDENCE_EQ
  | And _ _ => PRECEDENCE_AND
  | Or _ _ => PRECEDENCE_OR
  | Descendant _ _ => PRECEDENCE_CHILD
  end.

Lemma next_operator_high s m : PRECEDENCE_EQ < m -> next_operator s m = None.
Proof.
  intros Hm. destruct (next_operator s m) as [[[op prec] ctor]|] eqn:E; [|done].
  apply next_operator_in in E as (Hin & _ & Hle). unfold operators in Hin.
  repeat destruct Hin as [[= _ <- _]|Hin]; [..|done];
    unfold PRECEDENCE_CHILD, PRECEDENCE_OR, PRECEDENCE_AND, PRECEDENCE_EQ in *; lia.
Qed.

Lemma ops_done p s m : next_operator s m = None -> ops p s m = Done (p, s).
Proof. intros E. by rewrite ops_eq, E. Qed.

Lemma next_operator_mono s m m' : next_operator s m = None -> m <= m' -> next_operator s m' = None.
Proof.
  intros H Hm. destruct (next_operator s m') as [[[op prec] ctor]|] eqn:E; [|done].
  apply next_operator_in in E as (Hin & Hs & Hle).
  pose proof (find_none _ _ H _ Hin) as Hf. cbn in Hf. rewrite Hs in Hf. cbn [andb] in Hf.
  apply Nat.leb_gt in Hf. lia.
Qed.

(** Reading the text of a predicate, up to the operators that follow it. *)
Definition reads (p : Predicate) : Prop :=
  forall rest k, stops rest -> k <= level p ->
  next_operator (skip_whitespace rest) (level p + 1) = None ->
  expr (display p ++ rest) k = ops p (skip_whitespace rest) k.

Lemma reads_primary p rest k :
  primary (display p ++ rest) = Done (p, skip_whitespace rest) ->
  expr (display p ++ rest) k = ops p (skip_whitespace rest) k.
Proof. intros E. by rewrite expr_eq, E. Qed.

Lemma stops_paren rest : stops (lit ")" ++ rest).
Proof. cbn. unfold name_char, is_identifier_char. by rewrite alphanumeric_ascii. Qed.
Lemma stops_space rest : stops (lit " " ++ rest).
Proof. cbn. unfold name_char, is_identifier_char. by rewrite alphanumeric_ascii. Qed.

(** In parentheses. *)
Lemma primary_paren p rest :
  reads p -> solid (display p) ->
  primary (lit "(" ++ display p ++ lit ")" ++ rest) = Done (p, skip_whitespace rest).
Proof.
  intros Hr Hs. change (lit "(" ++ ?s) with (40%Z :: s). rewrite primary_eq. cbn [Z.eqb Pos.eqb].
  rewrite skip_solid by done. rewrite (Hr (lit ")" ++ rest) 0); [|apply stops_paren|lia|done].
  change (skip_whitespace (lit ")" ++ rest)) with (lit ")" ++ rest).
  rewrite ops_done by done. cbn [mbind parsed_bind fst snd]. by rewrite strip_str_app.
Qed.

Definition precedence (o : LogicalOperator) : nat :=
  match o with LogicalAnd => PRECEDENCE_AND | LogicalOr => PRECEDENCE_OR end.

Lemma chain_reads o q rest k :
  reads q -> solid (display q) -> is_descendant q = false -> stops rest ->
  k <= precedence o + (if same_operator o q then 0 else 1) ->
  next_operator (skip_whitespace rest) (precedence o + 1) = None ->
  expr (chain o q ++ rest) k = ops q (skip_whitespace rest) k.
Proof.
  intros Hr Hs Hd Hst Hk Hno. unfold chain, operand. destruct (needs_parens o q) eqn:Ep.
  - assert (Es : same_operator o q = false) by by destruct o, q. rewrite Es, <-!app_assoc.
    rewrite expr_eq. by rewrite primary_paren.
  - assert (Hl : precedence o + (if same_operator o q then 0 else 1) <= level q /\ precedence o <= level q).
    { by destruct o, q; simpl in *; try done; cbv; lia. }
    assert (E : (if same_operator o q then display q else display q) = display q)
      by by destruct (same_operator o q).
    rewrite E. apply Hr; [done|lia|]. apply (next_operator_mono _ _ _ Hno). lia.
Qed.

(** A binary operator between two texts. *)
Lemma binary_reads op prec ctor tl tr l r p rest k :
  (forall s j, j <= prec -> next_operator (op ++ lit " " ++ s) j = Some (op, prec, ctor)) ->
  k <= prec ->
  (forall s, expr (tl ++ spaced op ++ s) k = ops l (op ++ lit " " ++ s) k) ->
  solid tr -> expr (tr ++ rest) (prec + 1) = ops r (skip_whitespace rest) (prec + 1) ->
  next_operator (skip_whitespace rest) (prec + 1) = None -> ctor l r = Done p ->
  expr (tl ++ spaced op ++ tr ++ rest) k = ops p (skip_whitespace rest) k.
Proof.
  intros Hnext Hk Hl Htr Hr Hno Hc. rewrite Hl, ops_eq, Hnext by done.
  rewrite drop_app_length. change (skip_whitespace (lit " " ++ ?s)) with (skip_whitespace s).
  rewrite skip_solid by done. rewrite Hr, ops_done by done. cbn [mbind parsed_bind fst snd].
  by rewrite Hc.
Qed.

(** The operators, where their precedence suffices. *)
Lemma next_known op prec ctor s j :
  In (op, prec, ctor) operators -> j <= prec ->
  next_operator (op ++ lit " " ++ s) j = Some (op, prec, ctor).
Proof.
  intros Hin Hj%Nat.leb_le.
  repeat destruct Hin as [[= <- <- <-]|Hin]; [..|done];
    unfold next_operator; cbn; rewrite Hj; reflexivity.
Qed.

Lemma reads_name name : valid_name name = true -> reads (Identifier name).
Proof. intros Hn rest k Hs Hk Hno. apply reads_primary. by apply primary_name. Qed.

Lemma name_operand op name s k :
  valid_name name = true -> stops (spaced op ++ s) ->
  skip_whitespace (spaced op ++ s) = op ++ lit " " ++ s ->
  expr (name ++ spaced op ++ s) k = ops (Identifier name) (op ++ lit " " ++ s) k.
Proof. intros Hn Hs Hsk. rewrite expr_eq, primary_name by done. by rewrite Hsk. Qed.

Lemma reads_comparison op ctor l r p :
  In (lit op, PRECEDENCE_EQ, ctor) operators -> ctor (Identifier l) (Identifier r) = Done p ->
  display p = l ++ spaced (lit op) ++ r -> level p = PRECEDENCE_EQ ->
  (forall s, skip_whitespace (spaced (lit op) ++ s) = lit op ++ lit " " ++ s) ->
  valid_name l = true -> valid_name r = true -> reads p.
Proof.
  intros Hin Hc Hd Hl Hsk Hvl Hvr rest k Hs Hk Hno. rewrite Hd, <-!app_assoc. rewrite Hl in *.
  apply (binary_reads (lit op) PRECEDENCE_EQ ctor l r (Identifier l) (Identifier r)); try done.
  - intros s j Hj. by apply next_known.
  - intros s. apply name_operand; [done| |done].
    unfold spaced. rewrite <-!app_assoc. apply stops_space.
  - by apply valid_name_solid.
  - by apply reads_name.
Qed.

Lemma reads_joins o l r :
  reads l -> reads r -> solid (display l) -> solid (display r) ->
  is_descendant l = false -> is_descendant r = false -> same_operator o r = false -> reads (joins o l r).
Proof.
  intros Hl Hr Hsl Hsr Hdl Hdr Hno rest k Hs Hk Hrest. rewrite display_joins, <-!app_assoc.
  assert (Elv : level (joins o l r) = precedence o) by by destruct o. rewrite Elv in *.
  assert (Hin : In (sign o, precedence o, fun p q => Done (joins o p q)) operators)
    by (destruct o; simpl; tauto).
  apply (binary_reads (sign o) (precedence o) (fun p q => Done (joins o p q)) _ _ l r); try done.
  - intros s j Hj. by apply next_known.
  - intros s.
    assert (Esk : skip_whitespace (spaced (sign o) ++ s) = sign o ++ lit " " ++ s) by by destruct o.
    rewrite <-Esk. apply chain_reads; try done.
    + unfold spaced. rewrite <-!app_assoc. apply stops_space.
    + destruct (same_operator o l); lia.
    + rewrite Esk. by destruct o.
  - by apply chain_solid.
  - apply chain_reads; try done. by rewrite Hno.
Qed.

Lemma level_child p : PRECEDENCE_CHILD <= level p.
Proof. destruct p; cbv; lia. Qed.

Lemma level_above p : is_descendant p = false -> PRECEDENCE_CHILD + 1 <= level p.
Proof. destruct p; cbv; done || lia. Qed.

Lemma reads_descendant p q :
  reads p -> reads q -> solid (display q) -> is_descendant q = false -> reads (Descendant p q).
Proof.
  intros Hp Hq Hs Hd rest k Hst Hk Hrest. cbn [display]. rewrite <-!app_assoc.
  cbn [level] in *. apply (binary_reads (lit ">") PRECEDENCE_CHILD new_child _ _ p q); try done.
  - intros s j Hj. apply next_known; [simpl; tauto|done].
  - intros s. change (lit ">" ++ lit " " ++ s) with (skip_whitespace (spaced (lit ">") ++ s)).
    apply Hp; [|pose proof (level_child p); lia|].
    + apply (stops_space (lit "> " ++ s)).
    + by destruct p.
  - apply Hq; [done|by apply level_above|].
    apply (next_operator_mono _ _ _ Hrest). pose proof (level_child q). lia.
Qed.

Lemma reads_not p : reads p -> solid (display p) -> reads (Not p).
Proof.
  intros Hp Hs rest k Hst Hk Hrest. apply reads_primary.
  assert (Hd : display (Not p) ++ rest
               = lit "!" ++ match p with
                            | Identifier name => name ++ rest
                            | _ => lit "(" ++ display p ++ lit ")" ++ rest
                            end) by by destruct p; cbn [display]; rewrite <-?app_assoc.
  rewrite Hd. change (lit "!" ++ ?s) with (33%Z :: s). rewrite primary_eq. cbn [Z.eqb Pos.eqb].
  assert (He : expr (skip_whitespace match p with
                            | Identifier name => name ++ rest
                            | _ => lit "(" ++ display p ++ lit ")" ++ rest
                            end) PRECEDENCE_NOT = Done (p, skip_whitespace rest)).
  { assert (Hparen : expr (skip_whitespace (lit "(" ++ display p ++ lit ")" ++ rest)) PRECEDENCE_NOT
                     = Done (p, skip_whitespace rest)).
    { rewrite skip_solid by done. rewrite expr_eq, primary_paren by done.
      cbn [mbind parsed_bind fst snd]. by rewrite ops_done by (apply next_operator_high; cbv; lia). }
    destruct p as [name|? ?|? ?|? ?|?|? ?|? ?]; try exact Hparen. rewrite skip_solid by done.
    change (name ++ rest) with (display (Identifier name) ++ rest).
    rewrite (Hp rest PRECEDENCE_NOT Hst); [|done|apply next_operator_high; cbv; lia].
    by rewrite ops_done by (apply next_operator_high; cbv; lia). }
  by rewrite He.
Qed.

Lemma canonical_reads p : printable p = true -> left_nested p = true -> reads p.
Proof.
  induction p as [name|l r|l r|p IHp q IHq|p IH|l IHl r IHr|l IHl r IHr];
    cbn [printable left_nested]; rewrite ?andb_true_iff, ?negb_true_iff; intros Hp Hn.
  - by apply reads_name.
  - apply (reads_comparison "==" new_eq l r); try done; [simpl; tauto|tauto..].
  - apply (reads_comparison "!=" new_neq l r); try done; [simpl; tauto|tauto..].
  - apply reads_descendant; [tauto|tauto|apply display_solid; tauto|tauto].
  - apply reads_not; [by apply IH|by apply display_solid].
  - apply (reads_joins LogicalAnd); try tauto; apply display_solid; tauto.
  - apply (reads_joins LogicalOr); try tauto; apply display_solid; tauto.
Qed.

Lemma canonical_parse p : printable p = true -> left_nested p = true -> parse (display p) = Done p.
Proof.
  intros Hp Hn. rewrite parse_eq. pose proof (display_solid p Hp) as Hs.
  rewrite <-(app_nil_r (display p)), skip_solid by done.
  rewrite (canonical_reads p Hp Hn [] 0); [|done|lia|done]. by rewrite ops_done by done.
Qed.

(** ** Regrouping

    Writing loses how a chain of [&&] or of [||] is grouped; reading groups to the
    left. *)
Fixpoint graft (o : LogicalOperator) (a r : Predicate) : Predicate :=
  match o, r with
  | LogicalAnd, And r1 r2 => And (graft o a r1) r2
  | LogicalOr, Or r1 r2 => Or (graft o a r1) r2
  | _, _ => joins o a r
  end.
Fixpoint regroup (p : Predicate) : Predicate :=
  match p with
  | Identifier _ | Equal _ _ | NotEqual _ _ => p
  | Not pred => Not (regroup pred)
  | Descendant parent child => Descendant (regroup parent) (regroup child)
  | And lhs rhs => graft LogicalAnd (regroup lhs) (regroup rhs)
  | Or lhs rhs => graft LogicalOr (regroup lhs) (regroup rhs)
  end.

Lemma graft_other o a r : same_operator o r = false -> graft o a r = joins o a r.
Proof. by destruct o, r. Qed.

Lemma graft_same o a r1 r2 : graft o a (joins o r1 r2) = joins o (graft o a r1) r2.
Proof. by destruct o. Qed.

(** Along a chain. *)
Lemma graft_ind (o : LogicalOperator) (P : Predicate -> Prop) :
  (forall r, same_operator o r = false -> P r) -> (forall r1 r2, P r1 -> P (joins o r1 r2)) ->
  forall r, P r.
Proof.
  intros H0 H1 r. induction r as [| | | | |l IHl r IHr|l IHl r IHr]; destruct o; try (by apply H0).
  - by apply (H1 l r).
  - by apply (H1 l r).
Qed.

Lemma graft_joins o a r : exists l q, graft o a r = joins o l q.
Proof.
  induction r as [r Hr|r1 r2 _] using (graft_ind o).
  - rewrite graft_other by done. by eexists _, _.
  - rewrite graft_same. by eexists _, _.
Qed.

Lemma eval_joins o a b contexts all :
  eval_inner (joins o a b) contexts all
  = match o with
    | LogicalAnd => eval_inner a contexts all && eval_inner b contexts all
    | LogicalOr => eval_inner a contexts all || eval_inner b contexts all
    end.
Proof.
  destruct o; cbn [joins eval_inner]; (destruct (last contexts) eqn:E; [done|]);
    apply last_None in E; subst; by destruct a, b.
Qed.

Lemma eval_graft o a r contexts all :
  eval_inner (graft o a r) contexts all = eval_inner (joins o a r) contexts all.
Proof.
  induction r as [r Hr|r1 r2 IH] using (graft_ind o); [by rewrite graft_other|].
  rewrite graft_same, !eval_joins, IH, !eval_joins.
  destruct o; [by rewrite andb_assoc|by rewrite orb_assoc].
Qed.

Lemma chain_joins o l r : chain o (joins o l r) = chain o l ++ spaced (sign o) ++ chain o r.
Proof. rewrite <-display_joins. by destruct o. Qed.

Lemma chain_graft o a r : chain o (graft o a r) = chain o a ++ spaced (sign o) ++ chain o r.
Proof.
  induction r as [r Hr|r1 r2 IH] using (graft_ind o).
  - by rewrite graft_other, chain_joins.
  - rewrite graft_same, !chain_joins, IH. by rewrite <-!app_assoc.
Qed.

Lemma display_chain o p : same_operator o p = true -> display p = chain o p.
Proof. unfold chain. by intros ->. Qed.

Lemma display_graft o a r : display (graft o a r) = chain o a ++ spaced (sign o) ++ chain o r.
Proof.
  destruct (graft_joins o a r) as (l & q & E).
  rewrite (display_chain o), chain_graft; [done|]. rewrite E. by destruct o.
Qed.

Definition is_name (p : Predicate) : bool := match p with Identifier _ => true | _ => false end.

(** What the chains look at is kept. *)
Lemma regroup_shape p :
  (forall o, same_operator o (regroup p) = same_operator o p)
  /\ (forall o, needs_parens o (regroup p) = needs_parens o p)
  /\ is_descendant (regroup p) = is_descendant p
  /\ is_name (regroup p) = is_name p.
Proof.
  destruct p as [| | | | |l r|l r]; cbn [regroup]; try done;
    [destruct (graft_joins LogicalAnd (regroup l) (regroup r)) as (? & ? & ->)
    |destruct (graft_joins LogicalOr (regroup l) (regroup r)) as (? & ? & ->)];
    split_and!; try done; by intros [].
Qed.

Lemma chain_regroup o p : display (regroup p) = display p -> chain o (regroup p) = chain o p.
Proof.
  intros E. destruct (regroup_shape p) as (H1 & H2 & _). unfold chain, operand. by rewrite H1, H2, E.
Qed.

Lemma display_not_same p q :
  display p = display q -> is_name p = is_name q -> display (Not p) = display (Not q).
Proof.
  intros E Hn.
  assert (H : forall p, display (Not p) = if is_name p then lit "!" ++ display p
                                          else lit "!(" ++ display p ++ lit ")") by by intros [].
  by rewrite !H, E, Hn.
Qed.

Lemma display_regroup p : display (regroup p) = display p.
Proof.
  induction p as [| | |p IHp q IHq|p IH|l IHl r IHr|l IHl r IHr]; cbn [regroup]; try done.
  - cbn [display]. by rewrite IHp, IHq.
  - apply display_not_same; [done|]. by destruct (regroup_shape p) as (_ & _ & _ & ->).
  - rewrite display_graft, !chain_regroup by done. by rewrite <-display_joins.
  - rewrite display_graft, !chain_regroup by done. by rewrite <-display_joins.
Qed.

Lemma eval_regroup p contexts all : eval_inner (regroup p) contexts all = eval_inner p contexts all.
Proof.
  revert contexts all.
  induction p as [| | |p IHp q IHq|p IH|l IHl r IHr|l IHl r IHr]; intros contexts all; cbn [regroup]; try done.
  - cbn [eval_inner]. destruct (last contexts); [|done].
    rewrite (find_ext _ (fun i => eval_inner p (take (i + 1) contexts) all)) by (intros; apply IHp).
    destruct (List.find _ _); [|done]. apply IHq.
  - cbn [eval_inner]. destruct (last contexts); [|done]. f_equal.
    induction (seq 0 (length all)) as [|i js IHs]; [done|]. simpl. by rewrite IH, IHs.
  - rewrite eval_graft, eval_joins, IHl, IHr. by rewrite <-(eval_joins LogicalAnd).
  - rewrite eval_graft, eval_joins, IHl, IHr. by rewrite <-(eval_joins LogicalOr).
Qed.

Lemma printable_joins o l r :
  printable (joins o l r)
  = printable l && printable r && negb (is_descendant l) && negb (is_descendant r).
Proof. by destruct o. Qed.
Lemma left_nested_joins o l r :
  left_nested (joins o l r) = left_nested l && left_nested r && negb (same_operator o r).
Proof. by destruct o. Qed.

Lemma graft_canonical o a r :
  printable (joins o a r) = true -> left_nested a = true -> left_nested r = true ->
  printable (graft o a r) = true /\ left_nested (graft o a r) = true.
Proof.
  induction r as [r Hr|r1 r2 IH] using (graft_ind o); intros Hp Ha Hr'.
  - rewrite graft_other by done. split; [done|]. rewrite left_nested_joins, Ha, Hr', Hr. done.
  - rewrite graft_same, printable_joins, left_nested_joins.
    rewrite !printable_joins, !andb_true_iff, !negb_true_iff in Hp.
    rewrite left_nested_joins, !andb_true_iff, !negb_true_iff in Hr'.
    destruct IH as [IH1 IH2]; [|done|tauto|].
    + rewrite printable_joins, !andb_true_iff, !negb_true_iff. tauto.
    + assert (Hd : is_descendant (graft o a r1) = false)
        by (destruct (graft_joins o a r1) as (? & ? & ->); by destruct o).
      rewrite !andb_true_iff, !negb_true_iff. tauto.
Qed.

Lemma regroup_canonical p :
  printable p = true -> printable (regroup p) = true /\ left_nested (regroup p) = true.
Proof.
  induction p as [| | |p IHp q IHq|p IH|l IHl r IHr|l IHl r IHr]; cbn [regroup printable left_nested];
    rewrite ?andb_true_iff, ?negb_true_iff; intros Hp; try tauto.
  - destruct (regroup_shape q) as (_ & _ & -> & _). tauto.
  - apply (graft_canonical LogicalAnd); [|tauto..]. rewrite printable_joins.
    destruct (regroup_shape l) as (_ & _ & -> & _), (regroup_shape r) as (_ & _ & -> & _).
    rewrite !andb_true_iff, !negb_true_iff. tauto.
  - apply (graft_canonical LogicalOr); [|tauto..]. rewrite printable_joins.
    destruct (regroup_shape l) as (_ & _ & -> & _), (regroup_shape r) as (_ & _ & -> & _).
    rewrite !andb_true_iff, !negb_true_iff. tauto.
Qed.

Lemma regroup_id p : left_nested p = true -> regroup p = p.
Proof.
  induction p as [| | |p IHp q IHq|p IH|l IHl r IHr|l IHl r IHr]; cbn [regroup left_nested];
    rewrite ?andb_true_iff, ?negb_true_iff; intros Hp; try done.
  - by rewrite IHp, IHq by tauto.
  - by rewrite IH.
  - rewrite IHl, IHr by tauto. apply (graft_other LogicalAnd). tauto.
  - rewrite IHl, IHr by tauto. apply (graft_other LogicalOr). tauto.
Qed.

(** ** What the parser makes has names for names *)
Fixpoint names_ok (p : Predicate) : bool :=
  match p with
  | Identifier name => valid_name name
  | Equal lhs rhs | NotEqual lhs rhs => valid_name lhs && valid_name rhs
  | Not pred => names_ok pred
  | Descendant lhs rhs | And lhs rhs | Or lhs rhs => names_ok lhs && names_ok rhs
  end.

(** No [>] stands where its text would need parentheses. *)
Fixpoint well_placed (p : Predicate) : bool :=
  match p with
  | Identifier _ | Equal _ _ | NotEqual _ _ => true
  | Not pred => well_placed pred
  | Descendant parent child => well_placed parent && well_placed child && negb (is_descendant child)
  | And lhs rhs | Or lhs rhs =>
      well_placed lhs && well_placed rhs && negb (is_descendant lhs) && negb (is_descendant rhs)
  end.

Lemma printable_split p : printable p = true <-> names_ok p = true /\ well_placed p = true.
Proof.
  induction p; cbn [printable names_ok well_placed]; rewrite ?andb_true_iff; tauto.
Qed.

Definition makes_names (r : parsed (Predicate * str)) : Prop :=
  match r with Done (p, _) => names_ok p = true | _ => True end.

Lemma constructor_names op prec ctor p q p' :
  In (op, prec, ctor) operators -> ctor p q = Done p' ->
  names_ok p = true -> names_ok q = true -> names_ok p' = true.
Proof.
  intros Hin Hc Hp Hq. repeat destruct Hin as [[= _ _ <-]|Hin]; try done;
    unfold new_child, new_and, new_or, new_eq, new_neq in Hc;
    try (injection Hc as <-; cbn [names_ok]; by rewrite Hp, Hq);
    destruct p, q; try done; injection Hc as <-; cbn [names_ok] in *; by rewrite Hp, Hq.
Qed.

Lemma identifier_valid c rest :
  is_identifier_char c = true ->
  valid_name (take_while (fun c => is_identifier_char c || is_vim_operator_char c) (c :: rest)) = true.
Proof.
  intros E. cbn [take_while]. rewrite E. cbn [orb valid_name]. rewrite E. apply forallb_forall.
  intros d Hd%list_elem_of_In. fold name_char in *.
  pose proof (take_while_all (fun c => is_identifier_char c || is_vim_operator_char c) rest) as H.
  rewrite Forall_forall in H. by apply H.
Qed.

Lemma parse_names f :
  (forall s m, makes_names (parse_expr f s m))
  /\ (forall p s m, names_ok p = true -> makes_names (parse_operators f p s m))
  /\ (forall s, makes_names (parse_primary f s)).
Proof.
  induction f as [|f (IHe & IHo & IHp)]; [done|]. split_and!.
  - intros s m. cbn [parse_expr]. specialize (IHp s).
    destruct (parse_primary f s) as [[p r]| |]; [|done..]. by apply IHo.
  - intros p s m Hp. cbn [parse_operators].
    destruct (next_operator s m) as [[[op prec] ctor]|] eqn:E; [|done].
    apply next_operator_in in E as (Hin & _ & _). set (s' := skip_whitespace _).
    specialize (IHe s' (prec + 1)). destruct (parse_expr f s' (prec + 1)) as [[q r]| |]; [|done..].
    cbn [mbind parsed_bind fst snd]. destruct (ctor p q) as [p'| |] eqn:Ec; [|done..].
    apply IHo. by apply (constructor_names op prec ctor p q).
  - intros [|c rest]; [done|]. cbn [parse_primary].
    destruct (c =? 40)%Z; [|destruct (c =? 33)%Z; [|destruct (is_identifier_char c) eqn:Ec]].
    + specialize (IHe (skip_whitespace rest) 0).
      destruct (parse_expr f (skip_whitespace rest) 0) as [[p r]| |]; [|done..].
      cbn [mbind parsed_bind fst snd]. by destruct (strip_str _ _).
    + specialize (IHe (skip_whitespace rest) PRECEDENCE_NOT).
      by destruct (parse_expr f (skip_whitespace rest) PRECEDENCE_NOT) as [[p r]| |].
    + by apply identifier_valid.
    + destruct (is_vim_operator_char c) eqn:Ev; [|done]. cbn. by rewrite Ec, Ev.
Qed.

Lemma parsed_names s p : parse s = Done p -> names_ok p = true.
Proof.
  rewrite parse_eq. pose proof (proj1 (parse_names (fuel_of (skip_whitespace s))) (skip_whitespace s) 0) as H.
  unfold expr. destruct (parse_expr _ _ 0) as [[q r]| |]; [|done..]. cbn [mbind parsed_bind fst snd].
  destruct r; [|done]. intros [= ->]. exact H.
Qed.

(** ** Contexts *)
Definition context_char (c : char) : bool := is_identifier_char c || (c =? 61)%Z || is_whitespace c.

Definition bad (s : str) : Prop := Exists (fun c => context_char c = false) s.

Lemma bad_drop_while f s :
  (forall c, f c = true -> context_char c = true) -> bad s -> bad (drop_while f s).
Proof.
  intros Hf H. induction H as [c s Hc|c s H IH]; simpl.
  - destruct (f c) eqn:E; [|by constructor]. apply Hf in E. congruence.
  - destruct (f c); [done|by constructor].
Qed.

Lemma bad_skip s : bad s -> bad (skip_whitespace s).
Proof.
  apply bad_drop_while. intros c H. unfold context_char. rewrite H. by rewrite orb_true_r.
Qed.

Lemma bad_identifier s : bad s -> bad (skip_whitespace (drop (length (take_while is_identifier_char s)) s)).
Proof.
  intros H. apply bad_skip. rewrite drop_take_while. apply bad_drop_while; [|done].
  intros c Hc. unfold context_char. by rewrite Hc.
Qed.

Lemma strip_equals s u : strip_str (lit "=") s = Some u -> s = 61%Z :: u.
Proof.
  destruct s as [|c s]; [done|]. change (lit "=") with [61%Z]. cbn [strip_str].
  destruct (Z.eqb_spec 61 c) as [<-|]; [|done]. by intros [= ->].
Qed.

(** One character that no entry can hold, and parsing never ends. *)
Lemma bad_diverges fuel s context : bad s -> context_parse_expr fuel s context = None.
Proof.
  revert s context. induction fuel as [|fuel IH]; intros s context H; [done|]. cbn [context_parse_expr].
  pose proof (bad_identifier s H) as H'. destruct s as [|c s]; [by inversion H|].
  set (s' := skip_whitespace _) in *. destruct (strip_str (lit "=") s') as [s''|] eqn:E; [|by apply IH].
  apply IH, bad_identifier, bad_skip. apply strip_equals in E. rewrite E in H'.
  inversion H' as [? ? Hd|]; subst; [|done].
  by apply orb_false_iff in Hd as [[_ Hd]%orb_false_iff _].
Qed.

Definition clean (s : str) : Prop := Forall (fun c => context_char c = true) s.

Lemma clean_drop_while f s : clean s -> clean (drop_while f s).
Proof. intros H. induction H as [|c s Hc H IH]; [constructor|]. simpl. destruct (f c); [done|by constructor]. Qed.

Lemma skip_head s : match skip_whitespace s with c :: _ => is_whitespace c = false | [] => True end.
Proof.
  unfold skip_whitespace. induction s as [|c s IH]; [done|]. simpl. by destruct (is_whitespace c) eqn:E.
Qed.

(** A text of entries and spaces is read in as many steps as it has characters. *)
Lemma clean_ends fuel s context :
  clean s -> match s with c :: _ => is_whitespace c = false | [] => True end -> length s < fuel ->
  exists context', context_parse_expr fuel s context = Some context'.
Proof.
  revert s context. induction fuel as [|fuel IH]; intros s context Hc Hh Hf; [lia|].
  cbn [context_parse_expr]. destruct s as [|c s]; [by eexists|].
  pose proof (drop_take_while is_identifier_char (c :: s)) as Ed. cbv zeta. rewrite Ed.
  set (t := drop_while is_identifier_char (c :: s)) in *.
  assert (Ht : clean t) by by apply clean_drop_while.
  assert (Hskip : clean (skip_whitespace t)) by by apply clean_drop_while.
  pose proof (length_skip t) as Hl.
  assert (Hlt : length t <= length (c :: s)) by apply length_drop_while.
  destruct (strip_str (lit "=") (skip_whitespace t)) as [u|] eqn:E.
  - pose proof (strip_str_length _ _ _ E) as Hu. change (length (lit "=")) with 1 in Hu.
    rewrite drop_take_while. apply IH; [|apply skip_head|].
    + do 3 apply clean_drop_while. apply strip_equals in E. rewrite E in Hskip. by inversion Hskip.
    + pose proof (length_skip (drop_while is_identifier_char (skip_whitespace u))).
      pose proof (length_drop_while is_identifier_char (skip_whitespace u)).
      pose proof (length_skip u). simpl in *. lia.
  - apply IH; [done|apply skip_head|]. subst t. cbn [drop_while] in *.
    destruct (is_identifier_char c) eqn:Ec.
    + pose proof (length_drop_while is_identifier_char s). simpl in *. lia.
    + exfalso. inversion Hc as [|? ? Hcc]; subst. unfold context_char in Hcc. rewrite Ec, Hh in Hcc.
      rewrite orb_false_r in Hcc. cbn [orb] in Hcc. apply Z.eqb_eq in Hcc as ->. done.
Qed.

Lemma clean_or_bad s : clean s \/ bad s.
Proof.
  induction s as [|c s [IH|IH]]; [by left; constructor| |by right; right].
  destruct (context_char c) eqn:E; [left; by constructor|right; by constructor].
Qed.

(** Entries as they are written. *)
Definition word (s : str) : bool := forallb is_identifier_char s && negb (bool_decide (s = [])).
Definition entry_ok (entry : ContextEntry) : bool :=
  word (key entry) && match value entry with Some v => word v | None => true end.

Lemma word_solid s : word s = true -> solid s.
Proof.
  destruct s as [|c s]; [done|]. intros [[H _]%andb_true_iff _]%andb_true_iff.
  by apply identifier_char_cases.
Qed.

Lemma word_take s rest :
  word s = true -> match rest with c :: _ => is_identifier_char c = false | [] => True end ->
  take_while is_identifier_char (s ++ rest) = s /\ drop (length s) (s ++ rest) = rest.
Proof.
  intros [H _]%andb_true_iff Hr. split; [|apply drop_app_length]. apply take_while_app; [|done].
  apply Forall_forall. intros c Hc%list_elem_of_In. by apply (proj1 (forallb_forall _ _) H).
Qed.

Lemma not_identifier c :
  (0 <= c < 128)%Z -> ascii_alphanumeric c = false -> c <> 95%Z -> c <> 45%Z ->
  is_identifier_char c = false.
Proof.
  intros Hc Ha H1 H2. unfold is_identifier_char. rewrite alphanumeric_ascii, Ha by done.
  by rewrite (proj2 (Z.eqb_neq _ _) H1), (proj2 (Z.eqb_neq _ _) H2).
Qed.

Definition tail_text (self : KeyContext) : str :=
  match self with [] => [] | _ => lit " " ++ show_context self end.

Lemma show_cons entry self : show_context (entry :: self) = show_entry entry ++ tail_text self.
Proof. destruct self; [by rewrite app_nil_r|done]. Qed.

Lemma show_entry_solid entry : entry_ok entry = true -> solid (show_entry entry).
Proof.
  intros [Hk%word_solid _]%andb_true_iff. unfold show_entry.
  destruct (value entry); [by apply solid_app|done].
Qed.

Lemma skip_tail self :
  Forall (fun entry => entry_ok entry = true) self -> skip_whitespace (tail_text self) = show_context self.
Proof.
  intros H. destruct H as [|entry self He H]; [done|]. unfold tail_text.
  change (skip_whitespace (lit " " ++ ?s)) with (skip_whitespace s).
  rewrite show_cons. by apply skip_solid, show_entry_solid.
Qed.

Lemma tail_stops self : match tail_text self with c :: _ => is_identifier_char c = false | [] => True end.
Proof. destruct self; [done|]. cbn. by apply not_identifier. Qed.

Lemma parse_entry fuel entry self acc :
  entry_ok entry = true -> Forall (fun entry => entry_ok entry = true) self ->
  contains acc (key entry) = false ->
  context_parse_expr (S fuel) (show_context (entry :: self)) acc
  = context_parse_expr fuel (show_context self) (acc ++ [entry]).
Proof.
  intros He Hs Hc. pose proof (show_entry_solid entry He) as Hsol. rewrite show_cons.
  apply andb_true_iff in He as [Hk Hv]. destruct entry as [k [v|]]; cbn [key value] in *;
    unfold show_entry in *; cbn [key value] in *; cbn [context_parse_expr]; rewrite <-?app_assoc.
  - destruct (word_take k (lit "=" ++ v ++ tail_text self) Hk) as [Et Ed]; [by apply not_identifier|].
    destruct (k ++ lit "=" ++ v ++ tail_text self) eqn:E; [by destruct k|]. rewrite Et, Ed.
    change (skip_whitespace (lit "=" ++ ?s)) with (lit "=" ++ s). rewrite strip_str_app.
    rewrite skip_solid by by apply word_solid.
    destruct (word_take v (tail_text self) Hv (tail_stops self)) as [-> ->].
    rewrite skip_tail by done. unfold set. by rewrite Hc.
  - destruct (word_take k (tail_text self) Hk (tail_stops self)) as [Et Ed].
    destruct (k ++ tail_text self) eqn:E; [by destruct k|]. rewrite Et, Ed, skip_tail by done.
    assert (Hno : strip_str (lit "=") (show_context self) = None).
    { destruct (strip_str _ _) as [u|] eqn:Eu; [|done]. exfalso. apply strip_equals in Eu.
      destruct Hs as [|[[|c k'] v] self He Hs]; [done|done|]. rewrite show_cons in Eu.
      apply andb_true_iff in He as [[[He _]%andb_true_iff _]%andb_true_iff _].
      rewrite (not_identifier c) in He; [done|..];
        unfold show_entry in Eu; destruct v; cbn [key value app] in Eu; by injection Eu as -> _. }
    rewrite Hno. unfold add. by rewrite Hc.
Qed.

Lemma parse_shown fuel self acc :
  Forall (fun entry => entry_ok entry = true) self -> distinct (acc ++ self) -> length self < fuel ->
  context_parse_expr fuel (show_context self) acc = Some (acc ++ self).
Proof.
  intros H. revert fuel acc. induction H as [|entry self He H IH]; intros fuel acc Hd Hf.
  - destruct fuel; [simpl in Hf; lia|]. cbn. by rewrite app_nil_r.
  - destruct fuel as [|fuel]; [simpl in Hf; lia|]. rewrite parse_entry; [|done|done|].
    + change (entry :: self) with ([entry] ++ self) in *. rewrite app_assoc in Hd |- *.
      apply IH; [done|simpl in Hf; lia].
    + destruct (contains acc (key entry)) eqn:E; [|done]. apply contains_spec in E.
      unfold distinct in Hd. rewrite map_app in Hd. apply NoDup_app in Hd as (_ & Hd & _).
      exfalso. apply (Hd (key entry) E). by left.
Qed.

Lemma parsed_distinct fuel s context context' :
  distinct context -> context_parse_expr fuel s context = Some context' -> distinct context'.
Proof.
  revert s context. induction fuel as [|fuel IH]; intros s context Hd; [done|]. cbn [context_parse_expr].
  destruct s as [|c s]; [by intros [= <-]|]. destruct (strip_str _ _).
  - apply IH. by apply set_distinct.
  - apply IH. by apply add_distinct.
Qed.
End Spec.
