(* ===== verification/KeyParserProps.v ===== *)
(** * The promises of reading and writing predicates and contexts *)

From S2P Require Import Prelude KeyContext KeyParser KeyParserSpec.
From stdpp Require Import strings.
Local Open Scope nat_scope.

(** ** Characters of ASCII, for samples *)
Module Ascii.
#[export] Instance ascii_class : CharClass := ascii_alphanumeric.
#[export] Instance ascii_laws : CharLaws.
Proof.
  split; [done|]. intros c. unfold is_alphanumeric, ascii_class, ascii_alphanumeric, is_whitespace.
  rewrite !orb_true_iff, !andb_true_iff, !Z.leb_le. intros H.
  rewrite !orb_false_iff, !andb_false_iff, !Z.leb_gt, !Z.eqb_neq. lia.
Qed.
End Ascii.
Import Ascii.

(** C33. Predicates survive being written and read.  The parser ends on every text.
    A predicate whose names are names and in which no [>] stands under [&&], [||]
    or to the right of [>] is read back from its text with its chains of [&&] and
    [||] grouped to the left, which evaluates alike everywhere, and exactly as it
    was when they already were; every name the parser makes is one, so this holds
    of whatever was parsed without such a [>]. *)
Theorem predicate_roundtrip `{CC : !CharClass} {CL : CharLaws} :
  (forall s, parse s <> OutOfFuel)
  /\ (forall p, printable p = true ->
        parse (display p) = Done (regroup p)
        /\ (forall contexts, eval (regroup p) contexts = eval p contexts)
        /\ (left_nested p = true -> parse (display p) = Done p))
  /\ (forall s p, parse s = Done p -> well_placed p = true ->
        parse (display p) = Done (regroup p)).
Proof.
  assert (Hmain : forall p, printable p = true -> parse (display p) = Done (regroup p)).
  { intros p Hp. destruct (regroup_canonical p Hp) as [H1 H2].
    rewrite <-display_regroup. by apply canonical_parse. }
  split_and!; [apply parse_total| |].
  - intros p Hp. split_and!; [by apply Hmain|intros; apply eval_regroup|intros; by apply canonical_parse].
  - intros s p Hs%parsed_names Hw. apply Hmain. by apply printable_split.
Qed.

Definition sample : str := lit "a && (b == c && !(d > e)) && f || <".

Lemma predicate_roundtrip_witness :
  exists p, parse sample = Done p /\ parse (display p) = Done (regroup p)
            /\ display p = lit "(a && b == c && !(d > e) && f) || <".
Proof.
  destruct predicate_roundtrip as (_ & _ & H).
  destruct (parse sample) as [p| |] eqn:E; [|vm_compute in E; discriminate E..].
  exists p. split; [reflexivity|]. vm_compute in E. injection E as <-. split.
  - apply (H sample); vm_compute; reflexivity.
  - vm_compute. reflexivity.
Defined.

(** Where a [>] needs parentheses, they are not written and the predicate read back
    is another one. *)
Lemma display_loses_parentheses :
  exists p q, parse (lit "(a > b) && c") = Done p /\ display p = lit "a > b && c"
    /\ parse (display p) = Done q /\ q <> p
    /\ (let path := [[mkEntry (lit "a") None]; [mkEntry (lit "b") None; mkEntry (lit "c") None]] in
        eval p path = true)
    /\ (exists p' q', parse (lit "a > (b > c)") = Done p' /\ parse (display p') = Done q' /\ q' <> p').
Proof.
  eexists _, _. split_and!; try (vm_compute; reflexivity); [done|].
  eexists _, _. split_and!; try (vm_compute; reflexivity). done.
Qed.

(** C38. Reading a context ends exactly when every character can be part of an
    identifier, is [=] or is white space: otherwise it calls itself for ever, whatever
    the fuel.  What is read holds each key once, and a context of distinct keys
    written as words is read back as it was. *)
Theorem context_parse_spec `{CC : !CharClass} {CL : CharLaws} :
  (forall s, (exists fuel context, context_parse fuel s = Some context)
             <-> Forall (fun c => context_char c = true) s)
  /\ (forall fuel s context, context_parse fuel s = Some context -> distinct context)
  /\ (forall fuel context, distinct context -> Forall (fun entry => entry_ok entry = true) context ->
        length context < fuel -> context_parse fuel (show_context context) = Some context).
Proof.
  split_and!.
  - intros s. split.
    + intros (fuel & context & E). destruct (clean_or_bad s) as [H|H]; [done|].
      unfold context_parse in E. by rewrite bad_diverges in E by by apply bad_skip.
    + intros H. exists (length s + 1). apply clean_ends; [by apply clean_drop_while|apply skip_head|].
      pose proof (length_skip s). lia.
  - intros fuel s context. apply parsed_distinct. constructor.
  - intros fuel context Hd Hc Hf. unfold context_parse.
    assert (Hs : skip_whitespace (show_context context) = show_context context).
    { destruct Hc as [|entry self He Hc]; [done|]. rewrite show_cons. by apply skip_solid, show_entry_solid. }
    rewrite Hs. by apply (parse_shown fuel context []).
Qed.

Definition editor_context : KeyContext :=
  [mkEntry (lit "Editor") None; mkEntry (lit "mode") (Some (lit "full")); mkEntry (lit "os") (Some (lit "linux"))].

Lemma context_parse_spec_witness :
  show_context editor_context = lit "Editor mode=full os=linux"
  /\ context_parse 4 (show_context editor_context) = Some editor_context.
Proof.
  destruct context_parse_spec as (_ & _ & H). split; [vm_compute; reflexivity|].
  apply H; [|repeat constructor|vm_compute; lia].
  unfold distinct. vm_compute. repeat constructor; set_solver.
Defined.

(** An unexpected character: no error is reported. *)
Lemma context_parse_diverges fuel : context_parse fuel (lit "Editor && mode=full") = None.
Proof.
  unfold context_parse. apply bad_diverges, bad_skip. vm_compute.
  do 7 apply Exists_cons_tl. by constructor.
Qed.
