(* ===== verification/Keymap.v ===== *)
(** * Keymaps ([crates/gpui/src/keymap.rs], [keymap/binding.rs] and the matching of
    [platform/keystroke.rs])

    Which bindings an input triggers: enabled where their predicate holds, ranked by
    depth and then by age, and suppressed by [NoAction] and [Unbind] entries. *)

From S2P Require Import Prelude KeyContext.
Local Open Scope nat_scope.

(** ** Keystrokes *)
Record Modifiers := mkModifiers {
  control : bool; alt : bool; shift : bool; platform : bool; function : bool;
}.
Record Keystroke := mkKeystroke {
  modifiers : Modifiers;
  key : str;
  key_char : option str;
}.
#[export] Instance modifiers_eq_dec : EqDecision Modifiers. Proof. solve_decision. Defined.
#[export] Instance keystroke_eq_dec : EqDecision Keystroke. Proof. solve_decision. Defined.

(** A [KeybindingKeystroke] is its [inner] keystroke, and the matching that of the
    platforms other than Windows. *)
Definition should_match (self target : Keystroke) : bool :=
  let typed_char :=
    match key_char self with
    | Some c =>
        negb (bool_decide (c = key self))
        && bool_decide (key target = c)
        && bool_decide (modifiers target
                        = mkModifiers (control (modifiers self)) false false (platform (modifiers self)) false)
    | None => false
    end in
  typed_char
  || bool_decide (modifiers target = modifiers self) && bool_decide (key target = key self).

(** ** Bindings *)

(** The [Action] trait, as the keymap uses it: [as_unbind] downcasts to [Unbind] and
    gives the name it holds. *)
Class Action (A : Type) := {
  type_id : A -> Z;
  action_name : A -> str;
  partial_eq : A -> A -> bool;
  is_no_action : A -> bool;
  as_unbind : A -> option str;
}.

Section Keymap.
Context {A : Type} `{!Action A}.

Definition is_unbind (a : A) : bool := match as_unbind a with Some _ => true | None => false end.

Record KeyBinding := mkBinding {
  action : A;
  keystrokes : list Keystroke;
  context_predicate : option Predicate;
  meta : option Z;
}.
Implicit Types (binding disabled_binding : KeyBinding).

Definition match_keystrokes binding (typed : list Keystroke) : option bool :=
  if length (keystrokes binding) <? length typed then None
  else if forallb (fun p => should_match (snd p) (fst p)) (zip (keystrokes binding) typed)
  then Some (length typed <? length (keystrokes binding))
  else None.

Definition disabled_binding_matches_context disabled_binding binding : bool :=
  match context_predicate disabled_binding, context_predicate binding with
  | None, _ => true
  | Some _, None => false
  | Some disabled_predicate, Some predicate => is_superset disabled_predicate predicate
  end.

Definition binding_is_unbound disabled_binding binding : bool :=
  bool_decide (keystrokes disabled_binding = keystrokes binding)
  && match as_unbind (action disabled_binding) with
     | Some name => bool_decide (name = action_name (action binding))
     | None => false
     end.

(** ** The keymap *)
Record Keymap := mkKeymap {
  bindings : list KeyBinding;
  binding_indices_by_action_id : gmap Z (list nat);
  disabled_binding_indices : list nat;
  version : Z;
}.
Implicit Types self : Keymap.

Definition default_keymap : Keymap := mkKeymap [] ∅ [] 0.

Definition add_binding self binding : Keymap :=
  let '(mkKeymap bindings by_action disabled version) := self in
  let ix := length bindings in
  if is_no_action (action binding) || is_unbind (action binding)
  then mkKeymap (bindings ++ [binding]) by_action (disabled ++ [ix]) version
  else mkKeymap (bindings ++ [binding])
         (<[type_id (action binding) := default [] (by_action !! type_id (action binding)) ++ [ix]]> by_action)
         disabled version.

Definition bump_version self : Keymap :=
  mkKeymap (bindings self) (binding_indices_by_action_id self) (disabled_binding_indices self)
    (wrap_u64 (version self + 1)).

Definition add_bindings self (new : list KeyBinding) : Keymap := bump_version (fold_left add_binding new self).
Definition keymap_new (new : list KeyBinding) : Keymap := add_bindings default_keymap new.
Definition clear self : Keymap := bump_version (mkKeymap [] ∅ [] (version self)).

(** The entry of [bindings_for_action] for one index: the checks against the
    disabling entries added later. *)
Fixpoint not_disabled self (ix : nat) binding (disabled : list nat) : res bool :=
  match disabled with
  | [] => Ret true
  | disabled_ix :: disabled =>
      if ix <? disabled_ix then
        disabled_binding ← index (bindings self) disabled_ix;
        if negb (bool_decide (keystrokes disabled_binding = keystrokes binding))
        then not_disabled self ix binding disabled
        else if is_no_action (action disabled_binding) then
          if disabled_binding_matches_context disabled_binding binding then Ret false
          else not_disabled self ix binding disabled
        else if is_unbind (action disabled_binding)
                && disabled_binding_matches_context disabled_binding binding
                && binding_is_unbound disabled_binding binding
        then Ret false
        else not_disabled self ix binding disabled
      else not_disabled self ix binding disabled
  end.

Fixpoint filter_for_action self (a : A) (ixs : list nat) : res (list KeyBinding) :=
  match ixs with
  | [] => Ret []
  | ix :: ixs =>
      binding ← index (bindings self) ix;
      keep ← (if negb (partial_eq (action binding) a) then Ret false
              else not_disabled self ix binding (disabled_binding_indices self));
      rest ← filter_for_action self a ixs;
      mret (if keep : bool then binding :: rest else rest)
  end.

Definition bindings_for_action self (a : A) : res (list KeyBinding) :=
  filter_for_action self a (default [] (binding_indices_by_action_id self !! type_id a)).

Definition all_bindings_for_input self (input : list Keystroke) : list KeyBinding :=
  List.filter (fun binding => match match_keystrokes binding input with
                              | Some pending => negb pending
                              | None => false
                              end) (rev (bindings self)).

Definition binding_enabled binding (contexts : list KeyContext) : option nat :=
  match context_predicate binding with
  | Some predicate => depth_of predicate contexts
  | None => Some (length contexts)
  end.

(** A candidate: its depth, its index and the binding. *)
Record candidate := mkCandidate { depth : nat; ix : nat; binding : KeyBinding }.

(** [sort_by]: stable, by depth and then by index, the greatest first. *)
Definition rank_cmp (a b : candidate) : comparison :=
  match Nat.compare (depth b) (depth a) with
  | Eq => Nat.compare (ix b) (ix a)
  | c => c
  end.
Fixpoint insert_ranked (x : candidate) (l : list candidate) : list candidate :=
  match l with
  | [] => [x]
  | y :: l' => match rank_cmp x y with Gt => y :: insert_ranked x l' | _ => x :: l end
  end.
Definition sort_ranked (l : list candidate) : list candidate := foldr insert_ranked [] l.

(** The enabled bindings that match the input, the last first, with what
    [match_keystrokes] says. *)
Definition enabled_matches self (input : list Keystroke) (contexts : list KeyContext)
    : list (candidate * bool) :=
  omap (fun p =>
          depth ← binding_enabled (snd p) contexts;
          pending ← match_keystrokes (snd p) input;
          Some (mkCandidate depth (fst p) (snd p), pending))
    (rev (imap pair (bindings self))).

(** The loop over the matched bindings. *)
Record selecting := mkSelecting {
  selected : list KeyBinding;
  first_binding_index : option nat;
  unbound_bindings : list KeyBinding;
  no_action_meta : option Z;
}.

Definition meta_of b : Z := match meta b with Some m => m | None => 0%Z end.

Definition select_step (st : selecting) (c : candidate) : selecting :=
  let '(mkSelecting selected first unbound no_action) := st in
  let b := binding c in
  let m := meta_of b in
  if is_no_action (action b) then
    mkSelecting selected first unbound
      (Some match no_action with Some existing => Z.min existing m | None => m end)
  else if match no_action with Some n => (n <=? m)%Z | None => false end then st
  else if is_unbind (action b) then mkSelecting selected first (unbound ++ [b]) no_action
  else if existsb (fun disabled => binding_is_unbound disabled b) unbound then st
  else mkSelecting (selected ++ [b]) (Some match first with Some i => i | None => ix c end)
         unbound no_action.

(** The loop over the pending ones, oldest first, on a set of keystrokes. *)
Definition pending_step (first : option nat) (pending : list (list Keystroke)) (c : candidate)
    : list (list Keystroke) :=
  if match first with Some i => ix c <? i | None => false end then pending
  else if is_no_action (action (binding c)) || is_unbind (action (binding c))
  then List.filter (fun ks => negb (bool_decide (ks = keystrokes (binding c)))) pending
  else keystrokes (binding c) :: pending.

Definition bindings_for_input self (input : list Keystroke) (contexts : list KeyContext)
    : list KeyBinding * bool :=
  let found := enabled_matches self input contexts in
  let matched := map fst (List.filter (fun p => negb (snd p)) found) in
  let pending := map fst (List.filter snd found) in
  let st := fold_left select_step (sort_ranked matched) (mkSelecting [] None [] None) in
  let pending := fold_left (pending_step (first_binding_index st)) (rev pending) [] in
  (selected st, match pending with [] => false | _ => true end).

Definition possible_next_bindings_for_input self (input : list Keystroke) (contexts : list KeyContext)
    : list KeyBinding :=
  let pending := List.filter (fun p => snd p && negb (is_no_action (action (binding (fst p))))
                                       && negb (is_unbind (action (binding (fst p)))))
                   (enabled_matches self input contexts) in
  map binding (sort_ranked (map fst pending)).
End Keymap.
Arguments KeyBinding A : clear implicits.
Arguments Keymap A : clear implicits.
Arguments candidate A : clear implicits.
Arguments selecting A : clear implicits.
