(* ===== verification/KeymapSpec.v ===== *)
(** * What the keymap promises *)

From S2P Require Import Prelude KeyContext Keymap.
From stdpp Require Import strings.
Local Open Scope nat_scope.

Section Spec.
Context {A : Type} `{HA : !Action A}.
Implicit Types (b : KeyBinding A) (self : Keymap A) (c : candidate A).

Definition disabling b : bool := is_no_action (action b) || is_unbind (action b).

(** ** The indices *)
Definition indexed (l : list (KeyBinding A)) : list (nat * KeyBinding A) := imap pair l.
Definition positions (P : KeyBinding A -> bool) (l : list (KeyBinding A)) : list nat :=
  map fst (List.filter (fun p => P (snd p)) (indexed l)).

Record keymap_ok self : Prop := {
  disabled_ok : disabled_binding_indices self = positions disabling (bindings self);
  actions_ok t : default [] (binding_indices_by_action_id self !! t)
                 = positions (fun b => negb (disabling b) && (type_id (action b) =? t)%Z) (bindings self);
}.

Lemma indexed_In i b l : In (i, b) (indexed l) <-> l !! i = Some b.
Proof.
  rewrite <-list_elem_of_In. unfold indexed. rewrite elem_of_lookup_imap. split.
  - by intros (j & x & [= -> ->] & H).
  - intros H. by exists i, b.
Qed.

Lemma indexed_snoc l b : indexed (l ++ [b]) = indexed l ++ [(length l, b)].
Proof. unfold indexed. rewrite imap_app. simpl. by rewrite Nat.add_0_r. Qed.

Lemma positions_snoc P l b :
  positions P (l ++ [b]) = positions P l ++ (if P b then [length l] else []).
Proof.
  unfold positions. rewrite indexed_snoc, List.filter_app, map_app. simpl. by destruct (P b).
Qed.

Lemma add_binding_ok self b :
  keymap_ok self -> keymap_ok (add_binding self b) /\ bindings (add_binding self b) = bindings self ++ [b].
Proof.
  destruct self as [bs by_action ds v]. intros [Hd Ha]. unfold add_binding. cbn [bindings] in *.
  cbn [disabled_binding_indices binding_indices_by_action_id] in *. fold (disabling b).
  destruct (disabling b) eqn:E; (split; [|done]); split;
    cbn [disabled_binding_indices binding_indices_by_action_id bindings]; rewrite ?positions_snoc, ?E.
  - by rewrite Hd.
  - intros t. rewrite positions_snoc, E, Ha. cbn [negb andb]. by rewrite app_nil_r.
  - by rewrite Hd, app_nil_r.
  - intros t. rewrite positions_snoc, E. cbn [negb andb].
    destruct (Z.eqb_spec (type_id (action b)) t) as [<-|Hne].
    + rewrite lookup_insert_eq. cbn [default]. by rewrite Ha.
    + rewrite lookup_insert_ne, Ha by done. by rewrite app_nil_r.
Qed.

Lemma bump_ok self : keymap_ok self -> keymap_ok (bump_version self).
Proof. by intros [? ?]. Qed.

Lemma add_bindings_ok self new :
  keymap_ok self -> keymap_ok (add_bindings self new) /\ bindings (add_bindings self new) = bindings self ++ new.
Proof.
  intros Hk. unfold add_bindings.
  assert (H : keymap_ok (fold_left add_binding new self)
              /\ bindings (fold_left add_binding new self) = bindings self ++ new).
  { revert self Hk. induction new as [|b new IH]; intros self Hk; [by rewrite app_nil_r|].
    cbn [fold_left]. destruct (add_binding_ok self b Hk) as [H1 H2].
    destruct (IH _ H1) as [H3 H4]. split; [done|]. by rewrite H4, H2, <-app_assoc. }
  destruct H as [H1 H2]. split; [by apply bump_ok|done].
Qed.

Lemma empty_ok v : keymap_ok (mkKeymap (A:=A) [] ∅ [] v).
Proof. split; [done|]. intros t. cbn [binding_indices_by_action_id]. by rewrite lookup_empty. Qed.

(** ** The bindings of an action *)
Definition disables d b : bool :=
  bool_decide (keystrokes d = keystrokes b) && disabled_binding_matches_context d b
  && (is_no_action (action d) || is_unbind (action d) && binding_is_unbound d b).

Definition disabled_later (l : list (KeyBinding A)) (p : nat * KeyBinding A) : bool :=
  existsb (fun q => (fst p <? fst q) && disables (snd q) (snd p)) (indexed l).

Lemma not_disabled_ok self i b ds :
  (forall p, In p ds -> bindings self !! fst p = Some (snd p) /\ disabling (snd p) = true) ->
  not_disabled self i b (map fst ds)
  = Ret (negb (existsb (fun q => (i <? fst q) && disables (snd q) b) ds)).
Proof.
  induction ds as [|[j d] ds IH]; intros Hds; [done|]. cbn [map not_disabled existsb fst snd].
  specialize (IH (fun p Hp => Hds p (or_intror Hp))).
  destruct (Hds (j, d) ltac:(by left)) as [Hj Hdis]. cbn [fst snd] in *.
  destruct (i <? j); [|done]. rewrite (proj2 (index_Ret _ _ _) Hj). cbn [mbind res_bind andb].
  unfold disables. unfold disabling in Hdis.
  destruct (bool_decide (keystrokes d = keystrokes b)); cbn [negb andb]; [|done].
  destruct (is_no_action (action d)); cbn [orb andb].
  - destruct (disabled_binding_matches_context d b); cbn [andb orb]; [done|exact IH].
  - cbn [orb] in Hdis. rewrite Hdis. cbn [andb].
    destruct (disabled_binding_matches_context d b); cbn [andb orb]; [|exact IH].
    destruct (binding_is_unbound d b); [done|exact IH].
Qed.

Lemma existsb_filter {B} (f g : B -> bool) l :
  (forall x, f x = true -> g x = true) -> existsb f (List.filter g l) = existsb f l.
Proof.
  intros H. induction l as [|x l IH]; [done|]. simpl. destruct (g x) eqn:E; simpl; rewrite IH; [done|].
  destruct (f x) eqn:Ef; [|done]. apply H in Ef. congruence.
Qed.

Lemma not_disabled_all self i b :
  keymap_ok self ->
  not_disabled self i b (disabled_binding_indices self) = Ret (negb (disabled_later (bindings self) (i, b))).
Proof.
  intros [-> _]. unfold positions, disabled_later. rewrite not_disabled_ok.
  - do 2 f_equal. apply existsb_filter. intros [j d] [_ H]%andb_true_iff. unfold disables in H.
    apply andb_true_iff in H as [_ [H|[H _]%andb_true_iff]%orb_true_iff]; unfold disabling; cbn in *;
      rewrite H; [done|apply orb_true_r].
  - intros [j d] [Hin Hd]%filter_In. by apply indexed_In in Hin.
Qed.

Lemma filter_for_action_ok self a ps :
  keymap_ok self -> (forall p, In p ps -> bindings self !! fst p = Some (snd p)) ->
  filter_for_action self a (map fst ps)
  = Ret (map snd (List.filter (fun p => partial_eq (action (snd p)) a
                                        && negb (disabled_later (bindings self) p)) ps)).
Proof.
  intros Hk. induction ps as [|[i b] ps IH]; intros Hps; [done|].
  cbn [map filter_for_action fst snd List.filter].
  pose proof (Hps (i, b) ltac:(by left)) as Hi. cbn [fst snd] in Hi.
  rewrite (proj2 (index_Ret _ _ _) Hi). cbn [mbind res_bind].
  rewrite IH by (intros; apply Hps; by right).
  destruct (partial_eq (action b) a); cbn [negb andb mbind res_bind]; [|done].
  rewrite not_disabled_all by done. cbn [mbind res_bind mret res_ret].
  by destruct (disabled_later _ _).
Qed.

Lemma bindings_for_action_ok self a :
  keymap_ok self ->
  bindings_for_action self a
  = Ret (map snd (List.filter (fun p => negb (disabling (snd p)) && (type_id (action (snd p)) =? type_id a)%Z
                                 && partial_eq (action (snd p)) a
                                 && negb (disabled_later (bindings self) p)) (indexed (bindings self)))).
Proof.
  intros Hk. unfold bindings_for_action. rewrite (actions_ok self Hk). unfold positions.
  rewrite filter_for_action_ok; [|done|].
  - do 2 f_equal. induction (indexed (bindings self)) as [|p ps IH]; [done|]. cbn [List.filter].
    destruct (negb (disabling (snd p)) && (type_id (action (snd p)) =? type_id a)%Z) eqn:E;
      cbn [List.filter andb]; [|done]. destruct (partial_eq _ _ && _); [by f_equal|done].
  - intros [i b] [Hin _]%filter_In. by apply indexed_In in Hin.
Qed.

(** ** The matches of an input *)
Definition outranks c c' : Prop := rank_cmp c c' = Lt.

Lemma rank_lt c c' : outranks c c' <-> depth c' < depth c \/ (depth c = depth c' /\ ix c' < ix c).
Proof.
  unfold outranks, rank_cmp. destruct (Nat.compare_spec (depth c') (depth c)); [|split; [by left|done]|].
  - rewrite Nat.compare_lt_iff. lia.
  - split; [done|lia].
Qed.

Lemma rank_gt c c' : rank_cmp c c' = Gt <-> outranks c' c.
Proof.
  rewrite rank_lt. unfold rank_cmp. destruct (Nat.compare_spec (depth c') (depth c)).
  - rewrite Nat.compare_gt_iff. lia.
  - split; [done|lia].
  - split; [by left|done].
Qed.

Lemma rank_eq c c' : rank_cmp c c' = Eq -> ix c = ix c'.
Proof.
  unfold rank_cmp. destruct (Nat.compare_spec (depth c') (depth c)); try done.
  by intros ->%Nat.compare_eq_iff.
Qed.

#[local] Instance outranks_trans : Transitive outranks.
Proof. intros c1 c2 c3. rewrite !rank_lt. lia. Qed.

Lemma insert_ranked_perm c (l : list (candidate A)) : Permutation (insert_ranked c l) (c :: l).
Proof.
  induction l as [|d l IH]; [done|]. simpl. destruct (rank_cmp c d); [done..|]. rewrite IH. constructor.
Qed.

Lemma sort_ranked_perm (l : list (candidate A)) : Permutation (sort_ranked l) l.
Proof. induction l as [|c l IH]; [done|]. cbn. by rewrite insert_ranked_perm, IH. Qed.

Lemma insert_ranked_sorted c (l : list (candidate A)) :
  StronglySorted outranks l -> Forall (fun d => ix d <> ix c) l -> StronglySorted outranks (insert_ranked c l).
Proof.
  induction 1 as [|d l Hl IH Hd]; intros Hn; [by repeat constructor|].
  apply Forall_cons in Hn as [Hnd Hn]. simpl. destruct (rank_cmp c d) eqn:E.
  - apply rank_eq in E. congruence.
  - constructor; [by constructor|]. constructor; [done|].
    eapply Forall_impl; [exact Hd|]. intros e He. by transitivity d.
  - constructor; [by apply IH|]. rewrite insert_ranked_perm. constructor; [by apply rank_gt|done].
Qed.

Lemma sort_ranked_sorted (l : list (candidate A)) : NoDup (map ix l) -> StronglySorted outranks (sort_ranked l).
Proof.
  induction l as [|c l IH]; intros Hn; [constructor|]. apply NoDup_cons in Hn as [Hni Hn].
  apply insert_ranked_sorted; [by apply IH|]. rewrite sort_ranked_perm. apply Forall_forall.
  intros d Hd E. apply Hni. rewrite <-E. by apply (list_elem_of_fmap_2 ix).
Qed.

Definition matches_as self input contexts (pending : bool) c : Prop :=
  bindings self !! ix c = Some (binding c)
  /\ binding_enabled (binding c) contexts = Some (depth c)
  /\ match_keystrokes (binding c) input = Some pending.

Lemma enabled_matches_In self input contexts c pending :
  In (c, pending) (enabled_matches self input contexts) <-> matches_as self input contexts pending c.
Proof.
  rewrite <-list_elem_of_In. unfold enabled_matches. rewrite list_elem_of_omap. split.
  - intros ([i b] & Hin & E). apply list_elem_of_In, in_rev, indexed_In in Hin. cbn [fst snd] in E.
    destruct (binding_enabled b contexts) as [dp|] eqn:Ee; [|done].
    cbn [mbind option_bind] in E. destruct (match_keystrokes b input) as [pd|] eqn:Em; [|done].
    injection E as <- <-. done.
  - intros (Hl & He & Hm). exists (ix c, binding c). split.
    + apply list_elem_of_In. apply ->in_rev. by apply indexed_In.
    + cbn [fst snd]. rewrite He. cbn [mbind option_bind]. rewrite Hm. by destruct c.
Qed.

(** The last binding comes first. *)
Lemma enabled_matches_descending self input contexts :
  StronglySorted (fun p q => ix (fst q) < ix (fst p)) (enabled_matches self input contexts).
Proof.
  unfold enabled_matches. fold (indexed (bindings self)). generalize (bindings self). intros l.
  induction l as [|b l IH] using rev_ind; [constructor|].
  rewrite indexed_snoc, rev_unit. cbn [omap list_omap fst snd].
  destruct (binding_enabled b contexts) as [dp|]; [|done]. cbn [mbind option_bind].
  destruct (match_keystrokes b input) as [pd|]; [|done]. constructor; [done|].
  apply Forall_forall. intros [c q] Hin. apply list_elem_of_omap in Hin as ([i b'] & Hin & E).
  apply list_elem_of_In, in_rev, indexed_In, lookup_lt_Some in Hin. cbn [fst snd] in E.
  destruct (binding_enabled b' contexts); [|done]. cbn [mbind option_bind] in E.
  destruct (match_keystrokes b' input); [|done]. by injection E as <- <-.
Qed.

Lemma sorted_filter_map {B C} (R : C -> C -> Prop) (g : B -> C) (f : B -> bool) l :
  StronglySorted (fun p q => R (g p) (g q)) l -> StronglySorted R (map g (List.filter f l)).
Proof.
  induction 1 as [|x l Hl IH Hx]; [constructor|]. simpl. destruct (f x); [|done]. simpl.
  constructor; [done|]. apply Forall_forall. intros c Hc%list_elem_of_In.
  apply in_map_iff in Hc as (y & <- & [Hy _]%filter_In). rewrite Forall_forall in Hx.
  by apply Hx, list_elem_of_In.
Qed.

Definition matched self input contexts : list (candidate A) :=
  map fst (List.filter (fun p => negb (snd p)) (enabled_matches self input contexts)).
Definition pending_matches self input contexts : list (candidate A) :=
  map fst (List.filter snd (enabled_matches self input contexts)).

Lemma matched_In self input contexts c :
  In c (matched self input contexts) <-> matches_as self input contexts false c.
Proof.
  unfold matched. rewrite in_map_iff, <-enabled_matches_In. split.
  - intros ([c' p] & <- & [Hin Hp]%filter_In). by destruct p.
  - intros Hin. exists (c, false). split; [done|]. by apply filter_In.
Qed.

Lemma pending_In self input contexts c :
  In c (pending_matches self input contexts) <-> matches_as self input contexts true c.
Proof.
  unfold pending_matches. rewrite in_map_iff, <-enabled_matches_In. split.
  - intros ([c' p] & <- & [Hin Hp]%filter_In). by destruct p.
  - intros Hin. exists (c, true). split; [done|]. by apply filter_In.
Qed.

Lemma descending_distinct (l : list (candidate A)) :
  StronglySorted (fun c d => ix d < ix c) l -> NoDup (map ix l).
Proof.
  induction 1 as [|c l Hl IH Hc]; [constructor|]. apply NoDup_cons. split; [|done].
  intros (d & E & Hd)%list_elem_of_fmap. rewrite Forall_forall in Hc. specialize (Hc d Hd). lia.
Qed.

(** The matched bindings, the highest ranked first. *)
Definition ranked self input contexts : list (candidate A) := sort_ranked (matched self input contexts).

Lemma ranked_ok self input contexts :
  StronglySorted outranks (ranked self input contexts)
  /\ (forall c, In c (ranked self input contexts) <-> matches_as self input contexts false c).
Proof.
  split.
  - apply sort_ranked_sorted, descending_distinct.
    apply (sorted_filter_map (fun c d => ix d < ix c) fst). apply enabled_matches_descending.
  - intros c. rewrite <-matched_In, <-!list_elem_of_In. unfold ranked. by rewrite sort_ranked_perm.
Qed.

(** ** What is selected of them *)

(** A [NoAction] among the candidates [above] whose source is as strong. *)
Definition suppressed (above : list (candidate A)) c : bool :=
  existsb (fun n => is_no_action (action (binding n)) && (meta_of (binding n) <=? meta_of (binding c))%Z) above.

Definition outranks_b c c' : bool := match rank_cmp c c' with Lt => true | _ => false end.
Definition above (ms : list (candidate A)) c : list (candidate A) :=
  List.filter (fun c' => outranks_b c' c) ms.

(** An [Unbind] in force, and a binding that is returned. *)
Definition unbinds ms c : bool :=
  negb (is_no_action (action (binding c))) && is_unbind (action (binding c))
  && negb (suppressed (above ms c) c).
Definition returned ms c : bool :=
  negb (disabling (binding c)) && negb (suppressed (above ms c) c)
  && negb (existsb (fun u => unbinds ms u && binding_is_unbound (binding u) (binding c)) (above ms c)).

Lemma above_prefix pre c post : StronglySorted outranks (pre ++ c :: post) -> above (pre ++ c :: post) c = pre.
Proof.
  intros Hs. unfold above. rewrite List.filter_app. cbn [List.filter].
  assert (Hirr : forall d, outranks_b d d = false).
  { intros d. unfold outranks_b, rank_cmp. by rewrite !Nat.compare_refl. }
  rewrite Hirr. induction pre as [|d pre IH]; cbn [List.filter app] in *.
  - induction post as [|e post IHp]; [done|]. cbn [List.filter].
    apply StronglySorted_inv in Hs as [Hs Hc]. apply Forall_cons in Hc as [Hce Hc].
    assert (He : outranks_b e c = false).
    { unfold outranks_b. destruct (rank_cmp e c) eqn:E; [done| |done].
      pose proof (outranks_trans c e c Hce E) as H. apply rank_lt in H. lia. }
    rewrite He. apply IHp. apply StronglySorted_inv in Hs as [Hs _]. by constructor.
  - apply StronglySorted_inv in Hs as [Hs Hd]. rewrite Forall_forall in Hd.
    assert (Hdc : outranks d c) by (apply Hd, elem_of_app; right; left).
    unfold outranks_b at 1. rewrite Hdc. cbn [app]. f_equal. by apply IH.
Qed.

Definition first_index (ms : list (candidate A)) : option nat :=
  option_map ix (head (List.filter (returned ms) ms)).

(** The state of the loop after a prefix. *)
Definition selected_after ms pre (st : selecting A) : Prop :=
  selected st = map binding (List.filter (returned ms) pre)
  /\ first_binding_index st = option_map ix (head (List.filter (returned ms) pre))
  /\ unbound_bindings st = map binding (List.filter (unbinds ms) pre)
  /\ forall m, match no_action_meta st with Some n => (n <=? m)%Z | None => false end
               = existsb (fun n => is_no_action (action (binding n)) && (meta_of (binding n) <=? m)%Z) pre.

Lemma existsb_map {B C} (g : B -> C) (f : C -> bool) l : existsb f (map g l) = existsb (fun x => f (g x)) l.
Proof. induction l as [|x l IH]; [done|]. simpl. by rewrite IH. Qed.

Lemma existsb_filter_and {B} (f g : B -> bool) l :
  existsb f (List.filter g l) = existsb (fun x => g x && f x) l.
Proof. induction l as [|x l IH]; [done|]. simpl. destruct (g x); simpl; by rewrite IH. Qed.

Lemma head_snoc_filter (f : candidate A -> bool) pre c :
  head (List.filter f (pre ++ [c]))
  = match head (List.filter f pre) with Some x => Some x | None => if f c then Some c else None end.
Proof.
  rewrite List.filter_app. destruct (List.filter f pre); [|done]. simpl. by destruct (f c).
Qed.

Lemma select_step_ok ms pre c post st :
  StronglySorted outranks ms -> ms = pre ++ c :: post -> selected_after ms pre st ->
  selected_after ms (pre ++ [c]) (select_step st c).
Proof.
  intros Hs Hms (Hsel & Hfirst & Hun & Hno).
  assert (Ha : above ms c = pre) by (rewrite Hms in *; by apply above_prefix).
  assert (Hsup : suppressed (above ms c) c
                 = match no_action_meta st with Some n => (n <=? meta_of (binding c))%Z | None => false end)
    by (rewrite Ha, Hno; done).
  assert (Hub : existsb (fun u => unbinds ms u && binding_is_unbound (binding u) (binding c)) (above ms c)
                = existsb (fun disabled => binding_is_unbound disabled (binding c)) (unbound_bindings st))
    by (rewrite Ha, Hun, existsb_map, existsb_filter_and; done).
  assert (Er : returned ms c = negb (disabling (binding c)) && negb (suppressed (above ms c) c)
    && negb (existsb (fun u => unbinds ms u && binding_is_unbound (binding u) (binding c)) (above ms c)))
    by done.
  assert (Eu : unbinds ms c = negb (is_no_action (action (binding c))) && is_unbind (action (binding c))
    && negb (suppressed (above ms c) c)) by done.
  rewrite Hsup in *. rewrite Hub in Er. unfold disabling in Er. clear Hsup Hub Ha.
  unfold selected_after. rewrite !head_snoc_filter, !List.filter_app, !map_app. cbn [List.filter map].
  destruct st as [sel first unb na]. cbn [selected first_binding_index unbound_bindings no_action_meta] in *.
  unfold select_step. destruct (is_no_action (action (binding c))) eqn:En; cbn [negb orb andb] in *.
  { rewrite Er, Eu, !app_nil_r. cbn. split_and!; [done|by rewrite Hfirst; destruct (head _)|done|].
    intros m. rewrite existsb_app, <-Hno. cbn. rewrite En. cbn [andb].
    destruct na as [n|]; [|by rewrite orb_false_r].
    destruct (Z.leb_spec (Z.min n (meta_of (binding c))) m), (Z.leb_spec n m),
      (Z.leb_spec (meta_of (binding c)) m); simpl; try done; lia. }
  assert (Hno' : forall m, match na with Some n => (n <=? m)%Z | None => false end
    = existsb (fun n => is_no_action (action (binding n)) && (meta_of (binding n) <=? m)%Z) (pre ++ [c])).
  { intros m. rewrite existsb_app, <-Hno. cbn. rewrite En. cbn. by rewrite orb_false_r. }
  destruct (match na with Some n => (n <=? meta_of (binding c))%Z | None => false end); cbn [negb andb] in *.
  { rewrite andb_false_r in Er, Eu. cbn [andb] in Er. rewrite Er, Eu, !app_nil_r.
    split_and!; [done|by rewrite Hfirst; destruct (head _)|done|exact Hno']. }
  destruct (is_unbind (action (binding c))); cbn [negb andb] in *.
  { rewrite Er, Eu, app_nil_r. cbn. split_and!; [done|by rewrite Hfirst; destruct (head _)|by rewrite Hun|exact Hno']. }
  rewrite Eu, app_nil_r.
  destruct (existsb (fun disabled => binding_is_unbound disabled (binding c)) unb); cbn [negb] in *; rewrite Er.
  - rewrite app_nil_r. split_and!; [done|by rewrite Hfirst; destruct (head _)|done|exact Hno'].
  - cbn. split_and!; [by rewrite Hsel| |done|exact Hno']. rewrite Hfirst. by destruct (head _).
Qed.

Lemma select_ok ms :
  StronglySorted outranks ms ->
  selected_after ms ms (fold_left select_step ms (mkSelecting [] None [] None)).
Proof.
  intros Hs. enough (H : forall post pre st, ms = pre ++ post -> selected_after ms pre st ->
    selected_after ms ms (fold_left select_step post st)).
  { apply (H ms []); [done|]. by split_and!. }
  induction post as [|c post IH]; intros pre st Hms Hst; [rewrite app_nil_r in Hms; by subst|].
  cbn [fold_left]. apply (IH (pre ++ [c])); [by rewrite <-app_assoc|]. by apply (select_step_ok ms pre c post).
Qed.

(** ** Waiting for more input *)
Definition considered (first : option nat) c : bool :=
  match first with Some i => i <=? ix c | None => true end.

Lemma pending_step_ok first l acc ks :
  In ks (fold_left (pending_step first) l acc)
  <-> (exists pre c post, l = pre ++ c :: post /\ considered first c = true
         /\ disabling (binding c) = false /\ keystrokes (binding c) = ks
         /\ forall d, In d post -> considered first d = true -> disabling (binding d) = true ->
              keystrokes (binding d) <> ks)
      \/ (In ks acc /\ forall d, In d l -> considered first d = true -> disabling (binding d) = true ->
            keystrokes (binding d) <> ks).
Proof.
  revert acc. induction l as [|c l IH]; intros acc.
  - cbn. split; [by intros H; right|]. intros [(pre & c & post & E & _)|[H _]]; [by destruct pre|done].
  - cbn [fold_left]. rewrite IH. clear IH. unfold pending_step at 1.
    assert (Hc : match first with Some i => ix c <? i | None => false end = negb (considered first c)).
    { unfold considered. destruct first as [i|]; [|done]. by rewrite Nat.ltb_antisym. }
    rewrite Hc. fold (disabling (binding c)). split.
    + intros [(pre & e & post & -> & H)|[Hin Hl]]; [left; by exists (c :: pre), e, post|].
      destruct (considered first c) eqn:Ec; cbn [negb] in Hin;
        [destruct (disabling (binding c)) eqn:Ed|].
      * apply filter_In in Hin as [Hin Hne%negb_true_iff%bool_decide_eq_false]. right. split; [done|].
        intros d [<-|Hd]; [by intros _ _ E|by apply Hl].
      * destruct Hin as [<-|Hin].
        { left. exists [], c, l. by split_and!. }
        right. split; [done|]. intros d [<-|Hd]; [by rewrite Ed|by apply Hl].
      * right. split; [done|]. intros d [<-|Hd]; [by rewrite Ec|by apply Hl].
    + intros [(pre & e & post & E & Hce & Hde & Hk & Hpost)|[Hin Hl]].
      * destruct pre as [|c' pre]; injection E as <- ->.
        { right. rewrite Hce, Hde. cbn [negb]. split; [by left|done]. }
        left. by exists pre, e, post.
      * right. split; [|intros d Hd; apply Hl; by right].
        destruct (considered first c) eqn:Ec; cbn [negb]; [|done].
        destruct (disabling (binding c)) eqn:Ed; [|by right]. apply filter_In. split; [done|].
        apply negb_true_iff, bool_decide_eq_false. intros ->. by apply (Hl c ltac:(by left)).
Qed.

(** In a list of decreasing indices, reversed, what comes later has a greater one. *)
Lemma reversed_later (l pre post : list (candidate A)) c :
  StronglySorted (fun c d => ix d < ix c) l -> rev l = pre ++ c :: post ->
  forall d, In d post <-> In d (rev l) /\ ix c < ix d.
Proof.
  intros Hdesc E d. apply (f_equal (@rev _)) in E.
  rewrite rev_involutive, rev_app_distr in E. cbn [rev] in E. rewrite <-in_rev, E in *.
  rewrite <-app_assoc in *. cbn [app] in *.
  rewrite in_app_iff. cbn [In]. rewrite (in_rev post). clear -Hdesc.
  induction (rev post) as [|e es IH]; cbn [app In] in *.
  - apply StronglySorted_inv in Hdesc as [_ Hc]. rewrite Forall_forall in Hc. split; [done|].
    intros [[[]|[<-|Hd]] Hlt]; [lia|]. apply list_elem_of_In in Hd. specialize (Hc d Hd). lia.
  - apply StronglySorted_inv in Hdesc as [Hs He]. specialize (IH Hs). rewrite Forall_forall in He.
    assert (Hec : ix c < ix e) by (apply He, elem_of_app; right; left). split.
    + intros [<-|Hd]; [split; [by left; left|done]|]. apply IH in Hd as [[Hd|Hd] Hlt]; tauto.
    + intros [[[<-|Hd]|Hd] Hlt]; [by left|right; apply IH; tauto..].
Qed.

Lemma pending_ok self input contexts first :
  (match fold_left (pending_step first) (rev (pending_matches self input contexts)) [] with
   | [] => false | _ => true end) = true
  <-> exists c, matches_as self input contexts true c /\ considered first c = true
        /\ disabling (binding c) = false
        /\ forall d, matches_as self input contexts true d -> ix c < ix d ->
             disabling (binding d) = true -> keystrokes (binding d) <> keystrokes (binding c).
Proof.
  set (l := rev (pending_matches self input contexts)).
  assert (Hin : forall c, In c l <-> matches_as self input contexts true c)
    by (intros c; unfold l; rewrite <-in_rev; apply pending_In).
  assert (Hdesc : StronglySorted (fun c d : candidate A => ix d < ix c) (pending_matches self input contexts))
    by (apply (sorted_filter_map (fun c d => ix d < ix c) fst); apply enabled_matches_descending).
  assert (Hord : forall pre c post, l = pre ++ c :: post ->
    (forall d, In d post <-> In d l /\ ix c < ix d)) by (intros pre c post; by apply reversed_later).
  assert (Hne : (match fold_left (pending_step first) l [] with [] => false | _ => true end) = true
                <-> exists ks, In ks (fold_left (pending_step first) l [])).
  { destruct (fold_left _ l []) as [|ks kss]; [split; [done|by intros (ks & [])]|].
    split; [intros _; exists ks; by left|done]. }
  rewrite Hne. split.
  - intros (ks & [(pre & c & post & E & Hc & Hd & Hk & Hpost)|[[] _]]%pending_step_ok).
    exists c. split_and!; [|done|done|].
    + apply Hin. rewrite E. apply in_or_app. right. by left.
    + intros d Hmd Hlt Hdd. rewrite Hk. apply Hpost; [|unfold considered in *; case_match; [|done]|done].
      * apply (Hord pre c post E). split; [by apply Hin|done].
      * apply Nat.leb_le in Hc. apply Nat.leb_le. lia.
  - intros (c & Hm & Hc & Hd & Hlater). exists (keystrokes (binding c)). apply pending_step_ok. left.
    apply Hin, in_split in Hm as (pre & post & E). exists pre, c, post. split_and!; try done.
    intros d Hpd _ Hdd. apply (Hord pre c post E) in Hpd as [Hdl Hlt].
    apply Hlater; [by apply Hin|done|done].
Qed.

(** The keymap's indices are always those of its bindings: in a new keymap and
    after every addition and clearing, the disabling entries and the entries of each
    action are indexed in order, so looking bindings up by action never indexes out
    of bounds, and gives in order the bindings of an equal action that no later
    [NoAction] or matching [Unbind] on the same keystrokes disables in a context at
    least as wide. *)
Theorem keymap_index_spec :
  keymap_ok (default_keymap (A:=A))
  /\ (forall self new, keymap_ok self ->
        keymap_ok (add_bindings self new) /\ bindings (add_bindings self new) = bindings self ++ new)
  /\ (forall self, keymap_ok (clear self) /\ bindings (clear self) = [])
  /\ (forall self a, keymap_ok self ->
        bindings_for_action self a
        = Ret (map snd (List.filter
            (fun p => negb (disabling (snd p)) && (type_id (action (snd p)) =? type_id a)%Z
                      && partial_eq (action (snd p)) a && negb (disabled_later (bindings self) p))
            (indexed (bindings self))))).
Proof.
  split_and!; [apply empty_ok|intros; by apply add_bindings_ok| |intros; by apply bindings_for_action_ok].
  intros self. split; [apply bump_ok, empty_ok|done].
Qed.

(** C32. The bindings of an input are ranked and suppressed as documented: the
    candidates are the enabled bindings that match the whole input, by depth and then
    by age, the latest first; returned, in that order, is each one that is no
    [NoAction] or [Unbind] itself and is outranked neither by a [NoAction] from a
    source at least as strong nor by an [Unbind] of it that is in force.  More input is
    awaited exactly when a longer enabled binding matches, added after the first
    returned one, and no later [NoAction] or [Unbind] is on its keystrokes. *)
Theorem bindings_for_input_spec self input contexts :
  let ms := ranked self input contexts in
  StronglySorted outranks ms
  /\ (forall c, In c ms <-> matches_as self input contexts false c)
  /\ fst (bindings_for_input self input contexts) = map binding (List.filter (returned ms) ms)
  /\ (snd (bindings_for_input self input contexts) = true
      <-> exists c, matches_as self input contexts true c /\ considered (first_index ms) c = true
            /\ disabling (binding c) = false
            /\ forall d, matches_as self input contexts true d -> ix c < ix d ->
                 disabling (binding d) = true -> keystrokes (binding d) <> keystrokes (binding c)).
Proof.
  intros ms. destruct (ranked_ok self input contexts) as [Hs Hin]. fold ms in Hs, Hin.
  destruct (select_ok ms Hs) as (Hsel & Hfirst & _). split_and!; [done|done|exact Hsel|].
  unfold bindings_for_input. cbn [snd]. fold (matched self input contexts).
  fold (pending_matches self input contexts). fold (ranked self input contexts). fold ms.
  rewrite Hfirst. apply pending_ok.
Qed.
End Spec.

(** ** Samples *)
Module Samples.
(** Actions of one type each: their name and their data. *)
Inductive act := NoAction | Unbind (name : str) | Act (ty data : Z).
#[export] Instance act_action : Action act := {
  type_id a := match a with NoAction => 0 | Unbind _ => 1 | Act ty _ => 2 + Z.abs ty end%Z;
  action_name a := match a with NoAction => lit "NoAction" | Unbind _ => lit "Unbind" | Act ty _ => [ty] end;
  partial_eq a b := match a, b with
                    | Act ty d, Act ty' d' => (ty =? ty')%Z && (d =? d')%Z
                    | NoAction, NoAction => true
                    | Unbind n, Unbind n' => bool_decide (n = n')
                    | _, _ => false
                    end;
  is_no_action a := match a with NoAction => true | _ => false end;
  as_unbind a := match a with Unbind n => Some n | _ => None end;
}.

Definition ctrl (k : String.string) : Keystroke :=
  mkKeystroke (mkModifiers true false false false false) (lit k) None.
Definition bind (a : act) (ks : list Keystroke) (context : option Predicate) : KeyBinding act :=
  mkBinding a ks context None.
Definition editor : list KeyContext := [[mkEntry (lit "pane") None]; [mkEntry (lit "editor") None]].

Definition keymap : Keymap act :=
  keymap_new [bind (Act 1 0) [ctrl "a"] (Some (Identifier (lit "editor")));
              bind (Act 2 0) [ctrl "a"] (Some (Identifier (lit "pane")));
              bind (Act 1 0) [ctrl "b"] None;
              bind NoAction [ctrl "b"] None].
End Samples.
Import Samples.

Lemma keymap_index_spec_witness :
  keymap_ok keymap
  /\ bindings_for_action keymap (Act 1 0) = Ret [bind (Act 1 0) [ctrl "a"] (Some (Identifier (lit "editor")))].
Proof.
  destruct (keymap_index_spec (A:=act)) as (Hnew & Hadd & _ & Hfor).
  assert (Hk : keymap_ok keymap) by apply (Hadd _ _ Hnew).
  split; [exact Hk|]. rewrite (Hfor _ _ Hk). vm_compute. reflexivity.
Defined.

(** The deeper binding comes first, though it was added before. *)
Lemma depth_before_age :
  map action (fst (bindings_for_input keymap [ctrl "a"] editor)) = [Act 1 0; Act 2 0].
Proof. vm_compute. reflexivity. Qed.

(** Waiting for more input is given up for an [Unbind] of another action: the longer
    binding stays, but the input that leads to it is not waited for. *)
Lemma unbind_stops_waiting :
  let longer := [ctrl "a"; ctrl "b"] in
  let keymap := keymap_new [bind (Act 1 0) longer None; bind (Unbind (lit "other")) longer None] in
  map action (fst (bindings_for_input keymap longer editor)) = [Act 1 0]
  /\ bindings_for_input keymap [ctrl "a"] editor = ([], false).
Proof. split; vm_compute; reflexivity. Qed.
