(* ===== verification/History.v ===== *)
(** * The history of a buffer ([History] in [crates/text/src/text.rs])

    Transactions on an undo and a redo stack, and their grouping in time.  The
    text the buffer started with, which the history also holds, is left out. *)

From S2P Require Import Prelude Clock SumTree KeyedTree TreeMap UndoMap.
Local Open Scope nat_scope.

Notation TransactionId := Stamp.

Record Transaction := mkTransaction { id : TransactionId; edit_ids : list Stamp; start : Global.t }.

(** An [Instant] is a number of nanoseconds, as is a [Duration]. *)
Record HistoryEntry := mkHistoryEntry {
  transaction : Transaction;
  first_edit_at : Z;
  last_edit_at : Z;
  suppress_grouping : bool;
}.

Record EditOperation := mkEditOperation {
  edit_timestamp : Stamp;
  edit_version : Global.t;
  ranges : list (Z * Z);
  new_text : list (list Z);
}.
Inductive Operation := EditOp (edit : EditOperation) | UndoOp (undo : UndoOperation).
Definition op_timestamp (op : Operation) : Stamp :=
  match op with EditOp edit => edit_timestamp edit | UndoOp undo => timestamp undo end.

(** The top of a stack is its end. *)
Record History := mkHistory {
  operations : TreeMap Stamp Operation;
  undo_stack : list HistoryEntry;
  redo_stack : list HistoryEntry;
  transaction_depth : nat;
  group_interval : Z;
}.
Implicit Types (self : History) (entry : HistoryEntry).

Definition transaction_id entry : TransactionId := id (transaction entry).

Definition with_transaction (f : Transaction -> Transaction) entry : HistoryEntry :=
  mkHistoryEntry (f (transaction entry)) (first_edit_at entry) (last_edit_at entry) (suppress_grouping entry).
Definition push_edit_ids (ids : list Stamp) (t : Transaction) : Transaction :=
  mkTransaction (id t) (edit_ids t ++ ids) (start t).
Definition with_last_edit_at (now : Z) entry : HistoryEntry :=
  mkHistoryEntry (transaction entry) (first_edit_at entry) now (suppress_grouping entry).

Definition with_stacks self (undo redo : list HistoryEntry) : History :=
  mkHistory (operations self) undo redo (transaction_depth self) (group_interval self).
Definition with_depth self (depth : nat) : History :=
  mkHistory (operations self) (undo_stack self) (redo_stack self) depth (group_interval self).

(** [Clock::tick] on timestamps at their width. *)
Lemma tick_fits (clock : Stamp) : fits (snd (Lamport.tick (lamport clock))) = true.
Proof.
  destruct clock as [[v r] H]. unfold fits in *. cbn in *.
  rewrite !andb_true_iff, !Z.leb_le in *. unfold wrap_u32.
  pose proof (Z.mod_pos_bound (v + 1) (2 ^ 32) ltac:(lia)). unfold U32_MAX, U16_MAX in *. lia.
Qed.
Definition tick (clock : Stamp) : Stamp * Stamp :=
  (clock, mkStamp (snd (Lamport.tick (lamport clock))) (tick_fits clock)).

(** [History::new]; the interval is [300] milliseconds, and zero in tests. *)
Definition history_new (group_interval : Z) : History := mkHistory new [] [] 0 group_interval.

Definition push self (op : Operation) : res History :=
  operations ← map_insert (operations self) (op_timestamp op) op;
  mret (mkHistory operations (undo_stack self) (redo_stack self) (transaction_depth self)
          (group_interval self)).

Definition new_entry (t : Transaction) (now : Z) : HistoryEntry := mkHistoryEntry t now now false.

Definition start_transaction self (start : Global.t) (now : Z) (clock : Stamp)
    : option TransactionId * History * Stamp :=
  let self := with_depth self (transaction_depth self + 1) in
  if transaction_depth self =? 1 then
    let '(id, clock) := tick clock in
    (Some id,
     with_stacks self (undo_stack self ++ [new_entry (mkTransaction id [] start) now]) (redo_stack self),
     clock)
  else (None, self, clock).

(** [assert_eq!(self.transaction_depth, 0)] and [assert_ne!]. *)
Definition assert_idle self : res unit := if transaction_depth self =? 0 then Ret tt else Panic.
Definition assert_open self : res unit := if transaction_depth self =? 0 then Panic else Ret tt.

Definition end_transaction self (now : Z) : res (option HistoryEntry * History) :=
  _ ← assert_open self;
  let self := with_depth self (transaction_depth self - 1) in
  if transaction_depth self =? 0 then
    match last (undo_stack self) with
    | None => Panic
    | Some entry =>
        match edit_ids (transaction entry) with
        | [] => mret (None, with_stacks self (removelast (undo_stack self)) (redo_stack self))
        | _ =>
            let entry := with_last_edit_at now entry in
            mret (Some entry, with_stacks self (removelast (undo_stack self) ++ [entry]) [])
        end
    end
  else mret (None, self).

(** [group_trailing]: the last [n] entries are merged into the one before. *)
Definition group_trailing self (n : nat) : res (option TransactionId * History) :=
  if length (undo_stack self) <? n then Panic
  else
    let new_len := length (undo_stack self) - n in
    let to_keep := take new_len (undo_stack self) in
    let to_merge := drop new_len (undo_stack self) in
    let kept := match last to_keep with
                | Some last_entry =>
                    let last_entry := with_transaction
                      (push_edit_ids (flat_map (fun e => edit_ids (transaction e)) to_merge)) last_entry in
                    let last_entry := match last to_merge with
                                      | Some entry => with_last_edit_at (last_edit_at entry) last_entry
                                      | None => last_entry
                                      end in
                    removelast to_keep ++ [last_entry]
                | None => to_keep
                end in
    mret (transaction_id <$> last kept, with_stacks self kept (redo_stack self)).

(** The entries that follow one another closely, from the last one down. *)
Fixpoint group_count (interval : Z) entry (below : list HistoryEntry) : nat :=
  match below with
  | prev_entry :: below =>
      if negb (suppress_grouping prev_entry)
         && (saturating_sub (first_edit_at entry) (last_edit_at prev_entry) <? interval)%Z
      then S (group_count interval prev_entry below)
      else 0
  | [] => 0
  end.

Definition group self : res (option TransactionId * History) :=
  group_trailing self match rev (undo_stack self) with
                      | entry :: below => group_count (group_interval self) entry below
                      | [] => 0
                      end.

(** The number of entries above the transaction, unless one of them is final. *)
Fixpoint count_until (t : TransactionId) (entries : list HistoryEntry) : option nat :=
  match entries with
  | [] => None
  | entry :: entries =>
      if bool_decide (transaction_id entry = t) then Some 0
      else if suppress_grouping entry then None
      else S <$> count_until t entries
  end.

Definition group_until self (t : TransactionId) : res History :=
  match count_until t (rev (undo_stack self)) with
  | Some count => snd <$> group_trailing self count
  | None => Ret self
  end.

Definition finalize_last_transaction self : option Transaction * History :=
  match last (undo_stack self) with
  | Some entry =>
      let entry := mkHistoryEntry (transaction entry) (first_edit_at entry) (last_edit_at entry) true in
      (Some (transaction entry), with_stacks self (removelast (undo_stack self) ++ [entry]) (redo_stack self))
  | None => (None, self)
  end.

Definition push_transaction self (t : Transaction) (now : Z) : res History :=
  _ ← assert_idle self;
  mret (with_stacks self (undo_stack self ++ [new_entry t now]) (redo_stack self)).

Definition push_empty_transaction self (start : Global.t) (now : Z) (clock : Stamp)
    : res (TransactionId * History * Stamp) :=
  _ ← assert_idle self;
  let '(id, clock) := tick clock in
  mret (id, with_stacks self (undo_stack self ++ [new_entry (mkTransaction id [] start) now]) (redo_stack self),
        clock).

Definition push_undo self (op_id : Stamp) : res History :=
  _ ← assert_open self;
  match map_get (operations self) op_id with
  | Some (EditOp _) =>
      match last (undo_stack self) with
      | Some entry =>
          mret (with_stacks self
                  (removelast (undo_stack self) ++ [with_transaction (push_edit_ids [op_id]) entry])
                  (redo_stack self))
      | None => Panic
      end
  | _ => mret self
  end.

(** [pop] of one stack, [push] on the other. *)
Definition pop_undo self : res (option HistoryEntry * History) :=
  _ ← assert_idle self;
  match vec_pop (undo_stack self) with
  | (Some entry, undo) => mret (Some entry, with_stacks self undo (redo_stack self ++ [entry]))
  | (None, _) => mret (None, self)
  end.
Definition pop_redo self : res (option HistoryEntry * History) :=
  _ ← assert_idle self;
  match vec_pop (redo_stack self) with
  | (Some entry, redo) => mret (Some entry, with_stacks self (undo_stack self ++ [entry]) redo)
  | (None, _) => mret (None, self)
  end.

(** [rposition]: the last index with the transaction. *)
Fixpoint rposition (t : TransactionId) (entries : list HistoryEntry) : option nat :=
  match entries with
  | [] => None
  | entry :: entries =>
      match rposition t entries with
      | Some i => Some (S i)
      | None => if bool_decide (transaction_id entry = t) then Some 0 else None
      end
  end.

Definition remove_from_undo self (t : TransactionId) : res (option HistoryEntry * History) :=
  _ ← assert_idle self;
  match rposition t (undo_stack self) with
  | Some ix =>
      entry ← index (undo_stack self) ix;
      undo ← vec_remove ix (undo_stack self);
      mret (Some entry, with_stacks self undo (redo_stack self ++ [entry]))
  | None => mret (None, self)
  end.

Definition remove_from_undo_until self (t : TransactionId) : res (list HistoryEntry * History) :=
  _ ← assert_idle self;
  match rposition t (undo_stack self) with
  | Some ix =>
      let moved := rev (drop ix (undo_stack self)) in
      mret (moved, with_stacks self (take ix (undo_stack self)) (redo_stack self ++ moved))
  | None => mret ([], self)
  end.
Definition remove_from_redo self (t : TransactionId) : res (list HistoryEntry * History) :=
  _ ← assert_idle self;
  match rposition t (redo_stack self) with
  | Some ix =>
      let moved := rev (drop ix (redo_stack self)) in
      mret (moved, with_stacks self (undo_stack self ++ moved) (take ix (redo_stack self)))
  | None => mret ([], self)
  end.

Definition forget self (t : TransactionId) : res (option Transaction * History) :=
  _ ← assert_idle self;
  match rposition t (undo_stack self) with
  | Some ix =>
      entry ← index (undo_stack self) ix;
      undo ← vec_remove ix (undo_stack self);
      mret (Some (transaction entry), with_stacks self undo (redo_stack self))
  | None =>
      match rposition t (redo_stack self) with
      | Some ix =>
          entry ← index (redo_stack self) ix;
          redo ← vec_remove ix (redo_stack self);
          mret (Some (transaction entry), with_stacks self (undo_stack self) redo)
      | None => mret (None, self)
      end
  end.

Definition get_transaction self (t : TransactionId) : option Transaction :=
  match rposition t (undo_stack self) with
  | Some ix => transaction <$> undo_stack self !! ix
  | None => match rposition t (redo_stack self) with
            | Some ix => transaction <$> redo_stack self !! ix
            | None => None
            end
  end.

(** Updating through [transaction_mut]; [None] when there is no such transaction. *)
Definition update_transaction (f : Transaction -> Transaction) self (t : TransactionId) : option History :=
  match rposition t (undo_stack self) with
  | Some ix => Some (with_stacks self (alter (with_transaction f) ix (undo_stack self)) (redo_stack self))
  | None => match rposition t (redo_stack self) with
            | Some ix => Some (with_stacks self (undo_stack self) (alter (with_transaction f) ix (redo_stack self)))
            | None => None
            end
  end.

Definition merge_transactions self (t destination : TransactionId) : res History :=
  r ← forget self t;
  mret match fst r with
       | Some t => default (snd r) (update_transaction (push_edit_ids (edit_ids t)) (snd r) destination)
       | None => snd r
       end.
