(* ===== verification/HistorySpec.v ===== *)
(** * What the history promises

    Grouping keeps every edit in order; the stacks never panic but on the asserted
    conditions; no edit is in two transactions; moving between the stacks and back
    is the identity. *)

From S2P Require Import Prelude Clock SumTree SumTreeInvariant SumCursor KeyedTree.
From S2P Require Import TreeMap TreeMapSpec UndoMap UndoMapSpec History.
Local Open Scope nat_scope.

Implicit Types (self : History) (entry : HistoryEntry) (stack : list HistoryEntry).
Implicit Types (t : TransactionId).

Notation ids_of entry := (edit_ids (transaction entry)).
Definition edits stack : list Stamp := flat_map (fun entry => ids_of entry) stack.

Lemma edits_app stack stack' : edits (stack ++ stack') = edits stack ++ edits stack'.
Proof. apply flat_map_app. Qed.

Lemma with_stacks_same self : with_stacks self (undo_stack self) (redo_stack self) = self.
Proof. by destruct self. Qed.

Lemma idle_ok self : transaction_depth self = 0 -> assert_idle self = Ret tt.
Proof. unfold assert_idle. by intros ->. Qed.
Lemma open_ok self : transaction_depth self <> 0 -> assert_open self = Ret tt.
Proof. unfold assert_open. intros ?%Nat.eqb_neq. by case_match. Qed.

(** ** Grouping *)

(** An entry that follows the one before it within the interval. *)
Definition joins (interval : Z) (prev_entry : HistoryEntry) entry : bool :=
  negb (suppress_grouping prev_entry)
  && (saturating_sub (first_edit_at entry) (last_edit_at prev_entry) <? interval)%Z.

Fixpoint chained (interval : Z) stack : Prop :=
  match stack with
  | e :: ((e' :: _) as stack) => joins interval e e' = true /\ chained interval stack
  | _ => True
  end.

(** An entry that took in the ones after it. *)
Definition merged entry stack : HistoryEntry :=
  mkHistoryEntry (push_edit_ids (edits stack) (transaction entry)) (first_edit_at entry)
    (default (last_edit_at entry) (last_edit_at <$> last stack)) (suppress_grouping entry).

Lemma merged_edits entry stack : edits [merged entry stack] = edits (entry :: stack).
Proof. unfold edits. simpl. by rewrite app_nil_r. Qed.

Lemma chained_snoc i stack p x :
  chained i (stack ++ [p]) -> joins i p x = true -> chained i ((stack ++ [p]) ++ [x]).
Proof.
  induction stack as [|e stack IH]; [done|]. intros Hc Hj.
  destruct stack as [|e' stack]; cbn [app chained] in *; [tauto|].
  destruct Hc as [? Hc]. split; [done|]. by apply IH.
Qed.

Lemma group_trailing_ok self keep entry stack :
  undo_stack self = keep ++ entry :: stack ->
  group_trailing self (length stack)
  = Ret (Some (transaction_id entry), with_stacks self (keep ++ [merged entry stack]) (redo_stack self)).
Proof.
  intros E. unfold group_trailing. cbv zeta.
  assert (El : length (undo_stack self) - length stack = length (keep ++ [entry])).
  { rewrite E, !length_app. simpl. lia. }
  rewrite (proj2 (Nat.ltb_ge _ _)) by (rewrite E, length_app; simpl; lia).
  rewrite El, E, (cons_middle entry keep stack), app_assoc, take_app_length, drop_app_length.
  rewrite last_snoc, removelast_last.
  unfold merged. destruct (last stack) as [x|]; simpl; rewrite last_snoc; reflexivity.
Qed.

Lemma group_count_ok i below entry :
  exists up down, below = up ++ down /\ group_count i entry below = length up
    /\ chained i (rev up ++ [entry])
    /\ forall p first, head down = Some p -> head (rev up ++ [entry]) = Some first ->
         joins i p first = false.
Proof.
  revert entry. induction below as [|p below IH]; intros entry; [by exists [], []|].
  cbn [group_count]. fold (joins i p entry). destruct (joins i p entry) eqn:Ej.
  - destruct (IH p) as (up & down & -> & -> & Hc & Hd). exists (p :: up), down. cbn [rev length].
    split_and!; [done|done|by apply chained_snoc|]. intros q first Hq Hf. apply (Hd q); [done|].
    by destruct (rev up).
  - exists [], (p :: below). split_and!; [done..|]. by intros ? ? [= <-] [= <-].
Qed.

Lemma count_until_ok t stack :
  match count_until t stack with
  | Some n => exists up entry down, stack = up ++ entry :: down /\ n = length up
      /\ transaction_id entry = t
      /\ Forall (fun e => transaction_id e <> t /\ suppress_grouping e = false) up
  | None => forall up entry down, stack = up ++ entry :: down ->
      Forall (fun e => transaction_id e <> t /\ suppress_grouping e = false) up ->
      transaction_id entry <> t
  end.
Proof.
  induction stack as [|e stack IH]; cbn [count_until].
  - by intros [] ? ? [=].
  - case_bool_decide as Et; [exists [], e, stack; split_and!; done|].
    destruct (suppress_grouping e) eqn:Es.
    + intros [|u up] entry down [= -> ->]; [done|]. by intros [[_ ?] _]%Forall_cons; congruence.
    + destruct (count_until t stack) as [n|]; simpl.
      * destruct IH as (up & entry & down & -> & -> & ? & ?). exists (e :: up), entry, down.
        split_and!; [done..|]. by constructor.
      * intros [|u up] entry down [= -> ->]; [done|]. intros [_ H]%Forall_cons. by eapply IH.
Qed.

Lemma group_ok self :
  undo_stack self <> [] ->
  exists keep entry stack, undo_stack self = keep ++ entry :: stack
    /\ chained (group_interval self) (entry :: stack)
    /\ (forall p, last keep = Some p -> joins (group_interval self) p entry = false)
    /\ group self = Ret (Some (transaction_id entry),
                         with_stacks self (keep ++ [merged entry stack]) (redo_stack self)).
Proof.
  intros Hne. destruct (snoc_cases (undo_stack self)) as [|(below & x & E)]; [done|].
  destruct (group_count_ok (group_interval self) (rev below) x) as (up & down & Eb & Ec & Hc & Hd).
  assert (Es : undo_stack self = rev down ++ (rev up ++ [x])).
  { by rewrite E, <-(rev_involutive below), Eb, rev_app_distr, <-app_assoc. }
  destruct (rev up ++ [x]) as [|entry stack] eqn:Eu; [by destruct (rev up)|].
  exists (rev down), entry, stack. split_and!; [done|done| |].
  - intros p Hp. apply Hd; [|done]. rewrite rev_alt in Hp. by rewrite <-last_reverse.
  - unfold group. rewrite E at 1. rewrite rev_unit, Ec.
    assert (El : length up = length stack).
    { apply (f_equal length) in Eu. rewrite length_app, length_rev in Eu. simpl in Eu. lia. }
    rewrite El. by apply group_trailing_ok.
Qed.

Lemma group_until_ok self t keep entry stack :
  undo_stack self = keep ++ entry :: stack -> transaction_id entry = t ->
  Forall (fun e => transaction_id e <> t /\ suppress_grouping e = false) stack ->
  group_until self t = Ret (with_stacks self (keep ++ [merged entry stack]) (redo_stack self)).
Proof.
  intros E Et Hs. unfold group_until. pose proof (count_until_ok t (rev (undo_stack self))) as H.
  assert (Er : rev (undo_stack self) = rev stack ++ entry :: rev keep)
    by (rewrite E, rev_app_distr; simpl; by rewrite <-app_assoc).
  assert (Hr : Forall (fun e => transaction_id e <> t /\ suppress_grouping e = false) (rev stack))
    by (by apply Forall_rev).
  destruct (count_until _ _) as [n|]; [|by destruct (H _ _ _ Er Hr)].
  destruct H as (up & entry' & down & E' & -> & Et' & Hu). rewrite Er in E'.
  assert (Eu : rev stack = up).
  { clear -E' Et Et' Hr Hu. revert up E' Hu Hr. induction (rev stack) as [|e l IH]; intros [|u up]; simpl.
    - done.
    - intros [= -> _] [[? _] _]%Forall_cons. done.
    - intros [= -> _] _ [[? _] _]%Forall_cons. done.
    - intros [= -> ?] [_ ?]%Forall_cons [_ ?]%Forall_cons. f_equal. by apply IH. }
  rewrite <-Eu, length_rev. by rewrite (group_trailing_ok self keep entry stack E).
Qed.

Lemma group_until_none self t :
  (forall keep entry stack, undo_stack self = keep ++ entry :: stack ->
     Forall (fun e => transaction_id e <> t /\ suppress_grouping e = false) stack ->
     transaction_id entry <> t) ->
  group_until self t = Ret self.
Proof.
  intros H. unfold group_until. pose proof (count_until_ok t (rev (undo_stack self))) as Hc.
  destruct (count_until _ _) as [n|]; [|done]. exfalso.
  destruct Hc as (up & entry & down & E & _ & Et & Hu).
  apply (H (rev down) entry (rev up)); [|by apply Forall_rev|done].
  rewrite <-(rev_involutive (undo_stack self)), E, rev_app_distr. simpl. by rewrite <-app_assoc.
Qed.

(** ** A transaction from start to end *)

(** [push_undo] of each edit in turn. *)
Fixpoint push_undos self (ids : list Stamp) : res History :=
  match ids with [] => Ret self | op_id :: ids => self ← push_undo self op_id; push_undos self ids end.

Definition is_edit self (op_id : Stamp) : Prop :=
  exists edit, map_get (operations self) op_id = Some (EditOp edit).

Lemma push_undo_ok self stack entry op_id :
  transaction_depth self <> 0 -> undo_stack self = stack ++ [entry] -> is_edit self op_id ->
  push_undo self op_id
  = Ret (with_stacks self (stack ++ [with_transaction (push_edit_ids [op_id]) entry]) (redo_stack self)).
Proof.
  intros Hd E [edit Ho]. unfold push_undo. rewrite open_ok by done. cbn [mbind res_bind].
  by rewrite Ho, E, last_snoc, removelast_last.
Qed.

Lemma push_undos_ok self stack entry ids :
  transaction_depth self <> 0 -> undo_stack self = stack ++ [entry] -> Forall (is_edit self) ids ->
  push_undos self ids
  = Ret (with_stacks self (stack ++ [with_transaction (push_edit_ids ids) entry]) (redo_stack self)).
Proof.
  intros Hd. revert self entry Hd. induction ids as [|op_id ids IH]; intros self entry Hd E Hi.
  - simpl. destruct self as [ops us rs d g], entry as [[i es s] f l sg]. simpl in *. subst us.
    unfold with_stacks, with_transaction, push_edit_ids. simpl. by rewrite app_nil_r.
  - apply Forall_cons in Hi as [Hi His]. cbn [push_undos].
    rewrite (push_undo_ok self stack entry) by done. cbn [mbind res_bind].
    rewrite (IH _ (with_transaction (push_edit_ids [op_id]) entry)); [|done|done|exact His].
    unfold with_stacks, with_transaction, push_edit_ids. simpl. by rewrite <-app_assoc.
Qed.

(** The whole of a transaction that is not nested. *)
Definition transact self (start : Global.t) (now : Z) (clock : Stamp) (ids : list Stamp) (later : Z)
    : res (option HistoryEntry * History) :=
  let '(_, self, _) := start_transaction self start now clock in
  self ← push_undos self ids; end_transaction self later.

Lemma transact_ok self start now clock ids later :
  transaction_depth self = 0 -> Forall (is_edit self) ids ->
  transact self start now clock ids later
  = Ret match ids with
        | [] => (None, self)
        | _ => let entry := mkHistoryEntry (mkTransaction clock ids start) now later false in
               (Some entry, with_stacks self (undo_stack self ++ [entry]) [])
        end.
Proof.
  intros Hd Hi. unfold transact, start_transaction. cbn [transaction_depth with_depth]. rewrite Hd.
  cbn [Nat.add Nat.eqb tick].
  rewrite (push_undos_ok _ (undo_stack self) (new_entry (mkTransaction clock [] start) now));
    [|done|done|exact Hi].
  cbn [mbind res_bind]. unfold end_transaction. rewrite open_ok by done. cbn [mbind res_bind].
  cbn [with_stacks with_depth transaction_depth undo_stack Nat.sub Nat.eqb].
  rewrite last_snoc, removelast_last. destruct self; cbn in *; subst. by destruct ids.
Qed.

(** ** Moving between the stacks *)

Lemma rposition_ok t stack :
  match rposition t stack with
  | Some ix => exists pre entry post, stack = pre ++ entry :: post /\ ix = length pre
      /\ transaction_id entry = t /\ Forall (fun e => transaction_id e <> t) post
  | None => Forall (fun e => transaction_id e <> t) stack
  end.
Proof.
  induction stack as [|e stack IH]; cbn [rposition]; [done|].
  destruct (rposition t stack) as [ix|].
  - destruct IH as (pre & entry & post & -> & -> & ? & ?). by exists (e :: pre), entry, post.
  - case_bool_decide; [by exists [], e, stack|by constructor].
Qed.

Lemma rposition_middle t pre entry post :
  transaction_id entry = t -> Forall (fun e => transaction_id e <> t) post ->
  rposition t (pre ++ entry :: post) = Some (length pre).
Proof.
  intros Et Hp. induction pre as [|e pre IH]; simpl; [|by rewrite IH].
  destruct (rposition t post) as [ix|] eqn:E.
  - pose proof (rposition_ok t post) as H. rewrite E in H.
    destruct H as (pre & e & post' & -> & _ & He & _).
    by apply Forall_app in Hp as [_ [? _]%Forall_cons].
  - by rewrite bool_decide_eq_true_2.
Qed.

Lemma pop_undo_ok self stack entry :
  transaction_depth self = 0 -> undo_stack self = stack ++ [entry] ->
  pop_undo self = Ret (Some entry, with_stacks self stack (redo_stack self ++ [entry])).
Proof. intros Hd E. unfold pop_undo. by rewrite idle_ok, E, vec_pop_snoc. Qed.

Lemma pop_redo_ok self stack entry :
  transaction_depth self = 0 -> redo_stack self = stack ++ [entry] ->
  pop_redo self = Ret (Some entry, with_stacks self (undo_stack self ++ [entry]) stack).
Proof. intros Hd E. unfold pop_redo. by rewrite idle_ok, E, vec_pop_snoc. Qed.

Lemma remove_from_undo_ok self pre entry post :
  transaction_depth self = 0 -> undo_stack self = pre ++ entry :: post ->
  Forall (fun e => transaction_id e <> transaction_id entry) post ->
  remove_from_undo self (transaction_id entry)
  = Ret (Some entry, with_stacks self (pre ++ post) (redo_stack self ++ [entry])).
Proof.
  intros Hd E Hp. unfold remove_from_undo. rewrite idle_ok, E, rposition_middle by done.
  cbn [mbind res_bind]. unfold index. rewrite list_lookup_middle by done. cbn [mbind res_bind].
  rewrite vec_remove_Ret by (rewrite length_app; simpl; lia). cbn [mbind res_bind].
  by rewrite take_app_length, (cons_middle entry), app_assoc, drop_app_length' by (rewrite length_app; simpl; lia).
Qed.

Lemma remove_from_undo_until_ok self pre entry post :
  transaction_depth self = 0 -> undo_stack self = pre ++ entry :: post ->
  Forall (fun e => transaction_id e <> transaction_id entry) post ->
  remove_from_undo_until self (transaction_id entry)
  = Ret (rev (entry :: post), with_stacks self pre (redo_stack self ++ rev (entry :: post))).
Proof.
  intros Hd E Hp. unfold remove_from_undo_until. rewrite idle_ok, E, rposition_middle by done.
  cbn [mbind res_bind]. by rewrite drop_app_length, take_app_length.
Qed.

Lemma remove_from_redo_ok self pre entry post :
  transaction_depth self = 0 -> redo_stack self = pre ++ entry :: post ->
  Forall (fun e => transaction_id e <> transaction_id entry) post ->
  remove_from_redo self (transaction_id entry)
  = Ret (rev (entry :: post), with_stacks self (undo_stack self ++ rev (entry :: post)) pre).
Proof.
  intros Hd E Hp. unfold remove_from_redo. rewrite idle_ok, E, rposition_middle by done.
  cbn [mbind res_bind]. by rewrite drop_app_length, take_app_length.
Qed.

(** Without the transaction, nothing moves. *)
Lemma remove_none self t :
  transaction_depth self = 0 ->
  (Forall (fun e => transaction_id e <> t) (undo_stack self) ->
     remove_from_undo self t = Ret (None, self) /\ remove_from_undo_until self t = Ret ([], self))
  /\ (Forall (fun e => transaction_id e <> t) (redo_stack self) -> remove_from_redo self t = Ret ([], self)).
Proof.
  intros Hd. unfold remove_from_undo, remove_from_undo_until, remove_from_redo.
  rewrite idle_ok by done. cbn [mbind res_bind].
  split; intros Hf; pose proof (rposition_ok t) as H;
    [specialize (H (undo_stack self))|specialize (H (redo_stack self))];
    destruct (rposition _ _); try done; destruct H as (pre & e & post & E & _ & He & _);
    rewrite E in Hf; by apply Forall_app in Hf as [_ [? _]%Forall_cons].
Qed.

(** ** Every call on a history *)

Inductive Call :=
| StartTransaction (start : Global.t) (now : Z) (clock : Stamp)
| EndTransaction (now : Z)
| Group
| GroupUntil (t : TransactionId)
| FinalizeLast
| PushTransaction (t : Transaction) (now : Z)
| PushEmptyTransaction (start : Global.t) (now : Z) (clock : Stamp)
| PushUndo (op_id : Stamp)
| PopUndo
| PopRedo
| RemoveFromUndo (t : TransactionId)
| RemoveFromUndoUntil (t : TransactionId)
| RemoveFromRedo (t : TransactionId)
| Forget (t : TransactionId)
| MergeTransactions (t destination : TransactionId).

Definition run self (call : Call) : res History :=
  match call with
  | StartTransaction start now clock => Ret (snd (fst (start_transaction self start now clock)))
  | EndTransaction now => snd <$> end_transaction self now
  | Group => snd <$> group self
  | GroupUntil t => group_until self t
  | FinalizeLast => Ret (snd (finalize_last_transaction self))
  | PushTransaction t now => push_transaction self t now
  | PushEmptyTransaction start now clock => (snd ∘ fst) <$> push_empty_transaction self start now clock
  | PushUndo op_id => push_undo self op_id
  | PopUndo => snd <$> pop_undo self
  | PopRedo => snd <$> pop_redo self
  | RemoveFromUndo t => snd <$> remove_from_undo self t
  | RemoveFromUndoUntil t => snd <$> remove_from_undo_until self t
  | RemoveFromRedo t => snd <$> remove_from_redo self t
  | Forget t => snd <$> forget self t
  | MergeTransactions t destination => merge_transactions self t destination
  end.

(** What the calls assert about the depth. *)
Definition asserted self (call : Call) : Prop :=
  match call with
  | StartTransaction _ _ _ | Group | GroupUntil _ | FinalizeLast => True
  | EndTransaction _ | PushUndo _ => transaction_depth self <> 0
  | _ => transaction_depth self = 0
  end.

(** The edits a call brings in. *)
Definition brings (call : Call) : list Stamp :=
  match call with PushUndo op_id => [op_id] | PushTransaction t _ => edit_ids t | _ => [] end.

(** All the edits of a history. *)
Definition all_edits self : list Stamp := edits (undo_stack self) ++ edits (redo_stack self).

Record history_ok self : Prop := {
  open_has_entry : transaction_depth self <> 0 -> undo_stack self <> [];
  edits_once : NoDup (all_edits self);
}.

Lemma group_until_cases self t :
  group_until self t = Ret self
  \/ exists keep entry stack, undo_stack self = keep ++ entry :: stack
       /\ group_until self t = Ret (with_stacks self (keep ++ [merged entry stack]) (redo_stack self)).
Proof.
  unfold group_until. pose proof (count_until_ok t (rev (undo_stack self))) as Hc.
  destruct (count_until _ _) as [n|]; [right|by left].
  destruct Hc as (up & entry & down & E & -> & _).
  assert (Es : undo_stack self = rev down ++ entry :: rev up).
  { rewrite <-(rev_involutive (undo_stack self)), E, rev_app_distr. simpl. by rewrite <-app_assoc. }
  exists (rev down), entry, (rev up). split; [done|].
  rewrite <-(length_rev up). by rewrite (group_trailing_ok _ _ _ _ Es).
Qed.

Lemma rposition_lookup t stack ix :
  rposition t stack = Some ix -> exists entry, stack !! ix = Some entry /\ transaction_id entry = t
    /\ ix < length stack.
Proof.
  intros E. pose proof (rposition_ok t stack) as H. rewrite E in H.
  destruct H as (pre & entry & post & -> & -> & Et & _). exists entry.
  split_and!; [by apply list_lookup_middle|done|]. rewrite length_app. simpl. lia.
Qed.

(** What [forget] gives, when it finds the transaction. *)
Lemma forget_cases self t :
  transaction_depth self = 0 ->
  forget self t = Ret (None, self)
  \/ exists entry undo redo, forget self t = Ret (Some (transaction entry), with_stacks self undo redo)
       /\ transaction_id entry = t
       /\ all_edits self ≡ₚ ids_of entry ++ (edits undo ++ edits redo).
Proof.
  intros Hd. unfold forget, all_edits. rewrite idle_ok by done. cbn [mbind res_bind].
  pose proof (rposition_ok t (undo_stack self)) as Hu. pose proof (rposition_ok t (redo_stack self)) as Hr.
  destruct (rposition t (undo_stack self)) as [ix|]; [|destruct (rposition t (redo_stack self)) as [ix|];
    [|by left]]; right.
  all: match goal with H : exists _, _ |- _ => destruct H as (pre & entry & post & E & -> & Et & _) end.
  all: rewrite E; unfold index; rewrite list_lookup_middle by done; cbn [mbind res_bind].
  all: rewrite vec_remove_Ret by (rewrite length_app; simpl; lia); cbn [mbind res_bind].
  all: rewrite take_app_length, (cons_middle entry), app_assoc, drop_app_length'
         by (rewrite length_app; simpl; lia).
  - exists entry, (pre ++ post), (redo_stack self). split_and!; [done..|].
    rewrite !edits_app. cbn. rewrite app_nil_r. solve_Permutation.
  - exists entry, (undo_stack self), (pre ++ post). split_and!; [done..|].
    rewrite !edits_app. cbn. rewrite app_nil_r. solve_Permutation.
Qed.

Lemma edits_alter stack ix entry ids :
  stack !! ix = Some entry ->
  edits (alter (with_transaction (push_edit_ids ids)) ix stack) ≡ₚ ids ++ edits stack.
Proof.
  intros (pre & post & -> & ->)%list_elem_of_split_length.
  rewrite alter_app_r_alt, Nat.sub_diag by done. cbn. rewrite !edits_app. cbn. solve_Permutation.
Qed.

(** Merging gives the edits to the destination, if there is one. *)
Lemma update_ok self t ids :
  default self (update_transaction (push_edit_ids ids) self t) = self
  \/ exists undo redo, update_transaction (push_edit_ids ids) self t = Some (with_stacks self undo redo)
       /\ edits undo ++ edits redo ≡ₚ ids ++ all_edits self /\ length undo = length (undo_stack self).
Proof.
  unfold update_transaction, all_edits.
  destruct (rposition t (undo_stack self)) as [ix|] eqn:Eu; [|destruct (rposition t (redo_stack self))
    as [ix|] eqn:Er; [|by left]]; right.
  - apply rposition_lookup in Eu as (entry & E & _). do 2 eexists. split_and!; [done| |by rewrite length_alter].
    rewrite (edits_alter _ _ _ _ E). solve_Permutation.
  - apply rposition_lookup in Er as (entry & E & _). do 2 eexists. split_and!; [done| |done].
    rewrite (edits_alter _ _ _ _ E). solve_Permutation.
Qed.

(** The calls that may drop edits: a transaction that ends clears the redo stack, and
    forgetting, merging into nothing or recording what is no edit drop theirs. *)
Definition drops (call : Call) : bool :=
  match call with EndTransaction _ | Forget _ | MergeTransactions _ _ | PushUndo _ => true | _ => false end.

(** What a call does to the edits, and to the entry of an open transaction. *)
Definition accounts self (call : Call) (self' : History) : Prop :=
  (transaction_depth self' <> 0 -> undo_stack self' <> [])
  /\ exists lost, brings call ++ all_edits self ≡ₚ lost ++ all_edits self'
       /\ (drops call = false -> lost = []).

Lemma accounts_same self call self' :
  (transaction_depth self' <> 0 -> undo_stack self' <> []) ->
  brings call ++ all_edits self ≡ₚ all_edits self' -> accounts self call self'.
Proof. intros H1 H2. split; [done|]. by exists []. Qed.

Lemma push_neq_nil {A} (l : list A) x : l ++ [x] <> [].
Proof. by destruct l. Qed.

Lemma edits_snoc stack entry : edits (stack ++ [entry]) = edits stack ++ ids_of entry.
Proof. rewrite edits_app. cbn. by rewrite app_nil_r. Qed.

Lemma merged_keeps keep entry stack : edits (keep ++ [merged entry stack]) = edits (keep ++ entry :: stack).
Proof. by rewrite !edits_app, merged_edits. Qed.

Lemma edits_rev stack : edits (rev stack) ≡ₚ edits stack.
Proof.
  induction stack as [|e stack IH]; [done|]. cbn [rev]. rewrite edits_snoc, IH. cbn. solve_Permutation.
Qed.

Ltac accounts_tac :=
  apply accounts_same; [by cbn; (done || intros _; apply push_neq_nil)|];
  unfold all_edits; cbn; rewrite ?edits_snoc, ?edits_app, ?edits_rev; cbn; rewrite ?app_nil_r;
  try solve_Permutation.

Section Run.
Context (self : History) (Hopen : transaction_depth self <> 0 -> undo_stack self <> []).

Lemma run_end now : transaction_depth self <> 0 ->
  exists self', run self (EndTransaction now) = Ret self' /\ accounts self (EndTransaction now) self'.
Proof.
  intros Hd. cbn [run]. unfold end_transaction. rewrite open_ok by done. cbn [mbind res_bind].
  cbn [with_depth transaction_depth undo_stack].
  destruct (Nat.eqb_spec (transaction_depth self - 1) 0).
  - destruct (snoc_cases (undo_stack self)) as [?|(stack & entry & E)]; [by destruct Hopen|].
    rewrite E, last_snoc, removelast_last. destruct (ids_of entry) as [|i ids] eqn:Ei; eexists; (split; [done|]).
    + apply accounts_same; [done|]. unfold all_edits. cbn. by rewrite E, edits_snoc, Ei, app_nil_r.
    + split; [done|]. exists (edits (redo_stack self)). split; [|done].
      unfold all_edits. cbn. rewrite E, !edits_snoc. cbn. rewrite app_nil_r. solve_Permutation.
  - eexists. split; [done|]. apply accounts_same; [by cbn; intros _; apply Hopen|done].
Qed.

Lemma run_merge t destination : transaction_depth self = 0 ->
  exists self', run self (MergeTransactions t destination) = Ret self'
    /\ accounts self (MergeTransactions t destination) self'.
Proof.
  intros Hd. cbn [run]. unfold merge_transactions.
  destruct (forget_cases self t Hd) as [->|(entry & undo & redo & -> & _ & Hp)]; cbn [mbind res_bind fst snd].
  { eexists. split; [done|]. by apply accounts_same. }
  eexists. split; [done|].
  destruct (update_ok (with_stacks self undo redo) destination (ids_of entry))
    as [->|(undo' & redo' & -> & Hu & _)]; (split; [done|]).
  - by exists (ids_of entry).
  - exists []. split; [|done]. cbn. unfold all_edits in *. cbn. by rewrite Hp, Hu.
Qed.

Lemma run_group : exists self', run self Group = Ret self' /\ accounts self Group self'.
Proof.
  cbn [run]. destruct (decide (undo_stack self = [])) as [E|E].
  - unfold group. rewrite E. cbn. unfold group_trailing. rewrite E. cbn. eexists. split; [done|].
    apply accounts_same; [by intros Hd%Hopen|]. unfold all_edits. cbn. by rewrite E.
  - destruct (group_ok self E) as (keep & entry & stack & E' & _ & _ & ->). eexists. split; [done|].
    apply accounts_same; [intros _; apply push_neq_nil|]. unfold all_edits. cbn.
    by rewrite merged_keeps, E'.
Qed.

Lemma run_push_undo op_id : transaction_depth self <> 0 ->
  exists self', run self (PushUndo op_id) = Ret self' /\ accounts self (PushUndo op_id) self'.
Proof.
  intros Hd. cbn [run]. unfold push_undo. rewrite open_ok by done. cbn [mbind res_bind].
  destruct (snoc_cases (undo_stack self)) as [?|(stack & entry & E)]; [by destruct Hopen|].
  destruct (map_get (operations self) op_id) as [[edit|undo]|].
  2,3: eexists; (split; [done|]); (split; [done|]); by exists [op_id].
  rewrite E, last_snoc, removelast_last. eexists. split; [done|].
  apply accounts_same; [intros _; apply push_neq_nil|]. unfold all_edits. cbn.
  rewrite E, !edits_snoc. cbn. solve_Permutation.
Qed.

(** Calls that move entries bring nothing in and drop nothing. *)
Lemma moved call undo redo :
  transaction_depth self = 0 -> brings call = [] -> all_edits self ≡ₚ edits undo ++ edits redo ->
  accounts self call (with_stacks self undo redo).
Proof. intros Hd Hb Hp. apply accounts_same; [done|]. by rewrite Hb. Qed.

Lemma run_pops :
  transaction_depth self = 0 ->
  (exists self', run self PopUndo = Ret self' /\ accounts self PopUndo self')
  /\ (exists self', run self PopRedo = Ret self' /\ accounts self PopRedo self').
Proof.
  intros Hd. split; cbn [run].
  - destruct (snoc_cases (undo_stack self)) as [E|(stack & entry & E)].
    + unfold pop_undo. rewrite idle_ok, E by done. eexists. split; [done|]. by apply accounts_same.
    + rewrite (pop_undo_ok self stack entry) by done. eexists. split; [done|]. apply moved; [done..|].
      unfold all_edits. rewrite E, !edits_snoc. solve_Permutation.
  - destruct (snoc_cases (redo_stack self)) as [E|(stack & entry & E)].
    + unfold pop_redo. rewrite idle_ok, E by done. eexists. split; [done|]. by apply accounts_same.
    + rewrite (pop_redo_ok self stack entry) by done. eexists. split; [done|]. apply moved; [done..|].
      unfold all_edits. rewrite E, !edits_snoc. solve_Permutation.
Qed.

Ltac moved_tac E :=
  apply moved; [done..|]; unfold all_edits; rewrite E, ?edits_app, ?edits_rev; cbn;
  rewrite ?app_nil_r; solve_Permutation.

Lemma run_remove_undo t :
  transaction_depth self = 0 ->
  (exists self', run self (RemoveFromUndo t) = Ret self' /\ accounts self (RemoveFromUndo t) self')
  /\ (exists self', run self (RemoveFromUndoUntil t) = Ret self' /\ accounts self (RemoveFromUndoUntil t) self').
Proof.
  intros Hd. cbn [run]. pose proof (rposition_ok t (undo_stack self)) as H.
  destruct (rposition t (undo_stack self)).
  - destruct H as (pre & entry & post & E & _ & <- & Hp).
    rewrite (remove_from_undo_ok self pre entry post), (remove_from_undo_until_ok self pre entry post) by done.
    split; eexists; (split; [done|]); moved_tac E.
  - destruct (remove_none self t Hd) as [Hu _]. destruct (Hu H) as [-> ->].
    split; eexists; (split; [done|]); by apply accounts_same.
Qed.

Lemma run_remove_redo t :
  transaction_depth self = 0 ->
  exists self', run self (RemoveFromRedo t) = Ret self' /\ accounts self (RemoveFromRedo t) self'.
Proof.
  intros Hd. cbn [run]. pose proof (rposition_ok t (redo_stack self)) as H.
  destruct (rposition t (redo_stack self)).
  - destruct H as (pre & entry & post & E & _ & <- & Hp).
    rewrite (remove_from_redo_ok self pre entry post) by done.
    eexists; (split; [done|]); moved_tac E.
  - destruct (remove_none self t Hd) as [_ Hr]. rewrite (Hr H).
    eexists; (split; [done|]); by apply accounts_same.
Qed.

Lemma run_ok call : asserted self call -> exists self', run self call = Ret self' /\ accounts self call self'.
Proof.
  destruct call as [start now clock|now| |t| |t now|start now clock|op_id| | |t|t|t|t|t destination];
    cbn [asserted]; intros Ha;
    try (by apply run_end || by apply run_group || by apply run_push_undo || by apply run_pops
         || by apply run_remove_undo || by apply run_remove_redo || by apply run_merge); cbn [run].
  - eexists. split; [done|]. unfold start_transaction. cbn [with_depth transaction_depth].
    destruct (Nat.eqb_spec (transaction_depth self + 1) 1); cbn; [accounts_tac|].
    apply accounts_same; [|done]. cbn. intros _. apply Hopen. lia.
  - destruct (group_until_cases self t) as [->|(keep & entry & stack & E' & ->)]; eexists; (split; [done|]).
    + by apply accounts_same.
    + apply accounts_same; [intros _; apply push_neq_nil|]. unfold all_edits. cbn.
      by rewrite merged_keeps, E'.
  - eexists. split; [done|]. unfold finalize_last_transaction.
    destruct (snoc_cases (undo_stack self)) as [E|(stack & entry & E)]; rewrite E; cbn; [by apply accounts_same|].
    rewrite last_snoc, removelast_last. apply accounts_same; [intros _; apply push_neq_nil|].
    unfold all_edits. cbn. by rewrite E, !edits_snoc.
  - unfold push_transaction. rewrite idle_ok by done. eexists. split; [done|]. accounts_tac.
  - unfold push_empty_transaction. rewrite idle_ok by done. eexists. split; [done|]. accounts_tac.
  - destruct (forget_cases self t Ha) as [->|(entry & undo & redo & -> & _ & Hp)]; eexists; (split; [done|]).
    + by apply accounts_same.
    + split; [done|]. by exists (ids_of entry).
Qed.
End Run.

Lemma refused self call : ~ asserted self call -> run self call = Panic.
Proof.
  destruct call; cbn [asserted]; intros Ha; try (by destruct Ha); cbn [run];
    unfold end_transaction, push_transaction, push_empty_transaction, push_undo, pop_undo, pop_redo,
      remove_from_undo, remove_from_undo_until, remove_from_redo, merge_transactions, forget,
      assert_open, assert_idle.
  1,4: destruct (Nat.eqb_spec (transaction_depth self) 0); [done|by destruct Ha].
  all: by destruct (Nat.eqb_spec (transaction_depth self) 0).
Qed.

(** The histories the calls lead to; an edit is recorded once, under its timestamp. *)
Inductive reachable (interval : Z) : History -> Prop :=
| reach_new : reachable interval (history_new interval)
| reach_push self op self' :
    reachable interval self -> push self op = Ret self' -> reachable interval self'
| reach_run self call self' :
    reachable interval self -> run self call = Ret self' ->
    NoDup (brings call) -> (forall e, e ∈ brings call -> e ∉ all_edits self) ->
    reachable interval self'.

Lemma run_Ret self call self' :
  (transaction_depth self <> 0 -> undo_stack self <> []) -> run self call = Ret self' ->
  asserted self call /\ accounts self call self'.
Proof.
  intros Hopen E. assert (Ha : asserted self call).
  { destruct call; try done; cbn [asserted];
      match goal with |- ?P => destruct (decide P) as [|Hn]; [done|] end;
      rewrite refused in E by done; discriminate E. }
  split; [done|]. destruct (run_ok self Hopen call Ha) as (s & E' & H). congruence.
Qed.

Lemma history_reachable_ok interval self : reachable interval self -> history_ok self.
Proof.
  induction 1 as [|self op self' _ [Ho Hn] E|self call self' _ [Ho Hn] E Hb Hf].
  - split; [done|constructor].
  - unfold push in E. destruct (map_insert _ _ _) as [m|]; [|done]. cbn in E. injection E as <-.
    by split.
  - destruct (run_Ret self call self' Ho E) as (_ & Ho' & lost & Hp & _). split; [done|].
    assert (Hd : NoDup (brings call ++ all_edits self)) by (apply NoDup_app; split_and!; auto).
    rewrite Hp in Hd. by apply NoDup_app in Hd as (_ & _ & ?).
Qed.

(** C29. Along every sequence of calls in which an edit is recorded once, the history
    stays sound: an open transaction has its entry on the undo stack; no edit is in
    two transactions; a call fails on exactly the conditions it asserts about the
    depth, never on an [unwrap] or an index; and it loses no edit, unless it ends a
    transaction (which clears the redo stack), forgets one, merges or records what is
    no edit. *)
Theorem history_safe interval self :
  reachable interval self ->
  history_ok self
  /\ (forall call, run self call = Panic <-> ~ asserted self call)
  /\ (forall call self', run self call = Ret self' ->
        exists lost, brings call ++ all_edits self ≡ₚ lost ++ all_edits self'
          /\ (drops call = false -> lost = [])).
Proof.
  intros Hr. apply history_reachable_ok in Hr as Hok. destruct Hok as [Ho Hn]. split_and!; [done| |].
  - intros call. split; [|apply refused]. intros E Ha.
    destruct (run_ok self Ho call Ha) as (? & E' & _). congruence.
  - intros call self' E. by destruct (run_Ret self call self' Ho E) as (_ & _ & H).
Qed.

(** C30. Transactions and their groups.  A transaction that is not nested ends as one
    entry with its edits in order and clears the redo stack, or leaves no trace when
    it has none; a nested one only counts.  [group] merges into one entry the longest
    run at the top whose entries follow one another within the interval, across no
    finalised entry; [group_until] merges what is above a transaction, if nothing
    there is finalised, and else does nothing.  A merged entry keeps its id, start and
    first time, takes the last one's last time, and the edits keep their order. *)
Theorem grouping_spec self :
  (forall start now clock ids later, transaction_depth self = 0 -> Forall (is_edit self) ids ->
     transact self start now clock ids later
     = Ret match ids with
           | [] => (None, self)
           | _ => let entry := mkHistoryEntry (mkTransaction clock ids start) now later false in
                  (Some entry, with_stacks self (undo_stack self ++ [entry]) [])
           end)
  /\ (forall start now clock later, transaction_depth self <> 0 ->
        transact self start now clock [] later = Ret (None, self))
  /\ (undo_stack self <> [] ->
        exists keep entry stack, undo_stack self = keep ++ entry :: stack
          /\ chained (group_interval self) (entry :: stack)
          /\ (forall p, last keep = Some p -> joins (group_interval self) p entry = false)
          /\ group self = Ret (Some (transaction_id entry),
                               with_stacks self (keep ++ [merged entry stack]) (redo_stack self)))
  /\ (forall keep entry stack, undo_stack self = keep ++ entry :: stack ->
        Forall (fun e => transaction_id e <> transaction_id entry /\ suppress_grouping e = false) stack ->
        group_until self (transaction_id entry)
        = Ret (with_stacks self (keep ++ [merged entry stack]) (redo_stack self)))
  /\ (forall t, (forall keep entry stack, undo_stack self = keep ++ entry :: stack ->
          Forall (fun e => transaction_id e <> t /\ suppress_grouping e = false) stack ->
          transaction_id entry <> t) ->
        group_until self t = Ret self)
  /\ (forall keep entry stack, edits (keep ++ [merged entry stack]) = edits (keep ++ entry :: stack)).
Proof.
  split_and!.
  - intros. by apply transact_ok.
  - intros start now clock later Hd. unfold transact, start_transaction.
    cbn [with_depth transaction_depth]. rewrite (proj2 (Nat.eqb_neq _ _)) by lia.
    cbn [push_undos mbind res_bind]. unfold end_transaction. rewrite open_ok by (cbn; lia).
    cbn [mbind res_bind with_depth transaction_depth]. rewrite (proj2 (Nat.eqb_neq _ _)) by lia.
    destruct self as [ops us rs d g]. cbn in *. unfold with_depth. cbn.
    by replace (d + 1 - 1) with d by lia.
  - apply group_ok.
  - intros. by apply group_until_ok.
  - apply group_until_none.
  - apply merged_keeps.
Qed.

Lemma history_safe_witness :
  let self := fst (start_transaction (history_new 300) Global.new 0 STAMP_MIN) in
  history_ok (snd self) /\ run (snd self) PopUndo = Panic
  /\ exists self', run (snd self) (EndTransaction 1) = Ret self' /\ undo_stack self' = [].
Proof.
  cbv zeta. set (self := snd (fst (start_transaction (history_new 300) Global.new 0 STAMP_MIN))).
  assert (Hr : reachable 300 self).
  { apply (reach_run 300 (history_new 300) (StartTransaction Global.new 0 STAMP_MIN));
      [constructor|reflexivity|constructor|by intros e ?%elem_of_nil]. }
  destruct (history_safe 300 self Hr) as (Hok & Hp & _). split; [exact Hok|]. split.
  - apply Hp. discriminate.
  - eexists. split; reflexivity.
Defined.

(** ** Where the code differs from what it says *)

(** [push_empty_transaction] says it differs from [push_transaction] in that it does
    not clear the redo stack; neither does. *)
Lemma push_transaction_keeps_redo self (t : Transaction) now self' :
  push_transaction self t now = Ret self' -> redo_stack self' = redo_stack self.
Proof. unfold push_transaction. by destruct (assert_idle self); [intros [= <-]|]. Qed.

(** Merging a transaction into one that is on no stack, itself included, takes it off
    the stacks, and its edits with it. *)
Lemma merge_into_absent_forgets self t destination (gone : Transaction) h :
  transaction_depth self = 0 -> forget self t = Ret (Some gone, h) ->
  Forall (fun e => transaction_id e <> destination) (undo_stack h ++ redo_stack h) ->
  merge_transactions self t destination = Ret h.
Proof.
  intros Hd E [Hu Hr]%Forall_app. unfold merge_transactions. rewrite E. cbn [mbind res_bind fst snd].
  unfold update_transaction.
  destruct (rposition destination (undo_stack h)) as [ix|] eqn:Eu.
  { apply rposition_lookup in Eu as (e & He & Ee & _). by eapply Forall_lookup_1 in Hu. }
  destruct (rposition destination (redo_stack h)) as [ix|] eqn:Er; [|done].
  apply rposition_lookup in Er as (e & He & Ee & _). by eapply Forall_lookup_1 in Hr.
Qed.
