(* ===== verification/Buffer.v ===== *)
(** * Buffers: undo, redo and the delivery of operations

    [Buffer] in [crates/text/src/text.rs] and [OperationQueue] in
    [crates/text/src/operation_queue.rs]: the local operations a buffer makes, and
    how it applies the remote ones, deferring those whose past it has not seen.
    What an operation does to the fragments and the text is left out, and so are
    the waiters and subscribers: an operation that is carried out is returned. *)

From S2P Require Import Prelude Clock SumTree SumCursor KeyedTree TreeMap UndoMap History.
Local Open Scope nat_scope.

(** ** Queues of operations

    The assertions of [add_summary] that the keys grow, which hold in a queue since
    its keys do, are left out. *)
Record OperationSummary := mkOperationSummary { summary_key : Stamp; summary_len : nat }.
#[export] Instance operation_summary : Summary OperationSummary := {
  zero := mkOperationSummary STAMP_MIN 0;
  add_summary self other :=
    mkOperationSummary (summary_key other) (summary_len self + summary_len other);
}.
#[export] Instance operation_key_dimension : Dimension Stamp OperationSummary := {
  dim_zero := STAMP_MIN;
  dim_add _ summary := summary_key summary;
}.
#[export] Instance operation_item : Item Operation OperationSummary :=
  fun op => mkOperationSummary (op_timestamp op) 1.
#[export] Instance operation_keyed : KeyedItem Operation Stamp := op_timestamp.

Notation OperationQueue := (node Operation OperationSummary).

Definition queue_len (self : OperationQueue) : nat := summary_len (node_summary self).
Definition queue_is_empty (self : OperationQueue) : bool := queue_len self =? 0.

(** [sort_unstable_by_key]; operations with one timestamp keep their order here. *)
Fixpoint insert_op (op : Operation) (ops : list Operation) : list Operation :=
  match ops with
  | [] => [op]
  | op' :: rest =>
      match ord_cmp (op_timestamp op) (op_timestamp op') with
      | Gt => op' :: insert_op op rest
      | _ => op :: ops
      end
  end.
Definition sort_ops (ops : list Operation) : list Operation := foldr insert_op [] ops.
(** [dedup_by_key]: the first of a run stays. *)
Fixpoint dedup_from (op : Operation) (ops : list Operation) : list Operation :=
  match ops with
  | [] => [op]
  | op' :: ops =>
      if bool_decide (op_timestamp op' = op_timestamp op) then dedup_from op ops
      else op :: dedup_from op' ops
  end.
Definition dedup_ops (ops : list Operation) : list Operation :=
  match ops with [] => [] | op :: ops => dedup_from op ops end.

Definition queue_insert (self : OperationQueue) (ops : list Operation) : res OperationQueue :=
  r ← KeyedTree.edit (Key:=Stamp) self (map Insert (dedup_ops (sort_ops ops)));
  mret (fst r).

Definition drain (self : OperationQueue) : OperationQueue * OperationQueue := (self, new).
Definition queue_iter (self : OperationQueue) : res (list Operation) := iter self.

(** ** Buffers *)
Record Buffer := mkBuffer {
  history : History;
  undo_map : UndoMap;
  lamport_clock : Stamp;
  buffer_version : Global.t;
  deferred_ops : OperationQueue;
  deferred_replicas : gset Z;
}.
Implicit Types b : Buffer.

Definition with_history b (h : History) : Buffer :=
  mkBuffer h (undo_map b) (lamport_clock b) (buffer_version b) (deferred_ops b) (deferred_replicas b).
Definition with_clocks b (clock : Stamp) (version : Global.t) : Buffer :=
  mkBuffer (history b) (undo_map b) clock version (deferred_ops b) (deferred_replicas b).
Definition with_undo_map b (m : UndoMap) : Buffer :=
  mkBuffer (history b) m (lamport_clock b) (buffer_version b) (deferred_ops b) (deferred_replicas b).
Definition with_deferred b (ops : OperationQueue) (replicas : gset Z) : Buffer :=
  mkBuffer (history b) (undo_map b) (lamport_clock b) (buffer_version b) ops replicas.

Definition start_transaction_at b (now : Z) : option TransactionId * Buffer :=
  let '(id, h, clock) := start_transaction (history b) (buffer_version b) now (lamport_clock b) in
  (id, with_clocks (with_history b h) clock (buffer_version b)).

Definition push_empty_transaction_at b (now : Z) : res (TransactionId * Buffer) :=
  r ← push_empty_transaction (history b) (buffer_version b) now (lamport_clock b);
  let '(id, h, clock) := r in
  mret (id, with_clocks (with_history b h) clock (buffer_version b)).

Definition end_transaction_at b (now : Z) : res (option (TransactionId * Global.t) * Buffer) :=
  r ← end_transaction (history b) now;
  match fst r with
  | Some entry =>
      g ← group (snd r);
      match fst g with
      | Some id => mret (Some (id, start (transaction entry)), with_history b (snd g))
      | None => Panic
      end
  | None => mret (None, with_history b (snd r))
  end.

(** [edit], once [apply_edit_internal] has turned the edits of the text into ranges
    and strings; it reads the time when it starts and when it ends. *)
Definition edit b (now later : Z) (ranges : list (Z * Z)) (new_text : list (list Z))
    : res (Operation * Buffer) :=
  let '(_, b) := start_transaction_at b now in
  let '(timestamp, clock) := tick (lamport_clock b) in
  let b := with_clocks b clock (buffer_version b) in
  let operation := EditOp (mkEditOperation timestamp (buffer_version b) ranges new_text) in
  h ← push (history b) operation;
  h ← push_undo h (op_timestamp operation);
  let b := with_clocks (with_history b h) (lamport_clock b)
             (Global.observe (buffer_version b) (lamport (op_timestamp operation))) in
  r ← end_transaction_at b later;
  mret (operation, snd r).

(** The first step of [apply_undo]; the update of fragments and text that follows is
    [FragmentUndo.apply_undo]. *)
Definition apply_undo b (undo : UndoOperation) : res Buffer :=
  undo_map ← insert (undo_map b) undo; mret (with_undo_map b undo_map).

Definition undo_operations b (counts : gmap Stamp Z) : res (UndoOperation * Buffer) :=
  let '(timestamp, clock) := tick (lamport_clock b) in
  let undo := mkUndo timestamp (buffer_version b) counts in
  b ← apply_undo (with_clocks b clock (Global.observe (buffer_version b) (lamport timestamp))) undo;
  mret (undo, b).

Definition undo_or_redo b (t : Transaction) : res (UndoOperation * Buffer) :=
  counts ← undo_counts (undo_map b) (edit_ids t) ∅;
  r ← undo_operations b counts;
  let '(undo, b) := r in
  h ← push (history b) (UndoOp undo);
  mret (undo, with_history b h).

Definition undo b : res (option (TransactionId * UndoOperation) * Buffer) :=
  r ← pop_undo (history b);
  let b := with_history b (snd r) in
  match fst r with
  | Some entry =>
      r ← undo_or_redo b (transaction entry);
      mret (Some (transaction_id entry, fst r), snd r)
  | None => mret (None, b)
  end.
Definition redo b : res (option (TransactionId * UndoOperation) * Buffer) :=
  r ← pop_redo (history b);
  let b := with_history b (snd r) in
  match fst r with
  | Some entry =>
      r ← undo_or_redo b (transaction entry);
      mret (Some (transaction_id entry, fst r), snd r)
  | None => mret (None, b)
  end.

Definition undo_transaction b (t : TransactionId) : res (option UndoOperation * Buffer) :=
  r ← remove_from_undo (history b) t;
  let b := with_history b (snd r) in
  match fst r with
  | Some entry => r ← undo_or_redo b (transaction entry); mret (Some (fst r), snd r)
  | None => mret (None, b)
  end.

Fixpoint undo_or_redo_all b (ts : list Transaction) : res (list UndoOperation * Buffer) :=
  match ts with
  | [] => Ret ([], b)
  | t :: ts =>
      r ← undo_or_redo b t;
      rest ← undo_or_redo_all (snd r) ts;
      mret (fst r :: fst rest, snd rest)
  end.
Definition undo_to_transaction b (t : TransactionId) : res (list UndoOperation * Buffer) :=
  r ← remove_from_undo_until (history b) t;
  undo_or_redo_all (with_history b (snd r)) (map transaction (fst r)).
Definition redo_to_transaction b (t : TransactionId) : res (list UndoOperation * Buffer) :=
  r ← remove_from_redo (history b) t;
  undo_or_redo_all (with_history b (snd r)) (map transaction (fst r)).

(** ** Remote operations *)

Definition op_version (op : Operation) : Global.t :=
  match op with EditOp edit => edit_version edit | UndoOp undo => version undo end.
Definition op_replica (op : Operation) : Z := Lamport.replica_id (lamport (op_timestamp op)).

Definition can_apply_op b (op : Operation) : bool :=
  if bool_decide (op_replica op ∈ deferred_replicas b) then false
  else Global.observed_all (buffer_version b) (op_version op).

(** [Lamport::observe] at its width. *)
Lemma observe_fits (clock ts : Stamp) : fits (Lamport.observe (lamport clock) (lamport ts)) = true.
Proof.
  destruct clock as [[v r] H]. unfold fits in *. cbn in *.
  rewrite !andb_true_iff, !Z.leb_le in *. unfold wrap_u32.
  pose proof (Z.mod_pos_bound (Z.max v (Lamport.value (lamport ts)) + 1) (2 ^ 32) ltac:(lia)).
  unfold U32_MAX, U16_MAX in *. lia.
Qed.
Definition observe (clock ts : Stamp) : Stamp :=
  mkStamp (Lamport.observe (lamport clock) (lamport ts)) (observe_fits clock ts).

Definition observe_op b (ts : Stamp) : Buffer :=
  with_clocks b (observe (lamport_clock b) ts) (Global.observe (buffer_version b) (lamport ts)).

(** [apply_op], without fragments, text and waiters: unless the operation was carried
    out before, it is, and observed.  An edit's [apply_remote_edit], and so the ways it
    can fail, is not modelled: here an edit that is carried out is only returned. *)
Definition apply_op b (op : Operation) : res (list Operation * Buffer) :=
  if Global.observed (buffer_version b) (lamport (op_timestamp op)) then Ret ([], b)
  else
    match op with
    | EditOp edit => mret ([op], observe_op b (edit_timestamp edit))
    | UndoOp undo => b ← apply_undo b undo; mret ([op], observe_op b (timestamp undo))
    end.

(** The loop over the operations, which are carried out or put aside. *)
Definition defer b (op : Operation) : Buffer :=
  with_deferred b (deferred_ops b) ({[op_replica op]} ∪ deferred_replicas b).
Definition deliver b (op : Operation) : res (list Operation * list Operation * Buffer) :=
  if can_apply_op b op then r ← apply_op b op; mret (fst r, [], snd r)
  else mret ([], [op], defer b op).
Fixpoint deliver_all b (ops : list Operation) : res (list Operation * list Operation * Buffer) :=
  match ops with
  | [] => Ret ([], [], b)
  | op :: ops =>
      r ← deliver b op;
      let '(applied, deferred, b) := r in
      r ← deliver_all b ops;
      let '(applied', deferred', b) := r in
      mret (applied ++ applied', deferred ++ deferred', b)
  end.

Definition defer_ops b (ops : list Operation) : res Buffer :=
  queue ← queue_insert (deferred_ops b) ops; mret (with_deferred b queue (deferred_replicas b)).

Definition flush_deferred_ops b : res (list Operation * Buffer) :=
  let '(drained, queue) := drain (deferred_ops b) in
  ops ← queue_iter drained;
  r ← deliver_all (with_deferred b queue ∅) ops;
  let '(applied, deferred, b) := r in
  b ← defer_ops b deferred; mret (applied, b).

(** The loop of [apply_ops] also records each operation in the history. *)
Fixpoint receive_all b (ops : list Operation) : res (list Operation * list Operation * Buffer) :=
  match ops with
  | [] => Ret ([], [], b)
  | op :: ops =>
      h ← push (history b) op;
      r ← deliver (with_history b h) op;
      let '(applied, deferred, b) := r in
      r ← receive_all b ops;
      let '(applied', deferred', b) := r in
      mret (applied ++ applied', deferred ++ deferred', b)
  end.

Definition apply_ops b (ops : list Operation) : res (list Operation * Buffer) :=
  r ← receive_all b ops;
  let '(applied, deferred, b) := r in
  b ← defer_ops b deferred;
  r ← flush_deferred_ops b;
  mret (applied ++ fst r, snd r).
