(* ===== verification/BufferSpec.v ===== *)
(** * What undo and redo promise

    Undoing flips exactly the edits of the last transaction, redoing flips them back
    and restores the stacks; undoing to a transaction is undoing one by one. *)

From S2P Require Import Prelude Clock SumTree SumTreeInvariant SumCursor KeyedTree KeyedTreeSpec.
From S2P Require Import TreeMap TreeMapSpec UndoMap UndoMapSpec History HistorySpec Buffer.
Local Open Scope nat_scope.

Implicit Types (b : Buffer) (log : list UndoOperation) (t : TransactionId) (stack : list HistoryEntry).

(** ** Clocks *)

(** A clock that can tick [n] times. *)
Definition clock_room (n : Z) (clock : Stamp) : Prop := (Lamport.value (lamport clock) + n <= U32_MAX)%Z.

Lemma stamp_lt (s s' : Stamp) : ord_cmp s s' = Lt <-> Lamport.lt (lamport s) (lamport s').
Proof. done. Qed.

Lemma stamp_value (s : Stamp) : (0 <= Lamport.value (lamport s) <= U32_MAX)%Z.
Proof.
  destruct s as [[v r] H]. cbn. unfold fits in H. cbn in H. rewrite !andb_true_iff, !Z.leb_le in H. lia.
Qed.

Lemma tick_value clock :
  clock_room 1 clock ->
  Lamport.value (lamport (snd (tick clock))) = (Lamport.value (lamport clock) + 1)%Z.
Proof.
  unfold clock_room. intros H. cbn. apply wrap_u32_id. pose proof (stamp_value clock). uint_lia.
Qed.

Lemma tick_lt clock : clock_room 1 clock -> ord_cmp clock (snd (tick clock)) = Lt.
Proof. intros H%tick_value. rewrite stamp_lt, Lamport.lt_iff, H. lia. Qed.

(** ** The state of a buffer *)

(** The undo map holds the operations of [log], all older than the clock. *)
Record buffer_ok b log : Prop := {
  buffer_undo_map : exists h, undo_ok h (undo_map b) log;
  buffer_operations : exists h, map_ok h (operations (history b));
  buffer_stamps : unique_stamps log;
  buffer_clock op : In op log -> ord_cmp (timestamp op) (lamport_clock b) = Lt;
}.

(** Trees that a cursor can walk. *)
Definition roomy b : Prop :=
  height (undo_map b) < STACK_CAPACITY /\ height (operations (history b)) < STACK_CAPACITY.

Definition set_stacks b (undo redo : list HistoryEntry) : Buffer :=
  with_history b (with_stacks (history b) undo redo).

Lemma fresh_unique b log op :
  buffer_ok b log -> timestamp op = lamport_clock b -> unique_stamps (op :: log).
Proof.
  intros Hb E x y [<-|Hx] [<-|Hy] Exy; [done| | |by apply (buffer_stamps _ _ Hb)].
  - pose proof (buffer_clock _ _ Hb y Hy) as Hl. rewrite <-Exy, E, ord_refl in Hl. done.
  - pose proof (buffer_clock _ _ Hb x Hx) as Hl. rewrite Exy, E, ord_refl in Hl. done.
Qed.

(** The stacks are those of before, and so are the transactions open. *)
Definition same_stacks b b' : Prop :=
  undo_stack (history b') = undo_stack (history b) /\ redo_stack (history b') = redo_stack (history b)
  /\ transaction_depth (history b') = transaction_depth (history b)
  /\ group_interval (history b') = group_interval (history b).

Lemma undo_or_redo_ok b log (t : Transaction) :
  buffer_ok b log -> roomy b -> clock_room 1 (lamport_clock b) ->
  exists op b', undo_or_redo b t = Ret (op, b') /\ buffer_ok b' (op :: log) /\ same_stacks b b'
    /\ timestamp op = lamport_clock b /\ version op = buffer_version b
    /\ lamport_clock b' = snd (tick (lamport_clock b))
    /\ contents (operations (history b')) = <[timestamp op := UndoOp op]> (contents (operations (history b)))
    /\ (forall e, (e ∈ edit_ids t -> max_count all_seen log e < U32_MAX)%Z ->
          max_count all_seen (op :: log) e
          = (max_count all_seen log e + if bool_decide (e ∈ edit_ids t) then 1 else 0)%Z).
Proof.
  intros Hb [Hhm Hho] Hc. destruct (buffer_undo_map _ _ Hb) as (h & Hm).
  destruct (buffer_operations _ _ Hb) as (ho & Hops).
  rewrite (wf_height h) in Hhm by apply Hm. rewrite (wf_height ho) in Hho by apply Hops.
  unfold undo_or_redo. destruct (undo_counts_ok h _ log (edit_ids t) ∅ Hm Hhm) as (cs & Ecs & _).
  rewrite Ecs. cbn [mbind res_bind]. unfold undo_operations. cbn [tick].
  set (op := mkUndo (lamport_clock b) (buffer_version b) cs).
  pose proof (fresh_unique b log op Hb eq_refl) as Hu.
  destruct (insert_ok h _ log op Hm Hhm Hu) as (m' & h' & Em & Hm').
  unfold apply_undo. cbn [with_clocks undo_map]. rewrite Em. cbn [mbind res_bind mret res_ret].
  unfold push. cbn [with_clocks with_undo_map history op_timestamp].
  destruct (map_insert_ok ho _ (timestamp op) (UndoOp op) Hops Hho) as (o' & ho' & _ & Eo & Ho' & Eco).
  rewrite Eo. cbn [mbind res_bind mret res_ret]. eexists op, _. split; [done|]. split_and!; try done.
  - split; cbn; [by exists h'|by exists ho'|done|]. intros x [<-|Hx]; [by apply tick_lt|].
    apply (ord_trans _ (lamport_clock b)); [by apply (buffer_clock _ _ Hb)|by apply tick_lt].
  - intros e He. by apply (undo_max_count h _ log (edit_ids t) op e Hm Hhm).
Qed.

(** It does not look at the stacks. *)
Lemma push_stacks (h : History) undo redo op :
  push (with_stacks h undo redo) op = (fun h => with_stacks h undo redo) <$> push h op.
Proof.
  unfold push. cbn [operations with_stacks]. by destruct (map_insert (operations h) (op_timestamp op) op).
Qed.

Lemma push_same (h : History) op h' : push h op = Ret h' -> with_stacks h' (undo_stack h) (redo_stack h) = h'
  /\ transaction_depth h' = transaction_depth h /\ group_interval h' = group_interval h.
Proof.
  unfold push. destruct (map_insert (operations h) (op_timestamp op) op); [|done]. by intros [= <-].
Qed.

Lemma undo_or_redo_stacks b undo redo (t : Transaction) :
  undo_or_redo (set_stacks b undo redo) t
  = (fun r => (fst r, set_stacks (snd r) undo redo)) <$> undo_or_redo b t.
Proof.
  unfold undo_or_redo. cbn [undo_map set_stacks with_history].
  destruct (undo_counts _ _ _) as [cs|]; [|done]. cbn [mbind res_bind]. unfold undo_operations, apply_undo.
  cbn [tick with_clocks undo_map set_stacks with_history lamport_clock buffer_version].
  destruct (insert _ _) as [m|]; [|done].
  cbn [mbind res_bind mret res_ret with_undo_map with_clocks history set_stacks with_history].
  rewrite push_stacks. by destruct (push _ _).
Qed.

Lemma undo_or_redo_same b (t : Transaction) op b' : undo_or_redo b t = Ret (op, b') -> same_stacks b b'.
Proof.
  unfold undo_or_redo. destruct (undo_counts _ _ _) as [cs|]; [|done]. cbn [mbind res_bind].
  unfold undo_operations, apply_undo. cbn [tick with_clocks undo_map].
  destruct (insert _ _) as [m|]; [|done].
  cbn [mbind res_bind mret res_ret with_undo_map with_clocks history].
  destruct (push _ _) as [h|] eqn:E; [|done]. intros [= <- <-].
  apply push_same in E as (E & ? & ?). unfold same_stacks. cbn. by rewrite <-E.
Qed.

(** ** Undoing and redoing *)

Lemma set_stacks_depth b undo redo : transaction_depth (history (set_stacks b undo redo)) = transaction_depth (history b).
Proof. done. Qed.

(** What carrying out a transaction's undo or redo does, the entry having moved. *)
Record flipped b log (entry : HistoryEntry) (undo redo : list HistoryEntry) (op : UndoOperation) b' : Prop := {
  flipped_ok : buffer_ok b' (op :: log);
  flipped_undo : undo_stack (history b') = undo;
  flipped_redo : redo_stack (history b') = redo;
  flipped_depth : transaction_depth (history b') = transaction_depth (history b);
  flipped_clock : lamport_clock b' = snd (tick (lamport_clock b));
  flipped_op : timestamp op = lamport_clock b /\ version op = buffer_version b;
  flipped_log : contents (operations (history b'))
                = <[timestamp op := UndoOp op]> (contents (operations (history b)));
  flipped_counts e : (e ∈ edit_ids (transaction entry) -> max_count all_seen log e < U32_MAX)%Z ->
    max_count all_seen (op :: log) e
    = (max_count all_seen log e + if bool_decide (e ∈ edit_ids (transaction entry)) then 1 else 0)%Z;
}.

Lemma flip b log entry undo redo :
  buffer_ok b log -> roomy b -> clock_room 1 (lamport_clock b) ->
  exists op b', undo_or_redo (set_stacks b undo redo) (transaction entry) = Ret (op, b')
    /\ flipped b log entry undo redo op b'.
Proof.
  intros Hb Hr Hc.
  destruct (undo_or_redo_ok b log (transaction entry) Hb Hr Hc)
    as (op & b1 & E & [Hm Ho Hu Hk] & (Su & Sr & Sd & Si) & Et & Ev & Ec & El & Hcnt).
  rewrite undo_or_redo_stacks, E. cbn. exists op, (set_stacks b1 undo redo). split; [done|].
  by split.
Qed.

Lemma undo_ok_step b log stack entry :
  buffer_ok b log -> roomy b -> clock_room 1 (lamport_clock b) ->
  transaction_depth (history b) = 0 -> undo_stack (history b) = stack ++ [entry] ->
  exists op b', undo b = Ret (Some (transaction_id entry, op), b')
    /\ flipped b log entry stack (redo_stack (history b) ++ [entry]) op b'.
Proof.
  intros Hb Hr Hc Hd E. unfold undo. rewrite (pop_undo_ok _ stack entry) by done. cbn [mbind res_bind fst snd].
  destruct (flip b log entry stack (redo_stack (history b) ++ [entry]) Hb Hr Hc) as (op & b' & E' & H).
  unfold set_stacks in E'. rewrite E'. by exists op, b'.
Qed.

Lemma redo_ok_step b log stack entry :
  buffer_ok b log -> roomy b -> clock_room 1 (lamport_clock b) ->
  transaction_depth (history b) = 0 -> redo_stack (history b) = stack ++ [entry] ->
  exists op b', redo b = Ret (Some (transaction_id entry, op), b')
    /\ flipped b log entry (undo_stack (history b) ++ [entry]) stack op b'.
Proof.
  intros Hb Hr Hc Hd E. unfold redo. rewrite (pop_redo_ok _ stack entry) by done. cbn [mbind res_bind fst snd].
  destruct (flip b log entry (undo_stack (history b) ++ [entry]) stack Hb Hr Hc) as (op & b' & E' & H).
  unfold set_stacks in E'. rewrite E'. by exists op, b'.
Qed.

Lemma is_undone_ok b log e :
  buffer_ok b log -> roomy b -> is_undone (undo_map b) e = Ret (is_odd (max_count all_seen log e)).
Proof.
  intros Hb [Hh _]. destruct (buffer_undo_map _ _ Hb) as (h & Hm).
  rewrite (wf_height h) in Hh by apply Hm. by destruct (queries_ok h _ log e Hm Hh) as (_ & -> & _).
Qed.

Lemma odd_twice n : is_odd (n + 1 + 1) = is_odd n.
Proof. by rewrite !odd_flip, negb_involutive. Qed.

(** C25. Undo and redo.  On a buffer whose undo map holds the operations so far and
    whose trees a cursor can walk, undoing does not fail: it moves the last entry to
    the redo stack, makes one operation stamped with the clock and the version, which
    it records, and flips whether each edit of the transaction is undone, and no
    other edit.  Redoing then moves the entry back, leaving both stacks as they were,
    and what is undone is what it was. *)
Theorem undo_redo_spec b log stack entry :
  buffer_ok b log -> roomy b -> clock_room 2 (lamport_clock b) ->
  transaction_depth (history b) = 0 -> undo_stack (history b) = stack ++ [entry] ->
  (forall e, e ∈ edit_ids (transaction entry) -> max_count all_seen log e + 2 <= U32_MAX)%Z ->
  exists op b1, undo b = Ret (Some (transaction_id entry, op), b1)
    /\ flipped b log entry stack (redo_stack (history b) ++ [entry]) op b1
    /\ (roomy b1 ->
         (forall e, exists undone, is_undone (undo_map b) e = Ret undone
            /\ is_undone (undo_map b1) e
               = Ret (if bool_decide (e ∈ edit_ids (transaction entry)) then negb undone else undone))
         /\ exists op' b2, redo b1 = Ret (Some (transaction_id entry, op'), b2)
              /\ buffer_ok b2 (op' :: op :: log)
              /\ undo_stack (history b2) = undo_stack (history b)
              /\ redo_stack (history b2) = redo_stack (history b)
              /\ (roomy b2 -> forall e, is_undone (undo_map b2) e = is_undone (undo_map b) e)).
Proof.
  intros Hb Hr Hc Hd E Hcount.
  assert (Hc1 : clock_room 1 (lamport_clock b)) by (unfold clock_room in *; lia).
  destruct (undo_ok_step b log stack entry Hb Hr Hc1 Hd E) as (op & b1 & Eu & F). exists op, b1.
  split; [done|]. split; [done|]. intros Hr1. pose proof F as [Hb1 Fu Fr Fd Fk _ _ Fc].
  assert (Hlt : forall e, (e ∈ edit_ids (transaction entry) -> max_count all_seen log e < U32_MAX)%Z)
    by (intros e He; specialize (Hcount e He); lia).
  split.
  - intros e. exists (is_odd (max_count all_seen log e)). split; [by apply (is_undone_ok b log)|].
    rewrite (is_undone_ok b1 (op :: log)), Fc by auto.
    case_bool_decide; [by rewrite odd_flip|by rewrite Z.add_0_r].
  - assert (Hc2 : clock_room 1 (lamport_clock b1)).
    { unfold clock_room in *. rewrite Fk, tick_value; [lia|exact Hc1]. }
    destruct (redo_ok_step b1 (op :: log) (redo_stack (history b)) entry Hb1 Hr1 Hc2
                ltac:(by rewrite Fd) Fr) as (op' & b2 & Er & G).
    pose proof G as [Hb2 Gu Gr _ _ _ _ Gc]. exists op', b2. split_and!; [done..|by rewrite Gu, Fu, E|done|].
    intros Hr2 e. rewrite (is_undone_ok b2 (op' :: op :: log)), (is_undone_ok b log) by done. f_equal.
    rewrite Gc, Fc; [|by auto|].
    + case_bool_decide; [apply odd_twice|by rewrite !Z.add_0_r].
    + intros He. rewrite Fc, bool_decide_eq_true_2 by auto. specialize (Hcount e He). lia.
Qed.

(** ** Undoing to a transaction *)

(** [undo], and [redo], up to [n] times. *)
Fixpoint undo_times (n : nat) b : res (list UndoOperation * Buffer) :=
  match n with
  | O => Ret ([], b)
  | S n =>
      r ← undo b;
      match fst r with
      | Some (_, op) => rest ← undo_times n (snd r); mret (op :: fst rest, snd rest)
      | None => Ret ([], snd r)
      end
  end.
Fixpoint redo_times (n : nat) b : res (list UndoOperation * Buffer) :=
  match n with
  | O => Ret ([], b)
  | S n =>
      r ← redo b;
      match fst r with
      | Some (_, op) => rest ← redo_times n (snd r); mret (op :: fst rest, snd rest)
      | None => Ret ([], snd r)
      end
  end.

Lemma set_stacks_twice b undo redo undo' redo' :
  set_stacks (set_stacks b undo redo) undo' redo' = set_stacks b undo' redo'.
Proof. done. Qed.

Lemma set_stacks_same b : set_stacks b (undo_stack (history b)) (redo_stack (history b)) = b.
Proof. destruct b as [h m c v d r]. unfold set_stacks, with_history. cbn. by rewrite with_stacks_same. Qed.

Lemma undo_times_ok entries b pre :
  transaction_depth (history b) = 0 -> undo_stack (history b) = pre ++ rev entries ->
  undo_times (length entries) b
  = undo_or_redo_all (set_stacks b pre (redo_stack (history b) ++ entries)) (map transaction entries).
Proof.
  revert b. induction entries as [|entry entries IH]; intros b Hd E; cbn [length undo_times map undo_or_redo_all].
  - rewrite !app_nil_r in *. by rewrite <-E, set_stacks_same.
  - cbn [rev] in E. rewrite app_assoc in E. unfold undo. rewrite (pop_undo_ok _ _ entry Hd E).
    cbn [mbind res_bind fst snd].
    fold (set_stacks b (pre ++ rev entries) (redo_stack (history b) ++ [entry])).
    rewrite !undo_or_redo_stacks.
    destruct (undo_or_redo b (transaction entry)) as [[op b1]|] eqn:Eu; [|done].
    cbn [fmap res_fmap mbind res_bind mret res_ret fst snd].
    apply undo_or_redo_same in Eu as (_ & _ & Ed & _).
    rewrite IH by (cbn; congruence). cbn [set_stacks with_history history with_stacks redo_stack].
    by rewrite <-app_assoc.
Qed.

Lemma redo_times_ok entries b pre :
  transaction_depth (history b) = 0 -> redo_stack (history b) = pre ++ rev entries ->
  redo_times (length entries) b
  = undo_or_redo_all (set_stacks b (undo_stack (history b) ++ entries) pre) (map transaction entries).
Proof.
  revert b. induction entries as [|entry entries IH]; intros b Hd E; cbn [length redo_times map undo_or_redo_all].
  - rewrite !app_nil_r in *. by rewrite <-E, set_stacks_same.
  - cbn [rev] in E. rewrite app_assoc in E. unfold redo. rewrite (pop_redo_ok _ _ entry Hd E).
    cbn [mbind res_bind fst snd].
    fold (set_stacks b (undo_stack (history b) ++ [entry]) (pre ++ rev entries)).
    rewrite !undo_or_redo_stacks.
    destruct (undo_or_redo b (transaction entry)) as [[op b1]|] eqn:Eu; [|done].
    cbn [fmap res_fmap mbind res_bind mret res_ret fst snd].
    apply undo_or_redo_same in Eu as (_ & _ & Ed & _).
    rewrite IH by (cbn; congruence). cbn [set_stacks with_history history with_stacks undo_stack].
    by rewrite <-app_assoc.
Qed.

(** A run of entries moved to the redo stack and back. *)
Lemma moved_back h pre run first top :
  transaction_depth h = 0 -> undo_stack h = pre ++ run ->
  head run = Some first -> last run = Some top ->
  Forall (fun e => transaction_id e <> transaction_id first) (tail run) ->
  Forall (fun e => transaction_id e <> transaction_id top) (removelast run) ->
  exists h', remove_from_undo_until h (transaction_id first) = Ret (rev run, h')
    /\ undo_stack h' = pre /\ remove_from_redo h' (transaction_id top) = Ret (run, h).
Proof.
  intros Hd E Hf Ht Hfirst Htop. destruct run as [|e rest]; [done|]. injection Hf as ->.
  eexists. split; [by apply (remove_from_undo_until_ok _ pre first rest)|]. split; [done|].
  apply last_Some in Ht as [init Ei]. rewrite Ei in *. rewrite removelast_last in Htop.
  rewrite (remove_from_redo_ok _ (redo_stack h) top (rev init)); [|done| |by apply Forall_rev].
  - cbn [rev]. rewrite rev_involutive, <-Ei. do 2 f_equal. destruct h. cbn in *.
    by rewrite Ei, E.
  - cbn. by rewrite rev_unit.
Qed.

(** C31. With no transaction open: undoing to a transaction is undoing one by one
    until it is undone, redoing to one likewise, with the same operations and the
    same buffer (or the same failure); where the transaction is on the stack
    several times, the last one counts, and where it is not on the stack concerned,
    nothing happens.  Popping the last undo entry and popping it back off the redo
    stack restores the history, and so does moving a nonempty run of entries to the
    redo stack by the transaction of its first entry and back by that of its last,
    provided the first's transaction does not recur later in the run and the last's
    does not occur earlier in it, as with the distinct transactions of a run. *)
Theorem undo_to_spec b :
  transaction_depth (history b) = 0 ->
  (forall pre entry post, undo_stack (history b) = pre ++ entry :: post ->
     Forall (fun e => transaction_id e <> transaction_id entry) post ->
     undo_to_transaction b (transaction_id entry) = undo_times (S (length post)) b)
  /\ (forall pre entry post, redo_stack (history b) = pre ++ entry :: post ->
     Forall (fun e => transaction_id e <> transaction_id entry) post ->
     redo_to_transaction b (transaction_id entry) = redo_times (S (length post)) b)
  /\ (forall t, Forall (fun e => transaction_id e <> t) (undo_stack (history b)) ->
     undo_to_transaction b t = Ret ([], b) /\ undo_transaction b t = Ret (None, b))
  /\ (forall t, Forall (fun e => transaction_id e <> t) (redo_stack (history b)) ->
     redo_to_transaction b t = Ret ([], b))
  /\ (forall stack entry, undo_stack (history b) = stack ++ [entry] ->
     exists h, pop_undo (history b) = Ret (Some entry, h)
       /\ pop_redo h = Ret (Some entry, history b))
  /\ (forall pre run first top, undo_stack (history b) = pre ++ run ->
     head run = Some first -> last run = Some top ->
     Forall (fun e => transaction_id e <> transaction_id first) (tail run) ->
     Forall (fun e => transaction_id e <> transaction_id top) (removelast run) ->
     exists h, remove_from_undo_until (history b) (transaction_id first) = Ret (rev run, h)
       /\ undo_stack h = pre
       /\ remove_from_redo h (transaction_id top) = Ret (run, history b)).
Proof.
  intros Hd. split_and!.
  - intros pre entry post E Hp. unfold undo_to_transaction.
    rewrite (remove_from_undo_until_ok _ pre entry post) by done. cbn [mbind res_bind fst snd].
    fold (set_stacks b pre (redo_stack (history b) ++ rev (entry :: post))).
    rewrite <-(undo_times_ok _ b pre); [by rewrite length_rev|done|by rewrite rev_involutive].
  - intros pre entry post E Hp. unfold redo_to_transaction.
    rewrite (remove_from_redo_ok _ pre entry post) by done. cbn [mbind res_bind fst snd].
    fold (set_stacks b (undo_stack (history b) ++ rev (entry :: post)) pre).
    rewrite <-(redo_times_ok _ b pre); [by rewrite length_rev|done|by rewrite rev_involutive].
  - intros t Ht. destruct (remove_none (history b) t Hd) as [Hu _]. destruct (Hu Ht) as [E1 E2].
    unfold undo_to_transaction, undo_transaction. rewrite E1, E2. cbn. by destruct b.
  - intros t Ht. destruct (remove_none (history b) t Hd) as [_ Hr].
    unfold redo_to_transaction. rewrite (Hr Ht). cbn. by destruct b.
  - intros stack entry E. rewrite (pop_undo_ok _ stack entry) by done. eexists. split; [done|].
    rewrite (pop_redo_ok _ (redo_stack (history b)) entry) by done.
    do 2 f_equal. destruct (history b). cbn in *. by rewrite E.
  - intros pre run first top E Hf Ht Hfirst Htop. by apply moved_back.
Qed.

(** A buffer with one edit, typed by replica 1. *)
Module Typed.
Definition clock5 : Stamp := mkStamp (Lamport.Lamport 5 1) eq_refl.
Definition blank : Buffer := mkBuffer (history_new 0) new clock5 Global.new new ∅.
Definition or_blank {A} (r : res (A * Buffer)) : Buffer := match r with Ret (_, b) => b | Panic => blank end.
Definition typed : Buffer := or_blank (edit blank 10 11 [(0, 0)%Z] [[97%Z]]).
Definition edit6 : Stamp := mkStamp (Lamport.Lamport 6 1) eq_refl.
Definition typed_entry : HistoryEntry :=
  mkHistoryEntry (mkTransaction clock5 [edit6] Global.new) 10 11 false.

Lemma typed_stack : undo_stack (history typed) = [] ++ [typed_entry].
Proof.
  vm_compute. repeat f_equal. apply (proof_irrel (A:=_ = true)).
Qed.

Lemma new_map_ok {K V} `{!Ord K} `{!OrdLaws K} : map_ok 0 (new : TreeMap K V).
Proof. split; [apply new_ok|constructor]. Qed.

Lemma typed_ok : buffer_ok typed [].
Proof.
  split.
  - exists 0. apply new_undo_ok.
  - pose (e := mkEditOperation (snd (tick clock5)) Global.new [(0, 0)%Z] [[97%Z]]).
    destruct (map_insert_ok 0 (new : TreeMap Stamp Operation) (edit_timestamp e) (EditOp e)
                new_map_ok ltac:(unfold STACK_CAPACITY; lia)) as (m & h & _ & E & Hm & _).
    assert (Et : map_insert (new : TreeMap Stamp Operation) (edit_timestamp e) (EditOp e)
                 = Ret (operations (history typed))) by (vm_compute; reflexivity).
    rewrite E in Et. injection Et as ->. by exists h.
  - by intros x y [].
  - by intros x [].
Qed.

Lemma typed_roomy : roomy typed.
Proof. split; vm_compute; lia. Qed.
End Typed.
Import Typed.

Lemma undo_redo_spec_witness :
  exists op b1, undo typed = Ret (Some (clock5, op), b1) /\ redo_stack (history b1) = [typed_entry]
    /\ timestamp op = lamport_clock typed.
Proof.
  destruct (undo_redo_spec typed [] [] typed_entry typed_ok typed_roomy
              ltac:(vm_compute; discriminate) eq_refl typed_stack ltac:(intros; vm_compute; discriminate))
    as (op & b1 & E & F & _).
  exists op, b1. split; [exact E|]. split; [exact (flipped_redo _ _ _ _ _ _ _ F)|].
  exact (proj1 (flipped_op _ _ _ _ _ _ _ F)).
Defined.

Lemma undo_to_spec_witness : undo_to_transaction typed clock5 = undo_times 1 typed.
Proof.
  destruct (undo_to_spec typed eq_refl) as (H & _).
  exact (H [] typed_entry [] typed_stack (Forall_nil_2 _)).
Defined.
