(* ===== verification/DeliverySpec.v ===== *)
(** * What the delivery of operations promises

    Operations arrive in any order and any number of times; a buffer, without its
    fragments and text, carries each out once, after the ones it depends on, loses none,
    and has carried out all it received as soon as nothing is missing; replicas that
    received the same have carried out the same and agree on how often each edit was
    undone. *)

From S2P Require Import Prelude Clock SumTree SumTreeInvariant SumCursor SumIter KeyedTree KeyedTreeSpec.
From S2P Require Import TreeMap TreeMapSpec UndoMap UndoMapSpec History HistorySpec Buffer BufferSpec.
Local Open Scope nat_scope.

Implicit Types (b : Buffer) (op : Operation) (ops : list Operation).
Notation stamp op := (lamport (op_timestamp op)).

(** ** Queues *)

#[export] Instance operation_summary_laws : SummaryLaws OperationSummary.
Proof.
  split; [by intros []|]. intros a b c. cbn. f_equal. lia.
Qed.
#[export] Instance operation_key_dimension_laws : DimensionLaws Stamp OperationSummary.
Proof. by split. Qed.
#[export] Instance operation_keyed_laws : KeyedLaws Operation OperationSummary Stamp.
Proof. split; [done|apply stamp_min_least]. Qed.

Notation queue_sorted := (KeyedTreeSpec.sorted (T:=Operation) (Key:=Stamp)).

Definition op_lt op op' : Prop := ord_cmp (op_timestamp op) (op_timestamp op') = Lt.
Definition op_le op op' : Prop := ord_cmp (op_timestamp op) (op_timestamp op') <> Gt.

Lemma insert_op_perm op ops : insert_op op ops ≡ₚ op :: ops.
Proof.
  induction ops as [|op' ops IH]; [done|]. cbn [insert_op]. case_match; [done..|].
  rewrite IH. apply Permutation_swap.
Qed.
Lemma sort_ops_perm ops : sort_ops ops ≡ₚ ops.
Proof. induction ops as [|op ops IH]; [done|]. cbn. by rewrite insert_op_perm, IH. Qed.

Lemma op_le_trans (x y z : Operation) : op_le x y -> op_le y z -> op_le x z.
Proof. unfold op_le. apply ord_le_trans. Qed.

Lemma insert_op_sorted op ops : StronglySorted op_le ops -> StronglySorted op_le (insert_op op ops).
Proof.
  induction 1 as [|op' ops Hs IH Hf]; cbn [insert_op]; [by repeat constructor|].
  destruct (ord_cmp (op_timestamp op) (op_timestamp op')) eqn:E.
  3: { constructor; [done|]. rewrite insert_op_perm. constructor; [|done]. apply ord_gt in E.
       unfold op_le. by rewrite E. }
  all: constructor; [by constructor|]; constructor; [unfold op_le; by rewrite E|].
  all: eapply Forall_impl; [exact Hf|]; intros x Hx; apply (op_le_trans _ op'); [unfold op_le; by rewrite E|done].
Qed.
Lemma sort_ops_sorted ops : StronglySorted op_le (sort_ops ops).
Proof. induction ops as [|op ops IH]; [constructor|]. by apply insert_op_sorted. Qed.

Lemma dedup_from_sorted op ops :
  StronglySorted op_le (op :: ops) ->
  StronglySorted op_lt (dedup_from op ops)
  /\ (forall x, x ∈ dedup_from op ops -> x ∈ op :: ops)
  /\ (forall x, x ∈ op :: ops -> exists y, y ∈ dedup_from op ops /\ op_timestamp y = op_timestamp x).
Proof.
  revert op. induction ops as [|op' ops IH]; intros op Hs; cbn [dedup_from].
  - split_and!; [by repeat constructor|done|eauto].
  - apply StronglySorted_inv in Hs as [Hs Hf]. case_bool_decide as E.
    + apply StronglySorted_inv in Hs as [Hs _]. apply Forall_cons in Hf as [_ Hf].
      destruct (IH op) as (H1 & H2 & H3); [by constructor|]. split_and!; [done| |].
      * intros x Hx%H2. set_solver.
      * intros x [->|[->|Hx]%elem_of_cons]%elem_of_cons; [by apply H3; left| |by apply H3; right].
        destruct (H3 op) as (y & Hy & Ey); [by left|]. exists y. split; [done|]. congruence.
    + destruct (IH op' Hs) as (H1 & H2 & H3). split_and!.
      * constructor; [done|]. apply Forall_forall. intros x Hx%H2.
        assert (Hlt : op_lt op op').
        { apply Forall_cons in Hf as [Hle _]. unfold op_lt, op_le in *.
          destruct (ord_cmp _ _) eqn:Ec; [|done..]. apply ord_eq in Ec. congruence. }
        apply StronglySorted_inv in Hs as [_ Hf']. rewrite Forall_forall in Hf'.
        apply elem_of_cons in Hx as [->|Hx]; [done|]. specialize (Hf' x Hx). unfold op_lt, op_le in *.
        destruct (ord_cmp (op_timestamp op') (op_timestamp x)) eqn:Ec; [|by apply (ord_trans _ (op_timestamp op'))|done].
        apply ord_eq in Ec. congruence.
      * intros x [->|Hx%H2]%elem_of_cons; [by left|by right].
      * intros x [->|Hx]%elem_of_cons; [exists op; split; [by left|done]|].
        destruct (H3 x Hx) as (y & Hy & Ey). exists y. split; [by right|done].
Qed.

Lemma dedup_sorted ops :
  let l := dedup_ops (sort_ops ops) in
  StronglySorted op_lt l /\ (forall x, x ∈ l -> x ∈ ops)
  /\ (forall x, x ∈ ops -> exists y, y ∈ l /\ op_timestamp y = op_timestamp x).
Proof.
  cbv zeta. pose proof (sort_ops_sorted ops) as Hs. pose proof (sort_ops_perm ops) as Hp.
  destruct (sort_ops ops) as [|op l].
  - apply Permutation_nil_l in Hp as <-. split_and!; [constructor|done|]. by intros x ?%elem_of_nil.
  - cbn [dedup_ops]. destruct (dedup_from_sorted op l Hs) as (H1 & H2 & H3).
    split_and!; [done| |]; intros x Hx; [apply H2 in Hx|apply H3]; by rewrite ?Hp in *; rewrite ?Hp.
Qed.

Lemma op_lt_keys ops : StronglySorted op_lt ops -> NoDup (map edit_key (map (Insert (Key:=Stamp)) ops)).
Proof.
  induction 1 as [|op ops Hs IH Hf]; [constructor|]. cbn [map]. apply NoDup_cons. split; [|done].
  rewrite map_map. intros (op' & Ek & Hin)%list_elem_of_fmap. rewrite Forall_forall in Hf.
  specialize (Hf op' Hin). unfold op_lt in Hf. cbn in Ek.
  change (op_timestamp op = op_timestamp op') in Ek. by rewrite Ek, ord_refl in Hf.
Qed.

(** Inserting into a queue adds the operations that are new. *)
Lemma queue_insert_ok (q : OperationQueue) h ops :
  wf h q -> h < STACK_CAPACITY -> queue_sorted (to_list q) ->
  (forall x y, x ∈ ops \/ x ∈ to_list q -> y ∈ ops \/ y ∈ to_list q ->
     op_timestamp x = op_timestamp y -> x = y) ->
  exists q' h', queue_insert q ops = Ret q' /\ wf h' q' /\ queue_sorted (to_list q')
    /\ forall x, x ∈ to_list q' <-> x ∈ ops \/ x ∈ to_list q.
Proof.
  intros Hw Hh Hs Hu. unfold queue_insert. destruct (dedup_sorted ops) as (H1 & H2 & H3).
  set (l := dedup_ops (sort_ops ops)) in *. pose proof (op_lt_keys l H1) as Hn.
  destruct (edit_ok (Key:=Stamp) q h Hw Hh Hs (map Insert l)) as (q' & h' & -> & Hw' & El).
  exists q', h'. split; [done|]. split; [done|]. split.
  { rewrite El. apply (edited_sorted (S:=OperationSummary)); [done|by apply sort_edits_sorted]. }
  intros x. rewrite El, !list_elem_of_In, (edited_In (S:=OperationSummary)) by done. split.
  - intros [(y & [= ->] & Hy)%in_map_iff|[Hx _]]; [|by right]. left. apply list_elem_of_In, H2.
    by apply list_elem_of_In.
  - assert (Hx : x ∈ ops -> In (Insert x) (map (Insert (Key:=Stamp)) l)).
    { intros Hx. destruct (H3 x Hx) as (y & Hy & Ey). apply in_map.
      rewrite <-(Hu y x); [by apply list_elem_of_In|left; by apply H2|by left|done]. }
    intros [Ho|Hq']; [left; apply Hx; by apply list_elem_of_In|].
    apply list_elem_of_In in Hq' as Hq.
    destruct (decide (Exists (fun y => op_timestamp y = op_timestamp x) l)) as [(y & Hy & Ey)%Exists_exists|Hno].
    + left. apply Hx. rewrite <-(Hu y x); [by apply H2|left; by apply H2|by right|done].
    + right. split; [done|]. intros d (y & <- & Hy)%in_map_iff Ek. apply Hno, Exists_exists. exists y.
      split; [by apply list_elem_of_In|done].
Qed.

(** ** What has been carried out *)

Definition undo_of_op op : option UndoOperation := match op with UndoOp undo => Some undo | EditOp _ => None end.
Definition undos (applied : list Operation) : list UndoOperation := omap undo_of_op applied.

Lemma undos_In undo applied : In undo (undos applied) <-> UndoOp undo ∈ applied.
Proof.
  rewrite <-list_elem_of_In. unfold undos. rewrite list_elem_of_omap. split.
  - by intros ([|u] & Hin & [= ->]).
  - intros Hin. by exists (UndoOp undo).
Qed.

(** The version that has seen a starting point and then, latest first, some operations. *)
Definition version_of (base : Global.t) (applied : list Operation) : Global.t :=
  foldr (fun op v => Global.observe v (stamp op)) base applied.

(** Each operation came after what it depends on, and once. *)
Fixpoint causal (base : Global.t) (applied : list Operation) : Prop :=
  match applied with
  | [] => True
  | op :: applied =>
      Global.observed_all (version_of base applied) (op_version op) = true
      /\ Global.observed (version_of base applied) (stamp op) = false /\ causal base applied
  end.

(** *** Versions, entry by entry *)

Lemma stamp_wf (s : Stamp) : Lamport.wf (lamport s).
Proof.
  destruct s as [[v r] H]. cbn. unfold fits in H. cbn in H. rewrite !andb_true_iff, !Z.leb_le in H.
  unfold Lamport.wf, is_u32, is_u16. cbn. lia.
Qed.

Lemma version_of_wf base applied : Global.wf base -> Global.wf (version_of base applied).
Proof. intros. induction applied; [done|]. apply Global.observe_wf; [done|apply stamp_wf]. Qed.

Lemma get_version_of base applied r :
  Global.wf base -> (0 <= r)%Z ->
  (Global.get base r <= Global.get (version_of base applied) r)%Z
  /\ (forall op, op ∈ applied -> op_replica op = r ->
        Lamport.value (stamp op) <= Global.get (version_of base applied) r)%Z
  /\ (Global.get (version_of base applied) r = Global.get base r
      \/ exists op, op ∈ applied /\ op_replica op = r
           /\ Global.get (version_of base applied) r = Lamport.value (stamp op)).
Proof.
  intros Hb Hr. induction applied as [|op applied (IH1 & IH2 & IH3)]; cbn [version_of foldr].
  { split_and!; [lia|by intros ? ?%elem_of_nil|by left]. }
  fold (version_of base applied).
  rewrite Global.get_observe by (done || apply stamp_wf || by apply version_of_wf).
  change (Lamport.replica_id (stamp op)) with (op_replica op). split_and!.
  - case_decide; lia.
  - intros op' [->|Hin]%elem_of_cons E; [rewrite decide_True by done; lia|].
    specialize (IH2 op' Hin E). case_decide; lia.
  - case_decide as E.
    + destruct (Z.max_spec (Global.get (version_of base applied) r) (Lamport.value (stamp op))) as [[? ->]|[? ->]].
      * right. exists op. split_and!; [by left|done|done].
      * destruct IH3 as [IH3|(op' & Hin & ? & ?)]; [by left|right]. exists op'. by split; [right|].
    + destruct IH3 as [IH3|(op' & Hin & ? & ?)]; [by left|right]. exists op'. by split; [right|].
Qed.

Lemma observed_all_get a v :
  Global.wf a -> Global.wf v ->
  Global.observed_all a v = true <-> forall r, (0 <= r)%Z -> (Global.get v r <= Global.get a r)%Z.
Proof.
  intros Ha Hv. rewrite Global.observed_all_entry by done. split.
  - intros H r Hr. rewrite !Global.get_entry. apply H.
  - intros H i. specialize (H (Z.of_nat i) ltac:(lia)). by rewrite !Global.get_entry, Nat2Z.id in H.
Qed.

Lemma op_replica_nonneg op : (0 <= op_replica op)%Z.
Proof. pose proof (stamp_wf (op_timestamp op)) as [_ [H _]]. exact H. Qed.

Lemma observed_iff base applied op :
  Global.observed (version_of base applied) (stamp op) = true
  <-> (Lamport.value (stamp op) <= Global.get (version_of base applied) (op_replica op))%Z.
Proof. unfold Global.observed. apply Z.leb_le. Qed.

(** ** The operations there are *)
Section Delivery.
Context (base : Global.t) (U : Operation -> Prop).

(** Operations have their own timestamps, later than all that they depend on; one
    replica's depend on one another in turn; and what they depend on is in the base
    or is an operation. *)
Record causal_ops : Prop := {
  base_wf : Global.wf base;
  ops_unique op op' : U op -> U op' -> op_timestamp op = op_timestamp op' -> op = op';
  versions_wf op : U op -> Global.wf (op_version op);
  after_past op r : U op -> (0 <= r)%Z -> (Global.get (op_version op) r < Lamport.value (stamp op))%Z;
  in_turn op op' : U op -> U op' -> op_replica op' = op_replica op ->
    (Lamport.value (stamp op') < Lamport.value (stamp op))%Z ->
    (Lamport.value (stamp op') <= Global.get (op_version op) (op_replica op))%Z;
  after_base op : U op -> (Global.get base (op_replica op) < Lamport.value (stamp op))%Z;
}.
Context (HU : causal_ops).

(** A set of operations with all that they depend on. *)
Definition closed (received : Operation -> Prop) : Prop :=
  forall op r, received op -> (0 <= r)%Z ->
    (Global.get (op_version op) r <= Global.get base r)%Z
    \/ exists op', received op' /\ op_replica op' = r
         /\ Lamport.value (stamp op') = Global.get (op_version op) r.

Lemma same_op op op' :
  U op -> U op' -> op_replica op = op_replica op' ->
  Lamport.value (stamp op) = Lamport.value (stamp op') -> op = op'.
Proof.
  intros H1 H2 Er Ev. apply (ops_unique HU); [done..|]. apply stamp_eq.
  unfold op_replica in Er. destruct (stamp op), (stamp op'). cbn in *. by subst.
Qed.

(** What has been carried out holds all that came before in the same replica. *)
Lemma causal_turn applied op op' :
  Forall U applied -> causal base applied -> op ∈ applied -> U op' ->
  op_replica op' = op_replica op -> (Lamport.value (stamp op') <= Lamport.value (stamp op))%Z ->
  op' ∈ applied.
Proof.
  revert op op'. induction applied as [|a applied IH]; intros op op' Ha Hc Hin Hu Er Hv; [by apply elem_of_nil in Hin|].
  apply Forall_cons in Ha as [Hua Ha]. cbn [causal] in Hc. destruct Hc as (Hall & _ & Hc).
  apply elem_of_cons in Hin as [->|Hin]; [|right; by apply (IH op)].
  destruct (decide (Lamport.value (stamp op') = Lamport.value (stamp a))) as [Ev|Ev].
  { rewrite (same_op op' a) by done. by left. }
  right. rewrite observed_all_get in Hall
    by (by apply version_of_wf, (base_wf HU) || by apply (versions_wf HU)).
  pose proof (in_turn HU a op' Hua Hu Er ltac:(lia)) as Ht.
  specialize (Hall (op_replica a) (op_replica_nonneg a)).
  destruct (get_version_of base applied (op_replica a) (base_wf HU) (op_replica_nonneg a))
    as (_ & _ & [E|(x & Hx & Ex & Evx)]).
  - pose proof (after_base HU op' Hu) as Hb. rewrite Er in Hb. lia.
  - apply (IH x); [done..|congruence|lia].
Qed.

(** An operation has been observed exactly when it has been carried out. *)
Lemma observed_applied applied op :
  Forall U applied -> causal base applied -> U op ->
  Global.observed (version_of base applied) (stamp op) = true <-> op ∈ applied.
Proof.
  intros Ha Hc Hu. rewrite observed_iff.
  destruct (get_version_of base applied (op_replica op) (base_wf HU) (op_replica_nonneg op))
    as (_ & Hge & [E|(x & Hx & Ex & Ev)]); split; intros H.
  - pose proof (after_base HU op Hu). lia.
  - by apply Hge.
  - apply (causal_turn applied x); [done..|lia].
  - by apply Hge.
Qed.

(** *** The state of a buffer *)

Record sound b (applied : list Operation) : Prop := {
  sound_undo_map : exists h, undo_ok h (undo_map b) (undos applied);
  sound_operations : exists h, map_ok h (operations (history b));
  sound_queue : exists h, wf h (deferred_ops b) /\ queue_sorted (to_list (deferred_ops b));
  sound_version : buffer_version b = version_of base applied;
  sound_causal : causal base applied;
  sound_applied : Forall U applied;
  sound_deferred : Forall U (to_list (deferred_ops b));
}.

Lemma unique_undos ops : Forall U ops -> unique_stamps (undos ops).
Proof.
  intros Ho u u' Hu%undos_In Hu'%undos_In E. rewrite Forall_forall in Ho.
  assert (Eu : UndoOp u = UndoOp u') by (by apply (ops_unique HU); auto). congruence.
Qed.

Lemma observe_op_sound b applied op :
  sound b applied -> U op -> Global.observed_all (buffer_version b) (op_version op) = true ->
  Global.observed (buffer_version b) (stamp op) = false -> undo_of_op op = None ->
  sound (observe_op b (op_timestamp op)) (op :: applied).
Proof.
  intros [Hm Ho Hq Hv Hc Ha Hd] Hu H1 H2 Hn. destruct op as [edit|]; [|done].
  split; [done|done|done| | |by constructor|done].
  - cbn. by rewrite Hv.
  - by rewrite Hv in *.
Qed.

(** Trees that a cursor can walk. *)
Definition walkable b : Prop := roomy b /\ height (deferred_ops b) < STACK_CAPACITY.

(** Carrying out an operation that can be. *)
Lemma apply_op_ok b applied op :
  sound b applied -> U op -> walkable b ->
  Global.observed_all (buffer_version b) (op_version op) = true ->
  exists b', history b' = history b /\ deferred_ops b' = deferred_ops b
    /\ deferred_replicas b' = deferred_replicas b
    /\ ((op ∈ applied /\ apply_op b op = Ret ([], b'))
        \/ (op ∉ applied /\ apply_op b op = Ret ([op], b') /\ sound b' (op :: applied)))
    /\ (op ∈ applied -> b' = b).
Proof.
  intros Hb Hu [[Hh _] _] Hall. pose proof Hb as [Hm Ho Hq Hv Hc Ha Hd].
  pose proof (observed_applied applied op Ha Hc Hu) as Hobs. rewrite <-Hv in Hobs. unfold apply_op.
  destruct (Global.observed (buffer_version b) (stamp op)) eqn:E.
  { exists b. split_and!; try done. left. split; [by apply Hobs|done]. }
  assert (Hn : op ∉ applied) by (by intros ?%Hobs). destruct op as [edit|undo].
  - exists (observe_op b (edit_timestamp edit)). split_and!; [done..| |done]. right. split_and!; [done..|].
    by apply (observe_op_sound b applied (EditOp edit)).
  - destruct Hm as (h & Hm). rewrite (wf_height h) in Hh by apply Hm.
    destruct (insert_ok h _ (undos applied) undo Hm Hh) as (m & h' & Em & Hm').
    { apply (unique_undos (UndoOp undo :: applied)). by constructor. }
    unfold apply_undo. rewrite Em. cbn [mbind res_bind mret res_ret].
    exists (observe_op (with_undo_map b m) (timestamp undo)). split_and!; [done..| |done].
    right. split_and!; [done..|]. split; [by exists h'|done|done| | |by constructor|done].
    + cbn. by rewrite Hv.
    + by rewrite Hv in *.
Qed.

(** One turn of the loop: the operation is carried out, was before, or is put aside. *)
Lemma deliver_ok b applied op :
  sound b applied -> U op -> walkable b ->
  exists new rest b', deliver b op = Ret (new, rest, b') /\ sound b' (new ++ applied)
    /\ history b' = history b /\ deferred_ops b' = deferred_ops b
    /\ ((rest = [] /\ deferred_replicas b' = deferred_replicas b /\ op ∈ new ++ applied
           /\ (new = [] \/ new = [op] /\ op ∉ applied))
        \/ (can_apply_op b op = false /\ rest = [op] /\ new = [])).
Proof.
  intros Hb Hu Hw. unfold deliver. destruct (can_apply_op b op) eqn:E.
  - unfold can_apply_op in E. case_bool_decide; [done|].
    destruct (apply_op_ok b applied op Hb Hu Hw E) as (b' & Eh & Eq & Er & [[Hin ->]|(Hn & -> & Hb')] & Hsame).
    + specialize (Hsame Hin) as ->. exists [], [], b. split_and!; [done..|]. left. by split_and!; try left.
    + exists [op], [], b'. split_and!; [done..|]. left. split_and!; [done|done|by left|by right].
  - exists [], [op], (defer b op). split_and!; [done| |done|done|by right].
    destruct Hb as [Hm Ho Hq Hv Hc Ha Hd]. by split.
Qed.

(** The trees passed through stay walkable. *)
Fixpoint deliver_walkable b ops : Prop :=
  walkable b /\ match ops with
                | [] => True
                | op :: ops => match deliver b op with Ret (_, _, b) => deliver_walkable b ops | Panic => True end
                end.

Lemma deliver_walkable_here b ops : deliver_walkable b ops -> walkable b.
Proof. by destruct ops as [|? ?]; intros [? _]. Qed.

(** What a loop over [ops] did: [new] was carried out, [rest] put aside. *)
Record looped b (applied ops new rest : list Operation) b' : Prop := {
  looped_sound : sound b' (rev new ++ applied);
  looped_queue : deferred_ops b' = deferred_ops b;
  looped_all x : x ∈ ops -> x ∈ rest \/ x ∈ rev new ++ applied;
  looped_new x : x ∈ new -> x ∈ ops /\ x ∉ applied;
  looped_rest x : x ∈ rest -> x ∈ ops;
  looped_once : NoDup new;
}.

Lemma looped_cons b b1 applied op ops new rest new' rest' b' :
  looped b1 (new ++ applied) ops new' rest' b' -> deferred_ops b1 = deferred_ops b ->
  (rest = [] /\ op ∈ new ++ applied /\ (new = [] \/ new = [op] /\ op ∉ applied) \/ rest = [op] /\ new = []) ->
  looped b applied (op :: ops) (new ++ new') (rest ++ rest') b'.
Proof.
  intros [Hs Hq Hall Hnew Hrest Honce] Eq Hcase.
  assert (El : rev (new ++ new') ++ applied = rev new' ++ new ++ applied).
  { rewrite rev_app_distr, <-app_assoc. f_equal. f_equal. by destruct Hcase as [(_ & _ & [->|[-> _]])|[_ ->]]. }
  split; rewrite ?El; [done|congruence| | | |].
  - intros x [->|Hx]%elem_of_cons.
    + destruct Hcase as [(-> & Hin & _)|[-> ->]]; [right; apply elem_of_app; by right|left; by left].
    + destruct (Hall x Hx); [left; apply elem_of_app; by right|by right].
  - intros x [Hx|Hx]%elem_of_app.
    + destruct Hcase as [(_ & _ & [->|[-> Hn]])|[_ ->]]; try by apply elem_of_nil in Hx.
      apply list_elem_of_singleton in Hx as ->. split; [by left|done].
    + destruct (Hnew x Hx) as [? Hn]. split; [by right|]. intros ?. apply Hn, elem_of_app. by right.
  - intros x [Hx|Hx]%elem_of_app; [|right; by apply Hrest].
    destruct Hcase as [(-> & _)|[-> _]]; [by apply elem_of_nil in Hx|].
    apply list_elem_of_singleton in Hx as ->. by left.
  - apply NoDup_app. split_and!; [| |done].
    + destruct Hcase as [(_ & _ & [->|[-> _]])|[_ ->]]; [constructor|apply NoDup_singleton|constructor].
    + intros x Hx Hx'. apply (proj2 (Hnew x Hx')), elem_of_app. by left.
Qed.

Lemma deliver_all_ok b applied ops :
  sound b applied -> Forall U ops -> deliver_walkable b ops ->
  exists new rest b', deliver_all b ops = Ret (new, rest, b') /\ looped b applied ops new rest b'
    /\ history b' = history b.
Proof.
  revert b applied. induction ops as [|op ops IH]; intros b applied Hb Hu Hw; cbn [deliver_all].
  - exists [], [], b. split; [done|]. split; [|done].
    split; [done|done|by intros ? ?%elem_of_nil..|constructor].
  - apply Forall_cons in Hu as [Hu Hus]. pose proof (deliver_walkable_here _ _ Hw) as Hw0.
    destruct Hw as [_ Hw].
    destruct (deliver_ok b applied op Hb Hu Hw0) as (new & rest & b1 & E & Hb1 & Eh & Eq & Hcase).
    rewrite E in *. cbn [mbind res_bind].
    destruct (IH b1 (new ++ applied) Hb1 Hus Hw) as (new' & rest' & b' & -> & Hl & Eh').
    cbn [mbind res_bind]. exists (new ++ new'), (rest ++ rest'), b'. split; [done|].
    split; [|congruence]. apply (looped_cons b b1); [done|done|]. naive_solver.
Qed.

(** The first loop, which also fills the history. *)
Fixpoint receive_walkable b ops : Prop :=
  walkable b
  /\ match ops with
     | [] => True
     | op :: ops =>
         match push (history b) op with
         | Ret h =>
             walkable (with_history b h)
             /\ match deliver (with_history b h) op with
                | Ret (_, _, b) => receive_walkable b ops
                | Panic => True
                end
         | Panic => True
         end
     end.

Lemma receive_walkable_here b ops : receive_walkable b ops -> walkable b.
Proof. by destruct ops as [|? ?]; intros [? _]. Qed.

Lemma push_sound b applied op :
  sound b applied -> walkable b ->
  exists h, push (history b) op = Ret h /\ sound (with_history b h) applied.
Proof.
  intros [Hm (ho & Ho) Hq Hv Hc Ha Hd] [[_ Hh] _]. rewrite (wf_height ho) in Hh by apply Ho.
  destruct (map_insert_ok ho _ (op_timestamp op) op Ho Hh) as (m & h' & _ & E & Hm' & _).
  unfold push. rewrite E. cbn [mbind res_bind mret res_ret]. eexists. split; [done|].
  split; [done|by exists h'|done..].
Qed.

Lemma receive_all_ok b applied ops :
  sound b applied -> Forall U ops -> receive_walkable b ops ->
  exists new rest b', receive_all b ops = Ret (new, rest, b') /\ looped b applied ops new rest b'.
Proof.
  revert b applied. induction ops as [|op ops IH]; intros b applied Hb Hu Hw; cbn [receive_all].
  - exists [], [], b. split; [done|]. split; [done|done|by intros ? ?%elem_of_nil..|constructor].
  - apply Forall_cons in Hu as [Hu Hus]. pose proof (receive_walkable_here _ _ Hw) as Hw0.
    destruct Hw as [_ Hw]. destruct (push_sound b applied op Hb Hw0) as (h & Ep & Hbh). rewrite Ep in *.
    destruct Hw as [Hwh Hw]. cbn [mbind res_bind].
    destruct (deliver_ok _ applied op Hbh Hu Hwh) as (new & rest & b1 & E & Hb1 & _ & Eq & Hcase).
    rewrite E in *. cbn [mbind res_bind].
    destruct (IH b1 (new ++ applied) Hb1 Hus Hw) as (new' & rest' & b' & -> & Hl).
    cbn [mbind res_bind]. exists (new ++ new'), (rest ++ rest'), b'. split; [done|].
    apply (looped_cons b b1); [done|done|]. naive_solver.
Qed.

(** *** Nothing that could be carried out stays aside *)

Lemma can_apply b applied received op :
  sound b applied -> deferred_replicas b = ∅ -> U op -> closed received -> received op ->
  (forall x, received x -> (Lamport.value (stamp x) < Lamport.value (stamp op))%Z -> x ∈ applied) ->
  can_apply_op b op = true.
Proof.
  intros Hb He Hu Hcl Hop Hearlier. unfold can_apply_op. rewrite He, bool_decide_eq_false_2 by set_solver.
  rewrite (sound_version _ _ Hb).
  apply observed_all_get; [by apply version_of_wf, (base_wf HU)|by apply (versions_wf HU)|].
  intros r Hr. destruct (get_version_of base applied r (base_wf HU) Hr) as (Hge & Hin & _).
  destruct (Hcl op r Hop Hr) as [H|(x & Hx & Er & Ev)]; [lia|]. rewrite <-Ev. apply Hin; [|done].
  apply Hearlier; [done|]. rewrite Ev. by apply (after_past HU).
Qed.

Lemma op_lt_value op op' : op_lt op op' -> (Lamport.value (stamp op) <= Lamport.value (stamp op'))%Z.
Proof. unfold op_lt. rewrite stamp_lt, Lamport.lt_iff. lia. Qed.

Lemma deliver_all_complete b applied ops :
  sound b applied -> Forall U ops -> deliver_walkable b ops -> deferred_replicas b = ∅ ->
  StronglySorted op_lt ops -> closed (fun x => x ∈ applied \/ x ∈ ops) ->
  exists new b', deliver_all b ops = Ret (new, [], b').
Proof.
  revert b applied. induction ops as [|op ops IH]; intros b applied Hb Hu Hw He Hs Hcl; cbn [deliver_all].
  - by exists [], b.
  - apply Forall_cons in Hu as [Hu Hus]. pose proof (deliver_walkable_here _ _ Hw) as Hw0.
    destruct Hw as [_ Hw]. apply StronglySorted_inv in Hs as [Hs Hf]. rewrite Forall_forall in Hf.
    assert (Hcan : can_apply_op b op = true).
    { apply (can_apply b applied _ op Hb He Hu Hcl); [right; by left|].
      intros x [Hx|[->|Hx]%elem_of_cons] Hv; [done|lia|]. apply Hf, op_lt_value in Hx. lia. }
    destruct (deliver_ok b applied op Hb Hu Hw0)
      as (new & rest & b1 & E & Hb1 & _ & _ & [(-> & Er & Hin & Hn)|(Hno & _)]); [|congruence].
    rewrite E in *. cbn [mbind res_bind].
    destruct (IH b1 (new ++ applied) Hb1 Hus Hw ltac:(congruence) Hs) as (new' & b' & ->).
    { intros x r Hx Hr. destruct (Hcl x r) as [?|(y & Hy & ?)]; [|done|by left|right; exists y; split; [|done]].
      - destruct Hx as [[Hx|Hx]%elem_of_app|Hx]; [|by left|right; by right].
        destruct Hn as [->|[-> _]]; [by apply elem_of_nil in Hx|]. right. set_solver.
      - destruct Hy as [Hy|[->|Hy]%elem_of_cons]; [left; apply elem_of_app; by right|by left|by right]. }
    by exists (new ++ new'), b'.
Qed.

(** *** Flushing, and receiving *)

Definition flush_walkable b : Prop :=
  walkable b /\ match queue_iter (deferred_ops b) with
                | Ret ops => deliver_walkable (with_deferred b new ∅) ops
                | Panic => True
                end.

Lemma with_deferred_sound b applied (q : OperationQueue) h replicas :
  sound b applied -> wf h q -> queue_sorted (to_list q) -> Forall U (to_list q) ->
  sound (with_deferred b q replicas) applied.
Proof. intros [Hm Ho Hq Hv Hc Ha Hd] Hw Hs Hu. split; [done|done|by exists h|done..]. Qed.

(** Putting operations aside. *)
Lemma defer_ops_ok b applied ops :
  sound b applied -> Forall U ops -> height (deferred_ops b) < STACK_CAPACITY ->
  exists q, defer_ops b ops = Ret (with_deferred b q (deferred_replicas b))
    /\ sound (with_deferred b q (deferred_replicas b)) applied
    /\ forall x, x ∈ to_list q <-> x ∈ ops \/ x ∈ to_list (deferred_ops b).
Proof.
  intros Hb Hu Hh. destruct (sound_queue _ _ Hb) as (h & Hw & Hs). rewrite (wf_height h) in Hh by done.
  pose proof (sound_deferred _ _ Hb) as Hd. rewrite Forall_forall in Hu, Hd.
  destruct (queue_insert_ok (deferred_ops b) h ops Hw Hh Hs) as (q & h' & E & Hw' & Hs' & Hin).
  { intros x y Hx Hy. apply (ops_unique HU); [destruct Hx|destruct Hy]; auto. }
  unfold defer_ops. rewrite E. cbn [mbind res_bind mret res_ret]. exists q. split; [done|].
  split; [|done]. apply (with_deferred_sound b applied q h'); [done..|].
  apply Forall_forall. intros x [Hx|Hx]%Hin; auto.
Qed.

(** The operations put aside by a buffer. *)
Definition pending b : list Operation := to_list (deferred_ops b).

Lemma flush_ok b applied :
  sound b applied -> flush_walkable b ->
  exists new b', flush_deferred_ops b = Ret (new, b') /\ sound b' (rev new ++ applied)
    /\ NoDup new /\ (forall x, x ∈ new -> x ∉ applied)
    /\ (forall x, x ∈ rev new ++ applied \/ x ∈ pending b' <-> x ∈ applied \/ x ∈ pending b)
    /\ (closed (fun x => x ∈ applied \/ x ∈ pending b) -> pending b' = []).
Proof.
  intros Hb [[_ Hh] Hw]. destruct (sound_queue _ _ Hb) as (h & Hwq & Hs).
  rewrite (wf_height h) in Hh by done. unfold queue_iter in Hw. rewrite (iter_ok h _ Hwq Hh) in Hw.
  pose proof (sound_deferred _ _ Hb) as Hd.
  assert (Hb0 : sound (with_deferred b new ∅) applied)
    by (apply (with_deferred_sound b applied new 0); [done|apply new_ok|constructor|constructor]).
  destruct (deliver_all_ok _ applied _ Hb0 Hd Hw) as (new & rest & b1 & E & [Hb1 Eq Hall Hnew Hrest Honce] & _).
  assert (Hu : Forall U rest)
    by (rewrite Forall_forall in *; intros x Hx; apply Hd, Hrest, Hx).
  destruct (defer_ops_ok b1 _ rest Hb1 Hu) as (q & Ed & Hb' & Hq).
  { rewrite Eq. cbn. unfold STACK_CAPACITY. lia. }
  unfold flush_deferred_ops. cbn [drain]. unfold queue_iter. rewrite (iter_ok h _ Hwq Hh).
  cbn [mbind res_bind]. rewrite E. cbn [mbind res_bind]. rewrite Ed. cbn [mbind res_bind mret res_ret].
  eexists new, _. split; [done|]. rewrite Eq in Hq. unfold pending. cbn [with_deferred deferred_ops].
  split_and!; [done|done|by intros x [_ ?]%Hnew| |].
  - intros x. rewrite Hq. cbn [with_deferred deferred_ops]. split.
    + intros [[Hx|Hx]%elem_of_app|[Hx|Hx]]; [|by left|right; by apply Hrest|by apply elem_of_nil in Hx].
      right. by apply Hnew, elem_of_rev.
    + intros [Hx|Hx]; [left; apply elem_of_app; by right|]. destruct (Hall x Hx); [right; by left|by left].
  - intros Hcl. destruct (deliver_all_complete _ applied _ Hb0 Hd Hw eq_refl Hs Hcl) as (n0 & b2 & E').
    rewrite E' in E. injection E as _ <- _. destruct (to_list q) as [|x l]; [done|].
    destruct (proj1 (Hq x) ltac:(by left)) as [Hx|Hx]; by apply elem_of_nil in Hx.
Qed.

Definition apply_walkable b ops : Prop :=
  receive_walkable b ops
  /\ match receive_all b ops with
     | Ret (_, deferred, b) =>
         height (deferred_ops b) < STACK_CAPACITY
         /\ match defer_ops b deferred with Ret b => flush_walkable b | Panic => True end
     | Panic => True
     end.

Lemma apply_ops_ok b applied ops :
  sound b applied -> Forall U ops -> apply_walkable b ops ->
  exists new b', apply_ops b ops = Ret (new, b') /\ sound b' (rev new ++ applied)
    /\ NoDup new /\ (forall x, x ∈ new -> x ∉ applied)
    /\ (forall x, x ∈ rev new ++ applied \/ x ∈ pending b'
                  <-> x ∈ applied \/ x ∈ pending b \/ x ∈ ops)
    /\ (closed (fun x => x ∈ applied \/ x ∈ pending b \/ x ∈ ops) -> pending b' = []).
Proof.
  intros Hb Hu [Hw Hw']. destruct (receive_all_ok b applied ops Hb Hu Hw)
    as (new & rest & b1 & E & [Hb1 Eq Hall Hnew Hrest Honce]).
  rewrite E in Hw'. destruct Hw' as [Hh Hw'].
  assert (Hur : Forall U rest)
    by (rewrite Forall_forall in *; intros x Hx; apply Hu, Hrest, Hx).
  destruct (defer_ops_ok b1 _ rest Hb1 Hur Hh) as (q & Ed & Hb2 & Hq). rewrite Ed in Hw'.
  destruct (flush_ok _ _ Hb2 Hw') as (new' & b' & Ef & Hb' & Honce' & Hnew' & Hin & Hcl).
  unfold apply_ops. rewrite E. cbn [mbind res_bind]. rewrite Ed. cbn [mbind res_bind]. rewrite Ef.
  cbn [mbind res_bind mret res_ret fst snd]. exists (new ++ new'), b'. split; [done|].
  unfold pending in Hin, Hcl. cbn [with_deferred deferred_ops] in Hin, Hcl.
  assert (Hset : forall x, (x ∈ rev new ++ applied \/ x ∈ to_list q)
                           <-> x ∈ applied \/ x ∈ pending b \/ x ∈ ops).
  { intros x. rewrite Hq, Eq. split.
    - intros [[Hx|Hx]%elem_of_app|[Hx|Hx]]; [|by left|right; right; by apply Hrest|right; by left].
      right. right. by apply Hnew, elem_of_rev.
    - intros [Hx|[Hx|Hx]]; [left; apply elem_of_app; by right|right; by right|].
      destruct (Hall x Hx); [right; by left|by left]. }
  rewrite rev_app_distr, <-app_assoc. split_and!; [done| | | |].
  - apply NoDup_app. split_and!; [done| |done]. intros x Hx Hx'. apply (Hnew' x Hx'), elem_of_app. left.
    by apply elem_of_rev.
  - intros x [Hx|Hx]%elem_of_app; [by apply Hnew|]. intros Ha. apply (Hnew' x Hx), elem_of_app. by right.
  - intros x. unfold pending at 1. rewrite Hin. apply Hset.
  - intros Hc. apply Hcl. intros x r Hx Hr. apply Hset in Hx.
    destruct (Hc x r Hx Hr) as [?|(y & Hy & ?)]; [by left|right]. exists y. split; [by apply Hset|done].
Qed.

(** ** Replicas *)

(** What two replicas that carried out the same operations agree on. *)
Lemma same_applied b1 b2 applied1 applied2 :
  sound b1 applied1 -> sound b2 applied2 -> (forall x, x ∈ applied1 <-> x ∈ applied2) ->
  buffer_version b1 = buffer_version b2
  /\ (walkable b1 -> walkable b2 ->
        (forall e, undo_count (undo_map b1) e = undo_count (undo_map b2) e)
        /\ (forall f, is_visible f (undo_map b1) = is_visible f (undo_map b2)
              /\ forall v, was_visible f v (undo_map b1) = was_visible f v (undo_map b2))).
Proof.
  intros H1 H2 Hin. split.
  - rewrite (sound_version _ _ H1), (sound_version _ _ H2).
    assert (Hle : forall l l' r, (forall x, x ∈ l -> x ∈ l') -> (0 <= r)%Z ->
              (Global.get (version_of base l) r <= Global.get (version_of base l') r)%Z).
    { intros l l' r Hl Hr. destruct (get_version_of base l r (base_wf HU) Hr) as (_ & _ & Hc).
      destruct (get_version_of base l' r (base_wf HU) Hr) as (Hb & Hi & _).
      destruct Hc as [->|(x & Hx & Er & ->)]; [done|]. by apply Hi; [apply Hl|]. }
    apply Global.ext; [by apply version_of_wf, (base_wf HU)..|]. intros r Hr.
    apply Z.le_antisymm; apply Hle; naive_solver.
  - intros [[Hh1 _] _] [[Hh2 _] _]. destruct (sound_undo_map _ _ H1) as (h1 & Hm1).
    destruct (sound_undo_map _ _ H2) as (h2 & Hm2).
    rewrite (wf_height h1) in Hh1 by apply Hm1. rewrite (wf_height h2) in Hh2 by apply Hm2.
    assert (Hq : forall seen e, max_count seen (undos applied1) e = max_count seen (undos applied2) e)
      by (intros; apply max_count_same; intros op; by rewrite !undos_In).
    split; [|apply visible_same]; intros e; [| |intros v];
      destruct (queries_ok h1 _ _ e Hm1 Hh1) as (E1 & E2 & E3);
      destruct (queries_ok h2 _ _ e Hm2 Hh2) as (F1 & F2 & F3);
      rewrite ?E1, ?E2, ?E3, ?F1, ?F2, ?F3; by rewrite Hq.
Qed.
End Delivery.

(** C23. Delivery of remote operations, as far as the tree of operations, the version,
    the undo map and the queue of deferred operations go; what an operation does to
    fragments and text is not part of this model, and so neither are the failures
    of that part.  Given operations ([causal_ops]) that are told apart by their
    timestamps, each later than all it depends on, each depending on the earlier
    operations of its own replica and none already in the version started from,
    and a buffer that carried out some of them in an order that respects the
    dependencies ([sound]): receiving any of them, in whatever order and however
    often, does not fail in this part, provided the sum trees passed through are
    below the cursors' 16 levels ([apply_walkable]).  Each operation is carried out
    at most once, after all it depends on, and the version and the undo map are those
    of the operations carried out; every operation received so far is carried out or
    waits in the queue; and when the operations received include all that they depend
    on, none waits. *)
Theorem delivery_spec base U b applied ops :
  causal_ops base U -> sound base U b applied -> Forall U ops -> apply_walkable b ops ->
  exists new b', apply_ops b ops = Ret (new, b') /\ sound base U b' (rev new ++ applied)
    /\ NoDup new /\ (forall x, x ∈ new -> x ∉ applied)
    /\ (forall x, x ∈ rev new ++ applied \/ x ∈ pending b'
                  <-> x ∈ applied \/ x ∈ pending b \/ x ∈ ops)
    /\ (closed base (fun x => x ∈ applied \/ x ∈ pending b \/ x ∈ ops) -> pending b' = []).
Proof. intros. by apply apply_ops_ok. Qed.

(** C24. Two replicas that have received the same operations of a causal system
    ([causal_ops]: timestamps their own and later than all they depend on, each
    replica's operations depending on its earlier ones, none in the version started
    from), with all that they depend on, in different orders and batches, whose
    trees stay below the cursors' 16 levels ([apply_walkable], [walkable]): both have
    carried out the same operations and nothing waits, they are at the same
    version, and their undo maps agree on how often each edit was undone, hence on
    whether a given fragment record is, and was at any version, visible.  The
    fragments and the text themselves, which remote operations also change, are not
    part of this model, so it does not say that the texts are equal. *)
Theorem replicas_converge base U b1 b2 applied1 applied2 ops1 ops2 :
  causal_ops base U -> sound base U b1 applied1 -> sound base U b2 applied2 ->
  Forall U ops1 -> Forall U ops2 -> apply_walkable b1 ops1 -> apply_walkable b2 ops2 ->
  (forall x, x ∈ applied1 \/ x ∈ pending b1 \/ x ∈ ops1 <-> x ∈ applied2 \/ x ∈ pending b2 \/ x ∈ ops2) ->
  closed base (fun x => x ∈ applied1 \/ x ∈ pending b1 \/ x ∈ ops1) ->
  exists new1 b1' new2 b2', apply_ops b1 ops1 = Ret (new1, b1') /\ apply_ops b2 ops2 = Ret (new2, b2')
    /\ pending b1' = [] /\ pending b2' = []
    /\ (forall x, x ∈ rev new1 ++ applied1 <-> x ∈ rev new2 ++ applied2)
    /\ buffer_version b1' = buffer_version b2'
    /\ (walkable b1' -> walkable b2' ->
          (forall e, undo_count (undo_map b1') e = undo_count (undo_map b2') e)
          /\ (forall f, is_visible f (undo_map b1') = is_visible f (undo_map b2')
                /\ forall v, was_visible f v (undo_map b1') = was_visible f v (undo_map b2'))).
Proof.
  intros HU H1 H2 Hu1 Hu2 Hw1 Hw2 Hsame Hcl.
  destruct (apply_ops_ok base U HU b1 applied1 ops1 H1 Hu1 Hw1) as (new1 & b1' & E1 & S1 & _ & _ & I1 & C1).
  destruct (apply_ops_ok base U HU b2 applied2 ops2 H2 Hu2 Hw2) as (new2 & b2' & E2 & S2 & _ & _ & I2 & C2).
  exists new1, b1', new2, b2'.
  assert (Hcl2 : closed base (fun x => x ∈ applied2 \/ x ∈ pending b2 \/ x ∈ ops2)).
  { intros x r Hx Hr. apply Hsame in Hx. destruct (Hcl x r Hx Hr) as [?|(y & Hy & ?)]; [by left|right].
    exists y. split; [by apply Hsame|done]. }
  specialize (C1 Hcl). specialize (C2 Hcl2).
  assert (Hin : forall x, x ∈ rev new1 ++ applied1 <-> x ∈ rev new2 ++ applied2).
  { intros x. specialize (I1 x). specialize (I2 x). rewrite C1 in I1. rewrite C2 in I2.
    specialize (Hsame x). set_solver. }
  split_and!; [done..| |]; by apply (same_applied base U HU _ _ _ _ S1 S2).
Qed.

(** Replica 1 types, replica 2 types after it and undoes that, and all arrives in the
    wrong order. *)
Module Three.
Definition s1 : Stamp := mkStamp (Lamport.Lamport 1 1) eq_refl.
Definition s2 : Stamp := mkStamp (Lamport.Lamport 2 2) eq_refl.
Definition s3 : Stamp := mkStamp (Lamport.Lamport 3 2) eq_refl.
Definition op1 : Operation := EditOp (mkEditOperation s1 Global.new [] []).
Definition op2 : Operation := EditOp (mkEditOperation s2 (Global.Global [0; 1]%Z) [] []).
Definition op3 : Operation := UndoOp (mkUndo s3 (Global.Global [0; 1; 2]%Z) {[s1 := 1%Z]}).
Definition all3 (op : Operation) : Prop := op = op1 \/ op = op2 \/ op = op3.

Definition blank3 : Buffer :=
  mkBuffer (history_new 0) new (mkStamp (Lamport.Lamport 1 3) eq_refl) Global.new new ∅.

Lemma get_three r :
  Global.get Global.new r = 0%Z /\ (Global.get (Global.Global [0; 1]) r <= 1)%Z
  /\ (Global.get (Global.Global [0; 1; 2]) r <= 2)%Z.
Proof. unfold Global.get. cbn. destruct (Z.to_nat r) as [|[|[|[|n]]]]; cbn; lia. Qed.

Lemma all3_causal : causal_ops Global.new all3.
Proof.
  split.
  - by split; [constructor|].
  - intros op op' [->|[->| ->]] [->|[->| ->]] [=]; done.
  - intros op [->|[->| ->]]; (split; [repeat constructor; lia|vm_compute; discriminate]).
  - intros op r Hop _. pose proof (get_three r) as (? & ? & ?). destruct Hop as [->|[->| ->]].
    + change (Global.get Global.new r < 1)%Z. lia.
    + change (Global.get (Global.Global [0; 1]%Z) r < 2)%Z. lia.
    + change (Global.get (Global.Global [0; 1; 2]%Z) r < 3)%Z. lia.
  - intros op op' [->|[->| ->]] [->|[->| ->]]; vm_compute; intros; (discriminate || lia || done).
  - intros op [->|[->| ->]]; vm_compute; reflexivity.
Qed.

Lemma blank_sound : sound Global.new all3 blank3 [].
Proof.
  split; [exists 0; apply new_undo_ok|exists 0; split; [apply new_ok|constructor]| |done|done|constructor|constructor].
  exists 0. split; [apply new_ok|constructor].
Qed.

Lemma in_three x : x ∈ [op3; op1; op2] <-> all3 x.
Proof. unfold all3. set_solver. Qed.

Lemma three_closed : closed Global.new (fun x => x ∈ [] \/ x ∈ pending blank3 \/ x ∈ [op3; op1; op2]).
Proof.
  intros op r [[]%elem_of_nil|[[]%elem_of_nil|Hop]] Hr. apply in_three in Hop.
  assert (Hn : Global.get Global.new r = 0%Z) by apply get_three. rewrite Hn.
  assert (H1 : r = 1%Z -> op <> op1 -> exists op', (op' ∈ [] \/ op' ∈ pending blank3 \/ op' ∈ [op3; op1; op2])
     /\ op_replica op' = r /\ Lamport.value (stamp op') = Global.get (op_version op) r).
  { intros -> Ho. exists op1. split; [right; right; by apply in_three; left|].
    by destruct Hop as [->|[->| ->]]. }
  assert (H0 : Z.to_nat r <> 1 -> Z.to_nat r <> 2 -> (Global.get (op_version op) r <= 0)%Z).
  { intros Ha Hb. destruct Hop as [->|[->| ->]]; unfold Global.get; cbn;
      destruct (Z.to_nat r) as [|[|[|[|n]]]]; cbn; lia. }
  destruct (Z.eq_dec r 1%Z) as [Er|Hr1].
  - destruct Hop as [->|[->| ->]]; [left; subst; vm_compute; discriminate|right..]; by apply H1.
  - destruct (Z.eq_dec r 2%Z) as [->|Hr2]; [|left; apply H0; lia].
    destruct Hop as [->|[->| ->]]; [left; vm_compute; discriminate..|right].
    exists op2. split; [right; right; apply in_three; right; by left|done].
Qed.
End Three.
Import Three.

Lemma delivery_spec_witness :
  exists new b', apply_ops blank3 [op3; op1; op2] = Ret (new, b') /\ pending b' = []
    /\ (forall x, x ∈ [op3; op1; op2] -> x ∈ new).
Proof.
  destruct (delivery_spec Global.new all3 blank3 [] [op3; op1; op2] all3_causal blank_sound)
    as (new & b' & E & _ & _ & _ & Hin & Hcl).
  - repeat constructor; unfold all3; tauto.
  - vm_compute. repeat split; lia.
  - specialize (Hcl three_closed). exists new, b'. split; [exact E|]. split; [exact Hcl|].
    intros x Hx. destruct (proj2 (Hin x)) as [H|H]; [right; right; exact Hx| |].
    + rewrite app_nil_r in H. by apply elem_of_rev.
    + rewrite Hcl in H. by apply elem_of_nil in H.
Defined.

Lemma replicas_converge_witness :
  exists new1 b1 new2 b2, apply_ops blank3 [op3; op1; op2] = Ret (new1, b1)
    /\ apply_ops blank3 [op2; op2; op1; op3] = Ret (new2, b2) /\ buffer_version b1 = buffer_version b2.
Proof.
  destruct (replicas_converge Global.new all3 blank3 blank3 [] [] [op3; op1; op2] [op2; op2; op1; op3]
              all3_causal blank_sound blank_sound) as (new1 & b1 & new2 & b2 & E1 & E2 & _ & _ & _ & Ev & _).
  - repeat constructor; unfold all3; tauto.
  - repeat constructor; unfold all3; tauto.
  - vm_compute. repeat split; lia.
  - vm_compute. repeat split; lia.
  - intros x. set_solver.
  - exact three_closed.
  - exists new1, b1, new2, b2. split_and!; [exact E1|exact E2|exact Ev].
Defined.
