(* ===== verification/Fragments.v ===== *)
(** * Fragments of a buffer's text ([crates/text/src/text.rs])

    A buffer keeps its text, deleted text included, as fragments in the order of their
    locators: what they insert, when, what deleted them, and whether they are visible.
    Their bytes are in two ropes, one of visible and one of deleted text.  Offsets and
    lengths ([u32], [usize]) are naturals; subtraction panics below zero. *)

From S2P Require Import Prelude.
From S2P Require Import Clock.
From S2P Require Import Locator.
From S2P Require Import SumTree.
From S2P Require Import SumCursor.
From S2P Require Import KeyedTree.
From S2P Require Import TreeMap.
From S2P Require Import Text.
From S2P Require Import Chunk.
From S2P Require Import Rope.
From S2P Require Import UndoMap.
Local Open Scope nat_scope.

(** ** Versions

    A version in a summary is canonical: no trailing zeros, which the operations of
    [clock::Global] keep. *)
Definition canonicalb (g : Global.t) : bool :=
  forallb (fun v => 0 <=? v)%Z (Global.values g) && negb (bool_decide (last (Global.values g) = Some 0%Z)).
Record Version := mkVersion { global : Global.t; global_canonical : canonicalb global = true }.

Lemma canonicalb_wf g : canonicalb g = true <-> Global.wf g.
Proof.
  unfold canonicalb, Global.wf, Global.canonical. rewrite andb_true_iff, negb_true_iff, bool_decide_eq_false.
  rewrite forallb_forall, Forall_forall. setoid_rewrite list_elem_of_In. setoid_rewrite Z.leb_le. done.
Qed.
Lemma stamp_lamport_wf (ts : Stamp) : Lamport.wf (lamport ts).
Proof.
  destruct ts as [[v r] H]. unfold fits in H. cbn [lamport Lamport.value Lamport.replica_id] in *.
  rewrite !andb_true_iff, !Z.leb_le in H. split; cbn; unfold is_u32, is_u16; lia.
Qed.
Definition version_new : Version := mkVersion Global.new eq_refl.
Definition version_observe (v : Version) (ts : Stamp) : Version :=
  mkVersion (Global.observe (global v) (lamport ts))
    (proj2 (canonicalb_wf _) (Global.observe_wf _ _ (proj1 (canonicalb_wf _) (global_canonical v)) (stamp_lamport_wf ts))).
Definition version_join (a b : Version) : Version :=
  mkVersion (Global.join (global a) (global b))
    (proj2 (canonicalb_wf _) (Global.join_wf _ _ (proj1 (canonicalb_wf _) (global_canonical a)) (proj1 (canonicalb_wf _) (global_canonical b)))).
Definition version_meet (a b : Version) : Version :=
  mkVersion (Global.meet (global a) (global b))
    (proj2 (canonicalb_wf _) (Global.meet_wf _ _ (proj1 (canonicalb_wf _) (global_canonical a)) (proj1 (canonicalb_wf _) (global_canonical b)))).

(** ** Fragments *)
Record Fragment := mkFrag {
  frag_id : list Z;
  frag_timestamp : Stamp;
  insertion_offset : nat;
  frag_len : nat;
  visible : bool;
  frag_deletions : list Stamp;
  max_undos : Version;
}.

Record FragmentTextSummary := mkText { text_visible : nat; text_deleted : nat }.
Definition text_summary_zero : FragmentTextSummary := mkText 0 0.

Record FragmentSummary := mkFragmentSummary {
  summary_text_len : FragmentTextSummary;
  max_id : list Z;
  max_version : Version;
  min_insertion_version : Version;
  max_insertion_version : Version;
}.

Definition fragment_summary_zero : FragmentSummary :=
  mkFragmentSummary text_summary_zero Locator.min version_new version_new version_new.
Definition fragment_summary_add (self other : FragmentSummary) : FragmentSummary :=
  mkFragmentSummary
    (mkText (text_visible (summary_text_len self) + text_visible (summary_text_len other))
            (text_deleted (summary_text_len self) + text_deleted (summary_text_len other)))
    (Locator.assign (max_id self) (max_id other))
    (version_join (max_version self) (max_version other))
    (version_meet (min_insertion_version self) (min_insertion_version other))
    (version_join (max_insertion_version self) (max_insertion_version other)).
#[export] Instance fragment_summary : Summary FragmentSummary := {
  zero := fragment_summary_zero; add_summary := fragment_summary_add;
}.

#[export] Instance fragment_item : Item Fragment FragmentSummary := fun self =>
  let v := version_observe version_new (frag_timestamp self) in
  let max_version := version_join (fold_left version_observe (frag_deletions self) v) (max_undos self) in
  mkFragmentSummary (if visible self then mkText (frag_len self) 0 else mkText 0 (frag_len self))
    (frag_id self) max_version v v.

(** What decides visibility. *)
Definition visibility (self : Fragment) : UndoMap.Fragment := mkFragment (frag_timestamp self) (frag_deletions self).

(** *** Measures *)
#[export] Instance fragment_text_dimension : Dimension FragmentTextSummary FragmentSummary := {
  dim_zero := text_summary_zero;
  dim_add d s := mkText (text_visible d + text_visible (summary_text_len s)) (text_deleted d + text_deleted (summary_text_len s));
}.
(** [usize]: the visible text. *)
#[export] Instance visible_dimension : Dimension nat FragmentSummary := {
  dim_zero := 0; dim_add d s := d + text_visible (summary_text_len s);
}.
(** [Option<&Locator>]: the last fragment. *)
#[export] Instance locator_dimension : Dimension (option (list Z)) FragmentSummary := {
  dim_zero := None; dim_add _ s := Some (max_id s);
}.
Record FullOffset := mkFull { full : nat }.
#[export] Instance full_offset_dimension : Dimension FullOffset FragmentSummary := {
  dim_zero := mkFull 0;
  dim_add d s := mkFull (full d + (text_visible (summary_text_len s) + text_deleted (summary_text_len s)));
}.

(** Targets: an offset in the visible text, and a locator, where [None] comes first. *)
#[export] Instance visible_target : SeekTarget nat FragmentTextSummary := fun offset d => Nat.compare offset (text_visible d).
#[export] Instance offset_target : SeekTarget nat nat := Nat.compare.
#[export] Instance locator_ord : Ord (option (list Z)) := fun a b =>
  match a, b with
  | Some a, Some b => lex_compare a b
  | Some _, None => Gt
  | None, Some _ => Lt
  | None, None => Eq
  end.

(** [VersionedFullOffset]: the full offset as of a version, over the fragments that the
    version has seen; a sum that mixes what it has and has not seen has none. *)
Inductive VersionedFullOffset := Offset (offset : FullOffset) | Invalid.
Definition versioned_full_offset (self : VersionedFullOffset) : res nat :=
  match self with Offset o => Ret (full o) | Invalid => Panic end.
Definition versioned_dimension (version : Global.t) : Dimension VersionedFullOffset FragmentSummary := {|
  dim_zero := Offset (mkFull 0);
  dim_add d s :=
    match d with
    | Offset o =>
        if Global.observed_all version (global (max_insertion_version s))
        then Offset (mkFull (full o + (text_visible (summary_text_len s) + text_deleted (summary_text_len s))))
        else if Global.observed_any version (global (min_insertion_version s)) then Invalid else d
    | Invalid => Invalid
    end;
|}.
(** A target is an offset; the target [Invalid] is unreachable. *)
Definition versioned_target : SeekTarget FullOffset VersionedFullOffset := fun target d =>
  match d with
  | Offset o => Nat.compare (full target) (full o)
  | Invalid => Lt
  end.

(** ** Where inserted text went *)
Record InsertionFragmentKey := mkInsertionKey { key_timestamp : Stamp; split_offset : nat }.
Record InsertionFragment := mkInsertion { insertion_key : InsertionFragmentKey; fragment_id : list Z }.

#[export] Instance insertion_key_ord : Ord InsertionFragmentKey := fun a b =>
  match ord_cmp (key_timestamp a) (key_timestamp b) with
  | Eq => Nat.compare (split_offset a) (split_offset b)
  | c => c
  end.
#[export] Instance insertion_key_summary : Summary InsertionFragmentKey := {
  zero := mkInsertionKey STAMP_MIN 0; add_summary _ summary := summary;
}.
#[export] Instance insertion_item : Item InsertionFragment InsertionFragmentKey := insertion_key.
#[export] Instance insertion_keyed : KeyedItem InsertionFragment InsertionFragmentKey := insertion_key.

(** [InsertionFragment::new]. *)
Definition insertion_new (fragment : Fragment) : InsertionFragment :=
  mkInsertion (mkInsertionKey (frag_timestamp fragment) (insertion_offset fragment)) (frag_id fragment).
Definition insert_new (fragment : Fragment) : Edit InsertionFragment InsertionFragmentKey := Insert (insertion_new fragment).

(** Which part of an insertion an edit inserted or deleted. *)
Record InsertionSlice := mkSlice {
  slice_edit : Stamp;
  slice_insertion : Stamp;
  slice_start : nat;
  slice_end : nat;
}.
Definition then_with (a b : comparison) : comparison := match a with Eq => b | c => c end.
#[export] Instance insertion_slice_ord : Ord InsertionSlice := fun a b =>
  then_with (ord_cmp (slice_edit a) (slice_edit b))
    (then_with (ord_cmp (slice_insertion a) (slice_insertion b))
       (then_with (Nat.compare (slice_start a) (slice_start b)) (Nat.compare (slice_end a) (slice_end b)))).
Definition from_fragment (edit_id : Stamp) (fragment : Fragment) : InsertionSlice :=
  mkSlice edit_id (frag_timestamp fragment) (insertion_offset fragment) (insertion_offset fragment + frag_len fragment).

(** ** Snapshots *)
Record BufferSnapshot := mkSnapshot {
  visible_text : Rope;
  deleted_text : Rope;
  fragments : node Fragment FragmentSummary;
  insertions : node InsertionFragment InsertionFragmentKey;
  insertion_slices : TreeMap InsertionSlice unit;
  snapshot_undo_map : UndoMap;
  version : Global.t;
  remote_id : Z;
}.

(** ** Building fragments *)
Inductive FragmentChunk := Tree (tree : node Fragment FragmentSummary) | Loose (fragments : list Fragment).
Record FragmentBuilder := mkFragments { builder_chunks : list FragmentChunk; builder_summary : FragmentSummary }.

Definition fragments_new (init : node Fragment FragmentSummary) : FragmentBuilder :=
  mkFragments (if is_empty init then [] else [Tree init]) (node_summary init).
Definition fragments_append (self : FragmentBuilder) (items : node Fragment FragmentSummary) : FragmentBuilder :=
  if is_empty items then self
  else mkFragments (builder_chunks self ++ [Tree items]) (add_summary (builder_summary self) (node_summary items)).
Definition fragments_push (self : FragmentBuilder) (fragment : Fragment) : FragmentBuilder :=
  let sm := add_summary (builder_summary self) (summary fragment) in
  match last (builder_chunks self) with
  | Some (Loose l) => mkFragments (take (length (builder_chunks self) - 1) (builder_chunks self) ++ [Loose (l ++ [fragment])]) sm
  | _ => mkFragments (builder_chunks self ++ [Loose [fragment]]) sm
  end.

Section Building.
Context (par_chunks_map : par_chunks_type).

Fixpoint build_chunks (tree : node Fragment FragmentSummary) (chunks : list FragmentChunk) : res (node Fragment FragmentSummary) :=
  match chunks with
  | [] => Ret tree
  | chunk :: chunks =>
      subtree ← match chunk with
                | Tree subtree => Ret subtree
                | Loose l => if 1024 <? length l then from_par_iter par_chunks_map l else from_iter l
                end;
      tree ← SumTree.append tree subtree;
      build_chunks tree chunks
  end.
Definition to_sum_tree (self : FragmentBuilder) : res (node Fragment FragmentSummary) := build_chunks SumTree.new (builder_chunks self).

(** ** Building text *)
Record RopeBuilder := mkRopes {
  old_visible_cursor : Cursor;
  old_deleted_cursor : Cursor;
  new_visible : Rope;
  new_deleted : Rope;
}.
Definition ropes_new (old_visible old_deleted : Rope) : res RopeBuilder :=
  v ← rope_cursor old_visible 0;
  d ← rope_cursor old_deleted 0;
  Ret (mkRopes v d rope_new rope_new).
Definition ropes_push (self : RopeBuilder) (len : nat) (was_visible is_visible : bool) : res RopeBuilder :=
  let '(mkRopes v d nv nd) := self in
  r ← (if was_visible then r ← cursor_slice v (cursor_offset v + len); Ret (fst r, snd r, d)
       else r ← cursor_slice d (cursor_offset d + len); Ret (fst r, v, snd r));
  let '(text, v, d) := r in
  if is_visible then nv ← Rope.append nv text; Ret (mkRopes v d nv nd)
  else nd ← Rope.append nd text; Ret (mkRopes v d nv nd).
Definition ropes_append (self : RopeBuilder) (len : FragmentTextSummary) : res RopeBuilder :=
  self ← ropes_push self (text_visible len) true true;
  ropes_push self (text_deleted len) false false.
(** The assertion is one of debug builds. *)
Definition push_fragment (self : RopeBuilder) (fragment : Fragment) (was_visible : bool) : res RopeBuilder :=
  _ ← assert (0 <? frag_len fragment);
  ropes_push self (frag_len fragment) was_visible (visible fragment).
Definition ropes_push_str (self : RopeBuilder) (text : str) : res RopeBuilder :=
  let '(mkRopes v d nv nd) := self in
  nv ← Rope.push par_chunks_map nv text; Ret (mkRopes v d nv nd).
Definition ropes_finish (self : RopeBuilder) : res (Rope * Rope) :=
  let '(mkRopes v d nv nd) := self in
  rest ← cursor_suffix v;
  nv ← Rope.append nv rest;
  rest ← cursor_suffix d;
  nd ← Rope.append nd rest;
  Ret (nv, nd).
End Building.
