(* ===== verification/FragmentsSpec.v ===== *)
(** * What fragments are made of: laws, and the builders

    The summaries of fragments are lawful sums, and building the new fragments and the new
    text from parts of the old ones adds what it is given in order. *)

From S2P Require Import Prelude.
From S2P Require Import Clock.
From S2P Require Import Locator.
From S2P Require Import SumTree.
From S2P Require Import SumTreeInvariant.
From S2P Require Import SumTreeFind.
From S2P Require Import SumIter.
From S2P Require Import SumCursor.
From S2P Require Import SumCursorSeek.
From S2P Require Import KeyedTree.
From S2P Require Import KeyedTreeSpec.
From S2P Require Import UndoMap.
From S2P Require Import UndoMapSpec.
From S2P Require Import TreeMap.
From S2P Require Import Text.
From S2P Require Import TextSpec.
From S2P Require Import Utf8.
From S2P Require Import Chunk.
From S2P Require Import Rope.
From S2P Require Import ChunkPositions.
From S2P Require Import RopeSpec.
From S2P Require Import RopeCursorSpec.
From S2P Require Import Fragments.
Local Open Scope nat_scope.

Lemma filter_sublist {A} (f : A -> bool) (l : list A) : List.filter f l `sublist_of` l.
Proof. induction l as [|x l IH]; [constructor|]. cbn. destruct (f x); by constructor. Qed.

(** What is strictly sorted has no duplicates. *)
Lemma strict_nodup {A} (R : A -> A -> Prop) `{!Irreflexive R} (l : list A) : StronglySorted R l -> NoDup l.
Proof.
  induction 1 as [|x l Hs IH Hx]; [constructor|]. constructor; [|done]. intros Hin.
  eapply Forall_forall in Hx; [|exact Hin]. by apply (irreflexivity R) in Hx.
Qed.

(** ** Comparing locators *)
Lemma lex_compare_opp a b : lex_compare b a = CompOpp (lex_compare a b).
Proof.
  revert b. induction a as [|x a IH]; intros [|y b]; try done. cbn. rewrite (Z.compare_antisym x y).
  destruct (Z.compare x y); [apply IH|done..].
Qed.
Lemma lex_gt a b : lex_compare a b = Gt <-> lex_lt b a.
Proof. unfold lex_lt. rewrite (lex_compare_opp a b). by destruct (lex_compare a b). Qed.

(** ** Versions form a lattice *)
Lemma version_wf (v : Version) : Global.wf (global v).
Proof. apply canonicalb_wf, global_canonical. Qed.
#[local] Hint Resolve version_wf Global.join_wf Global.meet_wf Global.observe_wf stamp_lamport_wf : core.

Lemma version_eq (a b : Version) : global a = global b -> a = b.
Proof.
  destruct a as [a Ha], b as [b Hb]. cbn [global]. intros ->. f_equal. apply (proof_irrel (A:=_ = true)).
Qed.
Lemma version_ext (a b : Version) :
  (forall i, Global.entry (Global.values (global a)) i = Global.entry (Global.values (global b)) i) -> a = b.
Proof.
  intros H. apply version_eq, Global.ext; [done..|]. intros r _. by rewrite !Global.get_entry, H.
Qed.
Lemma version_join_assoc a b c : version_join (version_join a b) c = version_join a (version_join b c).
Proof.
  apply version_ext. intros i. cbn [version_join global]. rewrite !Global.values_join_entry by auto. lia.
Qed.
Lemma entry_version_nonneg (v : Version) i : (0 <= Global.entry (Global.values (global v)) i)%Z.
Proof. apply Global.entry_nonneg, version_wf. Qed.
Lemma version_join_new v : version_join version_new v = v.
Proof.
  apply version_ext. intros i. cbn [version_join global]. rewrite Global.values_join_entry by auto.
  pose proof (entry_version_nonneg v i). change (Global.values (global version_new)) with (@nil Z).
  rewrite Global.entry_ge by (simpl; lia). lia.
Qed.
Lemma meet_value_assoc x y z :
  (0 <= x -> 0 <= y -> 0 <= z ->
   Global.meet_value (Global.meet_value x y) z = Global.meet_value x (Global.meet_value y z))%Z.
Proof.
  intros. unfold Global.meet_value.
  destruct (Z.eqb_spec x 0), (Z.eqb_spec y 0), (Z.eqb_spec z 0); subst; try done;
    repeat (case_match; rewrite ?Z.eqb_eq, ?Z.eqb_neq in * ); lia.
Qed.
Lemma version_meet_assoc a b c : version_meet (version_meet a b) c = version_meet a (version_meet b c).
Proof.
  apply version_ext. intros i. cbn [version_meet global]. rewrite !Global.meet_entry by auto.
  apply meet_value_assoc; apply entry_version_nonneg.
Qed.
Lemma version_meet_new v : version_meet version_new v = v.
Proof.
  apply version_ext. intros i. cbn [version_meet global]. rewrite Global.meet_entry by auto.
  change (Global.values (global version_new)) with (@nil Z). by rewrite Global.entry_ge by (simpl; lia).
Qed.

#[export] Instance fragment_summary_laws : SummaryLaws FragmentSummary.
Proof.
  split.
  - intros [[v d] m v1 v2 v3]. unfold add_summary, fragment_summary, fragment_summary_add, zero, fragment_summary_zero.
    f_equal; [apply Locator.assign_eq|apply version_join_new|apply version_meet_new|apply version_join_new].
  - intros a b c. unfold add_summary, fragment_summary, fragment_summary_add.
    f_equal; [|by rewrite !Locator.assign_eq|apply version_join_assoc|apply version_meet_assoc|apply version_join_assoc].
    cbn [summary_text_len text_visible text_deleted]. by rewrite !Nat.add_assoc.
Qed.
#[export] Instance fragment_text_dimension_laws : DimensionLaws FragmentTextSummary FragmentSummary.
Proof. split; [|done]. intros d a b. cbn. by rewrite !Nat.add_assoc. Qed.
#[export] Instance visible_dimension_laws : DimensionLaws nat FragmentSummary.
Proof. split; [|done]. intros d a b. cbn. lia. Qed.

(** ** Orders *)
Section Lexicographic.
Context {A B : Type} `{HA : !Ord A} `{HB : !Ord B} `{LA : !OrdLaws A} `{LB : !OrdLaws B}.
Definition pair_ord : Ord (A * B) := fun p q => then_with (ord_cmp (fst p) (fst q)) (ord_cmp (snd p) (snd q)).
Lemma pair_ord_laws : OrdLaws (H:=pair_ord) (A * B).
Proof.
  pose (c := fun (a a' : A) (b b' : B) => then_with (ord_cmp a a') (ord_cmp b b')).
  split.
  - intros [a b] [a' b']. change (c a a' b b' = Eq <-> (a, b) = (a', b')). unfold c, then_with. split.
    + destruct (ord_cmp a a') eqn:E; [|done..]. intros E'. apply ord_eq in E, E'. by subst.
    + intros [= -> ->]. by rewrite !ord_refl.
  - intros [a b] [a' b']. change (c a' a b' b = CompOpp (c a a' b b')). unfold c, then_with.
    rewrite (ord_opp a a'). destruct (ord_cmp a a'); [apply ord_opp|done..].
  - intros [a b] [a' b'] [a'' b'']. change (c a a' b b' = Lt -> c a' a'' b' b'' = Lt -> c a a'' b b'' = Lt).
    unfold c, then_with.
    destruct (ord_cmp a a') eqn:E1; [|..|done]; destruct (ord_cmp a' a'') eqn:E2; try done.
    + apply ord_eq in E1, E2. subst. rewrite ord_refl. apply ord_trans.
    + apply ord_eq in E1. subst. by rewrite E2.
    + apply ord_eq in E2. subst. by rewrite E1.
    + by rewrite (ord_trans a a' a'').
Qed.
End Lexicographic.

Lemma ord_laws_by {A B} `{HA : !Ord A} `{HB : !Ord B} `{LB : !OrdLaws B} (f : A -> B) :
  (forall a b, f a = f b -> a = b) -> (forall a b, ord_cmp a b = ord_cmp (f a) (f b)) -> OrdLaws A.
Proof.
  intros Hi Hc. split.
  - intros a b. rewrite Hc, ord_eq. split; [apply Hi|by intros ->].
  - intros a b. rewrite !Hc. apply ord_opp.
  - intros a b c. rewrite !Hc. apply ord_trans.
Qed.

#[local] Instance nat_ord : Ord nat := Nat.compare.
#[local] Instance nat_ord_laws : OrdLaws nat.
Proof.
  split; unfold ord_cmp, nat_ord.
  - apply Nat.compare_eq_iff.
  - intros. apply Nat.compare_antisym.
  - intros a b c. rewrite !Nat.compare_lt_iff. lia.
Qed.

#[export] Instance insertion_key_ord_laws : OrdLaws InsertionFragmentKey.
Proof.
  apply (ord_laws_by (HB:=pair_ord) (LB:=pair_ord_laws) (fun k => (key_timestamp k, split_offset k))).
  - by intros [? ?] [? ?] [= -> ->].
  - intros [s o] [s' o']. unfold ord_cmp at 1, insertion_key_ord. cbn [key_timestamp split_offset].
    change (ord_cmp (s, o) (s', o')) with (then_with (ord_cmp s s') (Nat.compare o o')).
    by destruct (ord_cmp s s').
Qed.
#[export] Instance insertion_key_summary_laws : SummaryLaws InsertionFragmentKey.
Proof. done. Qed.
#[export] Instance insertion_keyed_laws : KeyedLaws InsertionFragment InsertionFragmentKey InsertionFragmentKey.
Proof.
  split; [done|]. intros [s o]. change dim_zero with (mkInsertionKey STAMP_MIN 0).
  unfold ord_cmp, insertion_key_ord. cbn [key_timestamp split_offset].
  pose proof (stamp_min_least s) as H. destruct (ord_cmp STAMP_MIN s); [by destruct o|done|by destruct (H eq_refl)].
Qed.

#[export] Instance insertion_slice_ord_laws : OrdLaws InsertionSlice.
Proof.
  apply (ord_laws_by (HB:=pair_ord (HB:=pair_ord (HB:=pair_ord)))
           (LB:=pair_ord_laws (LB:=pair_ord_laws (LB:=pair_ord_laws)))
           (fun s => (slice_edit s, (slice_insertion s, (slice_start s, slice_end s))))); [|done].
  by intros [? ? ? ?] [? ? ? ?] [= -> -> -> ->].
Qed.
#[export] Instance insertion_slice_eq_dec : EqDecision InsertionSlice.
Proof. solve_decision. Defined.
#[export] Instance insertion_slice_countable : Countable InsertionSlice.
Proof.
  refine (inj_countable' (fun s => (slice_edit s, slice_insertion s, slice_start s, slice_end s))
            (fun p => let '(a, b, c, d) := p in mkSlice a b c d) _).
  by intros [].
Defined.

(** ** What fragments spell

    A part is a fragment and its text.  A byte of text has a name that no edit changes: the
    edit that inserted it, and where in the inserted text it is. *)
Abbreviation part := (Fragment * str)%type (only parsing).
Abbreviation Char := (Stamp * nat * Z)%type (only parsing).
Implicit Types (p : Fragment * str) (ps : list (Fragment * str)) (cs : list (Stamp * nat * Z)).

Definition stamped (timestamp : Stamp) (offset : nat) (text : str) : list Char :=
  imap (fun i b => (timestamp, offset + i, b)) text.
Definition chars p : list Char := stamped (frag_timestamp (fst p)) (insertion_offset (fst p)) (snd p).
Definition all_chars ps : list Char := flat_map chars ps.
Definition shown ps : list Char := flat_map (fun p => if visible (fst p) then chars p else []) ps.
Definition hidden ps : list Char := flat_map (fun p => if visible (fst p) then [] else chars p) ps.
Definition bytes cs : str := map snd cs.

Record part_ok p : Prop := {
  part_utf8 : utf8 (snd p);
  part_len : frag_len (fst p) = length (snd p);
}.

Lemma length_stamped ts o s : length (stamped ts o s) = length s.
Proof. apply length_imap. Qed.
Lemma bytes_stamped ts o s : bytes (stamped ts o s) = s.
Proof.
  unfold bytes, stamped. change (map snd) with (fmap (M:=list) (@snd (Stamp * nat) Z)). rewrite fmap_imap.
  revert o. induction s as [|b s IH]; intros o; [done|]. cbn. f_equal. rewrite <-(IH (S o)) at 2. apply imap_ext. done.
Qed.
Lemma stamped_app ts o s t : stamped ts o (s ++ t) = stamped ts o s ++ stamped ts (o + length s) t.
Proof.
  unfold stamped. rewrite imap_app. f_equal. apply imap_ext. intros i x _. cbn. do 2 f_equal. lia.
Qed.
Lemma all_chars_app ps qs : all_chars (ps ++ qs) = all_chars ps ++ all_chars qs.
Proof. apply flat_map_app. Qed.
Lemma shown_app ps qs : shown (ps ++ qs) = shown ps ++ shown qs.
Proof. apply flat_map_app. Qed.
Lemma hidden_app ps qs : hidden (ps ++ qs) = hidden ps ++ hidden qs.
Proof. apply flat_map_app. Qed.
Lemma bytes_app cs cs' : bytes (cs ++ cs') = bytes cs ++ bytes cs'.
Proof. apply map_app. Qed.
Lemma length_bytes cs : length (bytes cs) = length cs.
Proof. apply length_map. Qed.
Lemma shown_one p : shown [p] = if visible (fst p) then chars p else [].
Proof. apply app_nil_r. Qed.
Lemma hidden_one p : hidden [p] = if visible (fst p) then [] else chars p.
Proof. apply app_nil_r. Qed.
Lemma all_chars_one p : all_chars [p] = chars p.
Proof. apply app_nil_r. Qed.
Lemma bytes_chars p : bytes (chars p) = snd p.
Proof. apply bytes_stamped. Qed.
Lemma length_chars p : length (chars p) = length (snd p).
Proof. apply length_stamped. Qed.

Lemma shown_utf8 ps : Forall part_ok ps -> utf8 (bytes (shown ps)).
Proof.
  induction 1 as [|p ps Hp _ IH]; [constructor|]. change (p :: ps) with ([p] ++ ps).
  rewrite shown_app, bytes_app, shown_one. apply utf8_app; [|done].
  destruct (visible (fst p)); [|constructor]. rewrite bytes_chars. apply Hp.
Qed.
Lemma hidden_utf8 ps : Forall part_ok ps -> utf8 (bytes (hidden ps)).
Proof.
  induction 1 as [|p ps Hp _ IH]; [constructor|]. change (p :: ps) with ([p] ++ ps).
  rewrite hidden_app, bytes_app, hidden_one. apply utf8_app; [|done].
  destruct (visible (fst p)); [constructor|]. rewrite bytes_chars. apply Hp.
Qed.

(** What the summary of fragments says of their text, and of the last of them. *)
Definition text_of ps : FragmentTextSummary := mkText (length (shown ps)) (length (hidden ps)).

Lemma text_of_app ps qs :
  text_of (ps ++ qs) = mkText (text_visible (text_of ps) + text_visible (text_of qs)) (text_deleted (text_of ps) + text_deleted (text_of qs)).
Proof. unfold text_of. by rewrite shown_app, hidden_app, !length_app. Qed.
Lemma text_of_one p : part_ok p -> text_of [p] = summary_text_len (summary (fst p)).
Proof.
  intros [_ Hl]. unfold text_of. rewrite shown_one, hidden_one. cbn. rewrite Hl.
  destruct (visible (fst p)); by rewrite length_chars.
Qed.
Lemma total_one (x : Fragment) : total [x] = summary x.
Proof. apply sum_one. Qed.
Lemma total_text ps : Forall part_ok ps -> summary_text_len (total (map fst ps)) = text_of ps.
Proof.
  induction ps as [|p ps IH] using rev_ind; [done|]. intros [Hps Hp]%Forall_app.
  rewrite map_app, total_app, text_of_app by done. apply (proj1 (Forall_singleton _ _)) in Hp.
  rewrite text_of_one by done. cbn [map]. rewrite total_one.
  rewrite <-IH by done. done.
Qed.
Lemma advance_text ps : Forall part_ok ps -> advance (D:=FragmentTextSummary) dim_zero (map fst ps) = text_of ps.
Proof. intros Hps. rewrite <-dim_zero_total, <-total_text by done. by destruct (summary_text_len (total (map fst ps))) as [v d] eqn:E; cbn; rewrite E. Qed.
Definition last_id ps : list Z := default Locator.min (frag_id ∘ fst <$> last ps).
Lemma total_id ps : max_id (total (map fst ps)) = last_id ps.
Proof.
  destruct ps as [|p ps _] using rev_ind; [done|]. unfold last_id. rewrite last_snoc, map_app, total_app by done.
  cbn [map]. rewrite total_one. apply Locator.assign_eq.
Qed.

(** ** The builder of fragments *)
Definition chunk_list (c : FragmentChunk) : list Fragment := match c with Tree t => to_list t | Loose l => l end.
Record builds (b : FragmentBuilder) (l : list Fragment) : Prop := {
  builds_trees : Forall (fun c => match c with Tree t => exists h, wf h t | Loose _ => True end) (builder_chunks b);
  builds_list : flat_map chunk_list (builder_chunks b) = l;
  builds_summary : builder_summary b = total l;
}.

Lemma fragments_new_ok h t : wf h t -> builds (fragments_new t) (to_list t).
Proof.
  intros Hw. pose proof (node_summary_total _ _ Hw) as Hs. pose proof (is_empty_spec _ _ Hw) as He.
  unfold fragments_new. destruct (is_empty t).
  - rewrite (proj1 He eq_refl) in *. split; [constructor|done|done].
  - split; [by repeat constructor; exists h|apply app_nil_r|done].
Qed.
Lemma fragments_append_ok h t b l : wf h t -> builds b l -> builds (fragments_append b t) (l ++ to_list t).
Proof.
  intros Hw [Ht Hl Hsm]. pose proof (node_summary_total _ _ Hw) as Hs. pose proof (is_empty_spec _ _ Hw) as He.
  unfold fragments_append. destruct (is_empty t).
  - rewrite (proj1 He eq_refl), app_nil_r. done.
  - assert (to_list t <> []) as Hne by (intros E; apply He in E; done).
    split; cbn [builder_chunks builder_summary].
    + apply Forall_app. split; [done|]. repeat constructor. by exists h.
    + rewrite flat_map_app, Hl. cbn. by rewrite app_nil_r.
    + by rewrite Hsm, Hs, total_app.
Qed.
Lemma fragments_push_ok b l x : builds b l -> builds (fragments_push b x) (l ++ [x]).
Proof.
  intros [Ht Hl Hsm]. unfold fragments_push.
  assert (add_summary (builder_summary b) (summary x) = total (l ++ [x])) as Es.
  { by rewrite Hsm, total_app, total_one. }
  assert (builds (mkFragments (builder_chunks b ++ [Loose [x]]) (add_summary (builder_summary b) (summary x))) (l ++ [x])) as Hnew.
  { split; cbn [builder_chunks builder_summary]; [apply Forall_app; by repeat constructor| |done].
    rewrite flat_map_app, Hl. done. }
  destruct (last (builder_chunks b)) as [[t|k]|] eqn:E; [done| |done].
  apply last_Some in E as [cs E]. rewrite E in *.
  rewrite length_app, Nat.add_sub, take_app_length. apply Forall_app in Ht as [Ht _].
  rewrite flat_map_app in Hl. split; cbn [builder_chunks builder_summary]; [apply Forall_app; by repeat constructor| |done].
  rewrite flat_map_app, <-Hl. cbn. by rewrite !app_nil_r, app_assoc.
Qed.
Lemma to_sum_tree_ok par b l :
  collects_chunks par -> builds b l -> exists t h, to_sum_tree par b = Ret t /\ wf h t /\ to_list t = l.
Proof.
  intros Hpar [Ht <- _]. unfold to_sum_tree.
  enough (forall h t0, wf h t0 -> exists t h', build_chunks par t0 (builder_chunks b) = Ret t /\ wf h' t
    /\ to_list t = to_list t0 ++ flat_map chunk_list (builder_chunks b)) as H by apply (H _ _ new_ok).
  induction Ht as [|c cs Hc _ IH]; intros h t0 Hw; [exists t0, h; by rewrite app_nil_r|]. cbn [build_chunks flat_map].
  assert (exists t h', match c with Tree t => Ret t | Loose l => if 1024 <? length l then from_par_iter par l else from_iter l end
    = Ret t /\ wf h' t /\ to_list t = chunk_list c) as (t & h1 & -> & Hw1 & E1).
  { destruct c as [t|k]; [destruct Hc as [h1 ?]; by exists t, h1|].
    replace (if 1024 <? length k then _ else _) with (from_iter k) by (destruct (1024 <? _); [by rewrite from_par_iter_ok|done]).
    apply from_iter_ok. }
  cbn [mbind res_bind]. destruct (append_ok _ _ _ _ Hw Hw1) as (t2 & h2 & -> & Hw2 & E2 & _). cbn [mbind res_bind].
  destruct (IH _ _ Hw2) as (t3 & h3 & -> & Hw3 & E3). exists t3, h3. split_and!; [done..|]. by rewrite E3, E2, E1, app_assoc.
Qed.

(** ** The builder of text

    Cursors keep a path of bounded length, so that the slices the builder takes from the
    old ropes must be as shallow as the ropes are. *)
Definition sliceable (r : Rope) : Prop := forall ts c o,
  rope_of r ts -> cursor_at r ts c o -> forall e,
  middle_shallow c e
  /\ (forall part c', cursor_slice c e = Ret (part, c') -> shallow part)
  /\ (forall part, cursor_suffix c = Ret part -> shallow part).
Record cuttable (r : Rope) : Prop := { cuttable_shallow : shallow r; cuttable_slices : sliceable r }.

(** A cursor with some text still in front of it. *)
Definition reads (r : Rope) (c : Cursor) (rest : str) : Prop :=
  exists ts done_, rope_of r ts /\ concat ts = done_ ++ rest /\ utf8 rest /\ cursor_at r ts c (length done_).
Record ropes_at (old_visible old_deleted : Rope) (b : RopeBuilder) (v d nv nd : str) : Prop := {
  reads_visible : reads old_visible (old_visible_cursor b) v;
  reads_deleted : reads old_deleted (old_deleted_cursor b) d;
  built_visible : holds (new_visible b) nv;
  built_deleted : holds (new_deleted b) nd;
}.

Section Reads.
Context (r : Rope) (Hr : cuttable r).

Lemma reads_start s : holds r s -> exists c, rope_cursor r 0 = Ret c /\ reads r c s.
Proof.
  intros (ts & Ht & <-). destruct (rope_cursor_spec r ts Ht (cuttable_shallow _ Hr) 0) as (c & E & Hc); [lia|].
  exists c. split; [done|]. exists ts, []. split_and!; [done|done|apply pieces_utf8, Ht|done].
Qed.
Lemma reads_offset c s : reads r c s -> cursor_offset c + length s = rope_len r.
Proof.
  intros (ts & l & Ht & E & _ & Hc). rewrite (rope_len_of _ _ Ht), E, (at_offset _ _ _ _ Hc), length_app. done.
Qed.
Lemma reads_slice c s t :
  reads r c (s ++ t) -> utf8 t ->
  exists part c', cursor_slice c (cursor_offset c + length s) = Ret (part, c') /\ holds part s /\ shallow part /\ reads r c' t.
Proof.
  intros (ts & l & Ht & E & Hu & Hc) Hut.
  destruct (cuttable_slices _ Hr _ _ _ Ht Hc (cursor_offset c + length s)) as (Hm & Hs & _).
  pose proof (at_offset _ _ _ _ Hc) as Ho. rewrite Ho in *.
  destruct (cursor_slice_spec r ts Ht (cuttable_shallow _ Hr) c (length l) (length l + length s) Hc)
    as (part & ts' & c' & E' & Hp & Et & Hc'); [rewrite E, !length_app; lia|..|done|].
  - unfold boundary. rewrite E. by apply boundary_between.
  - unfold boundary. rewrite E, app_assoc, <-length_app. by apply boundary_between.
  - exists part, c'. rewrite E'. split; [done|]. split.
    { exists ts'. split; [done|]. rewrite Et, E, drop_app_length, Nat.add_comm, Nat.add_sub. apply take_app_length. }
    split; [by eapply Hs|]. exists ts, (l ++ s). rewrite length_app, <-app_assoc. done.
Qed.
Lemma reads_suffix c s :
  reads r c s -> exists part, cursor_suffix c = Ret part /\ holds part s /\ shallow part.
Proof.
  intros (ts & l & Ht & E & Hu & Hc).
  destruct (cuttable_slices _ Hr _ _ _ Ht Hc (rope_len r)) as (Hm & _ & Hs).
  destruct (cursor_suffix_spec r ts c (length l) Ht (cuttable_shallow _ Hr) Hc) as (part & ts' & E' & Hp & Et);
    [rewrite E, length_app; lia| |done|].
  - unfold boundary. rewrite E. by apply boundary_between.
  - exists part. split; [done|]. split; [|by apply Hs]. exists ts'. split; [done|]. by rewrite Et, E, drop_app_length.
Qed.
End Reads.

Lemma append_holds r1 r2 s1 s2 :
  holds r1 s1 -> holds r2 s2 -> shallow r2 -> exists r, Rope.append r1 r2 = Ret r /\ holds r (s1 ++ s2).
Proof.
  intros (ts1 & H1 & <-) (ts2 & H2 & <-) Hs. destruct (append_rope_spec _ _ _ _ H1 H2 Hs) as (r & ts & E & Hr & Et).
  exists r. split; [done|]. by exists ts.
Qed.

Section Ropes.
Context (old_visible old_deleted : Rope) (Hv : cuttable old_visible) (Hd : cuttable old_deleted).
Notation at_ := (ropes_at old_visible old_deleted).

Lemma ropes_new_ok v d : holds old_visible v -> holds old_deleted d ->
  exists b, ropes_new old_visible old_deleted = Ret b /\ at_ b v d [] [].
Proof.
  intros H1 H2. unfold ropes_new. destruct (reads_start _ Hv _ H1) as (c1 & -> & Hc1).
  destruct (reads_start _ Hd _ H2) as (c2 & -> & Hc2). cbn [mbind res_bind]. eexists. split; [done|].
  split; [done..| |]; exists (@nil (list Z)); (split; [apply rope_new_of|done]).
Qed.

Lemma ropes_push_ok b (t : str) (was_visible is_visible : bool) v d nv nd n :
  n = length t ->
  at_ b (if was_visible then t ++ v else v) (if was_visible then d else t ++ d) nv nd -> utf8 v -> utf8 d ->
  exists b', ropes_push b n was_visible is_visible = Ret b'
    /\ at_ b' v d (if is_visible then nv ++ t else nv) (if is_visible then nd else nd ++ t).
Proof.
  intros -> [H1 H2 H3 H4] Huv Hud. destruct b as [cv cd rv rd]. cbn [old_visible_cursor old_deleted_cursor new_visible new_deleted] in *.
  unfold ropes_push.
  assert (exists text cv' cd', (if was_visible then r ← cursor_slice cv (cursor_offset cv + length t); Ret (fst r, snd r, cd)
       else r ← cursor_slice cd (cursor_offset cd + length t); Ret (fst r, cv, snd r)) = Ret (text, cv', cd')
     /\ holds text t /\ shallow text /\ reads old_visible cv' v /\ reads old_deleted cd' d) as (text & cv' & cd' & -> & Ht & Hs & Hcv & Hcd).
  { destruct was_visible.
    - destruct (reads_slice _ Hv _ _ _ H1 Huv) as (text & c' & -> & ? & ? & ?). by exists text, c', cd.
    - destruct (reads_slice _ Hd _ _ _ H2 Hud) as (text & c' & -> & ? & ? & ?). by exists text, cv, c'. }
  cbn [mbind res_bind]. destruct is_visible.
  - destruct (append_holds _ _ _ _ H3 Ht Hs) as (r & -> & Hr). by eexists.
  - destruct (append_holds _ _ _ _ H4 Ht Hs) as (r & -> & Hr). by eexists.
Qed.
Lemma ropes_append_ok b (t u : str) v d nv nd s :
  s = mkText (length t) (length u) -> at_ b (t ++ v) (u ++ d) nv nd -> utf8 u -> utf8 v -> utf8 d ->
  exists b', ropes_append b s = Ret b' /\ at_ b' v d (nv ++ t) (nd ++ u).
Proof.
  intros -> H Hu Huv Hud. unfold ropes_append. cbn [text_visible text_deleted].
  destruct (ropes_push_ok b t true true v (u ++ d) nv nd _ eq_refl H) as (b1 & -> & H1); [done|by apply utf8_app|].
  cbn [mbind res_bind]. by apply (ropes_push_ok b1 u false false v d).
Qed.
Lemma ropes_push_str_ok par b t v d nv nd :
  collects_chunks par -> utf8 t -> at_ b v d nv nd ->
  exists b', ropes_push_str par b t = Ret b' /\ at_ b' v d (nv ++ t) nd.
Proof.
  intros Hpar Ht [H1 H2 (ts & H3 & <-) H4]. destruct b as [cv cd rv rd].
  destruct (push_spec par Hpar rv ts t H3 Ht) as (r & ts' & E & Hr & Et). unfold ropes_push_str. cbn [new_visible] in *. rewrite E.
  eexists. split; [done|]. split; [done..| |done]. by exists ts'.
Qed.
Lemma ropes_finish_ok b v d nv nd :
  at_ b v d nv nd -> exists r1 r2, ropes_finish b = Ret (r1, r2) /\ holds r1 (nv ++ v) /\ holds r2 (nd ++ d).
Proof.
  intros [H1 H2 H3 H4]. destruct b as [cv cd rv rd]. unfold ropes_finish. cbn in *.
  destruct (reads_suffix _ Hv _ _ H1) as (t1 & -> & Ht1 & Hs1). cbn [mbind res_bind].
  destruct (append_holds _ _ _ _ H3 Ht1 Hs1) as (r1 & -> & Hr1). cbn [mbind res_bind].
  destruct (reads_suffix _ Hd _ _ H2) as (t2 & -> & Ht2 & Hs2). cbn [mbind res_bind].
  destruct (append_holds _ _ _ _ H4 Ht2 Hs2) as (r2 & -> & Hr2). by exists r1, r2.
Qed.
End Ropes.
