(* ===== verification/LocalEdit.v ===== *)
(** * Editing a buffer's text ([BufferSnapshot::apply_edit_internal] in
      [crates/text/src/text.rs])

    Edits of the visible text, in order, walk over the old fragments once: a fragment is
    kept, cut, or marked as deleted, and inserted text becomes new fragments. *)

From S2P Require Import Prelude.
From S2P Require Import Clock.
From S2P Require Import Locator.
From S2P Require Import Patch.
From S2P Require Import UndoMap.
From S2P Require Import History.
From S2P Require Import SumTree.
From S2P Require Import SumCursor.
From S2P Require Import KeyedTree.
From S2P Require Import TreeMap.
From S2P Require Import Text.
From S2P Require Import Chunk.
From S2P Require Import Rope.
From S2P Require Import Fragments.
Local Open Scope nat_scope.

(** Line separators are normalised with a regular expression of another library. *)
Class LineSeparators := normalize : str -> str.

(** [a - b] on [usize]. *)
Definition minus (a b : nat) : res nat := if b <=? a then Ret (a - b) else Panic.
Definition unwrap {A} (o : option A) : res A := match o with Some a => Ret a | None => Panic end.

Definition edit_at (old_start old_end new_start new_end : nat) : Patch.Edit :=
  mkEdit (mkRange (Z.of_nat old_start) (Z.of_nat old_end)) (mkRange (Z.of_nat new_start) (Z.of_nat new_end)).

(** A fragment from one byte of it to another, with an id. *)
Definition cut (fragment : Fragment) (from len : nat) (id : list Z) : Fragment :=
  mkFrag id (frag_timestamp fragment) (insertion_offset fragment + from) len (visible fragment)
    (frag_deletions fragment) (max_undos fragment).
(** [deletions.push(timestamp); visible = false]. *)
Definition deleted (fragment : Fragment) (timestamp : Stamp) : Fragment :=
  mkFrag (frag_id fragment) (frag_timestamp fragment) (insertion_offset fragment) (frag_len fragment) false
    (frag_deletions fragment ++ [timestamp]) (max_undos fragment).

(** What the walk builds. *)
Record Output := mkOutput {
  new_fragments : FragmentBuilder;
  new_ropes : RopeBuilder;
  new_insertions : list (KeyedTree.Edit InsertionFragment InsertionFragmentKey);
  new_slices : list InsertionSlice;
  next_offset : nat;
  edits_patch : list Patch.Edit;
}.
Definition built (o : Output) : FragmentSummary := builder_summary (new_fragments o).

Section Edit.
Context `{LineSeparators} (max_insertion_len : nat) (par_chunks_map : par_chunks_type).

(** [new_insertions.push(..); new_ropes.push_fragment(..); new_fragments.push(..)]. *)
Definition output_fragment (o : Output) (fragment : Fragment) (was_visible : bool) : res Output :=
  ropes ← push_fragment (new_ropes o) fragment was_visible;
  Ret (mkOutput (fragments_push (new_fragments o) fragment) ropes (new_insertions o ++ [insert_new fragment])
         (new_slices o) (next_offset o) (edits_patch o)).
Definition output_tree (o : Output) (tree : node Fragment FragmentSummary) : res Output :=
  ropes ← ropes_append (new_ropes o) (summary_text_len (node_summary tree));
  Ret (mkOutput (fragments_append (new_fragments o) tree) ropes (new_insertions o) (new_slices o) (next_offset o) (edits_patch o)).
Definition with_patch (o : Output) (edit : Patch.Edit) : Output :=
  mkOutput (new_fragments o) (new_ropes o) (new_insertions o) (new_slices o) (next_offset o) (Patch.push (edits_patch o) edit).
Definition with_slice (o : Output) (slice : InsertionSlice) : Output :=
  mkOutput (new_fragments o) (new_ropes o) (new_insertions o) (new_slices o ++ [slice]) (next_offset o) (edits_patch o).

(** [push_fragments_for_insertion]: [MAX_INSERTION_LEN] depends on the build.  A round takes
    a byte at least. *)
Fixpoint insertion_loop (fuel : nat) (o : Output) (text : str) (text_offset : nat) (timestamp : Stamp)
    (next_fragment_id : list Z) (edit_timestamp : Stamp) : res Output :=
  if length text <=? text_offset then Ret o
  else
    match fuel with
    | O => Panic
    | S fuel =>
        let target_end := length text `min` (text_offset + max_insertion_len) in
        let chunk_end := if target_end =? length text then target_end else str_floor_char_boundary text target_end in
        if chunk_end =? text_offset then Ret o
        else
          chunk_len ← minus chunk_end text_offset;
          id ← unwrap (Locator.between (max_id (built o)) next_fragment_id);
          let fragment := mkFrag id timestamp (next_offset o) chunk_len true [] version_new in
          let o := mkOutput (fragments_push (new_fragments o) fragment) (new_ropes o)
                     (new_insertions o ++ [insert_new fragment]) (new_slices o ++ [from_fragment edit_timestamp fragment])
                     (next_offset o + chunk_len) (edits_patch o) in
          insertion_loop fuel o text chunk_end timestamp next_fragment_id edit_timestamp
    end.
Definition push_fragments_for_insertion (o : Output) (text : str) (timestamp : Stamp) (next_fragment_id : list Z)
    (edit_timestamp : Stamp) : res Output :=
  o ← insertion_loop (length text) o text 0 timestamp next_fragment_id edit_timestamp;
  ropes ← ropes_push_str par_chunks_map (new_ropes o) text;
  Ret (mkOutput (new_fragments o) ropes (new_insertions o) (new_slices o) (next_offset o) (edits_patch o)).

(** ** Local edits *)
Definition FragmentCursor : Type := cursor Fragment FragmentSummary FragmentTextSummary.

(** The walk: the old fragments left, and how far into the visible text it is. *)
Record Walk := mkWalk { old_fragments : FragmentCursor; fragment_start : nat; output : Output }.

(** If the current fragment has been partially consumed, the rest of it. *)
Definition finish_fragment (w : Walk) : res Walk :=
  let '(mkWalk c fragment_start o) := w in
  let start_visible := text_visible (start c) in
  if start_visible <? fragment_start then
    end_ ← cursor_end c;
    let fragment_end := text_visible end_ in
    o ← (if fragment_start <? fragment_end then
           item ← item c;
           fragment ← unwrap item;
           let suffix := cut fragment (fragment_start - start_visible) (fragment_end - fragment_start) (frag_id fragment) in
           output_fragment o suffix (visible suffix)
         else Ret o);
    c ← next c;
    Ret (mkWalk c fragment_start o)
  else Ret w.

(** Ahead to the first fragment that extends past the start of the range. *)
Definition skip_ahead (w : Walk) (range_start : nat) : res Walk :=
  end_ ← cursor_end (old_fragments w);
  if text_visible end_ <? range_start then
    w ← finish_fragment w;
    let '(mkWalk c _ o) := w in
    r ← SumCursor.slice c range_start Right;
    let '(tree, c) := r in
    o ← output_tree o tree;
    Ret (mkWalk c (text_visible (start c)) o)
  else Ret w.

(** The part of the current fragment in front of the range. *)
Definition keep_prefix (w : Walk) (range_start : nat) : res Walk :=
  let '(mkWalk c fragment_start o) := w in
  if fragment_start <? range_start then
    item ← item c;
    fragment ← unwrap item;
    from ← minus fragment_start (text_visible (start c));
    id ← unwrap (Locator.between (max_id (built o)) (frag_id fragment));
    let prefix := cut fragment from (range_start - fragment_start) id in
    o ← output_fragment o prefix (visible prefix);
    Ret (mkWalk c range_start o)
  else Ret w.

Definition insert_text (w : Walk) (text : str) (timestamp : Stamp) : res Walk :=
  if length text =? 0 then Ret w
  else
    let '(mkWalk c fragment_start o) := w in
    let new_start := text_visible (summary_text_len (built o)) in
    item ← item c;
    let next_fragment_id := match item with Some fragment => frag_id fragment | None => Locator.max end in
    o ← push_fragments_for_insertion o text timestamp next_fragment_id timestamp;
    Ret (mkWalk c fragment_start (with_patch o (edit_at fragment_start fragment_start new_start (new_start + length text)))).

(** One fragment that intersects the range. *)
Definition delete_step (w : Walk) (range_end : nat) (timestamp : Stamp) : res Walk :=
  let '(mkWalk c fragment_start o) := w in
  item ← item c;
  fragment ← unwrap item;
  end_ ← cursor_end c;
  let fragment_end := text_visible end_ in
  let intersection_end := range_end `min` fragment_end in
  intersection ← (if visible fragment then
                    len ← minus intersection_end fragment_start;
                    from ← minus fragment_start (text_visible (start c));
                    id ← unwrap (Locator.between (max_id (built o)) (frag_id fragment));
                    Ret (deleted (cut fragment from len id) timestamp)
                  else Ret fragment);
  st ← (if 0 <? frag_len intersection then
          let new_start := text_visible (summary_text_len (built o)) in
          let o := if visible fragment && negb (visible intersection)
                   then with_slice (with_patch o (edit_at fragment_start intersection_end new_start new_start))
                          (from_fragment timestamp intersection)
                   else o in
          o ← output_fragment o intersection (visible fragment);
          Ret (intersection_end, o)
        else Ret (fragment_start, o));
  let '(fragment_start, o) := st in
  c ← (if fragment_end <=? range_end then next c else Ret c);
  Ret (mkWalk c fragment_start o).
Fixpoint delete_loop (fuel : nat) (w : Walk) (range_end : nat) (timestamp : Stamp) : res Walk :=
  if fragment_start w <? range_end then
    match fuel with
    | O => Panic
    | S fuel => w ← delete_step w range_end timestamp; delete_loop fuel w range_end timestamp
    end
  else Ret w.

(** One edit: the walk after it, and the range of the full text it replaces. *)
Definition edit_step (fuel : nat) (w : Walk) (range_start range_end : nat) (new_text : str) (timestamp : Stamp)
    : res (Walk * (Z * Z)) :=
  w ← skip_ahead w range_start;
  let full_range_start := range_start + text_deleted (start (old_fragments w)) in
  w ← keep_prefix w range_start;
  w ← insert_text w new_text timestamp;
  w ← delete_loop fuel w range_end timestamp;
  let full_range_end := range_end + text_deleted (start (old_fragments w)) in
  Ret (w, (Z.of_nat full_range_start, Z.of_nat full_range_end)).

Fixpoint edit_loop (fuel : nat) (w : Walk) (edits : list (nat * nat * str)) (timestamp : Stamp)
    : res (Walk * list (Z * Z) * list str) :=
  match edits with
  | [] => Ret (w, [], [])
  | (range_start, range_end, new_text) :: edits =>
      let new_text := normalize new_text in
      r ← edit_step fuel w range_start range_end new_text timestamp;
      let '(w, range) := r in
      r ← edit_loop fuel w edits timestamp;
      let '(w, ranges, texts) := r in
      Ret (w, range :: ranges, new_text :: texts)
  end.

(** The rest of the old fragments, and what the snapshot becomes. *)
Definition rebuild (self : BufferSnapshot) (o : Output) (rest : node Fragment FragmentSummary) : res BufferSnapshot :=
  o ← output_tree o rest;
  texts ← ropes_finish (new_ropes o);
  tree ← to_sum_tree par_chunks_map (new_fragments o);
  insertions ← KeyedTree.edit (insertions self) (new_insertions o);
  slices ← set_extend (insertion_slices self) (new_slices o);
  Ret (mkSnapshot (fst texts) (snd texts) tree (fst insertions) slices (snapshot_undo_map self) (version self) (remote_id self)).

Definition apply_edit_internal (self : BufferSnapshot) (edits : list (nat * nat * str)) (timestamp : Stamp)
    : res (BufferSnapshot * EditOperation * list Patch.Edit) :=
  match edits with
  | [] => Ret (self, mkEditOperation timestamp (version self) [] [], [])
  | (first_start, _, _) :: _ =>
      ropes ← ropes_new (visible_text self) (deleted_text self);
      r ← SumCursor.slice (cursor_new (D:=FragmentTextSummary) (fragments self)) first_start Right;
      let '(tree, c) := r in
      let new_fragments := fragments_new tree in
      ropes ← ropes_append ropes (summary_text_len (builder_summary new_fragments));
      let w := mkWalk c (text_visible (start c)) (mkOutput new_fragments ropes [] [] 0 []) in
      r ← edit_loop (fuel_for (fragments self)) w edits timestamp;
      let '(w, ranges, texts) := r in
      w ← finish_fragment w;
      rest ← SumCursor.suffix (old_fragments w);
      self ← rebuild self (output w) (fst rest);
      Ret (self, mkEditOperation timestamp (version self) ranges texts, edits_patch (output w))
  end.
End Edit.
