(* ===== verification/EditBooks.v ===== *)
(** * What an edit does to the bytes of a buffer

    The steps of [BufferSnapshot::apply_edit_internal] on parts (a fragment and its text),
    apart from trees and ropes: what each step keeps true of the parts the walk has put out
    and of those it has left. *)

From S2P Require Import Prelude.
From S2P Require Import Locator.
From S2P Require Import Patch.
From S2P Require Import UndoMap.
From S2P Require Import KeyedTree.
From S2P Require Import Text.
From S2P Require Import TextSpec.
From S2P Require Import Utf8.
From S2P Require Import SumTree.
From S2P Require Import SumTreeInvariant.
From S2P Require Import SumIter.
From S2P Require Import Chunk.
From S2P Require Import ChunkSpec.
From S2P Require Import ChunkPositions.
From S2P Require Import Rope.
From S2P Require Import RopeSpec.
From S2P Require Import Fragments.
From S2P Require Import FragmentsSpec.
From S2P Require Import LocalEdit.
Local Open Scope nat_scope.

Abbreviation part := (Fragment * str)%type (only parsing).
Abbreviation Char := (Stamp * nat * Z)%type (only parsing).
Implicit Types (p q r : Fragment * str) (ps qs out rest : list (Fragment * str)).

(** ** Cutting a part *)
Definition part_id p : list Z := frag_id (fst p).
(** The name of a part's first byte. *)
Definition key_of p : Stamp * nat := (frag_timestamp (fst p), insertion_offset (fst p)).
Definition head_cut (k n : nat) (id : list Z) p : part := (cut (fst p) k n id, take n (drop k (snd p))).
Definition tail_cut (k : nat) p : part := (cut (fst p) k (frag_len (fst p) - k) (part_id p), drop k (snd p)).
Definition strike (timestamp : Stamp) p : part := (deleted (fst p) timestamp, snd p).

Lemma stamped_take ts o s n : take n (stamped ts o s) = stamped ts o (take n s).
Proof.
  rewrite <-(take_drop n s) at 1. rewrite stamped_app.
  destruct (decide (n <= length s)) as [H|H].
  - by rewrite take_app_le, take_ge by (rewrite length_stamped, length_take; lia).
  - rewrite drop_ge by lia. cbn. rewrite app_nil_r. apply take_ge. rewrite length_stamped, length_take. lia.
Qed.
Lemma stamped_drop ts o s n : n <= length s -> drop n (stamped ts o s) = stamped ts (o + n) (drop n s).
Proof.
  intros H. rewrite <-(take_drop n s) at 1. rewrite stamped_app, length_take, Nat.min_l by lia.
  rewrite drop_app_length'; [done|]. rewrite length_stamped, length_take. lia.
Qed.
Lemma chars_head k n id p : k <= length (snd p) -> chars (head_cut k n id p) = take n (drop k (chars p)).
Proof. intros Hk. unfold chars at 2. rewrite stamped_drop, stamped_take by done. done. Qed.
Lemma chars_tail k p : k <= length (snd p) -> chars (tail_cut k p) = drop k (chars p).
Proof. intros Hk. unfold chars at 2. by rewrite stamped_drop. Qed.
Lemma cut_cut f k m n l id id' : cut (cut f k m id) n l id' = cut f (k + n) l id'.
Proof. unfold cut. cbn. by rewrite Nat.add_assoc. Qed.
Lemma head_tail k n id p : head_cut 0 n id (tail_cut k p) = head_cut k n id p.
Proof. unfold head_cut, tail_cut. cbn [fst snd]. by rewrite cut_cut, Nat.add_0_r. Qed.
Lemma tail_tail k n p : tail_cut n (tail_cut k p) = tail_cut (k + n) p.
Proof.
  unfold tail_cut. cbn [fst snd part_id]. rewrite cut_cut, drop_drop. cbn. by rewrite Nat.sub_add_distr.
Qed.
Lemma tail_0 p : tail_cut 0 p = p.
Proof. destruct p as [[i ts o l v d u] s]. unfold tail_cut, cut. cbn. by rewrite Nat.add_0_r, Nat.sub_0_r. Qed.

Lemma head_ok k n id p :
  part_ok p -> k + n <= length (snd p) -> utf8 (take n (drop k (snd p))) -> part_ok (head_cut k n id p).
Proof. intros [Hu Hl] Hk Ht. split; [done|]. cbn. rewrite length_take, length_drop. lia. Qed.
Lemma tail_ok k p : part_ok p -> k <= length (snd p) -> utf8 (drop k (snd p)) -> part_ok (tail_cut k p).
Proof. intros [Hu Hl] Hk Ht. split; [done|]. cbn. rewrite length_drop. lia. Qed.
Lemma strike_ok ts p : part_ok p -> part_ok (strike ts p).
Proof. by intros [Hu Hl]. Qed.

(** What is between two boundaries of a text. *)
Lemma cut_utf8 (s : str) i j :
  utf8 s -> boundary s i -> boundary s j -> i <= j -> utf8 (take (j - i) (drop i s)).
Proof.
  intros Hu Hi Hj Hij. pose proof (boundary_split s i Hu Hi) as (H1 & _ & Hd).
  pose proof (boundary_split s j Hu Hj) as (H2 & _ & _). apply (boundary_split _ _ Hd). rewrite boundary_drop by (done || lia).
  by replace (i + (j - i)) with j by lia.
Qed.

(** ** The books *)
Section Books.
Context (ts : Stamp) (ps : list part).

(** Which old part a part comes from: what inserted it and what undid that stay; it may
    have been deleted by the edit. *)
Definition inside q p : Prop :=
  insertion_offset (fst p) <= insertion_offset (fst q)
  /\ insertion_offset (fst q) + length (snd q) <= insertion_offset (fst p) + length (snd p).
Lemma inside_tail k n p p0 : k + n <= length (snd p) -> inside (tail_cut k p) p0 -> inside (tail_cut (k + n) p) p0.
Proof. intros Hk [H1 H2]. unfold inside in *. cbn in *. rewrite length_drop in *. lia. Qed.
Lemma inside_head k n p p0 q : k + n <= length (snd p) -> insertion_offset (fst q) = insertion_offset (fst p) + k ->
  snd q = take n (drop k (snd p)) -> inside (tail_cut k p) p0 -> inside q p0.
Proof. intros Hk E1 E2 [H1 H2]. unfold inside in *. rewrite E1, E2, length_take. cbn in *. rewrite length_drop in *. lia. Qed.
Definition stems q : Prop := exists p, p ∈ ps /\ inside q p
  /\ frag_timestamp (fst q) = frag_timestamp (fst p) /\ max_undos (fst q) = max_undos (fst p)
  /\ (visible (fst q) = visible (fst p) /\ frag_deletions (fst q) = frag_deletions (fst p)
      \/ visible (fst p) = true /\ visible (fst q) = false /\ frag_deletions (fst q) = frag_deletions (fst p) ++ [ts]).
Definition inserted q : Prop :=
  frag_timestamp (fst q) = ts /\ max_undos (fst q) = version_new /\ visible (fst q) = true /\ frag_deletions (fst q) = [].
(** The edit inserted or deleted it. *)
Definition touched q : bool := bool_decide (frag_timestamp (fst q) = ts) || bool_decide (ts ∈ frag_deletions (fst q)).
Definition left_ok q : Prop := stems q /\ touched q = false.
Definition id_ok q : Prop := Locator.wf (part_id q) /\ lex_lt Locator.min (part_id q) /\ lex_lt (part_id q) Locator.max.

Definition old_char (c : Char) : bool := negb (bool_decide (c.1.1 = ts)).
Definition new_char (c : Char) : bool := bool_decide (c.1.1 = ts).

Record books rest out (insertions : list (KeyedTree.Edit InsertionFragment InsertionFragmentKey))
    (slices : list InsertionSlice) (text : str) : Prop := {
  books_order : StronglySorted lex_lt (map part_id (out ++ rest));
  books_ids : Forall id_ok (out ++ rest);
  books_parts : Forall part_ok (out ++ rest);
  books_nonempty : Forall (fun q => snd q <> []) out;
  books_kept : List.filter old_char (all_chars out) ++ all_chars rest = all_chars ps;
  books_fresh : List.filter new_char (all_chars out) = stamped ts 0 text;
  books_stems : Forall (fun q => stems q \/ inserted q) out;
  books_left : Forall left_ok rest;
  books_insertions : exists qs, insertions = map (fun q => insert_new (fst q)) qs /\ qs `sublist_of` out
    /\ forall q, q ∈ out -> q ∈ qs \/ q ∈ ps;
  books_starts : forall p, p ∈ ps -> exists q, q ∈ out ++ rest /\ snd q <> [] /\ key_of q = key_of p;
  books_slices : slices = map (fun q => from_fragment ts (fst q)) (List.filter touched out);
}.

(** The old text up to where the walk is, and what it has become. *)
Record patched rest out (patch : list Patch.Edit) (pos : nat) : Prop := {
  patched_text : exists before, shown ps = before ++ shown rest /\ length before = pos
    /\ Patch.transforms 0 0 patch before (shown out);
  patched_normal : Patch.normal patch;
}.

Context (Hold : Forall (fun p => frag_timestamp (fst p) <> ts) ps).

Lemma filter_chars_old q : frag_timestamp (fst q) <> ts ->
  List.filter old_char (chars q) = chars q /\ List.filter new_char (chars q) = [].
Proof.
  intros H. unfold chars, stamped. generalize (insertion_offset (fst q)). induction (snd q) as [|b s IH]; intros o; [done|].
  cbn [imap]. cbn [List.filter]. unfold old_char at 1, new_char at 1. cbn [fst].
  rewrite bool_decide_eq_false_2 by done. cbn [negb].
  assert (imap ((fun i b => (frag_timestamp q.1, o + i, b)) ∘ S) s = imap (fun i b => (frag_timestamp q.1, S o + i, b)) s) as ->.
  { apply imap_ext. intros. cbn. do 2 f_equal. lia. }
  destruct (IH (S o)) as [-> ->]. done.
Qed.
Lemma filter_chars_new o (s : str) :
  List.filter old_char (stamped ts o s) = [] /\ List.filter new_char (stamped ts o s) = stamped ts o s.
Proof.
  revert o. unfold stamped. induction s as [|b s IH]; intros o; [done|].
  cbn [imap]. cbn [List.filter]. unfold old_char at 1, new_char at 1. cbn [fst].
  rewrite bool_decide_eq_true_2 by done. cbn [negb].
  assert (imap ((fun i b => (ts, o + i, b)) ∘ S) s = imap (fun i b => (ts, S o + i, b)) s) as ->.
  { apply imap_ext. intros. cbn. do 2 f_equal. lia. }
  destruct (IH (S o)) as [-> ->]. done.
Qed.
Lemma stems_old q : stems q -> frag_timestamp (fst q) <> ts.
Proof. intros (p & Hp & _ & -> & _). by eapply Forall_forall in Hold. Qed.

(** *** Order *)
Definition above out (id : list Z) : Prop := forall o, o ∈ out -> lex_lt (part_id o) id.

Lemma above_last out id :
  StronglySorted lex_lt (map part_id out) -> lex_lt (last_id out) id -> above out id.
Proof.
  destruct out as [|o out _] using rev_ind; [by intros _ _ o Ho%elem_of_nil|].
  unfold last_id. rewrite last_snoc, map_app. cbn. intros Hs Hl x [Hx|Hx%list_elem_of_singleton]%elem_of_app; [|by subst].
  etrans; [|exact Hl]. eapply StronglySorted_app_1_elem_of; [exact Hs| |by apply list_elem_of_singleton].
  by apply (list_elem_of_fmap_2 part_id).
Qed.
Lemma last_above out id : lex_lt Locator.min id -> above out id -> lex_lt (last_id out) id.
Proof.
  destruct out as [|o out _] using rev_ind; [done|]. intros _ H. unfold last_id. rewrite last_snoc. apply H.
  apply elem_of_app. right. by apply list_elem_of_singleton.
Qed.
Lemma order_above out r rest : StronglySorted lex_lt (map part_id (out ++ r :: rest)) -> above out (part_id r).
Proof.
  rewrite map_app. intros Hs o Ho. eapply StronglySorted_app_1_elem_of; [exact Hs| |by left].
  by apply (list_elem_of_fmap_2 part_id).
Qed.
Lemma order_emit out r rest q l :
  StronglySorted lex_lt (map part_id (out ++ r :: rest)) -> above out (part_id q) ->
  (part_id q = part_id r /\ l = []) \/ (lex_lt (part_id q) (part_id r) /\ (l = [] \/ exists x, l = [x] /\ part_id x = part_id r)) ->
  StronglySorted lex_lt (map part_id ((out ++ [q]) ++ l ++ rest)).
Proof.
  rewrite !map_app, <-app_assoc. intros (_ & Ho & (Hr & Hrs)%StronglySorted_inv)%StronglySorted_app Hq Hl.
  assert (forall id, lex_lt id (part_id r) -> Forall (lex_lt id) (map part_id rest)) as Hlt.
  { intros id Hid. eapply Forall_impl; [exact Hrs|]. intros id' ?. by etrans. }
  assert (StronglySorted lex_lt (part_id q :: map part_id l ++ map part_id rest)) as Ht.
  { destruct Hl as [[-> ->]|[Hlq [->|(x & -> & Ex)]]]; cbn; [by constructor|constructor; auto|].
    rewrite Ex. constructor; [by constructor|]. constructor; auto. }
  apply StronglySorted_app. split_and!; [|done..]. intros a b Ha Hb.
  apply list_elem_of_fmap in Ha as (o & -> & Hoo). specialize (Hq _ Hoo).
  apply elem_of_cons in Hb as [->|Hb]; [done|]. apply StronglySorted_inv in Ht as [_ Ht].
  etrans; [exact Hq|]. by eapply Forall_forall in Ht.
Qed.

Lemma last_digits out : Forall id_ok out -> Locator.digits_ok (last_id out).
Proof.
  destruct out as [|o out _] using rev_ind; [by repeat constructor|]. intros [_ [[[? _] _] _]%Forall_cons]%Forall_app.
  unfold last_id. by rewrite last_snoc.
Qed.
Lemma min_last_lt out id : Forall id_ok out -> lex_lt (last_id out) id -> lex_lt Locator.min id.
Proof.
  destruct out as [|o out _] using rev_ind; [done|]. intros [_ [[_ [? _]] _]%Forall_cons]%Forall_app.
  unfold last_id. rewrite last_snoc. cbn. intros. by etrans.
Qed.

(** *** The steps *)
Lemma flat_chars_old qs : Forall stems qs -> List.filter old_char (all_chars qs) = all_chars qs /\ List.filter new_char (all_chars qs) = [].
Proof.
  induction 1 as [|q qs Hq _ [IH1 IH2]]; [done|]. unfold all_chars in *. cbn [flat_map]. rewrite !List.filter_app, IH1, IH2.
  destruct (filter_chars_old q (stems_old q Hq)) as [-> ->]. done.
Qed.

(** A part of the head of what is left goes out. *)
Lemma books_emit r rest out ins sl sl' T q l :
  books (r :: rest) out ins sl T ->
  part_ok q -> snd q <> [] -> id_ok q -> stems q -> above out (part_id q) ->
  (part_id q = part_id r /\ l = []) \/ (lex_lt (part_id q) (part_id r) /\ (l = [] \/ exists x, l = [x] /\ part_id x = part_id r)) ->
  key_of q = key_of r -> chars q ++ all_chars l = chars r -> Forall part_ok l -> Forall left_ok l ->
  sl' = (if touched q then sl ++ [from_fragment ts (fst q)] else sl) ->
  books (l ++ rest) (out ++ [q]) (ins ++ [insert_new (fst q)]) sl' T.
Proof.
  intros [H1 H2 H3 H4 H5 H6 H7 H8 H9 H11 H10] Hq Hne Hid Hst Hab Hl Hkey Hc Hlp Hls Hsl.
  assert (Forall id_ok l) as Hli.
  { destruct Hl as [[_ ->]|[_ [->|(x & -> & Ex)]]]; [constructor..|]. apply Forall_singleton.
    unfold id_ok. rewrite Ex. by apply Forall_app in H2 as [_ [? _]%Forall_cons]. }
  apply Forall_app in H2 as [H2 [_ H2']%Forall_cons]. apply Forall_app in H3 as [H3 [_ H3']%Forall_cons].
  split.
  - by eapply order_emit.
  - by rewrite !Forall_app, Forall_singleton.
  - by rewrite !Forall_app, Forall_singleton.
  - by rewrite Forall_app, Forall_singleton.
  - rewrite all_chars_app, List.filter_app, all_chars_one. rewrite (proj1 (filter_chars_old q (stems_old q Hst))).
    rewrite all_chars_app, <-!app_assoc, (app_assoc (chars q)), Hc. exact H5.
  - rewrite all_chars_app, List.filter_app, all_chars_one. rewrite (proj2 (filter_chars_old q (stems_old q Hst))), app_nil_r. done.
  - rewrite Forall_app, Forall_singleton. split; [done|by left].
  - apply Forall_app. split; [done|]. by apply Forall_cons in H8 as [_ ?].
  - destruct H9 as (qs & -> & Hin & Hcov). exists (qs ++ [q]). split_and!; [by rewrite map_app|by apply sublist_app|].
    intros x [Hx|Hx]%elem_of_app; [destruct (Hcov x Hx); [left; set_solver|by right]|left; set_solver].
  - intros p Hp. destruct (H11 p Hp) as (x & Hx & Hxne & Ex). rewrite !elem_of_app, elem_of_cons in Hx.
    destruct Hx as [Hx|[->|Hx]]; [exists x; split_and!; [set_solver|done|done]| |exists x; split_and!; [set_solver|done|done]].
    exists q. split_and!; [set_solver|done|by rewrite Hkey].
  - rewrite List.filter_app, map_app, Hsl, H10. cbn [List.filter]. destruct (touched q); [done|by rewrite app_nil_r].
Qed.

Lemma books_drop r rest out ins sl T : books (r :: rest) out ins sl T -> snd r = [] -> books rest out ins sl T.
Proof.
  intros [H1 H2 H3 H4 H5 H6 H7 H8 H9 H11 H10] Hr. split; try done.
  - rewrite map_app in *. apply StronglySorted_app in H1 as (Hx & Ho & [Hr' _]%StronglySorted_inv).
    apply StronglySorted_app. split_and!; [|done..]. intros a b Ha Hb. apply Hx; [done|by right].
  - apply Forall_app in H2 as [? [_ ?]%Forall_cons]. by apply Forall_app.
  - apply Forall_app in H3 as [? [_ ?]%Forall_cons]. by apply Forall_app.
  - assert (chars r = []) as E by (unfold chars; by rewrite Hr).
    rewrite <-H5. change (r :: rest) with ([r] ++ rest). by rewrite (all_chars_app [r]), all_chars_one, E.
  - by apply Forall_cons in H8 as [_ ?].
  - intros p Hp. destruct (H11 p Hp) as (x & Hx & Hxne & Ex). rewrite elem_of_app, elem_of_cons in Hx.
    destruct Hx as [Hx|[->|Hx]]; [exists x; split_and!; [set_solver|done|done]|done|exists x; split_and!; [set_solver|done|done]].
Qed.

Lemma books_pass qs rest out ins sl T :
  books (qs ++ rest) out ins sl T -> qs ⊆ ps -> Forall (fun q => snd q <> []) qs -> books rest (out ++ qs) ins sl T.
Proof.
  intros [H1 H2 H3 H4 H5 H6 H7 H8 H9 H11 H10] Hin Hne. rewrite app_assoc in H1, H2, H3.
  apply Forall_app in H8 as [H8 H8']. apply Forall_and in H8 as [H8 Hun]. destruct (flat_chars_old qs H8) as [E1 E2].
  split; try done.
  - by apply Forall_app.
  - rewrite all_chars_app, List.filter_app, E1, <-app_assoc, <-all_chars_app. done.
  - rewrite all_chars_app, List.filter_app, E2, app_nil_r. done.
  - apply Forall_app. split; [done|]. eapply Forall_impl; [exact H8|]. by left.
  - destruct H9 as (l & -> & Hl & Hcov). exists l. split_and!; [done|by apply sublist_inserts_r|].
    intros x [Hx|Hx]%elem_of_app; [by apply Hcov|right; by apply Hin].
  - by rewrite <-app_assoc.
  - rewrite List.filter_app, map_app, H10. replace (List.filter touched qs) with (@nil (Fragment * str)); [by rewrite app_nil_r|].
    clear -Hun. induction Hun as [|q qs Hq _ IH]; [done|]. cbn. by rewrite Hq.
Qed.

(** A new part goes out. *)
Definition new_part (id : list Z) (offset : nat) (text : str) : part :=
  (mkFrag id ts offset (length text) true [] version_new, text).
Lemma books_insert rest out ins sl T id text :
  books rest out ins sl T -> utf8 text -> text <> [] -> id_ok (new_part id (length T) text) -> above out id ->
  Forall (fun r => lex_lt id (part_id r)) rest ->
  let q := new_part id (length T) text in
  books rest (out ++ [q]) (ins ++ [insert_new (fst q)]) (sl ++ [from_fragment ts (fst q)]) (T ++ text).
Proof.
  intros [H1 H2 H3 H4 H5 H6 H7 H8 H9 H11 H10] Hu Hne Hid Hab Hlt q.
  assert (inserted q) as Hq by done. change (chars q) with (stamped ts (length T) text) in *.
  apply Forall_app in H2 as [H2 H2']. apply Forall_app in H3 as [H3 H3'].
  split; try done.
  - rewrite <-app_assoc, !map_app in *. apply StronglySorted_app in H1 as (Hx & Ho & Hr). cbn [map app].
    apply StronglySorted_app. split_and!; [|done|].
    + intros a b Ha Hb. apply elem_of_cons in Hb as [->|Hb]; [|by apply Hx].
      apply list_elem_of_fmap in Ha as (o & -> & Hoo). by apply Hab.
    + constructor; [done|]. by apply Forall_fmap.
  - by rewrite !Forall_app, Forall_singleton.
  - by rewrite !Forall_app, Forall_singleton.
  - by rewrite Forall_app, Forall_singleton.
  - rewrite all_chars_app, List.filter_app, all_chars_one. unfold chars.
    cbn [q new_part fst snd frag_timestamp insertion_offset]. by rewrite (proj1 (filter_chars_new _ _)), app_nil_r.
  - rewrite all_chars_app, List.filter_app, all_chars_one. unfold chars.
    cbn [q new_part fst snd frag_timestamp insertion_offset]. by rewrite (proj2 (filter_chars_new _ _)), H6, stamped_app.
  - rewrite Forall_app, Forall_singleton. split; [done|by right].
  - destruct H9 as (qs & -> & Hin & Hcov). exists (qs ++ [q]). split_and!; [by rewrite map_app|by apply sublist_app|].
    intros x [Hx|Hx]%elem_of_app; [destruct (Hcov x Hx); [left; set_solver|by right]|left; set_solver].
  - intros p Hp. destruct (H11 p Hp) as (x & Hx & Hxne & Ex). exists x. split_and!; [set_solver|done|done].
  - rewrite List.filter_app, map_app, H10. cbn [List.filter].
    assert (touched q = true) as -> by (unfold touched; by rewrite bool_decide_eq_true_2). done.
Qed.

(** *** Text *)
Lemma shown_uniform v l : Forall (fun x => visible (fst x) = v) l ->
  shown l = (if v then all_chars l else []) /\ hidden l = (if v then [] else all_chars l).
Proof.
  induction 1 as [|x l Hx _ [IH1 IH2]]; [by destruct v|]. unfold shown, hidden, all_chars in *. cbn [flat_map].
  rewrite IH1, IH2, Hx. by destruct v.
Qed.
Lemma shown_pieces r q l rest :
  chars q ++ all_chars l = chars r -> Forall (fun x => visible (fst x) = visible (fst r)) l ->
  shown (r :: rest) = (if visible (fst r) then chars q else []) ++ shown (l ++ rest)
  /\ hidden (r :: rest) = (if visible (fst r) then [] else chars q) ++ hidden (l ++ rest).
Proof.
  intros Hc Hv. change (r :: rest) with ([r] ++ rest). rewrite !shown_app, !hidden_app, shown_one, hidden_one.
  destruct (shown_uniform _ _ Hv) as [-> ->]. rewrite <-Hc, !app_assoc. by destruct (visible (fst r)).
Qed.

(** *** The patch *)
Lemma patched_kept rest out patch pos rest' out' (g : list Char) :
  patched rest out patch pos -> shown rest = g ++ shown rest' -> shown out' = shown out ++ g ->
  patched rest' out' patch (pos + length g).
Proof.
  intros [(b & E & <- & Ht) Hn] Er Eo. split; [|done]. exists (b ++ g).
  split_and!; [by rewrite E, Er, app_assoc|apply length_app|]. rewrite Eo, <-(app_nil_r patch).
  eapply Patch.transforms_app; [exact Ht|constructor].
Qed.
Lemma patched_edit rest out patch pos rest' out' (X Y : list Char) end_ new_end :
  patched rest out patch pos -> shown rest = X ++ shown rest' -> shown out' = shown out ++ Y ->
  end_ = pos + length X -> new_end = length (shown out) + length Y ->
  patched rest' out' (Patch.push patch (edit_at pos end_ (length (shown out)) new_end)) end_.
Proof.
  intros [(b & E & <- & Ht) Hn] Er Eo -> ->.
  pose proof (Patch.push_transforms patch b (shown out) [] X Y Ht Hn) as H. cbn zeta in H. cbn [app length] in H.
  replace (Patch.edit_of _ _ X Y) with (edit_at (length b) (length b + length X) (length (shown out)) (length (shown out) + length Y)) in H
    by (unfold edit_at, Patch.edit_of; f_equal; f_equal; lia).
  split; [|apply H]. exists (b ++ X). split_and!; [by rewrite E, Er, app_assoc|apply length_app|]. rewrite Eo. apply H.
Qed.
End Books.

(** ** Outputs *)
Section Outputs.
Context (old_visible old_deleted : Rope) (Hvis : cuttable old_visible) (Hdel : cuttable old_deleted).
Context (ts : Stamp) (ps : list part) (Hold : Forall (fun p => frag_timestamp (fst p) <> ts) ps).

Record puts (o : Output) out (v d : str) : Prop := {
  puts_fragments : builds (new_fragments o) (map fst out);
  puts_ropes : ropes_at old_visible old_deleted (new_ropes o) v d (bytes (shown out)) (bytes (hidden out));
}.
(** The output's parts, and what is left of the old ones. *)
Record account (o : Output) rest out (text : str) (pos : nat) : Prop := {
  account_books : books ts ps rest out (new_insertions o) (new_slices o) text;
  account_next : next_offset o = length text;
  account_patch : patched ps rest out (edits_patch o) pos;
  account_puts : puts o out (bytes (shown rest)) (bytes (hidden rest));
}.

Lemma built_text o out v d : puts o out v d -> Forall part_ok out -> summary_text_len (built o) = text_of out.
Proof. intros [Hb _] Ho. unfold built. rewrite (builds_summary _ _ Hb). by apply total_text. Qed.
Lemma built_id o out v d : puts o out v d -> max_id (built o) = last_id out.
Proof. intros [Hb _]. unfold built. rewrite (builds_summary _ _ Hb). apply total_id. Qed.

Lemma output_fragment_ok o out q (was_visible : bool) v d :
  puts o out (if was_visible then snd q ++ v else v) (if was_visible then d else snd q ++ d) ->
  part_ok q -> snd q <> [] -> utf8 v -> utf8 d ->
  exists b rb, output_fragment o (fst q) was_visible
    = Ret (mkOutput b rb (new_insertions o ++ [insert_new (fst q)]) (new_slices o) (next_offset o) (edits_patch o))
    /\ forall i s n e, puts (mkOutput b rb i s n e) (out ++ [q]) v d.
Proof.
  intros [Hb Hr] Hq Hne Hv Hd. unfold output_fragment, push_fragment. rewrite (part_len _ Hq).
  destruct (Nat.ltb_spec 0 (length (snd q))); [|destruct (snd q); [done|cbn in *; lia]]. cbn [assert mbind res_bind]. rewrite <-(part_len _ Hq).
  destruct (ropes_push_ok _ _ Hvis Hdel _ (snd q) was_visible (visible (fst q)) v d _ _ _ (part_len _ Hq) Hr Hv Hd)
    as (r & -> & Hr'). cbn [mbind res_bind]. do 2 eexists. split; [done|]. intros i s n e. split.
  - rewrite map_app. by apply fragments_push_ok.
  - rewrite shown_app, hidden_app, shown_one, hidden_one, !bytes_app. cbn [new_ropes].
    destruct (visible (fst q)); by rewrite bytes_chars, app_nil_r.
Qed.

(** A whole part, or the front of one, goes out as it was, or struck. *)
Lemma account_emit o r rest out text pos q l o' :
  account o (r :: rest) out text pos ->
  part_ok q -> snd q <> [] -> id_ok q -> stems ts ps q -> above out (part_id q) ->
  (part_id q = part_id r /\ l = []) \/ (lex_lt (part_id q) (part_id r) /\ (l = [] \/ exists x, l = [x] /\ part_id x = part_id r)) ->
  key_of q = key_of r -> chars q ++ all_chars l = chars r -> Forall part_ok l -> Forall (left_ok ts ps) l -> Forall (fun x => visible (fst x) = visible (fst r)) l ->
  (visible (fst q) = visible (fst r) /\ touched ts q = false /\ o' = o
   \/ visible (fst r) = true /\ visible (fst q) = false /\ touched ts q = true
      /\ o' = with_slice (with_patch o (edit_at pos (pos + length (snd q)) (length (shown out)) (length (shown out)))) (from_fragment ts (fst q))) ->
  exists o'', output_fragment o' (fst q) (visible (fst r)) = Ret o''
    /\ account o'' (l ++ rest) (out ++ [q]) text (if visible (fst r) then pos + length (snd q) else pos).
Proof.
  intros [Hb Hn Hp Hpu] Hq Hne Hid Hst Hab Hl Hkey Hc Hlp Hls Hlv Ho'.
  destruct (shown_pieces r q l rest Hc Hlv) as [Es Eh].
  assert (Forall part_ok (l ++ rest)) as Hlr.
  { apply Forall_app. split; [done|]. by apply books_parts, Forall_app in Hb as [_ [_ ?]%Forall_cons]. }
  destruct (output_fragment_ok o' out q (visible (fst r)) (bytes (shown (l ++ rest))) (bytes (hidden (l ++ rest)))) as (b & rp & E & Hput).
  { assert (puts o out (bytes (shown (r :: rest))) (bytes (hidden (r :: rest))) -> puts o' out (bytes (shown (r :: rest))) (bytes (hidden (r :: rest)))) as Ho.
    { intros [? ?]. destruct Ho' as [(_ & _ & ->)|(_ & _ & _ & ->)]; by split. }
    apply Ho in Hpu. rewrite Es, Eh, !bytes_app in Hpu.
    destruct (visible (fst r)); by rewrite bytes_chars in Hpu. }
  { done. } { done. } { by apply shown_utf8. } { by apply hidden_utf8. }
  eexists. split; [exact E|]. split; cbn [new_insertions new_slices next_offset edits_patch]; [..|apply Hput].
  - destruct Ho' as [(_ & Et & ->)|(_ & _ & Et & ->)]; (eapply books_emit; [done|exact Hb|done..|]); by rewrite Et.
  - destruct Ho' as [(_ & _ & ->)|(_ & _ & _ & ->)]; done.
  - assert (length (chars q) = length (snd q)) as El by apply length_chars.
    destruct Ho' as [(Ev & _ & ->)|(Ev & Ev' & _ & ->)].
    + assert (shown (out ++ [q]) = shown out ++ (if visible (fst r) then chars q else [])) as Eo
        by by rewrite shown_app, shown_one, Ev.
      pose proof (patched_kept ps _ _ _ _ _ _ _ Hp Es Eo) as H. destruct (visible (fst r)); [by rewrite El in H|].
      by rewrite Nat.add_0_r in H.
    + rewrite Ev in *. cbn [edits_patch with_slice with_patch].
      eapply (patched_edit ps _ _ _ _ _ _ (chars q) []); [exact Hp|exact Es| |by rewrite El|cbn; lia].
      by rewrite shown_app, shown_one, Ev', app_nil_r.
Qed.

(** Whole parts go out together. *)
Lemma account_tree o qs rest out text pos h t :
  account o (qs ++ rest) out text pos -> wf h t -> to_list t = map fst qs -> qs ⊆ ps -> Forall (fun q => snd q <> []) qs ->
  exists o', output_tree o t = Ret o' /\ account o' rest (out ++ qs) text (pos + length (shown qs)).
Proof.
  intros [Hb Hn Hp [Hpb Hpr]] Hw Et Hin Hne. unfold output_tree.
  pose proof (books_parts _ _ _ _ _ _ _ Hb) as Hps. rewrite !Forall_app in Hps. destruct Hps as (_ & Hqs & Hrest).
  rewrite shown_app, hidden_app, !bytes_app in Hpr.
  destruct (ropes_append_ok _ _ Hvis Hdel (new_ropes o) (bytes (shown qs)) (bytes (hidden qs)) (bytes (shown rest)) (bytes (hidden rest))
    (bytes (shown out)) (bytes (hidden out)) (summary_text_len (node_summary t))) as (b & -> & Hb'); [|exact Hpr|by apply hidden_utf8|by apply shown_utf8|by apply hidden_utf8|].
  { rewrite (node_summary_total _ _ Hw), Et, total_text by done. unfold text_of. by rewrite !length_bytes. }
  eexists. split; [done|]. split; [|done|..|split].
  - by apply books_pass.
  - eapply patched_kept; [exact Hp|apply shown_app|apply shown_app].
  - rewrite map_app, <-Et. by eapply fragments_append_ok.
  - by rewrite shown_app, hidden_app, !bytes_app.
Qed.

Lemma account_drop o r rest out text pos : account o (r :: rest) out text pos -> snd r = [] -> account o rest out text pos.
Proof.
  intros [Hb Hn Hp Hpu] Hr. assert (chars r = []) as E by (unfold chars; by rewrite Hr).
  assert (shown (r :: rest) = shown rest /\ hidden (r :: rest) = hidden rest) as [Es Eh].
  { change (r :: rest) with ([r] ++ rest). rewrite shown_app, hidden_app, shown_one, hidden_one, E. by destruct (visible (fst r)). }
  rewrite Es, Eh in Hpu. split; [by eapply books_drop|done| |done].
  destruct Hp as [(b & Eb & Hp) Hn']. split; [|done]. exists b. by rewrite <-Es.
Qed.

(** ** Insertion *)
Section Insertion.
Context (max_insertion_len : nat) (Hmax : 4 <= max_insertion_len).
Context (rest : list part) (T text : str) (next_id : list Z).
Context (Htext : utf8 text) (Hwf : Locator.wf next_id) (Hle : next_id = Locator.max \/ lex_lt next_id Locator.max).
Context (Hmin : lex_lt Locator.min next_id).
Context (Hnext : Forall (fun r => next_id = part_id r \/ lex_lt next_id (part_id r)) rest).

(** Where a chunk of the text ends. *)
Lemma chunk_end_ok off :
  off < length text -> boundary text off ->
  let target_end := length text `min` (off + max_insertion_len) in
  let chunk_end := if target_end =? length text then target_end else str_floor_char_boundary text target_end in
  off < chunk_end <= length text /\ boundary text chunk_end.
Proof.
  intros Ho Hb. cbv zeta. destruct (Nat.eqb_spec (length text `min` (off + max_insertion_len)) (length text)) as [E|E].
  - rewrite E. split; [lia|]. apply boundary_len.
  - assert (off + max_insertion_len < length text) as Hlt by lia. rewrite Nat.min_r by lia. clear E. unfold str_floor_char_boundary. destruct (Nat.leb_spec (length text) (off + max_insertion_len)); [lia|].
    pose proof (boundary_down_near text (off + max_insertion_len) Htext ltac:(lia)).
    destruct (floor_spec text (off + max_insertion_len)) as (H1 & H2 & _); [lia|].
    unfold str_floor_char_boundary in H1, H2. destruct (Nat.leb_spec (length text) (off + max_insertion_len)); [lia|].
    split; [lia|done].
Qed.

Record drafted (o : Output) out (off : nat) : Prop := {
  drafted_books : books ts ps rest out (new_insertions o) (new_slices o) (T ++ take off text);
  drafted_next : next_offset o = length T + off;
  drafted_fragments : builds (new_fragments o) (map fst out);
  drafted_above : above out next_id;
}.

Lemma insertion_loop_ok fuel o out off :
  drafted o out off -> off <= length text -> boundary text off -> length text <= off + fuel ->
  exists o' qs, insertion_loop max_insertion_len fuel o text off ts next_id ts = Ret o'
    /\ drafted o' (out ++ qs) (length text) /\ new_ropes o' = new_ropes o /\ edits_patch o' = edits_patch o
    /\ shown qs = stamped ts (length T + off) (drop off text) /\ hidden qs = [].
Proof.
  revert o out off. induction fuel as [|fuel IH]; intros o out off Hd Ho Hbo Hf; cbn [insertion_loop].
  { destruct (Nat.leb_spec (length text) off); [|lia]. replace off with (length text) in * by lia.
    exists o, []. by rewrite app_nil_r, drop_all. }
  destruct (Nat.leb_spec (length text) off).
  { replace off with (length text) in * by lia. exists o, []. by rewrite app_nil_r, drop_all. }
  pose proof (chunk_end_ok off ltac:(lia) Hbo) as Hce. cbv zeta in Hce.
  set (chunk_end := if _ =? _ then _ else _) in *. destruct Hce as [He Hbe].
  destruct (Nat.eqb_spec chunk_end off); [lia|]. unfold minus. destruct (Nat.leb_spec off chunk_end); [|lia]. cbn [mbind res_bind].
  destruct Hd as [Hb Hn Hbu Hab].
  assert (max_id (built o) = last_id out) as Eid by (unfold built; rewrite (builds_summary _ _ Hbu); apply total_id).
  pose proof (books_ids _ _ _ _ _ _ _ Hb) as Hids. apply Forall_app in Hids as [Hids _].
  destruct (between_strictly_between (last_id out) next_id (last_digits _ Hids) Hwf (last_above _ _ Hmin Hab))
    as (id & Eb & Hlo & Hhi & Hwfid & _).
  rewrite Eid, Eb. cbn [unwrap mbind res_bind].
  set (t := take (chunk_end - off) (drop off text)).
  assert (length t = chunk_end - off) as Et by (unfold t; rewrite length_take, length_drop; lia).
  assert (length (T ++ take off text) = length T + off) as El by (rewrite length_app, length_take; lia).
  assert ((T ++ take off text) ++ t = T ++ take chunk_end text) as ET.
  { rewrite <-app_assoc. f_equal. unfold t. rewrite take_take_drop. f_equal. lia. }
  assert (id_ok (new_part ts id (length (T ++ take off text)) t)) as Hid.
  { split_and!; [done| |destruct Hle as [<-|]; [done|by etrans]].
    change (part_id _) with id. by apply min_last_lt with out. }
  assert (above out id) as Habid by (apply above_last; [|done]; apply books_order in Hb; rewrite map_app in Hb;
    by apply StronglySorted_app_1_l in Hb).
  pose proof (books_insert ts ps Hold rest out _ _ _ id t Hb) as Hb'. cbn zeta in Hb'.
  assert (mkFrag id ts (next_offset o) (chunk_end - off) true [] version_new = fst (new_part ts id (length (T ++ take off text)) t)) as ->
    by (unfold new_part; cbn [fst]; by rewrite El, Hn, Et).
  set (q := new_part ts id (length (T ++ take off text)) t) in *.
  destruct (IH (mkOutput (fragments_push (new_fragments o) (fst q)) (new_ropes o) (new_insertions o ++ [insert_new (fst q)])
     (new_slices o ++ [from_fragment ts (fst q)]) (next_offset o + (chunk_end - off)) (edits_patch o)) (out ++ [q]) chunk_end)
    as (o' & qs & E & Hd' & Er & Ep & Es & Eh); [|lia|done|lia|].
  { split; cbn [new_insertions new_slices next_offset new_fragments]; [|lia|rewrite map_app; by apply fragments_push_ok|].
    - rewrite <-ET. apply Hb'; [|by intros E; rewrite E in Et; cbn in Et; lia|done|done|].
      + unfold t. apply cut_utf8; done || lia.
      + eapply Forall_impl; [exact Hnext|]. intros x [<-|Hx]; [done|by etrans].
    - intros x [Hx|Hx%list_elem_of_singleton]%elem_of_app; [by apply Hab|by subst]. }
  exists o', (q :: qs). split; [exact E|]. rewrite <-app_assoc in Hd'. split_and!; [done..| |].
  - change (q :: qs) with ([q] ++ qs). rewrite shown_app, shown_one, Es. cbn [visible fst q new_part]. unfold chars.
    cbn [fst snd q new_part frag_timestamp insertion_offset]. rewrite El.
    replace (length T + chunk_end) with (length T + off + length t) by lia. rewrite <-stamped_app. f_equal.
    unfold t. rewrite <-(take_drop (chunk_end - off) (drop off text)) at 2. f_equal. rewrite drop_drop. f_equal. lia.
  - change (q :: qs) with ([q] ++ qs). by rewrite hidden_app, Eh.
Qed.

(** The whole text is inserted: pieces that spell it, and its place in the patch. *)
Lemma inserted_id_ok o out pos par :
  collects_chunks par -> account o rest out T pos -> above out next_id ->
  exists o' qs, push_fragments_for_insertion max_insertion_len par o text ts next_id ts = Ret o'
    /\ shown qs = stamped ts (length T) text
    /\ account (with_patch o' (edit_at pos pos (length (shown out)) (length (shown out) + length text))) rest (out ++ qs) (T ++ text) pos
    /\ above (out ++ qs) next_id.
Proof.
  intros Hpar [Hb Hn Hp [Hpb Hpr]] Hab. unfold push_fragments_for_insertion.
  destruct (insertion_loop_ok (length text) o out 0) as (o' & qs & -> & [Hb' Hn' Hbu' Hab'] & Er & Ep & Es & Eh);
    [split; [by rewrite take_0, app_nil_r|lia|done|done]|lia|done|lia|]. cbn [mbind res_bind].
  rewrite Er. destruct (ropes_push_str_ok _ _ par (new_ropes o) text _ _ _ _ Hpar Htext Hpr) as (b & -> & Hb2). cbn [mbind res_bind].
  rewrite drop_0, Nat.add_0_r in Es. rewrite take_ge in Hb' by lia.
  do 2 eexists. split; [done|]. split; [exact Es|]. split; [|done].
  split; cbn [with_patch new_insertions new_slices next_offset edits_patch]; [done|by rewrite length_app| |split; [done|]].
  - rewrite Ep. eapply (patched_edit ps rest out _ pos rest (out ++ qs) [] (stamped ts (length T) text)); [done|done| |cbn; lia|by rewrite length_stamped].
    by rewrite shown_app, Es.
  - cbn [new_ropes]. rewrite shown_app, hidden_app, Es, Eh, app_nil_r, bytes_app, bytes_stamped. done.
Qed.
End Insertion.
End Outputs.
