(* ===== verification/EditWalk.v ===== *)
(** * Walking over the fragments

    The steps of [BufferSnapshot::apply_edit_internal] on the cursor over the old fragments:
    each goes on and leaves the output of the parts it has passed. *)

From S2P Require Import Prelude.
From S2P Require Import Locator.
From S2P Require Import Patch.
From S2P Require Import UndoMap.
From S2P Require Import SumTree.
From S2P Require Import SumTreeInvariant.
From S2P Require Import SumTreeFind.
From S2P Require Import SumCursor.
From S2P Require Import SumCursorSeek.
From S2P Require Import SumCursorSearch.
From S2P Require Import SumIter.
From S2P Require Import KeyedTree.
From S2P Require Import Text.
From S2P Require Import TextSpec.
From S2P Require Import Utf8.
From S2P Require Import Chunk.
From S2P Require Import ChunkPositions.
From S2P Require Import Rope.
From S2P Require Import RopeSpec.
From S2P Require Import RopeCursorSpec.
From S2P Require Import Fragments.
From S2P Require Import FragmentsSpec.
From S2P Require Import LocalEdit.
From S2P Require Import EditBooks.
Local Open Scope nat_scope.

Implicit Types (p q r : Fragment * str) (ps qs pre post out rest : list (Fragment * str)).

Section Walks.
Context (self : BufferSnapshot) (ts : Stamp) (ps : list (Fragment * str)) (h : nat).
Context (Hvis : cuttable (visible_text self)) (Hdel : cuttable (deleted_text self)).
Context (Hw : wf h (fragments self)) (Hh : h < STACK_CAPACITY) (Hlist : to_list (fragments self) = map fst ps).
Context (Hparts : Forall part_ok ps) (Hne : Forall (fun p => snd p <> []) ps).
Context (Hold : Forall (fun p => frag_timestamp (fst p) <> ts) ps).
Notation account := (account (visible_text self) (deleted_text self) ts ps).

(** What is left when some bytes of the first of the remaining parts are consumed. *)
Definition left_from (k : nat) post : list (Fragment * str) :=
  match post with p :: post => tail_cut k p :: post | [] => [] end.
Definition consumed_ok (k : nat) post : Prop :=
  match post with p :: _ => k <= length (snd p) /\ (0 < k -> visible (fst p) = true) | [] => k = 0 end.

Record walking (c : FragmentCursor) (o : Output) pre (k : nat) post out (text : str) (pos : nat) : Prop := {
  walking_cursor : at_place (fragments self) h c (place_of (map fst pre) (map fst post));
  walking_split : ps = pre ++ post;
  walking_consumed : consumed_ok k post;
  walking_pos : pos = length (shown pre) + k;
  walking_account : account o (left_from k post) out text pos;
}.

Lemma left_from_0 post : left_from 0 post = post.
Proof. destruct post as [|p post]; [done|]. cbn. by rewrite tail_0. Qed.

Lemma parts_of pre post : ps = pre ++ post -> Forall part_ok pre /\ Forall part_ok post.
Proof. intros ->. by apply Forall_app. Qed.

(** What the cursor says. *)
Definition visible_len p : nat := if visible (fst p) then length (snd p) else 0.
Lemma length_shown_one p : length (shown [p]) = visible_len p.
Proof. rewrite shown_one. unfold visible_len. destruct (visible (fst p)); [apply length_chars|done]. Qed.
Definition head_len post : nat := match post with p :: _ => visible_len p | [] => 0 end.
Lemma shown_snoc pre p : length (shown (pre ++ [p])) = length (shown pre) + visible_len p.
Proof. by rewrite shown_app, length_app, length_shown_one. Qed.

Section At.
Context (c : FragmentCursor) (pre post : list (Fragment * str)).
Context (Hc : at_place (fragments self) h c (place_of (map fst pre) (map fst post))) (Hs : ps = pre ++ post).

Lemma at_start : start c = text_of pre.
Proof.
  rewrite (start_ok _ _ _ _ Hc). destruct (parts_of _ _ Hs) as [Hp _]. destruct post as [|p l]; cbn [map place_of].
  - rewrite Hlist, Hs, app_nil_r. by apply advance_text.
  - by apply advance_text.
Qed.
Lemma at_item : item c = Ret (fst <$> head post).
Proof. rewrite (item_ok _ _ _ _ Hc). by destruct post. Qed.
Lemma walk_at_end : exists e, cursor_end c = Ret e /\ text_visible e = length (shown pre) + head_len post.
Proof.
  rewrite (cursor_end_ok _ _ _ _ Hc) by (by destruct post). eexists. split; [done|].
  destruct (parts_of _ _ Hs) as [Hp Hq]. destruct post as [|p l]; cbn [map place_of head_len].
  - rewrite Hlist, Hs, app_nil_r, advance_text, Nat.add_0_r by done. done.
  - change [fst p] with (map fst [p]). rewrite <-map_app, advance_text; [apply shown_snoc|].
    apply Forall_app. split; [done|]. apply Forall_cons in Hq as [? _]. by apply Forall_singleton.
Qed.
Lemma at_next p l : post = p :: l ->
  exists c', next c = Ret c' /\ at_place (fragments self) h c' (place_of (map fst (pre ++ [p])) (map fst l)).
Proof.
  intros E. rewrite E in Hc. destruct (next_ok _ _ Hw c _ Hh Hc) as (c' & -> & Hc'). exists c'. split; [done|].
  cbn [map place_of later fst snd] in Hc'. by rewrite map_app.
Qed.
End At.

(** Ahead to a visible offset. *)
Lemma advance_from pre qs : Forall part_ok pre -> Forall part_ok qs ->
  advance (advance dim_zero (map fst pre)) (map fst qs) = text_of (pre ++ qs).
Proof. intros. rewrite <-advance_app, <-map_app. apply advance_text. by apply Forall_app. Qed.
Lemma map_fst_split qs (l1 l2 : list Fragment) :
  map fst qs = l1 ++ l2 -> exists qs1 qs2, qs = qs1 ++ qs2 /\ l1 = map fst qs1 /\ l2 = map fst qs2.
Proof.
  intros E. exists (take (length l1) qs), (drop (length l1) qs). split; [by rewrite take_drop|].
  rewrite <-firstn_map, <-skipn_map, E. by rewrite take_app_length, drop_app_length.
Qed.
Lemma visible_seekable (s : nat) pre post :
  Forall part_ok pre -> Forall part_ok post -> length (shown pre) <= s ->
  seekable (D:=FragmentTextSummary) s (map fst pre) (map fst post).
Proof.
  intros Hp Hq Hs. split.
  - rewrite advance_text by done. unfold target_cmp, visible_target. cbn. rewrite Nat.compare_lt_iff. lia.
  - intros l1 l2 l3 E _. rewrite app_assoc in E. apply map_fst_split in E as (a & q3 & -> & E & _).
    symmetry in E. apply map_fst_split in E as (q1 & q2 & -> & -> & ->).
    apply Forall_app in Hq as [Hq _]. pose proof Hq as [Hq1 _]%Forall_app. rewrite <-map_app, !advance_from by done.
    unfold target_cmp, visible_target, text_of. cbn [text_visible]. rewrite !shown_app, !length_app.
    destruct (Nat.compare_spec s (length (shown pre) + (length (shown q1) + length (shown q2)))),
      (Nat.compare_spec s (length (shown pre) + length (shown q1))); cbn; lia.
Qed.
Lemma ahead_visible pre post : ps = pre ++ post -> ahead (fragments self) (place_of (map fst pre) (map fst post)) (map fst pre) (map fst post).
Proof. intros Hs. destruct post; [|done]. split; [|done]. by rewrite Hlist, Hs, app_nil_r. Qed.
Lemma slice_visible (c : FragmentCursor) place pre post (s : nat) :
  at_place (fragments self) h c place -> ahead (fragments self) place (map fst pre) (map fst post) ->
  ps = pre ++ post -> length (shown pre) <= s ->
  exists t h' c' qs post', SumCursor.slice c s Right = Ret (t, c') /\ wf h' t /\ to_list t = map fst qs
    /\ post = qs ++ post' /\ at_place (fragments self) h c' (place_of (map fst (pre ++ qs)) (map fst post'))
    /\ length (shown (pre ++ qs)) <= s /\ (post' = [] \/ s < length (shown (pre ++ qs)) + head_len post').
Proof.
  intros Hc Ha Hs Hle. destruct (parts_of _ _ Hs) as [Hp Hq].
  destruct (slice_ok _ _ s Right c place _ _ Hh Hw Hc Ha (visible_seekable s pre post Hp Hq Hle)) as (t & h' & c' & E & Ht & Et & Hc').
  pose proof (before_stops (D:=FragmentTextSummary) s Right (advance dim_zero (map fst pre)) (map fst post)) as [B1 B2].
  unfold left_over, passed in *. set (b := before _ _ _ _) in *.
  destruct (map_fst_split post b (drop (length b) (map fst post)) (before_prefix _ _ _ _)) as (qs & post' & Ep & Eb & Ed).
  clearbody b. rewrite Ed in *. clear Ed. subst b post. apply Forall_app in Hq as [Hq Hq'].
  exists t, h', c', qs, post'. rewrite Eb in *. split_and!; [done..|by rewrite map_app| |].
  - destruct qs as [|q qs]; [by rewrite app_nil_r|]. specialize (B1 ltac:(done)). rewrite advance_from in B1 by done.
    unfold target_in, target_cmp, visible_target, text_of in B1. cbn [text_visible] in B1.
    destruct (Nat.compare_spec s (length (shown (pre ++ q :: qs)))); [lia|done|lia].
  - destruct post' as [|p post']; [by left|]. right. cbn [map] in B2. change [fst p] with (map fst [p]) in B2.
    apply Forall_cons in Hq' as [Hq' _]. rewrite <-map_app, advance_from in B2 by (by rewrite ?Forall_app, ?Forall_singleton).
    unfold target_in, target_cmp, visible_target, text_of in B2. cbn [text_visible] in B2. rewrite app_assoc, shown_snoc in B2.
    cbn [head_len]. destruct (Nat.compare_spec s (length (shown (pre ++ qs)) + visible_len p)); [done|lia|done].
Qed.

(** Text that goes out as it was. *)
Definition kept_on rest out (pos : nat) rest' out' (pos' : nat) : Prop :=
  exists g, shown rest = g ++ shown rest' /\ shown out' = shown out ++ g /\ pos' = pos + length g.
Lemma kept_refl rest out pos : kept_on rest out pos rest out pos.
Proof. exists []. cbn. rewrite app_nil_r. split_and!; [done..|lia]. Qed.
Lemma kept_trans rest1 out1 pos1 rest2 out2 pos2 rest3 out3 pos3 :
  kept_on rest1 out1 pos1 rest2 out2 pos2 -> kept_on rest2 out2 pos2 rest3 out3 pos3 -> kept_on rest1 out1 pos1 rest3 out3 pos3.
Proof.
  intros (g & E1 & E2 & ->) (g' & E3 & E4 & ->). exists (g ++ g').
  rewrite E1, E3, E4, E2, length_app, !app_assoc. split_and!; [done..|lia].
Qed.

Lemma books_head r rest out ins sl text : books ts ps (r :: rest) out ins sl text ->
  part_ok r /\ id_ok r /\ left_ok ts ps r /\ above out (part_id r).
Proof.
  intros [H1 H2 H3 _ _ _ _ H4 _ _]. apply Forall_app in H2 as [_ [? _]%Forall_cons]. apply Forall_app in H3 as [_ [? _]%Forall_cons].
  apply Forall_cons in H4 as [? _]. split_and!; [done..|by eapply order_above].
Qed.
Lemma account_out o rest out text pos : account o rest out text pos -> Forall part_ok out.
Proof. intros [Hb _ _ _]. by apply books_parts, Forall_app in Hb as [? _]. Qed.

(** All that is left of the first part goes out. *)
Lemma account_flush o r rest out text pos :
  account o (r :: rest) out text pos -> snd r <> [] ->
  exists o', output_fragment o (fst r) (visible (fst r)) = Ret o' /\ account o' rest (out ++ [r]) text (pos + visible_len r)
    /\ kept_on (r :: rest) out pos rest (out ++ [r]) (pos + visible_len r).
Proof.
  intros Ha Hne'. destruct (books_head _ _ _ _ _ _ (account_books _ _ _ _ _ _ _ _ _ Ha)) as (H1 & H2 & H3 & H4).
  destruct (account_emit _ _ Hvis Hdel ts ps Hold o r rest out text pos r [] o Ha H1 Hne' H2 (proj1 H3) H4) as (o' & E & Ha');
    [by left|done|apply app_nil_r|constructor..|left; split_and!; [done|apply H3|done]|].
  exists o'. split; [exact E|]. unfold visible_len. split.
  - destruct (visible (fst r)); [exact Ha'|by rewrite Nat.add_0_r].
  - exists (if visible (fst r) then chars r else []). change (r :: rest) with ([r] ++ rest).
    rewrite !shown_app, shown_one. split_and!; [done..|]. destruct (visible (fst r)); [by rewrite length_chars|done].
Qed.

Lemma finish_fragment_ok c o pre k post out text pos :
  walking c o pre k post out text pos ->
  exists c' o' pre' post' out' pos', finish_fragment (mkWalk c pos o) = Ret (mkWalk c' pos o')
    /\ walking c' o' pre' 0 post' out' text pos' /\ kept_on (left_from k post) out pos post' out' pos'
    /\ pos' <= length (shown pre) + head_len post.
Proof.
  intros [Hc Hs Hk Hp Ha]. unfold finish_fragment. rewrite (at_start c pre post Hc Hs).
  destruct (walk_at_end c pre post Hc Hs) as (e & Ee & Hev). cbn [text_of text_visible].
  destruct (Nat.ltb_spec (length (shown pre)) pos) as [Hlt|Hge].
  2:{ assert (k = 0) as -> by lia. exists c, o, pre, post, out, pos. split; [done|]. split; [done|]. rewrite left_from_0.
      split; [apply kept_refl|]. lia. }
  destruct post as [|p l]; [cbn in Hk; lia|]. destruct Hk as [Hk Hv]. specialize (Hv ltac:(lia)).
  cbn [left_from head_len] in *. unfold visible_len in *. rewrite Hv in *.
  rewrite Ee. cbn [mbind res_bind]. rewrite Hev.
  destruct (at_next c pre (p :: l) Hc p l eq_refl) as (c' & En & Hc').
  assert (ps = (pre ++ [p]) ++ l) as Hs' by by rewrite <-app_assoc.
  assert (walking_at : forall o' out' text', account o' l out' text' (length (shown pre) + length (snd p)) ->
    walking c' o' (pre ++ [p]) 0 l out' text' (length (shown pre) + length (snd p))).
  { intros o' out' text' Ha'. split; [done|done|by destruct l; [|split; [lia|lia]]| |by rewrite left_from_0].
    rewrite shown_snoc. unfold visible_len. rewrite Hv. lia. }
  destruct (Nat.ltb_spec pos (length (shown pre) + length (snd p))) as [Hlt2|Hge2].
  - assert (snd (tail_cut k p) <> []) as Hne'.
    { cbn. intros E%(f_equal length). rewrite length_drop in E. cbn in E. lia. }
    destruct (account_flush o (tail_cut k p) l out text pos Ha Hne') as (o' & E & Ha' & Hk').
    rewrite (at_item c pre (p :: l) Hc Hs). cbn [head fmap option_fmap option_map unwrap mbind res_bind].
    assert (part_ok p) as Hpp by (apply parts_of in Hs as [_ [? _]%Forall_cons]; done).
    assert (cut (fst p) (pos - length (shown pre)) (length (shown pre) + length (snd p) - pos) (frag_id (fst p)) = fst (tail_cut k p)) as ->.
    { unfold tail_cut. cbn [fst]. rewrite (part_len _ Hpp). f_equal; lia. }
    rewrite E. cbn [mbind res_bind]. rewrite En. cbn [mbind res_bind].
    assert (pos + visible_len (tail_cut k p) = length (shown pre) + length (snd p)) as Epos.
    { unfold visible_len. cbn. rewrite Hv, length_drop. lia. }
    rewrite Epos in *. do 6 eexists. split; [done|]. split; [by apply walking_at|]. split; [done|lia].
  - cbn [mbind res_bind]. rewrite En. cbn [mbind res_bind].
    assert (snd (tail_cut k p) = []) as Et by (cbn; apply drop_ge; lia).
    assert (shown (tail_cut k p :: l) = shown l) as Esh.
    { change (tail_cut k p :: l) with ([tail_cut k p] ++ l). rewrite shown_app, shown_one. unfold chars. rewrite Et.
      by destruct (visible _). }
    apply account_drop in Ha; [|done..]. assert (pos = length (shown pre) + length (snd p)) as Epos by lia. rewrite Epos in Ha.
    do 6 eexists. split; [done|]. split; [by apply walking_at|]. split; [|lia].
    exists []. rewrite app_nil_r. cbn. split_and!; [done..|lia].
Qed.

Lemma skip_ahead_ok c o pre k post out text pos s :
  walking c o pre k post out text pos -> pos <= s <= length (shown ps) ->
  exists c' o' pre' k' post' out' pos', skip_ahead (mkWalk c pos o) s = Ret (mkWalk c' pos' o')
    /\ walking c' o' pre' k' post' out' text pos' /\ kept_on (left_from k post) out pos (left_from k' post') out' pos'
    /\ pos' <= s <= length (shown pre') + head_len post'.
Proof.
  intros Hwk Hsr. unfold skip_ahead. cbn [old_fragments].
  destruct (walk_at_end c pre post (walking_cursor _ _ _ _ _ _ _ _ Hwk) (walking_split _ _ _ _ _ _ _ _ Hwk)) as (e & -> & Hev).
  cbn [mbind res_bind]. rewrite Hev. destruct (Nat.ltb_spec (length (shown pre) + head_len post) s) as [Hlt|Hge].
  2:{ exists c, o, pre, k, post, out, pos. split; [done|]. split; [done|]. split; [apply kept_refl|lia]. }
  destruct (finish_fragment_ok _ _ _ _ _ _ _ _ Hwk) as (c1 & o1 & pre1 & post1 & out1 & pos1 & -> & [Hc Hs Hk Hp Ha] & Hkept & Hle).
  cbn [mbind res_bind]. rewrite left_from_0 in Ha.
  destruct (slice_visible c1 _ pre1 post1 s Hc) as (t & h' & c2 & qs & post2 & -> & Ht & Et & -> & Hc2 & Hle2 & Hstop); [by apply ahead_visible|done|lia|].
  cbn [mbind res_bind].
  assert (qs ⊆ ps) as Hin by (rewrite Hs; set_solver).
  assert (Forall (fun q => snd q <> []) qs) as Hqne.
  { rewrite Hs in Hne. by apply Forall_app in Hne as [_ [? _]%Forall_app]. }
  destruct (account_tree _ _ Hvis Hdel ts ps Hold o1 qs post2 out1 text pos1 h' t Ha Ht Et Hin Hqne) as (o2 & -> & Ha2).
  cbn [mbind res_bind]. rewrite app_assoc in Hs. rewrite (at_start c2 (pre1 ++ qs) post2 Hc2 Hs). cbn [text_of text_visible].
  assert (length (shown (pre1 ++ qs)) = pos1 + length (shown qs)) as Epos by (rewrite shown_app, length_app; lia).
  exists c2, o2, (pre1 ++ qs), 0, post2, (out1 ++ qs), (length (shown (pre1 ++ qs))).
  rewrite Epos in *. split; [done|]. split; [split; [done|done|destruct post2; [done|split; lia]|lia|by rewrite left_from_0]|].
  split; [|split; [lia|]].
  - rewrite left_from_0. eapply kept_trans; [exact Hkept|]. exists (shown qs). rewrite !shown_app. done.
  - destruct Hstop as [->|Hstop]; [|lia]. rewrite app_nil_r in Hs. rewrite Hs, Epos in Hsr. cbn. lia.
Qed.

(** ** Cutting at an offset *)
Lemma next_id_ok o r rest out text pos :
  account o (r :: rest) out text pos ->
  exists id, Locator.between (max_id (built o)) (part_id r) = Some id
    /\ above out id /\ lex_lt id (part_id r) /\ Locator.wf id /\ lex_lt Locator.min id.
Proof.
  intros [Hb _ _ Hpu]. destruct (books_head _ _ _ _ _ _ Hb) as (_ & (Hwf & Hmin & _) & _ & Hab).
  rewrite (built_id _ _ _ _ _ _ Hpu). pose proof (books_ids _ _ _ _ _ _ _ Hb) as [Hids _]%Forall_app.
  destruct (between_strictly_between (last_id out) (part_id r) (last_digits _ Hids) Hwf (last_above _ _ Hmin Hab)) as (id & E & Hlo & Hhi & Hid & _).
  exists id. split_and!; [done| |done|done|by eapply min_last_lt].
  apply above_last; [|done]. apply books_order in Hb. rewrite map_app in Hb. by apply StronglySorted_app_1_l in Hb.
Qed.

Lemma boundary_in_part pre p l i :
  ps = pre ++ p :: l -> visible (fst p) = true -> i <= length (snd p) ->
  boundary (bytes (shown ps)) (length (shown pre) + i) -> boundary (snd p) i.
Proof.
  intros Hs Hv Hi Hb. destruct (parts_of _ _ Hs) as [Hp [Hpp Hl]%Forall_cons].
  rewrite Hs in Hb. change (p :: l) with ([p] ++ l) in Hb. rewrite !shown_app, shown_one, Hv, !bytes_app, bytes_chars in Hb.
  rewrite <-(length_bytes (shown pre)) in Hb. eapply piece_boundary; [..|exact Hb|done].
  - by apply shown_utf8. - apply Hpp. - by apply shown_utf8.
Qed.

Definition maybe_struck (struck : bool) q : Fragment * str := if struck then strike ts q else q.

Lemma cut_ok c o pre k p l out text pos n id (struck : bool) o' :
  walking c o pre k (p :: l) out text pos -> visible (fst p) = true -> 0 < n -> k + n <= length (snd p) ->
  boundary (bytes (shown ps)) (pos + n) -> above out id -> lex_lt id (part_id p) -> Locator.wf id -> lex_lt Locator.min id ->
  let q := maybe_struck struck (head_cut k n id p) in
  o' = (if struck then with_slice (with_patch o (edit_at pos (pos + n) (length (shown out)) (length (shown out)))) (from_fragment ts (fst q)) else o) ->
  exists o'', output_fragment o' (fst q) true = Ret o'' /\ walking c o'' pre (k + n) (p :: l) (out ++ [q]) text (pos + n)
    /\ shown (left_from k (p :: l)) = take n (shown (left_from k (p :: l))) ++ shown (left_from (k + n) (p :: l))
    /\ shown (out ++ [q]) = shown out ++ (if struck then [] else take n (shown (left_from k (p :: l))))
    /\ length (take n (shown (left_from k (p :: l)))) = n.
Proof.
  intros [Hc Hs Hk Hp Ha] Hv Hn Hkn Hbd Hab Hlt Hwf Hmin q Ho'.
  destruct (books_head _ _ _ _ _ _ (account_books _ _ _ _ _ _ _ _ _ Ha)) as (Hr & Hid & Hst & _).
  destruct (parts_of _ _ Hs) as [_ [Hpp _]%Forall_cons].
  assert (boundary (snd p) (k + n)) as Hb2 by (apply (boundary_in_part pre p l); [done..|]; by rewrite Nat.add_assoc, <-Hp).
  assert (boundary (snd p) k) as Hb1 by (apply boundary_iff; [apply Hpp|lia|apply Hr]).
  assert (part_ok (head_cut k n id p)) as Hq.
  { apply head_ok; [done..|]. replace n with (k + n - k) by lia. apply cut_utf8; [apply Hpp|done..|lia]. }
  assert (part_ok q) as Hq' by (unfold q; destruct struck; [by apply strike_ok|done]).
  assert (chars q = take n (drop k (chars p))) as Ecq by (rewrite <-(chars_head k n id p) by lia; unfold q; by destruct struck).
  assert (length (snd q) = n) as Elen.
  { assert (snd q = take n (drop k (snd p))) as -> by (unfold q; by destruct struck). rewrite length_take, length_drop. lia. }
  destruct (account_emit _ _ Hvis Hdel ts ps Hold o (tail_cut k p) l out text pos q [tail_cut (k + n) p] o' Ha Hq') as (o'' & E & Ha').
  - intros E. rewrite E in Elen. cbn in Elen. lia.
  - assert (part_id q = id) as Ei by (unfold q; by destruct struck).
    unfold id_ok. rewrite Ei. split_and!; [done..|]. destruct Hid as (_ & _ & Hmax). by etrans.
  - destruct Hst as [(p0 & Hp0 & Hin & E1 & E2 & E3) _]. exists p0. apply (inside_head k n p p0 q) in Hin; [|lia|by unfold q; destruct struck..].
    unfold q in *. destruct struck; [|by split_and!]. split_and!; [done..|]. right. destruct E3 as [[E3 E4]|(_ & E3 & _)]; cbn in E3; [|congruence]. cbn.
    cbn in E4. rewrite <-E3, Hv, E4. done.
  - by replace (part_id q) with id by (unfold q; by destruct struck).
  - right. replace (part_id q) with id by (unfold q; by destruct struck). split; [done|]. right. by eexists.
  - unfold q. by destruct struck.
  - rewrite Ecq, all_chars_one, !chars_tail by lia. rewrite <-drop_drop. apply take_drop.
  - apply Forall_singleton. apply tail_ok; [done|lia|]. by apply (boundary_split (snd p)); [apply Hpp|].
  - apply Forall_singleton. destruct Hst as [(p0 & Hp0 & Hin & Hrest) Hun]. split; [|done]. exists p0.
    split_and!; [done|by apply (inside_tail k n)|apply Hrest..].
  - by apply Forall_singleton.
  - destruct Hst as [_ Hun]. assert (touched ts q = struck) as Et.
    { unfold q, touched in *. destruct struck; [|exact Hun]. cbn. rewrite (bool_decide_eq_true_2 (ts ∈ _)); [apply orb_true_r|set_solver]. }
    rewrite Et. unfold q in *. destruct struck; [right|by left]. rewrite Elen. done.
  - cbn [tail_cut fst cut visible] in E, Ha'. rewrite Hv in E, Ha'. exists o''. rewrite Elen in Ha'.
    split; [exact E|]. split; [|].
    + split; [done|done|split; [lia|done]|lia|exact Ha'].
    + cbn [left_from]. change (tail_cut k p :: l) with ([tail_cut k p] ++ l). change (tail_cut (k + n) p :: l) with ([tail_cut (k + n) p] ++ l).
      rewrite !shown_app, !shown_one. cbn [tail_cut fst cut visible]. rewrite Hv, !chars_tail by lia.
      assert (length (take n (drop k (chars p))) = n) as El by (rewrite length_take, length_drop, length_chars; lia).
      rewrite take_app_le by (rewrite length_drop, length_chars; lia). split_and!; [|unfold q in *; destruct struck|done].
      * rewrite app_assoc. f_equal. rewrite <-drop_drop. symmetry. apply take_drop.
      * done.
      * cbn [maybe_struck] in *. rewrite Ecq. cbn [head_cut fst cut visible]. by rewrite Hv.
Qed.

Lemma keep_prefix_ok c o pre k post out text pos s :
  walking c o pre k post out text pos -> pos <= s <= length (shown pre) + head_len post -> boundary (bytes (shown ps)) s ->
  exists o' k' out', keep_prefix (mkWalk c pos o) s = Ret (mkWalk c s o')
    /\ walking c o' pre k' post out' text s /\ kept_on (left_from k post) out pos (left_from k' post) out' s.
Proof.
  intros Hwk Hsr Hb. pose proof Hwk as [Hc Hs Hk Hp Ha]. unfold keep_prefix. destruct (Nat.ltb_spec pos s) as [Hlt|Hge].
  2:{ assert (s = pos) as -> by lia. exists o, k, out. split_and!; [done..|apply kept_refl]. }
  destruct post as [|p l]; [cbn in Hk, Hsr; lia|]. cbn [head_len] in Hsr.
  rewrite (at_item c pre (p :: l) Hc Hs), (at_start c pre (p :: l) Hc Hs).
  cbn [head fmap option_fmap option_map unwrap mbind res_bind text_of text_visible].
  unfold minus. destruct (Nat.leb_spec (length (shown pre)) pos); [|lia]. cbn [mbind res_bind].
  destruct (next_id_ok _ _ _ _ _ _ Ha) as (id & Eid & Hab & Hhi & Hwf & Hmin). change (frag_id (fst p)) with (part_id (tail_cut k p)).
  rewrite Eid. cbn [unwrap mbind res_bind]. unfold visible_len in Hsr.
  destruct (visible (fst p)) eqn:Hv; [|lia].
  destruct (cut_ok c o pre k p l out text pos (s - pos) id false o Hwk Hv) as (o' & E & Hwk' & E1 & E2 & E3);
    [lia|lia|by replace (pos + (s - pos)) with s by lia|done..|].
  cbn [maybe_struck] in *. replace (pos - length (shown pre)) with k by lia.
  replace (pos + (s - pos)) with s in * by lia. unfold head_cut in E. cbn [fst] in E. cbn [cut visible]. rewrite Hv, E. cbn [mbind res_bind].
  do 3 eexists. split; [done|]. split; [exact Hwk'|]. eexists. split_and!; [exact E1|exact E2|]. rewrite E3. lia.
Qed.

(** ** Insertion *)
Section Inserting.
Context (max_insertion_len : nat) (Hmax : 4 <= max_insertion_len) (par : par_chunks_type) (Hpar : collects_chunks par).

Lemma next_fragment_ok o k post out text pos :
  account o (left_from k post) out text pos ->
  let next_id := match fst <$> head post with Some fragment => frag_id fragment | None => Locator.max end in
  Locator.wf next_id /\ (next_id = Locator.max \/ lex_lt next_id Locator.max) /\ lex_lt Locator.min next_id
  /\ Forall (fun r => next_id = part_id r \/ lex_lt next_id (part_id r)) (left_from k post) /\ above out next_id.
Proof.
  intros [Hb _ _ _]. destruct post as [|p l]; cbn [head fmap option_fmap option_map left_from] in *.
  - cbv zeta. assert (Locator.wf Locator.max) as Hwf.
    { split; [by repeat constructor|]. by exists [], U64_MAX. }
    split_and!; [done|by left|done|constructor|]. intros x Hx.
    pose proof (books_ids _ _ _ _ _ _ _ Hb) as Hi. rewrite app_nil_r in Hi. eapply Forall_forall in Hi; [|exact Hx]. apply Hi.
  - destruct (books_head _ _ _ _ _ _ Hb) as (_ & (H1 & H2 & H3) & _ & Hab). change (part_id (tail_cut k p)) with (part_id p) in *.
    change (frag_id (fst p)) with (part_id p). cbv zeta. split_and!; [done|by right|done| |done].
    constructor; [by left|]. apply books_order in Hb. rewrite map_app in Hb. apply StronglySorted_app_1_r in Hb.
    apply StronglySorted_inv in Hb as [_ Hb]. apply (proj1 (List.Forall_map part_id _ l)) in Hb. eapply Forall_impl; [exact Hb|]. by right.
Qed.

Lemma insert_text_ok c o pre k post out T pos text :
  walking c o pre k post out T pos -> utf8 text ->
  exists o' qs, insert_text max_insertion_len par (mkWalk c pos o) text ts = Ret (mkWalk c pos o')
    /\ walking c o' pre k post (out ++ qs) (T ++ text) pos /\ shown qs = stamped ts (length T) text.
Proof.
  intros [Hc Hs Hk Hp Ha] Hu. unfold insert_text. destruct (Nat.eqb_spec (length text) 0) as [E|E].
  - apply nil_length_inv in E as ->. exists o, []. rewrite !app_nil_r. done.
  - rewrite (at_item c pre post Hc Hs). cbn [mbind res_bind].
    destruct (next_fragment_ok _ _ _ _ _ _ Ha) as (H1 & H2 & H3 & H4 & H5). set (next_id := match _ with Some _ => _ | None => _ end) in *.
    destruct (inserted_id_ok _ _ ts ps Hold max_insertion_len Hmax (left_from k post) T text next_id Hu H1 H2 H3 H4 o out pos par Hpar Ha H5)
      as (o' & qs & -> & Es & Ha' & _).
    cbn [mbind res_bind]. rewrite (built_text _ _ _ _ _ _ (account_puts _ _ _ _ _ _ _ _ _ Ha) (account_out _ _ _ _ _ Ha)).
    cbn [text_of text_visible]. do 2 eexists. split; [done|]. split; [|done]. by split.
Qed.
End Inserting.

(** ** Deletion *)
Lemma leave_part c o pre p l out text pos :
  walking c o pre (length (snd p)) (p :: l) out text pos -> visible (fst p) = true ->
  exists c', next c = Ret c' /\ walking c' o (pre ++ [p]) 0 l out text pos /\ shown (left_from (length (snd p)) (p :: l)) = shown l.
Proof.
  intros [Hc Hs Hk Hp Ha] Hv. destruct (at_next c pre (p :: l) Hc p l eq_refl) as (c' & En & Hc'). exists c'. split; [exact En|].
  cbn [left_from] in *. assert (snd (tail_cut (length (snd p)) p) = []) as Et by apply drop_all.
  apply account_drop in Ha; [|done..]. split.
  - split; [done|by rewrite Hs, <-app_assoc|by destruct l; [|split; lia]| |by rewrite left_from_0].
    rewrite shown_snoc. unfold visible_len. rewrite Hv. lia.
  - change (tail_cut (length (snd p)) p :: l) with ([tail_cut (length (snd p)) p] ++ l). rewrite shown_app, shown_one.
    unfold chars. rewrite Et. by destruct (visible _).
Qed.

Lemma delete_step_ok c o pre k post out text pos e :
  walking c o pre k post out text pos -> pos < e <= length (shown ps) -> boundary (bytes (shown ps)) e ->
  exists c' o' pre' k' post' out' pos' g, delete_step (mkWalk c pos o) e ts = Ret (mkWalk c' pos' o')
    /\ walking c' o' pre' k' post' out' text pos'
    /\ shown (left_from k post) = g ++ shown (left_from k' post') /\ shown out' = shown out
    /\ pos' = pos + length g /\ pos' <= e /\ (pos' = e \/ length post' < length post).
Proof.
  intros Hwk He Hb. pose proof Hwk as [Hc Hs Hk Hp Ha]. destruct post as [|p l].
  { cbn in Hk. rewrite Hs, app_nil_r in He. lia. }
  unfold delete_step. rewrite (at_item c pre (p :: l) Hc Hs), (at_start c pre (p :: l) Hc Hs).
  destruct (walk_at_end c pre (p :: l) Hc Hs) as (en & -> & Hev).
  cbn [head fmap option_fmap option_map unwrap mbind res_bind text_of text_visible]. rewrite Hev. cbn [head_len].
  destruct (visible (fst p)) eqn:Hv.
  - unfold visible_len. rewrite Hv. destruct Hk as [Hk _]. set (fe := length (shown pre) + length (snd p)) in *.
    assert (pos <= e `min` fe) by lia. unfold minus. destruct (Nat.leb_spec pos (e `min` fe)); [|lia]. destruct (Nat.leb_spec (length (shown pre)) pos); [|lia].
    cbn [mbind res_bind]. destruct (next_id_ok _ _ _ _ _ _ Ha) as (id & Eid & Hab & Hhi & Hwf & Hmin).
    change (frag_id (fst p)) with (part_id (tail_cut k p)). rewrite Eid. cbn [unwrap mbind res_bind deleted cut frag_len visible].
    replace (pos - length (shown pre)) with k by lia.
    destruct (Nat.ltb_spec 0 (e `min` fe - pos)) as [Hn|Hn].
    + assert (boundary (bytes (shown ps)) (pos + (e `min` fe - pos))) as Hbe.
      { replace (pos + (e `min` fe - pos)) with (e `min` fe) by lia. destruct (Nat.min_spec e fe) as [[_ ->]|[_ ->]]; [done|].
        unfold fe. rewrite Hs. change (p :: l) with ([p] ++ l). rewrite app_assoc, shown_app, bytes_app.
        replace (length (shown pre) + length (snd p)) with (length (bytes (shown (pre ++ [p])))).
        - apply boundary_between, shown_utf8. by apply parts_of in Hs as [_ [_ ?]%Forall_cons].
        - rewrite length_bytes, shown_snoc. unfold visible_len. by rewrite Hv. }
      assert (k + (e `min` fe - pos) <= length (snd p)) as Hkn by lia.
      destruct (cut_ok c o pre k p l out text pos (e `min` fe - pos) id true _ Hwk Hv Hn Hkn Hbe Hab Hhi Hwf Hmin eq_refl)
        as (o' & E & Hwk' & E1 & E2 & E3).
      replace (pos + (e `min` fe - pos)) with (e `min` fe) in * by lia.
      rewrite (built_text _ _ _ _ _ _ (account_puts _ _ _ _ _ _ _ _ _ Ha) (account_out _ _ _ _ _ Ha)). cbn [text_of text_visible andb negb].
      cbn [maybe_struck strike head_cut fst] in E. change (frag_id (fst p)) with (part_id p) in *.
      unfold deleted, cut in *. cbn [frag_id frag_timestamp insertion_offset frag_len visible frag_deletions max_undos] in *.
      rewrite E. cbn [mbind res_bind]. rewrite app_nil_r in E2.
      destruct (Nat.leb_spec fe e) as [Hfe|Hfe].
      * assert (k + (e `min` fe - pos) = length (snd p)) as Ek by lia. rewrite Ek in *.
        destruct (leave_part _ _ _ _ _ _ _ _ Hwk' Hv) as (c' & -> & Hwk2 & E4). cbn [mbind res_bind].
        do 7 eexists. exists (take (e `min` fe - pos) (shown (left_from k (p :: l)))). split; [done|]. split; [exact Hwk2|].
        rewrite left_from_0, <-E4. split_and!; [exact E1|exact E2|lia|lia|right; cbn; lia].
      * do 7 eexists. exists (take (e `min` fe - pos) (shown (left_from k (p :: l)))). split; [done|]. split; [exact Hwk'|].
        split_and!; [exact E1|exact E2|lia|lia|left; lia].
    + cbn [mbind res_bind]. assert (k = length (snd p)) as -> by lia. destruct (Nat.leb_spec fe e); [|lia].
      destruct (leave_part _ _ _ _ _ _ _ _ Hwk Hv) as (c' & -> & Hwk2 & E4). cbn [mbind res_bind].
      do 7 eexists. exists []. split; [done|]. split; [exact Hwk2|]. rewrite left_from_0, <-E4. cbn. split_and!; [done..|lia|lia|right; lia].
  - destruct Hk as [Hk Hk0]. assert (k = 0) as -> by (destruct k; [done|]; specialize (Hk0 ltac:(lia)); congruence).
    cbn [mbind res_bind]. unfold visible_len. rewrite Hv. cbn [left_from] in Ha. rewrite tail_0 in Ha.
    assert (part_ok p /\ snd p <> []) as [Hpp Hpne].
    { split; [by apply parts_of in Hs as [_ [? _]%Forall_cons]|]. rewrite Hs in Hne. by apply Forall_app in Hne as [_ [? _]%Forall_cons]. }
    rewrite (part_len _ Hpp). destruct (Nat.ltb_spec 0 (length (snd p))); [|destruct (snd p); [done|cbn in *; lia]].
    cbn [andb]. destruct (account_flush o p l out text pos Ha Hpne) as (o' & E & Ha' & _). rewrite Hv in E. rewrite E. cbn [mbind res_bind].
    rewrite (Nat.add_0_r (length (shown pre))) in *. replace (e `min` length (shown pre)) with pos by lia.
    destruct (Nat.leb_spec (length (shown pre)) e); [|lia].
    destruct (at_next c pre (p :: l) Hc p l eq_refl) as (c' & -> & Hc'). cbn [mbind res_bind].
    unfold visible_len in Ha'. rewrite Hv, Nat.add_0_r in Ha'.
    exists c', o', (pre ++ [p]), 0, l, (out ++ [p]), pos, []. split; [done|]. split.
    + split; [done|by rewrite Hs, <-app_assoc|by destruct l; [|split; lia]| |by rewrite left_from_0].
      rewrite shown_snoc. unfold visible_len. rewrite Hv. lia.
    + rewrite !left_from_0. change (p :: l) with ([p] ++ l). rewrite !shown_app, shown_one, Hv, app_nil_r. cbn.
      split_and!; [done..|lia|lia|right; lia].
Qed.

Lemma delete_loop_ok fuel c o pre k post out text pos e :
  walking c o pre k post out text pos -> pos <= e <= length (shown ps) -> boundary (bytes (shown ps)) e -> length post <= fuel ->
  exists c' o' pre' k' post' out' g, delete_loop fuel (mkWalk c pos o) e ts = Ret (mkWalk c' e o')
    /\ walking c' o' pre' k' post' out' text e
    /\ shown (left_from k post) = g ++ shown (left_from k' post') /\ shown out' = shown out /\ e = pos + length g.
Proof.
  revert c o pre k post out pos. induction fuel as [|fuel IH]; intros c o pre k post out pos Hwk He Hb Hf; cbn [delete_loop fragment_start];
    (destruct (Nat.ltb_spec pos e) as [Hlt|Hge];
      [|assert (e = pos) as -> by lia; exists c, o, pre, k, post, out, []; cbn; split_and!; done || lia]).
  - destruct post; [|cbn in Hf; lia]. destruct Hwk as [_ Hs Hk Hp _]. cbn in Hk. rewrite Hs, app_nil_r in He. lia.
  - assert (pos < e <= length (shown ps)) as He' by lia.
    destruct (delete_step_ok _ _ _ _ _ _ _ _ _ Hwk He' Hb) as (c1 & o1 & pre1 & k1 & post1 & out1 & pos1 & g & -> & Hwk1 & E1 & E2 & E3 & E4 & E5).
    cbn [mbind res_bind].
    assert (exists c' o' pre' k' post' out' g', delete_loop fuel (mkWalk c1 pos1 o1) e ts = Ret (mkWalk c' e o')
      /\ walking c' o' pre' k' post' out' text e
      /\ shown (left_from k1 post1) = g' ++ shown (left_from k' post') /\ shown out' = shown out1 /\ e = pos1 + length g')
      as (c2 & o2 & pre2 & k2 & post2 & out2 & g2 & -> & Hwk2 & F1 & F2 & F3).
    { destruct E5 as [->|E5]; [|eapply IH; [exact Hwk1|lia|done|lia]]. exists c1, o1, pre1, k1, post1, out1, [].
      split; [|cbn; split_and!; done || lia]. destruct fuel; cbn [delete_loop fragment_start]; by rewrite Nat.ltb_irrefl. }
    do 6 eexists. exists (g ++ g2). split; [done|]. split; [exact Hwk2|]. rewrite E1, F1, F2, E2, length_app, app_assoc.
    split_and!; [done..|lia].
Qed.
End Walks.
