(* ===== verification/EditSpec.v ===== *)
(** * What editing a buffer's text does

    [BufferSnapshot::apply_edit_internal] against the edits applied to the text in order,
    with the names of the bytes, the patch, and the operation that is sent to others. *)

From S2P Require Import Prelude.
From S2P Require Import Locator.
From S2P Require Import Patch.
From S2P Require Import UndoMap.
From S2P Require Import History.
From S2P Require Import SumTree.
From S2P Require Import SumTreeInvariant.
From S2P Require Import SumTreeFind.
From S2P Require Import SumCursor.
From S2P Require Import SumCursorSeek.
From S2P Require Import SumCursorSearch.
From S2P Require Import SumIter.
From S2P Require Import KeyedTree.
From S2P Require Import KeyedTreeSpec.
From S2P Require Import TreeMap.
From S2P Require Import TreeMapSpec.
From S2P Require Import Text.
From S2P Require Import TextSpec.
From S2P Require Import Utf8.
From S2P Require Import Chunk.
From S2P Require Import ChunkPositions.
From S2P Require Import Rope.
From S2P Require Import RopeSpec.
From S2P Require Import RopeCursorSpec.
From S2P Require Import Fragments.
From S2P Require Import FragmentsSpec.
From S2P Require Import LocalEdit.
From S2P Require Import EditBooks.
From S2P Require Import EditWalk.
Local Open Scope nat_scope.

Implicit Types (p q r : Fragment * str) (ps qs pre post out rest : list (Fragment * str)).

(** ** Edits of a list *)

(** Replacements of ranges of a list, in order, the first [pos] items of which are gone. *)
Fixpoint edited {A} (pos : nat) (l : list A) (edits : list (nat * nat * list A)) : list A :=
  match edits with
  | [] => l
  | (start, end_, new) :: edits => take (start - pos) l ++ new ++ edited end_ (drop (end_ - pos) l) edits
  end.
Fixpoint edits_ok (text : str) (pos : nat) (edits : list (nat * nat * str)) : Prop :=
  match edits with
  | [] => True
  | (start, end_, new) :: edits =>
      pos <= start <= end_ /\ end_ <= length text /\ boundary text start /\ boundary text end_ /\ utf8 new
      /\ edits_ok text end_ edits
  end.
(** The inserted texts as named bytes. *)
Fixpoint stamped_edits (ts : Stamp) (offset : nat) (edits : list (nat * nat * str)) : list (nat * nat * list (Stamp * nat * Z)) :=
  match edits with
  | [] => []
  | (start, end_, new) :: edits => (start, end_, stamped ts offset new) :: stamped_edits ts (offset + length new) edits
  end.
Definition edit_texts (edits : list (nat * nat * str)) : list str := map snd edits.

Lemma edited_map {A B} (f : A -> B) pos l edits :
  map f (edited pos l edits) = edited pos (map f l) (map (fun e => (fst e, map f (snd e))) edits).
Proof.
  revert pos l. induction edits as [|[[s e] x] edits IH]; intros pos l; [done|]. cbn.
  by rewrite !map_app, IH, firstn_map, skipn_map.
Qed.
Lemma stamped_edits_bytes ts offset edits :
  map (fun e => (fst e, bytes (snd e))) (stamped_edits ts offset edits) = edits.
Proof.
  revert offset. induction edits as [|[[s e] x] edits IH]; intros offset; [done|]. cbn. by rewrite bytes_stamped, IH.
Qed.

(** ** Offsets in the full text

    Which bytes of the full text, deleted text included, are visible; the offset of a
    visible one in it. *)
Definition flags ps : list bool := flat_map (fun p => replicate (length (snd p)) (visible (fst p))) ps.
Definition count (l : list bool) : nat := length (List.filter (fun b => b) l).
Definition full_at ps (offset full : nat) : Prop := full <= length (flags ps) /\ count (take full (flags ps)) = offset.

Lemma count_app l l' : count (l ++ l') = count l + count l'.
Proof. unfold count. by rewrite List.filter_app, length_app. Qed.
Lemma count_replicate n (b : bool) : count (replicate n b) = if b then n else 0.
Proof. unfold count. induction n as [|n IH]; [by destruct b|]. by destruct b; cbn in *; rewrite ?IH. Qed.
Lemma flags_app ps qs : flags (ps ++ qs) = flags ps ++ flags qs.
Proof. apply flat_map_app. Qed.
Lemma flags_one p : flags [p] = replicate (length (snd p)) (visible (fst p)).
Proof. apply app_nil_r. Qed.
Lemma flags_count ps : length (flags ps) = length (shown ps) + length (hidden ps) /\ count (flags ps) = length (shown ps).
Proof.
  induction ps as [|p ps [IH1 IH2]]; [done|]. change (p :: ps) with ([p] ++ ps).
  rewrite shown_app, hidden_app, shown_one, hidden_one, flags_app, flags_one, count_app, count_replicate, !length_app, length_replicate, IH1, IH2.
  destruct (visible (fst p)); rewrite length_chars; cbn; lia.
Qed.
Lemma full_at_place ps pre post j :
  ps = pre ++ post -> j <= head_len post -> full_at ps (length (shown pre) + j) (length (shown pre) + j + length (hidden pre)).
Proof.
  intros -> Hj. unfold full_at. rewrite flags_app. destruct (flags_count pre) as [H1 H2].
  replace (length (shown pre) + j + length (hidden pre)) with (length (flags pre) + j) by lia.
  rewrite take_app_add, count_app, length_app, H2.
  destruct post as [|p l]; [cbn in *; rewrite take_nil; cbn; lia|]. unfold head_len, visible_len in Hj.
  change (p :: l) with ([p] ++ l). rewrite flags_app, flags_one, length_app, length_replicate.
  destruct (visible (fst p)); [|assert (j = 0) as -> by lia; rewrite take_0; cbn; lia].
  rewrite take_app_le by (by rewrite length_replicate). rewrite take_replicate, count_replicate. lia.
Qed.

(** ** One edit *)
Section Edits.
Context (self : BufferSnapshot) (ts : Stamp) (ps : list (Fragment * str)) (h : nat).
Context (Hvis : cuttable (visible_text self)) (Hdel : cuttable (deleted_text self)).
Context (Hw : wf h (fragments self)) (Hh : h < STACK_CAPACITY) (Hlist : to_list (fragments self) = map fst ps).
Context (Hparts : Forall part_ok ps) (Hne : Forall (fun p => snd p <> []) ps).
Context (Hold : Forall (fun p => frag_timestamp (fst p) <> ts) ps).
Context (max_insertion_len : nat) (Hmax : 4 <= max_insertion_len) (par : par_chunks_type) (Hpar : collects_chunks par).
Notation walking := (walking self ts ps h).
Notation old_text := (bytes (shown ps)).

Lemma walking_bound c o pre k post out T pos : walking c o pre k post out T pos ->
  length (shown ps) = pos + length (shown (left_from k post)).
Proof. intros [_ _ _ _ Ha]. destruct (account_patch _ _ _ _ _ _ _ _ _ Ha) as [(b & E & <- & _) _]. by rewrite E, length_app. Qed.
Lemma walking_full c o pre k post out T pos : walking c o pre k post out T pos ->
  full_at ps pos (pos + length (hidden pre)).
Proof.
  intros [_ Hs Hk -> _]. apply (full_at_place ps pre post k Hs). destruct post as [|p l]; [by cbn in *; lia|].
  destruct Hk as [Hk Hv]. cbn. unfold visible_len. destruct (visible (fst p)); [done|]. destruct k; [lia|]. by specialize (Hv ltac:(lia)).
Qed.

Lemma one_edit_ok fuel c o pre k post out T pos s e text :
  walking c o pre k post out T pos -> pos <= s <= e -> e <= length (shown ps) -> boundary old_text s -> boundary old_text e ->
  utf8 text -> length ps <= fuel ->
  exists c' o' pre' k' post' out' full_start full_end,
    edit_step max_insertion_len par fuel (mkWalk c pos o) s e text ts
      = Ret (mkWalk c' e o', (Z.of_nat full_start, Z.of_nat full_end))
    /\ walking c' o' pre' k' post' out' (T ++ text) e
    /\ shown (left_from k' post') = drop (e - pos) (shown (left_from k post))
    /\ shown out' = shown out ++ take (s - pos) (shown (left_from k post)) ++ stamped ts (length T) text
    /\ full_at ps s full_start /\ full_at ps e full_end.
Proof.
  intros Hwk Hse He Hbs Hbe Hu Hf. unfold edit_step.
  destruct (skip_ahead_ok self ts ps h Hvis Hdel Hw Hh Hlist Hparts Hne Hold _ _ _ _ _ _ _ _ s Hwk ltac:(lia))
    as (c1 & o1 & pre1 & k1 & post1 & out1 & pos1 & -> & Hwk1 & Hk1 & Hs1). cbn [mbind res_bind old_fragments].
  pose proof (walking_split _ _ _ _ _ _ _ _ _ _ _ _ Hwk1) as Esp1.
  rewrite (at_start self ts ps h Hlist Hparts Hne Hold c1 pre1 post1 (walking_cursor _ _ _ _ _ _ _ _ _ _ _ _ Hwk1) Esp1).
  destruct (keep_prefix_ok self ts ps h Hvis Hdel Hw Hh Hlist Hparts Hne Hold _ _ _ _ _ _ _ _ s Hwk1 Hs1 Hbs) as (o2 & k2 & out2 & -> & Hwk2 & Hk2).
  cbn [mbind res_bind].
  destruct (insert_text_ok self ts ps h Hold max_insertion_len Hmax par Hpar _ _ _ _ _ _ _ _ text Hwk2 Hu)
    as (o3 & qs & -> & Hwk3 & Eqs). cbn [mbind res_bind].
  destruct (delete_loop_ok self ts ps h Hvis Hdel Hw Hh Hlist Hparts Hne Hold fuel _ _ _ _ _ _ _ _ e Hwk3 ltac:(lia) Hbe)
    as (c4 & o4 & pre4 & k4 & post4 & out4 & g & -> & Hwk4 & Eg & Eout & Epos).
  { rewrite Esp1, length_app in Hf. lia. }
  cbn [mbind res_bind old_fragments].
  pose proof (walking_split _ _ _ _ _ _ _ _ _ _ _ _ Hwk4) as Esp4.
  rewrite (at_start self ts ps h Hlist Hparts Hne Hold c4 pre4 post4 (walking_cursor _ _ _ _ _ _ _ _ _ _ _ _ Hwk4) Esp4).
  cbn [text_of text_deleted].
  eapply kept_trans in Hk2; [|done..|exact Hk1]. destruct Hk2 as (g0 & Eg0 & Eout0 & Es).
  exists c4, o4, pre4, k4, post4, out4, (s + length (hidden pre1)), (e + length (hidden pre4)).
  split; [done|]. split; [exact Hwk4|].
  rewrite Eg0, Eg. split_and!.
  - rewrite app_assoc, drop_app_length'; [done|]. rewrite length_app. lia.
  - rewrite Eout, shown_app, Eqs, Eout0, <-app_assoc, take_app_length'; [done|lia].
  - pose proof (walking_pos _ _ _ _ _ _ _ _ _ _ _ _ Hwk1) as Hp1.
    replace s with (length (shown pre1) + (s - length (shown pre1))) by lia. apply (full_at_place _ _ post1); [done|lia].
  - by eapply walking_full.
Qed.

Context `{HN : LineSeparators} (Hnorm : forall s, utf8 s -> utf8 (normalize s)).
Definition normalized (edits : list (nat * nat * str)) : list (nat * nat * str) :=
  map (fun e => (fst e, normalize (snd e))) edits.
Definition ranges_at (edits : list (nat * nat * str)) (ranges : list (Z * Z)) : Prop :=
  Forall2 (fun (e : nat * nat * str) range => exists s f, range = (Z.of_nat s, Z.of_nat f)
    /\ full_at ps (fst (fst e)) s /\ full_at ps (snd (fst e)) f) edits ranges.

Lemma edits_loop_ok fuel edits c o pre k post out T pos :
  walking c o pre k post out T pos -> edits_ok old_text pos edits -> length ps <= fuel ->
  exists c' o' pre' k' post' out' pos' ranges,
    edit_loop max_insertion_len par fuel (mkWalk c pos o) edits ts
      = Ret (mkWalk c' pos' o', ranges, edit_texts (normalized edits))
    /\ walking c' o' pre' k' post' out' (T ++ concat (edit_texts (normalized edits))) pos'
    /\ shown out' ++ shown (left_from k' post')
       = shown out ++ edited pos (shown (left_from k post)) (stamped_edits ts (length T) (normalized edits))
    /\ ranges_at edits ranges.
Proof.
  revert c o pre k post out T pos. induction edits as [|[[s e] x] edits IH]; intros c o pre k post out T pos Hwk Hed Hf.
  { exists c, o, pre, k, post, out, pos, []. cbn. rewrite app_nil_r. split_and!; [done..|constructor]. }
  destruct Hed as (Hse & He & Hbs & Hbe & Hu & Hed). rewrite length_bytes in He. cbn [edit_loop].
  destruct (one_edit_ok fuel _ _ _ _ _ _ _ _ s e (normalize x) Hwk Hse He Hbs Hbe (Hnorm _ Hu) Hf)
    as (c1 & o1 & pre1 & k1 & post1 & out1 & fs & fe & -> & Hwk1 & E1 & E2 & H1 & H2). cbn [mbind res_bind].
  destruct (IH _ _ _ _ _ _ _ _ Hwk1 Hed Hf) as (c2 & o2 & pre2 & k2 & post2 & out2 & pos2 & ranges & -> & Hwk2 & E3 & H3).
  cbn [mbind res_bind]. do 8 eexists. split; [done|]. cbn [normalized edit_texts map concat snd fst].
  rewrite app_assoc. split; [exact Hwk2|]. split.
  - rewrite E3, E1, E2, length_app. cbn [stamped_edits edited]. by rewrite <-!app_assoc.
  - constructor; [|exact H3]. by exists fs, fe.
Qed.
End Edits.

(** ** Names of bytes are unique *)
Definition names ps : list (Stamp * nat) := map fst (all_chars ps).

Lemma names_app ps qs : names (ps ++ qs) = names ps ++ names qs.
Proof. unfold names. by rewrite all_chars_app, map_app. Qed.
Lemma key_in_names p ps : p ∈ ps -> snd p <> [] -> key_of p ∈ names ps.
Proof.
  intros Hp Hne. apply list_elem_of_split in Hp as (l1 & l2 & ->). change (p :: l2) with ([p] ++ l2).
  rewrite !names_app. apply elem_of_app. right. apply elem_of_app. left. unfold names. rewrite all_chars_one.
  destruct p as [f [|b s]]; [done|]. unfold key_of. cbn. rewrite Nat.add_0_r. by left.
Qed.
Lemma keys_nodup ps : NoDup (names ps) -> Forall (fun p => snd p <> []) ps -> NoDup (map key_of ps).
Proof.
  intros Hn Hne. induction Hne as [|p ps Hp Hne IH]; [constructor|]. change (p :: ps) with ([p] ++ ps) in Hn.
  rewrite names_app in Hn. apply NoDup_app in Hn as (H1 & H2 & H3). cbn [map]. constructor; [|by apply IH].
  intros Hin. apply (H2 (key_of p)); [apply key_in_names; [by left|done]|].
  apply list_elem_of_fmap in Hin as (q & E & Hq). rewrite E. apply key_in_names; [done|]. by eapply Forall_forall in Hne.
Qed.
Lemma nodup_split {A} (f : A -> bool) (l : list A) :
  NoDup (List.filter f l) -> NoDup (List.filter (fun x => negb (f x)) l) -> NoDup l.
Proof.
  induction l as [|x l IH]; [constructor|]. cbn. intros H1 H2.
  assert (x ∉ l) as Hx.
  { intros Hx. apply list_elem_of_In in Hx. destruct (f x) eqn:E; cbn in H1, H2.
    - apply NoDup_cons in H1 as [H1 _]. apply H1, list_elem_of_In, filter_In. done.
    - apply NoDup_cons in H2 as [H2 _]. apply H2, list_elem_of_In, filter_In. by rewrite E. }
  constructor; [done|]. destruct (f x); cbn in *; [apply NoDup_cons in H1 as [_ H1]|apply NoDup_cons in H2 as [_ H2]]; by apply IH.
Qed.
Lemma filter_names (f : Stamp * nat -> bool) (cs : list (Stamp * nat * Z)) :
  List.filter f (map fst cs) = map fst (List.filter (fun c => f (fst c)) cs).
Proof. induction cs as [|c cs IH]; [done|]. cbn. destruct (f (fst c)); cbn; by rewrite IH. Qed.
Lemma stamped_names ts o s : NoDup (map fst (stamped ts o s)).
Proof.
  revert o. induction s as [|b s IH]; intros o; [constructor|]. rewrite (stamped_app ts o [b] s : stamped ts o (b :: s) = _).
  cbn [app stamped imap map]. cbn. constructor; [|apply IH]. intros Hin.
  apply list_elem_of_fmap in Hin as ([[t n] z] & E & Hin). cbn in E. injection E as <- <-. unfold stamped in Hin.
  apply elem_of_lookup_imap in Hin as (i & x & E & _). injection E as E. lia.
Qed.
Lemma names_nodup ts ps out text :
  NoDup (names ps) -> List.filter (old_char ts) (all_chars out) = all_chars ps ->
  List.filter (new_char ts) (all_chars out) = stamped ts 0 text -> NoDup (names out).
Proof.
  intros Hn Ho Hf. apply (nodup_split (fun n => negb (bool_decide (fst n = ts)))); unfold names; rewrite filter_names.
  - change (fun c : Stamp * nat * Z => negb (bool_decide (fst (fst c) = ts))) with (old_char ts). by rewrite Ho.
  - erewrite List.filter_ext; [|intros c; apply negb_involutive].
    change (fun c : Stamp * nat * Z => bool_decide (fst (fst c) = ts)) with (new_char ts). rewrite Hf. apply stamped_names.
Qed.

(** ** Snapshots *)

(** A snapshot spells parts: its fragments are theirs and its ropes their text, the
    locators are in order and between the bounds, no name occurs twice, and the index of
    insertions finds every fragment by where its text came from. *)
Record spells (self : BufferSnapshot) ps : Prop := {
  spells_tree : wf (height (fragments self)) (fragments self);
  spells_fragments : to_list (fragments self) = map fst ps;
  spells_visible : holds (visible_text self) (bytes (shown ps));
  spells_deleted : holds (deleted_text self) (bytes (hidden ps));
  spells_parts : Forall part_ok ps;
  spells_nonempty : Forall (fun p => snd p <> []) ps;
  spells_ids : Forall id_ok ps;
  spells_order : StronglySorted lex_lt (map part_id ps);
  spells_names : NoDup (names ps);
  spells_insertions : wf (height (insertions self)) (insertions self)
    /\ sorted (Key:=InsertionFragmentKey) (to_list (insertions self))
    /\ forall x, In x (to_list (insertions self)) <-> exists p, p ∈ ps /\ x = insertion_new (fst p);
  spells_slices : map_ok (height (insertion_slices self)) (insertion_slices self);
}.
(** The paths to what an edit visits are short enough for its cursors. *)
Record reachable_by_cursors (self : BufferSnapshot) : Prop := {
  reach_visible : cuttable (visible_text self);
  reach_deleted : cuttable (deleted_text self);
  reach_fragments : height (fragments self) < STACK_CAPACITY;
  reach_insertions : height (insertions self) < STACK_CAPACITY;
  reach_slices : height (insertion_slices self) < STACK_CAPACITY;
}.
(** A timestamp that no fragment has heard of. *)
Definition fresh (ts : Stamp) ps : Prop :=
  Forall (fun p => frag_timestamp (fst p) <> ts /\ ts ∉ frag_deletions (fst p)) ps.

Lemma fresh_left ts ps : fresh ts ps -> Forall (left_ok ts ps) ps /\ Forall (fun p => frag_timestamp (fst p) <> ts) ps.
Proof.
  intros Hf. split.
  - apply Forall_forall. intros p Hp. eapply Forall_forall in Hf as [H1 H2]; [|exact Hp]. split.
    + exists p. split_and!; [done..|by left].
    + unfold touched. by rewrite !bool_decide_eq_false_2.
  - eapply Forall_impl; [exact Hf|]. by intros p [? _].
Qed.
Lemma fresh_chars ts ps : fresh ts ps ->
  List.filter (old_char ts) (all_chars ps) = all_chars ps /\ List.filter (new_char ts) (all_chars ps) = [].
Proof.
  intros Hf. destruct (fresh_left ts ps Hf) as [Hl Hold]. apply (flat_chars_old ts ps Hold).
  eapply Forall_impl; [exact Hl|]. by intros p [? _].
Qed.

(** What an edit gives. *)
Record edit_result (self self' : BufferSnapshot) (ts : Stamp) ps ps' (texts : list str) (patch : list Patch.Edit) : Prop := {
  result_spells : spells self' ps';
  result_kept : List.filter (old_char ts) (all_chars ps') = all_chars ps;
  result_fresh : List.filter (new_char ts) (all_chars ps') = stamped ts 0 (concat texts);
  result_stems : Forall (fun q => stems ts ps q \/ inserted ts q) ps';
  result_patch : Patch.transforms 0 0 patch (shown ps) (shown ps');
  result_normal : Patch.normal patch;
  result_slices : contents (insertion_slices self')
    = list_to_map (map (fun q => (from_fragment ts (fst q), tt)) (List.filter (touched ts) ps')) ∪ contents (insertion_slices self);
  result_rest : snapshot_undo_map self' = snapshot_undo_map self /\ version self' = version self /\ remote_id self' = remote_id self;
}.

Section Apply.
Context (self : BufferSnapshot) (ts : Stamp) (ps : list (Fragment * str)).
Context (Hsp : spells self ps) (Hreach : reachable_by_cursors self) (Hfresh : fresh ts ps).
Context (max_insertion_len : nat) (Hmax : 4 <= max_insertion_len) (par : par_chunks_type) (Hpar : collects_chunks par).
Notation account := (account (visible_text self) (deleted_text self) ts ps).

Lemma insertions_edit_ok qs out :
  NoDup (names out) -> Forall (fun p => snd p <> []) out -> qs `sublist_of` out -> (forall q, q ∈ out -> q ∈ qs \/ q ∈ ps) ->
  (forall p, p ∈ ps -> exists q, q ∈ out /\ key_of q = key_of p) ->
  exists t removed, KeyedTree.edit (insertions self) (map (fun q => insert_new (fst q)) qs) = Ret (t, removed)
    /\ wf (height t) t /\ sorted (Key:=InsertionFragmentKey) (to_list t)
    /\ forall x, In x (to_list t) <-> exists p, p ∈ out /\ x = insertion_new (fst p).
Proof.
  intros Hn Hne Hsub Hcov Hst. destruct (spells_insertions _ _ Hsp) as (Hw & Hs & Hin).
  destruct (edit_ok _ _ Hw (reach_insertions _ Hreach) Hs (map (fun q => insert_new (fst q)) qs)) as (t & h & -> & Ht & El).
  assert (NoDup (map key_of out)) as Hkeys by by apply keys_nodup.
  assert (NoDup (map edit_key (map (fun q => insert_new (fst q)) qs))) as Hek.
  { rewrite map_map. apply (NoDup_fmap_1 (fun k => (key_timestamp k, split_offset k))).
    change (NoDup (map (fun k => (key_timestamp k, split_offset k)) (map (fun q => edit_key (insert_new (fst q))) qs))).
    rewrite map_map. eapply sublist_NoDup; [exact Hkeys|]. by apply (fmap_sublist key_of). }
  do 2 eexists. split; [done|]. rewrite El, (wf_height _ _ Ht). split_and!; [done| |].
  - apply edited_sorted; [done|]. by apply sort_edits_sorted.
  - intros x. rewrite edited_In by done. split.
    + intros [Hx|[Hx Hkeep]].
      * apply in_map_iff in Hx as (q & [= <-] & Hq). exists q. split; [|done]. eapply elem_of_sublist; [|exact Hsub]. by apply list_elem_of_In.
      * apply Hin in Hx as (p & Hp & ->). destruct (Hst p Hp) as (q & Hq & Ek). exists q. split; [done|].
        destruct (Hcov q Hq) as [Hqq|Hqp].
        -- exfalso. apply (Hkeep (insert_new (fst q))); [apply in_map_iff; exists q; split; [done|by apply list_elem_of_In]|]. injection Ek as E1 E2.
           unfold insert_new, edit_key, key, insertion_keyed, insertion_new. cbn. by rewrite E1, E2.
        -- f_equal. f_equal. eapply (NoDup_map_inv' key_of); [apply keys_nodup; [apply Hsp|apply Hsp]|by apply list_elem_of_In..|done].
    + intros (p & Hp & ->). destruct (decide (key_of p ∈ map key_of qs)) as [Hk|Hk].
      * apply list_elem_of_fmap in Hk as (q & Ek & Hq). left. apply in_map_iff. exists q.
        assert (q = p) as ->; [|split; [done|by apply list_elem_of_In]].
        symmetry. eapply (NoDup_map_inv' key_of); [exact Hkeys|by apply list_elem_of_In| |done].
        apply list_elem_of_In. by eapply elem_of_sublist.
      * right. destruct (Hcov p Hp) as [Hq|Hold].
        { destruct Hk. by apply (list_elem_of_fmap_2 key_of). }
        split; [apply Hin; by exists p|]. intros e He Ek. apply in_map_iff in He as (q & <- & Hq). apply Hk.
        apply list_elem_of_fmap. exists q. split; [|by apply list_elem_of_In]. injection Ek as E1 E2. unfold key_of. by rewrite E1, E2.
Qed.

Lemma slices_extend_ok out :
  NoDup (names out) -> Forall (fun p => snd p <> []) out ->
  let new := List.filter (touched ts) out in
  exists m, set_extend (insertion_slices self) (map (fun q => from_fragment ts (fst q)) new) = Ret m
    /\ map_ok (height m) m
    /\ contents m = list_to_map (map (fun q => (from_fragment ts (fst q), tt)) new) ∪ contents (insertion_slices self).
Proof.
  intros Hn Hne new. pose proof (spells_slices _ _ Hsp) as [Hw Hs]. unfold set_extend. rewrite map_map.
  destruct (map_extend_ok (insertion_slices self) _ Hw Hs (reach_slices _ Hreach) (map (fun q => (from_fragment ts (fst q), tt)) new))
    as (m & h & -> & [Hm Hms] & E).
  - rewrite map_map. cbn [fst]. apply (NoDup_fmap_1 (fun s => (slice_insertion s, slice_start s))).
    change (NoDup (map (fun s => (slice_insertion s, slice_start s)) (map (fun q => from_fragment ts (fst q)) new))).
    rewrite map_map. eapply sublist_NoDup; [by apply keys_nodup|]. apply (fmap_sublist key_of), filter_sublist.
  - exists m. rewrite (wf_height _ _ Hm). done.
Qed.

(** The snapshot that the walk's output makes. *)
Lemma rebuild_ok o qs out text pos h t texts :
  account o qs out text pos -> text = concat texts -> wf h t -> to_list t = map fst qs -> qs ⊆ ps -> Forall (fun q => snd q <> []) qs ->
  exists self', rebuild par self o t = Ret self' /\ edit_result self self' ts ps (out ++ qs) texts (edits_patch o).
Proof.
  intros Ha -> Ht Et Hin Hqne. destruct (fresh_left ts ps Hfresh) as [_ Hold]. unfold rebuild.
  assert (edits_patch_kept : forall o', output_tree o t = Ret o' -> edits_patch o' = edits_patch o).
  { intros o'. unfold output_tree. destruct (ropes_append _ _); [|done]. cbn. by intros [= <-]. }
  destruct (account_tree _ _ (reach_visible _ Hreach) (reach_deleted _ Hreach) ts ps Hold o qs [] out (concat texts) pos h t) as (o' & E & Ha');
    [by rewrite app_nil_r|done..|].
  rewrite <-(edits_patch_kept _ E). rewrite E. cbn [mbind res_bind].
  destruct Ha' as [[B1 B2 B3 B4 B5 B6 B7 B8 (rec & Ei & Hsub & Hcov) B11 B10] _ [(before & Eb & _ & Htr) Hnorm] [Hpb Hpr]].
  rewrite app_nil_r in B1, B2, B3, B5, B11.
  destruct (ropes_finish_ok _ _ (reach_visible _ Hreach) (reach_deleted _ Hreach) _ _ _ _ _ Hpr) as (r1 & r2 & -> & H1 & H2).
  cbn [mbind res_bind]. destruct (to_sum_tree_ok par _ _ Hpar Hpb) as (tree & ht & -> & Hwt & Elt). cbn [mbind res_bind].
  assert (NoDup (names (out ++ qs))) as Hn by (eapply names_nodup; [exact (spells_names _ _ Hsp)|exact B5|exact B6]).
  rewrite Ei, B10. destruct (insertions_edit_ok rec (out ++ qs) Hn B4 Hsub Hcov) as (ins & removed & -> & Hi1 & Hi2 & Hi3).
  { intros p Hp. destruct (B11 p Hp) as (q & Hq & _ & Ek). by exists q. }
  cbn [mbind res_bind fst]. destruct (slices_extend_ok (out ++ qs) Hn B4) as (m & -> & Hm & Em). cbn [mbind res_bind].
  eexists. split; [done|]. rewrite app_nil_r in Eb. subst before. rewrite app_nil_r in H1, H2. split; try done.
  split; cbn [fragments visible_text deleted_text insertions insertion_slices]; try done. by rewrite (wf_height _ _ Hwt).
Qed.

Context `{HN : LineSeparators} (Hnorm : forall s, utf8 s -> utf8 (normalize s)).

(** The walk up to the first edit. *)
Lemma first_slice_ok (first_start : nat) :
  first_start <= length (shown ps) ->
  exists t c ropes pre post, ropes_new (visible_text self) (deleted_text self) = Ret ropes
    /\ SumCursor.slice (cursor_new (D:=FragmentTextSummary) (fragments self)) first_start Right = Ret (t, c)
    /\ exists ropes', ropes_append ropes (summary_text_len (builder_summary (fragments_new t))) = Ret ropes'
    /\ start c = text_of pre
    /\ walking self ts ps (height (fragments self)) c (mkOutput (fragments_new t) ropes' [] [] 0 []) pre 0 post pre [] (length (shown pre))
    /\ length (shown pre) <= first_start.
Proof.
  intros Hf. destruct (fresh_left ts ps Hfresh) as [Hleft Hold].
  destruct Hsp as [Hw Hl Hv Hd Hp Hne Hid Hor Hn Hi Hsl].
  destruct (ropes_new_ok _ _ (reach_visible _ Hreach) (reach_deleted _ Hreach) _ _ Hv Hd) as (ropes & Er & Hr).
  destruct (slice_visible self ts ps (height (fragments self)) Hw (reach_fragments _ Hreach) Hl Hp Hne Hold
    (cursor_new (fragments self)) Unsought [] ps first_start (new_at_place _ _)) as (t & h' & c & pre & post & Es & Ht & Et & Eps & Hc & Hle & _);
    [by split|done|cbn; lia|].
  cbn [app] in Hc, Hle.
  exists t, c, ropes, pre, post. split; [done|]. split; [done|].
  assert (builds (fragments_new t) (map fst pre)) as Hb by (rewrite <-Et; by eapply fragments_new_ok).
  assert (Forall part_ok pre /\ Forall part_ok post) as [Hpp Hpq] by (apply Forall_app; by rewrite <-Eps).
  rewrite Eps, shown_app, hidden_app, !bytes_app in Hr.
  destruct (ropes_append_ok _ _ (reach_visible _ Hreach) (reach_deleted _ Hreach) ropes (bytes (shown pre)) (bytes (hidden pre))
    (bytes (shown post)) (bytes (hidden post)) [] [] (summary_text_len (builder_summary (fragments_new t)))) as (ropes' & Ea & Hr');
    [|exact Hr|by apply hidden_utf8|by apply shown_utf8|by apply hidden_utf8|].
  { rewrite (builds_summary _ _ Hb), total_text by done. unfold text_of. by rewrite !length_bytes. }
  exists ropes'. split; [done|]. split; [by apply (at_start self ts ps (height (fragments self)) Hl Hp Hne Hold c pre post)|].
  split; [|done]. split; [done|done|by destruct post; [|split; lia]|lia|]. rewrite left_from_0.
  split; cbn [new_insertions new_slices next_offset edits_patch]; [|done|split; [|done]|by split].
  - apply (books_pass ts ps Hold pre post []); [|by rewrite Eps; set_solver|rewrite Eps in Hne; by apply Forall_app in Hne as [? _]].
    rewrite <-Eps. split; try done.
    + exists []. split_and!; [done|constructor|]. intros q Hq. by apply elem_of_nil in Hq.
    + intros p Hpin. exists p. split_and!; [done| |done]. by eapply Forall_forall in Hne.
  - exists (shown pre). rewrite Eps, shown_app. split_and!; [done..|]. constructor.
Qed.

Lemma apply_edit_ok edits :
  edits_ok (bytes (shown ps)) 0 edits ->
  exists self' patch ps' ranges,
    apply_edit_internal max_insertion_len par self edits ts
      = Ret (self', mkEditOperation ts (version self) ranges (edit_texts (normalized edits)), patch)
    /\ edit_result self self' ts ps ps' (edit_texts (normalized edits)) patch
    /\ shown ps' = edited 0 (shown ps) (stamped_edits ts 0 (normalized edits))
    /\ ranges_at ps edits ranges.
Proof.
  intros Hed. unfold apply_edit_internal. destruct edits as [|[[s e] x] edits].
  { exists self, [], ps, []. split; [done|]. split; [|by split; [|constructor]]. destruct (fresh_chars ts ps Hfresh) as [E1 E2].
    destruct (fresh_left ts ps Hfresh) as [Hleft _]. split; try done.
    - eapply Forall_impl; [exact Hleft|]. intros q [? _]. by left.
    - constructor.
    - replace (List.filter (touched ts) ps) with (@nil (Fragment * str)); [cbn; by rewrite (left_id_L ∅ (∪))|].
      clear -Hleft. induction Hleft as [|q qs [_ Hq] _ IH]; [done|]. cbn. by rewrite Hq. }
  pose proof Hed as ((_ & Hse) & He & _). rewrite length_bytes in He.
  destruct (first_slice_ok s ltac:(lia)) as (t & c & ropes & pre & post & -> & -> & ropes' & E & Est & Hwk & Hle).
  cbn [mbind res_bind]. rewrite E. cbn [mbind res_bind]. rewrite Est. cbn [text_of text_visible].
  destruct (fresh_left ts ps Hfresh) as [_ Hold]. destruct Hreach as [Hrv Hrd Hrf Hri Hrs].
  pose proof Hsp as [Hw Hl _ _ Hp Hne _ _ _ _ _].
  assert (shown ps = shown pre ++ shown post) as Eps by (rewrite (walking_split _ _ _ _ _ _ _ _ _ _ _ _ Hwk); apply shown_app).
  assert (edits_ok (bytes (shown ps)) (length (shown pre)) ((s, e, x) :: edits)) as Hed' by (cbn in Hed |- *; intuition lia).
  destruct (edits_loop_ok self ts ps (height (fragments self)) Hrv Hrd Hw Hrf Hl Hp Hne Hold max_insertion_len Hmax par Hpar Hnorm
    (fuel_for (fragments self)) ((s, e, x) :: edits) _ _ _ _ _ _ _ _ Hwk Hed') as (c1 & o1 & pre1 & k1 & post1 & out1 & pos1 & ranges & -> & Hwk1 & Ew & Hra).
  { pose proof (length_slots _ _ Hw) as Hls. rewrite Hl, length_map in Hls. unfold fuel_for. lia. }
  cbn [mbind res_bind].
  destruct (finish_fragment_ok self ts ps (height (fragments self)) Hrv Hrd Hw Hrf Hl Hp Hne Hold _ _ _ _ _ _ _ _ Hwk1)
    as (c2 & o2 & pre2 & post2 & out2 & pos2 & -> & Hwk2 & (g & Eg1 & Eg2 & _) & _).
  cbn [mbind res_bind old_fragments output]. pose proof (walking_split _ _ _ _ _ _ _ _ _ _ _ _ Hwk2) as Es2.
  destruct (suffix_ok _ _ c2 _ (map fst pre2) (map fst post2) Hrf Hw (walking_cursor _ _ _ _ _ _ _ _ _ _ _ _ Hwk2)) as (t2 & h2 & c3 & -> & Ht2 & Et2 & _).
  { by apply (ahead_visible self ps Hl). }
  cbn [mbind res_bind fst].
  pose proof (walking_account _ _ _ _ _ _ _ _ _ _ _ _ Hwk2) as Ha. rewrite left_from_0 in Ha.
  destruct (rebuild_ok o2 post2 out2 _ pos2 h2 t2 _ Ha eq_refl Ht2 Et2) as (self' & -> & Hres).
  { rewrite Es2. set_solver. }
  { rewrite Es2 in Hne. by apply Forall_app in Hne as [_ ?]. }
  cbn [mbind res_bind]. do 4 eexists. split; [by destruct (result_rest _ _ _ _ _ _ _ Hres) as (_ & -> & _)|]. split; [exact Hres|].
  split; [|exact Hra]. rewrite shown_app, Eg2, <-app_assoc, <-Eg1, Ew, left_from_0, Eps.
  cbn [normalized map fst snd stamped_edits edited]. rewrite Nat.sub_0_r, app_assoc. f_equal.
  - rewrite take_app_ge by lia. done.
  - rewrite Nat.sub_0_r, drop_app_ge by lia. done.
Qed.
End Apply.
