(* ===== verification/EditProps.v ===== *)
(** * Editing a buffer's text: the theorems *)

From S2P Require Import Prelude.
From S2P Require Import Clock.
From S2P Require Import Locator.
From S2P Require Import Patch.
From S2P Require Import UndoMap.
From S2P Require Import History.
From S2P Require Import SumTree.
From S2P Require Import SumTreeInvariant.
From S2P Require Import SumTreeFind.
From S2P Require Import SumCursor.
From S2P Require Import SumCursorSeek.
From S2P Require Import SumCursorSearch.
From S2P Require Import SumIter.
From S2P Require Import KeyedTree.
From S2P Require Import KeyedTreeSpec.
From S2P Require Import TreeMap.
From S2P Require Import TreeMapSpec.
From S2P Require Import Text.
From S2P Require Import TextSpec.
From S2P Require Import Utf8.
From S2P Require Import Chunk.
From S2P Require Import ChunkSpec.
From S2P Require Import ChunkPositions.
From S2P Require Import Rope.
From S2P Require Import RopeSpec.
From S2P Require Import RopeCursorSpec.
From S2P Require Import Fragments.
From S2P Require Import FragmentsSpec.
From S2P Require Import LocalEdit.
From S2P Require Import EditBooks.
From S2P Require Import EditWalk.
From S2P Require Import EditSpec.
Local Open Scope nat_scope.

(** ** Ropes of one chunk *)
Section OneChunk.
Context (r : Rope) (ch : Chunk) (Hch : rope_chunks r = leaf_of [ch]).

Lemma one_chunk_rest : shallow r /\ forall ts, rope_of r ts -> exists t, ts = [t] /\ rope_len r = length t.
Proof.
  split; [unfold shallow; rewrite Hch; cbn; unfold STACK_CAPACITY; lia|]. intros ts Ht. pose proof (rope_len_of _ _ Ht) as El.
  pose proof (rope_list _ _ Ht) as E. rewrite Hch in E. destruct ts as [|t [|t' ts]]; try discriminate.
  exists t. cbn in El. rewrite app_nil_r in El. done.
Qed.

Lemma chunk_tree_wf : wf (height (rope_chunks r)) (rope_chunks r).
Proof. rewrite Hch. apply (wf_leaf [ch]). cbn. unfold TREE_BASE. lia. Qed.

Lemma one_chunk_middle ts c o e : rope_of r ts -> cursor_at r ts c o -> middle_shallow c e.
Proof.
  intros Ht [_ _ (pre & post & E & Hc & _)] chunks m c' En Es. destruct one_chunk_rest as [Hsh Hone]. destruct (Hone _ Ht) as (t & -> & _).
  assert (at_place (rope_chunks r) (height (rope_chunks r)) chunks Back) as Hb.
  { destruct (next_ok _ _ chunk_tree_wf _ _ Hsh Hc) as (c1 & En' & Hc1). rewrite En in En'. injection En' as <-.
    destruct pre as [|t0 [|]]; destruct post as [|t1 [|]]; try discriminate; exact Hc1. }
  inversion Hb as [| | |Ec]. subst chunks. unfold SumCursor.slice, seek_internal in Es. cbn [c_position] in Es.
  destruct (target_cmp e _); try discriminate; cbn [mbind res_bind mret res_ret] in Es;
    (destruct (fuel_for (rope_chunks r)); cbn [seek_loop mbind res_bind mret res_ret] in Es; injection Es as <- _;
     unfold shallow; cbn; unfold STACK_CAPACITY; lia).
Qed.

Lemma push_first_shallow (s : ChunkSlice) part : push_chunk rope_new s = Ret part -> shallow part.
Proof.
  unfold push_chunk, rope_new. cbn [rope_chunks]. unfold update_last_with.
  change (last_item SumTree.new) with (@Ret (option Chunk) None). cbn [mbind res_bind].
  destruct (chunk_is_empty s); [intros [= <-]; unfold shallow; cbn; unfold STACK_CAPACITY; lia|].
  destruct (into_chunk s) as [c|]; [|discriminate]. cbn. intros [= <-]. unfold shallow. cbn. unfold STACK_CAPACITY. lia.
Qed.

Lemma one_chunk_slice ts c o e part c' : rope_of r ts -> cursor_at r ts c o -> cursor_slice c e = Ret (part, c') -> shallow part.
Proof.
  intros Ht [Er _ (pre & post & E & Hc & _)] Es. destruct one_chunk_rest as [Hsh Hone]. destruct (Hone _ Ht) as (t & -> & Hl).
  assert (cursor_end (cursor_chunks c) = Ret (length t)) as Ee.
  { rewrite (cursor_end_ok _ _ _ _ Hc) by (by destruct post). f_equal.
    pose proof (advance_len [t] (rope_pieces _ _ Ht)) as El. cbn [concat] in El. rewrite app_nil_r in El. rewrite <-El.
    destruct pre as [|t0 [|]]; destruct post as [|t1 [|]]; try discriminate; injection E as <-; cbn [map place_of];
      by rewrite ?(rope_list _ _ Ht). }
  unfold cursor_slice in Es. rewrite Er, Hl, Ee in Es.
  destruct (cursor_offset c <=? e); [|discriminate]. destruct (Nat.leb_spec e (length t)); [|discriminate].
  cbn [assert mbind res_bind] in Es. destruct (Nat.ltb_spec (length t) e); [lia|].
  destruct (item (cursor_chunks c)) as [[chunk|]|]; cbn [mbind res_bind] in Es; [..|discriminate].
  - destruct (Chunk.slice chunk _ _) as [s|]; [|discriminate]. cbn [mbind res_bind] in Es.
    destruct (push_chunk rope_new s) as [p|] eqn:Ep; [|discriminate]. injection Es as <- _. by eapply push_first_shallow.
  - injection Es as <- _. unfold shallow. cbn. unfold STACK_CAPACITY. lia.
Qed.

Lemma one_chunk_cuttable : cuttable r.
Proof.
  split; [apply one_chunk_rest|]. intros ts c o Ht Hc e. split_and!.
  - by eapply one_chunk_middle.
  - intros part c'. by eapply one_chunk_slice.
  - intros part Es. unfold cursor_suffix in Es. destruct (cursor_slice c _) as [[p c']|] eqn:E; [|discriminate].
    injection Es as <-. by eapply one_chunk_slice.
Qed.
End OneChunk.

Lemma one_chunk_rope_cuttable r s :
  holds r s -> height (rope_chunks r) = 0 -> length (to_list (rope_chunks r)) = 1 -> cuttable r.
Proof.
  intros (ts & Ht & _) Hh Hl. pose proof (rope_wf _ _ Ht) as Hw. rewrite Hh in Hw.
  apply wf_0_inv in Hw as (its & E & _). rewrite E in Hl. cbn in Hl. destruct its as [|ch [|]]; try discriminate.
  by apply (one_chunk_cuttable r ch).
Qed.

(** ** A sample: "hel", "XX" (deleted) and "lo" *)
Module SampleEdit.
Definition stamp (v : Z) (H : UndoMap.fits (Lamport.Lamport v 0) = true) : Stamp := mkStamp (Lamport.Lamport v 0) H.
Definition s1 : Stamp := stamp 1 eq_refl.
Definition s2 : Stamp := stamp 2 eq_refl.
Definition s3 : Stamp := stamp 3 eq_refl.
Definition hel : str := [104; 101; 108]%Z.
Definition xx : str := [88; 88]%Z.
Definition lo : str := [108; 111]%Z.
Definition parts : list (Fragment * str) := [
  (mkFrag [1000%Z] s1 0 3 true [] version_new, hel);
  (mkFrag [2000%Z] s1 3 2 false [s2] version_new, xx);
  (mkFrag [3000%Z] s1 5 2 true [] version_new, lo)].
Definition seen : Global.t := Global.observe (Global.observe Global.new (lamport s1)) (lamport s2).
Definition rope (s : str) : Rope := match rope_from chunks_map s with Ret r => r | Panic => rope_new end.
Definition snapshot : BufferSnapshot := mkSnapshot (rope (hel ++ lo)) (rope xx)
  (leaf_of (map fst parts)) (leaf_of (map (fun p => insertion_new (fst p)) parts)) SumTree.new SumTree.new seen 1.
(** Replace "ll" by an e acute. *)
Definition edits : list (nat * nat * str) := [(2, 4, [195; 169]%Z)].
#[local] Instance separators : LineSeparators := fun s => s.

Ltac spell := repeat (econstructor; [split; [reflexivity|lia|repeat constructor; unfold continuation; lia|reflexivity]|]); constructor.
Lemma hel_utf8 : utf8 hel.
Proof. change hel with ([104%Z] ++ [101%Z] ++ [108%Z] ++ []). spell. Qed.
Lemma xx_utf8 : utf8 xx.
Proof. change xx with ([88%Z] ++ [88%Z] ++ []). spell. Qed.
Lemma lo_utf8 : utf8 lo.
Proof. change lo with ([108%Z] ++ [111%Z] ++ []). spell. Qed.
Lemma new_utf8 : utf8 [195; 169]%Z.
Proof. change [195; 169]%Z with ([195; 169]%Z ++ []). spell. Qed.

Lemma sample_holds s : utf8 s -> holds (rope s) s.
Proof.
  intros Hs. destruct (rope_from_spec chunks_map (fun _ _ _ _ _ _ => eq_refl) s Hs) as (r & ts & E & Hr & Et).
  unfold rope. rewrite E. by exists ts.
Qed.

Lemma one_digit_id p z : part_id p = [z] -> (0 <? z)%Z && (z <? U64_MAX)%Z = true -> id_ok p.
Proof.
  intros E [H1%Z.ltb_lt H2%Z.ltb_lt]%andb_true_iff. unfold id_ok. rewrite E. split_and!.
  - split; [|by exists [], z]. constructor; [uint_lia|constructor].
  - apply lex_lt_cons. by left.
  - apply lex_lt_cons. by left.
Qed.
Lemma snapshot_spells : spells snapshot parts.
Proof.
  split.
  - apply wf_leaf. vm_compute. lia.
  - reflexivity.
  - apply (sample_holds (hel ++ lo)). apply utf8_app; [apply hel_utf8|apply lo_utf8].
  - apply (sample_holds xx), xx_utf8.
  - repeat constructor; [apply hel_utf8|apply xx_utf8|apply lo_utf8].
  - repeat constructor; done.
  - repeat (constructor; [by eapply one_digit_id|]). constructor.
  - repeat (constructor; [|repeat (constructor; [reflexivity|]); constructor]). constructor.
  - apply (bool_decide_unpack _). vm_compute. reflexivity.
  - split_and!.
    + apply wf_leaf. vm_compute. lia.
    + repeat (constructor; [|repeat (constructor; [reflexivity|]); constructor]). constructor.
    + intros x. change (to_list (insertions snapshot)) with (map (fun p => insertion_new (fst p)) parts).
      rewrite in_map_iff. split; [intros (p & <- & Hp)|intros (p & Hp & ->)]; exists p; by rewrite list_elem_of_In in *.
  - split; [apply new_ok|constructor].
Qed.
Lemma snapshot_reach : reachable_by_cursors snapshot.
Proof.
  split; [apply (one_chunk_rope_cuttable _ (hel ++ lo)); [|reflexivity..]|apply (one_chunk_rope_cuttable _ xx); [|reflexivity..]|vm_compute; lia..].
  - apply sample_holds, utf8_app; [apply hel_utf8|apply lo_utf8].
  - apply sample_holds, xx_utf8.
Qed.
Lemma s3_fresh : fresh s3 parts.
Proof. repeat constructor; try discriminate; try apply not_elem_of_nil. intros Hp%list_elem_of_singleton. discriminate. Qed.
Lemma edits_in_order : edits_ok (bytes (shown parts)) 0 edits.
Proof. cbn. split_and!; [lia..|reflexivity|reflexivity|apply new_utf8|done]. Qed.
End SampleEdit.

(** ** The theorems *)

(** The flag of every fragment is what the undo map says. *)
Definition coherent (self : BufferSnapshot) (ps : list (Fragment * str)) : Prop :=
  Forall (fun p => is_visible (visibility (fst p)) (snapshot_undo_map self) = Ret (visible (fst p))) ps.

Lemma all_res_snoc {A} (f : A -> res bool) l x b : all_res f l = Ret true -> f x = Ret b -> all_res f (l ++ [x]) = Ret b.
Proof.
  intros Hl Hx. induction l as [|y l IH]; cbn in *; [rewrite Hx; by destruct b|].
  destruct (f y) as [[|]|]; cbn in *; [by apply IH|done..].
Qed.
Lemma coherent_edit self self' ts ps ps' texts patch :
  edit_result self self' ts ps ps' texts patch -> is_undone (snapshot_undo_map self) ts = Ret false ->
  coherent self ps -> coherent self' ps'.
Proof.
  intros Hres Hts Hco. unfold coherent. rewrite (proj1 (result_rest _ _ _ _ _ _ _ Hres)).
  eapply Forall_impl; [exact (result_stems _ _ _ _ _ _ _ Hres)|].
  intros q [(p & Hp & _ & E1 & _ & E2)|(E1 & _ & E2 & E3)]; unfold visibility, is_visible; cbn [inserted_at deletions].
  - eapply Forall_forall in Hco; [|exact Hp]. unfold visibility, is_visible in Hco. cbn [inserted_at deletions] in Hco. rewrite E1.
    destruct E2 as [[-> ->]|(Ev & -> & ->)]; [done|]. rewrite Ev in Hco.
    destruct (is_undone (snapshot_undo_map self) (frag_timestamp (fst p))) as [[|]|]; cbn [mbind res_bind] in *; [done| |done].
    by apply all_res_snoc.
  - by rewrite E1, E2, E3, Hts.
Qed.

(** C5. A local edit replaces the ranges it is given, in order, by the new texts, whatever
    fragments the ranges cut: it does not panic, the visible text afterwards is the old one
    with the (normalised) replacements, and byte by byte: what was visible keeps its name
    (the edit that inserted it and its place in that insertion) and the new bytes are named
    after this edit in the order they were inserted.  The full text, deleted bytes
    included, loses nothing and keeps its order.  The patch that is returned turns the old
    visible text into the new one, without empty or touching edits.  The operation holds
    the timestamp, the version, the new texts, and the ranges in the full text. *)
Theorem local_edit_text `{LineSeparators} max_insertion_len par (self : BufferSnapshot) ps ts edits :
  spells self ps -> reachable_by_cursors self -> fresh ts ps ->
  4 <= max_insertion_len -> collects_chunks par -> (forall s, utf8 s -> utf8 (normalize s)) ->
  edits_ok (bytes (shown ps)) 0 edits ->
  exists self' patch ps' ranges,
    apply_edit_internal max_insertion_len par self edits ts
      = Ret (self', mkEditOperation ts (version self) ranges (edit_texts (normalized edits)), patch)
    /\ holds (visible_text self') (edited 0 (bytes (shown ps)) (normalized edits))
    /\ spells self' ps'
    /\ shown ps' = edited 0 (shown ps) (stamped_edits ts 0 (normalized edits))
    /\ List.filter (old_char ts) (all_chars ps') = all_chars ps
    /\ List.filter (new_char ts) (all_chars ps') = stamped ts 0 (concat (edit_texts (normalized edits)))
    /\ Patch.transforms 0 0 patch (shown ps) (shown ps') /\ Patch.normal patch
    /\ ranges_at ps edits ranges.
Proof.
  intros Hsp Hreach Hfresh Hmax Hpar Hnorm Hed.
  destruct (apply_edit_ok self ts ps Hsp Hreach Hfresh max_insertion_len Hmax par Hpar Hnorm edits Hed)
    as (self' & patch & ps' & ranges & E & Hres & Es & Hr).
  exists self', patch, ps', ranges. destruct Hres as [R1 R2 R3 R4 R5 R6 R7 R8]. split_and!; [done| |done..].
  pose proof (spells_visible _ _ R1) as Hv. rewrite Es in Hv. unfold bytes in Hv at 1. rewrite edited_map in Hv.
  by rewrite stamped_edits_bytes in Hv.
Qed.

Lemma local_edit_text_witness :
  bytes (shown SampleEdit.parts) = [104; 101; 108; 108; 111]%Z
  /\ (exists self' patch,
        apply_edit_internal (H:=SampleEdit.separators) 4 chunks_map SampleEdit.snapshot SampleEdit.edits SampleEdit.s3
        = Ret (self', mkEditOperation SampleEdit.s3 SampleEdit.seen [(2, 6)%Z] [[195; 169]%Z], patch)
        /\ holds (visible_text self') [104; 101; 195; 169; 111]%Z)
  /\ exists self' patch ps' ranges,
    apply_edit_internal (H:=SampleEdit.separators) 4 chunks_map SampleEdit.snapshot SampleEdit.edits SampleEdit.s3
      = Ret (self', mkEditOperation SampleEdit.s3 SampleEdit.seen ranges [[195; 169]%Z], patch)
    /\ spells self' ps' /\ Patch.transforms 0 0 patch (shown SampleEdit.parts) (shown ps').
Proof.
  destruct (local_edit_text (H:=SampleEdit.separators) 4 chunks_map SampleEdit.snapshot SampleEdit.parts SampleEdit.s3 SampleEdit.edits
    SampleEdit.snapshot_spells SampleEdit.snapshot_reach SampleEdit.s3_fresh ltac:(lia) (fun _ _ _ _ _ _ => eq_refl) (fun s Hs => Hs)
    SampleEdit.edits_in_order) as (self' & patch & ps' & ranges & E & Hv & Hsp & _ & _ & _ & Ht & _ & _).
  change (version SampleEdit.snapshot) with SampleEdit.seen in E.
  change (edit_texts (normalized (HN:=SampleEdit.separators) SampleEdit.edits)) with [[195; 169]%Z] in E.
  split; [reflexivity|]. split; [|exists self', patch, ps', ranges; split; [exact E|split; [exact Hsp|exact Ht]]].
  exists self', patch. split; [|exact Hv].
  assert (Er : match apply_edit_internal (H:=SampleEdit.separators) 4 chunks_map SampleEdit.snapshot SampleEdit.edits SampleEdit.s3 with
               | Ret (_, op, _) => History.ranges op = [(2, 6)%Z] | Panic => False end) by (vm_compute; reflexivity).
  rewrite E in Er. change (ranges = [(2, 6)%Z]) in Er. rewrite Er in E. exact E.
Defined.

(** C6. A local edit keeps the buffer's data in order: fragments in the order of their
    locators, between the bounds, with their text, no byte named twice, and every fragment
    in the index of insertions under the place its text came from.  Every fragment is part
    of an old one, untouched or newly deleted by this edit, or new; the slices recorded for
    the edit are those of what it inserted or deleted.  The undo map and the version stay,
    and what a fragment shows stays what the undo map says of it. *)
Theorem local_edit_fragments `{LineSeparators} max_insertion_len par (self : BufferSnapshot) ps ts edits :
  spells self ps -> reachable_by_cursors self -> fresh ts ps ->
  4 <= max_insertion_len -> collects_chunks par -> (forall s, utf8 s -> utf8 (normalize s)) ->
  edits_ok (bytes (shown ps)) 0 edits ->
  exists self' op patch ps',
    apply_edit_internal max_insertion_len par self edits ts = Ret (self', op, patch)
    /\ spells self' ps'
    /\ Forall (fun q => stems ts ps q \/ inserted ts q) ps'
    /\ contents (insertion_slices self')
       = list_to_map (map (fun q => (from_fragment ts (fst q), tt)) (List.filter (touched ts) ps')) ∪ contents (insertion_slices self)
    /\ snapshot_undo_map self' = snapshot_undo_map self /\ version self' = version self
    /\ (is_undone (snapshot_undo_map self) ts = Ret false -> coherent self ps -> coherent self' ps').
Proof.
  intros Hsp Hreach Hfresh Hmax Hpar Hnorm Hed.
  destruct (apply_edit_ok self ts ps Hsp Hreach Hfresh max_insertion_len Hmax par Hpar Hnorm edits Hed)
    as (self' & patch & ps' & ranges & E & Hres & _ & _).
  do 2 eexists. exists patch, ps'. split; [exact E|]. pose proof Hres as [R1 R2 R3 R4 R5 R6 R7 (R8 & R9 & R10)]. split_and!; [done..|].
  by eapply coherent_edit.
Qed.

Lemma local_edit_fragments_witness :
  is_undone (snapshot_undo_map SampleEdit.snapshot) SampleEdit.s3 = Ret false /\ coherent SampleEdit.snapshot SampleEdit.parts
  /\ exists self' op patch ps',
    apply_edit_internal (H:=SampleEdit.separators) 4 chunks_map SampleEdit.snapshot SampleEdit.edits SampleEdit.s3 = Ret (self', op, patch)
    /\ spells self' ps' /\ coherent self' ps'.
Proof.
  assert (Hu : is_undone (snapshot_undo_map SampleEdit.snapshot) SampleEdit.s3 = Ret false) by reflexivity.
  assert (Hc : coherent SampleEdit.snapshot SampleEdit.parts) by (repeat constructor).
  destruct (local_edit_fragments (H:=SampleEdit.separators) 4 chunks_map SampleEdit.snapshot SampleEdit.parts SampleEdit.s3 SampleEdit.edits
    SampleEdit.snapshot_spells SampleEdit.snapshot_reach SampleEdit.s3_fresh ltac:(lia) (fun _ _ _ _ _ _ => eq_refl) (fun s Hs => Hs)
    SampleEdit.edits_in_order) as (self' & op & patch & ps' & E & Hsp & _ & _ & _ & _ & H).
  split; [done|]. split; [done|]. exists self', op, patch, ps'. split; [done|]. split; [done|]. by apply H.
Defined.
