(* ===== verification/Anchors.v ===== *)
(** * Anchors ([crates/text/src/anchor.rs] and their resolution in [crates/text/src/text.rs])

    An anchor names a byte of inserted text, and which side of the place in front of it it
    keeps to.  Offsets of anchors are [u32], here integers in that range; the order of
    [Bias] is the derived one, [Left] first. *)

From S2P Require Import Prelude.
From S2P Require Import Clock.
From S2P Require Import Locator.
From S2P Require Import UndoMap.
From S2P Require Import SumTree.
From S2P Require Import SumCursor.
From S2P Require Import KeyedTree.
From S2P Require Import Text.
From S2P Require Import Chunk.
From S2P Require Import Rope.
From S2P Require Import Fragments.
From S2P Require Import LocalEdit.
Local Open Scope nat_scope.

Record Anchor := mkAnchor {
  timestamp : Stamp;
  offset : Z;
  anchor_bias : Bias;
  buffer_id : Z;
}.
Definition STAMP_MAX : Stamp := mkStamp Lamport.MAX eq_refl.
Definition min_for_buffer (buffer_id : Z) : Anchor := mkAnchor STAMP_MIN 0 Left buffer_id.
Definition max_for_buffer (buffer_id : Z) : Anchor := mkAnchor STAMP_MAX U32_MAX Right buffer_id.
Definition min_min_range_for_buffer (buffer_id : Z) : Anchor * Anchor := (min_for_buffer buffer_id, min_for_buffer buffer_id).
Definition max_max_range_for_buffer (buffer_id : Z) : Anchor * Anchor := (max_for_buffer buffer_id, max_for_buffer buffer_id).
Definition min_max_range_for_buffer (buffer_id : Z) : Anchor * Anchor := (min_for_buffer buffer_id, max_for_buffer buffer_id).

#[export] Instance bias_eq_dec : EqDecision Bias.
Proof. solve_decision. Defined.
Definition is_min (self : Anchor) : bool :=
  bool_decide (timestamp self = STAMP_MIN) && (offset self =? 0)%Z && bool_decide (anchor_bias self = Left).
Definition is_max (self : Anchor) : bool :=
  bool_decide (timestamp self = STAMP_MAX) && (offset self =? U32_MAX)%Z && bool_decide (anchor_bias self = Right).

(** ** Resolution in a snapshot

    Assertions of debug builds depend on how the program is built. *)
Section Resolution.
Context (debug_assertions : bool) (self : BufferSnapshot).
Definition debug_assert (b : bool) : res unit := if debug_assertions then assert b else Ret tt.

Definition try_find_fragment (anchor : Anchor) : res (option InsertionFragment) :=
  let anchor_key := mkInsertionKey (timestamp anchor) (Z.to_nat (offset anchor)) in
  r ← find_with_prev (D:=InsertionFragmentKey) anchor_key (anchor_bias anchor) (insertions self);
  match r with
  | (_, _, Some (prev, insertion)) =>
      let comparison := ord_cmp (insertion_key insertion) anchor_key in
      if is_gt comparison || (bool_decide (anchor_bias anchor = Left) && is_eq comparison && (0 <? offset anchor)%Z)
      then Ret prev else Ret (Some insertion)
  | _ => last_item (insertions self)
  end.

(** The fragment with an id, and the visible text in front of it. *)
Definition find_fragment (id : list Z) : nat * option Fragment :=
  let '(start, _, item) := find (D:=Dimensions (option (list Z)) nat unit) (Some id) Left (fragments self) in
  (dim2 start, item).

Definition offset_for_anchor (anchor : Anchor) : res nat :=
  if is_min anchor then Ret 0
  else if is_max anchor then Ret (rope_len (visible_text self))
  else
    _ ← debug_assert (buffer_id anchor =? remote_id self)%Z;
    _ ← debug_assert (Global.observed (version self) (lamport (timestamp anchor)));
    item ← try_find_fragment anchor;
    insertion ← unwrap item;
    if negb (bool_decide (key_timestamp (insertion_key insertion) = timestamp anchor)) then Panic
    else
      let '(fragment_offset, item) := find_fragment (fragment_id insertion) in
      fragment ← unwrap item;
      if visible fragment then
        within ← minus (Z.to_nat (offset anchor)) (split_offset (insertion_key insertion));
        Ret (fragment_offset + within)
      else Ret fragment_offset.

Definition try_fragment_id_for_anchor (anchor : Anchor) : res (option (list Z)) :=
  if is_min anchor then Ret (Some Locator.min)
  else if is_max anchor then Ret (Some Locator.max)
  else
    item ← try_find_fragment anchor;
    Ret match item with
        | Some insertion =>
            if negb debug_assertions || bool_decide (key_timestamp (insertion_key insertion) = timestamp anchor)
            then Some (fragment_id insertion) else None
        | None => None
        end.
Definition fragment_id_for_anchor (anchor : Anchor) : res (list Z) :=
  id ← try_fragment_id_for_anchor anchor; unwrap id.

Definition anchor_at_offset (offset : nat) (bias : Bias) : res Anchor :=
  let len := rope_len (visible_text self) in
  if bool_decide (bias = Left) && (offset =? 0) then Ret (min_for_buffer (remote_id self))
  else if bool_decide (bias = Right) && ((negb debug_assertions && (len <=? offset)) || (offset =? len))
  then Ret (max_for_buffer (remote_id self))
  else
    at_boundary ← @rope_assert_char_boundary debug_assertions debug_assertions (visible_text self) offset;
    let offset := if at_boundary : bool then offset
                  else match bias with
                       | Left => rope_floor_char_boundary (visible_text self) offset
                       | Right => rope_ceil_char_boundary (visible_text self) offset
                       end in
    let '(start, _, item) := find (D:=nat) offset bias (fragments self) in
    match item with
    | Some fragment =>
        overshoot ← minus offset start;
        Ret (mkAnchor (frag_timestamp fragment) (Z.of_nat (insertion_offset fragment + overshoot)) bias (remote_id self))
    | None => if debug_assertions then Panic else Ret (max_for_buffer (remote_id self))
    end.

(** [<usize as ToOffset>::to_offset]. *)
Definition to_offset (offset : nat) : res nat :=
  at_boundary ← @rope_assert_char_boundary debug_assertions debug_assertions (visible_text self) offset;
  Ret (if at_boundary : bool then offset else rope_floor_char_boundary (visible_text self) offset).
Definition anchor_at (position : nat) (bias : Bias) : res Anchor := offset ← to_offset position; anchor_at_offset offset bias.
Definition anchor_before (position : nat) : res Anchor := anchor_at position Left.
Definition anchor_after (position : nat) : res Anchor := anchor_at position Right.
Definition anchor_range_inside (start end_ : nat) : res (Anchor * Anchor) :=
  a ← anchor_after start; b ← anchor_before end_; Ret (a, b).
Definition anchor_range_outside (start end_ : nat) : res (Anchor * Anchor) :=
  a ← anchor_before start; b ← anchor_after end_; Ret (a, b).

Definition can_resolve (anchor : Anchor) : bool :=
  (remote_id self =? buffer_id anchor)%Z
  && (is_min anchor || is_max anchor || Global.observed (version self) (lamport (timestamp anchor))).
Definition is_valid (anchor : Anchor) : res bool :=
  if negb (buffer_id anchor =? remote_id self)%Z then Ret false
  else if is_min anchor || is_max anchor then Ret true
  else
    id ← try_fragment_id_for_anchor anchor;
    Ret match id with
        | None => false
        | Some id => match snd (find_fragment id) with Some fragment => visible fragment | None => false end
        end.

(** An anchor is a position as well. *)
Definition bias_left (anchor : Anchor) : res Anchor :=
  match anchor_bias anchor with
  | Left => Ret anchor
  | Right => offset ← offset_for_anchor anchor; anchor_at_offset offset Left
  end.
Definition bias_right (anchor : Anchor) : res Anchor :=
  match anchor_bias anchor with
  | Left => offset ← offset_for_anchor anchor; anchor_at_offset offset Right
  | Right => Ret anchor
  end.
Definition bias_to (anchor : Anchor) (bias : Bias) : res Anchor :=
  match bias with Left => bias_left anchor | Right => bias_right anchor end.

(** ** Order *)
Definition bias_cmp (a b : Bias) : comparison :=
  match a, b with Left, Right => Lt | Right, Left => Gt | _, _ => Eq end.
Definition anchor_cmp (a b : Anchor) : res comparison :=
  ids ← (if bool_decide (timestamp a = timestamp b) then Ret Eq
         else
           id ← fragment_id_for_anchor a;
           other ← fragment_id_for_anchor b;
           Ret (lex_compare id other));
  Ret (then_with (then_with ids (Z.compare (offset a) (offset b))) (bias_cmp (anchor_bias a) (anchor_bias b))).
Definition anchor_min (a b : Anchor) : res Anchor := c ← anchor_cmp a b; Ret match c with Gt => b | _ => a end.
Definition anchor_max (a b : Anchor) : res Anchor := c ← anchor_cmp a b; Ret match c with Lt => b | _ => a end.

Definition range_cmp (a b : Anchor * Anchor) : res comparison :=
  c ← anchor_cmp (fst a) (fst b);
  match c with Eq => anchor_cmp (snd b) (snd a) | c => Ret c end.
Definition overlaps (a b : Anchor * Anchor) : res bool :=
  c ← anchor_cmp (fst a) (snd b);
  if is_lt c then c ← anchor_cmp (fst b) (snd a); Ret (is_lt c) else Ret false.
Definition contains_anchor (a : Anchor * Anchor) (b : Anchor) : res bool :=
  c ← anchor_cmp (fst a) b;
  if negb (is_gt c) then c ← anchor_cmp (snd a) b; Ret (negb (is_lt c)) else Ret false.
End Resolution.

(** ** Many anchors at once

    One pass over the fragments and the text, so that the anchors must be in order. *)
Section Summaries.
Context {D : Type} `{!Dimension D ChunkSummary} `{!TextDimension D}.
Definition AnchorCursor : Type := cursor Fragment FragmentSummary (Dimensions (option (list Z)) nat unit).

Definition summary_step (self : BufferSnapshot) (fragment_cursor : AnchorCursor) (text_cursor : Cursor) (position : D) (anchor : Anchor)
    : res (D * AnchorCursor * Cursor * D) :=
  if is_min anchor then Ret (dim_zero, fragment_cursor, text_cursor, position)
  else if is_max anchor then Ret (from_text_summary (rope_summary (visible_text self)), fragment_cursor, text_cursor, position)
  else
    item ← try_find_fragment self anchor;
    insertion ← unwrap item;
    _ ← assert (bool_decide (key_timestamp (insertion_key insertion) = timestamp anchor));
    r ← seek_forward fragment_cursor (Some (fragment_id insertion)) Left;
    let fragment_cursor := snd r in
    item ← SumCursor.item fragment_cursor;
    fragment ← unwrap item;
    within ← (if visible fragment then minus (Z.to_nat (offset anchor)) (split_offset (insertion_key insertion)) else Ret 0);
    r ← cursor_summary (D:=D) text_cursor (dim2 (start fragment_cursor) + within);
    let '(text, text_cursor) := r in
    let position := add_assign position text in
    Ret (position, fragment_cursor, text_cursor, position).
Fixpoint summaries_loop (self : BufferSnapshot) (fragment_cursor : AnchorCursor) (text_cursor : Cursor) (position : D) (anchors : list Anchor)
    : res (list D) :=
  match anchors with
  | [] => Ret []
  | anchor :: anchors =>
      r ← summary_step self fragment_cursor text_cursor position anchor;
      let '(summary, fragment_cursor, text_cursor, position) := r in
      rest ← summaries_loop self fragment_cursor text_cursor position anchors;
      Ret (summary :: rest)
  end.
Definition summaries_for_anchors (self : BufferSnapshot) (anchors : list Anchor) : res (list D) :=
  text_cursor ← rope_cursor (visible_text self) 0;
  summaries_loop self (cursor_new (fragments self)) text_cursor dim_zero anchors.

Definition summary_for_anchor (debug_assertions : bool) (self : BufferSnapshot) (anchor : Anchor) : res D :=
  offset ← offset_for_anchor debug_assertions self anchor;
  start ← to_offset debug_assertions self 0;
  end_ ← to_offset debug_assertions self offset;
  c ← rope_cursor (visible_text self) start;
  r ← cursor_summary (D:=D) c end_; Ret (fst r).
End Summaries.
