(* ===== verification/AnchorSpec.v ===== *)
(** * Where anchors resolve

    An anchor denotes a byte by its name, and resolves to the visible text in front of that
    byte (or after it, when it keeps to the left). *)

From S2P Require Import Prelude.
From S2P Require Import Clock.
From S2P Require Import Locator.
From S2P Require Import UndoMap.
From S2P Require Import UndoMapSpec.
From S2P Require Import SumTree.
From S2P Require Import SumTreeInvariant.
From S2P Require Import SumTreeFind.
From S2P Require Import SumCursor.
From S2P Require Import SumCursorSeek.
From S2P Require Import KeyedTree.
From S2P Require Import KeyedTreeSpec.
From S2P Require Import Text.
From S2P Require Import TextSpec.
From S2P Require Import Utf8.
From S2P Require Import Chunk.
From S2P Require Import ChunkPositions.
From S2P Require Import Rope.
From S2P Require Import RopeSpec.
From S2P Require Import RopeCursorSpec.
From S2P Require Import RopePositionsSpec.
From S2P Require Import Fragments.
From S2P Require Import FragmentsSpec.
From S2P Require Import LocalEdit.
From S2P Require Import EditBooks.
From S2P Require Import EditWalk.
From S2P Require Import EditSpec.
From S2P Require Import Anchors.
Local Open Scope nat_scope.

Implicit Types (p q r : Fragment * str) (ps qs pre post out rest : list (Fragment * str)).

(** ** Bytes by name *)

(** The bytes with whether they are visible, and how many visible ones are in front of a
    byte. *)
Definition marks ps : list (Stamp * nat * bool) :=
  flat_map (fun p => map (fun c => (fst c, visible (fst p))) (chars p)) ps.
Fixpoint before_byte (n : Stamp * nat) (l : list (Stamp * nat * bool)) : nat :=
  match l with
  | [] => 0
  | (m, v) :: l => if decide (m = n) then 0 else (if v : bool then 1 else 0) + before_byte n l
  end.
Definition shows (n : Stamp * nat) ps : Prop := n ∈ map fst (shown ps).
#[export] Instance shows_dec n ps : Decision (shows n ps).
Proof. unfold shows. apply _. Defined.

Lemma byte_marks_app ps qs : marks (ps ++ qs) = marks ps ++ marks qs.
Proof. apply flat_map_app. Qed.
Lemma marks_one p : marks [p] = map (fun c => (fst c, visible (fst p))) (chars p).
Proof. apply app_nil_r. Qed.
Lemma marks_names ps : map fst (marks ps) = names ps.
Proof.
  induction ps as [|p ps IH]; [done|]. change (p :: ps) with ([p] ++ ps). rewrite byte_marks_app, names_app, map_app, IH, marks_one. f_equal.
  unfold names. rewrite all_chars_one, map_map. done.
Qed.
Lemma before_byte_app n l l' : n ∉ map fst l ->
  before_byte n (l ++ l') = length (List.filter snd l) + before_byte n l'.
Proof.
  induction l as [|[m v] l IH]; [done|]. cbn. intros [H1 H2]%not_elem_of_cons. rewrite decide_False by done.
  rewrite IH by done. by destruct v.
Qed.
Lemma marks_visible ps : length (List.filter snd (marks ps)) = length (shown ps).
Proof.
  induction ps as [|p ps IH]; [done|]. change (p :: ps) with ([p] ++ ps). rewrite byte_marks_app, shown_app, List.filter_app, !length_app, IH. f_equal.
  rewrite marks_one, shown_one. induction (chars p) as [|c cs IHc]; [by destruct (visible (fst p))|]. cbn.
  destruct (visible (fst p)); cbn; by rewrite IHc.
Qed.

Lemma stamped_lookup ts o s i : i < length s -> fst <$> stamped ts o s !! i = Some (ts, o + i).
Proof. intros Hi. unfold stamped. rewrite list_lookup_imap. destruct (s !! i) eqn:E; [done|]. apply lookup_ge_None in E. lia. Qed.
Lemma name_in_part n p : n ∈ names [p] <-> exists k, k < length (snd p) /\ n = (frag_timestamp (fst p), insertion_offset (fst p) + k).
Proof.
  unfold names. rewrite all_chars_one. unfold chars. split.
  - intros Hn. apply list_elem_of_fmap in Hn as (c & -> & Hc). unfold stamped in Hc. apply elem_of_lookup_imap in Hc as (i & x & -> & Hx).
    exists i. split; [by eapply lookup_lt_Some|done].
  - intros (k & Hk & ->). pose proof (stamped_lookup (frag_timestamp (fst p)) (insertion_offset (fst p)) (snd p) k Hk) as E.
    destruct (stamped _ _ _ !! k) as [c|] eqn:Ec; [|done]. injection E as <-. apply (list_elem_of_fmap_2 fst). by eapply list_elem_of_lookup_2.
Qed.

(** The part that has a byte. *)
Definition has_byte ps (n : Stamp * nat) pre p post (k : nat) : Prop :=
  ps = pre ++ p :: post /\ k < length (snd p) /\ n = (frag_timestamp (fst p), insertion_offset (fst p) + k).
Lemma name_has_byte ps n : n ∈ names ps -> exists pre p post k, has_byte ps n pre p post k.
Proof.
  induction ps as [|p ps IH]; [by intros ?%elem_of_nil|]. change (p :: ps) with ([p] ++ ps). rewrite names_app.
  intros [Hn|Hn]%elem_of_app.
  - apply name_in_part in Hn as (k & Hk & ->). by exists [], p, ps, k.
  - destruct (IH Hn) as (pre & q & post & k & -> & Hk & ->). by exists (p :: pre), q, post, k.
Qed.
Lemma before_byte_at ps n pre p post k : NoDup (names ps) -> has_byte ps n pre p post k ->
  before_byte n (marks ps) = length (shown pre) + if visible (fst p) then k else 0.
Proof.
  intros Hn (-> & Hk & En). change (p :: post) with ([p] ++ post) in *. rewrite !names_app in Hn.
  apply NoDup_app in Hn as (_ & Hpre & Hn). apply NoDup_app in Hn as (Hp & _ & _).
  assert (n ∈ names [p]) as Hin by (apply name_in_part; by exists k).
  rewrite !byte_marks_app, before_byte_app, marks_visible.
  2:{ rewrite marks_names. intros Hb. apply (Hpre _ Hb). set_solver. }
  f_equal. rewrite marks_one. rewrite <-(take_drop k (chars p)), map_app, <-app_assoc.
  unfold names in Hp. rewrite all_chars_one, <-(take_drop k (chars p)), map_app in Hp. apply NoDup_app in Hp as (_ & Hp & _).
  assert (exists c (cs : list (Stamp * nat * Z)), drop k (chars p) = c :: cs /\ fst c = n) as (c & cs & Ed & Ec).
  { pose proof (stamped_lookup (frag_timestamp (fst p)) (insertion_offset (fst p)) (snd p) k Hk) as E. fold (chars p) in E.
    destruct (chars p !! k) as [c|] eqn:Ec; [|done]. injection E as E. exists c, (drop (S k) (chars p)).
    split; [by apply drop_S|]. by rewrite E, En. }
  rewrite before_byte_app.
  - rewrite Ed. cbn [map app before_byte]. rewrite Ec, decide_True, Nat.add_0_r by done.
    assert (forall l : list (Stamp * nat * Z), length (List.filter snd (map (fun c => (fst c, visible (fst p))) l)) = if visible (fst p) then length l else 0) as ->.
    { induction l as [|c0 l IH]; [by destruct (visible (fst p))|]. cbn. destruct (visible (fst p)); cbn; by rewrite ?IH. }
    destruct (visible (fst p)); [|done]. rewrite length_take, length_chars. lia.
  - rewrite map_map. cbn [fst]. intros Hb. apply (Hp _ Hb). rewrite Ed. cbn. rewrite Ec. by left.
Qed.
(** A visible byte is shown where it stands. *)
Lemma shown_at ps n pre p post k : has_byte ps n pre p post k -> visible (fst p) = true ->
  fst <$> shown ps !! (length (shown pre) + k) = Some n.
Proof.
  intros (-> & Hk & ->) Hv. change (p :: post) with ([p] ++ post). rewrite !shown_app, shown_one, Hv.
  rewrite lookup_app_r by lia. rewrite Nat.add_comm, Nat.add_sub.
  rewrite lookup_app_l by (by rewrite length_chars). by apply stamped_lookup.
Qed.

(** *** The order of bytes *)
Lemma shown_marks ps : map fst (shown ps) = map fst (List.filter snd (marks ps)).
Proof.
  induction ps as [|p ps IH]; [done|]. change (p :: ps) with ([p] ++ ps). rewrite byte_marks_app, shown_app, List.filter_app, !map_app, IH. f_equal.
  rewrite marks_one, shown_one. induction (chars p) as [|c cs IHc]; [by destruct (visible (fst p))|]. cbn.
  destruct (visible (fst p)); cbn; by rewrite <-?IHc.
Qed.
Lemma filter_marks_sublist (l : list (Stamp * nat * bool)) : map fst (List.filter snd l) `sublist_of` map fst l.
Proof. apply (fmap_sublist fst), filter_sublist. Qed.
Lemma shown_names ps : map fst (shown ps) `sublist_of` names ps.
Proof. rewrite shown_marks, <-marks_names. apply filter_marks_sublist. Qed.
Lemma shows_names n ps : shows n ps -> n ∈ names ps.
Proof. intros Hn. eapply elem_of_sublist; [exact Hn|apply shown_names]. Qed.

(** One byte is in front of another. *)
Definition precedes (m n : Stamp * nat) (l : list (Stamp * nat)) : Prop := [m; n] `sublist_of` l.

Lemma precedes_split m n l1 l2 : NoDup (l1 ++ n :: l2) -> precedes m n (l1 ++ n :: l2) <-> m ∈ l1.
Proof.
  intros Hn. split.
  - intros H. apply sublist_app_r in H as (k1 & k2 & E & H1 & H2). apply NoDup_app in Hn as (Hn1 & Hn & Hn2).
    destruct k1 as [|x [|y k1]]; cbn in E; simplify_eq/=.
    + apply sublist_cons_r in H2 as [H2|(k & E & H2)]; simplify_eq/=.
      * apply NoDup_cons in Hn2 as [Hn2 _]. destruct Hn2. eapply elem_of_sublist; [|exact H2]. right. by left.
      * apply NoDup_cons in Hn2 as [Hn2 _]. destruct Hn2. eapply elem_of_sublist; [|exact H2]. by left.
    + eapply elem_of_sublist; [|exact H1]. by left.
    + eapply elem_of_sublist; [|exact H1]. by left.
  - intros (k1 & k2 & ->)%list_elem_of_split. unfold precedes. change [m; n] with ([m] ++ [n]). apply sublist_app.
    + apply sublist_inserts_l, sublist_skip, sublist_nil_l.
    + apply sublist_skip, sublist_nil_l.
Qed.
Lemma precedes_total m n l : m ∈ l -> n ∈ l -> m = n \/ precedes m n l \/ precedes n m l.
Proof.
  intros Hm (l1 & l2 & ->)%list_elem_of_split. apply elem_of_app in Hm as [Hm|[Hm|Hm]%elem_of_cons].
  - right. left. apply list_elem_of_split in Hm as (k1 & k2 & ->). change [m; n] with ([m] ++ [n]). unfold precedes.
    change [m; n] with ([m] ++ [n]). apply sublist_app; [apply sublist_inserts_l|]; apply sublist_skip, sublist_nil_l.
  - by left.
  - right. right. unfold precedes. apply sublist_inserts_l. apply sublist_skip. by apply singleton_sublist_l.
Qed.
Lemma precedes_asym m n l : NoDup l -> precedes m n l -> ~ precedes n m l.
Proof.
  intros Hn Hmn Hnm. assert (n ∈ l) as (l1 & l2 & ->)%list_elem_of_split by (eapply elem_of_sublist; [|exact Hmn]; right; by left).
  apply precedes_split in Hmn; [|done]. apply list_elem_of_split in Hmn as (k1 & k2 & ->).
  rewrite <-app_assoc in Hnm, Hn. cbn in Hnm, Hn. apply precedes_split in Hnm; [|done].
  apply NoDup_app in Hn as (_ & Hn & _). apply (Hn n Hnm). right. apply elem_of_app. right. by left.
Qed.
(** It stays so when bytes are added. *)
Lemma precedes_grow m n l l' : l `sublist_of` l' -> NoDup l' -> m ∈ l -> n ∈ l -> precedes m n l' <-> precedes m n l.
Proof.
  intros Hl Hn Hm Hnl. split.
  - intros H. destruct (precedes_total m n l Hm Hnl) as [->|[?|H']]; [|done|].
    + exfalso. by apply (precedes_asym n n l').
    + exfalso. apply (precedes_asym m n l' Hn H). unfold precedes in *. by etrans.
  - intros H. unfold precedes in *. by etrans.
Qed.

(** What is visible in front of a byte. *)
Lemma place_names ps m n : NoDup (names ps) -> n ∈ names ps ->
  m ∈ map fst (take (before_byte n (marks ps)) (shown ps)) <-> shows m ps /\ precedes m n (names ps).
Proof.
  intros Hnd Hn. rewrite <-marks_names in Hn, Hnd. apply list_elem_of_fmap in Hn as ([n' v] & E & Hn). cbn in E. subst n'.
  apply list_elem_of_split in Hn as (l1 & l2 & E). pose proof (shown_marks ps) as Es. unfold shows. rewrite <-marks_names, <-firstn_map, Es, E in *.
  clear E Es. rewrite map_app in Hnd. cbn [map fst] in Hnd. pose proof Hnd as (_ & Hd & _)%NoDup_app.
  rewrite before_byte_app by (intros Hin; apply (Hd _ Hin); by left). cbn [before_byte]. rewrite decide_True, Nat.add_0_r by done.
  rewrite List.filter_app, map_app. rewrite take_app_length' by (by rewrite length_map).
  rewrite map_app. cbn [map fst]. rewrite precedes_split by done. split.
  - intros Hm. split; [apply elem_of_app; by left|]. eapply elem_of_sublist; [exact Hm|]. apply filter_marks_sublist.
  - intros [[Hm|Hm]%elem_of_app Hl]; [done|]. exfalso. apply (Hd _ Hl). change (n :: map fst l2) with (map fst ((n, v) :: l2)).
    eapply elem_of_sublist; [exact Hm|]. apply filter_marks_sublist.
Qed.

(** ** The fragment with an id *)
Abbreviation IdDimension := (Dimensions (option (list Z)) nat unit) (only parsing).
#[export] Instance locator_dimension_sum : DimensionSum (option (list Z)) FragmentSummary.
Proof. intros d a b. unfold dim_add, locator_dimension, add_summary, fragment_summary, fragment_summary_add. cbn [max_id]. by rewrite Locator.assign_eq. Qed.

Lemma advance_id (d : Dimensions (option (list Z)) nat unit) ps :
  advance d (map fst ps) = Dims (match last ps with Some p => Some (part_id p) | None => dim1 d end) (advance (dim2 d) (map fst ps)) tt.
Proof.
  induction ps as [|p ps IH] using rev_ind; [by destruct d as [? ? []]|].
  rewrite map_app. cbn [map]. rewrite !advance_snoc, IH, last_snoc. done.
Qed.
Lemma advance_visible ps : Forall part_ok ps -> advance (D:=nat) 0 (map fst ps) = length (shown ps).
Proof.
  induction ps as [|p ps IH] using rev_ind; [done|]. intros [Hps Hp]%Forall_app. apply Forall_cons in Hp as [Hp _].
  rewrite map_app. cbn [map]. rewrite advance_snoc, IH, shown_snoc by done. unfold dim_add, visible_dimension, visible_len. cbn.
  rewrite (part_len _ Hp). by destruct (visible (fst p)).
Qed.

Section Find.
Context (id : list Z).
Lemma ids_stop (d : Dimensions (option (list Z)) nat unit) pre p post :
  Forall (fun q => lex_lt (part_id q) id) pre -> part_id p = id ->
  before (Some id) Left d (map fst (pre ++ p :: post)) = map fst pre.
Proof.
  intros Hpre Hid. revert d. induction Hpre as [|q pre Hq _ IH]; intros d; cbn [app map before]; unfold target_in, target_cmp, dimensions_target;
    cbn [dim1 dim_add dimensions_dimension]; unfold target_cmp, ord_target, ord_cmp, locator_ord; cbn [dim_add locator_dimension summary fragment_item max_id].
  - change (frag_id (fst p)) with (part_id p). by rewrite Hid, lex_compare_refl.
  - change (frag_id (fst q)) with (part_id q). apply lex_gt in Hq. rewrite Hq. f_equal. apply IH.
Qed.
Lemma ids_ordered ps : StronglySorted lex_lt (map part_id ps) -> ordered (Some id) (dim_zero (D:=Dimensions (option (list Z)) nat unit)) (map fst ps).
Proof.
  intros Hs l1 l2 l3 E Hne. rewrite app_assoc in E. apply map_fst_split in E as (a & q3 & -> & E & _).
  symmetry in E. apply map_fst_split in E as (a1 & a2 & -> & -> & ->).
  destruct a1 as [|p a1 _] using rev_ind; [done|]. rewrite <-map_app, !advance_id, last_snoc.
  unfold target_cmp, dimensions_target. cbn [dim1]. unfold target_cmp, ord_target, ord_cmp, locator_ord.
  destruct a2 as [|q a2 _] using rev_ind; [by rewrite app_nil_r, last_snoc|]. rewrite app_assoc, last_snoc.
  rewrite !map_app, <-!app_assoc in Hs. apply StronglySorted_app_1_r in Hs.
  assert (lex_lt (part_id p) (part_id q)) as Hlt.
  { apply StronglySorted_inv in Hs as [_ Hs]. rewrite !Forall_app in Hs. destruct Hs as (_ & [? _]%Forall_cons & _). done. }
  destruct (lex_compare id (part_id q)) eqn:Eq; cbn; try lia.
  - apply lex_compare_eq in Eq. subst. apply lex_gt in Hlt. rewrite Hlt. cbn. lia.
  - apply lex_gt in Eq. assert (lex_compare id (part_id p) = Gt) as -> by (apply lex_gt; by etrans). cbn. lia.
Qed.
End Find.

Section Snapshot.
Context (self : BufferSnapshot) (ps : list (Fragment * str)) (Hsp : spells self ps).

Lemma find_fragment_ok pre p post : ps = pre ++ p :: post -> find_fragment self (part_id p) = (length (shown pre), Some (fst p)).
Proof.
  intros Es. destruct Hsp as [Hw Hl _ _ Hp _ _ Ho _ _ _]. unfold find_fragment.
  assert (to_list (fragments self) <> []) as Hne by (rewrite Hl, Es; by destruct pre).
  rewrite (find_ok_measured (Some (part_id p)) Left _ _ (dim_add_total _ _ Hne) Hw) by (rewrite Hl; by apply ids_ordered).
  unfold found, landing. rewrite Hl, Es, ids_stop; [..|done].
  - rewrite map_app, drop_app_length. cbn [map]. rewrite advance_id. cbn [dim2].
    rewrite advance_visible; [done|]. rewrite Es in Hp. by apply Forall_app in Hp as [? _].
  - apply Forall_forall. intros q Hq. rewrite Es in Ho. by eapply order_above.
Qed.

(** ** The entry of a byte in the index of insertions *)
Lemma last_greatest (l : list InsertionFragment) x :
  sorted (Key:=InsertionFragmentKey) l -> In x l -> (forall y, In y l -> ord_cmp (key y) (key x) <> Gt) -> last l = Some x.
Proof.
  destruct l as [|z l _] using rev_ind; [done|]. intros Hs Hx Hmax. rewrite last_snoc.
  apply in_app_iff in Hx as [Hx|[->|[]]]; [|done]. exfalso. apply (Hmax z); [apply in_or_app; right; by left|].
  apply sorted_app in Hs as (_ & _ & Hs). specialize (Hs _ _ Hx (or_introl eq_refl)). by apply ord_gt.
Qed.
Lemma insertions_filter (f : InsertionFragment -> bool) l : sorted (Key:=InsertionFragmentKey) l -> sorted (Key:=InsertionFragmentKey) (List.filter f l).
Proof.
  induction l as [|x l IH]; [done|]. intros [Hx Hs]%sorted_cons. cbn. destruct (f x); [|by apply IH].
  apply sorted_cons. split; [|by apply IH]. apply Forall_forall. intros y Hy. apply list_elem_of_In, filter_In in Hy as [Hy _].
  eapply Forall_forall in Hx; [exact Hx|]. by apply list_elem_of_In.
Qed.

(** What comes before the place of an anchor: the last entry there is its fragment's. *)
Definition anchor_key (a : Anchor) : InsertionFragmentKey := mkInsertionKey (timestamp a) (Z.to_nat (offset a)).
Definition in_front (a : Anchor) (x : InsertionFragment) : bool := negb (stop_at (anchor_key a) (anchor_bias a) x).

Lemma in_front_spec a x : in_front a x =
  match ord_cmp (key x) (anchor_key a), anchor_bias a with Lt, _ | Eq, Right => true | _, _ => false end.
Proof.
  unfold in_front, stop_at, target_in, target_cmp, ord_target. rewrite (ord_opp (anchor_key a) (key x)).
  by destruct (ord_cmp (anchor_key a) (key x)), (anchor_bias a).
Qed.

Lemma try_find_fragment_ok a :
  (anchor_bias a = Right \/ (0 < offset a)%Z) ->
  try_find_fragment self a = Ret (last (List.filter (in_front a) (to_list (insertions self)))).
Proof.
  intros Hb. destruct (spells_insertions _ _ Hsp) as (Hw & Hs & _). unfold try_find_fragment. cbv zeta. fold (anchor_key a).
  destruct (scan_sorted (S:=InsertionFragmentKey) (anchor_key a) (anchor_bias a) dim_zero _ (key_monotone _) (above_zero _) Hs) as [E1 E2].
  rewrite (find_with_prev_ok _ _ _ _ Hw) by (apply sorted_ordered; [apply key_monotone|apply above_zero|done]).
  cbn [mbind res_bind]. unfold landing. fold (in_front a) in E1. rewrite E1.
  change (fun x => negb (stop_at (anchor_key a) (anchor_bias a) x)) with (in_front a). rewrite E1 in E2. rewrite E2.
  destruct (List.filter (stop_at _ _) _) as [|x l] eqn:El.
  - rewrite (last_item_ok _ _ Hw). do 2 f_equal.
    pose proof (before_prefix (anchor_key a) (anchor_bias a) dim_zero (to_list (insertions self))) as Ep.
    rewrite E1 in Ep. change (fun x => negb (stop_at (anchor_key a) (anchor_bias a) x)) with (in_front a) in Ep. rewrite E2, app_nil_r in Ep. done.
  - assert (stop_at (anchor_key a) (anchor_bias a) x = true) as Hx.
    { assert (In x (x :: l)) as Hin by by left. rewrite <-El in Hin. by apply filter_In in Hin as [_ ?]. }
    assert (in_front a x = false) as Hf by (unfold in_front; by rewrite Hx). rewrite in_front_spec in Hf.
    change (insertion_key x) with (key x). destruct (ord_cmp (key x) (anchor_key a)) eqn:Ec; cbn [is_gt is_eq orb andb]; [|done|done].
    destruct (anchor_bias a) eqn:Eb; [|done]. destruct Hb as [|Hb]; [done|]. rewrite bool_decide_eq_true_2 by done. cbn.
    apply Z.ltb_lt in Hb. by rewrite Hb.
Qed.

(** No byte is in two parts. *)
Lemma one_owner p q n : p ∈ ps -> q ∈ ps -> n ∈ names [p] -> n ∈ names [q] -> p = q.
Proof.
  intros Hp Hq Hnp Hnq. pose proof (spells_names _ _ Hsp) as Hn. apply list_elem_of_split in Hp as (pre & post & Es).
  rewrite Es in Hq, Hn. change (p :: post) with ([p] ++ post) in *. rewrite !names_app in Hn.
  apply NoDup_app in Hn as (_ & H1 & Hn). apply NoDup_app in Hn as (_ & H2 & _).
  assert (forall l, q ∈ l -> n ∈ names l) as Hin.
  { intros l Hl. apply list_elem_of_split in Hl as (l1 & l2 & ->). change (q :: l2) with ([q] ++ l2). rewrite !names_app. set_solver. }
  rewrite !elem_of_app, list_elem_of_singleton in Hq. destruct Hq as [Hq|[->|Hq]]; [|done|].
  - destruct (H1 n); [by apply Hin|]. rewrite elem_of_app. by left.
  - destruct (H2 n); [done|by apply Hin].
Qed.

(** An anchor keeps to a byte: the one behind it, or the one in front of it. *)
Definition anchored (a : Anchor) : Stamp * nat :=
  (timestamp a, match anchor_bias a with Right => Z.to_nat (offset a) | Left => Z.to_nat (offset a) - 1 end).
Definition keeps_to_byte (a : Anchor) : Prop :=
  is_min a = false /\ is_max a = false /\ (0 <= offset a)%Z /\ (anchor_bias a = Right \/ (0 < offset a)%Z) /\ anchored a ∈ names ps.

Lemma key_of_insertion p : key (insertion_new (fst p)) = mkInsertionKey (frag_timestamp (fst p)) (insertion_offset (fst p)).
Proof. done. Qed.
Lemma in_front_key a p : (anchor_bias a = Right \/ (0 < offset a)%Z) ->
  in_front a (insertion_new (fst p)) = true <->
  ord_cmp (frag_timestamp (fst p)) (timestamp a) = Lt
  \/ frag_timestamp (fst p) = timestamp a /\ insertion_offset (fst p) <= snd (anchored a).
Proof.
  intros Hb. rewrite in_front_spec, key_of_insertion. unfold anchored, ord_cmp at 1, insertion_key_ord, anchor_key. cbn [key_timestamp split_offset snd].
  destruct (ord_cmp (frag_timestamp (fst p)) (timestamp a)) eqn:Ec.
  - apply ord_eq in Ec. destruct (Nat.compare_spec (insertion_offset (fst p)) (Z.to_nat (offset a))), (anchor_bias a);
      (split; [intros H0; first [done|right; split; [done|lia]]|intros [H0|[_ H0]]; first [done|congruence|lia|destruct Hb as [?|Hb]; [done|lia]]]).
  - split; [by left|done].
  - split; [done|]. intros [?|[E _]]; [done|]. rewrite E, ord_refl in Ec. done.
Qed.

(** The entry of an anchor is that of the part that has its byte. *)
Lemma anchored_entry a pre p post k :
  keeps_to_byte a -> has_byte ps (anchored a) pre p post k -> try_find_fragment self a = Ret (Some (insertion_new (fst p))).
Proof.
  intros (_ & _ & _ & Hb & _) (Es & Hk & En). rewrite try_find_fragment_ok by done. f_equal.
  destruct (spells_insertions _ _ Hsp) as (_ & Hs & Hin).
  assert (p ∈ ps) as Hp by (rewrite Es; set_solver).
  assert (anchored a ∈ names [p]) as Hnp by (apply name_in_part; by exists k).
  pose proof (f_equal fst En) as Et. cbn in Et. pose proof (f_equal snd En) as Eo. cbn in Eo.
  apply last_greatest; [by apply insertions_filter| |].
  - apply filter_In. split; [apply Hin; by exists p|]. apply in_front_key; [done|]. right. split; [done|].
    change (snd (anchored a)) with (snd (anchored a)). unfold anchored in *. cbn [snd] in *. lia.
  - intros y [Hy Hf]%filter_In. apply Hin in Hy as (q & Hq & ->). apply (in_front_key a q Hb) in Hf.
    rewrite !key_of_insertion. unfold ord_cmp, insertion_key_ord. cbn [key_timestamp split_offset]. rewrite <-Et.
    destruct Hf as [->|[Eq Hle]]; [done|]. rewrite Eq, ord_refl. intros Hgt%Nat.compare_gt_iff.
    pose proof (spells_nonempty _ _ Hsp) as Hne. eapply Forall_forall in Hne; [|exact Hq].
    assert (p = q) as <-; [|lia]. apply (one_owner p q (timestamp a, insertion_offset (fst q))); [done..| |].
    + apply name_in_part. exists (insertion_offset (fst q) - insertion_offset (fst p)). split; [|rewrite Et; f_equal; lia].
      unfold anchored in Hle, Eo. cbn [snd] in *. lia.
    + apply name_in_part. exists 0. split; [by destruct (snd q); [|cbn; lia]|]. by rewrite Nat.add_0_r, Eq.
Qed.

(** The visible text in front of an anchor. *)
Definition anchor_place (a : Anchor) (ps : list (Fragment * str)) : nat :=
  before_byte (anchored a) (marks ps)
  + match anchor_bias a with Left => if decide (shows (anchored a) ps) then 1 else 0 | Right => 0 end.

Lemma shows_part n pre p post k : has_byte ps n pre p post k -> shows n ps <-> visible (fst p) = true.
Proof.
  intros Hb. split.
  - intros Hs. destruct (visible (fst p)) eqn:Ev; [done|]. exfalso. destruct Hb as (Es & Hk & En).
    assert (n ∈ names [p]) as Hp by (apply name_in_part; by exists k).
    unfold shows, shown in Hs. rewrite list_elem_of_fmap in Hs. destruct Hs as (c & -> & Hc). apply list_elem_of_In, in_flat_map in Hc as (q & Hq & Hc).
    apply list_elem_of_In in Hq. destruct (visible (fst q)) eqn:Evq; [|done]. apply list_elem_of_In in Hc.
    assert (p = q) as ->; [|congruence]. apply (one_owner p q (fst c)); [rewrite Es; set_solver|done|done|].
    unfold names. rewrite all_chars_one. by apply (list_elem_of_fmap_2 fst).
  - intros Hv. pose proof (shown_at _ _ _ _ _ _ Hb Hv) as Hl. unfold shows. apply list_elem_of_lookup. exists (length (shown pre) + k).
    by rewrite list_lookup_fmap.
Qed.

Context (debug_assertions : bool).
Definition heard (a : Anchor) : Prop :=
  debug_assertions = true -> buffer_id a = remote_id self /\ Global.observed (version self) (lamport (timestamp a)) = true.

Lemma offset_for_anchor_ok a : keeps_to_byte a -> heard a -> offset_for_anchor debug_assertions self a = Ret (anchor_place a ps).
Proof.
  intros Hk Hh. pose proof Hk as (H1 & H2 & H3 & H4 & Hn). unfold offset_for_anchor. rewrite H1, H2.
  assert (debug_assert debug_assertions (buffer_id a =? remote_id self)%Z = Ret tt) as ->.
  { unfold debug_assert. unfold heard in Hh. destruct debug_assertions; [|done]. by rewrite (proj1 (Hh eq_refl)), Z.eqb_refl. }
  assert (debug_assert debug_assertions (Global.observed (version self) (lamport (timestamp a))) = Ret tt) as ->.
  { unfold debug_assert. unfold heard in Hh. destruct debug_assertions; [|done]. by rewrite (proj2 (Hh eq_refl)). }
  cbn [mbind res_bind]. destruct (name_has_byte _ _ Hn) as (pre & p & post & k & Hb).
  rewrite (anchored_entry a pre p post k Hk Hb). cbn [mbind res_bind unwrap].
  pose proof (shows_part _ _ _ _ _ Hb) as Hsh. pose proof (before_byte_at _ _ _ _ _ _ (spells_names _ _ Hsp) Hb) as Hbb.
  pose proof Hb as (Es & Hkl & En). pose proof (f_equal fst En) as Et. pose proof (f_equal snd En) as Eo. cbn [anchored fst snd] in Et, Eo.
  change (insertion_key (insertion_new (fst p))) with (key (insertion_new (fst p))). rewrite key_of_insertion. cbn [key_timestamp split_offset].
  rewrite bool_decide_eq_true_2 by done. cbn [negb]. change (fragment_id (insertion_new (fst p))) with (part_id p).
  rewrite (find_fragment_ok pre p post Es). cbn [unwrap mbind res_bind]. unfold anchor_place. rewrite Hbb.
  destruct (visible (fst p)) eqn:Ev.
  - rewrite decide_True by by apply Hsh. unfold minus. destruct (Nat.leb_spec (insertion_offset (fst p)) (Z.to_nat (offset a))); cbn [mbind res_bind].
    + f_equal. destruct (anchor_bias a); [destruct H4 as [?|H4]; [done|]; lia|lia].
    + destruct (anchor_bias a); lia.
  - rewrite decide_False by (intros ?%Hsh; done). f_equal. destruct (anchor_bias a); lia.
Qed.

(** ** The byte at an offset *)
Definition within (bias : Bias) (o : nat) : Prop :=
  match bias with Left => 0 < o <= length (shown ps) | Right => o < length (shown ps) end.
#[export] Instance within_dec bias o : Decision (within bias o).
Proof. unfold within. destruct bias; apply _. Defined.
Lemma advance_shown qs : Forall part_ok qs -> advance (D:=nat) dim_zero (map fst qs) = length (shown qs).
Proof. apply advance_visible. Qed.
Lemma find_visible o bias : within bias o ->
  exists pre p post e, ps = pre ++ p :: post /\ find (D:=nat) o bias (fragments self) = (length (shown pre), e, Some (fst p))
    /\ match bias with
       | Left => length (shown pre) < o <= length (shown pre) + visible_len p
       | Right => length (shown pre) <= o < length (shown pre) + visible_len p
       end.
Proof.
  intros Ho. destruct Hsp as [Hw Hl _ _ Hp _ _ _ _ _ _].
  rewrite (find_ok o bias _ _ Hw).
  2:{ rewrite Hl. intros l1 l2 l3 E _. rewrite app_assoc in E. apply map_fst_split in E as (a & q3 & Ea & E & _).
      symmetry in E. apply map_fst_split in E as (q1 & q2 & -> & -> & ->). rewrite Ea in Hp.
      apply Forall_app in Hp as [Hq _]. pose proof Hq as [Hq1 _]%Forall_app. rewrite <-map_app, !advance_shown by done.
      unfold target_cmp, offset_target, shown. rewrite flat_map_app, length_app. fold (shown q1) (shown q2).
      destruct (Nat.compare_spec o (length (shown q1) + length (shown q2))), (Nat.compare_spec o (length (shown q1))); cbn; lia. }
  pose proof (before_stops (D:=nat) o bias dim_zero (map fst ps)) as [B1 B2]. unfold found, landing. rewrite Hl.
  set (b := before _ _ _ _) in *.
  destruct (map_fst_split ps b (drop (length b) (map fst ps)) (before_prefix _ _ _ _)) as (pre & post & Es & Eb & Ed).
  clearbody b. subst b. rewrite Ed in *. rewrite Es in Hp. apply Forall_app in Hp as [Hp1 Hp2].
  rewrite advance_shown in * by done. destruct post as [|p post].
  - exfalso. rewrite app_nil_r in Es. subst pre. unfold within in Ho. destruct ps as [|q0 qs0]; [destruct bias; cbn in Ho; lia|].
    specialize (B1 ltac:(done)). unfold target_in, target_cmp, offset_target in B1.
    destruct (Nat.compare_spec o (length (shown (q0 :: qs0)))), bias; done || lia.
  - cbn [map] in B2. change [fst p] with (map fst [p]) in B2. apply Forall_cons in Hp2 as [Hp2 _].
    rewrite <-map_app, advance_shown in B2 by (by rewrite Forall_app, Forall_singleton). rewrite shown_snoc in B2.
    exists pre, p, post. cbn [map]. eexists. split; [done|]. split; [reflexivity|].
    assert (pre <> [] -> target_in o bias (length (shown pre)) = false) as B3 by (intros Hne; apply B1; by destruct pre).
    unfold target_in, target_cmp, offset_target in B2, B3. unfold within in Ho. destruct pre as [|q0 pre].
    + cbn [shown flat_map length] in *. destruct (Nat.compare_spec o (0 + visible_len p)), bias; try done; try lia.
    + specialize (B3 ltac:(done)). destruct (Nat.compare_spec o (length (shown (q0 :: pre)) + visible_len p)),
        (Nat.compare_spec o (length (shown (q0 :: pre)))), bias; try done; lia.
Qed.

(** The name of the byte an anchor at an offset keeps to. *)
Definition byte_of (bias : Bias) (o : nat) : option (Stamp * nat) :=
  match bias, o with Left, S i | Right, i => fst <$> shown ps !! i | Left, O => None end.
(** The stamps of the fragments have been heard of, and none is the greatest one. *)
Definition stamps_known : Prop :=
  Forall (fun p => frag_timestamp (fst p) <> STAMP_MAX /\ Global.observed (version self) (lamport (frag_timestamp (fst p))) = true) ps.

Lemma anchor_at_offset_ok o bias : boundary (bytes (shown ps)) o -> within bias o -> stamps_known ->
  exists a, anchor_at_offset debug_assertions self o bias = Ret a /\ anchor_bias a = bias
    /\ byte_of bias o = Some (anchored a) /\ keeps_to_byte a /\ heard a /\ buffer_id a = remote_id self.
Proof.
  intros Hb Ho Hst. unfold anchor_at_offset. destruct (spells_visible _ _ Hsp) as (ts & Hr & Et).
  assert (rope_len (visible_text self) = length (shown ps)) as -> by (by rewrite (rope_len_of _ _ Hr), Et, length_bytes).
  replace (bool_decide (bias = Left) && (o =? 0)) with false.
  2:{ destruct bias; [|done]. unfold within in Ho. rewrite bool_decide_eq_true_2 by done. cbn. destruct (Nat.eqb_spec o 0); [lia|done]. }
  replace (bool_decide (bias = Right) && _) with false.
  2:{ destruct bias; [done|]. unfold within in Ho. rewrite bool_decide_eq_true_2 by done. cbn.
      destruct (Nat.leb_spec (length (shown ps)) o), (Nat.eqb_spec o (length (shown ps))); [lia..|]. by rewrite andb_false_r. }
  rewrite (assert_char_boundary_ok _ _ Hr debug_assertions), Et, Hb. cbn [mbind res_bind].
  destruct (find_visible o bias Ho) as (pre & p & post & e & Es & -> & Hpos). unfold minus.
  destruct (Nat.leb_spec (length (shown pre)) o); [|destruct bias; lia]. cbn [mbind res_bind]. eexists. split; [done|]. split; [done|].
  assert (visible (fst p) = true) as Hv by (unfold visible_len in Hpos; destruct (visible (fst p)); [done|destruct bias; lia]).
  unfold visible_len in Hpos. rewrite Hv in Hpos.
  set (a := mkAnchor _ _ _ _). set (k := match bias with Left => o - 1 | Right => o end - length (shown pre)).
  assert (anchor_bias a = bias) as Ea by done. assert (offset a = Z.of_nat (insertion_offset (fst p) + (o - length (shown pre)))) as Eo by done.
  assert (has_byte ps (anchored a) pre p post k) as Hbyte.
  { split; [done|]. unfold anchored. rewrite Ea, Eo, Nat2Z.id. split; [destruct bias; lia|]. f_equal. destruct bias; lia. }
  split.
  { rewrite <-(shown_at _ _ _ _ _ _ Hbyte Hv). unfold byte_of. destruct bias; [destruct o as [|i]; [lia|]|]; do 2 f_equal; lia. }
  assert (p ∈ ps) as Hp by (rewrite Es; set_solver).
  pose proof (proj1 (Forall_forall _ _) Hst _ Hp) as [Hmax Hobs]. split; [|by split; [intros _|]].
  split_and!.
  - unfold is_min. rewrite Ea. destruct bias; [|by rewrite andb_false_r]. rewrite Eo.
    destruct (Z.eqb_spec (Z.of_nat (insertion_offset (fst p) + (o - length (shown pre)))) 0); [lia|]. by rewrite andb_false_r.
  - unfold is_max. rewrite bool_decide_eq_false_2; [done|]. exact Hmax.
  - rewrite Eo. lia.
  - destruct bias; [right; rewrite Eo; lia|by left].
  - rewrite Es. change (p :: post) with ([p] ++ post). rewrite !names_app, !elem_of_app. right. left. apply name_in_part. exists k.
    by destruct Hbyte as (_ & ? & ?).
Qed.
(** At the ends of the text. *)
Lemma anchor_at_ends o bias : o = match bias with Left => 0 | Right => length (shown ps) end ->
  anchor_at_offset debug_assertions self o bias = Ret match bias with Left => min_for_buffer (remote_id self) | Right => max_for_buffer (remote_id self) end.
Proof.
  intros ->. unfold anchor_at_offset. destruct (spells_visible _ _ Hsp) as (ts & Hr & Et).
  assert (rope_len (visible_text self) = length (shown ps)) as -> by (by rewrite (rope_len_of _ _ Hr), Et, length_bytes).
  destruct bias; [done|]. cbn [andb]. rewrite bool_decide_eq_false_2, bool_decide_eq_true_2 by done. cbn. by rewrite Nat.eqb_refl, orb_true_r.
Qed.
End Snapshot.
