(* ===== verification/AnchorPlaces.v ===== *)
(** * Anchors, edits and the order of a text

    The visible text in front of an anchor is that in front of its byte, in every later
    text that has the byte; comparing anchors agrees with the order of their places. *)

From S2P Require Import Prelude.
From S2P Require Import Clock.
From S2P Require Import Locator.
From S2P Require Import UndoMap.
From S2P Require Import UndoMapSpec.
From S2P Require Import SumTree.
From S2P Require Import SumTreeInvariant.
From S2P Require Import SumTreeFind.
From S2P Require Import SumCursor.
From S2P Require Import SumCursorSeek.
From S2P Require Import KeyedTree.
From S2P Require Import KeyedTreeSpec.
From S2P Require Import Text.
From S2P Require Import TextSpec.
From S2P Require Import Utf8.
From S2P Require Import Chunk.
From S2P Require Import ChunkPositions.
From S2P Require Import Rope.
From S2P Require Import RopeSpec.
From S2P Require Import RopeCursorSpec.
From S2P Require Import RopePositionsSpec.
From S2P Require Import Fragments.
From S2P Require Import FragmentsSpec.
From S2P Require Import LocalEdit.
From S2P Require Import EditBooks.
From S2P Require Import EditWalk.
From S2P Require Import EditSpec.
From S2P Require Import Anchors.
From S2P Require Import AnchorSpec.
Local Open Scope nat_scope.

Implicit Types (p q r : Fragment * str) (ps qs pre post out rest : list (Fragment * str)) (a b : Anchor) (m n : Stamp * nat).

(** A byte that is in front of an anchor. *)
Definition in_front_of a m (l : list (Stamp * nat)) : Prop :=
  precedes m (anchored a) l \/ anchor_bias a = Left /\ m = anchored a.

Lemma before_byte_bound n (l : list (Stamp * nat * bool)) : before_byte n l <= length (List.filter snd l).
Proof. induction l as [|[m v] l IH]; [done|]. cbn. destruct (decide (m = n)); [lia|]. destruct v; cbn; lia. Qed.

Section Places.
Context (self : BufferSnapshot) ps (Hsp : spells self ps).

Lemma shown_place n : shows n ps -> fst <$> shown ps !! before_byte n (marks ps) = Some n.
Proof.
  intros Hs. destruct (name_has_byte ps n (shows_names _ _ Hs)) as (pre & p & post & k & Hb).
  assert (visible (fst p) = true) as Hv by by apply (shows_part self ps Hsp _ _ _ _ _ Hb).
  rewrite (before_byte_at ps n pre p post k (spells_names _ _ Hsp) Hb), Hv. by apply (shown_at ps n pre p post).
Qed.
Lemma shown_nodup : NoDup (map fst (shown ps)).
Proof. eapply sublist_NoDup; [exact (spells_names _ _ Hsp)|apply shown_names]. Qed.
Lemma shown_index i n : fst <$> shown ps !! i = Some n -> before_byte n (marks ps) = i.
Proof.
  intros Hi. rewrite <-list_lookup_fmap in Hi. assert (shows n ps) as Hs by (by eapply list_elem_of_lookup_2).
  pose proof (shown_place n Hs) as Hp. rewrite <-list_lookup_fmap in Hp. by eapply NoDup_lookup; [exact shown_nodup| |].
Qed.

Lemma anchor_place_bound a : anchor_place a ps <= length (shown ps).
Proof.
  unfold anchor_place. pose proof (before_byte_bound (anchored a) (marks ps)) as Hb. rewrite marks_visible in Hb.
  destruct (anchor_bias a); [|lia]. destruct (decide (shows (anchored a) ps)) as [Hs|]; [|lia].
  pose proof (shown_place _ Hs) as Hp. destruct (shown ps !! _) eqn:E; [|done]. apply lookup_lt_Some in E. lia.
Qed.
Lemma anchor_place_names a m : anchored a ∈ names ps ->
  m ∈ map fst (take (anchor_place a ps) (shown ps)) <-> shows m ps /\ in_front_of a m (names ps).
Proof.
  intros Hn. pose proof (place_names ps m (anchored a) (spells_names _ _ Hsp) Hn) as Hp. unfold anchor_place, in_front_of.
  destruct (anchor_bias a); [|rewrite Nat.add_0_r, Hp; naive_solver].
  destruct (decide (shows (anchored a) ps)) as [Hs|Hs].
  - pose proof (shown_place _ Hs) as Hl. destruct (shown ps !! _) as [c|] eqn:E; [|done]. injection Hl as Hl.
    rewrite Nat.add_1_r, (take_S_r _ _ _ E), map_app, elem_of_app, Hp. cbn [map]. rewrite list_elem_of_singleton, Hl. naive_solver.
  - rewrite Nat.add_0_r, Hp. naive_solver.
Qed.
Lemma anchor_place_at a bias o : anchor_bias a = bias -> byte_of ps bias o = Some (anchored a) -> anchor_place a ps = o.
Proof.
  intros Eb Ho. unfold byte_of in Ho. unfold anchor_place. rewrite Eb. destruct bias.
  - destruct o as [|i]; [done|]. rewrite (shown_index _ _ Ho). rewrite decide_True; [lia|].
    unfold shows. rewrite <-list_lookup_fmap in Ho. by eapply list_elem_of_lookup_2.
  - by rewrite (shown_index _ _ Ho).
Qed.
(** An anchor stays next to its byte while that is visible. *)
Lemma anchor_place_byte a : shows (anchored a) ps -> byte_of ps (anchor_bias a) (anchor_place a ps) = Some (anchored a).
Proof.
  intros Hs. pose proof (shown_place _ Hs) as Hp. unfold anchor_place, byte_of. destruct (anchor_bias a).
  - rewrite decide_True, Nat.add_1_r by done. exact Hp.
  - by rewrite Nat.add_0_r.
Qed.

(** *** Places in order *)
Lemma precedes_place m n : precedes m n (names ps) ->
  before_byte m (marks ps) + (if decide (shows m ps) then 1 else 0) <= before_byte n (marks ps).
Proof.
  intros H. assert (m ∈ names ps) as Hm by (eapply elem_of_sublist; [|exact H]; by left).
  assert (n ∈ names ps) as Hn by (eapply elem_of_sublist; [|exact H]; right; by left).
  pose proof (spells_names _ _ Hsp) as Hnd.
  assert (forall x y, x ∈ names ps -> y ∈ names ps -> precedes x y (names ps) -> before_byte x (marks ps) <= before_byte y (marks ps)) as Hle.
  { clear -Hnd. intros x y Ha Hb Hab. rewrite <-(marks_names ps) in *. apply list_elem_of_fmap in Hb as ([y' v] & E & Hb). cbn in E. subst y'.
    apply list_elem_of_split in Hb as (l1 & l2 & E). rewrite E, map_app in *. cbn [map fst] in *. apply precedes_split in Hab; [|done].
    pose proof Hnd as (_ & Hd & _)%NoDup_app. rewrite (before_byte_app y) by (intros Hin; apply (Hd _ Hin); by left).
    apply list_elem_of_fmap in Hab as ([x' v'] & E' & Ha'). cbn in E'. subst x'. apply list_elem_of_split in Ha' as (k1 & k2 & ->).
    rewrite <-app_assoc. cbn [app]. rewrite map_app in Hnd. cbn [map fst] in Hnd. rewrite <-app_assoc in Hnd.
    apply NoDup_app in Hnd as (_ & Hd' & _). rewrite before_byte_app by (intros Hin; apply (Hd' _ Hin); cbn; by left).
    cbn [before_byte]. rewrite decide_True, List.filter_app, length_app by done. lia. }
  specialize (Hle m n Hm Hn H). destruct (decide (shows m ps)) as [Hs|]; [|lia].
  assert (m <> n) as Hne by (intros ->; by apply (precedes_asym n n (names ps))).
  assert (before_byte m (marks ps) <> before_byte n (marks ps)); [|lia]. intros E.
  assert (m ∈ map fst (take (before_byte n (marks ps)) (shown ps))) as Hin by (by apply place_names).
  rewrite <-E in Hin. apply (place_names ps m m Hnd Hm) in Hin as [_ Hin]. by apply (precedes_asym m m (names ps)).
Qed.
End Places.

(** ** Anchors in a later text *)
Section Later.
Context (self self' : BufferSnapshot) ps ps' (Hsp : spells self ps) (Hsp' : spells self' ps').
Context (Hgrow : names ps `sublist_of` names ps') (Hid : remote_id self' = remote_id self).
Context (Hst : stamps_known self ps) (Hst' : stamps_known self' ps) (debug_assertions : bool).

(** The place keeps everything on its side that it had there. *)
Definition keeps_sides (o o' : nat) : Prop := forall m, shows m ps -> shows m ps' ->
  m ∈ map fst (take o' (shown ps')) <-> m ∈ map fst (take o (shown ps)).

Lemma byte_of_shows bias o n : byte_of ps bias o = Some n -> shows n ps.
Proof.
  unfold byte_of, shows. intros H. destruct bias; [destruct o as [|o]; [done|]|]; rewrite <-list_lookup_fmap in H; by eapply list_elem_of_lookup_2.
Qed.
Lemma keeps_later a : keeps_to_byte ps a -> keeps_to_byte ps' a.
Proof. intros (H1 & H2 & H3 & H4 & H5). split_and!; [done..|]. by eapply elem_of_sublist. Qed.
Lemma heard_later a : keeps_to_byte ps a -> heard self debug_assertions a -> heard self' debug_assertions a.
Proof.
  intros (_ & _ & _ & _ & Hn) Hh Hd. destruct (Hh Hd) as [H1 H2]. split; [by rewrite Hid|].
  destruct (name_has_byte _ _ Hn) as (pre & p & post & k & -> & _ & E). apply (f_equal fst) in E. cbn in E. rewrite E.
  assert (p ∈ pre ++ p :: post) as Hp by set_solver. by eapply Forall_forall in Hst'; [|exact Hp]; destruct Hst'.
Qed.

Lemma anchor_follows o bias : boundary (bytes (shown ps)) o -> o <= length (shown ps) ->
  exists a o', anchor_at_offset debug_assertions self o bias = Ret a /\ offset_for_anchor debug_assertions self' a = Ret o'
    /\ o' <= length (shown ps') /\ keeps_sides o o'
    /\ (forall n, byte_of ps bias o = Some n -> shows n ps' -> byte_of ps' bias o' = Some n)
    /\ (byte_of ps bias o = None -> o' = match bias with Left => 0 | Right => length (shown ps') end).
Proof.
  intros Hb Ho. destruct (decide (within ps bias o)) as [Hw|Hw].
  - destruct (anchor_at_offset_ok self ps Hsp debug_assertions o bias Hb Hw Hst) as (a & -> & Ea & Eb & Hk & Hh & _).
    exists a, (anchor_place a ps'). pose proof (keeps_later a Hk) as Hk'.
    rewrite (offset_for_anchor_ok self' ps' Hsp' debug_assertions a Hk' (heard_later a Hk Hh)).
    pose proof Hk as (_ & _ & _ & _ & Hn). pose proof Hk' as (_ & _ & _ & _ & Hn').
    split_and!; [done..|by eapply anchor_place_bound| | |by rewrite Eb].
    + intros m Hm Hm'. rewrite <-(anchor_place_at self ps Hsp a bias o Ea Eb).
      rewrite (anchor_place_names self' ps' Hsp' a m Hn'), (anchor_place_names self ps Hsp a m Hn). unfold in_front_of.
      rewrite (precedes_grow m (anchored a) _ _ Hgrow (spells_names _ _ Hsp') (shows_names _ _ Hm) Hn). naive_solver.
    + rewrite Eb. intros n [= <-] Hs. rewrite <-Ea. by eapply anchor_place_byte.
  - assert (o = match bias with Left => 0 | Right => length (shown ps) end) as Eo by (unfold within in Hw; destruct bias; lia).
    rewrite (anchor_at_ends self ps Hsp debug_assertions o bias Eo).
    destruct (spells_visible _ _ Hsp') as (ts & Hr & Et).
    exists (match bias with Left => min_for_buffer (remote_id self) | Right => max_for_buffer (remote_id self) end),
      (match bias with Left => 0 | Right => length (shown ps') end).
    assert (byte_of ps bias o = None) as En.
    { rewrite Eo. unfold byte_of. destruct bias; [done|]. by rewrite lookup_ge_None_2. }
    split; [done|]. rewrite En. split_and!; [|destruct bias; lia| |done|done].
    + destruct bias; [done|]. transitivity (Ret (rope_len (visible_text self'))); [done|]. f_equal. by rewrite (rope_len_of _ _ Hr), Et, length_bytes.
    + intros m Hm Hm'. rewrite Eo. destruct bias; [done|]. by rewrite !take_ge.
Qed.
End Later.

(** ** Anchors in the text they were made for *)
Section Made.
Context (self : BufferSnapshot) ps (Hsp : spells self ps) (Hst : stamps_known self ps) (debug_assertions : bool).
Lemma anchor_comes_back o bias : boundary (bytes (shown ps)) o -> o <= length (shown ps) ->
  exists a, anchor_at_offset debug_assertions self o bias = Ret a /\ offset_for_anchor debug_assertions self a = Ret o.
Proof.
  intros Hb Ho. destruct (anchor_follows self self ps ps Hsp Hsp ltac:(reflexivity) eq_refl Hst Hst debug_assertions o bias Hb Ho)
    as (a & o' & Ea & Eo & Ho' & _ & Hn & He).
  exists a. split; [done|]. rewrite Eo. f_equal. destruct (byte_of ps bias o) as [n|] eqn:En.
  - specialize (Hn n eq_refl (byte_of_shows ps bias o n En)). unfold byte_of in *. destruct bias.
    + destruct o as [|o]; [done|]. destruct o' as [|o']; [done|]. f_equal.
      by rewrite <-(shown_index self ps Hsp _ _ En), <-(shown_index self ps Hsp _ _ Hn).
    + by rewrite <-(shown_index self ps Hsp _ _ En), <-(shown_index self ps Hsp _ _ Hn).
  - rewrite (He eq_refl). unfold byte_of in En. destruct bias.
    + destruct o as [|o]; [done|]. exfalso. destruct (shown ps !! o) eqn:E; [done|]. apply lookup_ge_None in E. lia.
    + destruct (shown ps !! o) eqn:E; [done|]. apply lookup_ge_None in E. lia.
Qed.
Lemma to_offset_ok o : boundary (bytes (shown ps)) o -> to_offset debug_assertions self o = Ret o.
Proof.
  intros Hb. unfold to_offset. destruct (spells_visible _ _ Hsp) as (ts & Hr & Et).
  by rewrite (assert_char_boundary_ok _ _ Hr debug_assertions), Et, Hb.
Qed.
(** It is an anchor of the buffer, inside of visible text. *)
Lemma anchor_made_valid o bias a : boundary (bytes (shown ps)) o -> o <= length (shown ps) ->
  anchor_at_offset debug_assertions self o bias = Ret a ->
  anchor_bias a = bias /\ can_resolve self a = true /\ is_valid debug_assertions self a = Ret true.
Proof.
  intros Hb Ho E. destruct (decide (within ps bias o)) as [Hw|Hw].
  - destruct (anchor_at_offset_ok self ps Hsp debug_assertions o bias Hb Hw Hst) as (a' & E' & Ea & Eb & Hk & _ & Hid).
    rewrite E in E'. injection E' as <-. split; [done|]. pose proof Hk as (H1 & H2 & _ & _ & Hn).
    destruct (name_has_byte _ _ Hn) as (pre & p & post & k & Hbyte).
    assert (visible (fst p) = true) as Hv by (apply (shows_part self ps Hsp _ _ _ _ _ Hbyte); by eapply byte_of_shows).
    pose proof Hbyte as (Es & _ & En). apply (f_equal fst) in En. cbn in En. unfold can_resolve, is_valid. rewrite H1, H2, Hid, Z.eqb_refl. cbn [negb orb andb].
    split.
    + rewrite En. assert (p ∈ ps) as Hp by (rewrite Es; set_solver). by eapply Forall_forall in Hst; [|exact Hp]; destruct Hst.
    + unfold try_fragment_id_for_anchor. rewrite H1, H2, (anchored_entry self ps Hsp a pre p post k Hk Hbyte). cbn [mbind res_bind].
      change (key_timestamp (insertion_key (insertion_new (fst p)))) with (frag_timestamp (fst p)).
      rewrite bool_decide_eq_true_2, orb_true_r by done. change (fragment_id (insertion_new (fst p))) with (part_id p).
      rewrite (find_fragment_ok self ps Hsp pre p post Es). cbn [snd]. by rewrite Hv.
  - assert (o = match bias with Left => 0 | Right => length (shown ps) end) as Eo by (unfold within in Hw; destruct bias; lia).
    rewrite (anchor_at_ends self ps Hsp debug_assertions o bias Eo) in E. injection E as <-.
    unfold can_resolve, is_valid. destruct bias; cbn [buffer_id min_for_buffer max_for_buffer]; rewrite Z.eqb_refl; done.
Qed.
End Made.

(** ** Comparing anchors *)

(** What one edit inserted is in its order. *)
Definition in_order ps : Prop := forall t i j, precedes (t, i) (t, j) (names ps) -> i < j.

Section Order.
Context (self : BufferSnapshot) ps (Hsp : spells self ps) (Hio : in_order ps) (Hst : stamps_known self ps) (debug_assertions : bool).

(** The visible text in front of any anchor of the buffer. *)
Definition resolvable a : Prop := is_min a = true \/ is_max a = true \/ keeps_to_byte ps a.
Definition place_of_any a : nat :=
  if is_min a then 0 else if is_max a then length (shown ps) else anchor_place a ps.

Lemma min_is a : is_min a = true -> timestamp a = STAMP_MIN /\ offset a = 0%Z /\ anchor_bias a = Left.
Proof. unfold is_min. rewrite !andb_true_iff, !bool_decide_eq_true, Z.eqb_eq. tauto. Qed.
Lemma max_is a : is_max a = true -> timestamp a = STAMP_MAX /\ offset a = U32_MAX /\ anchor_bias a = Right.
Proof. unfold is_max. rewrite !andb_true_iff, !bool_decide_eq_true, Z.eqb_eq. tauto. Qed.
Lemma keeps_part a : keeps_to_byte ps a -> exists pre p post k, has_byte ps (anchored a) pre p post k.
Proof. intros (_ & _ & _ & _ & Hn). by apply name_has_byte. Qed.
Lemma keeps_stamp a : keeps_to_byte ps a -> timestamp a <> STAMP_MAX.
Proof.
  intros Hk. destruct (keeps_part a Hk) as (pre & p & post & k & Es & _ & E). apply (f_equal fst) in E. cbn in E. rewrite E.
  assert (p ∈ ps) as Hp by (rewrite Es; set_solver). by eapply Forall_forall in Hst; [|exact Hp]; destruct Hst.
Qed.

Lemma resolves_ok a : resolvable a -> heard self debug_assertions a -> offset_for_anchor debug_assertions self a = Ret (place_of_any a).
Proof.
  intros Ha Hh. unfold place_of_any. destruct (is_min a) eqn:E1; [unfold offset_for_anchor; by rewrite E1|].
  destruct (is_max a) eqn:E2.
  - unfold offset_for_anchor. rewrite E1, E2. destruct (spells_visible _ _ Hsp) as (ts & Hr & Et). f_equal. by rewrite (rope_len_of _ _ Hr), Et, length_bytes.
  - destruct Ha as [?|[?|Hk]]; [congruence..|]. by apply (offset_for_anchor_ok self ps Hsp).
Qed.

(** The id that stands for an anchor of another edit. *)
Definition rank_id a (id : list Z) : Prop :=
  is_min a = true /\ id = Locator.min \/ is_max a = true /\ id = Locator.max
  \/ keeps_to_byte ps a /\ exists pre p post k, has_byte ps (anchored a) pre p post k /\ id = part_id p.
Lemma fragment_id_for_anchor_ok a : resolvable a -> exists id, fragment_id_for_anchor debug_assertions self a = Ret id /\ rank_id a id.
Proof.
  intros Ha. unfold fragment_id_for_anchor, try_fragment_id_for_anchor, rank_id. destruct (is_min a) eqn:E1; [exists Locator.min; tauto|].
  destruct (is_max a) eqn:E2; [exists Locator.max; tauto|]. destruct Ha as [?|[?|Hk]]; [congruence..|].
  destruct (keeps_part a Hk) as (pre & p & post & k & Hb). exists (part_id p).
  rewrite (anchored_entry self ps Hsp a pre p post k Hk Hb). cbn [mbind res_bind].
  change (key_timestamp (insertion_key (insertion_new (fst p)))) with (frag_timestamp (fst p)).
  pose proof Hb as (_ & _ & E). apply (f_equal fst) in E. cbn in E. rewrite bool_decide_eq_true_2, orb_true_r by done.
  split; [done|]. right. right. split; [done|]. by exists pre, p, post, k.
Qed.

Lemma part_place a pre p post k : has_byte ps (anchored a) pre p post k ->
  length (shown pre) <= anchor_place a ps <= length (shown (pre ++ [p])).
Proof.
  intros Hb. pose proof (before_byte_at _ _ _ _ _ _ (spells_names _ _ Hsp) Hb) as E. pose proof (shows_part self ps Hsp _ _ _ _ _ Hb) as Hs.
  pose proof Hb as (_ & Hk & _). unfold anchor_place. rewrite E, shown_snoc. unfold visible_len.
  destruct (visible (fst p)); [destruct (anchor_bias a); [destruct (decide _)|]; lia|].
  destruct (anchor_bias a); [rewrite decide_False by (intros ?%Hs; done)|]; lia.
Qed.
Lemma part_order pre p post pre' p' post' : ps = pre ++ p :: post -> ps = pre' ++ p' :: post' -> lex_lt (part_id p) (part_id p') ->
  length (shown (pre ++ [p])) <= length (shown pre').
Proof.
  intros Es Es' Hlt. pose proof (spells_order _ _ Hsp) as Ho.
  assert (length (pre ++ [p]) <= length pre') as Hl.
  { rewrite length_app. cbn. destruct (decide (length pre < length pre')) as [|Hge]; [lia|]. exfalso.
    assert (p' ∈ pre ++ [p]) as Hp.
    { rewrite Es' in Es. change (p :: post) with ([p] ++ post) in Es. rewrite app_assoc in Es.
      apply (f_equal (fun l => l !! length pre')) in Es. rewrite list_lookup_middle in Es by done.
      rewrite lookup_app_l in Es by (rewrite length_app; cbn; lia). symmetry in Es. by apply list_elem_of_lookup_2 in Es. }
    apply elem_of_app in Hp as [Hp|Hp%list_elem_of_singleton].
    - rewrite Es in Ho. pose proof (order_above _ _ _ Ho _ Hp) as H. assert (lex_lt (part_id p) (part_id p)) as Hbad by by etrans.
      by apply (irreflexivity lex_lt) in Hbad.
    - subst. by apply (irreflexivity lex_lt) in Hlt. }
  assert (pre ++ [p] `prefix_of` pre') as [l ->].
  { exists (drop (length (pre ++ [p])) pre'). rewrite <-(take_drop (length (pre ++ [p])) pre') at 1. f_equal.
    rewrite Es in Es'. change (p :: post) with ([p] ++ post) in Es'. rewrite app_assoc in Es'.
    apply (f_equal (take (length (pre ++ [p])))) in Es'. rewrite take_app_length, take_app_le in Es' by done. by symmetry. }
  rewrite (shown_app (pre ++ [p]) l), length_app. lia.
Qed.

Lemma id_order a b x y : rank_id a x -> rank_id b y -> lex_lt x y -> place_of_any a <= place_of_any b.
Proof.
  intros Ha Hb Hlt. unfold place_of_any.
  destruct Ha as [[-> ->]|[[Ha ->]|(Hka & pre & p & post & k & Hpa & ->)]]; [lia| |].
  - exfalso. destruct Hb as [[_ ->]|[[_ ->]|(_ & pre & p & post & k & (Es & _) & ->)]]; [done..|].
    assert (p ∈ ps) as Hp by (rewrite Es; set_solver).
    pose proof (spells_ids _ _ Hsp) as Hi. eapply Forall_forall in Hi as (_ & _ & Hi); [|exact Hp].
    assert (lex_lt Locator.max Locator.max) as Hbad by by etrans. by apply (irreflexivity lex_lt) in Hbad.
  - pose proof Hka as (-> & -> & _). pose proof (anchor_place_bound self ps Hsp a) as Hmax.
    destruct Hb as [[_ ->]|[[Hb ->]|(Hkb & pre' & p' & post' & k' & Hpb & ->)]].
    + exfalso. destruct Hpa as (Es & _). assert (p ∈ ps) as Hp by (rewrite Es; set_solver).
      pose proof (spells_ids _ _ Hsp) as Hi. eapply Forall_forall in Hi as (_ & Hi & _); [|exact Hp].
      assert (lex_lt Locator.min Locator.min) as Hbad by by etrans. by apply (irreflexivity lex_lt) in Hbad.
    + assert (is_min b = false) as -> by (apply max_is in Hb as (_ & _ & Hb); unfold is_min; by rewrite Hb, andb_false_r).
      by rewrite Hb.
    + pose proof Hkb as (-> & -> & _). pose proof (part_place a _ _ _ _ Hpa). pose proof (part_place b _ _ _ _ Hpb).
      destruct Hpa as (Es & _), Hpb as (Es' & _). pose proof (part_order _ _ _ _ _ _ Es Es' Hlt). lia.
Qed.

(** Two anchors of one edit. *)
Definition less_within a b : Prop :=
  (offset a < offset b)%Z \/ offset a = offset b /\ anchor_bias a = Left /\ anchor_bias b = Right.
Lemma within_order a b : keeps_to_byte ps a -> keeps_to_byte ps b -> timestamp a = timestamp b -> less_within a b ->
  anchor_place a ps <= anchor_place b ps.
Proof.
  intros (_ & _ & Ha0 & Ha & Hna) (_ & _ & Hb0 & Hb & Hnb) Et Hl.
  set (i := snd (anchored a)). set (j := snd (anchored b)).
  assert (anchored a = (timestamp b, i)) as Ea by (unfold i, anchored; by rewrite Et).
  assert (anchored b = (timestamp b, j)) as Eb by done.
  assert (i <= j /\ (i = j -> anchor_bias a = Right \/ anchor_bias b = Left)) as [Hij Heq].
  { unfold i, j, anchored. cbn [snd]. destruct Hl as [Hl|(Hl & Ea' & Eb')].
    - destruct (anchor_bias a), (anchor_bias b); destruct Ha as [?|Ha], Hb as [?|Hb]; try done; (split; [lia|intros; first [by left|by right|lia]]).
    - rewrite Ea', Eb' in *. destruct Ha as [?|Ha]; [done|]. split; [lia|intros; lia]. }
  unfold anchor_place. rewrite Ea, Eb in *. destruct (decide (i = j)) as [Hd|Hd].
  - destruct (Heq Hd) as [->| ->]; rewrite Hd; [lia|]. destruct (anchor_bias a); lia.
  - assert (precedes (timestamp b, i) (timestamp b, j) (names ps)) as Hp.
    { destruct (precedes_total _ _ _ Hna Hnb) as [[= E]|[H|H]]; [done|done|]. apply Hio in H. lia. }
    pose proof (precedes_place self ps Hsp _ _ Hp). destruct (anchor_bias a), (anchor_bias b); lia.
Qed.
Lemma same_stamp_order a b : resolvable a -> resolvable b -> timestamp a = timestamp b -> less_within a b -> place_of_any a <= place_of_any b.
Proof.
  intros Ha Hb Et Hl. unfold place_of_any. destruct (is_min a) eqn:E1; [lia|]. destruct (is_max a) eqn:E2.
  - apply max_is in E2 as (T2 & O2 & B2). exfalso. destruct Hb as [Hb|[Hb|Hb]].
    + apply min_is in Hb as (T1 & _). rewrite T2, T1 in Et. discriminate.
    + apply max_is in Hb as (_ & O1 & _). destruct Hl as [Hl|(_ & B1 & _)]; [lia|congruence].
    + apply (keeps_stamp b Hb). congruence.
  - destruct Ha as [?|[?|Ha]]; [congruence..|]. destruct (is_min b) eqn:F1; [|destruct (is_max b) eqn:F2].
    + apply min_is in F1 as (_ & O1 & B1). exfalso. destruct Ha as (_ & _ & Ha & _). destruct Hl as [Hl|(_ & _ & B2)]; [lia|congruence].
    + apply max_is in F2 as (T2 & _). exfalso. apply (keeps_stamp a Ha). congruence.
    + destruct Hb as [?|[?|Hb]]; [congruence..|]. by apply within_order.
Qed.
Lemma part_id_inside p : p ∈ ps -> part_id p <> Locator.min /\ part_id p <> Locator.max.
Proof.
  intros Hp. pose proof (spells_ids _ _ Hsp) as Hi. eapply Forall_forall in Hi as (_ & H1 & H2); [|exact Hp].
  split; intros E; rewrite E in *; [by apply (irreflexivity lex_lt) in H1|by apply (irreflexivity lex_lt) in H2].
Qed.
Lemma same_id a b x : rank_id a x -> rank_id b x -> timestamp a = timestamp b.
Proof.
  assert (forall c pre p post k, has_byte ps (anchored c) pre p post k -> p ∈ ps /\ timestamp c = frag_timestamp (fst p)) as Hpart.
  { intros c pre p post k (-> & _ & E). split; [set_solver|by apply (f_equal fst) in E]. }
  intros [[H1 ->]|[[H1 ->]|(_ & pre & p & post & k & Hp%Hpart & ->)]] [[H2 E]|[[H2 E]|(_ & pre' & p' & post' & k' & Hp'%Hpart & E)]]; try discriminate E.
  - apply min_is in H1 as [-> _]. by apply min_is in H2 as [-> _].
  - destruct Hp' as [Hp' _]. apply part_id_inside in Hp' as [? _]. congruence.
  - apply max_is in H1 as [-> _]. by apply max_is in H2 as [-> _].
  - destruct Hp' as [Hp' _]. apply part_id_inside in Hp' as [_ ?]. congruence.
  - destruct Hp as [Hp _]. apply part_id_inside in Hp as [? _]. congruence.
  - destruct Hp as [Hp _]. apply part_id_inside in Hp as [_ ?]. congruence.
  - destruct Hp as [Hp ->], Hp' as [Hp' ->]. do 2 f_equal.
    eapply (NoDup_map_inv' part_id); [|by apply list_elem_of_In..|done].
    apply (strict_nodup lex_lt), (spells_order _ _ Hsp).
Qed.

Lemma anchor_cmp_ok a b : resolvable a -> resolvable b ->
  exists c, anchor_cmp debug_assertions self a b = Ret c
    /\ match c with
       | Lt => place_of_any a <= place_of_any b
       | Gt => place_of_any b <= place_of_any a
       | Eq => timestamp a = timestamp b /\ offset a = offset b /\ anchor_bias a = anchor_bias b
       end.
Proof.
  intros Ha Hb. unfold anchor_cmp. destruct (decide (timestamp a = timestamp b)) as [Et|Et].
  - rewrite bool_decide_eq_true_2 by done. cbn [mbind res_bind]. eexists. split; [done|]. cbn [then_with].
    destruct (Z.compare_spec (offset a) (offset b)) as [E|E|E]; cbn [then_with].
    + destruct (anchor_bias a) eqn:Ba, (anchor_bias b) eqn:Bb; cbn; [done| | |done];
        (apply same_stamp_order; [done..|]; right; done).
    + apply same_stamp_order; [done..|]. by left.
    + apply same_stamp_order; [done..|]. by left.
  - rewrite bool_decide_eq_false_2 by done. cbn [mbind res_bind].
    destruct (fragment_id_for_anchor_ok a Ha) as (x & -> & Hx), (fragment_id_for_anchor_ok b Hb) as (y & -> & Hy). cbn [mbind res_bind].
    eexists. split; [done|]. destruct (lex_compare x y) eqn:E; cbn [then_with].
    + apply lex_compare_eq in E. subst y. destruct Et. by eapply same_id.
    + by eapply id_order.
    + apply lex_gt in E. by eapply id_order.
Qed.
End Order.

Lemma then_with_opp x y : CompOpp (then_with x y) = then_with (CompOpp x) (CompOpp y).
Proof. by destruct x. Qed.
Lemma bias_cmp_opp x y : bias_cmp y x = CompOpp (bias_cmp x y).
Proof. by destruct x, y. Qed.
Lemma anchor_cmp_opp debug_assertions self a b c :
  anchor_cmp debug_assertions self a b = Ret c -> anchor_cmp debug_assertions self b a = Ret (CompOpp c).
Proof.
  unfold anchor_cmp. destruct (decide (timestamp a = timestamp b)) as [Et|Et].
  - rewrite !bool_decide_eq_true_2 by done. cbn [mbind res_bind]. intros [= <-]. f_equal.
    by rewrite !then_with_opp, (Z.compare_antisym (offset a)), (bias_cmp_opp (anchor_bias a)).
  - rewrite !bool_decide_eq_false_2 by congruence.
    destruct (fragment_id_for_anchor debug_assertions self a), (fragment_id_for_anchor debug_assertions self b); try done.
    cbn [mbind res_bind]. intros [= <-]. f_equal.
    by rewrite !then_with_opp, (Z.compare_antisym (offset a)), (bias_cmp_opp (anchor_bias a)), <-lex_compare_opp.
Qed.
