(* ===== verification/AnchorProps.v ===== *)
(** * What anchors promise

    An anchor comes back to the offset it was made at, keeps to its byte through edits of
    the text, and compares with others as their places do. *)

From S2P Require Import Prelude.
From S2P Require Import Clock.
From S2P Require Import Locator.
From S2P Require Import UndoMap.
From S2P Require Import UndoMapSpec.
From S2P Require Import SumTree.
From S2P Require Import SumTreeInvariant.
From S2P Require Import SumTreeFind.
From S2P Require Import SumIter.
From S2P Require Import SumCursor.
From S2P Require Import SumCursorSeek.
From S2P Require Import KeyedTree.
From S2P Require Import KeyedTreeSpec.
From S2P Require Import Text.
From S2P Require Import TextSpec.
From S2P Require Import Utf8.
From S2P Require Import Chunk.
From S2P Require Import ChunkPositions.
From S2P Require Import Rope.
From S2P Require Import RopeSpec.
From S2P Require Import RopeCursorSpec.
From S2P Require Import RopePositionsSpec.
From S2P Require Import Fragments.
From S2P Require Import FragmentsSpec.
From S2P Require Import LocalEdit.
From S2P Require Import EditBooks.
From S2P Require Import EditWalk.
From S2P Require Import History.
From S2P Require Import Patch.
From S2P Require Import EditSpec.
From S2P Require Import EditProps.
From S2P Require Import Anchors.
From S2P Require Import AnchorSpec.
From S2P Require Import AnchorPlaces.
Local Open Scope nat_scope.

Implicit Types (ps : list (Fragment * str)) (a b : Anchor).

(** ** An edit keeps the order of what each edit inserted *)
Lemma filter_mono {A} (f : A -> bool) (l k : list A) : l `sublist_of` k -> List.filter f l `sublist_of` List.filter f k.
Proof. induction 1 as [|x l k _ IH|x l k _ IH]; [constructor|..]; cbn; destruct (f x); [by constructor|done|by constructor|done]. Qed.
Lemma stamped_index ts o s n : n ∈ map fst (stamped ts o s) -> fst n = ts /\ o <= snd n.
Proof.
  intros Hn. apply list_elem_of_fmap in Hn as (c & -> & Hc). unfold stamped in Hc. apply elem_of_lookup_imap in Hc as (i & x & -> & _). cbn. split; [done|lia].
Qed.
Lemma stamped_order ts o s i j : precedes (ts, i) (ts, j) (map fst (stamped ts o s)) -> i < j.
Proof.
  revert o. induction s as [|x s IH]; intros o H; [by apply sublist_nil_r in H|].
  rewrite (stamped_app ts o [x] s : stamped ts o (x :: s) = _), map_app in H. cbn in H.
  apply sublist_cons_r in H as [H|(l & E & H)]; [by eapply IH|]. injection E as E <-. rewrite Nat.add_0_r in E.
  assert ((ts, j) ∈ map fst (stamped ts (o + 1) s)) as Hj by (eapply elem_of_sublist; [|exact H]; by left).
  apply stamped_index in Hj as [_ Hj]. cbn in Hj. lia.
Qed.
Lemma in_order_edit ts ps ps' s :
  List.filter (old_char ts) (all_chars ps') = all_chars ps -> List.filter (new_char ts) (all_chars ps') = stamped ts 0 s ->
  in_order ps -> in_order ps'.
Proof.
  intros Ho Hn Hio t i j H. destruct (decide (t = ts)) as [->|Ht].
  - apply (stamped_order ts 0 s). rewrite <-Hn. unfold precedes in *.
    apply (filter_mono (fun n => bool_decide (fst n = ts))) in H. cbn in H. rewrite bool_decide_eq_true_2 in H by done.
    unfold names in H. rewrite filter_names in H. exact H.
  - apply (Hio t). unfold precedes in *. apply (filter_mono (fun n => negb (bool_decide (fst n = ts)))) in H. cbn in H.
    rewrite bool_decide_eq_false_2 in H by done. unfold names in H. rewrite filter_names in H.
    unfold names. rewrite <-Ho. exact H.
Qed.
Lemma names_grow ts ps ps' : List.filter (old_char ts) (all_chars ps') = all_chars ps -> names ps `sublist_of` names ps'.
Proof. intros E. unfold names. rewrite <-E. apply (fmap_sublist fst), filter_sublist. Qed.

(** C8. An anchor made at an offset of the text, with either bias, comes back to that
    offset; it can be resolved and is valid; biasing it the other way gives an anchor of
    that bias which comes back to the same offset.  Debug builds, with their assertions,
    and release builds agree. *)
Theorem anchor_roundtrip debug_assertions (self : BufferSnapshot) ps o bias :
  spells self ps -> stamps_known self ps -> boundary (bytes (shown ps)) o ->
  exists a, anchor_at debug_assertions self o bias = Ret a /\ anchor_bias a = bias
    /\ offset_for_anchor debug_assertions self a = Ret o
    /\ can_resolve self a = true /\ is_valid debug_assertions self a = Ret true
    /\ forall bias', exists b, bias_to debug_assertions self a bias' = Ret b /\ anchor_bias b = bias'
         /\ offset_for_anchor debug_assertions self b = Ret o.
Proof.
  intros Hsp Hst Hb. assert (o <= length (shown ps)) as Ho.
  { rewrite <-length_bytes. apply boundary_le; [apply shown_utf8, Hsp|done]. }
  destruct (anchor_comes_back self ps Hsp Hst debug_assertions o bias Hb Ho) as (a & Ea & Eo).
  destruct (anchor_made_valid self ps Hsp Hst debug_assertions o bias a Hb Ho Ea) as (Ebias & Hc & Hv).
  exists a. unfold anchor_at. rewrite (to_offset_ok self ps Hsp debug_assertions o Hb). cbn [mbind res_bind]. split_and!; [done..|].
  intros bias'. destruct (anchor_comes_back self ps Hsp Hst debug_assertions o bias' Hb Ho) as (b & Eb & Eob).
  destruct (anchor_made_valid self ps Hsp Hst debug_assertions o bias' b Hb Ho Eb) as (Hbb & _).
  unfold bias_to, bias_left, bias_right. rewrite Ebias, Eo. cbn [mbind res_bind].
  destruct bias', bias; [by exists a|by exists b|by exists b|by exists a].
Qed.

(** C7. Anchors follow the text through a local edit: an anchor made at any offset before
    resolves after the edit to an offset that has the same bytes in front of it, of those
    that are visible before and after, and the same bytes behind it.  While the byte it
    keeps to, the one in front of it for the left bias and the one behind it for the right,
    is visible, it stays next to it; without such a byte it stays at the end of the text it
    was made at.  What one edit inserted keeps its order. *)
Theorem anchors_survive_edit `{LineSeparators} max_insertion_len par debug_assertions (self : BufferSnapshot) ps ts edits :
  spells self ps -> reachable_by_cursors self -> fresh ts ps -> stamps_known self ps ->
  4 <= max_insertion_len -> collects_chunks par -> (forall s, utf8 s -> utf8 (normalize s)) ->
  edits_ok (bytes (shown ps)) 0 edits ->
  exists self' op patch ps', apply_edit_internal max_insertion_len par self edits ts = Ret (self', op, patch)
    /\ spells self' ps' /\ shown ps' = edited 0 (shown ps) (stamped_edits ts 0 (normalized edits))
    /\ (in_order ps -> in_order ps')
    /\ forall o bias, boundary (bytes (shown ps)) o -> exists a o',
         anchor_at_offset debug_assertions self o bias = Ret a /\ offset_for_anchor debug_assertions self' a = Ret o'
         /\ o' <= length (shown ps') /\ keeps_sides ps ps' o o'
         /\ (forall n, byte_of ps bias o = Some n -> shows n ps' -> byte_of ps' bias o' = Some n)
         /\ (byte_of ps bias o = None -> o' = match bias with Left => 0 | Right => length (shown ps') end).
Proof.
  intros Hsp Hreach Hfresh Hst Hmax Hpar Hnorm Hed.
  destruct (apply_edit_ok self ts ps Hsp Hreach Hfresh max_insertion_len Hmax par Hpar Hnorm edits Hed)
    as (self' & patch & ps' & ranges & E & Hres & Es & _).
  do 2 eexists. exists patch, ps'. split; [exact E|]. pose proof Hres as [R1 R2 R3 _ _ _ _ (_ & Ev & Eid)].
  split_and!; [done..|by eapply in_order_edit|]. intros o bias Hb.
  assert (o <= length (shown ps)) as Ho by (rewrite <-length_bytes; apply boundary_le; [apply shown_utf8, Hsp|done]).
  apply (anchor_follows self self' ps ps'); [done|done|by eapply names_grow|done|done| |done|done].
  unfold stamps_known. by rewrite Ev.
Qed.

(** C9. Comparing two anchors of a buffer does not panic and never contradicts the text: the
    lesser resolves to no later offset, equal ones to the same, so that anchors with
    different offsets compare as those; and comparing the other way round is the opposite. *)
Theorem anchor_order debug_assertions (self : BufferSnapshot) ps a b :
  spells self ps -> stamps_known self ps -> in_order ps -> resolvable ps a -> resolvable ps b ->
  heard self debug_assertions a -> heard self debug_assertions b ->
  exists c oa ob, anchor_cmp debug_assertions self a b = Ret c /\ anchor_cmp debug_assertions self b a = Ret (CompOpp c)
    /\ offset_for_anchor debug_assertions self a = Ret oa /\ offset_for_anchor debug_assertions self b = Ret ob
    /\ match c with Lt => oa <= ob | Eq => oa = ob | Gt => ob <= oa end
    /\ (oa < ob -> c = Lt) /\ (ob < oa -> c = Gt).
Proof.
  intros Hsp Hst Hio Ha Hb Hha Hhb.
  destruct (anchor_cmp_ok self ps Hsp Hio Hst debug_assertions a b Ha Hb) as (c & Ec & Hc).
  exists c, (place_of_any ps a), (place_of_any ps b).
  rewrite (resolves_ok self ps Hsp debug_assertions a Ha Hha), (resolves_ok self ps Hsp debug_assertions b Hb Hhb).
  assert (match c with Lt => place_of_any ps a <= place_of_any ps b | Eq => place_of_any ps a = place_of_any ps b | Gt => place_of_any ps b <= place_of_any ps a end) as Hplace.
  { destruct c; [|done..]. destruct Hc as (E1 & E2 & E3). unfold place_of_any, is_min, is_max, anchor_place, anchored. by rewrite E1, E2, E3. }
  split_and!; [done| |done|done|done|destruct c; intros; [lia|done|lia]|destruct c; intros; [lia|lia|done]].
  by apply anchor_cmp_opp.
Qed.

(** ** Samples *)
Lemma sample_stamps : stamps_known SampleEdit.snapshot SampleEdit.parts.
Proof. repeat constructor; discriminate. Qed.
Lemma sample_in_order : in_order SampleEdit.parts.
Proof.
  assert (names SampleEdit.parts = map fst (stamped SampleEdit.s1 0 (SampleEdit.hel ++ SampleEdit.xx ++ SampleEdit.lo))) as E by reflexivity.
  intros t i j H. assert ((t, i) ∈ names SampleEdit.parts) as Hin by (eapply elem_of_sublist; [|exact H]; by left).
  rewrite E in *. apply stamped_index in Hin as [Et _]. cbn in Et. subst t. by eapply stamped_order.
Qed.
Definition before_lo : Anchor := mkAnchor SampleEdit.s1 3 Left 1.
Definition after_xx : Anchor := mkAnchor SampleEdit.s1 5 Right 1.
Lemma sample_resolvable : resolvable SampleEdit.parts before_lo /\ resolvable SampleEdit.parts after_xx.
Proof.
  split; right; right; (split_and!; [reflexivity|reflexivity|cbn; lia| |apply (bool_decide_unpack _); vm_compute; reflexivity]);
    first [by left|right; cbn; lia].
Qed.

Lemma anchor_roundtrip_witness :
  anchor_at true SampleEdit.snapshot 3 Right = Ret after_xx /\ anchor_at true SampleEdit.snapshot 3 Left = Ret before_lo
  /\ exists a, anchor_at true SampleEdit.snapshot 3 Right = Ret a /\ offset_for_anchor true SampleEdit.snapshot a = Ret 3.
Proof.
  destruct (anchor_roundtrip true SampleEdit.snapshot SampleEdit.parts 3 Right SampleEdit.snapshot_spells sample_stamps eq_refl)
    as (a & Ea & _ & Eo & _).
  split; [vm_compute; reflexivity|]. split; [vm_compute; reflexivity|]. by exists a.
Defined.

Lemma anchors_survive_edit_witness :
  anchor_at_offset true SampleEdit.snapshot 3 Right = Ret after_xx
  /\ exists self' op patch ps' o', apply_edit_internal (H:=SampleEdit.separators) 4 chunks_map SampleEdit.snapshot SampleEdit.edits SampleEdit.s3
       = Ret (self', op, patch)
    /\ bytes (shown ps') = [104; 101; 195; 169; 111]%Z /\ in_order ps'
    /\ offset_for_anchor true self' after_xx = Ret o' /\ keeps_sides SampleEdit.parts ps' 3 o'.
Proof.
  assert (E0 : anchor_at_offset true SampleEdit.snapshot 3 Right = Ret after_xx) by (vm_compute; reflexivity).
  destruct (anchors_survive_edit (H:=SampleEdit.separators) 4 chunks_map true SampleEdit.snapshot SampleEdit.parts SampleEdit.s3 SampleEdit.edits
    SampleEdit.snapshot_spells SampleEdit.snapshot_reach SampleEdit.s3_fresh sample_stamps ltac:(lia) (fun _ _ _ _ _ _ => eq_refl) (fun s Hs => Hs)
    SampleEdit.edits_in_order) as (self' & op & patch & ps' & E & _ & Es & Hio & H).
  destruct (H 3 Right eq_refl) as (a & o' & Ea & Eo & _ & Hk & _). split; [done|]. exists self', op, patch, ps', o'.
  rewrite E0 in Ea. injection Ea as <-. split; [done|]. split; [rewrite Es; reflexivity|]. split; [apply Hio, sample_in_order|]. by split.
Defined.

Lemma anchor_order_witness :
  offset_for_anchor true SampleEdit.snapshot before_lo = Ret 3 /\ offset_for_anchor true SampleEdit.snapshot after_xx = Ret 3
  /\ exists c, anchor_cmp true SampleEdit.snapshot before_lo after_xx = Ret c /\ c = Lt
       /\ anchor_cmp true SampleEdit.snapshot after_xx before_lo = Ret (CompOpp c).
Proof.
  destruct (anchor_order true SampleEdit.snapshot SampleEdit.parts before_lo after_xx SampleEdit.snapshot_spells sample_stamps sample_in_order
    (proj1 sample_resolvable) (proj2 sample_resolvable) (fun _ => conj eq_refl eq_refl) (fun _ => conj eq_refl eq_refl))
    as (c & oa & ob & E & E' & _).
  split; [vm_compute; reflexivity|]. split; [vm_compute; reflexivity|]. exists c. split; [done|]. split; [|done].
  assert (E2 : anchor_cmp true SampleEdit.snapshot before_lo after_xx = Ret Lt) by (vm_compute; reflexivity). rewrite E in E2. by injection E2.
Defined.
