(* ===== verification/FragmentUndo.v ===== *)
(** * Undoing edits in a buffer's text ([Buffer::apply_undo] in [crates/text/src/text.rs])

    What an undo operation names is looked up in the set of slices that edits inserted or
    deleted, then in the index of insertions; the fragments found are given the visibility
    that the undo map says, in one walk. *)

From S2P Require Import Prelude.
From S2P Require Import Clock.
From S2P Require Import Locator.
From S2P Require Import Patch.
From S2P Require Import UndoMap.
From S2P Require Import SumTree.
From S2P Require Import SumCursor.
From S2P Require Import KeyedTree.
From S2P Require Import TreeMap.
From S2P Require Import Text.
From S2P Require Import Chunk.
From S2P Require Import Rope.
From S2P Require Import Fragments.
From S2P Require Import LocalEdit.
Local Open Scope nat_scope.

(** [sort_unstable] and [sort_unstable_by_key]: slices with the same key differ in their
    edit only, which is not looked at again, and locators with the same key are equal, so
    that one sorted order stands for all. *)
Section Sorting.
Context {A : Type} (cmp : A -> A -> comparison).
Fixpoint insert_sorted (x : A) (l : list A) : list A :=
  match l with
  | [] => [x]
  | y :: l' => match cmp x y with Gt => y :: insert_sorted x l' | _ => x :: l end
  end.
Definition sort_unstable (l : list A) : list A := foldr insert_sorted [] l.
End Sorting.

(** By the insertion, the start, and the end in reverse. *)
Definition slice_key_cmp (a b : InsertionSlice) : comparison :=
  then_with (ord_cmp (slice_insertion a) (slice_insertion b))
    (then_with (Nat.compare (slice_start a) (slice_start b)) (Nat.compare (slice_end b) (slice_end a))).

Fixpoint take_while {A} (f : A -> bool) (l : list A) : list A :=
  match l with [] => [] | x :: l => if f x then x :: take_while f l else [] end.

Definition slices_for_edit (self : BufferSnapshot) (edit_id : Stamp) : res (list InsertionSlice) :=
  slices ← set_iter_from (insertion_slices self) (mkSlice edit_id STAMP_MIN 0 0);
  Ret (take_while (fun slice => bool_decide (slice_edit slice = edit_id)) slices).
Fixpoint slices_for_edits (self : BufferSnapshot) (edit_ids : list Stamp) : res (list InsertionSlice) :=
  match edit_ids with
  | [] => Ret []
  | edit_id :: edit_ids =>
      slices ← slices_for_edit self edit_id;
      rest ← slices_for_edits self edit_ids;
      Ret (slices ++ rest)
  end.

Definition InsertionsCursor : Type := cursor InsertionFragment InsertionFragmentKey InsertionFragmentKey.

(** The fragments of a slice, from where the cursor is. *)
Fixpoint slice_fragments (fuel : nat) (c : InsertionsCursor) (insertion_slice : InsertionSlice) (fragment_ids : list (list Z))
    : res (InsertionsCursor * list (list Z)) :=
  item ← item c;
  match item with
  | None => Ret (c, fragment_ids)
  | Some item =>
      if negb (bool_decide (key_timestamp (insertion_key item) = slice_insertion insertion_slice))
         || (slice_end insertion_slice <=? split_offset (insertion_key item))
      then Ret (c, fragment_ids)
      else
        match fuel with
        | O => Panic
        | S fuel => c ← next c; slice_fragments fuel c insertion_slice (fragment_ids ++ [fragment_id item])
        end
  end.
Definition seek_slice (c : InsertionsCursor) (insertion_slice : InsertionSlice) : res InsertionsCursor :=
  if negb (bool_decide (slice_insertion insertion_slice = key_timestamp (start c)))
     || (split_offset (start c) <? slice_start insertion_slice)
  then
    r ← seek_forward c (mkInsertionKey (slice_insertion insertion_slice) (slice_start insertion_slice)) Left;
    Ret (snd r)
  else Ret c.
Fixpoint slices_fragments (fuel : nat) (c : InsertionsCursor) (insertion_slices : list InsertionSlice) (fragment_ids : list (list Z))
    : res (list (list Z)) :=
  match insertion_slices with
  | [] => Ret fragment_ids
  | insertion_slice :: insertion_slices =>
      c ← seek_slice c insertion_slice;
      r ← slice_fragments fuel c insertion_slice fragment_ids;
      let '(c, fragment_ids) := r in
      slices_fragments fuel c insertion_slices fragment_ids
  end.
Definition fragment_ids_for_edits (self : BufferSnapshot) (edit_ids : list Stamp) : res (list (list Z)) :=
  slices ← slices_for_edits self edit_ids;
  ids ← slices_fragments (fuel_for (insertions self)) (cursor_new (insertions self)) (sort_unstable slice_key_cmp slices) [];
  Ret (sort_unstable lex_compare ids).

(** ** The walk *)
Definition LocatorCursor : Type := cursor Fragment FragmentSummary (Dimensions (option (list Z)) nat unit).
Record UndoWalk := mkUndoWalk {
  undo_cursor : LocatorCursor;
  undo_fragments : node Fragment FragmentSummary;
  undo_ropes : RopeBuilder;
  undo_edits : list Patch.Edit;
}.

(** A fragment with the visibility that the undo map says. *)
Definition refreshed (fragment : Fragment) (visible : bool) (timestamp : Stamp) : Fragment :=
  mkFrag (frag_id fragment) (frag_timestamp fragment) (insertion_offset fragment) (frag_len fragment) visible
    (frag_deletions fragment) (version_observe (max_undos fragment) timestamp).
Definition undo_edit (edits : list Patch.Edit) (fragment_was_visible : bool) (fragment : Fragment) (old_start new_start : nat)
    : list Patch.Edit :=
  if fragment_was_visible && negb (visible fragment)
  then Patch.push edits (edit_at old_start (old_start + frag_len fragment) new_start new_start)
  else if negb fragment_was_visible && visible fragment
  then Patch.push edits (edit_at old_start old_start new_start (new_start + frag_len fragment))
  else edits.

Definition undo_step (undo_map : UndoMap) (timestamp : Stamp) (w : UndoWalk) (id : list Z) : res UndoWalk :=
  let '(mkUndoWalk c new_fragments new_ropes edits) := w in
  r ← SumCursor.slice c (Some id) Left;
  let '(preceding_fragments, c) := r in
  new_ropes ← ropes_append new_ropes (summary_text_len (node_summary preceding_fragments));
  new_fragments ← SumTree.append new_fragments preceding_fragments;
  item ← item c;
  match item with
  | None => Ret (mkUndoWalk c new_fragments new_ropes edits)
  | Some old =>
      is_visible ← UndoMap.is_visible (visibility old) undo_map;
      let fragment := refreshed old is_visible timestamp in
      let edits := undo_edit edits (visible old) fragment (dim2 (start c)) (text_visible (summary_text_len (node_summary new_fragments))) in
      new_ropes ← push_fragment new_ropes fragment (visible old);
      new_fragments ← SumTree.push new_fragments fragment;
      c ← next c;
      Ret (mkUndoWalk c new_fragments new_ropes edits)
  end.
Fixpoint undo_loop (undo_map : UndoMap) (timestamp : Stamp) (w : UndoWalk) (fragment_ids : list (list Z)) : res UndoWalk :=
  match fragment_ids with
  | [] => Ret w
  | id :: fragment_ids => w ← undo_step undo_map timestamp w id; undo_loop undo_map timestamp w fragment_ids
  end.

Definition with_undo_map (self : BufferSnapshot) (undo_map : UndoMap) : BufferSnapshot :=
  mkSnapshot (visible_text self) (deleted_text self) (fragments self) (insertions self) (insertion_slices self) undo_map (version self) (remote_id self).

(** The snapshot after an undo operation, and the edits that subscribers are told.  The keys
    of the counts come in the order of their map. *)
Definition apply_undo (self : BufferSnapshot) (undo : UndoOperation) : res (BufferSnapshot * list Patch.Edit) :=
  undo_map ← UndoMap.insert (snapshot_undo_map self) undo;
  let self := with_undo_map self undo_map in
  ropes ← ropes_new (visible_text self) (deleted_text self);
  ids ← fragment_ids_for_edits self (map fst (map_to_list (counts undo)));
  w ← undo_loop undo_map (UndoMap.timestamp undo) (mkUndoWalk (cursor_new (fragments self)) SumTree.new ropes []) ids;
  r ← SumCursor.suffix (undo_cursor w);
  ropes ← ropes_append (undo_ropes w) (summary_text_len (node_summary (fst r)));
  new_fragments ← SumTree.append (undo_fragments w) (fst r);
  texts ← ropes_finish ropes;
  Ret (mkSnapshot (fst texts) (snd texts) new_fragments (insertions self) (insertion_slices self) undo_map (version self) (remote_id self),
       undo_edits w).
