(* ===== verification/UndoIds.v ===== *)
(** * Which fragments an undo finds

    The fragments of some edits are found through the slices that the edits touched: the
    sorted ids of every fragment in one of them, each once. *)

From S2P Require Import Prelude.
From S2P Require Import Clock.
From S2P Require Import Locator.
From S2P Require Import UndoMap.
From S2P Require Import UndoMapSpec.
From S2P Require Import SumTree.
From S2P Require Import SumTreeInvariant.
From S2P Require Import SumTreeFind.
From S2P Require Import SumCursor.
From S2P Require Import SumCursorSeek.
From S2P Require Import SumCursorSearch.
From S2P Require Import SumIter.
From S2P Require Import KeyedTree.
From S2P Require Import KeyedTreeSpec.
From S2P Require Import TreeMap.
From S2P Require Import TreeMapSpec.
From S2P Require Import Fragments.
From S2P Require Import FragmentsSpec.
From S2P Require Import LocalEdit.
From S2P Require Import FragmentUndo.
Local Open Scope nat_scope.

(** ** Sorting *)
Section Sorting.
Context {A : Type} (cmp : A -> A -> comparison) (R : A -> A -> Prop) `{!Transitive R}.
Context (Hle : forall x y, cmp x y <> Gt -> R x y) (Hgt : forall x y, cmp x y = Gt -> R y x).

Lemma insert_sorted_perm x l : insert_sorted cmp x l ≡ₚ x :: l.
Proof. induction l as [|y l IH]; [done|]. cbn. destruct (cmp x y); [done..|]. rewrite IH. apply Permutation_swap. Qed.
Lemma sort_perm l : sort_unstable cmp l ≡ₚ l.
Proof. induction l as [|x l IH]; [done|]. cbn. by rewrite insert_sorted_perm, IH. Qed.
Lemma insert_sorted_ok x l : StronglySorted R l -> StronglySorted R (insert_sorted cmp x l).
Proof.
  induction l as [|y l IH]; [by repeat constructor|]. intros [Hs Hy]%StronglySorted_inv. cbn.
  assert (cmp x y <> Gt -> StronglySorted R (x :: y :: l)) as Hfront.
  { intros H%Hle. constructor; [by constructor|]. constructor; [done|]. eapply Forall_impl; [exact Hy|]. intros z ?. by etrans. }
  destruct (cmp x y) eqn:E; [by apply Hfront..|]. constructor; [by apply IH|]. rewrite insert_sorted_perm. constructor; [by apply Hgt|done].
Qed.
Lemma sort_sorted l : StronglySorted R (sort_unstable cmp l).
Proof. induction l as [|x l IH]; [constructor|]. by apply insert_sorted_ok. Qed.
End Sorting.

(** *** Filters *)
Section Filters.
Context {A : Type} (f g : A -> bool).
Lemma filter_same (l : list A) : (forall a, In a l -> f a = g a) -> List.filter f l = List.filter g l.
Proof. induction l as [|a l IH]; intros H; [done|]. cbn. rewrite (H a) by by left. rewrite IH; [done|]. intros b Hb. apply H. by right. Qed.
Lemma filter_none (l : list A) : (forall a, In a l -> f a = false) -> List.filter f l = [].
Proof. induction l as [|a l IH]; intros H; [done|]. cbn. rewrite (H a) by by left. apply IH. intros b Hb. apply H. by right. Qed.
Lemma filter_id (l : list A) : (forall a, In a l -> f a = true) -> List.filter f l = l.
Proof. induction l as [|a l IH]; intros H; [done|]. cbn. rewrite (H a) by by left. f_equal. apply IH. intros b Hb. apply H. by right. Qed.
End Filters.

(** Locators, each once, are in strict order. *)
Lemma sort_ids l : NoDup l -> StronglySorted lex_lt (sort_unstable lex_compare l).
Proof.
  intros Hn. set (R := fun a b => lex_lt a b \/ a = b).
  assert (Transitive R) as HR by (intros x y z [H1|H1] [H2|H2]; subst; [left; by etrans|by left..|by right]).
  assert (StronglySorted R (sort_unstable lex_compare l)) as H.
  { apply (sort_sorted lex_compare R).
    - intros x y H. destruct (lex_compare x y) eqn:E; [right; by apply lex_compare_eq|by left|done].
    - intros x y H. left. by apply lex_gt. }
  assert (NoDup (sort_unstable lex_compare l)) as Hn' by by rewrite sort_perm.
  revert Hn'. induction H as [|x k Hk IH Hx]; [constructor|]. intros [Hxk Hn']%NoDup_cons. constructor; [by apply IH|].
  apply Forall_forall. intros y Hy. pose proof (proj1 (Forall_forall _ _) Hx y Hy) as [?|E]; [done|]. by rewrite E in Hxk.
Qed.

(** ** Entries and slices *)
Notation entry := InsertionFragment.
Implicit Types (x y : entry) (s : InsertionSlice) (L pre post : list entry).
Definition ins_of x : Stamp := key_timestamp (insertion_key x).
Definition off_of x : nat := split_offset (insertion_key x).
Definition in_slice s x : bool :=
  bool_decide (ins_of x = slice_insertion s) && (slice_start s <=? off_of x) && (off_of x <? slice_end s).
Definition in_slices (ss : list InsertionSlice) x : bool := existsb (fun s => in_slice s x) ss.
Definition slice_key s : InsertionFragmentKey := mkInsertionKey (slice_insertion s) (slice_start s).
Notation sorted := (sorted (Key:=InsertionFragmentKey)).

Lemma in_slice_true s x : in_slice s x = true <-> ins_of x = slice_insertion s /\ slice_start s <= off_of x < slice_end s.
Proof. unfold in_slice. rewrite !andb_true_iff, bool_decide_eq_true, Nat.leb_le, Nat.ltb_lt. tauto. Qed.
Lemma in_slices_true ss x : in_slices ss x = true <-> exists s, In s ss /\ in_slice s x = true.
Proof. apply existsb_exists. Qed.
Lemma in_slices_app ss ss' x : in_slices (ss ++ ss') x = in_slices ss x || in_slices ss' x.
Proof. apply existsb_app. Qed.

Lemma key_cmp (a b : InsertionFragmentKey) :
  ord_cmp a b = then_with (ord_cmp (key_timestamp a) (key_timestamp b)) (Nat.compare (split_offset a) (split_offset b)).
Proof. unfold ord_cmp at 1, insertion_key_ord. by destruct (ord_cmp (key_timestamp a) (key_timestamp b)). Qed.
Lemma key_lt_iff (a b : InsertionFragmentKey) : ord_cmp a b = Lt <->
  ord_cmp (key_timestamp a) (key_timestamp b) = Lt \/ key_timestamp a = key_timestamp b /\ split_offset a < split_offset b.
Proof.
  rewrite key_cmp, <-(ord_eq (key_timestamp a)), <-Nat.compare_lt_iff.
  destruct (ord_cmp (key_timestamp a) (key_timestamp b)); cbn; naive_solver.
Qed.
Lemma key_ge_iff (a b : InsertionFragmentKey) : ord_cmp a b <> Lt <->
  ord_cmp (key_timestamp a) (key_timestamp b) = Gt \/ key_timestamp a = key_timestamp b /\ split_offset b <= split_offset a.
Proof.
  rewrite key_cmp, <-(ord_eq (key_timestamp a)). destruct (ord_cmp (key_timestamp a) (key_timestamp b)); cbn; [|naive_solver..].
  destruct (Nat.compare_spec (split_offset a) (split_offset b)); naive_solver lia.
Qed.

(** The order of slices: by insertion, then by start. *)
Definition slice_le s s' : Prop :=
  ord_cmp (slice_insertion s) (slice_insertion s') = Lt
  \/ slice_insertion s = slice_insertion s' /\ slice_start s <= slice_start s'.
#[local] Instance slice_le_trans : Transitive slice_le.
Proof.
  intros a b c [H1|[H1 H1']] [H2|[H2 H2']]; unfold slice_le.
  - left. by eapply ord_trans.
  - left. by rewrite <-H2.
  - left. by rewrite H1.
  - right. split; [congruence|lia].
Qed.
Lemma slices_sorted ss : StronglySorted slice_le (sort_unstable slice_key_cmp ss).
Proof.
  apply sort_sorted; [exact _| |]; intros a b; unfold slice_key_cmp, slice_le.
  - destruct (ord_cmp (slice_insertion a) (slice_insertion b)) eqn:E; cbn [then_with]; [|by left|done].
    apply ord_eq in E. intros H. right. split; [done|]. destruct (Nat.compare_spec (slice_start a) (slice_start b)); cbn in H; [lia|lia|done].
  - destruct (ord_cmp (slice_insertion a) (slice_insertion b)) eqn:E; cbn [then_with]; [|done|].
    + apply ord_eq in E. intros H. right. split; [done|]. destruct (Nat.compare_spec (slice_start a) (slice_start b)); cbn in H; [lia|done|lia].
    + intros _. left. by apply ord_gt.
Qed.

(** ** The cursor over the index *)
Section Index.
Context (t : node entry InsertionFragmentKey) (h : nat) (Hw : wf h t) (Hh : h < STACK_CAPACITY) (Hs : sorted (to_list t)).
Notation L := (to_list t).
Notation at_place := (at_place t h).

Lemma start_key c p pre post x : at_place c p -> ahead t p (pre ++ [x]) post -> (pre ++ [x]) ++ post = L -> start c = insertion_key x.
Proof.
  intros Hc Hp El. rewrite (start_ok _ _ _ _ Hc).
  assert (match p with Unsought | Front => [] | At l _ _ => l | Back => L end = pre ++ [x]) as ->.
  { destruct p; cbn in Hp; [by destruct Hp as [Hp _]; destruct pre|done|by destruct Hp|by destruct Hp]. }
  apply (advance_key (S:=InsertionFragmentKey)); [apply above_zero|]. rewrite <-El in Hs. by apply sorted_app in Hs as [? _].
Qed.

(** Seeking to a slice skips what is in front of it. *)
Lemma seek_slice_ok c p pre post s :
  at_place c p -> ahead t p pre post -> pre ++ post = L -> slice_insertion s <> STAMP_MIN ->
  (forall x, In x pre -> ord_cmp (ins_of x) (slice_insertion s) <> Gt) ->
  exists c' mid post', seek_slice c s = Ret c' /\ post = mid ++ post' /\ at_place c' (place_of (pre ++ mid) post')
    /\ (forall x, In x mid -> ord_cmp (insertion_key x) (slice_key s) = Lt)
    /\ (forall x, In x post' -> ord_cmp (insertion_key x) (slice_key s) <> Lt).
Proof.
  intros Hc Hp El Hmin Hpre. unfold seek_slice. fold (slice_key s).
  assert (forall x y, In x pre -> In y post -> ord_cmp (insertion_key x) (insertion_key y) = Lt) as Hlt.
  { rewrite <-El in Hs. apply sorted_app in Hs as (_ & _ & Hs'). exact Hs'. }
  destruct (negb (bool_decide (slice_insertion s = key_timestamp (start c))) || (split_offset (start c) <? slice_start s)) eqn:Eseek.
  - assert (forall x, In x pre -> ord_cmp (insertion_key x) (slice_key s) = Lt) as Hprelt.
    { destruct pre as [|z pre' _] using rev_ind; [done|]. rewrite (start_key c p _ post z Hc Hp El) in Eseek.
      assert (ord_cmp (insertion_key z) (slice_key s) = Lt) as Hz.
      { apply key_lt_iff. cbn [slice_key key_timestamp split_offset]. specialize (Hpre z ltac:(apply in_or_app; right; by left)). unfold ins_of in Hpre.
        destruct (ord_cmp (key_timestamp (insertion_key z)) (slice_insertion s)) eqn:E; [|by left|done]. apply ord_eq in E. right. split; [done|].
        rewrite E, bool_decide_eq_true_2 in Eseek by done. by apply Nat.ltb_lt in Eseek. }
      intros x [Hx|[->|[]]]%in_app_or; [|done]. rewrite <-El, <-app_assoc in Hs. apply sorted_app in Hs as (_ & _ & Hs').
      eapply ord_trans; [|exact Hz]. apply (Hs' x z Hx). by left. }
    assert (all_above (advance dim_zero pre) post /\ target_cmp (slice_key s) (advance (D:=InsertionFragmentKey) dim_zero pre) <> Lt) as [Hab Hsk].
    { destruct pre as [|z pre' _] using rev_ind.
      - split; [apply above_zero|]. intros H. apply ord_gt in H. by apply (zero_least (slice_key s)).
      - rewrite <-El in Hs. apply sorted_app in Hs as (Hs' & _ & _).
        assert (advance dim_zero (pre' ++ [z]) = insertion_key z) as Ez by (apply (advance_key (S:=InsertionFragmentKey)); [apply above_zero|done]).
        rewrite Ez. split.
        + apply Forall_forall. intros y Hy. apply list_elem_of_In in Hy. change (key y) with (insertion_key y). rewrite (Hlt z y); [done|apply in_or_app; right; by left|done].
        + intros H. unfold target_cmp, ord_target in H. apply ord_gt in H. rewrite (Hprelt z) in H; [done|apply in_or_app; right; by left]. }
    assert (sorted post) as Hspost by (rewrite <-El in Hs; by apply sorted_app in Hs as (_ & ? & _)).
    assert (seekable (slice_key s) pre post) as Hseek.
    { split; [done|]. apply (sorted_ordered (S:=InsertionFragmentKey)); [apply key_monotone|done..]. }
    destruct (seek_forward_ok _ _ (slice_key s) Left c p pre post Hh Hw Hc Hp Hseek) as (c' & -> & Hc'). cbn [mbind res_bind snd].
    destruct (scan_sorted (S:=InsertionFragmentKey) (slice_key s) Left (advance dim_zero pre) post (key_monotone _) Hab Hspost) as [E1 E2].
    unfold passed, left_over in Hc'. unfold passed in Hc'. rewrite E2, E1 in Hc'.
    exists c', (List.filter (fun x => negb (stop_at (slice_key s) Left x)) post), (List.filter (stop_at (slice_key s) Left) post).
    split_and!; [done| |done| |].
    + pose proof (before_prefix (slice_key s) Left (advance dim_zero pre) post) as Ep. by rewrite E2, E1 in Ep.
    + intros x [_ Hx]%filter_In. unfold stop_at, target_in, target_cmp, ord_target in Hx. change (key x) with (insertion_key x) in Hx.
      rewrite (ord_opp (insertion_key x)) in Hx. by destruct (ord_cmp (insertion_key x) (slice_key s)).
    + intros x [_ Hx]%filter_In. unfold stop_at, target_in, target_cmp, ord_target in Hx. change (key x) with (insertion_key x) in Hx.
      rewrite (ord_opp (insertion_key x)) in Hx. by destruct (ord_cmp (insertion_key x) (slice_key s)).
  - exists c, [], post. apply orb_false_iff in Eseek as [E1 E2]. apply negb_false_iff, bool_decide_eq_true in E1. apply Nat.ltb_ge in E2.
    destruct pre as [|z pre' _] using rev_ind.
    { exfalso. rewrite (start_ok _ _ _ _ Hc) in E1.
      assert (match p with Unsought | Front => [] | At l _ _ => l | Back => L end = []) as E0.
      { destruct p; cbn in Hp; [done|done|by destruct Hp|by destruct Hp]. }
      rewrite E0 in E1. by apply Hmin. }
    rewrite (start_key c p _ post z Hc Hp El) in E1, E2. rewrite app_nil_r. split_and!; [done|done| |done|].
    + destruct p; cbn in Hp; [by destruct Hp as [Hp _]; destruct pre'|done|destruct Hp as [-> ->]; done|destruct Hp as [E ->]; done].
    + intros x Hx. pose proof (Hlt z x ltac:(apply in_or_app; right; by left) Hx) as Hzx. intros H.
      pose proof (ord_trans _ _ _ Hzx H) as Hz. apply key_lt_iff in Hz. cbn [slice_key key_timestamp split_offset] in Hz.
      destruct Hz as [Hz|[_ Hz]]; [|lia]. rewrite E1, ord_refl in Hz. done.
Qed.

(** The fragments of a slice are taken from there on. *)
Lemma slice_fragments_ok fuel c pre post s ids :
  at_place c (place_of pre post) -> pre ++ post = L -> length post < fuel ->
  (forall x, In x post -> ord_cmp (insertion_key x) (slice_key s) <> Lt) ->
  exists c' taken post', slice_fragments fuel c s ids = Ret (c', ids ++ map fragment_id taken)
    /\ post = taken ++ post' /\ at_place c' (place_of (pre ++ taken) post')
    /\ (forall x, In x taken -> in_slice s x = true) /\ (forall x, In x post' -> in_slice s x = false).
Proof.
  revert c pre post ids. induction fuel as [|fuel IH]; intros c pre post ids Hc El Hf Hge; [lia|].
  cbn [slice_fragments]. rewrite (item_ok _ _ _ _ Hc). destruct post as [|x post]; cbn [place_of mbind res_bind].
  { exists c, [], []. rewrite !app_nil_r. split_and!; done. }
  assert (ord_cmp (insertion_key x) (slice_key s) <> Lt) as Hx by (apply Hge; by left).
  destruct (negb (bool_decide (key_timestamp (insertion_key x) = slice_insertion s)) || (slice_end s <=? split_offset (insertion_key x))) eqn:E.
  - exists c, [], (x :: post). rewrite !app_nil_r. split_and!; [done..|]. intros y Hy. apply not_true_is_false. intros [E1 E2]%in_slice_true.
    assert (ord_cmp (insertion_key y) (insertion_key x) <> Lt) as Hxy.
    { destruct Hy as [->|Hy]; [by rewrite ord_refl|]. rewrite <-El in Hs. apply sorted_app in Hs as (_ & [Hs' _]%sorted_cons & _).
      eapply Forall_forall in Hs'; [|by apply list_elem_of_In]. unfold key_lt in Hs'. apply ord_gt in Hs'. change (key y) with (insertion_key y) in Hs'. change (key x) with (insertion_key x) in Hs'. by rewrite Hs'. }
    apply key_ge_iff in Hx, Hxy. cbn [slice_key key_timestamp split_offset] in *. unfold ins_of, off_of in *. rewrite E1 in Hxy.
    apply orb_true_iff in E as [E|E].
    + apply negb_true_iff, bool_decide_eq_false in E. destruct Hx as [Hx|[Hx _]]; [|done]. destruct Hxy as [Hxy|[Hxy _]]; [|by rewrite Hxy in E].
      apply ord_gt in Hx, Hxy. pose proof (ord_trans _ _ _ Hx Hxy) as H. by rewrite ord_refl in H.
    + apply Nat.leb_le in E. destruct Hxy as [Hxy|[_ Hxy]]; [|lia]. destruct Hx as [Hx|[Hx _]]; [|by rewrite Hx, ord_refl in Hxy].
      apply ord_gt in Hx, Hxy. pose proof (ord_trans _ _ _ Hx Hxy) as H. by rewrite ord_refl in H.
  - destruct (next_ok t h Hw c _ Hh Hc) as (c1 & -> & Hc1). cbn [place_of later fst snd mbind res_bind] in *.
    destruct (IH c1 (pre ++ [x]) post (ids ++ [fragment_id x]) Hc1) as (c' & taken & post' & -> & -> & Hc' & H1 & H2).
    { by rewrite <-app_assoc. } { cbn in Hf. lia. } { intros y Hy. apply Hge. by right. }
    exists c', (x :: taken), post'. rewrite <-!app_assoc in *. cbn [app map] in *. split_and!; [done..| |done].
    intros y [<-|Hy]; [|by apply H1]. apply in_slice_true. apply orb_false_iff in E as [E1 E2].
    apply negb_false_iff, bool_decide_eq_true in E1. apply Nat.leb_gt in E2. unfold ins_of, off_of. split; [done|].
    apply key_ge_iff in Hx. cbn [slice_key key_timestamp split_offset] in Hx. rewrite E1 in Hx. destruct Hx as [Hx|[_ Hx]]; [by rewrite ord_refl in Hx|lia].
Qed.

(** What has been found when some slices are done and the others are not. *)
Record visited (ss rest : list InsertionSlice) pre post (ids : list (list Z)) : Prop := {
  visited_ids : ids = map fragment_id (List.filter (in_slices ss) pre);
  visited_ahead : forall x, In x post -> in_slices ss x = false;
  visited_past : forall s x, In s rest -> In x pre -> ord_cmp (ins_of x) (slice_insertion s) <> Gt;
  visited_again : forall s x, In s rest -> In x pre -> ins_of x = slice_insertion s -> slice_start s <= off_of x -> in_slices ss x = true;
}.

Lemma before_slice x s : ord_cmp (insertion_key x) (slice_key s) = Lt -> in_slice s x = false.
Proof.
  intros Hx. apply not_true_is_false. intros [E1 E2]%in_slice_true. apply key_lt_iff in Hx. cbn [slice_key key_timestamp split_offset] in Hx.
  unfold ins_of, off_of in *. rewrite E1, ord_refl in Hx. destruct Hx as [?|[_ ?]]; [done|lia].
Qed.

Lemma visit_slice ss s rest pre mid taken post ids :
  visited ss (s :: rest) pre (mid ++ taken ++ post) ids -> StronglySorted slice_le (s :: rest) ->
  (forall x, In x mid -> ord_cmp (insertion_key x) (slice_key s) = Lt) ->
  (forall x, In x taken -> in_slice s x = true) -> (forall x, In x post -> in_slice s x = false) ->
  visited (ss ++ [s]) rest ((pre ++ mid) ++ taken) post (ids ++ map fragment_id taken).
Proof.
  intros [V1 V2 V3 V4] [_ Hle]%StronglySorted_inv Hmid Htaken Hpost. rewrite Forall_forall in Hle.
  split.
  - rewrite !List.filter_app, !map_app, V1, <-app_assoc. f_equal.
    + f_equal. apply filter_same. intros x Hx. rewrite in_slices_app. cbn. rewrite orb_false_r.
      destruct (in_slice s x) eqn:E; [|by rewrite orb_false_r]. rewrite orb_true_r. apply in_slice_true in E as [E1 E2].
      apply (V4 s x); [by left|done..|lia].
    + rewrite (filter_none _ mid), (filter_id _ taken); [done|..]; intros x Hx; rewrite in_slices_app; cbn.
      * by rewrite (Htaken x Hx), orb_true_r.
      * rewrite (before_slice x s) by by apply Hmid. rewrite V2; [done|]. apply in_or_app. by left.
  - intros x Hx. rewrite in_slices_app. cbn. rewrite (Hpost x Hx), V2; [done|]. rewrite !in_app_iff. tauto.
  - intros s' x Hs' [[Hx|Hx]%in_app_or|Hx]%in_app_or.
    + apply (V3 s' x); [by right|done].
    + specialize (Hmid x Hx). apply key_lt_iff in Hmid. cbn [slice_key key_timestamp] in Hmid. unfold ins_of.
      assert (slice_le s s') as H by (by apply Hle, list_elem_of_In). destruct H as [H|[H _]], Hmid as [Hm|[Hm _]].
      * by rewrite (ord_trans _ _ _ Hm H).
      * by rewrite Hm, H.
      * by rewrite <-H, Hm.
      * rewrite Hm, H, ord_refl. done.
    + apply Htaken, in_slice_true in Hx as [E _]. rewrite E. assert (slice_le s s') as H by (by apply Hle, list_elem_of_In).
      destruct H as [->|[-> _]]; [done|by rewrite ord_refl].
  - intros s' x Hs' [[Hx|Hx]%in_app_or|Hx]%in_app_or E1 E2; rewrite in_slices_app.
    + rewrite (V4 s' x); [done|by right|done..].
    + exfalso. specialize (Hmid x Hx). apply key_lt_iff in Hmid. cbn [slice_key key_timestamp split_offset] in Hmid.
      unfold ins_of, off_of in *. assert (slice_le s s') as H by (by apply Hle, list_elem_of_In). rewrite E1 in Hmid.
      destruct H as [H|[H H']], Hmid as [Hm|[Hm Hm']].
      * pose proof (ord_trans _ _ _ Hm H) as H0. by rewrite ord_refl in H0.
      * by rewrite Hm, ord_refl in H.
      * by rewrite H, ord_refl in Hm.
      * lia.
    + cbn. by rewrite (Htaken x Hx), orb_true_r.
Qed.

Lemma slices_fragments_ok fuel c p ss rest pre post ids :
  at_place c p -> ahead t p pre post -> pre ++ post = L -> length L < fuel ->
  StronglySorted slice_le rest -> Forall (fun s => slice_insertion s <> STAMP_MIN) rest -> visited ss rest pre post ids ->
  slices_fragments fuel c rest ids = Ret (map fragment_id (List.filter (in_slices (ss ++ rest)) L)).
Proof.
  revert c p ss pre post ids. induction rest as [|s rest IH]; intros c p ss pre post ids Hc Hp El Hf Hsort Hmin Hv.
  { cbn. destruct Hv as [-> V2 _ _]. rewrite app_nil_r, <-El, List.filter_app, (filter_none _ post), app_nil_r; done. }
  apply Forall_cons in Hmin as [Hms Hmin]. cbn [slices_fragments].
  destruct (seek_slice_ok c p pre post s Hc Hp El Hms) as (c1 & mid & post1 & -> & -> & Hc1 & H1 & H2).
  { intros x Hx. apply (visited_past _ _ _ _ _ Hv); [by left|done]. }
  cbn [mbind res_bind]. rewrite app_assoc in El.
  destruct (slice_fragments_ok fuel c1 (pre ++ mid) post1 s ids Hc1 El) as (c2 & taken & post2 & -> & -> & Hc2 & H4 & H5); [|done|].
  { rewrite <-El, length_app in Hf. lia. }
  cbn [mbind res_bind]. rewrite app_assoc in El.
  assert (ss ++ s :: rest = (ss ++ [s]) ++ rest) as -> by by rewrite <-app_assoc.
  apply (IH c2 _ (ss ++ [s]) _ _ _ Hc2 (ahead_place_of t _ _ El) El Hf); [by apply StronglySorted_inv in Hsort as [? _]|done|].
  by apply visit_slice.
Qed.
End Index.

(** ** The slices of edits *)
Lemma take_while_elem {A} (f : A -> bool) (l : list A) a :
  StronglySorted (fun a b => f b = true -> f a = true) l -> In a (take_while f l) <-> In a l /\ f a = true.
Proof.
  induction 1 as [|b l Hl IH Hb]; [cbn; tauto|]. cbn. destruct (f b) eqn:E; cbn; rewrite ?IH.
  - split; [intros [->|[? ?]]; auto|tauto].
  - split; [done|]. intros [[->|Ha] Hf]; [congruence|]. rewrite Forall_forall in Hb.
    pose proof (Hb a (proj2 (list_elem_of_In _ _) Ha) Hf). congruence.
Qed.

Section Slices.
Context (self : BufferSnapshot).
Notation m := (insertion_slices self).
Context (Hm : map_ok (height m) m) (Hh : height m < STACK_CAPACITY).

(** A slice is in the set. *)
Definition has_slice s : Prop := contents m !! s = Some tt.
Lemma has_slice_entry s : has_slice s <-> exists e, In e (to_list m) /\ entry_key e = s.
Proof.
  unfold has_slice, contents. rewrite entries_lookup. split.
  - intros H. destruct (lookup_key _ _) as [e|] eqn:E; [|done]. unfold lookup_key in E. apply find_some in E as [He Hk].
    rewrite key_is_entry in Hk. apply bool_decide_eq_true in Hk. by exists e.
  - intros (e & He & Ek). destruct (lookup_key _ _) as [[k []]|] eqn:E; [done|]. unfold lookup_key in E.
    pose proof (find_none _ _ E e He) as H. rewrite key_is_entry, bool_decide_eq_true_2 in H; done.
Qed.

Lemma slice_least s e : slice_edit s = e -> ord_cmp s (mkSlice e STAMP_MIN 0 0) <> Lt.
Proof.
  intros <-. unfold ord_cmp at 1, insertion_slice_ord. cbn [slice_edit slice_insertion slice_start slice_end]. rewrite ord_refl. cbn [then_with].
  pose proof (stamp_min_least (slice_insertion s)) as H. rewrite (ord_opp STAMP_MIN). destruct (ord_cmp STAMP_MIN (slice_insertion s)); cbn; [|done|done].
  destruct (slice_start s); [|done]. by destruct (slice_end s).
Qed.
Lemma slice_edit_le s s' : ord_cmp s s' = Lt -> ord_cmp (slice_edit s) (slice_edit s') <> Gt.
Proof. unfold ord_cmp at 1, insertion_slice_ord. by destruct (ord_cmp (slice_edit s) (slice_edit s')). Qed.
Lemma slice_edit_ge s e : ord_cmp s (mkSlice e STAMP_MIN 0 0) <> Lt -> ord_cmp (slice_edit s) e <> Lt.
Proof. unfold ord_cmp at 1, insertion_slice_ord. cbn [slice_edit]. by destruct (ord_cmp (slice_edit s) e). Qed.

Lemma slices_for_edit_ok e :
  exists ss, slices_for_edit self e = Ret ss /\ forall s, In s ss <-> has_slice s /\ slice_edit s = e.
Proof.
  destruct Hm as [Hw Hs]. unfold slices_for_edit, set_iter_from. rewrite (iter_from_ok _ _ Hw Hs Hh). cbn [mbind res_bind mret res_ret].
  eexists. split; [done|]. intros s. rewrite map_map. cbn [to_pair fst].
  set (l := List.filter _ _). assert (StronglySorted (fun a b => ord_cmp (slice_edit (entry_key a)) (slice_edit (entry_key b)) <> Gt) l
    /\ Forall (fun a => ord_cmp (slice_edit (entry_key a)) e <> Lt) l) as [Hsl Hge].
  { unfold l. clear l. unfold sorted_entries in Hs. induction (to_list m) as [|a l IH]; [by split; constructor|].
    apply sorted_cons in Hs as [Ha Hs]. destruct (IH Hs) as [IH1 IH2]. cbn.
    destruct (negb (is_lt (ord_cmp (entry_key a) (mkSlice e STAMP_MIN 0 0)))) eqn:E; [|done]. split; constructor; [done| | |done].
    - apply Forall_forall. intros b Hb. apply list_elem_of_In, filter_In in Hb as [Hb _].
      eapply Forall_forall in Ha; [|by apply list_elem_of_In]. by apply slice_edit_le.
    - apply slice_edit_ge. by destruct (ord_cmp (entry_key a) _). }
  rewrite take_while_elem.
  - rewrite has_slice_entry, bool_decide_eq_true, in_map_iff. split.
    + intros [(a & <- & Ha) He]. apply filter_In in Ha as [Ha _]. split; [by exists a|done].
    + intros [(a & Ha & <-) He]. split; [|done]. exists a. split; [done|]. apply filter_In. split; [done|].
      pose proof (slice_least _ _ He). by destruct (ord_cmp (entry_key a) _).
  - clear -Hsl Hge. induction Hsl as [|a l Hsl IH Ha]; [constructor|]. apply Forall_cons in Hge as [Hge Hge']. cbn [map]. constructor; [by apply IH|].
    apply Forall_forall. intros s Hs. apply list_elem_of_fmap in Hs as (b & -> & Hb). intros Eb%bool_decide_eq_true. apply bool_decide_eq_true.
    eapply Forall_forall in Ha; [|exact Hb]. rewrite Eb in Ha. apply ord_eq. by destruct (ord_cmp (slice_edit (entry_key a)) e).
Qed.
Lemma slices_for_edits_ok es :
  exists ss, slices_for_edits self es = Ret ss /\ forall s, In s ss <-> has_slice s /\ In (slice_edit s) es.
Proof.
  induction es as [|e es (ss & E & IH)]; [exists []; split; [done|cbn; tauto]|]. cbn [slices_for_edits].
  destruct (slices_for_edit_ok e) as (ss' & -> & H). rewrite E. cbn [mbind res_bind]. eexists. split; [done|].
  intros s. rewrite in_app_iff, H, IH. cbn. naive_solver.
Qed.
End Slices.

(** ** The fragments of edits *)
Lemma fragment_ids_for_edits_ok (self : BufferSnapshot) es :
  map_ok (height (insertion_slices self)) (insertion_slices self) -> height (insertion_slices self) < STACK_CAPACITY ->
  wf (height (insertions self)) (insertions self) -> height (insertions self) < STACK_CAPACITY -> sorted (to_list (insertions self)) ->
  (forall s, has_slice self s -> slice_insertion s <> STAMP_MIN) -> NoDup (map fragment_id (to_list (insertions self))) ->
  exists ids, fragment_ids_for_edits self es = Ret ids /\ StronglySorted lex_lt ids
    /\ forall id, In id ids <-> exists x s, In x (to_list (insertions self)) /\ fragment_id x = id
         /\ has_slice self s /\ In (slice_edit s) es /\ in_slice s x = true.
Proof.
  intros Hm Hmh Hw Hh Hs Hmin Hnd. unfold fragment_ids_for_edits. destruct (slices_for_edits_ok self Hm Hmh es) as (ss & -> & Hss).
  cbn [mbind res_bind]. set (ss' := sort_unstable slice_key_cmp ss).
  assert (forall s, In s ss' <-> has_slice self s /\ In (slice_edit s) es) as Hss'.
  { intros s. rewrite <-Hss, <-!list_elem_of_In. unfold ss'. by rewrite sort_perm. }
  rewrite (slices_fragments_ok _ _ Hw Hh Hs (fuel_for (insertions self)) (cursor_new (insertions self)) Unsought [] ss' [] (to_list (insertions self)) []).
  - cbn [mbind res_bind app]. eexists. split; [done|].
    assert (NoDup (map fragment_id (List.filter (in_slices ss') (to_list (insertions self))))) as Hn.
    { eapply sublist_NoDup; [exact Hnd|]. apply (fmap_sublist fragment_id), filter_sublist. }
    split; [by apply sort_ids|]. intros id. rewrite <-list_elem_of_In, sort_perm, list_elem_of_In, in_map_iff. split.
    + intros (x & <- & [Hx (s & Hin & Hsx)%in_slices_true]%filter_In). apply Hss' in Hin as [? ?]. by exists x, s.
    + intros (x & s & Hx & <- & H1 & H2 & H3). exists x. split; [done|]. apply filter_In. split; [done|]. apply in_slices_true. exists s. split; [by apply Hss'|done].
  - apply new_at_place.
  - done.
  - done.
  - pose proof (length_slots _ _ Hw). unfold fuel_for. lia.
  - apply slices_sorted.
  - apply Forall_forall. intros s Hin. apply list_elem_of_In, Hss' in Hin as [? _]. by apply Hmin.
  - by split.
Qed.
