(* ===== verification/UndoWalk.v ===== *)
(** * The walk of an undo

    The fragments with the ids of an undo are given their new visibility, in order; those in
    between go over as they are. *)

From S2P Require Import Prelude.
From S2P Require Import Clock.
From S2P Require Import Locator.
From S2P Require Import UndoMap.
From S2P Require Import UndoMapSpec.
From S2P Require Import SumTree.
From S2P Require Import SumTreeInvariant.
From S2P Require Import SumTreeFind.
From S2P Require Import SumCursor.
From S2P Require Import SumCursorSeek.
From S2P Require Import KeyedTree.
From S2P Require Import KeyedTreeSpec.
From S2P Require Import Text.
From S2P Require Import TextSpec.
From S2P Require Import Utf8.
From S2P Require Import Chunk.
From S2P Require Import ChunkPositions.
From S2P Require Import Rope.
From S2P Require Import RopeSpec.
From S2P Require Import RopeCursorSpec.
From S2P Require Import RopePositionsSpec.
From S2P Require Import Fragments.
From S2P Require Import FragmentsSpec.
From S2P Require Import LocalEdit.
From S2P Require Import EditBooks.
From S2P Require Import EditWalk.
From S2P Require Import EditSpec.
From S2P Require Import Anchors.
From S2P Require Import AnchorSpec.
From S2P Require Import SumIter.
From S2P Require Import SumCursorSearch.
From S2P Require Import Patch.
From S2P Require Import TreeMap.
From S2P Require Import TreeMapSpec.
From S2P Require Import FragmentUndo.
From S2P Require Import UndoIds.
Local Open Scope nat_scope.

Implicit Types (p q r : Fragment * str) (ps qs pre post mid out rest : list (Fragment * str)).

Section Walk.
Context (self : BufferSnapshot) (ps : list (Fragment * str)) (Hsp : spells self ps) (Hreach : reachable_by_cursors self).
Context (undo_map : UndoMap) (ts : Stamp) (now_visible : Fragment * str -> bool).
Context (Hnow : forall p, p ∈ ps -> UndoMap.is_visible (visibility (fst p)) undo_map = Ret (now_visible p)).
Notation h := (height (fragments self)).
Notation at_place := (at_place (fragments self) h).

Definition refresh p : Fragment * str := (refreshed (fst p) (now_visible p) ts, snd p).
Lemma refresh_ok p : part_ok p -> part_ok (refresh p).
Proof. by intros [? ?]. Qed.
Lemma chars_refresh p : chars (refresh p) = chars p.
Proof. done. Qed.

(** How far the walk is: [out] stands for [pre]. *)
Record undoing (w : UndoWalk) pre post out : Prop := {
  undoing_split : ps = pre ++ post;
  undoing_cursor : exists place, at_place (undo_cursor w) place /\ ahead (fragments self) place (map fst pre) (map fst post);
  undoing_tree : exists ht, wf ht (undo_fragments w) /\ to_list (undo_fragments w) = map fst out;
  undoing_ropes : ropes_at (visible_text self) (deleted_text self) (undo_ropes w) (bytes (shown post)) (bytes (hidden post)) (bytes (shown out)) (bytes (hidden out));
  undoing_patch : patched ps post out (undo_edits w) (length (shown pre));
  undoing_parts : Forall part_ok out;
}.

Lemma parts_split pre post : ps = pre ++ post -> Forall part_ok pre /\ Forall part_ok post.
Proof. intros E. apply Forall_app. rewrite <-E. apply Hsp. Qed.

(** Fragments that go over together. *)
Lemma keep_together w pre mid post out t ht :
  undoing w pre (mid ++ post) out -> wf ht t -> to_list t = map fst mid ->
  exists ropes tree ht', ropes_append (undo_ropes w) (summary_text_len (node_summary t)) = Ret ropes
    /\ SumTree.append (undo_fragments w) t = Ret tree /\ wf ht' tree /\ to_list tree = map fst (out ++ mid)
    /\ ropes_at (visible_text self) (deleted_text self) ropes (bytes (shown post)) (bytes (hidden post)) (bytes (shown (out ++ mid))) (bytes (hidden (out ++ mid)))
    /\ patched ps post (out ++ mid) (undo_edits w) (length (shown (pre ++ mid))) /\ Forall part_ok (out ++ mid).
Proof.
  intros [Es _ (h0 & Hw0 & E0) Hr Hpt Hok] Ht Et. rewrite app_assoc in Es. destruct (parts_split _ _ Es) as [[Hpp Hpm]%Forall_app Hpq].
  rewrite shown_app, hidden_app, !bytes_app in Hr.
  destruct (ropes_append_ok _ _ (reach_visible _ Hreach) (reach_deleted _ Hreach) (undo_ropes w) (bytes (shown mid)) (bytes (hidden mid))
    (bytes (shown post)) (bytes (hidden post)) (bytes (shown out)) (bytes (hidden out)) (summary_text_len (node_summary t))) as (ropes & -> & Hr');
    [|exact Hr|by apply hidden_utf8|by apply shown_utf8|by apply hidden_utf8|].
  { rewrite (node_summary_total _ _ Ht), Et, total_text by done. unfold text_of. by rewrite !length_bytes. }
  destruct (append_ok _ _ _ _ Hw0 Ht) as (tree & ht' & -> & Hw' & E' & _). exists ropes, tree, ht'.
  split_and!; [done|done|done|by rewrite E', E0, Et, map_app|by rewrite shown_app, hidden_app, !bytes_app| |by apply Forall_app].
  rewrite shown_app, length_app. eapply patched_kept; [exact Hpt|apply shown_app|apply shown_app].
Qed.

(** The walk up to a fragment. *)
Lemma slice_id_ok (c : LocatorCursor) place pre mid p rest :
  at_place c place -> ahead (fragments self) place (map fst pre) (map fst (mid ++ p :: rest)) -> ps = pre ++ mid ++ p :: rest ->
  exists t ht c', SumCursor.slice c (Some (part_id p)) Left = Ret (t, c') /\ wf ht t /\ to_list t = map fst mid
    /\ at_place c' (At (map fst (pre ++ mid)) (fst p) (map fst rest)) /\ dim2 (SumCursor.start c') = length (shown (pre ++ mid)).
Proof.
  intros Hc Ha Es. pose proof (spells_order _ _ Hsp) as Ho. pose proof Hsp as [Hw Hl _ _ Hp _ _ _ _ _ _].
  assert (Forall (fun q => lex_lt (part_id q) (part_id p)) (pre ++ mid)) as Hbelow.
  { apply Forall_forall. intros q Hq. rewrite Es, app_assoc in Ho. by eapply order_above. }
  assert (seekable (D:=Dimensions (option (list Z)) nat unit) (Some (part_id p)) (map fst pre) (map fst (mid ++ p :: rest))) as Hsk.
  { split.
    - rewrite advance_id. unfold target_cmp, dimensions_target. cbn [dim1]. unfold target_cmp, ord_target, ord_cmp, locator_ord.
      destruct pre as [|z pre' _] using rev_ind; [done|]. rewrite last_snoc.
      apply Forall_app in Hbelow as [[_ [Hz _]%Forall_cons]%Forall_app _]. apply lex_gt in Hz. by rewrite Hz.
    - pose proof (ids_ordered (part_id p) ps Ho) as H. rewrite Es, map_app in H. by apply ordered_r in H. }
  destruct (slice_ok _ _ (Some (part_id p)) Left c place _ _ (reach_fragments _ Hreach) Hw Hc Ha Hsk) as (t & ht & c' & -> & Ht & Et & Hc').
  unfold left_over, passed in *. rewrite ids_stop in * by (done || by apply Forall_app in Hbelow as [_ ?]).
  rewrite map_app, drop_app_length in Hc'. cbn [map place_of] in Hc'. rewrite <-map_app in Hc'.
  exists t, ht, c'. split_and!; [done..|]. rewrite (start_ok _ _ _ _ Hc'), advance_id. cbn [dim2].
  apply advance_visible. rewrite Es, app_assoc in Hp. by apply Forall_app in Hp as [? _].
Qed.

Lemma undo_step_ok w pre mid p rest out :
  undoing w pre (mid ++ p :: rest) out ->
  exists w', undo_step undo_map ts w (part_id p) = Ret w' /\ undoing w' ((pre ++ mid) ++ [p]) rest ((out ++ mid) ++ [refresh p]).
Proof.
  intros Hu. pose proof (undoing_split _ _ _ _ Hu) as Es. destruct (undoing_cursor _ _ _ _ Hu) as (place & Hc & Ha).
  destruct w as [c tree ropes edits]. cbn [undo_cursor] in *. unfold undo_step.
  destruct (slice_id_ok c place pre mid p rest Hc Ha Es) as (t & ht & c1 & -> & Ht & Et & Hc1 & Epos). cbn [mbind res_bind].
  destruct (keep_together _ _ _ _ _ t ht Hu Ht Et) as (ropes1 & tree1 & ht1 & E1 & E2 & Hw1 & El1 & Hr1 & Hp1 & Hok1).
  cbn [undo_ropes undo_fragments undo_edits] in *. rewrite E1. cbn [mbind res_bind]. rewrite E2. cbn [mbind res_bind].
  rewrite (item_ok _ _ _ _ Hc1). cbn [mbind res_bind]. assert (p ∈ ps) as Hpin by (rewrite Es; set_solver).
  rewrite (Hnow p Hpin). cbn [mbind res_bind]. change (refreshed (fst p) (now_visible p) ts) with (fst (refresh p)).
  rewrite Epos, (node_summary_total _ _ Hw1), El1, total_text by done. cbn [text_of text_visible].
  rewrite app_assoc in Es. destruct (parts_split _ _ Es) as [_ [Hp Hrest]%Forall_cons].
  pose proof (refresh_ok p Hp) as Hrp. pose proof (spells_nonempty _ _ Hsp) as Hne. eapply Forall_forall in Hne; [|exact Hpin].
  unfold push_fragment. rewrite (part_len _ Hrp). change (snd (refresh p)) with (snd p).
  destruct (Nat.ltb_spec 0 (length (snd p))); [|destruct (snd p); [done|cbn in *; lia]]. cbn [assert mbind res_bind].
  change (visible (fst (refresh p))) with (now_visible p).
  change (p :: rest) with ([p] ++ rest) in Hr1, Hp1. rewrite shown_app, hidden_app, shown_one, hidden_one, !bytes_app in Hr1.
  destruct (ropes_push_ok _ _ (reach_visible _ Hreach) (reach_deleted _ Hreach) ropes1 (snd p) (visible (fst p)) (now_visible p)
    (bytes (shown rest)) (bytes (hidden rest)) (bytes (shown (out ++ mid))) (bytes (hidden (out ++ mid))) (length (snd p)) eq_refl) as (ropes2 & -> & Hr2).
  { destruct (visible (fst p)); by rewrite bytes_chars in Hr1. } { by apply shown_utf8. } { by apply hidden_utf8. }
  cbn [mbind res_bind]. destruct (push_ok _ tree1 (fst (refresh p)) Hw1) as (tree2 & ht2 & -> & Hw2 & El2). cbn [mbind res_bind].
  destruct (next_ok _ _ (spells_tree _ _ Hsp) c1 _ (reach_fragments _ Hreach) Hc1) as (c2 & -> & Hc2). cbn [mbind res_bind later fst snd] in *.
  eexists. split; [reflexivity|]. split; cbn [undo_cursor undo_fragments undo_ropes undo_edits].
  - by rewrite <-(app_assoc (pre ++ mid) [p] rest).
  - eexists. split; [exact Hc2|]. assert (map fst (pre ++ mid) ++ [fst p] = map fst ((pre ++ mid) ++ [p])) as -> by by rewrite (map_app _ (pre ++ mid)).
    destruct rest; [|done]. split; [|done]. by rewrite (spells_fragments _ _ Hsp), Es.
  - exists ht2. split; [done|]. by rewrite El2, El1, (map_app _ (out ++ mid)).
  - rewrite (shown_app (out ++ mid)), (hidden_app (out ++ mid)), shown_one, hidden_one, !bytes_app. change (visible (fst (refresh p))) with (now_visible p).
    rewrite chars_refresh. destruct (now_visible p); by rewrite bytes_chars, app_nil_r.
  - rewrite (shown_app (pre ++ mid)), length_app, shown_one.
    assert (shown ((out ++ mid) ++ [refresh p]) = shown (out ++ mid) ++ if now_visible p then chars p else []) as Eo by by rewrite (shown_app (out ++ mid)), shown_one.
    assert (shown ([p] ++ rest) = (if visible (fst p) then chars p else []) ++ shown rest) as Er by by rewrite shown_app, shown_one.
    unfold undo_edit. change (visible (fst (refresh p))) with (now_visible p). rewrite (part_len _ Hrp). change (snd (refresh p)) with (snd p).
    rewrite <-(length_chars p). destruct (visible (fst p)), (now_visible p); cbn [andb negb].
    + by eapply patched_kept.
    + eapply patched_edit; [exact Hp1|exact Er|exact Eo|done|cbn; lia].
    + rewrite Nat.add_0_r. eapply patched_edit; [exact Hp1|exact Er|exact Eo|cbn; lia|done].
    + by eapply patched_kept.
  - apply Forall_app. split; [done|]. by apply Forall_singleton.
Qed.

(** The whole of it: some fragments are refreshed and the others are not. *)
Definition refresh_if (f : Fragment * str -> bool) p : Fragment * str := if f p then refresh p else p.

Lemma filter_cons_split (f : Fragment * str -> bool) post p hits : List.filter f post = p :: hits ->
  exists mid rest, post = mid ++ p :: rest /\ map (refresh_if f) mid = mid /\ f p = true /\ List.filter f rest = hits.
Proof.
  induction post as [|q post IH]; [done|]. cbn. destruct (f q) eqn:E.
  - intros [= -> <-]. by exists [], post.
  - intros H. destruct (IH H) as (mid & rest & -> & Em & Ep & Er). exists (q :: mid), rest. cbn. unfold refresh_if at 1. by rewrite E, Em.
Qed.
Lemma undo_loop_ok f w pre post out :
  undoing w pre post out ->
  exists w' pre' rest out', undo_loop undo_map ts w (map part_id (List.filter f post)) = Ret w' /\ undoing w' pre' rest out'
    /\ out' ++ rest = out ++ map (refresh_if f) post.
Proof.
  remember (List.filter f post) as hits eqn:Eh. revert w pre post out Eh. induction hits as [|p hits IH]; intros w pre post out Eh Hu.
  - exists w, pre, post, out. split; [done|]. split; [done|]. f_equal. clear -Eh. induction post as [|q post IH]; [done|]. cbn in *. unfold refresh_if at 1.
    destruct (f q); [done|]. by rewrite <-IH.
  - symmetry in Eh. apply filter_cons_split in Eh as (mid & rest & -> & Em & Ep & Er). cbn [map undo_loop].
    destruct (undo_step_ok w pre mid p rest out Hu) as (w' & -> & Hu'). cbn [mbind res_bind].
    destruct (IH w' _ rest _ (eq_sym Er) Hu') as (w2 & pre2 & rest2 & out2 & -> & Hu2 & Eo). exists w2, pre2, rest2, out2.
    split; [done|]. split; [done|]. rewrite Eo, map_app, Em. cbn [map]. unfold refresh_if at 2. rewrite Ep, <-!app_assoc. done.
Qed.
Lemma undo_start ropes : ropes_at (visible_text self) (deleted_text self) ropes (bytes (shown ps)) (bytes (hidden ps)) [] [] ->
  undoing (mkUndoWalk (cursor_new (fragments self)) SumTree.new ropes []) [] ps [].
Proof.
  intros Hr. split; cbn [undo_cursor undo_fragments undo_ropes undo_edits]; [done| | |done| |constructor].
  - exists Unsought. split; [apply new_at_place|]. split; [done|]. by rewrite (spells_fragments _ _ Hsp).
  - exists 0. split; [apply new_ok|done].
  - split; [|done]. exists []. split_and!; [done..|constructor].
Qed.
End Walk.
