(* ===== verification/UndoSpec.v ===== *)
(** * What an undo operation does to a buffer's text

    [Buffer::apply_undo] against the log of undo operations: every fragment has the
    visibility that the log gives it, and nothing else of the text changes. *)

From S2P Require Import Prelude.
From S2P Require Import Clock.
From S2P Require Import Locator.
From S2P Require Import UndoMap.
From S2P Require Import UndoMapSpec.
From S2P Require Import SumTree.
From S2P Require Import SumTreeInvariant.
From S2P Require Import SumTreeFind.
From S2P Require Import SumCursor.
From S2P Require Import SumCursorSeek.
From S2P Require Import KeyedTree.
From S2P Require Import KeyedTreeSpec.
From S2P Require Import Text.
From S2P Require Import TextSpec.
From S2P Require Import Utf8.
From S2P Require Import Chunk.
From S2P Require Import ChunkPositions.
From S2P Require Import Rope.
From S2P Require Import RopeSpec.
From S2P Require Import RopeCursorSpec.
From S2P Require Import RopePositionsSpec.
From S2P Require Import Fragments.
From S2P Require Import FragmentsSpec.
From S2P Require Import LocalEdit.
From S2P Require Import EditBooks.
From S2P Require Import EditWalk.
From S2P Require Import EditSpec.
From S2P Require Import Anchors.
From S2P Require Import AnchorSpec.
From S2P Require Import SumIter.
From S2P Require Import SumCursorSearch.
From S2P Require Import Patch.
From S2P Require Import TreeMap.
From S2P Require Import TreeMapSpec.
From S2P Require Import FragmentUndo.
From S2P Require Import UndoIds.
From S2P Require Import UndoWalk.
Local Open Scope nat_scope.

Implicit Types (p q r : Fragment * str) (ps qs pre post out : list (Fragment * str)).

(** ** Visibility by the log *)
Definition undone (log : list UndoOperation) (e : Stamp) : bool := is_odd (max_count all_seen log e).
(** A fragment is seen when its insertion is not undone and all of its deletions are. *)
Definition seen_in (log : list UndoOperation) (f : Fragment) : bool :=
  negb (undone log (frag_timestamp f)) && forallb (undone log) (frag_deletions f).

Lemma all_res_forallb {A} (f : A -> res bool) (g : A -> bool) l :
  (forall x, f x = Ret (g x)) -> all_res f l = Ret (forallb g l).
Proof. intros H. induction l as [|x l IH]; [done|]. cbn. rewrite H, IH. cbn. by destruct (g x). Qed.
Lemma is_undone_log h m log e : undo_ok h m log -> h < STACK_CAPACITY -> is_undone m e = Ret (undone log e).
Proof. intros Hm Hh. apply (queries_ok h m log e Hm Hh). Qed.
Lemma is_visible_log h m log (f : Fragment) : undo_ok h m log -> h < STACK_CAPACITY ->
  UndoMap.is_visible (visibility f) m = Ret (seen_in log f).
Proof.
  intros Hm Hh. unfold UndoMap.is_visible, seen_in, visibility. cbn [inserted_at deletions].
  rewrite (is_undone_log h m log) by done. cbn [mbind res_bind].
  rewrite (all_res_forallb _ (undone log)) by (intros x; by apply (is_undone_log h)). by destruct (undone log _).
Qed.

(** ** What a buffer keeps for undoing *)

(** A slice covers a part. *)
Definition covers s p : Prop :=
  slice_insertion s = frag_timestamp (fst p) /\ slice_start s <= insertion_offset (fst p)
  /\ insertion_offset (fst p) + length (snd p) <= slice_end s.
Definition done_by p e : Prop := e = frag_timestamp (fst p) \/ e ∈ frag_deletions (fst p).
(** A buffer that can be undone: what fragments show is what the undo operations say, and
    the slices of an edit cover all that it inserted and deleted. *)
Record undoable (self : BufferSnapshot) ps log : Prop := {
  undoable_map : exists h, undo_ok h (snapshot_undo_map self) log;
  undoable_seen : Forall (fun p => visible (fst p) = seen_in log (fst p)) ps;
  undoable_slices : forall p e, p ∈ ps -> done_by p e -> exists s, has_slice self s /\ slice_edit s = e /\ covers s p;
  undoable_named : forall s, has_slice self s -> slice_insertion s <> STAMP_MIN;
}.
(** The paths in the undo map are short enough. *)
Definition map_reachable (self : BufferSnapshot) : Prop := height (snapshot_undo_map self) < STACK_CAPACITY.

(** The fragments that an undo looks at. *)
Definition affected (self : BufferSnapshot) (es : list Stamp) p : Prop :=
  exists s, has_slice self s /\ slice_edit s ∈ es /\ in_slice s (insertion_new (fst p)) = true.

(** A part after an undo. *)
Definition reseen (log : list UndoOperation) p q : Prop :=
  snd q = snd p /\ frag_id (fst q) = frag_id (fst p) /\ frag_timestamp (fst q) = frag_timestamp (fst p)
  /\ insertion_offset (fst q) = insertion_offset (fst p) /\ frag_len (fst q) = frag_len (fst p)
  /\ frag_deletions (fst q) = frag_deletions (fst p) /\ visible (fst q) = seen_in log (fst p).

Lemma max_count_other log op e : counts op !! e = None -> max_count all_seen (op :: log) e = max_count all_seen log e.
Proof.
  intros E. unfold max_count. cbn [List.filter all_seen map]. rewrite E. cbn. apply Z.max_r, max_of_nonneg.
Qed.
Lemma seen_in_other log op (f : Fragment) :
  (forall e, e = frag_timestamp f \/ e ∈ frag_deletions f -> counts op !! e = None) -> seen_in (op :: log) f = seen_in log f.
Proof.
  intros H. unfold seen_in, undone. rewrite max_count_other by (apply H; by left). f_equal.
  assert (Forall (fun e => counts op !! e = None) (frag_deletions f)) as Hf by (apply Forall_forall; intros; apply H; by right).
  clear H. induction Hf as [|e es He _ IH]; [done|]. cbn [forallb]. by rewrite IH, max_count_other.
Qed.

#[local] Instance key_lt_irreflexive : Irreflexive (key_lt (T:=InsertionFragment) (Key:=InsertionFragmentKey)).
Proof. intros x H. unfold key_lt in H. by rewrite (ord_refl (key x)) in H. Qed.
#[local] Instance lex_lt_antisymm : AntiSymm (=) lex_lt.
Proof. intros a b H1 H2%lex_gt. unfold lex_lt in H1. congruence. Qed.
Lemma same_ids (l l' : list (list Z)) :
  StronglySorted lex_lt l -> StronglySorted lex_lt l' -> (forall id, In id l <-> In id l') -> l = l'.
Proof.
  intros Hl Hl' H. apply (StronglySorted_unique lex_lt); [done..|].
  apply NoDup_Permutation; [by apply (strict_nodup lex_lt)|by apply (strict_nodup lex_lt)|]. intros id. by rewrite !list_elem_of_In.
Qed.
Lemma sorted_sublist {A} (R : A -> A -> Prop) (l l' : list A) : l `sublist_of` l' -> StronglySorted R l' -> StronglySorted R l.
Proof.
  intros Hs. induction Hs as [|x l l' Hs IH|x l l' _ IH]; [done|..]; intros [H1 H2]%StronglySorted_inv; [|by apply IH].
  constructor; [by apply IH|]. eapply Forall_forall. intros y Hy. eapply Forall_forall in H2; [exact H2|]. by eapply elem_of_sublist.
Qed.

(** What stays of parts that are only seen anew. *)
Section Reseen.
Context (log : list UndoOperation) (ps ps' : list (Fragment * str)) (H : Forall2 (reseen log) ps ps').
Lemma reseen_map {A} (f : Fragment * str -> A) : (forall p q, reseen log p q -> f q = f p) -> map f ps' = map f ps.
Proof. intros Hf. elim H; [done|]. intros p q l l' Hpq _ IH. cbn. by rewrite (Hf p q Hpq), IH. Qed.
Lemma reseen_chars : all_chars ps' = all_chars ps.
Proof.
  elim H; [done|]. intros p q l l' (E1 & _ & E2 & E3 & _) _ IH. 
  change (chars q ++ all_chars l' = chars p ++ all_chars l). unfold chars. by rewrite IH, E1, E2, E3.
Qed.
Lemma reseen_Forall (P : Fragment * str -> Prop) : (forall p q, reseen log p q -> P p -> P q) -> Forall P ps -> Forall P ps'.
Proof.
  intros Hf. elim H; [done|]. intros p q l l' Hpq _ IH [Hp Hl]%Forall_cons. constructor; [by eapply Hf|by apply IH].
Qed.
Lemma reseen_from q : q ∈ ps' -> exists p, p ∈ ps /\ reseen log p q.
Proof. 
  intros (i & Hq)%list_elem_of_lookup. destruct (Forall2_lookup_r _ _ _ _ _ H Hq) as (p & Hp & ?). exists p. split; [|done].
  by eapply list_elem_of_lookup_2.
Qed.
Lemma reseen_insertions x : (exists p, p ∈ ps /\ x = insertion_new (fst p)) <-> (exists q, q ∈ ps' /\ x = insertion_new (fst q)).
Proof.
  assert (forall p q, reseen log p q -> insertion_new (fst q) = insertion_new (fst p)) as Hi.
  { unfold insertion_new. by intros p q (_ & -> & -> & -> & _). }
  assert (forall l, (exists p, p ∈ l /\ x = insertion_new (fst p)) <-> x ∈ map (fun p => insertion_new (fst p)) l) as Hx.
  { intros l. rewrite list_elem_of_In, in_map_iff. split; intros (p & H1 & H2); exists p; rewrite ?list_elem_of_In in *; done. }
  rewrite !Hx. by rewrite (reseen_map (fun p => insertion_new (fst p)) Hi).
Qed.
End Reseen.

Section Apply.
Context (self : BufferSnapshot) (ps : list (Fragment * str)) (log : list UndoOperation) (op : UndoOperation).
Context (Hsp : spells self ps) (Hreach : reachable_by_cursors self) (Hok : undoable self ps log) (Hmap : map_reachable self).
Context (Huniq : unique_stamps (op :: log)).
Notation keys := (map fst (map_to_list (counts op))).

Lemma elem_of_counted e : e ∈ keys <-> is_Some (counts op !! e).
Proof.
  rewrite list_elem_of_In, in_map_iff. split.
  - intros ([e' n] & <- & H%list_elem_of_In%elem_of_map_to_list). by exists n.
  - intros [n H]. exists (e, n). split; [done|]. by apply list_elem_of_In, elem_of_map_to_list.
Qed.

(** The fragments that are looked up are the affected ones, in their order. *)
Lemma undo_ids (m : UndoMap) :
  exists f, fragment_ids_for_edits (with_undo_map self m) keys = Ret (map part_id (List.filter f ps))
    /\ forall p, p ∈ ps -> f p = true <-> affected self keys p.
Proof.
  destruct (spells_insertions _ _ Hsp) as (Hw & Hs & Hin). pose proof (spells_order _ _ Hsp) as Ho.
  destruct (fragment_ids_for_edits_ok (with_undo_map self m) keys) as (ids & -> & Hids & Hspec); try done; try apply Hreach; try apply Hok.
  { apply (spells_slices _ _ Hsp). }
  { apply (NoDup_fmap_2_strong fragment_id); [|by apply (strict_nodup (key_lt (Key:=InsertionFragmentKey)))].
    intros x y Hx Hy E. apply list_elem_of_In, Hin in Hx as (p & Hp & ->). apply list_elem_of_In, Hin in Hy as (q & Hq & ->).
    do 2 f_equal. eapply (NoDup_map_inv' part_id); [by apply (strict_nodup lex_lt)|by apply list_elem_of_In..|done]. }
  exists (fun p => bool_decide (part_id p ∈ ids)).
  assert (forall p, p ∈ ps -> part_id p ∈ ids <-> affected self keys p) as Ha.
  { intros p Hp. rewrite list_elem_of_In, Hspec. split.
    - intros (x & s & Hx & E & H1 & H2 & H3). apply Hin in Hx as (q & Hq & ->).
      assert (q = p) as ->. { eapply (NoDup_map_inv' part_id); [by apply (strict_nodup lex_lt)|by apply list_elem_of_In..|done]. }
      exists s. split_and!; [done| |done]. by apply list_elem_of_In.
    - intros (s & H1 & H2 & H3). exists (insertion_new (fst p)), s. split_and!; [apply Hin; by exists p|done|done| |done]. by apply list_elem_of_In. }
  split.
  - f_equal. apply same_ids; [done| |].
    + eapply sorted_sublist; [|exact Ho]. apply (fmap_sublist part_id), filter_sublist.
    + intros id. rewrite in_map_iff. split.
      * intros H. pose proof H as H'. apply Hspec in H as (x & s & Hx & <- & H1 & H2 & H3). apply Hin in Hx as (p & Hp & ->).
        exists p. split; [done|]. apply filter_In. split; [by apply list_elem_of_In|]. apply bool_decide_eq_true. by apply list_elem_of_In.
      * intros (p & <- & [_ Hp%bool_decide_eq_true]%filter_In). by apply list_elem_of_In.
  - intros p Hp. rewrite bool_decide_eq_true. by apply Ha.
Qed.

(** A part that the operation may change is affected. *)
Lemma unaffected p : p ∈ ps -> ~ affected self keys p -> seen_in (op :: log) (fst p) = seen_in log (fst p).
Proof.
  intros Hp Hn. apply seen_in_other. intros e He. destruct (counts op !! e) as [n|] eqn:E; [|done]. destruct Hn.
  destruct (undoable_slices _ _ _ Hok p e Hp He) as (s & Hs & <- & Es & H1 & H2). exists s. split_and!; [done|apply elem_of_counted; by exists n|].
  apply in_slice_true. unfold ins_of, off_of. cbn. split; [done|].
  pose proof (spells_nonempty _ _ Hsp) as Hne. eapply Forall_forall in Hne; [|exact Hp]. destruct (snd p); [done|cbn in *; lia].
Qed.

(** A snapshot with the same fragments, seen anew. *)
Lemma spells_reseen log' ps' self' :
  Forall2 (reseen log') ps ps' -> insertions self' = insertions self -> insertion_slices self' = insertion_slices self ->
  wf (height (fragments self')) (fragments self') -> to_list (fragments self') = map fst ps' ->
  holds (visible_text self') (bytes (shown ps')) -> holds (deleted_text self') (bytes (hidden ps')) -> spells self' ps'.
Proof.
  intros Hre Ei Es Hw Hl Hv Hd. destruct Hsp as [_ _ _ _ Hp Hne Hid Hor Hn (Hi1 & Hi2 & Hi3) Hsl].
  split; try done; rewrite ?Ei, ?Es; try done.
  - eapply reseen_Forall; [exact Hre| |exact Hp]. intros p q (E & _ & _ & _ & E' & _) [H1 H2]. split; [by rewrite E|by rewrite E', E].
  - eapply reseen_Forall; [exact Hre| |exact Hne]. intros p q (E & _). by rewrite E.
  - eapply reseen_Forall; [exact Hre| |exact Hid]. intros p q (_ & E & _). unfold id_ok, part_id. by rewrite E.
  - by rewrite (reseen_map _ _ _ Hre part_id) by by intros p q (_ & ? & _).
  - unfold names. by rewrite (reseen_chars _ _ _ Hre).
  - split_and!; [done..|]. intros x. rewrite Hi3. by eapply reseen_insertions.
Qed.

Context (Hnext : forall m, UndoMap.insert (snapshot_undo_map self) op = Ret m -> height m < STACK_CAPACITY).

(** What an undo operation gives. *)
Record undo_result (self' : BufferSnapshot) (patch : list Patch.Edit) ps' : Prop := {
  undo_spells : spells self' ps';
  undo_undoable : undoable self' ps' (op :: log);
  undo_reseen : Forall2 (reseen (op :: log)) ps ps';
  undo_patch : Patch.transforms 0 0 patch (shown ps) (shown ps');
  undo_normal : Patch.normal patch;
  undo_inserted : UndoMap.insert (snapshot_undo_map self) op = Ret (snapshot_undo_map self');
  undo_rest : insertions self' = insertions self /\ insertion_slices self' = insertion_slices self
    /\ version self' = version self /\ remote_id self' = remote_id self;
  undo_others : forall i p q, ps !! i = Some p -> ps' !! i = Some q ->
    (affected self keys p -> max_undos (fst q) = version_observe (max_undos (fst p)) (UndoMap.timestamp op))
    /\ (~ affected self keys p -> q = p);
}.

Lemma reseen_refresh f :
  (forall p, p ∈ ps -> f p = false -> seen_in (op :: log) (fst p) = seen_in log (fst p)) ->
  Forall2 (reseen (op :: log)) ps (map (refresh_if (UndoMap.timestamp op) (fun p => seen_in (op :: log) (fst p)) f) ps).
Proof.
  intros Hf. pose proof (undoable_seen _ _ _ Hok) as Hseen. clear -Hf Hseen. revert Hf Hseen.
  generalize ps. intros l. induction l as [|p l IH]; [by constructor|]. intros Hf [Hp Hl]%Forall_cons. cbn [map]. constructor.
  - unfold refresh_if. destruct (f p) eqn:E; [by split_and!|]. split_and!; try done. rewrite Hf by (done || by left). done.
  - apply IH; [|done]. intros q Hq. apply Hf. by right.
Qed.

(** Refreshing the affected fragments, in the snapshot. *)
Lemma undo_walk_ok f m h :
  undo_ok h m (op :: log) -> h < STACK_CAPACITY ->
  let ps' := map (refresh_if (UndoMap.timestamp op) (fun p => seen_in (op :: log) (fst p)) f) ps in
  exists ropes w t ropes2 new_fragments texts c, ropes_new (visible_text self) (deleted_text self) = Ret ropes
    /\ undo_loop m (UndoMap.timestamp op) (mkUndoWalk (cursor_new (fragments self)) SumTree.new ropes []) (map part_id (List.filter f ps)) = Ret w
    /\ SumCursor.suffix (undo_cursor w) = Ret (t, c)
    /\ ropes_append (undo_ropes w) (summary_text_len (node_summary t)) = Ret ropes2
    /\ SumTree.append (undo_fragments w) t = Ret new_fragments /\ ropes_finish ropes2 = Ret texts
    /\ wf (height new_fragments) new_fragments /\ to_list new_fragments = map fst ps'
    /\ holds (fst texts) (bytes (shown ps')) /\ holds (snd texts) (bytes (hidden ps'))
    /\ Patch.transforms 0 0 (undo_edits w) (shown ps) (shown ps') /\ Patch.normal (undo_edits w).
Proof.
  intros Hm Hh ps'. set (seen := fun p => seen_in (op :: log) (fst p)) in ps'.
  destruct (ropes_new_ok _ _ (reach_visible _ Hreach) (reach_deleted _ Hreach) _ _ (spells_visible _ _ Hsp) (spells_deleted _ _ Hsp)) as (ropes & Er & Hr).
  pose proof (undo_start self ps Hsp ropes Hr) as Hstart.
  destruct (undo_loop_ok self ps Hsp Hreach m (UndoMap.timestamp op) seen (fun p _ => is_visible_log h m _ (fst p) Hm Hh) f _ _ _ _ Hstart)
    as (w & pre & rest & out & Ew & Hu & Eo).
  change (map (refresh_if (UndoMap.timestamp op) seen f) ps) with ps' in Eo. cbn [app] in Eo.
  destruct (undoing_cursor _ _ _ _ _ _ Hu) as (place & Hc & Ha).
  destruct (suffix_ok _ _ (undo_cursor w) place _ _ (reach_fragments _ Hreach) (spells_tree _ _ Hsp) Hc Ha) as (t & ht & c & Et & Hwt & El & _).
  rewrite <-(app_nil_r rest) in Hu.
  destruct (keep_together self ps Hsp Hreach _ _ _ _ _ t ht Hu Hwt El) as (ropes2 & tree & h2 & E1 & E2 & Hw2 & El2 & Hr2 & [(before & Eb & _ & Htr) Hn] & _).
  rewrite Eo in *.
  destruct (ropes_finish_ok _ _ (reach_visible _ Hreach) (reach_deleted _ Hreach) _ _ _ _ _ Hr2) as (r1 & r2 & E3 & H1 & H2).
  rewrite app_nil_r in H1, H2, Eb. subst before.
  exists ropes, w, t, ropes2, tree, (r1, r2), c. rewrite (wf_height _ _ Hw2). by split_and!.
Qed.

Lemma apply_undo_ok :
  exists self' patch ps', apply_undo self op = Ret (self', patch) /\ undo_result self' patch ps'.
Proof.
  destruct (undoable_map _ _ _ Hok) as (h & Hm). pose proof (wf_height _ _ (undo_wf _ _ _ Hm)) as Eh.
  destruct (insert_ok h (snapshot_undo_map self) log op Hm ltac:(unfold map_reachable in Hmap; lia) Huniq) as (m & h' & Em & Hm').
  pose proof (Hnext m Em) as Hh'. rewrite (wf_height _ _ (undo_wf _ _ _ Hm')) in Hh'.
  destruct (undo_ids m) as (f & Eids & Hf).
  destruct (undo_walk_ok f m h' Hm' Hh') as (ropes & w & t & ropes2 & tree & texts & c & E1 & E2 & E3 & E4 & E5 & E6 & Hw & El & Hv & Hd & Htr & Hn).
  set (ps' := map _ ps) in *.
  assert (Forall2 (reseen (op :: log)) ps ps') as Hre.
  { apply reseen_refresh. intros p Hp Ef. apply unaffected; [done|]. rewrite <-Hf by done. by rewrite Ef. }
  eexists. exists (undo_edits w), ps'. split.
  - unfold apply_undo. rewrite Em. cbn [mbind res_bind]. rewrite Eids.
    cbn [with_undo_map visible_text deleted_text fragments]. rewrite E1. cbn [mbind res_bind]. rewrite E2. cbn [mbind res_bind].
    rewrite E3. cbn [mbind res_bind fst]. rewrite E4. cbn [mbind res_bind]. rewrite E5. cbn [mbind res_bind]. rewrite E6. reflexivity.
  - split; cbn [snapshot_undo_map insertions insertion_slices version remote_id]; try done.
    + by eapply spells_reseen.
    + split; [by exists h'| | |apply Hok].
      * eapply Forall_forall. intros q Hq. destruct (reseen_from _ _ _ Hre q Hq) as (p & _ & (_ & _ & E & _ & _ & E' & ->)).
        unfold seen_in. by rewrite E, E'.
      * intros q e Hq He. destruct (reseen_from _ _ _ Hre q Hq) as (p & Hp & (G1 & _ & G2 & G3 & _ & G4 & _)).
        unfold done_by in He. rewrite G2, G4 in He. destruct (undoable_slices _ _ _ Hok p e Hp He) as (s & Hs & Es & Hcov).
        exists s. split_and!; [done..|]. unfold covers in *. by rewrite G1, G2, G3.
    + intros i p q Hp Hq. unfold ps' in Hq. rewrite list_lookup_fmap, Hp in Hq. injection Hq as <-. unfold refresh_if.
      pose proof (Hf p ltac:(by eapply list_elem_of_lookup_2)) as Hfp.
      destruct (f p) eqn:Ef; split; [done|intros Hna; destruct Hna; by apply Hfp|intros Ha; by apply Hfp in Ha|done].
Qed.
End Apply.
