(* ===== verification/UndoProps.v ===== *)
(** * What undoing gives

    Editing, undoing and redoing a buffer's text. *)

From S2P Require Import Prelude.
From S2P Require Import Clock.
From S2P Require Import Locator.
From S2P Require Import UndoMap.
From S2P Require Import UndoMapSpec.
From S2P Require Import SumTree.
From S2P Require Import SumTreeInvariant.
From S2P Require Import SumTreeFind.
From S2P Require Import SumCursor.
From S2P Require Import SumCursorSeek.
From S2P Require Import KeyedTree.
From S2P Require Import KeyedTreeSpec.
From S2P Require Import Text.
From S2P Require Import TextSpec.
From S2P Require Import Utf8.
From S2P Require Import Chunk.
From S2P Require Import ChunkPositions.
From S2P Require Import Rope.
From S2P Require Import RopeSpec.
From S2P Require Import RopeCursorSpec.
From S2P Require Import RopePositionsSpec.
From S2P Require Import Fragments.
From S2P Require Import FragmentsSpec.
From S2P Require Import LocalEdit.
From S2P Require Import EditBooks.
From S2P Require Import EditWalk.
From S2P Require Import EditSpec.
From S2P Require Import Anchors.
From S2P Require Import AnchorSpec.
From S2P Require Import SumIter.
From S2P Require Import SumCursorSearch.
From S2P Require Import Patch.
From S2P Require Import TreeMap.
From S2P Require Import TreeMapSpec.
From S2P Require Import FragmentUndo.
From S2P Require Import UndoIds.
From S2P Require Import UndoWalk.
From S2P Require Import EditProps.
From S2P Require Import UndoSpec.
Local Open Scope nat_scope.

Implicit Types (p q r : Fragment * str) (ps qs : list (Fragment * str)).

(** ** Local edits can be undone *)
Lemma union_has (m m' : gmap InsertionSlice unit) s : (m ∪ m') !! s = Some tt <-> m !! s = Some tt \/ m' !! s = Some tt.
Proof. rewrite lookup_union. destruct (m !! s) as [[]|], (m' !! s) as [[]|]; naive_solver. Qed.
Lemma edit_slices self self' ts ps ps' texts patch s :
  edit_result self self' ts ps ps' texts patch ->
  has_slice self' s <-> (exists q, q ∈ ps' /\ touched ts q = true /\ s = from_fragment ts (fst q)) \/ has_slice self s.
Proof.
  intros Hres. unfold has_slice. rewrite (result_slices _ _ _ _ _ _ _ Hres), union_has.
  set (l := List.filter (touched ts) ps'). set (f := fun q : Fragment * str => (from_fragment ts (fst q), tt)).
  assert (list_to_map (M:=gmap InsertionSlice unit) (map f l) !! s = Some tt <-> exists q, q ∈ l /\ s = from_fragment ts (fst q)) as ->.
  { split.
    - intros H%elem_of_list_to_map_2. apply list_elem_of_fmap in H as (q & [= ->] & Hq). by exists q.
    - intros (q & Hq & ->). destruct (list_to_map (M:=gmap InsertionSlice unit) (map f l) !! _) as [[]|] eqn:E; [done|].
      apply not_elem_of_list_to_map_2 in E. destruct E. apply (list_elem_of_fmap_2' fst (map f l) (f q)); [|done].
      by apply (list_elem_of_fmap_2 f). }
  apply or_iff_compat_r. unfold l. split.
  - intros (q & Hq & ->). apply list_elem_of_In, filter_In in Hq as [Hq Ht]. exists q. by rewrite list_elem_of_In.
  - intros (q & Hq & Ht & ->). exists q. split; [|done]. apply list_elem_of_In, filter_In. by rewrite <-list_elem_of_In.
Qed.
Lemma covers_itself ts q : part_ok q -> covers (from_fragment ts (fst q)) q.
Proof. intros [_ E]. unfold covers. cbn. rewrite E. split_and!; [done|lia..]. Qed.

Lemma undone_zero log e : max_count all_seen log e = 0%Z -> undone log e = false.
Proof. unfold undone. by intros ->. Qed.
(** A fragment of an edited buffer, when its deletion is not undone. *)
Lemma seen_in_snoc log (f g : Fragment) ts :
  frag_timestamp g = frag_timestamp f -> frag_deletions g = frag_deletions f ++ [ts] ->
  seen_in log g = seen_in log f && undone log ts.
Proof. intros E1 E2. unfold seen_in. rewrite E1, E2, forallb_app. cbn. by rewrite andb_true_r, andb_assoc. Qed.

Lemma undoable_edit self self' ts ps ps' texts patch log :
  edit_result self self' ts ps ps' texts patch -> undoable self ps log -> undone log ts = false -> ts <> STAMP_MIN ->
  undoable self' ps' log.
Proof.
  intros Hres [(h & Hm) Hseen Hsl Hmin] Hts Hne. destruct (result_rest _ _ _ _ _ _ _ Hres) as (Eu & _).
  pose proof (result_stems _ _ _ _ _ _ _ Hres) as Hst.
  split; [exists h; by rewrite Eu| | |].
  - eapply Forall_impl; [exact Hst|]. intros q [(p & Hp & _ & E1 & _ & [[-> E2]|(Ev & -> & E2)])|(E1 & _ & -> & E2)].
    + eapply Forall_forall in Hseen as ->; [|exact Hp]. unfold seen_in. by rewrite E1, E2.
    + rewrite (seen_in_snoc log (fst p) _ ts E1 E2), Hts. by rewrite andb_false_r.
    + unfold seen_in. by rewrite E1, E2, Hts.
  - intros q e Hq He. pose proof (result_spells _ _ _ _ _ _ _ Hres) as Hsp'.
    pose proof (spells_parts _ _ Hsp') as Hp'. eapply Forall_forall in Hp'; [|exact Hq].
    assert (e = ts -> touched ts q = true -> exists s, has_slice self' s /\ slice_edit s = e /\ covers s q) as Hnew.
    { intros -> Ht. exists (from_fragment ts (fst q)). split_and!; [eapply edit_slices; [exact Hres|left; by exists q]|done|by apply covers_itself]. }
    assert (forall p, p ∈ ps -> inside q p -> frag_timestamp (fst q) = frag_timestamp (fst p) -> done_by p e ->
      exists s, has_slice self' s /\ slice_edit s = e /\ covers s q) as Hold.
    { intros p Hp [H1 H2] E Hd. destruct (Hsl p e Hp Hd) as (s & Hs & Es & Ei & H3 & H4). exists s.
      split_and!; [eapply edit_slices; [exact Hres|by right]|done|]. unfold covers. rewrite E. split_and!; [done|lia..]. }
    eapply Forall_forall in Hst as [(p & Hp & Hin & E1 & _ & Ed)|(E1 & _ & _ & E2)]; [|..|exact Hq].
    + destruct He as [->|He]; [by apply (Hold p); [..|left]|].
      destruct Ed as [[_ Ed]|(_ & _ & Ed)]; rewrite Ed in He; [by apply (Hold p); [..|right]|].
      apply elem_of_app in He as [He|He%list_elem_of_singleton]; [by apply (Hold p); [..|right]|].
      apply Hnew; [done|]. unfold touched. apply orb_true_iff. right. apply bool_decide_eq_true. rewrite Ed. set_solver.
    + destruct He as [->|He]; [|rewrite E2 in He; by apply elem_of_nil in He]. apply Hnew; [done|].
      unfold touched. by rewrite bool_decide_eq_true_2.
  - intros s Hs. eapply edit_slices in Hs as [(q & Hq & _ & ->)|Hs]; [|by apply Hmin|exact Hres].
    cbn. eapply Forall_forall in Hst as [(p & Hp & _ & -> & _)|(-> & _)]; [|done|exact Hq].
    destruct (Hsl p _ Hp (or_introl eq_refl)) as (s0 & Hs0 & _ & <- & _). by apply Hmin.
Qed.

(** ** Which bytes are seen *)
(** A part has the byte with a name. *)
Definition names_byte (n : Stamp * nat) p : bool :=
  bool_decide (fst n = frag_timestamp (fst p)) && (insertion_offset (fst p) <=? snd n) && (snd n <? insertion_offset (fst p) + length (snd p)).
Lemma names_byte_true n p : names_byte n p = true <->
  fst n = frag_timestamp (fst p) /\ insertion_offset (fst p) <= snd n < insertion_offset (fst p) + length (snd p).
Proof. unfold names_byte. rewrite !andb_true_iff, bool_decide_eq_true, Nat.leb_le, Nat.ltb_lt. tauto. Qed.
Lemma name_of_char p c : c ∈ chars p -> fst c ∈ names [p].
Proof. intros Hc. unfold names. rewrite all_chars_one. by apply (list_elem_of_fmap_2 fst). Qed.
Lemma names_of_part n p : n ∈ names [p] <-> names_byte n p = true.
Proof.
  unfold names. rewrite all_chars_one, names_byte_true. unfold chars, stamped. rewrite list_elem_of_fmap. split.
  - intros ([m b] & -> & H). apply elem_of_lookup_imap in H as (i & x & E & Hi). injection E as -> ->.
    apply lookup_lt_Some in Hi. cbn. split; [done|lia].
  - destruct n as [e o]. cbn. intros [-> Ho]. destruct (lookup_lt_is_Some_2 (snd p) (o - insertion_offset (fst p)) ltac:(lia)) as [b Hb].
    exists (frag_timestamp (fst p), o, b). split; [done|]. apply elem_of_lookup_imap. exists (o - insertion_offset (fst p)), b.
    split; [|done]. do 2 f_equal. lia.
Qed.
Lemma filter_filter {A} (f g : A -> bool) (l : list A) : List.filter f (List.filter g l) = List.filter (fun x => g x && f x) l.
Proof. induction l as [|x l IH]; [done|]. cbn. destruct (g x); cbn; [destruct (f x); by rewrite IH|done]. Qed.
(** A choice of bytes that agrees with the parts. *)
Lemma shown_filter (v : Stamp * nat * Z -> bool) ps :
  (forall p c, p ∈ ps -> c ∈ chars p -> v c = visible (fst p)) -> shown ps = List.filter v (all_chars ps).
Proof.
  induction ps as [|p ps IH]; [done|]. intros Hv. change (p :: ps) with ([p] ++ ps).
  rewrite shown_app, all_chars_app, List.filter_app, shown_one, all_chars_one.
  f_equal; [|apply IH; intros q c Hq; apply Hv; by right].
  assert (forall c, In c (chars p) -> v c = visible (fst p)) as Hp by (intros c Hc%list_elem_of_In; apply Hv; [by left|done]).
  destruct (visible (fst p)); symmetry; [by apply filter_id|by apply filter_none].
Qed.
Lemma shown_same ps qs :
  Forall2 (fun p q => chars q = chars p /\ visible (fst q) = visible (fst p)) ps qs -> shown qs = shown ps.
Proof.
  induction 1 as [|p q ps qs [E1 E2] _ IH]; [done|]. change (q :: qs) with ([q] ++ qs). change (p :: ps) with ([p] ++ ps).
  by rewrite !shown_app, IH, !shown_one, E1, E2.
Qed.
Lemma reseen_shown log ps qs : Forall2 (reseen log) ps qs ->
  shown qs = flat_map (fun p => if seen_in log (fst p) then chars p else []) ps.
Proof.
  induction 1 as [|p q ps qs (E1 & _ & E2 & E3 & _ & _ & E4) _ IH]; [done|]. change (q :: qs) with ([q] ++ qs).
  rewrite shown_app, IH, shown_one, E4. unfold chars. by rewrite E1, E2, E3.
Qed.
Lemma reseen_same log p q : reseen log p q -> chars q = chars p.
Proof. intros (E1 & _ & E2 & E3 & _). unfold chars. by rewrite E1, E2, E3. Qed.

(** The visible bytes before an edit are those that are seen after it when it is undone. *)
Lemma undo_shown self self' ts ps ps1 texts patch log log' ps2 :
  spells self ps -> fresh ts ps -> undoable self ps log -> edit_result self self' ts ps ps1 texts patch ->
  (forall e, undone log' e = if bool_decide (e = ts) then true else undone log e) -> Forall2 (reseen log') ps1 ps2 ->
  shown ps2 = shown ps.
Proof.
  intros Hsp Hfresh Hok Hres Hlog Hre.
  set (old_visible := fun c : Stamp * nat * Z => existsb (fun p => visible (fst p) && names_byte (fst c) p) ps).
  assert (forall p n, p ∈ ps -> names_byte n p = true -> forall b, old_visible (n, b) = visible (fst p)) as Howner.
  { intros p n Hp Hn b. unfold old_visible. cbn [fst]. apply eq_true_iff_eq. rewrite existsb_exists. split.
    - intros (q & Hq%list_elem_of_In & [Hv Hqn]%andb_true_iff). by rewrite (one_owner self ps Hsp p q n); [..|apply names_of_part|apply names_of_part].
    - intros Hv. exists p. rewrite Hv, Hn. split; [by apply list_elem_of_In|done]. }
  assert (forall p c, p ∈ ps -> c ∈ chars p -> old_visible c = visible (fst p)) as Hold.
  { intros p [n b] Hp Hc. apply Howner; [done|]. by apply names_of_part, (name_of_char p (n, b)). }
  rewrite (shown_filter old_visible ps Hold), <-(result_kept _ _ _ _ _ _ _ Hres), filter_filter.
  rewrite <-(reseen_chars _ _ _ Hre). apply shown_filter. intros q2 [n b] Hq2 Hc.
  destruct (reseen_from _ _ _ Hre q2 Hq2) as (q & Hq & Hrs). rewrite (reseen_same _ _ _ Hrs) in Hc.
  destruct Hrs as (_ & _ & _ & _ & _ & _ & ->). apply name_of_char, names_of_part in Hc. cbn [fst] in Hc.
  assert (forall es, ts ∉ es -> forallb (undone log') es = forallb (undone log) es) as Hdel.
  { intros es Hes. induction es as [|e es IH]; [done|]. apply not_elem_of_cons in Hes as [He Hes]. cbn [forallb].
    rewrite IH, Hlog, bool_decide_eq_false_2 by done. done. }
  pose proof (result_stems _ _ _ _ _ _ _ Hres) as Hst. unfold old_char. cbn [fst snd].
  eapply Forall_forall in Hst as [(p & Hp & Hin & E1 & _ & Ed)|(E1 & _ & _ & _)]; [|..|exact Hq].
  - eapply Forall_forall in Hfresh as [Hts Hde]; [|exact Hp]. apply names_byte_true in Hc as [En Ho]. rewrite E1 in En.
    rewrite En, bool_decide_eq_false_2 by done. cbn [negb andb].
    rewrite (Howner p n Hp) by (apply names_byte_true; destruct Hin; split; [done|lia]).
    pose proof (undoable_seen _ _ _ Hok) as Hseen. eapply Forall_forall in Hseen as ->; [|exact Hp].
    unfold seen_in. rewrite E1, Hlog, bool_decide_eq_false_2 by done. f_equal.
    destruct Ed as [[_ ->]|(_ & _ & ->)]; [by rewrite Hdel|]. rewrite forallb_app, Hdel by done. cbn [forallb].
    by rewrite Hlog, bool_decide_eq_true_2, !andb_true_r.
  - apply names_byte_true in Hc as [-> _]. rewrite E1, bool_decide_eq_true_2 by done. unfold seen_in.
    by rewrite E1, Hlog, bool_decide_eq_true_2.
Qed.

Lemma seen_in_ext log log' (f g : Fragment) :
  (forall e, undone log' e = undone log e) -> frag_timestamp g = frag_timestamp f -> frag_deletions g = frag_deletions f ->
  seen_in log' g = seen_in log f.
Proof.
  intros H E1 E2. unfold seen_in. rewrite E1, E2, H. f_equal. clear E1 E2. induction (frag_deletions f) as [|e es IH]; [done|]. cbn [forallb].
  by rewrite H, IH.
Qed.
(** Seen anew twice, by what first decided. *)
Lemma redo_shown log log2 log3 ps1 ps2 ps3 :
  Forall (fun p => visible (fst p) = seen_in log (fst p)) ps1 -> (forall e, undone log3 e = undone log e) ->
  Forall2 (reseen log2) ps1 ps2 -> Forall2 (reseen log3) ps2 ps3 -> shown ps3 = shown ps1.
Proof.
  intros Hseen Hlog H12. revert ps3. induction H12 as [|p q ps1 ps2 (E1 & _ & E2 & E3 & _ & E4 & _) _ IH]; intros ps3 H23.
  { by apply Forall2_nil_inv_l in H23 as ->. }
  apply Forall2_cons_inv_l in H23 as (r & rs & (F1 & _ & F2 & F3 & _ & _ & F5) & H23 & ->). apply Forall_cons in Hseen as [Hp Hseen].
  change (r :: rs) with ([r] ++ rs). change (p :: ps1) with ([p] ++ ps1). rewrite !shown_app, (IH Hseen _ H23), !shown_one.
  unfold chars. by rewrite F1, F2, F3, F5, E1, E2, E3, Hp, (seen_in_ext log log3 (fst p) (fst q)).
Qed.

(** ** Undo operations *)
(** The undo of one edit. *)
Definition undo_of_edit (m : UndoMap) (ts : Stamp) (op : UndoOperation) : Prop := UndoMap.undo_counts m [ts] ∅ = Ret (counts op).
(** A new operation, and paths that the cursors hold. *)
Record can_undo (self : BufferSnapshot) log (op : UndoOperation) : Prop := {
  can_reach : reachable_by_cursors self;
  can_map : map_reachable self;
  can_stamp : unique_stamps (op :: log);
  can_insert : forall m, UndoMap.insert (snapshot_undo_map self) op = Ret m -> height m < STACK_CAPACITY;
}.

Lemma undone_step self ps log op ts e :
  undoable self ps log -> map_reachable self -> undo_of_edit (snapshot_undo_map self) ts op -> (max_count all_seen log ts < U32_MAX)%Z ->
  max_count all_seen (op :: log) ts = (max_count all_seen log ts + 1)%Z
  /\ undone (op :: log) e = if bool_decide (e = ts) then negb (undone log ts) else undone log e.
Proof.
  intros [(h & Hm) _ _ _] Hh Hop Hlt. unfold map_reachable in Hh. rewrite (wf_height _ _ (undo_wf _ _ _ Hm)) in Hh.
  split.
  - rewrite (undo_max_count h _ log [ts] op ts Hm Hh Hop) by done. rewrite bool_decide_eq_true_2 by set_solver. done.
  - unfold undone. rewrite (undo_max_count h _ log [ts] op e Hm Hh Hop) by (intros ->%list_elem_of_singleton; done).
    case_bool_decide as H1; rewrite list_elem_of_singleton in H1; [subst e|]; case_bool_decide; try done; [apply odd_flip|by rewrite Z.add_0_r].
Qed.

(** ** A sample: the sample of edits, with the slices of what made it *)
Module SampleUndo.
Import SampleEdit.
Definition s4 : Stamp := stamp 4 eq_refl.
Definition s5 : Stamp := stamp 5 eq_refl.
Definition slices : list InsertionSlice := [mkSlice s1 s1 0 7; mkSlice s2 s1 3 5].
Definition snapshot : BufferSnapshot := mkSnapshot (rope (hel ++ lo)) (rope xx)
  (leaf_of (map fst parts)) (leaf_of (map (fun p => insertion_new (fst p)) parts))
  (leaf_of (map (fun s => Entry_ s tt) slices)) SumTree.new seen 1.
(** The end of the edit of the sample: "hello" becomes "he", an e acute and "o". *)
Definition edited_snapshot : BufferSnapshot :=
  match apply_edit_internal (H:=separators) 4 chunks_map snapshot edits s3 with Ret (self, _, _) => self | Panic => snapshot end.
Definition undo3 : UndoOperation := mkUndo s4 seen {[s3 := 1%Z]}.
Definition redo3 : UndoOperation := mkUndo s5 seen {[s3 := 2%Z]}.
Definition undo2 : UndoOperation := mkUndo s4 seen {[s2 := 1%Z]}.
Definition undone_snapshot : BufferSnapshot := match apply_undo edited_snapshot undo3 with Ret (self, _) => self | Panic => snapshot end.

Lemma sliced_spells : spells snapshot parts.
Proof.
  destruct SampleEdit.snapshot_spells as [? ? ? ? ? ? ? ? ? ? _]. split; try done. split; [apply wf_leaf; vm_compute; lia|].
  repeat (constructor; [|repeat (constructor; [reflexivity|]); constructor]). constructor.
Qed.
Lemma sliced_reach : reachable_by_cursors snapshot.
Proof. destruct SampleEdit.snapshot_reach as [? ? ? ? _]. by split. Qed.
Lemma snapshot_slices s : has_slice snapshot s <-> In s slices.
Proof.
  unfold has_slice. change (contents _) with (list_to_map (M:=gmap InsertionSlice unit) (map (fun s => (s, tt)) slices)).
  split.
  - intros H%elem_of_list_to_map_2. apply list_elem_of_In, in_map_iff in H as (x & [= ->] & ?). done.
  - by intros [<-|[<-|[]]].
Qed.
Lemma snapshot_undoable : undoable snapshot parts [].
Proof.
  split; [exists 0; apply new_undo_ok|repeat constructor| |].
  - intros p e Hp He.
    assert (e = s1 \/ (e = s2 /\ insertion_offset (fst p) = 3 /\ length (snd p) = 2)) as [->|(-> & E1 & E2)].
    { repeat (apply elem_of_cons in Hp as [->|Hp]); [..|by apply elem_of_nil in Hp]; destruct He as [He|He]; cbn in He;
        try (by left); try (by apply elem_of_nil in He). apply list_elem_of_singleton in He. by right. }
    + exists (mkSlice s1 s1 0 7). split; [apply snapshot_slices; by left|]. split; [done|].
      repeat (apply elem_of_cons in Hp as [->|Hp]); [..|by apply elem_of_nil in Hp]; split_and!; cbn; (done || lia).
    + exists (mkSlice s2 s1 3 5). split; [apply snapshot_slices; right; by left|]. split; [done|]. unfold covers. rewrite E1, E2.
      split_and!; [|cbn; lia..]. repeat (apply elem_of_cons in Hp as [->|Hp]); [done..|by apply elem_of_nil in Hp].
  - by intros s [<-|[<-|[]]]%snapshot_slices.
Qed.
Lemma undo2_can : can_undo snapshot [] undo2.
Proof.
  split; [apply sliced_reach|vm_compute; lia|by intros a b [<-|[]] [<-|[]]|].
  intros m E. vm_compute in E. injection E as <-. vm_compute. lia.
Qed.
End SampleUndo.

(** ** The theorems *)

(** C11. Undo operations, a buffer's own or of others, applied to the text: whatever slices
    the operation's edits recorded and however later edits have cut the fragments since,
    every fragment ends up with the visibility that the log of undo operations gives it:
    seen when its insertion is not undone and each of its deletions is, by the parity of
    the greatest count.  The fragments with a part in its edits observe the operation's
    timestamp as one that may have changed them ([max_undos]); nothing else of a fragment
    changes, so that no byte is lost, renamed or moved, and fragments without part in the
    edits stay as they are.  The index and the slices stay, the patch turns the old visible
    text into the new one, and the buffer can be undone again. *)
Theorem undo_text (self : BufferSnapshot) ps log op :
  spells self ps -> undoable self ps log -> can_undo self log op ->
  exists self' patch ps',
    apply_undo self op = Ret (self', patch)
    /\ spells self' ps' /\ undoable self' ps' (op :: log)
    /\ Forall2 (reseen (op :: log)) ps ps' /\ all_chars ps' = all_chars ps
    /\ (forall i p q, ps !! i = Some p -> ps' !! i = Some q -> let edits := map fst (map_to_list (counts op)) in
         (affected self edits p -> max_undos (fst q) = version_observe (max_undos (fst p)) (UndoMap.timestamp op))
         /\ (~ affected self edits p -> q = p))
    /\ Patch.transforms 0 0 patch (shown ps) (shown ps') /\ Patch.normal patch
    /\ UndoMap.insert (snapshot_undo_map self) op = Ret (snapshot_undo_map self')
    /\ insertions self' = insertions self /\ insertion_slices self' = insertion_slices self /\ version self' = version self.
Proof.
  intros Hsp Hok [Hreach Hmap Huniq Hins].
  destruct (apply_undo_ok self ps log op Hsp Hreach Hok Hmap Huniq Hins) as (self' & patch & ps' & E & [H1 H2 H3 H4 H5 H6 (H7 & H8 & H9 & _) H10]).
  exists self', patch, ps'. split_and!; try done. by eapply reseen_chars.
Qed.

(** Undoing the deletion of "XX". *)
Lemma undo_text_witness :
  exists self' patch ps', apply_undo SampleUndo.snapshot SampleUndo.undo2 = Ret (self', patch)
    /\ patch = [edit_at 3 3 3 5]
    /\ holds (visible_text self') [104; 101; 108; 88; 88; 108; 111]%Z
    /\ undoable self' ps' [SampleUndo.undo2].
Proof.
  destruct (undo_text SampleUndo.snapshot SampleEdit.parts [] SampleUndo.undo2 SampleUndo.sliced_spells SampleUndo.snapshot_undoable
    SampleUndo.undo2_can) as (self' & patch & ps' & E & Hsp & Hok & Hre & _).
  exists self', patch, ps'. split; [exact E|].
  assert (Ep : match apply_undo SampleUndo.snapshot SampleUndo.undo2 with Ret (_, p) => p = [edit_at 3 3 3 5] | Panic => False end)
    by (vm_compute; reflexivity).
  rewrite E in Ep. split; [exact Ep|]. split; [|exact Hok].
  pose proof (spells_visible _ _ Hsp) as Hv. by rewrite (reseen_shown _ _ _ Hre) in Hv.
Defined.

(** C10. Undo takes back a local edit, and redo brings it back.  After a local edit that
    nothing has undone yet, the undo operation with the counts that [undo_or_redo] computes
    for it makes the visible text what it was before the edit, byte by byte and name by
    name, whatever fragments the edit cut; the operation that undoes it once more makes it
    the text after the edit again.  Neither panics, each keeps the fragments, the index and
    the slices in order, and each patch turns the one visible text into the other. *)
Theorem edit_undo_redo `{LineSeparators} max_insertion_len par (self : BufferSnapshot) ps ts edits log :
  spells self ps -> reachable_by_cursors self -> fresh ts ps -> undoable self ps log -> ts <> STAMP_MIN ->
  max_count all_seen log ts = 0%Z ->
  4 <= max_insertion_len -> collects_chunks par -> (forall s, utf8 s -> utf8 (normalize s)) ->
  edits_ok (bytes (shown ps)) 0 edits ->
  exists self1 edit patch1 ps1,
    apply_edit_internal max_insertion_len par self edits ts = Ret (self1, edit, patch1)
    /\ spells self1 ps1 /\ undoable self1 ps1 log
    /\ shown ps1 = edited 0 (shown ps) (stamped_edits ts 0 (normalized edits))
    /\ forall undo, can_undo self1 log undo -> undo_of_edit (snapshot_undo_map self1) ts undo ->
       exists self2 patch2 ps2,
         apply_undo self1 undo = Ret (self2, patch2)
         /\ spells self2 ps2 /\ undoable self2 ps2 (undo :: log)
         /\ shown ps2 = shown ps /\ holds (visible_text self2) (bytes (shown ps))
         /\ Patch.transforms 0 0 patch2 (shown ps1) (shown ps)
         /\ forall redo, can_undo self2 (undo :: log) redo -> undo_of_edit (snapshot_undo_map self2) ts redo ->
            exists self3 patch3 ps3,
              apply_undo self2 redo = Ret (self3, patch3)
              /\ spells self3 ps3 /\ undoable self3 ps3 (redo :: undo :: log)
              /\ shown ps3 = shown ps1 /\ holds (visible_text self3) (bytes (shown ps1))
              /\ Patch.transforms 0 0 patch3 (shown ps) (shown ps1).
Proof.
  intros Hsp Hreach Hfresh Hok Hmin Hcount Hmax Hpar Hnorm Hed.
  destruct (apply_edit_ok self ts ps Hsp Hreach Hfresh max_insertion_len Hmax par Hpar Hnorm edits Hed)
    as (self1 & patch1 & ps1 & ranges & E1 & Hres & Es & _).
  assert (undoable self1 ps1 log) as Hok1 by (eapply undoable_edit; [exact Hres|exact Hok|by apply undone_zero|exact Hmin]).
  eexists self1, _, patch1, ps1. split; [exact E1|]. split; [apply Hres|]. split; [exact Hok1|]. split; [exact Es|].
  intros undo [Hr1 Hm1 Hu1 Hi1] Hc1.
  assert (forall e, undone (undo :: log) e = if bool_decide (e = ts) then true else undone log e) as Hlog2.
  { intros e. rewrite (proj2 (undone_step self1 ps1 log undo ts e Hok1 Hm1 Hc1 ltac:(rewrite Hcount; done))).
    by rewrite (undone_zero _ _ Hcount). }
  destruct (undone_step self1 ps1 log undo ts ts Hok1 Hm1 Hc1 ltac:(rewrite Hcount; done)) as [Hcount2 _]. rewrite Hcount in Hcount2.
  destruct (apply_undo_ok self1 ps1 log undo (result_spells _ _ _ _ _ _ _ Hres) Hr1 Hok1 Hm1 Hu1 Hi1)
    as (self2 & patch2 & ps2 & E2 & [Hsp2 Hok2 Hre2 Ht2 _ _ _ _]).
  assert (shown ps2 = shown ps) as Es2 by (eapply undo_shown; [exact Hsp|exact Hfresh|exact Hok|exact Hres|exact Hlog2|exact Hre2]).
  exists self2, patch2, ps2. rewrite <-Es2. split_and!; try done; [apply Hsp2|].
  intros redo [Hr2 Hm2 Hu2 Hi2] Hc2.
  destruct (apply_undo_ok self2 ps2 _ redo Hsp2 Hr2 Hok2 Hm2 Hu2 Hi2) as (self3 & patch3 & ps3 & E3 & [Hsp3 Hok3 Hre3 Ht3 _ _ _ _]).
  assert (shown ps3 = shown ps1) as Es3.
  { eapply redo_shown; [exact (undoable_seen _ _ _ Hok1)| |exact Hre2|exact Hre3]. intros e.
    rewrite (proj2 (undone_step self2 ps2 _ redo ts e Hok2 Hm2 Hc2 ltac:(rewrite Hcount2; done))), !Hlog2, (bool_decide_eq_true_2 (ts = ts)) by done.
    case_bool_decide as Hts; [subst e|done]. by rewrite (undone_zero _ _ Hcount). }
  exists self3, patch3, ps3. rewrite <-Es3. split_and!; try done; [apply Hsp3].
Qed.

(** ** The sample, edited, undone and redone *)
Module SampleRedo.
Import SampleEdit SampleUndo.
Lemma one_chunk_reach (self : BufferSnapshot) ps :
  spells self ps ->
  (height (rope_chunks (visible_text self)), length (to_list (rope_chunks (visible_text self))),
   height (rope_chunks (deleted_text self)), length (to_list (rope_chunks (deleted_text self))),
   height (fragments self), height (insertions self), height (insertion_slices self)) = (0, 1, 0, 1, 0, 0, 0) ->
  reachable_by_cursors self.
Proof.
  intros Hsp [= E1 E2 E3 E4 E5 E6 E7].
  split; [eapply one_chunk_rope_cuttable; [apply Hsp|done..]|eapply one_chunk_rope_cuttable; [apply Hsp|done..]|..];
    unfold STACK_CAPACITY; lia.
Qed.
Lemma leaf_can_undo (self : BufferSnapshot) ps log op :
  spells self ps ->
  (height (rope_chunks (visible_text self)), length (to_list (rope_chunks (visible_text self))),
   height (rope_chunks (deleted_text self)), length (to_list (rope_chunks (deleted_text self))),
   height (fragments self), height (insertions self), height (insertion_slices self)) = (0, 1, 0, 1, 0, 0, 0) ->
  unique_stamps (op :: log) -> height (snapshot_undo_map self) = 0 ->
  match UndoMap.insert (snapshot_undo_map self) op with Ret m => height m | Panic => 0 end = 0 -> can_undo self log op.
Proof.
  intros Hsp Hh Hu Hm Hi. split; [by eapply one_chunk_reach|unfold map_reachable, STACK_CAPACITY; lia|done|].
  intros m E. rewrite E in Hi. unfold STACK_CAPACITY. lia.
Qed.
Lemma stamps_apart : unique_stamps [redo3; undo3] /\ unique_stamps [undo3].
Proof. split; [by intros a b [<-|[<-|[]]] [<-|[<-|[]]]|by intros a b [<-|[]] [<-|[]]]. Qed.
Lemma s3_not_min : s3 <> STAMP_MIN.
Proof. discriminate. Qed.
End SampleRedo.

Lemma edit_undo_redo_witness :
  exists self1 edit patch1 self2 patch2 self3 patch3,
    apply_edit_internal (H:=SampleEdit.separators) 4 chunks_map SampleUndo.snapshot SampleEdit.edits SampleEdit.s3 = Ret (self1, edit, patch1)
    /\ holds (visible_text self1) [104; 101; 195; 169; 111]%Z
    /\ apply_undo self1 SampleUndo.undo3 = Ret (self2, patch2) /\ holds (visible_text self2) [104; 101; 108; 108; 111]%Z
    /\ apply_undo self2 SampleUndo.redo3 = Ret (self3, patch3) /\ holds (visible_text self3) [104; 101; 195; 169; 111]%Z.
Proof.
  destruct (edit_undo_redo (H:=SampleEdit.separators) 4 chunks_map SampleUndo.snapshot SampleEdit.parts SampleEdit.s3 SampleEdit.edits []
    SampleUndo.sliced_spells SampleUndo.sliced_reach SampleEdit.s3_fresh SampleUndo.snapshot_undoable SampleRedo.s3_not_min eq_refl
    ltac:(lia) (fun _ _ _ _ _ _ => eq_refl) (fun s Hs => Hs) SampleEdit.edits_in_order)
    as (self1 & edit & patch1 & ps1 & E1 & Hsp1 & Hok1 & Es1 & Hundo).
  assert (self1 = SampleUndo.edited_snapshot) as Hself1 by (unfold SampleUndo.edited_snapshot; by rewrite E1).
  assert (bytes (shown ps1) = [104; 101; 195; 169; 111]%Z) as Eb by (rewrite Es1; vm_compute; reflexivity).
  assert (holds (visible_text self1) [104; 101; 195; 169; 111]%Z) as Hv1 by (rewrite <-Eb; apply Hsp1).
  destruct (Hundo SampleUndo.undo3) as (self2 & patch2 & ps2 & E2 & Hsp2 & Hok2 & Es2 & Hv2 & _ & Hredo).
  { apply (SampleRedo.leaf_can_undo _ ps1); [exact Hsp1|rewrite Hself1; vm_compute; reflexivity|apply SampleRedo.stamps_apart|..];
      rewrite Hself1; vm_compute; reflexivity. }
  { unfold undo_of_edit. rewrite Hself1. vm_cast_no_check (eq_refl (Ret (counts SampleUndo.undo3))). }
  assert (self2 = SampleUndo.undone_snapshot) as Hself2 by (unfold SampleUndo.undone_snapshot; by rewrite <-Hself1, E2).
  destruct (Hredo SampleUndo.redo3) as (self3 & patch3 & ps3 & E3 & Hsp3 & _ & Es3 & Hv3 & _).
  { apply (SampleRedo.leaf_can_undo _ ps2); [exact Hsp2|rewrite Hself2; vm_compute; reflexivity|apply SampleRedo.stamps_apart|..];
      rewrite Hself2; vm_compute; reflexivity. }
  { unfold undo_of_edit. rewrite Hself2. vm_cast_no_check (eq_refl (Ret (counts SampleUndo.redo3))). }
  exists self1, edit, patch1, self2, patch2, self3, patch3. split; [exact E1|]. split; [exact Hv1|]. split; [exact E2|]. split; [exact Hv2|].
  split; [exact E3|]. by rewrite Eb in Hv3.
Defined.
