(* ===== verification/F32.v ===== *)
(** * Single-precision arithmetic

    Rust's [f32] is IEEE-754 binary32.  Values and operations are those of
    the Standard Library's executable specification [SpecFloat] at precision
    24 and maximal exponent 128; round-to-nearest-even is what the hardware
    and [as f32] casts use.  [Pixels] of [gpui] is a wrapper of [f32] whose
    comparisons go through [f32::total_cmp]. *)

From S2P Require Import Prelude.
From Stdlib Require Export SpecFloat.

Abbreviation f32 := spec_float (only parsing).

Declare Scope f32_scope.
Delimit Scope f32_scope with f32.

Definition prec32 : Z := 24.
Definition emax32 : Z := 128.

Definition fadd : f32 -> f32 -> f32 := SFadd prec32 emax32.
Definition fsub : f32 -> f32 -> f32 := SFsub prec32 emax32.
Definition fmul : f32 -> f32 -> f32 := SFmul prec32 emax32.
Definition fdiv : f32 -> f32 -> f32 := SFdiv prec32 emax32.
Definition fneg : f32 -> f32 := SFopp.
Definition fabs : f32 -> f32 := SFabs.

(** [x as f32] for an integer. *)
Definition of_Z (x : Z) : f32 := binary_normalize prec32 emax32 x 0 false.
Definition of_nat (n : nat) : f32 := of_Z (Z.of_nat n).

Infix "+" := fadd : f32_scope.
Infix "-" := fsub : f32_scope.
Infix "*" := fmul : f32_scope.
Infix "/" := fdiv : f32_scope.

(** The operators [<], [<=], [==] on [f32]: false on NaN. *)
Definition flt : f32 -> f32 -> bool := SFltb.
Definition fle : f32 -> f32 -> bool := SFleb.
Definition feq : f32 -> f32 -> bool := SFeqb.
Infix "<?" := flt : f32_scope.
Infix "<=?" := fle : f32_scope.

Definition is_finite (x : f32) : bool :=
  match x with S754_zero _ | S754_finite _ _ _ => true | _ => false end.

Definition is_nan (x : f32) : bool := match x with S754_nan => true | _ => false end.

(** [f32::min], [f32::max]: a NaN operand is ignored. *)
Definition fmin (a b : f32) : f32 :=
  if is_nan a then b else if is_nan b then a else if flt b a then b else a.
Definition fmax (a b : f32) : f32 :=
  if is_nan a then b else if is_nan b then a else if flt a b then b else a.

(** [x.clamp(lo, hi)]. *)
Definition fclamp (x lo hi : f32) : f32 :=
  let x := if flt x lo then lo else x in if flt hi x then hi else x.

Definition ffloor (x : f32) : f32 :=
  match x with
  | S754_finite s m e =>
      if 0 <=? e then x
      else binary_normalize prec32 emax32
             (Z.div (cond_Zopp s (Zpos m)) (2 ^ (- e))) 0 s
  | _ => x
  end.

(** [f32::round]: to the nearest integer, halves away from zero. *)
Definition fround (x : f32) : f32 :=
  match x with
  | S754_finite s m e =>
      if 0 <=? e then x
      else binary_normalize prec32 emax32
             (cond_Zopp s (Z.div (2 * Zpos m + 2 ^ (- e)) (2 ^ (1 - e)))) 0 s
  | _ => x
  end.

(** [iter().sum::<f32>()]: folds from [-0.0]. *)
Definition fsum (l : list f32) : f32 := fold_left fadd l (S754_zero true).

Definition valid (x : f32) : Prop := valid_binary prec32 emax32 x = true.

(** ** [f32::total_cmp]

    The bit pattern without its sign, and the two's complement key the
    standard library compares: a set sign reverses the order. *)
Definition to_bits_abs (x : f32) : Z :=
  match x with
  | S754_zero _ => 0
  | S754_infinity _ => 255 * 2 ^ 23
  | S754_nan => 255 * 2 ^ 23 + 2 ^ 22
  | S754_finite _ m e => (e + 149) * 2 ^ 23 + Zpos m
  end.

Definition sign_bit (x : f32) : bool :=
  match x with
  | S754_zero s | S754_infinity s | S754_finite s _ _ => s
  | S754_nan => false
  end.

Definition total_key (x : f32) : Z :=
  if sign_bit x then - to_bits_abs x - 1 else to_bits_abs x.

Definition total_cmp (a b : f32) : comparison := Z.compare (total_key a) (total_key b).

Module Pixels.
Definition lt (a b : f32) : bool := total_key a <? total_key b.
Definition le (a b : f32) : bool := total_key a <=? total_key b.
(** [Ord::max], [Ord::min]: [max] keeps the second of two equal operands. *)
Definition max (a b : f32) : f32 := if lt b a then a else b.
Definition min (a b : f32) : f32 := if lt b a then b else a.
End Pixels.

(** Decimal literals used by the components. *)
Definition f_0 : f32 := S754_zero false.
Definition f_1 : f32 := of_Z 1.
Definition f_2 : f32 := of_Z 2.
Definition f_half : f32 := fdiv f_1 f_2.

Lemma total_cmp_antisym a b : total_cmp b a = CompOpp (total_cmp a b).
Proof. apply Z.compare_antisym. Qed.

(** Halving is exact away from the subnormal range, so a tile split in two is
    shared evenly. *)
Example half_of_three : fadd (fdiv (of_Z 3) f_2) (fdiv (of_Z 3) f_2) = of_Z 3.
Proof. vm_compute. reflexivity. Qed.

Example floor_examples :
  ffloor (fdiv (of_Z 7) f_2) = of_Z 3 /\ ffloor (fneg f_half) = of_Z (-1)
  /\ ffloor f_half = f_0.
Proof. vm_compute. auto. Qed.

Example round_examples :
  fround f_half = f_1 /\ fround (fneg f_half) = of_Z (-1)
  /\ fround (fdiv (of_Z 7) (of_Z 3)) = f_2 /\ fround (of_Z 5) = of_Z 5
  /\ fround (fneg (fdiv f_1 (of_Z 4))) = S754_zero true.
Proof. vm_compute. auto 6. Qed.

Example total_cmp_examples :
  total_cmp (S754_zero true) f_0 = Lt /\ total_cmp f_half f_1 = Lt
  /\ total_cmp (of_Z (-3)) (of_Z (-2)) = Lt /\ total_cmp S754_nan (of_Z 1000) = Gt.
Proof. vm_compute. auto. Qed.
