(* ===== verification/PaneGroup.v ===== *)
(** * The pane tree ([crates/workspace/src/pane_group.rs])

    A [PaneGroup] is an n-ary tree: a [Member] is a pane or an axis, an axis
    a row or a column of members with one flex factor and one cached bounding
    box per member.  A pane is known by its entity id.  [Arc<Mutex<Vec<_>>>]
    fields are never shared between two live axes, so they are plain lists.
    Indexing, [Vec::insert] and [unwrap] panic out of range; [res] keeps that
    visible.  [in_center_group] of the panes is the explicit state [flags]. *)

From S2P Require Import Prelude F32.

Abbreviation pane_id := Z (only parsing).

Inductive Axis := Horizontal | Vertical.
Inductive SplitDirection := Up | Down | Left | Right.

Global Instance Axis_eq_dec : EqDecision Axis. Proof. solve_decision. Defined.
Global Instance SplitDirection_eq_dec : EqDecision SplitDirection.
Proof. solve_decision. Defined.

(** [Axis::invert]. *)
Definition axis_invert (a : Axis) : Axis :=
  match a with Horizontal => Vertical | Vertical => Horizontal end.

Module SplitDir.
Definition all : list SplitDirection := [Up; Down; Left; Right].
Definition axis (d : SplitDirection) : Axis :=
  match d with Up | Down => Vertical | Left | Right => Horizontal end.
Definition increasing (d : SplitDirection) : bool :=
  match d with Left | Up => false | Down | Right => true end.
Definition opposite (d : SplitDirection) : SplitDirection :=
  match d with Down => Up | Up => Down | Left => Right | Right => Left end.
End SplitDir.

(** ** Geometry ([crates/gpui/src/geometry.rs]) *)

Record Point := mkPoint { x : f32; y : f32 }.
Record Size := mkSize { width : f32; height : f32 }.
Record Bounds := mkBounds { origin : Point; size : Size }.

Definition point_along (p : Point) (a : Axis) : f32 :=
  match a with Horizontal => x p | Vertical => y p end.
Definition size_along (s : Size) (a : Axis) : f32 :=
  match a with Horizontal => width s | Vertical => height s end.

Definition bottom_right (b : Bounds) : Point :=
  mkPoint (fadd (x (origin b)) (width (size b))) (fadd (y (origin b)) (height (size b))).
Definition bottom_left (b : Bounds) : Point :=
  mkPoint (x (origin b)) (fadd (y (origin b)) (height (size b))).
Definition b_top (b : Bounds) : f32 := y (origin b).
Definition b_bottom (b : Bounds) : f32 := fadd (y (origin b)) (height (size b)).
Definition b_left (b : Bounds) : f32 := x (origin b).
Definition b_right (b : Bounds) : f32 := fadd (x (origin b)) (width (size b)).
Definition center (b : Bounds) : Point :=
  mkPoint (fadd (x (origin b)) (fdiv (width (size b)) f_2))
          (fadd (y (origin b)) (fdiv (height (size b)) f_2)).

Definition point_max (a b : Point) : Point :=
  mkPoint (if Pixels.lt (x b) (x a) then x a else x b)
          (if Pixels.lt (y b) (y a) then y a else y b).
Definition point_min (a b : Point) : Point :=
  mkPoint (if Pixels.le (x a) (x b) then x a else x b)
          (if Pixels.le (y a) (y b) then y a else y b).

Definition from_corners (top_left bottom_right : Point) : Bounds :=
  mkBounds (mkPoint (x top_left) (y top_left))
           (mkSize (fsub (x bottom_right) (x top_left))
                   (fsub (y bottom_right) (y top_left))).

Definition union (a b : Bounds) : Bounds :=
  from_corners (point_min (origin a) (origin b))
               (point_max (bottom_right a) (bottom_right b)).

Definition contains (b : Bounds) (p : Point) : bool :=
  Pixels.le (x (origin b)) (x p)
  && Pixels.lt (x p) (fadd (x (origin b)) (width (size b)))
  && Pixels.le (y (origin b)) (y p)
  && Pixels.lt (y p) (fadd (y (origin b)) (height (size b))).

(** [SplitDirection::edge] and [along_edge]. *)
Definition edge (d : SplitDirection) (rect : Bounds) : f32 :=
  match d with
  | Up => y (origin rect)
  | Down => y (bottom_left rect)
  | Left => x (bottom_left rect)
  | Right => x (bottom_right rect)
  end.

Definition along_edge (d : SplitDirection) (b : Bounds) (length : f32) : Bounds :=
  match d with
  | Up => mkBounds (origin b) (mkSize (width (size b)) length)
  | Down => mkBounds (mkPoint (x (bottom_left b)) (fsub (y (bottom_left b)) length))
                     (mkSize (width (size b)) length)
  | Left => mkBounds (origin b) (mkSize length (height (size b)))
  | Right => mkBounds (mkPoint (fsub (x (bottom_right b)) length) (y (bottom_left b)))
                      (mkSize length (height (size b)))
  end.

(** ** The tree *)

Inductive Member :=
| MAxis (a : PaneAxis)
| MPane (p : pane_id)
with PaneAxis :=
| mkAxis (axis : Axis) (members : list Member) (flexes : list f32)
         (bounding_boxes : list (option Bounds)).

Definition pa_axis (a : PaneAxis) : Axis := let '(mkAxis ax _ _ _) := a in ax.
Definition pa_members (a : PaneAxis) : list Member := let '(mkAxis _ ms _ _) := a in ms.
Definition pa_flexes (a : PaneAxis) : list f32 := let '(mkAxis _ _ fl _) := a in fl.
Definition pa_boxes (a : PaneAxis) : list (option Bounds) := let '(mkAxis _ _ _ bb) := a in bb.

Definition ones (n : nat) : list f32 := replicate n f_1.

(** [PaneAxis::new]. *)
Definition axis_new (axis : Axis) (members : list Member) : PaneAxis :=
  mkAxis axis members (ones (length members)) (replicate (length members) None).

(** [PaneAxis::load]: stored flexes are kept only when there is one per member
    and they sum to the member count within a thousandth. *)
Definition flexes_acceptable (flexes : list f32) (n : nat) : bool :=
  (length flexes =? n)%nat
  && negb (fle (fdiv f_1 (of_Z 1000))
               (fabs (fsub (fsum flexes) (of_nat (length flexes))))).

Definition axis_load (axis : Axis) (members : list Member)
    (flexes : option (list f32)) : PaneAxis :=
  let flexes := match flexes with Some f => f | None => ones (length members) end in
  let flexes := if flexes_acceptable flexes (length members) then flexes
                else ones (length members) in
  mkAxis axis members flexes (replicate (length members) None).

(** [Member::new_axis]. *)
Definition new_axis (old_pane new_pane : pane_id) (direction : SplitDirection) : Member :=
  let axis := match direction with Up | Down => Vertical | Left | Right => Horizontal end in
  let members := match direction with
                 | Up | Left => [MPane new_pane; MPane old_pane]
                 | Down | Right => [MPane old_pane; MPane new_pane]
                 end in
  MAxis (axis_new axis members).

(** [insert_pane]: every flex of the axis is reset. *)
Definition insert_pane (a : PaneAxis) (idx : nat) (new_pane : pane_id) : res PaneAxis :=
  let '(mkAxis ax ms fl bb) := a in
  match vec_insert idx (MPane new_pane) ms with
  | Ret ms' =>
      match vec_insert idx None bb with
      | Ret bb' => Ret (mkAxis ax ms' (ones (length ms')) bb')
      | Panic => Panic
      end
  | Panic => Panic
  end.

(** Where the loop of [PaneAxis::split] stops. *)
Inductive split_step :=
| SplitNotFound
| SplitReplace (idx : nat) (m : Member)
| SplitInsert (idx : nat).

(** The loop of [PaneAxis::split], [split_axis] being the call on a nested
    axis. *)
Definition split_scan (split_axis : PaneAxis -> res (option PaneAxis)) (ax : Axis)
    (old_pane new_pane : pane_id) (direction : SplitDirection) :=
  fix scan (idx : nat) (l : list Member) {struct l} : res split_step :=
    match l with
    | [] => Ret SplitNotFound
    | MAxis a :: l' =>
        match split_axis a with
        | Ret (Some a') => Ret (SplitReplace idx (MAxis a'))
        | Ret None => scan (S idx) l'
        | Panic => Panic
        end
    | MPane pane :: l' =>
        if decide (pane = old_pane) then
          if decide (SplitDir.axis direction = ax) then
            Ret (SplitInsert (if SplitDir.increasing direction then S idx else idx))
          else Ret (SplitReplace idx (new_axis old_pane new_pane direction))
        else scan (S idx) l'
    end.

(** [PaneAxis::split]: [None] is the source's [false]. *)
Fixpoint axis_split (self : PaneAxis) (old_pane new_pane : pane_id)
    (direction : SplitDirection) {struct self} : res (option PaneAxis) :=
  let '(mkAxis ax ms fl bb) := self in
  match split_scan (fun a => axis_split a old_pane new_pane direction)
          ax old_pane new_pane direction 0 ms with
  | Ret SplitNotFound => Ret None
  | Ret (SplitReplace idx m) => Ret (Some (mkAxis ax (<[idx := m]> ms) fl bb))
  | Ret (SplitInsert idx) => Some <$> insert_pane self idx new_pane
  | Panic => Panic
  end.

(** [PaneAxis::find_pane_at_border]. *)
Definition axis_find_pane_at_border (self : PaneAxis) (direction : SplitDirection)
    : option pane_id :=
  let '(mkAxis ax ms _ _) := self in
  if decide (ax = SplitDir.axis direction) then
    match (if SplitDir.increasing direction then last ms else head ms) with
    | Some (MPane pane) => Some pane
    | _ => None
    end
  else None.

Inductive remove_step :=
| RemoveNotFound
| RemoveNested (idx : nat) (m : Member)
| RemoveAt (idx : nat).

(** The tail of [PaneAxis::remove] once the pane was found: a single member
    left over is handed to the parent. *)
Definition collapse (ax : Axis) (ms : list Member) (fl : list f32)
    (bb : list (option Bounds)) : option Member * PaneAxis :=
  if (length ms =? 1)%nat then
    let '(result, ms') := vec_pop ms in
    (result, mkAxis ax ms' (ones (length ms')) (vec_pop bb).2)
  else (None, mkAxis ax ms fl bb).

(** The loop of [PaneAxis::remove]. *)
Definition remove_scan
    (remove_axis : PaneAxis -> res (option (option Member * PaneAxis)))
    (pane_to_remove : pane_id) :=
  fix scan (idx : nat) (l : list Member) {struct l} : res remove_step :=
    match l with
    | [] => Ret RemoveNotFound
    | MAxis a :: l' =>
        match remove_axis a with
        | Ret (Some (Some last_pane, _)) => Ret (RemoveNested idx last_pane)
        | Ret (Some (None, a')) => Ret (RemoveNested idx (MAxis a'))
        | Ret None => scan (S idx) l'
        | Panic => Panic
        end
    | MPane pane :: l' =>
        if decide (pane = pane_to_remove) then Ret (RemoveAt idx) else scan (S idx) l'
    end.

(** [PaneAxis::remove]: [None] is the error "Pane not found"; otherwise the
    member handed to the parent, if any, and the axis as it was left. *)
Fixpoint axis_remove (self : PaneAxis) (pane_to_remove : pane_id) {struct self}
    : res (option (option Member * PaneAxis)) :=
  let '(mkAxis ax ms fl bb) := self in
  match remove_scan (fun a => axis_remove a pane_to_remove) pane_to_remove 0 ms with
  | Ret RemoveNotFound => Ret None
  | Ret (RemoveNested idx m) => Ret (Some (collapse ax (<[idx := m]> ms) fl bb))
  | Ret (RemoveAt idx) =>
      match vec_remove idx ms with
      | Ret ms' =>
          let bb' := if (idx <? length bb)%nat then take idx bb ++ drop (S idx) bb else bb in
          Ret (Some (collapse ax ms' (ones (length ms')) bb'))
      | Panic => Panic
      end
  | Panic => Panic
  end.

(** [PaneAxis::reset_pane_sizes]. *)
Fixpoint axis_reset_pane_sizes (self : PaneAxis) : PaneAxis :=
  let '(mkAxis ax ms _ bb) := self in
  mkAxis ax
    (map (fun m => match m with
                   | MAxis a => MAxis (axis_reset_pane_sizes a)
                   | MPane p => MPane p
                   end) ms)
    (ones (length ms)) bb.

(** [PaneAxis::swap]. *)
Fixpoint axis_swap (self : PaneAxis) (from to : pane_id) : PaneAxis :=
  let '(mkAxis ax ms fl bb) := self in
  mkAxis ax
    (map (fun m => match m with
                   | MAxis a => MAxis (axis_swap a from to)
                   | MPane pane =>
                       if decide (pane = from) then MPane to
                       else if decide (pane = to) then MPane from
                       else MPane pane
                   end) ms) fl bb.

(** [PaneAxis::bounding_box_for_pane]. *)
Definition box_scan (box_axis : PaneAxis -> res (option Bounds)) (bb : list (option Bounds))
    (pane : pane_id) :=
  fix scan (idx : nat) (l : list Member) {struct l} : res (option Bounds) :=
    match l with
    | [] => Ret None
    | MPane found :: l' =>
        if decide (pane = found) then index bb idx else scan (S idx) l'
    | MAxis a :: l' =>
        match box_axis a with
        | Ret (Some rect) => Ret (Some rect)
        | Ret None => scan (S idx) l'
        | Panic => Panic
        end
    end.

Fixpoint axis_bounding_box_for_pane (self : PaneAxis) (pane : pane_id) {struct self}
    : res (option Bounds) :=
  let '(mkAxis _ ms _ bb) := self in
  box_scan (fun a => axis_bounding_box_for_pane a pane) bb pane 0 ms.

(** [PaneAxis::pane_at_pixel_position]. *)
Definition hit_scan (hit_axis : PaneAxis -> res (option pane_id))
    (bb : list (option Bounds)) (coordinate : Point) :=
  fix scan (idx : nat) (l : list Member) {struct l} : res (option pane_id) :=
    match l with
    | [] => Ret None
    | m :: l' =>
        match index bb idx with
        | Panic => Panic
        | Ret None => scan (S idx) l'
        | Ret (Some coordinates) =>
            if contains coordinates coordinate then
              match m with
              | MPane found => Ret (Some found)
              | MAxis a => hit_axis a
              end
            else scan (S idx) l'
        end
    end.

Fixpoint axis_pane_at_pixel_position (self : PaneAxis) (coordinate : Point) {struct self}
    : res (option pane_id) :=
  let '(mkAxis _ ms _ bb) := self in
  hit_scan (fun a => axis_pane_at_pixel_position a coordinate) bb coordinate 0 ms.

(** ** [PaneAxis::resize] *)

Definition HORIZONTAL_MIN_SIZE : f32 := of_Z 80.
Definition VERTICAL_MIN_SIZE : f32 := of_Z 100.

(** The union of the cached boxes, or the caller's bounds. *)
Definition container_size (bb : list (option Bounds)) (bounds : Bounds) : Size :=
  match omap id bb with
  | [] => size bounds
  | b :: rest => size (fold_left union rest b)
  end.

(** The closure [size]: a flex value turned into pixels. *)
Definition flex_to_pixels (container : Size) (axis : Axis) (ix : nat)
    (flexes : list f32) : res f32 :=
  match index flexes ix with
  | Ret f => Ret (fmul (size_along container axis) (fdiv f (of_nat (length flexes))))
  | Panic => Panic
  end.

(** The closures [apply_changes] and [flex_changes]. *)
Definition apply_changes (container : Size) (axis : Axis) (min_size : f32)
    (current_ix : nat) (change : f32) (flexes : list f32) : res (list f32) :=
  match flex_to_pixels container axis current_ix flexes,
        flex_to_pixels container axis (S current_ix) flexes,
        index flexes current_ix, index flexes (S current_ix) with
  | Ret size_cur, Ret size_next, Ret flex_cur, Ret flex_next =>
      let next_target_size := Pixels.max (fsub size_next change) min_size in
      let current_target_size :=
        Pixels.max (fsub (fadd size_cur size_next) next_target_size) min_size in
      let current_pixel_change := fsub current_target_size size_cur in
      let flex_change :=
        fdiv (fmul (of_nat (length flexes)) current_pixel_change)
             (size_along container axis) in
      Ret (<[S current_ix := fsub flex_next flex_change]>
             (<[current_ix := fadd flex_cur flex_change]> flexes))
  | _, _, _, _ => Panic
  end.

Definition is_pane (pane : pane_id) (m : Member) : bool :=
  match m with MPane p => bool_decide (p = pane) | MAxis _ => false end.

Fixpoint position {A} (f : A -> bool) (l : list A) : option nat :=
  match l with
  | [] => None
  | a :: l' => if f a then Some 0%nat else option_map S (position f l')
  end.

(** The part of [resize] below the search: the member at [ix] takes [amount]
    pixels from its successor, or gives them to its predecessor when last. *)
Definition resize_at (container : Size) (axis : Axis) (ix : nat) (amount : f32)
    (flexes : list f32) : res (list f32) :=
  let min_size := match axis with
                  | Horizontal => HORIZONTAL_MIN_SIZE
                  | Vertical => VERTICAL_MIN_SIZE
                  end in
  match flex_to_pixels container axis ix flexes with
  | Panic => Panic
  | Ret sz =>
      if Pixels.lt sz (fsub min_size f_1) then Ret flexes
      else if (ix + 1 =? length flexes)%nat then
        match ix with
        | O => Panic
        | S prev => apply_changes container axis min_size prev
                      (fmul amount (fneg f_1)) flexes
        end
      else apply_changes container axis min_size ix amount flexes
  end.

(** The result of the loop over the members: the members as left, and either
    an early return or the last axis that found the pane. *)
Inductive resize_scan :=
| ResizeReturn (r : bool)
| ResizeContinue (found_axis_index : option nat).

Definition resize_members (resize_axis : PaneAxis -> res (option bool * PaneAxis))
    (same_axis : bool) :=
  fix scan (i : nat) (l : list Member) (found : option nat) {struct l}
      : res (list Member * resize_scan) :=
    match l with
    | [] => Ret ([], ResizeContinue found)
    | m :: l' =>
        let continue m found :=
          match scan (S i) l' found with
          | Ret (rest, r) => Ret (m :: rest, r)
          | Panic => Panic
          end in
        match m with
        | MPane _ => continue m found
        | MAxis pa =>
            match resize_axis pa with
            | Panic => Panic
            | Ret (None, pa') => continue (MAxis pa') found
            | Ret (Some true, pa') => Ret (MAxis pa' :: l', ResizeReturn true)
            | Ret (Some false, pa') =>
                if same_axis then continue (MAxis pa') (Some i)
                else Ret (MAxis pa' :: l', ResizeReturn false)
            end
        end
    end.

Fixpoint axis_resize (self : PaneAxis) (pane : pane_id) (axis : Axis) (amount : f32)
    (bounds : Bounds) {struct self} : res (option bool * PaneAxis) :=
  let '(mkAxis ax ms fl bb) := self in
  let finish ms ix :=
    match resize_at (container_size bb bounds) axis ix amount fl with
    | Ret fl' => Ret (Some true, mkAxis ax ms fl' bb)
    | Panic => Panic
    end in
  if existsb (is_pane pane) ms then
    if bool_decide (ax = axis) then
      match position (is_pane pane) ms with
      | Some ix => finish ms ix
      | None => Ret (Some true, self)
      end
    else Ret (Some false, self)
  else
    match resize_members (fun pa => axis_resize pa pane axis amount bounds)
            (bool_decide (ax = axis)) 0 ms None with
    | Panic => Panic
    | Ret (ms', ResizeReturn r) => Ret (Some r, mkAxis ax ms' fl bb)
    | Ret (ms', ResizeContinue None) => Ret (None, mkAxis ax ms' fl bb)
    | Ret (ms', ResizeContinue (Some ix)) => finish ms' ix
    end.

(** ** [Member] *)

Fixpoint first_pane (m : Member) : res pane_id :=
  match m with
  | MPane pane => Ret pane
  | MAxis (mkAxis _ ms _ _) =>
      match ms with [] => Panic | m' :: _ => first_pane m' end
  end.

Fixpoint last_pane (m : Member) : res pane_id :=
  match m with
  | MPane pane => Ret pane
  | MAxis (mkAxis _ ms _ _) =>
      (fix go (l : list Member) : res pane_id :=
         match l with
         | [] => Panic
         | [m'] => last_pane m'
         | _ :: l' => go l'
         end) ms
  end.

Fixpoint contains_pane (m : Member) (needle : pane_id) : bool :=
  match m with
  | MPane pane => bool_decide (pane = needle)
  | MAxis (mkAxis _ ms _ _) => existsb (fun m' => contains_pane m' needle) ms
  end.

(** [collect_panes]: the panes in reading order. *)
Fixpoint collect_panes (m : Member) : list pane_id :=
  match m with
  | MPane pane => [pane]
  | MAxis (mkAxis _ ms _ _) => flat_map collect_panes ms
  end.

Fixpoint invert_pane_axies (m : Member) : Member :=
  match m with
  | MPane p => MPane p
  | MAxis (mkAxis ax ms fl bb) =>
      MAxis (mkAxis (axis_invert ax) (map invert_pane_axies ms) fl bb)
  end.

Fixpoint full_height_column_count (m : Member) : nat :=
  match m with
  | MPane _ => 1%nat
  | MAxis (mkAxis Horizontal ms _ _) =>
      Nat.max (fold_right Nat.add 0%nat (map full_height_column_count ms)) 1
  | MAxis (mkAxis Vertical ms _ _) =>
      match map full_height_column_count ms with
      | [] => 1%nat
      | c :: cs => fold_right Nat.max c cs
      end
  end.

Fixpoint mark_member (m : Member) (in_center_group : bool) (flags : gmap pane_id bool)
    : gmap pane_id bool :=
  match m with
  | MPane p => <[p := in_center_group]> flags
  | MAxis (mkAxis _ ms _ _) =>
      fold_left (fun fl m' => mark_member m' in_center_group fl) ms flags
  end.

(** ** Painting *)

(** [PaneAxisElement::prepaint]: the room along the axis is shared by flex and
    rounded to whole pixels, and the children's boxes replace the cached ones,
    one behind the other. *)
Definition child_size (ax : Axis) (bounds : Bounds) (space_per_flex child_flex : f32) : Size :=
  let along := fmul space_per_flex child_flex in
  match ax with
  | Horizontal => mkSize (fround along) (fround (height (size bounds)))
  | Vertical => mkSize (fround (width (size bounds))) (fround along)
  end.

Definition move_along (ax : Axis) (p : Point) (s : Size) : Point :=
  match ax with
  | Horizontal => mkPoint (fadd (x p) (width s)) (y p)
  | Vertical => mkPoint (x p) (fadd (y p) (height s))
  end.

Fixpoint paint_boxes (ax : Axis) (bounds : Bounds) (space_per_flex : f32) (flexes : list f32)
    (ix n : nat) (at_ : Point) : res (list (option Bounds)) :=
  match n with
  | O => Ret []
  | S n' =>
      match index flexes ix with
      | Panic => Panic
      | Ret child_flex =>
          let sz := child_size ax bounds space_per_flex child_flex in
          match paint_boxes ax bounds space_per_flex flexes (S ix) n' (move_along ax at_ sz) with
          | Ret boxes => Ret (Some (mkBounds at_ sz) :: boxes)
          | Panic => Panic
          end
      end
  end.

Definition axis_prepaint (ax : Axis) (bounds : Bounds) (flexes : list f32) (len : nat)
    : res (list (option Bounds)) :=
  let space_per_flex := fdiv (size_along (size bounds) ax) (of_nat len) in
  paint_boxes ax bounds space_per_flex flexes 0 len (origin bounds).

Definition paint_members (paint : list nat -> Member -> res Member) (path : list nat) :=
  fix go (ix : nat) (l : list Member) {struct l} : res (list Member) :=
    match l with
    | [] => Ret []
    | m :: l' =>
        match paint (path ++ [ix]) m, go (S ix) l' with
        | Ret m', Ret ms => Ret (m' :: ms)
        | _, _ => Panic
        end
    end.

(** Painting a tree: every axis is given its bounds by the layout engine,
    [place] of its path from the root. *)
Fixpoint paint_member (place : list nat -> Bounds) (path : list nat) (m : Member)
    {struct m} : res Member :=
  match m with
  | MPane _ => Ret m
  | MAxis (mkAxis ax ms fl _) =>
      match axis_prepaint ax (place path) fl (length ms) with
      | Panic => Panic
      | Ret boxes =>
          match paint_members (fun path m' => paint_member place path m') path 0 ms with
          | Ret ms' => Ret (MAxis (mkAxis ax ms' fl boxes))
          | Panic => Panic
          end
      end
  end.

(** ** [PaneGroup] *)

Record PaneGroup := mkGroup { root : Member; is_center : bool }.

Definition with_root (root : Member) : PaneGroup := mkGroup root false.
Definition group_new (pane : pane_id) : PaneGroup := mkGroup (MPane pane) false.

Definition panes (g : PaneGroup) : list pane_id := collect_panes (root g).

Definition mark_positions (g : PaneGroup) (flags : gmap pane_id bool) : gmap pane_id bool :=
  mark_member (root g) (is_center g) flags.

Definition set_root (g : PaneGroup) (m : Member) : PaneGroup := mkGroup m (is_center g).

(** The tree work of [PaneGroup::split], the fallback to the first pane
    included. *)
Definition split_root (m : Member) (old_pane new_pane : pane_id)
    (direction : SplitDirection) : res Member :=
  let attempt old : res (option Member) :=
    match m with
    | MPane pane =>
        Ret (if decide (pane = old) then Some (new_axis old new_pane direction) else None)
    | MAxis axis => option_map MAxis <$> axis_split axis old new_pane direction
    end in
  match attempt old_pane with
  | Panic => Panic
  | Ret (Some m') => Ret m'
  | Ret None =>
      match first_pane m with
      | Panic => Panic
      | Ret first =>
          match m with
          | MPane _ => Ret (new_axis first new_pane direction)
          | MAxis axis =>
              match axis_split axis first new_pane direction with
              | Ret (Some a) => Ret (MAxis a)
              | Ret None => Ret m
              | Panic => Panic
              end
          end
      end
  end.

Definition split (g : PaneGroup) (old_pane new_pane : pane_id)
    (direction : SplitDirection) (flags : gmap pane_id bool)
    : res (PaneGroup * gmap pane_id bool) :=
  match split_root (root g) old_pane new_pane direction with
  | Ret m => let g' := set_root g m in Ret (g', mark_positions g' flags)
  | Panic => Panic
  end.

(** [remove_internal]: the error "Pane not found" is [None]. *)
Definition remove_internal (g : PaneGroup) (pane : pane_id) : res (option (bool * PaneGroup)) :=
  match root g with
  | MPane _ => Ret (Some (false, g))
  | MAxis axis =>
      match axis_remove axis pane with
      | Panic => Panic
      | Ret None => Ret None
      | Ret (Some (Some last_pane, _)) => Ret (Some (true, set_root g last_pane))
      | Ret (Some (None, axis')) => Ret (Some (true, set_root g (MAxis axis')))
      end
  end.

Definition remove (g : PaneGroup) (pane : pane_id) (flags : gmap pane_id bool)
    : res (option bool * PaneGroup * gmap pane_id bool) :=
  match remove_internal g pane with
  | Panic => Panic
  | Ret None => Ret (None, g, flags)
  | Ret (Some (true, g')) => Ret (Some true, g', mark_positions g' flags)
  | Ret (Some (false, g')) => Ret (Some false, g', flags)
  end.

Definition find_pane_at_border (g : PaneGroup) (direction : SplitDirection) : option pane_id :=
  match root g with
  | MPane pane => Some pane
  | MAxis axis => axis_find_pane_at_border axis direction
  end.

Definition move_to_border (g : PaneGroup) (active_pane : pane_id)
    (direction : SplitDirection) (flags : gmap pane_id bool)
    : res (option bool * PaneGroup * gmap pane_id bool) :=
  if bool_decide (find_pane_at_border g direction = Some active_pane)
  then Ret (Some false, g, flags)
  else
    match remove_internal g active_pane with
    | Panic => Panic
    | Ret None => Ret (None, g, flags)
    | Ret (Some (false, g')) => Ret (Some false, g', flags)
    | Ret (Some (true, g')) =>
        let wrapped :=
          let members := if SplitDir.increasing direction
                         then [root g'; MPane active_pane]
                         else [MPane active_pane; root g'] in
          set_root g' (MAxis (axis_new (SplitDir.axis direction) members)) in
        match root g' with
        | MAxis axis =>
            if decide (SplitDir.axis direction = pa_axis axis) then
              let idx := if SplitDir.increasing direction
                         then length (pa_members axis) else 0%nat in
              match insert_pane axis idx active_pane with
              | Panic => Panic
              | Ret axis' =>
                  let g'' := set_root g' (MAxis axis') in
                  Ret (Some true, g'', mark_positions g'' flags)
              end
            else Ret (Some true, wrapped, mark_positions wrapped flags)
        | MPane _ => Ret (Some true, wrapped, mark_positions wrapped flags)
        end
    end.

Definition resize (g : PaneGroup) (pane : pane_id) (direction : Axis) (amount : f32)
    (bounds : Bounds) (flags : gmap pane_id bool)
    : res (PaneGroup * gmap pane_id bool) :=
  match root g with
  | MPane _ => Ret (g, mark_positions g flags)
  | MAxis axis =>
      match axis_resize axis pane direction amount bounds with
      | Panic => Panic
      | Ret (_, axis') =>
          let g' := set_root g (MAxis axis') in Ret (g', mark_positions g' flags)
      end
  end.

Definition reset_pane_sizes (g : PaneGroup) (flags : gmap pane_id bool)
    : PaneGroup * gmap pane_id bool :=
  let g' := match root g with
            | MPane _ => g
            | MAxis axis => set_root g (MAxis (axis_reset_pane_sizes axis))
            end in
  (g', mark_positions g' flags).

Definition swap (g : PaneGroup) (from to : pane_id) (flags : gmap pane_id bool)
    : PaneGroup * gmap pane_id bool :=
  let g' := match root g with
            | MPane _ => g
            | MAxis axis => set_root g (MAxis (axis_swap axis from to))
            end in
  (g', mark_positions g' flags).

Definition invert_axies (g : PaneGroup) (flags : gmap pane_id bool)
    : PaneGroup * gmap pane_id bool :=
  let g' := set_root g (invert_pane_axies (root g)) in
  (g', mark_positions g' flags).

Definition paint (g : PaneGroup) (place : list nat -> Bounds) : res PaneGroup :=
  match paint_member place [] (root g) with
  | Ret m => Ret (set_root g m)
  | Panic => Panic
  end.

Definition bounding_box_for_pane (g : PaneGroup) (pane : pane_id) : res (option Bounds) :=
  match root g with
  | MPane _ => Ret None
  | MAxis axis => axis_bounding_box_for_pane axis pane
  end.

Definition pane_at_pixel_position (g : PaneGroup) (coordinate : Point) : res (option pane_id) :=
  match root g with
  | MPane pane => Ret (Some pane)
  | MAxis axis => axis_pane_at_pixel_position axis coordinate
  end.

Definition HANDLE_HITBOX_SIZE : f32 := of_Z 4.

(** [find_pane_in_direction]: probes one handle width past the pane's edge, at
    the cursor if it lies inside the pane and at the centre otherwise. *)
Definition find_pane_in_direction (g : PaneGroup) (active_pane : pane_id)
    (cursor : option Point) (direction : SplitDirection) : res (option pane_id) :=
  match bounding_box_for_pane g active_pane with
  | Panic => Panic
  | Ret None => Ret None
  | Ret (Some bounding_box) =>
      let c := match cursor with
               | Some cursor => if contains bounding_box cursor then cursor
                                else center bounding_box
               | None => center bounding_box
               end in
      let target :=
        match direction with
        | Left => mkPoint (fsub (b_left bounding_box) HANDLE_HITBOX_SIZE) (y c)
        | Right => mkPoint (fadd (b_right bounding_box) HANDLE_HITBOX_SIZE) (y c)
        | Up => mkPoint (x c) (fsub (b_top bounding_box) HANDLE_HITBOX_SIZE)
        | Down => mkPoint (x c) (fadd (b_bottom bounding_box) HANDLE_HITBOX_SIZE)
        end in
      pane_at_pixel_position g target
  end.

(** ** Well-formedness *)

(** One flex and one box per member; [proper] trees also have at least two
    members on every axis, which is what the operations maintain. *)
Inductive proper : Member -> Prop :=
| proper_pane p : proper (MPane p)
| proper_axis ax ms fl bb :
    (2 <= length ms)%nat -> length fl = length ms -> length bb = length ms ->
    Forall proper ms -> proper (MAxis (mkAxis ax ms fl bb)).

Definition NoDupPanes (m : Member) : Prop := NoDup (collect_panes m).

Section member_ind.
Variable P : Member -> Prop.
Hypothesis HPane : forall p, P (MPane p).
Hypothesis HAxis : forall ax ms fl bb, Forall P ms -> P (MAxis (mkAxis ax ms fl bb)).

Fixpoint member_induction (m : Member) : P m :=
  match m with
  | MPane p => HPane p
  | MAxis (mkAxis ax ms fl bb) =>
      HAxis ax ms fl bb
        ((fix go (l : list Member) : Forall P l :=
            match l with
            | [] => Forall_nil_2 _
            | m' :: l' => Forall_cons_2 _ _ _ (member_induction m') (go l')
            end) ms)
  end.
End member_ind.

#[global] Arguments insert_pane : simpl never.
#[global] Arguments collapse : simpl never.
#[global] Arguments resize_at : simpl never.

(** ** Reading order of the panes *)

(** What a split does to the reading order: the new pane next to the first
    occurrence of the old one. *)
Fixpoint insert_beside (l : list pane_id) (old new : pane_id) (after : bool) : list pane_id :=
  match l with
  | [] => []
  | p :: l' =>
      if decide (p = old) then (if after then p :: new :: l' else new :: p :: l')
      else p :: insert_beside l' old new after
  end.

Fixpoint remove_first (p : pane_id) (l : list pane_id) : list pane_id :=
  match l with
  | [] => []
  | q :: l' => if decide (q = p) then l' else q :: remove_first p l'
  end.

Lemma insert_beside_app_r pre l old new after :
  old ∉ pre -> insert_beside (pre ++ l) old new after = pre ++ insert_beside l old new after.
Proof.
  induction pre as [|p pre IH]; intros Hn; [done|]. apply not_elem_of_cons in Hn as [? ?].
  simpl. rewrite decide_False by congruence. by rewrite IH.
Qed.

Lemma insert_beside_app_l l post old new after :
  old ∈ l -> insert_beside (l ++ post) old new after = insert_beside l old new after ++ post.
Proof.
  induction l as [|p l IH]; [by intros ?%elem_of_nil|]. simpl.
  intros [->|?]%elem_of_cons.
  - rewrite !decide_True by done. by destruct after.
  - case_decide; [by destruct after|]. by rewrite IH.
Qed.

Lemma insert_beside_perm l old new after :
  old ∈ l -> Permutation (insert_beside l old new after) (new :: l).
Proof.
  induction l as [|p l IH]; [by intros ?%elem_of_nil|]. simpl.
  intros [->|?]%elem_of_cons.
  - rewrite decide_True by done. destruct after; [apply Permutation_swap|done].
  - case_decide; [destruct after; [apply Permutation_swap|done]|].
    rewrite IH by done. apply Permutation_swap.
Qed.

Lemma remove_first_app_r pre l p :
  p ∉ pre -> remove_first p (pre ++ l) = pre ++ remove_first p l.
Proof.
  induction pre as [|q pre IH]; intros Hn; [done|]. apply not_elem_of_cons in Hn as [? ?].
  simpl. rewrite decide_False by congruence. by rewrite IH.
Qed.

Lemma remove_first_app_l l post p :
  p ∈ l -> remove_first p (l ++ post) = remove_first p l ++ post.
Proof.
  induction l as [|q l IH]; [by intros ?%elem_of_nil|]. simpl.
  intros [->|?]%elem_of_cons; [by rewrite !decide_True|].
  case_decide; [done|]. by rewrite IH.
Qed.

Lemma remove_first_perm l p : p ∈ l -> Permutation l (p :: remove_first p l).
Proof.
  induction l as [|q l IH]; [by intros ?%elem_of_nil|]. simpl.
  intros [->|?]%elem_of_cons; [by rewrite decide_True|].
  case_decide as E; [by rewrite E|]. rewrite Permutation_swap. by rewrite <- IH.
Qed.

(** ** Splitting *)

Lemma proper_members ax ms fl bb :
  proper (MAxis (mkAxis ax ms fl bb)) ->
  (2 <= length ms)%nat /\ length fl = length ms /\ length bb = length ms /\ Forall proper ms.
Proof. by inversion 1. Qed.

Lemma proper_new_axis old new d : proper (new_axis old new d).
Proof.
  destruct d; unfold new_axis, axis_new; simpl; constructor; simpl; try done;
    repeat constructor.
Qed.

Lemma collect_new_axis old new d :
  collect_panes (new_axis old new d) = insert_beside [old] old new (SplitDir.increasing d).
Proof. destruct d; simpl; by rewrite decide_True. Qed.

Lemma collect_axis ax ms fl bb :
  collect_panes (MAxis (mkAxis ax ms fl bb)) = flat_map collect_panes ms.
Proof. done. Qed.

Lemma insert_pane_ok ax ms fl bb i new :
  length bb = length ms -> (i <= length ms)%nat ->
  insert_pane (mkAxis ax ms fl bb) i new
  = Ret (mkAxis ax (take i ms ++ MPane new :: drop i ms) (ones (S (length ms)))
           (take i bb ++ None :: drop i bb)).
Proof.
  intros Hb Hi. unfold insert_pane. rewrite !vec_insert_Ret by lia.
  do 3 f_equal. rewrite length_app, length_take; simpl. rewrite length_drop. lia.
Qed.

Lemma proper_insert ax ms bb i new :
  (2 <= length ms)%nat -> length bb = length ms -> (i <= length ms)%nat ->
  Forall proper ms ->
  proper (MAxis (mkAxis ax (take i ms ++ MPane new :: drop i ms) (ones (S (length ms)))
                   (take i bb ++ None :: drop i bb))).
Proof.
  intros Hl Hb Hi Hf. constructor.
  - rewrite length_app, length_take; simpl. rewrite length_drop. lia.
  - unfold ones. rewrite length_replicate, length_app, length_take; simpl.
    rewrite length_drop. lia.
  - rewrite !length_app, !length_take; simpl. rewrite !length_drop. lia.
  - apply Forall_app. split; [by apply Forall_take|].
    constructor; [constructor|by apply Forall_drop].
Qed.

(** The specification of [PaneAxis::split] on a proper axis. *)
Definition axis_split_spec (old new : pane_id) (d : SplitDirection) (m : Member) : Prop :=
  match m with
  | MPane _ => True
  | MAxis a =>
      match axis_split a old new d with
      | Ret None => old ∉ collect_panes m
      | Ret (Some a') =>
          old ∈ collect_panes m /\ proper (MAxis a')
          /\ collect_panes (MAxis a')
             = insert_beside (collect_panes m) old new (SplitDir.increasing d)
      | Panic => False
      end
  end.

Lemma flat_map_replace (pre post : list Member) m m' :
  flat_map collect_panes (<[length pre := m']> (pre ++ m :: post))
  = flat_map collect_panes pre ++ collect_panes m' ++ flat_map collect_panes post.
Proof. by rewrite insert_middle, flat_map_app. Qed.

(** What the loop reports about the members it walked over. *)
Definition split_step_ok (ax : Axis) (old new : pane_id) (d : SplitDirection) (idx : nat)
    (l : list Member) (s : split_step) : Prop :=
  match s with
  | SplitNotFound => old ∉ flat_map collect_panes l
  | SplitReplace i m' => exists pre m0 post,
      l = pre ++ m0 :: post /\ i = (idx + length pre)%nat
      /\ old ∉ flat_map collect_panes pre /\ old ∈ collect_panes m0 /\ proper m'
      /\ collect_panes m' = insert_beside (collect_panes m0) old new (SplitDir.increasing d)
  | SplitInsert i => exists pre post,
      l = pre ++ MPane old :: post
      /\ i = (idx + (length pre + if SplitDir.increasing d then 1 else 0))%nat
      /\ old ∉ flat_map collect_panes pre
  end.

Lemma split_step_skip ax old new d idx l m s :
  old ∉ collect_panes m -> split_step_ok ax old new d (S idx) l s ->
  split_step_ok ax old new d idx (m :: l) s.
Proof.
  intros Hm. destruct s as [|i m'|i]; simpl.
  - by rewrite not_elem_of_app.
  - intros (pre & m0 & post & -> & -> & Hpre & Hrest). exists (m :: pre), m0, post.
    simpl. rewrite not_elem_of_app. destruct Hrest as (?&?&?). split_and!; try done; lia.
  - intros (pre & post & -> & -> & Hpre). exists (m :: pre), post.
    simpl. rewrite not_elem_of_app. repeat split; try done; lia.
Qed.

Lemma split_scan_correct ax old new d l idx :
  Forall (fun m => proper m -> axis_split_spec old new d m) l -> Forall proper l ->
  match split_scan (fun a => axis_split a old new d) ax old new d idx l with
  | Panic => False
  | Ret s => split_step_ok ax old new d idx l s
  end.
Proof.
  revert idx; induction l as [|m l IHl]; intros idx HI Hp; [apply not_elem_of_nil|].
  apply Forall_cons in HI as [HIm HI]. apply Forall_cons in Hp as [Hpm Hp].
  specialize (IHl (S idx) HI Hp). specialize (HIm Hpm).
  assert (Hskip : old ∉ collect_panes m ->
    match split_scan (fun a => axis_split a old new d) ax old new d (S idx) l with
    | Panic => False
    | Ret s => split_step_ok ax old new d idx (m :: l) s
    end).
  { intros Hm. destruct (split_scan _ _ _ _ _ _ l); [|done]. by apply split_step_skip. }
  destruct m as [a|p]; simpl split_scan.
  - unfold axis_split_spec in HIm.
    destruct (axis_split a old new d) as [[a'|]|]; [|by apply Hskip|done].
    exists [], (MAxis a), l. destruct HIm as (?&?&?).
    split_and!; simpl; try done; try lia; apply not_elem_of_nil.
  - destruct (decide (p = old)) as [->|Hne].
    + destruct (decide (SplitDir.axis d = ax)).
      * exists [], l. split_and!; [done| |apply not_elem_of_nil].
        destruct (SplitDir.increasing d); simpl; lia.
      * exists [], (MPane old), l.
        split_and!; simpl; [done|lia|apply not_elem_of_nil|by left|..].
        -- apply proper_new_axis.
        -- apply collect_new_axis.
    + apply Hskip. simpl. rewrite list_elem_of_singleton. congruence.
Qed.

Lemma axis_split_correct old new d m : proper m -> axis_split_spec old new d m.
Proof.
  induction m as [p|ax ms fl bb IH] using member_induction; intros Hp; [done|].
  apply proper_members in Hp as (Hl & Hfl & Hbb & Hms).
  pose proof (split_scan_correct ax old new d ms 0 IH Hms) as Hs.
  unfold axis_split_spec. simpl axis_split.
  destruct (split_scan _ _ _ _ _ _ ms) as [[|i m'|i]|]; [done|..|done].
  - destruct Hs as (pre & m0 & post & -> & -> & Hpre & Hin & Hpm' & Hc).
    split; [rewrite collect_axis, flat_map_app; set_solver|]. split.
    + constructor; rewrite ?length_insert; [done..|by apply Forall_insert].
    + rewrite !collect_axis, Nat.add_0_l, flat_map_replace, Hc, flat_map_app.
      simpl. by rewrite insert_beside_app_r, insert_beside_app_l by done.
  - destruct Hs as (pre & post & -> & -> & Hpre). rewrite Nat.add_0_l.
    set (k := if SplitDir.increasing d then 1%nat else 0%nat).
    assert (Hk : (k <= 1)%nat) by (subst k; destruct (SplitDir.increasing d); lia).
    rewrite length_app in *; simpl in Hl, Hfl, Hbb.
    rewrite insert_pane_ok by (rewrite ?length_app; simpl; lia). simpl.
    split; [rewrite flat_map_app; set_solver|]. split.
    + apply proper_insert; rewrite ?length_app; simpl; try done; lia.
    + rewrite take_middle, drop_middle, !flat_map_app. simpl.
      rewrite insert_beside_app_r by done. simpl. rewrite decide_True by done.
      subst k. destruct (SplitDir.increasing d); simpl; by rewrite ?app_nil_r, <- ?app_assoc.
Qed.

(** ** Removal *)

Definition axis_remove_spec (p : pane_id) (m : Member) : Prop :=
  match m with
  | MPane _ => True
  | MAxis a =>
      match axis_remove a p with
      | Ret None => p ∉ collect_panes m
      | Ret (Some (o, a')) =>
          let m' := match o with Some last_pane => last_pane | None => MAxis a' end in
          p ∈ collect_panes m /\ proper m'
          /\ collect_panes m' = remove_first p (collect_panes m)
      | Panic => False
      end
  end.

Definition remove_step_ok (p : pane_id) (idx : nat) (l : list Member) (s : remove_step) : Prop :=
  match s with
  | RemoveNotFound => p ∉ flat_map collect_panes l
  | RemoveNested i m' => exists pre m0 post,
      l = pre ++ m0 :: post /\ i = (idx + length pre)%nat
      /\ p ∉ flat_map collect_panes pre /\ p ∈ collect_panes m0 /\ proper m'
      /\ collect_panes m' = remove_first p (collect_panes m0)
  | RemoveAt i => exists pre post,
      l = pre ++ MPane p :: post /\ i = (idx + length pre)%nat
      /\ p ∉ flat_map collect_panes pre
  end.

Lemma remove_step_skip p idx l m s :
  p ∉ collect_panes m -> remove_step_ok p (S idx) l s -> remove_step_ok p idx (m :: l) s.
Proof.
  intros Hm. destruct s as [|i m'|i]; simpl.
  - by rewrite not_elem_of_app.
  - intros (pre & m0 & post & -> & -> & Hpre & Hrest). exists (m :: pre), m0, post.
    simpl. rewrite not_elem_of_app. destruct Hrest as (?&?&?). split_and!; try done; lia.
  - intros (pre & post & -> & -> & Hpre). exists (m :: pre), post.
    simpl. rewrite not_elem_of_app. split_and!; try done; lia.
Qed.

Lemma remove_scan_correct p l idx :
  Forall (fun m => proper m -> axis_remove_spec p m) l -> Forall proper l ->
  match remove_scan (fun a => axis_remove a p) p idx l with
  | Panic => False
  | Ret s => remove_step_ok p idx l s
  end.
Proof.
  revert idx; induction l as [|m l IHl]; intros idx HI Hp; [apply not_elem_of_nil|].
  apply Forall_cons in HI as [HIm HI]. apply Forall_cons in Hp as [Hpm Hp].
  specialize (IHl (S idx) HI Hp). specialize (HIm Hpm).
  assert (Hskip : p ∉ collect_panes m ->
    match remove_scan (fun a => axis_remove a p) p (S idx) l with
    | Panic => False
    | Ret s => remove_step_ok p idx (m :: l) s
    end).
  { intros Hm. destruct (remove_scan _ _ _ l); [|done]. by apply remove_step_skip. }
  destruct m as [a|q]; simpl remove_scan.
  - unfold axis_remove_spec in HIm.
    destruct (axis_remove a p) as [[[[m'|] a']|]|]; [| |by apply Hskip|done];
      destruct HIm as (?&?&?); simpl; [exists [], (MAxis a), l|exists [], (MAxis a), l];
      split_and!; simpl; try done; try lia; apply not_elem_of_nil.
  - destruct (decide (q = p)) as [->|Hne].
    + exists [], l. split_and!; simpl; try done; try lia; apply not_elem_of_nil.
    + apply Hskip. simpl. rewrite list_elem_of_singleton. congruence.
Qed.

(** Collapsing a one-member axis keeps the panes and properness. *)
Lemma collapse_spec ax ms fl bb :
  (1 <= length ms)%nat -> length fl = length ms -> length bb = length ms ->
  Forall proper ms ->
  let '(o, a) := collapse ax ms fl bb in
  let m' := match o with Some last_pane => last_pane | None => MAxis a end in
  proper m' /\ collect_panes m' = flat_map collect_panes ms.
Proof.
  intros Hl Hfl Hbb Hms. unfold collapse.
  destruct (Nat.eqb_spec (length ms) 1) as [E|E].
  - destruct ms as [|m [|]]; try done. simpl. apply Forall_cons in Hms as [Hm _].
    by rewrite app_nil_r.
  - split; [constructor; [lia|done..]|done].
Qed.

Lemma axis_remove_correct p m : proper m -> axis_remove_spec p m.
Proof.
  induction m as [q|ax ms fl bb IH] using member_induction; intros Hp; [done|].
  apply proper_members in Hp as (Hl & Hfl & Hbb & Hms).
  pose proof (remove_scan_correct p ms 0 IH Hms) as Hs.
  unfold axis_remove_spec. simpl axis_remove.
  destruct (remove_scan _ _ _ ms) as [[|i m'|i]|]; [done|..|done].
  - destruct Hs as (pre & m0 & post & -> & -> & Hpre & Hin & Hpm' & Hc).
    rewrite Nat.add_0_l. pose proof (collapse_spec ax (<[length pre:=m']> (pre ++ m0 :: post))
      fl bb) as Hco.
    rewrite length_insert in Hco. specialize (Hco ltac:(lia) Hfl Hbb
      ltac:(by apply Forall_insert)).
    destruct (collapse _ _ _ _) as [o a]. destruct Hco as [Hpr Hcol].
    split; [rewrite collect_axis, flat_map_app; set_solver|]. split; [done|].
    rewrite Hcol, flat_map_replace, Hc, collect_axis, flat_map_app. simpl.
    by rewrite remove_first_app_r, remove_first_app_l by done.
  - destruct Hs as (pre & post & -> & -> & Hpre). rewrite Nat.add_0_l.
    rewrite length_app in *; simpl in Hl, Hfl, Hbb.
    rewrite vec_remove_Ret by (rewrite length_app; simpl; lia).
    rewrite (proj2 (Nat.ltb_lt _ _)) by lia.
    rewrite take_app_length, <- (Nat.add_1_r (length pre)), drop_middle. simpl drop.
    pose proof (collapse_spec ax (pre ++ post) (ones (length (pre ++ post)))
      (take (length pre) bb ++ drop (length pre + 1) bb)) as Hco.
    unfold ones in *. rewrite length_replicate, !length_app, length_take, length_drop in Hco.
    specialize (Hco ltac:(lia) ltac:(lia) ltac:(lia)).
    rewrite Forall_app, Forall_cons in Hms.
    specialize (Hco ltac:(rewrite Forall_app; tauto)).
    rewrite length_app. destruct (collapse _ _ _ _) as [o a]. destruct Hco as [Hpr Hcol].
    split; [rewrite collect_axis, flat_map_app; set_solver|]. split; [done|].
    rewrite Hcol, collect_axis, !flat_map_app. simpl.
    rewrite remove_first_app_r by done. simpl. by rewrite decide_True.
Qed.

(** ** Other traversals *)

Lemma contains_pane_spec m p : contains_pane m p = true <-> p ∈ collect_panes m.
Proof.
  induction m as [q|ax ms fl bb IH] using member_induction; simpl.
  - rewrite bool_decide_eq_true, list_elem_of_singleton. naive_solver.
  - induction IH as [|m ms Hm IH IHms]; simpl; [by split; [|intros ?%elem_of_nil]|].
    by rewrite orb_true_iff, elem_of_app, Hm, IHms.
Qed.

(** A proper tree has panes, and its first one is the first in reading order. *)
Lemma first_pane_head m : proper m -> exists p, first_pane m = Ret p /\ head (collect_panes m) = Some p.
Proof.
  induction m as [q|ax ms fl bb IH] using member_induction; intros Hp; simpl; [eauto|].
  apply proper_members in Hp as (Hl & _ & _ & Hms).
  destruct ms as [|m ms]; simpl in *; [lia|].
  apply Forall_cons in IH as [IH _]. apply Forall_cons in Hms as [Hm _].
  destruct (IH Hm) as (p & -> & Hh). exists p. split; [done|].
  by destruct (collect_panes m).
Qed.

Lemma first_pane_elem m p : proper m -> first_pane m = Ret p -> p ∈ collect_panes m.
Proof.
  intros Hp Hf. destruct (first_pane_head m Hp) as (q & Hq & Hh).
  rewrite Hf in Hq. injection Hq as ->.
  destruct (collect_panes m); simplify_eq/=. by left.
Qed.

Lemma last_pane_last m : proper m -> exists p, last_pane m = Ret p /\ last (collect_panes m) = Some p.
Proof.
  induction m as [q|ax ms fl bb IH] using member_induction; intros Hp; [by exists q|].
  apply proper_members in Hp as (Hl & _ & _ & Hms). simpl.
  assert (Hne : ms <> []) by (intros ->; simpl in Hl; lia). clear Hl.
  induction ms as [|m ms IHms]; [done|].
  apply Forall_cons in IH as [IHm IH]. apply Forall_cons in Hms as [Hm Hms].
  destruct ms as [|m' ms].
  - destruct (IHm Hm) as (p & E & ?). exists p. simpl. by rewrite app_nil_r.
  - destruct IHms as (p & E & Hlast); [done..|]. exists p. split; [exact E|].
    change (flat_map collect_panes (m :: m' :: ms))
      with (collect_panes m ++ flat_map collect_panes (m' :: ms)).
    rewrite last_app, Hlast. done.
Qed.

Definition transpose (a b p : pane_id) : pane_id :=
  if decide (p = a) then b else if decide (p = b) then a else p.

Lemma axis_swap_correct a b m :
  match m with
  | MPane _ => True
  | MAxis ax => collect_panes (MAxis (axis_swap ax a b)) = map (transpose a b) (collect_panes m)
                /\ (proper m -> proper (MAxis (axis_swap ax a b)))
                /\ pa_flexes (axis_swap ax a b) = pa_flexes ax
  end.
Proof.
  induction m as [q|ax ms fl bb IH] using member_induction; [done|].
  split_and!; [| |done].
  - simpl. rewrite flat_map_concat_map, map_map, <- flat_map_concat_map.
    induction IH as [|m ms Hm IH IHms]; [done|]. simpl. rewrite map_app, <- IHms. f_equal.
    destruct m as [a'|p]; [apply Hm|]. unfold transpose. simpl.
    by repeat case_decide.
  - intros (Hl & Hfl & Hbb & Hms)%proper_members. simpl. constructor;
      rewrite ?length_map; [done..|].
    clear Hl Hfl Hbb. induction IH as [|m ms Hm IH IHms]; [constructor|].
    apply Forall_cons in Hms as [Hpm Hms]. simpl. constructor; [|by apply IHms].
    destruct m as [a'|p]; [by apply Hm|]. repeat case_decide; constructor.
Qed.

Lemma reset_correct m :
  match m with
  | MPane _ => True
  | MAxis ax => collect_panes (MAxis (axis_reset_pane_sizes ax)) = collect_panes m
                /\ (proper m -> proper (MAxis (axis_reset_pane_sizes ax)))
                /\ Forall (eq f_1) (pa_flexes (axis_reset_pane_sizes ax))
  end.
Proof.
  induction m as [q|ax ms fl bb IH] using member_induction; [done|].
  split_and!.
  - simpl. rewrite flat_map_concat_map, map_map, <- flat_map_concat_map.
    induction IH as [|m ms Hm IH IHms]; [done|]. simpl. rewrite <- IHms. f_equal.
    destruct m as [a'|p]; [apply Hm|done].
  - intros (Hl & Hfl & Hbb & Hms)%proper_members. simpl. constructor;
      unfold ones; rewrite ?length_map, ?length_replicate; [done..|].
    clear Hl Hfl Hbb. induction IH as [|m ms Hm IH IHms]; [constructor|].
    apply Forall_cons in Hms as [Hpm Hms]. simpl. constructor; [|by apply IHms].
    destruct m as [a'|p]; [by apply Hm|constructor].
  - simpl. unfold ones. by apply Forall_replicate.
Qed.

(** ** Hit testing *)

Lemma not_elem_of_members p m ms :
  p ∉ flat_map collect_panes (m :: ms) ->
  p ∉ collect_panes m /\ p ∉ flat_map collect_panes ms.
Proof. simpl. by rewrite not_elem_of_app. Qed.

Lemma box_total p m :
  match m with
  | MPane _ => True
  | MAxis a =>
      proper m ->
      exists o, axis_bounding_box_for_pane a p = Ret o
                /\ (p ∉ collect_panes m -> o = None)
  end.
Proof.
  induction m as [q|ax ms fl bb IH] using member_induction; [done|].
  intros (Hl & _ & Hbb & Hms)%proper_members. simpl.
  assert (Hidx : (0 + length ms <= length bb)%nat) by lia. clear Hl Hbb.
  revert Hidx. generalize 0%nat as idx.
  induction ms as [|m ms IHms]; intros idx Hidx; [by exists None|].
  apply Forall_cons in IH as [IHm IH]. apply Forall_cons in Hms as [Hm Hms].
  destruct (IHms IH Hms (S idx) ltac:(simpl in *; lia)) as (o & Ho & Hn).
  destruct m as [a|q]; simpl box_scan.
  - destruct (IHm Hm) as ([rect|] & -> & Hn').
    + exists (Some rect). split; [done|]. intros [? ?]%not_elem_of_members. by apply Hn'.
    + exists o. split; [done|]. intros [? ?]%not_elem_of_members. by apply Hn.
  - case_decide as E.
    + destruct (lookup_lt_is_Some_2 bb idx) as [o' Ho']; [simpl in *; lia|].
      exists o'. split; [by apply index_Ret|]. intros [Hq ?]%not_elem_of_members.
      simpl in Hq. rewrite list_elem_of_singleton in Hq. congruence.
    + exists o. split; [done|]. intros [? ?]%not_elem_of_members. by apply Hn.
Qed.

Lemma box_scan_skip bb p pre l idx :
  Forall proper pre -> p ∉ flat_map collect_panes pre ->
  box_scan (fun a => axis_bounding_box_for_pane a p) bb p idx (pre ++ l)
  = box_scan (fun a => axis_bounding_box_for_pane a p) bb p (idx + length pre) l.
Proof.
  revert idx; induction pre as [|m pre IH]; intros idx Hf Hn; simpl app.
  - by rewrite Nat.add_0_r.
  - apply Forall_cons in Hf as [Hm Hf]. apply not_elem_of_members in Hn as [Hnm Hn].
    specialize (IH (S idx) Hf Hn). simpl length. rewrite Nat.add_succ_r.
    destruct m as [a|q]; simpl box_scan.
    + destruct (box_total p (MAxis a) Hm) as (o & -> & Hno). rewrite Hno by done. exact IH.
    + simpl in Hnm. rewrite list_elem_of_singleton in Hnm.
      rewrite decide_False by congruence. exact IH.
Qed.

Lemma hit_scan_spec hit bb c idx l :
  (forall a, MAxis a ∈ l -> hit a <> Panic) -> (idx + length l <= length bb)%nat ->
  match hit_scan hit bb c idx l with
  | Panic => False
  | Ret None => True
  | Ret (Some p) => exists pre m post b,
      l = pre ++ m :: post /\ bb !! (idx + length pre)%nat = Some (Some b)
      /\ contains b c = true
      /\ match m with MPane q => q = p | MAxis a => hit a = Ret (Some p) end
  end.
Proof.
  revert idx; induction l as [|m l IH]; intros idx Hh Hidx; [done|]; simpl in *.
  destruct (lookup_lt_is_Some_2 bb idx) as [o Ho]; [lia|].
  rewrite (proj2 (index_Ret _ _ _) Ho).
  assert (Hrec : match hit_scan hit bb c (S idx) l with
    | Panic => False
    | Ret None => True
    | Ret (Some p) => exists pre m0 post b,
        m :: l = pre ++ m0 :: post /\ bb !! (idx + length pre)%nat = Some (Some b)
        /\ contains b c = true
        /\ match m0 with MPane q => q = p | MAxis a => hit a = Ret (Some p) end
    end).
  { specialize (IH (S idx) ltac:(intros; apply Hh; by right) ltac:(lia)).
    destruct (hit_scan _ _ _ _ _) as [[p|]|]; try done.
    destruct IH as (pre & m0 & post & b & -> & Hb & ? & ?).
    exists (m :: pre), m0, post, b. split_and!; try done.
    simpl. by rewrite Nat.add_succ_r. }
  destruct o as [b|]; [|done]. destruct (contains b c) eqn:Hc; [|done].
  destruct m as [a|p].
  - specialize (Hh a ltac:(left)). destruct (hit a) as [[p|]|] eqn:E; [|done..].
    exists [], (MAxis a), l, b. rewrite Nat.add_0_r. by split_and!.
  - exists [], (MPane p), l, b. rewrite Nat.add_0_r. by split_and!.
Qed.

Lemma hit_correct c m :
  match m with
  | MPane _ => True
  | MAxis a =>
      proper m ->
      match axis_pane_at_pixel_position a c with
      | Panic => False
      | Ret None => True
      | Ret (Some p) =>
          p ∈ collect_panes m
          /\ (NoDup (collect_panes m) ->
              exists b, axis_bounding_box_for_pane a p = Ret (Some b) /\ contains b c = true)
      end
  end.
Proof.
  induction m as [q|ax ms fl bb IH] using member_induction; [done|].
  intros (Hl & _ & Hbb & Hms)%proper_members. simpl axis_pane_at_pixel_position.
  pose proof (hit_scan_spec (fun a => axis_pane_at_pixel_position a c) bb c 0 ms) as Hs.
  ospecialize (Hs _ _); [|simpl; lia|].
  { intros a Ha E. rewrite Forall_forall in IH. specialize (IH _ Ha). simpl in IH.
    rewrite Forall_forall in Hms. rewrite E in IH. by apply IH, Hms. }
  destruct (hit_scan _ _ _ _ _) as [[p|]|]; [|done..].
  destruct Hs as (pre & m & post & b & -> & Hb & Hc & Hm).
  rewrite Forall_app, Forall_cons in Hms. destruct Hms as (Hpre & Hpm & _).
  rewrite Forall_app, Forall_cons in IH. destruct IH as (_ & IHm & _).
  assert (Hin : p ∈ collect_panes m).
  { destruct m as [a|q]; [|subst q; by left].
    specialize (IHm Hpm). rewrite Hm in IHm. apply IHm. }
  split; [rewrite collect_axis, flat_map_app; set_solver|].
  rewrite collect_axis, flat_map_app. simpl. intros Hnd. simpl axis_bounding_box_for_pane.
  apply NoDup_app in Hnd as (_ & Hdisj & [Hndm _]%NoDup_app).
  rewrite box_scan_skip; [|done|intros Hp; apply (Hdisj p Hp); set_solver].
  destruct m as [a|q]; simpl box_scan.
  - specialize (IHm Hpm). rewrite Hm in IHm. destruct IHm as [_ IHm].
    destruct (IHm Hndm) as (b' & -> & ?). by exists b'.
  - rewrite decide_True by done. exists b. split; [by apply index_Ret|done].
Qed.

(** ** Resizing *)

Lemma apply_changes_ok container axis min_size i change fl :
  (S i < length fl)%nat ->
  exists fl', apply_changes container axis min_size i change fl = Ret fl'
              /\ length fl' = length fl.
Proof.
  intros Hi. unfold apply_changes, flex_to_pixels, index.
  destruct (lookup_lt_is_Some_2 fl i) as [f1 ->]; [lia|].
  destruct (lookup_lt_is_Some_2 fl (S i)) as [f2 ->]; [lia|].
  eexists. split; [done|]. by rewrite !length_insert.
Qed.

Lemma resize_at_ok container axis ix amount fl :
  (2 <= length fl)%nat -> (ix < length fl)%nat ->
  exists fl', resize_at container axis ix amount fl = Ret fl' /\ length fl' = length fl.
Proof.
  intros H2 Hi. unfold resize_at, flex_to_pixels at 1, index.
  destruct (lookup_lt_is_Some_2 fl ix) as [f ->]; [lia|].
  destruct (Pixels.lt _ _); [eauto|].
  destruct (Nat.eqb_spec (ix + 1) (length fl)).
  - destruct ix as [|ix]; [lia|]. apply apply_changes_ok. lia.
  - apply apply_changes_ok. lia.
Qed.

Lemma position_is_pane p ms :
  existsb (is_pane p) ms = true ->
  exists i, position (is_pane p) ms = Some i /\ ms !! i = Some (MPane p).
Proof.
  induction ms as [|m ms IH]; [done|]. simpl. destruct (is_pane p m) eqn:E; simpl.
  - intros _. exists 0%nat. destruct m; [done|]. simpl in E.
    apply bool_decide_eq_true in E as ->. done.
  - intros (i & -> & ?)%IH. by exists (S i).
Qed.

(** A resize only touches flexes: shape, panes and boxes stay. *)
Definition same_panes (m m' : Member) : Prop :=
  collect_panes m' = collect_panes m /\ (proper m -> proper m').

Definition axis_resize_spec (p : pane_id) (axis : Axis) (amount : f32) (bounds : Bounds)
    (m : Member) : Prop :=
  match m with
  | MPane _ => True
  | MAxis a =>
      proper m -> exists o a', axis_resize a p axis amount bounds = Ret (o, a')
                               /\ same_panes m (MAxis a')
  end.

Lemma resize_members_ok rs same l i found :
  (forall a, MAxis a ∈ l -> exists o a', rs a = Ret (o, a') /\ same_panes (MAxis a) (MAxis a')) ->
  (forall k, found = Some k -> (k < i)%nat) ->
  exists l' r, resize_members rs same i l found = Ret (l', r)
    /\ Forall2 same_panes l l'
    /\ (forall k, r = ResizeContinue (Some k) -> (k < i + length l)%nat).
Proof.
  assert (Hrefl : forall l, Forall2 same_panes l l)
    by (intros l0; induction l0; constructor; by try split).
  revert i found; induction l as [|m l IH]; intros i found Hrs Hf; simpl.
  - eexists _, _. split_and!; [done|constructor|].
    intros k [= ->]. specialize (Hf k eq_refl). lia.
  - assert (Hrs' : forall a, MAxis a ∈ l -> exists o a', rs a = Ret (o, a')
        /\ same_panes (MAxis a) (MAxis a')) by (intros; apply Hrs; by right).
    assert (Hcont : forall m' found', same_panes m m' ->
      (forall k, found' = Some k -> (k < S i)%nat) ->
      exists l' r, match resize_members rs same (S i) l found' with
                   | Ret (rest, r) => Ret (m' :: rest, r)
                   | Panic => Panic
                   end = Ret (l', r)
        /\ Forall2 same_panes (m :: l) l'
        /\ (forall k, r = ResizeContinue (Some k) -> (k < i + S (length l))%nat)).
    { intros m' found' Hm' Hf'.
      destruct (IH (S i) found' Hrs' Hf') as (l' & r & -> & Hl' & Hk).
      eexists _, _. split_and!; [done|by constructor|]. intros k Hr.
      specialize (Hk k Hr). lia. }
    destruct m as [a|q].
    + destruct (Hrs a ltac:(left)) as ([[|]|] & a' & -> & Ha').
      * eexists _, _. split_and!; [done|by constructor|done].
      * destruct same.
        -- apply Hcont; [done|]. intros k [= ->]. lia.
        -- eexists _, _. split_and!; [done|by constructor|done].
      * apply Hcont; [done|]. intros k Hk. specialize (Hf k Hk). lia.
    + apply Hcont; [by split|]. intros k Hk. specialize (Hf k Hk). lia.
Qed.

Lemma same_panes_axis ax ms ms' fl fl' bb :
  Forall2 same_panes ms ms' -> length fl' = length fl ->
  same_panes (MAxis (mkAxis ax ms fl bb)) (MAxis (mkAxis ax ms' fl' bb)).
Proof.
  intros Hs Hfl'. pose proof (Forall2_length _ _ _ Hs) as Hlen. split.
  - rewrite !collect_axis. clear Hlen.
    induction Hs as [|m m' ms ms' [Hm _] _ IH]; simpl; [done|]. by rewrite Hm, IH.
  - intros (Hl & Hfl & Hbb & Hms)%proper_members.
    constructor; [lia..|]. clear Hl Hfl Hbb Hlen.
    induction Hs as [|m m' ms ms' [_ Hm] _ IH]; [constructor|].
    apply Forall_cons in Hms as [? ?]. constructor; auto.
Qed.

Lemma axis_resize_correct p axis amount bounds m : axis_resize_spec p axis amount bounds m.
Proof.
  induction m as [q|ax ms fl bb IH] using member_induction; [done|].
  intros (Hl & Hfl & Hbb & Hms)%proper_members. simpl axis_resize.
  set (same := bool_decide (ax = axis)).
  assert (Hrefl : same_panes (MAxis (mkAxis ax ms fl bb)) (MAxis (mkAxis ax ms fl bb)))
    by (by split).
  assert (Hfin : forall ms' ix, Forall2 same_panes ms ms' -> (ix < length ms)%nat ->
    exists o a', match resize_at (container_size bb bounds) axis ix amount fl with
                 | Ret fl' => Ret (Some true, mkAxis ax ms' fl' bb)
                 | Panic => Panic
                 end = Ret (o, a') /\ same_panes (MAxis (mkAxis ax ms fl bb)) (MAxis a')).
  { intros ms' ix Hs Hix.
    destruct (resize_at_ok (container_size bb bounds) axis ix amount fl)
      as (fl' & -> & Hfl'); [lia..|].
    eexists _, _. split; [done|]. by apply same_panes_axis. }
  destruct (existsb (is_pane p) ms) eqn:Hex.
  - destruct same; [|by eexists _, _].
    destruct (position_is_pane p ms Hex) as (ix & -> & Hix).
    apply Hfin; [|by eapply lookup_lt_Some].
    apply Forall_Forall2_diag, Forall_true. by split.
  - destruct (resize_members_ok (fun pa => axis_resize pa p axis amount bounds) same ms 0 None)
      as (ms' & r & -> & Hs & Hk); [|done|].
    { intros a Ha. rewrite Forall_forall in IH, Hms. by apply (IH _ Ha), Hms. }
    destruct r as [r|[k|]].
    + eexists _, _. split; [done|]. by apply same_panes_axis.
    + apply Hfin; [done|]. by apply Hk.
    + eexists _, _. split; [done|]. by apply same_panes_axis.
Qed.

(** ** The group's operations *)

Lemma mark_member_lookup m b flags p :
  mark_member m b flags !! p
  = if decide (p ∈ collect_panes m) then Some b else flags !! p.
Proof.
  revert flags. induction m as [q|ax ms fl bb IH] using member_induction; intros flags.
  - cbn [mark_member collect_panes]. rewrite lookup_insert.
    repeat case_decide; set_solver.
  - cbn [mark_member collect_panes]. revert flags.
    induction IH as [|m ms Hm IH IHms]; intros flags; cbn [fold_left flat_map].
    + case_decide; [set_solver|done].
    + rewrite IHms, Hm. repeat case_decide; set_solver.
Qed.

Lemma mark_positions_lookup g flags p :
  mark_positions g flags !! p
  = if decide (p ∈ panes g) then Some (is_center g) else flags !! p.
Proof. apply mark_member_lookup. Qed.

Lemma collect_nonempty m : proper m -> collect_panes m <> [].
Proof. intros Hp. destruct (first_pane_head m Hp) as (p & _ & Hh). by destruct (collect_panes m). Qed.

(** The pane a split happens at: the one asked for, or else the first. *)
Definition split_point (l : list pane_id) (old : pane_id) : pane_id :=
  if decide (old ∈ l) then old else default old (head l).

Lemma split_point_elem m old : proper m -> split_point (collect_panes m) old ∈ collect_panes m.
Proof.
  intros Hp. unfold split_point. case_decide; [done|].
  pose proof (collect_nonempty m Hp). destruct (collect_panes m); [done|]. by left.
Qed.

Lemma split_root_ok m old new d :
  proper m ->
  exists m', split_root m old new d = Ret m' /\ proper m'
    /\ collect_panes m'
       = insert_beside (collect_panes m) (split_point (collect_panes m) old) new
           (SplitDir.increasing d).
Proof.
  intros Hp. unfold split_root. destruct (first_pane_head m Hp) as (f & Hf & Hh).
  rewrite Hf. unfold split_point. destruct m as [a|q].
  - pose proof (axis_split_correct old new d _ Hp) as Hs. unfold axis_split_spec in Hs.
    destruct (axis_split a old new d) as [[a'|]|]; [..|done];
      cbn [fmap res_fmap option_map].
    + destruct Hs as (Hin & Hp' & Hc). exists (MAxis a'). by rewrite decide_True.
    + rewrite decide_False by done. rewrite Hh. cbn [default].
      pose proof (axis_split_correct f new d _ Hp) as Hs'. unfold axis_split_spec in Hs'.
      destruct (axis_split a f new d) as [[a'|]|]; [..|done].
      * destruct Hs' as (_ & Hp' & Hc). by exists (MAxis a').
      * exfalso. apply Hs'. by eapply first_pane_elem.
  - injection Hf as <-. cbn [collect_panes] in *.
    destruct (decide (q = old)) as [->|Hne].
    + exists (new_axis old new d). rewrite decide_True by set_solver.
      split_and!; [done|apply proper_new_axis|apply collect_new_axis].
    + exists (new_axis q new d). rewrite decide_False by set_solver.
      split_and!; [done|apply proper_new_axis|apply collect_new_axis].
Qed.

Lemma split_ok g old new d flags :
  proper (root g) ->
  exists g', split g old new d flags = Ret (g', mark_positions g' flags)
    /\ proper (root g') /\ is_center g' = is_center g
    /\ panes g' = insert_beside (panes g) (split_point (panes g) old) new
                    (SplitDir.increasing d).
Proof.
  intros Hp. unfold split. destruct (split_root_ok _ old new d Hp) as (m' & -> & Hp' & Hc).
  by exists (set_root g m').
Qed.

Lemma remove_internal_ok g p :
  proper (root g) ->
  match remove_internal g p with
  | Panic => False
  | Ret None => p ∉ panes g /\ exists a, root g = MAxis a
  | Ret (Some (false, g')) => g' = g /\ exists q, root g = MPane q
  | Ret (Some (true, g')) =>
      p ∈ panes g /\ proper (root g') /\ is_center g' = is_center g
      /\ panes g' = remove_first p (panes g)
  end.
Proof.
  intros Hp. unfold remove_internal, panes.
  destruct (root g) as [a|q] eqn:E; [|split; [done|by exists q]].
  pose proof (axis_remove_correct p _ Hp) as Hs. unfold axis_remove_spec in Hs.
  destruct (axis_remove a p) as [[[[m'|] a']|]|]; [..|done].
  - destruct Hs as (?&?&?). by split_and!.
  - destruct Hs as (?&?&?). by split_and!.
  - split; [done|by exists a].
Qed.

Lemma insert_last l new : forall l', l' = l ++ [new] -> last l' = Some (new : Member).
Proof. intros l' ->. by rewrite last_snoc. Qed.

Lemma insert_pane_border ax ms fl bb p d :
  proper (MAxis (mkAxis ax ms fl bb)) -> SplitDir.axis d = ax ->
  exists a', insert_pane (mkAxis ax ms fl bb)
               (if SplitDir.increasing d then length ms else 0%nat) p = Ret a'
    /\ proper (MAxis a')
    /\ collect_panes (MAxis a')
       = (if SplitDir.increasing d then flat_map collect_panes ms ++ [p]
          else p :: flat_map collect_panes ms)
    /\ axis_find_pane_at_border a' d = Some p.
Proof.
  intros (Hl & Hfl & Hbb & Hms)%proper_members Hax.
  set (i := if SplitDir.increasing d then length ms else 0%nat).
  assert (Hi : (i <= length ms)%nat) by (subst i; destruct (SplitDir.increasing d); lia).
  rewrite insert_pane_ok by done. eexists. split; [done|].
  split; [by apply proper_insert|]. subst i. unfold axis_find_pane_at_border. simpl.
  rewrite decide_True by done. destruct (SplitDir.increasing d).
  - rewrite firstn_all, skipn_all, flat_map_app, last_snoc. done.
  - by rewrite drop_0.
Qed.

Lemma wrapped_ok m p d :
  proper m ->
  let members := if SplitDir.increasing d then [m; MPane p] else [MPane p; m] in
  let a := axis_new (SplitDir.axis d) members in
  proper (MAxis a)
  /\ collect_panes (MAxis a)
     = (if SplitDir.increasing d then collect_panes m ++ [p] else p :: collect_panes m)
  /\ axis_find_pane_at_border a d = Some p.
Proof.
  intros Hm. unfold axis_new, axis_find_pane_at_border. simpl.
  rewrite decide_True by done.
  destruct (SplitDir.increasing d); simpl; (split; [|by rewrite ?app_nil_r]);
    constructor; simpl; try lia; repeat constructor; done.
Qed.

Lemma move_to_border_ok g p d flags :
  proper (root g) -> p ∈ panes g ->
  exists b g' flags', move_to_border g p d flags = Ret (Some b, g', flags')
    /\ proper (root g') /\ Permutation (panes g') (panes g)
    /\ is_center g' = is_center g
    /\ find_pane_at_border g' d = Some p
    /\ (b = false <-> find_pane_at_border g d = Some p)
    /\ (b = false -> g' = g /\ flags' = flags)
    /\ (b = true -> flags' = mark_positions g' flags).
Proof.
  intros Hp Hin. unfold move_to_border.
  destruct (decide (find_pane_at_border g d = Some p)) as [Hb|Hb].
  { rewrite bool_decide_true by done. exists false, g, flags. by split_and!. }
  rewrite bool_decide_false by done.
  pose proof (remove_internal_ok g p Hp) as Hr.
  destruct (remove_internal g p) as [[[[|] g1]|]|]; [..|done].
  - destruct Hr as (_ & Hp1 & Hc1 & Hpanes1).
    assert (Hperm : Permutation (panes g) (p :: panes g1))
      by (rewrite Hpanes1; by apply remove_first_perm).
    destruct (wrapped_ok (root g1) p d Hp1) as (Hwp & Hwc & Hwb).
    assert (Hside : forall l, (if SplitDir.increasing d then l ++ [p] else p :: l) ≡ₚ p :: l).
    { intros l. destruct (SplitDir.increasing d); [|done].
      by rewrite <- Permutation_cons_append. }
    destruct (root g1) as [a|q] eqn:E1.
    + destruct a as [ax ms fl bb]. simpl pa_axis. simpl pa_members.
      destruct (decide (SplitDir.axis d = ax)) as [Hax|Hax].
      * destruct (insert_pane_border _ ms fl bb p d Hp1 Hax) as (a' & -> & Hpa & Hca & Hba).
        eexists true, _, _. split_and!; try done.
        unfold panes at 1. cbn [root set_root]. rewrite Hca, Hside, Hperm.
        unfold panes. rewrite E1. done.
      * eexists true, _, _. split_and!; try done.
        unfold panes at 1. cbn [root set_root]. rewrite Hwc, Hside, Hperm.
        unfold panes. rewrite E1. done.
    + eexists true, _, _. split_and!; try done.
      unfold panes at 1. cbn [root set_root]. rewrite Hwc, Hside, Hperm.
      unfold panes. rewrite E1. done.
  - exfalso. destruct Hr as (-> & q & E). apply Hb. unfold find_pane_at_border, panes in *.
    rewrite E in *. simpl in Hin. apply list_elem_of_singleton in Hin as ->. done.
  - exfalso. by apply (proj1 Hr).
Qed.

Lemma swap_ok g a b flags :
  proper (root g) ->
  let g' := (swap g a b flags).1 in
  proper (root g') /\ is_center g' = is_center g
  /\ panes g' = match root g with MPane _ => panes g | MAxis _ => map (transpose a b) (panes g) end.
Proof.
  intros Hp. unfold swap, panes. simpl. destruct (root g) as [ax|q] eqn:E.
  - pose proof (axis_swap_correct a b (MAxis ax)) as (Hc & Hpp & _). simpl.
    split_and!; try done. by apply Hpp.
  - rewrite E. by split_and!.
Qed.

Lemma reset_ok g flags :
  proper (root g) ->
  let g' := (reset_pane_sizes g flags).1 in
  proper (root g') /\ is_center g' = is_center g /\ panes g' = panes g.
Proof.
  intros Hp. unfold reset_pane_sizes, panes. simpl. destruct (root g) as [ax|q] eqn:E.
  - pose proof (reset_correct (MAxis ax)) as (Hc & Hpp & _). simpl.
    split_and!; try done. by apply Hpp.
  - rewrite E. by split_and!.
Qed.

Lemma resize_ok g p axis amount bounds flags :
  proper (root g) ->
  exists g', resize g p axis amount bounds flags = Ret (g', mark_positions g' flags)
    /\ proper (root g') /\ is_center g' = is_center g /\ panes g' = panes g.
Proof.
  intros Hp. unfold resize, panes. destruct (root g) as [ax|q] eqn:E.
  - destruct (axis_resize_correct p axis amount bounds (MAxis ax) Hp)
      as (o & a' & -> & Hc & Hpp).
    exists (set_root g (MAxis a')). split_and!; try done. by apply Hpp.
  - exists g. rewrite E. by split_and!.
Qed.

Lemma invert_pane_axies_ok m :
  (proper m -> proper (invert_pane_axies m))
  /\ collect_panes (invert_pane_axies m) = collect_panes m
  /\ invert_pane_axies (invert_pane_axies m) = m.
Proof.
  induction m as [q|ax ms fl bb IH] using member_induction; [done|]. split_and!.
  - intros (Hl & Hfl & Hbb & Hms)%proper_members. simpl.
    constructor; rewrite ?length_map; [done..|]. clear Hl Hfl Hbb.
    induction IH as [|m ms (Hm & _) IH IHms]; [constructor|].
    apply Forall_cons in Hms as [? ?]. simpl. constructor; auto.
  - simpl. induction IH as [|m ms (_ & Hm & _) IH IHms]; [done|]. simpl. by rewrite Hm, IHms.
  - simpl. do 2 f_equal; [by destruct ax|].
    induction IH as [|m ms (_ & _ & Hm) IH IHms]; [done|]. simpl. by rewrite Hm, IHms.
Qed.

Lemma paint_boxes_ok ax bounds space fl ix n at_ :
  (ix + n <= length fl)%nat ->
  exists boxes, paint_boxes ax bounds space fl ix n at_ = Ret boxes /\ length boxes = n
    /\ Forall is_Some boxes.
Proof.
  revert ix at_. induction n as [|n IH]; intros ix at_ Hn; cbn [paint_boxes]; [by exists []|].
  destruct (lookup_lt_is_Some_2 fl ix) as [f Hf]; [lia|].
  rewrite (proj2 (index_Ret _ _ _) Hf).
  edestruct (IH (S ix)) as (boxes & -> & <- & Hall); [lia|].
  eexists. split_and!; [done..|]. constructor; eauto.
Qed.

(** A painted tree has the same axes, flexes and panes, and a box for every
    member. *)
Fixpoint painted (m : Member) : bool :=
  match m with
  | MPane _ => true
  | MAxis (mkAxis _ ms _ bb) => forallb (fun o => bool_decide (is_Some o)) bb && forallb painted ms
  end.

Definition painted_from (m m' : Member) : Prop :=
  proper m' /\ collect_panes m' = collect_panes m /\ painted m' = true.

Lemma paint_members_ok paint path ms ix :
  Forall (fun m => forall path, exists m', paint path m = Ret m' /\ painted_from m m') ms ->
  exists ms', paint_members paint path ix ms = Ret ms' /\ Forall2 painted_from ms ms'.
Proof.
  intros H. revert ix. induction H as [|m ms Hm _ IH]; intros ix; simpl; [by exists []|].
  destruct (Hm (path ++ [ix])) as (m' & -> & Hm'). destruct (IH (S ix)) as (ms' & -> & Hms').
  eexists. split; [done|]. by constructor.
Qed.

Lemma painted_members ms ms' :
  Forall2 painted_from ms ms' ->
  length ms' = length ms /\ Forall proper ms'
  /\ flat_map collect_panes ms' = flat_map collect_panes ms /\ forallb painted ms' = true.
Proof.
  induction 1 as [|m m' ms ms' (Hp & Hc & Hb) _ (Hl & Hps & Hcs & Hbs)]; [done|].
  simpl. rewrite Hl, Hcs, Hc, Hb. auto.
Qed.

Lemma paint_member_ok place m path :
  proper m -> exists m', paint_member place path m = Ret m' /\ painted_from m m'.
Proof.
  revert path. induction m as [q|ax ms fl bb IH] using member_induction; intros path Hp;
    cbn [paint_member]; [by exists (MPane q)|].
  apply proper_members in Hp as (Hl & Hfl & _ & Hms). unfold axis_prepaint.
  edestruct (paint_boxes_ok ax (place path)) as (boxes & -> & Hlb & Hsome);
    [by rewrite Nat.add_0_l, Hfl|].
  edestruct (paint_members_ok (fun path m' => paint_member place path m') path ms 0)
    as (ms' & -> & (Hl' & Hps & Hcs & Hbs)%painted_members).
  { apply Forall_forall. rewrite Forall_forall in IH, Hms. auto. }
  eexists. split; [done|].
  split; [constructor; rewrite ?Hl'; done|split; [by rewrite !collect_axis|]].
  cbn [painted]. rewrite Hbs, andb_true_r. apply forallb_forall. intros o Ho.
  apply bool_decide_eq_true. rewrite Forall_forall in Hsome. by apply Hsome, list_elem_of_In.
Qed.

Lemma paint_ok g place :
  proper (root g) ->
  exists g', paint g place = Ret g' /\ proper (root g') /\ is_center g' = is_center g
    /\ panes g' = panes g /\ painted (root g') = true.
Proof.
  intros Hp. unfold paint. destruct (paint_member_ok place (root g) [] Hp) as (m & -> & ? & ? & ?).
  by exists (set_root g m).
Qed.

(** ** Reachable groups *)

(** One call of a public operation on a group, or one painting of it.  A split
    is always given a pane the tree does not hold yet, and a swap two panes it
    holds. *)
Inductive step : PaneGroup -> PaneGroup -> Prop :=
| step_split g g' old new d flags flags' :
    new ∉ panes g -> split g old new d flags = Ret (g', flags') -> step g g'
| step_remove g g' p flags flags' r :
    remove g p flags = Ret (r, g', flags') -> step g g'
| step_move g g' p d flags flags' r :
    move_to_border g p d flags = Ret (r, g', flags') -> step g g'
| step_resize g g' p axis amount bounds flags flags' :
    resize g p axis amount bounds flags = Ret (g', flags') -> step g g'
| step_reset g flags : step g (reset_pane_sizes g flags).1
| step_swap g a b flags :
    a ∈ panes g -> b ∈ panes g -> step g (swap g a b flags).1
| step_invert g flags : step g (invert_axies g flags).1
| step_paint g g' place : paint g place = Ret g' -> step g g'.

Inductive reachable : PaneGroup -> Prop :=
| reachable_new p : reachable (group_new p)
| reachable_step g g' : reachable g -> step g g' -> reachable g'.

Definition group_ok (g : PaneGroup) : Prop := proper (root g) /\ NoDup (panes g).

Lemma transpose_inj a b : Inj (=) (=) (transpose a b).
Proof. intros p q. unfold transpose. repeat case_decide; congruence. Qed.

Lemma move_to_border_absent g p d flags r g' flags' :
  proper (root g) -> p ∉ panes g -> move_to_border g p d flags = Ret (r, g', flags') ->
  g' = g.
Proof.
  intros Hp Hn. unfold move_to_border. destruct (bool_decide _); [naive_solver|].
  pose proof (remove_internal_ok g p Hp) as Hr.
  destruct (remove_internal g p) as [[[[|] g1]|]|]; try done; naive_solver.
Qed.

Lemma step_ok g g' : group_ok g -> step g g' -> group_ok g'.
Proof.
  intros [Hp Hnd] Hstep. destruct Hstep as
    [g g' old new d flags flags' Hnew Hs|g g' p flags flags' r Hs|g g' p d flags flags' r Hs
    |g g' p axis amount bounds flags flags' Hs|g flags|g a b flags Ha Hb|g flags|g g' place Hs].
  - destruct (split_ok g old new d flags Hp) as (g1 & E & Hp1 & _ & Hc).
    rewrite E in Hs. injection Hs as <- _. split; [done|].
    rewrite Hc, insert_beside_perm by (by apply split_point_elem). by constructor.
  - unfold remove in Hs. pose proof (remove_internal_ok g p Hp) as Hr.
    destruct (remove_internal g p) as [[[[|] g1]|]|]; simplify_eq; try done.
    + destruct Hr as (Hin & Hp1 & _ & Hc). split; [done|].
      rewrite Hc. rewrite (remove_first_perm _ _ Hin) in Hnd.
      by apply NoDup_cons in Hnd as [_ ?].
    + destruct Hr as [-> _]. done.
  - destruct (decide (p ∈ panes g)) as [Hin|Hn].
    + destruct (move_to_border_ok g p d flags Hp Hin)
        as (b & g1 & f1 & E & Hp1 & Hperm & _).
      rewrite E in Hs. simplify_eq. split; [done|]. by rewrite Hperm.
    + by rewrite (move_to_border_absent _ _ _ _ _ _ _ Hp Hn Hs).
  - destruct (resize_ok g p axis amount bounds flags Hp) as (g1 & E & Hp1 & _ & Hc).
    rewrite E in Hs. simplify_eq. split; [done|]. by rewrite Hc.
  - destruct (reset_ok g flags Hp) as (Hp1 & _ & Hc). split; [done|]. by rewrite Hc.
  - destruct (swap_ok g a b flags Hp) as (Hp1 & _ & Hc). split; [done|]. rewrite Hc.
    destruct (root g); [|done]. apply NoDup_ListNoDup. apply NoDup_ListNoDup in Hnd.
    apply Finite.Injective_map_NoDup; [|done]. intros ?? ?. by eapply transpose_inj.
  - destruct (invert_pane_axies_ok (root g)) as (Hpp & Hc & _).
    split; [by apply Hpp|]. unfold panes. simpl. by rewrite Hc.
  - destruct (paint_ok g place Hp) as (g1 & E & Hp1 & _ & Hc & _). rewrite E in Hs.
    simplify_eq. split; [done|]. by rewrite Hc.
Qed.

Lemma reachable_ok g : reachable g -> group_ok g.
Proof.
  induction 1 as [p|g g' _ IH Hs]; [|by eapply step_ok].
  split; [constructor|apply NoDup_singleton].
Qed.

#[export] Hint Resolve reachable_ok proper_new_axis collect_nonempty : rdg.

(** ** Properties *)

Lemma hit_total g c : proper (root g) -> pane_at_pixel_position g c <> Panic.
Proof.
  intros Hp. unfold pane_at_pixel_position. destruct (root g) as [a|q] eqn:E; [|done].
  pose proof (hit_correct c (MAxis a) Hp). by destruct (axis_pane_at_pixel_position a c).
Qed.

Lemma hit_elem g c p :
  proper (root g) -> pane_at_pixel_position g c = Ret (Some p) -> p ∈ panes g.
Proof.
  intros Hp. unfold pane_at_pixel_position, panes. destruct (root g) as [a|q] eqn:E.
  - pose proof (hit_correct c (MAxis a) Hp) as H. intros E'. rewrite E' in H. apply H.
  - intros [= ->]. by left.
Qed.

Lemma bounding_box_total g p : proper (root g) -> exists o, bounding_box_for_pane g p = Ret o.
Proof.
  intros Hp. unfold bounding_box_for_pane. destruct (root g) as [a|q] eqn:E; [|eauto].
  destruct (box_total p (MAxis a) Hp) as (o & Ho & _). eauto.
Qed.

Lemma remove_total g p flags : proper (root g) -> remove g p flags <> Panic.
Proof.
  intros Hp. unfold remove. pose proof (remove_internal_ok g p Hp).
  by destruct (remove_internal g p) as [[[[] ?]|]|].
Qed.

Lemma move_total g p d flags : proper (root g) -> move_to_border g p d flags <> Panic.
Proof.
  intros Hp. destruct (decide (p ∈ panes g)) as [Hin|Hn].
  - destruct (move_to_border_ok g p d flags Hp Hin) as (b & g' & f' & -> & _). done.
  - unfold move_to_border. case_bool_decide; [done|].
    pose proof (remove_internal_ok g p Hp) as Hr.
    destruct (remove_internal g p) as [[[[] ?]|]|]; naive_solver.
Qed.

(** A small tree: pane 1 beside a column of panes 2 and 3. *)
Definition sample_box (l t w h : Z) : option Bounds :=
  Some (mkBounds (mkPoint (of_Z l) (of_Z t)) (mkSize (of_Z w) (of_Z h))).

Definition sample_tree : Member :=
  MAxis (mkAxis Horizontal
    [MPane 1; MAxis (mkAxis Vertical [MPane 2; MPane 3] (ones 2)
                       [sample_box 400 0 400 300; sample_box 400 300 400 300])]
    (ones 2) [sample_box 0 0 400 600; sample_box 400 0 400 600]).

Definition sample_group : PaneGroup := mkGroup sample_tree true.

Lemma sample_proper : proper (root sample_group).
Proof. repeat constructor. Qed.

Lemma sample_nodup : NoDup (panes sample_group).
Proof. apply (bool_decide_unpack _). vm_compute. exact I. Qed.

(** Three panes, painted on a screen of 800 by 600: pane 1 on the left, 2 over
    3 on the right. *)
Definition screen (path : list nat) : Bounds :=
  match path with
  | [] => mkBounds (mkPoint f_0 f_0) (mkSize (of_Z 800) (of_Z 600))
  | _ => mkBounds (mkPoint (of_Z 400) f_0) (mkSize (of_Z 400) (of_Z 600))
  end.

Definition or_sample (r : res PaneGroup) : PaneGroup :=
  match r with Ret g => g | Panic => sample_group end.

Definition painted_group : PaneGroup :=
  or_sample (paint (or_sample
    (fst <$> split (or_sample (fst <$> split (group_new 1) 1 2 Right ∅)) 2 3 Down ∅)) screen).

Lemma sample_reachable : reachable painted_group.
Proof.
  eapply (reachable_step (or_sample
    (fst <$> split (or_sample (fst <$> split (group_new 1) 1 2 Right ∅)) 2 3 Down ∅))).
  - eapply (reachable_step (or_sample (fst <$> split (group_new 1) 1 2 Right ∅))).
    + eapply (reachable_step (group_new 1)); [constructor|].
      eapply (step_split _ _ 1 2 Right ∅ _); [apply (bool_decide_unpack _); vm_compute; exact I|].
      reflexivity.
    + eapply (step_split _ _ 2 3 Down ∅ _); [apply (bool_decide_unpack _); vm_compute; exact I|].
      reflexivity.
  - apply (step_paint _ _ screen). vm_compute. reflexivity.
Qed.

(** C3. Start from one pane and apply the public operations and paintings in
    any order, where a split is given a pane the tree does not hold and a swap
    two panes it holds, and a painting any bounds for each axis.  The tree
    then has at least two members on each axis, one flex and one cached box
    per member, and each pane once.  On such a tree, painted or not, neither an
    operation nor a painting nor a search by position or direction, at any
    point and any float, indexes out of range or unwraps nothing (the
    assertions of debug builds about the sum of the flexes aside).  After a
    painting every member has its box, so the searches go by boxes, and what
    a search finds is a pane of the tree. *)
Theorem reachable_group_safe g :
  reachable g ->
  proper (root g) /\ NoDup (panes g)
  /\ (forall old new d flags, split g old new d flags <> Panic)
  /\ (forall p flags, remove g p flags <> Panic)
  /\ (forall p d flags, move_to_border g p d flags <> Panic)
  /\ (forall p axis amount bounds flags, resize g p axis amount bounds flags <> Panic)
  /\ (forall p cursor d, find_pane_in_direction g p cursor d <> Panic)
  /\ (forall c, pane_at_pixel_position g c <> Panic)
  /\ (forall place, exists g', paint g place = Ret g' /\ panes g' = panes g
        /\ painted (root g') = true)
  /\ (forall c p, pane_at_pixel_position g c = Ret (Some p) -> p ∈ panes g)
  /\ (forall q cursor d p, find_pane_in_direction g q cursor d = Ret (Some p) -> p ∈ panes g)
  /\ (exists p, first_pane (root g) = Ret p /\ head (panes g) = Some p)
  /\ (exists p, last_pane (root g) = Ret p /\ last (panes g) = Some p).
Proof.
  intros [Hp Hnd]%reachable_ok.
  assert (Hhit : forall c p, pane_at_pixel_position g c = Ret (Some p) -> p ∈ panes g)
    by (intros c p; by apply hit_elem).
  split_and!; try done; intros.
  - destruct (split_ok g old new d flags Hp) as (? & -> & _). done.
  - by apply remove_total.
  - by apply move_total.
  - destruct (resize_ok g p axis amount bounds flags Hp) as (? & -> & _). done.
  - unfold find_pane_in_direction.
    destruct (bounding_box_total g p Hp) as ([b|] & ->); [by apply hit_total|done].
  - by apply hit_total.
  - destruct (paint_ok g place Hp) as (g' & E & _ & _ & Hc & Hb). eauto.
  - unfold find_pane_in_direction in *.
    destruct (bounding_box_for_pane g q) as [[b|]|]; [by eapply Hhit|done..].
  - by apply first_pane_head.
  - by apply last_pane_last.
Qed.

Lemma reachable_group_safe_witness :
  reachable painted_group /\ NoDup (panes painted_group)
  /\ painted (root painted_group) = true
  /\ find_pane_in_direction painted_group 1 None Right = Ret (Some 3)
  /\ find_pane_in_direction painted_group 3 None Up = Ret (Some 2)
  /\ pane_at_pixel_position painted_group (mkPoint (of_Z 10) (of_Z 10)) = Ret (Some 1).
Proof.
  split; [apply sample_reachable|].
  split; [apply (reachable_group_safe painted_group sample_reachable)|].
  split_and!; vm_compute; reflexivity.
Defined.

(** Splitting inserts exactly the new pane, immediately after the old one in
    reading order when the direction is right or down and immediately before
    it otherwise; when the old pane is not in the tree the first pane stands in
    for it.  Every pane then carries the group's center flag. *)
Theorem split_reading_order g old new d flags :
  proper (root g) ->
  exists g' flags', split g old new d flags = Ret (g', flags')
    /\ proper (root g')
    /\ panes g' = insert_beside (panes g) (split_point (panes g) old) new
                    (SplitDir.increasing d)
    /\ Permutation (panes g') (new :: panes g)
    /\ forall p, flags' !! p = if decide (p ∈ panes g') then Some (is_center g)
                               else flags !! p.
Proof.
  intros Hp. destruct (split_ok g old new d flags Hp) as (g' & E & Hp' & Hc & Hpanes).
  exists g', (mark_positions g' flags). split_and!; try done.
  - rewrite Hpanes. apply insert_beside_perm. by apply split_point_elem.
  - intros p. by rewrite mark_positions_lookup, Hc.
Qed.

Lemma split_reading_order_witness :
  exists g' flags', split sample_group 2 9 Up ∅ = Ret (g', flags')
    /\ panes g' = [1; 9; 2; 3].
Proof.
  destruct (split_reading_order sample_group 2 9 Up ∅ sample_proper)
    as (g' & flags' & E & _ & Hpanes & _).
  exists g', flags'. split; [exact E|]. rewrite Hpanes. reflexivity.
Defined.

(** C39. Removing a pane: with a single-pane root nothing happens and the result
    is [Ok(false)], whatever pane was asked for; otherwise a pane of the tree
    leaves it (its axis collapsing into its last member) with the other panes in
    order and the result [Ok(true)], and a pane not in the tree is an error that
    changes nothing. *)
Theorem remove_spec g p flags :
  proper (root g) ->
  match root g with
  | MPane _ => remove g p flags = Ret (Some false, g, flags)
  | MAxis _ =>
      if decide (p ∈ panes g) then
        exists g', remove g p flags = Ret (Some true, g', mark_positions g' flags)
          /\ proper (root g') /\ is_center g' = is_center g
          /\ panes g' = remove_first p (panes g)
      else remove g p flags = Ret (None, g, flags)
  end.
Proof.
  intros Hp. unfold remove. pose proof (remove_internal_ok g p Hp) as Hr.
  destruct (root g) as [a|q] eqn:E.
  - destruct (remove_internal g p) as [[[[|] g']|]|]; try done.
    + destruct Hr as (Hin & Hp' & Hc & Hpanes). rewrite decide_True by done. eauto.
    + naive_solver.
    + destruct Hr as [Hn _]. by rewrite decide_False by done.
  - unfold remove_internal. by rewrite E.
Qed.

Lemma remove_spec_witness :
  exists g', remove sample_group 2 ∅ = Ret (Some true, g', mark_positions g' ∅)
    /\ panes g' = [1; 3].
Proof.
  assert (Hin : 2 ∈ panes sample_group) by (apply (bool_decide_unpack _); vm_compute; exact I).
  pose proof (remove_spec sample_group 2 ∅ sample_proper) as H.
  cbn [root sample_group sample_tree] in H. rewrite decide_True in H by exact Hin.
  destruct H as (g' & E & _ & _ & Hpanes). exists g'. split; [exact E|].
  rewrite Hpanes. reflexivity.
Defined.

(** ** Splitting, then closing the new pane *)

(** A tree without its flexes and cached boxes. *)
Inductive skeleton :=
| SPane (p : pane_id)
| SAxis (ax : Axis) (ms : list skeleton).

Fixpoint skeleton_of (m : Member) : skeleton :=
  match m with
  | MPane p => SPane p
  | MAxis (mkAxis ax ms _ _) => SAxis ax (map skeleton_of ms)
  end.

Lemma remove_scan_skip p pre l idx :
  Forall proper pre -> p ∉ flat_map collect_panes pre ->
  remove_scan (fun a => axis_remove a p) p idx (pre ++ l)
  = remove_scan (fun a => axis_remove a p) p (idx + length pre) l.
Proof.
  revert idx. induction pre as [|m pre IH]; intros idx Hp Hn; simpl.
  - by rewrite Nat.add_0_r.
  - apply Forall_cons in Hp as [Hm Hp]. apply not_elem_of_members in Hn as [Hnm Hn].
    destruct m as [a|q].
    + pose proof (axis_remove_correct p _ Hm) as Hr. unfold axis_remove_spec in Hr.
      destruct (axis_remove a p) as [[[o a']|]|]; [naive_solver| |done].
      rewrite IH by done. f_equal. lia.
    + rewrite decide_False by (intros ->; apply Hnm; by left).
      rewrite IH by done. f_equal. lia.
Qed.

Lemma split_scan_inv ax old new d l idx s :
  split_scan (fun a => axis_split a old new d) ax old new d idx l = Ret s ->
  match s with
  | SplitNotFound => True
  | SplitReplace i m' => exists pre m0 post,
      l = pre ++ m0 :: post /\ i = (idx + length pre)%nat
      /\ ((m0 = MPane old /\ m' = new_axis old new d)
          \/ exists a a', m0 = MAxis a /\ axis_split a old new d = Ret (Some a')
                          /\ m' = MAxis a')
  | SplitInsert i => exists pre post,
      l = pre ++ MPane old :: post
      /\ i = (idx + (length pre + if SplitDir.increasing d then 1 else 0))%nat
  end.
Proof.
  revert idx. induction l as [|m l IH]; intros idx; simpl; [by intros [= <-]|].
  assert (Hskip : split_scan (fun a => axis_split a old new d) ax old new d (S idx) l = Ret s ->
    match s with
    | SplitNotFound => True
    | SplitReplace i m' => exists pre m0 post,
        m :: l = pre ++ m0 :: post /\ i = (idx + length pre)%nat
        /\ ((m0 = MPane old /\ m' = new_axis old new d)
            \/ exists a a', m0 = MAxis a /\ axis_split a old new d = Ret (Some a')
                            /\ m' = MAxis a')
    | SplitInsert i => exists pre post,
        m :: l = pre ++ MPane old :: post
        /\ i = (idx + (length pre + if SplitDir.increasing d then 1 else 0))%nat
    end).
  { intros Hs. specialize (IH _ Hs). destruct s as [|i m'|i]; [done| |].
    - destruct IH as (pre & m0 & post & -> & -> & Hor).
      exists (m :: pre), m0, post. simpl. split_and!; [done|lia|done].
    - destruct IH as (pre & post & -> & ->).
      exists (m :: pre), post. simpl. split_and!; [done|lia]. }
  destruct m as [a|q].
  - destruct (axis_split a old new d) as [[a'|]|] eqn:E; [|done|done].
    intros [= <-]. exists [], (MAxis a), l. simpl. split_and!; [done|lia|]. right. eauto.
  - case_decide as Hq; [|done]. subst q. case_decide; intros [= <-].
    + exists [], l. simpl. split; [done|]. destruct (SplitDir.increasing d); lia.
    + exists [], (MPane old), l. simpl. split_and!; [done|lia|by left].
Qed.

Lemma remove_new_axis old new d :
  old <> new ->
  match new_axis old new d with
  | MAxis a => exists a', axis_remove a new = Ret (Some (Some (MPane old), a'))
  | MPane _ => False
  end.
Proof.
  intros Hn. assert (Hn' : new <> old) by congruence.
  destruct d; simpl; rewrite ?(decide_True (P := new = new)) by done;
    rewrite ?(decide_False (P := old = new)) by done;
    rewrite ?(decide_True (P := new = new)) by done; vm_compute; eauto.
Qed.

Lemma collapse_many ax ms fl bb :
  (2 <= length ms)%nat -> collapse ax ms fl bb = (None, mkAxis ax ms fl bb).
Proof. intros ?. unfold collapse. by rewrite (proj2 (Nat.eqb_neq _ _)) by lia. Qed.

Lemma take_drop_middle_cons {A} (pre : list A) x post :
  take (0 + length pre) (pre ++ x :: post) ++ drop (S (0 + length pre)) (pre ++ x :: post)
  = pre ++ post.
Proof.
  rewrite Nat.add_0_l, take_app_length.
  replace (S (length pre)) with (length pre + 1)%nat by lia. by rewrite drop_middle.
Qed.

Lemma axis_split_remove old new d m :
  proper m -> new ∉ collect_panes m -> old <> new ->
  match m with
  | MPane _ => True
  | MAxis a => forall a', axis_split a old new d = Ret (Some a') ->
      exists a'', axis_remove a' new = Ret (Some (None, a''))
                  /\ skeleton_of (MAxis a'') = skeleton_of m
  end.
Proof.
  intros Hp Hn Hneq. induction m as [q|ax ms fl bb IH] using member_induction; [done|].
  intros a'. apply proper_members in Hp as (Hl & Hfl & Hbb & Hms).
  cbn [axis_split]. rewrite collect_axis in Hn.
  destruct (split_scan _ ax old new d 0 ms) as [s|] eqn:Es; [|done].
  apply split_scan_inv in Es. destruct s as [|i m'|i]; [done| |].
  - destruct Es as (pre & m0 & post & -> & -> & Hor). intros [= <-].
    apply Forall_app in Hms as [Hpre Hms]. apply Forall_cons in Hms as [Hm0 Hpost].
    rewrite flat_map_app in Hn. apply not_elem_of_app in Hn as [Hnpre Hn].
    apply not_elem_of_members in Hn as [Hn0 Hnpost].
    simpl. rewrite insert_middle, remove_scan_skip by done. simpl.
    assert (Hm' : exists a1 o a2, m' = MAxis a1 /\ axis_remove a1 new = Ret (Some (o, a2))
      /\ skeleton_of (match o with Some l => l | None => MAxis a2 end) = skeleton_of m0).
    { destruct Hor as [[-> ->]|(a & a1 & -> & Ea & ->)].
      - pose proof (remove_new_axis old new d Hneq) as Hr. unfold new_axis in *.
        destruct Hr as [a2 Hr]. do 3 eexists. split_and!; [done|exact Hr|done].
      - apply Forall_app in IH as [_ IH]. apply Forall_cons in IH as [IH _].
        destruct (IH Hm0 Hn0 _ Ea) as (a2 & Hr & Hs).
        exists a1, None, a2. by split_and!. }
    destruct Hm' as (a1 & o & a2 & -> & -> & Hs).
    rewrite length_app in Hl. simpl in Hl.
    destruct o as [l|]; simpl;
      rewrite insert_middle, collapse_many by (rewrite length_app; simpl; lia);
      eexists; (split; [done|]); cbn [skeleton_of]; rewrite !map_app; cbn [map];
      by rewrite Hs.
  - destruct Es as (pre & post & -> & ->).
    pose proof Hl as Hl'. rewrite length_app in Hl. simpl in Hl.
    apply Forall_app in Hms as [Hpre Hms]. apply Forall_cons in Hms as [Hm0 Hpost].
    rewrite flat_map_app in Hn. apply not_elem_of_app in Hn as [Hnpre Hn].
    rewrite insert_pane_ok; [|done|rewrite length_app; simpl; destruct (SplitDir.increasing d); lia].
    intros [= <-]. cbn [axis_remove].
    set (k := if SplitDir.increasing d then 1%nat else 0%nat).
    assert (Hk : (k <= 1)%nat) by (unfold k; destruct (SplitDir.increasing d); lia).
    rewrite take_middle, drop_middle.
    set (pre' := pre ++ take k (MPane old :: post)).
    set (post' := drop k (MPane old :: post)).
    assert (Hpre' : Forall proper pre').
    { unfold pre'. apply Forall_app. split; [done|]. apply Forall_take. by constructor. }
    assert (Hnpre' : new ∉ flat_map collect_panes pre').
    { unfold pre'. rewrite flat_map_app. apply not_elem_of_app. split; [done|].
      destruct k as [|[|]]; [apply not_elem_of_nil|simpl; set_solver|lia]. }
    rewrite remove_scan_skip by done. cbn [remove_scan]. rewrite decide_True by done.
    rewrite vec_remove_Ret by (rewrite length_app; simpl; lia).
    rewrite (take_drop_middle_cons pre' (MPane new) post').
    assert (Heq : pre' ++ post' = pre ++ MPane old :: post)
      by (unfold pre', post'; rewrite <-app_assoc, take_drop; done).
    rewrite Heq, collapse_many by done. by eexists.
Qed.

(** Closing the pane a split created undoes the split: on a tree that holds
    the old pane and not the new one, split and then remove succeed and leave
    the same tree (axes, members and their order), whatever the direction and
    however deep the pane is. *)
Theorem split_remove_roundtrip g old new d flags :
  proper (root g) -> old ∈ panes g -> new ∉ panes g ->
  exists g1 flags1 g2 flags2,
    split g old new d flags = Ret (g1, flags1)
    /\ remove g1 new flags1 = Ret (Some true, g2, flags2)
    /\ skeleton_of (root g2) = skeleton_of (root g)
    /\ is_center g2 = is_center g.
Proof.
  intros Hp Hold Hnew. assert (Hneq : old <> new) by congruence.
  unfold split, split_root, remove, remove_internal, panes in *.
  destruct (root g) as [a|q] eqn:E.
  - pose proof (axis_split_correct old new d (MAxis a) Hp) as Hs. unfold axis_split_spec in Hs.
    pose proof (axis_split_remove old new d (MAxis a) Hp Hnew Hneq) as Hr.
    destruct (axis_split a old new d) as [[a'|]|] eqn:Ea; [|done|done].
    destruct (Hr _ Ea) as (a2 & Hr2 & Hsk).
    eexists _, _, (set_root g (MAxis a2)), _. split; [reflexivity|].
    cbn [root set_root]. rewrite Hr2. by split_and!.
  - simpl in Hold. apply list_elem_of_singleton in Hold as ->.
    rewrite decide_True by done. cbn [root set_root].
    pose proof (remove_new_axis q new d Hneq) as Hr. unfold new_axis in *.
    destruct Hr as [a2 Hr]. eexists _, _, (set_root g (MPane q)), _.
    split; [reflexivity|]. cbn [root set_root]. rewrite Hr. by split_and!.
Qed.

Lemma split_remove_roundtrip_witness :
  exists g1 flags1 g2 flags2,
    split sample_group 3 9 Left ∅ = Ret (g1, flags1)
    /\ remove g1 9 flags1 = Ret (Some true, g2, flags2)
    /\ skeleton_of (root g2) = skeleton_of sample_tree.
Proof.
  destruct (split_remove_roundtrip sample_group 3 9 Left ∅ sample_proper)
    as (g1 & f1 & g2 & f2 & E1 & E2 & Hs & _).
  - apply (bool_decide_unpack _). vm_compute. exact I.
  - apply (bool_decide_unpack _). vm_compute. exact I.
  - exists g1, f1, g2, f2. split; [exact E1|]. split; [exact E2|exact Hs].
Defined.

(** Moving a pane of the tree to a border never fails, keeps the same panes,
    leaves the moved pane at that border, and reports [Ok(false)] exactly when it
    was there already, in which case nothing changed. *)
Theorem move_to_border_spec g p d flags :
  proper (root g) -> p ∈ panes g ->
  exists b g' flags', move_to_border g p d flags = Ret (Some b, g', flags')
    /\ proper (root g') /\ Permutation (panes g') (panes g)
    /\ find_pane_at_border g' d = Some p
    /\ (b = false <-> find_pane_at_border g d = Some p)
    /\ (b = false -> g' = g /\ flags' = flags).
Proof.
  intros Hp Hin. destruct (move_to_border_ok g p d flags Hp Hin)
    as (b & g' & f' & E & H1 & H2 & _ & H3 & H4 & H5 & _).
  exists b, g', f'. by split_and!.
Qed.

Lemma move_to_border_spec_witness :
  exists b g' flags', move_to_border sample_group 3 Left ∅ = Ret (Some b, g', flags')
    /\ find_pane_at_border g' Left = Some 3.
Proof.
  destruct (move_to_border_spec sample_group 3 Left ∅ sample_proper)
    as (b & g' & f' & E & _ & _ & Hb & _).
  - apply (bool_decide_unpack _). vm_compute. exact I.
  - exists b, g', f'. split; [exact E|exact Hb].
Defined.

(** Swapping two panes of a tree exchanges them in reading order, keeps every
    other pane in place and the tree well formed; on a tree with each pane once,
    swapping the same two again restores the reading order. *)
Theorem swap_spec g a b flags :
  proper (root g) -> NoDup (panes g) -> a ∈ panes g -> b ∈ panes g ->
  let g' := (swap g a b flags).1 in
  proper (root g') /\ NoDup (panes g')
  /\ panes g' = map (transpose a b) (panes g)
  /\ (forall p, p ∈ panes g' <-> p ∈ panes g)
  /\ panes (swap g' a b flags).1 = panes g.
Proof.
  intros Hp Hnd Ha Hb g'. destruct (swap_ok g a b flags Hp) as (Hp' & _ & Hpanes).
  fold g' in Hp', Hpanes.
  assert (Heq : panes g' = map (transpose a b) (panes g)).
  { rewrite Hpanes. destruct (root g) as [ax|q] eqn:E; [done|].
    unfold panes in *. rewrite E in *. simpl in *.
    apply list_elem_of_singleton in Ha, Hb. subst. unfold transpose. by rewrite decide_True. }
  assert (Hinv : forall p, transpose a b (transpose a b p) = p)
    by (intros p; unfold transpose; repeat case_decide; congruence).
  destruct (swap_ok g' a b flags Hp') as (_ & _ & Hpanes2).
  split_and!; [done| |done| |].
  - rewrite Heq. apply NoDup_ListNoDup. apply NoDup_ListNoDup in Hnd.
    apply Finite.Injective_map_NoDup; [|done]. intros ?? ?. by eapply transpose_inj.
  - intros p. rewrite Heq. rewrite list_elem_of_fmap. split.
    + intros (q & -> & Hq). unfold transpose. by repeat case_decide.
    + intros Hq. exists (transpose a b p). split; [by rewrite Hinv|].
      unfold transpose. by repeat case_decide.
  - rewrite Hpanes2, Heq. unfold g', swap. cbn [fst root set_root].
    destruct (root g) as [ax|q] eqn:E; simpl.
    + rewrite map_map. erewrite map_ext; [apply map_id|]. exact Hinv.
    + rewrite E. unfold panes in *. rewrite E in *. simpl in *.
      apply list_elem_of_singleton in Ha, Hb. subst. unfold transpose. by rewrite decide_True.
Qed.

Lemma swap_spec_witness :
  panes (swap sample_group 1 3 ∅).1 = [3; 2; 1]
  /\ panes (swap (swap sample_group 1 3 ∅).1 1 3 ∅).1 = [1; 2; 3].
Proof.
  destruct (swap_spec sample_group 1 3 ∅ sample_proper sample_nodup)
    as (_ & _ & H1 & _ & H2).
  - apply (bool_decide_unpack _). vm_compute. exact I.
  - apply (bool_decide_unpack _). vm_compute. exact I.
  - split; [rewrite H1; reflexivity|rewrite H2; reflexivity].
Defined.

(** A point is answered by [pane_at_pixel_position] only with a pane of the
    tree, and on a split tree only with one whose own cached bounding box
    contains the point; a tree of one pane answers it for every point. *)
Theorem hit_test_sound g c p :
  proper (root g) -> NoDup (panes g) -> pane_at_pixel_position g c = Ret (Some p) ->
  p ∈ panes g
  /\ match root g with
     | MPane _ => True
     | MAxis _ => exists b, bounding_box_for_pane g p = Ret (Some b) /\ contains b c = true
     end.
Proof.
  intros Hp Hnd. unfold pane_at_pixel_position, bounding_box_for_pane, panes in *.
  destruct (root g) as [a|q] eqn:E.
  - pose proof (hit_correct c (MAxis a) Hp) as Hh. intros Hhit. rewrite Hhit in Hh.
    destruct Hh as [Hin Hb]. split; [done|]. by apply Hb.
  - intros [= ->]. split; [|done]. by left.
Qed.

Lemma hit_test_sound_witness :
  pane_at_pixel_position sample_group (mkPoint (of_Z 500) (of_Z 350)) = Ret (Some 3)
  /\ exists b, bounding_box_for_pane sample_group 3 = Ret (Some b)
               /\ contains b (mkPoint (of_Z 500) (of_Z 350)) = true.
Proof.
  assert (E : pane_at_pixel_position sample_group (mkPoint (of_Z 500) (of_Z 350)) = Ret (Some 3))
    by (vm_compute; reflexivity).
  split; [exact E|].
  apply (hit_test_sound sample_group _ _ sample_proper sample_nodup E).
Defined.

(** Resizing and resetting sizes never panic and move no pane: the reading
    order is unchanged and the tree stays well formed.  After a reset every flex
    of the root axis is 1. *)
Theorem resize_reset_keep_panes g p axis amount bounds flags :
  proper (root g) ->
  (exists g', resize g p axis amount bounds flags = Ret (g', mark_positions g' flags)
     /\ proper (root g') /\ panes g' = panes g)
  /\ let g' := (reset_pane_sizes g flags).1 in
     proper (root g') /\ panes g' = panes g
     /\ match root g' with
        | MPane _ => True
        | MAxis a => pa_flexes a = ones (length (pa_members a))
        end.
Proof.
  intros Hp. split.
  - destruct (resize_ok g p axis amount bounds flags Hp) as (g' & E & Hp' & _ & Hc).
    exists g'. by split_and!.
  - destruct (reset_ok g flags Hp) as (Hp' & _ & Hc). split_and!; try done.
    unfold reset_pane_sizes. cbn [fst]. destruct (root g) as [[ax ms fl bb]|q] eqn:E.
    + simpl. by rewrite length_map.
    + by rewrite E.
Qed.

Lemma resize_reset_keep_panes_witness :
  exists g', resize sample_group 2 Vertical (of_Z 10)
               (mkBounds (mkPoint (of_Z 0) (of_Z 0)) (mkSize (of_Z 800) (of_Z 600))) ∅
             = Ret (g', mark_positions g' ∅) /\ panes g' = [1; 2; 3].
Proof.
  destruct (resize_reset_keep_panes sample_group 2 Vertical (of_Z 10)
    (mkBounds (mkPoint (of_Z 0) (of_Z 0)) (mkSize (of_Z 800) (of_Z 600))) ∅ sample_proper)
    as [(g' & E & _ & Hc) _].
  exists g'. split; [exact E|]. rewrite Hc. reflexivity.
Defined.
