(* ===== verification/SplitGuard.v ===== *)
(** * The split guard ([crates/terminal_group/src/split_guard.rs])

    Whether a requested split leaves two usable tiles, and along which axis. *)

From S2P Require Import Prelude F32 PaneGroup.

Inductive SplitGuard := Adapt | Refuse | Off.
Global Instance SplitGuard_eq_dec : EqDecision SplitGuard. Proof. solve_decision. Defined.

Record TileMetrics := mkMetrics {
  tm_width : f32;
  tm_height : f32;
  cell_width : f32;
  line_height : f32;
  gap : f32;
  header_height : f32;
}.

Record TileMinimum := mkMinimum { columns : nat; rows : nat }.

(** [TileMinimum::default]. *)
Definition default_minimum : TileMinimum := mkMinimum 30 8.

Inductive SplitOutcome :=
| Split (d : SplitDirection)
| Refused.
Global Instance SplitOutcome_eq_dec : EqDecision SplitOutcome. Proof. solve_decision. Defined.

(** [TileMetrics::fits]. *)
Definition fits (self : TileMetrics) (width height : f32) (minimum : TileMinimum) : bool :=
  if fle (cell_width self) f_0 || fle (line_height self) f_0 then false
  else
    let cols := ffloor (fdiv width (cell_width self)) in
    let rws := ffloor (fdiv (fsub height (header_height self)) (line_height self)) in
    fle (of_nat (columns minimum)) cols && fle (of_nat (rows minimum)) rws.

(** The size of one half of the tile, as [admits] computes it. *)
Definition half_size (self : TileMetrics) (direction : SplitDirection) : f32 * f32 :=
  match direction with
  | Left | Right => (fdiv (fsub (tm_width self) (gap self)) f_2, tm_height self)
  | Up | Down => (tm_width self, fdiv (fsub (tm_height self) (gap self)) f_2)
  end.

(** [TileMetrics::admits]. *)
Definition admits (self : TileMetrics) (direction : SplitDirection) (minimum : TileMinimum)
    : bool :=
  fits self (half_size self direction).1 (half_size self direction).2 minimum.

Definition perpendicular (requested : SplitDirection) : SplitDirection :=
  match requested with Left | Right => Down | Up | Down => Right end.

Definition resolve_split (metrics : TileMetrics) (requested : SplitDirection)
    (minimum : TileMinimum) (guard : SplitGuard) : SplitOutcome :=
  if decide (guard = Off) then Split requested
  else if admits metrics requested minimum then Split requested
  else if decide (guard = Adapt) then
    if admits metrics (perpendicular requested) minimum
    then Split (perpendicular requested) else Refused
  else Refused.

(** What the fresh tile of a split is measured by before it has a terminal or a
    box: half of the source's space, with the source's cells, gap and header. *)
Definition after_split (self : TileMetrics) (direction : SplitDirection) : TileMetrics :=
  mkMetrics (half_size self direction).1 (half_size self direction).2
    (cell_width self) (line_height self) (gap self) (header_height self).

Definition tile_fits (self : TileMetrics) (minimum : TileMinimum) : bool :=
  fits self (tm_width self) (tm_height self) minimum.

Lemma admits_after self d minimum :
  admits self d minimum = tile_fits (after_split self d) minimum.
Proof. by destruct d. Qed.

Lemma perpendicular_axis d :
  SplitDir.axis (perpendicular d) = axis_invert (SplitDir.axis d).
Proof. by destruct d. Qed.

Lemma resolve_split_usable m d minimum guard d' :
  guard <> Off -> resolve_split m d minimum guard = Split d' -> admits m d' minimum = true.
Proof.
  intros Hg. unfold resolve_split. rewrite decide_False by done.
  destruct (admits m d minimum) eqn:E; [by intros [= <-]|].
  case_decide; [|done]. destruct (admits m (perpendicular d) minimum) eqn:E'; [|done].
  by intros [= <-].
Qed.

#[export] Hint Resolve resolve_split_usable : rdg.

(** ** Properties *)

Definition test_metrics (w h : Z) : TileMetrics :=
  mkMetrics (of_Z w) (of_Z h) (of_Z 8) (of_Z 18) (of_Z 6) (of_Z 24).

(** The guard's decision on every branch: [Off] grants the request; otherwise
    the request is granted exactly when both halves fit, turned to the
    perpendicular axis exactly when only that one fits and the guard adapts, and
    refused exactly when no allowed axis fits.  A granted direction differs from
    the request only in axis, and unless the guard is off both halves it leaves
    are usable. *)
Theorem resolve_split_spec m d minimum guard :
  match resolve_split m d minimum guard with
  | Split d' =>
      (d' = d /\ (guard = Off \/ admits m d minimum = true))
      \/ (guard = Adapt /\ d' = perpendicular d /\ admits m d minimum = false
          /\ admits m d' minimum = true)
  | Refused =>
      guard <> Off /\ admits m d minimum = false
      /\ (guard = Adapt -> admits m (perpendicular d) minimum = false)
  end
  /\ (guard <> Off -> forall d', resolve_split m d minimum guard = Split d' ->
      tile_fits (after_split m d') minimum = true).
Proof.
  split.
  - unfold resolve_split. destruct guard; simpl; destruct (admits m d minimum) eqn:E;
      simpl; try (destruct (admits m (perpendicular d) minimum) eqn:E'); naive_solver.
  - intros Hg d' Hd. rewrite <-admits_after. eauto with rdg.
Qed.

Lemma resolve_split_spec_witness :
  resolve_split (test_metrics 400 800) Right default_minimum Adapt = Split Down
  /\ tile_fits (after_split (test_metrics 400 800) Down) default_minimum = true.
Proof.
  split; [vm_compute; reflexivity|].
  apply (resolve_split_spec (test_metrics 400 800) Right default_minimum Adapt);
    [discriminate|vm_compute; reflexivity].
Defined.
