(* ===== verification/DropZone.v ===== *)
(** * Drop zones ([crates/terminal_group/src/drag.rs])

    Which operation a tile drop means, from the pointer, the tile under it and
    the group's bounds, and the rectangle highlighted for it. *)

From S2P Require Import Prelude F32 PaneGroup.

Definition EDGE_BAND : f32 := fdiv f_1 (of_Z 4).
Definition OUTER_BAND_PX : f32 := of_Z 24.

Record Rect := mkRect { r_x : f32; r_y : f32; r_width : f32; r_height : f32 }.

Definition r_right (r : Rect) : f32 := fadd (r_x r) (r_width r).
Definition r_bottom (r : Rect) : f32 := fadd (r_y r) (r_height r).

(** [Rect::contains]; [a >= b] is [b <= a] on [f32]. *)
Definition rect_contains (r : Rect) (x y : f32) : bool :=
  fle (r_x r) x && fle x (r_right r) && fle (r_y r) y && fle y (r_bottom r).

Inductive DropZone :=
| Swap
| Edge (d : SplitDirection)
| Outer (d : SplitDirection).
Global Instance DropZone_eq_dec : EqDecision DropZone. Proof. solve_decision. Defined.

Definition horizontal_direction (fraction : f32) : SplitDirection :=
  if flt fraction f_half then Left else Right.
Definition vertical_direction (fraction : f32) : SplitDirection :=
  if flt fraction f_half then Up else Down.

(** [Iterator::min_by]: the first of several minima. *)
Definition min_by {A} (cmp : A -> A -> comparison) (l : list A) : option A :=
  match l with
  | [] => None
  | a :: l' => Some (fold_left (fun m b => match cmp m b with Gt => b | _ => m end) l' a)
  end.

Definition edge_distances (x y : f32) (group : Rect) : list (f32 * SplitDirection) :=
  [(fsub x (r_x group), Left); (fsub (r_right group) x, Right);
   (fsub y (r_y group), Up); (fsub (r_bottom group) y, Down)].

Definition outer_edge (x y : f32) (group : Rect) : option SplitDirection :=
  if negb (rect_contains group x y) then None
  else snd <$> min_by (fun a b => total_cmp a.1 b.1)
                 (List.filter (fun p => fle p.1 OUTER_BAND_PX) (edge_distances x y group)).

(** The fractions and depths [zone_at] compares. *)
Definition fraction (v start len : f32) : f32 := fclamp (fdiv (fsub v start) len) f_0 f_1.
Definition depth (f : f32) : f32 := fmin f (fsub f_1 f).

Definition zone_at (x y : f32) (tile group : Rect) : DropZone :=
  match outer_edge x y group with
  | Some direction => Outer direction
  | None =>
      if fle (r_width tile) f_0 || fle (r_height tile) f_0 then Swap
      else
        let horizontal := fraction x (r_x tile) (r_width tile) in
        let vertical := fraction y (r_y tile) (r_height tile) in
        let horizontal_depth := depth horizontal in
        let vertical_depth := depth vertical in
        let in_horizontal_band := flt horizontal_depth EDGE_BAND in
        let in_vertical_band := flt vertical_depth EDGE_BAND in
        match in_horizontal_band, in_vertical_band with
        | false, false => Swap
        | true, true =>
            if fle horizontal_depth vertical_depth
            then Edge (horizontal_direction horizontal)
            else Edge (vertical_direction vertical)
        | true, false => Edge (horizontal_direction horizontal)
        | false, true => Edge (vertical_direction vertical)
        end
  end.

Definition half_of (rect : Rect) (direction : SplitDirection) : Rect :=
  match direction with
  | Left => mkRect (r_x rect) (r_y rect) (fdiv (r_width rect) f_2) (r_height rect)
  | Right => mkRect (fadd (r_x rect) (fdiv (r_width rect) f_2)) (r_y rect)
                    (fdiv (r_width rect) f_2) (r_height rect)
  | Up => mkRect (r_x rect) (r_y rect) (r_width rect) (fdiv (r_height rect) f_2)
  | Down => mkRect (r_x rect) (fadd (r_y rect) (fdiv (r_height rect) f_2))
                   (r_width rect) (fdiv (r_height rect) f_2)
  end.

Definition band_of (group : Rect) (direction : SplitDirection) : Rect :=
  let horizontal := fdiv (r_width group) (of_Z 3) in
  let vertical := fdiv (r_height group) (of_Z 3) in
  match direction with
  | Left => mkRect (r_x group) (r_y group) horizontal (r_height group)
  | Right => mkRect (fsub (r_right group) horizontal) (r_y group) horizontal (r_height group)
  | Up => mkRect (r_x group) (r_y group) (r_width group) vertical
  | Down => mkRect (r_x group) (fsub (r_bottom group) vertical) (r_width group) vertical
  end.

Definition preview_rect (zone : DropZone) (tile group : Rect) : Rect :=
  match zone with
  | Swap => tile
  | Edge direction => half_of tile direction
  | Outer direction => band_of group direction
  end.

(** [to_rect] (terminal_group.rs). *)
Definition to_rect (b : Bounds) : Rect :=
  mkRect (x (origin b)) (y (origin b)) (width (size b)) (height (size b)).

(** ** Lemmas *)

Section min_by.
Context {A : Type} (key : A -> Z).
Let cmp a b := Z.compare (key a) (key b).

Lemma min_by_fold l a :
  let r := fold_left (fun m b => match cmp m b with Gt => b | _ => m end) l a in
  r ∈ a :: l /\ forall b, b ∈ a :: l -> key r <= key b.
Proof.
  revert a. induction l as [|b l IH]; intros a; simpl.
  - split; [by left|]. intros b Hb. apply list_elem_of_singleton in Hb as ->. lia.
  - unfold cmp in *. destruct (Z.compare_spec (key a) (key b)) as [Hc|Hc|Hc];
      [destruct (IH a) as [IH1 IH2]|destruct (IH a) as [IH1 IH2]
      |destruct (IH b) as [IH1 IH2]]; split; try set_solver;
      intros c [->|[->|Hc']%elem_of_cons]%elem_of_cons;
      try (apply IH2; set_solver).
    + etrans; [apply (IH2 a); by left|lia].
    + etrans; [apply (IH2 a); by left|lia].
    + etrans; [apply (IH2 b); by left|lia].
Qed.

Lemma min_by_spec l :
  match min_by cmp l with
  | None => l = []
  | Some r => r ∈ l /\ forall b, b ∈ l -> key r <= key b
  end.
Proof. destruct l as [|a l]; simpl; [done|]. apply min_by_fold. Qed.
End min_by.

(** The distance from the pointer to one edge of the group. *)
Definition edge_distance (x y : f32) (group : Rect) (d : SplitDirection) : f32 :=
  match d with
  | Left => fsub x (r_x group)
  | Right => fsub (r_right group) x
  | Up => fsub y (r_y group)
  | Down => fsub (r_bottom group) y
  end.

Lemma edge_distances_elem x y group p :
  p ∈ edge_distances x y group <-> p.1 = edge_distance x y group p.2.
Proof.
  unfold edge_distances. destruct p as [v []]; simpl; set_solver.
Qed.

Definition in_outer_band (x y : f32) (group : Rect) (d : SplitDirection) : Prop :=
  fle (edge_distance x y group d) OUTER_BAND_PX = true.

Lemma outer_edge_spec x y group :
  match outer_edge x y group with
  | Some d =>
      rect_contains group x y = true /\ in_outer_band x y group d
      /\ forall e, in_outer_band x y group e ->
           total_cmp (edge_distance x y group d) (edge_distance x y group e) <> Gt
  | None =>
      rect_contains group x y = true -> forall d, ~ in_outer_band x y group d
  end.
Proof.
  unfold outer_edge. destruct (rect_contains group x y) eqn:Hc; cbn [negb]; [|done].
  set (l := List.filter (fun p => fle p.1 OUTER_BAND_PX) (edge_distances x y group)).
  pose proof (min_by_spec (fun p : f32 * SplitDirection => total_key p.1) l) as Hm.
  change (min_by (fun a b => total_cmp a.1 b.1) l)
    with (min_by (fun a b : f32 * SplitDirection => Z.compare (total_key a.1) (total_key b.1)) l).
  assert (Hl : forall p, p ∈ l <-> p.1 = edge_distance x y group p.2
                                   /\ fle p.1 OUTER_BAND_PX = true).
  { intros p. unfold l. rewrite <-edge_distances_elem, !list_elem_of_In.
    apply List.filter_In. }
  clearbody l. destruct (min_by _ l) as [[v d]|]; simpl.
  - destruct Hm as [Hin Hmin]. apply Hl in Hin as [Hv Hb]. simpl in *. subst v.
    split_and!; [done|done|]. intros e He Hgt.
    pose proof (Hmin (edge_distance x y group e, e)) as Hle. simpl in Hle.
    assert (He' : (edge_distance x y group e, e) ∈ l) by (by apply Hl).
    specialize (Hle He'). unfold total_cmp in Hgt. apply Z.compare_gt_iff in Hgt. lia.
  - intros _ d Hd.
    assert (He' : (edge_distance x y group d, d) ∈ l) by (by apply Hl).
    rewrite Hm in He'. by apply elem_of_nil in He'.
Qed.

(** ** Properties *)

(** The zone of a drop, on every input: the outer band wins, with the nearest
    of the group's edges (in [total_cmp] order) among those within the band;
    otherwise an edge zone means the pointer is within a quarter of that side of
    the tile, and in a corner no deeper along it than along the other axis; the
    swap zone is what is left, a tile without area included. *)
Theorem zone_at_spec px py tile group :
  let h := fraction px (r_x tile) (r_width tile) in
  let v := fraction py (r_y tile) (r_height tile) in
  let in_h := flt (depth h) EDGE_BAND in
  let in_v := flt (depth v) EDGE_BAND in
  match zone_at px py tile group with
  | Outer d =>
      rect_contains group px py = true /\ in_outer_band px py group d
      /\ forall e, in_outer_band px py group e ->
           total_cmp (edge_distance px py group d) (edge_distance px py group e) <> Gt
  | Edge d =>
      (rect_contains group px py = true -> forall e, ~ in_outer_band px py group e)
      /\ match SplitDir.axis d with
         | Horizontal => in_h = true /\ (in_v = true -> fle (depth h) (depth v) = true)
                         /\ (d = Left <-> flt h f_half = true)
         | Vertical => in_v = true /\ (in_h = true -> fle (depth h) (depth v) = false)
                       /\ (d = Up <-> flt v f_half = true)
         end
  | Swap =>
      (rect_contains group px py = true -> forall e, ~ in_outer_band px py group e)
      /\ (fle (r_width tile) f_0 || fle (r_height tile) f_0 = true
          \/ (in_h = false /\ in_v = false))
  end.
Proof.
  intros h v in_h in_v. unfold zone_at. pose proof (outer_edge_spec px py group) as Ho.
  destruct (outer_edge px py group) as [d|]; [done|].
  destruct (fle (r_width tile) f_0 || fle (r_height tile) f_0) eqn:Ez; [by split; [|left]|].
  fold h v in_h in_v.
  assert (Hh : forall b, SplitDir.axis (horizontal_direction b) = Horizontal
                         /\ (horizontal_direction b = Left <-> flt b f_half = true)).
  { intros b. unfold horizontal_direction. destruct (flt b f_half); naive_solver. }
  assert (Hv : forall b, SplitDir.axis (vertical_direction b) = Vertical
                         /\ (vertical_direction b = Up <-> flt b f_half = true)).
  { intros b. unfold vertical_direction. destruct (flt b f_half); naive_solver. }
  destruct (Hh h) as [Hh1 Hh2], (Hv v) as [Hv1 Hv2].
  destruct in_h eqn:Eh, in_v eqn:Ev; try destruct (fle (depth h) (depth v)) eqn:Ed;
    rewrite ?Hh1, ?Hv1; split; auto; split_and!; auto; intros; congruence.
Qed.

Example zone_at_tests :
  let group := mkRect f_0 f_0 (of_Z 900) (of_Z 600) in
  let tile := mkRect (of_Z 300) (of_Z 200) (of_Z 300) (of_Z 200) in
  zone_at (of_Z 450) (of_Z 300) tile group = Swap
  /\ zone_at (of_Z 320) (of_Z 300) tile group = Edge Left
  /\ zone_at (of_Z 450) (of_Z 390) tile group = Edge Down
  /\ zone_at (of_Z 10) (of_Z 5) tile group = Outer Up
  /\ zone_at (of_Z 320) (of_Z 210) tile group = Edge Up.
Proof. vm_compute. auto. Qed.

Example preview_rect_tests :
  let group := mkRect f_0 f_0 (of_Z 900) (of_Z 600) in
  let tile := mkRect (of_Z 300) (of_Z 200) (of_Z 300) (of_Z 200) in
  preview_rect (Edge Right) tile group
    = mkRect (of_Z 450) (of_Z 200) (of_Z 150) (of_Z 200)
  /\ preview_rect (Outer Down) tile group
    = mkRect f_0 (of_Z 400) (of_Z 900) (of_Z 200).
Proof. vm_compute. auto. Qed.
