(* ===== verification/Persistence.v ===== *)
(** * Stored layouts ([crates/terminal_group/src/persistence.rs])

    The shape of a terminal group as it is stored, which stored layouts are
    accepted, and [serialize_tree] of [terminal_group.rs].  The database row and
    the JSON decoder are not under [src/]: they are arguments of [load_layout]. *)

From S2P Require Import Prelude F32 PaneGroup.
From stdpp Require Import strings.
Local Open Scope Z_scope.

Definition LAYOUT_VERSION : Z := 1.

Inductive SerializedAxis := SHorizontal | SVertical.

Definition axis_to_serialized (a : Axis) : SerializedAxis :=
  match a with Horizontal => SHorizontal | Vertical => SVertical end.
Definition axis_of_serialized (a : SerializedAxis) : Axis :=
  match a with SHorizontal => Horizontal | SVertical => Vertical end.

Record SerializedTile := mkSTile {
  working_directory : option string;
  title_override : option string;
}.
Definition default_tile : SerializedTile := mkSTile None None.

Inductive SerializedTileTree :=
| STAxis (axis : SerializedAxis) (flexes : list f32) (children : list SerializedTileTree)
| STTile (t : SerializedTile).

Record SerializedWorker := mkSWorker { sw_command : string; sw_parent_id : option Z }.

Record SerializedTerminalGroup := mkSGroup {
  version : Z;
  sg_root : SerializedTileTree;
  focused_tile : option nat;
  magnified_tile : option nat;
  sg_title : option string;
  sg_overflow_workers : list SerializedWorker;
}.

Fixpoint tile_count (self : SerializedTileTree) : nat :=
  match self with
  | STTile _ => 1%nat
  | STAxis _ _ children => fold_right Nat.add 0%nat (map tile_count children)
  end.

Fixpoint is_well_formed (self : SerializedTileTree) : bool :=
  match self with
  | STTile _ => true
  | STAxis _ flexes children =>
      negb (length children =? 0)%nat
      && (length flexes =? length children)%nat
      && forallb (fun flex => is_finite flex && flt f_0 flex) flexes
      && forallb is_well_formed children
  end.

(** [load_layout]: [row] is what [get_layout] returned ([None] an error,
    [Some None] no row) and [from_str] the JSON decoder. *)
Definition load_layout (from_str : string -> option SerializedTerminalGroup)
    (row : option (option string)) (max_tiles : nat) : option SerializedTerminalGroup :=
  match row with
  | Some (Some raw) =>
      match from_str raw with
      | None => None
      | Some layout =>
          if LAYOUT_VERSION <? version layout then None
          else if negb (is_well_formed (sg_root layout)) then None
          else if (max_tiles <? tile_count (sg_root layout))%nat then None
          else Some layout
      end
  | _ => None
  end.

(** [serialize_tree] (terminal_group.rs). *)
Fixpoint serialize_tree (m : Member) : SerializedTileTree :=
  match m with
  | MPane _ => STTile default_tile
  | MAxis (mkAxis ax ms fl _) =>
      STAxis (axis_to_serialized ax) fl (map serialize_tree ms)
  end.

(** ** Lemmas *)

Section stree_ind.
Variable P : SerializedTileTree -> Prop.
Hypothesis HTile : forall t, P (STTile t).
Hypothesis HAxis : forall ax fl cs, Forall P cs -> P (STAxis ax fl cs).

Fixpoint stree_induction (t : SerializedTileTree) : P t :=
  match t with
  | STTile t => HTile t
  | STAxis ax fl cs =>
      HAxis ax fl cs
        ((fix go (l : list SerializedTileTree) : Forall P l :=
            match l with
            | [] => Forall_nil_2 _
            | c :: l' => Forall_cons_2 _ _ _ (stree_induction c) (go l')
            end) cs)
  end.
End stree_ind.

Lemma axis_roundtrip a : axis_of_serialized (axis_to_serialized a) = a.
Proof. by destruct a. Qed.

Lemma axis_roundtrip_inv a : axis_to_serialized (axis_of_serialized a) = a.
Proof. by destruct a. Qed.

(** The stored tree counts the tiles of the live one. *)
Lemma tile_count_serialize m : tile_count (serialize_tree m) = length (collect_panes m).
Proof.
  induction m as [p|ax ms fl bb IH] using member_induction; simpl; [done|].
  induction IH as [|m ms Hm _ IH]; simpl; [done|]. by rewrite Hm, length_app, IH.
Qed.

(** Every flex of the tree is finite and positive. *)
Inductive flexes_positive : Member -> Prop :=
| flexes_positive_pane p : flexes_positive (MPane p)
| flexes_positive_axis ax ms fl bb :
    Forall (fun f => is_finite f && flt f_0 f = true) fl -> Forall flexes_positive ms ->
    flexes_positive (MAxis (mkAxis ax ms fl bb)).

Lemma forallb_Forall {A} (f : A -> bool) l : forallb f l = true <-> Forall (fun a => f a = true) l.
Proof. rewrite forallb_forall, Forall_forall. setoid_rewrite list_elem_of_In. done. Qed.

Lemma serialize_well_formed m :
  proper m -> flexes_positive m -> is_well_formed (serialize_tree m) = true.
Proof.
  induction m as [p|ax ms fl bb IH] using member_induction; [done|].
  intros (Hl & Hfl & _ & Hms)%proper_members Hpos. inversion_clear Hpos as [|? ? ? ? Hf Hp].
  simpl. rewrite length_map, !andb_true_iff. split_and!.
  - destruct ms; simpl in *; [lia|done].
  - by apply Nat.eqb_eq.
  - by apply forallb_Forall.
  - apply forallb_Forall. apply Forall_map. clear Hl Hfl Hf.
    induction IH as [|m ms Hm _ IH]; [constructor|].
    apply Forall_cons in Hms as [? ?], Hp as [? ?]. constructor; auto.
Qed.

Lemma well_formed_axis ax fl cs :
  is_well_formed (STAxis ax fl cs) = true ->
  cs <> [] /\ length fl = length cs /\ Forall (fun c => is_well_formed c = true) cs.
Proof.
  simpl. rewrite !andb_true_iff, negb_true_iff, Nat.eqb_neq, Nat.eqb_eq.
  intros [[[Hn Hl] _] Hc]. split_and!; [by destruct cs|done|by apply forallb_Forall].
Qed.

Lemma well_formed_tiles t : is_well_formed t = true -> (1 <= tile_count t)%nat.
Proof.
  induction t as [t|ax fl cs IH] using stree_induction; [simpl; lia|].
  intros (Hn & _ & Hcs)%well_formed_axis. destruct cs as [|c cs]; [done|].
  apply Forall_cons in IH as [IH _], Hcs as [Hc _]. specialize (IH Hc). simpl. lia.
Qed.

#[export] Hint Resolve axis_roundtrip axis_roundtrip_inv : rdg.
#[export] Hint Rewrite axis_roundtrip axis_roundtrip_inv tile_count_serialize : rdg.
