(* ===== verification/TerminalGroup.v ===== *)
(** * The terminal group ([crates/terminal_group/src/terminal_group.rs])

    A [TerminalGroup] owns a [PaneGroup] of tiles, one terminal per tile, and
    the workers running in them or past the visible-tile cap.  Handlers are
    state-passing computations that may panic ([M]).  What lies outside the
    entity is explicit: [Env] is what the handlers read of the terminals, the
    settings and the project; [tile_panes] and [next_entity] are the part of
    [gpui]'s entity store they touch; [effects] logs the events, toasts, focus
    changes and terminal input they emit and [tasks] the work they leave to
    run later.  [cx.notify] (a repaint request) is left out. *)

From S2P Require Import Prelude F32 PaneGroup SplitGuard DropZone Persistence.
From stdpp Require Import strings pretty gmap.
Local Open Scope Z_scope.

Definition HEADER_HEIGHT : f32 := of_Z 24.
Definition OVERFLOW_ID_BASE : Z := Z.shiftl 1 52.

(** ** Settings *)

Record TerminalWorkspaceSettings := mkSettings {
  s_gap : f32;
  corner_radius : f32;
  minimum : TileMinimum;
  split_guard : SplitGuard;
  magnify_size : f32;
  max_tiles : nat;
}.

Record TerminalWorkspaceContent := mkContent {
  c_gap : option f32;
  c_corner_radius : option f32;
  min_tile_columns : option nat;
  min_tile_rows : option nat;
  c_split_guard : option SplitGuard;
  c_magnify_size : option f32;
  c_max_tiles : option nat;
}.

(** [TerminalWorkspaceSettings::from_settings]. *)
Definition from_settings (content : TerminalWorkspaceContent) : TerminalWorkspaceSettings :=
  mkSettings (default (of_Z 6) (c_gap content))
    (default (of_Z 6) (c_corner_radius content))
    (mkMinimum (default 30%nat (min_tile_columns content))
               (default 8%nat (min_tile_rows content)))
    (default Adapt (c_split_guard content))
    (fclamp (default (fdiv (of_Z 92) (of_Z 100)) (c_magnify_size content)) f_half f_1)
    (Nat.max (default 32%nat (c_max_tiles content)) 1).

(** ** State *)

Record WorkerMetadata := mkMeta {
  parent_id : option Z;
  command : string;
  status : string;
  summary : option string;
}.

Definition set_status (m : WorkerMetadata) (st : string) : WorkerMetadata :=
  mkMeta (parent_id m) (command m) st (summary m).

(** An item of a tile: a [TerminalView] of a terminal, or something else. *)
Inductive item :=
| ITerminal (t : Z)
| IOther (i : Z).
Global Instance item_eq_dec : EqDecision item. Proof. solve_decision. Defined.

Record Pane := mkPane { items : list item; active_item_index : nat }.
Definition empty_pane : Pane := mkPane [] 0.

Record OverflowWorker := mkOverflow { terminal_view : Z; metadata : WorkerMetadata }.

Record WorkerInfo := mkInfo {
  wi_id : Z;
  wi_parent_id : option Z;
  wi_title : string;
  wi_cwd : option string;
  wi_status : string;
  wi_summary : option string;
}.

Inductive ItemEvent := UpdateTab | CloseItem.

Inductive WorkerEvent :=
| Spawned (worker_id : Z) (parent : option Z)
| Updated (worker_id : Z) (st : string) (sm : option string)
| Closed (worker_id : Z).

Inductive effect :=
| EmitItem (e : ItemEvent)
| EmitWorker (e : WorkerEvent)
| ShowToast
| FocusPane (p : pane_id)
| PaneAddItem (p : pane_id) (i : item)
| CloseAllItems (p : pane_id)
| TerminalInput (t : Z) (text : string).

(** Work left to run after the handler returns: a shell starting in a tile or
    for an overflow worker, a restart waiting for its pane to close, and a
    dropped tab waiting to be taken from its pane. *)
Inductive task :=
| TaskShell (p : pane_id) (working_directory init_command : option string)
| TaskOverflow (worker_id : Z) (parent : option Z) (cmd init_command : string)
| TaskRestart (parent : option Z) (cmd : string)
| TaskAdopt (i : item).

Record TG := mkTG {
  center : PaneGroup;
  in_center : gmap Z bool;
  active_pane : pane_id;
  magnified_pane : option pane_id;
  title : option string;
  predicted_sizes : gmap Z (f32 * f32);
  spawning : gset Z;
  worker_metadata : gmap Z WorkerMetadata;
  worker_panes : gmap Z pane_id;
  overflow_workers : gmap Z OverflowWorker;
  next_overflow_id : Z;
  auto_start_empty_tiles : bool;
  drop_target : option (pane_id * DropZone);
  tile_panes : gmap Z Pane;
  next_entity : Z;
  effects : list effect;
  tasks : list task;
}.

Definition set_center (c : PaneGroup * gmap Z bool) (s : TG) : TG :=
  mkTG c.1 c.2 (active_pane s) (magnified_pane s) (title s) (predicted_sizes s)
    (spawning s) (worker_metadata s) (worker_panes s) (overflow_workers s)
    (next_overflow_id s) (auto_start_empty_tiles s) (drop_target s) (tile_panes s)
    (next_entity s) (effects s) (tasks s).
Definition set_active (a : pane_id) (s : TG) : TG :=
  mkTG (center s) (in_center s) a (magnified_pane s) (title s) (predicted_sizes s)
    (spawning s) (worker_metadata s) (worker_panes s) (overflow_workers s)
    (next_overflow_id s) (auto_start_empty_tiles s) (drop_target s) (tile_panes s)
    (next_entity s) (effects s) (tasks s).
Definition set_magnified (m : option pane_id) (s : TG) : TG :=
  mkTG (center s) (in_center s) (active_pane s) m (title s) (predicted_sizes s)
    (spawning s) (worker_metadata s) (worker_panes s) (overflow_workers s)
    (next_overflow_id s) (auto_start_empty_tiles s) (drop_target s) (tile_panes s)
    (next_entity s) (effects s) (tasks s).
Definition set_title (t : option string) (s : TG) : TG :=
  mkTG (center s) (in_center s) (active_pane s) (magnified_pane s) t (predicted_sizes s)
    (spawning s) (worker_metadata s) (worker_panes s) (overflow_workers s)
    (next_overflow_id s) (auto_start_empty_tiles s) (drop_target s) (tile_panes s)
    (next_entity s) (effects s) (tasks s).
Definition set_predicted (f : gmap Z (f32 * f32) -> gmap Z (f32 * f32)) (s : TG) : TG :=
  mkTG (center s) (in_center s) (active_pane s) (magnified_pane s) (title s)
    (f (predicted_sizes s)) (spawning s) (worker_metadata s) (worker_panes s)
    (overflow_workers s) (next_overflow_id s) (auto_start_empty_tiles s) (drop_target s)
    (tile_panes s) (next_entity s) (effects s) (tasks s).
Definition set_spawning (f : gset Z -> gset Z) (s : TG) : TG :=
  mkTG (center s) (in_center s) (active_pane s) (magnified_pane s) (title s)
    (predicted_sizes s) (f (spawning s)) (worker_metadata s) (worker_panes s)
    (overflow_workers s) (next_overflow_id s) (auto_start_empty_tiles s) (drop_target s)
    (tile_panes s) (next_entity s) (effects s) (tasks s).
Definition set_metadata (f : gmap Z WorkerMetadata -> gmap Z WorkerMetadata) (s : TG) : TG :=
  mkTG (center s) (in_center s) (active_pane s) (magnified_pane s) (title s)
    (predicted_sizes s) (spawning s) (f (worker_metadata s)) (worker_panes s)
    (overflow_workers s) (next_overflow_id s) (auto_start_empty_tiles s) (drop_target s)
    (tile_panes s) (next_entity s) (effects s) (tasks s).
Definition set_worker_panes (f : gmap Z pane_id -> gmap Z pane_id) (s : TG) : TG :=
  mkTG (center s) (in_center s) (active_pane s) (magnified_pane s) (title s)
    (predicted_sizes s) (spawning s) (worker_metadata s) (f (worker_panes s))
    (overflow_workers s) (next_overflow_id s) (auto_start_empty_tiles s) (drop_target s)
    (tile_panes s) (next_entity s) (effects s) (tasks s).
Definition set_overflow (f : gmap Z OverflowWorker -> gmap Z OverflowWorker) (s : TG) : TG :=
  mkTG (center s) (in_center s) (active_pane s) (magnified_pane s) (title s)
    (predicted_sizes s) (spawning s) (worker_metadata s) (worker_panes s)
    (f (overflow_workers s)) (next_overflow_id s) (auto_start_empty_tiles s)
    (drop_target s) (tile_panes s) (next_entity s) (effects s) (tasks s).
Definition set_next_overflow (no : Z) (s : TG) : TG :=
  mkTG (center s) (in_center s) (active_pane s) (magnified_pane s) (title s)
    (predicted_sizes s) (spawning s) (worker_metadata s) (worker_panes s)
    (overflow_workers s) no (auto_start_empty_tiles s) (drop_target s) (tile_panes s)
    (next_entity s) (effects s) (tasks s).
Definition set_auto_start (au : bool) (s : TG) : TG :=
  mkTG (center s) (in_center s) (active_pane s) (magnified_pane s) (title s)
    (predicted_sizes s) (spawning s) (worker_metadata s) (worker_panes s)
    (overflow_workers s) (next_overflow_id s) au (drop_target s) (tile_panes s)
    (next_entity s) (effects s) (tasks s).
Definition set_drop_target (dt : option (pane_id * DropZone)) (s : TG) : TG :=
  mkTG (center s) (in_center s) (active_pane s) (magnified_pane s) (title s)
    (predicted_sizes s) (spawning s) (worker_metadata s) (worker_panes s)
    (overflow_workers s) (next_overflow_id s) (auto_start_empty_tiles s) dt
    (tile_panes s) (next_entity s) (effects s) (tasks s).
Definition set_tile_panes (f : gmap Z Pane -> gmap Z Pane) (s : TG) : TG :=
  mkTG (center s) (in_center s) (active_pane s) (magnified_pane s) (title s)
    (predicted_sizes s) (spawning s) (worker_metadata s) (worker_panes s)
    (overflow_workers s) (next_overflow_id s) (auto_start_empty_tiles s) (drop_target s)
    (f (tile_panes s)) (next_entity s) (effects s) (tasks s).
Definition set_next_entity (ne : Z) (s : TG) : TG :=
  mkTG (center s) (in_center s) (active_pane s) (magnified_pane s) (title s)
    (predicted_sizes s) (spawning s) (worker_metadata s) (worker_panes s)
    (overflow_workers s) (next_overflow_id s) (auto_start_empty_tiles s) (drop_target s)
    (tile_panes s) ne (effects s) (tasks s).
Definition add_effect (e : effect) (s : TG) : TG :=
  mkTG (center s) (in_center s) (active_pane s) (magnified_pane s) (title s)
    (predicted_sizes s) (spawning s) (worker_metadata s) (worker_panes s)
    (overflow_workers s) (next_overflow_id s) (auto_start_empty_tiles s) (drop_target s)
    (tile_panes s) (next_entity s) (effects s ++ [e]) (tasks s).
Definition add_task (k : task) (s : TG) : TG :=
  mkTG (center s) (in_center s) (active_pane s) (magnified_pane s) (title s)
    (predicted_sizes s) (spawning s) (worker_metadata s) (worker_panes s)
    (overflow_workers s) (next_overflow_id s) (auto_start_empty_tiles s) (drop_target s)
    (tile_panes s) (next_entity s) (effects s) (tasks s ++ [k]).
Definition set_tasks (ta : list task) (s : TG) : TG :=
  mkTG (center s) (in_center s) (active_pane s) (magnified_pane s) (title s)
    (predicted_sizes s) (spawning s) (worker_metadata s) (worker_panes s)
    (overflow_workers s) (next_overflow_id s) (auto_start_empty_tiles s) (drop_target s)
    (tile_panes s) (next_entity s) (effects s) ta.

(** ** Computations *)

Definition M (A : Type) : Type := TG -> res (A * TG).

Global Instance M_ret : MRet M := fun _ a s => Ret (a, s).
Global Instance M_bind : MBind M := fun _ _ f m s =>
  match m s with Ret (a, s') => f a s' | Panic => Panic end.

Definition get : M TG := fun s => Ret (s, s).
Definition modify (f : TG -> TG) : M unit := fun s => Ret (tt, f s).
Definition lift {A} (r : res A) : M A := fun s =>
  match r with Ret a => Ret (a, s) | Panic => Panic end.
Definition emit (e : ItemEvent) : M unit := modify (add_effect (EmitItem e)).
Definition emit_worker (e : WorkerEvent) : M unit := modify (add_effect (EmitWorker e)).

(** What the handlers read of the world outside the group. *)
Record TerminalBounds := mkTB {
  tb_width : f32; tb_height : f32; tb_cell_width : f32; tb_line_height : f32;
}.

Record Env := mkEnv {
  settings : TerminalWorkspaceSettings;
  terminal_bounds : Z -> TerminalBounds;
  terminal_directory : Z -> option string;
  foreground_process : Z -> option string;
  terminal_title : Z -> string;
  pause_process : Z -> bool;
  resume_process : Z -> bool;
  project_root : option string;
  cursor_position : pane_id -> option Point;
  control_cli_wrapper : option (string * string);
  group_id : Z;
  next_active : Pane -> nat;
}.

(** ** Worker commands *)

Definition squote : Ascii.ascii := Ascii.ascii_of_nat 39.
Definition backslash : Ascii.ascii := Ascii.ascii_of_nat 92.
Definition dquote : string := String (Ascii.ascii_of_nat 34) EmptyString.

(** [value.replace('\'', "'\\''")]. *)
Fixpoint escape_quotes (value : string) : string :=
  match value with
  | EmptyString => EmptyString
  | String c rest =>
      if decide (c = squote)
      then String squote (String backslash (String squote (String squote (escape_quotes rest))))
      else String c (escape_quotes rest)
  end.

Definition shell_quote (value : string) : string :=
  String squote (escape_quotes value ++ String squote EmptyString).

(** [worker_init_command_for], the variant of Unix; [wrapper] is what
    [control_cli_wrapper] found on disk. *)
Definition worker_init_command_for (wrapper : option (string * string))
    (group_id worker_id : Z) (cmd : string) (parent : option Z) : string :=
  let control_directory := default EmptyString (fst <$> wrapper) in
  let control_command := default EmptyString (snd <$> wrapper) in
  let path_prefix :=
    if decide (control_directory = EmptyString) then EmptyString
    else ("export PATH=" ++ shell_quote control_directory ++ ":$PATH; ")%string in
  (path_prefix ++ "export RDG_GROUP_ID=" ++ pretty group_id
   ++ " RDG_WORKER_ID=" ++ pretty worker_id
   ++ match parent with
      | None => EmptyString
      | Some id => (" RDG_PARENT_WORKER_ID=" ++ pretty id)%string
      end
   ++ " RDG_CONTROL_COMMAND="
   ++ shell_quote (if decide (control_command = EmptyString) then "rdg" else control_command)
   ++ "; rdg() { " ++ dquote ++ "$RDG_CONTROL_COMMAND" ++ dquote ++ " " ++ dquote ++ "$@"
   ++ dquote ++ "; }; if [ -n " ++ dquote ++ "$BASH_VERSION" ++ dquote
   ++ " ]; then export -f rdg; fi; " ++ cmd)%string.

(** ** The axis a tile sits directly in *)

(** [Iterator::find_map]. *)
Definition find_map {A B} (f : A -> option B) : list A -> option B :=
  fix go l := match l with
              | [] => None
              | a :: l' => match f a with Some b => Some b | None => go l' end
              end.

(** The list with the first element [f] accepts updated in place. *)
Definition update_first {A} (f : A -> option A) : list A -> option (list A) :=
  fix go l := match l with
              | [] => None
              | a :: l' => match f a with
                           | Some a' => Some (a' :: l')
                           | None => cons a <$> go l'
                           end
              end.

Fixpoint parent_axis (m : Member) (pane : pane_id) : option PaneAxis :=
  match m with
  | MPane _ => None
  | MAxis (mkAxis ax ms fl bb) =>
      if existsb (is_pane pane) ms then Some (mkAxis ax ms fl bb)
      else find_map (fun child => parent_axis child pane) ms
  end.

Definition index_in_axis (axis : PaneAxis) (pane : pane_id) : option nat :=
  position (is_pane pane) (pa_members axis).

(** The write through the axis [parent_axis] found: the same tree with that
    axis's flexes replaced. *)
Fixpoint set_parent_flexes (m : Member) (pane : pane_id) (flexes : list f32) : option Member :=
  match m with
  | MPane _ => None
  | MAxis (mkAxis ax ms fl bb) =>
      if existsb (is_pane pane) ms then Some (MAxis (mkAxis ax ms flexes bb))
      else (fun ms' => MAxis (mkAxis ax ms' fl bb))
           <$> update_first (fun child => set_parent_flexes child pane flexes) ms
  end.

Record AxisSnapshot := mkSnapshot { snap_flexes : list f32; snap_source_index : nat }.

(** The loop of [restore_sibling_sizes]: [previous] is what the enumerated
    iterator has left, paired with its indices. *)
Fixpoint next_sibling (source : nat) (previous : list (nat * f32))
    : option f32 * list (nat * f32) :=
  match previous with
  | [] => (None, [])
  | (i, flex) :: rest =>
      if decide (i = source) then next_sibling source rest else (Some flex, rest)
  end.

Fixpoint rebuild_flexes (n index source_index new_index snap_source : nat) (scale share : f32)
    (previous : list (nat * f32)) : list f32 :=
  match n with
  | O => []
  | S n' =>
      if (index =? source_index)%nat || (index =? new_index)%nat then
        share :: rebuild_flexes n' (S index) source_index new_index snap_source scale share
                   previous
      else
        let '(flex, rest) := next_sibling snap_source previous in
        default f_1 ((fun f => fmul f scale) <$> flex)
        :: rebuild_flexes n' (S index) source_index new_index snap_source scale share rest
  end.

Definition enumerate {A} (l : list A) : list (nat * A) := zip (seq 0 (length l)) l.

(** [restore_sibling_sizes], on the tree. *)
Definition restore_sibling_sizes (m : Member) (source new_pane : pane_id)
    (snapshot : option AxisSnapshot) : res Member :=
  match snapshot with
  | None => Ret m
  | Some snapshot =>
      match parent_axis m new_pane with
      | None => Ret m
      | Some axis =>
          match index_in_axis axis source, index_in_axis axis new_pane with
          | Some source_index, Some new_index =>
              let previous_len := length (snap_flexes snapshot) in
              if negb (length (pa_members axis) =? previous_len + 1)%nat
                 || (previous_len <=? snap_source_index snapshot)%nat
                 || (previous_len =? 0)%nat
              then Ret m
              else
                match index (snap_flexes snapshot) (snap_source_index snapshot) with
                | Panic => Panic
                | Ret source_flex =>
                    let scale := fdiv (of_nat (previous_len + 1)) (of_nat previous_len) in
                    let source_share := fdiv (fmul source_flex scale) f_2 in
                    let rebuilt :=
                      rebuild_flexes (length (pa_members axis)) 0 source_index new_index
                        (snap_source_index snapshot) scale source_share
                        (enumerate (snap_flexes snapshot)) in
                    Ret (default m (set_parent_flexes m new_pane rebuilt))
                end
          | _, _ => Ret m
          end
      end
  end.

(** ** Reading the group *)

Definition tiles (s : TG) : list pane_id := panes (center s).

(** [pane.read(cx)] of a live entity. *)
Definition read_pane (s : TG) (p : pane_id) : Pane := default empty_pane (tile_panes s !! p).
Definition items_len (s : TG) (p : pane_id) : nat := length (items (read_pane s p)).

(** [WeakEntity::upgrade]. *)
Definition upgrade (s : TG) (p : pane_id) : option pane_id :=
  if decide (is_Some (tile_panes s !! p)) then Some p else None.

Definition active_item (p : Pane) : option item := items p !! active_item_index p.

(** [tile_terminal] (tile.rs). *)
Definition tile_terminal (s : TG) (p : pane_id) : option Z :=
  match active_item (read_pane s p) with Some (ITerminal t) => Some t | _ => None end.

Definition is_active_pane (s : TG) (p : pane_id) : bool := bool_decide (active_pane s = p).

Definition is_magnified (s : TG) (p : pane_id) : bool :=
  match magnified_pane s ≫= upgrade s with
  | Some magnified => bool_decide (magnified = p)
  | None => false
  end.

Section Handlers.
Context (env : Env).

Definition cell_metrics (s : TG) : option (f32 * f32) :=
  head (omap (fun p =>
    match tile_terminal s p with
    | None => None
    | Some t =>
        let b := terminal_bounds env t in
        if flt f_0 (tb_cell_width b) && flt f_0 (tb_line_height b)
        then Some (tb_cell_width b, tb_line_height b) else None
    end) (tiles s)).

Definition tile_size (s : TG) (p : pane_id) : res (option (f32 * f32)) :=
  let painted :=
    match tile_terminal s p with
    | None => None
    | Some t =>
        let b := terminal_bounds env t in
        if flt f_0 (tb_width b) && flt f_0 (tb_height b)
        then Some (tb_width b, fadd (tb_height b) HEADER_HEIGHT) else None
    end in
  match painted with
  | Some sz => Ret (Some sz)
  | None =>
      match bounding_box_for_pane (center s) p with
      | Panic => Panic
      | Ret (Some b) => Ret (Some (width (PaneGroup.size b), height (PaneGroup.size b)))
      | Ret None => Ret (predicted_sizes s !! p)
      end
  end.

Definition metrics_for (s : TG) (p : pane_id) : res (option TileMetrics) :=
  match tile_size s p with
  | Panic => Panic
  | Ret None => Ret None
  | Ret (Some (w, h)) =>
      match cell_metrics s with
      | None => Ret None
      | Some (cw, lh) =>
          Ret (Some (mkMetrics w h cw lh (s_gap (settings env)) HEADER_HEIGHT))
      end
  end.

Definition at_visible_cap (s : TG) : bool :=
  (max_tiles (settings env) <=? length (tiles s))%nat.

Definition terminal_for_worker (s : TG) (worker_id : Z) : option Z :=
  match overflow_workers s !! worker_id with
  | Some worker => Some (terminal_view worker)
  | None => worker_panes s !! worker_id ≫= tile_terminal s
  end.

Definition worker_status (s : TG) (worker_id : Z) : option string :=
  status <$> worker_metadata s !! worker_id.

(** The first worker tracked on a pane, in the map's iteration order. *)
Definition worker_id_for_pane (s : TG) (p : pane_id) : option Z :=
  head (map fst (List.filter (fun kv => bool_decide (kv.2 = p)) (map_to_list (worker_panes s)))).

Definition worker_init_command (worker_id : Z) (cmd : string) (parent : option Z) : string :=
  worker_init_command_for (control_cli_wrapper env) (group_id env) worker_id cmd parent.

(** ** Tiles *)

(** [new_tile]: a fresh pane entity without items. *)
Definition new_tile : M pane_id :=
  s ← get;
  let p := next_entity s in
  _ ← modify (set_tile_panes (fun tp => <[p := empty_pane]> tp));
  _ ← modify (set_next_entity (p + 1));
  mret p.

(** [Pane::add_item] for an item the pane does not hold yet: inserted after the
    active one, activated, and announced. *)
Definition add_item (p : pane_id) (i : item) : M unit :=
  s ← get;
  let pane := read_pane s p in
  let at_ := Nat.min (active_item_index pane + 1) (length (items pane)) in
  let pane' := mkPane (take at_ (items pane) ++ i :: drop at_ (items pane)) at_ in
  _ ← modify (set_tile_panes (fun tp => <[p := pane']> tp));
  modify (add_effect (PaneAddItem p i)).

(** [Pane::take_active_item]: which item becomes active is the pane's own
    setting, [next_active]. *)
Definition take_active_item (p : pane_id) : M (option item) :=
  s ← get;
  let pane := read_pane s p in
  match active_item pane with
  | None => mret None
  | Some i =>
      let k := active_item_index pane in
      let next := next_active env pane in
      let pane' := mkPane (take k (items pane) ++ drop (S k) (items pane))
                     (if (k <? next)%nat then (next - 1)%nat else next) in
      _ ← modify (set_tile_panes (fun tp => <[p := pane']> tp));
      mret (Some i)
  end.

Definition set_active_pane (p : pane_id) : M unit :=
  _ ← modify (set_active p);
  modify (add_effect (FocusPane p)).

Definition spawn_terminal_into (p : pane_id) (working_directory init_command : option string)
    : M unit :=
  _ ← modify (set_spawning (fun sp => {[ p ]} ∪ sp));
  modify (add_task (TaskShell p working_directory init_command)).

Definition report_no_room : M unit := modify (add_effect ShowToast).

(** A call of [PaneGroup::split] on the group's tree. *)
Definition center_split (old new : pane_id) (d : SplitDirection) : M unit :=
  s ← get;
  c ← lift (PaneGroup.split (center s) old new d (in_center s));
  modify (set_center c).

(** A call of [PaneGroup::remove]: [false] is the error. *)
Definition center_remove (p : pane_id) : M bool :=
  s ← get;
  r ← lift (PaneGroup.remove (center s) p (in_center s));
  let '(ok, g, fl) := r in
  _ ← modify (set_center (g, fl));
  mret (match ok with Some _ => true | None => false end).

Definition predict_split_sizes (source new_pane : pane_id) (metrics : TileMetrics)
    (direction : SplitDirection) : M unit :=
  let half := half_size metrics direction in
  _ ← modify (set_predicted (fun m => <[source := half]> m));
  modify (set_predicted (fun m => <[new_pane := half]> m)).

Definition split_pane_with_command (source : pane_id) (direction : SplitDirection)
    (init_command : option string) (parent : option Z) : M (option pane_id) :=
  s ← get;
  if at_visible_cap s then _ ← report_no_room; mret None
  else
    metrics ← lift (metrics_for s source);
    let outcome :=
      match metrics with
      | Some m => resolve_split m direction (minimum (settings env)) (split_guard (settings env))
      | None => Split direction
      end in
    match outcome with
    | Refused => _ ← report_no_room; mret None
    | Split direction =>
        _ ← modify (set_magnified None);
        let working_directory := tile_terminal s source ≫= terminal_directory env in
        let snapshot :=
          match parent_axis (root (center s)) source with
          | None => None
          | Some axis => mkSnapshot (pa_flexes axis) <$> index_in_axis axis source
          end in
        new_pane ← new_tile;
        _ ← center_split source new_pane direction;
        s ← get;
        m ← lift (restore_sibling_sizes (root (center s)) source new_pane snapshot);
        _ ← modify (set_center (set_root (center s) m, in_center s));
        _ ← emit UpdateTab;
        _ ← match metrics with
            | Some metrics => predict_split_sizes source new_pane metrics direction
            | None => mret tt
            end;
        _ ← set_active_pane new_pane;
        let init := (fun c => worker_init_command new_pane c parent) <$> init_command in
        _ ← spawn_terminal_into new_pane working_directory init;
        mret (Some new_pane)
    end.

Definition split_pane (source : pane_id) (direction : SplitDirection) : M unit :=
  _ ← split_pane_with_command source direction None None;
  mret tt.

Definition split (direction : SplitDirection) : M unit :=
  s ← get;
  split_pane (active_pane s) direction.

Definition split_tile (p : pane_id) : M unit := split_pane p Right.

Definition find_in_direction (s : TG) (direction : SplitDirection) : res (option pane_id) :=
  find_pane_in_direction (center s) (active_pane s) (cursor_position env (active_pane s))
    direction.

Definition focus_in_direction (direction : SplitDirection) : M unit :=
  s ← get;
  target ← lift (find_in_direction s direction);
  match target with Some p => set_active_pane p | None => mret tt end.

Definition focus_next : M unit :=
  s ← get;
  match position (fun p => bool_decide (p = active_pane s)) (tiles s) with
  | None => mret tt
  | Some i =>
      next ← lift (index (tiles s) ((i + 1) mod length (tiles s))%nat);
      set_active_pane next
  end.

Definition swap_in_direction (direction : SplitDirection) : M unit :=
  s ← get;
  target ← lift (find_in_direction s direction);
  match target with
  | None => mret tt
  | Some target =>
      let active := active_pane s in
      _ ← modify (set_center (PaneGroup.swap (center s) active target (in_center s)));
      _ ← set_active_pane active;
      emit UpdateTab
  end.

Definition equalize : M unit :=
  s ← get;
  _ ← modify (set_center (reset_pane_sizes (center s) (in_center s)));
  emit UpdateTab.

Definition toggle_magnify (p : pane_id) : M unit :=
  s ← get;
  _ ← modify (set_magnified (if is_magnified s p then None else Some p));
  _ ← set_active_pane p;
  emit UpdateTab.

(** [close_tile]: the pane closes its items and announces its removal later. *)
Definition close_tile (p : pane_id) : M unit := modify (add_effect (CloseAllItems p)).

Definition spawn_if_empty (p : pane_id) : M unit :=
  s ← get;
  if (0 <? items_len s p)%nat || bool_decide (p ∈ spawning s) then mret tt
  else spawn_terminal_into p (project_root env) None.

(** [remove_tile]. *)
Definition remove_tile (p : pane_id) (focus_on_pane : option pane_id) : M unit :=
  s ← get;
  if (length (tiles s) =? 1)%nat then emit CloseItem
  else
    _ ← (if is_magnified s p then modify (set_magnified None) else mret tt);
    _ ← modify (set_predicted (delete p));
    _ ← modify (set_spawning (fun sp => sp ∖ {[ p ]}));
    let worker_id := worker_id_for_pane s p in
    _ ← modify (set_worker_panes (delete p));
    _ ← modify (set_metadata (delete p));
    _ ← match worker_id with
        | None => mret tt
        | Some worker_id =>
            _ ← modify (set_worker_panes (delete worker_id));
            s ← get;
            let removed := worker_metadata s !! worker_id in
            _ ← modify (set_metadata (delete worker_id));
            match removed with
            | Some _ => emit_worker (Closed worker_id)
            | None => mret tt
            end
        end;
    ok ← center_remove p;
    _ ← (if (ok : bool) then
           s ← get;
           first ← lift (first_pane (root (center s)));
           let next := match focus_on_pane with
                       | Some c => if decide (c ∈ tiles s) then c else first
                       | None => first
                       end in
           set_active_pane next
         else mret tt);
    emit UpdateTab.

Definition remove_tile_from_tree (p : pane_id) : M unit :=
  s ← get;
  _ ← (if is_magnified s p then modify (set_magnified None) else mret tt);
  _ ← modify (set_predicted (delete p));
  _ ← modify (set_spawning (fun sp => sp ∖ {[ p ]}));
  _ ← modify (set_worker_panes (filter (fun kv => kv.2 <> p)));
  ok ← center_remove p;
  _ ← (if (ok : bool) then
         s ← get;
         next ← lift (first_pane (root (center s)));
         set_active_pane next
       else mret tt);
  emit UpdateTab.

Definition enforce_single_terminal (p : pane_id) : M unit :=
  s ← get;
  if (items_len s p <=? 1)%nat then mret tt
  else
    surplus ← take_active_item p;
    match surplus with
    | None => mret tt
    | Some surplus =>
        new_pane ← new_tile;
        _ ← add_item new_pane surplus;
        _ ← center_split p new_pane Right;
        _ ← set_active_pane new_pane;
        emit UpdateTab
    end.

(** The pane events the group subscribes to; an item announcing itself to the
    workspace is outside the group. *)
Inductive pane_event :=
| PFocus
| PRemove (focus_on_pane : option pane_id)
| PSplit (direction : SplitDirection)
| PAddItem
| POther.

Definition handle_pane_event (p : pane_id) (event : pane_event) : M unit :=
  match event with
  | PFocus =>
      _ ← modify (set_active p);
      s ← get;
      _ ← match magnified_pane s with
          | Some _ => if is_magnified s p then mret tt else modify (set_magnified (Some p))
          | None => mret tt
          end;
      if auto_start_empty_tiles s then spawn_if_empty p else mret tt
  | PRemove focus_on_pane => remove_tile p focus_on_pane
  | PSplit direction => split_pane p direction
  | PAddItem => enforce_single_terminal p
  | POther => mret tt
  end.

(** ** Workers *)

Definition starting_meta (parent : option Z) (cmd : string) : WorkerMetadata :=
  mkMeta parent cmd "starting" None.

Definition start_terminal_in_pane (p : pane_id) (cmd : option string) : M unit :=
  s ← get;
  if (0 <? items_len s p)%nat || bool_decide (p ∈ spawning s) then mret tt
  else
    init ← match cmd with
           | None => mret None
           | Some cmd =>
               _ ← modify (set_metadata (fun m => <[p := starting_meta None cmd]> m));
               _ ← modify (set_worker_panes (fun m => <[p := p]> m));
               _ ← emit_worker (Spawned p None);
               mret (Some (worker_init_command p cmd None))
           end;
    spawn_terminal_into p (project_root env) init.

Definition spawn_overflow_worker (parent : option Z) (cmd : string) : M (option Z) :=
  s ← get;
  let worker_id := next_overflow_id s in
  _ ← modify (set_next_overflow (worker_id + 1));
  let init := worker_init_command worker_id cmd parent in
  _ ← modify (add_task (TaskOverflow worker_id parent cmd init));
  mret (Some worker_id).

(** The end of [spawn_overflow_worker]'s task, with the terminal created, or
    with an error. *)
Definition overflow_started (worker_id : Z) (parent : option Z) (cmd : string)
    (terminal : option Z) : M unit :=
  match terminal with
  | Some t =>
      s ← get;
      let meta := default (starting_meta parent cmd) (worker_metadata s !! worker_id) in
      _ ← modify (set_metadata (fun m => <[worker_id := meta]> m));
      _ ← modify (set_overflow (fun m => <[worker_id := mkOverflow t meta]> m));
      emit_worker (Spawned worker_id parent)
  | None =>
      _ ← modify (set_metadata (alter (fun m => set_status m "failed") worker_id));
      emit_worker (Updated worker_id "failed" None)
  end.

(** The end of [spawn_terminal_into]'s task: the tile's mark is cleared however
    it ends, and on success the terminal becomes the tile's item. *)
Definition shell_started (p : pane_id) (terminal : option Z) : M unit :=
  s ← get;
  _ ← match terminal with
      | Some t => if decide (is_Some (tile_panes s !! p)) then add_item p (ITerminal t)
                  else mret tt
      | None => mret tt
      end;
  modify (set_spawning (fun sp => sp ∖ {[ p ]})).

Definition register_worker (p : pane_id) (parent : option Z) (cmd : string) : M unit :=
  _ ← modify (set_metadata (fun m => <[p := starting_meta parent cmd]> m));
  _ ← modify (set_worker_panes (fun m => <[p := p]> m));
  emit_worker (Spawned p parent).

Definition spawn_agent_beside (p : pane_id) (cmd : string) : M unit :=
  s ← get;
  if at_visible_cap s then _ ← spawn_overflow_worker None cmd; mret tt
  else
    r ← split_pane_with_command p Right (Some cmd) None;
    match r with
    | Some new_pane => register_worker new_pane None cmd
    | None => mret tt
    end.

Definition control_spawn (source_id parent : option Z) (cmd : string) : M (option Z) :=
  s ← get;
  if at_visible_cap s then spawn_overflow_worker parent cmd
  else
    let source := match source_id with
                  | Some id => if decide (id ∈ tiles s) then id else active_pane s
                  | None => active_pane s
                  end in
    r ← split_pane_with_command source Right (Some cmd) parent;
    match r with
    | Some new_pane => _ ← register_worker new_pane parent cmd; mret (Some new_pane)
    | None => mret None
    end.

Definition control_send (worker_id : Z) (text : string) : M bool :=
  s ← get;
  match terminal_for_worker s worker_id with
  | None => mret false
  | Some t => _ ← modify (add_effect (TerminalInput t text)); mret true
  end.

Definition set_worker_status (worker_id : Z) (st : string) : M unit :=
  modify (set_metadata (alter (fun m => set_status m st) worker_id)).

Definition control_pause (worker_id : Z) : M bool :=
  s ← get;
  match terminal_for_worker s worker_id with
  | None => mret false
  | Some t =>
      let paused := pause_process env t in
      _ ← (if paused then set_worker_status worker_id "paused" else mret tt);
      mret paused
  end.

Definition control_resume (worker_id : Z) : M bool :=
  s ← get;
  match terminal_for_worker s worker_id with
  | None => mret false
  | Some t =>
      let resumed := resume_process env t in
      _ ← (if resumed then set_worker_status worker_id "working" else mret tt);
      mret resumed
  end.

Definition control_close (worker_id : Z) : M bool :=
  s ← get;
  match overflow_workers s !! worker_id with
  | Some _ =>
      _ ← modify (set_overflow (delete worker_id));
      _ ← modify (set_metadata (delete worker_id));
      _ ← modify (set_worker_panes (delete worker_id));
      _ ← emit_worker (Closed worker_id);
      mret true
  | None =>
      match worker_panes s !! worker_id with
      | None => mret false
      | Some p =>
          _ ← modify (set_metadata (delete worker_id));
          _ ← modify (set_worker_panes (delete worker_id));
          _ ← emit_worker (Closed worker_id);
          _ ← close_tile p;
          mret true
      end
  end.

(** The workers whose recorded parent is [worker_id], in the map's order. *)
Definition children_of (meta : gmap Z WorkerMetadata) (worker_id : Z) : list Z :=
  map fst (List.filter (fun kv => bool_decide (parent_id kv.2 = Some worker_id))
             (map_to_list meta)).

(** The search of [control_close_subtree]; the head of [pending] is the top of
    the source's stack.  One unit of [fuel] per iteration. *)
Fixpoint subtree_loop (fuel : nat) (meta : gmap Z WorkerMetadata) (pending : list Z)
    (worker_ids : gset Z) : option (gset Z) :=
  match pending with
  | [] => Some worker_ids
  | worker_id :: rest =>
      match fuel with
      | O => None
      | S fuel' =>
          if decide (worker_id ∈ worker_ids) then subtree_loop fuel' meta rest worker_ids
          else subtree_loop fuel' meta (rev (children_of meta worker_id) ++ rest)
                 ({[ worker_id ]} ∪ worker_ids)
      end
  end.

Fixpoint close_all (worker_ids : list Z) (closed : bool) : M bool :=
  match worker_ids with
  | [] => mret closed
  | worker_id :: rest =>
      c ← control_close worker_id;
      close_all rest (closed || c)
  end.

(** [control_close_subtree]: every worker is pushed at most once for its parent,
    so one more iteration than there are workers is enough. *)
Definition control_close_subtree (root_worker_id : Z) : M bool :=
  s ← get;
  match subtree_loop (S (length (map_to_list (worker_metadata s)))) (worker_metadata s)
          [root_worker_id] ∅ with
  | Some worker_ids => close_all (elements worker_ids) false
  | None => fun _ => Panic
  end.

Definition control_restart (worker_id : Z) : M bool :=
  s ← get;
  match worker_metadata s !! worker_id with
  | None => mret false
  | Some meta =>
      _ ← modify (set_metadata (delete worker_id));
      let parent := parent_id meta in
      let cmd := command meta in
      match overflow_workers s !! worker_id with
      | Some _ =>
          _ ← modify (set_overflow (delete worker_id));
          _ ← modify (set_worker_panes (delete worker_id));
          _ ← emit_worker (Closed worker_id);
          _ ← control_spawn parent parent cmd;
          mret true
      | None =>
          match worker_panes s !! worker_id with
          | None => mret false
          | Some p =>
              _ ← close_tile p;
              _ ← emit_worker (Closed worker_id);
              _ ← modify (add_task (TaskRestart parent cmd));
              mret true
          end
      end
  end.

Definition control_report (worker_id : Z) (st : string) (sm : option string) : M bool :=
  s ← get;
  match worker_metadata s !! worker_id with
  | None => mret false
  | Some meta =>
      _ ← modify (set_metadata (fun m =>
            <[worker_id := mkMeta (parent_id meta) (command meta) st sm]> m));
      _ ← emit_worker (Updated worker_id st sm);
      mret true
  end.

(** [adopt_terminal]. *)
Definition adopt_terminal (i : item) : M unit :=
  s ← get;
  _ ← modify (set_drop_target None);
  let target := match drop_target s with
                | Some (p, _) => if decide (p ∈ tiles s) then p else active_pane s
                | None => active_pane s
                end in
  metrics ← lift (metrics_for s target);
  let direction := match metrics with
                   | Some m =>
                       match resolve_split m Right (minimum (settings env))
                               (split_guard (settings env)) with
                       | Split adapted => adapted
                       | Refused => Right
                       end
                   | None => Right
                   end in
  new_pane ← new_tile;
  _ ← add_item new_pane i;
  _ ← center_split target new_pane direction;
  _ ← set_active_pane new_pane;
  emit UpdateTab.

(** [handle_drop] of a tab holding [i], dragged from pane [source]. *)
Definition handle_drop (source : pane_id) (i : item) : M bool :=
  match i with
  | IOther _ => mret false
  | ITerminal _ =>
      s ← get;
      if decide (source ∈ tiles s) then mret false
      else
        metrics ← lift (metrics_for s (active_pane s));
        match metrics with
        | Some m =>
            if decide (resolve_split m Right (minimum (settings env))
                         (split_guard (settings env)) = Refused)
            then mret false
            else _ ← modify (add_task (TaskAdopt i)); mret true
        | None => _ ← modify (add_task (TaskAdopt i)); mret true
        end
  end.

Definition promote_worker (worker_id : Z) : M bool :=
  s ← get;
  if at_visible_cap s then mret false
  else
    match overflow_workers s !! worker_id with
    | None => mret false
    | Some worker =>
        _ ← modify (set_overflow (delete worker_id));
        p ← new_tile;
        _ ← center_split (active_pane s) p Right;
        _ ← add_item p (ITerminal (terminal_view worker));
        _ ← modify (set_worker_panes (fun m => <[worker_id := p]> m));
        _ ← modify (set_metadata (fun m => <[worker_id := metadata worker]> m));
        _ ← emit_worker (Updated worker_id "working" None);
        _ ← set_active_pane p;
        mret true
    end.

Definition demote_worker (worker_id : Z) : M bool :=
  s ← get;
  if (length (tiles s) <=? 1)%nat then mret false
  else
    match worker_panes s !! worker_id with
    | None => mret false
    | Some p =>
        match tile_terminal s p with
        | None => mret false
        | Some t =>
            let meta := default (mkMeta None EmptyString "working" None)
                          (worker_metadata s !! worker_id) in
            _ ← modify (set_worker_panes (delete worker_id));
            _ ← modify (set_metadata (delete p));
            _ ← modify (set_overflow (fun m => <[worker_id := mkOverflow t meta]> m));
            _ ← modify (set_metadata (fun m => <[worker_id := meta]> m));
            _ ← remove_tile_from_tree p;
            _ ← emit_worker (Updated worker_id "working" None);
            mret true
        end
    end.

Definition control_demote (worker_id : Z) : M bool := demote_worker worker_id.

Definition control_focus (worker_id : Z) : M bool :=
  s ← get;
  match overflow_workers s !! worker_id with
  | Some _ => promote_worker worker_id
  | None =>
      match worker_panes s !! worker_id with
      | None => mret false
      | Some p => _ ← set_active_pane p; mret true
      end
  end.

(** ** Listings *)

Definition tile_title_cwd (t : option Z) : string * option string :=
  match t with
  | Some t => (default (terminal_title env t) (foreground_process env t),
               terminal_directory env t)
  | None => ("Terminal"%string, None)
  end.

Definition control_list (s : TG) : list WorkerInfo :=
  let worker_listings :=
    map (fun kv =>
      let meta := worker_metadata s !! kv.1 in
      let '(ttl, cwd) := tile_title_cwd (tile_terminal s kv.2) in
      mkInfo kv.1 (meta ≫= parent_id) ttl cwd
        (default "unmanaged"%string (status <$> meta)) (meta ≫= summary))
      (map_to_list (worker_panes s)) in
  let bare_panes :=
    map (fun p =>
      let '(ttl, cwd) := tile_title_cwd (tile_terminal s p) in
      mkInfo p None ttl cwd "unmanaged" None)
      (List.filter (fun p => negb (existsb (fun kv => bool_decide (kv.2 = p))
                                     (map_to_list (worker_panes s)))) (tiles s)) in
  let overflow :=
    map (fun kv =>
      let meta := metadata kv.2 in
      let '(ttl, cwd) :=
        match foreground_process env (terminal_view kv.2) with
        | Some name => (name, terminal_directory env (terminal_view kv.2))
        | None => ("overflow"%string, None)
        end in
      mkInfo kv.1 (parent_id meta) ttl cwd (status meta) (summary meta))
      (map_to_list (overflow_workers s)) in
  worker_listings ++ bare_panes ++ overflow.

(** The loop of [control_tree]; the head of [pending] is the top of the
    source's stack.  One unit of [fuel] per iteration. *)
Fixpoint tree_loop (fuel : nat) (worker_by_id : gmap Z WorkerInfo)
    (children : gmap Z (list Z)) (pending : list (Z * nat))
    : option (list (WorkerInfo * nat)) :=
  match pending with
  | [] => Some []
  | (worker_id, depth) :: rest =>
      match fuel with
      | O => None
      | S fuel' =>
          match worker_by_id !! worker_id with
          | None => tree_loop fuel' worker_by_id children rest
          | Some worker =>
              cons (worker, depth) <$>
              tree_loop fuel' (delete worker_id worker_by_id) children
                (map (fun id => (id, S depth)) (default [] (children !! worker_id)) ++ rest)
          end
      end
  end.

(** The grouping loop: the known parent of each worker, or a root. *)
Definition known_parent (worker_by_id : gmap Z WorkerInfo) (worker : WorkerInfo) : option Z :=
  match wi_parent_id worker with
  | Some parent => if decide (is_Some (worker_by_id !! parent)) then Some parent else None
  | None => None
  end.

Fixpoint group_workers (worker_by_id : gmap Z WorkerInfo) (worker_ids : list Z)
    (children : gmap Z (list Z)) (roots : list Z) : gmap Z (list Z) * list Z :=
  match worker_ids with
  | [] => (children, roots)
  | worker_id :: rest =>
      match worker_by_id !! worker_id with
      | None => group_workers worker_by_id rest children roots
      | Some worker =>
          match known_parent worker_by_id worker with
          | Some parent =>
              group_workers worker_by_id rest
                (<[parent := default [] (children !! parent) ++ [worker_id]]> children) roots
          | None => group_workers worker_by_id rest children (roots ++ [worker_id])
          end
      end
  end.

(** [control_tree] on a listing; the keys are visited in the map's order. *)
Definition tree_of (workers : list WorkerInfo) : option (list (WorkerInfo * nat)) :=
  let worker_by_id := fold_left (fun m w => <[wi_id w := w]> m) workers ∅ in
  let worker_ids := map fst (map_to_list worker_by_id) in
  let '(children, roots) := group_workers worker_by_id worker_ids ∅ [] in
  tree_loop (length worker_ids) worker_by_id children (map (fun id => (id, 0%nat)) roots).

Definition control_tree (s : TG) : option (list (WorkerInfo * nat)) := tree_of (control_list s).

(** [tab_content_text]. *)
Definition is_active_status (st : string) : bool :=
  bool_decide (st = "starting"%string) || bool_decide (st = "working"%string).

Definition tab_content_text (s : TG) : string :=
  let ttl := match title s with
             | Some t => t
             | None =>
                 let count := length (tiles s) in
                 if (count <=? 1)%nat then "Terminal"%string
                 else ("Terminal (" ++ pretty count ++ ")")%string
             end in
  let active_workers :=
    length (List.filter (fun kv => is_active_status (status kv.2))
              (map_to_list (worker_metadata s))) in
  if (active_workers =? 0)%nat then ttl
  else (ttl ++ " · " ++ pretty active_workers ++ " active")%string.

(** ** Storing and restoring the layout *)

Definition index_of (l : list pane_id) (target : pane_id) : option nat :=
  position (fun p => bool_decide (p = target)) l.

(** The layout [serialize] writes. *)
Definition layout_of (s : TG) : SerializedTerminalGroup :=
  mkSGroup LAYOUT_VERSION (serialize_tree (root (center s)))
    (index_of (tiles s) (active_pane s))
    ((magnified_pane s ≫= upgrade s) ≫= index_of (tiles s))
    (title s)
    (map (fun kv => mkSWorker (command (metadata kv.2)) (parent_id (metadata kv.2)))
       (map_to_list (overflow_workers s))).

Definition should_serialize (e : ItemEvent) : bool :=
  match e with UpdateTab => true | CloseItem => false end.

(** The children of an axis built in order, the tiles created threaded
    through. *)
Definition build_children
    (build : SerializedTileTree -> list pane_id -> M (Member * list pane_id)) :=
  fix go (l : list SerializedTileTree) (created : list pane_id)
      : M (list Member * list pane_id) :=
    match l with
    | [] => mret ([], created)
    | child :: l' =>
        r ← build child created;
        r' ← go l' r.2;
        mret (r.1 :: r'.1, r'.2)
    end.

(** [build_tree]: the member, and the tiles created, appended in reading
    order. *)
Fixpoint build_tree (node : SerializedTileTree) (created : list pane_id)
    : M (Member * list pane_id) :=
  match node with
  | STTile _ => p ← new_tile; mret (MPane p, created ++ [p])
  | STAxis ax flexes children =>
      r ← build_children build_tree children created;
      mret (MAxis (axis_load (axis_of_serialized ax) r.1 (Some flexes)), r.2)
  end.

Fixpoint spawn_all_overflow (l : list SerializedWorker) : M unit :=
  match l with
  | [] => mret tt
  | w :: l' => _ ← spawn_overflow_worker (sw_parent_id w) (sw_command w); spawn_all_overflow l'
  end.

Definition restore_layout (layout : SerializedTerminalGroup) : M unit :=
  r ← build_tree (sg_root layout) [];
  let '(m, created) := r in
  match head created with
  | None => mret tt
  | Some first =>
      _ ← modify (fun s => set_center (with_root m, in_center s) s);
      let magnified := magnified_tile layout ≫= (fun i => created !! i) in
      let focused := default (default first (focused_tile layout ≫= (fun i => created !! i)))
                       magnified in
      _ ← modify (set_active focused);
      _ ← modify (set_magnified magnified);
      _ ← modify (set_auto_start true);
      _ ← spawn_terminal_into focused (project_root env) None;
      spawn_all_overflow (sg_overflow_workers layout)
  end.

(** The tile [spawn_remaining_tiles] starts next. *)
Definition next_tile_to_start (s : TG) (failed : gset Z) : option pane_id :=
  head (List.filter (fun p => (items_len s p =? 0)%nat
                              && negb (bool_decide (p ∈ spawning s))
                              && negb (bool_decide (p ∈ failed))) (tiles s)).

(** [build]: the group as created, before any layout is restored. *)
Definition build_group (first_entity : Z) : TG :=
  mkTG (group_new first_entity) ∅ first_entity None None ∅ ∅ ∅ ∅ ∅ OVERFLOW_ID_BASE false None
    {[ first_entity := empty_pane ]} (first_entity + 1) [] [].

(** [deserialize]. *)
Definition deserialize (layout : option SerializedTerminalGroup) : M unit :=
  match layout with
  | None => mret tt
  | Some layout =>
      _ ← modify (set_title (sg_title layout));
      restore_layout layout
  end.

(** ** Drag and drop of tiles *)

Fixpoint boxes_of (g : PaneGroup) (l : list pane_id) : res (list Bounds) :=
  match l with
  | [] => Ret []
  | p :: l' =>
      match bounding_box_for_pane g p, boxes_of g l' with
      | Ret (Some b), Ret bs => Ret (b :: bs)
      | Ret None, Ret bs => Ret bs
      | _, _ => Panic
      end
  end.

Definition group_bounds (s : TG) : res (option Bounds) :=
  match boxes_of (center s) (tiles s) with
  | Panic => Panic
  | Ret [] => Ret None
  | Ret (b :: bs) => Ret (Some (fold_left PaneGroup.union bs b))
  end.

Definition resolve_drop_target (s : TG) (position : Point) : res (option (pane_id * DropZone)) :=
  match group_bounds s with
  | Panic => Panic
  | Ret None => Ret None
  | Ret (Some group) =>
      match pane_at_pixel_position (center s) position with
      | Panic => Panic
      | Ret None => Ret None
      | Ret (Some p) =>
          match bounding_box_for_pane (center s) p with
          | Panic => Panic
          | Ret None => Ret None
          | Ret (Some tile) =>
              Ret (Some (p, zone_at (x position) (y position) (to_rect tile) (to_rect group)))
          end
      end
  end.

(** The drag-move and drop listeners of [render]. *)
Definition on_drag_move (position : Point) : M unit :=
  s ← get;
  target ← lift (resolve_drop_target s position);
  modify (set_drop_target target).

Definition is_outer (z : DropZone) : bool := match z with Outer _ => true | _ => false end.

Definition apply_drop (dragged target : pane_id) (zone : DropZone) : M unit :=
  if bool_decide (dragged = target) && negb (is_outer zone) then mret tt
  else
    let finish : M unit := _ ← set_active_pane dragged; emit UpdateTab in
    match zone with
    | Swap =>
        s ← get;
        _ ← modify (set_center (PaneGroup.swap (center s) dragged target (in_center s)));
        finish
    | Edge direction =>
        s ← get;
        metrics ← lift (metrics_for s target);
        let direction :=
          match metrics with
          | Some m =>
              match resolve_split m direction (minimum (settings env))
                      (split_guard (settings env)) with
              | Split adapted => adapted
              | Refused => direction
              end
          | None => direction
          end in
        ok ← center_remove dragged;
        if (ok : bool) then _ ← center_split target dragged direction; finish else mret tt
    | Outer direction =>
        s ← get;
        r ← lift (move_to_border (center s) dragged direction (in_center s));
        let '(ok, g, fl) := r in
        _ ← modify (set_center (g, fl));
        match ok with Some _ => finish | None => mret tt end
    end.

Definition on_drop (dragged : pane_id) : M unit :=
  s ← get;
  _ ← modify (set_drop_target None);
  match drop_target s with
  | None => mret tt
  | Some (target, zone) => apply_drop dragged target zone
  end.

End Handlers.
