(* ===== verification/GroupInvariant.v ===== *)
(** * The terminal group's invariant

    The well-formedness invariant of [TerminalGroup] and its preservation by
    every handler, with the bound on the number of tiles. *)

From S2P Require Import Prelude F32 PaneGroup SplitGuard DropZone Persistence.
From S2P Require Import TerminalGroup.
From stdpp Require Import strings gmap.
Local Open Scope Z_scope.

(** ** Reasoning about computations *)

(** [m] returns from [s], with a result and a state that satisfy [Q]. *)
Definition ok {A} (m : M A) (s : TG) (Q : A -> TG -> Prop) : Prop :=
  exists a s', m s = Ret (a, s') /\ Q a s'.

Lemma ok_ret {A} (a : A) s (Q : A -> TG -> Prop) : Q a s -> ok (mret a) s Q.
Proof. by exists a, s. Qed.

Lemma ok_bind {A B} (m : M A) (k : A -> M B) s (Q : B -> TG -> Prop) :
  ok m s (fun a s1 => ok (k a) s1 Q) -> ok (m ≫= k) s Q.
Proof.
  intros (a & s1 & E & b & s2 & E2 & HQ). exists b, s2. split; [|done].
  unfold mbind, M_bind. by rewrite E.
Qed.

Lemma ok_run {A} (m : M A) (a : A) s s' (Q : A -> TG -> Prop) :
  m s = Ret (a, s') -> Q a s' -> ok m s Q.
Proof. intros ? ?. by exists a, s'. Qed.

Lemma ok_get {B} (k : TG -> M B) s (Q : B -> TG -> Prop) :
  ok (k s) s Q -> ok (get ≫= k) s Q.
Proof. intros H. apply ok_bind. by exists s, s. Qed.

Lemma ok_modify (f : TG -> TG) s (Q : unit -> TG -> Prop) : Q tt (f s) -> ok (modify f) s Q.
Proof. by exists tt, (f s). Qed.

Lemma ok_modify_bind {B} (f : TG -> TG) (k : unit -> M B) s (Q : B -> TG -> Prop) :
  ok (k tt) (f s) Q -> ok (modify f ≫= k) s Q.
Proof. intros H. apply ok_bind. by apply ok_modify. Qed.

Lemma ok_lift {A} (r : res A) (a : A) s (Q : A -> TG -> Prop) :
  r = Ret a -> Q a s -> ok (lift r) s Q.
Proof. intros -> H. by exists a, s. Qed.

Lemma ok_weaken {A} (m : M A) s (Q Q' : A -> TG -> Prop) :
  ok m s Q -> (forall a s', Q a s' -> Q' a s') -> ok m s Q'.
Proof. intros (a & s' & E & HQ) H. exists a, s'. auto. Qed.

Lemma ok_ret_bind {A B} (a : A) (k : A -> M B) s (Q : B -> TG -> Prop) :
  ok (k a) s Q -> ok (mret a ≫= k) s Q.
Proof. intros H. apply ok_bind. by apply ok_ret. Qed.

Lemma run_get {B} (k : TG -> M B) s : (get ≫= k) s = k s s.
Proof. done. Qed.

Lemma run_lift {A B} (r : res A) (a : A) (k : A -> M B) s :
  r = Ret a -> (lift r ≫= k) s = k a s.
Proof. by intros ->. Qed.

(** Reduces the fields of an updated state. *)
Ltac tg_cbn :=
  cbn [center in_center active_pane magnified_pane title predicted_sizes spawning
       worker_metadata worker_panes overflow_workers next_overflow_id
       auto_start_empty_tiles drop_target tile_panes next_entity effects tasks
       set_center set_active set_magnified set_title set_predicted set_spawning
       set_metadata set_worker_panes set_overflow set_next_overflow set_auto_start
       set_drop_target set_tile_panes set_next_entity add_effect add_task set_tasks
       fst snd] in *.

(** ** The invariant *)

(** Ids of the overflow workers whose terminal is still starting. *)
Definition pending_ids (ts : list task) : list Z :=
  omap (fun k => match k with TaskOverflow w _ _ _ => Some w | _ => None end) ts.

Record inv_core (ex : option Z) (c : PaneGroup) (a : pane_id) (tp : gmap Z Pane) (ne : Z)
    (wp : gmap Z pane_id) (ow : gmap Z OverflowWorker) (no : Z) (ts : list task) : Prop := {
  ic_group : group_ok c;
  ic_active : a ∈ panes c;
  ic_live : forall p, p ∈ panes c -> is_Some (tp !! p);
  ic_fresh : forall p, is_Some (tp !! p) -> p < ne;
  ic_base : ne <= OVERFLOW_ID_BASE /\ OVERFLOW_ID_BASE <= no;
  ic_worker_pane : forall w p, wp !! w = Some p -> p ∈ panes c;
  ic_worker_inj : forall w1 w2 p, wp !! w1 = Some p -> wp !! w2 = Some p -> w1 = w2;
  ic_ids : forall w, is_Some (wp !! w) \/ is_Some (ow !! w) ->
    w < ne \/ OVERFLOW_ID_BASE <= w < no;
  ic_disjoint : forall w, is_Some (ow !! w) -> wp !! w = None;
  ic_pending_nodup : NoDup (pending_ids ts);
  ic_pending : forall w, w ∈ pending_ids ts ->
    OVERFLOW_ID_BASE <= w < no /\ wp !! w = None /\ ow !! w = None;
  ic_overflow_tile : forall w, is_Some (ow !! w) -> w ∈ panes c -> ex = Some w;
  ic_own_tile : forall w p, wp !! w = Some p -> w ∈ panes c -> w = p;
}.

(** Every tile of the tree is live and the tree well formed, the focused tile is
    one of them, a worker's pane is a tile no other worker has, no worker is on
    the grid and in overflow at once, and no overflow worker has the id of a
    tile, [ex] apart. *)
Definition InvX (ex : option Z) (s : TG) : Prop :=
  inv_core ex (center s) (active_pane s) (tile_panes s) (next_entity s) (worker_panes s)
    (overflow_workers s) (next_overflow_id s) (tasks s).

Definition Inv (s : TG) : Prop := InvX None s.

(** The fields of the invariant are those of the state [HI] is about. *)
Ltac inv_frame HI := unfold Inv, InvX; tg_cbn; exact HI.

Section core.
Context {ex : option Z} {c : PaneGroup} {a : pane_id} {tp : gmap Z Pane} {ne : Z}.
Context {wp : gmap Z pane_id} {ow : gmap Z OverflowWorker} {no : Z} {ts : list task}.
Hypothesis HI : inv_core ex c a tp ne wp ow no ts.

Lemma core_active a' : a' ∈ panes c -> inv_core ex c a' tp ne wp ow no ts.
Proof. destruct HI. by constructor. Qed.

Lemma core_fresh_tile :
  ne < OVERFLOW_ID_BASE ->
  ne ∉ panes c /\ wp !! ne = None /\ ow !! ne = None /\ ne ∉ pending_ids ts.
Proof.
  intros Hb. destruct HI as [_ _ Hl Hf _ _ _ Hi _ _ Hp _ _]. split_and!.
  - intros Hin. specialize (Hf _ (Hl _ Hin)). lia.
  - apply eq_None_not_Some. intros Hw. specialize (Hi ne (or_introl Hw)). lia.
  - apply eq_None_not_Some. intros Hw. specialize (Hi ne (or_intror Hw)). lia.
  - intros Hin. specialize (Hp _ Hin). lia.
Qed.

Lemma core_new_tile :
  ne < OVERFLOW_ID_BASE ->
  inv_core ex c a (<[ne := empty_pane]> tp) (ne + 1) wp ow no ts.
Proof.
  intros Hb. destruct HI. constructor; try done.
  - intros p Hp. destruct (decide (p = ne)) as [->|]; simplify_map_eq; eauto.
  - intros p Hp. destruct (decide (p = ne)) as [->|]; [lia|].
    rewrite lookup_insert_ne in Hp by done. specialize (ic_fresh0 _ Hp). lia.
  - lia.
  - intros w Hw. destruct (ic_ids0 _ Hw); [left; lia|by right].
Qed.

Lemma core_pane_update p pane :
  is_Some (tp !! p) -> inv_core ex c a (<[p := pane]> tp) ne wp ow no ts.
Proof.
  intros Hp. destruct HI. constructor; try done.
  - intros q Hq. destruct (decide (q = p)) as [->|]; simplify_map_eq; eauto.
  - intros q Hq. destruct (decide (q = p)) as [->|]; [eauto|].
    rewrite lookup_insert_ne in Hq by done. eauto.
Qed.

Lemma core_release p :
  p ∉ panes c -> inv_core ex c a (delete p tp) ne wp ow no ts.
Proof.
  intros Hp. destruct HI. constructor; try done.
  - intros q Hq. rewrite lookup_delete_ne by (by intros ->). eauto.
  - intros q [pane Hq]. apply lookup_delete_Some in Hq as [_ Hq]. eauto.
Qed.

(** The tree changed shape and holds the same panes. *)
Lemma core_perm c' :
  proper (root c') -> Permutation (panes c') (panes c) ->
  inv_core ex c' a tp ne wp ow no ts.
Proof.
  intros Hp Hperm. destruct HI as [[_ Hnd] ? ? ? ? ? ? ? ? ? ? ? ?]. constructor; try done.
  - split; [done|]. by rewrite Hperm.
  - by rewrite Hperm.
  - intros p. rewrite Hperm. eauto.
  - intros w p Hw. rewrite Hperm. eauto.
  - intros w Hw. rewrite Hperm. eauto.
  - intros w p Hw. rewrite Hperm. eauto.
Qed.

(** The tree gained one live pane. *)
Lemma core_grow c' new :
  proper (root c') -> new ∉ panes c -> is_Some (tp !! new) ->
  ow !! new = None -> wp !! new = None ->
  Permutation (panes c') (new :: panes c) ->
  inv_core ex c' a tp ne wp ow no ts.
Proof.
  intros Hp Hn Hlive How Hwp Hperm. destruct HI as [[_ Hnd] ? ? ? ? ? ? ? ? ? ? ? ?].
  constructor; try done.
  - split; [done|]. rewrite Hperm. by constructor.
  - rewrite Hperm. by right.
  - intros p. rewrite Hperm. intros [->|Hin]%elem_of_cons; eauto.
  - intros w p Hw. rewrite Hperm. right. eauto.
  - intros w Hw. rewrite Hperm. intros [->|Hin]%elem_of_cons; [|eauto].
    rewrite How in Hw. by destruct Hw.
  - intros w p Hw. rewrite Hperm. intros [->|Hin]%elem_of_cons; [congruence|eauto].
Qed.

(** The tree lost a pane no worker is on. *)
Lemma core_shrink c' p a' :
  proper (root c') -> p ∈ panes c -> panes c' = remove_first p (panes c) ->
  (forall w, wp !! w <> Some p) -> a' ∈ panes c' ->
  inv_core ex c' a' tp ne wp ow no ts.
Proof.
  intros Hp Hin Hpanes Hno Ha. destruct HI as [[_ Hnd] ? Hl ? ? Hwp ? ? ? ? ? Hot Hown].
  pose proof (remove_first_perm _ _ Hin) as Hperm. rewrite <-Hpanes in Hperm.
  constructor; try done.
  - split; [done|]. rewrite Hperm in Hnd. by apply NoDup_cons in Hnd as [_ ?].
  - intros q Hq. apply Hl. rewrite Hperm. by right.
  - intros w q Hw. specialize (Hwp _ _ Hw). rewrite Hperm in Hwp.
    apply elem_of_cons in Hwp as [->|]; [|done]. by destruct (Hno w).
  - intros w Hw Hin'. apply Hot; [done|]. rewrite Hperm. by right.
  - intros w q Hw Hin'. apply Hown; [done|]. rewrite Hperm. by right.
Qed.

Lemma core_any ex' : ex = None -> inv_core ex' c a tp ne wp ow no ts.
Proof.
  intros ->. destruct HI. constructor; try done.
  intros w Hw Hin. by specialize (ic_overflow_tile0 _ Hw Hin).
Qed.

Lemma core_except p : ex = Some p -> p ∉ panes c -> inv_core None c a tp ne wp ow no ts.
Proof.
  intros -> Hp. destruct HI. constructor; try done.
  intros w Hw Hin. specialize (ic_overflow_tile0 _ Hw Hin). congruence.
Qed.

Lemma core_workers_sub wp' :
  (forall w p, wp' !! w = Some p -> wp !! w = Some p) ->
  inv_core ex c a tp ne wp' ow no ts.
Proof.
  intros Hsub.
  assert (HNone : forall w, wp !! w = None -> wp' !! w = None).
  { intros w Hw. destruct (wp' !! w) eqn:E; [|done]. apply Hsub in E. congruence. }
  destruct HI. constructor; try done.
  - eauto.
  - eauto.
  - intros w [[p Hw]|Hw]; eauto.
  - eauto.
  - intros w Hw. destruct (ic_pending0 _ Hw) as (? & ? & ?). eauto.
  - eauto.
Qed.

Lemma core_worker_insert w p :
  p ∈ panes c -> (forall w', wp !! w' = Some p -> w' = w) ->
  (w < ne \/ OVERFLOW_ID_BASE <= w < no) -> ow !! w = None -> w ∉ pending_ids ts ->
  (w ∈ panes c -> w = p) ->
  inv_core ex c a tp ne (<[w := p]> wp) ow no ts.
Proof.
  intros Hp Huniq Hid How Hpend Hown. destruct HI. constructor; try done.
  - intros w' q [[<- <-]|[_ Hw]]%lookup_insert_Some; eauto.
  - intros w1 w2 q [[<- <-]|[Hn1 H1]]%lookup_insert_Some
      [[<- Hq]|[Hn2 H2]]%lookup_insert_Some; subst; eauto; symmetry; eauto.
  - intros w'. destruct (decide (w' = w)) as [->|]; [done|].
    rewrite lookup_insert_ne by done. eauto.
  - intros w' Hw'. rewrite lookup_insert_ne; [eauto|]. intros ->.
    rewrite How in Hw'. by destruct Hw'.
  - intros w' Hw'. rewrite lookup_insert_ne; [eauto|]. by intros ->.
  - intros w' q [[<- <-]|[_ Hw]]%lookup_insert_Some; eauto.
Qed.

Lemma core_overflow_sub ow' :
  (forall w, is_Some (ow' !! w) -> is_Some (ow !! w)) ->
  inv_core ex c a tp ne wp ow' no ts.
Proof.
  intros Hsub.
  assert (HNone : forall w, ow !! w = None -> ow' !! w = None).
  { intros w Hw. destruct (ow' !! w) eqn:E; [|done].
    destruct (Hsub w) as [? ?]; [eauto|congruence]. }
  destruct HI. constructor; try done.
  - intros w [Hw|Hw]; eauto.
  - eauto.
  - intros w Hw. destruct (ic_pending0 _ Hw) as (? & ? & ?). eauto.
  - eauto.
Qed.

Lemma core_overflow_insert w o :
  (w < ne \/ OVERFLOW_ID_BASE <= w < no) -> wp !! w = None -> w ∉ pending_ids ts ->
  (w ∈ panes c -> ex = Some w) ->
  inv_core ex c a tp ne wp (<[w := o]> ow) no ts.
Proof.
  intros Hid Hwp Hpend Hw. destruct HI. constructor; try done.
  - intros w'. destruct (decide (w' = w)) as [->|]; [done|].
    rewrite lookup_insert_ne by done. eauto.
  - intros w'. destruct (decide (w' = w)) as [->|]; [done|].
    rewrite lookup_insert_ne by done. eauto.
  - intros w' Hw'. rewrite lookup_insert_ne; [eauto|]. by intros ->.
  - intros w'. destruct (decide (w' = w)) as [->|]; [done|].
    rewrite lookup_insert_ne by done. eauto.
Qed.

Lemma core_task k :
  (forall w parent cmd init, k <> TaskOverflow w parent cmd init) ->
  inv_core ex c a tp ne wp ow no (ts ++ [k]).
Proof.
  intros Hk. destruct HI.
  assert (Hp : pending_ids (ts ++ [k]) = pending_ids ts).
  { unfold pending_ids. rewrite omap_app. simpl.
    destruct k; rewrite ?app_nil_r; try done. by destruct (Hk worker_id parent cmd init_command). }
  by constructor; rewrite ?Hp.
Qed.

Lemma core_task_overflow parent cmd init :
  inv_core ex c a tp ne wp ow (no + 1) (ts ++ [TaskOverflow no parent cmd init]).
Proof.
  destruct HI.
  assert (Hp : pending_ids (ts ++ [TaskOverflow no parent cmd init]) = pending_ids ts ++ [no]).
  { unfold pending_ids. by rewrite omap_app. }
  constructor; try done.
  - lia.
  - intros w Hw. destruct (ic_ids0 _ Hw); [by left|right; lia].
  - rewrite Hp. apply NoDup_app. split_and!; [done| |apply NoDup_singleton].
    intros w Hw ->%list_elem_of_singleton. destruct (ic_pending0 _ Hw). lia.
  - intros w. rewrite Hp. intros [Hw| ->%list_elem_of_singleton]%elem_of_app.
    + destruct (ic_pending0 _ Hw) as (? & ? & ?). split_and!; [lia|lia|done|done].
    + split_and!; [lia|lia|..]; apply eq_None_not_Some; intros Hw.
      * destruct (ic_ids0 no); [by left|lia|lia].
      * destruct (ic_ids0 no); [by right|lia|lia].
Qed.

Lemma core_task_done i k :
  ts !! i = Some k ->
  inv_core ex c a tp ne wp ow no (take i ts ++ drop (S i) ts)
  /\ forall w parent cmd init, k = TaskOverflow w parent cmd init ->
       w ∉ pending_ids (take i ts ++ drop (S i) ts).
Proof.
  intros Hk. destruct HI as [? ? ? ? ? ? ? ? ? Hnd Hpend Hot Hown].
  pose proof (take_drop_middle ts i k Hk) as Hts.
  assert (Hp : Permutation (pending_ids ts)
    (pending_ids [k] ++ pending_ids (take i ts ++ drop (S i) ts))).
  { rewrite <-Hts at 1. unfold pending_ids. rewrite <-omap_app.
    apply omap_Permutation. simpl. by rewrite Permutation_middle. }
  rewrite Hp in Hnd. apply NoDup_app in Hnd as (_ & Hdis & Hnd). split.
  - constructor; try done. intros w Hw. apply Hpend. rewrite Hp. apply elem_of_app. by right.
  - intros w parent cmd init -> Hw. apply (Hdis w); [|done]. simpl. by left.
Qed.
End core.

(** ** Restoring sibling sizes *)

Definition with_flexes (a : PaneAxis) (fl : list f32) : PaneAxis :=
  mkAxis (pa_axis a) (pa_members a) fl (pa_boxes a).

Lemma find_update {A B} (f : A -> option B) (g : A -> option A) l b :
  Forall (fun a => f a = None -> g a = None) l ->
  Forall (fun a => f a = Some b -> is_Some (g a)) l ->
  find_map f l = Some b ->
  exists pre a a' post, l = pre ++ a :: post /\ Forall (fun a => f a = None) pre
    /\ f a = Some b /\ g a = Some a' /\ update_first g l = Some (pre ++ a' :: post).
Proof.
  intros Hn Hs. induction l as [|a l IH]; [done|].
  apply Forall_cons in Hn as [Ha Hn], Hs as [Hsa Hs]. simpl.
  destruct (f a) as [b'|] eqn:E.
  - intros [= ->]. destruct (Hsa eq_refl) as [a' Ha'].
    exists [], a, a', l. by rewrite Ha'.
  - intros Hf. destruct (IH Hn Hs Hf) as (pre & a0 & a' & post & -> & Hpre & Hf0 & Hg0 & Hu).
    exists (a :: pre), a0, a', post. rewrite Ha, Hu by done. split_and!; try done.
    by constructor.
Qed.

Lemma find_map_skip {A B} (f : A -> option B) pre l :
  Forall (fun a => f a = None) pre -> find_map f (pre ++ l) = find_map f l.
Proof. induction 1 as [|a pre Ha _ IH]; simpl; [done|]. by rewrite Ha. Qed.

Lemma find_map_None {A B} (f : A -> option B) l :
  find_map f l = None <-> Forall (fun a => f a = None) l.
Proof.
  induction l as [|a l IH]; simpl; [by split; [constructor|]|].
  rewrite Forall_cons. destruct (f a); [naive_solver|]. rewrite IH. naive_solver.
Qed.

Lemma update_first_None {A} (g : A -> option A) l :
  Forall (fun a => g a = None) l -> update_first g l = None.
Proof. induction 1 as [|a l Ha _ IH]; simpl; [done|]. by rewrite Ha, IH. Qed.

Lemma set_parent_flexes_None m p fl : parent_axis m p = None -> set_parent_flexes m p fl = None.
Proof.
  induction m as [q|ax ms fl0 bb IH] using member_induction; [done|].
  cbn [parent_axis set_parent_flexes]. destruct (existsb (is_pane p) ms); [done|].
  rewrite find_map_None. intros Hms. rewrite update_first_None; [done|].
  clear -IH Hms. induction IH as [|m ms Hm _ IH]; [constructor|].
  apply Forall_cons in Hms as [? ?]. constructor; auto.
Qed.

Lemma set_parent_flexes_ok m p axis fl :
  parent_axis m p = Some axis -> length fl = length (pa_members axis) ->
  exists m', set_parent_flexes m p fl = Some m'
    /\ collect_panes m' = collect_panes m /\ (proper m -> proper m')
    /\ parent_axis m' p = Some (with_flexes axis fl).
Proof.
  revert axis.
  induction m as [q|ax ms fl0 bb IH] using member_induction; [done|].
  intros axis Hp Hfl. cbn [parent_axis set_parent_flexes] in *.
  destruct (existsb (is_pane p) ms) eqn:Ee.
  - injection Hp as <-. eexists. split; [done|]. cbn [collect_panes parent_axis].
    rewrite Ee. split_and!; [done| |done].
    intros (? & ? & ? & ?)%proper_members. by constructor.
  - pose proof Hp as Hfind. apply (find_update _ (fun c => set_parent_flexes c p fl)) in Hp
      as (pre & m & m' & post & -> & Hpre & Hm & Hm' & ->).
    + apply Forall_app in IH as [_ IH]. apply Forall_cons in IH as [IH _].
      destruct (IH _ Hm Hfl) as (m1 & Hm1 & Hc & Hpp & Hpa).
      rewrite Hm' in Hm1. injection Hm1 as <-.
      eexists. split; [done|]. cbn [collect_panes parent_axis].
      rewrite existsb_app in Ee |- *. simpl in Ee |- *.
      apply orb_false_iff in Ee as [Ee1 [_ Ee2]%orb_false_iff].
      assert (is_pane p m' = false) as -> by (by destruct m'). rewrite Ee1, Ee2.
      rewrite !flat_map_app. simpl. rewrite Hc. split_and!; [done| |].
      * intros (Hl & Hf & Hb & Hms)%proper_members.
        apply Forall_app in Hms as [? [? ?]%Forall_cons]. rewrite length_app in *.
        constructor; rewrite ?length_app; simpl in *; [lia..|].
        apply Forall_app. split; [done|]. constructor; auto.
      * rewrite find_map_skip by done. simpl. by rewrite Hpa.
    + apply Forall_forall. intros m _. apply set_parent_flexes_None.
    + apply (Forall_impl _ _ _ IH). intros m Hm Ha.
      destruct (Hm _ Ha Hfl) as (m' & -> & _). by eexists.
Qed.

Lemma length_rebuild n i si ni ss scale share prev :
  length (rebuild_flexes n i si ni ss scale share prev) = n.
Proof.
  revert i prev. induction n as [|n IH]; intros i prev; simpl; [done|].
  destruct (_ || _); simpl; [by rewrite IH|].
  destruct (next_sibling ss prev). simpl. by rewrite IH.
Qed.

Lemma restore_ok m source new_pane snapshot :
  exists m', restore_sibling_sizes m source new_pane snapshot = Ret m'
    /\ collect_panes m' = collect_panes m /\ (proper m -> proper m').
Proof.
  assert (Hsame : exists m', Ret m = Ret m' /\ collect_panes m' = collect_panes m
                             /\ (proper m -> proper m')) by (by exists m).
  unfold restore_sibling_sizes.
  destruct snapshot as [[fl si]|]; [|done]. cbn [snap_flexes snap_source_index].
  destruct (parent_axis m new_pane) as [axis|] eqn:Ep; [|done].
  destruct (index_in_axis axis source), (index_in_axis axis new_pane); try done.
  destruct (_ || _) eqn:Eg; [done|].
  apply orb_false_iff in Eg as [[_ Eg]%orb_false_iff _]. apply Nat.leb_gt in Eg.
  destruct (index fl si) as [f|] eqn:Ei.
  - match goal with |- context [set_parent_flexes m new_pane ?l] =>
      destruct (set_parent_flexes_ok m new_pane axis l Ep) as (m' & -> & Hc & Hp & _) end.
    + apply length_rebuild.
    + by exists m'.
  - unfold index in Ei. apply lookup_lt_is_Some in Eg as [? Eg]. by rewrite Eg in Ei.
Qed.

Lemma metrics_total env s p : proper (root (center s)) -> exists o, metrics_for env s p = Ret o.
Proof.
  intros Hp. unfold metrics_for, tile_size.
  destruct (match tile_terminal s p with Some _ => _ | None => _ end) as [[w h]|].
  - destruct (cell_metrics env s) as [[? ?]|]; eauto.
  - destruct (bounding_box_total (center s) p Hp) as ([b|] & ->).
    + destruct (cell_metrics env s) as [[? ?]|]; eauto.
    + destruct (predicted_sizes s !! p) as [[? ?]|]; eauto.
      destruct (cell_metrics env s) as [[? ?]|]; eauto.
Qed.

(** ** Splitting a tile *)

Ltac ok_go :=
  unfold emit, emit_worker, set_active_pane, report_no_room, spawn_terminal_into,
    close_tile, set_worker_status, add_item, new_tile;
  repeat (first [apply ok_get | apply ok_modify_bind | apply ok_ret_bind | apply ok_modify
                | apply ok_ret | apply ok_bind]; cbv beta zeta).

(** The direction a split resolves to, given what could be measured. *)
Definition split_decision (env : Env) (metrics : option TileMetrics) (d : SplitDirection)
    : SplitOutcome :=
  match metrics with
  | Some m => resolve_split m d (minimum (settings env)) (split_guard (settings env))
  | None => Split d
  end.

Definition predicted_after (metrics : option TileMetrics) (source p : pane_id)
    (d : SplitDirection) (m : gmap Z (f32 * f32)) : gmap Z (f32 * f32) :=
  match metrics with
  | Some tm => <[p := half_size tm d]> (<[source := half_size tm d]> m)
  | None => m
  end.

(** The proportions [split_pane_with_command] records before the split. *)
Definition snapshot_of (m : Member) (source : pane_id) : option AxisSnapshot :=
  match parent_axis m source with
  | None => None
  | Some axis => mkSnapshot (pa_flexes axis) <$> index_in_axis axis source
  end.

(** What a successful split changes: the tree gains the fresh pane, which is
    focused and gets one shell; workers and ids are untouched. *)
Record split_post (env : Env) (s : TG) (source : pane_id) (d : SplitDirection)
    (metrics : option TileMetrics) (init : option string) (parent : option Z)
    (s' : TG) : Prop := {
  sp_proper : proper (root (center s'));
  sp_panes : panes (center s')
    = insert_beside (panes (center s)) (split_point (panes (center s)) source)
        (next_entity s) (SplitDir.increasing d);
  sp_tree : exists g fl,
    PaneGroup.split (center s) source (next_entity s) d (in_center s) = Ret (g, fl)
    /\ restore_sibling_sizes (root g) source (next_entity s)
         (snapshot_of (root (center s)) source) = Ret (root (center s'));
  sp_active : active_pane s' = next_entity s;
  sp_magnified : magnified_pane s' = None;
  sp_title : title s' = title s;
  sp_predicted : predicted_sizes s'
    = predicted_after metrics source (next_entity s) d (predicted_sizes s);
  sp_spawning : spawning s' = {[ next_entity s ]} ∪ spawning s;
  sp_metadata : worker_metadata s' = worker_metadata s;
  sp_worker_panes : worker_panes s' = worker_panes s;
  sp_overflow : overflow_workers s' = overflow_workers s;
  sp_next_overflow : next_overflow_id s' = next_overflow_id s;
  sp_tile_panes : tile_panes s' = <[next_entity s := empty_pane]> (tile_panes s);
  sp_next_entity : next_entity s' = next_entity s + 1;
  sp_effects : effects s' = effects s ++ [EmitItem UpdateTab; FocusPane (next_entity s)];
  sp_tasks : tasks s' = tasks s ++
    [TaskShell (next_entity s) (tile_terminal s source ≫= terminal_directory env)
       ((fun c => worker_init_command env (next_entity s) c parent) <$> init)];
}.

Lemma split_pane_run env s source d init parent :
  proper (root (center s)) ->
  exists metrics, metrics_for env s source = Ret metrics /\
  let r := split_pane_with_command env source d init parent s in
  if at_visible_cap env s then r = Ret (None, add_effect ShowToast s)
  else
    match split_decision env metrics d with
    | Refused => r = Ret (None, add_effect ShowToast s)
    | Split d' => exists s', r = Ret (Some (next_entity s), s')
                             /\ split_post env s source d' metrics init parent s'
    end.
Proof.
  intros Hp. destruct (metrics_total env s source Hp) as [metrics Hm].
  exists metrics. split; [done|]. cbv zeta.
  unfold split_pane_with_command. rewrite run_get.
  destruct (at_visible_cap env s); [reflexivity|].
  rewrite (run_lift _ _ _ _ Hm). cbv zeta.
  fold (split_decision env metrics d).
  destruct (split_decision env metrics d) as [d'|]; [|reflexivity].
  match goal with |- exists s', ?m s = _ /\ _ =>
    enough (ok m s (fun r s' => r = Some (next_entity s)
                               /\ split_post env s source d' metrics init parent s')) as Hok
      by (destruct Hok as (? & s' & ? & -> & ?); by exists s') end.
  ok_go. unfold center_split. ok_go. tg_cbn.
  destruct (split_ok (center s) source (next_entity s) d' (in_center s) Hp)
    as (g & E & Hpg & _ & Hpanes).
  eapply ok_lift; [exact E|]. ok_go. tg_cbn.
  match goal with |- context [restore_sibling_sizes (root g) ?a ?b ?c] =>
    destruct (restore_ok (root g) a b c) as (m & Em & Hc & Hpm) end.
  eapply ok_lift; [exact Em|]. ok_go.
  destruct metrics as [tm|]; unfold predict_split_sizes; ok_go;
    (split; [done|]); constructor; tg_cbn; try done; cbn [root set_root]; auto;
    try (exists g, (mark_positions g (in_center s)); by split);
    try (unfold panes in *; cbn [root set_root]; congruence);
    by rewrite <-app_assoc.
Qed.

(** ** Preservation, handler by handler *)

Definition within (cap : nat) (s : TG) : Prop := Inv s /\ (length (panes (center s)) <= cap)%nat.

(** The tile count a handler may leave: the one it found, or the cap. *)
Definition capped (env : Env) (s : TG) : nat :=
  Nat.max (length (panes (center s))) (max_tiles (settings env)).

Lemma Inv_proper s : Inv s -> proper (root (center s)).
Proof. intros HI. apply HI. Qed.

Lemma Inv_nodup s : Inv s -> NoDup (panes (center s)).
Proof. intros HI. apply HI. Qed.

#[export] Hint Resolve Inv_proper Inv_nodup : rdg.

Lemma within_same cap s s' :
  (length (panes (center s)) <= cap)%nat -> Inv s' ->
  length (panes (center s')) = length (panes (center s)) -> within cap s'.
Proof. intros ? ? Hl. split; [done|]. by rewrite Hl. Qed.

Lemma capped_ge env s : (length (panes (center s)) <= capped env s)%nat.
Proof. unfold capped. lia. Qed.

#[export] Hint Resolve capped_ge : rdg.

Lemma below_cap env s :
  at_visible_cap env s = false -> (S (length (panes (center s))) <= capped env s)%nat.
Proof. unfold at_visible_cap, tiles, capped. rewrite Nat.leb_gt. lia. Qed.

(** A pane appended beside an existing one keeps the invariant, whatever the
    other fields. *)
Lemma insert_beside_grows l old new after :
  old ∈ l -> Permutation (insert_beside l old new after) (new :: l).
Proof. apply insert_beside_perm. Qed.

Lemma split_panes_perm c old new after :
  proper (root c) ->
  Permutation (insert_beside (panes c) (split_point (panes c) old) new after) (new :: panes c).
Proof. intros Hp. apply insert_beside_perm. by apply split_point_elem. Qed.

Lemma split_post_inv env s source d metrics init parent s' :
  Inv s -> next_entity s < OVERFLOW_ID_BASE ->
  split_post env s source d metrics init parent s' ->
  Inv s' /\ length (panes (center s')) = S (length (panes (center s))).
Proof.
  intros HI Hb [Hpp Hpanes _ Ha _ _ _ _ _ Hwp How Hno Htp Hne _ Hts].
  destruct (core_fresh_tile HI Hb) as (Hn & Hwn & Hno' & _).
  pose proof (split_panes_perm (center s) source (next_entity s) (SplitDir.increasing d)
    (Inv_proper _ HI)) as Hperm.
  rewrite <-Hpanes in Hperm. split; [|by rewrite Hperm].
  unfold Inv, InvX. rewrite Ha, Hwp, How, Hno, Htp, Hne, Hts.
  apply core_task; [|done]. eapply core_active.
  - eapply core_grow; [by apply core_new_tile|done|done| |done|done|done].
    rewrite lookup_insert. by rewrite decide_True.
  - rewrite Hperm. by left.
Qed.

Lemma pending_app ts k :
  (forall w parent cmd init, k <> TaskOverflow w parent cmd init) ->
  pending_ids (ts ++ [k]) = pending_ids ts.
Proof.
  intros Hk. unfold pending_ids. rewrite omap_app. simpl.
  destruct k; rewrite ?app_nil_r; try done. by destruct (Hk worker_id parent cmd init_command).
Qed.

(** The fresh tile of a split can become a worker's tile. *)
Lemma register_ok env s source d metrics init parent s' parent' cmd :
  Inv s -> next_entity s < OVERFLOW_ID_BASE ->
  split_post env s source d metrics init parent s' ->
  ok (register_worker (next_entity s) parent' cmd) s'
    (fun _ s2 => Inv s2 /\ panes (center s2) = panes (center s')).
Proof.
  intros HI Hb Hpost. destruct (split_post_inv _ _ _ _ _ _ _ _ HI Hb Hpost) as [HI' _].
  destruct (core_fresh_tile HI Hb) as (Hn & Hw & Ho & Hpd).
  destruct Hpost as [_ Hpanes _ _ _ _ _ _ _ Hwp How Hno _ Hne _ Hts].
  unfold register_worker. ok_go. split; [|done].
  unfold Inv, InvX. tg_cbn. apply core_worker_insert; [exact HI'|..].
  - rewrite Hpanes, split_panes_perm by (by apply Inv_proper). by left.
  - intros w. rewrite Hwp. intros Hw'. by apply (ic_worker_pane _ _ _ _ _ _ _ _ _ HI) in Hw'.
  - left. rewrite Hne. lia.
  - by rewrite How.
  - by rewrite Hts, pending_app.
  - done.
Qed.

Lemma split_pane_ok env s source d init parent :
  Inv s -> next_entity s < OVERFLOW_ID_BASE ->
  ok (split_pane_with_command env source d init parent) s (fun r s' =>
    within (capped env s) s'
    /\ match r with
       | Some p => exists d' metrics, p = next_entity s
                   /\ split_post env s source d' metrics init parent s'
       | None => True
       end).
Proof.
  intros HI Hb.
  destruct (split_pane_run env s source d init parent (Inv_proper _ HI)) as (metrics & Em & Hr).
  assert (Hnone : within (capped env s) (add_effect ShowToast s))
    by (split; [inv_frame HI|tg_cbn; apply capped_ge]).
  cbv zeta in Hr. destruct (at_visible_cap env s) eqn:Ec; [by do 2 eexists|].
  destruct (split_decision env metrics d) as [d'|]; [|by do 2 eexists].
  destruct Hr as (s' & Er & Hpost). exists (Some (next_entity s)), s'. split; [done|].
  destruct (split_post_inv _ _ _ _ _ _ _ _ HI Hb Hpost) as [HI' Hl].
  split; [|by exists d', metrics]. split; [done|]. rewrite Hl. by apply below_cap.
Qed.

(** Handlers that touch neither the tree, the workers' panes nor the ids keep the
    invariant by conversion. *)
Ltac by_frame HI := split; [inv_frame HI|tg_cbn; apply capped_ge].

Lemma set_active_ok cap p s :
  within cap s -> p ∈ panes (center s) ->
  ok (set_active_pane p) s (fun _ s' => within cap s'
     /\ s' = add_effect (FocusPane p) (set_active p s)).
Proof.
  intros [HI Hc] Hp. ok_go. split; [|done]. split; [|done].
  unfold Inv, InvX. tg_cbn. by eapply core_active.
Qed.

(** ** Removing a tile *)

Lemma worker_id_for_pane_spec s p :
  match worker_id_for_pane s p with
  | Some w => worker_panes s !! w = Some p
  | None => forall w, worker_panes s !! w <> Some p
  end.
Proof.
  unfold worker_id_for_pane.
  set (l := List.filter (fun kv => bool_decide (kv.2 = p)) (map_to_list (worker_panes s))).
  assert (Hl : forall w q, (w, q) ∈ l <-> worker_panes s !! w = Some q /\ q = p).
  { intros w q. unfold l. rewrite list_elem_of_In, List.filter_In, <-list_elem_of_In.
    rewrite elem_of_map_to_list. simpl. by rewrite bool_decide_eq_true. }
  clearbody l. destruct l as [|[w q] l]; simpl.
  - intros w Hw. destruct (Hl w p) as [_ H]. by apply elem_of_nil in H.
  - destruct (Hl w q) as [H _]. destruct H as [Hw ->]; [by left|done].
Qed.

Lemma center_remove_ok p s :
  proper (root (center s)) ->
  ok (center_remove p) s (fun b s' => exists g fl, s' = set_center (g, fl) s /\
    ((b = true /\ p ∈ panes (center s) /\ proper (root g)
      /\ panes g = remove_first p (panes (center s)))
     \/ (b = true /\ g = center s /\ exists q, root g = MPane q)
     \/ (b = false /\ g = center s /\ p ∉ panes (center s)))).
Proof.
  intros Hp. unfold center_remove. ok_go. unfold PaneGroup.remove.
  pose proof (remove_internal_ok (center s) p Hp) as Hr.
  destruct (remove_internal (center s) p) as [[[[|] g]|]|]; [..|done];
    (eapply ok_lift; [reflexivity|]); ok_go; eexists _, _; (split; [reflexivity|]).
  - left. naive_solver.
  - right; left. destruct Hr as [-> [q Hq]]. eauto.
  - right; right. destruct Hr. naive_solver.
Qed.

Lemma first_pane_ok s :
  proper (root (center s)) ->
  exists p, first_pane (root (center s)) = Ret p /\ p ∈ panes (center s).
Proof.
  intros Hp. destruct (first_pane_head _ Hp) as (p & E & Hh). exists p. split; [done|].
  by apply first_pane_elem.
Qed.

Lemma remove_first_length p l : p ∈ l -> S (length (remove_first p l)) = length l.
Proof. intros Hp. by rewrite (remove_first_perm _ _ Hp) at 2. Qed.

(** The tail the two removals share: the pane leaves the tree and focus goes to
    a remaining one. *)
Lemma remove_and_focus_ok ex cap s p (choose : TG -> pane_id -> pane_id) :
  InvX ex s -> (length (panes (center s)) <= cap)%nat -> (2 <= length (panes (center s)))%nat ->
  (forall w, worker_panes s !! w <> Some p) ->
  (forall s' first, first ∈ panes (center s') -> choose s' first ∈ panes (center s')) ->
  ok (ok ← center_remove p;
      _ ← (if (ok : bool) then
             s ← get;
             first ← lift (first_pane (root (center s)));
             set_active_pane (choose s first)
           else mret tt);
      emit UpdateTab) s
    (fun _ s' => InvX ex s' /\ (length (panes (center s')) <= cap)%nat
      /\ panes (center s') = remove_first p (panes (center s))
      /\ worker_panes s' = worker_panes s /\ overflow_workers s' = overflow_workers s
      /\ worker_metadata s' = worker_metadata s /\ title s' = title s
      /\ tile_panes s' = tile_panes s /\ tasks s' = tasks s
      /\ next_entity s' = next_entity s /\ next_overflow_id s' = next_overflow_id s).
Proof.
  intros HI Hcap Hlen Hno Hchoose. apply ok_bind.
  eapply ok_weaken; [apply center_remove_ok; apply HI|].
  intros b s1 (g & fl & -> & Hcase). cbv beta.
  destruct Hcase as [(-> & Hin & Hp & Hpanes)|[(_ & -> & q & Hq)|(-> & -> & Hn)]].
  - destruct (first_pane_ok (set_center (g, fl) s)) as (first & Ef & Hf); [exact Hp|].
    tg_cbn. ok_go. tg_cbn. eapply ok_lift; [exact Ef|]. ok_go. tg_cbn.
    assert (Hnext : choose (set_center (g, fl) s) first ∈ panes g)
      by (apply (Hchoose (set_center (g, fl) s)); exact Hf).
    split_and!; try done.
    + unfold InvX. tg_cbn. by eapply core_shrink.
    + tg_cbn. rewrite Hpanes. pose proof (remove_first_length _ _ Hin). lia.
  - unfold panes in Hlen. rewrite Hq in Hlen. simpl in Hlen. lia.
  - ok_go. tg_cbn.
    assert (Hrf : remove_first p (panes (center s)) = panes (center s)).
    { clear -Hn. induction (panes (center s)) as [|q l IH]; [done|]. simpl.
      apply not_elem_of_cons in Hn as [? ?]. rewrite decide_False by congruence.
      by rewrite IH. }
    rewrite Hrf. by split_and!.
Qed.

Lemma clear_magnified_ok p s (Q : unit -> TG -> Prop) :
  (forall m, Q tt (set_magnified m s)) -> Q tt s ->
  ok (if is_magnified s p then modify (set_magnified None) else mret tt) s Q.
Proof. intros H1 H2. destruct (is_magnified s p); ok_go; auto. Qed.

Lemma remove_tile_ok env s p focus :
  Inv s -> ok (remove_tile p focus) s (fun _ s' => within (capped env s) s').
Proof.
  intros HI. unfold remove_tile. ok_go. unfold tiles.
  destruct (length (panes (center s)) =? 1)%nat eqn:E; [ok_go; by_frame HI|].
  apply Nat.eqb_neq in E.
  assert (Hlen : (2 <= length (panes (center s)))%nat).
  { pose proof (ic_active _ _ _ _ _ _ _ _ _ HI) as Ha.
    destruct (panes (center s)) as [|? [|? ?]]; [by apply elem_of_nil in Ha|done|simpl; lia]. }
  pose proof (worker_id_for_pane_spec s p) as Hw.
  assert (Hchoose : forall s' first, first ∈ panes (center s') ->
    (match focus with
     | Some c => if decide (c ∈ panes (center s')) then c else first
     | None => first
     end) ∈ panes (center s')) by (intros s' first Hf; destruct focus; [case_decide|]; done).
  assert (Hinv : forall m, Inv (set_magnified m s)) by (intros m; inv_frame HI).
  match goal with |- ok (_ ≫= ?k) _ ?Q =>
    assert (Hmain : forall s0, Inv s0 -> center s0 = center s ->
      worker_panes s0 = worker_panes s -> ok (k tt) s0 Q) end.
  { intros s0 HI0 Hc Hwp.
    match goal with |- ok (_ ≫= (fun _ => _ ≫= (fun _ => _ ≫= (fun _ => _ ≫= (fun _ =>
                           _ ≫= (fun _ => ?tail)))))) _ ?Q =>
      assert (Hfin : forall s1, center s1 = center s -> Inv s1 ->
        (forall w, worker_panes s1 !! w <> Some p) -> ok tail s1 Q) end.
    { intros s1 Hc1 HI1 Hno. eapply ok_weaken.
      - apply (remove_and_focus_ok None (capped env s) s1 p
          (fun s first => match focus with
                          | Some c => if decide (c ∈ panes (center s)) then c else first
                          | None => first
                          end)); [done|..|done].
        + rewrite Hc1. apply capped_ge.
        + by rewrite Hc1.
        + done.
      - by intros ? ? (? & ? & _). }
    do 4 (apply ok_modify_bind; cbv beta). apply ok_bind.
    destruct (worker_id_for_pane s p) as [w|].
    - apply ok_modify_bind, ok_get, ok_modify_bind. cbv beta zeta.
      match goal with |- ok (match ?x with _ => _ end) _ _ => destruct x end;
        first [apply ok_ret|unfold emit_worker; apply ok_modify]; cbv beta; apply Hfin;
        tg_cbn; try done.
      1,3: unfold Inv, InvX; tg_cbn; eapply core_workers_sub; [exact HI0|];
           by intros ? ? [_ [_ ?]%lookup_delete_Some]%lookup_delete_Some.
      all: rewrite Hwp; intros w' [Hne [Hne' Hw']%lookup_delete_Some]%lookup_delete_Some;
        apply Hne; by apply (ic_worker_inj _ _ _ _ _ _ _ _ _ HI _ _ p).
    - apply ok_ret. cbv beta. apply Hfin; tg_cbn; try done.
      + unfold Inv, InvX. tg_cbn. eapply core_workers_sub; [exact HI0|].
        by intros ? ? [_ ?]%lookup_delete_Some.
      + rewrite Hwp. intros w' [_ Hw']%lookup_delete_Some. by apply (Hw w'). }
  apply ok_bind, clear_magnified_ok; [intros m|]; apply Hmain; done.
Qed.

Lemma remove_tile_from_tree_ok ex cap s p :
  InvX ex s -> (length (panes (center s)) <= cap)%nat -> (2 <= length (panes (center s)))%nat ->
  ok (remove_tile_from_tree p) s (fun _ s' => InvX ex s' /\ (length (panes (center s')) <= cap)%nat
    /\ panes (center s') = remove_first p (panes (center s))
    /\ worker_panes s' = filter (fun kv => kv.2 <> p) (worker_panes s)
    /\ overflow_workers s' = overflow_workers s
    /\ worker_metadata s' = worker_metadata s /\ title s' = title s
    /\ tile_panes s' = tile_panes s /\ tasks s' = tasks s
    /\ next_entity s' = next_entity s /\ next_overflow_id s' = next_overflow_id s).
Proof.
  intros HI Hcap Hlen. unfold remove_tile_from_tree. apply ok_get.
  assert (Hsub : forall w q, filter (fun kv => kv.2 <> p) (worker_panes s) !! w = Some q ->
    worker_panes s !! w = Some q /\ q <> p).
  { intros w q Hw. apply map_lookup_filter_Some in Hw as [? ?]. done. }
  match goal with |- ok (_ ≫= ?k) _ ?Q =>
    assert (Hmain : forall m, ok (k tt) (set_magnified m s) Q) end.
  { intros m. do 3 (apply ok_modify_bind; cbv beta).
    eapply ok_weaken.
    - apply (remove_and_focus_ok ex cap _ p (fun _ first => first)).
      + unfold InvX. tg_cbn. eapply core_workers_sub; [exact HI|]. by intros w q [? ?]%Hsub.
      + done.
      + done.
      + tg_cbn. by intros w [? ?]%Hsub.
      + done.
    - cbv beta. tg_cbn. done. }
  apply ok_bind, clear_magnified_ok; [intros m; apply Hmain|].
  specialize (Hmain (magnified_pane s)). by destruct s.
Qed.

(** ** Growing the tree outside a split *)

(** A fresh tile, filled and mounted beside [target]: what adopting, promoting
    and splitting off a surplus item have in common. *)
Lemma mount_ok s s1 target d g fl :
  Inv s -> next_entity s < OVERFLOW_ID_BASE ->
  PaneGroup.split (center s) target (next_entity s) d (in_center s) = Ret (g, fl) ->
  forall pane,
  center s1 = g -> active_pane s1 = next_entity s ->
  tile_panes s1 = <[next_entity s := pane]> (<[next_entity s := empty_pane]> (tile_panes s)) ->
  next_entity s1 = next_entity s + 1 ->
  worker_panes s1 = worker_panes s -> overflow_workers s1 = overflow_workers s ->
  next_overflow_id s1 = next_overflow_id s -> tasks s1 = tasks s ->
  Inv s1 /\ next_entity s ∈ panes g
  /\ length (panes (center s1)) = S (length (panes (center s))).
Proof.
  intros HI Hb Hs pane Hc Ha Htp Hne Hwp How Hno Hts.
  destruct (split_ok (center s) target (next_entity s) d (in_center s) (Inv_proper _ HI))
    as (g' & E & Hp & _ & Hpanes).
  rewrite E in Hs. injection Hs as -> _.
  pose proof (split_panes_perm (center s) target (next_entity s) (SplitDir.increasing d)
    (Inv_proper _ HI)) as Hperm. rewrite <-Hpanes in Hperm.
  destruct (core_fresh_tile HI Hb) as (Hn & Hw & Ho & _).
  split_and!.
  - unfold Inv, InvX. rewrite Hc, Htp, Hne, Hwp, How, Hno, Hts.
    rewrite Ha. eapply core_active; [|by rewrite Hperm; left].
    eapply core_grow; [|done|done| |done|done|done].
    + apply core_pane_update; [by apply core_new_tile|].
      rewrite lookup_insert. by rewrite decide_True.
    + rewrite lookup_insert. by rewrite decide_True.
  - rewrite Hperm. by left.
  - by rewrite Hc, Hperm.
Qed.

Lemma read_pane_fresh s p pane : read_pane (set_tile_panes (fun tp => <[p := pane]> tp) s) p = pane.
Proof. unfold read_pane. tg_cbn. rewrite lookup_insert. by rewrite decide_True. Qed.

Lemma in_tiles_live s p : Inv s -> p ∈ panes (center s) -> is_Some (tile_panes s !! p).
Proof. intros HI. apply HI. Qed.

(** Runs the mounting of a fresh tile from [s], whose tree splits to [g]. *)
Lemma split_total s target d :
  Inv s -> exists g fl,
    PaneGroup.split (center s) target (next_entity s) d (in_center s) = Ret (g, fl)
    /\ panes g = insert_beside (panes (center s)) (split_point (panes (center s)) target)
                   (next_entity s) (SplitDir.increasing d).
Proof.
  intros HI.
  destruct (split_ok (center s) target (next_entity s) d (in_center s) (Inv_proper _ HI))
    as (g & E & _ & _ & Hc). eauto.
Qed.

Lemma enforce_ok env s p :
  Inv s -> next_entity s < OVERFLOW_ID_BASE ->
  ok (enforce_single_terminal env p) s
    (fun _ s' => within (S (length (panes (center s)))) s').
Proof.
  intros HI Hb. unfold enforce_single_terminal. apply ok_get.
  destruct (items_len s p <=? 1)%nat eqn:El; [apply ok_ret; split; [done|lia]|].
  apply Nat.leb_gt in El.
  assert (Hlive : is_Some (tile_panes s !! p)).
  { unfold items_len, read_pane in El. destruct (tile_panes s !! p); [eauto|].
    simpl in El. lia. }
  apply ok_bind. unfold take_active_item. apply ok_get.
  destruct (active_item (read_pane s p)) as [i|];
    [|apply ok_ret; cbv beta; apply ok_ret; split; [done|lia]].
  apply ok_modify_bind, ok_ret. cbv beta iota zeta.
  match goal with |- ok _ ?x _ => set (s0 := x) end.
  assert (HI0 : Inv s0) by (unfold Inv, InvX; tg_cbn; by apply core_pane_update).
  destruct (split_total s0 p Right HI0) as (g & fl & Es & _).
  unfold center_split. ok_go. tg_cbn. eapply ok_lift; [exact Es|]. ok_go.
  edestruct (mount_ok s0) as (HI1 & Hin & Hlen); [exact HI0|exact Hb|exact Es|..];
    [..|split; [exact HI1|rewrite Hlen; reflexivity]]; try reflexivity.
Qed.

Lemma promote_ok env s w :
  Inv s -> next_entity s < OVERFLOW_ID_BASE ->
  ok (promote_worker env w) s (fun _ s' => within (capped env s) s').
Proof.
  intros HI Hb. unfold promote_worker. apply ok_get.
  destruct (at_visible_cap env s) eqn:Ec; [apply ok_ret; by_frame HI|].
  destruct (overflow_workers s !! w) as [o|] eqn:Ew; [|apply ok_ret; by_frame HI].
  apply ok_modify_bind. cbv beta.
  match goal with |- ok _ ?x _ => set (s0 := x) end.
  assert (HI0 : Inv s0).
  { unfold Inv, InvX, s0. tg_cbn. eapply core_overflow_sub; [exact HI|].
    intros w' [o' [_ Ho]%lookup_delete_Some]. eauto. }
  destruct (split_total s0 (active_pane s) Right HI0) as (g & fl & Es & Hpanes).
  unfold center_split. ok_go. tg_cbn. eapply ok_lift; [exact Es|]. ok_go.
  edestruct (mount_ok s0 (set_active (next_entity s) (set_center (g, fl)
      (set_tile_panes (fun tp => <[next_entity s := mkPane [ITerminal (terminal_view o)] 0]>
         (<[next_entity s := empty_pane]> tp)) (set_next_entity (next_entity s + 1) s0)))))
    as (HI1 & Hin & Hlen); [exact HI0|exact Hb|exact Es|reflexivity..|].
  assert (Hcap : (S (length (panes (center s))) <= capped env s)%nat) by (by apply below_cap).
  split; [|tg_cbn; rewrite Hlen; exact Hcap].
  unfold Inv, InvX in HI1 |- *. unfold s0 in *. tg_cbn.
  match goal with |- context [<[next_entity s := mkPane ?its ?k]> (<[_ := _]> (tile_panes s))] =>
    assert (mkPane its k = mkPane [ITerminal (terminal_view o)] 0) as -> end.
  { unfold read_pane. tg_cbn. rewrite lookup_insert. by rewrite decide_True. }
  pose proof (ic_disjoint _ _ _ _ _ _ _ _ _ HI w ltac:(eauto)) as Hwp.
  apply core_worker_insert; [exact HI1|exact Hin|..].
  - intros w' Hw'. apply (ic_worker_pane _ _ _ _ _ _ _ _ _ HI) in Hw'.
    by apply core_fresh_tile in HI as (? & _).
  - destruct (ic_ids _ _ _ _ _ _ _ _ _ HI w) as [?|?]; [right; eauto|left; lia|by right].
  - by rewrite lookup_delete, decide_True.
  - intros Hpd. destruct (ic_pending _ _ _ _ _ _ _ _ _ HI w Hpd) as (_ & _ & ?). congruence.
  - rewrite Hpanes, split_panes_perm by (by apply Inv_proper).
    intros [->|Hin']%elem_of_cons; [done|].
    by pose proof (ic_overflow_tile _ _ _ _ _ _ _ _ _ HI w ltac:(eauto) Hin').
Qed.

Lemma demote_ok env s w :
  Inv s -> ok (demote_worker w) s (fun _ s' => within (capped env s) s').
Proof.
  intros HI. unfold demote_worker. apply ok_get.
  destruct (length (tiles s) <=? 1)%nat eqn:El; [apply ok_ret; by_frame HI|].
  apply Nat.leb_gt in El. unfold tiles in El.
  destruct (worker_panes s !! w) as [p|] eqn:Ew; [|apply ok_ret; by_frame HI].
  destruct (tile_terminal s p) as [t|]; [|apply ok_ret; by_frame HI].
  do 4 apply ok_modify_bind. cbv beta zeta. apply ok_bind.
  eapply ok_weaken; [apply (remove_tile_from_tree_ok (Some w) (capped env s))|].
  - unfold InvX. tg_cbn.
    assert (HI1 : inv_core None (center s) (active_pane s) (tile_panes s) (next_entity s)
      (delete w (worker_panes s)) (overflow_workers s) (next_overflow_id s) (tasks s)).
    { eapply core_workers_sub; [exact HI|]. by intros ? ? [_ ?]%lookup_delete_Some. }
    apply core_overflow_insert; [by eapply core_any|..].
    + apply (ic_ids _ _ _ _ _ _ _ _ _ HI). left. eauto.
    + by rewrite lookup_delete, decide_True.
    + intros Hpd. destruct (ic_pending _ _ _ _ _ _ _ _ _ HI w Hpd) as (_ & ? & _). congruence.
    + done.
  - tg_cbn. apply capped_ge.
  - tg_cbn. lia.
  - intros u s' (HI' & Hcap & Hpanes & _). cbv beta. ok_go.
    assert (Hw : w ∉ panes (center s')).
    { tg_cbn. rewrite Hpanes. intros Hw.
      pose proof (remove_first_perm (panes (center s)) p
        (ic_worker_pane _ _ _ _ _ _ _ _ _ HI _ _ Ew)) as Hperm.
      pose proof (Inv_nodup _ HI) as Hnd. rewrite Hperm in Hnd. apply NoDup_cons in Hnd as [Hn _].
      assert (w = p) as ->; [|done]. apply (ic_own_tile _ _ _ _ _ _ _ _ _ HI _ _ Ew).
      rewrite Hperm. by right. }
    split; [|done]. unfold Inv, InvX. tg_cbn. by eapply core_except.
Qed.

Lemma adopt_ok env s i :
  Inv s -> next_entity s < OVERFLOW_ID_BASE ->
  ok (adopt_terminal env i) s (fun _ s' => within (S (length (panes (center s)))) s').
Proof.
  intros HI Hb. unfold adopt_terminal. apply ok_get, ok_modify_bind. cbv beta zeta.
  match goal with |- context [metrics_for env s ?t] => set (target := t) end.
  destruct (metrics_total env s target (Inv_proper _ HI)) as [metrics Em].
  apply ok_bind. eapply ok_lift; [exact Em|]. cbv beta.
  match goal with |- context [center_split target _ ?d] => set (dir := d) end.
  assert (HI0 : Inv (set_drop_target None s)) by inv_frame HI.
  destruct (split_total _ target dir HI0) as (g & fl & Es & _).
  unfold center_split. ok_go. tg_cbn. eapply ok_lift; [exact Es|]. ok_go.
  edestruct (mount_ok (set_drop_target None s)) as (HI1 & Hin & Hlen);
    [exact HI0|exact Hb|exact Es|..]; [..|split; [exact HI1|rewrite Hlen; reflexivity]];
    reflexivity.
Qed.

(** Focus, swap and size handlers. *)
Lemma find_in_direction_total env s d : proper (root (center s)) ->
  exists o, find_in_direction env s d = Ret o.
Proof.
  intros Hp. unfold find_in_direction, find_pane_in_direction.
  destruct (bounding_box_total (center s) (active_pane s) Hp) as ([b|] & ->); [|eauto].
  match goal with |- exists o, ?h = _ => destruct h eqn:E end; [eauto|].
  by apply hit_total in E.
Qed.

Lemma find_in_direction_elem env s d p :
  Inv s -> find_in_direction env s d = Ret (Some p) -> p ∈ panes (center s).
Proof.
  intros HI. unfold find_in_direction, find_pane_in_direction.
  destruct (bounding_box_for_pane (center s) (active_pane s)) as [[b|]|]; try done.
  intros Hh. unfold pane_at_pixel_position in Hh. unfold panes.
  pose proof (Inv_proper _ HI) as Hp.
  destruct (root (center s)) as [a|q] eqn:E.
  - match type of Hh with axis_pane_at_pixel_position a ?c = _ =>
      pose proof (hit_correct c (MAxis a) Hp) as Hc end.
    rewrite Hh in Hc. by destruct Hc.
  - injection Hh as ->. by left.
Qed.

Lemma focus_ok cap s p :
  within cap s -> p ∈ panes (center s) -> ok (set_active_pane p) s (fun _ s' => within cap s').
Proof. intros Hw Hp. eapply ok_weaken; [by apply set_active_ok|]. by intros ? ? [? _]. Qed.

Lemma Inv_within env s : Inv s -> within (capped env s) s.
Proof. intros HI. split; [done|apply capped_ge]. Qed.

#[export] Hint Resolve Inv_within focus_ok : rdg.

Lemma focus_in_direction_ok env s d :
  Inv s -> ok (focus_in_direction env d) s (fun _ s' => within (capped env s) s').
Proof.
  intros HI. unfold focus_in_direction. apply ok_get, ok_bind.
  destruct (find_in_direction_total env s d (Inv_proper _ HI)) as [o E].
  eapply ok_lift; [exact E|]. cbv beta. destruct o as [p|]; [|by apply ok_ret, Inv_within].
  apply focus_ok; [by apply Inv_within|]. by eapply find_in_direction_elem.
Qed.

Lemma focus_next_ok env s :
  Inv s -> ok focus_next s (fun _ s' => within (capped env s) s').
Proof.
  intros HI. unfold focus_next. apply ok_get.
  destruct (position _ (tiles s)) as [i|]; [|by apply ok_ret, Inv_within].
  pose proof (ic_active _ _ _ _ _ _ _ _ _ HI) as Ha.
  assert (Hlt : ((i + 1) mod length (tiles s) < length (tiles s))%nat).
  { apply Nat.mod_upper_bound. unfold tiles. destruct (panes (center s)); [|done].
    by apply elem_of_nil in Ha. }
  apply lookup_lt_is_Some in Hlt as [q Hq].
  apply ok_bind. eapply ok_lift; [by apply index_Ret|]. cbv beta.
  apply focus_ok; [by apply Inv_within|]. by eapply list_elem_of_lookup_2.
Qed.

(** A rearrangement of the same panes. *)
Lemma rearranged cap s c :
  within cap s -> proper (root c.1) -> Permutation (panes c.1) (panes (center s)) ->
  within cap (set_center c s).
Proof.
  intros [HI Hc] Hp Hperm. split; [|tg_cbn; by rewrite Hperm].
  unfold Inv, InvX. tg_cbn. by eapply core_perm.
Qed.

(** The window draws the group: the tree's boxes are replaced. *)
Definition paint_group (place : list nat -> Bounds) : M unit :=
  s ← get;
  g ← lift (PaneGroup.paint (center s) place);
  modify (set_center (g, in_center s)).

Lemma paint_group_ok env s place :
  Inv s -> ok (paint_group place) s (fun _ s' => within (capped env s) s').
Proof.
  intros HI. unfold paint_group. apply ok_get, ok_bind.
  destruct (paint_ok (center s) place (Inv_proper _ HI)) as (g & E & Hp & _ & Hc & _).
  eapply ok_lift; [exact E|]. cbv beta. apply ok_modify.
  apply rearranged; [by apply Inv_within|done|]. by cbn [fst]; rewrite Hc.
Qed.

Lemma swap_perm g a b flags :
  proper (root g) -> NoDup (panes g) -> a ∈ panes g -> b ∈ panes g ->
  proper (root (PaneGroup.swap g a b flags).1)
  /\ Permutation (panes (PaneGroup.swap g a b flags).1) (panes g).
Proof.
  intros Hp Hnd Ha Hb. destruct (swap_ok g a b flags Hp) as (Hp' & _ & Hpanes).
  split; [done|]. rewrite Hpanes. destruct (root g) as [ax|q] eqn:E; [|done].
  apply NoDup_Permutation; [|done|].
  - apply NoDup_ListNoDup. apply NoDup_ListNoDup in Hnd.
    apply Finite.Injective_map_NoDup; [|done]. intros ?? ?. by eapply transpose_inj.
  - assert (Hinv : forall p, transpose a b (transpose a b p) = p)
      by (intros p; unfold transpose; repeat case_decide; congruence).
    intros p. rewrite list_elem_of_fmap. split.
    + intros (q & -> & Hq). unfold transpose. by repeat case_decide.
    + intros Hq. exists (transpose a b p). split; [by rewrite Hinv|].
      unfold transpose. by repeat case_decide.
Qed.

Lemma swap_in_direction_ok env s d :
  Inv s -> ok (swap_in_direction env d) s (fun _ s' => within (capped env s) s').
Proof.
  intros HI. unfold swap_in_direction. apply ok_get, ok_bind.
  destruct (find_in_direction_total env s d (Inv_proper _ HI)) as [o E].
  eapply ok_lift; [exact E|]. cbv beta. destruct o as [p|]; [|by apply ok_ret, Inv_within].
  pose proof (find_in_direction_elem env s d p HI E) as Hp.
  pose proof (ic_active _ _ _ _ _ _ _ _ _ HI) as Ha.
  destruct (swap_perm (center s) (active_pane s) p (in_center s)) as [Hpp Hperm];
    [by apply Inv_proper|by apply Inv_nodup|done|done|].
  apply ok_modify_bind. cbv beta zeta. apply ok_bind.
  eapply ok_weaken.
  - apply focus_ok; [apply rearranged; [by apply Inv_within|done|done]|].
    tg_cbn. by rewrite Hperm.
  - intros u s' Hw. cbv beta. ok_go. destruct Hw as [HI' Hc]. by split.
Qed.

Lemma equalize_ok env s : Inv s -> ok equalize s (fun _ s' => within (capped env s) s').
Proof.
  intros HI. unfold equalize. ok_go.
  destruct (reset_ok (center s) (in_center s) (Inv_proper _ HI)) as (Hp & _ & Hc).
  destruct (rearranged (capped env s) s (reset_pane_sizes (center s) (in_center s)))
    as [HI' Hc']; [by apply Inv_within|done|by rewrite Hc|]. by split.
Qed.

Lemma toggle_magnify_ok env s p :
  Inv s -> p ∈ panes (center s) ->
  ok (toggle_magnify p) s (fun _ s' => within (capped env s) s').
Proof.
  intros HI Hp. unfold toggle_magnify. ok_go. tg_cbn.
  split; [|tg_cbn; apply capped_ge]. unfold Inv, InvX. tg_cbn. by eapply core_active.
Qed.

Lemma spawn_if_empty_ok env s p :
  Inv s -> ok (spawn_if_empty env p) s (fun _ s' => within (capped env s) s').
Proof.
  intros HI. unfold spawn_if_empty. apply ok_get.
  destruct (_ || _); [by apply ok_ret, Inv_within|]. ok_go.
  split; [|tg_cbn; apply capped_ge]. unfold Inv, InvX. tg_cbn. by apply core_task.
Qed.

Lemma split_pane_within env s p d :
  Inv s -> next_entity s < OVERFLOW_ID_BASE ->
  ok (split_pane env p d) s (fun _ s' => within (capped env s) s').
Proof.
  intros HI Hb. unfold split_pane. apply ok_bind.
  eapply ok_weaken; [by apply split_pane_ok|]. intros r s' [Hw _]. cbv beta. by apply ok_ret.
Qed.

Lemma overflow_spawn_ok env s parent cmd :
  Inv s -> ok (spawn_overflow_worker env parent cmd) s (fun _ s' => within (capped env s) s').
Proof.
  intros HI. unfold spawn_overflow_worker. ok_go.
  split; [|tg_cbn; apply capped_ge]. unfold Inv, InvX. tg_cbn. by apply core_task_overflow.
Qed.

(** A split followed by registering the worker it was made for. *)
Lemma spawn_split_ok env s source parent cmd (B : Type) (k : option Z -> M B) :
  Inv s -> next_entity s < OVERFLOW_ID_BASE ->
  (forall s', within (capped env s) s' -> ok (k None) s' (fun _ s2 => within (capped env s) s2)) ->
  (forall s', within (capped env s) s' ->
     ok (register_worker (next_entity s) parent cmd) s'
       (fun _ s2 => Inv s2 /\ panes (center s2) = panes (center s')) ->
     ok (k (Some (next_entity s))) s' (fun _ s2 => within (capped env s) s2)) ->
  ok (split_pane_with_command env source Right (Some cmd) parent ≫= k) s
    (fun _ s' => within (capped env s) s').
Proof.
  intros HI Hb Hnone Hsome. apply ok_bind.
  eapply ok_weaken; [by apply split_pane_ok|]. intros [p|] s' [Hw Hp]; cbv beta; [|by apply Hnone].
  destruct Hp as (d' & metrics & -> & Hpost). apply Hsome; [done|]. by eapply register_ok.
Qed.

Lemma spawn_agent_ok env s p cmd :
  Inv s -> next_entity s < OVERFLOW_ID_BASE ->
  ok (spawn_agent_beside env p cmd) s (fun _ s' => within (capped env s) s').
Proof.
  intros HI Hb. unfold spawn_agent_beside. apply ok_get.
  destruct (at_visible_cap env s).
  - apply ok_bind. eapply ok_weaken; [by apply overflow_spawn_ok|].
    intros r s' Hw. cbv beta. by apply ok_ret.
  - apply spawn_split_ok; [done|done|intros; by apply ok_ret|].
    intros s' [_ Hc] Hr. eapply ok_weaken; [exact Hr|].
    intros u s2 [HI2 Hp2]. split; [done|]. by rewrite Hp2.
Qed.

Lemma control_spawn_ok env s source parent cmd :
  Inv s -> next_entity s < OVERFLOW_ID_BASE ->
  ok (control_spawn env source parent cmd) s (fun _ s' => within (capped env s) s').
Proof.
  intros HI Hb. unfold control_spawn. apply ok_get.
  destruct (at_visible_cap env s); [by apply overflow_spawn_ok|].
  apply spawn_split_ok; [done|done|intros; by apply ok_ret|].
  intros s' [_ Hc] Hr. apply ok_bind. eapply ok_weaken; [exact Hr|].
  intros u s2 [HI2 Hp2]. cbv beta. apply ok_ret. split; [done|]. by rewrite Hp2.
Qed.

Lemma start_terminal_ok env s p cmd :
  Inv s -> p ∈ panes (center s) -> (forall w, worker_panes s !! w = Some p -> w = p) ->
  ok (start_terminal_in_pane env p cmd) s (fun _ s' => within (capped env s) s').
Proof.
  intros HI Hp Huniq. unfold start_terminal_in_pane. apply ok_get.
  destruct (_ || _); [by apply ok_ret, Inv_within|]. apply ok_bind.
  destruct cmd as [cmd|]; ok_go; (split; [|tg_cbn; apply capped_ge]); unfold Inv, InvX; tg_cbn;
    (apply core_task; [|done]).
  - pose proof (ic_fresh _ _ _ _ _ _ _ _ _ HI p (in_tiles_live _ _ HI Hp)) as Hf.
    pose proof (ic_base _ _ _ _ _ _ _ _ _ HI) as [Hb _].
    apply core_worker_insert; [exact HI|done|done|by left|..].
    + apply eq_None_not_Some. intros Ho.
      by pose proof (ic_overflow_tile _ _ _ _ _ _ _ _ _ HI p Ho Hp).
    + intros Hpd. destruct (ic_pending _ _ _ _ _ _ _ _ _ HI p Hpd) as (? & _). lia.
    + done.
  - exact HI.
Qed.

(** ** Control operations *)

Lemma control_close_ok cap s w :
  within cap s ->
  ok (control_close w) s (fun _ s' => within cap s' /\ center s' = center s
    /\ worker_panes s' = delete w (worker_panes s)
    /\ overflow_workers s' = delete w (overflow_workers s)).
Proof.
  intros [HI Hcap]. unfold control_close. apply ok_get.
  assert (Hsub : forall w' q, delete w (worker_panes s) !! w' = Some q ->
    worker_panes s !! w' = Some q) by (by intros ? ? [_ ?]%lookup_delete_Some).
  destruct (overflow_workers s !! w) as [o|] eqn:Eo.
  - ok_go. tg_cbn. split_and!; try done. split; [|done]. unfold Inv, InvX. tg_cbn.
    eapply core_overflow_sub; [eapply core_workers_sub; [exact HI|done]|].
    intros w' [o' [_ ?]%lookup_delete_Some]. eauto.
  - assert (Eod : delete w (overflow_workers s) = overflow_workers s) by (by apply delete_id).
    destruct (worker_panes s !! w) as [p|] eqn:Ep.
    + ok_go. tg_cbn. rewrite Eod. split_and!; try done. split; [|done].
      unfold Inv, InvX. tg_cbn. by eapply core_workers_sub.
    + ok_go. rewrite Eod. split_and!; try done. by rewrite delete_id.
Qed.

Lemma close_all_ok cap s ids b :
  within cap s -> ok (close_all ids b) s (fun _ s' => within cap s').
Proof.
  revert s b. induction ids as [|w ids IH]; intros s b Hw; simpl; [by apply ok_ret|].
  apply ok_bind. eapply ok_weaken; [by apply control_close_ok|].
  intros c s' [Hw' _]. cbv beta. by apply IH.
Qed.

(** *** The search of the subtree *)

(** The workers reachable from [root] through recorded parents. *)
Inductive descendant (meta : gmap Z WorkerMetadata) (root_id : Z) : Z -> Prop :=
| descendant_root : descendant meta root_id root_id
| descendant_child w parent m :
    descendant meta root_id parent -> meta !! w = Some m -> parent_id m = Some parent ->
    descendant meta root_id w.

Lemma children_of_spec meta w c :
  c ∈ children_of meta w <-> exists m, meta !! c = Some m /\ parent_id m = Some w.
Proof.
  unfold children_of. rewrite list_elem_of_fmap. split.
  - intros ([c' m] & -> & Hin). rewrite list_elem_of_In, List.filter_In in Hin.
    destruct Hin as [Hin Hp]. simpl in *. apply bool_decide_eq_true in Hp.
    apply list_elem_of_In, elem_of_map_to_list in Hin. eauto.
  - intros (m & Hm & Hp). exists (c, m). split; [done|].
    rewrite list_elem_of_In, List.filter_In. split.
    + by apply list_elem_of_In, elem_of_map_to_list.
    + simpl. by apply bool_decide_eq_true.
Qed.

Lemma NoDup_children_of meta w : NoDup (children_of meta w).
Proof.
  unfold children_of. apply NoDup_ListNoDup. pose proof (NoDup_fst_map_to_list meta) as Hnd.
  apply NoDup_ListNoDup in Hnd. induction (map_to_list meta) as [|[k m] l IH]; simpl; [constructor|].
  inversion_clear Hnd as [|? ? Hn Hnd']. case_bool_decide; simpl; [|by apply IH].
  constructor; [|by apply IH]. intros ([k' m'] & Heq & Hin)%in_map_iff. simpl in Heq. subst.
  apply List.filter_In in Hin as [Hin _]. apply Hn. apply in_map_iff. by exists (k, m').
Qed.

(** The number of workers whose parent is still unvisited bounds what can be
    pushed later. *)
Definition unvisited (meta : gmap Z WorkerMetadata) (seen : gset Z) : nat :=
  length (List.filter (fun kv => match parent_id kv.2 with
                                 | Some q => bool_decide (q ∉ seen)
                                 | None => false
                                 end) (map_to_list meta)).

Lemma unvisited_step meta w seen :
  w ∉ seen ->
  (length (children_of meta w) + unvisited meta ({[ w ]} ∪ seen) = unvisited meta seen)%nat.
Proof.
  intros Hw. unfold children_of, unvisited. rewrite length_map.
  induction (map_to_list meta) as [|[k m] l IH]; simpl; [done|].
  destruct (parent_id m) as [q|] eqn:Eq.
  - destruct (decide (q = w)) as [->|Hn].
    + rewrite (bool_decide_eq_true_2 (Some w = Some w)) by done.
      rewrite (bool_decide_eq_false_2 (w ∉ {[w]} ∪ seen)) by set_solver.
      rewrite (bool_decide_eq_true_2 (w ∉ seen)) by done. simpl. lia.
    + rewrite (bool_decide_eq_false_2 (Some q = Some w)) by congruence.
      destruct (decide (q ∈ seen)).
      * rewrite !(bool_decide_eq_false_2 (q ∉ _)) by set_solver. done.
      * rewrite !(bool_decide_eq_true_2 (q ∉ _)) by set_solver. simpl. lia.
  - by rewrite (bool_decide_eq_false_2 (None = Some w)).
Qed.

Lemma unvisited_le meta seen : (unvisited meta seen <= length (map_to_list meta))%nat.
Proof. apply filter_length_le. Qed.

(** The search ends, and has found every descendant and nothing else. *)
Lemma subtree_loop_spec meta root_id fuel pending seen :
  (length pending + unvisited meta seen <= fuel)%nat ->
  (forall w, w ∈ pending \/ w ∈ seen -> descendant meta root_id w) ->
  (root_id ∈ pending \/ root_id ∈ seen) ->
  (forall w c m, w ∈ seen -> meta !! c = Some m -> parent_id m = Some w ->
     c ∈ pending \/ c ∈ seen) ->
  exists found, subtree_loop fuel meta pending seen = Some found
    /\ forall w, w ∈ found <-> descendant meta root_id w.
Proof.
  revert pending seen. induction fuel as [|fuel IH]; intros pending seen Hf Hd Hr Hc.
  - destruct pending as [|w pending]; [|simpl in Hf; lia]. exists seen. split; [done|].
    intros w. split; [intros; apply Hd; by right|].
    induction 1 as [|w q m _ Hq Hm Hp]; [set_solver|].
    destruct (Hc _ _ _ Hq Hm Hp); [set_solver|done].
  - destruct pending as [|w pending]; simpl.
    + exists seen. split; [done|]. intros w. split; [intros; apply Hd; by right|].
      induction 1 as [|w q m _ Hq Hm Hp]; [set_solver|].
      destruct (Hc _ _ _ Hq Hm Hp); [set_solver|done].
    + simpl in Hf. destruct (decide (w ∈ seen)) as [Hw|Hw].
      * apply IH; [lia|set_solver|set_solver|]. intros v c m Hv Hm Hp.
        destruct (Hc _ _ _ Hv Hm Hp); set_solver.
      * pose proof (unvisited_step meta w seen Hw) as Hu. apply IH.
        -- rewrite length_app, length_rev. lia.
        -- intros v Hv. rewrite elem_of_app, list_elem_of_In, <-in_rev, <-list_elem_of_In in Hv.
           destruct Hv as [[Hv|Hv]|[Hv%elem_of_singleton|Hv]%elem_of_union].
           ++ apply children_of_spec in Hv as (m & Hm & Hp).
              eapply descendant_child; [|done|done]. apply Hd. left. by left.
           ++ apply Hd. left. by right.
           ++ subst v. apply Hd. left. by left.
           ++ apply Hd. by right.
        -- destruct Hr as [[->|Hr]%elem_of_cons|Hr]; [right; set_solver| |right; set_solver].
           left. apply elem_of_app. by right.
        -- intros v c m Hv Hm Hp.
           rewrite elem_of_app, list_elem_of_In, <-in_rev, <-list_elem_of_In.
           apply elem_of_union in Hv as [->%elem_of_singleton|Hv].
           ++ left. left. apply children_of_spec. eauto.
           ++ destruct (Hc _ _ _ Hv Hm Hp) as [[->|?]%elem_of_cons|?]; set_solver.
Qed.

Lemma subtree_found meta root_id :
  exists found, subtree_loop (S (length (map_to_list meta))) meta [root_id] ∅ = Some found
    /\ forall w, w ∈ found <-> descendant meta root_id w.
Proof.
  apply subtree_loop_spec.
  - pose proof (unvisited_le meta ∅). simpl. lia.
  - intros w [->%list_elem_of_singleton|Hw]; [constructor|set_solver].
  - left. by left.
  - set_solver.
Qed.

Lemma control_close_subtree_ok env s w :
  Inv s -> ok (control_close_subtree w) s (fun _ s' => within (capped env s) s').
Proof.
  intros HI. unfold control_close_subtree. apply ok_get.
  destruct (subtree_found (worker_metadata s) w) as (found & -> & _).
  apply close_all_ok. by apply Inv_within.
Qed.

Lemma set_metadata_within cap f s : within cap s -> within cap (set_metadata f s).
Proof. intros [HI Hc]. split; [inv_frame HI|done]. Qed.

Lemma add_effect_within cap e s : within cap s -> within cap (add_effect e s).
Proof. intros [HI Hc]. split; [inv_frame HI|done]. Qed.

Lemma set_spawning_within cap f s : within cap s -> within cap (set_spawning f s).
Proof. intros [HI Hc]. split; [inv_frame HI|done]. Qed.

#[export] Hint Resolve set_metadata_within add_effect_within set_spawning_within : rdg.

Lemma control_restart_ok env s w :
  Inv s -> next_entity s < OVERFLOW_ID_BASE ->
  ok (control_restart env w) s (fun _ s' => within (capped env s) s').
Proof.
  intros HI Hb. unfold control_restart. apply ok_get.
  destruct (worker_metadata s !! w) as [meta|]; [|by apply ok_ret, Inv_within].
  apply ok_modify_bind. cbv beta zeta.
  destruct (overflow_workers s !! w) as [o|].
  - do 2 apply ok_modify_bind. unfold emit_worker. apply ok_modify_bind. cbv beta.
    apply ok_bind. eapply ok_weaken; [apply control_spawn_ok; [|exact Hb]|].
    + unfold Inv, InvX. tg_cbn.
      eapply core_overflow_sub; [eapply core_workers_sub; [exact HI|]|].
      * by intros ? ? [_ ?]%lookup_delete_Some.
      * intros w' [o' [_ ?]%lookup_delete_Some]. eauto.
    + intros r s' Hw. cbv beta. apply ok_ret. exact Hw.
  - destruct (worker_panes s !! w) as [p|]; ok_go; (split; [|tg_cbn; apply capped_ge]).
    + unfold Inv, InvX. tg_cbn. by apply core_task.
    + inv_frame HI.
Qed.

Lemma control_report_ok env s w st sm :
  Inv s -> ok (control_report w st sm) s (fun _ s' => within (capped env s) s').
Proof.
  intros HI. unfold control_report. apply ok_get.
  destruct (worker_metadata s !! w); ok_go; eauto with rdg.
Qed.

Lemma control_signal_ok env s w :
  Inv s ->
  ok (control_pause env w) s (fun _ s' => within (capped env s) s')
  /\ ok (control_resume env w) s (fun _ s' => within (capped env s) s').
Proof.
  intros HI. split; [unfold control_pause|unfold control_resume]; apply ok_get;
    (destruct (terminal_for_worker s w) as [t|]; [|by apply ok_ret, Inv_within]); cbv zeta;
    [destruct (pause_process env t)|destruct (resume_process env t)]; ok_go; eauto with rdg.
Qed.

Lemma control_send_ok env s w text :
  Inv s -> ok (control_send w text) s (fun _ s' => within (capped env s) s').
Proof.
  intros HI. unfold control_send. apply ok_get.
  destruct (terminal_for_worker s w); ok_go; eauto with rdg.
Qed.

Lemma control_focus_ok env s w :
  Inv s -> next_entity s < OVERFLOW_ID_BASE ->
  ok (control_focus env w) s (fun _ s' => within (capped env s) s').
Proof.
  intros HI Hb. unfold control_focus. apply ok_get.
  destruct (overflow_workers s !! w) as [o|]; [by apply promote_ok|].
  destruct (worker_panes s !! w) as [p|] eqn:Ep; [|by apply ok_ret, Inv_within].
  apply ok_bind. eapply ok_weaken.
  - apply focus_ok; [by apply (Inv_within env)|]. by eapply (ic_worker_pane _ _ _ _ _ _ _ _ _ HI).
  - intros u s' Hw. cbv beta. by apply ok_ret.
Qed.

(** ** Drag and drop *)

Lemma handle_drop_ok env s source i :
  Inv s -> ok (handle_drop env source i) s (fun _ s' => within (capped env s) s').
Proof.
  intros HI. unfold handle_drop. destruct i as [t|]; [|by apply ok_ret, Inv_within].
  apply ok_get. case_decide; [by apply ok_ret, Inv_within|].
  destruct (metrics_total env s (active_pane s) (Inv_proper _ HI)) as [metrics Em].
  apply ok_bind. eapply ok_lift; [exact Em|]. cbv beta.
  assert (Hadd : within (capped env s) (add_task (TaskAdopt (ITerminal t)) s)).
  { split; [|tg_cbn; apply capped_ge]. unfold Inv, InvX. tg_cbn. by apply core_task. }
  destruct metrics; [case_decide|]; ok_go; eauto with rdg.
Qed.

Lemma group_bounds_total s : proper (root (center s)) -> exists o, group_bounds s = Ret o.
Proof.
  intros Hp. unfold group_bounds.
  assert (Hb : forall l, exists bs, boxes_of (center s) l = Ret bs).
  { induction l as [|p l [bs IH]]; simpl; [eauto|].
    destruct (bounding_box_total (center s) p Hp) as ([b|] & ->); rewrite IH; eauto. }
  destruct (Hb (tiles s)) as [[|b bs] ->]; eauto.
Qed.

Lemma resolve_drop_total s pos :
  proper (root (center s)) -> exists o, resolve_drop_target s pos = Ret o.
Proof.
  intros Hp. unfold resolve_drop_target. destruct (group_bounds_total s Hp) as ([b|] & ->); [|eauto].
  pose proof (hit_total (center s) pos Hp) as Hh.
  destruct (pane_at_pixel_position (center s) pos) as [[p|]|]; [|eauto|done].
  destruct (bounding_box_total (center s) p Hp) as ([b'|] & ->); eauto.
Qed.

Lemma on_drag_move_ok env s pos :
  Inv s -> ok (on_drag_move pos) s (fun _ s' => within (capped env s) s').
Proof.
  intros HI. unfold on_drag_move. apply ok_get, ok_bind.
  destruct (resolve_drop_total s pos (Inv_proper _ HI)) as [o E].
  eapply ok_lift; [exact E|]. cbv beta. ok_go. split; [inv_frame HI|tg_cbn; apply capped_ge].
Qed.

Lemma finish_drop_ok cap s dragged :
  within cap s -> dragged ∈ panes (center s) ->
  ok (_ ← set_active_pane dragged; emit UpdateTab) s (fun _ s' => within cap s').
Proof.
  intros Hw Hd. apply ok_bind. eapply ok_weaken; [by apply focus_ok|].
  intros u s' Hw'. cbv beta. unfold emit. apply ok_modify. by apply add_effect_within.
Qed.

(** Taking a tile out of the tree and putting it back beside another keeps the
    same tiles. *)
Lemma reinsert_perm (l : list pane_id) (p old : pane_id) after :
  p ∈ l -> NoDup l -> remove_first p l <> [] ->
  Permutation (insert_beside (remove_first p l) (split_point (remove_first p l) old) p after) l.
Proof.
  intros Hp Hnd Hne. rewrite insert_beside_perm.
  - by rewrite <-remove_first_perm.
  - unfold split_point. case_decide; [done|]. destruct (remove_first p l); [done|]. by left.
Qed.

Lemma apply_drop_ok env s dragged target zone :
  Inv s -> dragged ∈ panes (center s) -> target ∈ panes (center s) ->
  ok (apply_drop env dragged target zone) s (fun _ s' => within (capped env s) s').
Proof.
  intros HI Hd Ht. unfold apply_drop.
  destruct (_ && _) eqn:Eself; [by apply ok_ret, Inv_within|]. cbv zeta.
  destruct zone as [|d|d]; apply ok_get.
  - destruct (swap_perm (center s) dragged target (in_center s)) as [Hp Hperm];
      [by apply Inv_proper|by apply Inv_nodup|done|done|].
    apply ok_modify_bind. cbv beta. apply finish_drop_ok.
    + apply rearranged; [by apply Inv_within|done|done].
    + tg_cbn. by rewrite Hperm.
  - assert (Hne : dragged <> target).
    { intros ->. rewrite bool_decide_eq_true_2 in Eself; done. }
    destruct (metrics_total env s target (Inv_proper _ HI)) as [metrics Em].
    apply ok_bind. eapply ok_lift; [exact Em|]. cbv beta zeta.
    match goal with |- context [center_split target dragged ?x] => set (dir := x) end.
    apply ok_bind. eapply ok_weaken; [apply center_remove_ok; by apply Inv_proper|].
    intros b s1 (g & fl & -> & Hcase). cbv beta.
    destruct Hcase as [(-> & Hin & Hp & Hpanes)|[(_ & -> & q & Hq)|(-> & -> & Hn)]]; [| |done].
    + unfold center_split. apply ok_bind, ok_get. tg_cbn.
      destruct (split_ok g target dragged dir fl Hp) as (g2 & E2 & Hp2 & _ & Hpanes2).
      apply ok_bind. eapply ok_lift; [exact E2|]. cbv beta. apply ok_modify. cbv beta.
      assert (Hperm : Permutation (panes g2) (panes (center s))).
      { rewrite Hpanes2, Hpanes. apply reinsert_perm; [done|by apply Inv_nodup|].
        rewrite <-Hpanes. by apply collect_nonempty. }
      apply finish_drop_ok.
      * exact (rearranged (capped env s) s (g2, mark_positions g2 fl)
                 (Inv_within env s HI) Hp2 Hperm).
      * tg_cbn. by rewrite Hperm.
    + unfold panes in Hd, Ht. rewrite Hq in Hd, Ht. simpl in *.
      apply list_elem_of_singleton in Hd, Ht. congruence.
  - destruct (move_to_border_ok (center s) dragged d (in_center s) (Inv_proper _ HI) Hd)
      as (b & g & fl & Em & Hp & Hperm & _).
    apply ok_bind. eapply ok_lift; [exact Em|]. cbv beta iota.
    apply ok_modify_bind. cbv beta. apply finish_drop_ok.
    + apply rearranged; [by apply Inv_within|done|done].
    + tg_cbn. by rewrite Hperm.
Qed.

Lemma on_drop_ok env s dragged :
  Inv s -> dragged ∈ panes (center s) ->
  (forall t z, drop_target s = Some (t, z) -> t ∈ panes (center s)) ->
  ok (on_drop env dragged) s (fun _ s' => within (capped env s) s').
Proof.
  intros HI Hd Ht. unfold on_drop. apply ok_get, ok_modify_bind. cbv beta.
  assert (HI' : Inv (set_drop_target None s)) by inv_frame HI.
  destruct (drop_target s) as [[t z]|]; [|apply ok_ret; by split; [|tg_cbn; apply capped_ge]].
  eapply ok_weaken; [apply (apply_drop_ok env); [exact HI'|exact Hd|by eapply Ht]|].
  intros u s' Hw. exact Hw.
Qed.

(** ** Pane events and the tasks left to run *)

Lemma focus_event_ok env s p :
  Inv s -> p ∈ panes (center s) ->
  ok (handle_pane_event env p PFocus) s (fun _ s' => within (capped env s) s').
Proof.
  intros HI Hp. unfold handle_pane_event. apply ok_modify_bind, ok_get. cbv beta.
  assert (Hend : forall m, ok (if auto_start_empty_tiles (set_active p s)
      then spawn_if_empty env p else mret tt) (set_magnified m (set_active p s))
      (fun _ s' => within (capped env s) s')).
  { intros m.
    assert (HI' : Inv (set_magnified m (set_active p s)))
      by (unfold Inv, InvX; tg_cbn; by eapply core_active).
    destruct (auto_start_empty_tiles _).
    - eapply ok_weaken; [apply (spawn_if_empty_ok env _ p HI')|]. intros u s' Hw. exact Hw.
    - apply ok_ret. split; [exact HI'|tg_cbn; apply capped_ge]. }
  apply ok_bind.
  assert (Hsame : set_active p s = set_magnified (magnified_pane s) (set_active p s)) by done.
  destruct (magnified_pane (set_active p s)) as [q|];
    [destruct (is_magnified (set_active p s) p)|].
  - apply ok_ret. cbv beta. rewrite Hsame at 2. apply Hend.
  - apply ok_modify. cbv beta. apply Hend.
  - apply ok_ret. cbv beta. rewrite Hsame at 2. apply Hend.
Qed.

Lemma shell_started_ok env s p t :
  Inv s -> ok (shell_started p t) s (fun _ s' => within (capped env s) s').
Proof.
  intros HI. unfold shell_started. apply ok_get, ok_bind.
  assert (Hend : forall s', within (capped env s) s' ->
    ok (modify (set_spawning (fun sp => sp ∖ {[ p ]}))) s'
      (fun _ s'' => within (capped env s) s''))
    by (intros s' Hw; apply ok_modify; by apply set_spawning_within).
  destruct t as [t|]; [case_decide as Hlive|].
  - unfold add_item. apply ok_get, ok_modify_bind, ok_modify. cbv beta zeta. apply Hend.
    split; [|tg_cbn; apply capped_ge]. unfold Inv, InvX. tg_cbn. by apply core_pane_update.
  - apply ok_ret. cbv beta. by apply Hend, Inv_within.
  - apply ok_ret. cbv beta. by apply Hend, Inv_within.
Qed.

Lemma overflow_started_ok env s w parent cmd t :
  Inv s -> w ∉ pending_ids (tasks s) -> worker_panes s !! w = None ->
  OVERFLOW_ID_BASE <= w < next_overflow_id s ->
  ok (overflow_started w parent cmd t) s (fun _ s' => within (capped env s) s').
Proof.
  intros HI Hpd Hwp Hid. unfold overflow_started. destruct t as [t|]; ok_go.
  - split; [|tg_cbn; apply capped_ge]. unfold Inv, InvX. tg_cbn.
    apply core_overflow_insert; [exact HI|by right|done|done|].
    intros Hin. pose proof (ic_fresh _ _ _ _ _ _ _ _ _ HI w (in_tiles_live _ _ HI Hin)).
    pose proof (ic_base _ _ _ _ _ _ _ _ _ HI). lia.
  - eauto with rdg.
Qed.

(** ** The operations of the group *)

(** What can happen to a group: a user action, a control-plane request, a pane
    event, the end of a task (with the terminal it created, if any), the
    release of a pane entity nothing shows any more, or a painting of the
    tiles. *)
Inductive op :=
| OpSplit (d : SplitDirection)
| OpSplitTile (p : pane_id)
| OpFocusDirection (d : SplitDirection)
| OpFocusNext
| OpSwapDirection (d : SplitDirection)
| OpEqualize
| OpMagnify (p : pane_id)
| OpCloseTile (p : pane_id)
| OpStart (p : pane_id) (cmd : option string)
| OpAgent (p : pane_id) (cmd : string)
| OpSpawn (source parent : option Z) (cmd : string)
| OpSend (w : Z) (text : string)
| OpPause (w : Z)
| OpResume (w : Z)
| OpClose (w : Z)
| OpCloseSubtree (w : Z)
| OpRestart (w : Z)
| OpReport (w : Z) (st : string) (sm : option string)
| OpFocusWorker (w : Z)
| OpDemote (w : Z)
| OpHandleDrop (source : pane_id) (i : item)
| OpDragMove (pos : Point)
| OpDrop (dragged : pane_id)
| OpPaneEvent (p : pane_id) (e : pane_event)
| OpTask (n : nat) (terminal : option Z)
| OpRelease (p : pane_id)
| OpPaint (place : list nat -> Bounds).

Definition ignore {A} (m : M A) : M unit := _ ← m; mret tt.

Definition run_task (env : Env) (k : task) (terminal : option Z) : M unit :=
  match k with
  | TaskShell p _ _ => shell_started p terminal
  | TaskOverflow w parent cmd _ => overflow_started w parent cmd terminal
  | TaskRestart parent cmd => ignore (control_spawn env parent parent cmd)
  | TaskAdopt i => adopt_terminal env i
  end.

Definition exec (env : Env) (o : op) : M unit :=
  match o with
  | OpSplit d => TerminalGroup.split env d
  | OpSplitTile p => split_tile env p
  | OpFocusDirection d => focus_in_direction env d
  | OpFocusNext => focus_next
  | OpSwapDirection d => swap_in_direction env d
  | OpEqualize => equalize
  | OpMagnify p => toggle_magnify p
  | OpCloseTile p => close_tile p
  | OpStart p cmd => start_terminal_in_pane env p cmd
  | OpAgent p cmd => spawn_agent_beside env p cmd
  | OpSpawn source parent cmd => ignore (control_spawn env source parent cmd)
  | OpSend w text => ignore (control_send w text)
  | OpPause w => ignore (control_pause env w)
  | OpResume w => ignore (control_resume env w)
  | OpClose w => ignore (control_close w)
  | OpCloseSubtree w => ignore (control_close_subtree w)
  | OpRestart w => ignore (control_restart env w)
  | OpReport w st sm => ignore (control_report w st sm)
  | OpFocusWorker w => ignore (control_focus env w)
  | OpDemote w => ignore (control_demote w)
  | OpHandleDrop source i => ignore (handle_drop env source i)
  | OpDragMove pos => on_drag_move pos
  | OpDrop dragged => on_drop env dragged
  | OpPaneEvent p e => handle_pane_event env p e
  | OpTask n terminal =>
      s ← get;
      match tasks s !! n with
      | None => mret tt
      | Some k =>
          _ ← modify (set_tasks (take n (tasks s) ++ drop (S n) (tasks s)));
          run_task env k terminal
      end
  | OpRelease p => modify (set_tile_panes (delete p))
  | OpPaint place => paint_group place
  end.

(** What the surroundings guarantee of an operation: panes the user points at
    are tiles of this group, and a released pane is not. *)
Definition op_ok (s : TG) (o : op) : Prop :=
  match o with
  | OpMagnify p | OpPaneEvent p PFocus => p ∈ panes (center s)
  | OpStart p _ => p ∈ panes (center s) /\ forall w, worker_panes s !! w = Some p -> w = p
  | OpDrop dragged =>
      dragged ∈ panes (center s)
      /\ forall t z, drop_target s = Some (t, z) -> t ∈ panes (center s)
  | OpRelease p => p ∉ panes (center s)
  | _ => True
  end.

(** Operations that add a tile without asking the cap. *)
Definition uncapped (s : TG) (o : op) : bool :=
  match o with
  | OpPaneEvent _ PAddItem => true
  | OpTask n _ => match tasks s !! n with Some (TaskAdopt _) => true | _ => false end
  | _ => false
  end.

Definition tile_bound (env : Env) (s : TG) (o : op) : nat :=
  if uncapped s o then S (length (panes (center s))) else capped env s.

Lemma ignore_ok {A} (m : M A) cap s :
  ok m s (fun _ s' => within cap s') -> ok (ignore m) s (fun _ s' => within cap s').
Proof.
  intros H. unfold ignore. apply ok_bind. eapply ok_weaken; [exact H|].
  intros a s' Hw. cbv beta. by apply ok_ret.
Qed.

Lemma task_ok env s n t k :
  Inv s -> next_entity s < OVERFLOW_ID_BASE -> tasks s !! n = Some k ->
  ok (run_task env k t) (set_tasks (take n (tasks s) ++ drop (S n) (tasks s)) s)
    (fun _ s' => within (match k with TaskAdopt _ => S (length (panes (center s)))
                                    | _ => capped env s end) s').
Proof.
  intros HI Hb Hk. destruct (core_task_done HI n k Hk) as [HI' Hpd].
  set (s1 := set_tasks _ s). assert (HI1 : Inv s1) by exact HI'.
  destruct k as [p wd init|w parent cmd init|parent cmd|i]; cbn [run_task].
  - exact (shell_started_ok env s1 p t HI1).
  - assert (Hp : w ∈ pending_ids (tasks s)).
    { unfold pending_ids. apply list_elem_of_omap. exists (TaskOverflow w parent cmd init).
      split; [by eapply list_elem_of_lookup_2|done]. }
    destruct (ic_pending _ _ _ _ _ _ _ _ _ HI w Hp) as (Hid & Hwp & _).
    exact (overflow_started_ok env s1 w parent cmd t HI1 (Hpd _ _ _ _ eq_refl) Hwp Hid).
  - apply ignore_ok. exact (control_spawn_ok env s1 parent parent cmd HI1 Hb).
  - exact (adopt_ok env s1 i HI1 Hb).
Qed.

Lemma exec_ok env s o :
  Inv s -> next_entity s < OVERFLOW_ID_BASE -> op_ok s o ->
  ok (exec env o) s (fun _ s' => within (tile_bound env s o) s').
Proof.
  intros HI Hb Ho. pose proof (Inv_within env s HI) as Hw.
  destruct (control_signal_ok env s) with (w := match o with OpPause w | OpResume w => w | _ => 0 end)
    as [Hpause Hresume]; [done|].
  destruct o as [d|p|d| |d| |p|p|p cmd|p cmd|source parent cmd|w text|w|w|w|w|w|w st sm|w|w
    |source i|pos|dragged|p e|n t|p|place]; unfold tile_bound; cbn [exec uncapped op_ok] in *;
    try match goal with |- ok (ignore _) _ _ => apply ignore_ok end.
  - unfold TerminalGroup.split. apply ok_get. by apply split_pane_within.
  - by apply split_pane_within.
  - by apply focus_in_direction_ok.
  - by apply focus_next_ok.
  - by apply swap_in_direction_ok.
  - by apply equalize_ok.
  - by apply toggle_magnify_ok.
  - unfold close_tile. apply ok_modify. by apply add_effect_within.
  - destruct Ho. by apply start_terminal_ok.
  - by apply spawn_agent_ok.
  - by apply control_spawn_ok.
  - by apply control_send_ok.
  - done.
  - done.
  - eapply ok_weaken; [by apply control_close_ok|]. by intros b s' [? _].
  - by apply control_close_subtree_ok.
  - by apply control_restart_ok.
  - by apply control_report_ok.
  - by apply control_focus_ok.
  - by apply demote_ok.
  - by apply handle_drop_ok.
  - by apply on_drag_move_ok.
  - destruct Ho. by apply on_drop_ok.
  - destruct e as [|f|d| |]; cbn [op_ok] in *.
    + by apply focus_event_ok.
    + by apply remove_tile_ok.
    + by apply split_pane_within.
    + by apply enforce_ok.
    + by apply ok_ret.
  - apply ok_get. destruct (tasks s !! n) as [k|] eqn:Ek; [|by apply ok_ret].
    apply ok_modify_bind. cbv beta. eapply ok_weaken; [by apply task_ok|].
    intros u s' Hs. by destruct k.
  - apply ok_modify. split; [|tg_cbn; apply capped_ge].
    unfold Inv, InvX. tg_cbn. by apply core_release.
  - by apply paint_group_ok.
Qed.
