(* ===== verification/LayoutRestore.v ===== *)
(** * Restoring a stored layout

    What [build_tree] and [restore_layout] create, and that a group stored and
    restored comes back with the same tree. *)

From S2P Require Import Prelude F32 PaneGroup SplitGuard DropZone Persistence.
From S2P Require Import TerminalGroup GroupInvariant.
From stdpp Require Import strings gmap.
Local Open Scope Z_scope.

(** [n] consecutive entity ids from [ne] on. *)
Fixpoint pane_ids (ne : Z) (n : nat) : list pane_id :=
  match n with O => [] | S n' => ne :: pane_ids (ne + 1) n' end.

Definition alloc_panes (ids : list pane_id) (tp : gmap Z Pane) : gmap Z Pane :=
  fold_left (fun tp p => <[p := empty_pane]> tp) ids tp.

(** The state after [n] tiles were created. *)
Definition allocated (n : nat) (s : TG) : TG :=
  set_next_entity (next_entity s + Z.of_nat n)
    (set_tile_panes (alloc_panes (pane_ids (next_entity s) n)) s).

Lemma pane_ids_app ne a b : pane_ids ne (a + b) = pane_ids ne a ++ pane_ids (ne + Z.of_nat a) b.
Proof.
  revert ne. induction a as [|a IH]; intros ne; simpl.
  - by rewrite Z.add_0_r.
  - rewrite IH. do 3 f_equal. lia.
Qed.

Lemma length_pane_ids ne n : length (pane_ids ne n) = n.
Proof. revert ne. induction n as [|n IH]; intros ne; simpl; auto. Qed.

Lemma elem_of_pane_ids ne n p : p ∈ pane_ids ne n <-> ne <= p < ne + Z.of_nat n.
Proof.
  revert ne. induction n as [|n IH]; intros ne; simpl.
  - rewrite elem_of_nil. lia.
  - rewrite elem_of_cons, IH. lia.
Qed.

Lemma NoDup_pane_ids ne n : NoDup (pane_ids ne n).
Proof.
  revert ne. induction n as [|n IH]; intros ne; simpl; constructor; [|done].
  rewrite elem_of_pane_ids. lia.
Qed.

Lemma alloc_app a b tp : alloc_panes (a ++ b) tp = alloc_panes b (alloc_panes a tp).
Proof. apply fold_left_app. Qed.

Lemma allocated_add a b s : allocated b (allocated a s) = allocated (a + b) s.
Proof.
  unfold allocated, set_next_entity, set_tile_panes. tg_cbn.
  rewrite pane_ids_app, alloc_app. f_equal. lia.
Qed.

Lemma lookup_alloc ids tp p :
  alloc_panes ids tp !! p = if decide (p ∈ ids) then Some empty_pane else tp !! p.
Proof.
  revert tp. induction ids as [|q ids IH]; intros tp; simpl; [done|].
  rewrite IH. destruct (decide (p ∈ ids)).
  - rewrite decide_True by (by right). done.
  - destruct (decide (p = q)) as [->|].
    + rewrite decide_True by (by left). rewrite lookup_insert. by rewrite decide_True.
    + rewrite decide_False by (by intros [?|?]%elem_of_cons).
      by rewrite lookup_insert_ne.
Qed.

(** Every axis of the stored tree has at least two children, as every axis of a
    live tree has. *)
Inductive branching : SerializedTileTree -> Prop :=
| branching_tile t : branching (STTile t)
| branching_axis ax fl cs :
    (2 <= length cs)%nat -> Forall branching cs -> branching (STAxis ax fl cs).

(** Trees [restore_layout] gives back exactly: no reserved tile data, and flexes
    that [PaneAxis::load] keeps. *)
Inductive restorable : SerializedTileTree -> Prop :=
| restorable_tile : restorable (STTile default_tile)
| restorable_axis ax fl cs :
    flexes_acceptable fl (length cs) = true -> Forall restorable cs ->
    restorable (STAxis ax fl cs).

Definition built (node : SerializedTileTree) (ids : list pane_id) (m : Member) : Prop :=
  collect_panes m = ids
  /\ (branching node -> proper m)
  /\ (restorable node -> serialize_tree m = node).

Lemma build_tree_spec node created s :
  exists m, build_tree node created s
    = Ret ((m, created ++ pane_ids (next_entity s) (tile_count node)),
           allocated (tile_count node) s)
  /\ built node (pane_ids (next_entity s) (tile_count node)) m.
Proof.
  revert created s. induction node as [t|ax fl cs IH] using stree_induction; intros created s.
  - exists (MPane (next_entity s)). split.
    + reflexivity.
    + split_and!; [done|constructor|]. by inversion_clear 1.
  - assert (Hcs : forall created s, exists ms,
      build_children build_tree cs created s
      = Ret ((ms, created ++ pane_ids (next_entity s)
                      (fold_right Nat.add 0%nat (map tile_count cs))),
             allocated (fold_right Nat.add 0%nat (map tile_count cs)) s)
      /\ length ms = length cs
      /\ flat_map collect_panes ms
         = pane_ids (next_entity s) (fold_right Nat.add 0%nat (map tile_count cs))
      /\ (Forall branching cs -> Forall proper ms)
      /\ (Forall restorable cs -> map serialize_tree ms = cs)).
    { clear created s. induction IH as [|c cs Hc _ IH]; intros created s.
      - exists []. simpl. rewrite app_nil_r. split_and!; try done.
        unfold allocated. simpl. rewrite Z.add_0_r. by destruct s.
      - destruct (Hc created s) as (m & Em & Hcm & Hpm & Hsm).
        destruct (IH (created ++ pane_ids (next_entity s) (tile_count c))
          (allocated (tile_count c) s)) as (ms & Ems & Hl & Hcms & Hpms & Hsms).
        exists (m :: ms). simpl. split_and!.
        + unfold mbind, M_bind. rewrite Em. cbn [snd fst]. rewrite Ems. unfold mret, M_ret.
          cbn [snd fst]. rewrite allocated_add, pane_ids_app, app_assoc. done.
        + by rewrite Hl.
        + rewrite Hcm, Hcms, pane_ids_app. done.
        + intros [? ?]%Forall_cons. constructor; auto.
        + intros [? ?]%Forall_cons. f_equal; auto. }
    destruct (Hcs created s) as (ms & Ems & Hl & Hc & Hp & Hs).
    eexists. split.
    + cbn [build_tree tile_count]. unfold mbind, M_bind. rewrite Ems. reflexivity.
    + cbn [fst tile_count]. split_and!.
      * exact Hc.
      * inversion_clear 1 as [|? ? ? Hlen Hbr]. unfold axis_load.
        constructor; [lia| |by rewrite length_replicate|by apply Hp].
        destruct (flexes_acceptable fl (length ms)) eqn:Ef;
          [|unfold ones; by rewrite length_replicate].
        unfold flexes_acceptable in Ef. apply andb_true_iff in Ef as [Ef _].
        by apply Nat.eqb_eq in Ef.
      * inversion_clear 1 as [|? ? ? Hacc Hrs]. unfold axis_load.
        rewrite Hl, Hacc. cbn [serialize_tree]. rewrite axis_roundtrip_inv. f_equal. auto.
Qed.

(** ** The restored state *)

Lemma spawn_all_overflow_run env l s :
  exists s', spawn_all_overflow env l s = Ret (tt, s')
    /\ (Inv s -> Inv s')
    /\ center s' = center s /\ active_pane s' = active_pane s
    /\ magnified_pane s' = magnified_pane s /\ title s' = title s
    /\ tile_panes s' = tile_panes s /\ next_entity s' = next_entity s
    /\ overflow_workers s' = overflow_workers s /\ worker_panes s' = worker_panes s
    /\ next_overflow_id s' = next_overflow_id s + Z.of_nat (length l)
    /\ exists ks, tasks s' = tasks s ++ ks
       /\ Forall2 (fun w k => exists id, k = TaskOverflow id (sw_parent_id w) (sw_command w)
                     (worker_init_command env id (sw_command w) (sw_parent_id w))) l ks
       /\ pending_ids ks = pane_ids (next_overflow_id s) (length l).
Proof.
  revert s. induction l as [|w l IH]; intros s.
  - exists s. split_and!; try done; simpl; [lia|].
    exists []. split_and!; [by rewrite app_nil_r|constructor|done].
  - set (s1 := add_task (TaskOverflow (next_overflow_id s) (sw_parent_id w) (sw_command w)
      (worker_init_command env (next_overflow_id s) (sw_command w) (sw_parent_id w)))
      (set_next_overflow (next_overflow_id s + 1) s)).
    destruct (IH s1) as (s' & E & HI & Hc & Ha & Hm & Ht & Htp & Hne & How & Hwp & Hno & Hks).
    destruct Hks as (ks & Hts & Hf & Hpd).
    exists s'. split_and!; try done.
    + intros HInv. apply HI. unfold Inv, InvX, s1. tg_cbn. by apply core_task_overflow.
    + rewrite Hno. unfold s1. tg_cbn. cbn [length]. lia.
    + eexists (_ :: ks). split_and!.
      * rewrite Hts. unfold s1. tg_cbn. by rewrite <-app_assoc.
      * constructor; [by eexists|done].
      * cbn [pending_ids list_omap omap]. simpl. f_equal. exact Hpd.
Qed.

(** The tile focus lands on. *)
Definition restored_focus (layout : SerializedTerminalGroup) (ids : list pane_id)
    (first : pane_id) : pane_id :=
  default (default first (focused_tile layout ≫= (fun i => ids !! i)))
    (magnified_tile layout ≫= (fun i => ids !! i)).

Lemma restored_focus_elem layout ids first :
  head ids = Some first -> restored_focus layout ids first ∈ ids.
Proof.
  intros Hh. unfold restored_focus.
  assert (Hf : first ∈ ids) by (destruct ids; [done|]; injection Hh as ->; by left).
  assert (Hl : forall o : option nat, match o ≫= (fun i => ids !! i) with
                       | Some p => p ∈ ids | None => True end).
  { intros [i|]; simpl; [|done]. destruct (ids !! i) eqn:E; [|done].
    by eapply list_elem_of_lookup_2. }
  pose proof (Hl (magnified_tile layout)). pose proof (Hl (focused_tile layout)).
  destruct (magnified_tile layout ≫= _); simpl; [done|].
  by destruct (focused_tile layout ≫= _).
Qed.

(** A restored group: fresh tiles in the stored shape, focus and magnification at
    the stored positions, one shell started, the stored workers starting. *)
Record restored (env : Env) (layout : SerializedTerminalGroup) (e0 : Z) (s : TG) : Prop := {
  rs_built : built (sg_root layout) (pane_ids (e0 + 1) (tile_count (sg_root layout)))
               (root (center s));
  rs_center : is_center (center s) = false;
  rs_active : exists first, head (pane_ids (e0 + 1) (tile_count (sg_root layout))) = Some first
    /\ active_pane s
       = restored_focus layout (pane_ids (e0 + 1) (tile_count (sg_root layout))) first;
  rs_magnified : magnified_pane s
    = magnified_tile layout ≫=
        (fun i => pane_ids (e0 + 1) (tile_count (sg_root layout)) !! i);
  rs_title : title s = sg_title layout;
  rs_tile_panes : tile_panes s = alloc_panes (pane_ids (e0 + 1) (tile_count (sg_root layout)))
                                   {[ e0 := empty_pane ]};
  rs_entity : next_entity s = e0 + 1 + Z.of_nat (tile_count (sg_root layout));
  rs_workers : worker_panes s = ∅ /\ overflow_workers s = ∅;
  rs_tasks : exists ks,
    tasks s = TaskShell (active_pane s) (project_root env) None :: ks
    /\ Forall2 (fun w k => exists id, k = TaskOverflow id (sw_parent_id w) (sw_command w)
                  (worker_init_command env id (sw_command w) (sw_parent_id w)))
         (sg_overflow_workers layout) ks
    /\ pending_ids ks = pane_ids OVERFLOW_ID_BASE (length (sg_overflow_workers layout));
  rs_overflow_id : next_overflow_id s
    = OVERFLOW_ID_BASE + Z.of_nat (length (sg_overflow_workers layout));
}.

Lemma deserialize_run env layout e0 :
  (1 <= tile_count (sg_root layout))%nat ->
  exists s, deserialize env (Some layout) (build_group e0) = Ret (tt, s)
            /\ restored env layout e0 s.
Proof.
  intros Hn.
  enough (ok (deserialize env (Some layout)) (build_group e0)
            (fun _ s => restored env layout e0 s)) as ([] & s & E & H) by eauto.
  unfold deserialize, restore_layout. apply ok_modify_bind. cbv beta.
  destruct (build_tree_spec (sg_root layout) [] (set_title (sg_title layout) (build_group e0)))
    as (m & Em & Hb).
  apply ok_bind. eapply ok_run; [exact Em|]. cbv beta iota. cbn [app].
  change (next_entity (set_title (sg_title layout) (build_group e0))) with (e0 + 1) in *.
  assert (Hh : exists first, head (pane_ids (e0 + 1) (tile_count (sg_root layout))) = Some first)
    by (destruct (tile_count (sg_root layout)); [lia|by eexists]).
  destruct Hh as [first Hh]. rewrite Hh. cbv zeta.
  fold (restored_focus layout (pane_ids (e0 + 1) (tile_count (sg_root layout))) first).
  do 4 (apply ok_modify_bind; cbv beta). apply ok_bind. unfold spawn_terminal_into.
  apply ok_modify_bind, ok_modify. cbv beta.
  match goal with |- ok (spawn_all_overflow env ?l) ?s _ =>
    destruct (spawn_all_overflow_run env l s) as
      (s' & E & _ & Hc & Ha & Hm & Ht & Htp & Hne & How & Hwp & Hno & ks & Hts & Hf & Hpd) end.
  eapply ok_run; [exact E|]. unfold allocated in *. tg_cbn. constructor.
  - by rewrite Hc.
  - by rewrite Hc.
  - exists first. by rewrite Ha.
  - by rewrite Hm.
  - by rewrite Ht.
  - by rewrite Htp.
  - rewrite Hne. simpl. lia.
  - by rewrite Hwp, How.
  - exists ks. by rewrite Hts, Ha.
  - by rewrite Hno.
Qed.

Lemma build_group_inv e0 : 0 <= e0 < OVERFLOW_ID_BASE -> Inv (build_group e0).
Proof.
  intros He. unfold Inv, InvX, build_group. tg_cbn. constructor; simpl; try done.
  - split; [constructor|apply NoDup_singleton].
  - by left.
  - intros p ->%list_elem_of_singleton. rewrite lookup_singleton. by rewrite decide_True.
  - intros p [q [<- _]%lookup_singleton_Some]. lia.
  - lia.
  - intros w [[? Hw]|[? Hw]]; by rewrite lookup_empty in Hw.
  - constructor.
  - intros w Hw. by apply elem_of_nil in Hw.
  - intros w [? Hw]. by rewrite lookup_empty in Hw.
Qed.

(** A restored group satisfies the invariant. *)
Lemma restored_inv env layout e0 s :
  0 <= e0 -> e0 + 1 + Z.of_nat (tile_count (sg_root layout)) <= OVERFLOW_ID_BASE ->
  branching (sg_root layout) -> restored env layout e0 s -> Inv s.
Proof.
  intros He Hb Hbr [(Hcm & Hp & _) Hcen (first & Hh & Ha) _ _ Htp Hne [Hwp How]
    (ks & Hts & Hf & Hpd) Hno].
  specialize (Hp Hbr). unfold Inv, InvX.
  assert (Hpd' : pending_ids (tasks s)
    = pane_ids OVERFLOW_ID_BASE (length (sg_overflow_workers layout))) by (by rewrite Hts).
  constructor; unfold panes; rewrite ?Hcm, ?Hwp, ?How, ?Hne, ?Hno, ?Hpd'.
  - split; [done|]. unfold panes. rewrite Hcm. apply NoDup_pane_ids.
  - rewrite Ha. by apply restored_focus_elem.
  - intros p Hin. rewrite Htp, lookup_alloc, decide_True by done. eauto.
  - intros p. rewrite Htp, lookup_alloc. case_decide as Hin.
    + intros _. apply elem_of_pane_ids in Hin. lia.
    + intros [q [<- _]%lookup_singleton_Some]. lia.
  - lia.
  - done.
  - done.
  - intros w [[? Hw]|[? Hw]]; by rewrite lookup_empty in Hw.
  - intros w [? Hw]. by rewrite lookup_empty in Hw.
  - apply NoDup_pane_ids.
  - intros w. rewrite elem_of_pane_ids, !lookup_empty. intros ?. split_and!; [lia|lia|done|done].
  - intros w [? Hw]. by rewrite lookup_empty in Hw.
  - done.
Qed.

(** ** Storing and restoring *)

Lemma proper_branching m : proper m -> branching (serialize_tree m).
Proof.
  induction m as [p|ax ms fl bb IH] using member_induction; [constructor|].
  intros (Hl & _ & _ & Hms)%proper_members. cbn [serialize_tree].
  constructor; [by rewrite length_map|]. apply Forall_map. clear Hl.
  induction IH as [|m ms Hm _ IH]; [constructor|].
  apply Forall_cons in Hms as [? ?]. constructor; auto.
Qed.

Lemma index_of_lookup l i p : NoDup l -> l !! i = Some p -> index_of l p = Some i.
Proof.
  unfold index_of. revert i. induction l as [|q l IH]; intros [|i] Hnd; simpl; try done.
  - intros [= ->]. by rewrite bool_decide_eq_true_2.
  - intros Hi. apply NoDup_cons in Hnd as [Hq Hnd].
    rewrite bool_decide_eq_false_2, (IH i) by (done || intros ->; by eapply Hq, list_elem_of_lookup_2).
    done.
Qed.

Lemma index_of_elem l p : p ∈ l -> exists i, index_of l p = Some i /\ (i < length l)%nat.
Proof.
  unfold index_of. induction l as [|q l IH]; intros Hp; [by apply elem_of_nil in Hp|]. simpl.
  case_bool_decide as Hq; [exists 0%nat; split; [done|lia]|].
  apply elem_of_cons in Hp as [->|Hp]; [done|]. destruct (IH Hp) as (i & -> & Hi).
  exists (S i). split; [done|lia].
Qed.

(** A malformed, newer or oversized layout is never restored. *)
Lemma load_layout_spec from_str row max layout :
  load_layout from_str row max = Some layout ->
  version layout <= LAYOUT_VERSION /\ is_well_formed (sg_root layout) = true
  /\ (tile_count (sg_root layout) <= max)%nat.
Proof.
  unfold load_layout. destruct row as [[raw|]|]; try done.
  destruct (from_str raw) as [l|]; [|done].
  destruct (LAYOUT_VERSION <? version l) eqn:Ev; [done|].
  destruct (is_well_formed (sg_root l)) eqn:Ew; [|done]. simpl.
  destruct (max <? tile_count (sg_root l))%nat eqn:Et; [done|]. intros [= <-].
  apply Z.ltb_ge in Ev. apply Nat.ltb_ge in Et. by split_and!.
Qed.
