(* ===== verification/GroupProps.v ===== *)
(** * What the terminal group guarantees

    The properties of [TerminalGroup]: safety of every operation, what splits,
    drops, closes, promotions and reports do, the worker listings, and storing
    and restoring a layout. *)

From S2P Require Import Prelude F32 PaneGroup SplitGuard DropZone Persistence.
From S2P Require Import TerminalGroup GroupInvariant LayoutRestore.
From stdpp Require Import strings gmap.
Local Open Scope Z_scope.

(** ** Reachable groups *)

Inductive group_reachable : TG -> Prop :=
| group_reachable_build e0 :
    0 <= e0 < OVERFLOW_ID_BASE -> group_reachable (build_group e0)
| group_reachable_restore env layout e0 s :
    0 <= e0 -> e0 + 1 + Z.of_nat (tile_count (sg_root layout)) <= OVERFLOW_ID_BASE ->
    branching (sg_root layout) ->
    deserialize env (Some layout) (build_group e0) = Ret (tt, s) -> group_reachable s
| group_reachable_exec env o s s' :
    group_reachable s -> next_entity s < OVERFLOW_ID_BASE -> op_ok s o ->
    exec env o s = Ret (tt, s') -> group_reachable s'.

Lemma branching_tiles t : branching t -> (1 <= tile_count t)%nat.
Proof.
  induction t as [t|ax fl cs IH] using stree_induction; [simpl; lia|].
  inversion_clear 1 as [|? ? ? Hl Hb]. destruct cs as [|c cs]; [simpl in Hl; lia|].
  apply Forall_cons in IH as [IH _], Hb as [Hc _]. specialize (IH Hc). simpl. lia.
Qed.

Lemma exec_inv env o s s' :
  Inv s -> next_entity s < OVERFLOW_ID_BASE -> op_ok s o -> exec env o s = Ret (tt, s') ->
  Inv s' /\ (length (tiles s') <= tile_bound env s o)%nat.
Proof.
  intros HI Hb Ho E. destruct (exec_ok env s o HI Hb Ho) as (u & s1 & E1 & Hw).
  rewrite E in E1. injection E1 as <- <-. exact Hw.
Qed.

Lemma group_reachable_inv s : group_reachable s -> Inv s.
Proof.
  induction 1 as [e0 He|env layout e0 s He Hb Hbr E|env o s s' _ IH Hb Ho E].
  - by apply build_group_inv.
  - destruct (deserialize_run env layout e0) as (s1 & E1 & Hr); [by apply branching_tiles|].
    rewrite E in E1. injection E1 as <-. by eapply restored_inv.
  - by eapply exec_inv.
Qed.

(** ** A group to run *)

(** Settings with room for three tiles, and terminals all 1200 by 900 pixels
    with 8 by 18 cells. *)
Definition sample_env : Env :=
  mkEnv (mkSettings (of_Z 6) (of_Z 6) default_minimum Adapt f_1 3)
    (fun _ => mkTB (of_Z 1200) (of_Z 900) (of_Z 8) (of_Z 18))
    (fun _ => Some "/srv"%string) (fun _ => None) (fun _ => "sh"%string)
    (fun _ => true) (fun _ => true) (Some "/srv"%string) (fun _ => None) None 7 (fun _ => 0%nat).

(** Operations that are always allowed. *)
Definition op_free (o : op) : bool :=
  match o with
  | OpMagnify _ | OpPaneEvent _ PFocus | OpStart _ _ | OpDrop _ | OpRelease _ => false
  | _ => true
  end.

Fixpoint run_ops (env : Env) (os : list op) (s : TG) : res TG :=
  match os with
  | [] => Ret s
  | o :: os' =>
      if op_free o && (next_entity s <? OVERFLOW_ID_BASE) then
        match exec env o s with Ret (_, s') => run_ops env os' s' | Panic => Panic end
      else Panic
  end.

Lemma run_ops_reachable env os s s' :
  group_reachable s -> run_ops env os s = Ret s' -> group_reachable s'.
Proof.
  revert s. induction os as [|o os IH]; intros s Hs; simpl; [by intros [= <-]|].
  destruct (op_free o) eqn:Ef; [|done]. destruct (next_entity s <? _) eqn:Eb; [|done]. simpl.
  destruct (exec env o s) as [[[] s1]|] eqn:E; [|done]. apply IH.
  eapply group_reachable_exec; [done|by apply Z.ltb_lt| |exact E].
  destruct o as [| | | | | | | | | | | | | | | | | | | | | | |? []| | |]; done.
Qed.

(** Tile 1 has a plain shell pending; tile 2 runs worker 2, tile 3 its child 3,
    and a child of 3 runs in overflow. *)
Definition sample_ops : list op :=
  [OpSpawn None None "lead"; OpTask 0 (Some 100);
   OpSpawn (Some 2) (Some 2) "build"; OpTask 0 (Some 101);
   OpSpawn None (Some 3) "test"; OpTask 0 (Some 102)].

Definition default_state (r : res TG) : TG :=
  match r with Ret s => s | Panic => build_group 1 end.

Definition sample_state : TG := default_state (run_ops sample_env sample_ops (build_group 1)).

Lemma sample_run : run_ops sample_env sample_ops (build_group 1) = Ret sample_state.
Proof. vm_compute. reflexivity. Qed.

(** The group after its first worker started. *)
Definition pair_state : TG :=
  default_state (run_ops sample_env (take 2 sample_ops) (build_group 1)).

Lemma pair_run : run_ops sample_env (take 2 sample_ops) (build_group 1) = Ret pair_state.
Proof. vm_compute. reflexivity. Qed.

Lemma pair_inv : Inv pair_state.
Proof.
  eapply group_reachable_inv, run_ops_reachable; [|apply pair_run].
  apply group_reachable_build. vm_compute. split; congruence.
Qed.

Lemma sample_state_reachable : group_reachable sample_state.
Proof.
  eapply run_ops_reachable; [|apply sample_run]. apply group_reachable_build.
  vm_compute. split; congruence.
Qed.

Lemma sample_inv : Inv sample_state.
Proof. apply group_reachable_inv, sample_state_reachable. Qed.

Lemma sample_bound : next_entity sample_state < OVERFLOW_ID_BASE.
Proof. vm_compute. reflexivity. Qed.

Example sample_shape :
  tiles sample_state = [1; 2; 3] /\ active_pane sample_state = 3
  /\ terminal_for_worker sample_state 2 = Some 100
  /\ terminal_for_worker sample_state OVERFLOW_ID_BASE = Some 102
  /\ worker_id_for_pane sample_state 3 = Some 3.
Proof. vm_compute. auto. Qed.

(** ** Same-axis splits keep the siblings' shares *)

Lemma parent_axis_elem m p axis : parent_axis m p = Some axis -> p ∈ collect_panes m.
Proof.
  revert axis. induction m as [q|ax ms fl bb IH] using member_induction; [done|].
  intros axis. cbn [parent_axis collect_panes].
  destruct (existsb (is_pane p) ms) eqn:Ee.
  - intros _. destruct (position_is_pane p ms Ee) as (i & _ & Hi).
    apply list_elem_of_In, in_flat_map. exists (MPane p).
    split; [apply list_elem_of_In; by eapply list_elem_of_lookup_2|by left].
  - intros Hf. induction IH as [|m ms Hm _ IH]; [done|]. simpl in Hf, Ee |- *.
    apply orb_false_iff in Ee as [_ Ee]. apply elem_of_app.
    destruct (parent_axis m p) eqn:E; [left; by eapply Hm|right; auto].
Qed.

Lemma parent_axis_absent m p : p ∉ collect_panes m -> parent_axis m p = None.
Proof.
  intros Hn. destruct (parent_axis m p) eqn:E; [|done]. by apply parent_axis_elem in E.
Qed.

Lemma parent_axis_None m p :
  parent_axis m p = None -> is_pane p m = false -> p ∉ collect_panes m.
Proof.
  induction m as [q|ax ms fl bb IH] using member_induction.
  - simpl. intros _ Hq. apply bool_decide_eq_false in Hq. set_solver.
  - cbn [parent_axis collect_panes]. intros Hp _.
    destruct (existsb (is_pane p) ms) eqn:Ee; [done|]. apply find_map_None in Hp.
    induction IH as [|m ms Hm _ IH]; simpl; [apply not_elem_of_nil|].
    apply Forall_cons in Hp as [Hpm Hp]. simpl in Ee. apply orb_false_iff in Ee as [Em Ee].
    apply not_elem_of_app. auto.
Qed.

Lemma find_map_Some {A B} (f : A -> option B) l b :
  find_map f l = Some b ->
  exists pre a post, l = pre ++ a :: post /\ Forall (fun a => f a = None) pre /\ f a = Some b.
Proof.
  induction l as [|a l IH]; simpl; [done|]. destruct (f a) as [b'|] eqn:E.
  - intros [= ->]. by exists [], a, l.
  - intros (pre & a0 & post & -> & Hpre & Ha)%IH. exists (a :: pre), a0, post.
    split_and!; [done|by constructor|done].
Qed.

Lemma split_scan_skip ax old new d pre l idx :
  Forall proper pre -> old ∉ flat_map collect_panes pre ->
  split_scan (fun a => axis_split a old new d) ax old new d idx (pre ++ l)
  = split_scan (fun a => axis_split a old new d) ax old new d (idx + length pre) l.
Proof.
  revert idx. induction pre as [|m pre IH]; intros idx Hp Hn; simpl.
  - by rewrite Nat.add_0_r.
  - apply Forall_cons in Hp as [Hm Hp]. apply not_elem_of_members in Hn as [Hnm Hn].
    destruct m as [a|q].
    + pose proof (axis_split_correct old new d _ Hm) as Hs. unfold axis_split_spec in Hs.
      destruct (axis_split a old new d) as [[a'|]|]; [naive_solver| |done].
      rewrite IH by done. f_equal. lia.
    + rewrite decide_False by (intros ->; apply Hnm; by left).
      rewrite IH by done. f_equal. lia.
Qed.

Lemma position_split {A} (f : A -> bool) l i :
  position f l = Some i ->
  exists pre x post, l = pre ++ x :: post /\ length pre = i /\ f x = true
    /\ existsb f pre = false.
Proof.
  revert i. induction l as [|x l IH]; intros i; simpl; [done|].
  destruct (f x) eqn:E; [intros [= <-]; by exists [], x, l|].
  destruct (position f l) as [j|]; [|done]. intros [= <-].
  destruct (IH j eq_refl) as (pre & y & post & -> & <- & Hy & Hpre).
  exists (x :: pre), y, post. simpl. by rewrite E.
Qed.

Lemma existsb_is_pane_absent p ms :
  p ∉ flat_map collect_panes ms -> existsb (is_pane p) ms = false.
Proof.
  intros Hn. destruct (existsb (is_pane p) ms) eqn:E; [|done].
  destruct (position_is_pane p ms E) as (i & _ & Hi). destruct Hn.
  apply list_elem_of_In, in_flat_map. exists (MPane p).
  split; [apply list_elem_of_In; by eapply list_elem_of_lookup_2|by left].
Qed.

(** The axis of [old] after a same-axis split: [new] sits beside [old]. *)
Definition split_axis (axis : PaneAxis) (i : nat) (new : pane_id) (d : SplitDirection)
    (bb : list (option Bounds)) : PaneAxis :=
  let k := if SplitDir.increasing d then S i else i in
  mkAxis (pa_axis axis) (take k (pa_members axis) ++ MPane new :: drop k (pa_members axis))
    (ones (S (length (pa_members axis)))) bb.

Lemma parent_axis_split old new d m :
  proper m -> NoDup (collect_panes m) -> new ∉ collect_panes m ->
  match m with
  | MPane _ => True
  | MAxis a => forall axis i,
      parent_axis m old = Some axis -> index_in_axis axis old = Some i ->
      SplitDir.axis d = pa_axis axis ->
      exists a' bb, axis_split a old new d = Ret (Some a')
        /\ parent_axis (MAxis a') new = Some (split_axis axis i new d bb)
        /\ proper (MAxis axis) /\ NoDup (collect_panes (MAxis axis))
  end.
Proof.
  intros Hp Hnd Hn. induction m as [q|ax ms fl bb IH] using member_induction; [done|].
  intros axis i Haxis Hi Hd. pose proof Hp as Hprop.
  apply proper_members in Hp as (Hl & Hfl & Hbb & Hms).
  rewrite collect_axis in Hn. cbn [parent_axis axis_split] in *.
  destruct (existsb (is_pane old) ms) eqn:Ee.
  - injection Haxis as <-. unfold index_in_axis in Hi. simpl in Hi, Hd.
    apply position_split in Hi as (pre & x & post & -> & <- & Hx & Hpre).
    destruct x as [|q]; [done|]. apply bool_decide_eq_true in Hx as ->.
    apply Forall_app in Hms as [Hpp _].
    assert (Hold : old ∉ flat_map collect_panes pre).
    { rewrite collect_axis, flat_map_app in Hnd. apply NoDup_app in Hnd as (_ & Hdis & _).
      intros Hin. apply (Hdis _ Hin). simpl. by left. }
    rewrite split_scan_skip by done. cbn [split_scan]. rewrite !decide_True by done.
    set (k := if SplitDir.increasing d then S (length pre) else length pre).
    assert (Hk : (k <= length (pre ++ MPane old :: post))%nat)
      by (rewrite length_app; simpl; unfold k; destruct (SplitDir.increasing d); lia).
    rewrite insert_pane_ok by done. eexists _, _. split; [done|].
    split_and!; [|done|done]. cbn [parent_axis].
    rewrite existsb_app. simpl. rewrite bool_decide_eq_true_2, orb_true_r by done. done.
  - apply find_map_Some in Haxis as (pre & m & post & -> & Hpre & Hm).
    apply Forall_app in Hms as [Hpp [Hpm _]%Forall_cons].
    apply Forall_app in IH as [_ [IHm _]%Forall_cons].
    rewrite collect_axis, flat_map_app in Hnd. simpl in Hnd.
    apply NoDup_app in Hnd as (_ & Hdis & [Hndm _]%NoDup_app).
    rewrite flat_map_app in Hn. apply not_elem_of_app in Hn as [Hnpre Hn].
    apply not_elem_of_members in Hn as [Hnm Hnpost].
    assert (Hold : old ∉ flat_map collect_panes pre).
    { intros Hin. apply (Hdis _ Hin), elem_of_app. left. by eapply parent_axis_elem. }
    destruct m as [a0|q]; [|done].
    destruct (IHm Hpm Hndm Hnm axis i Hm Hi Hd) as (a' & bb' & Ea & Hpar & Hax).
    rewrite split_scan_skip by done. cbn [split_scan]. rewrite Ea, Nat.add_0_l, insert_middle.
    eexists _, bb'. split; [done|]. split; [|done]. cbn [parent_axis].
    rewrite existsb_app, existsb_is_pane_absent by done. simpl.
    rewrite existsb_is_pane_absent by done. rewrite find_map_skip.
    + simpl. by rewrite Hpar.
    + apply Forall_forall. intros m Hin. apply parent_axis_absent. intros Hin'.
      apply Hnpre, list_elem_of_In, in_flat_map. exists m. by rewrite <-!list_elem_of_In.
Qed.

(** The rebuilt flexes: every sibling scaled, the source's scaled share halved
    between the two tiles, which sit side by side. *)
Definition shared_flexes (fl : list f32) (i : nat) (scale : f32) (share : f32) : list f32 :=
  map (fun f => fmul f scale) (take i fl) ++ [share; share]
  ++ map (fun f => fmul f scale) (drop (S i) fl).

Lemma rebuild_after n idx a si ni ss scale share l :
  (si < idx)%nat -> (ni < idx)%nat -> (ss < a)%nat -> n = length l ->
  rebuild_flexes n idx si ni ss scale share (zip (seq a (length l)) l)
  = map (fun f => fmul f scale) l.
Proof.
  intros Hsi Hni. revert n idx a Hsi Hni. induction l as [|f l IH];
    intros n idx a Hsi Hni Ha ->; simpl; [done|].
  rewrite !(proj2 (Nat.eqb_neq _ _)) by lia. rewrite decide_False by lia. simpl.
  f_equal. apply IH; lia.
Qed.

Lemma rebuild_flexes_spec a fl i si ni scale share :
  (i < length fl)%nat ->
  (si = a + i /\ ni = a + S i \/ ni = a + i /\ si = a + S i)%nat ->
  rebuild_flexes (S (length fl)) a si ni (a + i) scale share (zip (seq a (length fl)) fl)
  = shared_flexes fl i scale share.
Proof.
  revert a i. induction fl as [|f fl IH]; intros a i Hi Hor; [simpl in Hi; lia|].
  destruct i as [|i].
  - unfold shared_flexes. rewrite Nat.add_0_r in *.
    assert (Hshare : forall k, ((a + k =? si) || (a + k =? ni))%nat = true
      \/ (2 <= k)%nat).
    { intros [|[|k]]; [left|left|right; lia]; apply orb_true_iff; rewrite !Nat.eqb_eq; lia. }
    cbn [rebuild_flexes length].
    destruct (Hshare 0%nat) as [H0|]; [|lia]. rewrite Nat.add_0_r in H0. rewrite H0.
    destruct (Hshare 1%nat) as [H1|]; [|lia]. replace (S a) with (a + 1)%nat by lia.
    rewrite H1. simpl. do 2 f_equal.
    destruct fl as [|f' fl]; [done|].
    cbn [length seq zip zip_with rebuild_flexes].
    rewrite !(proj2 (Nat.eqb_neq _ _)) by lia. simpl.
    rewrite decide_True by done. rewrite decide_False by lia. simpl. f_equal.
    replace (S (a + 1)) with (S (S a)) by lia.
    apply rebuild_after; lia.
  - cbn [length rebuild_flexes]. rewrite !(proj2 (Nat.eqb_neq _ _)) by lia. simpl.
    rewrite decide_False by lia. simpl. unfold shared_flexes. simpl. f_equal.
    replace (a + S i)%nat with (S a + i)%nat by lia. apply (IH (S a) i); simpl in Hi; lia.
Qed.

Lemma index_in_axis_split axis i source new d bb :
  index_in_axis axis source = Some i -> source <> new ->
  new ∉ flat_map collect_panes (pa_members axis) ->
  NoDup (flat_map collect_panes (pa_members axis)) ->
  let k := if SplitDir.increasing d then S i else i in
  index_in_axis (split_axis axis i new d bb) source
    = Some (if SplitDir.increasing d then i else S i)
  /\ index_in_axis (split_axis axis i new d bb) new = Some k.
Proof.
  intros (pre & x & post & Hms & Hlen & Hx & Hpre)%position_split Hne Hn _ k.
  unfold index_in_axis, split_axis in *. cbn [pa_members] in *.
  assert (Hpos : forall p l r y, existsb (is_pane p) l = false -> is_pane p y = true ->
    position (is_pane p) (l ++ y :: r) = Some (length l)).
  { intros p l r y Hl Hy. induction l as [|z l IH]; simpl; [by rewrite Hy|].
    simpl in Hl. apply orb_false_iff in Hl as [-> Hl]. by rewrite IH. }
  destruct x as [|q]; [done|]. apply bool_decide_eq_true in Hx as ->.
  assert (Hnew : is_pane new (MPane new) = true) by (by apply bool_decide_eq_true).
  assert (Hsrc : is_pane source (MPane source) = true) by (by apply bool_decide_eq_true).
  assert (Hsn : is_pane source (MPane new) = false) by (by apply bool_decide_eq_false).
  rewrite Hms in *. subst i.
  rewrite flat_map_app in Hn. apply not_elem_of_app in Hn as [Hn1 Hn2].
  apply existsb_is_pane_absent in Hn1.
  destruct (SplitDir.increasing d); unfold k.
  - replace (S (length pre)) with (length pre + 1)%nat by lia.
    rewrite take_middle, drop_middle. simpl. rewrite drop_0, <-app_assoc. simpl. split.
    + by apply Hpos.
    + replace (pre ++ MPane source :: MPane new :: post)
        with ((pre ++ [MPane source]) ++ MPane new :: post) by (by rewrite <-app_assoc).
      rewrite (Hpos new (pre ++ [MPane source])); [by rewrite length_app| |done].
      rewrite existsb_app, Hn1. simpl. rewrite orb_false_r.
      by apply bool_decide_eq_false.
  - rewrite take_app_length, drop_app_length. split; [|by apply Hpos].
    replace (pre ++ MPane new :: MPane source :: post)
      with ((pre ++ [MPane new]) ++ MPane source :: post) by (by rewrite <-app_assoc).
    rewrite (Hpos source (pre ++ [MPane new]));
      [rewrite length_app; simpl; f_equal; lia| |done].
    rewrite existsb_app, Hpre. simpl. rewrite orb_false_r. exact Hsn.
Qed.

(** The flexes [restore_sibling_sizes] writes after a same-axis split. *)
Definition restored_flexes (fl : list f32) (i : nat) : list f32 :=
  let n := length fl in
  let scale := fdiv (of_nat (n + 1)) (of_nat n) in
  shared_flexes fl i scale (fdiv (fmul (nth i fl f_0) scale) f_2).

Lemma parent_axis_incl m p axis q :
  parent_axis m p = Some axis -> q ∈ flat_map collect_panes (pa_members axis) ->
  q ∈ collect_panes m.
Proof.
  induction m as [r|ax ms fl bb IH] using member_induction; [done|].
  cbn [parent_axis collect_panes]. destruct (existsb (is_pane p) ms); [by intros [= <-]|].
  intros (pre & m & post & -> & _ & Hm)%find_map_Some Hq.
  apply Forall_app in IH as [_ [IH _]%Forall_cons]. rewrite flat_map_app. simpl.
  specialize (IH Hm Hq). set_solver.
Qed.

(** [restore_sibling_sizes] on a tree where [new] was just put beside [source]. *)
Lemma restore_on_split m axis i source new d bb :
  proper (MAxis axis) -> NoDup (flat_map collect_panes (pa_members axis)) ->
  new ∉ flat_map collect_panes (pa_members axis) -> source <> new ->
  index_in_axis axis source = Some i ->
  parent_axis m new = Some (split_axis axis i new d bb) ->
  exists m', restore_sibling_sizes m source new (Some (mkSnapshot (pa_flexes axis) i)) = Ret m'
    /\ parent_axis m' new
       = Some (with_flexes (split_axis axis i new d bb) (restored_flexes (pa_flexes axis) i)).
Proof.
  destruct axis as [ax ms fl bb0]. intros (Hl & Hfl & _ & _)%proper_members Hnd Hn Hne Hi Hpar.
  destruct (index_in_axis_split _ i source new d bb Hi Hne Hn Hnd) as [Hsrc Hnew].
  assert (Hilt : (i < length ms)%nat).
  { unfold index_in_axis in Hi. cbn [pa_members] in Hi.
    apply position_split in Hi as (pre & x & post & -> & <- & _).
    rewrite length_app. simpl. lia. }
  unfold restore_sibling_sizes. rewrite Hpar, Hsrc, Hnew.
  cbn [snap_flexes snap_source_index pa_flexes].
  assert (Hlen : length (pa_members (split_axis (mkAxis ax ms fl bb0) i new d bb))
                 = S (length ms)).
  { unfold split_axis. cbn [pa_members]. rewrite length_app, length_take. simpl.
    rewrite length_drop. destruct (SplitDir.increasing d); lia. }
  rewrite <-Hfl in Hlen. rewrite Hlen.
  rewrite (proj2 (Nat.eqb_eq _ _)), (proj2 (Nat.leb_gt _ _)), (proj2 (Nat.eqb_neq _ _)) by lia.
  cbn [negb orb].
  destruct (lookup_lt_is_Some_2 fl i) as [f Hf]; [lia|].
  rewrite (proj2 (index_Ret _ _ _) Hf). unfold enumerate.
  match goal with |- context [rebuild_flexes _ 0 ?si ?ni i ?sc ?sh _] =>
    pose proof (rebuild_flexes_spec 0 fl i si ni sc sh) as Hreb end.
  rewrite Nat.add_0_l in Hreb. rewrite Hreb by (destruct (SplitDir.increasing d); lia).
  edestruct (set_parent_flexes_ok m new) as (m' & Em & _ & _ & Hpar'); [exact Hpar| |].
  2:{ rewrite Em. exists m'. split; [done|]. rewrite Hpar'. unfold restored_flexes.
      by rewrite (nth_lookup_Some _ _ _ _ Hf). }
  rewrite Hlen. unfold shared_flexes. rewrite !length_app, !length_map, length_take, length_drop.
  simpl. lia.
Qed.

(** ** What a fresh tile is measured by *)

(** The cached box of a pane that was never painted. *)
Definition unboxed (m : Member) (p : pane_id) : Prop :=
  match m with
  | MPane _ => True
  | MAxis a => axis_bounding_box_for_pane a p = Ret None
  end.

Lemma box_scan_replace box bb p idx pre a a' post :
  box a = box a' ->
  box_scan box bb p idx (pre ++ MAxis a :: post)
  = box_scan box bb p idx (pre ++ MAxis a' :: post).
Proof.
  intros Hb. revert idx. induction pre as [|m pre IH]; intros idx; simpl.
  - by rewrite Hb.
  - by rewrite !IH.
Qed.

Lemma set_parent_flexes_boxes m p fl m' q :
  set_parent_flexes m p fl = Some m' -> unboxed m q -> unboxed m' q.
Proof.
  enough (H : forall m', set_parent_flexes m p fl = Some m' ->
    match m, m' with
    | MAxis a, MAxis a' => axis_bounding_box_for_pane a q = axis_bounding_box_for_pane a' q
    | _, _ => False
    end).
  { intros Hm'. specialize (H _ Hm'). destruct m as [a|], m' as [a'|]; try done.
    simpl. intros E. by rewrite <-H. }
  clear m'. induction m as [r|ax ms fl0 bb IH] using member_induction; [done|].
  intros m'. cbn [set_parent_flexes]. destruct (existsb _ _); [by intros [= <-]|].
  destruct (update_first _ ms) as [ms'|] eqn:E; [|done]. intros [= <-].
  cbn [axis_bounding_box_for_pane]. generalize 0%nat as idx.
  revert ms' E. induction IH as [|m ms Hm _ IH]; intros ms' E idx; simpl in E; [done|].
  destruct (set_parent_flexes m p fl) as [m'|] eqn:Em.
  - injection E as <-. specialize (Hm _ eq_refl). destruct m as [a|], m' as [a'|]; try done.
    by apply (box_scan_replace _ bb q idx [] a a' ms).
  - destruct (update_first _ ms) as [ms1|] eqn:E1; [|done]. injection E as <-.
    simpl. by rewrite !(IH ms1 eq_refl).
Qed.

Lemma restore_unboxed m source new snapshot m' q :
  restore_sibling_sizes m source new snapshot = Ret m' -> unboxed m q -> unboxed m' q.
Proof.
  unfold restore_sibling_sizes. intros E Hq.
  repeat match type of E with
         | context [match ?x with _ => _ end] => destruct x eqn:?
         end; simplify_eq; try done.
  destruct (set_parent_flexes _ _ _) as [m1|] eqn:Em; [|done]. by eapply set_parent_flexes_boxes.
Qed.

Lemma new_axis_unboxed old new d p : unboxed (new_axis old new d) p.
Proof. by destruct d; simpl; repeat case_decide. Qed.

Lemma axis_split_unboxed old new d m :
  proper m -> new ∉ collect_panes m ->
  match m with
  | MPane _ => True
  | MAxis a => forall a', axis_split a old new d = Ret (Some a') ->
      axis_bounding_box_for_pane a' new = Ret None
  end.
Proof.
  induction m as [q|ax ms fl bb IH] using member_induction; [done|].
  intros (Hl & Hfl & Hbb & Hms)%proper_members Hn a'. rewrite collect_axis in Hn.
  cbn [axis_split]. destruct (split_scan _ _ _ _ _ _ _) as [s|] eqn:Es; [|done].
  apply split_scan_inv in Es. destruct s as [|i m'|i]; [done| |].
  - intros [= <-]. destruct Es as (pre & m0 & post & -> & -> & Hor). cbn [axis_bounding_box_for_pane].
    rewrite Nat.add_0_l, insert_middle. rewrite flat_map_app in Hn. cbn [flat_map] in Hn.
    apply not_elem_of_app in Hn as [Hpre [Hm0 Hpost]%not_elem_of_app].
    apply Forall_app in Hms as [Hpp [Hpm Hpo]%Forall_cons].
    rewrite Forall_app, Forall_cons in IH. destruct IH as (_ & IHm & _).
    rewrite box_scan_skip by done.
    assert (exists a1, m' = MAxis a1 /\ axis_bounding_box_for_pane a1 new = Ret None)
      as (a1 & -> & Ha1).
    { destruct Hor as [[-> ->]|(a & a1 & -> & Ha & ->)].
      - pose proof (new_axis_unboxed old new d new) as Hu. unfold new_axis in *. eauto.
      - exists a1. split; [done|]. by apply IHm. }
    simpl box_scan. rewrite Ha1, <-(app_nil_r post), box_scan_skip by done. done.
  - destruct Es as (pre & post & -> & ->).
    set (k := (length pre + if SplitDir.increasing d then 1 else 0)%nat).
    assert (Hk : (k <= length (pre ++ MPane old :: post))%nat)
      by (rewrite length_app; simpl; unfold k; destruct (SplitDir.increasing d); lia).
    rewrite Nat.add_0_l, insert_pane_ok by lia. cbn [fmap res_fmap]. intros [= <-].
    cbn [axis_bounding_box_for_pane].
    rewrite box_scan_skip; [| |].
    + rewrite length_take_le, Nat.add_0_l by done. simpl box_scan. rewrite decide_True by done.
      apply index_Ret. rewrite lookup_app_r, length_take_le by (rewrite ?length_take_le; lia).
      by rewrite Nat.sub_diag.
    + by apply Forall_take.
    + intros Hin. apply Hn. rewrite <-(take_drop k (pre ++ MPane old :: post)), flat_map_app.
      apply elem_of_app. by left.
Qed.

Lemma split_root_unboxed m old new d m' :
  proper m -> new ∉ collect_panes m -> split_root m old new d = Ret m' -> unboxed m' new.
Proof.
  intros Hp Hn. unfold split_root.
  destruct (first_pane_head m Hp) as (f & Hf & _). rewrite Hf. destruct m as [a|q].
  - pose proof (fun o a' => axis_split_unboxed o new d (MAxis a) Hp Hn a') as H.
    pose proof (axis_split_correct f new d _ Hp) as Hs. unfold axis_split_spec in Hs.
    destruct (axis_split a old new d) as [[a'|]|] eqn:E; cbn [fmap res_fmap option_map]; [| |done].
    + intros [= <-]. by apply (H old).
    + destruct (axis_split a f new d) as [[a'|]|] eqn:E'; [|exfalso|done].
      * intros [= <-]. by apply (H f).
      * apply Hs. by eapply first_pane_elem.
  - case_decide; intros [= <-]; apply new_axis_unboxed.
Qed.

Lemma omap_beside {A} (f g : Z -> option A) l old new after :
  new ∉ l -> f new = None -> (forall p, p <> new -> f p = g p) ->
  omap f (insert_beside l old new after) = omap g l.
Proof.
  intros Hn Hf Hfg. assert (Hall : omap f l = omap g l).
  { clear Hf. induction l as [|p l IH]; [done|]. apply not_elem_of_cons in Hn as [Hp Hn].
    cbn [omap list_omap]. rewrite (Hfg p) by congruence. by rewrite IH. }
  rewrite <-Hall. clear Hall Hn. induction l as [|p l IH]; [done|]. cbn [insert_beside].
  case_decide; [destruct after|]; cbn [omap list_omap]; rewrite ?Hf, ?IH; done.
Qed.

(** A split leaves the terminals of the other tiles, and so the cells, as they are. *)
Lemma split_terminals env s source d metrics init parent s' :
  Inv s -> split_post env s source d metrics init parent s' ->
  next_entity s ∉ panes (center s)
  /\ tile_terminal s' (next_entity s) = None
  /\ (forall p, p <> next_entity s -> tile_terminal s' p = tile_terminal s p)
  /\ cell_metrics env s' = cell_metrics env s.
Proof.
  intros HI Hpost.
  assert (Hnew : next_entity s ∉ panes (center s)).
  { intros Hin. pose proof (ic_fresh _ _ _ _ _ _ _ _ _ HI _ (in_tiles_live _ _ HI Hin)). lia. }
  assert (Hterm : forall p, p <> next_entity s -> tile_terminal s' p = tile_terminal s p).
  { intros p Hne. unfold tile_terminal, read_pane. rewrite (sp_tile_panes _ _ _ _ _ _ _ _ Hpost).
    by rewrite lookup_insert_ne. }
  assert (Hfresh : tile_terminal s' (next_entity s) = None).
  { unfold tile_terminal, read_pane. rewrite (sp_tile_panes _ _ _ _ _ _ _ _ Hpost).
    by rewrite lookup_insert, decide_True. }
  split_and!; [done..|].
  unfold cell_metrics, tiles. rewrite (sp_panes _ _ _ _ _ _ _ _ Hpost). f_equal.
  apply omap_beside; [done|by rewrite Hfresh|]. intros p Hp. by rewrite Hterm.
Qed.

(** What [metrics_for] fills in besides the size. *)
Lemma metrics_cells env s p tm :
  metrics_for env s p = Ret (Some tm) ->
  cell_metrics env s = Some (cell_width tm, line_height tm)
  /\ gap tm = s_gap (settings env) /\ header_height tm = HEADER_HEIGHT.
Proof.
  unfold metrics_for. destruct (tile_size env s p) as [[[w h]|]|]; [|done..].
  destruct (cell_metrics env s) as [[cw lh]|]; [|done]. by intros [= <-].
Qed.

(** A tile that was just split off is measured by its predicted size, and the
    cells by the same terminal as before. *)
Lemma fresh_metrics env s source d tm init parent s' :
  Inv s -> split_post env s source d (Some tm) init parent s' ->
  metrics_for env s source = Ret (Some tm) ->
  metrics_for env s' (next_entity s) = Ret (Some (after_split tm d)).
Proof.
  intros HI Hpost Hm. destruct (metrics_cells _ _ _ _ Hm) as (Hcell & Hgap & Hhdr).
  destruct (split_terminals _ _ _ _ _ _ _ _ HI Hpost) as (Hnew & Hfresh & _ & Hcell').
  unfold metrics_for, tile_size. rewrite Hfresh.
  destruct (sp_tree _ _ _ _ _ _ _ _ Hpost) as (g & fl & Eg & Er).
  assert (Hbox : bounding_box_for_pane (center s') (next_entity s) = Ret None).
  { unfold PaneGroup.split in Eg. destruct (split_root _ _ _ _) as [m|] eqn:Em; [|done].
    injection Eg as <- _. apply split_root_unboxed in Em; [|by apply Inv_proper|done].
    pose proof (restore_unboxed _ _ _ _ _ _ Er Em) as Hu. unfold bounding_box_for_pane.
    by destruct (root (center s')). }
  rewrite Hbox, (sp_predicted _ _ _ _ _ _ _ _ Hpost). unfold predicted_after.
  rewrite lookup_insert, decide_True by done.
  rewrite Hcell', Hcell. cbn [fst snd]. unfold after_split. rewrite Hgap, Hhdr.
  by destruct (half_size tm d).
Qed.

(** A terminal that was painted with a size. *)
Definition sized (env : Env) (t : Z) : bool :=
  flt f_0 (tb_width (terminal_bounds env t)) && flt f_0 (tb_height (terminal_bounds env t)).

(** A source whose terminal was painted keeps its measure. *)
Lemma source_metrics env s source d tm init parent s' t :
  Inv s -> split_post env s source d (Some tm) init parent s' ->
  metrics_for env s source = Ret (Some tm) -> source <> next_entity s ->
  tile_terminal s source = Some t -> sized env t = true ->
  metrics_for env s' source = Ret (Some tm).
Proof.
  intros HI Hpost Hm Hne Ht Hs.
  destruct (split_terminals _ _ _ _ _ _ _ _ HI Hpost) as (_ & _ & Hterm & Hcell).
  revert Hm. unfold metrics_for, tile_size. rewrite Hcell, Hterm, Ht by done.
  unfold sized in Hs. by rewrite Hs.
Qed.

(** ** Properties *)

(** C1. Start from a new group, or from one restored from a layout whose axes have
    two children or more each, and run user actions, control-plane requests, drags, pane events, task completions, releases and
    paintings in any order, each of which meets [op_ok]: a magnified or focused
    tile, the dragged tile and the tile the drop is aimed at are tiles of the
    group (stale drop targets and foreign tabs are excluded), a command is only
    started in a tile of the group that is no other worker's, and a pane is only
    released when it is no tile; and entity identifiers stay below
    [OVERFLOW_ID_BASE].  Then the tree stays well formed with each tile once,
    the focused pane is one of its live tiles, a worker's pane is a tile no
    other worker has, no worker is both on the grid and in overflow, and the
    next such operation never panics.  A painting leaves every member of the tree
    with a box and the tiles as they are, so searches by direction and drop targets
    by position are not vacuous.  Only adopting a dropped tab and splitting off a
    surplus item can take the tile count past the cap, by one tile at a time. *)
Theorem terminal_group_safe s :
  group_reachable s ->
  proper (root (center s)) /\ NoDup (tiles s) /\ active_pane s ∈ tiles s
  /\ (forall p, p ∈ tiles s -> is_Some (tile_panes s !! p))
  /\ (forall w p, worker_panes s !! w = Some p ->
        p ∈ tiles s /\ overflow_workers s !! w = None
        /\ forall w', worker_panes s !! w' = Some p -> w' = w)
  /\ (forall env o, next_entity s < OVERFLOW_ID_BASE -> op_ok s o ->
        exists s', exec env o s = Ret (tt, s') /\ group_reachable s'
                   /\ (length (tiles s') <= tile_bound env s o)%nat)
  /\ (forall env place, exists s', exec env (OpPaint place) s = Ret (tt, s')
        /\ painted (root (center s')) = true /\ tiles s' = tiles s).
Proof.
  intros Hr. pose proof (group_reachable_inv _ Hr) as HI. split_and!.
  - by apply Inv_proper.
  - by apply Inv_nodup.
  - apply HI.
  - apply HI.
  - intros w p Hw. split_and!.
    + by eapply (ic_worker_pane _ _ _ _ _ _ _ _ _ HI).
    + apply eq_None_not_Some. intros Ho.
      apply (ic_disjoint _ _ _ _ _ _ _ _ _ HI) in Ho. congruence.
    + intros w' Hw'. by eapply (ic_worker_inj _ _ _ _ _ _ _ _ _ HI).
  - intros env o Hb Ho. destruct (exec_ok env s o HI Hb Ho) as ([] & s' & E & Hw).
    exists s'. split; [done|]. split; [by eapply group_reachable_exec|apply Hw].
  - intros env place. destruct (paint_ok (center s) place (Inv_proper _ HI)) as (g & E & _ & _ & Hc & Hb).
    eexists. split; [cbn [exec]; unfold paint_group; rewrite run_get, (run_lift _ _ _ _ E); reflexivity|].
    by split.
Qed.

(** The three tiles of the sample, painted in 1200 by 900 pixels. *)
Definition wide_screen (path : list nat) : Bounds :=
  match path with
  | [] => mkBounds (mkPoint f_0 f_0) (mkSize (of_Z 1200) (of_Z 900))
  | _ => mkBounds (mkPoint (of_Z 600) f_0) (mkSize (of_Z 600) (of_Z 900))
  end.

Definition painted_state : TG :=
  default_state (run_ops sample_env [OpPaint wide_screen] sample_state).

Lemma painted_reachable : group_reachable painted_state.
Proof.
  apply (run_ops_reachable sample_env [OpPaint wide_screen] sample_state);
    [exact sample_state_reachable|vm_compute; reflexivity].
Qed.

Lemma painted_bound : next_entity painted_state < OVERFLOW_ID_BASE.
Proof. vm_compute. reflexivity. Qed.

Lemma terminal_group_safe_witness :
  exists s', exec sample_env (OpFocusDirection Left) painted_state = Ret (tt, s')
             /\ active_pane painted_state = 3 /\ active_pane s' <> 3
             /\ (length (tiles s') <= 3)%nat.
Proof.
  destruct (terminal_group_safe painted_state painted_reachable) as (_ & _ & _ & _ & _ & H & _).
  destruct (H sample_env (OpFocusDirection Left) painted_bound I) as (s' & E & _ & Hl).
  exists s'. split; [exact E|]. split; [vm_compute; reflexivity|].
  split; [|exact Hl].
  assert (E' : (match exec sample_env (OpFocusDirection Left) painted_state with
                | Ret (_, s1) => active_pane s1 | Panic => 3 end) <> 3)
    by (vm_compute; discriminate).
  rewrite E in E'. exact E'.
Defined.

(** C2. A requested split of a tile: at the cap, or when the guard refuses the
    measured tile, nothing changes but a notice (no tile, no shell); otherwise the
    tree gains exactly the fresh tile beside the source, in the direction the
    guard chose, it is focused, magnification ends, and exactly one shell is
    started in it.  When the source was measured, half of its space is recorded
    as the predicted size of both tiles; the fresh tile, which has neither a
    terminal nor a box yet, is then measured by exactly that half, with the
    cells, gap and header of the source, while a source whose terminal was painted
    with a size keeps being measured by that size; and unless the guard is off, the
    halves are usable: the fresh tile so measured fits the minimum. *)
Theorem split_pane_spec env s source d init parent :
  Inv s ->
  exists metrics, metrics_for env s source = Ret metrics /\
  let r := split_pane_with_command env source d init parent s in
  let refused := r = Ret (None, add_effect ShowToast s) in
  if at_visible_cap env s then refused
  else
    match split_decision env metrics d with
    | Refused => refused
    | Split d' => exists s', r = Ret (Some (next_entity s), s')
        /\ split_post env s source d' metrics init parent s'
        /\ forall m, metrics = Some m ->
             predicted_sizes s' !! next_entity s = Some (half_size m d')
             /\ (source <> next_entity s ->
                 predicted_sizes s' !! source = Some (half_size m d'))
             /\ metrics_for env s' (next_entity s) = Ret (Some (after_split m d'))
             /\ (forall t, source <> next_entity s -> tile_terminal s source = Some t ->
                 sized env t = true -> metrics_for env s' source = Ret (Some m))
             /\ (split_guard (settings env) <> Off ->
                 tile_fits (after_split m d') (minimum (settings env)) = true)
    end.
Proof.
  intros HI. destruct (split_pane_run env s source d init parent (Inv_proper _ HI))
    as (metrics & Em & Hr).
  exists metrics. split; [done|]. cbv zeta in *.
  destruct (at_visible_cap env s); [done|].
  destruct (split_decision env metrics d) as [d'|] eqn:Ed; [|done].
  destruct Hr as (s' & E & Hpost). exists s'. split; [done|]. split; [done|].
  intros m ->. cbn [split_decision] in Ed. split_and!.
  - rewrite (sp_predicted _ _ _ _ _ _ _ _ Hpost). unfold predicted_after.
    rewrite lookup_insert. by rewrite decide_True.
  - intros Hne. rewrite (sp_predicted _ _ _ _ _ _ _ _ Hpost). unfold predicted_after.
    rewrite lookup_insert_ne by done. rewrite lookup_insert. by rewrite decide_True.
  - by eapply fresh_metrics.
  - intros t Hne Ht Hs. by eapply source_metrics.
  - intros Hg. rewrite <-admits_after. eauto with rdg.
Qed.

Lemma split_pane_spec_witness :
  exists m s', metrics_for sample_env pair_state 2 = Ret (Some m)
    /\ split_pane_with_command sample_env 2 Right None None pair_state = Ret (Some 3, s')
    /\ metrics_for sample_env s' 3 = Ret (Some (after_split m Right))
    /\ tile_fits (after_split m Right) default_minimum = true.
Proof.
  destruct (split_pane_spec sample_env pair_state 2 Right None None pair_inv)
    as (metrics & Em & Hr).
  cbv zeta in Hr.
  assert (Hcap : at_visible_cap sample_env pair_state = false) by (vm_compute; reflexivity).
  rewrite Hcap in Hr.
  destruct metrics as [m|]; [|vm_compute in Em; discriminate Em].
  assert (Hd : match metrics_for sample_env pair_state 2 with
               | Ret metrics => split_decision sample_env metrics Right = Split Right
               | Panic => False end) by (vm_compute; reflexivity).
  rewrite Em in Hd. rewrite Hd in Hr. destruct Hr as (s' & E & _ & H).
  destruct (H m eq_refl) as (_ & _ & Hm & _ & Hf).
  exists m, s'. split; [exact Em|]. split; [exact E|]. split; [exact Hm|].
  apply Hf. discriminate.
Defined.

(** Splitting a tile along its own axis gives the new tile half of the split
    tile's share and leaves every sibling's share alone: the axis's flexes become
    the old ones, each scaled by (n + 1) / n, with the source's scaled flex
    replaced by two halves side by side; the new tile sits next to the source. *)
Theorem split_keeps_sibling_shares env s source d d' init parent metrics axis i :
  Inv s -> next_entity s < OVERFLOW_ID_BASE -> at_visible_cap env s = false ->
  metrics_for env s source = Ret metrics -> split_decision env metrics d = Split d' ->
  parent_axis (root (center s)) source = Some axis -> index_in_axis axis source = Some i ->
  SplitDir.axis d' = pa_axis axis ->
  exists s' axis', let p := next_entity s in
    split_pane_with_command env source d init parent s = Ret (Some p, s')
    /\ parent_axis (root (center s')) p = Some axis'
    /\ pa_members axis'
       = (let k := if SplitDir.increasing d' then S i else i in
          take k (pa_members axis) ++ MPane p :: drop k (pa_members axis))
    /\ pa_flexes axis' = restored_flexes (pa_flexes axis) i.
Proof.
  intros HI Hb Hcap Hm Hdec Hax Hi Hd.
  destruct (split_pane_run env s source d init parent (Inv_proper _ HI)) as (metrics' & Em & Hr).
  rewrite Hm in Em. injection Em as <-. cbv zeta in Hr. rewrite Hcap, Hdec in Hr.
  destruct Hr as (s' & Er & Hpost). destruct (sp_tree _ _ _ _ _ _ _ _ Hpost) as (g & fl & Es & Ers).
  destruct (core_fresh_tile HI Hb) as (Hn & _).
  pose proof (parent_axis_split source (next_entity s) d' (root (center s))
    (Inv_proper _ HI) (Inv_nodup _ HI) Hn) as Hs.
  unfold PaneGroup.split, split_root in Es.
  destruct (root (center s)) as [a|q] eqn:Eroot; [|done].
  destruct (Hs axis i Hax Hi Hd) as (a' & bb & Ea & Hpar & Hpax & Hndax).
  rewrite Ea in Es. cbn in Es. injection Es as <- _. cbn [root set_root] in Ers.
  unfold snapshot_of in Ers. rewrite Hax, Hi in Ers.
  destruct axis as [ax ms fl0 bb0]. rewrite collect_axis in Hndax.
  destruct (restore_on_split (MAxis a') (mkAxis ax ms fl0 bb0) i source (next_entity s) d' bb)
    as (m' & Em' & Hpar'); try done.
  - intros Hin. apply Hn. unfold panes. rewrite Eroot. by eapply parent_axis_incl.
  - intros ->. apply Hn. unfold panes. rewrite Eroot. by eapply parent_axis_elem.
  - cbn [fmap option_fmap option_map] in Ers. rewrite Em' in Ers. injection Ers as Ers.
    exists s'. eexists. split; [exact Er|]. split; [by rewrite <-Ers|]. by split.
Qed.

Lemma split_keeps_sibling_shares_witness :
  exists s' axis',
    split_pane_with_command sample_env 2 Right None None pair_state = Ret (Some 3, s')
    /\ parent_axis (root (center s')) 3 = Some axis'
    /\ pa_flexes axis' = restored_flexes (ones 2) 1.
Proof.
  destruct (split_keeps_sibling_shares sample_env pair_state 2 Right Right None None
    (Some (mkMetrics (of_Z 1200) (of_Z 924) (of_Z 8) (of_Z 18) (of_Z 6) (of_Z 24)))
    (mkAxis Horizontal [MPane 1; MPane 2] (ones 2) [None; None]) 1)
    as (s' & axis' & E & Hax & _ & Hfl).
  - exact pair_inv.
  - vm_compute. reflexivity.
  - vm_compute. reflexivity.
  - vm_compute. reflexivity.
  - vm_compute. reflexivity.
  - vm_compute. reflexivity.
  - vm_compute. reflexivity.
  - reflexivity.
  - exists s', axis'. split; [exact E|]. split; [exact Hax|exact Hfl].
Defined.

(** The sample group's tree, evaluated. *)
Definition sample_root : Member := Eval vm_compute in root (center sample_state).

Lemma sample_evaluated :
  root (center sample_state) = sample_root /\ magnified_pane sample_state = None
  /\ tiles sample_state = [1; 2; 3].
Proof. split_and!; vm_compute; reflexivity. Qed.

Lemma sample_root_storable :
  flexes_positive sample_root /\ restorable (serialize_tree sample_root).
Proof.
  split.
  - repeat constructor.
  - unfold sample_root. cbn [serialize_tree map]. repeat constructor.
Qed.

(** A magnified tile, when there is one, is a live tile of the group. *)
Definition magnified_ok (s : TG) : Prop :=
  forall p, magnified_pane s = Some p -> p ∈ tiles s /\ is_Some (tile_panes s !! p).

(** C4. A group that satisfies the invariant is stored and restored unchanged,
    provided that a magnified tile is a live tile of the group, every flex is
    positive and finite, the flexes of each axis sum to its number of members
    within a thousandth ([restorable], what [PaneAxis::load] asks), it has at most
    [max_tiles] tiles, and the parser reads the stored text back as the layout
    that was written: the stored layout is accepted, and restoring it into a new
    group rebuilds axes, flexes and order exactly, with fresh tiles and the same
    title, and the magnified and focused positions are those of the stored group
    (the focus on the magnified tile, when there is one). *)
Theorem layout_roundtrip env s e0 from_str raw :
  Inv s -> magnified_ok s -> flexes_positive (root (center s)) ->
  restorable (serialize_tree (root (center s))) ->
  (length (tiles s) <= max_tiles (settings env))%nat ->
  from_str raw = Some (layout_of s) ->
  exists layout s',
    load_layout from_str (Some (Some raw)) (max_tiles (settings env)) = Some layout
    /\ deserialize env (Some layout) (build_group e0) = Ret (tt, s')
    /\ serialize_tree (root (center s')) = serialize_tree (root (center s))
    /\ title s' = title s
    /\ (magnified_pane s' ≫= index_of (tiles s')) = (magnified_pane s ≫= index_of (tiles s))
    /\ index_of (tiles s') (active_pane s')
       = match magnified_pane s with
         | Some p => index_of (tiles s) p
         | None => index_of (tiles s) (active_pane s)
         end.
Proof.
  intros HI Hmag Hpos Hrest Hmax Hstr.
  pose proof (Inv_proper _ HI) as Hp.
  assert (Hn : tile_count (sg_root (layout_of s)) = length (tiles s))
    by (simpl; apply tile_count_serialize).
  assert (Hne : (1 <= length (tiles s))%nat).
  { pose proof (collect_nonempty _ Hp) as Hne. unfold tiles, panes.
    destruct (collect_panes (root (center s))); [done|simpl; lia]. }
  destruct (deserialize_run env (layout_of s) e0) as (s' & E & Hr); [lia|].
  exists (layout_of s), s'. split.
  { unfold load_layout. rewrite Hstr. cbn [version layout_of sg_root].
    rewrite serialize_well_formed by done.
    change (LAYOUT_VERSION <? LAYOUT_VERSION) with false. cbn [negb].
    change (sg_root (layout_of s)) with (serialize_tree (root (center s))) in Hn.
    rewrite Hn. by rewrite (proj2 (Nat.ltb_ge _ _)) by done. }
  split; [done|].
  destruct Hr as [(Hcm & _ & Hser) _ (first & Hh & Ha) Hm Ht _ _ _ _ _].
  set (ids := pane_ids (e0 + 1) (tile_count (sg_root (layout_of s)))) in *.
  assert (Htiles : tiles s' = ids) by exact Hcm.
  assert (Hlen : length ids = length (tiles s)) by (unfold ids; by rewrite length_pane_ids).
  assert (Hnd : NoDup ids) by apply NoDup_pane_ids.
  assert (Hidx : forall p, p ∈ tiles s -> exists i q,
    index_of (tiles s) p = Some i /\ ids !! i = Some q /\ index_of ids q = Some i).
  { intros p Hin. destruct (index_of_elem _ _ Hin) as (i & Hi & Hlt).
    rewrite <-Hlen in Hlt. apply lookup_lt_is_Some_2 in Hlt as [q Hq].
    exists i, q. split_and!; [done|done|by apply index_of_lookup]. }
  split; [by apply Hser|]. split; [done|]. rewrite Htiles, Hm, Ha.
  unfold restored_focus. cbn [magnified_tile focused_tile layout_of].
  destruct (magnified_pane s) as [p|] eqn:Em; simpl.
  - destruct (Hmag p Em) as [Hin Hlive]. unfold upgrade. rewrite decide_True by done. simpl.
    destruct (Hidx p Hin) as (i & q & -> & Hq & Hiq). simpl. rewrite Hq. simpl. by rewrite Hiq.
  - split; [done|].
    destruct (Hidx (active_pane s) (ic_active _ _ _ _ _ _ _ _ _ HI)) as (i & q & -> & Hq & Hiq).
    simpl. by rewrite Hq.
Qed.

Lemma layout_roundtrip_witness :
  exists layout s',
    load_layout (fun _ => Some (layout_of sample_state)) (Some (Some EmptyString))
      (max_tiles (settings sample_env)) = Some layout
    /\ deserialize sample_env (Some layout) (build_group 7) = Ret (tt, s')
    /\ serialize_tree (root (center s')) = serialize_tree sample_root.
Proof.
  destruct sample_evaluated as (Hroot & Hmag & Htiles).
  destruct sample_root_storable as [Hpos Hrest].
  rewrite <-Hroot in Hpos, Hrest |- *.
  destruct (layout_roundtrip sample_env sample_state 7 (fun _ => Some (layout_of sample_state))
              EmptyString sample_inv) as (layout & s' & E & E' & E'' & _); [|exact Hpos|exact Hrest| |reflexivity|].
  - intros p Hp. rewrite Hmag in Hp. discriminate.
  - rewrite Htiles. simpl. lia.
  - exists layout, s'. exact (conj E (conj E' E'')).
Defined.
