(* ===== verification/GroupWorkers.v ===== *)
(** * Workers of a terminal group

    What closing, closing a subtree, demoting, promoting and reporting do, the
    worker tree, tile drops, and the quoting of worker commands. *)

From S2P Require Import Prelude F32 PaneGroup SplitGuard DropZone Persistence.
From S2P Require Import TerminalGroup GroupInvariant LayoutRestore GroupProps.
From stdpp Require Import strings gmap.
Local Open Scope Z_scope.

(** ** Closing *)

(** A worker the group can reach: it has a tile or an overflow terminal. *)
Definition live_worker (s : TG) (w : Z) : Prop :=
  is_Some (worker_panes s !! w) \/ is_Some (overflow_workers s !! w).

Global Instance live_worker_dec s w : Decision (live_worker s w).
Proof. unfold live_worker. apply _. Defined.

(** What closing the workers [ids] leaves of the maps. *)
Record closed_in (ids : list Z) (s s' : TG) : Prop := {
  ci_center : center s' = center s;
  ci_active : active_pane s' = active_pane s;
  ci_panes : forall w, worker_panes s' !! w
    = if decide (w ∈ ids) then None else worker_panes s !! w;
  ci_overflow : forall w, overflow_workers s' !! w
    = if decide (w ∈ ids) then None else overflow_workers s !! w;
  ci_metadata : forall w, worker_metadata s' !! w
    = if decide (w ∈ ids /\ live_worker s w) then None else worker_metadata s !! w;
}.

Lemma control_close_run s w :
  exists s', control_close w s = Ret (bool_decide (live_worker s w), s') /\ closed_in [w] s s'
    /\ effects s' = effects s ++
       (if decide (live_worker s w) then
          EmitWorker (Closed w) ::
          match overflow_workers s !! w, worker_panes s !! w with
          | None, Some p => [CloseAllItems p]
          | _, _ => []
          end
        else []).
Proof.
  assert (Hdel : forall A (m : gmap Z A) v, delete w m !! v
    = if decide (v ∈ [w]) then None else m !! v).
  { intros A m v. destruct (decide (v = w)) as [->|Hn].
    - rewrite lookup_delete, !decide_True by (done || by left). done.
    - rewrite lookup_delete_ne by done.
      by rewrite decide_False by (by rewrite list_elem_of_singleton). }
  assert (Hid : forall A (m : gmap Z A) v, m !! w = None -> m !! v
    = if decide (v ∈ [w]) then None else m !! v).
  { intros A m v Hm. case_decide as Hv; [|done].
    apply list_elem_of_singleton in Hv as ->. done. }
  assert (Hmeta : live_worker s w -> forall v, delete w (worker_metadata s) !! v
    = if decide (v ∈ [w] /\ live_worker s v) then None else worker_metadata s !! v).
  { intros Hl v. rewrite Hdel. destruct (decide (v ∈ [w])) as [Hv|Hv].
    - rewrite decide_True; [done|]. split; [done|].
      by apply list_elem_of_singleton in Hv as ->.
    - by rewrite decide_False by tauto. }
  unfold control_close. rewrite run_get. destruct (overflow_workers s !! w) as [o|] eqn:Eo.
  - assert (Hl : live_worker s w) by (right; eauto).
    rewrite bool_decide_eq_true_2, decide_True by done.
    eexists. split; [reflexivity|]. split; [|by tg_cbn].
    constructor; tg_cbn; auto.
  - destruct (worker_panes s !! w) as [p|] eqn:Ep.
    + assert (Hl : live_worker s w) by (left; eauto).
      rewrite bool_decide_eq_true_2, decide_True by done.
      eexists. split; [reflexivity|]. split; [|tg_cbn; by rewrite <-app_assoc].
      constructor; tg_cbn; auto.
    + assert (Hl : ~ live_worker s w).
      { intros [[? H]|[? H]]; congruence. }
      rewrite bool_decide_eq_false_2, decide_False by done.
      exists s. split; [reflexivity|]. rewrite app_nil_r. split; [|done].
      constructor; auto. intros v. rewrite decide_False; [done|].
      intros [->%list_elem_of_singleton ?]. done.
Qed.

Lemma closed_in_trans w ids s s1 s2 :
  closed_in [w] s s1 -> closed_in ids s1 s2 -> closed_in (w :: ids) s s2.
Proof.
  intros [Hc1 Ha1 Hp1 Ho1 Hm1] [Hc2 Ha2 Hp2 Ho2 Hm2]. constructor; try congruence.
  - intros v. rewrite Hp2, Hp1. repeat case_decide; set_solver.
  - intros v. rewrite Ho2, Ho1. repeat case_decide; set_solver.
  - intros v. rewrite Hm2, Hm1.
    assert (Hlive : v <> w -> live_worker s1 v <-> live_worker s v).
    { intros Hne. unfold live_worker. rewrite Hp1, Ho1.
      by rewrite !decide_False by (by rewrite list_elem_of_singleton). }
    assert (Hnot : v = w -> ~ live_worker s1 v).
    { intros ->. unfold live_worker. rewrite Hp1, Ho1, !decide_True by (by left).
      intros [[? H]|[? H]]; done. }
    repeat case_decide; rewrite ?list_elem_of_singleton, ?elem_of_cons in *;
      try done; exfalso; destruct (decide (v = w)); tauto.
Qed.

Lemma close_all_run ids b s :
  exists s', close_all ids b s
    = Ret (b || existsb (fun w => bool_decide (live_worker s w)) ids, s')
    /\ closed_in ids s s'.
Proof.
  revert b s. induction ids as [|w ids IH]; intros b s; simpl.
  - exists s. split; [by rewrite orb_false_r|].
    constructor; try done; intros v; rewrite decide_False; set_solver.
  - destruct (control_close_run s w) as (s1 & E & Hc & _). unfold mbind, M_bind. rewrite E.
    destruct (IH (b || bool_decide (live_worker s w)) s1) as (s' & E' & Hc').
    exists s'. split; [|by eapply closed_in_trans]. rewrite E'. do 2 f_equal.
    destruct (bool_decide (live_worker s w)) eqn:Ew; [simpl; by rewrite !orb_true_r|].
    rewrite orb_false_r. simpl. f_equal.
    assert (Hs : forall v, live_worker s1 v <-> live_worker s v).
    { intros v. unfold live_worker. rewrite (ci_panes _ _ _ Hc), (ci_overflow _ _ _ Hc).
      case_decide as Hv; [|done]. apply list_elem_of_singleton in Hv as ->.
      apply bool_decide_eq_false in Ew. split; [intros [[? H]|[? H]]; done|done]. }
    clear -Hs. induction ids as [|v ids IH]; simpl; [done|]. rewrite IH.
    f_equal. by apply bool_decide_ext.
Qed.

(** C35. Closing a worker's subtree always ends, cyclic parent records included,
    and closes exactly the workers reachable from the given one through recorded
    parents: each loses its tile or overflow binding and its metadata, every
    other worker keeps all of them, the tile tree itself is left to the panes'
    own closing, and the result says whether any live worker was closed. *)
Theorem close_subtree_exact s root_id :
  exists closed s', control_close_subtree root_id s = Ret (closed, s')
    /\ (forall w, descendant (worker_metadata s) root_id w ->
          worker_panes s' !! w = None /\ overflow_workers s' !! w = None
          /\ (live_worker s w -> worker_metadata s' !! w = None))
    /\ (forall w, ~ descendant (worker_metadata s) root_id w ->
          worker_panes s' !! w = worker_panes s !! w
          /\ overflow_workers s' !! w = overflow_workers s !! w
          /\ worker_metadata s' !! w = worker_metadata s !! w)
    /\ (closed = true <->
          exists w, descendant (worker_metadata s) root_id w /\ live_worker s w)
    /\ center s' = center s /\ active_pane s' = active_pane s.
Proof.
  unfold control_close_subtree. rewrite run_get.
  destruct (subtree_found (worker_metadata s) root_id) as (found & -> & Hfound).
  destruct (close_all_run (elements found) false s) as (s' & E & Hc).
  assert (Hin : forall w, w ∈ elements found <-> descendant (worker_metadata s) root_id w)
    by (intros w; by rewrite elem_of_elements).
  eexists _, s'. split; [exact E|]. destruct Hc as [Hcen Ha Hp Ho Hm]. split_and!; try done.
  - intros w Hw. apply Hin in Hw. rewrite Hp, Ho, Hm, !decide_True by done.
    split_and!; try done. intros Hl. by rewrite decide_True.
  - intros w Hw. rewrite <-Hin in Hw. rewrite Hp, Ho, Hm, !decide_False by tauto. done.
  - rewrite orb_false_l, existsb_exists. split.
    + intros (w & Hw & Hl). apply list_elem_of_In, Hin in Hw. apply bool_decide_eq_true in Hl.
      eauto.
    + intros (w & Hw & Hl). exists w. rewrite <-list_elem_of_In, Hin. split; [done|].
      by apply bool_decide_eq_true.
Qed.

(** The end of [remove_tile]: the tile leaves a tree that still has others, and
    focus moves. *)
Lemma remove_focus_effects s p focus :
  proper (root (center s)) -> p ∈ panes (center s) -> (2 <= length (panes (center s)))%nat ->
  ok (ok ← center_remove p;
      _ ← (if (ok : bool) then
             s ← get;
             first ← lift (first_pane (root (center s)));
             set_active_pane (match focus with
                              | Some c => if decide (c ∈ tiles s) then c else first
                              | None => first
                              end)
           else mret tt);
      emit UpdateTab) s
    (fun _ s' => tiles s' = remove_first p (tiles s) /\ active_pane s' ∈ tiles s'
      /\ (forall c, focus = Some c -> c ∈ tiles s' -> active_pane s' = c)
      /\ worker_panes s' = worker_panes s /\ worker_metadata s' = worker_metadata s
      /\ effects s' = effects s ++ [FocusPane (active_pane s'); EmitItem UpdateTab]).
Proof.
  intros Hp Hin Hlen. apply ok_bind. eapply ok_weaken; [by apply center_remove_ok|].
  intros b s1 (g & fl & -> & [(-> & _ & Hpg & Hpanes)|[(_ & -> & q & Hq)|(_ & _ & ?)]]);
    cbv beta; [| |done].
  - destruct (first_pane_ok (set_center (g, fl) s)) as (first & Ef & Hf); [exact Hpg|].
    tg_cbn. ok_go. tg_cbn. eapply ok_lift; [exact Ef|]. ok_go. unfold tiles. tg_cbn.
    split_and!; try done.
    + by destruct focus; [case_decide|].
    + intros c -> Hc. by rewrite decide_True.
    + by rewrite <-app_assoc.
  - unfold panes in Hlen. rewrite Hq in Hlen. simpl in Hlen. lia.
Qed.

(** Closing a tile of a grid of several: the tile leaves the tree and focus
    goes to a remaining tile; the worker on it, found by its tile rather than by
    the tile's id, is forgotten under its own id and under the tile's; and its
    closing is announced exactly when its id is not the tile's and it has
    metadata, so for a promoted worker but never for one that still lives in the
    tile it was spawned in. *)
Theorem remove_tile_forgets_worker s p w focus :
  Inv s -> worker_panes s !! w = Some p -> (2 <= length (tiles s))%nat ->
  exists s' next, remove_tile p focus s = Ret (tt, s')
    /\ tiles s' = remove_first p (tiles s)
    /\ active_pane s' = next /\ next ∈ tiles s'
    /\ (forall c, focus = Some c -> c ∈ tiles s' -> next = c)
    /\ worker_panes s' = delete w (delete p (worker_panes s))
    /\ worker_metadata s' = delete w (delete p (worker_metadata s))
    /\ effects s' = effects s
         ++ (if decide (w <> p /\ is_Some (worker_metadata s !! w))
             then [EmitWorker (Closed w)] else [])
         ++ [FocusPane next; EmitItem UpdateTab].
Proof.
  intros HI Hw Hlen.
  pose proof (ic_worker_pane _ _ _ _ _ _ _ _ _ HI _ _ Hw) as Hin.
  assert (Hid : worker_id_for_pane s p = Some w).
  { pose proof (worker_id_for_pane_spec s p) as Hs.
    destruct (worker_id_for_pane s p) as [w'|]; [|by destruct (Hs w)].
    f_equal. by apply (ic_worker_inj _ _ _ _ _ _ _ _ _ HI w' w p). }
  enough (ok (remove_tile p focus) s (fun _ s' => exists next,
    tiles s' = remove_first p (tiles s)
    /\ active_pane s' = next /\ next ∈ tiles s'
    /\ (forall c, focus = Some c -> c ∈ tiles s' -> next = c)
    /\ worker_panes s' = delete w (delete p (worker_panes s))
    /\ worker_metadata s' = delete w (delete p (worker_metadata s))
    /\ effects s' = effects s
         ++ (if decide (w <> p /\ is_Some (worker_metadata s !! w))
             then [EmitWorker (Closed w)] else [])
         ++ [FocusPane next; EmitItem UpdateTab])) as ([] & s' & E & next & H)
    by (exists s', next; by split).
  unfold remove_tile. apply ok_get.
  rewrite (proj2 (Nat.eqb_neq _ _)) by lia. cbv zeta. rewrite Hid.
  match goal with |- ok (_ ≫= ?k) _ ?Q =>
    assert (Hmain : forall m, ok (k tt) (set_magnified m s) Q) end.
  { intros m. do 4 (apply ok_modify_bind; cbv beta).
    match goal with |- ok (_ ≫= ?k) _ ?Q =>
      assert (Htail : forall s1, center s1 = center s ->
        worker_panes s1 = delete w (delete p (worker_panes s)) ->
        worker_metadata s1 = delete w (delete p (worker_metadata s)) ->
        effects s1 = effects s ++ (if decide (w <> p /\ is_Some (worker_metadata s !! w))
                                   then [EmitWorker (Closed w)] else []) ->
        ok (k tt) s1 Q) end.
    { intros s1 Hc Hwp Hmd Hef. eapply ok_weaken.
      - apply (remove_focus_effects s1 p focus); rewrite Hc; [by apply Inv_proper|done|done].
      - cbv beta. intros u s' (Ht & Ha & Hf & Hwp' & Hmd' & Hef').
        exists (active_pane s'). unfold tiles in *. rewrite Hc in Ht.
        rewrite Hef', Hef, <-app_assoc. split_and!; try done; congruence. }
    apply ok_bind, ok_modify_bind, ok_get, ok_modify_bind. cbv beta. tg_cbn.
    destruct (decide (w = p)) as [->|Hne].
    - rewrite lookup_delete, decide_True by done. apply ok_ret, Htail; try done. tg_cbn.
      rewrite decide_False by tauto. by rewrite app_nil_r.
    - rewrite lookup_delete_ne by done. destruct (worker_metadata s !! w) eqn:Em.
      + unfold emit_worker. apply ok_modify, Htail; try done. tg_cbn.
        by rewrite decide_True by (split; [done|eauto]).
      + apply ok_ret, Htail; try done. tg_cbn.
        rewrite decide_False by (intros [_ [? ?]]; done). by rewrite app_nil_r. }
  apply ok_bind, clear_magnified_ok; [intros m; apply Hmain|].
  specialize (Hmain (magnified_pane s)). by destruct s.
Qed.

Lemma remove_tile_forgets_worker_witness :
  exists s' next, remove_tile 2 None sample_state = Ret (tt, s')
    /\ tiles s' = [1; 3]
    /\ effects s' = effects sample_state ++ [FocusPane next; EmitItem UpdateTab].
Proof.
  destruct (remove_tile_forgets_worker sample_state 2 2 None sample_inv)
    as (s' & next & E & Ht & _ & _ & _ & _ & _ & Hef).
  - vm_compute. reflexivity.
  - vm_compute. lia.
  - exists s', next. split; [exact E|]. split; [rewrite Ht; vm_compute; reflexivity|exact Hef].
Defined.

(** ** Reports *)

(** A status report on a known worker is recorded in its metadata, touches no
    other worker, and is announced.  The worker listing shows it when the worker
    is on the grid; for an overflow worker the listing does not change at all,
    because it is read from the copy of the metadata the overflow entry keeps. *)
Theorem control_report_listing env s w st sm meta :
  Inv s -> worker_metadata s !! w = Some meta ->
  exists s', control_report w st sm s = Ret (true, s')
    /\ worker_metadata s'
       = <[w := mkMeta (parent_id meta) (command meta) st sm]> (worker_metadata s)
    /\ effects s' = effects s ++ [EmitWorker (Updated w st sm)]
    /\ (forall p, worker_panes s !! w = Some p ->
          exists info, info ∈ control_list env s' /\ wi_id info = w
            /\ wi_parent_id info = parent_id meta
            /\ wi_status info = st /\ wi_summary info = sm)
    /\ (is_Some (overflow_workers s !! w) -> control_list env s' = control_list env s).
Proof.
  intros HI Hm. unfold control_report. rewrite run_get, Hm.
  eexists. split; [reflexivity|]. tg_cbn. split_and!; try done.
  - intros p Hp. eexists. split.
    + unfold control_list. apply elem_of_app. left. apply list_elem_of_fmap.
      exists (w, p). split; [reflexivity|]. tg_cbn. by apply elem_of_map_to_list.
    + cbn [fst snd]. destruct (tile_title_cwd env _). tg_cbn.
      rewrite lookup_insert, decide_True by done. done.
  - intros Ho. pose proof (ic_disjoint _ _ _ _ _ _ _ _ _ HI w Ho) as Hw.
    unfold control_list. f_equal. tg_cbn. apply map_ext_in.
    intros [v p] Hin%list_elem_of_In%elem_of_map_to_list. cbn [fst snd].
    rewrite lookup_insert_ne by (intros ->; congruence). done.
Qed.

Lemma control_report_listing_witness :
  exists s', control_report OVERFLOW_ID_BASE "working" None sample_state = Ret (true, s')
    /\ control_list sample_env s' = control_list sample_env sample_state
    /\ worker_status s' OVERFLOW_ID_BASE = Some "working"%string.
Proof.
  destruct (control_report_listing sample_env sample_state OVERFLOW_ID_BASE "working" None
    (starting_meta (Some 3) "test") sample_inv) as (s' & E & Hmd & _ & _ & Hl).
  - vm_compute. reflexivity.
  - exists s'. split; [exact E|]. split; [apply Hl; vm_compute; eauto|].
    unfold worker_status. rewrite Hmd. vm_compute. reflexivity.
Defined.

(** ** Demotion and promotion *)

Lemma demote_run s w p t :
  Inv s -> worker_panes s !! w = Some p -> tile_terminal s p = Some t ->
  (2 <= length (tiles s))%nat ->
  let meta := default (mkMeta None EmptyString "working" None) (worker_metadata s !! w) in
  exists s', demote_worker w s = Ret (true, s')
    /\ Inv s' /\ tiles s' = remove_first p (tiles s)
    /\ worker_panes s' = filter (fun kv => kv.2 <> p) (delete w (worker_panes s))
    /\ overflow_workers s' = <[w := mkOverflow t meta]> (overflow_workers s)
    /\ worker_metadata s' !! w = Some meta /\ next_entity s' = next_entity s
    /\ tile_panes s' = tile_panes s.
Proof.
  intros HI Hw Ht Hlen meta.
  destruct (demote_ok (mkEnv (mkSettings f_0 f_0 default_minimum Adapt f_1 0)
    (fun _ => mkTB f_0 f_0 f_0 f_0) (fun _ => None) (fun _ => None) (fun _ => EmptyString)
    (fun _ => true) (fun _ => true) None (fun _ => None) None 0 (fun _ => 0%nat)) s w HI)
    as (b & s1 & E1 & HI1 & _).
  enough (ok (demote_worker w) s (fun b s' => b = true
    /\ tiles s' = remove_first p (tiles s)
    /\ worker_panes s' = filter (fun kv => kv.2 <> p) (delete w (worker_panes s))
    /\ overflow_workers s' = <[w := mkOverflow t meta]> (overflow_workers s)
    /\ worker_metadata s' !! w = Some meta /\ next_entity s' = next_entity s
    /\ tile_panes s' = tile_panes s)) as (b' & s' & E & -> & H).
  { rewrite E1 in E. injection E as -> ->. by exists s'. }
  unfold demote_worker. apply ok_get. rewrite (proj2 (Nat.leb_gt _ _)) by lia. rewrite Hw, Ht.
  fold meta. cbv zeta. do 4 (apply ok_modify_bind; cbv beta). apply ok_bind.
  eapply ok_weaken; [apply (remove_tile_from_tree_ok (Some w) (length (tiles s)))|].
  - unfold InvX. tg_cbn. apply core_overflow_insert.
    + eapply core_any; [|reflexivity]. eapply core_workers_sub; [exact HI|].
      by intros ? ? [_ ?]%lookup_delete_Some.
    + apply (ic_ids _ _ _ _ _ _ _ _ _ HI). left. eauto.
    + by rewrite lookup_delete, decide_True.
    + intros Hpd. destruct (ic_pending _ _ _ _ _ _ _ _ _ HI w Hpd) as (_ & ? & _). congruence.
    + done.
  - done.
  - done.
  - cbv beta. tg_cbn. intros u s2 (_ & _ & Hp & Hwp & How & Hmd & _ & Htp & _ & Hne & _).
    ok_go. unfold tiles. tg_cbn. rewrite Hmd. split_and!; try done.
    rewrite lookup_insert. by rewrite decide_True.
Qed.

Lemma promote_run env s w o :
  Inv s -> next_entity s < OVERFLOW_ID_BASE -> overflow_workers s !! w = Some o ->
  at_visible_cap env s = false ->
  exists s', promote_worker env w s = Ret (true, s') /\ Inv s'
    /\ Permutation (tiles s') (next_entity s :: tiles s)
    /\ active_pane s' = next_entity s
    /\ worker_panes s' = <[w := next_entity s]> (worker_panes s)
    /\ overflow_workers s' = delete w (overflow_workers s)
    /\ worker_metadata s' = <[w := metadata o]> (worker_metadata s)
    /\ tile_terminal s' (next_entity s) = Some (terminal_view o).
Proof.
  intros HI Hb Ho Hc. destruct (promote_ok env s w HI Hb) as (b & s1 & E1 & HI1 & _).
  enough (ok (promote_worker env w) s (fun b s' => b = true
    /\ Permutation (tiles s') (next_entity s :: tiles s)
    /\ active_pane s' = next_entity s
    /\ worker_panes s' = <[w := next_entity s]> (worker_panes s)
    /\ overflow_workers s' = delete w (overflow_workers s)
    /\ worker_metadata s' = <[w := metadata o]> (worker_metadata s)
    /\ tile_terminal s' (next_entity s) = Some (terminal_view o))) as (b' & s' & E & -> & H).
  { rewrite E1 in E. injection E as -> ->. by exists s'. }
  unfold promote_worker. apply ok_get. rewrite Hc, Ho. apply ok_modify_bind. cbv beta.
  destruct (split_total s (active_pane s) Right HI) as (g & fl & Es & Hpanes).
  unfold center_split. ok_go. tg_cbn. eapply ok_lift; [exact Es|]. ok_go.
  unfold tiles. tg_cbn. split_and!; try done.
  - rewrite Hpanes. apply split_panes_perm. by apply Inv_proper.
  - unfold tile_terminal, read_pane. tg_cbn.
    rewrite !lookup_insert, !decide_True by done. reflexivity.
Qed.

(** Sending a worker to overflow and bringing it back keeps the worker: its
    id, its live terminal and its metadata are the same throughout; in between it
    has no tile and still answers to control requests; and the grid ends with as
    many tiles as it had. *)
Theorem demote_promote_roundtrip env s w p t meta :
  Inv s -> next_entity s < OVERFLOW_ID_BASE -> worker_panes s !! w = Some p ->
  tile_terminal s p = Some t -> worker_metadata s !! w = Some meta ->
  (2 <= length (tiles s) <= max_tiles (settings env))%nat ->
  exists s1 s2, control_demote w s = Ret (true, s1)
    /\ worker_panes s1 !! w = None /\ terminal_for_worker s1 w = Some t
    /\ worker_metadata s1 !! w = Some meta /\ p ∉ tiles s1
    /\ control_focus env w s1 = Ret (true, s2)
    /\ worker_panes s2 !! w = Some (next_entity s) /\ active_pane s2 = next_entity s
    /\ overflow_workers s2 !! w = None /\ terminal_for_worker s2 w = Some t
    /\ worker_metadata s2 !! w = Some meta
    /\ length (tiles s2) = length (tiles s).
Proof.
  intros HI Hb Hw Ht Hm [Hl Hmax].
  pose proof (ic_worker_pane _ _ _ _ _ _ _ _ _ HI _ _ Hw) as Hin.
  destruct (demote_run s w p t HI Hw Ht Hl)
    as (s1 & E1 & HI1 & Ht1 & Hwp1 & How1 & Hmd1 & Hne1 & Htp1).
  rewrite Hm in *. cbn [default] in *.
  assert (Ho1 : overflow_workers s1 !! w = Some (mkOverflow t meta))
    by (rewrite How1, lookup_insert; by rewrite decide_True).
  pose proof (remove_first_perm _ _ Hin) as Hperm.
  assert (Hlen : length (tiles s) = S (length (tiles s1)))
    by (rewrite Ht1; unfold tiles in *; by rewrite Hperm at 1).
  destruct (promote_run env s1 w (mkOverflow t meta) HI1) as (s2 & E2 & HI2 & Ht2 & Ha2 & Hwp2 & How2 & Hmd2 & Htt);
    [by rewrite Hne1|exact Ho1|unfold at_visible_cap; apply Nat.leb_gt; lia|].
  rewrite Hne1 in *.
  exists s1, s2. split_and!; try done.
  - apply (ic_disjoint _ _ _ _ _ _ _ _ _ HI1). by rewrite Ho1.
  - unfold terminal_for_worker. by rewrite Ho1.
  - rewrite Ht1. pose proof (Inv_nodup _ HI) as Hnd. unfold tiles in *. rewrite Hperm in Hnd.
    by apply NoDup_cons in Hnd as [? _].
  - unfold control_focus. rewrite run_get, Ho1. exact E2.
  - rewrite Hwp2, lookup_insert. by rewrite decide_True.
  - rewrite How2, lookup_delete. by rewrite decide_True.
  - unfold terminal_for_worker. rewrite How2, lookup_delete, decide_True by done.
    rewrite Hwp2, lookup_insert, decide_True by done. exact Htt.
  - rewrite Hmd2, lookup_insert, decide_True by done. done.
  - by rewrite Ht2, Hlen.
Qed.

Lemma demote_promote_roundtrip_witness :
  exists s1 s2, control_demote 2 sample_state = Ret (true, s1)
    /\ control_focus sample_env 2 s1 = Ret (true, s2)
    /\ terminal_for_worker s2 2 = Some 100.
Proof.
  destruct (demote_promote_roundtrip sample_env sample_state 2 2 100 (starting_meta None "lead")
    sample_inv sample_bound) as (s1 & s2 & E1 & _ & _ & _ & _ & E2 & _ & _ & _ & Ht & _).
  - vm_compute. reflexivity.
  - vm_compute. reflexivity.
  - vm_compute. reflexivity.
  - vm_compute. lia.
  - exists s1, s2. split; [exact E1|]. split; [exact E2|exact Ht].
Defined.
