(* ===== verification/GroupTree.v ===== *)
(** * The worker tree

    [control_tree] lists each worker of the group at its depth below a root. *)

From S2P Require Import Prelude F32 PaneGroup SplitGuard DropZone Persistence.
From S2P Require Import TerminalGroup GroupInvariant LayoutRestore GroupProps.
From stdpp Require Import strings gmap.
Local Open Scope Z_scope.

(** A worker at its distance from a root of the parent records; a worker whose
    parent is not listed is a root. *)
Inductive at_depth (by_id : gmap Z WorkerInfo) : WorkerInfo -> nat -> Prop :=
| at_root w :
    by_id !! wi_id w = Some w -> known_parent by_id w = None -> at_depth by_id w 0
| at_child w parent pw d :
    by_id !! wi_id w = Some w -> known_parent by_id w = Some parent ->
    by_id !! parent = Some pw -> at_depth by_id pw d -> at_depth by_id w (S d).

Lemma known_parent_listed by_id w parent :
  known_parent by_id w = Some parent -> is_Some (by_id !! parent).
Proof.
  unfold known_parent. destruct (wi_parent_id w); [|done]. case_decide; [|done].
  by intros [= <-].
Qed.

Section tree.
Context (by_id : gmap Z WorkerInfo).
Hypothesis Hid : forall i w, by_id !! i = Some w -> wi_id w = i.

Definition parent_of (i : Z) : option Z := by_id !! i ≫= known_parent by_id.
Definition is_child (p i : Z) : bool := bool_decide (parent_of i = Some p).
Definition is_root (i : Z) : bool := bool_decide (parent_of i = None).

Lemma at_depth_listed w d : at_depth by_id w d -> by_id !! wi_id w = Some w.
Proof. by destruct 1. Qed.

Lemma at_depth_unique w d d' : at_depth by_id w d -> at_depth by_id w d' -> d = d'.
Proof.
  intros H. revert d'. induction H as [w Hw Hp|w p pw d Hw Hp Hpw _ IH]; intros d' H'.
  - destruct H'; congruence.
  - inversion H' as [w' Hw' Hp'|w' p' pw' d0 Hw' Hp' Hpw' H0]; subst; [congruence|].
    rewrite Hp in Hp'. injection Hp' as <-. rewrite Hpw in Hpw'. injection Hpw' as <-.
    f_equal. auto.
Qed.

Lemma group_workers_spec ids children roots :
  Forall (fun i => is_Some (by_id !! i)) ids ->
  let '(children', roots') := group_workers by_id ids children roots in
  roots' = roots ++ List.filter is_root ids
  /\ forall p, default [] (children' !! p)
               = default [] (children !! p) ++ List.filter (is_child p) ids.
Proof.
  revert children roots. induction ids as [|i ids IH]; intros children roots Hids; simpl.
  - split; [by rewrite app_nil_r|]. intros p. by rewrite app_nil_r.
  - apply Forall_cons in Hids as [[w Hw] Hids]. rewrite Hw.
    assert (Hpar : parent_of i = known_parent by_id w) by (unfold parent_of; by rewrite Hw).
    unfold is_root, is_child. rewrite Hpar. destruct (known_parent by_id w) as [q|].
    + specialize (IH (<[q:=default [] (children !! q) ++ [i]]> children) roots Hids).
      destruct (group_workers _ _ _ _) as [ch rs]. destruct IH as [-> Hch].
      split; [done|]. intros p. rewrite Hch. destruct (decide (q = p)) as [->|Hne].
      * rewrite lookup_insert, decide_True by done.
        rewrite (bool_decide_eq_true_2 (Some p = Some p)) by done. simpl.
        by rewrite <-app_assoc.
      * rewrite lookup_insert_ne by done.
        by rewrite (bool_decide_eq_false_2 (Some q = Some p)) by congruence.
    + specialize (IH children (roots ++ [i]) Hids).
      destruct (group_workers _ _ _ _) as [ch rs]. destruct IH as [-> Hch].
      split; [by rewrite <-app_assoc|]. intros p. rewrite Hch.
      by rewrite (bool_decide_eq_false_2 (None = Some p)).
Qed.

Context (ids : list Z) (children : gmap Z (list Z)).
Hypothesis Hch : forall p, default [] (children !! p) = List.filter (is_child p) ids.
Hypothesis Hids : forall i, i ∈ ids <-> is_Some (by_id !! i).

(** How many pushes are still to come. *)
Definition weight (rem : gmap Z WorkerInfo) : nat :=
  length (List.filter (fun i => match parent_of i with
                                | Some p => bool_decide (is_Some (rem !! p))
                                | None => false
                                end) ids).

Lemma weight_delete rem i :
  is_Some (rem !! i) ->
  (length (default [] (children !! i)) + weight (delete i rem) = weight rem)%nat.
Proof using Hch.
  intros Hi. rewrite Hch. unfold weight, is_child. clear Hids Hch.
  induction ids as [|c l IH]; simpl; [done|].
  destruct (parent_of c) as [p|];
    [|rewrite (bool_decide_eq_false_2 (None = Some i)) by done; exact IH].
  destruct (decide (p = i)) as [->|Hne].
  - rewrite (bool_decide_eq_true_2 (Some i = Some i)) by done.
    rewrite (bool_decide_eq_false_2 (is_Some (delete i rem !! i)))
      by (rewrite lookup_delete, decide_True by done; by intros [? ?]).
    rewrite (bool_decide_eq_true_2 (is_Some (rem !! i))) by done. simpl. lia.
  - rewrite (bool_decide_eq_false_2 (Some p = Some i)) by congruence.
    rewrite lookup_delete_ne by done. destruct (bool_decide _); simpl; lia.
Qed.

Lemma weight_initial : (length (List.filter is_root ids) + weight by_id = length ids)%nat.
Proof using.
  unfold weight, is_root. clear Hch Hids.
  induction ids as [|c l IH]; simpl; [done|].
  destruct (parent_of c) as [p|] eqn:Ep.
  - rewrite (bool_decide_eq_false_2 (Some p = None)) by done.
    rewrite (bool_decide_eq_true_2 (is_Some (by_id !! p))); [simpl; lia|].
    unfold parent_of in Ep. destruct (by_id !! c); [|done]. by eapply known_parent_listed.
  - rewrite (bool_decide_eq_true_2 (None = None)) by done. simpl. lia.
Qed.

Lemma child_spec p i :
  i ∈ default [] (children !! p) <->
  exists w, by_id !! i = Some w /\ known_parent by_id w = Some p.
Proof using Hch Hids.
  rewrite Hch, list_elem_of_In, List.filter_In, <-list_elem_of_In, Hids.
  unfold is_child, parent_of. rewrite bool_decide_eq_true. split.
  - intros [[w Hw] Hp]. rewrite Hw in Hp. eauto.
  - intros (w & Hw & Hp). rewrite Hw. split; [eauto|done].
Qed.

Definition covered (rem : gmap Z WorkerInfo) (pending : list (Z * nat)) (i : Z) : Prop :=
  rem !! i = None \/ i ∈ pending.*1.

Definition frontier (rem : gmap Z WorkerInfo) (pending : list (Z * nat)) : Prop :=
  (forall i w, by_id !! i = Some w -> known_parent by_id w = None -> covered rem pending i)
  /\ (forall i w p, by_id !! i = Some w -> known_parent by_id w = Some p ->
        rem !! p = None -> covered rem pending i).

Lemma frontier_done rem w d : frontier rem [] -> at_depth by_id w d -> rem !! wi_id w = None.
Proof using Hid.
  intros [H0 H1]. induction 1 as [w Hw Hp|w p pw d Hw Hp Hpw _ IH].
  - destruct (H0 _ _ Hw Hp) as [?|Hin]; [done|by apply elem_of_nil in Hin].
  - assert (rem !! p = None) as Hrem.
    { assert (wi_id pw = p) as <-; [|done]. by apply Hid. }
    destruct (H1 _ _ _ Hw Hp Hrem) as [?|Hin]; [done|by apply elem_of_nil in Hin].
Qed.
Lemma covered_skip rem i d rest j :
  rem !! i = None -> covered rem ((i, d) :: rest) j -> covered rem rest j.
Proof using.
  intros Hi [?|Hin]; [by left|]. simpl in Hin.
  apply elem_of_cons in Hin as [->|?]; [by left|by right].
Qed.

Lemma covered_visit rem i d d' rest j :
  covered rem ((i, d) :: rest) j ->
  covered (delete i rem) (map (fun c => (c, d')) (default [] (children !! i)) ++ rest) j.
Proof using.
  unfold covered. intros [Hj|Hin].
  - left. destruct (decide (i = j)) as [->|]; [by rewrite lookup_delete, decide_True|].
    by rewrite lookup_delete_ne.
  - simpl in Hin. apply elem_of_cons in Hin as [->|Hin].
    + left. by rewrite lookup_delete, decide_True.
    + right. rewrite fmap_app. apply elem_of_app. by right.
Qed.

Lemma frontier_visit rem i w d d' rest :
  by_id !! i = Some w -> frontier rem ((i, d) :: rest) ->
  frontier (delete i rem) (map (fun c => (c, d')) (default [] (children !! i)) ++ rest).
Proof using Hch Hids.
  intros Hw [H0 H1]. split; [intros; eapply covered_visit; eauto|].
  intros c cw p Hc Hp Hrem. destruct (decide (p = i)) as [->|Hne].
  - right. rewrite fmap_app. apply elem_of_app. left.
    assert (Hcin : c ∈ default [] (children !! i)) by (apply child_spec; eauto).
    apply list_elem_of_fmap. exists (c, d'). split; [done|].
    apply list_elem_of_fmap. by exists c.
  - rewrite lookup_delete_ne in Hrem by done. eapply covered_visit; eauto.
Qed.

(** The loop ends, lists each worker left at most once, at its depth, and lists
    every worker that has one. *)
Lemma tree_loop_spec fuel rem pending :
  rem ⊆ by_id -> (length pending + weight rem <= fuel)%nat ->
  (forall i d w, (i, d) ∈ pending -> by_id !! i = Some w -> at_depth by_id w d) ->
  frontier rem pending ->
  exists out, tree_loop fuel rem children pending = Some out
    /\ NoDup (map (fun e => wi_id e.1) out)
    /\ (forall w d, (w, d) ∈ out -> rem !! wi_id w = Some w /\ at_depth by_id w d)
    /\ (forall w d, at_depth by_id w d -> rem !! wi_id w = Some w -> (w, d) ∈ out).
Proof using Hid Hch Hids.
  revert rem pending. induction fuel as [|fuel IH]; intros rem pending Hsub Hf Hsound Hfr.
  all: destruct pending as [|[i d] rest]; cbn [tree_loop];
    [exists []; split_and!; [done|constructor|by intros ? ? ?%elem_of_nil|]
    |try (simpl in Hf; lia)].
  1,2: intros w d Hd Hrem; pose proof (frontier_done rem w d Hfr Hd); congruence.
  destruct (rem !! i) as [w|] eqn:Ei.
  - assert (Hw : by_id !! i = Some w) by (by eapply lookup_weaken).
    assert (Hwd : at_depth by_id w d) by (eapply Hsound; [by left|done]).
    assert (Hwi : wi_id w = i) by (by apply Hid).
    destruct (IH (delete i rem) (map (fun c => (c, S d)) (default [] (children !! i)) ++ rest))
      as (out & -> & Hnd & Hout & Hall).
    + etrans; [apply delete_subseteq|done].
    + pose proof (weight_delete rem i ltac:(eauto)) as Hwt.
      rewrite length_app, length_map. simpl in Hf. lia.
    + intros j e v [Hin|Hin]%elem_of_app Hv; [|eapply Hsound; [by right|done]].
      apply list_elem_of_fmap in Hin as (c & [= -> ->] & Hc).
      apply child_spec in Hc as (cw & Hcw & Hp). rewrite Hv in Hcw. injection Hcw as <-.
      eapply at_child; [|exact Hp|exact Hw|done]. by rewrite (Hid _ _ Hv).
    + by eapply frontier_visit.
    + eexists. split; [reflexivity|]. split_and!.
      * simpl. constructor; [|done]. intros Hin. apply list_elem_of_fmap in Hin as ([v e] & Hv & Hin).
        apply Hout in Hin as [Hin _]. simpl in Hv. rewrite <-Hv, Hwi, lookup_delete in Hin.
        by rewrite decide_True in Hin.
      * intros v e [[= -> ->]|Hin]%elem_of_cons; [by rewrite Hwi|].
        apply Hout in Hin as [Hin ?]. split; [|done].
        by apply lookup_delete_Some in Hin as [_ ?].
      * intros v e Hv Hrem. destruct (decide (wi_id v = i)) as [Hvi|Hvi].
        -- rewrite Hvi, Ei in Hrem. injection Hrem as ->.
           rewrite (at_depth_unique v e d Hv Hwd). by left.
        -- right. apply Hall; [done|]. by rewrite lookup_delete_ne.
  - apply IH; [done|simpl in Hf; lia| |].
    + intros j e v Hin. apply Hsound. by right.
    + destruct Hfr as [H0 H1]. split.
      * intros j v Hv Hp. apply (covered_skip _ i d); [done|by eapply H0].
      * intros j v p Hv Hp Hr. apply (covered_skip _ i d); [done|by eapply H1].
Qed.
End tree.

(** ** The listing as a map *)

Lemma listing_map (workers : list WorkerInfo) :
  NoDup (map wi_id workers) ->
  forall m : gmap Z WorkerInfo, (forall w, w ∈ workers -> m !! wi_id w = None) ->
  forall i w, fold_left (fun m w => <[wi_id w := w]> m) workers m !! i = Some w
              <-> m !! i = Some w \/ (w ∈ workers /\ wi_id w = i).
Proof.
  induction workers as [|v l IH]; intros Hnd m Hm i w; simpl.
  - split; [by left|]. intros [?|[Hw _]]; [done|by apply elem_of_nil in Hw].
  - simpl in Hnd. apply NoDup_cons in Hnd as [Hv Hnd]. rewrite IH; [|done|].
    + rewrite lookup_insert_Some, elem_of_cons. split.
      * intros [[[<- <-]|[_ ?]]|[? ?]]; [right; by split; [left|]|by left|right; auto].
      * intros [Hi|[[->|Hin] <-]].
        -- left. right. split; [|done]. intros Heq. specialize (Hm v). rewrite <-Heq in Hi.
           rewrite Hm in Hi by (by left). done.
        -- left. by left.
        -- by right.
    + intros u Hu. rewrite lookup_insert_ne; [apply Hm; by right|].
      intros Heq. apply Hv. rewrite Heq. by apply list_elem_of_fmap_2.
Qed.

(** The listing keyed by id. *)
Definition by_id_of (workers : list WorkerInfo) : gmap Z WorkerInfo :=
  fold_left (fun m w => <[wi_id w := w]> m) workers ∅.

Lemma by_id_of_spec workers i w :
  NoDup (map wi_id workers) ->
  by_id_of workers !! i = Some w <-> w ∈ workers /\ wi_id w = i.
Proof.
  intros Hnd. unfold by_id_of. rewrite listing_map; [|done|intros; apply lookup_empty].
  rewrite lookup_empty. naive_solver.
Qed.

Lemma tree_of_spec workers :
  NoDup (map wi_id workers) ->
  exists t, tree_of workers = Some t /\ NoDup (map (fun e => wi_id e.1) t)
    /\ forall w d, (w, d) ∈ t <-> at_depth (by_id_of workers) w d.
Proof.
  intros Hnd. unfold tree_of. fold (by_id_of workers).
  set (m := by_id_of workers). set (ids := map fst (map_to_list m)).
  assert (Hid : forall i w, m !! i = Some w -> wi_id w = i)
    by (intros i w Hw; by apply by_id_of_spec in Hw as [_ ?]).
  assert (Hids : forall i, i ∈ ids <-> is_Some (m !! i)).
  { intros i. unfold ids. rewrite list_elem_of_fmap. split.
    - intros ([j w] & -> & Hw%elem_of_map_to_list). eauto.
    - intros [w Hw]. exists (i, w). split; [done|]. by apply elem_of_map_to_list. }
  pose proof (group_workers_spec m ids ∅ []) as Hg.
  destruct (group_workers m ids ∅ []) as [children roots].
  destruct Hg as [-> Hch]; [by apply Forall_forall; intros i; rewrite Hids|].
  assert (Hch' : forall p, default [] (children !! p) = List.filter (is_child m p) ids)
    by (intros p; by rewrite Hch, lookup_empty).
  destruct (tree_loop_spec m Hid ids children Hch' Hids (length ids) m
    (map (fun i => (i, 0%nat)) (List.filter (is_root m) ids)))
    as (t & E & Hndt & Hout & Hall).
  - done.
  - rewrite length_map. simpl. pose proof (weight_initial m ids). lia.
  - intros i d w Hin Hw. apply list_elem_of_fmap in Hin as (j & [= -> ->] & Hj).
    rewrite list_elem_of_In, List.filter_In in Hj. destruct Hj as [_ Hj].
    apply bool_decide_eq_true in Hj. unfold parent_of in Hj. rewrite Hw in Hj.
    constructor; [|done]. by rewrite (Hid _ _ Hw).
  - split.
    + intros i w Hw Hp. right. apply list_elem_of_fmap. exists (i, 0%nat). split; [done|].
      apply list_elem_of_fmap. exists i. split; [done|]. simpl.
      rewrite list_elem_of_In, List.filter_In, <-list_elem_of_In, Hids. split; [eauto|].
      unfold is_root, parent_of. rewrite Hw. by apply bool_decide_eq_true.
    + intros i w p Hw Hp Hn. apply known_parent_listed in Hp as [? ?]. congruence.
  - exists t. split; [exact E|]. split; [done|]. intros w d. split; [apply Hout|].
    intros Hd. apply Hall; [done|]. by eapply at_depth_listed.
Qed.

(** ** The listing of a group *)

(** A tile no worker is tracked on. *)
Definition bare_tile (s : TG) (p : pane_id) : Prop :=
  p ∈ tiles s /\ forall w, worker_panes s !! w <> Some p.

Lemma control_list_ids env s :
  map wi_id (control_list env s)
  = map fst (map_to_list (worker_panes s))
    ++ List.filter (fun p => negb (existsb (fun kv => bool_decide (kv.2 = p))
                                     (map_to_list (worker_panes s)))) (tiles s)
    ++ map fst (map_to_list (overflow_workers s)).
Proof.
  unfold control_list. rewrite !map_app, !map_map. f_equal; [|f_equal].
  - apply map_ext. intros kv. by destruct (tile_title_cwd env _).
  - etrans; [|apply map_id]. apply map_ext. intros p. by destruct (tile_title_cwd env _).
  - apply map_ext. intros kv. by destruct (foreground_process env _).
Qed.

Lemma bare_tile_elem s p :
  p ∈ List.filter (fun p => negb (existsb (fun kv => bool_decide (kv.2 = p))
                                    (map_to_list (worker_panes s)))) (tiles s)
  <-> bare_tile s p.
Proof.
  rewrite list_elem_of_In, List.filter_In, <-list_elem_of_In, negb_true_iff.
  unfold bare_tile. apply and_iff_compat_l.
  rewrite <-not_true_iff_false, existsb_exists. split.
  - intros Hn w Hw. apply Hn. exists (w, p).
    split; [by apply list_elem_of_In, elem_of_map_to_list|by apply bool_decide_eq_true].
  - intros Hn ([w q] & Hin%list_elem_of_In%elem_of_map_to_list & Hq%bool_decide_eq_true).
    simpl in Hq. subst. by apply (Hn w).
Qed.

Lemma elem_of_keys {A} (m : gmap Z A) i : i ∈ map fst (map_to_list m) <-> is_Some (m !! i).
Proof.
  rewrite list_elem_of_fmap. split.
  - intros ([j a] & -> & Ha%elem_of_map_to_list). eauto.
  - intros [a Ha]. exists (i, a). split; [done|]. by apply elem_of_map_to_list.
Qed.

Lemma control_list_nodup env s : Inv s -> NoDup (map wi_id (control_list env s)).
Proof.
  intros HI. rewrite control_list_ids. apply NoDup_app. split_and!.
  - apply NoDup_fst_map_to_list.
  - intros i [p Hp]%elem_of_keys. rewrite elem_of_app, bare_tile_elem, elem_of_keys.
    intros [[Hin Hn]|Ho].
    + assert (i = p) as -> by by eapply (ic_own_tile _ _ _ _ _ _ _ _ _ HI). by apply (Hn p).
    + apply (ic_disjoint _ _ _ _ _ _ _ _ _ HI) in Ho. congruence.
  - apply NoDup_app. split_and!.
    + apply NoDup_ListNoDup, List.NoDup_filter, NoDup_ListNoDup. by apply Inv_nodup.
    + intros i [Hin _]%bare_tile_elem. rewrite elem_of_keys. intros Ho.
      by pose proof (ic_overflow_tile _ _ _ _ _ _ _ _ _ HI i Ho Hin).
    + apply NoDup_fst_map_to_list.
Qed.

(** C34. The worker tree of a group: the listing behind it has each worker on the
    grid, each overflow worker and each tile without a worker exactly once; the
    traversal ends, lists no id twice, and lists an entry at depth d exactly when
    it is d steps of recorded, listed parents below a root (so an entry caught in
    a cycle of parent records is not listed at all). *)
Theorem control_tree_spec env s :
  Inv s ->
  let listing := control_list env s in
  NoDup (map wi_id listing)
  /\ (forall i, i ∈ map wi_id listing <->
        is_Some (worker_panes s !! i) \/ bare_tile s i \/ is_Some (overflow_workers s !! i))
  /\ exists t, control_tree env s = Some t
       /\ NoDup (map (fun e => wi_id e.1) t)
       /\ forall w d, (w, d) ∈ t <-> at_depth (by_id_of listing) w d.
Proof.
  intros HI listing. pose proof (control_list_nodup env s HI) as Hnd. split_and!; [done| |].
  - intros i. unfold listing.
    by rewrite control_list_ids, !elem_of_app, !elem_of_keys, bare_tile_elem.
  - by apply tree_of_spec.
Qed.

Lemma control_tree_spec_witness :
  exists t, control_tree sample_env sample_state = Some t
    /\ NoDup (map (fun e => wi_id e.1) t).
Proof.
  destruct (control_tree_spec sample_env sample_state sample_inv) as (_ & _ & t & E & Hnd & _).
  exists t. split; [exact E|exact Hnd].
Defined.

Example sample_tree :
  option_map (map (fun e => (wi_id e.1, e.2))) (control_tree sample_env sample_state)
  = Some [(2, 0%nat); (3, 1%nat); (OVERFLOW_ID_BASE, 2%nat); (1, 0%nat)].
Proof. vm_compute. reflexivity. Qed.

(** ** Parents of restored overflow workers

    Overflow ids start over when a layout is restored, while the stored parent
    ids are those of the previous session.  Here a child of the old worker
    [OVERFLOW_ID_BASE] is stored first: it comes back with that very id as its
    own, is its own parent, and is missing from the tree. *)
Definition stale_layout : SerializedTerminalGroup :=
  mkSGroup LAYOUT_VERSION (STTile default_tile) (Some 0%nat) None None
    [mkSWorker "child" (Some OVERFLOW_ID_BASE); mkSWorker "parent" None].

Definition stale_state : TG :=
  default_state
    (match deserialize sample_env (Some stale_layout) (build_group 1) with
     | Ret (_, s) => run_ops sample_env [OpTask 1 (Some 50); OpTask 1 (Some 51)] s
     | Panic => Panic
     end).

Lemma restored_child_is_lost :
  bool_decide (is_Some (overflow_workers stale_state !! OVERFLOW_ID_BASE)) = true
  /\ parent_id <$> worker_metadata stale_state !! OVERFLOW_ID_BASE
     = Some (Some OVERFLOW_ID_BASE)
  /\ option_map (map (fun e => wi_id e.1)) (control_tree sample_env stale_state)
     = Some [OVERFLOW_ID_BASE + 1; 2].
Proof. vm_compute. auto. Qed.
