(* ===== verification/GroupDrops.v ===== *)
(** * Tile drops and worker commands

    What dropping a tile does to the tree, the drops that lose a tile, and the
    quoting of the commands workers are started with. *)

From S2P Require Import Prelude F32 PaneGroup SplitGuard DropZone Persistence.
From S2P Require Import TerminalGroup GroupInvariant LayoutRestore GroupProps.
From stdpp Require Import strings gmap.
Local Open Scope Z_scope.

(** ** Drops *)

(** C36. Dropping one tile of the group on another never loses, adds or closes a
    tile and never panics, even when the guard finds the target too small: the
    tree stays well formed with the same tiles, and focus follows the dragged
    tile.  A drop of a tile on its own centre or edge changes nothing; an outer
    drop leaves the tile at that border of the tree. *)
Theorem apply_drop_keeps_tiles env s dragged target zone :
  Inv s -> dragged ∈ tiles s -> target ∈ tiles s ->
  exists s', apply_drop env dragged target zone s = Ret (tt, s')
    /\ proper (root (center s')) /\ Permutation (tiles s') (tiles s)
    /\ (if bool_decide (dragged = target) && negb (is_outer zone) then s' = s
        else active_pane s' = dragged)
    /\ (forall d, zone = Outer d -> find_pane_at_border (center s') d = Some dragged).
Proof.
  intros HI Hd Ht. pose proof (Inv_proper _ HI) as Hp. pose proof (Inv_nodup _ HI) as Hnd.
  enough (ok (apply_drop env dragged target zone) s (fun _ s' =>
    proper (root (center s')) /\ Permutation (tiles s') (tiles s)
    /\ (if bool_decide (dragged = target) && negb (is_outer zone) then s' = s
        else active_pane s' = dragged)
    /\ (forall d, zone = Outer d -> find_pane_at_border (center s') d = Some dragged)))
    as ([] & s' & E & H) by (by exists s').
  unfold apply_drop. destruct (_ && _) eqn:Eself.
  { apply ok_ret. split_and!; try done. intros d ->. by rewrite andb_false_r in Eself. }
  cbv zeta. unfold tiles in *. destruct zone as [|d|d]; apply ok_get.
  - destruct (swap_perm (center s) dragged target (in_center s) Hp Hnd Hd Ht) as [Hp' Hperm].
    ok_go. by tg_cbn.
  - destruct (metrics_total env s target Hp) as [metrics Em].
    apply ok_bind. eapply ok_lift; [exact Em|]. cbv beta zeta.
    match goal with |- context [center_split target dragged ?x] => set (dir := x) end.
    apply ok_bind. eapply ok_weaken; [by apply center_remove_ok|].
    intros b s1 (g & fl & -> & Hcase). cbv beta.
    destruct Hcase as [(-> & _ & Hpg & Hpanes)|[(_ & -> & q & Hq)|(_ & _ & ?)]]; [| |done].
    + unfold center_split. ok_go. tg_cbn.
      destruct (split_ok g target dragged dir fl Hpg) as (g2 & E2 & Hp2 & _ & Hpanes2).
      eapply ok_lift; [exact E2|]. ok_go. tg_cbn. split_and!; try done.
      rewrite Hpanes2, Hpanes. apply reinsert_perm; [done|done|].
      rewrite <-Hpanes. by apply collect_nonempty.
    + unfold panes in *. rewrite Hq in *. simpl in *.
      apply list_elem_of_singleton in Hd, Ht. subst. by rewrite bool_decide_eq_true_2 in Eself.
  - destruct (move_to_border_ok (center s) dragged d (in_center s) Hp Hd)
      as (b & g & fl & Em & Hpg & Hperm & _ & Hb & _).
    apply ok_bind. eapply ok_lift; [exact Em|]. cbv beta iota. ok_go. tg_cbn.
    split_and!; try done. by intros d' [= <-].
Qed.

Lemma apply_drop_keeps_tiles_witness :
  exists s', apply_drop sample_env 1 3 (Outer Up) sample_state = Ret (tt, s')
    /\ Permutation (tiles s') [1; 2; 3] /\ active_pane s' = 1.
Proof.
  destruct (apply_drop_keeps_tiles sample_env sample_state 1 3 (Outer Up) sample_inv)
    as (s' & E & _ & Hperm & Ha & _).
  - apply (bool_decide_unpack _). vm_compute. exact I.
  - apply (bool_decide_unpack _). vm_compute. exact I.
  - exists s'. split; [exact E|]. split; [exact Hperm|exact Ha].
Defined.

(** The handler asks neither whether the dragged tile is one of the group's nor
    whether the target still is.  A tile of another group dropped on a centre
    takes the place of the target, which is then in no tree. *)
Lemma foreign_swap_loses_target :
  match apply_drop sample_env 77 2 Swap sample_state with
  | Ret (_, s) => tiles s = [1; 77; 3] /\ active_pane s = 77
  | Panic => False
  end.
Proof. vm_compute. auto. Qed.

(** A target that closed during the drag comes back in place of the dragged
    tile. *)
Lemma stale_swap_loses_dragged :
  match remove_tile 2 None sample_state with
  | Ret (_, s) =>
      match on_drop sample_env 3 (set_drop_target (Some (2, Swap)) s) with
      | Ret (_, s') => tiles s = [1; 3] /\ tiles s' = [1; 2]
      | Panic => False
      end
  | Panic => False
  end.
Proof. vm_compute. auto. Qed.

(** Adopting a dropped tab does not ask the cap: the group can hold more tiles
    than a stored layout may have. *)
Lemma adopt_exceeds_cap :
  match adopt_terminal sample_env (ITerminal 9) sample_state with
  | Ret (_, s) =>
      length (tiles s) = S (max_tiles (settings sample_env))
      /\ load_layout (fun _ => Some (layout_of s)) (Some (Some EmptyString))
           (max_tiles (settings sample_env)) = None
  | Panic => False
  end.
Proof. vm_compute. auto. Qed.

(** ** Quoting *)

(** How a POSIX shell reads the start of a word: quoted parts, escaped quotes and
    nothing else; the rest of the input is returned. *)
Fixpoint read_word (quoted : bool) (s : string) : option (string * string) :=
  match s with
  | EmptyString => if quoted then None else Some (EmptyString, EmptyString)
  | String c rest =>
      if quoted then
        if decide (c = squote) then read_word false rest
        else (fun r => (String c r.1, r.2)) <$> read_word true rest
      else if decide (c = squote) then read_word true rest
      else if decide (c = backslash) then
        match rest with
        | String c' rest' => (fun r => (String c' r.1, r.2)) <$> read_word false rest'
        | EmptyString => None
        end
      else Some (EmptyString, s)
  end.

(** Input a word ends before. *)
Definition word_ends (rest : string) : Prop :=
  match rest with
  | EmptyString => True
  | String c _ => c <> squote /\ c <> backslash
  end.

Lemma read_word_end rest : word_ends rest -> read_word false rest = Some (EmptyString, rest).
Proof.
  destruct rest as [|c rest]; [done|]. cbn [read_word word_ends]. intros [H1 H2].
  by rewrite !decide_False by done.
Qed.

Lemma append_cons c a b : String c a +:+ b = String c (a +:+ b).
Proof. done. Qed.

Lemma append_nil b : EmptyString +:+ b = b.
Proof. done. Qed.

Lemma append_assoc a b c : (a +:+ b) +:+ c = a +:+ (b +:+ c).
Proof. induction a as [|x a IH]; [done|]. by rewrite !append_cons, IH. Qed.

Lemma read_escaped v rest :
  word_ends rest ->
  read_word true (escape_quotes v +:+ String squote rest) = Some (v, rest).
Proof.
  intros He. induction v as [|c v IH]; cbn [escape_quotes].
  - rewrite append_nil. cbn [read_word]. rewrite decide_True by done.
    by apply read_word_end.
  - destruct (decide (c = squote)) as [->|Hc]; rewrite !append_cons; cbn [read_word].
    + rewrite !(decide_True (P := squote = squote)) by done.
      rewrite (decide_False (P := backslash = squote)) by (vm_compute; congruence).
      rewrite (decide_True (P := backslash = backslash)) by done.
      rewrite IH. done.
    + rewrite decide_False by done. by rewrite IH.
Qed.

(** A quoted value is read back by the shell as one word with exactly the
    value's characters, whatever they are (quotes, spaces, [$], newlines), and
    reading stops where the quoting stops. *)
Theorem shell_quote_roundtrip v rest :
  word_ends rest -> read_word false (shell_quote v +:+ rest) = Some (v, rest).
Proof.
  intros He. unfold shell_quote. rewrite append_cons. cbn [read_word].
  rewrite decide_True by done. rewrite append_assoc, append_cons, append_nil.
  by apply read_escaped.
Qed.

Lemma shell_quote_roundtrip_witness :
  read_word false (shell_quote "it's $HOME" +:+ "; ls") = Some ("it's $HOME", "; ls")%string.
Proof.
  apply (shell_quote_roundtrip "it's $HOME" "; ls"). vm_compute. split; congruence.
Defined.
